(* ===== verification/_CoqProject ===== *)
-Q . S2P
Base.v
Bits.v
Collections.v
Slices.v
Mem.v
Buddy.v
BuddyFacts.v
BuddyOps.v
BuddySpec.v
Paging.v
PagingFacts.v
PagingWalk.v
PagingSpec.v
RangeMap.v
Resource.v
Arena.v
IdAlloc.v
SysCall.v
UserPtr.v
Ext.v
ExtFacts.v
ExtSpec.v
PhysSpec.v
Virt.v
VirtSpec.v
SpaceSpec.v
Rpc.v
RpcSpec.v
Bootfs.v
BootfsSpec.v
Path.v
PathFacts.v
PathSpec.v
PathJoin.v
HashMap.v
HashSpec.v
Handles.v
HandleSpec.v
Ipc.v
IpcFacts.v
IpcNotify.v
IpcSpec.v
Channel.v
ChannelSpec.v
Heap.v
HeapFacts.v
HeapSpec.v
Sched.v
SchedFacts.v
SchedInv.v
SchedSpec.v
SchedWake.v
SchedTimer.v
Threads.v
Locks.v
RwLock.v
RwSpec.v
Deque.v
Arsc.v
MemCalls.v
MemSpec.v
Libc.v
LibcMem.v
LibcTok.v
LocalFs.v
LocalFsTree.v
LocalFsSpec.v
MemFs.v
MemFsSpec.v
MemBuild.v
FsCompose.v
Stream.v
StreamSpec.v
FileServer.v
FileSpec.v
Elf.v
ElfSpec.v
ElfLoad.v
Dso.v
DsoSpec.v
