(* ===== verification/Base.v ===== *)
(** * A verification library for the H2O microkernel of Oceanic

    Oceanic is an operating system in Rust. Its kernel, H2O ([h2o/kernel] with the
    libraries of [h2o/libs]), manages physical frames, page tables, address spaces
    and a heap, schedules tasks, hands out objects to them by handles, and offers
    events, dispatchers and channels for communication. Programs use it through the
    libraries of [src/lib]. This library translates the parts of them that carry
    their guarantees into Rocq functions and proves what they promise.

    ** How the code is translated

    A Rust expression becomes a value of [res E A] (a result, an error or a panic);
    code with state becomes a function of [st S E A] that threads the state and
    keeps it on errors. Both are monads with the usual notation. Integers are [Z]
    with their width written out: [+!], [-!] and [*!] panic on overflow or wrap
    according to [Profile], the build profile, over which all theorems are
    quantified. A [static] or shared object is a component of the state; pointers
    and [Arc]s are keys of a map, so that aliasing is kept; a [Weak] reference is a
    key that may be absent. Locks make an operation one step; where the code
    releases a lock or uses atomics, the operation is split into the steps between
    which others can act. Types of other crates ([intrusive_collections],
    [crossbeam_queue], [bitvec]) are classes with the laws their documentation
    states; each has an instance on lists, at which the witnesses are evaluated.

    ** Files

    - [Base], [Bits], [Collections]: the monads, machine integers and tactics;
      [libs/bitop_ex]; the interfaces of the foreign collections.
    - [Slices], [Mem]: what is used of the standard library, layouts, methods of
      slices and bytes in memory; [BTreeMap] is at the start of [RangeMap].
    - [Buddy], [BuddyFacts], [BuddyOps], [BuddySpec]: [libs/pmm], the buddy
      allocator of frames. The state is the free lists and the order field of each
      frame. Each public operation is a transition of the set of free frames: what
      is allocated was free, aligned and is free no longer, what is given back is
      merged, and the invariant of the lists is kept.
    - [Paging], [PagingFacts], [PagingWalk], [PagingSpec]: [libs/paging]. Memory is
      a map of 64-bit words, the tables are in it. After [maps] the walk of [query]
      finds exactly the new mapping, every other address as before, or [maps] fails for a
      reason that is stated and takes the pages back; entries are read back as they were
      written.
    - [RangeMap], [Resource]: [collection_ex::range_map] and [kernel/src/dev/res.rs].
      Allocated ranges lie in the parent's and are apart from each other.
    - [Arena], [IdAlloc]: the lock-free arena under any interleaving of its atomic
      actions, and [collection_ex::id_alloc].
    - [SysCall], [UserPtr]: error codes, registers, handles and flags of
      [libs/syscall]; the checked accesses of [kernel/src/syscall/user_ptr.rs],
      which copy only in the user's part of the address space.
    - [Ext], [ExtFacts], [ExtSpec], [PhysSpec]: the physical objects of
      [kernel/src/mem/space/phys]. The pages of an extensible object are shared with
      its copies until they are written; writing to one is seen in no other, as long as no
      copies are made of copies. Windows into contiguous memory stay inside of it.
    - [Virt], [VirtSpec], [SpaceSpec]: the address spaces of
      [kernel/src/mem/space]. The children of a range are apart and inside of it
      whatever is allocated and mapped with the alignment of a page, unmapped and dropped;
      the search for room finds
      every place for some random number; and [Virt::map], over the search, the
      physical object and [maps] of the page tables, makes exactly the new pages
      translate to exactly the object.
    - [HashMap], [HashSpec]: [collection_ex::chash_map], a refinement of
      finite maps as long as no hash is close to the end of the words.
    - [Handles], [HandleSpec]: [kernel/src/sched/task/hdl.rs]. Rights only shrink,
      and sending handles takes all of them or none.
    - [Ipc], [IpcFacts], [IpcNotify], [IpcSpec]: events, blockers and dispatchers of
      [kernel/src/sched/ipc.rs], [ipc/basic.rs] and [imp/waiter.rs]. In every
      reachable state, requests, notifications, cancelled events and dropped ones in any
      order, no waiter that is registered sleeps through a level that is set; notification
      ends.
    - [Channel], [ChannelSpec]: [kernel/src/sched/ipc/channel.rs]. Packets arrive in
      the order they were sent, each once.
    - [Heap], [HeapFacts], [HeapSpec]: [libs/heap], the slab allocator and its thread
      cache. Objects in use are disjoint, aligned and large enough.
    - [Sched], [SchedFacts], [SchedInv], [SchedSpec], [SchedWake], [SchedTimer]: the scheduler of
      [kernel/src/sched/imp.rs] with the states of tasks ([task/sm.rs]), identifiers
      ([task/tid.rs]), signals, timers ([cpu/time/timer.rs]), wait objects and futexes
      ([sched/wait]). The state has a record for each processor and the objects that
      processors share; [runs] is any sequence of operations of tasks, interrupts and
      timers. No task is in two places, and unless an allocation fails every task in the
      table of identifiers is in one; a ready task runs when the tasks before it have had
      a slice or left, a task is only sent to processors it may run on, waiting tasks are
      woken in their order, and ticks fire all timers that are due. An operation ends
      where the processor is switched to another task.
    - [Rpc], [RpcSpec]: the packets of [lib/h2o_rpc/core]. What is sent of the types
      built from the instances, other than optional objects, is read back, and reading what anybody sent is safe.
    - [Bootfs], [BootfsSpec]: [lib/bootfs]. An image is read as the tree it was
      generated from.
    - [Path], [PathFacts], [PathSpec], [PathJoin]: [h2o_std]'s [path.rs].
      The component iterator is a double-ended queue over the list of components;
      equality, order and hash are those of this list; joining, stripping a prefix
      and taking the parent are operations on it.
    - [Threads], [Locks], [RwLock], [RwSpec]: interleavings of
      threads, each of which is at a point of its code and takes atomic steps on
      shared memory; over them the mutex, the parker and the reader-writer lock of
      [h2o_std]. Holders exclude each other and nobody who should be woken sleeps on.
    - [Deque]: the work-stealing deque of
      [kernel/src/sched/imp/deque.rs] (push, pop, steal).
      Under any interleaving a task is taken once, and in order where it is a queue.
    - [Arsc]: the reference counter of [kernel/src/sched/ipc/arsc.rs]. The
      value is dropped and freed once, after the last reference.
    - [MemCalls], [MemSpec]: the system calls of
      [kernel/src/mem/syscall.rs] over handles, user pointers, physical objects and
      address spaces: which error each gives when, that what is mapped is within the
      rights of the handle, and that handles keep their types.
    - [Libc], [LibcMem], [LibcTok]: strings, characters and
      environment of the C library ([libc/src/ffi]) over bytes in memory: what they
      leave in memory and what they return.
    - [LocalFs], [LocalFsTree], [LocalFsSpec]: the name space of a process,
      [h2o_fs/src/fs.rs]. Paths are walked as a stack of
      names that never leaves the root; mounting and unmounting change one place;
      opening asks exactly the entry that is mounted above the path. The other sides of
      the channels are a parameter.
    - [MemFs], [MemFsSpec], [MemBuild], [FsCompose]: the file systems in memory of
      [h2o_fs/src/mem] that are served at such a mount: opening, linking, renaming and
      listing directories, and building a tree. No connection has more than the
      permissions of its node, moving an entry never loses it, and a file that is opened
      through the name space of a process and then through the tree behind the mount is
      the one whose path is the rest of the path.
    - [Stream], [StreamSpec]: the streams of [h2o_async/src/io.rs] over physical
      objects, which are a class; calls on one may have to wait, and then report no
      length. Without waiting, reading and writing several buffers is reading and writing
      one piece at the position.
    - [FileServer], [FileSpec]: [h2o_fs/src/file] and [mem/file.rs], files that are
      served over any number of connections. As long as nothing waits, what one writes
      another reads; no reply gives bytes or changes the file without the permission, other
      than by handing out the object itself, which is not guarded; and locks are kept.
    - [Elf], [ElfSpec]: [libc/ldso/src/elf.rs]. Relative relocations move exactly the
      words their bitmaps name, and the search in a hash table of symbols finds what a
      search through all symbols finds.
    - [ElfLoad]: [lib/elfload]. A file that is loaded is in memory as its segments say,
      and one that cannot be loaded changes nothing outside of the range it was given. The
      address space is a class.
    - [Dso], [DsoSpec]: the dynamic linker, [libc/ldso/src/dso.rs]. Its world is the
      memory of the process, the linked objects and the functions it has called. Names
      are bound to the definition that the order of the objects and the kind of the
      symbols say, relocations write its address, and every object is initialised once
      and finished once, in the reverse order, however often it is asked for.

    The modules whose names end in [Witness], and [Concrete], [Example], [Aba] and
    [Hazards], evaluate the definitions at concrete inputs: they show that the
    hypotheses of the theorems can be met, and record behaviours outside of what the components
    promise (races, deadlocks, lost requests).

    ** Fuel and bounds

    Loops of the code are structural on what they run over (the orders of the
    buddy allocator, the levels of a table, the slots of a table). Where this is
    not so there is fuel. [maps], [unmaps] and [reprotect] take at most one turn for
    each page of 4 KiB of the range; [notify] nests at most once for each event and
    once more, since each nested call sets a signal that was clear; [insert] of the
    hash map takes two turns, since the first one that finds no slot enlarges the
    table; filling the cache of the heap takes as many as it has places; following
    the parents of a physical object takes one turn for each object there is; the
    loops over a path take one for each byte and each state of the iterator; those
    over a queue of waiting tasks or of timers take one for each element and one more;
    a string of C ends within as many bytes as the memory holds. The trees of the name
    space are walked along the components of a path. The loops over a table of
    relocations take one turn for each entry and, within a bitmap, at most 64; those
    over the linked objects one for each object and one more. The length of the last
    chain of a hash table and the depth of dependencies are bounds that are arguments:
    the code follows them as far as the memory says. Counters that only grow overflow
    in the end: the theorems on the deque and on [Arsc] are about fewer than [2 ^ 62]
    atomic steps, those on the reader-writer lock about fewer than [2 ^ 30 - 2] threads
    and, for waking, fewer than [2 ^ 64] steps.
    The theorems on these show that the fuel is enough: their conclusions exclude
    running out of it.

    ** What is not modelled

    Code that only drives the machine: the boot loader, entry and context switch
    code, descriptor tables, [archop], the drivers of the interrupt controllers and
    clocks. Macros and generators run at build time. Memory orders weaker than
    sequential consistency are not considered, nor is the reclamation of the buffers of
    the deque; stealing in batches, the injector and the asynchronous runtime are left
    out. Allocation failure of [Arc] is left out where a file says so. System calls
    other than those on memory and tasks, which look up handles and copy arguments around a
    modelled operation, are not translated, nor are loading of programs by the kernel and
    exceptions. Of the libraries of user space the packets, the
    boot file system, paths, locks, strings of C, the name space, the file systems in
    memory with their streams, and the loader and the linker of programs are modelled;
    a call or a request is one step, so that an iterator that holds the lock of its
    directory is not seen, nor is waiting within a call. What functions do that the
    linker calls is not modelled. The rest is asynchronous input and output, raw
    pointers at foreign interfaces, or wraps one system call. *)

From Stdlib Require Export ZArith Lia.
From stdpp Require Export prelude gmap.

#[export] Set Default Goal Selector "!".
Local Open Scope Z_scope.

(** ** Outcomes

    [res E A] is what a Rust expression of type [Result<A, E>] (or of type [A],
    with [E] left free) evaluates to once panics are made explicit. *)

Inductive res (E A : Type) : Type :=
  | Ok (a : A)
  | Err (e : E)
  | Panic.
Arguments Ok {E A} a.
Arguments Err {E A} e.
Arguments Panic {E A}.

#[export] Instance res_eq_dec `{EqDecision E, EqDecision A} : EqDecision (res E A).
Proof. solve_decision. Defined.

#[export] Instance res_ret E : MRet (res E) := λ A a, Ok a.

(** [?] and panic propagation. *)
#[export] Instance res_bind E : MBind (res E) := λ A B f m,
  match m with Ok a => f a | Err e => Err e | Panic => Panic end.

Definition of_option {E A} (e : E) (o : option A) : res E A :=
  match o with Some a => Ok a | None => Err e end.

(** [Option::unwrap], [Option::expect]. *)
Definition unwrap {E A} (o : option A) : res E A :=
  match o with Some a => Ok a | None => Panic end.

Definition map_err {E E' A} (f : E → E') (r : res E A) : res E' A :=
  match r with Ok a => Ok a | Err e => Err (f e) | Panic => Panic end.

(** [assert!]. *)
Definition assert_ {E} (b : bool) : res E () := if b then Ok () else Panic.

Definition is_ok {E A} (r : res E A) : bool :=
  match r with Ok _ => true | _ => false end.

(** ** State, errors and panics

    [st S E A] is a computation over the mutable state [S]; an error keeps the
    state it was raised in, as the writes made before it are not undone. *)

Definition st (S E A : Type) : Type := S → res E A * S.

#[export] Instance st_ret S E : MRet (st S E) := λ A a s, (Ok a, s).
#[export] Instance st_bind S E : MBind (st S E) := λ A B f m s,
  match m s with
  | (Ok a, s') => f a s'
  | (Err e, s') => (Err e, s')
  | (Panic, s') => (Panic, s')
  end.

Definition lift {S E A} (r : res E A) : st S E A := λ s, (r, s).
Definition get {S E} : st S E S := λ s, (Ok s, s).
Definition put {S E} (s : S) : st S E () := λ _, (Ok (), s).
Definition modify {S E} (f : S → S) : st S E () := λ s, (Ok (), f s).

(** The value of a fallible call that the caller inspects instead of
    propagating with [?]; panics still propagate. *)
Definition attempt {S E E' A} (m : st S E A) : st S E' (E + A) := λ s,
  match m s with
  | (Ok a, s') => (Ok (inr a), s')
  | (Err e, s') => (Ok (inl e), s')
  | (Panic, s') => (Panic, s')
  end.

(** Running a computation one statement at a time. *)
Lemma st_bind_ok {S E A B} (m : st S E A) (k : A → st S E B) s a s' :
  m s = (Ok a, s') → (m ≫= k) s = k a s'.
Proof. unfold mbind, st_bind. by intros ->. Qed.

Lemma st_bind_err {S E A B} (m : st S E A) (k : A → st S E B) s e s' :
  m s = (Err e, s') → (m ≫= k) s = (Err e, s').
Proof. unfold mbind, st_bind. by intros ->. Qed.

Lemma st_bind_panic {S E A B} (m : st S E A) (k : A → st S E B) s s' :
  m s = (Panic, s') → (m ≫= k) s = (Panic, s').
Proof. unfold mbind, st_bind. by intros ->. Qed.

Lemma st_lift_ok {S E A B} (r : res E A) (k : A → st S E B) s a :
  r = Ok a → (lift r ≫= k) s = k a s.
Proof. by intros ->. Qed.

Lemma st_ret_bind {S E A B} (a : A) (k : A → st S E B) s : (mret a ≫= k) s = k a s.
Proof. done. Qed.

Lemma st_get_bind {S E B} (k : S → st S E B) s : (get ≫= k) s = k s s.
Proof. done. Qed.

Lemma st_put_bind {S E B} (s' : S) (k : () → st S E B) s : (put s' ≫= k) s = k () s'.
Proof. done. Qed.

Lemma st_modify_bind {S E B} (f : S → S) (k : () → st S E B) s : (modify f ≫= k) s = k () (f s).
Proof. done. Qed.

Lemma res_bind_ok {E A B} (r : res E A) (k : A → res E B) a : r = Ok a → (r ≫= k) = k a.
Proof. by intros ->. Qed.

(** Runs that succeed, taken apart. *)
Lemma st_ok_inv {S E A B} (m : st S E A) (k : A → st S E B) s b s' : (m ≫= k) s = (Ok b, s') → ∃ a s1, m s = (Ok a, s1) ∧ k a s1 = (Ok b, s').
Proof. unfold mbind, st_bind. destruct (m s) as [[a|e|] s1]; intros H; [by exists a, s1|done|done]. Qed.
Lemma st_lift_inv {S E A B} (r : res E A) (k : A → st S E B) s b s' : (lift r ≫= k) s = (Ok b, s') → ∃ a, r = Ok a ∧ k a s = (Ok b, s').
Proof. unfold mbind, st_bind, lift. destruct r as [a| |]; [eauto|done..]. Qed.
Lemma map_err_ok {E E' A} (f : E → E') (r : res E A) a : map_err f r = Ok a → r = Ok a.
Proof. destruct r; cbn; congruence. Qed.

(** A computation that keeps an invariant of the state, whatever it returns. *)
Definition keeps {S E A} (I : S → Prop) (m : st S E A) : Prop := ∀ s, I s → I (snd (m s)).

Section keeps.
Context {S E : Type} (I : S → Prop).

Lemma keeps_ret {A} (a : A) : keeps I (mret a : st S E A).
Proof. by intros s. Qed.

Lemma keeps_lift {A} (r : res E A) : keeps (S:=S) I (lift r).
Proof. by intros s. Qed.

Lemma keeps_get : keeps I (get : st S E S).
Proof. by intros s. Qed.

Lemma keeps_attempt {E' A} (m : st S E A) : keeps I m → keeps (E:=E') I (attempt m).
Proof. intros Hm s Hs. specialize (Hm s Hs). unfold attempt. by destruct (m s) as [[]]. Qed.

Lemma keeps_bind {A B} (m : st S E A) (k : A → st S E B) :
  keeps I m → (∀ a, keeps I (k a)) → keeps I (m ≫= k).
Proof.
  intros Hm Hk s Hs. specialize (Hm s Hs). unfold mbind, st_bind.
  destruct (m s) as [[a| |] s']; [by apply Hk|done..].
Qed.
End keeps.

(** ** Machine integers

    A [w]-bit unsigned integer is a [Z] in [[0, 2^w)]. Plain [+], [-], [*] and
    [<<] panic on overflow when the crate is built with overflow checks (the
    debug profile) and wrap otherwise (the release profile); both builds are
    covered by the class [Profile], over which every definition that uses plain
    arithmetic is abstracted. *)

Class Profile : Type := overflow_checks : bool.
Definition debug_profile : Profile := true.
Definition release_profile : Profile := false.

Definition wrap (w z : Z) : Z := z mod 2 ^ w.
Definition fits (w z : Z) : bool := (0 <=? z) && (z <? 2 ^ w).

Definition checked {E} `{P : Profile} (w z : Z) : res E Z :=
  if fits w z then Ok z else if overflow_checks then Panic else Ok (wrap w z).

Definition uadd {E} `{P : Profile} (w a b : Z) : res E Z := checked w (a + b).
Definition usub {E} `{P : Profile} (w a b : Z) : res E Z := checked w (a - b).
Definition umul {E} `{P : Profile} (w a b : Z) : res E Z := checked w (a * b).

(** [a << b]: only an amount of [w] or more is an overflow; bits shifted out
    are lost silently, and without checks the amount is masked. *)
Definition ushl {E} `{P : Profile} (w a b : Z) : res E Z :=
  if (0 <=? b) && (b <? w) then Ok (wrap w (Z.shiftl a b))
  else if overflow_checks then Panic
  else Ok (wrap w (Z.shiftl a (b mod w))).

(** [usize] and [u64] of the only supported target, x86_64. *)
Abbreviation W := 64.
Definition MAX64 : Z := 2 ^ 64 - 1.

(** ** Notation of the development *)

Declare Scope h2o_scope.
Delimit Scope h2o_scope with h2o.
Infix "+!" := (uadd W) (at level 50, left associativity) : h2o_scope.
Infix "-!" := (usub W) (at level 50, left associativity) : h2o_scope.
Infix "*!" := (umul W) (at level 40, left associativity) : h2o_scope.
Infix "<<!" := (ushl W) (at level 50, left associativity) : h2o_scope.

(** ** Tactics *)

(** Turn boolean comparisons of the context and the goal into propositions. *)
Ltac zbool :=
  repeat match goal with
  | H : (_ && _)%bool = true |- _ => apply andb_true_iff in H as [? ?]
  | H : (_ || _)%bool = false |- _ => apply orb_false_iff in H as [? ?]
  | H : negb _ = true |- _ => apply negb_true_iff in H
  | H : negb _ = false |- _ => apply negb_false_iff in H
  | H : (_ <? _) = true |- _ => apply Z.ltb_lt in H
  | H : (_ <? _) = false |- _ => apply Z.ltb_ge in H
  | H : (_ <=? _) = true |- _ => apply Z.leb_le in H
  | H : (_ <=? _) = false |- _ => apply Z.leb_gt in H
  | H : (_ =? _) = true |- _ => apply Z.eqb_eq in H
  | H : (_ =? _) = false |- _ => apply Z.eqb_neq in H
  | H : bool_decide _ = true |- _ => apply bool_decide_eq_true in H
  | H : bool_decide _ = false |- _ => apply bool_decide_eq_false in H
  end.

(** One statement of a computation, with the lemma that gives its value. *)
Tactic Notation "run" uconstr(H) :=
  first [erewrite st_bind_ok; [|eapply H] | erewrite st_lift_ok; [|eapply H]
        | erewrite res_bind_ok; [|eapply H]];
  [cbv beta iota zeta|try first [done | lia]..].

(** Case analysis on the head of every [if] and [match] of the goal. *)
Ltac split_ifs :=
  repeat match goal with
  | |- context [if ?b then _ else _] => let E := fresh "E" in destruct b eqn:E
  end; zbool.

(** ** Generic lemmas *)

Section machine.
Context `{P : Profile}.

Lemma fits_iff w z : fits w z = true ↔ 0 ≤ z < 2 ^ w.
Proof. unfold fits. rewrite andb_true_iff, Z.leb_le, Z.ltb_lt. lia. Qed.

Lemma wrap_small w z : 0 ≤ z < 2 ^ w → wrap w z = z.
Proof. apply Z.mod_small. Qed.

Lemma wrap_bound w z : 0 ≤ w → 0 ≤ wrap w z < 2 ^ w.
Proof. intros. apply Z.mod_pos_bound. lia. Qed.

Lemma checked_ok {E} w z : 0 ≤ z < 2 ^ w → checked (E:=E) w z = Ok z.
Proof. intros H. unfold checked. by rewrite (proj2 (fits_iff w z) H). Qed.

Lemma uadd_ok {E} w a b : 0 ≤ a + b < 2 ^ w → uadd (E:=E) w a b = Ok (a + b).
Proof. apply checked_ok. Qed.
Lemma usub_ok {E} w a b : 0 ≤ a - b < 2 ^ w → usub (E:=E) w a b = Ok (a - b).
Proof. apply checked_ok. Qed.
Lemma umul_ok {E} w a b : 0 ≤ a * b < 2 ^ w → umul (E:=E) w a b = Ok (a * b).
Proof. apply checked_ok. Qed.

Lemma ushl_ok {E} w a b :
  0 ≤ b < w → 0 ≤ a * 2 ^ b < 2 ^ w → ushl (E:=E) w a b = Ok (a * 2 ^ b).
Proof.
  intros Hb Ha. unfold ushl.
  rewrite (proj2 (Z.leb_le 0 b)), (proj2 (Z.ltb_lt b w)) by lia. simpl.
  rewrite Z.shiftl_mul_pow2 by lia. by rewrite wrap_small.
Qed.
End machine.

(** Bit-level reasoning: two integers are equal when their bits are. *)
Create HintDb h2o_bits.
Create HintDb h2o_keeps.
#[export] Hint Resolve keeps_ret keeps_lift keeps_get keeps_attempt keeps_bind : h2o_keeps.
Create HintDb h2o_maps.
#[export] Hint Rewrite Z.land_spec Z.lor_spec Z.lxor_spec Z.ldiff_spec : h2o_bits.
#[export] Hint Rewrite Z.shiftr_spec Z.shiftl_spec Z.lnot_spec using lia : h2o_bits.
#[export] Hint Rewrite Z.testbit_0_l : h2o_bits.

Lemma testbit_high w z i : 0 ≤ z < 2 ^ w → 0 ≤ w ≤ i → Z.testbit z i = false.
Proof.
  intros Hz Hi. destruct (Z.eq_dec z 0) as [->|]; [apply Z.testbit_0_l|].
  apply Z.bits_above_log2; [lia|].
  apply Z.log2_lt_pow2; [lia|]. pose proof (Z.pow_le_mono_r 2 w i). lia.
Qed.

(** [z & (2^k - 1)] and [z & !(2^k - 1)], as the source writes the masks. *)
Lemma land_ones_mod z k : 0 ≤ k → Z.land z (2 ^ k - 1) = z mod 2 ^ k.
Proof. intros. rewrite <- Z.land_ones, Z.ones_equiv by lia. f_equal; lia. Qed.

Lemma lor_land_disjoint a b : Z.land a b = 0 → Z.lor a b = a + b.
Proof. intros H. rewrite <- Z.lxor_lor by done. symmetry. by apply Z.add_nocarry_lxor. Qed.

Lemma land_shifted_low a b k :
  0 ≤ k → a mod 2 ^ k = 0 → 0 ≤ b < 2 ^ k → Z.land a b = 0.
Proof.
  intros Hk Ha Hb. apply Z.bits_inj'. intros i Hi.
  rewrite Z.land_spec, Z.testbit_0_l.
  destruct (Z.lt_ge_cases i k).
  - rewrite <- (Z.mod_pow2_bits_low a k i), Ha, Z.testbit_0_l by lia. done.
  - rewrite (testbit_high k b i) by lia. apply andb_false_r.
Qed.

Lemma pow2_pos k : 0 ≤ k → 0 < 2 ^ k.
Proof. intros. apply Z.pow_pos_nonneg; lia. Qed.
#[export] Hint Resolve pow2_pos : h2o_bits.

(** ** Lists *)

Lemma filter_id {A} (Q : A → Prop) `{∀ x, Decision (Q x)} (l : list A) :
  (∀ x, x ∈ l → Q x) → filter Q l = l.
Proof.
  induction l as [|x l IH]; intros Hl; [done|].
  rewrite filter_cons_True by (apply Hl, list_elem_of_here). f_equal.
  apply IH. intros y Hy. by apply Hl, list_elem_of_further.
Qed.

Lemma list_alter_insert {A} (g : A → A) (l : list A) i x :
  l !! i = Some x → alter g i l = <[i := g x]> l.
Proof.
  revert i. induction l as [|y l IH]; intros [|i] Hi; simplify_eq/=; [done|].
  f_equal. by apply IH.
Qed.
