(* ===== verification/Bits.v ===== *)
(** * Bit operations ([h2o/libs/bitop_ex])

    The extension trait [BitOpEx] used by every memory component: rounding to a
    power of two, division rounding up, the positions of the lowest and highest
    set bits and the two logarithms. The trait is generic over the primitive
    integer types, so the definitions take the width [w]. *)

From S2P Require Import Base.
Local Open Scope Z_scope.

(** [core::intrinsics::cttz] and [ctlz]: the width on zero. *)
Fixpoint pos_tz (p : positive) : Z :=
  match p with xO q => 1 + pos_tz q | _ => 0 end.

Definition cttz (w x : Z) : Z :=
  match x with Zpos p => pos_tz p | _ => w end.

Definition ctlz (w x : Z) : Z :=
  match x with Zpos p => w - 1 - Z.log2 (Zpos p) | _ => w end.

Section bitop_ex.
Context `{P : Profile} {E : Type}.

Definition BIT_SIZE (w : Z) : Z := w.

Definition round_up_bit (w self bit : Z) : res E Z :=
  val ← ushl w 1 bit;
  Ok (wrap w (Z.lor (wrap w (self - 1)) (wrap w (val - 1)) + 1)).

Definition round_down_bit (w self bit : Z) : res E Z :=
  val ← ushl w 1 bit;
  Ok (Z.land self (2 ^ w - 1 - wrap w (val - 1))).

(** [>>] has the same overflow rule as [<<]. *)
Definition ushr (w a b : Z) : res E Z :=
  if (0 <=? b) && (b <? w) then Ok (Z.shiftr a b)
  else if overflow_checks then Panic
  else Ok (Z.shiftr a (b mod w)).

Definition div_ceil_bit (w self bit : Z) : res E Z :=
  up ← round_up_bit w self bit;
  ushr w up bit.

Definition lsb (w self : Z) : Z := cttz w self.

Definition msb (w self : Z) : res E Z :=
  n ← uadd w (ctlz w self) 1;
  Ok (wrap w (BIT_SIZE w - n)).

Definition log2f (w self : Z) : res E Z := msb w self.

Definition log2c (w self : Z) : res E Z :=
  m ← msb w self;
  uadd w m (if bool_decide (m = lsb w self) then 0 else 1).

Definition contains_bit (self bit : Z) : bool :=
  negb (Z.land self bit =? 0).
End bitop_ex.

(** ** Reference definitions: rounding as division *)

Definition align_down (x bit : Z) : Z := x / 2 ^ bit * 2 ^ bit.
Definition align_up (x bit : Z) : Z := align_down (x + 2 ^ bit - 1) bit.

Lemma align_down_bounds x bit :
  0 ≤ bit → align_down x bit ≤ x < align_down x bit + 2 ^ bit.
Proof.
  intros Hb. unfold align_down. pose proof (pow2_pos bit Hb).
  pose proof (Z.mod_pos_bound x (2 ^ bit)). pose proof (Z.div_mod x (2 ^ bit)). lia.
Qed.

Lemma align_down_aligned x bit : align_down x bit mod 2 ^ bit = 0.
Proof. unfold align_down. apply Z_mod_mult. Qed.

Lemma align_up_bounds x bit :
  0 ≤ bit → x ≤ align_up x bit < x + 2 ^ bit.
Proof. intros Hb. pose proof (align_down_bounds (x + 2 ^ bit - 1) bit Hb). unfold align_up. lia. Qed.

Lemma align_up_aligned x bit : align_up x bit mod 2 ^ bit = 0.
Proof. apply align_down_aligned. Qed.

Lemma align_up_pred x bit :
  0 ≤ bit → align_up x bit = align_down (x - 1) bit + 2 ^ bit.
Proof.
  intros Hb. unfold align_up, align_down. pose proof (pow2_pos bit Hb).
  replace (x + 2 ^ bit - 1) with (x - 1 + 1 * 2 ^ bit) by lia.
  rewrite Z.div_add by lia. lia.
Qed.

Lemma lor_ones a k :
  0 ≤ k → Z.lor a (2 ^ k - 1) = align_down a k + 2 ^ k - 1.
Proof.
  intros Hk. unfold align_down. pose proof (pow2_pos k Hk).
  replace (a / 2 ^ k * 2 ^ k + 2 ^ k - 1)
    with (a / 2 ^ k * 2 ^ k + (2 ^ k - 1)) by lia.
  rewrite <- lor_land_disjoint
    by (apply land_shifted_low with k; [lia | apply Z_mod_mult | lia]).
  replace (2 ^ k - 1) with (Z.ones k) by (rewrite Z.ones_equiv; lia).
  rewrite <- Z.shiftr_div_pow2, <- Z.shiftl_mul_pow2 by lia.
  apply Z.bits_inj'. intros i Hi. rewrite !Z.lor_spec.
  destruct (Z.lt_ge_cases i k).
  - by rewrite Z.ones_spec_low, !orb_true_r by lia.
  - rewrite Z.shiftl_spec, Z.shiftr_spec by lia. do 2 f_equal; lia.
Qed.

Lemma land_high_mask x w bit :
  0 ≤ bit ≤ w → 0 ≤ x < 2 ^ w →
  Z.land x (2 ^ w - 1 - (2 ^ bit - 1)) = align_down x bit.
Proof.
  intros Hb Hx. unfold align_down.
  replace (2 ^ w - 1 - (2 ^ bit - 1)) with (Z.shiftl (Z.ones (w - bit)) bit).
  2: { rewrite Z.shiftl_mul_pow2, Z.ones_equiv by lia.
       replace w with ((w - bit) + bit) at 2 by lia. rewrite Z.pow_add_r by lia. lia. }
  rewrite <- Z.shiftr_div_pow2, <- Z.shiftl_mul_pow2 by lia.
  apply Z.bits_inj'. intros i Hi. rewrite Z.land_spec.
  destruct (Z.lt_ge_cases i bit).
  - rewrite !Z.shiftl_spec_low by lia. apply andb_false_r.
  - rewrite !Z.shiftl_spec, Z.shiftr_spec by lia.
    replace (i - bit + bit) with i by lia.
    destruct (Z.lt_ge_cases i w).
    + rewrite Z.ones_spec_low by lia. apply andb_true_r.
    + by rewrite (testbit_high w x i) by lia.
Qed.

(** ** Trailing and leading zeros *)

Lemma pos_tz_spec p :
  0 ≤ pos_tz p ∧ ∃ k, Zpos p = (2 * k + 1) * 2 ^ pos_tz p ∧ 0 ≤ k.
Proof.
  induction p as [p IH|p IH|]; simpl.
  - split; [lia|]. exists (Zpos p). lia.
  - destruct IH as [H0 (k & Hk & Hk0)]. split; [lia|]. exists k.
    split; [|done]. rewrite Z.pow_add_r by lia. rewrite Pos2Z.inj_xO. lia.
  - split; [lia|]. exists 0. lia.
Qed.

Lemma cttz_spec w x :
  0 < x → 0 ≤ cttz w x ∧ ∃ k, x = (2 * k + 1) * 2 ^ cttz w x ∧ 0 ≤ k.
Proof. intros Hx. destruct x as [|p|p]; [lia| |lia]. apply pos_tz_spec. Qed.

Lemma cttz_divides w x : 0 < x → x mod 2 ^ cttz w x = 0.
Proof.
  intros Hx. destruct (cttz_spec w x Hx) as [H0 (k & Hk & _)].
  rewrite Hk at 1. apply Z_mod_mult.
Qed.

Lemma cttz_le_log2 w x : 0 < x → cttz w x ≤ Z.log2 x.
Proof.
  intros Hx. destruct (cttz_spec w x Hx) as [H0 (k & Hk & Hk0)].
  apply Z.log2_le_pow2; [lia|]. rewrite Hk at 2. pose proof (pow2_pos _ H0). nia.
Qed.

(** The lowest and highest set bits coincide exactly on the powers of two. *)
Lemma cttz_eq_log2 w x : 0 < x → cttz w x = Z.log2 x ↔ x = 2 ^ Z.log2 x.
Proof.
  intros Hx. destruct (cttz_spec w x Hx) as [H0 (k & Hk & Hk0)].
  pose proof (pow2_pos _ H0) as Hp. split; intros H.
  - rewrite H in Hk. assert (k = 0) as ->; [|lia].
    pose proof (Z.log2_spec x Hx) as [_ Hlt]. rewrite Z.pow_succ_r in Hlt by apply Z.log2_nonneg.
    rewrite H in Hp. nia.
  - pose proof (cttz_le_log2 w x Hx). destruct (Z.eq_dec (cttz w x) (Z.log2 x)) as [|Hne]; [done|].
    exfalso. set (t := cttz w x) in *. set (l := Z.log2 x) in *.
    assert (2 ^ l = 2 * 2 ^ (l - t - 1) * 2 ^ t) as Hl.
    { rewrite <- Z.pow_succ_r, <- Z.pow_add_r by lia. f_equal. lia. }
    rewrite <- H, Hk in Hl. apply Z.mul_reg_r in Hl; lia.
Qed.

(** ** The operations against the reference definitions *)

Section bitop_specs.
Context `{P : Profile} {E : Type}.
Variables (w bit : Z).
Hypothesis (Hbit : 0 ≤ bit < w).

Lemma ushl_one : ushl (E:=E) w 1 bit = Ok (2 ^ bit).
Proof.
  rewrite ushl_ok; [f_equal; lia | lia |].
  pose proof (pow2_pos bit). pose proof (Z.pow_lt_mono_r 2 bit w). lia.
Qed.

Lemma wrap_mask : wrap w (2 ^ bit - 1) = 2 ^ bit - 1.
Proof.
  apply wrap_small. pose proof (pow2_pos bit). pose proof (Z.pow_lt_mono_r 2 bit w). lia.
Qed.

(** Rounding up wraps to 0 past the last multiple below [2^w]. *)
Lemma round_up_bit_wrap x :
  0 ≤ x < 2 ^ w → round_up_bit (E:=E) w x bit = Ok (wrap w (align_up x bit)).
Proof.
  intros Hx. unfold round_up_bit. rewrite ushl_one. simpl. rewrite wrap_mask. f_equal.
  pose proof (pow2_pos w ltac:(lia)) as Hw.
  destruct (Z.eq_dec x 0) as [->|Hne].
  - change (0 - 1) with (-1). replace (wrap w (-1)) with (2 ^ w - 1).
    2: { unfold wrap. apply Z.mod_unique with (-1); lia. }
    rewrite lor_ones by lia. unfold wrap.
    rewrite align_up_pred by lia. change (0 - 1) with (-1). unfold align_down.
    replace (2 ^ w - 1) with (-1 + 2 ^ (w - bit) * 2 ^ bit).
    2: { rewrite <- Z.pow_add_r by lia. replace (w - bit + bit) with w by lia. lia. }
    rewrite Z.div_add by (pose proof (pow2_pos bit); lia).
    rewrite Z.mul_add_distr_r, <- Z.pow_add_r by lia.
    replace (w - bit + bit) with w by lia.
    replace ((-1 / 2 ^ bit * 2 ^ bit + 2 ^ w + 2 ^ bit - 1 + 1))
      with (-1 / 2 ^ bit * 2 ^ bit + 2 ^ bit + 1 * 2 ^ w) by lia.
    by rewrite Z_mod_plus_full.
  - rewrite (wrap_small w (x - 1)) by lia. rewrite lor_ones, align_up_pred by lia.
    f_equal. lia.
Qed.

Lemma round_up_bit_ok x :
  0 ≤ x → align_up x bit < 2 ^ w → round_up_bit (E:=E) w x bit = Ok (align_up x bit).
Proof.
  intros Hx Hup. pose proof (align_up_bounds x bit ltac:(lia)).
  rewrite round_up_bit_wrap by lia. by rewrite wrap_small by lia.
Qed.

Lemma round_down_bit_ok x :
  0 ≤ x < 2 ^ w → round_down_bit (E:=E) w x bit = Ok (align_down x bit).
Proof.
  intros Hx. unfold round_down_bit. rewrite ushl_one. simpl.
  rewrite wrap_mask. by rewrite land_high_mask by lia.
Qed.

Lemma div_ceil_bit_ok x :
  0 ≤ x → align_up x bit < 2 ^ w →
  div_ceil_bit (E:=E) w x bit = Ok ((x + 2 ^ bit - 1) / 2 ^ bit).
Proof.
  intros Hx Hup. unfold div_ceil_bit. rewrite round_up_bit_ok by done. simpl.
  unfold ushr. rewrite (proj2 (Z.leb_le 0 bit)), (proj2 (Z.ltb_lt bit w)) by lia. simpl.
  rewrite Z.shiftr_div_pow2 by lia. unfold align_up, align_down.
  by rewrite Z.div_mul by (pose proof (pow2_pos bit); lia).
Qed.
End bitop_specs.

Section bitop_logs.
Context `{P : Profile} {E : Type}.
Variable (w : Z).
Hypothesis (Hw : 2 ≤ w).

Lemma width_lt_pow : w + 1 < 2 ^ w.
Proof.
  assert (∀ n, 0 ≤ n → n + 3 < 2 ^ (n + 2)) as H.
  { apply natlike_ind; [done|]. intros n Hn IH.
    replace (Z.succ n + 2) with (Z.succ (n + 2)) by lia. rewrite Z.pow_succ_r by lia. lia. }
  specialize (H (w - 2) ltac:(lia)). replace (w - 2 + 2) with w in H by lia. lia.
Qed.

Lemma msb_ok x : 0 < x < 2 ^ w → msb (E:=E) w x = Ok (Z.log2 x).
Proof.
  intros Hx. pose proof width_lt_pow. unfold msb, ctlz. destruct x as [|p|p]; [lia| |lia].
  assert (0 ≤ Z.log2 (Zpos p) < w).
  { split; [apply Z.log2_nonneg|]. apply Z.log2_lt_pow2; lia. }
  set (l := Z.log2 (Zpos p)) in *. clearbody l.
  rewrite uadd_ok by lia. simpl. unfold BIT_SIZE. rewrite wrap_small by lia. f_equal. lia.
Qed.

Lemma log2c_ok x : 0 < x < 2 ^ w → log2c (E:=E) w x = Ok (Z.log2_up x).
Proof.
  intros Hx. pose proof width_lt_pow. unfold log2c. rewrite msb_ok by done. simpl.
  assert (0 ≤ Z.log2 x < w).
  { split; [apply Z.log2_nonneg|]. apply Z.log2_lt_pow2; lia. }
  unfold lsb. case_bool_decide as Hc.
  - symmetry in Hc. apply cttz_eq_log2 in Hc; [|lia].
    rewrite uadd_ok by lia. f_equal. rewrite Hc, Z.log2_up_pow2, Z.log2_pow2; lia.
  - rewrite uadd_ok by lia. f_equal.
    destruct (Z.le_gt_cases x 1); [assert (x = 1) as -> by lia; by destruct Hc|].
    destruct (Z.log2_log2_up_exact x ltac:(lia)) as [_ Hex].
    pose proof (Z.le_log2_log2_up x). pose proof (Z.le_log2_up_succ_log2 x).
    destruct (Z.eq_dec (Z.log2_up x) (Z.log2 x)) as [He|]; [|lia].
    destruct Hc. symmetry. apply cttz_eq_log2; [lia|].
    pose proof (Z.log2_spec x ltac:(lia)). pose proof (Z.log2_up_spec x ltac:(lia)) as [_ Hu].
    rewrite He in Hu. lia.
Qed.

(** On zero the position of the highest bit is [-1] at the width. *)
Lemma msb_zero : msb (E:=E) w 0 = Ok (2 ^ w - 1).
Proof.
  pose proof width_lt_pow. unfold msb, ctlz. rewrite uadd_ok by lia. simpl.
  unfold wrap, BIT_SIZE. f_equal. symmetry. apply Z.mod_unique with (-1); lia.
Qed.

Lemma log2c_zero :
  log2c (E:=E) w 0 = if overflow_checks then Panic else Ok 0.
Proof.
  pose proof width_lt_pow. unfold log2c. rewrite msb_zero. simpl. unfold lsb, cttz.
  rewrite bool_decide_eq_false_2 by lia. unfold uadd, checked, fits.
  rewrite (proj2 (Z.ltb_ge _ _)) by lia. rewrite andb_false_r.
  destruct overflow_checks; [done|]. f_equal. unfold wrap.
  replace (2 ^ w - 1 + 1) with (2 ^ w) by lia. apply Z_mod_same_full.
Qed.
End bitop_logs.

(** ** Properties *)

(** Rounding. For every shift below the width and every value that leaves
    room for it, [round_up_bit] returns the least multiple of [2^bit] that is at
    least [x], [round_down_bit] the greatest one that is at most [x], and
    [div_ceil_bit] the quotient of the former; none of the three panics, in
    either build profile. *)
Theorem rounding_spec `{P : Profile} (E : Type) (w bit x : Z) :
  0 ≤ bit < w → 0 ≤ x ≤ 2 ^ w - 2 ^ bit →
  ∃ up down,
    round_up_bit (E:=E) w x bit = Ok up ∧
    round_down_bit (E:=E) w x bit = Ok down ∧
    div_ceil_bit (E:=E) w x bit = Ok (up / 2 ^ bit) ∧
    (up mod 2 ^ bit = 0 ∧ x ≤ up ∧
      ∀ m, m mod 2 ^ bit = 0 → x ≤ m → up ≤ m) ∧
    (down mod 2 ^ bit = 0 ∧ down ≤ x ∧
      ∀ m, m mod 2 ^ bit = 0 → m ≤ x → m ≤ down).
Proof.
  intros Hb Hx. pose proof (pow2_pos bit ltac:(lia)) as Hp.
  pose proof (align_up_bounds x bit ltac:(lia)) as Hu.
  pose proof (align_down_bounds x bit ltac:(lia)) as Hd.
  assert (align_up x bit < 2 ^ w) by lia.
  exists (align_up x bit), (align_down x bit).
  rewrite round_up_bit_ok, round_down_bit_ok, div_ceil_bit_ok by lia.
  repeat split; try apply align_up_aligned; try apply align_down_aligned; try lia.
  - unfold align_up at 1, align_down. by rewrite Z.div_mul by lia.
  - intros m Hm Hle. apply Z.mod_divide in Hm as [k ->]; [|lia].
    unfold align_up, align_down. apply Z.mul_le_mono_nonneg_r; [lia|].
    apply Z.lt_succ_r, Z.div_lt_upper_bound; lia.
  - intros m Hm Hle. apply Z.mod_divide in Hm as [k ->]; [|lia].
    unfold align_down. apply Z.mul_le_mono_nonneg_r; [lia|].
    apply Z.div_le_lower_bound; lia.
Qed.

Lemma rounding_spec_witness :
  ∃ up down, round_up_bit (P:=debug_profile) (E:=()) 64 4097 12 = Ok up
    ∧ round_down_bit (P:=debug_profile) (E:=()) 64 4097 12 = Ok down ∧ up = 8192 ∧ down = 4096.
Proof.
  destruct (rounding_spec (P:=debug_profile) () 64 12 4097 ltac:(lia) ltac:(lia))
    as (up & down & Hu & Hd & _).
  exists up, down. split; [exact Hu|]. split; [exact Hd|].
  split; [injection Hu | injection Hd]; intros <-; reflexivity.
Defined.

(** Logarithms. On every non-zero value of the width, [log2f] and [msb]
    return the floor of the binary logarithm, [log2c] the least exponent whose
    power of two is not below the value, and [lsb] the number of times two
    divides it; on zero, [log2c] panics when overflow checks are on and returns
    0 when they are off. *)
Theorem log_spec `{P : Profile} (E : Type) (w : Z) :
  2 ≤ w →
  (∀ x, 0 < x < 2 ^ w →
    ∃ f c, log2f (E:=E) w x = Ok f ∧ msb (E:=E) w x = Ok f ∧ log2c (E:=E) w x = Ok c ∧
      (0 ≤ f < w ∧ 2 ^ f ≤ x < 2 ^ (f + 1)) ∧
      (x ≤ 2 ^ c ∧ ∀ k, 0 ≤ k → x ≤ 2 ^ k → c ≤ k) ∧
      x mod 2 ^ lsb w x = 0 ∧ x mod 2 ^ (lsb w x + 1) ≠ 0) ∧
  log2c (E:=E) w 0 = (if overflow_checks then Panic else Ok 0).
Proof.
  intros Hw. split; [|by apply log2c_zero]. intros x Hx.
  exists (Z.log2 x), (Z.log2_up x). unfold log2f. rewrite msb_ok, log2c_ok by done.
  do 3 (split; [done|]).
  pose proof (Z.log2_spec x ltac:(lia)) as [H1 H2].
  pose proof (Z.log2_nonneg x).
  split; [split; [split; [lia|apply Z.log2_lt_pow2; lia]|lia]|].
  split.
  { split.
    - destruct (Z.eq_dec x 1) as [->|]; [done|]. pose proof (Z.log2_up_spec x ltac:(lia)). lia.
    - intros k Hk Hle. rewrite <- (Z.log2_up_pow2 k) by lia. by apply Z.log2_up_le_mono. }
  unfold lsb. split; [apply cttz_divides; lia|].
  destruct (cttz_spec w x ltac:(lia)) as [H0 (k & Hk & _)]. intros Hm.
  pose proof (pow2_pos _ H0). apply Z.mod_divide in Hm as [q Hq].
  - rewrite Z.pow_add_r in Hq by lia. rewrite Hk in Hq at 1. change (2 ^ 1) with 2 in Hq.
    assert (2 * k + 1 = 2 * q); [|lia].
    apply Z.mul_reg_r with (2 ^ cttz w x); lia.
  - pose proof (pow2_pos (cttz w x + 1)). lia.
Qed.

Lemma log_spec_witness :
  log2c (P:=release_profile) (E:=()) 64 5 = Ok 3 ∧
  log2c (P:=release_profile) (E:=()) 64 0 = Ok 0.
Proof.
  destruct (log_spec (P:=release_profile) () 64 ltac:(lia)) as [H Hz].
  destruct (H 5 ltac:(lia)) as (f & c & _ & _ & Hc & _).
  split; [injection Hc as <-; reflexivity | exact Hz].
Defined.
