(* ===== verification/Collections.v ===== *)
(** * Interfaces of the collections the kernel takes from other crates

    [intrusive_collections], [crossbeam_queue] and [bitvec] are not part of the
    repository. Each type the kernel uses of them is a class here: its
    operations, a view of a value as a list, and what its documentation promises
    of the operations in terms of the view. The components are defined over an
    arbitrary instance and their theorems are proved from the class alone. Every
    class has an instance on lists, at which the witnesses evaluate. *)

From S2P Require Import Base.
Local Open Scope Z_scope.

(** ** [intrusive_collections::LinkedList] over page frames

    Elements are identified by the address of the object that holds the link.
    [il_remove] is [cursor_mut_from_ptr(x).remove()]. *)

Class IntrusiveList (L : Type) := {
  il_new : L;
  il_push_back : Z → L → L;
  il_pop_front : L → option Z * L;
  il_remove : Z → L → L;
  il_elems : L → list Z;
  il_new_elems : il_elems il_new = [];
  il_push_back_elems x l : il_elems (il_push_back x l) = il_elems l ++ [x];
  il_pop_front_nil l : il_elems l = [] → il_pop_front l = (None, l);
  il_pop_front_cons l x xs : il_elems l = x :: xs →
    fst (il_pop_front l) = Some x ∧ il_elems (snd (il_pop_front l)) = xs;
  il_remove_elems l x xs ys : il_elems l = xs ++ x :: ys → NoDup (il_elems l) →
    il_elems (il_remove x l) = xs ++ ys;
}.

#[export] Program Instance IntrusiveList_list : IntrusiveList (list Z) := {
  il_new := [];
  il_push_back x l := l ++ [x];
  il_pop_front l := match l with [] => (None, []) | x :: xs => (Some x, xs) end;
  il_remove x l := filter (λ y, y ≠ x) l;
  il_elems l := l;
}.
Next Obligation. done. Qed.
Next Obligation. done. Qed.
Next Obligation. by intros ? ->. Qed.
Next Obligation. by intros ? ? ? ->. Qed.
Next Obligation.
  intros l x xs ys -> Hnd. apply NoDup_app in Hnd as (_ & Hxs & Hys).
  apply NoDup_cons in Hys as [Hys _]. rewrite filter_app, filter_cons_False by tauto.
  rewrite !filter_id; [done| |].
  - intros z Hz ->. done.
  - intros z Hz ->. by apply (Hxs _ Hz), list_elem_of_here.
Qed.

(** ** [crossbeam_queue::SegQueue]: an unbounded first-in first-out queue *)

Class SegQueue (Q : Type → Type) := {
  sq_new {A} : Q A;
  sq_push {A} : A → Q A → Q A;
  sq_pop {A} : Q A → option A * Q A;
  sq_len {A} : Q A → Z;
  sq_elems {A} : Q A → list A;
  sq_new_elems {A} : sq_elems (A:=A) sq_new = [];
  sq_push_elems {A} (x : A) q : sq_elems (sq_push x q) = sq_elems q ++ [x];
  sq_pop_nil {A} (q : Q A) : sq_elems q = [] →
    fst (sq_pop q) = None ∧ sq_elems (snd (sq_pop q)) = [];
  sq_pop_cons {A} (q : Q A) x xs : sq_elems q = x :: xs →
    fst (sq_pop q) = Some x ∧ sq_elems (snd (sq_pop q)) = xs;
  sq_len_elems {A} (q : Q A) : sq_len q = Z.of_nat (length (sq_elems q));
}.

#[export] Program Instance SegQueue_list : SegQueue list := {
  sq_new A := [];
  sq_push A x l := l ++ [x];
  sq_pop A l := match l with [] => (None, []) | x :: xs => (Some x, xs) end;
  sq_len A l := Z.of_nat (length l);
  sq_elems A l := l;
}.
Next Obligation. done. Qed.
Next Obligation. done. Qed.
Next Obligation. by intros ? ? ->. Qed.
Next Obligation. by intros ? ? ? ? ->. Qed.
Next Obligation. done. Qed.

(** ** [bitvec::BitVec]: a sequence of bits *)

Class BitVec (B : Type) := {
  bv_zeros : Z → B;
  bv_set : nat → bool → B → B;
  bv_first_zero : B → option nat;
  bv_bits : B → list bool;
  bv_zeros_bits len : bv_bits (bv_zeros len) = replicate (Z.to_nat len) false;
  bv_set_bits i b v : (i < length (bv_bits v))%nat → bv_bits (bv_set i b v) = <[i := b]> (bv_bits v);
  bv_first_zero_some v i : bv_first_zero v = Some i → bv_bits v !! i = Some false;
  bv_first_zero_none v : bv_first_zero v = None → Forall (λ b, b = true) (bv_bits v);
}.

Fixpoint list_first_zero (l : list bool) : option nat :=
  match l with
  | [] => None
  | false :: _ => Some O
  | true :: l => S <$> list_first_zero l
  end.

#[export] Program Instance BitVec_list : BitVec (list bool) := {
  bv_zeros len := replicate (Z.to_nat len) false;
  bv_set i b l := <[i := b]> l;
  bv_first_zero := list_first_zero;
  bv_bits l := l;
}.
Next Obligation. done. Qed.
Next Obligation. done. Qed.
Next Obligation.
  intros l. induction l as [|[] l IH]; intros i Hi; simplify_eq/=.
  - apply fmap_Some in Hi as (j & Hj & ->). by apply IH.
  - done.
Qed.
Next Obligation.
  intros l. induction l as [|[] l IH]; intros Hl; simplify_eq/=; [constructor|].
  apply fmap_None in Hl. constructor; [done|]. by apply IH.
Qed.
