(* ===== verification/Slices.v ===== *)
(** * Layouts and methods of slices

    [Layout] of the standard library: sizes with alignments, and rounding up. [position], [rposition] and [split] of the standard library on slices, and how
    they relate to each other. *)

From S2P Require Import Base.
Local Open Scope Z_scope.

(** ** [core::alloc::Layout]

    The size and the alignment of a block of memory. *)

Record Layout := MkLayout { size : Z; align : Z }.

(** [Layout::from_size_align]: a power of two, and a size that does not overflow
    [isize] when it is rounded up; [None] is [LayoutError]. *)
Definition from_size_align (sz al : Z) : option Layout :=
  if negb (al =? 0) && (Z.land al (al - 1) =? 0) && (sz <=? 2 ^ 63 - al) then Some (MkLayout sz al) else None.

Definition pad_to_align (l : Layout) : Z := (size l + align l - 1) / align l * align l.

Lemma pad_to_align_spec l k :
  0 ≤ k → align l = 2 ^ k → 0 ≤ size l →
  size l ≤ pad_to_align l ∧ pad_to_align l mod 2 ^ k = 0.
Proof.
  intros Hk Ha Hs. unfold pad_to_align. rewrite Ha. pose proof (pow2_pos k Hk). split.
  - pose proof (Z.mod_pos_bound (size l + 2 ^ k - 1) (2 ^ k) ltac:(lia)).
    pose proof (Z.div_mod (size l + 2 ^ k - 1) (2 ^ k) ltac:(lia)). lia.
  - apply Z.mod_mul. lia.
Qed.

Section slices.
Context {A : Type}.

Fixpoint position (f : A → bool) (s : list A) : option nat :=
  match s with
  | [] => None
  | x :: s => if f x then Some O else S <$> position f s
  end.

Definition rposition (f : A → bool) (s : list A) : option nat :=
  i ← position f (reverse s); Some (length s - 1 - i)%nat.

Lemma position_some f s i : position f s = Some i →
  ∃ x, s = take i s ++ x :: drop (S i) s ∧ f x = true ∧ Forall (λ y, f y = false) (take i s).
Proof.
  revert i. induction s as [|x s IH]; intros i; cbn [position]; [done|].
  destruct (f x) eqn:Hx; [intros [= <-]; by exists x|].
  destruct (position f s) as [j|]; [|done]. intros [= <-]. destruct (IH j eq_refl) as (y & Hs & Hy & HF).
  exists y. cbn [take drop]. split; [cbn; by f_equal|]. split; [done|by constructor].
Qed.

Lemma position_none f s : position f s = None → Forall (λ y, f y = false) s.
Proof.
  induction s as [|x s IH]; cbn [position]; [constructor|]. destruct (f x) eqn:Hx; [done|].
  destruct (position f s); [done|]. intros _. constructor; [done|by apply IH].
Qed.

Lemma rposition_some f s i : rposition f s = Some i →
  ∃ x, s = take i s ++ x :: drop (S i) s ∧ f x = true ∧ Forall (λ y, f y = false) (drop (S i) s).
Proof.
  unfold rposition. destruct (position f (reverse s)) as [j|] eqn:Hj; [|done]. cbn. intros [= <-].
  destruct (position_some _ _ _ Hj) as (x & Hs & Hx & HF).
  assert (s = reverse (drop (S j) (reverse s)) ++ x :: reverse (take j (reverse s))) as Hrev.
  { rewrite <- (reverse_involutive s) at 1. rewrite Hs at 1. rewrite reverse_app, reverse_cons, <- app_assoc. done. }
  assert (length (reverse (drop (S j) (reverse s))) = (length s - 1 - j)%nat) as Hlen.
  { rewrite length_reverse, length_drop, length_reverse. lia. }
  set (a := reverse (drop (S j) (reverse s))) in *. set (b := reverse (take j (reverse s))) in *.
  exists x. assert (take (length s - 1 - j) s = a) as Ha by (rewrite <- Hlen, Hrev; apply take_app_length).
  assert (drop (S (length s - 1 - j)) s = b) as Hb.
  { rewrite <- Hlen, Hrev. change (x :: b) with ([x] ++ b). rewrite app_assoc. apply drop_app_length'. rewrite length_app. cbn. lia. }
  rewrite Ha, Hb. split; [exact Hrev|]. split; [done|]. subst b. by apply Forall_reverse.
Qed.

Lemma rposition_none f s : rposition f s = None → Forall (λ y, f y = false) s.
Proof.
  unfold rposition. destruct (position f (reverse s)) eqn:Hp; [done|]. intros _.
  apply position_none in Hp. exact (proj1 (Forall_reverse _ _) Hp).
Qed.
End slices.

(** [slice::split]: the pieces between separators. *)
Fixpoint split_on (sep : Z) (s : list Z) : list (list Z) :=
  match s with
  | [] => [[]]
  | b :: s =>
      if b =? sep then [] :: split_on sep s
      else match split_on sep s with
           | [] => [[b]]
           | p :: ps => (b :: p) :: ps
           end
  end.

Section split.
Context (sep : Z).
Implicit Types (s p : list Z).

Definition no_sep s : Prop := Forall (λ b, (b =? sep) = false) s.

Lemma split_on_name s : no_sep s → split_on sep s = [s].
Proof. induction 1 as [|b s Hb _ IH]; [done|]. cbn [split_on]. by rewrite Hb, IH. Qed.

(** At the first separator. *)
Lemma split_on_first s r : no_sep s → split_on sep (s ++ sep :: r) = s :: split_on sep r.
Proof.
  induction 1 as [|b s Hb _ IH]; cbn [app split_on]; [by rewrite Z.eqb_refl|]. by rewrite Hb, IH.
Qed.

Lemma split_on_nonempty s : split_on sep s ≠ [].
Proof. destruct s as [|b s]; [done|]. cbn [split_on]. destruct (b =? sep); [done|]. by destruct (split_on sep s). Qed.

(** At any separator. *)
Lemma split_on_sep s r : split_on sep (s ++ sep :: r) = split_on sep s ++ split_on sep r.
Proof.
  induction s as [|b s IH]; cbn [app split_on]; [by rewrite Z.eqb_refl|]. rewrite IH.
  destruct (b =? sep); [done|]. pose proof (split_on_nonempty s). by destruct (split_on sep s).
Qed.

Lemma split_on_last s r : no_sep r → split_on sep (s ++ sep :: r) = split_on sep s ++ [r].
Proof. intros Hr. by rewrite split_on_sep, (split_on_name r). Qed.

Lemma split_on_pieces s : Forall no_sep (split_on sep s).
Proof.
  induction s as [|b s IH]; cbn [split_on]; [by repeat constructor|].
  destruct (b =? sep) eqn:Hb; [by constructor; [constructor|]|].
  destruct (split_on sep s) as [|p ps]; [by repeat constructor|]. apply Forall_cons in IH as [Hp Hps].
  constructor; [by constructor|done].
Qed.
End split.
