(* ===== verification/Mem.v ===== *)
(** * Bytes in memory

    Memory as a map from addresses to bytes (an address that is not in the map
    holds zero), the block operations of [core::ptr], and the interface of the
    global allocator for single pages. *)

From S2P Require Import Base.
Local Open Scope Z_scope.

(** ** Blocks *)

Abbreviation memory := (gmap Z Z).

Definition byte (m : memory) (a : Z) : Z := default 0 (m !! a).
Definition bytes (m : memory) (a n : Z) : list Z := (λ i, byte m (a + i)) <$> seqZ 0 n.

Fixpoint store (a : Z) (bs : list Z) (m : memory) : memory :=
  match bs with
  | [] => m
  | b :: bs => <[a := b]> (store (a + 1) bs m)
  end.

(** [ptr::copy_nonoverlapping] and [ptr::write_bytes]. *)
Definition memcpy (dst src n : Z) (m : memory) : memory := store dst (bytes m src n) m.
Definition memset (a v n : Z) (m : memory) : memory := store a (replicate (Z.to_nat n) v) m.

Lemma store_in bs : ∀ a m i b, bs !! i = Some b → byte (store a bs m) (a + Z.of_nat i) = b.
Proof.
  induction bs as [|b0 bs IH]; intros a m i b Hi; [done|]. cbn [store]. unfold byte. destruct i as [|i].
  - injection Hi as <-. by rewrite Z.add_0_r, lookup_insert_eq.
  - rewrite lookup_insert_ne by lia. replace (a + Z.of_nat (S i)) with (a + 1 + Z.of_nat i) by lia.
    by apply (IH (a + 1) m).
Qed.

Lemma store_out bs : ∀ a m x, x < a ∨ a + Z.of_nat (length bs) ≤ x → byte (store a bs m) x = byte m x.
Proof.
  induction bs as [|b0 bs IH]; intros a m x Hx; [done|]. cbn [store length] in *. unfold byte.
  rewrite lookup_insert_ne by lia. apply (IH (a + 1) m). lia.
Qed.

Lemma bytes_length m a n : length (bytes m a n) = Z.to_nat n.
Proof. unfold bytes. by rewrite length_fmap, length_seqZ. Qed.

Lemma bytes_lookup m a n i : (i < Z.to_nat n)%nat → bytes m a n !! i = Some (byte m (a + Z.of_nat i)).
Proof. intros Hi. unfold bytes. rewrite list_lookup_fmap, lookup_seqZ_lt by lia. done. Qed.

Lemma bytes_ext m m' a a' n :
  (∀ i, 0 ≤ i < n → byte m (a + i) = byte m' (a' + i)) → bytes m a n = bytes m' a' n.
Proof.
  intros H. apply list_fmap_ext. intros k i Hi%lookup_seqZ. destruct Hi as [-> ?]. apply H. lia.
Qed.

(** The block stored is read back; blocks apart from it are as before. *)
Lemma bytes_store_eq a bs m : bytes (store a bs m) a (Z.of_nat (length bs)) = bs.
Proof.
  apply list_eq_same_length with (length bs); [done|by rewrite bytes_length; lia|].
  intros i x y Hi Hx Hy. rewrite bytes_lookup in Hx by lia. injection Hx as <-. by apply store_in.
Qed.

Lemma bytes_store_ne a bs m a' n :
  a' + n ≤ a ∨ a + Z.of_nat (length bs) ≤ a' → bytes (store a bs m) a' n = bytes m a' n.
Proof. intros H. apply bytes_ext. intros i Hi. apply store_out. lia. Qed.

Lemma bytes_memcpy_eq dst src n m : 0 ≤ n → bytes (memcpy dst src n m) dst n = bytes m src n.
Proof.
  intros Hn. unfold memcpy. rewrite <- (bytes_store_eq dst (bytes m src n) m) at 2.
  by rewrite bytes_length, Z2Nat.id.
Qed.

Lemma bytes_memcpy_ne dst src n m a n' :
  0 ≤ n → a + n' ≤ dst ∨ dst + n ≤ a → bytes (memcpy dst src n m) a n' = bytes m a n'.
Proof. intros Hn H. apply bytes_store_ne. rewrite bytes_length. lia. Qed.

Lemma bytes_memset_eq a v n m : 0 ≤ n → bytes (memset a v n m) a n = replicate (Z.to_nat n) v.
Proof.
  intros Hn. unfold memset. rewrite <- (bytes_store_eq a (replicate (Z.to_nat n) v) m) at 2.
  by rewrite length_replicate, Z2Nat.id.
Qed.

Lemma bytes_memset_ne a v n m a' n' :
  0 ≤ n → a' + n' ≤ a ∨ a + n ≤ a' → bytes (memset a v n m) a' n' = bytes m a' n'.
Proof. intros Hn H. apply bytes_store_ne. rewrite length_replicate. lia. Qed.

(** ** Pages of the global allocator

    [minfo::ID_OFFSET] is where physical memory is mapped in the kernel's half. *)

Definition ID_OFFSET : Z := 0xFFFF800000000000.

(** The address of a page of 4 KiB in that half. *)
Definition kernel_page (p : Z) : bool :=
  (ID_OFFSET <=? p) && (p mod 4096 =? 0) && (p + 4096 <=? 2 ^ 64).

(** [Global.allocate(PAGE_LAYOUT)] and [Global.deallocate]: [pg_free] are the
    pages that can be handed out. *)
Class PageSource (A : Type) := {
  pg_allocate : A → option Z * A;
  pg_deallocate : Z → A → A;
  pg_free : A → Z → Prop;
  pg_free_page a p : pg_free a p → kernel_page p = true;
  pg_allocate_some a p a' : pg_allocate a = (Some p, a') →
    pg_free a p ∧ ∀ q, pg_free a' q ↔ pg_free a q ∧ q ≠ p;
  pg_allocate_none a a' : pg_allocate a = (None, a') → ∀ q, ¬ pg_free a q ∧ ¬ pg_free a' q;
  pg_deallocate_free a p : kernel_page p = true → ∀ q, pg_free (pg_deallocate p a) q ↔ pg_free a q ∨ q = p;
}.

(** The pages as a list. *)
#[export] Program Instance PageSource_list : PageSource (list Z) := {
  pg_allocate l :=
    match filter (λ p, kernel_page p = true) l with
    | [] => (None, l)
    | p :: _ => (Some p, filter (λ q, q ≠ p) l)
    end;
  pg_deallocate p l := p :: l;
  pg_free l p := p ∈ l ∧ kernel_page p = true;
}.
Next Obligation. by intros l p []. Qed.
Next Obligation.
  intros l p l'. cbn. destruct (filter _ l) as [|p0 l0] eqn:Hf; [done|]. intros [= -> <-].
  assert (p ∈ filter (λ p, kernel_page p = true) l) as [Hk Hp]%list_elem_of_filter by (rewrite Hf; left).
  split; [done|]. intros q. rewrite list_elem_of_filter. naive_solver.
Qed.
Next Obligation.
  intros l l'. cbn. destruct (filter _ l) as [|p0 l0] eqn:Hf; [|done]. intros [= <-] q.
  assert (¬ (q ∈ l ∧ kernel_page q = true)); [|done]. intros [Hq Hk].
  assert (q ∈ filter (λ p, kernel_page p = true) l) as Hin by (by apply list_elem_of_filter).
  rewrite Hf in Hin. by apply not_elem_of_nil in Hin.
Qed.
Next Obligation. intros l p Hk q. cbn. rewrite elem_of_cons. naive_solver. Qed.

(** ** Integers in memory: [to_ne_bytes] and [from_ne_bytes] on x86_64 *)

Fixpoint to_le (n : nat) (v : Z) : list Z :=
  match n with
  | O => []
  | S n => v mod 256 :: to_le n (v / 256)
  end.

Fixpoint from_le (l : list Z) : Z :=
  match l with
  | [] => 0
  | b :: l => b + 256 * from_le l
  end.

Definition is_byte (b : Z) : Prop := 0 ≤ b < 256.

Lemma to_le_length n v : length (to_le n v) = n.
Proof. revert v. induction n as [|n IH]; intros v; cbn; [done|]. by rewrite IH. Qed.

Lemma to_le_bytes n v : Forall is_byte (to_le n v).
Proof.
  revert v. induction n as [|n IH]; intros v; constructor; [|apply IH]. apply Z.mod_pos_bound. lia.
Qed.

Lemma pow256_succ n : 256 ^ Z.of_nat (S n) = 256 * 256 ^ Z.of_nat n.
Proof. rewrite Nat2Z.inj_succ. apply Z.pow_succ_r. lia. Qed.

Lemma from_to_le n v : 0 ≤ v < 256 ^ Z.of_nat n → from_le (to_le n v) = v.
Proof.
  revert v. induction n as [|n IH]; intros v Hv; cbn [to_le from_le]; [cbn in Hv; lia|].
  rewrite pow256_succ in Hv. rewrite IH; [pose proof (Z.div_mod v 256); lia|].
  split; [apply Z.div_pos; lia|]. apply Z.div_lt_upper_bound; lia.
Qed.

Lemma from_le_bound l : Forall is_byte l → 0 ≤ from_le l < 256 ^ Z.of_nat (length l).
Proof.
  induction 1 as [|b l Hb _ IH]; cbn [from_le length]; [lia|]. rewrite pow256_succ. unfold is_byte in Hb. lia.
Qed.

Lemma to_from_le l : Forall is_byte l → to_le (length l) (from_le l) = l.
Proof.
  induction 1 as [|b l Hb _ IH]; cbn [from_le length to_le]; [done|]. unfold is_byte in Hb.
  rewrite (Z.mul_comm 256), Z.mod_add, Z.mod_small, Z.div_add, Z.div_small, Z.add_0_l, IH by lia. done.
Qed.
