(* ===== verification/Buddy.v ===== *)
(** * The physical memory manager ([h2o/libs/pmm])

    The buddy allocator of page frames: two zones (below and above 4 GiB), a
    free list per zone and order, and the [order] field of every page frame. A
    [&'static PageFrame] is the index of the frame in the array at
    [KMEM_PHYS_BASE], that is its physical address shifted by [PAGE_SHIFT]; all
    operations run under [PMM_LOCK], so they are functions of the whole state. *)

From S2P Require Import Base Bits Collections.
Local Open Scope Z_scope.
Local Open Scope h2o_scope.

Definition PAGE_SHIFT : Z := 12.
Definition PAGE_SIZE : Z := 2 ^ PAGE_SHIFT.

Definition PFTYPE_BOUND : Z := 0x100000000.
Definition MAX_ORDER : Z := 24 - PAGE_SHIFT.
Definition NR_ORDERS : Z := MAX_ORDER.
(** [ORDERS.contains(&order)]. *)
Definition in_orders (order : Z) : bool := (0 <=? order) && (order <? MAX_ORDER).

Inductive PfType := Low | High | Max.
#[export] Instance PfType_eq_dec : EqDecision PfType.
Proof. solve_decision. Defined.

(** [pftype as usize]. *)
Definition pftype_idx (ty : PfType) : Z := match ty with Low => 0 | High => 1 | Max => 2 end.

Definition pftype_from (addr : Z) : PfType :=
  if (0 <=? addr) && (addr <? PFTYPE_BOUND) then Low else High.

(** The free lists ([PFL_DATA]) and the [order] cells of the page frames, which
    the boot loader hands over zeroed. *)
Record pmm (L : Type) := Pmm { pfl_data : list L; orders : gmap Z Z }.
Arguments Pmm {L} _ _.
Arguments pfl_data {L} _.
Arguments orders {L} _.

(** The memory map handed over by the boot loader ([pmm::boot]). *)
Inductive MemType :=
  | Reserved | LoaderCode | LoaderData | BootServicesCode | BootServicesData
  | RuntimeServicesCode | RuntimeServicesData | Conventional | Unusable
  | AcpiReclaim | AcpiNonVolatile | Mmio | MmioPortSpace | PalCode | PersistentMemory.

Record MemRange := { ty : MemType; phys : Z; virt : Z; page_count : Z; attr : Z }.

Section buddy.
Context `{P : Profile} {L : Type} `{IL : IntrusiveList L}.
Abbreviation M := (st (pmm L) Empty_set).

Definition order_get (page : Z) : M Z := λ s, (Ok (default 0 (orders s !! page)), s).
Definition order_set (page k : Z) : M () :=
  modify (λ s, Pmm (pfl_data s) (<[page := k]> (orders s))).

Definition page_frame (addr : Z) : Z := Z.shiftr addr PAGE_SHIFT.

Definition pft_base (pftype : PfType) : res Empty_set Z :=
  match pftype with
  | Low => Ok (page_frame 0)
  | High => Ok (page_frame PFTYPE_BOUND)
  | Max => Panic
  end.

Definition page_address (page : Z) : Z := wrap W (Z.shiftl page PAGE_SHIFT).

Definition page_to_pfn (page : Z) (pftype : PfType) : res Empty_set Z :=
  base ← pft_base pftype; Ok (wrap W (page - base)).

Definition pfn_to_page (pfn : Z) (pftype : PfType) : res Empty_set Z :=
  base ← pft_base pftype; Ok (base + pfn).

(** The index of the free list in [PFL_DATA]; [None] for [Max] or a bad order. *)
Definition pf_list_mut (pftype : PfType) (order : Z) : option nat :=
  if in_orders order && negb (bool_decide (pftype = Max))
  then Some (Z.to_nat (order + pftype_idx pftype * NR_ORDERS)) else None.

Definition list_push_back (i : nat) (page : Z) : M () :=
  modify (λ s, Pmm (alter (il_push_back page) i (pfl_data s)) (orders s)).

Definition list_pop_front (i : nat) : M (option Z) := λ s,
  match pfl_data s !! i with
  | Some l => let '(x, l') := il_pop_front l in (Ok x, Pmm (<[i := l']> (pfl_data s)) (orders s))
  | None => (Panic, s)
  end.

Definition list_remove (i : nat) (page : Z) : M () :=
  modify (λ s, Pmm (alter (il_remove page) i (pfl_data s)) (orders s)).

(** [split_page]: the loop over [orders], then the function. *)
Fixpoint split_loop (page : Z) (pftype : PfType) (os : list Z) : M () :=
  match os with
  | [] => mret ()
  | o :: os =>
      k ← lift (1 <<! o);
      let sib := page + k in
      pflist ← lift (unwrap (pf_list_mut pftype o));
      so ← order_get sib;
      _ ← lift (assert_ (so =? 0));
      k1 ← lift (o +! 1);
      _ ← order_set sib k1;
      _ ← list_push_back pflist sib;
      split_loop page pftype os
  end.

Definition split_page (page : Z) (pftype : PfType) (lo hi : Z) : M Z :=
  _ ← lift (assert_ (negb (bool_decide (pftype = Max))));
  _ ← lift (assert_ (hi <? MAX_ORDER));
  _ ← split_loop page pftype (seqZ lo (hi - lo));
  mret page.

(** The scan of [alloc_page_typed] over [order..MAX_ORDER]. *)
Fixpoint alloc_scan (order : Z) (pftype : PfType) (os : list Z) : M (option Z) :=
  match os with
  | [] => mret None
  | o :: os =>
      pflist ← lift (unwrap (pf_list_mut pftype o));
      head ← list_pop_front pflist;
      match head with
      | Some page =>
          _ ← order_set page 0;
          page ← split_page page pftype order o;
          mret (Some (page_address page))
      | None => alloc_scan order pftype os
      end
  end.

Definition alloc_page_typed (order : Z) (pftype : PfType) : M (option Z) :=
  _ ← lift (assert_ (negb (bool_decide (pftype = Max))));
  _ ← lift (assert_ (in_orders order));
  alloc_scan order pftype (seqZ order (MAX_ORDER - order)).

Definition get_buddy (page order : Z) (pftype : PfType) : res Empty_set Z :=
  _ ← assert_ (negb (bool_decide (pftype = Max)));
  _ ← assert_ (in_orders order);
  pfn ← page_to_pfn page pftype;
  k ← 1 <<! order;
  pfn_to_page (Z.lxor pfn k) pftype.

Definition get_combined (page order : Z) (pftype : PfType) : res Empty_set Z :=
  _ ← assert_ (negb (bool_decide (pftype = Max)));
  _ ← assert_ (in_orders order);
  pfn ← page_to_pfn page pftype;
  k ← 1 <<! order;
  pfn_to_page (Z.land pfn (Z.lxor pfn k)) pftype.

(** The merging loop of [dealloc_page_typed]; [fuel] is the exact number of
    iterations left before [o] reaches [MAX_ORDER - 1], the loop's bound. *)
Fixpoint merge_loop (fuel : nat) (p o : Z) (pftype : PfType) : M (Z * Z) :=
  match fuel with
  | O => mret (p, o)
  | S fuel =>
      if o <? MAX_ORDER - 1 then
        pflist ← lift (unwrap (pf_list_mut pftype o));
        buddy ← lift (get_buddy p o pftype);
        bo ← order_get buddy;
        k1 ← lift (o +! 1);
        if negb (bo =? k1) then mret (p, o)
        else
          _ ← order_set buddy 0;
          _ ← list_remove pflist buddy;
          p ← lift (get_combined p o pftype);
          o ← lift (o +! 1);
          merge_loop fuel p o pftype
      else mret (p, o)
  end.

Definition dealloc_page_typed (page order : Z) (pftype : PfType) : M () :=
  _ ← lift (assert_ (negb (bool_decide (pftype = Max))));
  _ ← lift (assert_ (in_orders order));
  '(p, o) ← merge_loop (Z.to_nat (MAX_ORDER - 1 - order)) page order pftype;
  pflist ← lift (unwrap (pf_list_mut pftype o));
  po ← order_get p;
  _ ← lift (assert_ (po =? 0));
  k1 ← lift (o +! 1);
  _ ← order_set p k1;
  list_push_back pflist p.

Definition alloc_pages (order : Z) (pftype : option PfType) : M (option Z) :=
  if negb (in_orders order) then mret None
  else
    match default Max pftype with
    | Max =>
        high ← alloc_page_typed order High;
        match high with
        | Some a => mret (Some a)
        | None => alloc_page_typed order Low
        end
    | t => alloc_page_typed order t
    end.

Definition dealloc_pages (order addr : Z) : M () :=
  _ ← lift (assert_ (in_orders order));
  dealloc_page_typed (page_frame addr) order (pftype_from addr).

(** The loop of [dealloc_pages_exact]: every iteration advances [start] by at
    least a page, so the number of pages bounds the iterations. *)
Fixpoint dealloc_loop (fuel : nat) (start end_ : Z) : M () :=
  match fuel with
  | O => mret ()
  | S fuel =>
      if start <? end_ then
        let pftype := pftype_from start in
        let spage := page_frame start in
        let epage := page_frame end_ in
        spfn ← lift (page_to_pfn spage pftype);
        epfn ← lift (page_to_pfn epage pftype);
        let order := Z.min (lsb W spfn) (MAX_ORDER - 1) in
        n ← lift (epfn -! spfn);
        lg ← lift (log2f W n);
        let order := Z.min order lg in
        _ ← dealloc_page_typed spage order pftype;
        sz ← lift (PAGE_SIZE <<! order);
        start ← lift (start +! sz);
        dealloc_loop fuel start end_
      else mret ()
  end.

Definition dealloc_pages_exact (n addr : Z) : M () :=
  bytes ← lift (n <<! PAGE_SHIFT);
  end_ ← lift (addr +! bytes);
  dealloc_loop (Z.to_nat n) addr end_.

Definition scale_back_pages (addr order n : Z) : M Z :=
  _ ← lift (assert_ (in_orders order));
  k ← lift (1 <<! order);
  _ ← lift (assert_ (n <=? k));
  dn ← lift (k -! n);
  bytes ← lift (n <<! PAGE_SHIFT);
  rem ← lift (addr +! bytes);
  _ ← dealloc_pages_exact dn rem;
  mret addr.

Definition alloc_pages_exact (n : Z) (pftype : option PfType) : M (option Z) :=
  order ← lift (log2c W n);
  if negb (in_orders order) then mret None
  else
    r ← alloc_pages order pftype;
    match r with
    | Some addr => a ← scale_back_pages addr order n; mret (Some a)
    | None => mret None
    end.

(** [parse_mmap]: the fold over the descriptors, returning [(sum, max)]. *)
Definition available (t : MemType) : bool :=
  match t with Conventional | PersistentMemory => true | _ => false end.

Definition range_contains (lo hi x : Z) : bool := (lo <=? x) && (x <? hi).

Definition not_reserved (rlo rhi start len : Z) : res Empty_set bool :=
  if range_contains rlo rhi start then Ok false
  else e ← start +! len; Ok (negb (range_contains rlo rhi e)).

Fixpoint parse_mmap (mmap : list MemRange) (rlo rhi sum max : Z) : M (Z * Z) :=
  match mmap with
  | [] => mret (sum, max)
  | mdsc :: mmap =>
      let base := phys mdsc in
      let n := page_count mdsc in
      ok ← (if available (ty mdsc) then
              len ← lift (n *! PAGE_SIZE); lift (not_reserved rlo rhi base len)
            else mret false);
      sum ← (if ok : bool then
               _ ← dealloc_pages_exact n base;
               bytes ← lift (n <<! PAGE_SHIFT);
               lift (sum +! bytes)
             else mret sum);
      len ← lift (n *! PAGE_SIZE);
      e ← lift (base +! len);
      parse_mmap mmap rlo rhi sum (Z.max max e)
  end.

Definition init (mmap : list MemRange) (rlo rhi : Z) : M (Z * Z) :=
  _ ← modify (λ s, Pmm (replicate (Z.to_nat (2 * NR_ORDERS)) il_new) (orders s));
  parse_mmap mmap rlo rhi 0 0.
End buddy.
