(* ===== verification/BuddyFacts.v ===== *)
(** * Facts about the buddy allocator

    The state is abstracted to the function [f] from frames to the value of
    their [order] field ([0] when the frame does not start a free block, [k + 1]
    when it starts one of order [k]). The first part is about such functions
    alone, the second one relates the free lists to them. *)

From stdpp Require Import functions.
From S2P Require Import Base Bits Collections Buddy.
Local Open Scope Z_scope.

(** ** Blocks *)

(** A block of [2^o] frames, aligned to its size, below the end of memory (a
    physical address has at most 52 bits on x86_64). *)
Definition blk (p o : Z) : Prop := 0 ≤ p ∧ p mod 2 ^ o = 0 ∧ p + 2 ^ o ≤ 2 ^ 40.

Definition in_blk (p o i : Z) : Prop := p ≤ i < p + 2 ^ o.

Definition zone_of (p : Z) : PfType := if p <? 2 ^ 20 then Low else High.
Definition zone_base (ty : PfType) : Z := match ty with High => 2 ^ 20 | _ => 0 end.

(** The frame is inside a free block. *)
Definition freef (f : Z → Z) (i : Z) : Prop := ∃ p, f p ≠ 0 ∧ in_blk p (f p - 1) i.

Definition buddy (p o : Z) : Z := if p mod 2 ^ (o + 1) =? 0 then p + 2 ^ o else p - 2 ^ o.

Lemma pow2_succ o : 0 ≤ o → 2 ^ (o + 1) = 2 * 2 ^ o.
Proof. intros. rewrite Z.pow_add_r by lia. lia. Qed.

Lemma aligned_cases p o :
  0 ≤ o → p mod 2 ^ o = 0 →
  p mod 2 ^ (o + 1) = 0 ∨ p mod 2 ^ (o + 1) = 2 ^ o.
Proof.
  intros Ho Hp. pose proof (pow2_pos o Ho). rewrite pow2_succ by done.
  apply Z.mod_divide in Hp as [k ->]; [|lia].
  rewrite Z.mul_mod_distr_r by lia.
  pose proof (Z.mod_pos_bound k 2 ltac:(lia)).
  assert (k mod 2 = 0 ∨ k mod 2 = 1) as [-> | ->] by lia; lia.
Qed.

Lemma aligned_weaken p a b : 0 ≤ a ≤ b → p mod 2 ^ b = 0 → p mod 2 ^ a = 0.
Proof.
  intros Hab Hp. pose proof (pow2_pos a ltac:(lia)). pose proof (pow2_pos b ltac:(lia)).
  apply Z.mod_divide in Hp as [k ->]; [|lia].
  replace b with (b - a + a) by lia. rewrite Z.pow_add_r by lia.
  rewrite Z.mul_assoc. apply Z_mod_mult.
Qed.

Lemma aligned_shift p o k : 0 ≤ k < o → p mod 2 ^ o = 0 → (p + 2 ^ k) mod 2 ^ (k + 1) = 2 ^ k.
Proof.
  intros Hk Hp. pose proof (pow2_pos k ltac:(lia)).
  apply (aligned_weaken p (k + 1) o) in Hp; [|lia].
  rewrite pow2_succ in * by lia.
  rewrite <- Z.add_mod_idemp_l, Hp by lia. apply Z.mod_small. lia.
Qed.

Section one_buddy.
Variables (p o : Z).
Hypotheses (Ho : 0 ≤ o < 11) (Hp : blk p o).

(** The buddy is a block of the same order in the same zone, adjacent to [p];
    the lower of the two is a block of the next order made of both. *)
Lemma buddy_blk : blk (buddy p o) o.
Proof.
  destruct Hp as (H0 & Ha & Hm). pose proof (pow2_pos o ltac:(lia)).
  unfold buddy, blk. destruct (aligned_cases p o ltac:(lia) Ha) as [E|E]; rewrite E.
  - rewrite Z.eqb_refl. split; [lia|]. split.
    + rewrite <- Z.add_mod_idemp_l, Ha, Z.add_0_l by lia. apply Z_mod_same_full.
    + assert ((2 ^ 40) mod 2 ^ (o + 1) = 0).
      { apply aligned_weaken with 40; [lia|]. apply Z_mod_same_full. }
      pose proof (pow2_succ o ltac:(lia)).
      apply Z.mod_divide in E as [a Ha']; [|lia].
      apply Z.mod_divide in H1 as [b Hb]; [|lia].
      rewrite Hb in *. assert (a < b) by nia. nia.
  - rewrite (proj2 (Z.eqb_neq _ _)) by lia. pose proof (pow2_succ o ltac:(lia)).
    pose proof (Z.mod_le p (2 ^ (o + 1)) ltac:(lia) ltac:(lia)).
    split; [lia|]. split; [|lia].
    apply Z.mod_divide in Ha as [k ->]; [|lia].
    replace (k * 2 ^ o - 2 ^ o) with ((k - 1) * 2 ^ o) by lia. apply Z_mod_mult.
Qed.

Lemma buddy_involutive : buddy (buddy p o) o = p.
Proof.
  destruct Hp as (H0 & Ha & Hm). pose proof (pow2_pos o ltac:(lia)).
  pose proof (pow2_succ o ltac:(lia)) as Hs. unfold buddy at 2.
  destruct (aligned_cases p o ltac:(lia) Ha) as [E|E]; rewrite E.
  - rewrite Z.eqb_refl. unfold buddy.
    rewrite <- Z.add_mod_idemp_l, E, Z.add_0_l, Z.mod_small by lia.
    rewrite (proj2 (Z.eqb_neq _ _)) by lia. lia.
  - rewrite (proj2 (Z.eqb_neq _ _)) by lia. unfold buddy.
    replace ((p - 2 ^ o) mod 2 ^ (o + 1)) with 0; [rewrite Z.eqb_refl; lia|].
    rewrite Zminus_mod, E, (Z.mod_small (2 ^ o)) by lia.
    rewrite Z.sub_diag. by rewrite Z.mod_0_l by lia.
Qed.

Lemma combined_blk : blk (Z.min p (buddy p o)) (o + 1).
Proof.
  pose proof buddy_blk as (Hb0 & _ & Hbm). destruct Hp as (H0 & Ha & Hm).
  pose proof (pow2_pos o ltac:(lia)). pose proof (pow2_succ o ltac:(lia)) as Hs.
  unfold buddy in *. unfold blk. rewrite Hs in *.
  destruct (aligned_cases p o ltac:(lia) Ha) as [E|E]; rewrite Hs in *; rewrite E in *.
  - rewrite Z.eqb_refl in *. rewrite Z.min_l by lia. lia.
  - rewrite (proj2 (Z.eqb_neq _ _)) in * by lia. rewrite Z.min_r by lia.
    split; [lia|]. split; [|lia].
    rewrite Zminus_mod, E, (Z.mod_small (2 ^ o)) by lia.
    rewrite Z.sub_diag. by rewrite Z.mod_0_l by lia.
Qed.

Lemma combined_in i :
  in_blk (Z.min p (buddy p o)) (o + 1) i ↔ in_blk p o i ∨ in_blk (buddy p o) o i.
Proof.
  destruct Hp as (_ & Ha & _). pose proof (pow2_pos o ltac:(lia)).
  unfold in_blk. rewrite pow2_succ by lia. unfold buddy.
  destruct (_ =? 0); lia.
Qed.

Lemma buddy_ne : buddy p o ≠ p.
Proof. unfold buddy. pose proof (pow2_pos o ltac:(lia)). destruct (_ =? 0); lia. Qed.
End one_buddy.

(** A block of order at most 11 does not cross the boundary of the zones. *)
Lemma zone_of_blk p o i : 0 ≤ o ≤ 11 → blk p o → in_blk p o i → zone_of i = zone_of p.
Proof.
  intros Ho (H0 & Ha & _) Hi. unfold zone_of, in_blk in *.
  destruct (Z.ltb_spec p (2 ^ 20)); destruct (Z.ltb_spec i (2 ^ 20)); try done; [|lia].
  exfalso. pose proof (pow2_pos o ltac:(lia)).
  assert ((2 ^ 20) mod 2 ^ o = 0) as Hz.
  { apply aligned_weaken with 20; [lia|]. apply Z_mod_same_full. }
  apply Z.mod_divide in Ha as [a ->]; [|lia]. apply Z.mod_divide in Hz as [b Hb]; [|lia].
  rewrite Hb in *. assert (a < b) by nia. nia.
Qed.

Lemma zone_of_buddy p o : 0 ≤ o < 11 → blk p o → zone_of (buddy p o) = zone_of p.
Proof.
  intros Ho Hp. pose proof (combined_blk p o Ho Hp) as Hc.
  pose proof (pow2_pos o ltac:(lia)).
  transitivity (zone_of (Z.min p (buddy p o))).
  - apply zone_of_blk with (o + 1); [lia|done|].
    apply combined_in; [lia|done|right]. unfold in_blk. lia.
  - symmetry. apply zone_of_blk with (o + 1); [lia|done|].
    apply combined_in; [lia|done|left]. unfold in_blk. lia.
Qed.

(** ** Functions that describe a set of disjoint free blocks *)

Record wfo (f : Z → Z) : Prop := {
  wfo_blk p : f p ≠ 0 → 1 ≤ f p ≤ MAX_ORDER ∧ blk p (f p - 1);
  wfo_disj p q : f p ≠ 0 → f q ≠ 0 → p < q → p + 2 ^ (f p - 1) ≤ q;
}.

(** No two buddies below the largest order are both free. *)
Definition merged (f : Z → Z) : Prop :=
  ∀ p o, 0 ≤ o < 11 → f p = o + 1 → f (buddy p o) ≠ o + 1.

Lemma freef_start f p : f p ≠ 0 → wfo f → freef f p.
Proof.
  intros Hp Hf. exists p. split; [done|]. unfold in_blk.
  destruct (wfo_blk f Hf p Hp) as [? _]. pose proof (pow2_pos (f p - 1) ltac:(lia)). lia.
Qed.

Lemma freef_zero f p : wfo f → ¬ freef f p → f p = 0.
Proof. intros Hf Hn. destruct (Z.eq_dec (f p) 0); [done|]. by destruct Hn; apply freef_start. Qed.

Section add_block.
Variables (f : Z → Z) (q o : Z).
Hypotheses (Hf : wfo f) (Ho : 0 ≤ o ≤ 11) (Hq : blk q o)
  (Hhole : ∀ i, in_blk q o i → ¬ freef f i).

Lemma add_block_zero : f q = 0.
Proof.
  apply freef_zero; [done|]. apply Hhole. unfold in_blk.
  pose proof (pow2_pos o ltac:(lia)). lia.
Qed.

Lemma add_block_wfo : wfo (<[q := o + 1]> f).
Proof.
  assert (∀ r, r ≠ q → f r ≠ 0 → r + 2 ^ (f r - 1) ≤ q ∨ q + 2 ^ o ≤ r) as Hsep.
  { intros r Hne Hr. destruct (Z.le_gt_cases r q).
    - left. apply Z.nlt_ge. intros Hlt. apply (Hhole q).
      + unfold in_blk. pose proof (pow2_pos o ltac:(lia)). lia.
      + exists r. unfold in_blk. split; [done|lia].
    - right. apply Z.nlt_ge. intros Hlt. apply (Hhole r); [unfold in_blk; lia|].
      by apply freef_start. }
  split.
  - intros p. destruct (decide (p = q)) as [->|].
    + rewrite fn_lookup_insert. unfold MAX_ORDER, PAGE_SHIFT.
      replace (o + 1 - 1) with o by lia. lia || (split; [lia|done]).
    + rewrite fn_lookup_insert_ne by done. by apply wfo_blk.
  - intros p r. destruct (decide (p = q)) as [->|]; destruct (decide (r = q)) as [->|];
      rewrite ?fn_lookup_insert, ?fn_lookup_insert_ne by done; try lia.
    + intros _ Hr Hlt. replace (o + 1 - 1) with o by lia.
      destruct (Hsep r ltac:(done) Hr); [|done].
      pose proof (wfo_blk f Hf r Hr) as [? _]. pose proof (pow2_pos (f r - 1) ltac:(lia)). lia.
    + intros Hp _ Hlt. destruct (Hsep p ltac:(done) Hp); [done|].
      pose proof (pow2_pos o ltac:(lia)). lia.
    + by apply wfo_disj.
Qed.

Lemma add_block_free i : freef (<[q := o + 1]> f) i ↔ freef f i ∨ in_blk q o i.
Proof.
  pose proof add_block_zero as Hz. split.
  - intros (p & Hp & Hin). destruct (decide (p = q)) as [->|].
    + rewrite fn_lookup_insert in Hin. right. by replace (o + 1 - 1) with o in Hin by lia.
    + rewrite fn_lookup_insert_ne in Hp, Hin by done. left. by exists p.
  - intros [(p & Hp & Hin)|Hin].
    + exists p. assert (p ≠ q) by congruence. by rewrite fn_lookup_insert_ne.
    + exists q. rewrite fn_lookup_insert. replace (o + 1 - 1) with o by lia. split; [lia|done].
Qed.

Lemma add_block_merged :
  merged f → (o < 11 → f (buddy q o) ≠ o + 1) → merged (<[q := o + 1]> f).
Proof.
  intros Hm Hb p k Hk. destruct (decide (p = q)) as [->|Hpq].
  - rewrite fn_lookup_insert. intros He. assert (k = o) as -> by lia.
    rewrite fn_lookup_insert_ne by (by apply not_eq_sym, buddy_ne). apply Hb. lia.
  - rewrite fn_lookup_insert_ne by done. intros He.
    destruct (decide (buddy p k = q)) as [Hbq|].
    + rewrite Hbq, fn_lookup_insert. intros Hok. assert (k = o) as -> by lia.
      assert (buddy q o = p) as Hqp.
      { rewrite <- Hbq. apply buddy_involutive; [lia|].
        destruct (wfo_blk f Hf p) as [_ Hblk]; [lia|]. by replace (f p - 1) with o in Hblk by lia. }
      apply Hb; [lia|]. by rewrite Hqp.
    + rewrite fn_lookup_insert_ne by done. by apply Hm.
Qed.
End add_block.

Section remove_block.
Variables (f : Z → Z) (q o : Z).
Hypotheses (Hf : wfo f) (Ho : 0 ≤ o) (Hq : f q = o + 1).

Lemma remove_block_wfo : wfo (<[q := 0]> f).
Proof.
  split.
  - intros p. destruct (decide (p = q)) as [->|]; [by rewrite fn_lookup_insert|].
    rewrite fn_lookup_insert_ne by done. by apply wfo_blk.
  - intros p r. destruct (decide (p = q)) as [->|]; [by rewrite fn_lookup_insert|].
    destruct (decide (r = q)) as [->|]; [by rewrite fn_lookup_insert|].
    rewrite !fn_lookup_insert_ne by done. by apply wfo_disj.
Qed.

Lemma remove_block_free i : freef (<[q := 0]> f) i ↔ freef f i ∧ ¬ in_blk q o i.
Proof.
  split.
  - intros (p & Hp & Hin). destruct (decide (p = q)) as [->|Hne];
      [by rewrite fn_lookup_insert in Hp|].
    rewrite fn_lookup_insert_ne in Hp, Hin by done. split; [by exists p|].
    unfold in_blk in *. intros Hi.
    pose proof (wfo_disj f Hf p q Hp ltac:(lia)). pose proof (wfo_disj f Hf q p ltac:(lia) Hp).
    rewrite Hq in *. replace (o + 1 - 1) with o in * by lia. lia.
  - intros [(p & Hp & Hin) Hout]. exists p.
    assert (p ≠ q).
    { intros ->. apply Hout. rewrite Hq in Hin. by replace (o + 1 - 1) with o in Hin by lia. }
    by rewrite fn_lookup_insert_ne.
Qed.

Lemma remove_block_in i : in_blk q o i → freef f i.
Proof. intros Hi. exists q. rewrite Hq. replace (o + 1 - 1) with o by lia. split; [lia|done]. Qed.

Lemma remove_block_merged : merged f → merged (<[q := 0]> f).
Proof.
  intros Hm p k Hk. destruct (decide (p = q)) as [->|]; [rewrite fn_lookup_insert; lia|].
  rewrite fn_lookup_insert_ne by done. intros He.
  destruct (decide (buddy p k = q)) as [->|]; [rewrite fn_lookup_insert; lia|].
  rewrite fn_lookup_insert_ne by done. by apply Hm.
Qed.
End remove_block.

(** ** The free lists represent the function *)

Section rep.
Context `{P : Profile} {L : Type} `{IL : IntrusiveList L}.
Implicit Types (s : pmm L) (f : Z → Z).

Definition order_of s (p : Z) : Z := default 0 (orders s !! p).

(** The elements of a free list. *)
Definition free_list s (ty : PfType) (o : Z) : list Z :=
  match pf_list_mut ty o ≫= λ i, pfl_data s !! i with
  | Some l => il_elems l
  | None => []
  end.

Record rep s f : Prop := {
  rep_length : length (pfl_data s) = Z.to_nat (2 * NR_ORDERS);
  rep_order p : order_of s p = f p;
  rep_nodup ty o : NoDup (free_list s ty o);
  rep_elem ty o p : ty ≠ Max → in_orders o = true →
    p ∈ free_list s ty o ↔ zone_of p = ty ∧ f p = o + 1;
}.

Lemma pf_list_mut_some ty o :
  ty ≠ Max → in_orders o = true →
  ∃ i, pf_list_mut ty o = Some i ∧ (i < Z.to_nat (2 * NR_ORDERS))%nat.
Proof.
  intros Ht Ho. unfold pf_list_mut. rewrite Ho, bool_decide_false by done.
  eexists. split; [done|]. unfold in_orders, NR_ORDERS, MAX_ORDER in *. zbool.
  destruct ty; simpl; [lia|lia|done].
Qed.

Lemma pf_list_mut_inj ty o ty' o' i :
  pf_list_mut ty o = Some i → pf_list_mut ty' o' = Some i → ty' = ty ∧ o' = o.
Proof.
  unfold pf_list_mut. intros H H'.
  destruct (in_orders o) eqn:Ho, (in_orders o') eqn:Ho'; try done.
  destruct ty, ty'; simpl in *; simplify_eq;
    unfold in_orders, NR_ORDERS, MAX_ORDER in *; zbool; split; try done; lia.
Qed.

(** Updating one list of [PFL_DATA]. *)
Lemma free_list_update s ty o i os' ty' o' l' :
  pf_list_mut ty o = Some i → (i < length (pfl_data s))%nat →
  free_list (Pmm (<[i := l']> (pfl_data s)) os') ty' o' =
    if decide (ty' = ty ∧ o' = o) then il_elems l' else free_list s ty' o'.
Proof.
  intros Hi Hlen. unfold free_list. destruct (decide _) as [[-> ->]|Hne].
  - rewrite Hi. simpl. by rewrite list_lookup_insert_eq.
  - destruct (pf_list_mut ty' o') as [j|] eqn:Hj; [|done]. simpl.
    rewrite list_lookup_insert_ne; [done|]. intros ->.
    by destruct Hne; apply (pf_list_mut_inj ty o ty' o' j).
Qed.

Lemma rep_list s f ty o i :
  rep s f → pf_list_mut ty o = Some i →
  ∃ l, pfl_data s !! i = Some l ∧ free_list s ty o = il_elems l ∧ (i < length (pfl_data s))%nat.
Proof.
  intros Hr Hi. assert (i < length (pfl_data s))%nat as Hlt.
  { rewrite (rep_length _ _ Hr). revert Hi. unfold pf_list_mut.
    destruct (in_orders o) eqn:Ho, ty; simpl; intros [= <-];
      unfold in_orders, NR_ORDERS, MAX_ORDER in *; zbool; lia. }
  destruct (lookup_lt_is_Some_2 _ _ Hlt) as [l Hl]. exists l.
  unfold free_list. rewrite Hi. simpl. by rewrite Hl.
Qed.

(** The three ways the code changes a list together with the [order] cell. *)
Lemma rep_update s f ty o i l l' p k :
  rep s f → pf_list_mut ty o = Some i → pfl_data s !! i = Some l →
  NoDup (il_elems l') →
  (∀ q, q ∈ il_elems l' ↔ zone_of q = ty ∧ <[p := k]> f q = o + 1) →
  zone_of p = ty → (∀ o', o' ≠ o → 0 ≤ o' → f p ≠ o' + 1 ∧ k ≠ o' + 1) →
  rep (Pmm (<[i := l']> (pfl_data s)) (<[p := k]> (orders s))) (<[p := k]> f).
Proof.
  intros Hr Hi Hl Hnd Hel Hz Hk.
  assert (i < length (pfl_data s))%nat as Hlt by (by eapply lookup_lt_Some).
  split.
  - simpl. rewrite length_insert. apply (rep_length _ _ Hr).
  - intros q. unfold order_of. simpl. destruct (decide (q = p)) as [->|].
    + by rewrite lookup_insert_eq, fn_lookup_insert.
    + rewrite lookup_insert_ne, fn_lookup_insert_ne by done. apply (rep_order _ _ Hr).
  - intros ty' o'. rewrite (free_list_update s ty o i) by done.
    destruct (decide _); [done|]. apply (rep_nodup _ _ Hr).
  - intros ty' o' q Ht' Ho'. rewrite (free_list_update s ty o i) by done.
    destruct (decide _) as [[-> ->]|Hne]; [apply Hel|].
    rewrite (rep_elem _ _ Hr) by done. destruct (decide (q = p)) as [->|].
    + rewrite fn_lookup_insert. split; intros [Hq Hf]; exfalso;
        (assert (o' ≠ o) by (intros ->; apply Hne; split; congruence));
        unfold in_orders in Ho'; zbool; destruct (Hk o'); lia.
    + by rewrite fn_lookup_insert_ne.
Qed.

(** [order.set(o + 1)] and [push_back]. *)
Lemma rep_push s f ty o i p :
  rep s f → pf_list_mut ty o = Some i → in_orders o = true → zone_of p = ty → f p = 0 →
  rep (Pmm (alter (il_push_back p) i (pfl_data s)) (<[p := o + 1]> (orders s)))
      (<[p := o + 1]> f).
Proof.
  intros Hr Hi Ho Hz Hp. destruct (rep_list s f ty o i Hr Hi) as (l & Hl & Hel & _).
  assert (ty ≠ Max) as Ht by (intros ->; unfold zone_of in Hz; by destruct (_ <? _)).
  pose proof (rep_nodup _ _ Hr ty o) as Hnd. rewrite Hel in Hnd.
  assert (∀ q, q ∈ il_elems l ↔ zone_of q = ty ∧ f q = o + 1) as Hin.
  { intros q. rewrite <- Hel. by apply (rep_elem _ _ Hr). }
  unfold in_orders in Ho. zbool.
  rewrite (list_alter_insert _ _ i l) by done.
  apply (rep_update s f ty o i l); try done.
  - rewrite il_push_back_elems. apply NoDup_app. split; [done|]. split; [|apply NoDup_singleton].
    intros q [_ Hq]%Hin ->%list_elem_of_singleton. lia.
  - intros q. rewrite il_push_back_elems, elem_of_app, list_elem_of_singleton, Hin.
    destruct (decide (q = p)) as [->|]; [rewrite fn_lookup_insert|rewrite fn_lookup_insert_ne by done];
      intuition lia.
  - lia.
Qed.

(** [order.set(0)] and the unlinking of the frame, by the cursor or by [pop_front]. *)
Lemma rep_unlink s f ty o i l xs ys l' p :
  rep s f → pf_list_mut ty o = Some i → in_orders o = true →
  pfl_data s !! i = Some l → il_elems l = xs ++ p :: ys → il_elems l' = xs ++ ys →
  rep (Pmm (<[i := l']> (pfl_data s)) (<[p := 0]> (orders s))) (<[p := 0]> f).
Proof.
  intros Hr Hi Ho Hl Hxs Hl'.
  assert (ty ≠ Max) as Ht by (intros ->; unfold pf_list_mut in Hi; by rewrite andb_false_r in Hi).
  assert (free_list s ty o = il_elems l) as Hel.
  { unfold free_list. rewrite Hi. simpl. by rewrite Hl. }
  pose proof (rep_nodup _ _ Hr ty o) as Hnd. rewrite Hel, Hxs in Hnd.
  assert (∀ q, q ∈ xs ++ p :: ys ↔ zone_of q = ty ∧ f q = o + 1) as Hin.
  { intros q. rewrite <- Hxs, <- Hel. by apply (rep_elem _ _ Hr). }
  destruct (proj1 (Hin p)) as [Hz Hp]; [set_solver|].
  apply NoDup_app in Hnd as (Hnx & Hxy & [Hpy Hny]%NoDup_cons).
  unfold in_orders in Ho. zbool.
  apply (rep_update s f ty o i l); try done.
  - rewrite Hl'. apply NoDup_app. set_solver.
  - intros q. rewrite Hl'. destruct (decide (q = p)) as [->|].
    + rewrite fn_lookup_insert. split; [|lia]. rewrite elem_of_app. set_solver.
    + rewrite fn_lookup_insert_ne, <- Hin by done. set_solver.
  - lia.
Qed.

Lemma rep_remove s f ty o i p :
  rep s f → pf_list_mut ty o = Some i → in_orders o = true → zone_of p = ty → f p = o + 1 →
  rep (Pmm (alter (il_remove p) i (pfl_data s)) (<[p := 0]> (orders s))) (<[p := 0]> f).
Proof.
  intros Hr Hi Ho Hz Hp. destruct (rep_list s f ty o i Hr Hi) as (l & Hl & Hel & _).
  assert (p ∈ il_elems l) as (xs & ys & Hxs)%list_elem_of_split.
  { rewrite <- Hel. apply (rep_elem _ _ Hr); [|done|done].
    intros ->. unfold zone_of in Hz. by destruct (_ <? _). }
  rewrite (list_alter_insert _ _ i l) by done.
  apply (rep_unlink s f ty o i l xs ys); try done.
  apply il_remove_elems; [done|]. rewrite <- Hel. apply (rep_nodup _ _ Hr).
Qed.

(** [pop_front]: either the list is empty and nothing changes, or it gives the
    first frame, and clearing its [order] restores the representation. *)
Lemma rep_pop s f ty o i :
  rep s f → pf_list_mut ty o = Some i → in_orders o = true →
  (list_pop_front i s = (Ok None, s) ∧ ∀ p, zone_of p = ty → f p ≠ o + 1) ∨
  (∃ p s1, list_pop_front i s = (Ok (Some p), s1) ∧ zone_of p = ty ∧ f p = o + 1 ∧
    rep (Pmm (pfl_data s1) (<[p := 0]> (orders s1))) (<[p := 0]> f)).
Proof.
  intros Hr Hi Ho. destruct (rep_list s f ty o i Hr Hi) as (l & Hl & Hel & _).
  assert (ty ≠ Max) as Ht by (intros ->; unfold pf_list_mut in Hi; by rewrite andb_false_r in Hi).
  assert (∀ q, q ∈ il_elems l ↔ zone_of q = ty ∧ f q = o + 1) as Hin.
  { intros q. rewrite <- Hel. by apply (rep_elem _ _ Hr). }
  unfold list_pop_front. rewrite Hl. destruct (il_elems l) as [|x xs] eqn:E.
  - left. rewrite il_pop_front_nil by done. split.
    + rewrite list_insert_id by done. by destruct s.
    + intros p Hz Hp. assert (p ∈ @nil Z) as []%not_elem_of_nil. by apply Hin.
  - right. destruct (il_pop_front_cons l x xs E) as [H1 H2].
    destruct (il_pop_front l) as [y l'] eqn:Ep. simpl in *. subst y.
    exists x, (Pmm (<[i := l']> (pfl_data s)) (orders s)).
    destruct (proj1 (Hin x)) as [Hz Hx]; [left|].
    split; [done|]. split; [done|]. split; [done|]. simpl.
    apply (rep_unlink s f ty o i l [] xs l' x); done.
Qed.
End rep.
