(* ===== verification/BuddyOps.v ===== *)
(** * Correctness of the buddy allocator

    Each operation of [pmm::buddy] against the set of free page frames, from the
    lemmas of [BuddyFacts]. *)

From stdpp Require Import functions.
From S2P Require Import Base Bits Collections Buddy BuddyFacts.
Local Open Scope Z_scope.

(** ** The address arithmetic of buddies *)

Lemma lxor_aligned x o : 0 ≤ o → 0 ≤ x → x mod 2 ^ o = 0 → Z.lxor x (2 ^ o) = buddy x o.
Proof.
  intros Ho Hx Ha. pose proof (pow2_pos o Ho). pose proof (pow2_succ o Ho). unfold buddy.
  destruct (aligned_cases x o Ho Ha) as [E|E]; rewrite E.
  - rewrite Z.eqb_refl. symmetry. apply Z.add_nocarry_lxor.
    apply land_shifted_low with (o + 1); lia.
  - rewrite (proj2 (Z.eqb_neq _ _)) by lia.
    assert (Z.land (x - 2 ^ o) (2 ^ o) = 0) as Hl.
    { apply land_shifted_low with (o + 1); [lia| |lia].
      rewrite Zminus_mod, E, (Z.mod_small (2 ^ o)) by lia.
      rewrite Z.sub_diag. apply Z.mod_0_l. lia. }
    replace (Z.lxor x (2 ^ o)) with (Z.lxor (Z.lxor (x - 2 ^ o) (2 ^ o)) (2 ^ o)).
    + by rewrite Z.lxor_assoc, Z.lxor_nilpotent, Z.lxor_0_r.
    + f_equal. rewrite <- Z.add_nocarry_lxor by done. lia.
Qed.

Lemma land_lxor_aligned x o :
  0 ≤ o → 0 ≤ x → x mod 2 ^ o = 0 → Z.land x (Z.lxor x (2 ^ o)) = Z.min x (buddy x o).
Proof.
  intros Ho Hx Ha. rewrite lxor_aligned by done.
  pose proof (pow2_pos o Ho). pose proof (pow2_succ o Ho). unfold buddy.
  destruct (aligned_cases x o Ho Ha) as [E|E]; rewrite E.
  - rewrite Z.eqb_refl, Z.min_l by lia.
    rewrite <- lor_land_disjoint by (apply land_shifted_low with (o + 1); lia).
    apply Z.bits_inj'. intros i Hi. rewrite Z.land_spec, Z.lor_spec.
    by destruct (Z.testbit x i), (Z.testbit (2 ^ o) i).
  - rewrite (proj2 (Z.eqb_neq _ _)), Z.min_r by lia.
    set (y := x - 2 ^ o). replace x with (y + 2 ^ o) by lia.
    rewrite <- lor_land_disjoint.
    + apply Z.bits_inj'. intros i Hi. rewrite Z.land_spec, Z.lor_spec.
      by destruct (Z.testbit y i), (Z.testbit (2 ^ o) i).
    + apply land_shifted_low with (o + 1); [lia| |lia]. unfold y.
      rewrite Zminus_mod, E, (Z.mod_small (2 ^ o)) by lia.
      rewrite Z.sub_diag. apply Z.mod_0_l. lia.
Qed.

Section arith.
Context `{P : Profile}.

Lemma pft_base_zone ty : ty ≠ Max → pft_base ty = Ok (zone_base ty).
Proof. by destruct ty. Qed.

Lemma zone_base_le p : 0 ≤ p → 0 ≤ zone_base (zone_of p) ≤ p.
Proof. intros. unfold zone_of. destruct (Z.ltb_spec p (2 ^ 20)); simpl; lia. Qed.

Lemma zone_of_not_Max p : zone_of p ≠ Max.
Proof. unfold zone_of. by destruct (_ <? _). Qed.

Lemma zone_base_aligned ty o : 0 ≤ o ≤ 20 → zone_base ty mod 2 ^ o = 0.
Proof.
  intros Ho. pose proof (pow2_pos o ltac:(lia)). destruct ty; simpl;
    try (apply Z.mod_0_l; lia). apply aligned_weaken with 20; [lia|done].
Qed.

Lemma page_to_pfn_ok p : 0 ≤ p < 2 ^ 40 →
  page_to_pfn p (zone_of p) = Ok (p - zone_base (zone_of p)).
Proof.
  intros Hp. pose proof (zone_base_le p ltac:(lia)). unfold page_to_pfn.
  run (pft_base_zone _ (zone_of_not_Max p)). rewrite wrap_small; [done|]. lia.
Qed.

Lemma pfn_aligned p o ty : 0 ≤ o ≤ 11 → blk p o → (p - zone_base ty) mod 2 ^ o = 0.
Proof.
  intros Ho (_ & Ha & _). rewrite Zminus_mod, Ha, zone_base_aligned by lia. done.
Qed.

Lemma buddy_pfn p o ty : 0 ≤ o ≤ 11 → zone_base ty + buddy (p - zone_base ty) o = buddy p o.
Proof.
  intros Ho. unfold buddy. rewrite Zminus_mod, zone_base_aligned, Z.sub_0_r by lia.
  rewrite Z.mod_mod by (pose proof (pow2_pos (o + 1)); lia). destruct (_ =? 0); lia.
Qed.

Lemma in_orders_iff o : in_orders o = true ↔ 0 ≤ o ≤ 11.
Proof. unfold in_orders, MAX_ORDER, PAGE_SHIFT. rewrite andb_true_iff. lia. Qed.

Lemma blk_bound p o : 0 ≤ o → blk p o → 0 ≤ p < 2 ^ 40.
Proof. intros Ho (? & _ & ?). pose proof (pow2_pos o Ho). lia. Qed.

Lemma shift_one {E} o : 0 ≤ o ≤ 11 → ushl (E:=E) W 1 o = Ok (2 ^ o).
Proof.
  intros Ho. rewrite ushl_ok; [f_equal; lia|lia|].
  rewrite Z.mul_1_l. pose proof (pow2_pos o ltac:(lia)).
  pose proof (Z.pow_le_mono_r 2 o 11). lia.
Qed.

Lemma get_buddy_ok p o : 0 ≤ o ≤ 11 → blk p o → get_buddy p o (zone_of p) = Ok (buddy p o).
Proof.
  intros Ho Hp. pose proof (blk_bound p o ltac:(lia) Hp). pose proof (zone_base_le p ltac:(lia)).
  unfold get_buddy, pfn_to_page.
  rewrite bool_decide_false by apply zone_of_not_Max. simpl.
  rewrite (proj2 (in_orders_iff o)) by lia. simpl.
  run page_to_pfn_ok. run shift_one.
  run (pft_base_zone _ (zone_of_not_Max p)).
  rewrite lxor_aligned by (try apply pfn_aligned; lia || done). by rewrite buddy_pfn.
Qed.

Lemma get_combined_ok p o :
  0 ≤ o ≤ 11 → blk p o → get_combined p o (zone_of p) = Ok (Z.min p (buddy p o)).
Proof.
  intros Ho Hp. pose proof (blk_bound p o ltac:(lia) Hp). pose proof (zone_base_le p ltac:(lia)).
  unfold get_combined, pfn_to_page.
  rewrite bool_decide_false by apply zone_of_not_Max. simpl.
  rewrite (proj2 (in_orders_iff o)) by lia. simpl.
  run page_to_pfn_ok. run shift_one.
  run (pft_base_zone _ (zone_of_not_Max p)).
  rewrite land_lxor_aligned by (try apply pfn_aligned; lia || done).
  rewrite <- (buddy_pfn p o (zone_of p)) by lia. f_equal. lia.
Qed.
End arith.

(** ** Allocation and deallocation of a block *)

Section ops.
Context `{P : Profile} {L : Type} `{IL : IntrusiveList L}.
Implicit Types (s : pmm L) (f : Z → Z).

Record inv s f : Prop := { inv_rep : rep s f; inv_wfo : wfo f; inv_merged : merged f }.

Lemma order_get_rep s f p : rep s f → order_get p s = (Ok (f p), s).
Proof. intros Hr. unfold order_get. by rewrite <- (rep_order _ _ Hr p). Qed.

(** The half [[p + 2^k, p + 2^(k+1))] that one iteration of [split_page] frees. *)
Lemma half_blk p k o : 0 ≤ k < o → o ≤ 11 → blk p o → blk (p + 2 ^ k) k.
Proof.
  intros Hk Ho (H0 & Ha & Hm). pose proof (pow2_pos k ltac:(lia)).
  pose proof (pow2_succ k ltac:(lia)). pose proof (Z.pow_le_mono_r 2 (k + 1) o ltac:(lia) ltac:(lia)).
  split; [lia|]. split; [|lia].
  rewrite <- Z.add_mod_idemp_l, (aligned_weaken p k o), Z.add_0_l by lia. apply Z_mod_same_full.
Qed.

Lemma half_buddy p k o : 0 ≤ k < o → blk p o → buddy (p + 2 ^ k) k = p.
Proof.
  intros Hk (_ & Ha & _). unfold buddy. rewrite (aligned_shift p o k) by done.
  pose proof (pow2_pos k ltac:(lia)). rewrite (proj2 (Z.eqb_neq _ _)) by lia. lia.
Qed.

(** Linking a block whose frames are all in use and whose buddy is not free. *)
Lemma link_ok s f q o j :
  inv s f → 0 ≤ o ≤ 11 → blk q o → (∀ i, in_blk q o i → ¬ freef f i) →
  (o < 11 → f (buddy q o) ≠ o + 1) → pf_list_mut (zone_of q) o = Some j →
  inv (Pmm (alter (il_push_back q) j (pfl_data s)) (<[q := o + 1]> (orders s)))
      (<[q := o + 1]> f).
Proof.
  intros [Hr Hw Hm] Ho Hq Hhole Hb Hj. split.
  - apply rep_push with (zone_of q); auto; [by apply in_orders_iff|].
    by apply add_block_zero with o.
  - by apply add_block_wfo.
  - by apply add_block_merged.
Qed.

Lemma pf_list_zone p o :
  0 ≤ o ≤ 11 → ∃ j, pf_list_mut (zone_of p) o = Some j.
Proof.
  intros Ho. destruct (pf_list_mut_some (zone_of p) o) as (j & Hj & _); [|by apply in_orders_iff|by exists j].
  apply zone_of_not_Max.
Qed.

(** Splitting: from order [o] down to [k] the upper halves become free, and the
    block [[p, p + 2^k)] is left to the caller. *)
Lemma split_loop_ok p o n : ∀ k s f,
  k + Z.of_nat n = o → 0 ≤ k → o ≤ 11 → blk p o → inv s f → f p = 0 →
  (∀ i, p + 2 ^ k ≤ i < p + 2 ^ o → ¬ freef f i) →
  ∃ s' f', split_loop p (zone_of p) (seqZ k (Z.of_nat n)) s = (Ok (), s') ∧ inv s' f' ∧
    ∀ i, freef f' i ↔ freef f i ∨ p + 2 ^ k ≤ i < p + 2 ^ o.
Proof.
  induction n as [|n IH]; intros k s f Hk Hk0 Ho Hp Hi Hfp Hhole.
  - replace o with k by lia. exists s, f. split; [done|]. split; [done|]. intros. intuition lia.
  - rewrite seqZ_cons by lia. replace (Z.pred (Z.of_nat (S n))) with (Z.of_nat n) by lia.
    replace (Z.succ k) with (k + 1) by lia.
    pose proof (pow2_pos k ltac:(lia)). pose proof (pow2_succ k ltac:(lia)).
    pose proof (Z.pow_le_mono_r 2 (k + 1) o ltac:(lia) ltac:(lia)).
    pose proof (half_blk p k o ltac:(lia) Ho Hp) as Hh.
    assert (∀ i, in_blk (p + 2 ^ k) k i → ¬ freef f i) as Hh'.
    { intros i Hin. apply Hhole. unfold in_blk in Hin. lia. }
    assert (f (p + 2 ^ k) = 0) as Hz.
    { apply add_block_zero with k; auto with lia. apply Hi. }
    assert (zone_of (p + 2 ^ k) = zone_of p) as Hzone.
    { apply zone_of_blk with o; [lia|done|]. unfold in_blk. lia. }
    destruct (pf_list_zone p k ltac:(lia)) as [j Hj].
    pose proof (link_ok s f (p + 2 ^ k) k j Hi ltac:(lia) Hh Hh') as Hinv.
    rewrite (half_buddy p k o), Hfp, Hzone in Hinv by (lia || done).
    specialize (Hinv ltac:(lia) Hj).
    cbn [split_loop]. run shift_one. rewrite Hj. run (eq_refl (unwrap (Some j))).
    run (order_get_rep s f (p + 2 ^ k) (inv_rep _ _ Hi)). rewrite Hz.
    run (eq_refl (assert_ true)). run (uadd_ok W k 1).
    edestruct (IH (k + 1)) as (s' & f' & Hrun & Hinv' & Hfree); [lia|lia|lia|done|exact Hinv|..].
    + by rewrite fn_lookup_insert_ne by lia.
    + intros i Hin. rewrite (add_block_free f (p + 2 ^ k) k) by (apply Hi || lia || done).
      unfold in_blk. intros [Hf|?]; [|lia]. apply (Hhole i); [lia|done].
    + exists s', f'. split; [exact Hrun|]. split; [done|]. intros i.
      rewrite Hfree, (add_block_free f (p + 2 ^ k) k) by (apply Hi || lia || done).
      unfold in_blk. intuition lia.
Qed.

Lemma page_address_ok p : 0 ≤ p < 2 ^ 40 → page_address p = p * PAGE_SIZE.
Proof.
  intros Hp. unfold page_address, PAGE_SHIFT. rewrite Z.shiftl_mul_pow2 by lia.
  rewrite wrap_small by lia. done.
Qed.

(** What a call that may allocate the frames of a block of order [o] in a zone
    of [zones] does: [a] is the address it returns. *)
Definition alloc_result f f' (o : Z) (zones : PfType → Prop) (r : option Z) : Prop :=
  match r with
  | Some a => ∃ p, a = p * PAGE_SIZE ∧ blk p o ∧ zones (zone_of p) ∧
      (∀ i, in_blk p o i → freef f i) ∧ (∀ i, freef f' i ↔ freef f i ∧ ¬ in_blk p o i)
  | None => f' = f ∧ ∀ p k, zones (zone_of p) → o ≤ k ≤ 11 → f p ≠ k + 1
  end.

(** Taking the block [p] of order [o] off its list and splitting it. *)
Lemma take_ok s f p o k :
  rep s (<[p := 0]> f) → wfo f → merged f → 0 ≤ k ≤ o → o ≤ 11 → f p = o + 1 →
  ∃ s' f', split_page p (zone_of p) k o s = (Ok p, s') ∧ inv s' f' ∧ blk p k ∧
    (∀ i, in_blk p k i → freef f i) ∧ (∀ i, freef f' i ↔ freef f i ∧ ¬ in_blk p k i).
Proof.
  intros Hr Hw Hm Hk Ho Hp.
  destruct (wfo_blk f Hw p ltac:(lia)) as [_ Hb]. rewrite Hp in Hb.
  replace (o + 1 - 1) with o in Hb by lia.
  pose proof (remove_block_free f p o Hw ltac:(lia) Hp) as Hfree.
  pose proof (Z.pow_le_mono_r 2 k o ltac:(lia) ltac:(lia)). pose proof (pow2_pos k ltac:(lia)).
  unfold split_page. rewrite bool_decide_false by apply zone_of_not_Max.
  run (eq_refl (assert_ true)). rewrite (proj2 (Z.ltb_lt o MAX_ORDER)) by (unfold MAX_ORDER, PAGE_SHIFT; lia).
  run (eq_refl (assert_ true)).
  destruct (split_loop_ok p o (Z.to_nat (o - k)) k s (<[p := 0]> f)) as (s' & f' & Hrun & Hinv & Hfr);
    try lia; [done| |apply fn_lookup_insert| |].
  - split; [done|by apply remove_block_wfo|by apply remove_block_merged].
  - intros i Hi. rewrite Hfree. unfold in_blk. intros [_ []]. lia.
  - exists s', f'. rewrite Z2Nat.id in Hrun by lia. run Hrun.
    split; [done|]. split; [done|]. destruct Hb as (Hb0 & Ha & Hend). split.
    { split; [lia|]. split; [|lia]. apply aligned_weaken with o; [lia|done]. }
    assert (∀ i, in_blk p o i → freef f i) as Hin by (by apply remove_block_in; [lia|]).
    split; [intros i Hi; apply Hin; unfold in_blk in *; lia|].
    intros i. rewrite Hfr, Hfree. specialize (Hin i). unfold in_blk in *. destruct (decide (p ≤ i < p + 2 ^ o)), (decide (p ≤ i < p + 2 ^ k)); intuition lia.
Qed.

Lemma alloc_scan_ok order ty n : ∀ o s f,
  o + Z.of_nat n = MAX_ORDER → 0 ≤ order ≤ o → ty ≠ Max → inv s f →
  (∀ p k, zone_of p = ty → order ≤ k < o → f p ≠ k + 1) →
  ∃ r s' f', alloc_scan order ty (seqZ o (Z.of_nat n)) s = (Ok r, s') ∧ inv s' f' ∧
    alloc_result f f' order (λ z, z = ty) r.
Proof.
  unfold MAX_ORDER, PAGE_SHIFT.
  induction n as [|n IH]; intros o s f Hn Ho Ht Hi Hnone.
  - exists None, s, f. split; [done|]. split; [done|]. split; [done|].
    intros p k Hz Hk. apply Hnone; [done|lia].
  - rewrite seqZ_cons by lia. replace (Z.pred (Z.of_nat (S n))) with (Z.of_nat n) by lia.
    replace (Z.succ o) with (o + 1) by lia.
    destruct (pf_list_mut_some ty o Ht) as (j & Hj & _); [apply in_orders_iff; lia|].
    cbn [alloc_scan]. rewrite Hj. run (eq_refl (unwrap (Some j))).
    destruct (rep_pop s f ty o j) as [[Hpop He]|(p & s1 & Hpop & Hz & Hp & Hr)];
      [apply Hi|done|apply in_orders_iff; lia|run Hpop|run Hpop].
    + apply IH; try done; try lia. intros p k Hz Hk.
      destruct (decide (k = o)) as [->|]; [by apply He|]. apply Hnone; [done|lia].
    + run (eq_refl (order_set p 0 s1)). rewrite <- Hz.
      destruct (take_ok _ f p o order Hr) as (s' & f' & Hrun & Hinv & Hb & Hin & Hfr);
        try apply Hi; try lia.
      run Hrun. exists (Some (page_address p)), s', f'. split; [done|]. split; [done|].
      exists p. rewrite page_address_ok by (by apply (blk_bound p order); [lia|]). by split_and!.
Qed.

Lemma alloc_typed_ok order ty s f :
  0 ≤ order ≤ 11 → ty ≠ Max → inv s f →
  ∃ r s' f', alloc_page_typed order ty s = (Ok r, s') ∧ inv s' f' ∧
    alloc_result f f' order (λ z, z = ty) r.
Proof.
  intros Ho Ht Hi. unfold alloc_page_typed.
  rewrite bool_decide_false by done. run (eq_refl (assert_ true)).
  rewrite (proj2 (in_orders_iff order)) by lia. run (eq_refl (assert_ true)).
  rewrite <- (Z2Nat.id (MAX_ORDER - order)) by (unfold MAX_ORDER, PAGE_SHIFT; lia).
  apply alloc_scan_ok; try done; unfold MAX_ORDER, PAGE_SHIFT; lia.
Qed.

(** Merging: the block grows by its free buddies, which leave their lists. *)
Lemma merge_loop_ok n : ∀ p o s f,
  o + Z.of_nat n = MAX_ORDER - 1 → 0 ≤ o → blk p o → inv s f →
  (∀ i, in_blk p o i → ¬ freef f i) →
  ∃ p' o' s' f', merge_loop n p o (zone_of p) s = (Ok (p', o'), s') ∧ inv s' f' ∧
    0 ≤ o' ≤ 11 ∧ blk p' o' ∧ zone_of p' = zone_of p ∧
    (∀ i, in_blk p' o' i → ¬ freef f' i) ∧ (o' < 11 → f' (buddy p' o') ≠ o' + 1) ∧
    (∀ i, freef f' i ∨ in_blk p' o' i ↔ freef f i ∨ in_blk p o i).
Proof.
  unfold MAX_ORDER, PAGE_SHIFT. induction n as [|n IH]; intros p o s f Hn Ho Hp Hi Hhole.
  { exists p, o, s, f. split_and!; try done; lia. }
  cbn [merge_loop]. rewrite (proj2 (Z.ltb_lt o _)) by (unfold MAX_ORDER, PAGE_SHIFT; lia).
  destruct (pf_list_zone p o ltac:(lia)) as [j Hj]. rewrite Hj.
  run (eq_refl (unwrap (Some j))). run get_buddy_ok.
  run (order_get_rep s f (buddy p o) (inv_rep _ _ Hi)). run (uadd_ok W o 1).
  destruct (Z.eqb_spec (f (buddy p o)) (o + 1)) as [Hb|Hb]; cbn [negb].
  2: { exists p, o, s, f. split_and!; try done; lia. }
  destruct Hi as [Hr Hw Hm].
  assert (zone_of (Z.min p (buddy p o)) = zone_of p) as Hz.
  { destruct (Z.min_spec p (buddy p o)) as [[_ ->]|[_ ->]]; [done|apply zone_of_buddy; [lia|done]]. }
  pose proof (remove_block_free f (buddy p o) o Hw Ho Hb) as Hfree.
  pose proof (combined_in p o ltac:(lia) Hp) as Hc.
  pose proof (remove_block_in f (buddy p o) o Ho Hb) as Hbf.
  pose proof (rep_remove s f (zone_of p) o j (buddy p o) Hr Hj
    (proj2 (in_orders_iff o) ltac:(lia)) (zone_of_buddy p o ltac:(lia) Hp) Hb) as Hr'.
  run (eq_refl (order_set (buddy p o) 0 s)). run (eq_refl (list_remove j (buddy p o) _)).
  run get_combined_ok. run (uadd_ok W o 1). rewrite <- Hz.
  edestruct (IH (Z.min p (buddy p o)) (o + 1)) as (p' & o' & s' & f' & Hrun & Hinv & Ho' & Hb' & Hz' & Hh & Hbb & Hfr);
    [lia|lia|by apply combined_blk; [lia|]| |..|].
  - split; [exact Hr'|by apply remove_block_wfo|by apply remove_block_merged].
  - intros i Hin. rewrite Hfree. rewrite Hc in Hin. specialize (Hhole i). tauto.
  - exists p', o', s', f'. split_and!; try done; try lia.
    intros i. rewrite Hfr, Hfree, Hc. specialize (Hbf i).
    destruct (decide (buddy p o ≤ i < buddy p o + 2 ^ o)); unfold in_blk in *; tauto.
Qed.

Lemma dealloc_typed_ok p order s f :
  0 ≤ order ≤ 11 → blk p order → inv s f → (∀ i, in_blk p order i → ¬ freef f i) →
  ∃ s' f', dealloc_page_typed p order (zone_of p) s = (Ok (), s') ∧ inv s' f' ∧
    ∀ i, freef f' i ↔ freef f i ∨ in_blk p order i.
Proof.
  intros Ho Hp Hi Hhole. unfold dealloc_page_typed.
  rewrite bool_decide_false by apply zone_of_not_Max. run (eq_refl (assert_ true)).
  rewrite (proj2 (in_orders_iff order)) by lia. run (eq_refl (assert_ true)).
  destruct (merge_loop_ok (Z.to_nat (MAX_ORDER - 1 - order)) p order s f)
    as (p' & o' & s1 & f1 & Hrun & Hi1 & Ho' & Hb' & Hz & Hh & Hbb & Hfr);
    try done; try (unfold MAX_ORDER, PAGE_SHIFT; lia).
  run Hrun. rewrite <- Hz. destruct (pf_list_zone p' o' Ho') as [j Hj]. rewrite Hj.
  run (eq_refl (unwrap (Some j))). run (order_get_rep s1 f1 p' (inv_rep _ _ Hi1)).
  rewrite (add_block_zero f1 p' o') by (done || apply Hi1).
  run (eq_refl (assert_ true)). run (uadd_ok W o' 1). run (eq_refl (order_set p' (o' + 1) s1)).
  eexists _, (<[p' := o' + 1]> f1). split; [done|].
  split; [exact (link_ok s1 f1 p' o' j Hi1 Ho' Hb' Hh Hbb Hj)|].
  intros i. rewrite add_block_free by (done || apply Hi1). apply Hfr.
Qed.

(** ** Ranges of pages *)

Lemma page_frame_mul p : page_frame (p * PAGE_SIZE) = p.
Proof.
  unfold page_frame, PAGE_SHIFT. rewrite Z.shiftr_div_pow2 by lia. apply Z.div_mul. lia.
Qed.

Lemma pftype_from_mul p : 0 ≤ p → pftype_from (p * PAGE_SIZE) = zone_of p.
Proof.
  intros Hp. unfold pftype_from, zone_of. change PFTYPE_BOUND with (2 ^ 20 * 4096).
  change PAGE_SIZE with 4096.
  rewrite (proj2 (Z.leb_le 0 _)) by lia. simpl andb.
  destruct (Z.ltb_spec (p * 4096) (2 ^ 20 * 4096)), (Z.ltb_spec p (2 ^ 20)); done || lia.
Qed.

(** The block that one iteration of [dealloc_pages_exact] frees. *)
Definition greedy_order (a e : Z) : Z :=
  Z.min (Z.min (lsb W (a - zone_base (zone_of a))) (MAX_ORDER - 1)) (Z.log2 (e - a)).

Lemma greedy_blk a e :
  0 ≤ a < e → e ≤ 2 ^ 40 →
  0 ≤ greedy_order a e ≤ 11 ∧ a + 2 ^ greedy_order a e ≤ e ∧ blk a (greedy_order a e).
Proof.
  intros Ha He. pose proof (zone_base_le a ltac:(lia)) as Hz.
  set (x := a - zone_base (zone_of a)).
  pose proof (Z.log2_nonneg (e - a)). pose proof (Z.log2_spec (e - a) ltac:(lia)) as [Hl _].
  assert (0 ≤ lsb W x ∧ x mod 2 ^ lsb W x = 0) as [Hs Hd].
  { unfold lsb. destruct (Z.eq_dec x 0) as [->|]; [split; [done|]; apply Z.mod_0_l; done|].
    split; [by apply cttz_spec; lia|apply cttz_divides; lia]. }
  unfold greedy_order, MAX_ORDER, PAGE_SHIFT. fold x.
  set (o := Z.min (Z.min (lsb W x) _) _). assert (0 ≤ o ≤ 11) by lia.
  pose proof (Z.pow_le_mono_r 2 o (Z.log2 (e - a)) ltac:(lia) ltac:(lia)).
  split; [lia|]. split; [lia|]. split; [lia|]. split; [|lia].
  replace a with (x + zone_base (zone_of a)) by lia.
  rewrite Z.add_mod, (aligned_weaken x o (lsb W x)), zone_base_aligned by lia. done.
Qed.

Lemma dealloc_loop_ok n : ∀ a e s f,
  e - a ≤ Z.of_nat n → 0 ≤ a ≤ e → e ≤ 2 ^ 40 → inv s f →
  (∀ i, a ≤ i < e → ¬ freef f i) →
  ∃ s' f', dealloc_loop n (a * PAGE_SIZE) (e * PAGE_SIZE) s = (Ok (), s') ∧ inv s' f' ∧
    ∀ i, freef f' i ↔ freef f i ∨ a ≤ i < e.
Proof.
  induction n as [|n IH]; intros a e s f Hn Ha He Hi Hhole.
  { exists s, f. split; [done|]. split; [done|]. intuition lia. }
  cbn [dealloc_loop]. destruct (Z.ltb_spec (a * PAGE_SIZE) (e * PAGE_SIZE)) as [Hlt|Hge];
    change PAGE_SIZE with 4096 in *.
  2: { exists s, f. split; [done|]. split; [done|]. intuition lia. }
  change 4096 with PAGE_SIZE. rewrite pftype_from_mul, !page_frame_mul by lia.
  destruct (greedy_blk a e ltac:(lia) He) as (Ho & Hend & Hb).
  pose proof (zone_base_le a ltac:(lia)). run page_to_pfn_ok.
  assert (page_to_pfn e (zone_of a) = Ok (e - zone_base (zone_of a))) as He'.
  { unfold page_to_pfn. run (pft_base_zone _ (zone_of_not_Max a)).
    rewrite wrap_small; [done|lia]. }
  run He'. run (usub_ok W). replace (_ - _ - _) with (e - a) by lia.
  run (msb_ok W). fold (greedy_order a e).
  destruct (dealloc_typed_ok a (greedy_order a e) s f Ho Hb Hi) as (s1 & f1 & Hrun & Hi1 & Hf1).
  { intros i Hin. apply Hhole. unfold in_blk in Hin. lia. }
  run Hrun. pose proof (pow2_pos (greedy_order a e) ltac:(lia)).
  pose proof (Z.pow_le_mono_r 2 (greedy_order a e) 11 ltac:(lia) ltac:(lia)).
  run (ushl_ok W PAGE_SIZE); [|change PAGE_SIZE with 4096; lia].
  run (uadd_ok W (a * PAGE_SIZE)); [|change PAGE_SIZE with 4096; lia].
  replace (a * PAGE_SIZE + _) with ((a + 2 ^ greedy_order a e) * PAGE_SIZE) by lia.
  destruct (IH (a + 2 ^ greedy_order a e) e s1 f1) as (s' & f' & Hrun' & Hi' & Hf');
    try lia; [done| |].
  - intros i Hin. rewrite Hf1. unfold in_blk. intros [Hf|?]; [|lia]. by apply (Hhole i); [lia|].
  - exists s', f'. split; [done|]. split; [done|]. intros i. rewrite Hf', Hf1.
    unfold in_blk. intuition lia.
Qed.

Lemma dealloc_exact_ok n a s f :
  0 ≤ n → 0 ≤ a → a + n ≤ 2 ^ 40 → inv s f → (∀ i, a ≤ i < a + n → ¬ freef f i) →
  ∃ s' f', dealloc_pages_exact n (a * PAGE_SIZE) s = (Ok (), s') ∧ inv s' f' ∧
    ∀ i, freef f' i ↔ freef f i ∨ a ≤ i < a + n.
Proof.
  intros Hn Ha He Hi Hhole. unfold dealloc_pages_exact.
  run (ushl_ok W n PAGE_SHIFT); [|unfold PAGE_SHIFT; lia].
  run (uadd_ok W (a * PAGE_SIZE)); [|change PAGE_SIZE with 4096; change PAGE_SHIFT with 12; lia].
  replace (a * PAGE_SIZE + _) with ((a + n) * PAGE_SIZE)
    by (change PAGE_SIZE with 4096; change PAGE_SHIFT with 12; lia).
  apply dealloc_loop_ok; try done; lia.
Qed.

(** The zones that a caller's [Option<PfType>] admits. *)
Definition zone_ok (pftype : option PfType) (z : PfType) : Prop :=
  match default Max pftype with Max => True | t => z = t end.

Lemma alloc_result_weaken f f' o (zs zs' : PfType → Prop) a :
  alloc_result f f' o zs (Some a) → (∀ z, zs z → zs' z) → alloc_result f f' o zs' (Some a).
Proof. intros (p & Ha & Hb & Hz & Hin & Hf) Hzs. exists p. split_and!; auto. Qed.

Lemma alloc_pages_ok order pftype s f :
  0 ≤ order ≤ 11 → inv s f →
  ∃ r s' f', alloc_pages order pftype s = (Ok r, s') ∧ inv s' f' ∧
    alloc_result f f' order (zone_ok pftype) r.
Proof.
  intros Ho Hi. unfold alloc_pages, zone_ok. rewrite (proj2 (in_orders_iff order)) by lia.
  cbn [negb]. destruct (default Max pftype); try (by apply alloc_typed_ok).
  destruct (alloc_typed_ok order High s f Ho) as (r & s1 & f1 & Hrun & Hi1 & Hr); [done|done|].
  run Hrun. destruct r as [a|].
  { exists (Some a), s1, f1. split_and!; [done|done|]. by eapply alloc_result_weaken. }
  destruct Hr as [-> Hnone].
  destruct (alloc_typed_ok order Low s1 f Ho) as (r & s2 & f2 & Hrun2 & Hi2 & Hr); [done|done|].
  exists r, s2, f2. split_and!; [done|done|]. destruct r as [a|].
  - by eapply alloc_result_weaken.
  - destruct Hr as [-> Hlow]. split; [done|]. intros p k _ Hk.
    destruct (zone_of p) eqn:Hz; [by apply Hlow|by apply Hnone|by apply zone_of_not_Max in Hz].
Qed.

Lemma log2_up_bound n : 1 ≤ n ≤ 2 ^ 11 → 0 ≤ Z.log2_up n ≤ 11 ∧ n ≤ 2 ^ Z.log2_up n.
Proof.
  intros Hn. pose proof (Z.log2_up_nonneg n). pose proof (Z.log2_up_le_mono n (2 ^ 11) ltac:(lia)).
  rewrite Z.log2_up_pow2 in * by lia. split; [lia|].
  destruct (Z.eq_dec n 1) as [->|]; [done|]. by apply Z.log2_up_spec; lia.
Qed.

(** [alloc_pages_exact]: the block of [2^ceil(log2 n)] frames minus its tail. *)
Definition exact_result f f' (n : Z) (zones : PfType → Prop) (r : option Z) : Prop :=
  match r with
  | Some a => ∃ p, a = p * PAGE_SIZE ∧ p mod 2 ^ Z.log2_up n = 0 ∧ zones (zone_of p) ∧
      (∀ i, p ≤ i < p + n → freef f i) ∧ (∀ i, freef f' i ↔ freef f i ∧ ¬ (p ≤ i < p + n))
  | None => f' = f ∧ ∀ p k, zones (zone_of p) → Z.log2_up n ≤ k ≤ 11 → f p ≠ k + 1
  end.

Lemma alloc_exact_ok n pftype s f :
  1 ≤ n ≤ 2 ^ 11 → inv s f →
  ∃ r s' f', alloc_pages_exact n pftype s = (Ok r, s') ∧ inv s' f' ∧
    exact_result f f' n (zone_ok pftype) r.
Proof.
  intros Hn Hi. destruct (log2_up_bound n Hn) as [Ho Hle].
  unfold alloc_pages_exact. run (log2c_ok W).
  set (o := Z.log2_up n) in *. rewrite (proj2 (in_orders_iff o)) by lia. cbn [negb].
  destruct (alloc_pages_ok o pftype s f Ho Hi) as (r & s1 & f1 & Hrun & Hi1 & Hr).
  run Hrun. destruct r as [a|]; [|by exists None, s1, f1].
  destruct Hr as (p & -> & Hb & Hz & Hin & Hf1). pose proof (blk_bound p o ltac:(lia) Hb).
  destruct Hb as (_ & Ha & Hend). pose proof (pow2_pos o ltac:(lia)).
  pose proof (Z.pow_le_mono_r 2 o 11 ltac:(lia) ltac:(lia)).
  destruct (dealloc_exact_ok (2 ^ o - n) (p + n) s1 f1) as (s2 & f2 & Hrun2 & Hi2 & Hf2);
    try lia; [done| |].
  { intros i Hi'. rewrite Hf1. unfold in_blk. intros [_ []]. lia. }
  assert (scale_back_pages (p * PAGE_SIZE) o n s1 = (Ok (p * PAGE_SIZE), s2)) as Hsb.
  { unfold scale_back_pages. rewrite (proj2 (in_orders_iff o)) by lia.
    run (eq_refl (assert_ true)). run shift_one.
    rewrite (proj2 (Z.leb_le n (2 ^ o))) by lia. run (eq_refl (assert_ true)).
    run (usub_ok W). run (ushl_ok W n PAGE_SHIFT); [|change PAGE_SHIFT with 12; lia].
    run (uadd_ok W (p * PAGE_SIZE)); [|change PAGE_SIZE with 4096; change PAGE_SHIFT with 12; lia].
    replace (p * PAGE_SIZE + n * 2 ^ PAGE_SHIFT) with ((p + n) * PAGE_SIZE)
      by (change PAGE_SIZE with 4096; change PAGE_SHIFT with 12; lia).
    run Hrun2. done. }
  run Hsb. exists (Some (p * PAGE_SIZE)), s2, f2. split_and!; [done|done|].
  exists p. split_and!; try done.
  - intros i Hi'. apply Hin. unfold in_blk. lia.
  - intros i. rewrite Hf2, Hf1. specialize (Hin i). unfold in_blk in *.
    destruct (decide (p ≤ i < p + 2 ^ o)), (decide (p ≤ i < p + n)); intuition lia.
Qed.
End ops.
