(* ===== verification/BuddySpec.v ===== *)
(** * What the physical memory manager promises

    The specification of [pmm] in terms of the set of free page frames: the
    invariant of the free lists, and each public operation as a transition of
    the set. *)

From stdpp Require Import functions.
From S2P Require Import Base Bits Collections Buddy BuddyFacts BuddyOps.
Local Open Scope Z_scope.

(** A run of free frames that is a block of order [o] lies in a free block of
    order at least [o], since free buddies are always merged. *)
Lemma aligned_between X a b c y :
  0 < X → 0 ≤ y < X → a * X ≤ b * X + y < a * X + c * X → a * X ≤ b * X < a * X + c * X.
Proof. intros HX Hy H. assert (a ≤ b) by nia. assert (b < a + c) by nia. nia. Qed.

Lemma blk_contains q k p o y :
  0 ≤ o ≤ k → blk q k → blk p o → 0 ≤ y < 2 ^ o → in_blk q k (p + y) → in_blk q k p.
Proof.
  intros Ho (_ & Hq & _) (_ & Hp & _) Hy. pose proof (pow2_pos o ltac:(lia)).
  apply (aligned_weaken q o k) in Hq; [|lia].
  apply Z.mod_divide in Hq as [a ->]; [|lia]. apply Z.mod_divide in Hp as [b ->]; [|lia].
  replace (2 ^ k) with (2 ^ (k - o) * 2 ^ o) by (rewrite <- Z.pow_add_r by lia; f_equal; lia).
  unfold in_blk. replace k with (k - o + o) by lia. rewrite Z.pow_add_r by lia.
  apply aligned_between; lia.
Qed.

Lemma blk_same q p o : 0 ≤ o → blk q o → blk p o → in_blk q o p → q = p.
Proof.
  intros Ho (_ & Hq & _) (_ & Hp & _) Hin. pose proof (pow2_pos o Ho). unfold in_blk in Hin.
  apply Z.mod_divide in Hq as [a ->]; [|lia]. apply Z.mod_divide in Hp as [b ->]; [|lia].
  assert (a = b) by nia. congruence.
Qed.

Lemma covered f n : ∀ p,
  wfo f → merged f → Z.of_nat n ≤ 11 → blk p (Z.of_nat n) →
  (∀ i, in_blk p (Z.of_nat n) i → freef f i) →
  ∃ q k, Z.of_nat n ≤ k ≤ 11 ∧ f q = k + 1 ∧ blk q k ∧ in_blk q k p.
Proof.
  induction n as [|n IH]; intros p Hw Hm Hn Hp Hfree.
  - destruct (Hfree p) as (q & Hq & Hin); [unfold in_blk; simpl; lia|].
    destruct (wfo_blk f Hw q Hq) as [Hb Hblk]. unfold MAX_ORDER, PAGE_SHIFT in Hb.
    exists q, (f q - 1). split_and!; try done; lia.
  - set (o := Z.of_nat n) in *. assert (Z.of_nat (S n) = o + 1) as E by lia. rewrite E in *.
    pose proof (pow2_pos o ltac:(lia)). pose proof (pow2_succ o ltac:(lia)).
    pose proof (half_blk p o (o + 1) ltac:(lia) ltac:(lia) Hp) as Hh.
    assert (blk p o) as Hpo.
    { destruct Hp as (? & Ha & ?). split_and!; [lia| |lia]. by apply aligned_weaken with (o + 1); [lia|]. }
    destruct (IH p Hw Hm ltac:(lia) Hpo) as (q & k & Hk & Hfq & Hbq & Hin).
    { intros i Hi. apply Hfree. unfold in_blk in *. lia. }
    destruct (decide (k = o)) as [->|]; [|exists q, k; split_and!; done || lia].
    destruct (IH (p + 2 ^ o) Hw Hm ltac:(lia) Hh) as (q' & k' & Hk' & Hfq' & Hbq' & Hin').
    { intros i Hi. apply Hfree. unfold in_blk in *. lia. }
    destruct (decide (k' = o)) as [->|].
    + exfalso. apply (blk_same q p o ltac:(lia) Hbq Hpo) in Hin as ->.
      apply (blk_same q' _ o ltac:(lia) Hbq' Hh) in Hin' as ->.
      apply (Hm (p + 2 ^ o) o ltac:(lia) Hfq'). by rewrite (half_buddy p o (o + 1)) by (lia || done).
    + exists q', k'. split_and!; try done; try lia.
      apply (blk_contains q' k' p (o + 1) (2 ^ o)); try done; lia.
Qed.

Section spec.
Context `{P : Profile} {L : Type} `{IL : IntrusiveList L}.
Implicit Types (s : pmm L) (f : Z → Z).

(** The invariant: the lists hold exactly the frames whose [order] is set, each
    in the list of its zone and order, once; the blocks are aligned and
    disjoint; and no two free blocks could be merged. *)
Definition wf s : Prop := inv s (order_of s).

(** The frame of index [i] is free. *)
Definition page_free s (i : Z) : Prop := freef (order_of s) i.

Lemma wf_inv s f : inv s f → wf s ∧ ∀ i, page_free s i ↔ freef f i.
Proof.
  intros [[Hlen Ho Hnd Hel] [Hb Hd] Hm].
  assert (∀ p, f p = order_of s p) as E by done. split.
  - split; [split; try done|split|].
    + intros ty o p Ht Hin. rewrite <- E. by apply Hel.
    + intros p. rewrite <- E. apply Hb.
    + intros p q. rewrite <- !E. apply Hd.
    + intros p o Hp. rewrite <- !E. by apply Hm.
  - intros i. split; intros (p & Hp & Hin); exists p; [rewrite E|rewrite <- E]; done.
Qed.

(** The caller of an allocation either gets [n] free frames starting at an
    address aligned to [2^o] pages in an admitted zone, which are no longer
    free, or there is no aligned run of [2^o] free frames in these zones. *)
Definition allocated s s' (n o : Z) (pftype : option PfType) (r : option Z) : Prop :=
  match r with
  | Some a => ∃ p, a = p * PAGE_SIZE ∧ p mod 2 ^ o = 0 ∧ zone_ok pftype (zone_of p) ∧
      (∀ i, p ≤ i < p + n → page_free s i) ∧
      (∀ i, page_free s' i ↔ page_free s i ∧ ¬ (p ≤ i < p + n))
  | None => (∀ i, page_free s' i ↔ page_free s i) ∧
      ∀ p, blk p o → zone_ok pftype (zone_of p) → ¬ ∀ i, in_blk p o i → page_free s i
  end.

Lemma no_block f (zones : PfType → Prop) o p :
  wfo f → merged f → 0 ≤ o ≤ 11 → blk p o → zones (zone_of p) →
  (∀ q k, zones (zone_of q) → o ≤ k ≤ 11 → f q ≠ k + 1) → ¬ ∀ i, in_blk p o i → freef f i.
Proof.
  intros Hw Hm Ho Hp Hz Hno Hall. destruct (Z_of_nat_complete o) as [n ->]; [lia|].
  destruct (covered f n p Hw Hm ltac:(lia) Hp Hall) as (q & k & Hk & Hq & Hb & Hin).
  apply (Hno q k); [|lia|done]. rewrite <- (zone_of_blk q k p) by (lia || done). done.
Qed.

Lemma exact_allocated n pftype s s' f' r :
  wf s → inv s' f' → 0 ≤ Z.log2_up n ≤ 11 →
  exact_result (order_of s) f' n (zone_ok pftype) r →
  allocated s s' n (Z.log2_up n) pftype r.
Proof.
  intros [_ Hw Hm] Hi Ho Hr. destruct (wf_inv s' f' Hi) as [_ Hf]. destruct r as [a|].
  - destruct Hr as (p & Ha & Hal & Hz & Hin & Hfr). exists p. split_and!; try done.
    intros i. by rewrite Hf, Hfr.
  - destruct Hr as [-> Hno]. split; [intros i; by rewrite Hf|].
    intros p Hp Hz. by apply (no_block _ (zone_ok pftype)).
Qed.

Lemma pages_allocated o pftype s s' f' r :
  wf s → inv s' f' → 0 ≤ o ≤ 11 →
  alloc_result (order_of s) f' o (zone_ok pftype) r →
  allocated s s' (2 ^ o) o pftype r.
Proof.
  intros [_ Hw Hm] Hi Ho Hr. destruct (wf_inv s' f' Hi) as [_ Hf]. destruct r as [a|].
  - destruct Hr as (p & Ha & Hb & Hz & Hin & Hfr). exists p. split_and!; try done; [apply Hb|].
    intros i. by rewrite Hf, Hfr.
  - destruct Hr as [-> Hno]. split; [intros i; by rewrite Hf|].
    intros p Hp Hz. by apply (no_block _ (zone_ok pftype)).
Qed.

(** ** Initialization *)

Definition frames (r : MemRange) (i : Z) : Prop :=
  phys r ≤ i * PAGE_SIZE < phys r + page_count r * PAGE_SIZE.

(** The ranges that are handed to the allocator, when nothing overflows. *)
Definition accepted (rlo rhi : Z) (r : MemRange) : bool :=
  available (ty r) && negb (range_contains rlo rhi (phys r))
    && negb (range_contains rlo rhi (phys r + page_count r * PAGE_SIZE)).

Definition range_ok (r : MemRange) : Prop :=
  ∃ a, 0 ≤ a ∧ phys r = a * PAGE_SIZE ∧ 0 ≤ page_count r ∧ a + page_count r ≤ 2 ^ 40.

Definition accepted_pages (rlo rhi : Z) (mmap : list MemRange) : Z :=
  foldr (λ r n, (if accepted rlo rhi r then page_count r else 0) + n) 0 mmap.

Definition max_end (mmap : list MemRange) (m : Z) : Z :=
  foldl (λ m r, Z.max m (phys r + page_count r * PAGE_SIZE)) m mmap.

Lemma accepted_pages_nonneg rlo rhi mmap :
  Forall range_ok mmap → 0 ≤ accepted_pages rlo rhi mmap.
Proof.
  induction 1 as [|r mmap (a & _ & _ & Hc & _) _ IH]; [done|].
  unfold accepted_pages in *. simpl. destruct (accepted _ _ r); lia.
Qed.

Lemma empty_inv os : (∀ p, default 0 (os !! p) = 0) →
  inv (Pmm (replicate (Z.to_nat (2 * NR_ORDERS)) il_new) os) (λ _, 0).
Proof.
  intros Hos. assert (∀ ty o, free_list (Pmm (replicate (Z.to_nat (2 * NR_ORDERS)) il_new) os) ty o = []) as Hnil.
  { intros ty o. unfold free_list. destruct (_ ≫= _) as [l|] eqn:E; [|done].
    apply bind_Some in E as (j & _ & [-> _]%lookup_replicate_1). apply il_new_elems. }
  split; [split|split|].
  - cbn [pfl_data]. by rewrite length_replicate.
  - done.
  - intros. rewrite Hnil. constructor.
  - intros ty o p _ Ho%in_orders_iff. rewrite Hnil, elem_of_nil. lia.
  - done.
  - done.
  - intros p o Ho. lia.
Qed.

Lemma not_reserved_ok rlo rhi r :
  range_ok r →
  (if available (ty r) then
     len ← lift (page_count r *! PAGE_SIZE)%h2o; lift (not_reserved rlo rhi (phys r) len)
   else mret false : st (pmm L) Empty_set bool) = mret (accepted rlo rhi r).
Proof.
  intros (a & Ha & Hp & Hc & Hm). unfold accepted. destruct (available (ty r)); [|done].
  change PAGE_SIZE with 4096 in *. rewrite umul_ok by lia.
  transitivity (lift (not_reserved rlo rhi (phys r) (page_count r * 4096)) : st (pmm L) Empty_set bool);
    [done|]. unfold not_reserved. destruct (range_contains rlo rhi (phys r)); [done|].
  by rewrite uadd_ok by lia.
Qed.

(** One descriptor: its frames are freed when it is accepted. *)
Lemma accept_ok rlo rhi r s f sum :
  range_ok r → inv s f → (∀ i, frames r i → ¬ freef f i) → 0 ≤ sum →
  sum + (if accepted rlo rhi r then page_count r else 0) * PAGE_SIZE < 2 ^ 64 →
  ∃ s1 f1, (if accepted rlo rhi r then
      _ ← dealloc_pages_exact (page_count r) (phys r);
      bytes ← lift (page_count r <<! PAGE_SHIFT)%h2o; lift (sum +! bytes)%h2o
    else mret sum) s = (Ok (sum + (if accepted rlo rhi r then page_count r else 0) * PAGE_SIZE), s1) ∧
    inv s1 f1 ∧ ∀ i, freef f1 i ↔ freef f i ∨ (accepted rlo rhi r = true ∧ frames r i).
Proof.
  intros (a & Ha & Hp & Hc & Hm) Hi Hfree Hs Hb. destruct (accepted rlo rhi r) eqn:Hacc.
  - destruct (dealloc_exact_ok (page_count r) a s f) as (s1 & f1 & Hrun & Hi1 & Hf1); try done.
    { intros i Hin. apply Hfree. unfold frames. change PAGE_SIZE with 4096 in *. lia. }
    exists s1, f1. rewrite Hp. run Hrun.
    run (ushl_ok W (page_count r) PAGE_SHIFT); [|change PAGE_SHIFT with 12; lia].
    unfold lift. change PAGE_SHIFT with 12. change PAGE_SIZE with 4096 in *.
    change (2 ^ 12) with 4096.
    rewrite uadd_ok by lia. split; [done|]. split; [done|].
    intros i. rewrite Hf1. unfold frames. change PAGE_SIZE with 4096. intuition lia.
  - exists s, f. rewrite Z.add_0_r. split; [done|]. split; [done|]. set_solver.
Qed.

Lemma parse_mmap_ok rlo rhi mmap : ∀ s f sum mx,
  Forall range_ok mmap → ForallOrdPairs (λ r r', ∀ i, frames r i → ¬ frames r' i) mmap →
  inv s f → (∀ r i, r ∈ mmap → frames r i → ¬ freef f i) →
  0 ≤ sum → sum + accepted_pages rlo rhi mmap * PAGE_SIZE < 2 ^ 64 →
  ∃ s' f', parse_mmap mmap rlo rhi sum mx s =
      (Ok (sum + accepted_pages rlo rhi mmap * PAGE_SIZE, max_end mmap mx), s') ∧ inv s' f' ∧
    ∀ i, freef f' i ↔ freef f i ∨ ∃ r, r ∈ mmap ∧ accepted rlo rhi r = true ∧ frames r i.
Proof.
  induction mmap as [|r mmap IH]; intros s f sum mx Hok Hdis Hi Hfree Hs Hb.
  { exists s, f. split; [simpl; by rewrite Z.add_0_r|]. split; [done|]. set_solver. }
  apply Forall_cons in Hok as [Hr Hok]. inversion_clear Hdis as [|? ? Hdr Hdis'].
  pose proof (accepted_pages_nonneg rlo rhi mmap Hok) as Hnn.
  edestruct (accept_ok rlo rhi r s f sum) as (s1 & f1 & Hrun & Hi1 & Hf1); try done.
  { intros i. apply Hfree. left. }
  { unfold accepted_pages in Hb, Hnn. simpl in Hb. change PAGE_SIZE with 4096 in *. lia. }
  edestruct (IH s1 f1 (sum + (if accepted rlo rhi r then page_count r else 0) * PAGE_SIZE)
    (Z.max mx (phys r + page_count r * PAGE_SIZE))) as (s' & f' & Hrun' & Hi' & Hf'); try done.
  - intros r' i Hr' Hin. rewrite Hf1. intros [Hf|[_ Hin']].
    + apply (Hfree r' i); [by right|done|done].
    + rewrite List.Forall_forall in Hdr. apply list_elem_of_In in Hr'. by apply (Hdr r' Hr' i).
  - destruct Hr as (a & _ & _ & Hc & _). change PAGE_SIZE with 4096. destruct (accepted _ _ r); lia.
  - unfold accepted_pages in *. simpl in Hb. lia.
  - exists s', f'. cbn [parse_mmap]. rewrite not_reserved_ok by done.
    rewrite st_ret_bind. run Hrun. destruct Hr as (a & Ha & Hp & Hc & Hm).
    change PAGE_SIZE with 4096 in *. run (umul_ok W (page_count r)). run (uadd_ok W (phys r)).
    rewrite Hrun'. split; [f_equal; f_equal; f_equal; unfold accepted_pages; simpl; lia|].
    split; [done|]. intros i. rewrite Hf', Hf1. set_solver.
Qed.
End spec.

(** ** The public operations *)

Section theorems.
Context `{P : Profile} {L : Type} `{IL : IntrusiveList L}.
Implicit Types (s : pmm L).

(** C1: [alloc_pages] never panics and keeps the invariant. For a valid order
    it returns the address of an aligned block of [2^order] frames of an
    admitted zone that were all free and are the only ones taken; it returns
    [None] only when no aligned run of [2^order] frames of these zones is free
    (so memory is never lost to unmerged buddies). For an invalid order it
    returns [None] and changes nothing. *)
Theorem alloc_pages_spec order pftype s :
  wf s →
  if in_orders order then
    ∃ r s', alloc_pages order pftype s = (Ok r, s') ∧ wf s' ∧
      allocated s s' (2 ^ order) order pftype r
  else alloc_pages order pftype s = (Ok None, s).
Proof.
  intros Hw. destruct (in_orders order) eqn:Ho.
  - apply in_orders_iff in Ho.
    destruct (alloc_pages_ok order pftype s _ Ho Hw) as (r & s' & f' & Hrun & Hi & Hr).
    exists r, s'. split; [done|]. split; [by apply (wf_inv s' f')|]. by eapply pages_allocated.
  - unfold alloc_pages. by rewrite Ho.
Qed.

(** C2: [dealloc_pages] of an aligned block of which no frame is free succeeds
    (no assertion fires), keeps the invariant, in particular that free buddies
    are merged, and makes exactly the frames of the block free. *)
Theorem dealloc_pages_spec order p s :
  wf s → 0 ≤ order < MAX_ORDER → blk p order → (∀ i, in_blk p order i → ¬ page_free s i) →
  ∃ s', dealloc_pages order (p * PAGE_SIZE) s = (Ok (), s') ∧ wf s' ∧
    ∀ i, page_free s' i ↔ page_free s i ∨ in_blk p order i.
Proof.
  intros Hw Ho Hp Hn. unfold MAX_ORDER, PAGE_SHIFT in Ho.
  destruct (dealloc_typed_ok p order s _ ltac:(lia) Hp Hw Hn) as (s' & f' & Hrun & Hi & Hf).
  destruct (wf_inv s' f' Hi) as [Hw' Hfree]. exists s'. unfold dealloc_pages.
  rewrite (proj2 (in_orders_iff order)) by lia. run (eq_refl (assert_ true)).
  rewrite page_frame_mul, pftype_from_mul by apply Hp. split; [done|]. split; [done|].
  intros i. by rewrite Hfree, Hf.
Qed.

(** [alloc_pages_exact] of 1 to [2^11] pages takes exactly [n] free frames,
    aligned to the next power of two of [n], and gives the rest of the block
    back; it fails only when no aligned run of that size is free. *)
Theorem alloc_pages_exact_spec n pftype s :
  wf s → 1 ≤ n ≤ 2 ^ (MAX_ORDER - 1) →
  ∃ r s', alloc_pages_exact n pftype s = (Ok r, s') ∧ wf s' ∧
    allocated s s' n (Z.log2_up n) pftype r.
Proof.
  intros Hw Hn. destruct (alloc_exact_ok n pftype s _ Hn Hw) as (r & s' & f' & Hrun & Hi & Hr).
  exists r, s'. split; [done|]. split; [by apply (wf_inv s' f')|].
  eapply exact_allocated; try done. by apply log2_up_bound.
Qed.

(** [dealloc_pages_exact] frees exactly the [n] frames from [a], cut
    greedily into aligned blocks, also across the boundary of the two zones;
    its loop ends within [n] iterations. *)
Theorem dealloc_pages_exact_spec n a s :
  wf s → 0 ≤ n → 0 ≤ a → a + n ≤ 2 ^ 40 → (∀ i, a ≤ i < a + n → ¬ page_free s i) →
  ∃ s', dealloc_pages_exact n (a * PAGE_SIZE) s = (Ok (), s') ∧ wf s' ∧
    ∀ i, page_free s' i ↔ page_free s i ∨ a ≤ i < a + n.
Proof.
  intros Hw Hn Ha He Hh.
  destruct (dealloc_exact_ok n a s _ Hn Ha He Hw Hh) as (s' & f' & Hrun & Hi & Hf).
  destruct (wf_inv s' f' Hi) as [Hw' Hfree]. exists s'. split; [done|]. split; [done|].
  intros i. by rewrite Hfree, Hf.
Qed.

(** [init] on a memory map of disjoint page ranges establishes the
    invariant; exactly the frames of the available ranges with neither end in
    the reserved range become free; it returns their size and the highest
    address of the map. When the reserved range starts at 0, as
    [TRAMPOLINE_RANGE] does, none of its frames is free. *)
Theorem init_spec mmap rlo rhi s :
  (∀ p, order_of s p = 0) → Forall range_ok mmap →
  ForallOrdPairs (λ r r', ∀ i, frames r i → ¬ frames r' i) mmap →
  accepted_pages rlo rhi mmap * PAGE_SIZE < 2 ^ 64 →
  ∃ s', init mmap rlo rhi s = (Ok (accepted_pages rlo rhi mmap * PAGE_SIZE, max_end mmap 0), s') ∧
    wf s' ∧
    (∀ i, page_free s' i ↔ ∃ r, r ∈ mmap ∧ accepted rlo rhi r = true ∧ frames r i) ∧
    (rlo = 0 → ∀ i, 0 ≤ i * PAGE_SIZE < rhi → ¬ page_free s' i).
Proof.
  intros Ho Hok Hd Hb. unfold init. run (eq_refl (modify _ s)).
  destruct (parse_mmap_ok rlo rhi mmap _ _ 0 0 Hok Hd (empty_inv (orders s) Ho))
    as (s' & f' & Hrun & Hi & Hf); try done.
  { by intros r i _ _ (p & Hp & _). }
  destruct (wf_inv s' f' Hi) as [Hw' Hfree]. rewrite Z.add_0_l in Hrun.
  assert (∀ i, page_free s' i ↔ ∃ r, r ∈ mmap ∧ accepted rlo rhi r = true ∧ frames r i) as Hfr.
  { intros i. rewrite Hfree, Hf. split; [intros [(p & Hp & _)|H]|]; [done|done|]. by right. }
  exists s'. split_and!; try done.
  intros -> i Hin. rewrite Hfr. intros (r & Hr & Hacc & Hfi).
  rewrite Forall_forall in Hok. destruct (Hok r Hr) as (a & Ha & Hp & _).
  unfold accepted, range_contains, frames in *. zbool. apply andb_false_iff in H1.
  change PAGE_SIZE with 4096 in *. destruct H1; zbool; lia.
Qed.
End theorems.

(** [alloc_pages_exact(0)] is not an allocation: with overflow checks it
    panics, and without them it returns, when a frame of an admitted zone is
    free, the address of a frame that stays in the free lists, so that the same
    frame is also handed to the next caller. *)
Theorem alloc_pages_exact_zero {L} `{IL : IntrusiveList L} pftype (s : pmm L) :
  wf s →
  fst (alloc_pages_exact (P:=debug_profile) 0 pftype s) = Panic ∧
  ∃ r s', alloc_pages_exact (P:=release_profile) 0 pftype s = (Ok r, s') ∧ wf s' ∧
    (∀ i, page_free s' i ↔ page_free s i) ∧
    match r with
    | Some a => ∃ p, a = p * PAGE_SIZE ∧ page_free s' p
    | None => ∀ p, blk p 0 → zone_ok pftype (zone_of p) → ¬ page_free s p
    end.
Proof.
  intros Hw. split; [reflexivity|]. unfold alloc_pages_exact.
  assert (log2c (P:=release_profile) (E:=Empty_set) W 0 = Ok 0) as Hl by reflexivity.
  run Hl. change (in_orders 0) with true. cbn [negb].
  destruct (alloc_pages_ok (P:=release_profile) 0 pftype s _ ltac:(lia) Hw)
    as (r & s1 & f1 & Hrun & Hi1 & Hr).
  pose proof (pages_allocated 0 pftype s s1 f1 r Hw Hi1 ltac:(lia) Hr) as Hal.
  destruct (wf_inv s1 f1 Hi1) as [Hw1 Hf1]. run Hrun. destruct r as [a|].
  - destruct Hr as (p & -> & Hb & _). destruct Hal as (q & Hq & _ & _ & Hin & Hfree).
    assert (q = p) as -> by (change PAGE_SIZE with 4096 in Hq; lia).
    pose proof (blk_bound p 0 ltac:(lia) Hb).
    destruct (dealloc_exact_ok (P:=release_profile) 1 p s1 f1) as (s2 & f2 & Hrun2 & Hi2 & Hf2);
      try done; try lia.
    { intros i Hi. rewrite <- Hf1, Hfree. intros [_ []]. lia. }
    assert (∀ i, page_free s2 i ↔ page_free s i) as Heq.
    { intros i. destruct (wf_inv s2 f2 Hi2) as [_ ->]. rewrite Hf2, <- Hf1, Hfree.
      specialize (Hin i). destruct (decide (p ≤ i < p + 1)); intuition lia. }
    assert (scale_back_pages (P:=release_profile) (p * PAGE_SIZE) 0 0 s1 = (Ok (p * PAGE_SIZE), s2)) as Hsb.
    { unfold scale_back_pages. change (in_orders 0) with true. run (eq_refl (assert_ true)).
      run (shift_one (P:=release_profile) 0). change (0 <=? 2 ^ 0) with true.
      run (eq_refl (assert_ true)). run (usub_ok (P:=release_profile) W).
      run (ushl_ok (P:=release_profile) W 0 PAGE_SHIFT). change (2 ^ 0 - 0) with 1.
      change PAGE_SIZE with 4096 in *. rewrite Z.mul_0_l.
      run (uadd_ok (P:=release_profile) W (p * 4096) 0). rewrite Z.add_0_r. run Hrun2. done. }
    exists (Some (p * PAGE_SIZE)), s2. split_and!; [|by apply (wf_inv s2 f2)|done|].
    + by run Hsb.
    + exists p. split; [done|]. apply Heq, Hin. simpl. lia.
  - exists None, s1. destruct Hal as [Hfree Hno]. split_and!; try done.
    intros p Hp Hz Hpf. apply (Hno p Hp Hz). intros i Hi. unfold in_blk in Hi.
    simpl in Hi. by replace i with p by lia.
Qed.

(** ** Witnesses: frames 1 to 8 freed into an empty allocator *)

Module Witness.
Definition s0 : pmm (list Z) := Pmm (replicate (Z.to_nat (2 * NR_ORDERS)) il_new) ∅.
Definition s1 : pmm (list Z) := snd (dealloc_pages_exact (P:=debug_profile) 8 (1 * PAGE_SIZE) s0).

Lemma wf_s0 : wf s0.
Proof. apply (wf_inv s0 (λ _, 0)), empty_inv. done. Qed.

Lemma s1_spec : wf s1 ∧ ∀ i, page_free s1 i ↔ 1 ≤ i < 9.
Proof.
  assert (∀ i, ¬ page_free s0 i) as Hn by (by intros i (p & Hp & _)).
  destruct (dealloc_exact_ok (P:=debug_profile) 8 1 s0 (order_of s0)) as (s' & f' & Hrun & Hi & Hf);
    [done|done|done|apply wf_s0|by intros; apply Hn|].
  assert (s1 = s') as -> by (unfold s1; by rewrite Hrun). destruct (wf_inv s' f' Hi) as [Hw Hfree].
  split; [done|]. intros i. rewrite Hfree, Hf. specialize (Hn i). unfold page_free in Hn. intuition.
Qed.

(** The blocks of [s1]: frames 1, 2-3, 4-7 and 8. *)
Lemma s1_blocks : map (order_of s1) [0; 1; 2; 3; 4; 8; 9] = [0; 1; 2; 0; 3; 1; 0].
Proof. vm_compute. reflexivity. Qed.

(** The block of order 1 of the lower zone is taken, at address 0x2000. *)
Lemma alloc_pages_witness :
  fst (alloc_pages (P:=debug_profile) 1 None s1) = Ok (Some 0x2000) ∧
  ∃ r s', alloc_pages (P:=debug_profile) 1 None s1 = (Ok r, s') ∧ wf s' ∧
    allocated s1 s' (2 ^ 1) 1 None r.
Proof.
  split; [vm_compute; reflexivity|].
  apply (alloc_pages_spec (P:=debug_profile) 1 None s1 (proj1 s1_spec)).
Defined.

(** Freeing frame 0 merges blocks: 0, 1, 2-3, 4-7 become the block 0-7. *)
Lemma dealloc_pages_witness :
  (∃ s', dealloc_pages (P:=release_profile) 0 (0 * PAGE_SIZE) s1 = (Ok (), s') ∧ wf s' ∧
    ∀ i, page_free s' i ↔ page_free s1 i ∨ in_blk 0 0 i) ∧
  map (order_of (snd (dealloc_pages (P:=release_profile) 0 0 s1))) [0; 1; 2; 4; 8] = [4; 0; 0; 0; 1].
Proof.
  split; [|vm_compute; reflexivity].
  apply (dealloc_pages_spec (P:=release_profile) 0 0 s1 (proj1 s1_spec)).
  - done.
  - by split_and!.
  - intros i Hi Hf. apply s1_spec in Hf. unfold in_blk in Hi. simpl in Hi. lia.
Defined.

Lemma alloc_exact_witness :
  fst (alloc_pages_exact (P:=debug_profile) 3 (Some Low) s1) = Ok (Some 0x4000) ∧
  ∃ r s', alloc_pages_exact (P:=debug_profile) 3 (Some Low) s1 = (Ok r, s') ∧ wf s' ∧
    allocated s1 s' 3 (Z.log2_up 3) (Some Low) r.
Proof.
  split; [vm_compute; reflexivity|].
  apply (alloc_pages_exact_spec (P:=debug_profile) 3 (Some Low) s1 (proj1 s1_spec)). done.
Defined.

(** A range across the boundary of the zones. *)
Lemma dealloc_exact_witness :
  ∃ s', dealloc_pages_exact (P:=debug_profile) 5 ((2 ^ 20 - 3) * PAGE_SIZE) s0 = (Ok (), s') ∧ wf s' ∧
    ∀ i, page_free s' i ↔ page_free s0 i ∨ 2 ^ 20 - 3 ≤ i < 2 ^ 20 - 3 + 5.
Proof.
  apply (dealloc_pages_exact_spec (P:=debug_profile) 5 (2 ^ 20 - 3) s0 wf_s0).
  - done.
  - done.
  - done.
  - by intros i _ (p & Hp & _).
Defined.

Definition mmap : list MemRange := [
  {| ty := Conventional; phys := 0; virt := 0; page_count := 159; attr := 0 |};
  {| ty := LoaderCode; phys := 0x100000; virt := 0; page_count := 16; attr := 0 |};
  {| ty := Conventional; phys := 0x200000; virt := 0; page_count := 37; attr := 0 |}].

Lemma init_witness :
  ∃ s', init (P:=debug_profile) mmap 0 0x100000 s0 =
      (Ok (accepted_pages 0 0x100000 mmap * PAGE_SIZE, max_end mmap 0), s') ∧ wf s' ∧
    (∀ i, page_free s' i ↔ ∃ r, r ∈ mmap ∧ accepted 0 0x100000 r = true ∧ frames r i) ∧
    (0 = 0 → ∀ i, 0 ≤ i * PAGE_SIZE < 0x100000 → ¬ page_free s' i).
Proof.
  apply (init_spec (P:=debug_profile) mmap 0 0x100000 s0).
  - done.
  - repeat constructor; [exists 0|exists 0x100|exists 0x200]; by split_and!.
  - repeat constructor; unfold frames; change PAGE_SIZE with 4096; simpl; lia.
  - done.
Defined.

Lemma exact_zero_witness :
  fst (alloc_pages_exact (P:=debug_profile) 0 None s1) = Panic ∧
  ∃ r s', alloc_pages_exact (P:=release_profile) 0 None s1 = (Ok r, s') ∧ wf s' ∧
    (∀ i, page_free s' i ↔ page_free s1 i) ∧
    match r with
    | Some a => ∃ p, a = p * PAGE_SIZE ∧ page_free s' p
    | None => ∀ p, blk p 0 → zone_ok None (zone_of p) → ¬ page_free s1 p
    end.
Proof. apply (alloc_pages_exact_zero None s1 (proj1 s1_spec)). Defined.
End Witness.
