(* ===== verification/Paging.v ===== *)
(** * Page tables ([h2o/libs/paging])

    Levels, entries, and the walks that create, change, read and drop pages. The
    memory that holds the tables is a map from the linear address of an 8-byte
    word to its value (a word that is not in the map is zero); a table is the
    linear address of its first entry, as the pointers of the source are. The
    page allocator is the trait [PageAlloc] of the source. [invlpg] is not part
    of the state. *)

From S2P Require Import Base Bits Buddy.
Local Open Scope Z_scope.
Local Open Scope h2o_scope.

(** ** Constants and errors ([consts.rs]) *)

Definition PAGE_MASK : Z := PAGE_SIZE - 1.
Definition ENTRY_SIZE_SHIFT : Z := 3.
Definition NR_ENTRIES_SHIFT : Z := PAGE_SHIFT - ENTRY_SIZE_SHIFT.
Definition NR_ENTRIES : Z := 2 ^ NR_ENTRIES_SHIFT.
Definition CANONICAL_PREFIX : Z := 0xFFFF000000000000.
Definition RECURSIVE_IDX : Z := 510.

Inductive Error :=
  | OutOfMemory
  | AddrMisaligned (vstart vend phys : option Z)
  | RangeEmpty
  | EntryExistent (b : bool).

Definition is_misaligned_invalid (e : Error) : bool :=
  match e with AddrMisaligned None None None => true | _ => false end.

(** ** Levels ([level.rs]) *)

Inductive Level := P4 | Pdp | Pd | Pt.
#[export] Instance Level_eq_dec : EqDecision Level.
Proof. solve_decision. Defined.

(** [*self as usize]; the derived order is that of the discriminants. *)
Definition level_idx (l : Level) : Z := match l with P4 => 3 | Pdp => 2 | Pd => 1 | Pt => 0 end.
Definition level_min (a b : Level) : Level := if level_idx a <=? level_idx b then a else b.

Definition page_bits (l : Level) : Z := PAGE_SHIFT + level_idx l * NR_ENTRIES_SHIFT.
Definition page_size (l : Level) : Z := 2 ^ page_bits l.

Definition fit (val : Z) : option Level :=
  if Z.land val (page_size Pdp - 1) =? 0 then Some Pdp
  else if Z.land val (page_size Pd - 1) =? 0 then Some Pd
  else if Z.land val (page_size Pt - 1) =? 0 then Some Pt
  else None.

Definition fit_all {E} `{P : Profile} (vstart vend phys : Z) : res E Level :=
  a ← unwrap (fit vstart);
  len ← vend -! vstart;
  b ← unwrap (fit len);
  c ← unwrap (fit phys);
  Ok (level_min (level_min a b) c).

Definition recursive_base (l : Level) : Z :=
  let r3 := Z.lor CANONICAL_PREFIX (Z.shiftl RECURSIVE_IDX 39) in
  let r2 := Z.lor r3 (Z.shiftl RECURSIVE_IDX 30) in
  let r1 := Z.lor r2 (Z.shiftl RECURSIVE_IDX 21) in
  let r0 := Z.lor r1 (Z.shiftl RECURSIVE_IDX 12) in
  match l with Pt => r0 | Pd => r1 | Pdp => r2 | P4 => r3 end.

Definition addr_mask (l : Level) : Z :=
  match l with
  | Pt => 0x0000FFFFFFFFF000
  | Pd => 0x0000FFFFFFE00000
  | Pdp => 0x0000FFFFC0000000
  | P4 => 0x0000FF8000000000
  end.

Definition increase (l : Level) : option Level :=
  match l with Pt => Some Pd | Pd => Some Pdp | Pdp => Some P4 | P4 => None end.
Definition decrease (l : Level) : option Level :=
  match l with Pt => None | Pd => Some Pt | Pdp => Some Pd | P4 => Some Pdp end.

Definition level_try_from (value : Z) : res () Level :=
  if value =? 0 then Ok Pt else if value =? 1 then Ok Pd
  else if value =? 2 then Ok Pdp else if value =? 3 then Ok P4 else Err ().

(** ** Attributes ([entry.rs]): the bits of an [Attr] *)

Module Attr.
Definition PRESENT : Z := 1.
Definition WRITABLE : Z := 2 ^ 1.
Definition USER_ACCESS : Z := 2 ^ 2.
Definition WRITE_THRU : Z := 2 ^ 3.
Definition CACHE_DISABLE : Z := 2 ^ 4.
Definition ACCESSED : Z := 2 ^ 5.
Definition DIRTY : Z := 2 ^ 6.
Definition LARGE_PAGE : Z := 2 ^ 7.
Definition PAT : Z := LARGE_PAGE.
Definition GLOBAL : Z := 2 ^ 8.
Definition LOCKED : Z := 2 ^ 9.
Definition MUT_LOCKED : Z := 2 ^ 10.
Definition UNUSED : Z := 2 ^ 11.
Definition LARGE_PAT : Z := 2 ^ 12.
Definition EXE_DISABLE : Z := 2 ^ 63.
Definition KERNEL_R : Z := PRESENT.
Definition KERNEL_RNE : Z := Z.lor KERNEL_R EXE_DISABLE.
Definition KERNEL_RW : Z := Z.lor KERNEL_R WRITABLE.
Definition KERNEL_RWNE : Z := Z.lor KERNEL_RNE WRITABLE.
Definition USER_R : Z := Z.lor KERNEL_R USER_ACCESS.
Definition USER_RNE : Z := Z.lor KERNEL_RNE USER_ACCESS.
Definition USER_RW : Z := Z.lor KERNEL_RW USER_ACCESS.
Definition USER_RWNE : Z := Z.lor KERNEL_RWNE USER_ACCESS.
Definition INTERMEDIATE : Z := USER_RW.

(** [all]: the union of the flags above; [from_bits_truncate], [contains] and
    the complement of [bitflags]. *)
Definition all : Z := 2 ^ 63 + (2 ^ 13 - 1).
Definition from_bits_truncate (b : Z) : Z := Z.land b all.
Definition contains (a b : Z) : bool := Z.land a b =? b.
Definition not (a : Z) : Z := from_bits_truncate (Z.lxor a (2 ^ 64 - 1)).

Definition merge (self other : Z) : Z :=
  let self := Z.lor self (Z.land other USER_RW) in
  let self := Z.land self (not ACCESSED) in
  Z.land self (Z.land other EXE_DISABLE).

Definition has_table (self : Z) (level : Level) : bool :=
  negb (bool_decide (level = Pt) || contains self LARGE_PAGE).

(** [AttrBuilder]. *)
Definition builder : Z := 0.
Definition writable (self : Z) (b : bool) : Z := if b then Z.lor self WRITABLE else self.
Definition user_access (self : Z) (b : bool) : Z := if b then Z.lor self USER_ACCESS else self.
Definition executable (self : Z) (b : bool) : Z := if negb b then Z.lor self EXE_DISABLE else self.
Definition cache (self : Z) (write_thru disable : bool) : Z :=
  let self := if write_thru then Z.lor self WRITE_THRU else self in
  if disable then Z.lor self CACHE_DISABLE else self.
End Attr.

Definition leaf_attr (l : Level) (attr : Z) : Z :=
  let pat := Attr.contains attr Attr.PAT in
  let ret := Z.lor (Z.lor attr Attr.PRESENT)
                   (match l with Pt => 0 | _ => Attr.LARGE_PAGE end) in
  if pat && negb (bool_decide (l = Pt)) then Z.lor ret Attr.LARGE_PAT else ret.

Definition addr_idx (l : Level) (addr : Z) (end_ : bool) : Z :=
  let ret := Z.land (Z.shiftr (Z.land addr (addr_mask l)) (page_bits l)) (NR_ENTRIES - 1) in
  if end_ && (ret =? 0) then NR_ENTRIES else ret.

(** ** Entries ([entry.rs]) *)

Definition entry_get (e : Z) (l : Level) : Z * Z :=
  (Z.land e (addr_mask l), Attr.from_bits_truncate e).
Definition entry_new (phys attr : Z) (l : Level) : Z := Z.lor (Z.land phys (addr_mask l)) attr.
Definition is_leaf (e : Z) (l : Level) : bool :=
  Attr.contains (snd (entry_get e l)) (leaf_attr l 0).

(** [addr.rs]. *)
Definition to_laddr {E} `{P : Profile} (phys id_off : Z) : res E Z := phys +! id_off.
Definition to_paddr {E} `{P : Profile} (laddr id_off : Z) : res E Z := laddr -! id_off.
Definition in_page_offset (addr : Z) : Z := Z.land addr PAGE_MASK.

Definition get_table {E} `{P : Profile} (e id_off : Z) (l : Level) : res E (option Z) :=
  let '(phys, attr) := entry_get e Pt in
  if Attr.contains attr Attr.PRESENT && Attr.has_table attr l then
    t ← to_laddr phys id_off; Ok (if t =? 0 then None else Some t)
  else Ok None.

(** ** The allocator of table pages ([alloc.rs]) and the state *)

Class PageAlloc (A : Type) := {
  pa_allocate : A → option Z * A;
  pa_deallocate : Z → A → A;
}.

Record machine (A : Type) := Machine { mem : gmap Z Z; pages : A }.
Arguments Machine {A} _ _.
Arguments mem {A} _.
Arguments pages {A} _.

Record MapInfo := { mi_virt : Z * Z; mi_phys : Z; mi_attr : Z; mi_id_off : Z }.
Record ReprotectInfo := { ri_virt : Z * Z; ri_attr : Z; ri_id_off : Z }.

Definition word (m : gmap Z Z) (a : Z) : Z := default 0 (m !! a).
Definition entry_addr (table idx : Z) : Z := table + idx * 8.

(** [page.fill(0)], eight bytes at a time. *)
Definition zero_page (t : Z) (m : gmap Z Z) : gmap Z Z :=
  foldr (λ i, <[entry_addr t i := 0]>) m (seqZ 0 NR_ENTRIES).

Section tables.
Context `{P : Profile} {A : Type} `{PA : PageAlloc A}.
Abbreviation M := (st (machine A) Error).

Definition read_word (a : Z) : M Z := λ s, (Ok (word (mem s) a), s).
Definition write_word (a v : Z) : M () := modify (λ s, Machine (<[a := v]> (mem s)) (pages s)).

Definition allocate_zeroed (id_off : Z) : M (option Z) := λ s,
  match pa_allocate (pages s) with
  | (None, a) => (Ok None, Machine (mem s) a)
  | (Some phys, a) =>
      match to_laddr (E:=Error) phys id_off with
      | Ok virt => (Ok (Some phys), Machine (zero_page virt (mem s)) a)
      | _ => (Panic, Machine (mem s) a)
      end
  end.

Definition deallocate (phys : Z) : M () :=
  modify (λ s, Machine (mem s) (pa_deallocate phys (pages s))).

(** [Table::is_empty]. *)
Definition table_is_empty (m : gmap Z Z) (table : Z) (except_idx : option Z) (lvl : Level) : bool :=
  forallb (λ i, bool_decide (Some i = except_idx)
    || negb (Attr.contains (snd (entry_get (word m (entry_addr table i)) lvl)) Attr.PRESENT))
    (seqZ 0 NR_ENTRIES).

(** ** Walks ([inner.rs]) *)

(** [entry] is the address of the entry. *)
Definition create_table (entry : Z) (level : Level) (id_off : Z) : M Z :=
  _ ← lift (assert_ (negb (bool_decide (level = Pt))));
  e ← read_word entry;
  t ← lift (get_table e id_off level);
  match t with
  | Some ptr => mret ptr
  | None =>
      if is_leaf e level then lift (Err (EntryExistent true))
      else
        o ← allocate_zeroed id_off;
        phys ← lift (of_option OutOfMemory o);
        _ ← write_word entry (entry_new phys Attr.INTERMEDIATE Pt);
        e ← read_word entry;
        t ← lift (get_table e id_off level);
        lift (unwrap t)
  end.

Fixpoint split_fill (table phys attr : Z) (item_level : Level) (idxs : list Z) : M () :=
  match idxs with
  | [] => mret ()
  | i :: idxs =>
      off ← lift (i *! page_size item_level);
      item_phys ← lift (phys +! off);
      _ ← write_word (entry_addr table i) (entry_new item_phys attr item_level);
      split_fill table phys attr item_level idxs
  end.

Definition split_table (entry : Z) (level : Level) (id_off : Z) : M () :=
  e ← read_word entry;
  let '(phys, attr) := entry_get e Pt in
  _ ← write_word entry 0;
  let attr := Z.land attr (Attr.not Attr.LARGE_PAT) in
  item_level ← lift (unwrap (decrease level));
  let item_attr := leaf_attr item_level attr in
  table ← create_table entry level id_off;
  split_fill table phys item_attr item_level (seqZ 0 NR_ENTRIES).

Definition get_or_split_table (entry : Z) (level : Level) (id_off : Z) : M Z :=
  _ ← lift (assert_ (negb (bool_decide (level = Pt))));
  e ← read_word entry;
  t ← lift (get_table e id_off level);
  match t with
  | Some ptr => mret ptr
  | None =>
      if is_leaf e level then
        _ ← split_table entry level id_off;
        e ← read_word entry;
        t ← lift (get_table e id_off level);
        lift (unwrap t)
      else lift (Err (EntryExistent false))
  end.

(** [tables] is the array of pairs of an entry's address and the level of the
    table it points to, from the lowest level up. *)
Fixpoint destroy_tables (tables : list (option (Z * Level))) (id_off : Z) : M () :=
  match tables with
  | [] => mret ()
  | None :: tables => destroy_tables tables id_off
  | Some (item, elvl) :: tables =>
      lvl ← lift (unwrap (increase elvl));
      e ← read_word item;
      t ← lift (get_table e id_off lvl);
      table ← lift (unwrap t);
      s ← get;
      if table_is_empty (mem s) table None elvl then
        let '(addr, _) := entry_get e Pt in
        _ ← write_word item 0;
        _ ← deallocate addr;
        destroy_tables tables id_off
      else mret ()
  end.

(** The walks go through the levels [P4], [Pdp], [Pd], [Pt]; the list holds the
    current level and the ones below it, so that its tail is [decrease]. *)
Definition levels : list Level := [P4; Pdp; Pd; Pt].

Fixpoint new_page_loop (lvls : list Level) (table virt phys attr : Z) (level : Level)
    (id_off : Z) : M () :=
  match lvls with
  | [] => lift Panic
  | lvl :: lvls =>
      let item := entry_addr table (addr_idx lvl virt false) in
      if bool_decide (lvl = level) then
        e ← read_word item;
        if is_leaf e level then lift (Err (EntryExistent true))
        else write_word item (entry_new phys (leaf_attr level attr) level)
      else
        table ← create_table item lvl id_off;
        new_page_loop lvls table virt phys attr level id_off
  end.

Definition new_page (root virt phys attr : Z) (level : Level) (id_off : Z) : M () :=
  new_page_loop levels root virt phys attr level id_off.

Fixpoint modify_page_loop (lvls : list Level) (table virt attr : Z) (level : Level)
    (id_off : Z) : M () :=
  match lvls with
  | [] => lift Panic
  | lvl :: lvls =>
      let item := entry_addr table (addr_idx lvl virt false) in
      if bool_decide (lvl = level) then
        e ← read_word item;
        if is_leaf e level then
          let '(phys, _) := entry_get e level in
          write_word item (entry_new phys (leaf_attr level attr) level)
        else lift (Err (EntryExistent false))
      else
        table ← get_or_split_table item lvl id_off;
        modify_page_loop lvls table virt attr level id_off
  end.

Definition modify_page (root virt attr : Z) (level : Level) (id_off : Z) : M () :=
  modify_page_loop levels root virt attr level id_off.

Fixpoint get_page_loop (lvls : list Level) (m : gmap Z Z) (table virt id_off : Z)
    : res Error (Z * Z) :=
  match lvls with
  | [] => Err (EntryExistent false)
  | lvl :: lvls =>
      let e := word m (entry_addr table (addr_idx lvl virt false)) in
      if is_leaf e lvl then
        let offset := Z.land virt (Z.lxor (addr_mask lvl) (2 ^ 64 - 1)) in
        let '(base, attr) := entry_get e lvl in
        Ok (Z.lor base offset, attr)
      else
        t ← get_table e id_off lvl;
        table ← of_option (EntryExistent false) t;
        get_page_loop lvls m table virt id_off
  end.

Definition get_page (m : gmap Z Z) (root virt id_off : Z) : res Error (Z * Z) :=
  get_page_loop levels m root virt id_off.

Fixpoint drop_page_loop (lvls : list Level) (table virt : Z) (level : Level) (id_off : Z)
    (parent : option Z) (empty_tables : list (option (Z * Level))) : M () :=
  match lvls with
  | [] => lift Panic
  | lvl :: lvls =>
      let idx := addr_idx lvl virt false in
      s ← get;
      let empty_tables :=
        if table_is_empty (mem s) table (Some idx) lvl
        then <[Z.to_nat (level_idx lvl) := (λ p, (p, lvl)) <$> parent]> empty_tables
        else empty_tables in
      let item := entry_addr table idx in
      if bool_decide (lvl = level) then
        e ← read_word item;
        if is_leaf e level then
          _ ← write_word item 0;
          destroy_tables empty_tables id_off
        else lift (Err (EntryExistent false))
      else
        table ← get_or_split_table item lvl id_off;
        drop_page_loop lvls table virt level id_off (Some item) empty_tables
  end.

Definition drop_page (root virt : Z) (level : Level) (id_off : Z) : M () :=
  drop_page_loop levels root virt level id_off None (replicate 5 None).

Definition misaligned (addr : Z) : option Z :=
  if Z.land addr PAGE_MASK =? 0 then None else Some addr.

Definition check (vstart vend : Z) (phys : option Z) : res Error () :=
  let ret := AddrMisaligned (misaligned vstart) (misaligned vend) (phys ≫= misaligned) in
  if negb (is_misaligned_invalid ret) then Err ret
  else if vend <=? vstart then Err RangeEmpty
  else Ok ().

(** ** The interface of the crate ([lib.rs]) *)

(** [LAddr::advance] is pointer arithmetic. *)
Definition laddr_advance (a offset : Z) : Z := wrap W (a + offset).

(** The number of iterations left when every one advances by a page: it runs out
    only when the range is empty. *)
Definition page_fuel (vstart vend : Z) : nat := Z.to_nat ((vend - vstart) / PAGE_SIZE).

Definition query (m : gmap Z Z) (root virt id_off : Z) : res Error (Z * Z) :=
  get_page m root virt id_off.

(** [query(..).map_or_else(|_| PAddr::new(0), |(phys, _)| phys)]. *)
Definition query_phys (root virt id_off : Z) : M Z := λ s,
  match query (mem s) root virt id_off with
  | Ok (phys, _) => (Ok phys, s)
  | Err _ => (Ok 0, s)
  | Panic => (Panic, s)
  end.

Fixpoint unmaps_loop (fuel : nat) (root vstart vend id_off : Z) : M () :=
  match fuel with
  | O => mret ()
  | S fuel =>
      if vstart <? vend then
        phys ← query_phys root vstart id_off;
        level ← lift (fit_all vstart vend phys);
        _ ← attempt (drop_page root vstart level id_off);
        unmaps_loop fuel root (laddr_advance vstart (page_size level)) vend id_off
      else mret ()
  end.

Definition unmaps (root vstart vend id_off : Z) : M () :=
  _ ← lift (check vstart vend None);
  unmaps_loop (page_fuel vstart vend) root vstart vend id_off.

Fixpoint reprotect_loop (fuel : nat) (root vstart vend attr id_off : Z) : M () :=
  match fuel with
  | O => mret ()
  | S fuel =>
      if vstart <? vend then
        phys ← query_phys root vstart id_off;
        level ← lift (fit_all vstart vend phys);
        r ← attempt (modify_page root vstart attr level id_off);
        match r with
        | inr () | inl (EntryExistent false) =>
            reprotect_loop fuel root (laddr_advance vstart (page_size level)) vend attr id_off
        | inl _ => lift Panic
        end
      else mret ()
  end.

Definition reprotect (root : Z) (info : ReprotectInfo) : M () :=
  let '(vstart, vend) := ri_virt info in
  _ ← lift (check vstart vend None);
  reprotect_loop (page_fuel vstart vend) root vstart vend (ri_attr info) (ri_id_off info).

(** The loop of [maps]: [ret] and the remaining [virt.start]. *)
Fixpoint maps_loop (fuel : nat) (root vstart vend phys attr id_off : Z) : M ((Error + ()) * Z) :=
  match fuel with
  | O => mret (inr (), vstart)
  | S fuel =>
      if vstart <? vend then
        level ← lift (fit_all vstart vend phys);
        ret ← attempt (new_page root vstart phys attr level id_off);
        match ret with
        | inl e => mret (inl e, vstart)
        | inr () =>
            phys ← lift (phys +! page_size level);
            maps_loop fuel root (laddr_advance vstart (page_size level)) vend phys attr id_off
        end
      else mret (inr (), vstart)
  end.

Definition maps (root : Z) (info : MapInfo) : M () :=
  let '(vstart, vend) := mi_virt info in
  _ ← lift (check vstart vend (Some (mi_phys info)));
  '(ret, rem) ← maps_loop (page_fuel vstart vend) root vstart vend (mi_phys info)
                  (mi_attr info) (mi_id_off info);
  match ret with
  | inr () => mret ()
  | inl e =>
      _ ← (if vstart <? rem then
             _ ← attempt (unmaps root vstart rem (mi_id_off info)); mret ()
           else mret ());
      lift (Err e)
  end.
End tables.
