(* ===== verification/PagingFacts.v ===== *)
(** * Facts about page table entries and walks *)

From S2P Require Import Base Bits Buddy Paging.
Local Open Scope Z_scope.

(** ** The bits of masks and entries *)

Lemma testbit_mask a b i : 0 ≤ a ≤ b → 0 ≤ i →
  Z.testbit (2 ^ b - 2 ^ a) i = (a <=? i) && (i <? b).
Proof.
  intros Hab Hi. replace (2 ^ b - 2 ^ a) with (Z.shiftl (Z.ones (b - a)) a).
  - rewrite Z.shiftl_spec by lia. destruct (Z.leb_spec a i); simpl.
    + rewrite Z.testbit_ones_nonneg by lia. destruct (Z.ltb_spec (i - a) (b - a)), (Z.ltb_spec i b); done || lia.
    + apply Z.testbit_neg_r. lia.
  - rewrite Z.shiftl_mul_pow2, Z.ones_equiv by lia.
    replace (2 ^ b) with (2 ^ (b - a) * 2 ^ a) by (rewrite <- Z.pow_add_r by lia; f_equal; lia). lia.
Qed.

Lemma page_bits_bounds l : 12 ≤ page_bits l ≤ 39.
Proof. by destruct l. Qed.

Lemma addr_mask_bit l i : 0 ≤ i → Z.testbit (addr_mask l) i = (page_bits l <=? i) && (i <? 48).
Proof.
  intros Hi. replace (addr_mask l) with (2 ^ 48 - 2 ^ page_bits l) by (by destruct l).
  apply testbit_mask; [|done]. pose proof (page_bits_bounds l). lia.
Qed.

Lemma attr_all_bit i : 0 ≤ i → Z.testbit Attr.all i = (i <? 13) || (i =? 63).
Proof.
  intros Hi. unfold Attr.all. rewrite <- lor_land_disjoint by done.
  rewrite Z.lor_spec, Z.pow2_bits_eqb, <- (Z.sub_0_r (2 ^ 13 - 1)) by lia.
  replace (2 ^ 13 - 1 - 0) with (2 ^ 13 - 2 ^ 0) by done. rewrite testbit_mask by lia.
  rewrite (proj2 (Z.leb_le 0 i)) by lia. cbn [andb].
  destruct (Z.eqb_spec 63 i), (Z.eqb_spec i 63); try lia; apply orb_comm.
Qed.

Lemma contains_spec a b :
  Attr.contains a b = true ↔ ∀ i, 0 ≤ i → Z.testbit b i = true → Z.testbit a i = true.
Proof.
  unfold Attr.contains. rewrite Z.eqb_eq. split.
  - intros <- i Hi. rewrite Z.land_spec. apply andb_prop_l || by intros [? _]%andb_true_iff.
  - intros H. apply Z.bits_inj'. intros i Hi. rewrite Z.land_spec. specialize (H i Hi).
    destruct (Z.testbit b i); [by rewrite H|apply andb_false_r].
Qed.

Lemma contains_lor a b c : Attr.contains a (Z.lor b c) = Attr.contains a b && Attr.contains a c.
Proof.
  apply eq_true_iff_eq. rewrite andb_true_iff, !contains_spec.
  setoid_rewrite Z.lor_spec. setoid_rewrite orb_true_iff. naive_solver.
Qed.

Lemma contains_pow2 a k : 0 ≤ k → Attr.contains a (2 ^ k) = Z.testbit a k.
Proof.
  intros Hk. apply eq_true_iff_eq. rewrite contains_spec. split.
  - intros H. apply H; [done|]. by apply Z.pow2_bits_true.
  - intros H i Hi. rewrite Z.pow2_bits_eqb by lia. by intros ->%Z.eqb_eq.
Qed.

(** The two bits that classify an entry. *)
Definition present (e : Z) : bool := Z.testbit e 0.
Definition large (e : Z) : bool := Z.testbit e 7.

Lemma truncate_bit e i : 0 ≤ i < 13 → Z.testbit (Attr.from_bits_truncate e) i = Z.testbit e i.
Proof.
  intros Hi. unfold Attr.from_bits_truncate. rewrite Z.land_spec, attr_all_bit by lia.
  rewrite (proj2 (Z.ltb_lt i 13)) by lia. apply andb_true_r.
Qed.

Lemma is_leaf_bits e l : is_leaf e l = present e && (bool_decide (l = Pt) || large e).
Proof.
  unfold is_leaf, present, large. cbn [snd entry_get].
  assert (leaf_attr l 0 = if bool_decide (l = Pt) then 2 ^ 0 else Z.lor (2 ^ 0) (2 ^ 7)) as ->
    by (by destruct l).
  case_bool_decide; [|rewrite contains_lor]; rewrite !contains_pow2, !truncate_bit by lia; [|done].
  by rewrite andb_true_r.
Qed.

Definition has_table (e : Z) (l : Level) : bool :=
  present e && negb (bool_decide (l = Pt) || large e).

Section entries.
Context `{P : Profile}.

Lemma get_table_bits {E} e id_off l :
  get_table (E:=E) e id_off l =
    if has_table e l then
      t ← to_laddr (Z.land e (addr_mask Pt)) id_off; Ok (if t =? 0 then None else Some t)
    else Ok None.
Proof.
  unfold get_table, has_table, present, large, Attr.has_table, entry_get.
  change Attr.PRESENT with (2 ^ 0). change Attr.LARGE_PAGE with (2 ^ 7).
  by rewrite !contains_pow2, !truncate_bit by lia.
Qed.

(** An entry is a leaf, points to a table, or is not present. *)
Lemma has_table_leaf e l : has_table e l = true → is_leaf e l = false.
Proof. rewrite is_leaf_bits. unfold has_table. by destruct (present e), (bool_decide _), (large e). Qed.

Lemma leaf_has_table e l : is_leaf e l = true → has_table e l = false.
Proof. rewrite is_leaf_bits. unfold has_table. by destruct (present e), (bool_decide _), (large e). Qed.

Lemma entry_new_bit phys attr l i : 0 ≤ i →
  Z.testbit (entry_new phys attr l) i =
    (Z.testbit phys i && ((page_bits l <=? i) && (i <? 48))) || Z.testbit attr i.
Proof. intros Hi. unfold entry_new. by rewrite Z.lor_spec, Z.land_spec, addr_mask_bit. Qed.

Lemma entry_new_low phys attr l i : 0 ≤ i < 12 →
  Z.testbit (entry_new phys attr l) i = Z.testbit attr i.
Proof.
  intros Hi. rewrite entry_new_bit by lia. pose proof (page_bits_bounds l).
  rewrite (proj2 (Z.leb_gt _ i)) by lia. by rewrite andb_false_r.
Qed.

(** The attributes that a caller may ask for: the flags of the hardware and the
    lock bits, without those that the level of the page decides. *)
Definition plain_attr (attr : Z) : Prop :=
  ∀ i, 0 ≤ i → Z.testbit attr i = true → (i < 12 ∧ i ≠ 7) ∨ i = 63.

Lemma plain_attr_bit attr i : plain_attr attr → 0 ≤ i → i = 7 ∨ 12 ≤ i → i ≠ 63 →
  Z.testbit attr i = false.
Proof.
  intros Ha Hi Hc Hn. destruct (Z.testbit attr i) eqn:E; [|done]. apply Ha in E; lia.
Qed.

Lemma leaf_attr_plain l attr : plain_attr attr →
  leaf_attr l attr = Z.lor (Z.lor attr (2 ^ 0)) (if bool_decide (l = Pt) then 0 else 2 ^ 7).
Proof.
  intros Ha. unfold leaf_attr. change Attr.PAT with (2 ^ 7).
  rewrite contains_pow2, (plain_attr_bit attr 7) by (done || lia). cbn [andb].
  by destruct l.
Qed.

(** The physical address of an aligned page is what the mask keeps of it. *)
Lemma land_addr_mask phys l :
  0 ≤ phys < 2 ^ 48 → phys mod page_size l = 0 → Z.land phys (addr_mask l) = phys.
Proof.
  intros Hp Ha. pose proof (page_bits_bounds l). apply Z.bits_inj'. intros i Hi.
  rewrite Z.land_spec, addr_mask_bit by done.
  destruct (Z.leb_spec (page_bits l) i); simpl.
  - destruct (Z.ltb_spec i 48); [apply andb_true_r|]. rewrite andb_false_r.
    symmetry. apply testbit_high with 48; lia.
  - rewrite andb_false_r. symmetry. unfold page_size in Ha.
    rewrite <- (Z.mod_pow2_bits_low phys (page_bits l) i), Ha by lia. apply Z.testbit_0_l.
Qed.
End entries.

(** ** Reading back what was written *)

Section roundtrip.
Context `{P : Profile}.

Lemma leaf_entry_bits l phys attr : plain_attr attr →
  present (entry_new phys (leaf_attr l attr) l) = true ∧
  large (entry_new phys (leaf_attr l attr) l) = negb (bool_decide (l = Pt)).
Proof.
  intros Ha. unfold present, large. rewrite !entry_new_low, leaf_attr_plain by (done || lia).
  rewrite !Z.lor_spec, (plain_attr_bit attr 7) by (done || lia).
  case_bool_decide; rewrite ?Z.testbit_0_l, ?Z.pow2_bits_true, ?Z.pow2_bits_false, ?orb_true_r by lia;
    done.
Qed.

Lemma leaf_entry_is_leaf l phys attr : plain_attr attr →
  is_leaf (entry_new phys (leaf_attr l attr) l) l = true.
Proof.
  intros Ha. rewrite is_leaf_bits. destruct (leaf_entry_bits l phys attr Ha) as [-> ->].
  by case_bool_decide.
Qed.

Lemma leaf_attr_high l attr i : plain_attr attr → 12 ≤ i → i ≠ 63 →
  Z.testbit (leaf_attr l attr) i = false.
Proof.
  intros Ha Hi Hn. rewrite leaf_attr_plain, !Z.lor_spec, (plain_attr_bit attr i) by (done || lia).
  case_bool_decide; rewrite ?Z.testbit_0_l, ?Z.pow2_bits_false by lia; done.
Qed.

Lemma leaf_entry_get l phys attr :
  plain_attr attr → 0 ≤ phys < 2 ^ 48 → phys mod page_size l = 0 →
  entry_get (entry_new phys (leaf_attr l attr) l) l =
    (phys, Z.lor (leaf_attr l attr) (if bool_decide (l = Pt) then Z.land phys Attr.LARGE_PAT else 0)).
Proof.
  intros Ha Hp Hal. unfold entry_get. f_equal.
  - rewrite <- (land_addr_mask phys l Hp Hal) at 2. apply Z.bits_inj'. intros i Hi.
    rewrite !Z.land_spec, entry_new_bit, addr_mask_bit by done.
    pose proof (page_bits_bounds l). destruct (Z.leb_spec (page_bits l) i); simpl; [|by rewrite !andb_false_r].
    destruct (Z.ltb_spec i 48); [|by rewrite !andb_false_r].
    rewrite (leaf_attr_high l attr i) by (done || lia). by rewrite orb_false_r, !andb_true_r.
  - unfold Attr.from_bits_truncate. apply Z.bits_inj'. intros i Hi.
    rewrite Z.land_spec, Z.lor_spec, entry_new_bit, attr_all_bit by done.
    pose proof (page_bits_bounds l).
    destruct (Z.ltb_spec i 13); [|destruct (Z.eqb_spec i 63) as [->|]].
    + rewrite andb_true_r. case_bool_decide as Hl.
      * subst l. rewrite Z.land_spec. change Attr.LARGE_PAT with (2 ^ 12).
        rewrite Z.pow2_bits_eqb, orb_comm by lia. f_equal.
        change (page_bits Pt) with 12.
        destruct (Z.leb_spec 12 i), (Z.eqb_spec 12 i), (Z.ltb_spec i 48); try lia; done.
      * rewrite Z.testbit_0_l, orb_false_r.
        assert (21 ≤ page_bits l) by (by destruct l).
        rewrite (proj2 (Z.leb_gt (page_bits l) i)) by lia.
        by rewrite andb_false_r.
    + rewrite andb_true_r. change (63 <? 48) with false. rewrite !andb_false_r. cbn [orb].
      case_bool_decide; [|by rewrite Z.testbit_0_l, orb_false_r].
      rewrite Z.land_spec. change (Z.testbit Attr.LARGE_PAT 63) with false.
      by rewrite andb_false_r, orb_false_r.
    + rewrite andb_false_r, leaf_attr_high by (done || lia). symmetry. cbn [orb].
      case_bool_decide; [|apply Z.testbit_0_l].
      rewrite Z.land_spec. change Attr.LARGE_PAT with (2 ^ 12).
      rewrite Z.pow2_bits_false by lia. apply andb_false_r.
Qed.

(** A table entry points to its page. *)
Lemma table_entry phys : 0 ≤ phys < 2 ^ 48 → phys mod PAGE_SIZE = 0 →
  (∀ l, l ≠ Pt → has_table (entry_new phys Attr.INTERMEDIATE Pt) l = true) ∧
  Z.land (entry_new phys Attr.INTERMEDIATE Pt) (addr_mask Pt) = phys.
Proof.
  intros Hp Ha. split.
  - intros l Hl. unfold has_table, present, large. rewrite !entry_new_low by lia.
    by rewrite bool_decide_false by done.
  - rewrite <- (land_addr_mask phys Pt) at 2 by done. apply Z.bits_inj'. intros i Hi.
    rewrite !Z.land_spec, entry_new_bit, addr_mask_bit by done. change (page_bits Pt) with 12.
    destruct (Z.leb_spec 12 i); cbn [andb]; [|by rewrite !andb_false_r].
    change Attr.INTERMEDIATE with 7.
    rewrite (testbit_high 3 7 i) by lia. rewrite orb_false_r.
    by destruct (i <? 48), (Z.testbit phys i).
Qed.

Lemma get_table_new {E} phys id_off l :
  l ≠ Pt → 0 ≤ phys < 2 ^ 48 → phys mod PAGE_SIZE = 0 → 0 < phys + id_off < 2 ^ 64 →
  get_table (E:=E) (entry_new phys Attr.INTERMEDIATE Pt) id_off l = Ok (Some (phys + id_off)).
Proof.
  intros Hl Hp Ha Ht. destruct (table_entry phys Hp Ha) as [Htab Hm].
  rewrite get_table_bits, Htab, Hm by done. unfold to_laddr. rewrite uadd_ok by lia.
  cbn. rewrite (proj2 (Z.eqb_neq _ 0)) by lia. done.
Qed.

(** The page offset of an address of the lower half. *)
Lemma page_offset virt l : 0 ≤ virt < 2 ^ 48 →
  Z.land virt (Z.lxor (addr_mask l) (2 ^ 64 - 1)) = virt mod page_size l.
Proof.
  intros Hv. pose proof (page_bits_bounds l). apply Z.bits_inj'. intros i Hi. unfold page_size.
  rewrite Z.land_spec, Z.lxor_spec, addr_mask_bit by done.
  change (2 ^ 64 - 1) with (2 ^ 64 - 2 ^ 0). rewrite testbit_mask by lia.
  rewrite (proj2 (Z.leb_le 0 i)) by lia. cbn [andb].
  destruct (Z.leb_spec (page_bits l) i).
  - rewrite Z.mod_pow2_bits_high by lia. destruct (Z.ltb_spec i 48).
    + rewrite (proj2 (Z.ltb_lt i 64)) by lia. apply andb_false_r.
    + by rewrite (testbit_high 48 virt i) by lia.
  - rewrite Z.mod_pow2_bits_low, (proj2 (Z.ltb_lt i 64)) by lia. apply andb_true_r.
Qed.

Lemma lor_page_offset phys virt l :
  phys mod page_size l = 0 → Z.lor phys (virt mod page_size l) = phys + virt mod page_size l.
Proof.
  intros Ha. pose proof (page_bits_bounds l). apply lor_land_disjoint.
  apply land_shifted_low with (page_bits l); [lia|done|].
  apply Z.mod_pos_bound. unfold page_size. pose proof (pow2_pos (page_bits l)). lia.
Qed.
End roundtrip.
