(* ===== verification/PagingWalk.v ===== *)
(** * The tree of tables and the effect of [new_page] *)

From S2P Require Import Base Bits Buddy Paging PagingFacts.
Local Open Scope Z_scope.

(** ** The path of an address *)

Definition vidx (virt : Z) (l : Level) : Z := addr_idx l virt false.

(** The indices of the first [k] levels. *)
Definition vpath (virt : Z) (k : nat) : list Z := take k (vidx virt <$> levels).

Lemma vidx_eq virt l : vidx virt l = (virt / page_size l) mod 512.
Proof.
  unfold vidx, addr_idx, page_size. cbn [andb].
  change (NR_ENTRIES - 1) with (2 ^ 9 - 1). rewrite land_ones_mod by lia. change 512 with (2 ^ 9).
  pose proof (page_bits_bounds l). rewrite <- Z.shiftr_div_pow2 by lia.
  apply Z.bits_inj'. intros i Hi. destruct (Z.lt_ge_cases i 9).
  - rewrite !Z.mod_pow2_bits_low, !Z.shiftr_spec, Z.land_spec, addr_mask_bit by lia.
    rewrite (proj2 (Z.leb_le _ (i + page_bits l))), (proj2 (Z.ltb_lt (i + page_bits l) 48)) by lia.
    apply andb_true_r.
  - by rewrite !Z.mod_pow2_bits_high by lia.
Qed.

Lemma vidx_bounds virt l : 0 ≤ vidx virt l < NR_ENTRIES.
Proof. rewrite vidx_eq. apply Z.mod_pos_bound. done. Qed.

Lemma vpath_succ virt k l : levels !! k = Some l → vpath virt (S k) = vpath virt k ++ [vidx virt l].
Proof.
  intros Hk. unfold vpath. apply take_S_r. rewrite list_lookup_fmap, Hk. done.
Qed.

Lemma vpath_length virt k : (k ≤ 4)%nat → length (vpath virt k) = k.
Proof. intros Hk. unfold vpath. rewrite length_take. simpl. lia. Qed.

Lemma vpath_prefix virt j k : (j ≤ k)%nat → vpath virt j `prefix_of` vpath virt k.
Proof. intros Hjk. unfold vpath. rewrite <- (Nat.min_l j k), <- take_take by done. apply prefix_take. Qed.

Lemma vpath_le j k virt virt' : vpath virt k = vpath virt' k → (j ≤ k)%nat → vpath virt j = vpath virt' j.
Proof.
  intros Hv Hjk. unfold vpath in *. rewrite <- (Nat.min_l j k), <- !take_take by done. by rewrite Hv.
Qed.

Lemma levels_drop k l : levels !! k = Some l → drop k levels = l :: drop (S k) levels.
Proof. intros Hk. by apply drop_S. Qed.

Lemma levels_lt k l : levels !! k = Some l → (k < 4)%nat.
Proof. intros Hk. by apply lookup_lt_Some in Hk. Qed.

Lemma levels_decrease k l : levels !! k = Some l → l ≠ Pt → ∃ l', levels !! S k = Some l'.
Proof. intros Hk Hl. destruct k as [|[|[|[|k]]]]; simplify_eq/=; eauto. Qed.

Lemma levels_inj j k l : levels !! j = Some l → levels !! k = Some l → j = k.
Proof.
  intros Hj Hk. pose proof (levels_lt _ _ Hj). pose proof (levels_lt _ _ Hk).
  destruct j as [|[|[|[|j]]]], k as [|[|[|[|k]]]]; simplify_eq/=; done || lia.
Qed.

(** ** Memory words *)

Lemma word_insert m a v b : word (<[a := v]> m) b = if decide (b = a) then v else word m b.
Proof.
  unfold word. destruct (decide (b = a)) as [->|].
  - by rewrite lookup_insert_eq.
  - by rewrite lookup_insert_ne by done.
Qed.

Lemma entry_addr_inj t i t' i' :
  t mod PAGE_SIZE = 0 → t' mod PAGE_SIZE = 0 → 0 ≤ i < NR_ENTRIES → 0 ≤ i' < NR_ENTRIES →
  entry_addr t i = entry_addr t' i' → t = t' ∧ i = i'.
Proof.
  unfold entry_addr. change PAGE_SIZE with 4096. change NR_ENTRIES with 512. intros Ht Ht' Hi Hi' He.
  apply Z.mod_divide in Ht as [a ->]; [|lia]. apply Z.mod_divide in Ht' as [b ->]; [|lia].
  assert (a = b) by lia. lia.
Qed.

Lemma zero_page_word t m b :
  word (zero_page t m) b =
    if decide (Exists (λ i, b = entry_addr t i) (seqZ 0 NR_ENTRIES)) then 0 else word m b.
Proof.
  unfold zero_page. induction (seqZ 0 NR_ENTRIES) as [|i l IH]; cbn [foldr].
  - by rewrite decide_False by (by inversion 1).
  - rewrite word_insert. destruct (decide (b = entry_addr t i)) as [->|Hne].
    + by rewrite decide_True by (by left).
    + rewrite IH. apply decide_ext. rewrite Exists_cons. naive_solver.
Qed.

Lemma zero_page_in t m i : 0 ≤ i < NR_ENTRIES → word (zero_page t m) (entry_addr t i) = 0.
Proof.
  intros Hi. rewrite zero_page_word. destruct (decide _) as [|H]; [done|]. destruct H.
  apply Exists_exists. exists i. split; [|done]. apply elem_of_seqZ. lia.
Qed.

Lemma zero_page_out t m t' i :
  t mod PAGE_SIZE = 0 → t' mod PAGE_SIZE = 0 → 0 ≤ i < NR_ENTRIES → t' ≠ t →
  word (zero_page t m) (entry_addr t' i) = word m (entry_addr t' i).
Proof.
  intros Ht Ht' Hi Hne. rewrite zero_page_word. destruct (decide _) as [H|]; [|done].
  apply Exists_exists in H as (j & Hj & He). apply elem_of_seqZ in Hj.
  apply entry_addr_inj in He as [-> _]; [done|done|done|done|lia].
Qed.

(** ** The invariant of the tables

    [T] gives the path of every table that is or was reachable from the root. *)

Class PageAllocLaws (A : Type) `{PA : PageAlloc A} := {
  pa_owns : A → Z → Prop;
  pa_allocate_some a p a' : pa_allocate a = (Some p, a') →
    pa_owns a p ∧ ∀ q, pa_owns a' q ↔ pa_owns a q ∧ q ≠ p;
  pa_allocate_none a a' : pa_allocate a = (None, a') → a' = a ∧ ∀ p, ¬ pa_owns a p;
  pa_deallocate_owns a p q : pa_owns (pa_deallocate p a) q ↔ pa_owns a q ∨ q = p;
}.

Section walk.
Context `{P : Profile} {A : Type} `{PA : PageAlloc A} `{!PageAllocLaws A}.
Variables (id_off root : Z).
Implicit Types (s : machine A) (T : gmap Z (list Z)) (m : gmap Z Z).

(** A page frame that the allocator may hand out for a table. *)
Definition frame_ok (p : Z) : Prop :=
  0 ≤ p < 2 ^ 48 ∧ p mod PAGE_SIZE = 0 ∧ (p + id_off) mod PAGE_SIZE = 0 ∧
  0 < p + id_off ∧ p + id_off < 2 ^ 64.

Record tinv s T : Prop := {
  ti_root : T !! root = Some [];
  ti_addr t π : T !! t = Some π → t mod PAGE_SIZE = 0;
  ti_child t π i lvl : T !! t = Some π → levels !! length π = Some lvl → 0 ≤ i < NR_ENTRIES →
    has_table (word (mem s) (entry_addr t i)) lvl = true →
    ∃ t', get_table (E:=Error) (word (mem s) (entry_addr t i)) id_off lvl = Ok (Some t') ∧
      T !! t' = Some (π ++ [i]);
  ti_owned p : pa_owns (pages s) p → frame_ok p ∧ T !! (p + id_off) = None;
}.

(** The words of the tables that are not below the path [π] are unchanged. *)
Definition agree T (π : list Z) m m' : Prop :=
  ∀ t π' i, T !! t = Some π' → 0 ≤ i < NR_ENTRIES → ¬ π `prefix_of` π' ++ [i] →
    word m' (entry_addr t i) = word m (entry_addr t i).

Lemma get_page_unfold k l m t virt :
  levels !! k = Some l →
  get_page_loop (drop k levels) m t virt id_off =
    let e := word m (entry_addr t (vidx virt l)) in
    if is_leaf e l then
      Ok (Z.lor (fst (entry_get e l)) (Z.land virt (Z.lxor (addr_mask l) (2 ^ 64 - 1))),
          snd (entry_get e l))
    else
      t' ← get_table e id_off l;
      t' ← of_option (EntryExistent false) t';
      get_page_loop (drop (S k) levels) m t' virt id_off.
Proof. intros Hk. rewrite (levels_drop k l Hk). done. Qed.

(** A walk reads only entries on the path of its address. *)
Lemma walk_frame s T π m' virt n : ∀ k t,
  (k + n = 4)%nat → tinv s T → T !! t = Some (vpath virt k) → agree T π (mem s) m' →
  ¬ π `prefix_of` vpath virt 4 →
  get_page_loop (drop k levels) m' t virt id_off = get_page_loop (drop k levels) (mem s) t virt id_off.
Proof.
  induction n as [|n IH]; intros k t Hk Hi Ht Ha Hn.
  { replace k with 4%nat by lia. done. }
  assert (∃ l, levels !! k = Some l) as [l Hl].
  { destruct (levels !! k) eqn:E; [eauto|]. apply lookup_ge_None in E. simpl in E. lia. }
  rewrite !(get_page_unfold k l) by done. pose proof (vidx_bounds virt l) as Hb.
  rewrite (Ha t (vpath virt k) (vidx virt l) Ht Hb).
  2: { rewrite <- vpath_succ by done. intros Hp. apply Hn. etrans; [done|]. apply vpath_prefix.
       pose proof (levels_lt _ _ Hl). lia. }
  cbv zeta. destruct (is_leaf _ l) eqn:Hleaf; [done|].
  destruct (has_table (word (mem s) (entry_addr t (vidx virt l))) l) eqn:Htab.
  - destruct (ti_child _ _ Hi t (vpath virt k) (vidx virt l) l) as (t' & Hg & Ht'); try done.
    { rewrite vpath_length by lia. done. }
    rewrite Hg. cbn. rewrite <- vpath_succ in Ht' by done. apply (IH (S k) t'); try done. lia.
  - rewrite get_table_bits, Htab. done.
Qed.

(** An entry that is neither a leaf nor a table ends the walk. *)
Lemma walk_absent k l m t virt :
  levels !! k = Some l → is_leaf (word m (entry_addr t (vidx virt l))) l = false →
  has_table (word m (entry_addr t (vidx virt l))) l = false →
  get_page_loop (drop k levels) m t virt id_off = Err (EntryExistent false).
Proof.
  intros Hk Hleaf Htab. rewrite (get_page_unfold k l) by done. cbv zeta.
  rewrite Hleaf, get_table_bits, Htab. done.
Qed.

Lemma walk_table k l m t virt t' :
  levels !! k = Some l → get_table (E:=Error) (word m (entry_addr t (vidx virt l))) id_off l = Ok (Some t') →
  get_page_loop (drop k levels) m t virt id_off = get_page_loop (drop (S k) levels) m t' virt id_off.
Proof.
  intros Hk Hg. rewrite (get_page_unfold k l) by done. cbv zeta.
  rewrite has_table_leaf; [by rewrite Hg|]. rewrite get_table_bits in Hg. by destruct (has_table _ _).
Qed.

Lemma zero_entry l : is_leaf 0 l = false ∧ has_table 0 l = false.
Proof. by destruct l. Qed.

(** Making the entry [item] of table [t] point to the fresh zeroed page [p]. *)
Lemma link_table_inv s T t π l i p a' :
  tinv s T → T !! t = Some π → levels !! length π = Some l → l ≠ Pt → 0 ≤ i < NR_ENTRIES →
  pa_owns (pages s) p → (∀ q, pa_owns a' q ↔ pa_owns (pages s) q ∧ q ≠ p) →
  tinv (Machine (<[entry_addr t i := entry_new p Attr.INTERMEDIATE Pt]> (zero_page (p + id_off) (mem s))) a')
       (<[p + id_off := π ++ [i]]> T).
Proof.
  intros Hi Ht Hl Hpt Hb Hp Ha'. destruct (ti_owned _ _ Hi p Hp) as [(Hp48 & Hpa & Hta & Ht0 & Ht64) Hfresh].
  destruct (levels_decrease _ _ Hl Hpt) as [l' Hl'].
  split; cbn [mem pages].
  - rewrite lookup_insert_ne; [apply Hi|]. intros E. rewrite E, (ti_root _ _ Hi) in Hfresh. done.
  - intros t2 π2. rewrite lookup_insert_Some. intros [[<- _]|[_ H2]]; [done|]. by eapply ti_addr.
  - intros t2 π2 j lvl H2 Hlvl Hj. rewrite word_insert.
    apply lookup_insert_Some in H2 as [[<- <-]|[Hne H2]].
    + rewrite decide_False, zero_page_in by (done ||
        (intros [E _]%entry_addr_inj; try done; [by rewrite <- E, Hfresh in Ht|by eapply ti_addr])).
      by destruct (zero_entry lvl) as [_ ->].
    + destruct (decide _) as [E|E].
      * apply entry_addr_inj in E as [-> ->]; try done; [|by eapply ti_addr|by eapply ti_addr].
        rewrite Ht in H2. injection H2 as <-. rewrite Hl in Hlvl. injection Hlvl as <-. intros _.
        exists (p + id_off). rewrite get_table_new by done. by rewrite lookup_insert_eq.
      * rewrite zero_page_out by (done || by eapply ti_addr || congruence). intros Htab.
        destruct (ti_child _ _ Hi t2 π2 j lvl H2 Hlvl Hj Htab) as (t' & Hg & Ht'). exists t'.
        split; [done|]. rewrite lookup_insert_ne by congruence. done.
  - intros q. rewrite Ha'. intros [Hq Hne]. destruct (ti_owned _ _ Hi q Hq) as [Hok Hq'].
    split; [done|]. rewrite lookup_insert_ne by lia. done.
Qed.

(** Why a walk that creates tables stops. *)
Definition stopped s s' (e : Error) (virt : Z) (k : nat) (t : Z) : Prop :=
  (e = OutOfMemory ∧ ∀ p, ¬ pa_owns (pages s') p) ∨
  (e = EntryExistent true ∧ is_ok (get_page_loop (drop k levels) (mem s) t virt id_off) = true).

Lemma walk_leaf k l m t virt :
  levels !! k = Some l → is_leaf (word m (entry_addr t (vidx virt l))) l = true →
  is_ok (get_page_loop (drop k levels) m t virt id_off) = true.
Proof. intros Hk Hl. rewrite (get_page_unfold k l) by done. cbv zeta. by rewrite Hl. Qed.

Lemma create_table_ok s T k virt t l :
  tinv s T → T !! t = Some (vpath virt k) → levels !! k = Some l → l ≠ Pt →
  ∃ r s' T', create_table (entry_addr t (vidx virt l)) l id_off s = (r, s') ∧ tinv s' T' ∧ T ⊆ T' ∧
    agree T (vpath virt (S k)) (mem s) (mem s') ∧
    match r with
    | Ok t' => T' !! t' = Some (vpath virt (S k)) ∧
        get_table (E:=Error) (word (mem s') (entry_addr t (vidx virt l))) id_off l = Ok (Some t') ∧
        ∀ virt', vidx virt' l = vidx virt l →
          get_page_loop (drop (S k) levels) (mem s') t' virt' id_off =
          get_page_loop (drop k levels) (mem s) t virt' id_off
    | Err e => mem s' = mem s ∧ stopped s s' e virt k t
    | Panic => False
    end.
Proof.
  intros Hi Ht Hl Hpt. pose proof (levels_lt _ _ Hl). pose proof (vidx_bounds virt l) as Hb.
  assert (levels !! length (vpath virt k) = Some l) as Hl' by (rewrite vpath_length by lia; done).
  set (item := entry_addr t (vidx virt l)). set (e := word (mem s) item).
  unfold create_table. rewrite bool_decide_false by done. run (eq_refl (assert_ true)).
  run (eq_refl (read_word item s)). fold e.
  destruct (has_table e l) eqn:Htab.
  - destruct (ti_child _ _ Hi t _ (vidx virt l) l Ht Hl' Hb Htab) as (t' & Hg & Ht').
    fold item e in Hg. rewrite Hg. run (eq_refl (Ok (Some t'))). rewrite <- vpath_succ in Ht' by done.
    exists (Ok t'), s, T. split_and!; try done. intros virt' Hv. symmetry.
    apply (walk_table k l); [done|]. by rewrite Hv.
  - rewrite get_table_bits, Htab. run (eq_refl (Ok None)). destruct (is_leaf e l) eqn:Hleaf.
    { exists (Err (EntryExistent true)), s, T. split_and!; try done. right. split; [done|]. by apply (walk_leaf k l). }
    destruct (pa_allocate (pages s)) as [[p|] a'] eqn:Hal.
    + destruct (pa_allocate_some _ _ _ Hal) as [Hown Hown'].
      destruct (ti_owned _ _ Hi p Hown) as [(Hp48 & Hpa & Hta & Ht0 & Ht64) Hfresh].
      assert (allocate_zeroed id_off s = (Ok (Some p), Machine (zero_page (p + id_off) (mem s)) a')) as Hz.
      { unfold allocate_zeroed, to_laddr. rewrite Hal, uadd_ok by lia. done. }
      run Hz. run (eq_refl (Ok p)). run (eq_refl (write_word item (entry_new p Attr.INTERMEDIATE Pt) _)).
      run (eq_refl (read_word item _)). cbn [mem pages]. rewrite word_insert, decide_True by done.
      rewrite get_table_new by done. run (eq_refl (Ok (Some (p + id_off)))).
      exists (Ok (p + id_off)), (Machine (<[item := entry_new p Attr.INTERMEDIATE Pt]>
        (zero_page (p + id_off) (mem s))) a'), (<[p + id_off := vpath virt (S k)]> T).
      split; [done|].
      split; [rewrite (vpath_succ virt k l) by done; by apply link_table_inv with l|]. split; [by apply insert_subseteq|]. cbn [mem]. split_and!.
      * intros t2 π2 i H2 Hi2 Hn. rewrite word_insert. destruct (decide _) as [E|E].
        { apply entry_addr_inj in E as [-> ->]; try done; try by eapply ti_addr.
          rewrite Ht in H2. injection H2 as <-. destruct Hn. by rewrite <- vpath_succ. }
        apply zero_page_out; try done; [by eapply ti_addr|congruence].
      * by rewrite lookup_insert_eq.
      * by rewrite word_insert, decide_True, get_table_new by done.
      * intros virt' Hv. rewrite (walk_absent k l) by (rewrite ?Hv; done).
        destruct (levels_decrease _ _ Hl Hpt) as [l2 Hl2].
        assert (word (<[item := entry_new p Attr.INTERMEDIATE Pt]> (zero_page (p + id_off) (mem s)))
          (entry_addr (p + id_off) (vidx virt' l2)) = 0) as Hw.
        { rewrite word_insert, decide_False, zero_page_in; try done; [apply vidx_bounds|].
          intros [E _]%entry_addr_inj; try done; [by rewrite <- E, Hfresh in Ht|by eapply ti_addr|].
          apply vidx_bounds. }
        apply (walk_absent (S k) l2); [done|..]; rewrite Hw; apply zero_entry.
    + destruct (pa_allocate_none _ _ Hal) as [-> Hno].
      assert (allocate_zeroed id_off s = (Ok None, s)) as Hz.
      { unfold allocate_zeroed. rewrite Hal. by destruct s. }
      run Hz. exists (Err OutOfMemory), s, T. split_and!; try done. left. by split.
Qed.

(** ** [new_page] *)

(** The tables whose path does not extend [π] are unchanged. *)
Definition agree_tables T (π : list Z) m m' : Prop :=
  ∀ t π' i, T !! t = Some π' → 0 ≤ i < NR_ENTRIES → ¬ π `prefix_of` π' →
    word m' (entry_addr t i) = word m (entry_addr t i).

Lemma prefix_snoc (π π' : list Z) i j : π ++ [i] `prefix_of` π' ++ [j] → π `prefix_of` π'.
Proof.
  intros [κ Hκ]. destruct (decide (κ = [])) as [->|Hne].
  - rewrite app_nil_r in Hκ. by apply app_inj_2 in Hκ as [-> _].
  - apply exists_last in Hne as (κ' & x & ->). rewrite app_assoc in Hκ.
    apply app_inj_2 in Hκ as [-> _]; [|done]. rewrite <- app_assoc. by apply prefix_app_r.
Qed.

Lemma agree_step T virt k l m m1 m' :
  levels !! k = Some l → agree T (vpath virt (S k)) m m1 →
  agree_tables T (vpath virt (S k)) m1 m' →
  agree T (vpath virt (S k)) m m' ∧ agree_tables T (vpath virt k) m m'.
Proof.
  intros Hl Ha Ht. assert (agree T (vpath virt (S k)) m m') as Hag.
  { intros t π' i H Hi Hn. rewrite (Ht t π' i H Hi); [by apply (Ha t π')|].
    intros Hp. apply Hn. by apply prefix_app_r. }
  split; [done|]. intros t π' i H Hi Hn. apply (Hag t π' i H Hi).
  rewrite (vpath_succ virt k l Hl). intros Hp. apply Hn. by apply prefix_snoc in Hp.
Qed.

(** Walks that leave the path of [virt] at level [k] are not affected. *)
Lemma walk_diverge s T k l t virt virt' m' :
  tinv s T → T !! t = Some (vpath virt k) → levels !! k = Some l →
  vpath virt' k = vpath virt k → vidx virt' l ≠ vidx virt l →
  agree T (vpath virt (S k)) (mem s) m' →
  get_page_loop (drop k levels) m' t virt' id_off = get_page_loop (drop k levels) (mem s) t virt' id_off.
Proof.
  intros Hi Ht Hl Hv Hne Ha. pose proof (levels_lt _ _ Hl).
  apply (walk_frame s T (vpath virt (S k)) m' virt' (4 - k)); try done; [lia|by rewrite Hv|].
  intros Hp. apply Hne.
  assert (vpath virt (S k) `prefix_of` vpath virt' (S k)) as [κ Hκ].
  { destruct (prefix_weak_total _ _ _ Hp (vpath_prefix virt' (S k) 4 ltac:(lia))) as [?|Hq]; [done|].
    apply prefix_length_eq in Hq as ->; [done|]. rewrite !vpath_length by lia. done. }
  assert (κ = []) as ->.
  { apply (f_equal length) in Hκ. rewrite length_app, !vpath_length in Hκ by lia.
    destruct κ; simpl in Hκ; [done|lia]. }
  rewrite app_nil_r, !(vpath_succ _ k l) in Hκ by done. by apply app_inj_2 in Hκ as [_ [= ->]].
Qed.

(** What a walk gives for a page mapped at [level]. *)
Definition leaf_value (phys attr : Z) (level : Level) (virt : Z) : Z * Z :=
  let '(base, a) := entry_get (entry_new phys (leaf_attr level attr) level) level in
  (Z.lor base (Z.land virt (Z.lxor (addr_mask level) (2 ^ 64 - 1))), a).

Lemma write_leaf_inv s T t π i v l :
  tinv s T → T !! t = Some π → levels !! length π = Some l → 0 ≤ i < NR_ENTRIES →
  has_table v l = false →
  tinv (Machine (<[entry_addr t i := v]> (mem s)) (pages s)) T.
Proof.
  intros Hi Ht Hl Hb Hv. split; cbn [mem pages]; try apply Hi.
  intros t2 π2 j lvl H2 Hlvl Hj. rewrite word_insert. destruct (decide _) as [E|E].
  - apply entry_addr_inj in E as [-> ->]; try done; try by eapply ti_addr.
    rewrite Ht in H2. injection H2 as <-. rewrite Hl in Hlvl. injection Hlvl as <-. by rewrite Hv.
  - by apply (ti_child _ _ Hi t2 π2).
Qed.

Lemma new_leaf_ok s T k virt phys attr l t :
  plain_attr attr → tinv s T → T !! t = Some (vpath virt k) → levels !! k = Some l →
  let s' := Machine (<[entry_addr t (vidx virt l) := entry_new phys (leaf_attr l attr) l]> (mem s)) (pages s) in
  tinv s' T ∧ agree_tables T (vpath virt k) (mem s) (mem s') ∧
  ∀ virt', vpath virt' k = vpath virt k →
    get_page_loop (drop k levels) (mem s') t virt' id_off =
      if decide (vpath virt' (S k) = vpath virt (S k)) then Ok (leaf_value phys attr l virt')
      else get_page_loop (drop k levels) (mem s) t virt' id_off.
Proof.
  intros Ha Hi Ht Hl s'. pose proof (levels_lt _ _ Hl). pose proof (vidx_bounds virt l) as Hb.
  assert (levels !! length (vpath virt k) = Some l) as Hl' by (rewrite vpath_length by lia; done).
  pose proof (leaf_entry_is_leaf l phys attr Ha) as Hleaf.
  assert (agree T (vpath virt (S k)) (mem s) (mem s')) as Hag.
  { intros t2 π2 j H2 Hj Hn. unfold s'. cbn [mem]. rewrite word_insert, decide_False; [done|].
    intros [-> ->]%entry_addr_inj; try done; try by eapply ti_addr.
    rewrite Ht in H2. injection H2 as <-. apply Hn. by rewrite <- vpath_succ. }
  split; [by apply (write_leaf_inv s T t (vpath virt k) _ _ l); auto using leaf_has_table|].
  split; [by apply (agree_step T virt k l (mem s) (mem s') (mem s'))|].
  intros virt' Hv. destruct (decide (vidx virt' l = vidx virt l)) as [E|E].
  - rewrite decide_True by (by rewrite !(vpath_succ _ k l), Hv, E by done).
    rewrite (get_page_unfold k l) by done. unfold s'. cbn [mem]. rewrite E, word_insert, decide_True by done.
    cbv zeta. rewrite Hleaf. unfold leaf_value. by destruct (entry_get _ l).
  - rewrite decide_False by (rewrite !(vpath_succ _ k l), Hv by done; by intros [_ [=]]%app_inj_2).
    by apply (walk_diverge s T k l t virt virt').
Qed.

Lemma new_page_loop_ok virt phys attr level n d : ∀ k s T t,
  levels !! n = Some level → plain_attr attr → (k + d = n)%nat → tinv s T → T !! t = Some (vpath virt k) →
  ∃ r s' T', new_page_loop (drop k levels) t virt phys attr level id_off s = (r, s') ∧ tinv s' T' ∧
    T ⊆ T' ∧ agree_tables T (vpath virt k) (mem s) (mem s') ∧
    match r with
    | Ok _ => ∀ virt', vpath virt' k = vpath virt k →
        get_page_loop (drop k levels) (mem s') t virt' id_off =
          if decide (vpath virt' (S n) = vpath virt (S n)) then Ok (leaf_value phys attr level virt')
          else get_page_loop (drop k levels) (mem s) t virt' id_off
    | Err e => stopped s s' e virt k t ∧ ∀ virt', vpath virt' k = vpath virt k →
        get_page_loop (drop k levels) (mem s') t virt' id_off =
        get_page_loop (drop k levels) (mem s) t virt' id_off
    | Panic => False
    end.
Proof.
  induction d as [|d IH]; intros k s T t Hn Hattr Hk Hi Ht.
  - assert (k = n) as -> by lia. rewrite (levels_drop n level Hn). cbn [new_page_loop].
    rewrite bool_decide_true by done. fold (vidx virt level).
    run (eq_refl (read_word (entry_addr t (vidx virt level)) s)). rewrite <- (levels_drop n level Hn).
    destruct (is_leaf _ level) eqn:Hleaf.
    + exists (Err (EntryExistent true)), s, T. split_and!; try done. right. split; [done|].
      by apply (walk_leaf n level).
    + destruct (new_leaf_ok s T n virt phys attr level t) as (Hi' & Hag & Hw); try done.
      eexists (Ok ()), _, T. split; [done|]. by split_and!.
  - assert (∃ l, levels !! k = Some l) as [l Hl].
    { destruct (levels !! k) eqn:E; [eauto|]. apply lookup_ge_None in E. apply levels_lt in Hn. simpl in E. lia. }
    assert (l ≠ level) by (intros ->; pose proof (levels_inj _ _ _ Hl Hn); lia).
    assert (l ≠ Pt).
    { intros ->. assert (k = 3)%nat by (by apply (levels_inj k 3 Pt)). apply levels_lt in Hn. lia. }
    rewrite (levels_drop k l Hl). cbn [new_page_loop]. rewrite bool_decide_false by done.
    rewrite <- (levels_drop k l Hl). fold (vidx virt l).
    destruct (create_table_ok s T k virt t l) as (r & s1 & T1 & Hrun & Hi1 & Hsub & Hag & Hr); try done.
    destruct r as [t'|e|]; [| |done].
    2: { exists (Err e), s1, T1. erewrite st_bind_err by done. destruct Hr as [Hm Hst].
         split_and!; try done; rewrite Hm; done. }
    destruct Hr as (Ht' & Hg & Hw). run Hrun.
    destruct (IH (S k) s1 T1 t') as (r & s2 & T2 & Hrun2 & Hi2 & Hsub2 & Hag2 & Hr2); try done; [lia|].
    destruct (agree_step T virt k l (mem s) (mem s1) (mem s2) Hl Hag) as [Hag' Hagt].
    { intros t2 π2 i H2. apply Hag2. by eapply lookup_weaken. }
    assert (word (mem s2) (entry_addr t (vidx virt l)) = word (mem s1) (entry_addr t (vidx virt l))) as Hitem.
    { apply (Hag2 t (vpath virt k)); [by eapply lookup_weaken|apply vidx_bounds|].
      intros Hp%prefix_length. pose proof (levels_lt _ _ Hl). rewrite !vpath_length in Hp by lia. lia. }
    exists r, s2, T2. split_and!; try done; [by etrans|].
    assert (∀ virt', vpath virt' k = vpath virt k → vidx virt' l = vidx virt l →
      vpath virt' (S k) = vpath virt (S k) ∧
      get_page_loop (drop k levels) (mem s2) t virt' id_off =
        get_page_loop (drop (S k) levels) (mem s2) t' virt' id_off) as Hin.
    { intros virt' Hv E. rewrite !(vpath_succ _ k l), Hv, E by done. split; [done|].
      apply (walk_table k l); [done|]. by rewrite E, Hitem. }
    destruct r as [[]|e|]; [| |done].
    + intros virt' Hv. destruct (decide (vidx virt' l = vidx virt l)) as [E|E].
      * destruct (Hin virt' Hv E) as [Hv' ->]. rewrite Hr2 by done. by rewrite Hw.
      * rewrite decide_False; [by apply (walk_diverge s T k l t virt virt')|].
        intros Hp%(vpath_le (S k) (S n)); [|lia]. rewrite !(vpath_succ _ k l) in Hp by done.
        by apply app_inj_2 in Hp as [_ [= ?]].
    + destruct Hr2 as [Hst Hr2]. split.
      * destruct Hst as [?|[-> Hok]]; [by left|]. right. by rewrite <- Hw.
      * intros virt' Hv. destruct (decide (vidx virt' l = vidx virt l)) as [E|E].
        -- destruct (Hin virt' Hv E) as [Hv' ->]. rewrite Hr2 by done. by rewrite Hw.
        -- by apply (walk_diverge s T k l t virt virt').
Qed.
End walk.
