(* ===== verification/PagingSpec.v ===== *)
(** * What the page tables promise: mapping and querying ranges *)

From S2P Require Import Base Bits Buddy Paging PagingFacts PagingWalk.
Local Open Scope Z_scope.

(** ** Levels that fit *)

Lemma page_size_pos l : 0 < page_size l.
Proof. apply pow2_pos. pose proof (page_bits_bounds l). lia. Qed.

Lemma land_page_size val l : Z.land val (page_size l - 1) = val mod page_size l.
Proof. apply land_ones_mod. pose proof (page_bits_bounds l). lia. Qed.

Lemma fit_ok val : val mod PAGE_SIZE = 0 → ∃ l, fit val = Some l ∧ val mod page_size l = 0.
Proof.
  intros Hv. unfold fit. rewrite !land_page_size.
  destruct (Z.eqb_spec (val mod page_size Pdp) 0) as [E|_]; [by eexists|].
  destruct (Z.eqb_spec (val mod page_size Pd) 0) as [E|_]; [by eexists|].
  change (page_size Pt) with PAGE_SIZE. rewrite Hv. by exists Pt.
Qed.

Lemma page_size_mono a b v : level_idx a ≤ level_idx b → v mod page_size b = 0 → v mod page_size a = 0.
Proof.
  intros Hab Hv. pose proof (page_size_pos a). pose proof (page_size_pos b).
  apply Z.mod_divide in Hv as [k ->]; [|lia].
  assert (page_size b = page_size a * 2 ^ ((level_idx b - level_idx a) * 9)) as ->.
  { unfold page_size. rewrite <- Z.pow_add_r by (pose proof (page_bits_bounds a); lia).
    f_equal. unfold page_bits. change NR_ENTRIES_SHIFT with 9. lia. }
  rewrite Z.mul_comm, <- Z.mul_assoc, Z.mul_comm. apply Z_mod_mult.
Qed.

Lemma level_min_le a b : level_idx (level_min a b) ≤ level_idx a ∧ level_idx (level_min a b) ≤ level_idx b.
Proof. unfold level_min. destruct (Z.leb_spec (level_idx a) (level_idx b)); lia. Qed.

Lemma fit_all_ok `{P : Profile} {E} vstart vend phys :
  0 ≤ vstart ≤ vend → vend < 2 ^ 64 →
  vstart mod PAGE_SIZE = 0 → vend mod PAGE_SIZE = 0 → phys mod PAGE_SIZE = 0 →
  ∃ l, fit_all (E:=E) vstart vend phys = Ok l ∧ vstart mod page_size l = 0 ∧
    (vend - vstart) mod page_size l = 0 ∧ phys mod page_size l = 0.
Proof.
  intros Hv Hw Hs He Hp. unfold fit_all.
  destruct (fit_ok vstart Hs) as (a & -> & Ha).
  destruct (fit_ok (vend - vstart)) as (b & Hb & Hb').
  { rewrite Zminus_mod, Hs, He. done. }
  destruct (fit_ok phys Hp) as (c & -> & Hc).
  exists (level_min (level_min a b) c). rewrite usub_ok by lia. cbn. rewrite Hb. cbn.
  pose proof (level_min_le a b). pose proof (level_min_le (level_min a b) c).
  split; [done|]. split_and!; [apply page_size_mono with a|apply page_size_mono with b|apply page_size_mono with c];
    done || lia.
Qed.

(** ** Pages as intervals of addresses *)

Lemma div_page v a : 0 ≤ a → v / 2 ^ a = 512 * (v / 2 ^ (a + 9)) + (v / 2 ^ a) mod 512.
Proof.
  intros Ha. rewrite Z.pow_add_r, <- Z.div_div by (pose proof (pow2_pos a); lia).
  change (2 ^ 9) with 512. apply Z.div_mod. lia.
Qed.

Lemma vpath_page virt virt' n l :
  levels !! n = Some l → 0 ≤ virt < 2 ^ 48 → 0 ≤ virt' < 2 ^ 48 →
  vpath virt' (S n) = vpath virt (S n) ↔ virt' / page_size l = virt / page_size l.
Proof.
  intros Hn Hv Hv'.
  assert (∀ v, 0 ≤ v < 2 ^ 48 → (v / 2 ^ 39) mod 512 = v / 2 ^ 39) as Htop.
  { intros v ?. apply Z.mod_small. split; [apply Z.div_pos; lia|]. apply Z.div_lt_upper_bound; lia. }
  pose proof (Htop virt Hv). pose proof (Htop virt' Hv').
  pose proof (div_page virt 12 ltac:(lia)). pose proof (div_page virt 21 ltac:(lia)).
  pose proof (div_page virt 30 ltac:(lia)). pose proof (div_page virt' 12 ltac:(lia)).
  pose proof (div_page virt' 21 ltac:(lia)). pose proof (div_page virt' 30 ltac:(lia)).
  change (12 + 9) with 21 in *. change (21 + 9) with 30 in *. change (30 + 9) with 39 in *.
  assert (∀ v, vpath v 4 = [v / 2 ^ 39 mod 512; v / 2 ^ 30 mod 512; v / 2 ^ 21 mod 512; v / 2 ^ 12 mod 512]) as Hp.
  { intros v. unfold vpath, levels. cbn [fmap list_fmap take]. by rewrite !vidx_eq. }
  assert (∀ v k, (k ≤ 4)%nat → vpath v k = take k (vpath v 4)) as Hk.
  { intros v k ?. unfold vpath. rewrite take_take. f_equal. lia. }
  pose proof (levels_lt _ _ Hn). rewrite !(Hk _ (S n)), !Hp by lia.
  clear Hp Hk Htop Hv Hv'. destruct n as [|[|[|[|n]]]]; cbn in Hn; [injection Hn as <-..|done];
    [change (page_size P4) with (2 ^ 39)|change (page_size Pdp) with (2 ^ 30)
    |change (page_size Pd) with (2 ^ 21)|change (page_size Pt) with (2 ^ 12)]; cbn [take];
    generalize dependent (virt / 2 ^ 39); generalize dependent (virt / 2 ^ 30);
    generalize dependent (virt / 2 ^ 21); generalize dependent (virt / 2 ^ 12);
    generalize dependent (virt' / 2 ^ 39); generalize dependent (virt' / 2 ^ 30);
    generalize dependent (virt' / 2 ^ 21); generalize dependent (virt' / 2 ^ 12); intros;
    (split; [intros [= ]; lia|intros; repeat f_equal; Z.div_mod_to_equations; lia]).
Qed.

Lemma page_interval virt virt' ps : 0 < ps → virt mod ps = 0 →
  virt' / ps = virt / ps ↔ virt ≤ virt' < virt + ps.
Proof.
  intros Hps Ha. apply Z.mod_divide in Ha as [k ->]; [|lia]. rewrite Z.div_mul by lia. split.
  - intros <-. pose proof (Z.mul_div_le virt' ps Hps). pose proof (Z.mul_succ_div_gt virt' ps Hps). lia.
  - intros H. symmetry. apply Z.div_unique with (virt' - k * ps); lia.
Qed.

(** ** Attributes *)

(** The attributes of a mapped page, up to the bits that its level decides. *)
Definition attr_matches (a attr : Z) : Prop :=
  ∀ i, 0 ≤ i → i ≠ 7 → i ≠ 12 → Z.testbit a i = Z.testbit (Z.lor attr Attr.PRESENT) i.

Lemma leaf_value_ok phys attr l virt :
  plain_attr attr → 0 ≤ phys < 2 ^ 48 → phys mod page_size l = 0 → 0 ≤ virt < 2 ^ 48 →
  ∃ a, leaf_value phys attr l virt = (phys + virt mod page_size l, a) ∧ attr_matches a attr.
Proof.
  intros Ha Hp Hal Hv. unfold leaf_value. rewrite leaf_entry_get, page_offset, lor_page_offset by done.
  eexists. split; [done|]. intros i Hi H7 H12. rewrite leaf_attr_plain, !Z.lor_spec by done.
  change Attr.PRESENT with (2 ^ 0). change Attr.LARGE_PAT with (2 ^ 12).
  assert (Z.testbit (if bool_decide (l = Pt) then 0 else 2 ^ 7) i = false) as ->.
  { case_bool_decide; [apply Z.testbit_0_l|apply Z.pow2_bits_false; lia]. }
  assert (Z.testbit (if bool_decide (l = Pt) then Z.land phys (2 ^ 12) else 0) i = false) as ->.
  { case_bool_decide; [|apply Z.testbit_0_l]. by rewrite Z.land_spec, Z.pow2_bits_false, andb_false_r by lia. }
  by rewrite !orb_false_r.
Qed.

(** ** Ranges *)

Section maps.
Context `{P : Profile} {A : Type} `{PA : PageAlloc A} `{!PageAllocLaws A}.
Variables (id_off root : Z).
Implicit Types (s : machine A) (T : gmap Z (list Z)).

(** [v] is translated to [phys] with the attributes [attr]. *)
Definition mapped s (v phys attr : Z) : Prop :=
  ∃ a, query (mem s) root v id_off = Ok (phys, a) ∧ attr_matches a attr.

Lemma new_page_ok s T virt phys attr level :
  tinv id_off root s T → plain_attr attr → 0 ≤ virt < 2 ^ 48 → virt mod page_size level = 0 →
  0 ≤ phys < 2 ^ 48 → phys mod page_size level = 0 →
  ∃ r s' T', new_page root virt phys attr level id_off s = (r, s') ∧ tinv id_off root s' T' ∧
    match r with
    | Ok _ => ∀ v, 0 ≤ v < 2 ^ 48 →
        if decide (virt ≤ v < virt + page_size level) then mapped s' v (phys + (v - virt)) attr
        else query (mem s') root v id_off = query (mem s) root v id_off
    | Err e => stopped id_off s s' e virt 0 root ∧
        ∀ v, query (mem s') root v id_off = query (mem s) root v id_off
    | Panic => False
    end.
Proof.
  intros Hi Ha Hv Hal Hp Hpal.
  assert (∃ n, levels !! n = Some level) as [n Hn].
  { destruct level; [by exists 0%nat|by exists 1%nat|by exists 2%nat|by exists 3%nat]. }
  destruct (new_page_loop_ok id_off root virt phys attr level n n 0 s T root) as (r & s' & T' & Hrun & Hi' & _ & _ & Hr);
    try done; [apply Hi|].
  exists r, s', T'. split; [done|]. split; [done|]. destruct r as [[]|e|]; [| |done].
  - intros v Hvv. specialize (Hr v eq_refl). pose proof (vpath_page virt v n level Hn Hv Hvv) as Hpage.
    rewrite page_interval in Hpage by (done || apply page_size_pos).
    destruct (decide (virt ≤ v < virt + page_size level)) as [Hin|Hout].
    + rewrite decide_True in Hr by (by apply Hpage).
      destruct (leaf_value_ok phys attr level v Ha Hp Hpal Hvv) as (a & Hval & Hm).
      exists a. split; [|done]. rewrite Hval in Hr. etrans; [exact Hr|].
      apply Z.mod_divide in Hal as [q ->]; [|pose proof (page_size_pos level); lia].
      repeat f_equal. symmetry. apply Z.mod_unique with q; lia.
    + rewrite decide_False in Hr by (by rewrite Hpage). exact Hr.
  - destruct Hr as [Hst Hr]. split; [done|]. intros v. apply (Hr v eq_refl).
Qed.

Lemma aligned_fits len ps : 0 < ps → 0 < len → len mod ps = 0 → ps ≤ len.
Proof. intros Hps Hl Hm. apply Z.mod_divide in Hm as [k ->]; [|lia]. assert (0 < k) by nia. nia. Qed.

Lemma page_size_aligned l : page_size l mod PAGE_SIZE = 0.
Proof. by destruct l. Qed.

(** The range [[vstart, rem)] has been mapped from [phys] on, and nothing else changed. *)
Definition mapped_range s s' (vstart rem phys attr : Z) : Prop :=
  ∀ v, 0 ≤ v < 2 ^ 48 →
    if decide (vstart ≤ v < rem) then mapped s' v (phys + (v - vstart)) attr
    else query (mem s') root v id_off = query (mem s) root v id_off.

(** Why mapping stopped at [rem]: no page is left for a table, or [rem] was mapped. *)
Definition map_error s s' (rem : Z) (e : Error) : Prop :=
  (e = OutOfMemory ∧ ∀ p, ¬ pa_owns (pages s') p) ∨
  (e = EntryExistent true ∧ is_ok (query (mem s) root rem id_off) = true).

Definition range_aligned (vstart vend phys : Z) : Prop :=
  0 ≤ vstart ≤ vend ∧ vend ≤ 2 ^ 48 ∧ vstart mod PAGE_SIZE = 0 ∧ vend mod PAGE_SIZE = 0 ∧
  0 ≤ phys ∧ phys + (vend - vstart) ≤ 2 ^ 48 ∧ phys mod PAGE_SIZE = 0.

Lemma mapped_range_step s s1 s' vstart mid rem phys attr :
  vstart ≤ mid ≤ rem → mapped_range s s1 vstart mid phys attr →
  mapped_range s1 s' mid rem (phys + (mid - vstart)) attr → mapped_range s s' vstart rem phys attr.
Proof.
  intros Hm H1 H2 v Hv. specialize (H1 v Hv). specialize (H2 v Hv).
  destruct (decide (mid ≤ v < rem)).
  - rewrite decide_True by lia. by replace (phys + (v - vstart)) with (phys + (mid - vstart) + (v - mid)) by lia.
  - destruct (decide (vstart ≤ v < mid)).
    + rewrite decide_True by lia. unfold mapped. by rewrite H2.
    + rewrite decide_False by lia. by rewrite H2.
Qed.

Lemma maps_loop_ok fuel attr : ∀ vstart vend phys s T,
  vend - vstart ≤ Z.of_nat fuel * PAGE_SIZE → range_aligned vstart vend phys →
  plain_attr attr → tinv id_off root s T →
  ∃ ret rem s' T', maps_loop fuel root vstart vend phys attr id_off s = (Ok (ret, rem), s') ∧
    tinv id_off root s' T' ∧ vstart ≤ rem ≤ vend ∧ mapped_range s s' vstart rem phys attr ∧
    match ret with
    | inr _ => rem = vend
    | inl e => rem < vend ∧ map_error s s' rem e
    end.
Proof.
  induction fuel as [|fuel IH]; intros vstart vend phys s T Hf Hr Ha Hi.
  { exists (inr ()), vstart, s, T. destruct Hr as ([? ?] & _). split_and!; try done; try lia.
    intros v Hv. rewrite decide_False by lia. done. }
  pose proof Hr as ([Hs0 Hse] & He & Hsa & Hea & Hp0 & Hpe & Hpa).
  cbn [maps_loop]. destruct (Z.ltb_spec vstart vend) as [Hlt|Hge].
  2: { exists (inr ()), vstart, s, T. split_and!; try done; try lia.
       intros v Hv. rewrite decide_False by lia. done. }
  destruct (fit_all_ok (E:=Error) vstart vend phys) as (l & Hfit & Hls & Hll & Hlp); try done; [lia|].
  run Hfit. pose proof (page_size_pos l) as Hps. pose proof (page_size_aligned l) as Hpsa.
  pose proof (aligned_fits (vend - vstart) (page_size l) Hps ltac:(lia) Hll) as Hfits.
  assert (PAGE_SIZE ≤ page_size l) as Hpg by (by destruct l).
  destruct (new_page_ok s T vstart phys attr l) as (r & s1 & T1 & Hrun & Hi1 & Hr1); try done; try lia.
  unfold attempt. unfold mbind at 1, st_bind at 1. rewrite Hrun. destruct r as [[]|e|]; [| |done].
  - run (uadd_ok W phys (page_size l)).
    unfold laddr_advance. rewrite wrap_small by lia.
    destruct (IH (vstart + page_size l) vend (phys + page_size l) s1 T1)
      as (ret & rem & s' & T' & Hrun' & Hi' & Hrem & Hmr & Hret); try done.
    { change PAGE_SIZE with 4096 in *. lia. }
    { split_and!; try lia; rewrite Z.add_mod, Hpsa, ?Hsa, ?Hpa; done. }
    exists ret, rem, s', T'. split; [done|]. split; [done|]. split; [lia|].
    assert (mapped_range s s1 vstart (vstart + page_size l) phys attr) as Hmr1 by exact Hr1.
    split.
    + apply (mapped_range_step s s1 s' vstart (vstart + page_size l)); try done; [lia|].
      by replace (vstart + page_size l - vstart) with (page_size l) by lia.
    + destruct ret as [e|]; [|done]. destruct Hret as [Hlt' [?|[-> Hq]]]; (split; [done|]); [by left|].
      right. split; [done|]. specialize (Hmr1 rem ltac:(lia)). rewrite decide_False in Hmr1 by lia.
      by rewrite <- Hmr1.
  - exists (inl e), vstart, s1, T1. destruct Hr1 as [Hst Hq]. split_and!; try done; try lia.
    intros v Hv. rewrite decide_False by lia. apply Hq.
Qed.
End maps.

(** An allocator of table pages: a set of free frames. *)
#[export] Instance PageAlloc_gset : PageAlloc (gset Z) := {
  pa_allocate X := match elements X with [] => (None, X) | p :: _ => (Some p, X ∖ {[p]}) end;
  pa_deallocate p X := {[p]} ∪ X;
}.

#[export] Program Instance PageAllocLaws_gset : PageAllocLaws (gset Z) := { pa_owns X p := p ∈ X }.
Next Obligation.
  intros X p X' H. cbn in H. destruct (elements X) as [|q l] eqn:E; [done|].
  injection H as <- <-. split; [apply elem_of_elements; rewrite E; left|set_solver].
Qed.
Next Obligation.
  intros X X' H. cbn in H. destruct (elements X) as [|q l] eqn:E; [|done].
  injection H as <-. split; [done|]. intros p Hp%elem_of_elements. rewrite E in Hp. by apply not_elem_of_nil in Hp.
Qed.
Next Obligation. intros. cbn. set_solver. Qed.

(** ** Theorems *)

Section theorems.
Context `{P : Profile} {A : Type} `{PA : PageAlloc A} `{!PageAllocLaws A}.

(** [maps] succeeds on the whole range, or stops at [rem] and undoes what it did. *)
(** What [maps] does once the loop has stopped at [rem] with the error [e]: take
    the pages before [rem] out again, whatever comes of that, and report [e]. *)
Definition roll_back (root vstart rem id_off : Z) (e : Error) : st (machine A) Error () :=
  _ ← (if vstart <? rem then _ ← attempt (unmaps root vstart rem id_off); mret () else mret ());
  lift (Err e).

Lemma roll_back_fails root vstart rem id_off e s : is_ok (fst (roll_back root vstart rem id_off e s)) = false.
Proof.
  unfold roll_back, attempt. destruct (vstart <? rem); cbn; [|done].
  unfold mbind, st_bind. by destruct (unmaps _ _ _ _ _) as [[]].
Qed.

Lemma maps_run (id_off root vstart vend phys attr : Z) (s : machine A) T :
  tinv id_off root s T → plain_attr attr → range_aligned vstart vend phys → vstart < vend →
  let info := {| mi_virt := (vstart, vend); mi_phys := phys; mi_attr := attr; mi_id_off := id_off |} in
  ∃ ret rem s1 T1, tinv id_off root s1 T1 ∧ mapped_range id_off root s s1 vstart rem phys attr ∧
    match ret with
    | inr () => rem = vend ∧ maps root info s = (Ok (), s1)
    | inl e => vstart ≤ rem < vend ∧ map_error id_off root s s1 rem e ∧
        maps root info s = roll_back root vstart rem id_off e s1
    end.
Proof.
  intros Hi Ha Hr Hlt info. pose proof Hr as ([Hs0 Hse] & He & Hsa & Hea & Hp0 & Hpe & Hpa).
  assert (check vstart vend (Some phys) = Ok ()) as Hc.
  { unfold check, misaligned. cbn [mbind option_bind].
    change PAGE_MASK with (page_size Pt - 1). rewrite !land_page_size.
    change (page_size Pt) with PAGE_SIZE. rewrite Hsa, Hea, Hpa. cbn.
    by rewrite (proj2 (Z.leb_gt vend vstart)) by lia. }
  destruct (maps_loop_ok id_off root (page_fuel vstart vend) attr vstart vend phys s T)
    as (ret & rem & s' & T' & Hrun & Hi' & Hrem & Hmr & Hret); try done.
  { unfold page_fuel. change PAGE_SIZE with 4096 in *. rewrite Z2Nat.id by (apply Z.div_pos; lia).
    apply Z.mod_divide in Hsa as [a ->]; [|lia]. apply Z.mod_divide in Hea as [b ->]; [|lia].
    replace (b * 4096 - a * 4096) with ((b - a) * 4096) by lia. rewrite Z.div_mul by lia. lia. }
  unfold maps. cbn [mi_virt mi_phys mi_attr mi_id_off info]. rewrite Hc.
  rewrite !(st_lift_ok (Ok ()) _ s ()) by done.
  rewrite !(st_bind_ok _ _ _ _ _ Hrun). exists ret, rem, s', T'. split; [done|]. split; [done|].
  destruct ret as [e|[]]; [|by subst rem]. destruct Hret as [Hlt' Herr]. split_and!; try done; lia.
Qed.


(** An entry written for a page is read back as a leaf with the same frame
    and attributes (at 4 KiB, bit 12 of the frame also shows up as [LARGE_PAT]),
    and an entry written for a table leads to the table at its identity-mapped
    address, at every level. *)
Theorem entry_roundtrip (l : Level) (phys attr id_off : Z) :
  plain_attr attr → 0 ≤ phys < 2 ^ 48 → phys mod page_size l = 0 → 0 < phys + id_off < 2 ^ 64 →
  let e := entry_new phys (leaf_attr l attr) l in
  entry_get e l =
    (phys, Z.lor (leaf_attr l attr) (if bool_decide (l = Pt) then Z.land phys Attr.LARGE_PAT else 0)) ∧
  is_leaf e l = true ∧ get_table (E:=Error) e id_off l = Ok None ∧
  (l ≠ Pt → let t := entry_new phys Attr.INTERMEDIATE Pt in
     is_leaf t l = false ∧ get_table (E:=Error) t id_off l = Ok (Some (phys + id_off))).
Proof.
  intros Ha Hp Hal Ht e. pose proof (leaf_entry_is_leaf l phys attr Ha) as Hleaf.
  assert (phys mod PAGE_SIZE = 0) as Hal'.
  { change PAGE_SIZE with (page_size Pt). apply page_size_mono with l; [by destruct l|done]. }
  split_and!; [by apply leaf_entry_get|done| |].
  - unfold e. by rewrite get_table_bits, (leaf_has_table _ _ Hleaf).
  - intros Hl t. split; [|by apply get_table_new].
    apply has_table_leaf. by apply table_entry.
Qed.

(** [query] of an address of the upper half returns the sixteen canonical
    bits of the virtual address as part of the physical address. *)
Theorem query_upper_half (m : gmap Z Z) (root virt id_off phys attr : Z) :
  2 ^ 64 - 2 ^ 48 ≤ virt < 2 ^ 64 → query m root virt id_off = Ok (phys, attr) →
  Z.land phys CANONICAL_PREFIX = CANONICAL_PREFIX.
Proof.
  intros Hv. assert (∀ i, 48 ≤ i < 64 → Z.testbit virt i = true) as Hbits.
  { intros i Hi. replace virt with (virt mod 2 ^ 48 + 65535 * 2 ^ 48).
    - rewrite <- (Z.sub_add 48 i) at 1. rewrite <- Z.div_pow2_bits by lia.
      rewrite Z.div_add, Z.div_small by (pose proof (Z.mod_pos_bound virt (2 ^ 48)); lia).
      apply (Z.ones_spec_low 16). lia.
    - pose proof (Z.div_mod virt (2 ^ 48) ltac:(lia)).
      enough (virt / 2 ^ 48 = 65535) by lia. symmetry.
      apply Z.div_unique with (virt - 65535 * 2 ^ 48); lia. }
  unfold query, get_page. generalize levels root. intros lvls. induction lvls as [|l lvls IH]; intros t; [done|].
  cbn [get_page_loop]. destruct (is_leaf _ l).
  - intros [= <- _]. apply Z.bits_inj'. intros i Hi.
    change CANONICAL_PREFIX with (2 ^ 64 - 2 ^ 48).
    rewrite Z.land_spec, Z.lor_spec, !Z.land_spec, Z.lxor_spec, addr_mask_bit, testbit_mask by lia.
    change (2 ^ 64 - 1) with (2 ^ 64 - 2 ^ 0). rewrite testbit_mask by lia.
    destruct (Z.leb_spec 48 i), (Z.ltb_spec i 64); cbn [andb]; try apply andb_false_r.
    rewrite Hbits, (proj2 (Z.ltb_ge i 48)), (proj2 (Z.leb_le 0 i)) by lia.
    by rewrite !andb_false_r, orb_true_r.
  - destruct (get_table _ id_off l) as [[t'|]| |]; try done. apply IH.
Qed.
End theorems.

(** ** A concrete machine, and behaviours at the boundary of the interface *)

Module Concrete.
Definition id_off : Z := 0xFFFF800000000000.
Definition root : Z := id_off + 0x1000.
Definition s0 : machine (gset Z) :=
  Machine ∅ (list_to_set ((λ i, 0x100000 + i * PAGE_SIZE) <$> seqZ 0 8)).
Definition map_info (vstart vend phys : Z) : MapInfo :=
  {| mi_virt := (vstart, vend); mi_phys := phys; mi_attr := Attr.USER_RW; mi_id_off := id_off |}.

(** 4 KiB pages for [[0, 2 MiB)], mapped by two calls. *)
Definition small_pages : machine (gset Z) :=
  snd (maps (P:=debug_profile) root (map_info 0x1000 0x200000 0x801000)
    (snd (maps (P:=debug_profile) root (map_info 0 0x1000 0x800000) s0))).

(** One 1 GiB page at 0. *)
Definition huge_page : machine (gset Z) :=
  snd (maps (P:=debug_profile) root (map_info 0 0x40000000 0x40000000) s0).

Definition query_phys (s : machine (gset Z)) (v : Z) : res Error Z :=
  '(p, _) ← query (P:=debug_profile) (mem s) root v id_off; Ok p.

(** [unmaps] chooses the page size from the addresses alone: on [[0, 2 MiB)]
    mapped with 4 KiB pages it tries to drop one 2 MiB page, ignores the error,
    and returns [Ok] with every page still mapped. *)
Theorem unmaps_keeps_small_pages :
  let r := unmaps (P:=debug_profile) root 0 0x200000 id_off small_pages in
  fst r = Ok () ∧
  map (query_phys small_pages) [0; 0x1000; 0x1FF000] = [Ok 0x800000; Ok 0x801000; Ok 0x9FF000] ∧
  map (query_phys (snd r)) [0; 0x1000; 0x1FF000] = [Ok 0x800000; Ok 0x801000; Ok 0x9FF000].
Proof. vm_compute. auto. Qed.

(** Splitting a 1 GiB page down to 4 KiB moves the translation: the flag
    [LARGE_PAGE] of the entry is taken for [PAT] and becomes [LARGE_PAT], which
    is bit 12 of the frame when the 2 MiB entry is split again. Here changing the
    protection of the first 4 KiB shifts the whole first 2 MiB by a page. *)
Theorem split_moves_pages :
  let r := reprotect (P:=debug_profile) root
    {| ri_virt := (0, 0x1000); ri_attr := Attr.USER_R; ri_id_off := id_off |} huge_page in
  fst r = Ok () ∧
  map (query_phys huge_page) [0; 0x1000; 0x200000] = [Ok 0x40000000; Ok 0x40001000; Ok 0x40200000] ∧
  map (query_phys (snd r)) [0; 0x1000; 0x200000] = [Ok 0x40001000; Ok 0x40002000; Ok 0x40200000].
Proof. vm_compute. auto. Qed.

Lemma s0_inv : tinv (P:=debug_profile) id_off root s0 {[root := []]}.
Proof.
  split.
  - by rewrite lookup_singleton_eq.
  - intros t π [<- _]%lookup_singleton_Some. done.
  - intros t π i lvl _ _ _.
    assert (word (mem s0) (entry_addr t i) = 0) as ->
      by (unfold word; cbn [mem s0]; by rewrite lookup_empty).
    by destruct (zero_entry lvl) as [_ ->].
  - intros p Hp. change (p ∈ pages s0) in Hp. unfold s0 in Hp. cbn [pages] in Hp.
    apply elem_of_list_to_set, list_elem_of_fmap in Hp as (i & -> & Hi%elem_of_seqZ).
    unfold frame_ok, root, id_off. change PAGE_SIZE with 4096. split_and!; try lia.
    + replace (1048576 + i * 4096) with ((256 + i) * 4096) by lia. apply Z_mod_mult.
    + replace (1048576 + i * 4096 + 18446603336221196288) with ((4503565267632384 + i) * 4096) by lia.
      apply Z_mod_mult.
    + rewrite lookup_singleton_ne; [done|]. lia.
Qed.

Lemma user_rw_plain : plain_attr Attr.USER_RW.
Proof.
  intros i Hi H. left. destruct (decide (i < 3)) as [|Hge]; [lia|].
  change Attr.USER_RW with 7 in H. by rewrite (testbit_high 3 7 i) in H by lia.
Qed.

(** The third of four pages is mapped: the range is mapped up to it and taken out again. *)
Example maps_fails_midway :
  let s := snd (maps (P:=debug_profile) root (map_info 0x3000 0x4000 0x9000) s0) in
  let r := maps (P:=debug_profile) root (map_info 0x1000 0x5000 0x5000) s in
  fst r = Err (EntryExistent true) ∧
  map (query_phys (snd r)) [0x1000; 0x2000; 0x3000; 0x4000] = map (query_phys s) [0x1000; 0x2000; 0x3000; 0x4000].
Proof. vm_compute. auto. Qed.


Lemma entry_roundtrip_witness :
  entry_get (entry_new 0x40200000 (leaf_attr Pd Attr.USER_RW) Pd) Pd =
    (0x40200000, Z.lor (leaf_attr Pd Attr.USER_RW) 0).
Proof.
  apply (entry_roundtrip (P:=debug_profile) Pd 0x40200000 Attr.USER_RW id_off).
  - apply user_rw_plain.
  - done.
  - done.
  - done.
Defined.

(** A page of the upper half at frame 0x5000. *)
Definition upper : machine (gset Z) :=
  snd (maps (P:=debug_profile) root (map_info 0xFFFF800000400000 0xFFFF800000401000 0x5000) s0).

Lemma query_upper_half_witness :
  query (P:=debug_profile) (mem upper) root 0xFFFF800000400000 id_off = Ok (0xFFFF000000005000, 0x1007) ∧
  Z.land 0xFFFF000000005000 CANONICAL_PREFIX = CANONICAL_PREFIX.
Proof.
  assert (query (P:=debug_profile) (mem upper) root 0xFFFF800000400000 id_off = Ok (0xFFFF000000005000, 0x1007))
    as H by (vm_compute; reflexivity).
  split; [exact H|].
  apply (query_upper_half (P:=debug_profile) (mem upper) root 0xFFFF800000400000 id_off 0xFFFF000000005000 0x1007);
    [clear H; lia|exact H].
Defined.
End Concrete.
