(* ===== verification/RangeMap.v ===== *)
(** * Maps from ranges ([collection_ex::range_map]) and hardware resources
    ([kernel/src/dev/res.rs])

    What is used of [BTreeMap] comes first, as lists sorted by their keys. A range is a pair
    of its bounds. The keys are unsigned integers of width [w]
    (the kernel instantiates them with [u8], [u16], [u32] and [usize]). A closure
    argument is a function. *)

From Stdlib Require Import Sorted.
From S2P Require Import Base.
Local Open Scope Z_scope.

(** ** [alloc::collections::BTreeMap] with integer keys

    An ordered map as the list of its bindings by strictly increasing key: the
    methods the kernel uses, and their laws. *)

Abbreviation btree V := (list (Z * V)%type).

Definition key_lt {V} (a b : Z * V) : Prop := fst a < fst b.
Definition bt_sorted {V} (m : btree V) : Prop := StronglySorted key_lt m.

Section ops.
Context {V : Type}.
Implicit Types (m : btree V) (k : Z) (v : V).

Definition bt_empty : btree V := [].

Fixpoint bt_get k m : option V :=
  match m with
  | [] => None
  | (k', v) :: m => if k' =? k then Some v else bt_get k m
  end.

(** [insert]: replaces the value of an existing key. *)
Fixpoint bt_insert k v m : btree V :=
  match m with
  | [] => [(k, v)]
  | (k', v') :: m' =>
      if k <? k' then (k, v) :: m
      else if k =? k' then (k, v) :: m'
      else (k', v') :: bt_insert k v m'
  end.

Fixpoint bt_remove k m : btree V :=
  match m with
  | [] => []
  | (k', v') :: m' => if k' =? k then m' else (k', v') :: bt_remove k m'
  end.

(** The bindings of [range(lo..hi)], in order. *)
Definition bt_range (lo hi : Z) m : btree V :=
  filter (λ b, lo ≤ fst b ∧ fst b < hi) m.

Definition bt_first m : option (Z * V) := head m.
Definition bt_last m : option (Z * V) := last m.
End ops.

(** ** Laws *)

Section laws.
Context {V : Type}.
Implicit Types (m : btree V) (k : Z) (v : V).

Lemma bt_sorted_cons k v m :
  bt_sorted ((k, v) :: m) ↔ bt_sorted m ∧ ∀ k' v', (k', v') ∈ m → k < k'.
Proof.
  split.
  - intros [Hs Hf]%StronglySorted_inv. split; [done|]. intros k' v' Hin.
    rewrite List.Forall_forall in Hf. apply list_elem_of_In in Hin. apply (Hf _ Hin).
  - intros [Hs Hf]. constructor; [done|]. apply List.Forall_forall.
    intros [k' v'] Hin%list_elem_of_In. by apply (Hf k' v').
Qed.

(** A binding is in the list exactly when [bt_get] finds it. *)
Lemma bt_get_elem k v m : bt_sorted m → bt_get k m = Some v ↔ (k, v) ∈ m.
Proof.
  induction m as [|[k' v'] m IH]; intros Hs; cbn [bt_get]; [set_solver|].
  apply bt_sorted_cons in Hs as [Hs Hf]. destruct (Z.eqb_spec k' k) as [->|Hne].
  - rewrite elem_of_cons. split; [naive_solver|]. intros [[= ->]|Hin]; [done|].
    apply Hf in Hin. lia.
  - rewrite IH, elem_of_cons by done. naive_solver.
Qed.

Lemma bt_get_none k m : bt_get k m = None ↔ ∀ v, (k, v) ∉ m.
Proof.
  induction m as [|[k' v'] m IH]; cbn [bt_get]; [set_solver|].
  destruct (Z.eqb_spec k' k) as [->|Hne].
  - split; [done|]. intros H. destruct (H v'). left.
  - rewrite IH. setoid_rewrite not_elem_of_cons. naive_solver.
Qed.

Lemma bt_insert_elem k v k' v' m :
  bt_sorted m → (k', v') ∈ bt_insert k v m ↔ (k' = k ∧ v' = v) ∨ (k' ≠ k ∧ (k', v') ∈ m).
Proof.
  induction m as [|[k0 v0] m IH]; intros Hs; cbn [bt_insert]; [set_solver|].
  apply bt_sorted_cons in Hs as [Hs Hf].
  destruct (Z.ltb_spec k k0); [|destruct (Z.eqb_spec k k0) as [<-|]].
  - rewrite !elem_of_cons. split.
    + intros [[= -> ->]|[[= -> ->]|Hin]]; [by left|right|right]; (split; [|auto]); [lia|].
      apply Hf in Hin. lia.
    + naive_solver.
  - rewrite !elem_of_cons. split.
    + intros [[= -> ->]|Hin]; [by left|right]. split; [|auto]. apply Hf in Hin. lia.
    + intros [[-> ->]|[Hne [[= -> ->]|Hin]]]; [by left|done|by right].
  - rewrite !elem_of_cons, IH by done. naive_solver.
Qed.

Lemma bt_insert_sorted k v m : bt_sorted m → bt_sorted (bt_insert k v m).
Proof.
  induction m as [|[k0 v0] m IH]; intros Hs; cbn [bt_insert].
  { apply bt_sorted_cons. set_solver. }
  pose proof Hs as Hs0. apply bt_sorted_cons in Hs as [Hs Hf].
  destruct (Z.ltb_spec k k0); [|destruct (Z.eqb_spec k k0) as [<-|]].
  - apply bt_sorted_cons. split; [done|]. intros k' v' [[= -> ->]|Hin]%elem_of_cons; [lia|].
    apply Hf in Hin. lia.
  - by apply bt_sorted_cons.
  - apply bt_sorted_cons. split; [by apply IH|]. intros k' v' Hin%bt_insert_elem; [|done].
    destruct Hin as [[-> _]|[_ Hin]]; [lia|by eapply Hf].
Qed.

Lemma bt_remove_elem k k' v' m :
  bt_sorted m → (k', v') ∈ bt_remove k m ↔ k' ≠ k ∧ (k', v') ∈ m.
Proof.
  induction m as [|[k0 v0] m IH]; intros Hs; cbn [bt_remove]; [set_solver|].
  apply bt_sorted_cons in Hs as [Hs Hf]. destruct (Z.eqb_spec k0 k) as [->|].
  - rewrite elem_of_cons. split; [|naive_solver]. intros Hin. split; [|auto]. apply Hf in Hin. lia.
  - rewrite !elem_of_cons, IH by done. naive_solver.
Qed.

Lemma bt_remove_absent k m : bt_get k m = None → bt_remove k m = m.
Proof.
  induction m as [|[k' v'] m IH]; cbn; [done|]. destruct (k' =? k); [done|]. intros. by rewrite IH.
Qed.

Lemma bt_remove_sorted k m : bt_sorted m → bt_sorted (bt_remove k m).
Proof.
  induction m as [|[k0 v0] m IH]; intros Hs; cbn [bt_remove]; [done|].
  apply bt_sorted_cons in Hs as [Hs Hf]. destruct (Z.eqb_spec k0 k) as [->|]; [done|].
  apply bt_sorted_cons. split; [by apply IH|]. intros k' v' [_ Hin]%bt_remove_elem; [|done].
  by eapply Hf.
Qed.

Lemma bt_range_elem lo hi k v m : (k, v) ∈ bt_range lo hi m ↔ lo ≤ k < hi ∧ (k, v) ∈ m.
Proof. unfold bt_range. rewrite list_elem_of_filter. simpl. tauto. Qed.

Lemma bt_filter_sorted (Q : Z * V → Prop) `{∀ b, Decision (Q b)} m :
  bt_sorted m → bt_sorted (filter Q m).
Proof.
  induction m as [|[k v] m IH]; intros Hs; [done|].
  apply bt_sorted_cons in Hs as [Hs Hf]. rewrite filter_cons. destruct (decide _); [|by apply IH].
  apply bt_sorted_cons. split; [by apply IH|]. intros k' v' [_ Hin]%list_elem_of_filter. by eapply Hf.
Qed.

Lemma bt_range_sorted lo hi m : bt_sorted m → bt_sorted (bt_range lo hi m).
Proof. apply bt_filter_sorted. Qed.

(** The last binding has the largest key. *)
Lemma bt_last_spec m b :
  bt_sorted m → bt_last m = Some b → b ∈ m ∧ ∀ k v, (k, v) ∈ m → k ≤ fst b.
Proof.
  unfold bt_last. induction m as [|[k0 v0] m IH]; intros Hs Hl; [done|].
  apply bt_sorted_cons in Hs as [Hs Hf]. destruct m as [|b' m'].
  - injection Hl as <-. split; [left|]. intros k v [[= -> ->]|Hin]%elem_of_cons; [simpl; lia|].
    by apply not_elem_of_nil in Hin.
  - change (last (b' :: m') = Some b) in Hl. destruct (IH Hs Hl) as [Hin Hmax].
    split; [by right|]. intros k v [[= -> ->]|Hin']%elem_of_cons; [|by eapply Hmax].
    destruct b as [kb vb]. apply Z.lt_le_incl. by eapply Hf.
Qed.

Lemma bt_last_none m : bt_last m = None ↔ m = [].
Proof. apply last_None. Qed.
End laws.

#[export] Hint Resolve bt_insert_sorted bt_remove_sorted bt_range_sorted : h2o_maps.

Record range_map (V : Type) := RangeMap { inner : btree ((Z * Z) * V); range : Z * Z }.
Arguments RangeMap {V} _ _.
Arguments inner {V} _.
Arguments range {V} _.

Definition in_range (r : Z * Z) (k : Z) : bool := (fst r <=? k) && (k <? snd r).

(** ** Operations *)

Section ops.
Context `{P : Profile} {V E : Type}.
Variable w : Z.
Implicit Types (m : range_map V).

Definition rm_new (r : Z * Z) : range_map V := RangeMap bt_empty r.

(** The [for] loop of [allocate_with]: the gap found and the last [start]. *)
Fixpoint gap_scan (es : btree ((Z * Z) * V)) (start size : Z) : res E (option (Z * Z) * Z) :=
  match es with
  | [] => Ok (None, start)
  | (_, (r, _)) :: es =>
      d ← usub w (fst r) start;
      if size <=? d then e ← uadd w start size; Ok (Some (start, e), start)
      else gap_scan es (snd r) size
  end.

Definition allocate_with (size : Z) (value : Z * Z → res E V) (no_fit : E) : st (range_map V) E Z :=
  m ← get;
  '(r, start) ← lift (gap_scan (inner m) (fst (range m)) size);
  r ← lift (match r with
            | Some r => Ok (Some r)
            | None =>
                d ← usub w (snd (range m)) start;
                if size <=? d then e ← uadd w start size; Ok (Some (start, e)) else Ok None
            end);
  match r with
  | Some r =>
      v ← lift (value r);
      _ ← put (match bt_get (fst r) (inner m) with
               | None => RangeMap (bt_insert (fst r) (r, v) (inner m)) (range m)
               | Some _ => m
               end);
      mret (fst r)
  | None => lift (Err no_fit)
  end.

Definition try_insert_with {R} (r : Z * Z) (value : res E (V * R)) (exist : E) : st (range_map V) E R :=
  m ← get;
  if (fst (range m) <=? fst r) && (fst r <? snd r) && (snd r <=? snd (range m)) then
    match bt_get (fst r) (inner m) with
    | None =>
        '(v, ret) ← lift value;
        _ ← put (RangeMap (bt_insert (fst r) (r, v) (inner m)) (range m));
        mret ret
    | Some _ => lift (Err exist)
    end
  else lift (Err exist).

Definition rm_get (m : range_map V) (start : Z) : option V := snd <$> bt_get start (inner m).

Definition remove_if (start : Z) (predicate : V → bool) : st (range_map V) E (option ((Z * Z) * V)) :=
  m ← get;
  match bt_get start (inner m) with
  | Some (r, v) =>
      if predicate v then
        _ ← put (RangeMap (bt_remove start (inner m)) (range m)); mret (Some (r, v))
      else mret None
  | None => mret None
  end.

Definition rm_remove (start : Z) : st (range_map V) E (option ((Z * Z) * V)) :=
  remove_if start (λ _, true).

(** [inner.range(..=key).next_back()]. *)
Definition floor_entry (m : range_map V) (key : Z) : option ((Z * Z) * V) :=
  snd <$> bt_last (filter (λ b, fst b ≤ key) (inner m)).

Definition get_contained (m : range_map V) (key : Z) : option ((Z * Z) * V) :=
  '(r, v) ← floor_entry m key;
  if key <? snd r then Some (r, v) else None.

Inductive bound := Included (k : Z) | Excluded (k : Z) | Unbounded.

Definition get_contained_range (m : range_map V) (lo hi : bound) : option ((Z * Z) * V) :=
  match lo with
  | Unbounded => None
  | Included start | Excluded start =>
      match hi with
      | Included end_ =>
          '(r, v) ← floor_entry m end_;
          if (end_ <? snd r) && in_range r start then Some (r, v) else None
      | Excluded end_ =>
          '(r, v) ← snd <$> bt_last (filter (λ b, fst b < end_) (inner m));
          if (end_ <=? snd r) && in_range r start then Some (r, v) else None
      | Unbounded => None
      end
  end.

Definition rm_pop : st (range_map V) E (option ((Z * Z) * V)) :=
  m ← get;
  match inner m with
  | [] => mret None
  | (_, b) :: es => _ ← put (RangeMap es (range m)); mret (Some b)
  end.

Definition rm_first (m : range_map V) : option ((Z * Z) * V) := snd <$> bt_first (inner m).
Definition rm_last (m : range_map V) : option ((Z * Z) * V) := snd <$> bt_last (inner m).
End ops.

(** ** The invariant: the ranges follow each other inside the bounds *)

Fixpoint chain {V} (lo hi : Z) (es : btree ((Z * Z) * V)) : Prop :=
  match es with
  | [] => lo ≤ hi
  | (k, (r, _)) :: es => k = fst r ∧ lo ≤ fst r ∧ fst r < snd r ∧ chain (snd r) hi es
  end.

Definition rm_wf {V} (w : Z) (m : range_map V) : Prop :=
  0 ≤ fst (range m) ∧ snd (range m) < 2 ^ w ∧ chain (fst (range m)) (snd (range m)) (inner m).

Definition disjoint (r r' : Z * Z) : Prop := snd r ≤ fst r' ∨ snd r' ≤ fst r.

Section facts.
Context {V : Type}.
Implicit Types (es : btree ((Z * Z) * V)).

Lemma chain_le lo hi es : chain lo hi es → lo ≤ hi.
Proof.
  revert lo. induction es as [|[k [r v]] es IH]; intros lo; cbn; [done|].
  intros (_ & H1 & H2 & H). apply IH in H. lia.
Qed.

Lemma chain_elem lo hi es k r v : chain lo hi es → (k, (r, v)) ∈ es →
  k = fst r ∧ lo ≤ fst r ∧ fst r < snd r ∧ snd r ≤ hi.
Proof.
  revert lo. induction es as [|[k0 [r0 v0]] es IH]; intros lo; cbn; [set_solver|].
  intros (-> & H1 & H2 & H). pose proof (chain_le _ _ _ H).
  intros [[= -> -> ->]|Hin]%elem_of_cons; [lia|]. destruct (IH _ H Hin). lia.
Qed.

Lemma chain_sorted lo hi es : chain lo hi es → bt_sorted es.
Proof.
  revert lo. induction es as [|[k [r v]] es IH]; intros lo; cbn; [constructor|].
  intros (-> & H1 & H2 & H). apply bt_sorted_cons. split; [by eapply IH|].
  intros k' [r' v'] Hin. destruct (chain_elem _ _ _ _ _ _ H Hin). lia.
Qed.

Lemma chain_disjoint lo hi es k r v k' r' v' :
  chain lo hi es → (k, (r, v)) ∈ es → (k', (r', v')) ∈ es → k ≠ k' → disjoint r r'.
Proof.
  revert lo. induction es as [|[k0 [r0 v0]] es IH]; intros lo; cbn; [set_solver|].
  intros (-> & H1 & H2 & H) Hin Hin' Hne.
  apply elem_of_cons in Hin as [[= -> -> ->]|Hin], Hin' as [[= -> -> ->]|Hin'].
  - done.
  - destruct (chain_elem _ _ _ _ _ _ H Hin'). left. lia.
  - destruct (chain_elem _ _ _ _ _ _ H Hin). right. lia.
  - by eapply IH.
Qed.

Lemma chain_insert lo hi es s e v :
  chain lo hi es → lo ≤ s → s < e → e ≤ hi →
  (∀ k r v', (k, (r, v')) ∈ es → disjoint (s, e) r) → chain lo hi (bt_insert s ((s, e), v) es).
Proof.
  revert lo. induction es as [|[k [r v']] es IH]; intros lo; cbn [chain bt_insert].
  { intros. cbn. lia. }
  intros (-> & H1 & H2 & H) Hlo Hse He Hd.
  destruct (Hd (fst r) r v') as [Hr|Hr]; [left|..]; cbn in Hr.
  - rewrite (proj2 (Z.ltb_lt s (fst r))) by lia. cbn. lia || split_and!; try lia; done.
  - rewrite (proj2 (Z.ltb_ge s (fst r))), (proj2 (Z.eqb_neq s (fst r))) by lia.
    cbn [chain]. split_and!; try lia. apply IH; try done; try lia.
    intros k' r' v'' Hin. eapply Hd. by right.
Qed.

Lemma chain_weaken lo lo' hi es : chain lo hi es → lo' ≤ lo → chain lo' hi es.
Proof. destruct es as [|[k [r v]] es]; cbn; intros; intuition lia. Qed.

Lemma chain_remove lo hi es k : chain lo hi es → chain lo hi (bt_remove k es).
Proof.
  revert lo. induction es as [|[k' [r v]] es IH]; intros lo; cbn [chain bt_remove]; [done|].
  intros (-> & H1 & H2 & H). destruct (Z.eqb_spec (fst r) k).
  - apply chain_weaken with (snd r); [done|lia].
  - cbn [chain]. split_and!; try done. by apply IH.
Qed.
End facts.

Lemma rm_remove_map {V E} (m : range_map V) k :
  snd (rm_remove (E:=E) k m) = RangeMap (bt_remove k (inner m)) (range m).
Proof.
  unfold rm_remove, remove_if. rewrite st_get_bind.
  destruct (bt_get k (inner m)) as [[r v]|] eqn:E1; [done|].
  rewrite bt_remove_absent by done. by destruct m.
Qed.

(** ** Finding a gap *)

Section gaps.
Context `{P : Profile} {V E : Type}.
Variable w : Z.
Implicit Types (es : btree ((Z * Z) * V)).

(** [[s, s + size)] meets a range of the map. *)
Definition blocked es (s size : Z) : Prop :=
  ∃ k r v, (k, (r, v)) ∈ es ∧ fst r < s + size ∧ s < snd r.

Lemma gap_scan_ok es size : ∀ lo hi,
  chain lo hi es → 0 ≤ lo → hi < 2 ^ w → 0 < size →
  ∃ r last, gap_scan (E:=E) w es lo size = Ok (r, last) ∧ lo ≤ last ≤ hi ∧
    (∀ s, lo ≤ s < last → blocked es s size) ∧
    match r with
    | Some (s, e) => s = last ∧ e = s + size ∧ e ≤ hi ∧ ∀ k r' v, (k, (r', v)) ∈ es → disjoint (s, e) r'
    | None => ∀ k r' v, (k, (r', v)) ∈ es → snd r' ≤ last
    end.
Proof.
  induction es as [|[k [r v]] es IH]; intros lo hi Hc Hlo Hhi Hsize; cbn [gap_scan].
  { exists None, lo. cbn in Hc. split_and!; try done; [lia|set_solver]. }
  cbn in Hc. destruct Hc as (-> & H1 & H2 & Hc). pose proof (chain_le _ _ _ Hc).
  rewrite usub_ok by lia. cbn. destruct (Z.leb_spec size (fst r - lo)).
  - rewrite uadd_ok by lia. cbn. exists (Some (lo, lo + size)), lo. split_and!; try done; try lia.
    intros k r' v' [[= -> -> ->]|Hin]%elem_of_cons; [left; cbn; lia|].
    destruct (chain_elem _ _ _ _ _ _ Hc Hin). left. cbn. lia.
  - destruct (IH (snd r) hi Hc ltac:(lia) Hhi Hsize) as (r0 & last & -> & Hlast & Hbl & Hres).
    exists r0, last. split_and!; try done; try lia.
    + intros s Hs. destruct (Z.lt_ge_cases s (snd r)).
      * exists (fst r), r, v. split; [left|lia].
      * destruct (Hbl s ltac:(lia)) as (k' & r' & v' & Hin & ?). exists k', r', v'. split; [by right|done].
    + destruct r0 as [[s e]|].
      * destruct Hres as (-> & -> & He & Hd). split_and!; try done; try lia.
        intros k r' v' [[= -> -> ->]|Hin]%elem_of_cons; [right; cbn; lia|by eapply Hd].
      * intros k r' v' [[= -> -> ->]|Hin]%elem_of_cons; [lia|by eapply Hres].
Qed.

(** What an allocation does on the bindings: the first gap that fits, or none. *)
Definition first_gap es (lo hi size : Z) (r : option Z) : Prop :=
  match r with
  | Some s => lo ≤ s ∧ s + size ≤ hi ∧ (∀ s', lo ≤ s' < s → blocked es s' size) ∧
      ∀ k r' v, (k, (r', v)) ∈ es → disjoint (s, s + size) r'
  | None => ∀ s, lo ≤ s → s + size ≤ hi → blocked es s size
  end.

Lemma first_gap_found es lo hi size s e :
  chain lo hi es → first_gap es lo hi size (Some s) → 0 < size → e = s + size →
  bt_get s es = None ∧ ∀ v, chain lo hi (bt_insert s ((s, e), v) es).
Proof.
  intros Hc (Hlo & Hhi & _ & Hd) Hs ->. split.
  - apply bt_get_none. intros [r v] Hin. destruct (chain_elem _ _ _ _ _ _ Hc Hin) as (-> & ?).
    destruct (Hd _ _ _ Hin) as [?|?]; cbn in *; lia.
  - intros v. apply chain_insert; try done. lia.
Qed.
End gaps.

Section theorems.
Context `{P : Profile} {V E : Type}.
Implicit Types (m : range_map V).

(** [allocate_with] on a map whose ranges are disjoint and in bounds finds the
    lowest gap of the given size, inserts it and keeps the invariant; it fails
    with [no_fit] only when every position in the bounds meets a range, and an
    error of the closure leaves the map unchanged. *)
Theorem allocate_with_spec (w size : Z) (value : Z * Z → res E V) (no_fit : E) m :
  rm_wf w m → 0 < size →
  ∃ r, first_gap (inner m) (fst (range m)) (snd (range m)) size r ∧
    match r with
    | Some s =>
        match value (s, s + size) with
        | Ok v => allocate_with w size value no_fit m =
                    (Ok s, RangeMap (bt_insert s ((s, s + size), v) (inner m)) (range m)) ∧
                  rm_wf w (RangeMap (bt_insert s ((s, s + size), v) (inner m)) (range m))
        | Err e => allocate_with w size value no_fit m = (Err e, m)
        | Panic => allocate_with w size value no_fit m = (Panic, m)
        end
    | None => allocate_with w size value no_fit m = (Err no_fit, m)
    end.
Proof.
  intros (Hlo & Hhi & Hc) Hsize.
  destruct (gap_scan_ok (E:=E) w (inner m) size _ _ Hc Hlo Hhi Hsize)
    as (r & last & Hscan & Hlast & Hbl & Hres).
  assert (∃ r', first_gap (inner m) (fst (range m)) (snd (range m)) size r' ∧
    (match r with
     | Some r => Ok (Some r)
     | None =>
         d ← usub w (snd (range m)) last;
         if size <=? d then e ← uadd w last size; Ok (Some (last, e)) else Ok None
     end : res E _) = Ok ((λ s, (s, s + size)) <$> r')) as (r' & Hgap & Hr').
  { destruct r as [[s e]|].
    - destruct Hres as (-> & -> & He & Hd). exists (Some last). split; [|done]. by split_and!; [lia| | |].
    - rewrite usub_ok by lia. cbn. destruct (Z.leb_spec size (snd (range m) - last)).
      + rewrite uadd_ok by lia. exists (Some last). split; [|done]. split_and!; try lia; [done|].
        intros k r' v Hin. right. cbn. by eapply Hres.
      + exists None. split; [|done]. intros s H1 H2. apply Hbl. lia. }
  exists r'. split; [done|]. unfold allocate_with.
  rewrite !st_get_bind, !(st_lift_ok _ _ _ _ Hscan), !(st_lift_ok _ _ _ _ Hr'). destruct r' as [s|]; [|done].
  cbn [fmap option_fmap option_map fst].
  destruct (first_gap_found _ _ _ _ _ _ Hc Hgap Hsize eq_refl) as [Hnone Hins].
  destruct (value (s, s + size)) as [v|e|]; [|done..]. cbn. rewrite Hnone. split; [done|]. split_and!; [done|done|apply Hins].
Qed.

(** [get_contained] finds exactly the binding whose range holds the key. *)
Theorem get_contained_spec (w key : Z) (b : (Z * Z) * V) m :
  rm_wf w m →
  get_contained m key = Some b ↔ (fst (fst b), b) ∈ inner m ∧ fst (fst b) ≤ key < snd (fst b).
Proof.
  intros (_ & _ & Hc). pose proof (chain_sorted _ _ _ Hc) as Hs. unfold get_contained, floor_entry.
  destruct (bt_last (filter (λ b, fst b ≤ key) (inner m))) as [[k0 [r0 v0]]|] eqn:Hl.
  - apply bt_last_spec in Hl as [Hin Hmax]; [|by apply bt_filter_sorted].
    apply list_elem_of_filter in Hin as [Hle Hin].
    destruct (chain_elem _ _ _ _ _ _ Hc Hin) as (-> & _ & Hlt & _). cbn in Hle, Hmax.
    cbn [fmap option_fmap option_map snd mbind option_bind].
    destruct (Z.ltb_spec key (snd r0)) as [Hk|Hk]; (split; [|intros [Hb Hkey]]).
    + intros [= <-]. cbn. auto.
    + destruct b as [r v]. cbn in *. destruct (decide (fst r = fst r0)) as [He|Hne].
      * rewrite He in Hb. apply bt_get_elem in Hb; [|done]. apply bt_get_elem in Hin; [|done]. congruence.
      * assert (fst r ≤ fst r0) by (apply (Hmax (fst r) (r, v)), list_elem_of_filter; split; [cbn; lia|done]).
        destruct (chain_disjoint _ _ _ _ _ _ _ _ _ Hc Hb Hin Hne); lia.
    + done.
    + destruct b as [r v]. cbn in *.
      assert (fst r ≤ fst r0) by (apply (Hmax (fst r) (r, v)), list_elem_of_filter; split; [cbn; lia|done]).
      destruct (decide (fst r = fst r0)) as [He|Hne].
      * rewrite He in Hb. apply bt_get_elem in Hb; [|done]. apply bt_get_elem in Hin; [|done].
        rewrite Hb in Hin. injection Hin as -> ->. lia.
      * destruct (chain_disjoint _ _ _ _ _ _ _ _ _ Hc Hb Hin Hne); lia.
  - apply bt_last_none in Hl. cbn. split; [done|]. intros [Hb Hkey].
    assert ((fst (fst b), b) ∈ @nil (Z * (Z * Z * V))) as []%not_elem_of_nil.
    rewrite <- Hl. apply list_elem_of_filter. split; [cbn; lia|done].
Qed.
End theorems.

Module Witness.
(** Interrupt vectors 32 to 40, with 32 and 34 taken. *)
Definition m : range_map () := RangeMap [(32, ((32, 33), ())); (34, ((34, 35), ()))] (32, 40).

Lemma m_wf : rm_wf 8 m.
Proof. by split_and!. Qed.

Lemma allocate_with_witness :
  allocate_with (P:=debug_profile) (E:=()) 8 1 (λ _, Ok ()) () m =
    (Ok 33, RangeMap (bt_insert 33 ((33, 34), ()) (inner m)) (range m)) ∧
  ∃ r, first_gap (inner m) 32 40 1 r ∧
    match r with
    | Some s =>
        allocate_with (P:=debug_profile) (E:=()) 8 1 (λ _, Ok ()) () m =
          (Ok s, RangeMap (bt_insert s ((s, s + 1), ()) (inner m)) (range m)) ∧
        rm_wf 8 (RangeMap (bt_insert s ((s, s + 1), ()) (inner m)) (range m))
    | None => allocate_with (P:=debug_profile) (E:=()) 8 1 (λ _, Ok ()) () m = (Err (), m)
    end.
Proof.
  split; [vm_compute; reflexivity|].
  apply (allocate_with_spec (P:=debug_profile) 8 1 (λ _, Ok ()) () m); [apply m_wf|done].
Defined.

Lemma get_contained_witness :
  get_contained m 34 = Some ((34, 35), ()) ↔ (34, ((34, 35), ())) ∈ inner m ∧ 34 ≤ 34 < 35.
Proof. apply (get_contained_spec 8 34 ((34, 35), ()) m). apply m_wf. Defined.

(** [try_insert_with] accepts a range inside another one, which breaks the
    invariant: a later [allocate_with] computes a gap of negative length, which
    panics with overflow checks and otherwise hands out a range that is in use. *)
Theorem try_insert_with_overlaps :
  let ins r m := try_insert_with (E:=()) (R:=()) r (Ok ((), ())) () m in
  let m1 := snd (ins (50, 60) (snd (ins (0, 50) (rm_new (0, 100))))) in
  let '(r, m2) := ins (10, 20) m1 in
  r = Ok () ∧
  fst (allocate_with (P:=debug_profile) (E:=()) 64 5 (λ _, Ok ()) () m2) = Panic ∧
  fst (allocate_with (P:=release_profile) (E:=()) 64 5 (λ _, Ok ()) () m2) = Ok 50.
Proof. vm_compute. auto. Qed.
End Witness.
