(* ===== verification/Resource.v ===== *)
(** * Hardware resources ([kernel/src/dev/res.rs])

    A resource is a range of memory, ports or interrupts that a task may use; its
    sub-resources are recorded in a [RangeMap]. The heap holds the live
    [Arc<Resource>]s by identity; a [Weak] reference is an identity, which
    upgrades while the object is in the heap. [magic] tells apart the families of
    resources. *)

From S2P Require Import Base RangeMap.
Local Open Scope Z_scope.

Record resource := Resource {
  r_magic : Z;
  r_range : Z * Z;
  r_map : range_map ();
  r_parent : option Z;
}.

Record rheap := Rheap { objs : gmap Z resource; next_id : Z }.

Abbreviation M := (st rheap Empty_set).

(** [Arc::new]. *)
Definition arc_new (r : resource) : M Z := λ h,
  (Ok (next_id h), Rheap (<[next_id h := r]> (objs h)) (next_id h + 1)).

Definition res_new (magic : Z) (r : Z * Z) (parent : Z) : M Z :=
  arc_new (Resource magic r (rm_new r) (Some parent)).

Definition new_root (magic : Z) (r : Z * Z) : M Z :=
  arc_new (Resource magic r (rm_new r) None).

Definition strong_count_pos (h : rheap) (id : Z) : bool := bool_decide (is_Some (objs h !! id)).

(** [map.try_insert_with(range, || .., ()).ok()]: the closure builds the object,
    and runs only when the entry is vacant. *)
Definition allocate (self : Z) (r : Z * Z) : M (option Z) :=
  h ← get;
  s ← lift (unwrap (objs h !! self));
  if match r_parent s with None => true | Some p => strong_count_pos h p end then
    match try_insert_with r (Ok ((), ()) : res () (() * ())) () (r_map s) with
    | (Ok _, map') =>
        _ ← put (Rheap (<[self := Resource (r_magic s) (r_range s) map' (r_parent s)]> (objs h)) (next_id h));
        id ← res_new (r_magic s) r self;
        mret (Some id)
    | (Err _, _) => mret None
    | (Panic, _) => lift Panic
    end
  else mret None.

Definition magic_eq (a b : resource) : bool := r_magic a =? r_magic b.

(** [Drop]: the last reference to [id] goes away. *)
Definition drop (id : Z) : M () :=
  h ← get;
  s ← lift (unwrap (objs h !! id));
  let objs1 :=
    match r_parent s ≫= λ p, (λ o, (p, o)) <$> objs h !! p with
    | Some (p, o) =>
        match rm_remove (E:=Empty_set) (fst (r_range s)) (r_map o) with
        | (_, map') => <[p := Resource (r_magic o) (r_range o) map' (r_parent o)]> (objs h)
        end
    | None => objs h
    end in
  put (Rheap (delete id objs1) (next_id h)).

(** What the kernel does with resources: any sequence of these calls. *)
Inductive rstep : rheap → rheap → Prop :=
  | rstep_root magic r h : rstep h (snd (new_root magic r h))
  | rstep_alloc self r h : is_Some (objs h !! self) → rstep h (snd (allocate self r h))
  | rstep_drop id h : is_Some (objs h !! id) → rstep h (snd (drop id h)).

Inductive reachable : rheap → Prop :=
  | reach_init : reachable (Rheap ∅ 0)
  | reach_step h h' : reachable h → rstep h h' → reachable h'.

(** ** The invariant *)

Definition subrange (r r' : Z * Z) : Prop := fst r' ≤ fst r ∧ fst r < snd r ∧ snd r ≤ snd r'.

Definition map_ok (r : resource) : Prop :=
  range (r_map r) = r_range r ∧ bt_sorted (inner (r_map r)) ∧
  ∀ k q v, (k, (q, v)) ∈ inner (r_map r) → k = fst q ∧ subrange q (r_range r).

Record rinv (h : rheap) : Prop := {
  ri_map id r : objs h !! id = Some r → map_ok r ∧ id < next_id h;
  ri_parent id r p o : objs h !! id = Some r → r_parent r = Some p → objs h !! p = Some o →
    subrange (r_range r) (r_range o) ∧ r_magic r = r_magic o;
  ri_parent_lt id r p : objs h !! id = Some r → r_parent r = Some p → p < id;
}.

Lemma map_ok_new magic r p : map_ok (Resource magic r (rm_new r) p).
Proof. split_and!; [done|constructor|set_solver]. Qed.

Lemma map_ok_insert s r :
  map_ok s → fst (r_range s) ≤ fst r → fst r < snd r → snd r ≤ snd (r_range s) →
  map_ok (Resource (r_magic s) (r_range s) (RangeMap (bt_insert (fst r) (r, ()) (inner (r_map s))) (range (r_map s)))
    (r_parent s)).
Proof.
  intros (Hr & Hs & Hel) H1 H2 H3. split_and!; cbn; [done|by apply bt_insert_sorted|].
  intros k q v. rewrite bt_insert_elem by done. intros [[-> [= -> _]]|[_ Hin]]; [|by eapply Hel].
  by split.
Qed.

Lemma map_ok_remove s k :
  map_ok s →
  map_ok (Resource (r_magic s) (r_range s) (snd (rm_remove (E:=Empty_set) k (r_map s))) (r_parent s)).
Proof.
  intros (Hr & Hs & Hel). rewrite rm_remove_map.
  split_and!; cbn; [done|by apply bt_remove_sorted|].
  intros k' q' v' [_ Hin]%bt_remove_elem; [|done]. by eapply Hel.
Qed.

(** Replacing the map of one object keeps the ranges of all. *)
Lemma rinv_update h id s map' :
  rinv h → objs h !! id = Some s →
  map_ok (Resource (r_magic s) (r_range s) map' (r_parent s)) →
  rinv (Rheap (<[id := Resource (r_magic s) (r_range s) map' (r_parent s)]> (objs h)) (next_id h)).
Proof.
  intros Hi Hs Hok.
  assert (∀ j r, <[id := Resource (r_magic s) (r_range s) map' (r_parent s)]> (objs h) !! j = Some r →
    ∃ r0, objs h !! j = Some r0 ∧ r_range r = r_range r0 ∧ r_magic r = r_magic r0 ∧ r_parent r = r_parent r0)
    as Hold.
  { intros j r [[<- <-]|[_ Hj]]%lookup_insert_Some; eauto 6. }
  split; cbn.
  - intros j r Hj. pose proof (Hold j r Hj) as (r0 & H0 & _). split; [|by apply (ri_map h Hi j r0)].
    apply lookup_insert_Some in Hj as [[<- <-]|[_ Hj]]; [done|]. by apply (ri_map h Hi j r).
  - intros j r p o Hj Hp Ho. apply Hold in Hj as (r0 & H0 & -> & -> & Hp0), Ho as (o0 & Ho0 & -> & -> & _).
    rewrite Hp0 in Hp. by apply (ri_parent h Hi j r0 p o0).
  - intros j r p Hj Hp. apply Hold in Hj as (r0 & H0 & _ & _ & Hp0). rewrite Hp0 in Hp.
    by apply (ri_parent_lt h Hi j r0 p).
Qed.

(** A new object whose parent, if it is alive, covers it. *)
Lemma rinv_new h magic r parent :
  rinv h → (∀ p, parent = Some p → p < next_id h) →
  (∀ p o, parent = Some p → objs h !! p = Some o → subrange r (r_range o) ∧ magic = r_magic o) →
  rinv (Rheap (<[next_id h := Resource magic r (rm_new r) parent]> (objs h)) (next_id h + 1)).
Proof.
  intros Hi Hlt Hp. split; cbn.
  - intros id r' [[<- <-]|[_ Hid]]%lookup_insert_Some.
    + split; [apply map_ok_new|lia].
    + destruct (ri_map h Hi id r' Hid). split; [done|lia].
  - intros id r' p o Hid Hpar Ho. apply lookup_insert_Some in Ho as [[<- <-]|[Hne Ho]].
    + exfalso. apply lookup_insert_Some in Hid as [[<- <-]|[_ Hid]].
      * cbn in Hpar. apply Hlt in Hpar. lia.
      * pose proof (ri_parent_lt h Hi _ _ _ Hid Hpar). destruct (ri_map h Hi id r' Hid). lia.
    + apply lookup_insert_Some in Hid as [[<- <-]|[_ Hid]]; [by eapply Hp|].
      by apply (ri_parent h Hi id r' p o).
  - intros id r' p [[<- <-]|[_ Hid]]%lookup_insert_Some Hpar; [by apply Hlt|].
    by apply (ri_parent_lt h Hi id r' p).
Qed.

Lemma rinv_delete h id : rinv h → rinv (Rheap (delete id (objs h)) (next_id h)).
Proof.
  intros Hi. split; cbn.
  - intros j r [_ Hj]%lookup_delete_Some. by apply (ri_map h Hi j r).
  - intros j r p o [_ Hj]%lookup_delete_Some Hp [_ Ho]%lookup_delete_Some. by apply (ri_parent h Hi j r p o).
  - intros j r p [_ Hj]%lookup_delete_Some. by apply (ri_parent_lt h Hi j r p).
Qed.

Lemma allocate_inv h self r : rinv h → rinv (snd (allocate self r h)).
Proof.
  intros Hi. unfold allocate. rewrite st_get_bind.
  destruct (objs h !! self) as [s|] eqn:Hs; [|done].
  rewrite (st_lift_ok _ _ h s) by done.
  destruct (match r_parent s with None => true | Some p => _ end); [|done].
  destruct (ri_map h Hi self s Hs) as [Hok Hlt]. unfold try_insert_with. rewrite st_get_bind.
  rewrite (proj1 Hok). destruct (_ && _) eqn:Hb; [|done]. zbool.
  destruct (bt_get (fst r) (inner (r_map s))); [done|].
  pose proof (map_ok_insert s r Hok ltac:(lia) ltac:(lia) ltac:(lia)) as Hok'. rewrite (proj1 Hok) in Hok'.
  apply (rinv_new (Rheap _ (next_id h)) (r_magic s) r (Some self)).
  - by apply rinv_update.
  - by intros p [= <-].
  - intros p o [= <-]. cbn. rewrite lookup_insert_eq. intros [= <-]. by split_and!.
Qed.

Lemma drop_inv h id : rinv h → rinv (snd (drop id h)).
Proof.
  intros Hi. unfold drop. rewrite st_get_bind. destruct (objs h !! id) as [s|] eqn:Hs; [|done].
  rewrite (st_lift_ok _ _ h s) by done.
  destruct (r_parent s ≫= _) as [[p o]|] eqn:Hp; [|by apply rinv_delete].
  apply bind_Some in Hp as (p' & _ & (o' & Ho & [= -> ->])%fmap_Some).
  destruct (ri_map h Hi p' o' Ho) as [Hok _].
  pose proof (map_ok_remove o' (fst (r_range s)) Hok) as Hok'.
  destruct (rm_remove (fst (r_range s)) (r_map o')) as [x map'] eqn:Hrm. cbn in Hok'.
  apply (rinv_delete (Rheap _ (next_id h))). by apply rinv_update.
Qed.

Lemma reachable_inv h : reachable h → rinv h.
Proof.
  induction 1 as [|h h' _ IH Hstep]; [by split|]. destruct Hstep as [magic r h|self r h _|id h _].
  - by apply (rinv_new h magic r None).
  - by apply allocate_inv.
  - by apply drop_inv.
Qed.

(** In every state that the kernel reaches by creating roots, allocating
    sub-resources and dropping them, a live resource lies within its live
    parent's range and is of the same family: rights to hardware ranges are only
    ever narrowed. *)
Theorem resource_contained h id r p o :
  reachable h → objs h !! id = Some r → r_parent r = Some p → objs h !! p = Some o →
  subrange (r_range r) (r_range o) ∧ magic_eq r o = true.
Proof.
  intros Hr Hid Hp Ho. destruct (ri_parent h (reachable_inv h Hr) id r p o Hid Hp Ho) as [Hs Hm].
  split; [done|]. apply Z.eqb_eq. done.
Qed.

Module Example.
(** Ports 0 to 100 as a root, and two sub-resources of it. *)
Definition h1 : rheap := snd (new_root 7 (0, 100) (Rheap ∅ 0)).
Definition h2 : rheap := snd (allocate 0 (0, 50) h1).
Definition h3 : rheap := snd (allocate 0 (10, 20) h2).

Lemma reachable_h3 : reachable h3.
Proof.
  apply reach_step with h2; [apply reach_step with h1; [apply reach_step with (Rheap ∅ 0)|]|].
  - constructor.
  - apply rstep_root.
  - apply rstep_alloc. by eexists.
  - apply rstep_alloc. by eexists.
Qed.

Lemma resource_contained_witness :
  subrange (10, 20) (0, 100) ∧
  magic_eq (Resource 7 (10, 20) (rm_new (10, 20)) (Some 0))
    (Resource 7 (0, 100) (RangeMap [(0, ((0, 50), ())); (10, ((10, 20), ()))] (0, 100)) None) = true.
Proof.
  apply (resource_contained h3 2 (Resource 7 (10, 20) (rm_new (10, 20)) (Some 0)) 0
    (Resource 7 (0, 100) (RangeMap [(0, ((0, 50), ())); (10, ((10, 20), ()))] (0, 100)) None)).
  - apply reachable_h3.
  - vm_compute. reflexivity.
  - reflexivity.
  - vm_compute. reflexivity.
Defined.

(** Two resources of the same parent may overlap: [try_insert_with] only
    checks that no sub-resource starts at the same address, so [[10, 20)] is
    granted after [[0, 50)]. *)
Theorem resources_overlap :
  fst (allocate 0 (0, 50) h1) = Ok (Some 1) ∧ fst (allocate 0 (10, 20) h2) = Ok (Some 2) ∧
  ∃ a b, objs h3 !! 1 = Some a ∧ objs h3 !! 2 = Some b ∧ r_parent a = Some 0 ∧ r_parent b = Some 0 ∧
    ¬ disjoint (r_range a) (r_range b).
Proof.
  split; [vm_compute; reflexivity|]. split; [vm_compute; reflexivity|].
  eexists _, _. split; [vm_compute; reflexivity|]. split; [vm_compute; reflexivity|].
  split; [reflexivity|]. split; [reflexivity|]. intros [H|H]; cbn in H; lia.
Qed.
End Example.
