(* ===== verification/Arena.v ===== *)
(** * The lock-free arena ([kernel/src/mem/arena.rs])

    A pool of fixed-size blocks: a free list threaded through the blocks, whose
    head is a pointer and a tag exchanged together, and the part above [top] that
    was never handed out. A call runs as a sequence of atomic actions; [step] is
    one action of a thread and a schedule interleaves the actions of several
    threads. The node written in a free block is an entry of [nodes]. *)

From S2P Require Import Base.
Local Open Scope Z_scope.
Local Open Scope h2o_scope.

Record arena := Arena {
  max_count : Z;
  base : Z;
  head : Z * Z;
  top : Z;
  off : Z;
  end_ : Z;
  count : Z;
  nodes : gmap Z Z;
}.

(** [Arena::new], given the block size [off], a multiple of 16, and the address
    at which [space::allocate] placed the blocks. *)
Definition arena_new (max_count base off : Z) : arena :=
  Arena max_count base (0, 0) base off (base + max_count * off) 0 ∅.

Definition set_head (a : arena) (h : Z * Z) : arena :=
  Arena (max_count a) (base a) h (top a) (off a) (end_ a) (count a) (nodes a).
Definition set_top (a : arena) (t : Z) : arena :=
  Arena (max_count a) (base a) (head a) t (off a) (end_ a) (count a) (nodes a).
Definition set_count (a : arena) (c : Z) : arena :=
  Arena (max_count a) (base a) (head a) (top a) (off a) (end_ a) c (nodes a).
Definition set_node (a : arena) (p n : Z) : arena :=
  Arena (max_count a) (base a) (head a) (top a) (off a) (end_ a) (count a) (<[p := n]> (nodes a)).

Definition node_next (a : arena) (p : Z) : Z := default 0 (nodes a !! p).

Definition check_ptr (a : arena) (ptr : Z) : bool :=
  negb (top a =? 0) && ((base a <=? ptr) && (ptr <? top a)).
Definition check_index (a : arena) (index : Z) : bool := index <? max_count a.

(** The point at which a thread is in [allocate] or [deallocate]. *)
Inductive pc :=
  | AllocStart
  | AllocLoaded (head : Z * Z)
  | AllocCas (head : Z * Z) (next : Z)
  | AllocLoadTop
  | AllocTop (top : Z)
  | AllocCount (ptr : Z)
  | AllocDone (ptr : option Z)
  | FreeStart (ptr : Z)
  | FreeLoadHead (ptr : Z)
  | FreeWrite (ptr : Z) (next : Z * Z)
  | FreeCas (ptr : Z) (next : Z * Z)
  | FreeCount
  | FreeDone (ok : bool).

Definition pair_eqb (a b : Z * Z) : bool := (fst a =? fst b) && (snd a =? snd b).

(** One atomic action of [allocate] or [deallocate]. *)
Definition step (a : arena) (c : pc) : arena * pc :=
  match c with
  | AllocStart => (a, AllocLoaded (head a))
  | AllocLoaded h =>
      if fst h =? 0 then (a, AllocLoadTop) else (a, AllocCas h (node_next a (fst h)))
  | AllocCas h next =>
      if pair_eqb (head a) h then (set_head a (next, wrap W (fst h + 1)), AllocCount (fst h))
      else (a, AllocLoaded (head a))
  | AllocLoadTop => (a, AllocTop (top a))
  | AllocTop t =>
      if end_ a <=? t then (a, AllocDone None)
      else if top a =? t then (set_top a (t + off a), AllocCount t)
      else (a, AllocTop (top a))
  | AllocCount p => (set_count a (count a + 1), AllocDone (Some p))
  | AllocDone r => (a, AllocDone r)
  | FreeStart p => if check_ptr a p then (a, FreeLoadHead p) else (a, FreeDone false)
  | FreeLoadHead p => (a, FreeWrite p (head a))
  | FreeWrite p h => (set_node a p (fst h), FreeCas p h)
  | FreeCas p h =>
      if pair_eqb (head a) h then (set_head a (p, wrap W (snd h + 1)), FreeCount)
      else (a, FreeWrite p (head a))
  | FreeCount => (set_count a (count a - 1), FreeDone true)
  | FreeDone r => (a, FreeDone r)
  end.

(** A thread running alone; six actions are enough for either call. *)
Fixpoint steps (n : nat) (a : arena) (c : pc) : arena * pc :=
  match n with
  | O => (a, c)
  | S n => let '(a, c) := step a c in steps n a c
  end.

Definition alone (a : arena) (c : pc) : arena * pc := steps 6 a c.

Definition allocate (a : arena) : option Z * arena :=
  match alone a AllocStart with
  | (a', AllocDone r) => (r, a')
  | (a', _) => (None, a')
  end.

Definition deallocate (a : arena) (ptr : Z) : bool * arena :=
  match alone a (FreeStart ptr) with
  | (a', FreeDone r) => (r, a')
  | (a', _) => (false, a')
  end.

Definition get_index (a : arena) (ptr : Z) : option Z :=
  if check_ptr a ptr then
    let index := wrap W (ptr - base a) / off a in
    if check_index a index then Some index else None
  else None.

Definition get_ptr (a : arena) (index : Z) : option Z :=
  if check_index a index then
    let addr := wrap W (wrap W (index * off a) + base a) in
    if negb (addr =? 0) && check_ptr a addr then Some addr else None
  else None.

(** Interleaving: each element of the schedule is the thread that acts next. *)
Fixpoint interleave (sched : list nat) (a : arena) (ts : list pc) : arena * list pc :=
  match sched with
  | [] => (a, ts)
  | i :: sched =>
      match ts !! i with
      | Some c => let '(a, c) := step a c in interleave sched a (<[i := c]> ts)
      | None => interleave sched a ts
      end
  end.

(** ** The invariant of an arena that no call is in progress on *)

(** The free list from [p] on. *)
Inductive free_list (a : arena) : Z → list Z → Prop :=
  | fl_nil : free_list a 0 []
  | fl_cons p ps : p ≠ 0 → free_list a (node_next a p) ps → free_list a p (p :: ps).

(** The blocks below [top]. *)
Definition is_block (a : arena) (p : Z) : Prop :=
  ∃ i, 0 ≤ i < max_count a ∧ p = base a + i * off a ∧ p < top a.

Record arena_wf (a : arena) (free : list Z) : Prop := {
  aw_shape : 0 < base a ∧ 16 ≤ off a ∧ 0 ≤ max_count a ∧ end_ a = base a + max_count a * off a ∧ end_ a < 2 ^ 64;
  aw_top : ∃ n, 0 ≤ n ≤ max_count a ∧ top a = base a + n * off a;
  aw_list : free_list a (fst (head a)) free;
  aw_nodup : NoDup free;
  aw_block p : p ∈ free → is_block a p;
}.

(** A block that a caller holds. *)
Definition allocated (a : arena) (free : list Z) (p : Z) : Prop := is_block a p ∧ p ∉ free.

Lemma pair_eqb_refl x : pair_eqb x x = true.
Proof. unfold pair_eqb. by rewrite !Z.eqb_refl. Qed.

(** What the calls do when they run alone. *)
Lemma allocate_eq a :
  allocate a =
    if fst (head a) =? 0 then
      if end_ a <=? top a then (None, a)
      else (Some (top a), set_count (set_top a (top a + off a)) (count a + 1))
    else (Some (fst (head a)),
          set_count (set_head a (node_next a (fst (head a)), wrap W (fst (head a) + 1))) (count a + 1)).
Proof.
  unfold allocate, alone. cbn [steps step]. destruct (fst (head a) =? 0); cbn [steps step].
  - destruct (end_ a <=? top a) eqn:E; cbn [steps step]; [done|]. by rewrite Z.eqb_refl.
  - by rewrite pair_eqb_refl.
Qed.

Lemma deallocate_eq a p :
  deallocate a p =
    if check_ptr a p then
      (true, set_count (set_head (set_node a p (fst (head a))) (p, wrap W (snd (head a) + 1))) (count a - 1))
    else (false, a).
Proof.
  unfold deallocate, alone. cbn [steps step]. destruct (check_ptr a p); cbn [steps step]; [|done].
  change (head (set_node a p (fst (head a)))) with (head a). by rewrite pair_eqb_refl.
Qed.

(** The list does not read the nodes of other blocks. *)
Lemma free_list_frame a a' p ps :
  free_list a p ps → (∀ q, q ∈ ps → node_next a' q = node_next a q) → free_list a' p ps.
Proof.
  induction 1 as [|p ps Hp _ IH]; intros Hn; [constructor|]. constructor; [done|].
  rewrite Hn by left. apply IH. intros q Hq. apply Hn. by right.
Qed.

Lemma index_mul i n o : 0 < o → i * o < n * o ↔ i < n.
Proof. intros. split; [|intros]; nia. Qed.

(** Run without interference, [allocate] hands out a block that nobody
    holds, in bounds and aligned to the block size, and fails only when all
    [max_count] blocks are held; the other blocks keep their state. *)
Theorem allocate_fresh a free :
  arena_wf a free →
  match allocate a with
  | (Some p, a') => ∃ free', arena_wf a' free' ∧ ¬ allocated a free p ∧ count a' = count a + 1 ∧
      (∃ i, 0 ≤ i < max_count a ∧ p = base a + i * off a) ∧
      ∀ q, allocated a' free' q ↔ allocated a free q ∨ q = p
  | (None, a') => a' = a ∧ ∀ i, 0 ≤ i < max_count a → allocated a free (base a + i * off a)
  end.
Proof.
  intros [(Hb & Ho & Hm & He & H64) (n & Hn & Ht) Hl Hnd Hbl]. rewrite allocate_eq.
  destruct (Z.eqb_spec (fst (head a)) 0) as [E|E].
  - rewrite E in Hl. inversion Hl as [|? ? ? _]; subst; [|done].
    destruct (Z.leb_spec (end_ a) (top a)) as [Hfull|Hmore].
    + split; [done|]. intros i Hi. split; [|set_solver]. exists i. split_and!; try done; try lia. nia.
    + assert (n < max_count a) by nia. exists []. split_and!.
      * split; cbn; [by split_and!|exists (n + 1); nia|by rewrite E; constructor|constructor|set_solver].
      * intros [(i & _ & Hp & Hlt) _]. lia.
      * done.
      * exists n. lia.
      * intros q. unfold allocated, is_block. cbn. split.
        -- intros [(i & Hi & -> & Hlt) _]. destruct (decide (i = n)) as [->|]; [right; lia|left].
           split; [|set_solver]. exists i. assert (i < n + 1) by (apply (index_mul i (n + 1) (off a)); lia).
           split_and!; try done; nia.
        -- intros [[(i & Hi & -> & Hlt) _]| ->]; (split; [|set_solver]); [exists i|exists n]; lia.
  - inversion Hl as [|p ps Hp Hps]; subst; [done|]. set (p := fst (head a)) in *.
    apply NoDup_cons in Hnd as [Hnin Hnd]. exists ps. split_and!.
    + split; cbn; try done; [by exists n|by eapply free_list_frame|].
      intros q Hq. apply Hbl. by right.
    + intros [_ []]. left.
    + done.
    + destruct (Hbl p) as (i & Hi & -> & _); [left|]. by exists i.
    + intros q. unfold allocated. change (is_block (set_count _ _) q) with (is_block a q). split.
      * intros [Hq Hnq]. destruct (decide (q = p)) as [->|]; [by right|left]. set_solver.
      * intros [[Hq Hnq]| ->]; [set_solver|]. split; [apply Hbl; left|done].
Qed.

(** [deallocate] of a block that is held makes it, and only it, available
    again; a pointer outside the blocks handed out so far is refused. *)
Theorem deallocate_returns a free p :
  arena_wf a free → allocated a free p →
  ∃ a' free', deallocate a p = (true, a') ∧ arena_wf a' free' ∧ count a' = count a - 1 ∧
    (∀ q, allocated a' free' q ↔ allocated a free q ∧ q ≠ p) ∧ fst (allocate a') = Some p.
Proof.
  intros [(Hb & Ho & Hm & He & H64) Htop Hl Hnd Hbl] [Hp Hnin]. rewrite deallocate_eq.
  assert (check_ptr a p = true) as ->.
  { destruct Hp as (i & Hi & -> & Hlt). unfold check_ptr.
    rewrite (proj2 (Z.eqb_neq (top a) 0)), (proj2 (Z.leb_le _ _)), (proj2 (Z.ltb_lt _ _)) by nia. done. }
  assert (p ≠ 0) by (destruct Hp as (i & Hi & -> & Hlt); nia).
  eexists _, (p :: free). split; [done|]. split_and!.
  - split; cbn; try done.
    + constructor; [done|]. unfold node_next. cbn. rewrite lookup_insert_eq. cbn.
      eapply free_list_frame; [exact Hl|]. intros q Hq. unfold node_next. cbn.
      rewrite lookup_insert_ne by (by intros ->). done.
    + by apply NoDup_cons.
    + intros q [->|Hq]%elem_of_cons; [done|by apply Hbl].
  - done.
  - intros q. unfold allocated. change (is_block (set_count _ _) q) with (is_block a q). set_solver.
  - rewrite allocate_eq. cbn. by rewrite (proj2 (Z.eqb_neq p 0)).
Qed.

(** Indices and pointers of handed-out blocks correspond. *)
Theorem index_roundtrip a free p :
  arena_wf a free → is_block a p →
  ∃ i, get_index a p = Some i ∧ get_ptr a i = Some p ∧ 0 ≤ i < max_count a.
Proof.
  intros [(Hb & Ho & Hm & He & H64) (n & Hn & Ht) _ _ _] (i & Hi & -> & Hlt). exists i.
  assert (check_ptr a (base a + i * off a) = true) as Hc.
  { unfold check_ptr.
    rewrite (proj2 (Z.eqb_neq (top a) 0)), (proj2 (Z.leb_le _ _)), (proj2 (Z.ltb_lt _ _)) by nia. done. }
  assert (i * off a < max_count a * off a) by (apply index_mul; lia).
  assert (0 ≤ i * off a) by nia. unfold get_index, get_ptr, check_index. split_and!; try lia.
  - rewrite Hc. replace (base a + i * off a - base a) with (i * off a) by lia.
    rewrite wrap_small, Z.div_mul, (proj2 (Z.ltb_lt i _)) by lia. done.
  - rewrite (proj2 (Z.ltb_lt i _)) by lia. rewrite (wrap_small W (i * off a)) by lia.
    rewrite wrap_small, (Z.add_comm (i * off a)), Hc by lia.
    by rewrite (proj2 (Z.eqb_neq _ 0)) by lia.
Qed.

(** ** Interleaving *)

Module Aba.
Definition A : Z := 0x1000.
Definition B : Z := 0x1010.
Definition C : Z := 0x1020.

(** Three blocks are handed out, [C] and [B] returned, [B] taken, [A] returned:
    the free list is [A], [C]. *)
Definition a0 : arena :=
  let a := snd (allocate (snd (allocate (snd (allocate (arena_new 3 0x1000 16)))))) in
  let a := snd (deallocate (snd (deallocate a C)) B) in
  snd (deallocate (snd (allocate a)) A).

(** Thread 0 reads the head and its successor. Thread 1 takes [A] and [C],
    returns [B], takes it back and returns [A]; it still holds [B] and [C]. *)
Definition paused : arena * list pc := interleave [0; 0]%nat a0 [AllocStart].
Definition a1 : arena :=
  let a := snd (allocate (snd (allocate (fst paused)))) in
  snd (deallocate (snd (allocate (snd (deallocate a B)))) A).

(** The tag does not protect against reuse of the head ([allocate] derives it
    from the popped pointer instead of the old tag, so tags repeat): the exchange
    of thread 0 succeeds on the changed list and makes [C], which thread 1 still
    holds, the head of the free list; the next allocation returns it again. *)
Theorem tag_reuse :
  map (λ i, fst (allocate (Nat.iter i (λ a, snd (allocate a)) (fst paused)))) [0; 1]%nat =
    [Some A; Some C] ∧
  let '(a2, ts) := interleave [0; 0]%nat a1 (snd paused) in
  ts = [AllocDone (Some A)] ∧ fst (allocate a2) = Some C.
Proof. vm_compute. auto. Qed.

Lemma a_wf : arena_wf (arena_new 3 0x1000 16) [].
Proof.
  split; cbn; [by split_and!|by exists 0|constructor|constructor|set_solver].
Qed.

Lemma allocate_fresh_witness :
  ∃ free', arena_wf (snd (allocate (arena_new 3 0x1000 16))) free' ∧
    ¬ allocated (arena_new 3 0x1000 16) [] A ∧ 1 = 0 + 1 ∧
    (∃ i, 0 ≤ i < 3 ∧ A = 0x1000 + i * 16) ∧
    ∀ q, allocated (snd (allocate (arena_new 3 0x1000 16))) free' q ↔
      allocated (arena_new 3 0x1000 16) [] q ∨ q = A.
Proof. exact (allocate_fresh (arena_new 3 0x1000 16) [] a_wf). Defined.

(** One block handed out, none free. *)
Definition b1 : arena := snd (allocate (arena_new 3 0x1000 16)).

Lemma b1_wf : arena_wf b1 [].
Proof. split; cbn; [by split_and!|by exists 1|constructor|constructor|set_solver]. Qed.

Lemma b1_block : is_block b1 A.
Proof. exists 0. by split_and!. Qed.

Lemma deallocate_returns_witness :
  ∃ a' free', deallocate b1 A = (true, a') ∧ arena_wf a' free' ∧ count a' = count b1 - 1 ∧
    (∀ q, allocated a' free' q ↔ allocated b1 [] q ∧ q ≠ A) ∧ fst (allocate a') = Some A.
Proof.
  apply (deallocate_returns b1 [] A); [apply b1_wf|]. split; [apply b1_block|apply not_elem_of_nil].
Defined.

Lemma index_roundtrip_witness :
  ∃ i, get_index b1 A = Some i ∧ get_ptr b1 i = Some A ∧ 0 ≤ i < max_count b1.
Proof. apply (index_roundtrip b1 [] A); [apply b1_wf|apply b1_block]. Defined.
End Aba.
