(* ===== verification/IdAlloc.v ===== *)
(** * Identifiers ([collection_ex::id_alloc])

    Bit vectors of [2^secondary_bits] identifiers, created on demand and indexed
    by the upper bits of the identifier. *)

From S2P Require Import Base Bits Collections RangeMap.
Local Open Scope Z_scope.
Local Open Scope h2o_scope.

Record id_alloc (B : Type) := IdAllocator {
  vecs : btree B;
  secondary_bits : Z;
  id_range : Z * Z;
  next : Z;
}.
Arguments IdAllocator {B} _ _ _ _.
Arguments vecs {B} _.
Arguments secondary_bits {B} _.
Arguments id_range {B} _.
Arguments next {B} _.

Definition into_idx (sec_bits val : Z) : Z * nat :=
  (Z.shiftr val sec_bits, Z.to_nat (Z.land val (2 ^ sec_bits - 1))).
Definition from_idx (sec_bits prim : Z) (sec : nat) : Z :=
  Z.lor (wrap W (Z.shiftl prim sec_bits)) (Z.land (Z.of_nat sec) (2 ^ sec_bits - 1)).

Section ops.
Context `{P : Profile} {B : Type} `{BV : BitVec B}.
Abbreviation M := (st (id_alloc B) Empty_set).

Definition id_new (range : Z * Z) : res Empty_set (id_alloc B) :=
  bits ← (if (fst range =? 0) && (snd range =? MAX64) then Ok 64
          else d ← snd range -! fst range; n ← d +! 1; log2c W n);
  Ok (IdAllocator bt_empty (Z.shiftr bits 1 + Z.land bits 1) range (fst range)).

(** The closure [insert_bvec]: the vector with the bit set, the id, and [next]. *)
Definition insert_bvec (s : id_alloc B) (bvec : B) (prim : Z) (sec : nat) : res Empty_set (B * Z * Z) :=
  let id := from_idx (secondary_bits s) prim sec in
  nx ← (if id =? snd (id_range s) then Ok (fst (id_range s)) else id +! 1);
  Ok (bv_set sec true bvec, id, nx).

(** [find_map] over a range of vectors. *)
Fixpoint find_zero (vs : btree B) : option (Z * B * nat) :=
  match vs with
  | [] => None
  | (prim, bvec) :: vs =>
      match bv_first_zero bvec with
      | Some sec => Some (prim, bvec, sec)
      | None => find_zero vs
      end
  end.

(** [BTreeMap::range] panics when the start is above the end. *)
Definition range_incl (lo hi : Z) (m : btree B) : res Empty_set (btree B) :=
  if hi <? lo then Panic else Ok (bt_range lo (hi + 1) m).
Definition range_excl (lo hi : Z) (m : btree B) : res Empty_set (btree B) :=
  if hi <? lo then Panic else Ok (bt_range lo hi m).

Definition commit (s : id_alloc B) (prim : Z) (r : B * Z * Z) : id_alloc B :=
  let '(bvec, _, nx) := r in
  IdAllocator (bt_insert prim bvec (vecs s)) (secondary_bits s) (id_range s) nx.

Definition allocate : M (option Z) :=
  s ← get;
  let '(prim, sec) := into_idx (secondary_bits s) (next s) in
  vs ← lift (range_incl prim (snd (id_range s)) (vecs s));
  match vs with
  | [] =>
      r ← lift (insert_bvec s (bv_zeros (2 ^ secondary_bits s)) prim sec);
      _ ← put (commit s prim r);
      mret (Some (snd (fst r)))
  | _ =>
      match find_zero vs with
      | Some (prim, bvec, sec) =>
          r ← lift (insert_bvec s bvec prim sec); _ ← put (commit s prim r); mret (Some (snd (fst r)))
      | None =>
          vs ← lift (range_excl (fst (id_range s)) prim (vecs s));
          match find_zero vs with
          | Some (prim, bvec, sec) =>
              r ← lift (insert_bvec s bvec prim sec); _ ← put (commit s prim r); mret (Some (snd (fst r)))
          | None => mret None
          end
      end
  end.

Definition deallocate (id : Z) : M () :=
  s ← get;
  let '(prim, sec) := into_idx (secondary_bits s) id in
  match bt_get prim (vecs s) with
  | None => mret ()
  | Some bvec =>
      if bool_decide (sec < length (bv_bits bvec))%nat then
        put (IdAllocator (bt_insert prim (bv_set sec false bvec) (vecs s)) (secondary_bits s) (id_range s) (next s))
      else mret ()
  end.
End ops.

(** ** Every identifier handed out is fresh *)

Section facts.
Context `{P : Profile} {B : Type} `{BV : BitVec B}.
Implicit Types (s : id_alloc B).

Definition id_used s (id : Z) : Prop :=
  ∃ bvec, bt_get (fst (into_idx (secondary_bits s) id)) (vecs s) = Some bvec ∧
    bv_bits bvec !! snd (into_idx (secondary_bits s) id) = Some true.

Record id_wf s : Prop := {
  iw_sec : 0 ≤ secondary_bits s ≤ 32;
  iw_sorted : bt_sorted (vecs s);
  iw_next : 0 ≤ next s ≤ snd (id_range s);
  iw_range : snd (id_range s) < 2 ^ 62;
  iw_vec k bvec : (k, bvec) ∈ vecs s →
    length (bv_bits bvec) = Z.to_nat (2 ^ secondary_bits s) ∧ 0 ≤ k ∧ (k + 1) * 2 ^ secondary_bits s ≤ 2 ^ 63;
}.

Lemma into_idx_eq sec val : 0 ≤ sec → 
  into_idx sec val = (val / 2 ^ sec, Z.to_nat (val mod 2 ^ sec)).
Proof. intros. unfold into_idx. by rewrite Z.shiftr_div_pow2, land_ones_mod. Qed.

Lemma from_idx_eq sec prim i :
  0 ≤ sec → 0 ≤ prim → (prim + 1) * 2 ^ sec ≤ 2 ^ 64 → Z.of_nat i < 2 ^ sec →
  from_idx sec prim i = prim * 2 ^ sec + Z.of_nat i.
Proof.
  intros Hs Hp Hm Hi. pose proof (pow2_pos sec Hs). unfold from_idx.
  rewrite land_ones_mod, Z.mod_small, Z.shiftl_mul_pow2, wrap_small by (done || lia || nia).
  apply lor_land_disjoint, land_shifted_low with sec; [lia|apply Z_mod_mult|lia].
Qed.

Lemma idx_roundtrip sec prim i :
  0 ≤ sec → 0 ≤ prim → (prim + 1) * 2 ^ sec ≤ 2 ^ 64 → Z.of_nat i < 2 ^ sec →
  into_idx sec (from_idx sec prim i) = (prim, i).
Proof.
  intros Hs Hp Hm Hi. pose proof (pow2_pos sec Hs). rewrite from_idx_eq, into_idx_eq by done.
  rewrite Z.div_add_l, Z.div_small, Z.add_0_r by lia.
  rewrite Z.add_comm, Z_mod_plus_full, Z.mod_small by lia. by rewrite Nat2Z.id.
Qed.

Lemma idx_inj sec a b : 0 ≤ sec → into_idx sec a = into_idx sec b → a = b.
Proof.
  intros Hs. rewrite !into_idx_eq by done. intros [= H1 H2]. pose proof (pow2_pos sec Hs).
  pose proof (Z.mod_pos_bound a (2 ^ sec) ltac:(lia)). pose proof (Z.mod_pos_bound b (2 ^ sec) ltac:(lia)).
  rewrite (Z.div_mod a (2 ^ sec)), (Z.div_mod b (2 ^ sec)) by lia. rewrite H1. f_equal. lia.
Qed.

(** Setting a clear bit of a vector of the map, or of a new vector. *)
Lemma commit_ok s prim bvec i :
  id_wf s → (bt_get prim (vecs s) = Some bvec ∨
             (bt_get prim (vecs s) = None ∧ bvec = bv_zeros (2 ^ secondary_bits s))) →
  0 ≤ prim → (prim + 1) * 2 ^ secondary_bits s ≤ 2 ^ 63 → bv_bits bvec !! i = Some false →
  ∃ r, insert_bvec s bvec prim i = Ok r ∧ ¬ id_used s (snd (fst r)) ∧
    ∀ j, id_used (commit s prim r) j ↔ id_used s j ∨ j = snd (fst r).
Proof.
  intros Hw Hv Hp0 Hp Hi. pose proof (iw_sec s Hw) as Hsec.
  pose proof (pow2_pos (secondary_bits s) ltac:(lia)).
  assert (length (bv_bits bvec) = Z.to_nat (2 ^ secondary_bits s)) as Hlen.
  { destruct Hv as [Hv|[_ ->]]; [|by rewrite bv_zeros_bits, length_replicate].
    apply bt_get_elem in Hv; [|apply Hw]. by apply (iw_vec s Hw prim). }
  pose proof (lookup_lt_Some _ _ _ Hi) as Hlt.
  assert (Z.of_nat i < 2 ^ secondary_bits s) as Hi' by lia.
  pose proof (idx_roundtrip (secondary_bits s) prim i ltac:(lia) Hp0 ltac:(lia) Hi') as Hrt.
  set (id := from_idx (secondary_bits s) prim i) in *.
  assert (∃ nx, insert_bvec s bvec prim i = Ok (bv_set i true bvec, id, nx)) as [nx Hr].
  { unfold insert_bvec. fold id. destruct (id =? snd (id_range s)); [by eexists|].
    eexists. rewrite uadd_ok; [done|]. unfold id. rewrite from_idx_eq by lia. nia. }
  eexists. split; [done|]. cbn [fst snd]. unfold id_used. rewrite Hrt. cbn [fst snd]. split.
  - intros (bv' & Hg & Ht). destruct Hv as [Hv|[Hv _]]; congruence.
  - intros j. cbn [commit vecs secondary_bits]. destruct (into_idx (secondary_bits s) j) as [pj ij] eqn:Ej.
    assert (j = id ↔ pj = prim ∧ ij = i) as Hj.
    { split; [intros ->; rewrite Hrt in Ej; by simplify_eq|intros [-> ->]].
      apply (idx_inj (secondary_bits s)); [lia|]. by rewrite Hrt, Ej. }
    rewrite Hj. cbn [fst snd]. pose proof (iw_sorted s Hw) as Hs.
    assert (∀ b, bt_get pj (bt_insert prim (bv_set i true bvec) (vecs s)) = Some b ↔
      (pj = prim ∧ b = bv_set i true bvec) ∨ (pj ≠ prim ∧ bt_get pj (vecs s) = Some b)) as Hg.
    { intros b. rewrite !bt_get_elem by auto using bt_insert_sorted. by apply bt_insert_elem. }
    setoid_rewrite Hg. destruct (decide (pj = prim)) as [->|Hne]; [|naive_solver].
    transitivity (bv_bits (bv_set i true bvec) !! ij = Some true); [naive_solver|].
    rewrite bv_set_bits by done. destruct (decide (ij = i)) as [->|Hnei].
    + rewrite list_lookup_insert_eq by done. naive_solver.
    + rewrite list_lookup_insert_ne by done. destruct Hv as [Hv|[Hv ->]]; [naive_solver|].
      rewrite bv_zeros_bits. split.
      * intros [Hb _]%lookup_replicate_1. done.
      * intros [(b & Hb & _)|[_ ?]]; congruence.
Qed.

Lemma find_zero_some vs prim bvec i :
  find_zero vs = Some (prim, bvec, i) → (prim, bvec) ∈ vs ∧ bv_bits bvec !! i = Some false.
Proof.
  induction vs as [|[p b] vs IH]; cbn; [done|]. destruct (bv_first_zero b) as [j|] eqn:E.
  - intros [= -> -> ->]. split; [left|]. by apply bv_first_zero_some.
  - intros [? ?]%IH. split; [by right|done].
Qed.

Lemma find_zero_none vs prim bvec :
  find_zero vs = None → (prim, bvec) ∈ vs → Forall (λ b, b = true) (bv_bits bvec).
Proof.
  induction vs as [|[p b] vs IH]; cbn; [set_solver|]. destruct (bv_first_zero b) eqn:E; [done|].
  intros H [[= -> ->]|Hin]%elem_of_cons; [by apply bv_first_zero_none|by apply IH].
Qed.

(** What an allocation means for the identifiers in use. *)
Definition id_outcome s (r : option Z) s' : Prop :=
  match r with
  | Some id => ¬ id_used s id ∧ ∀ j, id_used s' j ↔ id_used s j ∨ j = id
  | None => s' = s ∧ ∀ k bvec, (k, bvec) ∈ vecs s → k ≤ snd (id_range s) →
      Forall (λ b, b = true) (bv_bits bvec)
  end.

Lemma take_zero_ok s p b i :
  id_wf s → (p, b) ∈ vecs s → bv_bits b !! i = Some false →
  ∃ r s', (r ← lift (insert_bvec s b p i); _ ← put (commit s p r); mret (Some (snd (fst r)))) s = (Ok r, s') ∧
    id_outcome s r s'.
Proof.
  intros Hw Hin Hb. destruct (iw_vec s Hw p b Hin) as (_ & Hp0 & Hpb).
  destruct (commit_ok s p b i Hw) as (r & Hr & Hfresh & Hused); try done.
  { left. by apply bt_get_elem; [apply Hw|]. }
  rewrite (st_lift_ok _ _ _ _ Hr), st_put_bind. by eexists (Some _), _.
Qed.

(** For an allocator whose range starts at 0, [allocate] never panics; an
    identifier it returns was not in use and becomes the only new one in use; it
    returns [None] only when every identifier of every existing vector is used. *)
Theorem id_allocate_fresh s :
  id_wf s → fst (id_range s) = 0 →
  ∃ r s', allocate s = (Ok r, s') ∧ id_outcome s r s'.
Proof.
  intros Hw H0. pose proof (iw_sec s Hw) as Hsec. pose proof (iw_next s Hw) as Hnx.
  pose proof (iw_range s Hw) as Hend. pose proof (pow2_pos (secondary_bits s) ltac:(lia)) as Hpow.
  assert (2 ^ secondary_bits s ≤ 2 ^ 32) by (apply Z.pow_le_mono_r; lia).
  unfold allocate. rewrite st_get_bind, into_idx_eq by lia.
  set (prim := next s / 2 ^ secondary_bits s). set (sec := Z.to_nat (next s mod 2 ^ secondary_bits s)).
  pose proof (Z.mul_div_le (next s) (2 ^ secondary_bits s) Hpow).
  assert (0 ≤ prim ≤ snd (id_range s)) as Hprim.
  { split; [apply Z.div_pos; lia|]. etrans; [|apply Hnx]. apply Z.div_le_upper_bound; nia. }
  unfold range_incl. rewrite (proj2 (Z.ltb_ge _ prim)) by lia. rewrite (st_lift_ok (Ok _) _ s _ eq_refl).
  destruct (bt_range prim (snd (id_range s) + 1) (vecs s)) as [|b0 vs0] eqn:Evs.
  - destruct (commit_ok s prim (bv_zeros (2 ^ secondary_bits s)) sec Hw) as (r & Hr & Hfresh & Hused);
      try lia.
    { right. split; [|done]. apply bt_get_none. intros v Hin.
      assert ((prim, v) ∈ @nil (Z * B)) as []%not_elem_of_nil. rewrite <- Evs, bt_range_elem. auto with lia. }
    { rewrite bv_zeros_bits. apply lookup_replicate. split; [done|].
      pose proof (Z.mod_pos_bound (next s) (2 ^ secondary_bits s) Hpow). lia. }
    rewrite (st_lift_ok _ _ _ _ Hr), st_put_bind. by eexists (Some _), _.
  - rewrite <- Evs. destruct (find_zero (bt_range prim _ (vecs s))) as [[[p b] i]|] eqn:Ef.
    + apply find_zero_some in Ef as [[_ Hin]%bt_range_elem Hb]. by apply take_zero_ok.
    + unfold range_excl. rewrite H0, (proj2 (Z.ltb_ge prim 0)) by lia. rewrite (st_lift_ok (Ok _) _ s _ eq_refl).
      destruct (find_zero (bt_range 0 prim (vecs s))) as [[[p b] i]|] eqn:Ef'.
      * apply find_zero_some in Ef' as [[_ Hin]%bt_range_elem Hb]. by apply take_zero_ok.
      * exists None, s. split; [done|]. split; [done|]. intros k b Hin Hk.
        destruct (iw_vec s Hw k b Hin) as (_ & Hk0 & _). destruct (decide (k < prim)).
        -- apply (find_zero_none _ k b Ef'). apply bt_range_elem. auto with lia.
        -- apply (find_zero_none _ k b Ef). apply bt_range_elem. auto with lia.
Qed.
End facts.

Module Witness.
(** 0 to 15, with 0 to 3 taken and 1 returned. *)
Definition s0 : id_alloc (list bool) := IdAllocator [(0, [true; false; true; true])] 2 (0, 15) 4.

Lemma s0_wf : id_wf s0.
Proof.
  split; cbn; try done; [by apply bt_sorted_cons; split; [constructor|set_solver]|].
  intros k b [[= -> ->]|[]%not_elem_of_nil]%elem_of_cons. by split_and!.
Qed.

Lemma id_allocate_fresh_witness :
  fst (allocate (P:=debug_profile) s0) = Ok (Some 4) ∧
  ∃ r s', allocate (P:=debug_profile) s0 = (Ok r, s') ∧ id_outcome s0 r s'.
Proof.
  split; [vm_compute; reflexivity|].
  apply (id_allocate_fresh (P:=debug_profile) s0); [apply s0_wf|reflexivity].
Defined.

(** The results of [n] allocations from a new allocator. *)
Fixpoint allocs (n : nat) (s : id_alloc (list bool)) : list (res Empty_set (option Z)) :=
  match n with
  | O => []
  | S n => let '(r, s) := allocate (P:=debug_profile) s in r :: allocs n s
  end.

Definition run (range : Z * Z) (n : nat) : list (res Empty_set (option Z)) :=
  match id_new (P:=debug_profile) range with Ok s => allocs n s | _ => [] end.

(** Identifiers outside the range are handed out when its bounds are not
    multiples of the vector size: an allocator for [1..=10] returns 0, and one
    for [0..=4] returns 5. *)
Theorem id_out_of_range :
  run (1, 10) 2 = [Ok (Some 1); Ok (Some 0)] ∧
  run (0, 4) 6 = [Ok (Some 0); Ok (Some 1); Ok (Some 2); Ok (Some 3); Ok (Some 4); Ok (Some 5)].
Proof. vm_compute. auto. Qed.
End Witness.
