(* ===== verification/SysCall.v ===== *)
(** * The system call boundary: error codes, registers and handles
    ([h2o/libs/syscall])

    A system call passes its arguments and its result in registers of 64 bits;
    [SerdeReg] is the conversion, and errors are small negative numbers in the
    same register as the result. Handles are numbers and rights are sets of flags. *)

From stdpp Require Import strings.
From S2P Require Import Base Bits.
Local Open Scope Z_scope.
Local Open Scope h2o_scope.

(** ** Signed 32-bit integers *)

(** [val as i32]. *)
Definition as_i32 (v : Z) : Z :=
  let m := v mod 2 ^ 32 in if m <? 2 ^ 31 then m else m - 2 ^ 32.

(** [-v] on [i32]: the least value has no opposite. *)
Definition neg_i32 {E} `{P : Profile} (v : Z) : res E Z :=
  if v =? - 2 ^ 31 then if overflow_checks then Panic else Ok v else Ok (- v).

(** [v as usize] from [i32]: the sign is extended. *)
Definition i32_as_usize (v : Z) : Z := wrap W v.

(** ** Error codes ([error.rs]) *)

Record errno := Errno { raw : Z }.
#[export] Instance errno_eq_dec : EqDecision errno.
Proof. solve_decision. Defined.

Definition ERRC_RANGE : Z * Z := (1, 35).
Definition CUSTOM_RANGE : Z * Z := (1001, 1007).
Definition CUSTOM_OFFSET : Z := fst CUSTOM_RANGE.
Definition range_has (r : Z * Z) (x : Z) : bool := (fst r <=? x) && (x <? snd r).

Definition OK : errno := Errno (0).
Definition EPERM : errno := Errno (-1).
Definition ENOENT : errno := Errno (-2).
Definition ESRCH : errno := Errno (-3).
Definition EINTR : errno := Errno (-4).
Definition EIO : errno := Errno (-5).
Definition ENXIO : errno := Errno (-6).
Definition E2BIG : errno := Errno (-7).
Definition ENOEXEC : errno := Errno (-8).
Definition EBADF : errno := Errno (-9).
Definition ECHILD : errno := Errno (-10).
Definition EAGAIN : errno := Errno (-11).
Definition ENOMEM : errno := Errno (-12).
Definition EACCES : errno := Errno (-13).
Definition EFAULT : errno := Errno (-14).
Definition ENOTBLK : errno := Errno (-15).
Definition EBUSY : errno := Errno (-16).
Definition EEXIST : errno := Errno (-17).
Definition EXDEV : errno := Errno (-18).
Definition ENODEV : errno := Errno (-19).
Definition ENOTDIR : errno := Errno (-20).
Definition EISDIR : errno := Errno (-21).
Definition EINVAL : errno := Errno (-22).
Definition ENFILE : errno := Errno (-23).
Definition EMFILE : errno := Errno (-24).
Definition ENOTTY : errno := Errno (-25).
Definition ETXTBSY : errno := Errno (-26).
Definition EFBIG : errno := Errno (-27).
Definition ENOSPC : errno := Errno (-28).
Definition ESPIPE : errno := Errno (-29).
Definition EROFS : errno := Errno (-30).
Definition EMLINK : errno := Errno (-31).
Definition EPIPE : errno := Errno (-32).
Definition EDOM : errno := Errno (-33).
Definition ERANGE : errno := Errno (-34).
Definition EKILLED : errno := Errno (-1001).
Definition EBUFFER : errno := Errno (-1002).
Definition ETIME : errno := Errno (-1003).
Definition EALIGN : errno := Errno (-1004).
Definition ETYPE : errno := Errno (-1005).
Definition ESPRT : errno := Errno (-1006).

Definition ERRC_NAME : list string :=
  ["OK"; "EPERM"; "ENOENT"; "ESRCH"; "EINTR"; "EIO"; "ENXIO"; "E2BIG"; "ENOEXEC"; "EBADF";
   "ECHILD"; "EAGAIN"; "ENOMEM"; "EACCES"; "EFAULT"; "ENOTBLK"; "EBUSY"; "EEXIST"; "EXDEV";
   "ENODEV"; "ENOTDIR"; "EISDIR"; "EINVAL"; "ENFILE"; "EMFILE"; "ENOTTY"; "ETXTBSY"; "EFBIG";
   "ENOSPC"; "ESPIPE"; "EROFS"; "EMLINK"; "EPIPE"; "EDOM"; "ERANGE"].
Definition ERRC_DESC : list string :=
  ["Success";
   "Operation not permitted";
   "No such file or directory";
   "No such process";
   "Interrupted system call";
   "I/O error";
   "No such device or address";
   "Argument list too long";
   "Executable format error";
   "Bad file number";
   "No child processes";
   "Try again";
   "Out of memory";
   "Permission denied";
   "Bad address";
   "Block device required";
   "Device or resource busy";
   "File exists";
   "Cross-device link";
   "No such device";
   "Not a directory";
   "Is a directory";
   "Invalid argument";
   "File table overflow";
   "Too many open files";
   "Not a typewriter";
   "Text file busy";
   "File too large";
   "No space left on device";
   "Illegal seek";
   "Read-only file system";
   "Too many links";
   "Broken pipe";
   "Math argument out of domain of func";
   "Range not available"].
Definition CUSTOM_NAME : list string := ["EKILLED"; "EBUFFER"; "ETIME"; "EALIGN"; "ETYPE";
   "ESPRT"].
Definition CUSTOM_DESC : list string :=
  ["Object already killed";
   "Buffer range exceeded";
   "Timed out";
   "Pointer unaligned";
   "Object type mismatch";
   "Function not supported"].

Definition error_name (e : errno) : res Empty_set string :=
  let index := - raw e in
  if range_has ERRC_RANGE index then unwrap (ERRC_NAME !! Z.to_nat index)
  else if index <? CUSTOM_OFFSET then Panic else unwrap (CUSTOM_NAME !! Z.to_nat (index - CUSTOM_OFFSET)).

Definition error_desc (e : errno) : res Empty_set string :=
  let index := - raw e in
  if range_has ERRC_RANGE index then unwrap (ERRC_DESC !! Z.to_nat index)
  else if index <? CUSTOM_OFFSET then Panic else unwrap (CUSTOM_DESC !! Z.to_nat (index - CUSTOM_OFFSET)).

(** ** Registers ([call/reg.rs]) *)

Class SerdeReg (T : Type) := {
  encode : T → Z;
  decode : Z → res Empty_set T;
}.

(** What the conversions of plain values promise. *)
Class SerdeRegLaws (T : Type) `{SR : SerdeReg T} := {
  encode_range t : 0 ≤ encode t < 2 ^ 64;
  decode_encode t : decode (encode t) = Ok t;
}.

(** An unsigned integer of [w] bits, such as [u8], [u32] or [usize]. *)
Record uint (w : Z) := Uint { uval : Z }.
Arguments Uint {w} _.
Arguments uval {w} _.
#[export] Instance SerdeReg_uint w : SerdeReg (uint w) :=
  { encode v := uval v; decode r := Ok (Uint (wrap w r)) }.

#[export] Instance SerdeReg_bool : SerdeReg bool :=
  { encode b := if b then 1 else 0; decode v := Ok (negb (v =? 0)) }.

#[export] Instance SerdeReg_unit : SerdeReg () := { encode _ := 0; decode _ := Ok () }.

#[export] Program Instance SerdeRegLaws_bool : SerdeRegLaws bool.
Next Obligation. by intros []. Qed.
Next Obligation. by intros []. Qed.
#[export] Program Instance SerdeRegLaws_unit : SerdeRegLaws ().
Next Obligation. done. Qed.
Next Obligation. by intros []. Qed.

(** Handles ([call/hdl.rs]). *)
Record Handle := MkHandle { hraw : Z }.
#[export] Instance Handle_eq_dec : EqDecision Handle.
Proof. solve_decision. Defined.
Definition HANDLE_NULL : Handle := MkHandle 0.
Definition is_null (h : Handle) : bool := hraw h =? 0.
Definition check_null (h : Handle) : res errno Handle := if negb (hraw h =? 0) then Ok h else Err EINVAL.
Definition handle_try_from (ptr : Z) : res errno Handle := check_null (MkHandle (wrap 32 ptr)).
#[export] Instance SerdeReg_Handle : SerdeReg Handle :=
  { encode h := hraw h; decode v := Ok (MkHandle (wrap 32 v)) }.

(** Rights of a handle ([feat.rs]) and flags of memory ([mem.rs]). *)
Module Feature.
Definition SEND : Z := 2 ^ 0.
Definition SYNC : Z := 2 ^ 1.
Definition READ : Z := 2 ^ 2.
Definition WRITE : Z := 2 ^ 3.
Definition EXECUTE : Z := 2 ^ 4.
Definition WAIT : Z := 2 ^ 5.
Definition all : Z := 2 ^ 6 - 1.
Definition from_bits_truncate (b : Z) : Z := Z.land b all.
Definition contains (a b : Z) : bool := Z.land a b =? b.
End Feature.

Module Flags.
Definition USER_ACCESS : Z := 1.
Definition READABLE : Z := 2 ^ 1.
Definition WRITABLE : Z := 2 ^ 2.
Definition EXECUTABLE : Z := 2 ^ 3.
Definition UNCACHED : Z := 2 ^ 4.
Definition all : Z := 2 ^ 5 - 1.
Definition from_bits_truncate (b : Z) : Z := Z.land b all.
Definition contains (a b : Z) : bool := Z.land a b =? b.
Definition intersects (a b : Z) : bool := negb (Z.land a b =? 0).
End Flags.

(** ** Results in a register ([error.rs], [error/c_ty.rs]) *)

Section results.
Context `{P : Profile}.

Definition try_decode (val : Z) : res Empty_set (option errno) :=
  err ← neg_i32 (as_i32 val);
  Ok (if range_has ERRC_RANGE err || range_has CUSTOM_RANGE err then Some (Errno (- err)) else None).

#[export] Instance SerdeReg_result T `{SerdeReg T} : SerdeReg (errno + T) := {
  encode r := match r with inl e => i32_as_usize (raw e) | inr t => encode t end;
  decode val :=
    o ← try_decode val;
    match o with
    | Some e => Ok (inl e)
    | None => t ← decode val; Ok (inr t)
    end;
}.

Definition into_retval (e : errno) : Z := encode (inl e : errno + ()).
Definition try_from_retval (retval : Z) : res Empty_set (option errno) := try_decode retval.

(** [Status]. *)
Record Status := MkStatus { serror : errno }.
#[export] Instance SerdeReg_Status : SerdeReg Status := {
  encode s := i32_as_usize (- raw (serror s));
  decode val := o ← try_decode val; Ok (MkStatus (default OK o));
}.
Definition status_into_res (s : Status) : errno + () :=
  if bool_decide (serror s = OK) then inr () else inl (serror s).
Definition status_from_res (r : errno + ()) : res Empty_set Status := decode (encode r).
End results.

(** ** Facts *)

(** An error that the library declares. *)
Definition declared (e : errno) : Prop :=
  1 ≤ - raw e < 35 ∨ 1001 ≤ - raw e < 1007.

(** The low half of the register looks like an error. *)
Definition looks_like_error (v : Z) : Prop := ∃ e, declared e ∧ v mod 2 ^ 32 = 2 ^ 32 + raw e.

Section facts.
Context `{P : Profile}.

Lemma range_has_iff r x : range_has r x = true ↔ fst r ≤ x < snd r.
Proof. unfold range_has. rewrite andb_true_iff, Z.leb_le, Z.ltb_lt. lia. Qed.

Lemma as_i32_range v : - 2 ^ 31 ≤ as_i32 v < 2 ^ 31.
Proof.
  unfold as_i32. pose proof (Z.mod_pos_bound v (2 ^ 32) ltac:(lia)).
  destruct (Z.ltb_spec (v mod 2 ^ 32) (2 ^ 31)); lia.
Qed.

Lemma as_i32_neg v c : 0 < c < 2 ^ 31 → as_i32 v = - c ↔ v mod 2 ^ 32 = 2 ^ 32 - c.
Proof.
  intros Hc. unfold as_i32. pose proof (Z.mod_pos_bound v (2 ^ 32) ltac:(lia)).
  destruct (Z.ltb_spec (v mod 2 ^ 32) (2 ^ 31)); lia.
Qed.

Lemma try_decode_error v e : declared e → v mod 2 ^ 32 = 2 ^ 32 + raw e → try_decode v = Ok (Some e).
Proof.
  intros Hd Hv. unfold try_decode.
  assert (as_i32 v = raw e) as ->.
  { replace (raw e) with (- - raw e) by lia. apply as_i32_neg; unfold declared in Hd; lia. }
  unfold neg_i32. rewrite (proj2 (Z.eqb_neq _ _)) by (unfold declared in Hd; lia). cbn.
  assert (range_has ERRC_RANGE (- raw e) || range_has CUSTOM_RANGE (- raw e) = true) as ->.
  { apply orb_true_iff. rewrite !range_has_iff. unfold declared in Hd. cbn. lia. }
  by rewrite Z.opp_involutive; destruct e.
Qed.

Lemma try_decode_none v :
  ¬ looks_like_error v → (overflow_checks = true → v mod 2 ^ 32 ≠ 2 ^ 31) → try_decode v = Ok None.
Proof.
  intros Hn Hmin. unfold try_decode, neg_i32. pose proof (as_i32_range v) as Hr.
  destruct (Z.eqb_spec (as_i32 v) (- 2 ^ 31)) as [E|E].
  - destruct overflow_checks eqn:Ho; [|by rewrite E].
    exfalso. apply Hmin; [done|]. unfold as_i32 in E. pose proof (Z.mod_pos_bound v (2 ^ 32) ltac:(lia)).
    destruct (Z.ltb_spec (v mod 2 ^ 32) (2 ^ 31)); lia.
  - cbn. destruct (_ || _) eqn:Hor; [|done]. exfalso. apply Hn.
    rewrite orb_true_iff, !range_has_iff in Hor. cbn in Hor.
    exists (Errno (as_i32 v)). unfold declared. cbn. split; [lia|].
    assert (as_i32 v = - - as_i32 v) as Heq by lia. apply as_i32_neg in Heq; lia.
Qed.

Lemma encode_error_mod e : declared e → i32_as_usize (raw e) mod 2 ^ 32 = 2 ^ 32 + raw e.
Proof.
  intros Hd. unfold i32_as_usize, wrap. change (2 ^ 64) with (2 ^ 32 * 2 ^ 32).
  rewrite Z.rem_mul_r by lia. rewrite Z.mul_comm, Z_mod_plus_full, Z.mod_mod by lia.
  symmetry. apply Z.mod_unique with (-1); unfold declared in Hd; lia.
Qed.
End facts.

(** A result sent through a register is received as sent: every declared
    error comes back, and a value comes back exactly when the low half of its
    encoding is not that of an error (with overflow checks, nor 0x80000000, on
    which decoding panics). *)
Theorem result_roundtrip `{P : Profile} (T : Type) `{!SerdeReg T} `{!SerdeRegLaws T} :
  (∀ e, declared e → decode (encode (inl e : errno + T)) = Ok (inl e)) ∧
  (∀ t, decode (encode (inr t : errno + T)) = Ok (inr t) ↔
    ¬ looks_like_error (encode t) ∧ (overflow_checks = true → encode t mod 2 ^ 32 ≠ 2 ^ 31)).
Proof.
  split.
  - intros e Hd. cbn. rewrite (try_decode_error _ e); [done|done|]. by apply encode_error_mod.
  - intros t. cbn. split.
    + intros H. split.
      * intros (e & Hd & He). by rewrite (try_decode_error _ e) in H.
      * intros Ho Hm. unfold try_decode in H. assert (as_i32 (encode t) = - 2 ^ 31) as E.
        { unfold as_i32. rewrite Hm. done. }
        unfold neg_i32 in H. by rewrite E, Z.eqb_refl, Ho in H.
    + intros [Hn Hm]. rewrite try_decode_none by done. cbn. by rewrite decode_encode.
Qed.

Lemma result_roundtrip_witness :
  let S := SerdeReg_result (P:=debug_profile) bool in
  decode (SerdeReg:=S) (encode (SerdeReg:=S) (inl EPIPE)) = Ok (inl EPIPE).
Proof.
  assert (declared EPIPE) as Hd by (unfold declared; cbn; lia).
  exact (proj1 (result_roundtrip (P:=debug_profile) bool) EPIPE Hd).
Defined.

(** The unions returned to C callers hold the register itself. *)
Definition StatusOrHandle : Type := Z.
Definition StatusOrValue : Type := Z.
Definition soh_into_res `{P : Profile} (s : StatusOrHandle) : res Empty_set (errno + Handle) := decode s.
Definition soh_from_res `{P : Profile} (r : errno + Handle) : StatusOrHandle := encode r.
Definition sov_into_res `{P : Profile} (s : StatusOrValue) : res Empty_set (errno + uint 64) := decode s.
Definition sov_from_res `{P : Profile} (r : errno + uint 64) : StatusOrValue := encode r.

Section status.
Context `{P : Profile}.

Lemma encode_status_mod e : declared e → i32_as_usize (- raw e) mod 2 ^ 32 = - raw e.
Proof.
  intros Hd. unfold declared in Hd. unfold i32_as_usize. rewrite wrap_small by lia.
  apply Z.mod_small. lia.
Qed.
End status.

(** [Status::from_res] followed by [into_res] gives back the result, but a
    status that is itself passed through a register loses its error: [encode]
    writes the positive code, which [decode] reads as success. *)
Theorem status_loses_error `{P : Profile} e :
  declared e →
  (∃ s, status_from_res (inl e) = Ok s ∧ status_into_res s = inl e) ∧
  decode (encode (MkStatus e)) = Ok (MkStatus OK).
Proof.
  intros Hd. split.
  - exists (MkStatus e). split.
    + unfold status_from_res. cbn. rewrite (try_decode_error _ e); [done|done|]. by apply encode_error_mod.
    + unfold status_into_res. rewrite bool_decide_eq_false_2; [done|].
      cbn. intros ->. unfold declared in Hd. cbn in Hd. lia.
  - cbn. rewrite try_decode_none; [done| |].
    + intros (e' & Hd' & He'). rewrite encode_status_mod in He' by done.
      unfold declared in Hd, Hd'. lia.
    + intros _. rewrite encode_status_mod by done. unfold declared in Hd. lia.
Qed.

Lemma status_loses_error_witness :
  decode (SerdeReg:=SerdeReg_Status (P:=debug_profile))
    (encode (SerdeReg:=SerdeReg_Status (P:=debug_profile)) (MkStatus EPERM)) = Ok (MkStatus OK).
Proof. apply (status_loses_error (P:=debug_profile) EPERM). unfold declared. cbn. lia. Defined.

(** Every declared error has a name and a description; [OK] has neither: the
    formatting code reads the table of the custom errors out of range. *)
Definition named (c : Z) : bool := is_ok (error_name (Errno (- c))) && is_ok (error_desc (Errno (- c))).

Lemma error_name_total e : declared e → named (- raw e) = true.
Proof.
  intros Hd. unfold declared in Hd.
  assert (forallb named (seqZ 1 34 ++ seqZ 1001 6) = true) as H by (vm_compute; reflexivity).
  rewrite forallb_forall in H. apply H, list_elem_of_In, elem_of_app. rewrite !elem_of_seqZ. lia.
Qed.

(** What the formatting code does on [OK] (and so on a successful
    [Status]): it panics; and what a register holding a plain value can be
    taken for. *)
Example error_corner_cases :
  error_name OK = Panic ∧ error_desc OK = Panic ∧
  sov_into_res (P:=debug_profile) (sov_from_res (P:=debug_profile) (inr (Uint 0xFFFFFFFF))) = Ok (inl EPERM) ∧
  sov_into_res (P:=debug_profile) (sov_from_res (P:=debug_profile) (inr (Uint 0x100000000 )))
    = Ok (inr (Uint 0x100000000)) ∧
  sov_into_res (P:=debug_profile) (sov_from_res (P:=debug_profile) (inr (Uint 0x80000000))) = Panic.
Proof. vm_compute. auto. Qed.
