(* ===== verification/UserPtr.v ===== *)
(** * Pointers from user space ([kernel/src/syscall/user_ptr.rs])

    A pointer is an address together with the size and the alignment of the type
    it points to. The copy itself is written in assembly and is a parameter: it
    returns the error code and the address plus one of a page fault, both zero
    when the copy was complete, and the memory afterwards. *)

From S2P Require Import Base Bits SysCall.
Local Open Scope Z_scope.
Local Open Scope h2o_scope.

Definition USER_BASE : Z := 0x100000.
Definition USER_END : Z := 0x7FFF00000000.

Record user_ptr := UserPtr { data : Z; size_of : Z; align_of : Z }.

Definition as_ptr (p : user_ptr) : Z := data p.
Definition cast_to (p : user_ptr) (size align : Z) : user_ptr := UserPtr (data p) size align.

Record CheckedCopyRet := Ret { errc : Z; addr_p1 : Z }.

Section user_ptr.
Context `{P : Profile}.

Definition saturating_add (a b : Z) : Z := Z.min (a + b) MAX64.

Definition check_ptr (ptr size align : Z) : res errno () :=
  let is_in_range := (USER_BASE <=? ptr) && (saturating_add ptr size <=? USER_END) in
  m ← align -! 1;
  let is_aligned := Z.land ptr m =? 0 in
  if negb is_in_range && (size >? 0) then Err EPERM
  else if negb is_aligned then Err EALIGN
  else Ok ().

Definition check (p : user_ptr) : res errno () := check_ptr (data p) (size_of p) (align_of p).

Definition check_slice (p : user_ptr) (len : Z) : res errno () :=
  n ← size_of p *! len;
  check_ptr (data p) n (align_of p).

Definition into_result (r : CheckedCopyRet) : res errno () :=
  if negb (errc r =? 0) || negb (addr_p1 r =? 0) then
    _ ← addr_p1 r -! 1;
    Err EPERM
  else Ok ().

(** [M] is the memory and [current] tells whether a task is running. *)
Context {M : Type} (checked_copy : Z → Z → Z → M → CheckedCopyRet * M) (current : bool).

Definition pf_resume : res errno () := if current then Ok () else Err ESRCH.

Definition copy (dst src n : Z) : st M errno () := λ m,
  let '(r, m) := checked_copy dst src n m in (into_result r, m).

(** [out], [value]: the address of the local object on the kernel's side. *)
Definition read (p : user_ptr) (out : Z) : st M errno () :=
  _ ← lift (check p);
  _ ← lift pf_resume;
  copy out (data p) (size_of p).

Definition read_slice (p : user_ptr) (out count : Z) : st M errno () :=
  _ ← lift (check_slice p count);
  _ ← lift pf_resume;
  n ← lift (count *! size_of p);
  copy out (data p) n.

Definition write (p : user_ptr) (value : Z) : st M errno () :=
  _ ← lift (check p);
  _ ← lift pf_resume;
  copy (data p) value (size_of p).

Definition write_slice (p : user_ptr) (value len : Z) : st M errno () :=
  _ ← lift (check_slice p len);
  _ ← lift pf_resume;
  n ← lift (len *! size_of p);
  copy (data p) value n.
End user_ptr.

(** ** Facts *)

(** [n] bytes at [a] are in the part of the address space of user tasks. *)
Definition in_user (a n : Z) : Prop := USER_BASE ≤ a ∧ a + n ≤ USER_END.

Record ptr_wf (p : user_ptr) : Prop := {
  pw_data : 0 ≤ data p < 2 ^ 64;
  pw_size : 0 ≤ size_of p < 2 ^ 63;
  pw_align : ∃ k, 0 ≤ k < 63 ∧ align_of p = 2 ^ k;
}.

Section facts.
Context `{P : Profile}.

Lemma check_ptr_ok ptr size k :
  0 ≤ ptr < 2 ^ 64 → 0 ≤ k < 63 →
  check_ptr ptr size (2 ^ k) = Ok () →
  ptr mod 2 ^ k = 0 ∧ (0 < size → in_user ptr size).
Proof.
  intros Hp Hk. unfold check_ptr. pose proof (pow2_pos k ltac:(lia)).
  pose proof (Z.pow_lt_mono_r 2 k 63 ltac:(lia) ltac:(lia) ltac:(lia)).
  rewrite usub_ok by lia. cbn [mbind res_bind]. rewrite land_ones_mod by lia.
  destruct (negb _ && _) eqn:E1; [done|]. destruct (negb (_ =? 0)) eqn:E2; [done|]. intros _.
  zbool. split; [done|]. intros Hs. rewrite andb_false_iff in E1.
  destruct E1 as [E1|E1]; [|rewrite Z.gtb_ltb in E1; zbool; lia]. zbool.
  unfold in_user, saturating_add, MAX64, USER_END in *. lia.
Qed.

Lemma umul_comm {E} a b : umul (E:=E) W a b = umul W b a.
Proof. unfold umul. by rewrite Z.mul_comm. Qed.

Lemma umul_range {E} a b n : umul (E:=E) W a b = Ok n → 0 ≤ n < 2 ^ 64.
Proof.
  unfold umul, checked. destruct (fits W (a * b)) eqn:Hf.
  - intros [= <-]. by apply fits_iff.
  - destruct overflow_checks; [done|]. intros [= <-]. by apply wrap_bound.
Qed.
End facts.

(** What a call did with the memory: nothing, or one copy of [n] bytes whose
    user side is in the user part. *)
Definition copied_at_user {M} (checked_copy : Z → Z → Z → M → CheckedCopyRet * M)
    (to_user : bool) (p : user_ptr) (m m' : M) : Prop :=
  m' = m ∨ ∃ k n, (n = 0 ∨ in_user (data p) n) ∧
    m' = snd (if to_user then checked_copy (data p) k n m else checked_copy k (data p) n m).

Section safety.
Context `{P : Profile} {M : Type} (checked_copy : Z → Z → Z → M → CheckedCopyRet * M) (current : bool).

Lemma copy_snd dst src n m : snd (copy checked_copy dst src n m) = snd (checked_copy dst src n m).
Proof. unfold copy. by destruct (checked_copy dst src n m). Qed.

Lemma check_in_user p n :
  ptr_wf p → 0 ≤ n → check_ptr (data p) n (align_of p) = Ok () → n = 0 ∨ in_user (data p) n.
Proof.
  intros [Hd Hs (k & Hk & Ha)] Hn Hc. rewrite Ha in Hc.
  apply check_ptr_ok in Hc as [_ Hc]; [|done..]. destruct (decide (n = 0)); [by left|right]. apply Hc. lia.
Qed.

(** The two shapes of the accesses. *)
Lemma access_safe (to_user : bool) p k m (n : res errno Z) :
  ptr_wf p →
  (∀ z, n = Ok z → 0 ≤ z) →
  let go z := if to_user then copy checked_copy (data p) k z else copy checked_copy k (data p) z in
  copied_at_user checked_copy to_user p m
    (snd ((_ ← lift (z ← n; check_ptr (data p) z (align_of p)); _ ← lift (pf_resume current);
           z ← lift n; go z) m)).
Proof.
  intros Hp Hn go. destruct n as [z|e|]; [|by left..]. cbn [mbind res_bind].
  destruct (check_ptr (data p) z (align_of p)) as [[]|e|] eqn:Hc; [|by left..].
  unfold pf_resume. destruct current; [|by left]. right. exists k, z. split.
  - apply check_in_user; [done| |done]. by apply Hn.
  - unfold mbind, st_bind, lift, go. destruct to_user; apply copy_snd.
Qed.
End safety.

(** C14: Whatever pointer and length a user task passes, [read], [read_slice],
    [write] and [write_slice] leave memory alone or do one copy whose user side
    lies in the user part of the address space, with overflow checks or without. *)
Theorem user_access_safe `{P : Profile} {M} (checked_copy : Z → Z → Z → M → CheckedCopyRet * M)
    (current : bool) p k len m :
  ptr_wf p →
  copied_at_user checked_copy false p m (snd (read checked_copy current p k m)) ∧
  copied_at_user checked_copy false p m (snd (read_slice checked_copy current p k len m)) ∧
  copied_at_user checked_copy true p m (snd (write checked_copy current p k m)) ∧
  copied_at_user checked_copy true p m (snd (write_slice checked_copy current p k len m)).
Proof.
  intros Hp.
  pose proof (λ b, access_safe checked_copy current b p k m (Ok (size_of p)) Hp) as H1.
  pose proof (λ b, access_safe checked_copy current b p k m (size_of p *! len) Hp) as H2.
  assert (∀ z, size_of p *! len = @Ok errno Z z → 0 ≤ z) as Hz.
  { intros z Hz%umul_range. lia. }
  assert (∀ z, Ok (size_of p) = @Ok errno Z z → 0 ≤ z) as Hs.
  { intros z [= <-]. apply Hp. }
  unfold read_slice, write_slice. rewrite (umul_comm len).
  split; [exact (H1 false Hs)|]. split; [exact (H2 false Hz)|].
  split; [exact (H1 true Hs)|exact (H2 true Hz)].
Qed.

Lemma user_access_safe_witness :
  let p := UserPtr 0x200000 4 4 in
  copied_at_user (λ _ _ n _, (Ret 0 0, n)) true p 0
    (snd (write_slice (P:=debug_profile) (λ _ _ n _, (Ret 0 0, n)) true p 0x1000 3 0)).
Proof.
  intros p. apply (user_access_safe (P:=debug_profile) (λ _ _ n _, (Ret 0 0, n)) true p 0x1000 3 0).
  split; [cbn; lia..|]. exists 2. split; [lia|done].
Defined.

(** [check_slice] alone does not promise that the elements are in the user
    part: without overflow checks a length of 2^62 elements of 4 bytes makes the
    product zero, and an address of the kernel passes; with them the call
    panics. An ordinary length is refused. *)
Example check_slice_wraps :
  let p := UserPtr 0xFFFF800000000000 4 4 in
  check_slice (P:=release_profile) p (2 ^ 62) = Ok () ∧
  check_slice (P:=debug_profile) p (2 ^ 62) = Panic ∧
  check_slice (P:=release_profile) p 16 = Err EPERM ∧
  check_slice (P:=release_profile) (UserPtr 0x200001 4 4) 16 = Err EALIGN.
Proof. vm_compute. auto. Qed.
