(* ===== verification/Ext.v ===== *)
(** * Extensible physical objects ([kernel/src/mem/space/phys/extensible.rs])

    An object is a list of pages that are allocated when they are first written.
    [create_sub] makes a copy of a part of an object without copying: the pages
    move to a hidden branch, of which the object and its copy are the children;
    the first child to write a page copies it, and then the other one takes it.
    Objects and branches are known by their identity, so that sharing is kept.
    Locks are never contended when calls are run one after the other. Calls of
    [Event::notify] of an object are recorded in [notified]. *)

From S2P Require Import Base Bits Mem Buddy Paging SysCall UserPtr.
Local Open Scope Z_scope.
Local Open Scope h2o_scope.

(** ** Data *)

Record Page := MkPage { base : Z; ptr : Z }.

Inductive perror :=
  | Alloc
  | WouldBlock
  | OutOfRange (index : Z)
  | Pinned
  | MaxPinCount
  | Other (e : errno).

Definition into_errno (e : perror) : errno :=
  match e with
  | Alloc => ENOMEM
  | WouldBlock => EAGAIN
  | OutOfRange _ => ERANGE
  | Pinned => EBUSY
  | MaxPinCount => EFAULT
  | Other e => e
  end.

Inductive Commit := Insert (p : Page) | CRef (base : Z).

Inductive PageState := ShouldCopy | ShouldMove.

Record PageNode := MkNode { state : PageState; page : option Page; npin_count : Z }.
Definition node_new (p : Page) : PageNode := MkNode ShouldCopy (Some p) 0.

Record PageList := MkPageList {
  branch : bool;
  parent : option nat;
  parent_start : Z;
  parent_end : Z;
  nodes : gmap Z PageNode;
  count : Z;
  pin_count : Z;
}.

Record ExtPhys := MkExt { elen : Z; plist : PageList }.

Record ext_state (A : Type) := ExtState {
  objs : gmap nat ExtPhys;
  emem : memory;
  source : A;
  notified : list nat;
}.
Arguments ExtState {A} _ _ _ _.
Arguments objs {A} _.
Arguments emem {A} _.
Arguments source {A} _.
Arguments notified {A} _.

Definition set_node (l : PageList) (i : Z) (n : PageNode) : PageList :=
  MkPageList (branch l) (parent l) (parent_start l) (parent_end l) (<[i := n]> (nodes l)) (count l) (pin_count l).
Definition del_node (l : PageList) (i : Z) : PageList :=
  MkPageList (branch l) (parent l) (parent_start l) (parent_end l) (delete i (nodes l)) (count l) (pin_count l).
Definition set_pin_count (l : PageList) (n : Z) : PageList :=
  MkPageList (branch l) (parent l) (parent_start l) (parent_end l) (nodes l) (count l) n.

Section ext.
Context `{P : Profile} {A : Type} `{PS : PageSource A}.
(** The physical address of [ZERO_PAGE]. *)
Context (zero_base : Z).

Abbreviation ext_m := (st (ext_state A) perror).

Definition get_list (id : nat) : ext_m PageList :=
  s ← get; o ← lift (unwrap (objs s !! id)); mret (plist o).
Definition set_list (id : nat) (l : PageList) : ext_m () :=
  modify (λ s, ExtState (alter (λ o, MkExt (elen o) l) id (objs s)) (emem s) (source s) (notified s)).
Definition set_mem (m : memory) : ext_m () :=
  modify (λ s, ExtState (objs s) m (source s) (notified s)).
Definition notify_rw (id : nat) : ext_m () :=
  modify (λ s, ExtState (objs s) (emem s) (source s) (notified s ++ [id])).

(** *** Pages *)

(** [Page::allocate]. *)
Definition page_allocate : ext_m (option Page) := λ s,
  match pg_allocate (source s) with
  | (None, a) => (Ok None, ExtState (objs s) (emem s) a (notified s))
  | (Some p, a) =>
      let s' := ExtState (objs s) (memset p 0 PAGE_SIZE (emem s)) a (notified s) in
      match to_paddr (E:=perror) p ID_OFFSET with
      | Ok b => (Ok (Some (MkPage b p)), s')
      | _ => (Panic, s')
      end
  end.

Definition page_copy_from (p : Page) (addr : Z) : ext_m () :=
  src ← lift (to_laddr addr ID_OFFSET);
  s ← get;
  set_mem (memcpy (ptr p) src PAGE_SIZE (emem s)).

(** [Drop for Page]. *)
Definition page_drop (p : Page) : ext_m () :=
  modify (λ s, ExtState (objs s) (emem s) (pg_deallocate (ptr p) (source s)) (notified s)).

Definition page_drop_opt (p : option Page) : ext_m () :=
  match p with Some p => page_drop p | None => mret () end.

(** *** Nodes: the new node with the result *)

Definition get_from_branch (n : PageNode) (write : bool) : ext_m (Commit * bool * PageNode) :=
  match state n with
  | ShouldCopy =>
      if write then
        o ← page_allocate;
        p ← lift (of_option Alloc o);
        src ← lift (unwrap (page n));
        _ ← page_copy_from p (base src);
        mret (Insert p, false, MkNode ShouldMove (page n) (npin_count n))
      else
        p ← lift (unwrap (page n));
        mret (CRef (base p), false, n)
  | ShouldMove =>
      p ← lift (unwrap (page n));
      mret (Insert p, true, MkNode (state n) None (npin_count n))
  end.

Definition get_from_leaf (n : PageNode) (write : bool) : ext_m (Z * PageNode) :=
  match page n with
  | Some p => mret (base p, n)
  | None =>
      if write then
        o ← page_allocate;
        p ← lift (of_option Alloc o);
        mret (base p, MkNode (state n) (Some p) (npin_count n))
      else mret (zero_base, n)
  end.

(** *** Page lists *)

(** What is left when neither the list nor its parent has the page. *)
Definition commit_new (id : nat) (index : Z) (write : bool) : ext_m Commit :=
  if negb write then mret (CRef zero_base)
  else
    o ← page_allocate;
    p ← lift (of_option Alloc o);
    l ← get_list id;
    if branch l then mret (Insert p)
    else
      _ ← set_list id (set_node l index (node_new p));
      mret (CRef (base p)).

(** [PageList::commit_impl]; the fuel bounds the length of the chain of parents. *)
Fixpoint commit_impl (fuel : nat) (id : nat) (index : Z) (write : bool) : ext_m Commit :=
  match fuel with
  | O => lift Panic
  | S fuel =>
      l ← get_list id;
      if count l <=? index then lift (Err (OutOfRange index))
      else
        match nodes l !! index with
        | Some n =>
            if branch l then
              '(ret, should_remove, n) ← get_from_branch n write;
              _ ← set_list id (if should_remove : bool then del_node l index else set_node l index n);
              mret ret
            else
              '(b, n) ← get_from_leaf n write;
              _ ← set_list id (set_node l index n);
              mret (CRef b)
        | None =>
            match parent l with
            | Some par =>
                parent_index ← lift (parent_start l +! index);
                if parent_index <? parent_end l then
                  c ← commit_impl fuel par parent_index write;
                  match c with
                  | CRef b => mret (CRef b)
                  | Insert p =>
                      _ ← set_list id (set_node l index (node_new p));
                      mret (CRef (base p))
                  end
                else commit_new id index write
            | None => commit_new id index write
            end
        end
  end.

(** A chain of parents visits each object at most once. *)
Definition chain_fuel (s : ext_state A) : nat := S (size (objs s)).

Definition commit (id : nat) (index : Z) (write : bool) : ext_m Z :=
  l ← get_list id;
  _ ← lift (assert_ (negb (branch l)));
  s ← get;
  c ← commit_impl (chain_fuel s) id index write;
  match c with
  | CRef b => mret b
  | Insert _ => lift Panic
  end.

Definition decommit (id : nat) (index : Z) : ext_m () :=
  l ← get_list id;
  match nodes l !! index with
  | None => mret ()
  | Some n =>
      if npin_count n >? 0 then lift (Err Pinned)
      else
        _ ← set_list id (match parent l with
                         | Some _ => set_node l index (MkNode (state n) None (npin_count n))
                         | None => del_node l index
                         end);
        page_drop_opt (page n)
  end.

(** [PageList::create_sub] and the object around the new list; [br] and [sub]
    are the identities of the branch and of the copy. *)
Definition create_sub (id br sub : nat) (offset len : Z) : ext_m () :=
  l ← get_list id;
  if pin_count l >? 0 then lift (Err Pinned)
  else
    let start := Z.shiftr offset PAGE_SHIFT in
    e ← lift (offset +! len);
    end_ ← lift (div_ceil_bit W e PAGE_SHIFT);
    n ← lift (end_ -! start);
    let b := MkPageList true (parent l) (parent_start l) (parent_end l) (nodes l) (count l) (pin_count l) in
    let c := MkPageList false (Some br) start end_ ∅ n 0 in
    let l' := MkPageList (branch l) (Some br) 0 (count l) ∅ (count l) (pin_count l) in
    _ ← set_list id l';
    modify (λ s, ExtState (<[sub := MkExt len c]> (<[br := MkExt 0 b]> (objs s)))
      (emem s) (source s) (notified s)).

(** [isize::MAX as usize]. *)
Definition ISIZE_MAX : Z := 2 ^ 63 - 1.

Fixpoint pin_impl (fuel : nat) (id : nat) (index : Z) (write : bool) : ext_m () :=
  match fuel with
  | O => lift Panic
  | S fuel =>
      l ← get_list id;
      _ ← lift (assert_ (index <? count l));
      match nodes l !! index with
      | Some n =>
          if (ISIZE_MAX <=? npin_count n) || (ISIZE_MAX <=? pin_count l) then lift (Err MaxPinCount)
          else
            set_list id (set_pin_count (set_node l index (MkNode (state n) (page n) (npin_count n + 1)))
              (pin_count l + 1))
      | None =>
          if write then
            par ← lift (unwrap (parent l));
            parent_index ← lift (parent_start l +! index);
            _ ← lift (assert_ (parent_index <? parent_end l));
            pin_impl fuel par parent_index write
          else mret ()
      end
  end.

Definition unpin_impl (id : nat) (index : Z) : ext_m () :=
  l ← get_list id;
  _ ← lift (assert_ (index <? count l));
  match nodes l !! index with
  | Some n =>
      set_list id (set_pin_count (set_node l index (MkNode (state n) (page n) (Z.max 0 (npin_count n - 1))))
        (Z.max 0 (pin_count l - 1)))
  | None => mret ()
  end.

Fixpoint commit_all (id : nat) (write : bool) (is_ : list Z) : ext_m (list (Z * Z)) :=
  match is_ with
  | [] => mret []
  | i :: is_ =>
      b ← commit id i write;
      bs ← commit_all id write is_;
      mret ((b, PAGE_SIZE) :: bs)
  end.

Fixpoint unpin_all (id : nat) (is_ : list Z) : ext_m () :=
  match is_ with
  | [] => mret ()
  | i :: is_ => _ ← unpin_impl id i; unpin_all id is_
  end.

(** [done] are the indices pinned so far, which an error unpins. *)
Fixpoint pin_all (id : nat) (write : bool) (done is_ : list Z) : ext_m () :=
  match is_ with
  | [] => mret ()
  | i :: is_ =>
      s ← get;
      r ← attempt (pin_impl (chain_fuel s) id i write);
      match r with
      | inr () => pin_all id write (done ++ [i]) is_
      | inl e => _ ← unpin_all id done; lift (Err e)
      end
  end.

(** [start..end] as a list of indices. *)
Definition indices (start end_ : Z) : list Z := seqZ start (end_ - start).

Definition list_pin (id : nat) (start end_ : Z) (write : bool) : ext_m (list (Z * Z)) :=
  bases ← commit_all id write (indices start end_);
  _ ← pin_all id write [] (indices start end_);
  mret bases.

Definition list_unpin (id : nat) (start end_ : Z) : ext_m () := unpin_all id (indices start end_).

Fixpoint decommit_all (id : nat) (is_ : list Z) : ext_m () :=
  match is_ with
  | [] => mret ()
  | i :: is_ => _ ← attempt (E:=perror) (decommit id i); decommit_all id is_
  end.

Definition list_resize (id : nat) (new_count : Z) : ext_m () :=
  l ← get_list id;
  if pin_count l >? 0 then lift (Err Pinned)
  else
    _ ← (if new_count <? count l then decommit_all id (indices (count l) new_count) else mret ());
    l ← get_list id;
    set_list id (MkPageList (branch l) (parent l) (parent_start l) (parent_end l) (nodes l) new_count (pin_count l)).

(** *** Objects *)

Definition ext_new (id : nat) (len : Z) : ext_m () :=
  n ← lift (div_ceil_bit W len PAGE_SHIFT);
  modify (λ s, ExtState (<[id := MkExt len (MkPageList false None 0 0 ∅ n 0)]> (objs s))
    (emem s) (source s) (notified s)).

Definition get_len (id : nat) : ext_m Z := s ← get; o ← lift (unwrap (objs s !! id)); mret (elen o).
Definition set_len (id : nat) (len : Z) : ext_m () :=
  modify (λ s, ExtState (alter (λ o, MkExt len (plist o)) id (objs s)) (emem s) (source s) (notified s)).

(** The copy from or to user space is a parameter, as in [UserPtr]. *)
Context (checked_copy : Z → Z → Z → memory → CheckedCopyRet * memory) (current : bool).

Definition on_user (m : st memory errno ()) : ext_m () := λ s,
  let '(r, m) := m (emem s) in
  (map_err Other r, ExtState (objs s) m (source s) (notified s)).

(** One page of [Phys::read] or [Phys::write]: [n] bytes between [src] and the
    buffer, of which [done] bytes are behind. *)
Definition transfer (to_user : bool) (buffer done src n : Z) : ext_m () :=
  let p := UserPtr (wrap W (buffer + done)) 1 1 in
  on_user (if to_user then write_slice checked_copy current p src n else read_slice checked_copy current p src n).

Fixpoint copy_loop (to_user : bool) (id : nat) (buffer len : Z) (is_ : list Z) (pos_in_page done : Z) : ext_m Z :=
  match is_ with
  | [] => mret done
  | i :: is_ =>
      r ← attempt (commit id i (negb to_user));
      match r with
      | inr b =>
          src ← lift (to_laddr b ID_OFFSET);
          src ← lift (src +! pos_in_page);
          rest ← lift (len -! done);
          let n := Z.min rest PAGE_SIZE in
          _ ← transfer to_user buffer done src n;
          done ← lift (done +! n);
          copy_loop to_user id buffer len is_ 0 done
      | inl _ => copy_loop to_user id buffer len is_ pos_in_page done
      end
  end.

(** [Phys::read] ([to_user]) and [Phys::write]. *)
Definition ext_copy (to_user : bool) (id : nat) (pos len buffer : Z) : ext_m Z :=
  self_len ← get_len id;
  let pos := Z.min pos self_len in
  let len := Z.min (self_len - pos) len in
  let start := Z.shiftr pos PAGE_SHIFT in
  e ← lift (pos +! len);
  end_ ← lift (div_ceil_bit W e PAGE_SHIFT);
  copy_loop to_user id buffer len (indices start end_) (pos - Z.shiftl start PAGE_SHIFT) 0.

Definition ext_resize (id : nat) (new_len : Z) : ext_m () :=
  n ← lift (div_ceil_bit W new_len PAGE_SHIFT);
  _ ← list_resize id n;
  set_len id new_len.

(** *** [PhysTrait for Phys] *)

Definition as_errno {B} (m : ext_m B) : st (ext_state A) errno B := λ s,
  let '(r, s) := m s in (map_err into_errno r, s).

Definition ext_pin (id : nat) (offset len : Z) (write : bool) : st (ext_state A) errno (list (Z * Z)) := as_errno (
  let start := Z.shiftr offset PAGE_SHIFT in
  e ← lift (offset +! len);
  end_ ← lift (div_ceil_bit W e PAGE_SHIFT);
  ret ← list_pin id start end_ write;
  _ ← notify_rw id;
  mret ret).

Definition ext_unpin (id : nat) (offset len : Z) : st (ext_state A) errno () := as_errno (
  let start := Z.shiftr offset PAGE_SHIFT in
  e ← lift (offset +! len);
  end_ ← lift (div_ceil_bit W e PAGE_SHIFT);
  _ ← list_unpin id start end_;
  notify_rw id).

Definition ext_create_sub (id br sub : nat) (offset len : Z) (copy : bool) : st (ext_state A) errno () :=
  if negb copy then lift (Err EPERM)
  else as_errno (_ ← create_sub id br sub offset len; notify_rw id).

Definition ext_resize_rw (id : nat) (new_len : Z) : st (ext_state A) errno () :=
  as_errno (_ ← ext_resize id new_len; notify_rw id).

Definition ext_read (id : nat) (offset len buffer : Z) : st (ext_state A) errno Z :=
  as_errno (n ← ext_copy true id offset len buffer; _ ← notify_rw id; mret n).
Definition ext_write (id : nat) (offset len buffer : Z) : st (ext_state A) errno Z :=
  as_errno (n ← ext_copy false id offset len buffer; _ ← notify_rw id; mret n).
End ext.
