(* ===== verification/ExtFacts.v ===== *)
(** * Sharing of pages between an object and its copies

    The content of a page of an object, the invariant of the sharing, and how the
    updates made by [commit] change them. The invariant is about objects of which
    a copy was made at most once: a branch is not itself a child of a branch. *)

From S2P Require Import Base Bits Mem Buddy Paging SysCall UserPtr Ext.
Local Open Scope Z_scope.

(** ** Content *)

Definition zeros : list Z := replicate (Z.to_nat PAGE_SIZE) 0.

(** The page that a read of page [i] of the object finds, if there is one. *)
Definition source_of (O : gmap nat ExtPhys) (id : nat) (i : Z) : option Page :=
  o ← O !! id;
  match nodes (plist o) !! i with
  | Some n => page n
  | None =>
      b ← parent (plist o);
      if parent_start (plist o) + i <? parent_end (plist o) then
        ob ← O !! b;
        n ← nodes (plist ob) !! (parent_start (plist o) + i);
        page n
      else None
  end.

Definition page_bytes (m : memory) (p : option Page) : list Z :=
  match p with Some p => bytes m (ptr p) PAGE_SIZE | None => zeros end.

Definition content {A} (s : ext_state A) (id : nat) (i : Z) : list Z :=
  page_bytes (emem s) (source_of (objs s) id i).

(** ** Invariant *)

Definition owns (O : gmap nat ExtPhys) (id : nat) (i : Z) (p : Page) : Prop :=
  ∃ o n, O !! id = Some o ∧ nodes (plist o) !! i = Some n ∧ page n = Some p.

(** A child that has no page of its own at the index [i] of its branch [b]. *)
Definition waiting (O : gmap nat ExtPhys) (b : nat) (i : Z) (id : nat) : Prop :=
  ∃ o j, O !! id = Some o ∧ parent (plist o) = Some b ∧ nodes (plist o) !! j = None ∧
    parent_start (plist o) + j = i ∧ i < parent_end (plist o).

Definition leaf (O : gmap nat ExtPhys) (id : nat) : Prop :=
  ∃ o, O !! id = Some o ∧ branch (plist o) = false.

(** The structure of objects and branches. *)
Record shape (O : gmap nat ExtPhys) : Prop := {
  sh_parent id o b : O !! id = Some o → parent (plist o) = Some b →
    branch (plist o) = false ∧
    ∃ ob, O !! b = Some ob ∧ branch (plist ob) = true ∧ parent (plist ob) = None;
  sh_branch id o i n : O !! id = Some o → branch (plist o) = true →
    nodes (plist o) !! i = Some n → is_Some (page n);
  sh_root id o i n : O !! id = Some o → branch (plist o) = false → parent (plist o) = None →
    nodes (plist o) !! i = Some n → is_Some (page n) ∧ state n = ShouldCopy;
  sh_two b : ∃ c1 c2, ∀ id o, O !! id = Some o → parent (plist o) = Some b → id = c1 ∨ id = c2;
  sh_move b ob i n id id' : O !! b = Some ob → branch (plist ob) = true →
    nodes (plist ob) !! i = Some n → state n = ShouldMove →
    waiting O b i id → waiting O b i id' → id = id';
  sh_range id o : O !! id = Some o →
    0 ≤ parent_start (plist o) < 2 ^ 52 ∧ 0 ≤ count (plist o) < 2 ^ 52;
}.

Section facts.
Context `{P : Profile} {A : Type} `{PS : PageSource A} (zero_base : Z).

Definition zero_ptr : Z := zero_base + ID_OFFSET.

(** A page that is in use. *)
Record in_use (a : A) (p : Page) : Prop := {
  iu_page : kernel_page (ptr p) = true;
  iu_base : base p = ptr p - ID_OFFSET;
  iu_used : ¬ pg_free a (ptr p);
  iu_zero : ptr p ≠ zero_ptr;
}.

Record ext_ok (s : ext_state A) : Prop := {
  eo_shape : shape (objs s);
  eo_use id i p : owns (objs s) id i p → in_use (source s) p;
  eo_inj id i p id' i' p' : owns (objs s) id i p → owns (objs s) id' i' p' → ptr p = ptr p' →
    id = id' ∧ i = i';
  eo_zero : kernel_page zero_ptr = true ∧ ¬ pg_free (source s) zero_ptr ∧
    bytes (emem s) zero_ptr PAGE_SIZE = zeros;
}.

(** ** Pages *)

Lemma kernel_page_iff p :
  kernel_page p = true ↔ ID_OFFSET ≤ p ∧ p mod 4096 = 0 ∧ p + 4096 ≤ 2 ^ 64.
Proof. unfold kernel_page. rewrite !andb_true_iff, !Z.leb_le, Z.eqb_eq. tauto. Qed.

Lemma pages_disjoint p q : kernel_page p = true → kernel_page q = true → p ≠ q → p + PAGE_SIZE ≤ q ∨ q + PAGE_SIZE ≤ p.
Proof.
  rewrite !kernel_page_iff. change PAGE_SIZE with 4096. intros (_ & Hp & _) (_ & Hq & _) Hne.
  apply Z.mod_divide in Hp as [x ->], Hq as [y ->]; lia.
Qed.

(** What an allocation yields: a page of zeros that nothing uses. *)
Record fresh (s s' : ext_state A) (p : Page) : Prop := {
  fr_page : kernel_page (ptr p) = true;
  fr_base : base p = ptr p - ID_OFFSET;
  fr_free : pg_free (source s) (ptr p);
  fr_objs : objs s' = objs s;
  fr_log : notified s' = notified s;
  fr_rest q : pg_free (source s') q ↔ pg_free (source s) q ∧ q ≠ ptr p;
  fr_zeros : bytes (emem s') (ptr p) PAGE_SIZE = zeros;
  fr_mem q : kernel_page q = true → q ≠ ptr p → bytes (emem s') q PAGE_SIZE = bytes (emem s) q PAGE_SIZE;
}.

Lemma page_allocate_ok s :
  match page_allocate s with
  | (Ok (Some p), s') => fresh s s' p
  | (Ok None, s') => (∀ q, ¬ pg_free (source s) q ∧ ¬ pg_free (source s') q) ∧
      objs s' = objs s ∧ emem s' = emem s ∧ notified s' = notified s
  | _ => False
  end.
Proof.
  unfold page_allocate. destruct (pg_allocate (source s)) as [[p|] a] eqn:Ha.
  - destruct (pg_allocate_some _ _ _ Ha) as [Hf Hr]. pose proof (pg_free_page _ _ Hf) as Hk.
    pose proof (proj1 (kernel_page_iff p) Hk) as (Hlo & _ & Hhi).
    unfold to_paddr. rewrite usub_ok by (unfold ID_OFFSET in *; lia). split; [done|done|done|done|done|done| |]; cbn.
    + by apply bytes_memset_eq.
    + intros q Hq Hne. apply bytes_memset_ne; [done|]. by apply pages_disjoint.
  - split; [|done]. by apply pg_allocate_none.
Qed.

Lemma to_laddr_ok {E} p : kernel_page p = true → to_laddr (E:=E) (p - ID_OFFSET) ID_OFFSET = Ok p.
Proof.
  intros (? & _ & ?)%kernel_page_iff. unfold to_laddr. rewrite uadd_ok by (unfold ID_OFFSET in *; lia). f_equal. lia.
Qed.
End facts.

(** ** Updates of one node *)

Definition put_node (O : gmap nat ExtPhys) (id : nat) (i : Z) (n : PageNode) : gmap nat ExtPhys :=
  alter (λ o, MkExt (elen o) (set_node (plist o) i n)) id O.
Definition drop_node (O : gmap nat ExtPhys) (id : nat) (i : Z) : gmap nat ExtPhys :=
  alter (λ o, MkExt (elen o) (del_node (plist o) i)) id O.

(** What both updates keep of a list. *)
Definition same_list (l l' : PageList) : Prop :=
  branch l' = branch l ∧ parent l' = parent l ∧ parent_start l' = parent_start l ∧
  parent_end l' = parent_end l ∧ count l' = count l.

Section updates.
Implicit Types (O : gmap nat ExtPhys) (id b : nat) (i j : Z) (n : PageNode).

Lemma lookup_put O id i n id' :
  put_node O id i n !! id' =
    if decide (id = id') then (λ o, MkExt (elen o) (set_node (plist o) i n)) <$> O !! id' else O !! id'.
Proof. unfold put_node. destruct (decide (id = id')) as [<-|]; [by rewrite lookup_alter_eq|by rewrite lookup_alter_ne]. Qed.

Lemma lookup_drop O id i id' :
  drop_node O id i !! id' =
    if decide (id = id') then (λ o, MkExt (elen o) (del_node (plist o) i)) <$> O !! id' else O !! id'.
Proof. unfold drop_node. destruct (decide (id = id')) as [<-|]; [by rewrite lookup_alter_eq|by rewrite lookup_alter_ne]. Qed.

(** A list after the update comes from one before it. *)
Lemma put_inv O id i n id' o' : put_node O id i n !! id' = Some o' →
  ∃ o, O !! id' = Some o ∧ same_list (plist o) (plist o') ∧
    nodes (plist o') = if decide (id = id') then <[i := n]> (nodes (plist o)) else nodes (plist o).
Proof.
  rewrite lookup_put. destruct (decide (id = id')) as [<-|Hne].
  - intros (o & Ho & ->)%fmap_Some. by exists o.
  - intros Ho. by exists o'.
Qed.

Lemma page_drop_inv O id i id' o' : drop_node O id i !! id' = Some o' →
  ∃ o, O !! id' = Some o ∧ same_list (plist o) (plist o') ∧
    nodes (plist o') = if decide (id = id') then delete i (nodes (plist o)) else nodes (plist o).
Proof.
  rewrite lookup_drop. destruct (decide (id = id')) as [<-|Hne].
  - intros (o & Ho & ->)%fmap_Some. by exists o.
  - intros Ho. by exists o'.
Qed.

Lemma put_fwd O id i n id' o : O !! id' = Some o →
  ∃ o', put_node O id i n !! id' = Some o' ∧ same_list (plist o) (plist o') ∧
    nodes (plist o') = if decide (id = id') then <[i := n]> (nodes (plist o)) else nodes (plist o).
Proof.
  intros Ho. rewrite lookup_put, Ho. destruct (decide (id = id')); cbn; eexists; (split; [done|]); by split.
Qed.

Lemma drop_fwd O id i id' o : O !! id' = Some o →
  ∃ o', drop_node O id i !! id' = Some o' ∧ same_list (plist o) (plist o') ∧
    nodes (plist o') = if decide (id = id') then delete i (nodes (plist o)) else nodes (plist o).
Proof.
  intros Ho. rewrite lookup_drop, Ho. destruct (decide (id = id')); cbn; eexists; (split; [done|]); by split.
Qed.

Lemma put_leaf O id i n id' : leaf (put_node O id i n) id' ↔ leaf O id'.
Proof.
  split.
  - intros (o' & Ho' & Hb). destruct (put_inv _ _ _ _ _ _ Ho') as (o & Ho & (E & _) & _).
    exists o. by rewrite <- E.
  - intros (o & Ho & Hb). destruct (put_fwd O id i n id' o Ho) as (o' & Ho' & (E & _) & _).
    exists o'. by rewrite E.
Qed.

Lemma drop_leaf O id i id' : leaf (drop_node O id i) id' ↔ leaf O id'.
Proof.
  split.
  - intros (o' & Ho' & Hb). destruct (page_drop_inv _ _ _ _ _ Ho') as (o & Ho & (E & _) & _).
    exists o. by rewrite <- E.
  - intros (o & Ho & Hb). destruct (drop_fwd O id i id' o Ho) as (o' & Ho' & (E & _) & _).
    exists o'. by rewrite E.
Qed.

Lemma put_put_comm O id i n b k m : id ≠ b →
  put_node (put_node O b k m) id i n = put_node (put_node O id i n) b k m.
Proof.
  intros Hne. apply map_eq. intros x. rewrite !lookup_put.
  destruct (decide (id = x)), (decide (b = x)); congruence.
Qed.

Lemma put_drop_comm O id i n b k : id ≠ b →
  put_node (drop_node O b k) id i n = drop_node (put_node O id i n) b k.
Proof.
  intros Hne. apply map_eq. intros x. rewrite lookup_put, !lookup_drop, lookup_put.
  destruct (decide (id = x)), (decide (b = x)); congruence.
Qed.

(** *** Ownership *)

Lemma owns_put O id i n id' i' p : is_Some (O !! id) →
  owns (put_node O id i n) id' i' p ↔
    ((id', i') = (id, i) ∧ page n = Some p) ∨ ((id', i') ≠ (id, i) ∧ owns O id' i' p).
Proof.
  intros [o0 Ho0]. split.
  - intros (o' & m & Ho' & Hm & Hp). destruct (put_inv _ _ _ _ _ _ Ho') as (o & Ho & _ & En). rewrite En in Hm.
    destruct (decide (id = id')) as [<-|Hne].
    + rewrite lookup_insert_Some in Hm. destruct Hm as [[<- <-]|[Hi Hm]]; [by left|right].
      split; [naive_solver|]. by exists o, m.
    + right. split; [naive_solver|]. by exists o, m.
  - intros [[[= -> ->] Hp]|[Hne (o & m & Ho & Hm & Hp)]].
    + destruct (put_fwd O id i n id o0 Ho0) as (o' & Ho' & _ & En). rewrite decide_True in En by done.
      exists o', n. rewrite En, lookup_insert_eq. done.
    + destruct (put_fwd O id i n id' o Ho) as (o' & Ho' & _ & En). exists o', m. split; [done|]. split; [|done].
      rewrite En. destruct (decide (id = id')) as [<-|]; [|done]. rewrite lookup_insert_ne; [done|naive_solver].
Qed.

Lemma owns_drop O id i id' i' p :
  owns (drop_node O id i) id' i' p ↔ (id', i') ≠ (id, i) ∧ owns O id' i' p.
Proof.
  split.
  - intros (o' & m & Ho' & Hm & Hp). destruct (page_drop_inv _ _ _ _ _ Ho') as (o & Ho & _ & En). rewrite En in Hm.
    destruct (decide (id = id')) as [<-|Hne].
    + apply lookup_delete_Some in Hm as [Hi Hm]. split; [naive_solver|]. by exists o, m.
    + split; [naive_solver|]. by exists o, m.
  - intros [Hne (o & m & Ho & Hm & Hp)]. destruct (drop_fwd O id i id' o Ho) as (o' & Ho' & _ & En).
    exists o', m. split; [done|]. split; [|done].
    rewrite En. destruct (decide (id = id')) as [<-|]; [|done]. rewrite lookup_delete_ne; [done|naive_solver].
Qed.
End updates.

(** *** Structure *)

Section shape.
Implicit Types (O : gmap nat ExtPhys) (id b : nat) (i j : Z) (n : PageNode).

Lemma waiting_put O id i n b j id' : waiting (put_node O id i n) b j id' → waiting O b j id'.
Proof.
  intros (o' & k & Ho' & Hp & Hn & Hk & Hj).
  destruct (put_inv _ _ _ _ _ _ Ho') as (o & Ho & (_ & E2 & E3 & E4 & _) & En).
  exists o, k. rewrite <- E2, <- E3, <- E4. split; [done|]. split; [done|]. split; [|done].
  rewrite En in Hn. destruct (decide (id = id')); [|done]. by apply lookup_insert_None in Hn as [? _].
Qed.

(** A child with its own page does not wait for that of its branch. *)
Lemma put_not_waiting O id o i n b : O !! id = Some o → parent (plist o) = Some b →
  ¬ waiting (put_node O id i n) b (parent_start (plist o) + i) id.
Proof.
  intros Ho Hp (o' & k & Ho' & _ & Hn & Hk & _).
  destruct (put_inv _ _ _ _ _ _ Ho') as (o1 & Ho1 & (_ & _ & E3 & _) & En). simplify_eq.
  rewrite decide_True in En by done. rewrite En in Hn. apply lookup_insert_None in Hn as [_ Hn]. lia.
Qed.

Lemma shape_put O id o i n : shape O → O !! id = Some o → branch (plist o) = false →
  is_Some (page n) → (parent (plist o) = None → state n = ShouldCopy) → shape (put_node O id i n).
Proof.
  intros Hs Ho Hb Hn Hst. split.
  - intros id' o' b Ho' Hp. destruct (put_inv _ _ _ _ _ _ Ho') as (o1 & Ho1 & (E1 & E2 & _) & _).
    rewrite E2 in Hp. destruct (sh_parent _ Hs id' o1 b Ho1 Hp) as (Hb1 & ob & Hob & Hbb & Hpb).
    rewrite E1. split; [done|]. destruct (put_fwd O id i n b ob Hob) as (ob' & Hob' & (F1 & F2 & _) & _).
    exists ob'. by rewrite F1, F2.
  - intros id' o' j m Ho' Hb' Hm. destruct (put_inv _ _ _ _ _ _ Ho') as (o1 & Ho1 & (E1 & _) & En).
    rewrite E1 in Hb'. destruct (decide (id = id')) as [<-|]; [congruence|]. rewrite En in Hm. by eapply sh_branch.
  - intros id' o' j m Ho' Hb' Hp' Hm. destruct (put_inv _ _ _ _ _ _ Ho') as (o1 & Ho1 & (E1 & E2 & _) & En).
    rewrite E1 in Hb'. rewrite E2 in Hp'. rewrite En in Hm. destruct (decide (id = id')) as [<-|].
    + simplify_eq. apply lookup_insert_Some in Hm as [[<- <-]|[_ Hm]]; [by auto|]. by eapply sh_root.
    + by eapply sh_root.
  - intros b. destruct (sh_two _ Hs b) as (c1 & c2 & Hc). exists c1, c2. intros id' o' Ho' Hp'.
    destruct (put_inv _ _ _ _ _ _ Ho') as (o1 & Ho1 & (_ & E2 & _) & _). rewrite E2 in Hp'. by eapply Hc.
  - intros b ob' j m x y Hob' Hbb Hm Hst' Hx%waiting_put Hy%waiting_put.
    destruct (put_inv _ _ _ _ _ _ Hob') as (ob & Hob & (E1 & _) & En). rewrite E1 in Hbb.
    destruct (decide (id = b)) as [<-|]; [congruence|]. rewrite En in Hm. by eapply (sh_move _ Hs b).
  - intros id' o' Ho'. destruct (put_inv _ _ _ _ _ _ Ho') as (o1 & Ho1 & (_ & _ & E3 & _ & E5) & _).
    rewrite E3, E5. by eapply sh_range.
Qed.

(** A branch is no one's child, so changing its nodes changes nobody's waiting. *)
Lemma waiting_put_branch O b ob i n c j id : O !! b = Some ob → parent (plist ob) = None →
  waiting (put_node O b i n) c j id ↔ waiting O c j id.
Proof.
  intros Hob Hp. split; [apply waiting_put|]. intros (o & k & Ho & Hpar & Hn & Hk & Hj).
  destruct (decide (b = id)) as [<-|Hne]; [congruence|].
  destruct (put_fwd O b i n id o Ho) as (o' & Ho' & (_ & E2 & E3 & E4 & _) & En).
  rewrite decide_False in En by done. exists o', k. by rewrite E2, E3, E4, En.
Qed.

Lemma waiting_drop_branch O b ob i c j id : O !! b = Some ob → parent (plist ob) = None →
  waiting (drop_node O b i) c j id ↔ waiting O c j id.
Proof.
  intros Hob Hp. split.
  - intros (o' & k & Ho' & Hpar & Hn & Hk & Hj).
    destruct (page_drop_inv _ _ _ _ _ Ho') as (o & Ho & (_ & E2 & E3 & E4 & _) & En).
    destruct (decide (b = id)) as [<-|Hne]; [congruence|]. exists o, k. by rewrite <- E2, <- E3, <- E4, <- En.
  - intros (o & k & Ho & Hpar & Hn & Hk & Hj). destruct (decide (b = id)) as [<-|Hne]; [congruence|].
    destruct (drop_fwd O b i id o Ho) as (o' & Ho' & (_ & E2 & E3 & E4 & _) & En).
    rewrite decide_False in En by done. exists o', k. by rewrite E2, E3, E4, En.
Qed.

Lemma branch_no_parent O b ob : shape O → O !! b = Some ob → branch (plist ob) = true → parent (plist ob) = None.
Proof.
  intros Hs Hob Hb. destruct (parent (plist ob)) as [c|] eqn:Hp; [|done].
  destruct (sh_parent _ Hs b ob c Hob Hp) as [Hf _]. congruence.
Qed.

Lemma shape_put_branch O b ob i n : shape O → O !! b = Some ob → branch (plist ob) = true → is_Some (page n) →
  (state n = ShouldMove → ∀ x y, waiting O b i x → waiting O b i y → x = y) → shape (put_node O b i n).
Proof.
  intros Hs Hob Hb Hn Hw. pose proof (branch_no_parent _ _ _ Hs Hob Hb) as Hp0.
  pose proof (λ c j id, proj1 (waiting_put_branch O b ob i n c j id Hob Hp0)) as Hwp. split.
  - intros id' o' c Ho' Hp. destruct (put_inv _ _ _ _ _ _ Ho') as (o1 & Ho1 & (E1 & E2 & _) & _).
    rewrite E2 in Hp. destruct (sh_parent _ Hs id' o1 c Ho1 Hp) as (Hb1 & oc & Hoc & Hbc & Hpc).
    rewrite E1. split; [done|]. destruct (put_fwd O b i n c oc Hoc) as (oc' & Hoc' & (F1 & F2 & _) & _).
    exists oc'. by rewrite F1, F2.
  - intros id' o' j m Ho' Hb' Hm. destruct (put_inv _ _ _ _ _ _ Ho') as (o1 & Ho1 & (E1 & _) & En).
    rewrite E1 in Hb'. rewrite En in Hm. destruct (decide (b = id')) as [<-|]; [|by eapply sh_branch].
    apply lookup_insert_Some in Hm as [[<- <-]|[_ Hm]]; [done|]. by eapply sh_branch.
  - intros id' o' j m Ho' Hb' Hp' Hm. destruct (put_inv _ _ _ _ _ _ Ho') as (o1 & Ho1 & (E1 & E2 & _) & En).
    rewrite E1 in Hb'. rewrite E2 in Hp'. destruct (decide (b = id')) as [<-|]; [congruence|].
    rewrite En in Hm. by eapply sh_root.
  - intros c. destruct (sh_two _ Hs c) as (c1 & c2 & Hc). exists c1, c2. intros id' o' Ho' Hp'.
    destruct (put_inv _ _ _ _ _ _ Ho') as (o1 & Ho1 & (_ & E2 & _) & _). rewrite E2 in Hp'. by eapply Hc.
  - intros c oc' j m x y Hoc' Hbc Hm Hst Hx%Hwp Hy%Hwp.
    destruct (put_inv _ _ _ _ _ _ Hoc') as (oc & Hoc & (E1 & _) & En). rewrite E1 in Hbc. rewrite En in Hm.
    destruct (decide (b = c)) as [<-|]; [|by eapply (sh_move _ Hs c)].
    apply lookup_insert_Some in Hm as [[<- <-]|[_ Hm]]; [by apply Hw|]. by eapply (sh_move _ Hs b).
  - intros id' o' Ho'. destruct (put_inv _ _ _ _ _ _ Ho') as (o1 & Ho1 & (_ & _ & E3 & _ & E5) & _).
    rewrite E3, E5. by eapply sh_range.
Qed.

Lemma shape_drop_branch O b ob i : shape O → O !! b = Some ob → branch (plist ob) = true → shape (drop_node O b i).
Proof.
  intros Hs Hob Hb. pose proof (branch_no_parent _ _ _ Hs Hob Hb) as Hp0.
  pose proof (λ c j id, proj1 (waiting_drop_branch O b ob i c j id Hob Hp0)) as Hwp.
  assert (∀ id' o' j m, drop_node O b i !! id' = Some o' → nodes (plist o') !! j = Some m →
    ∃ o, O !! id' = Some o ∧ same_list (plist o) (plist o') ∧ nodes (plist o) !! j = Some m) as Hinv.
  { intros id' o' j m Ho' Hm. destruct (page_drop_inv _ _ _ _ _ Ho') as (o1 & Ho1 & Hsl & En). exists o1.
    split; [done|]. split; [done|]. rewrite En in Hm. destruct (decide (b = id')); [|done].
    by apply lookup_delete_Some in Hm as [_ ?]. }
  split.
  - intros id' o' c Ho' Hp. destruct (page_drop_inv _ _ _ _ _ Ho') as (o1 & Ho1 & (E1 & E2 & _) & _).
    rewrite E2 in Hp. destruct (sh_parent _ Hs id' o1 c Ho1 Hp) as (Hb1 & oc & Hoc & Hbc & Hpc).
    rewrite E1. split; [done|]. destruct (drop_fwd O b i c oc Hoc) as (oc' & Hoc' & (F1 & F2 & _) & _).
    exists oc'. by rewrite F1, F2.
  - intros id' o' j m Ho' Hb' Hm. destruct (Hinv _ _ _ _ Ho' Hm) as (o1 & Ho1 & (E1 & _) & Hm1).
    rewrite E1 in Hb'. by eapply sh_branch.
  - intros id' o' j m Ho' Hb' Hp' Hm. destruct (Hinv _ _ _ _ Ho' Hm) as (o1 & Ho1 & (E1 & E2 & _) & Hm1).
    rewrite E1 in Hb'. rewrite E2 in Hp'. by eapply sh_root.
  - intros c. destruct (sh_two _ Hs c) as (c1 & c2 & Hc). exists c1, c2. intros id' o' Ho' Hp'.
    destruct (page_drop_inv _ _ _ _ _ Ho') as (o1 & Ho1 & (_ & E2 & _) & _). rewrite E2 in Hp'. by eapply Hc.
  - intros c oc' j m x y Hoc' Hbc Hm Hst Hx%Hwp Hy%Hwp.
    destruct (Hinv _ _ _ _ Hoc' Hm) as (oc & Hoc & (E1 & _) & Hm1). rewrite E1 in Hbc. by eapply (sh_move _ Hs c).
  - intros id' o' Ho'. destruct (page_drop_inv _ _ _ _ _ Ho') as (o1 & Ho1 & (_ & _ & E3 & _ & E5) & _).
    rewrite E3, E5. by eapply sh_range.
Qed.

(** *** Content *)

(** The pages of objects: their own, or one of their branch that they wait for. *)
Lemma source_cases O id i p : source_of O id i = Some p →
  owns O id i p ∨ ∃ o b, O !! id = Some o ∧ parent (plist o) = Some b ∧ nodes (plist o) !! i = None ∧
    parent_start (plist o) + i < parent_end (plist o) ∧ owns O b (parent_start (plist o) + i) p.
Proof.
  unfold source_of. destruct (O !! id) as [o|] eqn:Ho; [|done]. cbn. destruct (nodes (plist o) !! i) as [n|] eqn:Hn.
  - intros Hp. left. by exists o, n.
  - destruct (parent (plist o)) as [b|] eqn:Hb; [|done]. cbn. destruct (Z.ltb_spec (parent_start (plist o) + i) (parent_end (plist o))); [|done].
    destruct (O !! b) as [ob|] eqn:Hob; [|done]. cbn.
    destruct (nodes (plist ob) !! (parent_start (plist o) + i)) as [n|] eqn:Hm; [|done]. intros Hp.
    right. exists o, b. split_and!; try done. by exists ob, n.
Qed.

Lemma source_put O id i n id' i' : shape O → leaf O id → is_Some (O !! id') →
  source_of (put_node O id i n) id' i' = if decide ((id', i') = (id, i)) then page n else source_of O id' i'.
Proof.
  intros Hs (o & Ho & Hb) [o1 Ho1]. destruct (put_fwd O id i n id' o1 Ho1) as (o' & Ho' & (_ & E2 & E3 & E4 & _) & En).
  unfold source_of. rewrite Ho', Ho1. cbn. rewrite E2, E3, E4, En.
  destruct (decide ((id', i') = (id, i))) as [[= -> ->]|Hne].
  { by rewrite decide_True, lookup_insert_eq by done. }
  assert ((if decide (id = id') then <[i:=n]> (nodes (plist o1)) else nodes (plist o1)) !! i' = nodes (plist o1) !! i') as ->.
  { destruct (decide (id = id')) as [<-|]; [|done]. rewrite lookup_insert_ne; [done|naive_solver]. }
  destruct (nodes (plist o1) !! i'); [done|]. destruct (parent (plist o1)) as [b|] eqn:Hp; [|done]. cbn.
  destruct (sh_parent _ Hs id' o1 b Ho1 Hp) as (_ & ob & Hob & Hbb & _).
  destruct (_ <? _); [|done]. rewrite lookup_put, decide_False; [done|]. intros ->. congruence.
Qed.

Lemma source_put_branch O b ob i n0 n id' i' : O !! b = Some ob → nodes (plist ob) !! i = Some n0 → page n = page n0 →
  source_of (put_node O b i n) id' i' = source_of O id' i'.
Proof.
  intros Hob Hn0 Hpg. assert (∀ c k, (x ← put_node O b i n !! c; m ← nodes (plist x) !! k; Some (page m)) =
    (x ← O !! c; m ← nodes (plist x) !! k; Some (page m))) as Hnode.
  { intros c k. rewrite lookup_put. destruct (decide (b = c)) as [<-|]; [|done]. rewrite Hob. cbn.
    destruct (decide (i = k)) as [<-|]; [|by rewrite lookup_insert_ne]. by rewrite lookup_insert_eq, Hn0; cbn; rewrite Hpg. }
  unfold source_of. destruct (O !! id') as [o1|] eqn:Ho1.
  2:{ rewrite lookup_put, Ho1. by destruct (decide _). }
  destruct (put_fwd O b i n id' o1 Ho1) as (o' & Ho' & (_ & E2 & E3 & E4 & _) & _).
  pose proof (Hnode id' i') as H1. rewrite Ho', Ho1 in *. cbn in *. rewrite E2, E3, E4.
  destruct (nodes (plist o') !! i') as [m|], (nodes (plist o1) !! i') as [m'|]; cbn in H1; try congruence.
  destruct (parent (plist o1)) as [c|]; [|done]. cbn. destruct (_ <? _); [|done].
  specialize (Hnode c (parent_start (plist o1) + i')).
  destruct (put_node O b i n !! c) as [x|], (O !! c) as [y|]; cbn in *; try done.
  - destruct (nodes (plist x) !! _), (nodes (plist y) !! _); cbn in *; congruence.
  - by destruct (nodes (plist x) !! _).
  - by destruct (nodes (plist y) !! _).
Qed.

Lemma source_drop_branch O b ob i id' o' i' : O !! b = Some ob → branch (plist ob) = true →
  O !! id' = Some o' → branch (plist o') = false → (parent (plist o') = Some b → nodes (plist o') !! i' = None →
    parent_start (plist o') + i' < parent_end (plist o') → parent_start (plist o') + i' ≠ i) →
  source_of (drop_node O b i) id' i' = source_of O id' i'.
Proof.
  intros Hob Hb Ho' Hb' Hne. unfold source_of. rewrite lookup_drop, decide_False by congruence. rewrite Ho'. cbn.
  destruct (nodes (plist o') !! i') eqn:Hn; [done|]. destruct (parent (plist o')) as [c|] eqn:Hp; [|done]. cbn.
  destruct (Z.ltb_spec (parent_start (plist o') + i') (parent_end (plist o'))); [|done].
  rewrite lookup_drop. destruct (decide (b = c)) as [<-|]; [|done]. rewrite Hob. cbn.
  rewrite lookup_delete_ne; [done|]. intros E. by apply Hne.
Qed.
End shape.
