(* ===== verification/ExtSpec.v ===== *)
(** * Copies of objects are independent

    Committing a page keeps the content of every page of every object, and a page
    committed for writing belongs to its object alone; so a write to it is seen
    in no copy. *)

From S2P Require Import Base Bits Mem Buddy Paging SysCall UserPtr Ext ExtFacts.
Local Open Scope Z_scope.
#[local] Opaque bytes zeros memcpy.

Section commit.
Context `{P : Profile} {A : Type} `{PS : PageSource A} (zero_base : Z).
Implicit Types (s : ext_state A) (id b : nat) (i : Z).

Abbreviation ext_ok := (ext_ok zero_base).

(** ** Runs of the accessors *)

Lemma get_list_run s id o : objs s !! id = Some o → get_list id s = (Ok (plist o), s).
Proof. intros Ho. unfold get_list. rewrite st_get_bind, Ho. done. Qed.

Lemma set_node_run s id o i n : objs s !! id = Some o →
  set_list id (set_node (plist o) i n) s =
    (Ok (), ExtState (put_node (objs s) id i n) (emem s) (source s) (notified s)).
Proof.
  intros Ho. unfold set_list, modify, put_node. do 2 f_equal. apply alter_ext. intros o' Ho'. by simplify_eq.
Qed.

Lemma del_node_run s id o i : objs s !! id = Some o →
  set_list id (del_node (plist o) i) s =
    (Ok (), ExtState (drop_node (objs s) id i) (emem s) (source s) (notified s)).
Proof.
  intros Ho. unfold set_list, modify, drop_node. do 2 f_equal. apply alter_ext. intros o' Ho'. by simplify_eq.
Qed.

Lemma put_same O id o i n : O !! id = Some o → nodes (plist o) !! i = Some n → put_node O id i n = O.
Proof.
  intros Ho Hn. apply map_eq. intros id'. rewrite lookup_put. destruct (decide (id = id')) as [<-|]; [|done].
  rewrite Ho. cbn. unfold set_node. rewrite insert_id by done. by destruct o as [? []].
Qed.

Lemma set_same_run s id o i n : objs s !! id = Some o → nodes (plist o) !! i = Some n →
  set_list id (set_node (plist o) i n) s = (Ok (), s).
Proof. intros Ho Hn. rewrite (set_node_run s id o i n Ho), (put_same _ _ o) by done. by destruct s. Qed.

(** ** Keeping the invariant *)

(** Memory agrees on every page but [p]. *)
Definition agree_but (p : Z) (m m' : memory) : Prop :=
  ∀ q, kernel_page q = true → q ≠ p → bytes m' q PAGE_SIZE = bytes m q PAGE_SIZE.

Lemma source_in_use s id i p : ext_ok s → source_of (objs s) id i = Some p → in_use zero_base (source s) p.
Proof.
  intros Hok [Ho|(o & b & _ & _ & _ & _ & Ho)]%source_cases; by apply (eo_use _ _ Hok) in Ho.
Qed.

Lemma content_frame s q O' m' (a' : A) l' id i id' i' :
  ext_ok s → agree_but q (emem s) m' → (∀ p, source_of (objs s) id i = Some p → ptr p ≠ q) →
  source_of O' id' i' = source_of (objs s) id i → content (ExtState O' m' a' l') id' i' = content s id i.
Proof.
  intros Hok Hm Hq Hs. unfold content. cbn. rewrite Hs. destruct (source_of (objs s) id i) as [p|] eqn:Hp; [|done].
  cbn. apply Hm; [|by apply Hq]. by eapply iu_page, source_in_use.
Qed.

Lemma fresh_not_source s s1 p id i p' : ext_ok s → fresh s s1 p → source_of (objs s) id i = Some p' → ptr p' ≠ ptr p.
Proof.
  intros Hok Hf Hs E. apply (iu_used _ _ _ (source_in_use _ _ _ _ Hok Hs)). rewrite E. apply Hf.
Qed.

Lemma zero_keeps s s1 p m' : ext_ok s → fresh s s1 p → agree_but (ptr p) (emem s) m' →
  kernel_page (zero_ptr zero_base) = true ∧ ¬ pg_free (source s1) (zero_ptr zero_base) ∧
  bytes m' (zero_ptr zero_base) PAGE_SIZE = zeros.
Proof.
  intros Hok Hf Hm. destruct (eo_zero _ _ Hok) as (Hk & Hn & Hz). split; [done|]. split.
  - intros [H _]%(fr_rest _ _ _ Hf). exact (Hn H).
  - rewrite Hm; [exact Hz|done|]. intros E. apply Hn. rewrite E. apply Hf.
Qed.

(** A new page is given to one node. *)
Lemma ext_ok_fresh s s1 p id i O' m' l' : ext_ok s → fresh s s1 p → agree_but (ptr p) (emem s) m' → shape O' →
  (∀ id' i' p', owns O' id' i' p' → ((id', i') = (id, i) ∧ p' = p) ∨ owns (objs s) id' i' p') →
  ext_ok (ExtState O' m' (source s1) l').
Proof.
  intros Hok Hf Hm Hsh Hown.
  assert (∀ id' i' p', owns (objs s) id' i' p' → ptr p' ≠ ptr p) as Hne.
  { intros id' i' p' Ho E. apply (iu_used _ _ _ (eo_use _ _ Hok _ _ _ Ho)). rewrite E. apply Hf. }
  split; cbn; [done|..|by eapply zero_keeps].
  - intros id' i' p' [[_ ->]|Ho]%Hown.
    + split; [apply Hf|apply Hf|intros [_ ?]%(fr_rest _ _ _ Hf); done|].
      intros E. apply (proj1 (proj2 (eo_zero _ _ Hok))). rewrite <- E. apply Hf.
    + destruct (eo_use _ _ Hok _ _ _ Ho). split; try done. by intros [? _]%(fr_rest _ _ _ Hf).
  - intros id1 i1 p1 id2 i2 p2 H1%Hown H2%Hown E. destruct H1 as [[[= -> ->] ->]|H1], H2 as [[[= -> ->] ->]|H2].
    + done.
    + by apply Hne in H2.
    + by apply Hne in H1.
    + by apply (eo_inj _ _ Hok id1 i1 p1 id2 i2 p2).
Qed.

(** A page moves from one node to another. *)
Lemma ext_ok_move s p id i b k O' : ext_ok s → owns (objs s) b k p → shape O' →
  (∀ id' i' p', owns O' id' i' p' → ((id', i') = (id, i) ∧ p' = p) ∨ ((id', i') ≠ (b, k) ∧ owns (objs s) id' i' p')) →
  ext_ok (ExtState O' (emem s) (source s) (notified s)).
Proof.
  intros Hok Hp Hsh Hown.
  assert (∀ id' i' p', (id', i') ≠ (b, k) → owns (objs s) id' i' p' → ptr p' ≠ ptr p) as Hne.
  { intros id' i' p' Hd Ho E. destruct (eo_inj _ _ Hok _ _ _ _ _ _ Ho Hp E) as [-> ->]. done. }
  split; cbn; [done|..|apply Hok].
  - intros id' i' p' [[_ ->]|[_ Ho]]%Hown; by apply (eo_use _ _ Hok) in Ho || by apply (eo_use _ _ Hok) in Hp.
  - intros id1 i1 p1 id2 i2 p2 H1%Hown H2%Hown E. destruct H1 as [[[= -> ->] ->]|[D1 H1]], H2 as [[[= -> ->] ->]|[D2 H2]].
    + done.
    + by apply (Hne _ _ _ D2) in H2.
    + by apply (Hne _ _ _ D1) in H1.
    + by apply (eo_inj _ _ Hok id1 i1 p1 id2 i2 p2).
Qed.

(** ** The three ways a page is obtained *)

(** What [commit] promises when it returns the page at [b]. *)
Definition committed (s s' : ext_state A) (id : nat) (i : Z) (write : bool) (b : Z) : Prop :=
  ext_ok s' ∧ notified s' = notified s ∧
  bytes (emem s') (b + ID_OFFSET) PAGE_SIZE = content s id i ∧
  (∀ id' i', leaf (objs s) id' → leaf (objs s') id' ∧ content s' id' i' = content s id' i') ∧
  (write = true → ∃ p, owns (objs s') id i p ∧ base p = b).

Lemma fresh_agree s s1 p : fresh s s1 p → agree_but (ptr p) (emem s) (emem s1).
Proof. intros Hf q Hq Hne. by apply Hf. Qed.

Lemma base_ptr p : base p = ptr p - ID_OFFSET → base p + ID_OFFSET = ptr p.
Proof. lia. Qed.

Lemma give_fresh s s1 p id o i n write :
  ext_ok s → fresh s s1 p → objs s !! id = Some o → branch (plist o) = false → page n = Some p →
  (parent (plist o) = None → state n = ShouldCopy) → source_of (objs s) id i = None →
  committed s (ExtState (put_node (objs s) id i n) (emem s1) (source s1) (notified s)) id i write (base p).
Proof.
  intros Hok Hf Ho Hb Hn Hst Hsrc. assert (leaf (objs s) id) as Hl by (by exists o).
  pose proof (eo_shape _ _ Hok) as Hsh.
  split; [|split; [done|split; [|split]]]; cbn [objs emem].
  - eapply (ext_ok_fresh s s1 p id i); [done|done|by apply fresh_agree| |].
    + apply (shape_put _ id o); by eauto.
    + intros id' i' p' [[E Hp]|[_ Hp]]%owns_put; [left|by right|by exists o]. split; [done|congruence].
  - rewrite (base_ptr p) by apply Hf. unfold content. rewrite Hsrc. apply Hf.
  - intros id' i' Hl'. split; [by apply put_leaf|]. assert (is_Some (objs s !! id')) as Hs' by (destruct Hl' as (? & ? & _); eauto).
    pose proof (source_put (objs s) id i n id' i' Hsh Hl Hs') as Hsp.
    destruct (decide ((id', i') = (id, i))) as [[= -> ->]|Hne].
    + unfold content. cbn [objs emem]. rewrite Hsp, Hsrc, Hn. cbn. apply Hf.
    + eapply content_frame; [done|by apply fresh_agree| |exact Hsp]. intros p' Hp'. by eapply fresh_not_source.
  - intros _. exists p. split; [|done]. apply owns_put; [by exists o|]. by left.
Qed.

(** The child [id] of the branch [b] at the index [i], which has no page there. *)
Record from_branch (s : ext_state A) id o i b ob n0 p0 : Prop := {
  fb_child : objs s !! id = Some o;
  fb_leaf : branch (plist o) = false;
  fb_parent : parent (plist o) = Some b;
  fb_none : nodes (plist o) !! i = None;
  fb_window : parent_start (plist o) + i < parent_end (plist o);
  fb_branch : objs s !! b = Some ob;
  fb_is_branch : branch (plist ob) = true;
  fb_node : nodes (plist ob) !! (parent_start (plist o) + i) = Some n0;
  fb_page : page n0 = Some p0;
}.

Lemma from_branch_facts s id o i b ob n0 p0 : from_branch s id o i b ob n0 p0 →
  id ≠ b ∧ source_of (objs s) id i = Some p0 ∧ owns (objs s) b (parent_start (plist o) + i) p0 ∧
  waiting (objs s) b (parent_start (plist o) + i) id.
Proof.
  intros [Ho Hl Hp Hn Hw Hob Hbb Hn0 Hp0]. split_and!.
  - intros ->. congruence.
  - unfold source_of. rewrite Ho. cbn. rewrite Hn, Hp. cbn. rewrite (proj2 (Z.ltb_lt _ _) Hw), Hob. cbn. by rewrite Hn0.
  - by exists ob, n0.
  - by exists o, i.
Qed.

Lemma give_copy s s1 p id o i b ob n0 p0 k :
  ext_ok s → fresh s s1 p → from_branch s id o i b ob n0 p0 → k = parent_start (plist o) + i →
  committed s (ExtState (put_node (put_node (objs s) b k (MkNode ShouldMove (page n0) (npin_count n0))) id i (node_new p))
    (memcpy (ptr p) (ptr p0) PAGE_SIZE (emem s1)) (source s1) (notified s)) id i true (base p).
Proof.
  intros Hok Hf Hfb ->. destruct (from_branch_facts _ _ _ _ _ _ _ _ Hfb) as (Hne & Hsrc & Hown & Hwait).
  destruct Hfb as [Ho Hl Hp Hn Hw Hob Hbb Hn0 Hp0]. set (k := parent_start (plist o) + i) in *.
  set (nm := MkNode ShouldMove (page n0) (npin_count n0)). pose proof (eo_shape _ _ Hok) as Hsh.
  rewrite put_put_comm by done.
  set (O1 := put_node (objs s) id i (node_new p)).
  assert (shape O1) as Hsh1 by (apply (shape_put _ id o); [done..|by exists p|done]).
  destruct (put_fwd (objs s) id i (node_new p) b ob Hob) as (ob1 & Hob1 & (Eb & _) & Enb). rewrite decide_False in Enb by done.
  assert (leaf (objs s) id) as Hlf by (by exists o).
  pose proof (iu_page _ _ _ (eo_use _ _ Hok _ _ _ Hown)) as Hk0.
  assert (ptr p0 ≠ ptr p) as Hpp by (by eapply fresh_not_source).
  assert (agree_but (ptr p) (emem s) (memcpy (ptr p) (ptr p0) PAGE_SIZE (emem s1))) as Hag.
  { intros q Hq Hqp. rewrite bytes_memcpy_ne; [by apply Hf|done|]. apply pages_disjoint; [done|apply Hf|done]. }
  assert (bytes (memcpy (ptr p) (ptr p0) PAGE_SIZE (emem s1)) (ptr p) PAGE_SIZE = content s id i) as Hcp.
  { rewrite bytes_memcpy_eq by done. unfold content. rewrite Hsrc. cbn. by apply Hf. }
  assert (∀ id' i' p', owns (put_node O1 b k nm) id' i' p' ↔ ((id', i') = (id, i) ∧ p' = p) ∨ ((id', i') ≠ (id, i) ∧ owns (objs s) id' i' p')) as Hown'.
  { intros id' i' p'. rewrite owns_put by (by exists ob1). unfold O1. rewrite owns_put by (by exists o).
    assert (owns (objs s) b k p' ↔ page n0 = Some p') as Hob' by (split; [intros (? & ? & ? & ? & ?); simplify_eq; congruence|intros; by exists ob, n0]).
    destruct (decide ((id', i') = (b, k))) as [[= -> ->]|]; cbn; naive_solver. }
  split; [|split; [done|split; [|split]]]; cbn [objs emem].
  - eapply (ext_ok_fresh s s1 p id i); [done|done|done| |].
    + apply (shape_put_branch _ b ob1); [done|done|congruence|by exists p0|]. intros _ x y Hx Hy.
      assert (∀ z, waiting O1 b k z → z ≠ id) as Hz by (intros z Hz ->; by apply (put_not_waiting (objs s) id o i (node_new p) b) in Hz).
      destruct (sh_two _ Hsh b) as (c1 & c2 & Hc). pose proof (Hz x Hx). pose proof (Hz y Hy).
      apply waiting_put in Hx as (ox & _ & Hox & Hpx & _), Hy as (oy & _ & Hoy & Hpy & _).
      pose proof (Hc _ _ Hox Hpx). pose proof (Hc _ _ Hoy Hpy). pose proof (Hc _ _ Ho Hp). naive_solver congruence.
    + intros id' i' p' [?|[_ ?]]%Hown'; [by left|by right].
  - rewrite (base_ptr p) by apply Hf. exact Hcp.
  - intros id' i' Hl'. split; [by apply put_leaf, put_leaf|]. assert (is_Some (objs s !! id')) as Hs' by (destruct Hl' as (? & ? & _); eauto).
    assert (source_of (put_node O1 b k nm) id' i' = if decide ((id', i') = (id, i)) then Some p else source_of (objs s) id' i') as Hsp.
    { rewrite (source_put_branch O1 b ob1 k n0 nm) by (try done; by rewrite Enb). unfold O1. by rewrite source_put. }
    destruct (decide ((id', i') = (id, i))) as [[= -> ->]|].
    + unfold content at 1. cbn [objs emem]. rewrite Hsp. exact Hcp.
    + eapply content_frame; [done|done| |exact Hsp]. intros p' Hp'. by eapply fresh_not_source.
  - intros _. exists p. split; [|done]. apply Hown'. by left.
Qed.

Lemma give_move s id o i b ob n0 p0 k write :
  ext_ok s → from_branch s id o i b ob n0 p0 → k = parent_start (plist o) + i → state n0 = ShouldMove →
  committed s (ExtState (put_node (drop_node (objs s) b k) id i (node_new p0)) (emem s) (source s) (notified s))
    id i write (base p0).
Proof.
  intros Hok Hfb -> Hst. destruct (from_branch_facts _ _ _ _ _ _ _ _ Hfb) as (Hne & Hsrc & Hown & Hwait).
  destruct Hfb as [Ho Hl Hp Hn Hw Hob Hbb Hn0 Hp0]. set (k := parent_start (plist o) + i) in *.
  pose proof (eo_shape _ _ Hok) as Hsh. rewrite put_drop_comm by done. set (O1 := put_node (objs s) id i (node_new p0)).
  assert (shape O1) as Hsh1 by (apply (shape_put _ id o); [done..|by exists p0|done]).
  destruct (put_fwd (objs s) id i (node_new p0) b ob Hob) as (ob1 & Hob1 & (Eb & _) & Enb).
  assert (leaf (objs s) id) as Hlf by (by exists o).
  pose proof (eo_use _ _ Hok _ _ _ Hown) as Huse.
  assert (∀ id' i' p', owns (drop_node O1 b k) id' i' p' ↔ (id', i') ≠ (b, k) ∧ ((id', i') = (id, i) ∧ p' = p0 ∨ (id', i') ≠ (id, i) ∧ owns (objs s) id' i' p')) as Hown'.
  { intros id' i' p'. rewrite owns_drop. unfold O1. rewrite owns_put by (by exists o). cbn. naive_solver. }
  split; [|split; [done|split; [|split]]]; cbn [objs emem].
  - apply (ext_ok_move s p0 id i b k); [done|done| |].
    + apply (shape_drop_branch _ b ob1); [done|done|congruence].
    + intros id' i' p' [? [?|[_ ?]]]%Hown'; [by left|by right].
  - rewrite (base_ptr p0) by apply Huse. unfold content. by rewrite Hsrc.
  - intros id' i' Hl'. split; [by apply drop_leaf, put_leaf|]. destruct Hl' as (o1 & Ho1 & Hb1).
    destruct (put_fwd (objs s) id i (node_new p0) id' o1 Ho1) as (o' & Ho' & (F1 & F2 & F3 & F4 & _) & En').
    assert (source_of (drop_node O1 b k) id' i' = source_of (objs s) id' i') as Hsp.
    { rewrite (source_drop_branch O1 b ob1 k id' o' i'); [|done|congruence|done|congruence|].
      - unfold O1. rewrite source_put by (try done; by exists o1). by destruct (decide ((id', i') = (id, i))) as [[= -> ->]|].
      - rewrite F2, F3, F4. intros Hpar Hnone Hwin Hk. assert (waiting (objs s) b k id') as Hw'.
        { exists o1, i'. split; [done|]. split; [done|]. split; [|split; [done|lia]]. rewrite En' in Hnone.
          destruct (decide (id = id')); [|done]. by apply lookup_insert_None in Hnone as [? _]. }
        pose proof (sh_move _ Hsh b ob k n0 id id' Hob Hbb Hn0 Hst Hwait Hw') as <-. simplify_eq.
        rewrite decide_True in En' by done. rewrite En' in Hnone. apply lookup_insert_None in Hnone as [_ Hi]. lia. }
    unfold content. cbn [objs emem]. by rewrite Hsp.
  - intros _. exists p0. split; [|done]. apply Hown'. split; [congruence|by left].
Qed.

(** Nothing to do: the page is there. *)
Lemma give_present s id i (b : Z) : ext_ok s →
  (∃ p, source_of (objs s) id i = Some p ∧ b = base p) ∨ (source_of (objs s) id i = None ∧ b = zero_base) →
  committed s s id i false b.
Proof.
  intros Hok Hsrc. split; [done|]. split; [done|]. split; [|done]. unfold content.
  destruct Hsrc as [(p & Hp & ->)|[-> ->]]; [|apply Hok]. rewrite Hp, (base_ptr p); [done|].
  by eapply iu_base, source_in_use.
Qed.

(** ** [commit] *)

(** Why a page cannot be committed. *)
Definition commit_fails (s : ext_state A) (o : ExtPhys) (i : Z) (write : bool) (e : perror) : Prop :=
  match e with
  | Alloc => write = true ∧ ∀ q, ¬ pg_free (source s) q
  | OutOfRange k => k = parent_start (plist o) + i ∧ ∃ b ob, parent (plist o) = Some b ∧ objs s !! b = Some ob ∧ count (plist ob) ≤ k
  | _ => False
  end.

Definition commit_post (s : ext_state A) (id : nat) (o : ExtPhys) (i : Z) (write : bool)
    (r : res perror Commit * ext_state A) : Prop :=
  match r with
  | (Ok (CRef b), s') => committed s s' id i write b
  | (Err e, _) => commit_fails s o i write e
  | _ => False
  end.

(** A page of its own for an object that found none. *)
Lemma alloc_put s id o i write (node : Page → PageNode) (m : st (ext_state A) perror Commit) :
  ext_ok s → objs s !! id = Some o → branch (plist o) = false → (∀ p, page (node p) = Some p) →
  (∀ p, parent (plist o) = None → state (node p) = ShouldCopy) → source_of (objs s) id i = None → write = true →
  (∀ p s1, page_allocate s = (Ok (Some p), s1) → objs s1 = objs s →
    m s = (Ok (CRef (base p)), ExtState (put_node (objs s) id i (node p)) (emem s1) (source s1) (notified s1))) →
  (∀ s1, page_allocate s = (Ok None, s1) → m s = (Err Alloc, s1)) →
  commit_post s id o i write (m s).
Proof.
  intros Hok Ho Hb Hn Hst Hsrc -> Hm Hm'. pose proof (page_allocate_ok (PS:=PS) s) as Ha.
  destruct (page_allocate s) as [[[p|]|e|] s1]; [| |done..].
  - rewrite (Hm p s1 eq_refl) by apply Ha.
    cbn. rewrite (fr_log _ _ _ Ha). apply (give_fresh s s1 p id o); auto.
  - rewrite (Hm' s1 eq_refl). split; [done|]. intros q. apply Ha.
Qed.

Lemma source_via_branch O id o i b ob : O !! id = Some o → parent (plist o) = Some b → nodes (plist o) !! i = None →
  parent_start (plist o) + i < parent_end (plist o) → O !! b = Some ob →
  source_of O id i = nodes (plist ob) !! (parent_start (plist o) + i) ≫= page.
Proof.
  intros Ho Hp Hn Hw Hob. unfold source_of. rewrite Ho. cbn. rewrite Hn, Hp. cbn. by rewrite (proj2 (Z.ltb_lt _ _) Hw), Hob.
Qed.

Lemma page_copy_run s p p0 : kernel_page (ptr p0) = true → base p0 = ptr p0 - ID_OFFSET →
  page_copy_from p (base p0) s =
    (Ok (), ExtState (objs s) (memcpy (ptr p) (ptr p0) PAGE_SIZE (emem s)) (source s) (notified s)).
Proof.
  intros Hk ->. unfold page_copy_from. by rewrite (st_lift_ok _ _ _ _ (to_laddr_ok (ptr p0) Hk)), st_get_bind.
Qed.

(** What the branch [ob] does with the request for the page [k], which it has. *)
Lemma branch_node_run fuel s b ob k n0 p0 write :
  objs s !! b = Some ob → branch (plist ob) = true → k < count (plist ob) → nodes (plist ob) !! k = Some n0 →
  page n0 = Some p0 → kernel_page (ptr p0) = true → base p0 = ptr p0 - ID_OFFSET →
  match commit_impl zero_base (S fuel) b k write s with
  | (Ok (CRef x), s') => state n0 = ShouldCopy ∧ write = false ∧ x = base p0 ∧ s' = s
  | (Ok (Insert p), s') =>
      (state n0 = ShouldCopy ∧ write = true ∧ ∃ s1, fresh s s1 p ∧
        s' = ExtState (put_node (objs s) b k (MkNode ShouldMove (page n0) (npin_count n0)))
          (memcpy (ptr p) (ptr p0) PAGE_SIZE (emem s1)) (source s1) (notified s)) ∨
      (state n0 = ShouldMove ∧ p = p0 ∧
        s' = ExtState (drop_node (objs s) b k) (emem s) (source s) (notified s))
  | (Err e, _) => e = Alloc ∧ write = true ∧ ∀ q, ¬ pg_free (source s) q
  | _ => False
  end.
Proof.
  intros Hob Hbb Hc Hn0 Hp0 Hk Hb0. cbn [commit_impl]. rewrite (st_bind_ok _ _ _ _ _ (get_list_run s b ob Hob)).
  rewrite (proj2 (Z.leb_gt _ _) Hc), Hn0, Hbb. unfold get_from_branch. destruct (state n0) eqn:Hst; [destruct write|].
  - pose proof (page_allocate_ok (PS:=PS) s) as Ha. unfold mbind at 1, st_bind at 1. unfold mbind at 1, st_bind at 1.
    destruct (page_allocate s) as [[[p|]|e|] s1]; [| |done..]; [|split_and!; [done|done|apply Ha]].
    rewrite (st_lift_ok (of_option Alloc (Some p)) _ _ p eq_refl), Hp0, (st_lift_ok (unwrap (Some p0)) _ _ p0 eq_refl).
    rewrite (st_bind_ok _ _ _ _ _ (page_copy_run s1 p p0 Hk Hb0)). unfold mret at 1, st_ret at 1.
    rewrite (st_bind_ok _ _ _ () _ (set_node_run (ExtState (objs s1) (memcpy (ptr p) (ptr p0) PAGE_SIZE (emem s1)) (source s1) (notified s1)) b ob k _ ltac:(by cbn; rewrite (fr_objs _ _ _ Ha)))).
    left. split; [done|]. split; [done|]. exists s1. split; [done|]. cbn [objs emem source notified].
    by rewrite (fr_objs _ _ _ Ha), (fr_log _ _ _ Ha).
  - rewrite Hp0, (st_bind_ok _ _ s (CRef (base p0), false, n0) s) by done.
    by rewrite (st_bind_ok _ _ _ () _ (set_same_run s b ob k n0 Hob Hn0)).
  - rewrite Hp0, (st_bind_ok _ _ s (Insert p0, true, MkNode ShouldMove None (npin_count n0)) s) by done.
    rewrite (st_bind_ok _ _ _ () _ (del_node_run s b ob k Hob)). by right.
Qed.

(** The page is taken from the branch [b]. *)
Lemma commit_branch_ok fuel s id o i b ob write :
  ext_ok s → objs s !! id = Some o → branch (plist o) = false → parent (plist o) = Some b →
  nodes (plist o) !! i = None → parent_start (plist o) + i < parent_end (plist o) →
  objs s !! b = Some ob → branch (plist ob) = true →
  commit_post s id o i write
    ((c ← commit_impl zero_base (S fuel) b (parent_start (plist o) + i) write;
      match c with
      | CRef b => mret (CRef b)
      | Insert p => _ ← set_list id (set_node (plist o) i (node_new p)); mret (CRef (base p))
      end) s).
Proof.
  intros Hok Ho Hl Hp Hn Hw Hob Hbb. pose proof (source_via_branch _ _ _ _ _ _ Ho Hp Hn Hw Hob) as Hsrc.
  set (k := parent_start (plist o) + i) in *. assert (id ≠ b) as Hne by (intros ->; congruence).
  assert (∀ O' m a l n, O' !! id = Some o → set_list id (set_node (plist o) i n) (ExtState O' m a l) =
    (Ok (), ExtState (put_node O' id i n) m a l)) as Hset by (intros; by apply set_node_run).
  pose proof (eo_shape _ _ Hok) as Hsh. pose proof (branch_no_parent _ _ _ Hsh Hob Hbb) as Hpb.
  destruct (nodes (plist ob) !! k) as [n0|] eqn:Hn0; [destruct (Z.lt_ge_cases k (count (plist ob))) as [Hc|Hc]|].
  - destruct (sh_branch _ Hsh b ob k n0 Hob Hbb Hn0) as [p0 Hp0]. cbn in Hsrc. rewrite Hp0 in Hsrc.
    assert (from_branch s id o i b ob n0 p0) as Hfb by (by split).
    pose proof (source_in_use s id i p0 Hok Hsrc) as Huse.
    pose proof (branch_node_run fuel s b ob k n0 p0 write Hob Hbb Hc Hn0 Hp0 (iu_page _ _ _ Huse) (iu_base _ _ _ Huse)) as Hr.
    unfold mbind at 1, st_bind at 1. destruct (commit_impl zero_base (S fuel) b k write s) as [[[p|x]|e|] s']; [..|done].
    + destruct Hr as [(Hst & -> & s1 & Hf & ->)|(Hst & -> & ->)].
      * rewrite (st_bind_ok _ _ _ () _ (Hset _ _ _ _ _ ltac:(by rewrite lookup_put, decide_False))).
        by apply (give_copy s s1 p id o i b ob n0 p0 k).
      * rewrite (st_bind_ok _ _ _ () _ (Hset _ _ _ _ _ ltac:(by rewrite lookup_drop, decide_False))).
        by apply (give_move s id o i b ob n0 p0 k).
    + destruct Hr as (_ & -> & -> & ->). apply give_present; [done|]. left. eauto.
    + by destruct Hr as (-> & -> & Hr).
  - cbn [commit_impl]. unfold mbind at 1, st_bind at 1. rewrite (st_bind_ok _ _ _ _ _ (get_list_run s b ob Hob)).
    rewrite (proj2 (Z.leb_le _ _) Hc). split; [done|]. by exists b, ob.
  - cbn [commit_impl]. unfold mbind at 1, st_bind at 1. rewrite (st_bind_ok _ _ _ _ _ (get_list_run s b ob Hob)).
    destruct (Z.leb_spec (count (plist ob)) k) as [Hc|Hc]; [split; [done|]; by exists b, ob|].
    rewrite Hn0, Hpb. unfold commit_new. destruct write; cbn [negb].
    + apply (alloc_put s id o i true node_new (λ s, _)); [done..|by intros; congruence|done|done| |].
      * intros p s1 Hpa Hs1. unfold mbind, st_bind, lift. rewrite Hpa. cbn [of_option].
        rewrite (get_list_run s1 b ob) by congruence. rewrite Hbb. unfold mret, st_ret.
        rewrite (set_node_run s1 id o) by congruence. by rewrite Hs1.
      * intros s1 Hpa. unfold mbind, st_bind, lift. by rewrite Hpa.
    + apply give_present; [done|]. by right.
Qed.

Lemma commit_impl_ok s id o i write :
  ext_ok s → objs s !! id = Some o → branch (plist o) = false → 0 ≤ i < count (plist o) →
  commit_post s id o i write (commit_impl zero_base (chain_fuel s) id i write s).
Proof.
  intros Hok Ho Hl Hi. pose proof (eo_shape _ _ Hok) as Hsh.
  assert (∃ n, chain_fuel s = S (S n)) as [fuel ->].
  { unfold chain_fuel. destruct (size (objs s)) as [|n] eqn:Hs; [|by exists n].
    apply map_size_empty_iff in Hs. rewrite Hs in Ho. done. }
  assert (∀ m : st (ext_state A) perror Commit, source_of (objs s) id i = None → m s = commit_new zero_base id i write s →
    commit_post s id o i write (m s)) as Hnew.
  { intros m Hsrc ->. unfold commit_new. destruct write; cbn [negb]; [|apply give_present; [done|by right]].
    apply (alloc_put s id o i true node_new (λ s, _)); try done.
    - intros p s1 Hpa Hs1. unfold mbind, st_bind, lift. rewrite Hpa. cbn [of_option].
      rewrite (get_list_run s1 id o) by congruence. rewrite Hl. rewrite (set_node_run s1 id o) by congruence. by rewrite Hs1.
    - intros s1 Hpa. unfold mbind, st_bind, lift. by rewrite Hpa. }
  remember (S fuel) as f1 eqn:Hf1. cbn [commit_impl]. rewrite (st_bind_ok _ _ _ _ _ (get_list_run s id o Ho)).
  rewrite (proj2 (Z.leb_gt _ _) (proj2 Hi)). destruct (nodes (plist o) !! i) as [n|] eqn:Hn.
  - assert (source_of (objs s) id i = page n) as Hsrc by (unfold source_of; rewrite Ho; cbn; by rewrite Hn).
    rewrite Hl. unfold get_from_leaf. destruct (page n) as [p|] eqn:Hp; [|destruct write].
    + rewrite (st_bind_ok _ _ s (base p, n) s) by done. rewrite (st_bind_ok _ _ _ () _ (set_same_run s id o i n Ho Hn)).
      destruct (give_present s id i (base p) Hok) as (H1 & H2 & H3 & H4 & _); [by left; eauto|].
      split; [done|]. split; [done|]. split; [done|]. split; [done|]. intros _. exists p. split; [|done]. by exists o, n.
    + apply (alloc_put s id o i true (λ p, MkNode (state n) (Some p) (npin_count n)) (λ s, _)); try done.
      * intros p' Hpar. by apply (sh_root _ Hsh id o i n).
      * intros p s1 Hpa Hs1. unfold mbind, st_bind, lift. rewrite Hpa. cbn [of_option]. unfold mret, st_ret.
        rewrite (set_node_run s1 id o) by congruence. by rewrite Hs1.
      * intros s1 Hpa. unfold mbind, st_bind, lift. by rewrite Hpa.
    + rewrite (st_bind_ok _ _ s (zero_base, n) s) by done. rewrite (st_bind_ok _ _ _ () _ (set_same_run s id o i n Ho Hn)).
      apply give_present; [done|]. by right.
  - destruct (parent (plist o)) as [b|] eqn:Hp.
    + destruct (sh_range _ Hsh id o Ho) as [[? ?] [? ?]].
      rewrite (st_lift_ok _ _ _ _ (uadd_ok W (parent_start (plist o)) i ltac:(lia))).
      destruct (Z.ltb_spec (parent_start (plist o) + i) (parent_end (plist o))) as [Hw|Hw].
      * destruct (sh_parent _ Hsh id o b Ho Hp) as (_ & ob & Hob & Hbb & _). subst f1.
        by apply (commit_branch_ok fuel s id o i b ob).
      * apply (Hnew (λ s, _)); [|done]. unfold source_of. rewrite Ho. cbn. rewrite Hn, Hp. cbn.
        by rewrite (proj2 (Z.ltb_ge _ _) Hw).
    + apply (Hnew (λ s, _)); [|done]. unfold source_of. rewrite Ho. cbn. by rewrite Hn, Hp.
Qed.

(** ** [create_sub] *)

Section sub.
Context (O : gmap nat ExtPhys) (id br sub : nat) (o : ExtPhys) (start end_ len n : Z).
Hypothesis Hsh : shape O.
Hypothesis Ho : O !! id = Some o.
Hypothesis Hl : branch (plist o) = false.
Hypothesis Hp : parent (plist o) = None.
Hypothesis Hbr : O !! br = None.
Hypothesis Hsub : O !! sub = None.
Hypothesis Hne : br ≠ sub.

Definition sub_branch : PageList := MkPageList true None (parent_start (plist o)) (parent_end (plist o)) (nodes (plist o)) (count (plist o)) (pin_count (plist o)).
Definition sub_copy : PageList := MkPageList false (Some br) start end_ ∅ n 0.
Definition sub_self : PageList := MkPageList false (Some br) 0 (count (plist o)) ∅ (count (plist o)) (pin_count (plist o)).
Definition sub_objs : gmap nat ExtPhys :=
  <[sub := MkExt len sub_copy]> (<[br := MkExt 0 sub_branch]> (<[id := MkExt (elen o) sub_self]> O)).

(** The objects after the split. *)
Lemma sub_lookup x y : sub_objs !! x = Some y →
  (x = sub ∧ y = MkExt len sub_copy) ∨ (x = br ∧ y = MkExt 0 sub_branch) ∨ (x = id ∧ y = MkExt (elen o) sub_self) ∨
  (x ≠ sub ∧ x ≠ br ∧ x ≠ id ∧ O !! x = Some y).
Proof. unfold sub_objs. rewrite !lookup_insert_Some. naive_solver. Qed.

Lemma sub_lookup_br : sub_objs !! br = Some (MkExt 0 sub_branch).
Proof. unfold sub_objs. by rewrite lookup_insert_ne, lookup_insert_eq. Qed.

Lemma sub_lookup_id : sub_objs !! id = Some (MkExt (elen o) sub_self).
Proof. unfold sub_objs. rewrite !lookup_insert_ne by congruence. apply lookup_insert_eq. Qed.

Lemma sub_lookup_other x : x ≠ sub → x ≠ br → x ≠ id → sub_objs !! x = O !! x.
Proof. intros. unfold sub_objs. by rewrite !lookup_insert_ne. Qed.

Lemma old_parent x y b : O !! x = Some y → parent (plist y) = Some b → b ≠ br ∧ b ≠ sub ∧ b ≠ id.
Proof. intros Hy Hb. destruct (sh_parent _ Hsh x y b Hy Hb) as (_ & ob & Hob & Hbb & _). split_and!; congruence. Qed.

Lemma sub_shape : 0 ≤ start < 2 ^ 52 → 0 ≤ n < 2 ^ 52 → shape sub_objs.
Proof.
  intros Hst Hn. split.
  - intros x y b [[-> ->]|[[-> ->]|[[-> ->]|(? & ? & ? & Hy)]]]%sub_lookup Hb; cbn in *; simplify_eq.
    + split; [done|]. eexists. by split; [apply sub_lookup_br|].
    + split; [done|]. eexists. by split; [apply sub_lookup_br|].
    + destruct (sh_parent _ Hsh x y b Hy Hb) as (Hf & ob & Hob & Hbb & Hpb). destruct (old_parent _ _ _ Hy Hb) as (? & ? & ?).
      split; [done|]. exists ob. by rewrite sub_lookup_other.
  - intros x y i m [[-> ->]|[[-> ->]|[[-> ->]|(? & ? & ? & Hy)]]]%sub_lookup Hb Hm; cbn in *; simplify_eq.
    + by apply (sh_root _ Hsh id o i m).
    + by eapply sh_branch.
  - intros x y i m [[-> ->]|[[-> ->]|[[-> ->]|(? & ? & ? & Hy)]]]%sub_lookup Hb Hpar Hm; cbn in *; simplify_eq.
    by eapply sh_root.
  - intros b. destruct (decide (b = br)) as [->|Hb].
    + exists id, sub. intros x y [[-> ->]|[[-> ->]|[[-> ->]|(? & ? & ? & Hy)]]]%sub_lookup Hpar; cbn in *; simplify_eq; auto.
      by destruct (old_parent _ _ _ Hy Hpar).
    + destruct (sh_two _ Hsh b) as (c1 & c2 & Hc). exists c1, c2.
      intros x y [[-> ->]|[[-> ->]|[[-> ->]|(? & ? & ? & Hy)]]]%sub_lookup Hpar; cbn in *; simplify_eq. by eapply Hc.
  - intros b ob i m x x' [[-> ->]|[[-> ->]|[[-> ->]|(? & ? & ? & Hy)]]]%sub_lookup Hb Hm Hs Hx Hx'; cbn in *; simplify_eq.
    + destruct (sh_root _ Hsh id o i m Ho Hl Hp Hm). congruence.
    + assert (∀ z, waiting sub_objs b i z → waiting O b i z) as Hw.
      { intros z (oz & j & [[-> ->]|[[-> ->]|[[-> ->]|(? & ? & ? & Hz)]]]%sub_lookup & Hpar & Hj); cbn in *; simplify_eq. by exists oz, j. }
      by apply (sh_move _ Hsh b ob i m); auto.
  - intros x y [[-> ->]|[[-> ->]|[[-> ->]|(? & ? & ? & Hy)]]]%sub_lookup; cbn; [lia|..|by eapply sh_range];
      pose proof (sh_range _ Hsh id o Ho); lia.
Qed.

Lemma sub_owns x i p : owns sub_objs x i p → (x = br ∧ owns O id i p) ∨ (x ≠ br ∧ x ≠ id ∧ owns O x i p).
Proof.
  intros (y & m & [[-> ->]|[[-> ->]|[[-> ->]|(? & ? & ? & Hy)]]]%sub_lookup & Hm & Hpg); cbn in *; simplify_eq.
  - left. split; [done|]. by exists o, m.
  - right. split; [done|]. split; [done|]. by exists y, m.
Qed.

Lemma root_source i : source_of O id i = nodes (plist o) !! i ≫= page.
Proof. unfold source_of. rewrite Ho. cbn. rewrite Hp. by destruct (nodes (plist o) !! i). Qed.

Lemma sub_source_id i : i < count (plist o) → source_of sub_objs id i = source_of O id i.
Proof.
  intros Hi. rewrite (source_via_branch sub_objs id _ i br (MkExt 0 sub_branch) sub_lookup_id eq_refl); [|done|cbn; lia|apply sub_lookup_br].
  by rewrite root_source.
Qed.

Lemma sub_source_copy j : start + j < end_ → source_of sub_objs sub j = source_of O id (start + j).
Proof.
  intros Hj. assert (sub_objs !! sub = Some (MkExt len sub_copy)) as Hs by apply lookup_insert_eq.
  rewrite (source_via_branch sub_objs sub _ j br (MkExt 0 sub_branch) Hs eq_refl); [|done|done|apply sub_lookup_br]. by rewrite root_source.
Qed.

Lemma sub_source_other x i : x ≠ sub → x ≠ br → x ≠ id → source_of sub_objs x i = source_of O x i.
Proof.
  intros H1 H2 H3. unfold source_of. rewrite sub_lookup_other by done. destruct (O !! x) as [y|] eqn:Hy; [|done]. cbn.
  destruct (nodes (plist y) !! i); [done|]. destruct (parent (plist y)) as [b|] eqn:Hb; [|done]. cbn.
  destruct (old_parent _ _ _ Hy Hb) as (? & ? & ?). by rewrite sub_lookup_other.
Qed.
End sub.

(** The effect of [create_sub] on an object that is no copy and has none. *)
Lemma create_sub_run s id br sub o offset len :
  objs s !! id = Some o → branch (plist o) = false → parent (plist o) = None → pin_count (plist o) ≤ 0 →
  objs s !! br = None → objs s !! sub = None → br ≠ sub → 0 ≤ offset → 0 ≤ len → offset + len < 2 ^ 63 →
  let start := offset / PAGE_SIZE in let end_ := (offset + len + PAGE_SIZE - 1) / PAGE_SIZE in
  0 ≤ start ≤ end_ ∧ end_ < 2 ^ 52 ∧
  create_sub id br sub offset len s =
    (Ok (), ExtState (sub_objs (objs s) id br sub o start end_ len (end_ - start)) (emem s) (source s) (notified s)).
Proof.
  intros Ho Hl Hp Hpin Hbr Hsub Hne Hof Hlen Hlt start end_. change PAGE_SIZE with 4096 in *.
  assert (0 ≤ start ≤ end_ ∧ end_ < 2 ^ 52) as [Hse He].
  { unfold start, end_. split; [split|]; [by apply Z.div_pos|apply Z.div_le_mono; lia|].
    apply Z.div_lt_upper_bound; lia. }
  split; [done|]. split; [done|]. unfold create_sub. rewrite (st_bind_ok _ _ _ _ _ (get_list_run s id o Ho)).
  destruct (Z.gtb_spec (pin_count (plist o)) 0); [lia|].
  rewrite (st_lift_ok _ _ _ _ (uadd_ok W offset len ltac:(lia))).
  assert (align_up (offset + len) PAGE_SHIFT < 2 ^ 64) as Hup.
  { pose proof (align_up_bounds (offset + len) PAGE_SHIFT ltac:(done)). change (2 ^ PAGE_SHIFT) with 4096 in *. lia. }
  rewrite (st_lift_ok _ _ _ _ (div_ceil_bit_ok W PAGE_SHIFT ltac:(done) (offset + len) ltac:(lia) Hup)).
  change (2 ^ PAGE_SHIFT) with 4096. fold end_. rewrite (Z.shiftr_div_pow2 offset PAGE_SHIFT) by done.
  change (offset / 2 ^ PAGE_SHIFT) with start. rewrite (st_lift_ok _ _ _ _ (usub_ok W end_ start ltac:(lia))).
  rewrite Hl, Hp. unfold set_list. rewrite st_modify_bind. unfold modify. cbn. do 2 f_equal. unfold sub_objs. do 2 f_equal.
  apply map_eq. intros x. destruct (decide (id = x)) as [<-|].
  - by rewrite lookup_alter_eq, lookup_insert_eq, Ho.
  - by rewrite lookup_alter_ne, lookup_insert_ne.
Qed.

(** ** Theorems *)


(** A copy of a part of an object has the content of that part, and the
    object and all others keep theirs; no page is copied. *)
Theorem create_sub_content s id br sub o offset len :
  ext_ok s → objs s !! id = Some o → branch (plist o) = false → parent (plist o) = None → pin_count (plist o) ≤ 0 →
  objs s !! br = None → objs s !! sub = None → br ≠ sub → 0 ≤ offset → 0 ≤ len → offset + len < 2 ^ 63 →
  ∃ s', create_sub id br sub offset len s = (Ok (), s') ∧ ext_ok s' ∧ emem s' = emem s ∧ source s' = source s ∧
    (∀ j, 0 ≤ j < (offset + len + PAGE_SIZE - 1) / PAGE_SIZE - offset / PAGE_SIZE →
      content s' sub j = content s id (offset / PAGE_SIZE + j)) ∧
    (∀ id' i, leaf (objs s) id' → (id' = id → i < count (plist o)) → content s' id' i = content s id' i).
Proof.
  intros Hok Ho Hl Hp Hpin Hbr Hsub Hne Hof Hlen Hlt.
  destruct (create_sub_run s id br sub o offset len Ho Hl Hp Hpin Hbr Hsub Hne Hof Hlen Hlt) as (Hse & He & Hrun).
  set (start := offset / PAGE_SIZE) in *. set (end_ := (offset + len + PAGE_SIZE - 1) / PAGE_SIZE) in *.
  pose proof (eo_shape _ _ Hok) as Hsh. eexists. split; [exact Hrun|]. split.
  { split; cbn; [|..|apply Hok].
    - apply sub_shape; try done; lia.
    - intros x i p [[_ Hx]|(_ & _ & Hx)]%sub_owns; try done; by apply (eo_use _ _ Hok) in Hx.
    - intros x i p y j q Hx%sub_owns Hy%sub_owns E; try done.
      destruct Hx as [[-> Hx]|(? & ? & Hx)], Hy as [[-> Hy]|(? & ? & Hy)];
        destruct (eo_inj _ _ Hok _ _ _ _ _ _ Hx Hy E) as [? ?]; by subst. }
  split; [done|]. split; [done|]. split.
  - intros j Hj. unfold content. cbn [objs emem]. by rewrite sub_source_copy by (try done; lia).
  - intros id' i Hl' Hi. unfold content. cbn [objs emem]. f_equal. destruct (decide (id' = id)) as [->|].
    + apply sub_source_id; auto.
    + destruct Hl' as (o' & Ho' & _). apply sub_source_other; congruence.
Qed.
End commit.

(** ** Witnesses *)

Module Witness.
(** The zero page is the second page of memory, and five further ones are free. *)
Definition frame (k : Z) : Z := ID_OFFSET + k * 4096.
Definition zero : Z := 4096.
Definition free : list Z := [frame 2; frame 5; frame 7; frame 8; frame 9].

Definition one : ext_state (list Z) :=
  ExtState {[ 0%nat := MkExt 8192 (MkPageList false None 0 0 ∅ 2 0) ]} ∅ free [].

Lemma one_new : ext_new (P:=debug_profile) 0 8192 (ExtState ∅ ∅ free []) = (Ok (), one).
Proof. vm_compute. reflexivity. Qed.

Lemma one_ok : ext_ok zero one.
Proof.
  assert (∀ id i p, ¬ owns (objs one) id i p) as Hno.
  { intros id i p (o & n & Ho & Hn & _). cbn in Ho. apply lookup_singleton_Some in Ho as [_ <-]. done. }
  split; [|intros ? ? ? H; destruct (Hno _ _ _ H)|intros ? ? ? ? ? ? H; destruct (Hno _ _ _ H)|].
  - split; cbn.
    + by intros id o b [_ <-]%lookup_singleton_Some.
    + by intros id o i n [_ <-]%lookup_singleton_Some.
    + by intros id o i n [_ <-]%lookup_singleton_Some.
    + intros b. exists 0%nat, 0%nat. intros id o [<- _]%lookup_singleton_Some. auto.
    + by intros b o i n id id' [_ <-]%lookup_singleton_Some.
    + intros id o [_ <-]%lookup_singleton_Some. cbn. lia.
  - split; [reflexivity|]. split; [|vm_compute; reflexivity].
    intros [H _]. revert H. apply (bool_decide_unpack _). vm_compute. exact I.
Qed.

(** Page 1 of object 0 is committed, and object 2 is a copy of it. *)
Definition committed : ext_state (list Z) := snd (commit (P:=debug_profile) zero 0 1 true one).
Definition copied : ext_state (list Z) := snd (create_sub (P:=debug_profile) 0 1 2 4096 4096 committed).
Lemma run_ends {A B} (p : A * B) a : fst p = a → p = (a, snd p).
Proof. destruct p. cbn. by intros ->. Qed.
Lemma committed_run : commit (P:=debug_profile) zero 0 1 true one = (Ok 8192, committed).
Proof. apply run_ends. vm_compute. reflexivity. Qed.

Lemma committed_object : ∃ o, objs committed !! 0%nat = Some o ∧ branch (plist o) = false ∧ parent (plist o) = None ∧ pin_count (plist o) ≤ 0.
Proof. eexists. split; [vm_compute; reflexivity|]. cbn. by split_and!. Qed.
Lemma copied_run : create_sub (P:=debug_profile) 0 1 2 4096 4096 committed = (Ok (), copied).
Proof. apply run_ends. vm_compute. reflexivity. Qed.
Lemma copied_committed : fst (commit (P:=debug_profile) zero 2 0 true copied) = Ok 20480.
Proof. vm_compute. reflexivity. Qed.
Lemma committed_new : objs committed !! 1%nat = None ∧ objs committed !! 2%nat = None.
Proof. split; vm_compute; reflexivity. Qed.
Lemma copied_object : ∃ o, objs copied !! 2%nat = Some o ∧ branch (plist o) = false ∧ 0 ≤ 0 < count (plist o).
Proof. eexists. split; [vm_compute; reflexivity|]. by cbn. Qed.
Lemma original_leaf : leaf (objs copied) 0.
Proof. eexists. split; [vm_compute; reflexivity|done]. Qed.


Lemma create_sub_content_witness :
  ∃ s', create_sub (P:=debug_profile) 0 1 2 4096 4096 one = (Ok (), s') ∧ content s' 2 0 = content one 0 1.
Proof.
  destruct (create_sub_content (P:=debug_profile) zero one 0%nat 1%nat 2%nat _ 4096 4096 one_ok
    (lookup_singleton_eq _ _) eq_refl eq_refl ltac:(cbn; lia) eq_refl eq_refl ltac:(lia) ltac:(lia) ltac:(lia) ltac:(lia))
    as (s' & Hrun & _ & _ & _ & Hc & _).
  exists s'. split; [exact Hrun|]. apply (Hc 0). vm_compute. intuition congruence.
Defined.

(** Copies that share a page: the second object is copied from the first after a
    byte was written; then each writes its own byte. *)
Abbreviation ext_m := (st (ext_state (list Z)) perror).
Definition poke (b off v : Z) : ext_m () :=
  modify (λ s, ExtState (objs s) (<[b + ID_OFFSET + off := v]> (emem s)) (source s) (notified s)).
Definition peek (b off : Z) : ext_m Z := s ← get; mret (byte (emem s) (b + ID_OFFSET + off)).
Definition write_byte (id : nat) (i off v : Z) : ext_m () :=
  b ← commit (P:=debug_profile) zero id i true; poke b off v.
Definition read_byte (id : nat) (i off : Z) : ext_m Z :=
  b ← commit (P:=debug_profile) zero id i false; peek b off.

Example copies_are_independent :
  fst ((_ ← write_byte 0 1 3 7; _ ← create_sub (P:=debug_profile) 0 1 2 4096 4096;
        _ ← write_byte 0 1 3 8; _ ← write_byte 2 0 4 9;
        a ← read_byte 0 1 3; b ← read_byte 2 0 3; c ← read_byte 0 1 4; d ← read_byte 2 0 4;
        mret [a; b; c; d]) one) = Ok [8; 7; 0; 9].
Proof. vm_compute. reflexivity. Qed.

(** A copy of a copy is not independent: a branch that has to ask its own parent
    keeps the page it gets, but lets the writing child use it in place. *)
Example nested_copies_share :
  fst ((_ ← write_byte 0 0 3 7; _ ← create_sub (P:=debug_profile) 0 1 2 0 8192;
        _ ← create_sub (P:=debug_profile) 0 3 4 0 8192;
        _ ← write_byte 0 0 3 8; a ← read_byte 4 0 3; b ← read_byte 2 0 3; mret [a; b]) one) = Ok [8; 7].
Proof. vm_compute. reflexivity. Qed.

(** Shrinking does not give pages back: the old content is there again when the
    object grows. *)
Example shrink_keeps_pages :
  fst ((_ ← write_byte 0 1 3 7; _ ← ext_resize (P:=debug_profile) 0 4096; _ ← ext_resize (P:=debug_profile) 0 8192;
        a ← read_byte 0 1 3; s ← get; mret (a, length (source s))) one) = Ok (7, 4%nat).
Proof. vm_compute. reflexivity. Qed.

(** A read that does not begin at a page reads past its first page: the last byte
    of the buffer is the first one of the frame that happens to follow, and not
    that of the next page. *)
Definition copy_all (dst src n : Z) (m : memory) : CheckedCopyRet * memory := (Ret 0 0, memcpy dst src n m).
Example read_past_page :
  let buffer := 0x200000 in
  fst ((_ ← write_byte 0 0 0 7; _ ← write_byte 0 1 0 8; _ ← poke (2 * 4096) 4096 99;
        n ← ext_copy (P:=debug_profile) zero copy_all true true 0 1 4096 buffer;
        s ← get; mret (n, byte (emem s) (buffer + 4095))) one) = Ok (4096, 99).
Proof. vm_compute. reflexivity. Qed.
End Witness.
