(* ===== verification/PhysSpec.v ===== *)
(** * Contiguous objects ([kernel/src/mem/space/phys/contiguous.rs]) stay in their block

    The objects with one block of memory, their windows, and the operations over both kinds
    of physical objects. Windows made by [create_sub] lie in the window they are made from, and what is
    pinned, read or written through a window lies in it, whatever offsets and
    lengths a user task passes. *)

From S2P Require Import Base Bits Mem Buddy Paging SysCall UserPtr Ext.
Local Open Scope Z_scope.
Local Open Scope h2o_scope.

(** ** Physical objects ([kernel/src/mem/space/phys.rs] and [phys/contiguous.rs])

    A contiguous object is a window into a block of physical memory that several
    objects share; blocks are known by their identity. A physical object is a
    contiguous or an extensible one ([Ext]), and the trait [PhysTrait] dispatches
    on it. *)

(** Blocks of pages of the global allocator: [size] is a multiple of a page. *)
Class BlockSource (A : Type) := {
  bl_allocate : Z → A → option Z * A;
  bl_deallocate : Z → Z → A → A;
  bl_allocate_some size a p a' : bl_allocate size a = (Some p, a') → ID_OFFSET ≤ p ∧ p + size ≤ 2 ^ 64;
}.

Record PhysInner := MkInner { from_allocator : bool; ibase : Z; isize : Z }.
Record Cont := MkCont { coffset : Z; clen : Z; inner : nat }.

Inductive Phys := PCont (c : Cont) | PExt (id : nat).

Record phys_state (A : Type) := PhysState { ext : ext_state A; inners : gmap nat PhysInner }.
Arguments PhysState {A} _ _.
Arguments ext {A} _.
Arguments inners {A} _.

(** [impl From<Arsc<PhysInner>> for Phys]. *)
Definition cont_from (i : nat) (x : PhysInner) : Cont := MkCont 0 (isize x) i.

Section phys.
Context `{P : Profile} {A : Type} `{PS : PageSource A} `{BS : BlockSource A}.
Context (zero_base : Z).
Context (checked_copy : Z → Z → Z → memory → CheckedCopyRet * memory) (current : bool).

Abbreviation phys_m := (st (phys_state A) errno).

Definition on_ext {B} (m : st (ext_state A) errno B) : phys_m B := λ s,
  let '(r, e) := m (ext s) in (r, PhysState e (inners s)).
Definition on_mem (m : st memory errno ()) : phys_m () := λ s,
  let '(r, m) := m (emem (ext s)) in
  (r, PhysState (ExtState (objs (ext s)) m (source (ext s)) (notified (ext s))) (inners s)).
Definition set_source (a : A) : phys_m () :=
  modify (λ s, PhysState (ExtState (objs (ext s)) (emem (ext s)) a (notified (ext s))) (inners s)).
Definition get_inner (i : nat) : phys_m PhysInner := s ← get; lift (unwrap (inners s !! i)).
Definition set_inner (i : nat) (x : PhysInner) : phys_m () :=
  modify (λ s, PhysState (ext s) (<[i := x]> (inners s))).

(** ** Contiguous objects *)

(** [Phys::new]; [i] is the identity of the new block. *)
Definition cont_new (i : nat) (base size : Z) : phys_m Cont :=
  let x := MkInner false base size in
  _ ← set_inner i x;
  mret (cont_from i x).

(** [Phys::allocate]. *)
Definition cont_allocate (i : nat) (size : Z) (zeroed : bool) : phys_m Cont :=
  if size =? 0 then lift (Err ENOMEM)
  else
    size ← lift (round_up_bit W size PAGE_SHIFT);
    s ← get;
    let '(o, a) := bl_allocate size (source (ext s)) in
    _ ← set_source a;
    ptr ← lift (of_option ENOMEM o);
    _ ← (if zeroed then on_mem (modify (memset ptr 0 size)) else mret ());
    base ← lift (to_paddr ptr ID_OFFSET);
    let x := MkInner true base size in
    _ ← set_inner i x;
    mret (cont_from i x).

(** [Drop for PhysInner], when the last window is gone. *)
Definition inner_drop (i : nat) : phys_m () :=
  x ← get_inner i;
  _ ← (if from_allocator x then
         ptr ← lift (to_laddr (ibase x) ID_OFFSET);
         s ← get;
         set_source (bl_deallocate ptr (isize x) (source (ext s)))
       else mret ());
  modify (λ s, PhysState (ext s) (delete i (inners s))).

Definition cont_raw (c : Cont) : phys_m Z :=
  x ← get_inner (inner c);
  p ← lift (to_laddr (ibase x) ID_OFFSET);
  mret (wrap W (p + coffset c)).

(** [self.len.saturating_sub(offset).min(len)]. *)
Definition clip (c : Cont) (offset len : Z) : Z := Z.min (Z.max 0 (clen c - offset)) len.

Definition cont_pin (c : Cont) (offset len : Z) : phys_m (list (Z * Z)) :=
  x ← get_inner (inner c);
  b ← lift (ibase x +! coffset c);
  b ← lift (b +! offset);
  let len := clip c offset len in
  mret (if len >? 0 then [(b, len)] else []).

Definition cont_create_sub (c : Cont) (i : nat) (offset len : Z) (copy : bool) : phys_m Cont :=
  if contains_bit offset PAGE_SHIFT || contains_bit len PAGE_SHIFT then lift (Err EALIGN)
  else
    let new_offset := wrap W (coffset c + offset) in
    let end_ := wrap W (new_offset + len) in
    e ← (if (coffset c <=? new_offset) && (new_offset <? end_) then
           e ← lift (coffset c +! clen c); mret (end_ <=? e)
         else mret false);
    if e : bool then
      if copy then
        child ← cont_allocate i len true;
        dst ← cont_raw child;
        src ← cont_raw c;
        _ ← on_mem (modify (memcpy dst (wrap W (src + offset)) len));
        mret child
      else mret (MkCont new_offset len (inner c))
    else lift (Err ERANGE).

Definition cont_base (c : Cont) : phys_m Z :=
  x ← get_inner (inner c);
  lift (ibase x +! coffset c).

(** A buffer of bytes of the user at [buffer]. *)
Definition user_copy (to_user : bool) (buffer ptr len : Z) : phys_m () :=
  on_mem (if to_user then write_slice checked_copy current (UserPtr buffer 1 1) ptr len
          else read_slice checked_copy current (UserPtr buffer 1 1) ptr len).

(** [Phys::read] ([to_user]) and [Phys::write]. *)
Definition cont_copy (to_user : bool) (c : Cont) (offset len buffer : Z) : phys_m Z :=
  let offset := Z.min (clen c) offset in
  let len := clip c offset len in
  raw ← cont_raw c;
  _ ← user_copy to_user buffer (wrap W (raw + offset)) len;
  mret len.

(** [Phys::read_vectored] and [Phys::write_vectored]. *)
Fixpoint cont_vectored (to_user : bool) (c : Cont) (offset done : Z) (bufs : list (Z * Z)) : phys_m Z :=
  match bufs with
  | [] => mret done
  | (buffer, blen) :: bufs =>
      let actual_offset := Z.min (clen c) offset in
      let len := clip c actual_offset blen in
      raw ← cont_raw c;
      _ ← user_copy to_user buffer (wrap W (raw + offset)) len;
      done ← lift (done +! len);
      offset ← lift (offset +! len);
      if len <? blen then mret done else cont_vectored to_user c offset done bufs
  end.

(** ** [PhysTrait] *)

Definition ph_len (p : Phys) : phys_m Z :=
  match p with
  | PCont c => mret (clen c)
  | PExt id => on_ext (as_errno (get_len id))
  end.

Definition ph_pin (p : Phys) (offset len : Z) (write : bool) : phys_m (list (Z * Z)) :=
  match p with
  | PCont c => cont_pin c offset len
  | PExt id => on_ext (ext_pin zero_base id offset len write)
  end.

Definition ph_unpin (p : Phys) (offset len : Z) : phys_m () :=
  match p with
  | PCont _ => mret ()
  | PExt id => on_ext (ext_unpin id offset len)
  end.

(** [i] and [j] are new identities. *)
Definition ph_create_sub (p : Phys) (i j : nat) (offset len : Z) (copy : bool) : phys_m Phys :=
  match p with
  | PCont c => c ← cont_create_sub c i offset len copy; mret (PCont c)
  | PExt id => _ ← on_ext (ext_create_sub id i j offset len copy); mret (PExt j)
  end.

Definition ph_base (p : Phys) : phys_m Z :=
  match p with
  | PCont c => cont_base c
  | PExt _ => lift Panic
  end.

Definition ph_resize (p : Phys) (new_len : Z) : phys_m () :=
  match p with
  | PCont _ => lift (Err EPERM)
  | PExt id => on_ext (ext_resize_rw id new_len)
  end.

Definition ph_copy (to_user : bool) (p : Phys) (offset len buffer : Z) : phys_m Z :=
  match p with
  | PCont c => cont_copy to_user c offset len buffer
  | PExt id =>
      on_ext (if to_user then ext_read zero_base checked_copy current id offset len buffer
              else ext_write zero_base checked_copy current id offset len buffer)
  end.

(** The default [read_vectored] and [write_vectored] of the trait. *)
Fixpoint ext_vectored (to_user : bool) (p : Phys) (offset done : Z) (bufs : list (Z * Z)) : phys_m Z :=
  match bufs with
  | [] => mret done
  | (buffer, len) :: bufs =>
      actual ← ph_copy to_user p offset len buffer;
      done ← lift (done +! actual);
      offset ← lift (offset +! actual);
      if actual <? len then mret done else ext_vectored to_user p offset done bufs
  end.

Definition ph_vectored (to_user : bool) (p : Phys) (offset : Z) (bufs : list (Z * Z)) : phys_m Z :=
  match p with
  | PCont c => cont_vectored to_user c offset 0 bufs
  | PExt _ => ext_vectored to_user p offset 0 bufs
  end.

(** [PartialEq]: the same window of the same block, or the same event. *)
Definition ph_eqb (p q : Phys) : bool :=
  match p, q with
  | PCont c, PCont d => (coffset c =? coffset d) && (clen c =? clen d) && bool_decide (inner c = inner d)
  | PExt i, PExt j => bool_decide (i = j)
  | _, _ => false
  end.

(** [new_phys] and [allocate_phys]. *)
Definition new_phys (i : nat) (base size : Z) : phys_m Phys := c ← cont_new i base size; mret (PCont c).

Definition allocate_phys (i : nat) (size : Z) (resizable zeroed contiguous : bool) : phys_m Phys :=
  if contiguous then
    if resizable then lift (Err EPERM)
    else c ← cont_allocate i size zeroed; mret (PCont c)
  else _ ← on_ext (as_errno (ext_new i size)); mret (PExt i).
End phys.

Section spec.
Context `{P : Profile} {A : Type} `{PS : PageSource A} `{BS : BlockSource A}.
Context (checked_copy : Z → Z → Z → memory → CheckedCopyRet * memory) (current : bool).
Implicit Types (s : phys_state A) (c d : Cont).

(** A window of a block that is mapped in the kernel's half. *)
Record window (s : phys_state A) (c : Cont) (x : PhysInner) : Prop := {
  wi_inner : inners s !! inner c = Some x;
  wi_offset : 0 ≤ coffset c;
  wi_len : 0 ≤ clen c;
  wi_size : coffset c + clen c ≤ isize x;
  wi_base : 0 ≤ ibase x;
  wi_top : ibase x + isize x + ID_OFFSET < 2 ^ 64;
}.

(** The [n] bytes at the physical address [a] are in the window. *)
Definition in_window (c : Cont) (x : PhysInner) (a n : Z) : Prop :=
  ibase x + coffset c ≤ a ∧ a + n ≤ ibase x + coffset c + clen c.

(** What an access did to memory: nothing, or one copy between the user's buffer
    and [n] bytes of the window, which is at [k] in the kernel's half. *)
Definition accessed (to_user : bool) (c : Cont) (x : PhysInner) (m m' : memory) : Prop :=
  m' = m ∨ ∃ buffer k n, 0 ≤ n ∧ (n = 0 ∨ in_window c x (k - ID_OFFSET) n) ∧
    m' = snd (if to_user then checked_copy buffer k n m else checked_copy k buffer n m).

Lemma get_inner_run s c x : window s c x → get_inner (inner c) s = (Ok x, s).
Proof. intros Hw. unfold get_inner. by rewrite st_get_bind, (wi_inner _ _ _ Hw). Qed.

Lemma clip_bounds c offset len : 0 ≤ clen c → 0 ≤ len →
  0 ≤ clip c offset len ≤ len ∧ (0 < clip c offset len → offset + clip c offset len ≤ clen c).
Proof. unfold clip. lia. Qed.

Lemma cont_raw_run s c x : window s c x → cont_raw c s = (Ok (ibase x + ID_OFFSET + coffset c), s).
Proof.
  intros Hw. unfold cont_raw. rewrite (st_bind_ok _ _ _ _ _ (get_inner_run s c x Hw)). destruct Hw.
  unfold to_laddr. rewrite (st_lift_ok _ _ _ _ (uadd_ok W (ibase x) ID_OFFSET ltac:(unfold ID_OFFSET in *; lia))).
  unfold mret, st_ret. rewrite wrap_small; [done|]. unfold ID_OFFSET in *. lia.
Qed.

(** Reading or writing a slice of bytes is at most one copy. *)
Lemma slice_effect (to_user : bool) buffer k n m : 0 ≤ n < 2 ^ 64 →
  let r := if to_user then write_slice checked_copy current (UserPtr buffer 1 1) k n m
           else read_slice checked_copy current (UserPtr buffer 1 1) k n m in
  snd r = m ∨ snd r = snd (if to_user then checked_copy buffer k n m else checked_copy k buffer n m).
Proof.
  intros Hn. unfold write_slice, read_slice. unfold mbind, st_bind, lift, copy.
  destruct (check_slice (UserPtr buffer 1 1) n) as [[]|e|], (pf_resume current) as [[]|e'|]; cbn [size_of data];
    rewrite ?(umul_ok W n 1) by lia; cbn; rewrite ?Z.mul_1_r; destruct to_user;
    try (destruct (checked_copy _ _ _ _)); cbn; auto.
Qed.

Lemma user_copy_accessed (to_user : bool) s c x buffer k n :
  0 ≤ n < 2 ^ 64 → n = 0 ∨ in_window c x (k - ID_OFFSET) n →
  let s' := snd (user_copy checked_copy current to_user buffer k n s) in
  inners s' = inners s ∧ accessed to_user c x (emem (ext s)) (emem (ext s')).
Proof.
  intros Hn Hin s'. unfold s', user_copy, on_mem. pose proof (slice_effect to_user buffer k n (emem (ext s)) Hn) as He.
  assert (∀ b : bool, (if b then write_slice checked_copy current (UserPtr buffer 1 1) k n
    else read_slice checked_copy current (UserPtr buffer 1 1) k n) (emem (ext s)) =
    if b then write_slice checked_copy current (UserPtr buffer 1 1) k n (emem (ext s))
    else read_slice checked_copy current (UserPtr buffer 1 1) k n (emem (ext s))) as -> by (by intros []).
  destruct (if to_user then _ else _) as [r m']. cbn in *. split; [done|]. destruct He as [-> | ->]; [by left|right].
  exists buffer, k, n. split; [lia|]. by split.
Qed.

Lemma window_same s s' c x : inners s' = inners s → window s c x → window s' c x.
Proof. intros E []. split; by rewrite ?E. Qed.

Lemma cont_vectored_accessed to_user bufs : ∀ s c x offset acc, window s c x → 0 ≤ offset < 2 ^ 64 →
  Forall (λ b, 0 ≤ snd b < 2 ^ 64) bufs →
  rtc (accessed to_user c x) (emem (ext s)) (emem (ext (snd (cont_vectored checked_copy current to_user c offset acc bufs s)))).
Proof.
  induction bufs as [|[buffer blen] bufs IH]; intros s c x offset acc Hw Ho Hb; [done|].
  apply Forall_cons in Hb as [Hb Hbs]. cbn in Hb. cbn [cont_vectored].
  pose proof (clip_bounds c (Z.min (clen c) offset) blen (wi_len _ _ _ Hw) ltac:(lia)) as [Hc1 Hc2].
  set (len := clip c (Z.min (clen c) offset) blen) in *. rewrite (st_bind_ok _ _ _ _ _ (cont_raw_run s c x Hw)).
  destruct (user_copy_accessed to_user s c x buffer (wrap W (ibase x + ID_OFFSET + coffset c + offset)) len) as [Hi Ha]; [lia| |].
  { destruct (decide (len = 0)) as [|Hl]; [by left|right]. destruct Hw. rewrite wrap_small by (unfold ID_OFFSET in *; lia).
    unfold in_window. lia. }
  unfold mbind at 1, st_bind at 1. destruct (user_copy _ _ _ _ _ _ s) as [[[]|e|] s1]; cbn in Hi, Ha; [|by apply rtc_once..].
  eapply rtc_l; [exact Ha|]. unfold mbind, st_bind, lift.
  destruct (uadd W acc len) as [acc'|e|]; [|done..]. destruct (uadd (E:=errno) W offset len) as [offset'|e|] eqn:E; [|done..].
  destruct (len <? blen); [done|]. apply IH; [by eapply window_same| |done].
  unfold uadd, checked in E. destruct (fits W (offset + len)) eqn:Hf; [injection E as <-; by apply fits_iff|].
  destruct overflow_checks; [done|]. injection E as <-. by apply wrap_bound.
Qed.

Lemma cont_sub_ok s c x i offset len : window s c x → 0 ≤ offset < 2 ^ 64 → 0 ≤ len < 2 ^ 64 →
  match cont_create_sub c i offset len false s with
  | (Ok d, s') => s' = s ∧ inner d = inner c ∧ window s d x ∧ clen d = len ∧ coffset d = coffset c + offset ∧
      ∀ a n, in_window d x a n → in_window c x a n
  | (Err e, s') => s' = s ∧ (e = EALIGN ∨ e = ERANGE)
  | (Panic, _) => False
  end.
Proof.
  intros Hw Ho Hl. pose proof Hw as [? ? ? ? ? ?]. unfold cont_create_sub.
  destruct (contains_bit offset PAGE_SHIFT || contains_bit len PAGE_SHIFT); [split; [done|by left]|].
  set (off := wrap W (coffset c + offset)). set (e := wrap W (off + len)).
  destruct (Z.leb_spec (coffset c) off) as [H1|]; cbn [andb]; [|split; [done|by right]].
  destruct (Z.ltb_spec off e) as [H2|]; [|split; [done|by right]].
  unfold mbind at 1, st_bind at 1. rewrite (st_lift_ok _ _ _ _ (uadd_ok W (coffset c) (clen c) ltac:(unfold ID_OFFSET in *; lia))).
  cbn. destruct (Z.leb_spec e (coffset c + clen c)) as [H3|]; [|split; [done|by right]].
  assert (off = coffset c + offset) as Hoff.
  { unfold off, wrap in *. destruct (Z.lt_ge_cases (coffset c + offset) (2 ^ 64)) as [|Hge]; [apply Z.mod_small; lia|].
    pose proof (Z.mod_unique (coffset c + offset) (2 ^ 64) 1 (coffset c + offset - 2 ^ 64) ltac:(unfold ID_OFFSET in *; lia) ltac:(lia)). lia. }
  assert (e = off + len) as He.
  { unfold e, wrap in *. destruct (Z.lt_ge_cases (off + len) (2 ^ 64)) as [|Hge]; [apply Z.mod_small; lia|].
    pose proof (Z.mod_unique (off + len) (2 ^ 64) 1 (off + len - 2 ^ 64) ltac:(unfold ID_OFFSET in *; lia) ltac:(lia)). lia. }
  split; [done|]. split; [done|]. split; [split; cbn; try done; lia|]. cbn.
  split; [done|]. split; [done|]. intros a n. unfold in_window. cbn. lia.
Qed.

(** What is pinned, read or written through a contiguous object lies in its
    window of physical memory, and a window made from it by [create_sub] lies in
    it, for all offsets and lengths of 64 bits, in both build profiles. *)
Theorem cont_in_bounds s c x : window s c x →
  (∀ offset len, 0 ≤ offset → 0 ≤ len → ibase x + coffset c + offset < 2 ^ 64 →
    ∃ segs, cont_pin c offset len s = (Ok segs, s) ∧
      Forall (λ seg, 0 < snd seg ≤ len ∧ in_window c x (fst seg) (snd seg)) segs) ∧
  (∀ i offset len, 0 ≤ offset < 2 ^ 64 → 0 ≤ len < 2 ^ 64 →
    match cont_create_sub c i offset len false s with
    | (Ok d, s') => s' = s ∧ window s d x ∧ ∀ a n, in_window d x a n → in_window c x a n
    | (Err e, s') => s' = s
    | (Panic, _) => False
    end) ∧
  (∀ to_user offset len buffer, 0 ≤ offset → 0 ≤ len < 2 ^ 64 →
    accessed to_user c x (emem (ext s))
      (emem (ext (snd (cont_copy checked_copy current to_user c offset len buffer s))))) ∧
  (∀ to_user offset bufs, 0 ≤ offset < 2 ^ 64 → Forall (λ b, 0 ≤ snd b < 2 ^ 64) bufs →
    rtc (accessed to_user c x) (emem (ext s))
      (emem (ext (snd (cont_vectored checked_copy current to_user c offset 0 bufs s))))).
Proof.
  intros Hw. split; [|split; [|split]].
  - intros offset len Ho Hl Hlt. unfold cont_pin. rewrite (st_bind_ok _ _ _ _ _ (get_inner_run s c x Hw)).
    pose proof (clip_bounds c offset len (wi_len _ _ _ Hw) Hl) as [Hc1 Hc2]. destruct Hw.
    rewrite (st_lift_ok _ _ _ _ (uadd_ok W (ibase x) (coffset c) ltac:(lia))).
    rewrite (st_lift_ok _ _ _ _ (uadd_ok W (ibase x + coffset c) offset ltac:(lia))).
    eexists. split; [done|]. destruct (Z.gtb_spec (clip c offset len) 0); [|done]. apply Forall_singleton.
    cbn. unfold in_window. lia.
  - intros i offset len Ho Hl. pose proof (cont_sub_ok s c x i offset len Hw Ho Hl) as H.
    destruct (cont_create_sub c i offset len false s) as [[d|e|] s']; naive_solver.
  - intros to_user offset len buffer Ho Hl. unfold cont_copy. rewrite (st_bind_ok _ _ _ _ _ (cont_raw_run s c x Hw)).
    pose proof (clip_bounds c (Z.min (clen c) offset) len (wi_len _ _ _ Hw) ltac:(lia)) as [Hc1 Hc2].
    set (n := clip c (Z.min (clen c) offset) len) in *.
    set (k := wrap W (ibase x + ID_OFFSET + coffset c + Z.min (clen c) offset)).
    destruct (user_copy_accessed to_user s c x buffer k n) as [_ Ha]; [lia| |].
    { destruct (decide (n = 0)) as [|Hn]; [by left|right]. destruct Hw. unfold k.
      rewrite wrap_small by (unfold ID_OFFSET in *; lia). unfold in_window. lia. }
    unfold mbind, st_bind. destruct (user_copy _ _ _ _ _ _ s) as [[[]|e|] s1]; exact Ha.
  - intros to_user offset bufs Ho Hb. by apply cont_vectored_accessed.
Qed.
End spec.

(** ** Witnesses *)

Module Witness.
#[local] Program Instance BlockSource_none : BlockSource (list Z) := {
  bl_allocate size l := (None, l);
  bl_deallocate p size l := l;
}.
Next Obligation. done. Qed.

Definition block : PhysInner := MkInner false 0x10000 0x4000.
Definition win : Cont := MkCont 0x1000 0x2000 5.
Definition st0 : phys_state (list Z) := PhysState (ExtState ∅ ∅ [] []) {[ 5%nat := block ]}.

Lemma cont_in_bounds_witness :
  ∃ segs, cont_pin (P:=debug_profile) win 0x1800 0x4000 st0 = (Ok segs, st0) ∧
    Forall (λ seg, 0 < snd seg ≤ 0x4000 ∧ in_window win block (fst seg) (snd seg)) segs.
Proof.
  assert (window st0 win block) as Hw by (split; vm_compute; congruence).
  exact (proj1 (cont_in_bounds (P:=debug_profile) (λ _ _ _ m, (Ret 0 0, m)) true st0 win block Hw) 0x1800 0x4000
    ltac:(lia) ltac:(lia) ltac:(vm_compute; reflexivity)).
Defined.

(** The check of [create_sub] tests two bits of the number twelve, not the twelve
    low bits: a window may begin inside a page. *)
Example misaligned_sub :
  fst (cont_create_sub (P:=debug_profile) win 6 0x801 0x403 false st0) = Ok (MkCont 0x1801 0x403 5) ∧
  fst (cont_create_sub (P:=debug_profile) win 6 0x804 0x400 false st0) = Err EALIGN.
Proof. vm_compute. split; reflexivity. Qed.
End Witness.
