(* ===== verification/Virt.v ===== *)
(** * Address spaces ([kernel/src/mem/space/virt.rs], [mem/space.rs] and
    [mem/space/x86_64/mod.rs])

    A [Virt] is a range of addresses and its children: nested ranges and mapped
    physical objects, by their first address. All the ranges of one space share
    its page tables. Ranges are known by their identity; the range of a child is
    fixed when it is made, so it is kept with the child. Random numbers are
    arguments. Addresses of the tables and the bytes of objects are in separate
    memories. *)

From S2P Require Import Base Bits RangeMap Mem Buddy Paging SysCall UserPtr Ext PhysSpec Slices.
Local Open Scope Z_scope.
Local Open Scope h2o_scope.

(** ** Children *)

Inductive Child :=
  | CVirt (v : nat) (range : Z * Z)
  | CPhys (phys : Phys) (flags offset len : Z).

Abbreviation ChildMap := (btree Child).

Section layout.
Context `{P : Profile}.

Definition range_len {E} (r : Z * Z) : res E Z := snd r -! fst r.

Definition child_len {E} (c : Child) : res E Z :=
  match c with
  | CVirt _ r => range_len r
  | CPhys _ _ _ len => Ok len
  end.

Definition child_end {E} (base : Z) (c : Child) : res E Z := n ← child_len c; base +! n.

(** ** Finding room *)

Definition check_layout (l : Layout) : res errno Layout :=
  if size l =? 0 then Err ERANGE
  else if align l <? PAGE_SIZE then Err EALIGN
  else Ok (MkLayout (pad_to_align l) (align l)).

(** [gaps]: [func] is called on the gaps between the children, in order, until it
    returns a value; its own variables are the state. *)
Fixpoint gaps_loop {S E R} (func : Z * Z → st S E (option R)) (es : ChildMap) (start stop : Z) : st S E (option R) :=
  match es with
  | [] => if start <? stop then func (start, stop) else mret None
  | (base, child) :: es =>
      r ← (if start <? base then func (start, base) else mret None);
      match r with
      | Some r => mret (Some r)
      | None =>
          e ← lift (child_end base child);
          gaps_loop func es e stop
      end
  end.

(** The closure of [try_find_alloc]; its state is [cnt] and [rand_n]. *)
Definition try_gap {E} (sz bit : Z) (gap : Z * Z) : st (Z * Z) E (option Z) :=
  base ← lift (round_up_bit W (fst gap) bit);
  end_ ← lift (round_down_bit W (snd gap) bit);
  room ← lift (end_ -! base);
  if sz <=? room then
    d ← lift (room -! sz);
    q ← lift (ushr W d bit);
    n ← lift (q +! 1);
    '(cnt, rand_n) ← get;
    cnt ← lift (cnt +! n);
    if rand_n <? n then
      _ ← put (cnt, rand_n);
      off ← lift (rand_n <<! bit);
      a ← lift (base +! off);
      mret (Some a)
    else
      rand_n ← lift (rand_n -! n);
      _ ← put (cnt, rand_n);
      mret None
  else mret None.

Definition try_find_alloc {E} (map : ChildMap) (range : Z * Z) (l : Layout) (rand_n : Z) : res E (option Z * Z) :=
  bit ← msb W (align l);
  match gaps_loop (try_gap (size l) bit) map (fst range) (snd range) (0, rand_n) with
  | (Ok ret, (cnt, _)) => Ok (ret, cnt)
  | (Err e, _) => Err e
  | (Panic, _) => Panic
  end.

(** [debug_assertions] selects the number of bits; [r1] and [r2] are random. *)
Definition ASLR_BIT (debug_assertions : bool) : Z := if debug_assertions then 1 else 35.

Definition find_alloc {E} (debug_assertions : bool) (r1 r2 : Z) (map : ChildMap) (range : Z * Z) (l : Layout)
    : res E (option Z) :=
  let mask := 2 ^ ASLR_BIT debug_assertions - 1 in
  '(ret, cnt) ← try_find_alloc map range l (Z.land r1 mask);
  match ret with
  | Some a => Ok (Some a)
  | None =>
      if cnt =? 0 then Panic
      else
        '(ret, _) ← try_find_alloc map range l (r2 mod cnt);
        Ok ret
  end.

(** [map.range(..end).next()] is the first child. *)
Definition check_alloc {E} (map : ChildMap) (request : Z * Z) : res E bool :=
  match bt_first (filter (λ b, fst b < snd request) map) with
  | Some (base, prev) =>
      e ← child_end base prev;
      Ok (negb (fst request <? e))
  | None => Ok true
  end.

Definition checked_add (a b : Z) : option Z := if a + b <? 2 ^ 64 then Some (a + b) else None.

Definition find_range (debug_assertions : bool) (r1 r2 : Z) (map : ChildMap) (range : Z * Z) (offset : option Z)
    (l : Layout) : res errno (Z * Z) :=
  base ← match offset with
         | Some offset =>
             base ← of_option ERANGE (checked_add (fst range) offset);
             end_ ← of_option ERANGE (checked_add base (size l));
             if contains_bit base PAGE_SHIFT then Err EALIGN
             else if negb ((fst range <=? base) && (end_ <=? snd range)) then Err ERANGE
             else
               ok ← check_alloc map (base, end_);
               if negb ok then Err EEXIST else Ok base
         | None =>
             a ← find_alloc debug_assertions r1 r2 map range l;
             of_option ENOMEM a
         end;
  end_ ← base +! size l;
  Ok (base, end_).

Definition check_vdso {E} (vdso_size : Z) (vdso : option Z) (base end_ : Z) : res E bool :=
  match vdso with
  | None => Ok true
  | Some vdso_base =>
      if end_ <=? vdso_base then Ok true
      else e ← vdso_base +! vdso_size; Ok (e <=? base)
  end.
End layout.

(** ** The space *)

Definition paging_error (e : Error) : errno :=
  match e with
  | OutOfMemory => ENOMEM
  | AddrMisaligned _ _ _ => EALIGN
  | RangeEmpty => EBUFFER
  | EntryExistent b => if b then EEXIST else ENOENT
  end.

(** [Space::flags_to_pg_attr] and [Space::pg_attr_to_flags]. *)
Definition flags_to_pg_attr (flags : Z) : Z :=
  let uncached := Flags.contains flags Flags.UNCACHED in
  Attr.cache (Attr.executable (Attr.user_access (Attr.writable Attr.builder
    (Flags.contains flags Flags.WRITABLE)) (Flags.contains flags Flags.USER_ACCESS))
    (Flags.contains flags Flags.EXECUTABLE)) uncached uncached.

Definition pg_attr_to_flags (attr : Z) : Z :=
  let flags := Flags.READABLE in
  let flags := if Attr.contains attr Attr.WRITABLE then Z.lor flags Flags.WRITABLE else flags in
  let flags := if Attr.contains attr Attr.USER_ACCESS then Z.lor flags Flags.USER_ACCESS else flags in
  let flags := if negb (Attr.contains attr Attr.EXE_DISABLE) then Z.lor flags Flags.EXECUTABLE else flags in
  if Attr.contains attr Attr.CACHE_DISABLE then Z.lor flags Flags.UNCACHED else flags.

(** [task::Type], and the addresses each type may use. *)
Inductive task_Type := Kernel | User.

Definition KERNEL_ALLOCABLE_RANGE : Z * Z := (0xFFFFA00000000000, 0xFFFFA08000000000).

Definition ty_to_range (ty : task_Type) : Z * Z :=
  match ty with Kernel => KERNEL_ALLOCABLE_RANGE | User => (USER_BASE, USER_END) end.

Definition page_aligned (sz : Z) : Layout := MkLayout sz PAGE_SIZE.

(** [arch::Space::new]: a zeroed root table with the upper half of the kernel's;
    [Box] panics when there is no memory. The result is the table's address. *)
Definition copy_kernel_half (src dst : Z) (m : gmap Z Z) : gmap Z Z :=
  foldr (λ i, <[entry_addr dst i := word m (entry_addr src i)]>) m (seqZ (NR_ENTRIES / 2) (NR_ENTRIES / 2)).

Definition arch_new {T E} `{PA : PageAlloc T} (kernel_root : Z) : st (machine T) E Z := λ m,
  match pa_allocate (pages m) with
  | (None, a) => (Panic, Machine (mem m) a)
  | (Some pa, a) =>
      let t := wrap W (pa + ID_OFFSET) in
      (Ok t, Machine (copy_kernel_half kernel_root t (zero_page t (mem m))) a)
  end.

Record Virt := MkVirt { range : Z * Z; vparent : option nat; children : ChildMap }.

Record vm (T A : Type) := Vm {
  tables : machine T;
  phys_of : phys_state A;
  virts : gmap nat Virt;
  vdso : option Z;
  alive : bool;
}.
Arguments Vm {T A} _ _ _ _ _.
Arguments tables {T A} _.
Arguments phys_of {T A} _.
Arguments virts {T A} _.
Arguments vdso {T A} _.
Arguments alive {T A} _.

Section virt.
Context `{P : Profile} {T A : Type} `{PA : PageAlloc T} `{PS : PageSource A} `{BS : BlockSource A}.
(** The zero page; the root table and the root range of the space; [VDSO]; the
    build; and two random numbers. *)
Context (zero_base root_table : Z) (root : nat) (vdso_flags : Z) (vdso_phys : Phys).
Context (debug_assertions : bool) (r1 r2 : Z).

Abbreviation vm_m := (st (vm T A) errno).

Definition on_tables {B} (m : st (machine T) Error B) : vm_m B := λ s,
  let '(r, t) := m (tables s) in (map_err paging_error r, Vm t (phys_of s) (virts s) (vdso s) (alive s)).
Definition on_phys {B} (m : st (phys_state A) errno B) : vm_m B := λ s,
  let '(r, p) := m (phys_of s) in (r, Vm (tables s) p (virts s) (vdso s) (alive s)).
Definition get_virt (v : nat) : vm_m Virt := s ← get; lift (unwrap (virts s !! v)).
Definition set_children (v : nat) (c : ChildMap) : vm_m () :=
  modify (λ s, Vm (tables s) (phys_of s) (alter (λ x, MkVirt (range x) (vparent x) c) v (virts s)) (vdso s) (alive s)).
Definition set_vdso_base (b : Z) : vm_m () :=
  modify (λ s, Vm (tables s) (phys_of s) (virts s) (Some b) (alive s)).

(** [self.space.upgrade().ok_or(EKILLED)]. *)
Definition upgrade_space : vm_m () := s ← get; if alive s then mret () else lift (Err EKILLED).

(** *** The tables of the space *)

Definition arch_maps (vstart vend phys flags : Z) : vm_m () :=
  on_tables (maps root_table {| mi_virt := (vstart, vend); mi_phys := phys;
    mi_attr := flags_to_pg_attr flags; mi_id_off := ID_OFFSET |}).

Definition arch_reprotect (vstart vend flags : Z) : vm_m () :=
  on_tables (reprotect root_table {| ri_virt := (vstart, vend); ri_attr := flags_to_pg_attr flags;
    ri_id_off := ID_OFFSET |}).

Definition arch_query (virt : Z) : vm_m (Z * Z) :=
  s ← get;
  '(phys, attr) ← lift (map_err paging_error (query (mem (tables s)) root_table virt ID_OFFSET));
  mret (phys, pg_attr_to_flags attr).

Definition arch_unmaps (vstart vend : Z) : vm_m (option Z) :=
  s ← get;
  phys ← lift (match query (mem (tables s)) root_table vstart ID_OFFSET with
               | Ok (phys, _) => Ok (Some phys)
               | Err _ => Ok None
               | Panic => Panic
               end);
  _ ← on_tables (unmaps root_table vstart vend ID_OFFSET);
  mret phys.

(** *** Dropping *)

(** [Drop for Virt]: the children are dropped in order, nested ranges with their
    own children. The fuel bounds the depth of the nesting. *)
Fixpoint virt_drop (fuel : nat) (v : nat) : vm_m () :=
  match fuel with
  | O => lift Panic
  | S fuel =>
      x ← get_virt v;
      _ ← modify (λ s, Vm (tables s) (phys_of s) (delete v (virts s)) (vdso s) (alive s));
      (fix drop_all (es : ChildMap) : vm_m () :=
        match es with
        | [] => mret ()
        | (base, child) :: es =>
            s ← get;
            _ ← (if alive s then
                   e ← lift (child_end base child);
                   match child with
                   | CPhys _ _ _ _ => _ ← attempt (E':=errno) (arch_unmaps base e); mret ()
                   | CVirt _ _ => mret ()
                   end
                 else mret ());
            _ ← match child with
                | CPhys _ _ _ _ => mret ()
                | CVirt c _ => virt_drop fuel c
                end;
            drop_all es
        end) (children x)
  end.

Definition drop_child (c : Child) : vm_m () :=
  match c with
  | CVirt v _ => s ← get; virt_drop (S (base.size (virts s))) v
  | CPhys _ _ _ _ => mret ()
  end.

(** [children.insert]; the child that is replaced is dropped. *)
Definition insert_child (v : nat) (base : Z) (c : Child) : vm_m () :=
  x ← get_virt v;
  _ ← set_children v (bt_insert base c (children x));
  match bt_get base (children x) with
  | Some old => drop_child old
  | None => mret ()
  end.

(** *** Operations *)

(** [Virt::allocate]; [new] is the identity of the new range. *)
Definition virt_allocate (v new : nat) (offset : option Z) (l : Layout) : vm_m nat :=
  l ← lift (check_layout l);
  x ← get_virt v;
  r ← lift (find_range debug_assertions r1 r2 (children x) (range x) offset l);
  _ ← modify (λ s, Vm (tables s) (phys_of s) (<[new := MkVirt r (Some v) bt_empty]> (virts s)) (vdso s) (alive s));
  _ ← insert_child v (fst r) (CVirt new r);
  mret new.

(** The loop of [map] over the pinned segments. *)
Fixpoint map_loop (base end_ flags : Z) (segs : list (Z * Z)) : vm_m Z :=
  match segs with
  | [] => mret end_
  | (phys_base, len) :: segs =>
      next ← lift (end_ +! len);
      r ← attempt (arch_maps end_ next phys_base flags);
      match r with
      | inr () => map_loop base next flags segs
      | inl err =>
          _ ← (if base <? end_ then _ ← attempt (E':=errno) (arch_unmaps base end_); mret () else mret ());
          lift (Err err)
      end
  end.

Definition virt_map (v : nat) (offset : option Z) (phys : Phys) (phys_offset : Z) (l : Layout) (flags : Z) : vm_m Z :=
  let set_vdso := ph_eqb phys vdso_phys in
  vdso_len ← on_phys (ph_len vdso_phys);
  if set_vdso && (bool_decide (is_Some offset) || negb (phys_offset =? 0) || negb (size l =? vdso_len)
                  || negb (align l =? PAGE_SIZE) || negb (flags =? vdso_flags))
  then lift (Err EACCES)
  else
    l ← lift (check_layout l);
    if contains_bit phys_offset PAGE_SHIFT then lift (Err EALIGN)
    else
      let phys_end := wrap W (phys_offset + size l) in
      plen ← on_phys (ph_len phys);
      up ← lift (round_up_bit W plen PAGE_SHIFT);
      if negb ((phys_offset <? phys_end) && (phys_end <=? up)) then lift (Err ERANGE)
      else
        _ ← upgrade_space;
        s ← get;
        if set_vdso && (bool_decide (is_Some (vdso s)) || negb (bool_decide (v = root))) then lift (Err EACCES)
        else
          x ← get_virt v;
          '(base, end_) ← lift (find_range debug_assertions r1 r2 (children x) (range x) offset l);
          segs ← on_phys (ph_pin zero_base phys phys_offset (size l) (Flags.contains flags Flags.WRITABLE));
          e ← map_loop base base flags segs;
          _ ← lift (assert_ (e =? end_));
          _ ← insert_child v base (CPhys phys flags phys_offset (size l));
          _ ← (if set_vdso then set_vdso_base base else mret ());
          mret base.

(** The first loop of [reprotect] and of [unmap], over [range(..end)]: it stops
    at the first child that ends before [start]. [test] is the last check. *)
Fixpoint check_children (vdso_len : Z) (vdso : option Z) (start end_ : Z) (test : Child → res errno ())
    (es : ChildMap) : res errno () :=
  match es with
  | [] => Ok ()
  | (base, child) :: es =>
      child_end ← child_end base child;
      if start <=? child_end then
        if negb ((start <=? base) && (child_end <=? end_)) then Err ERANGE
        else
          ok ← check_vdso vdso_len vdso base child_end;
          if negb ok then Err EACCES
          else
            _ ← test child;
            check_children vdso_len vdso start end_ test es
      else Ok ()
  end.

(** [flags.intersects(!*f)]; the complement is taken in the set of all flags. *)
Definition reprotect_test (flags : Z) (c : Child) : res errno () :=
  match c with
  | CVirt _ _ => Err EINVAL
  | CPhys _ f _ _ => if Flags.intersects flags (Z.ldiff Flags.all f) then Err EPERM else Ok ()
  end.

Definition unmap_test (drop_child : bool) (c : Child) : res errno () :=
  match c with
  | CVirt _ _ => if drop_child then Ok () else Err EPERM
  | CPhys _ _ _ _ => Ok ()
  end.

Fixpoint reprotect_children (end_ flags : Z) (es : ChildMap) : vm_m () :=
  match es with
  | [] => mret ()
  | (base, child) :: es =>
      e ← lift (child_end base child);
      if e <=? end_ then
        _ ← arch_reprotect base e flags;
        reprotect_children end_ flags es
      else mret ()
  end.

Definition in_virt (x : Virt) (start end_ : Z) : bool := (fst (range x) <=? start) && (end_ <=? snd (range x)).

Definition virt_reprotect (v : nat) (base len flags : Z) : vm_m () :=
  end_ ← lift (base +! len);
  x ← get_virt v;
  if negb (in_virt x base end_) then lift (Err ERANGE)
  else
    _ ← upgrade_space;
    s ← get;
    vdso_len ← on_phys (ph_len vdso_phys);
    _ ← lift (check_children vdso_len (vdso s) base end_ (reprotect_test flags)
          (filter (λ b, fst b < end_) (children x)));
    reprotect_children end_ flags (filter (λ b, base ≤ fst b) (children x)).

(** The last loop of [unmap]: the first error is kept. *)
Fixpoint unmap_children (ret : res errno ()) (mid : ChildMap) : vm_m () :=
  match mid with
  | [] => lift ret
  | (base, child) :: mid =>
      e ← lift (child_end base child);
      ret ← match child with
            | CPhys phys _ offset len =>
                _ ← on_phys (ph_unpin phys offset len);
                r ← attempt (arch_unmaps base e);
                mret (match ret, r with Ok _, inl err => Err err | _, _ => ret end)
            | CVirt _ _ => _ ← drop_child child; mret ret
            end;
      unmap_children ret mid
  end.

Definition virt_unmap (v : nat) (base len : Z) (drop_child : bool) : vm_m () :=
  end_ ← lift (base +! len);
  x ← get_virt v;
  if negb (in_virt x base end_) then lift (Err ERANGE)
  else
    _ ← upgrade_space;
    s ← get;
    vdso_len ← on_phys (ph_len vdso_phys);
    _ ← lift (check_children vdso_len (vdso s) base end_ (unmap_test drop_child)
          (filter (λ b, fst b < end_) (children x)));
    _ ← set_children v (filter (λ b, ¬ (base ≤ fst b ∧ fst b < end_)) (children x));
    unmap_children (Ok ()) (bt_range base end_ (children x)).

(** [Virt::destroy]. *)
Definition virt_destroy (v : nat) : vm_m () :=
  x ← get_virt v;
  s ← get;
  match vparent x with
  | Some p =>
      if bool_decide (is_Some (virts s !! p)) then
        n ← lift (range_len (range x));
        _ ← attempt (E':=errno) (virt_unmap p (fst (range x)) n true);
        mret ()
      else mret ()
  | None => mret ()
  end.

(** *** [space.rs] *)

(** [init_stack]: the end of the new stack; one page is left free on each side. *)
Definition init_stack (v new : nat) (obj : nat) (sz : Z) : vm_m Z :=
  let flags := Z.lor (Z.lor Flags.READABLE Flags.WRITABLE) Flags.USER_ACCESS in
  n ← lift (PAGE_SIZE *! 2);
  n ← lift (n +! sz);
  c ← virt_allocate v new None (MkLayout n PAGE_SIZE);
  phys ← on_phys (allocate_phys obj sz false false false);
  ret ← virt_map c (Some PAGE_SIZE) phys 0 (MkLayout sz PAGE_SIZE) flags;
  lift (ret +! sz).

(** [allocate] and [unmap] of the kernel's space. *)
Definition space_allocate (obj : nat) (sz flags : Z) (zeroed : bool) : vm_m (Z * Z) :=
  sz ← lift (round_up_bit W sz PAGE_SHIFT);
  phys ← on_phys (allocate_phys obj sz false zeroed false);
  len ← on_phys (ph_len phys);
  a ← virt_map root None phys 0 (page_aligned len) flags;
  mret (a, len).

Definition space_unmap (base : Z) : vm_m () :=
  x ← get_virt root;
  _ ← set_children root (bt_remove base (children x));
  match bt_get base (children x) with
  | None => lift (Err ENOENT)
  | Some child =>
      e ← lift (child_end base child);
      _ ← attempt (E':=errno) (arch_unmaps base e);
      drop_child child
  end.

Fixpoint assert_mapped_loop (base : Z) (offsets : list Z) : vm_m () :=
  match offsets with
  | [] => mret ()
  | offset :: offsets =>
      a ← lift (base +! offset);
      r ← attempt (arch_query a);
      match r with
      | inr _ => assert_mapped_loop base offsets
      | inl _ => lift Panic
      end
  end.

(** [(0..len).step_by(PAGE_SIZE)]. *)
Definition page_offsets (len : Z) : list Z :=
  map (λ i, i * PAGE_SIZE) (seqZ 0 ((len + PAGE_SIZE - 1) / PAGE_SIZE)).

Definition assert_mapped (base len : Z) : vm_m () := assert_mapped_loop base (page_offsets len).
End virt.
