(* ===== verification/VirtSpec.v ===== *)
(** * Finding room in an address range

    [find_alloc] against the list of all the places where a block fits: it returns
    one of them, and every one of them for some random numbers. What is inserted
    there keeps the children of a range disjoint and inside it. *)

From S2P Require Import Base Bits RangeMap Mem Buddy Paging SysCall UserPtr Ext PhysSpec Slices Virt.
Local Open Scope Z_scope.

(** ** Layouts of children *)

Definition span (c : Child) : Z :=
  match c with CVirt _ r => snd r - fst r | CPhys _ _ _ len => len end.

(** The children are in order, disjoint, not empty and inside [lo, hi). *)
Fixpoint laid_out (lo hi : Z) (es : ChildMap) : Prop :=
  match es with
  | [] => lo ≤ hi
  | (b, c) :: es => lo ≤ b ∧ 0 < span c ∧ laid_out (b + span c) hi es
  end.

(** The gaps between the children. *)
Fixpoint holes (lo hi : Z) (es : ChildMap) : list (Z * Z) :=
  match es with
  | [] => [(lo, hi)]
  | (b, c) :: es => (lo, b) :: holes (b + span c) hi es
  end.

(** The [n] bytes at [p] meet no child. *)
Definition apart (p n : Z) (e : Z * Child) : Prop := p + n ≤ fst e ∨ fst e + span (snd e) ≤ p.

Lemma laid_out_le lo hi es : laid_out lo hi es → lo ≤ hi.
Proof. revert lo. induction es as [|[b c] es IH]; intros lo; cbn [laid_out]; [done|]. intros (? & ? & ?%IH). lia. Qed.

Lemma laid_out_elem lo hi es b c :
  laid_out lo hi es → (b, c) ∈ es → lo ≤ b ∧ 0 < span c ∧ b + span c ≤ hi.
Proof.
  revert lo. induction es as [|[b' c'] es IH]; intros lo; [set_solver|]. cbn [laid_out].
  intros (H1 & H2 & H3). rewrite elem_of_cons. intros [[= -> ->]|Hin].
  - apply laid_out_le in H3. lia.
  - destruct (IH _ H3 Hin) as (? & ? & ?). lia.
Qed.

Lemma laid_out_sorted lo hi es : laid_out lo hi es → bt_sorted es.
Proof.
  revert lo. induction es as [|[b c] es IH]; intros lo; cbn [laid_out]; [constructor|].
  intros (H1 & H2 & H3). apply bt_sorted_cons. split; [by eapply IH|]. intros b' c' Hin.
  destruct (laid_out_elem _ _ _ _ _ H3 Hin). lia.
Qed.

(** A place apart from all the children may be filled. *)
Lemma laid_out_insert lo hi es p c :
  laid_out lo hi es → lo ≤ p → 0 < span c → p + span c ≤ hi → Forall (apart p (span c)) es →
  laid_out lo hi (bt_insert p c es).
Proof.
  revert lo. induction es as [|[b' c'] es IH]; intros lo; cbn [laid_out bt_insert]; [lia|].
  intros (H1 & H2 & H3) Hlo Hc Hhi [[Ha|Ha] HF]%Forall_cons; cbn [fst snd] in Ha.
  - rewrite (proj2 (Z.ltb_lt p b')) by lia. cbn [laid_out]. repeat split; [lia..|done].
  - rewrite (proj2 (Z.ltb_ge p b')), (proj2 (Z.eqb_neq p b')) by lia. cbn [laid_out].
    split_and!; [lia..|]. by apply IH.
Qed.

Lemma child_end_run `{P : Profile} {E} b c :
  0 ≤ b → 0 < span c → b + span c < 2 ^ 64 → child_end (E:=E) b c = Ok (b + span c).
Proof.
  intros. unfold child_end, child_len, range_len. destruct c as [v [x y]|]; cbn in *.
  - run (usub_ok W). by rewrite uadd_ok by lia.
  - by rewrite uadd_ok by lia.
Qed.

Section places.
Context (sz bit : Z).
Hypothesis (Hbit : 0 ≤ bit < 64) (Hsz : 0 < sz) (Hpad : sz mod 2 ^ bit = 0).

(** The aligned places of a gap, in order. *)
Definition places (g : Z * Z) : list Z :=
  let base := align_up (fst g) bit in
  let d := align_down (snd g) bit - base in
  if sz <=? d then map (λ i, base + i * 2 ^ bit) (seqZ 0 ((d - sz) / 2 ^ bit + 1)) else [].

Definition free_places (lo hi : Z) (es : ChildMap) : list Z := mjoin (map places (holes lo hi es)).

Lemma free_places_nil lo hi : free_places lo hi [] = places (lo, hi).
Proof. apply app_nil_r. Qed.

Lemma free_places_cons lo hi b c es :
  free_places lo hi ((b, c) :: es) = places (lo, b) ++ free_places (b + span c) hi es.
Proof. done. Qed.

(** A gap that is empty or holds an aligned address. *)
Definition wide (g : Z * Z) : Prop := fst g < snd g → align_up (fst g) bit ≤ align_down (snd g) bit.

Lemma places_elem a b p : p ∈ places (a, b) ↔ a ≤ p ∧ p + sz ≤ b ∧ p mod 2 ^ bit = 0.
Proof using All.
  pose proof (pow2_pos bit ltac:(lia)) as Hp. unfold places. cbn [fst snd].
  pose proof (align_up_bounds a bit ltac:(lia)) as Hu. pose proof (align_up_aligned a bit) as Hua.
  pose proof (align_down_bounds b bit ltac:(lia)) as Hd. pose proof (align_down_aligned b bit) as Hda.
  set (u := align_up a bit) in *. set (d := align_down b bit) in *.
  apply Z.mod_divide in Hua, Hda, Hpad; [|lia..].
  destruct Hua as [ku Hku], Hda as [kd Hkd], Hpad as [ks Hks].
  assert (∀ k, p = k * 2 ^ bit → a ≤ p ∧ p + sz ≤ b ↔ ku ≤ k ∧ k + ks ≤ kd) as Hk.
  { intros k ->. nia. }
  assert ((d - u - sz) / 2 ^ bit = kd - ku - ks) as Hdiv.
  { rewrite Hkd, Hku, Hks. rewrite <- !Z.mul_sub_distr_r. by rewrite Z.div_mul by lia. }
  rewrite Hdiv. destruct (Z.leb_spec sz (d - u)) as [Hle|Hlt].
  - rewrite list_elem_of_fmap. split.
    + intros (i & -> & Hi%elem_of_seqZ). rewrite Hku. replace (ku * 2 ^ bit + i * 2 ^ bit) with ((ku + i) * 2 ^ bit) by lia.
      rewrite Z_mod_mult. split_and!; [nia..|done].
    + intros (H1 & H2 & [k Hpk]%Z.mod_divide); [|lia]. apply Hk in Hpk as Hb. destruct Hb as [Hb _].
      specialize (Hb (conj H1 H2)). exists (k - ku). rewrite elem_of_seqZ. split; [nia|lia].
  - split; [by intros ?%elem_of_nil|]. intros (H1 & H2 & [k Hpk]%Z.mod_divide); [|lia].
    apply Hk in Hpk as Hb. destruct Hb as [Hb _]. specialize (Hb (conj H1 H2)). nia.
Qed.

Lemma free_places_elem lo hi es p : laid_out lo hi es →
  p ∈ free_places lo hi es ↔ lo ≤ p ∧ p + sz ≤ hi ∧ p mod 2 ^ bit = 0 ∧ Forall (apart p sz) es.
Proof using All.
  revert lo. induction es as [|[b c] es IH]; intros lo; cbn [laid_out].
  - intros _. rewrite free_places_nil, places_elem. pose proof (List.Forall_nil (apart p sz)). naive_solver.
  - intros (H1 & H2 & H3). rewrite free_places_cons, elem_of_app, places_elem, (IH _ H3), Forall_cons.
    pose proof (laid_out_le _ _ _ H3). unfold apart at 2. cbn [fst snd].
    split; [intros [(? & ? & ?)|(? & ? & ? & ?)]|intros (? & ? & ? & [Ha|Ha] & ?)].
    + split_and!; try done; [lia|by left|]. apply Forall_forall. intros [b' c'] Hin.
      destruct (laid_out_elem _ _ _ _ _ H3 Hin). left. cbn. lia.
    + split_and!; try done; lia || by right.
    + left. split_and!; done || lia.
    + right. split_and!; done || lia.
Qed.

Lemma places_length a b : a ≤ b → Z.of_nat (length (places (a, b))) ≤ b - a.
Proof using All.
  intros Hab. pose proof (pow2_pos bit ltac:(lia)) as Hp. unfold places. cbn [fst snd].
  pose proof (align_up_bounds a bit ltac:(lia)). pose proof (align_down_bounds b bit ltac:(lia)).
  destruct (Z.leb_spec sz (align_down b bit - align_up a bit)) as [Hle|Hlt]; [|cbn; lia].
  rewrite length_map, length_seqZ.
  pose proof (Z.div_pos (align_down b bit - align_up a bit - sz) (2 ^ bit)).
  pose proof (Z.div_le_upper_bound (align_down b bit - align_up a bit - sz) (2 ^ bit)
    (align_down b bit - align_up a bit - sz)). nia.
Qed.

(** ** The search *)

Context `{P : Profile} {E : Type}.

Lemma places_lookup a b r : 0 ≤ r →
  places (a, b) !! Z.to_nat r =
    if r <? Z.of_nat (length (places (a, b))) then Some (align_up a bit + r * 2 ^ bit) else None.
Proof using Hbit Hsz.
  intros Hr. pose proof (pow2_pos bit ltac:(lia)) as Hp.
  destruct (Z.ltb_spec r (Z.of_nat (length (places (a, b))))) as [Hlt|Hge];
    [|apply lookup_ge_None_2; lia].
  revert Hlt. unfold places. cbn [fst snd].
  destruct (Z.leb_spec sz (align_down b bit - align_up a bit)) as [Hle|Hlt']; [|cbn; lia].
  rewrite length_map, length_seqZ. intros Hlt. rewrite list_lookup_fmap, lookup_seqZ_lt by lia. cbn.
  f_equal. lia.
Qed.

Lemma try_gap_run a b cnt r :
  0 ≤ a → a < b → b + 2 ^ bit ≤ 2 ^ 64 → wide (a, b) → 0 ≤ cnt → cnt + (b - a) < 2 ^ 64 → 0 ≤ r < 2 ^ 64 →
  let ps := places (a, b) in let n := Z.of_nat (length ps) in
  try_gap (E:=E) sz bit (a, b) (cnt, r) =
    (Ok (ps !! Z.to_nat r), (cnt + n, if r <? n then r else r - n)).
Proof using All.
  intros Ha Hab Hb Hw Hcnt Hsum Hr ps n. pose proof (pow2_pos bit ltac:(lia)) as Hp.
  pose proof (align_up_bounds a bit ltac:(lia)). pose proof (align_down_bounds b bit ltac:(lia)).
  pose proof (places_length a b ltac:(lia)) as Hn. fold ps n in Hn.
  pose proof (places_lookup a b r (proj1 Hr)) as Hl. fold ps n in Hl. rewrite Hl. clear Hl.
  specialize (Hw Hab). cbn [fst snd] in Hw. unfold try_gap. cbn [fst snd].
  run (round_up_bit_ok W bit Hbit a). run (round_down_bit_ok W bit Hbit b). run (usub_ok W).
  assert (n = if sz <=? align_down b bit - align_up a bit
              then (align_down b bit - align_up a bit - sz) / 2 ^ bit + 1 else 0) as Hlen.
  { subst n ps. unfold places. cbn [fst snd]. destruct (Z.leb_spec sz (align_down b bit - align_up a bit)); [|done].
    rewrite length_map, length_seqZ.
    pose proof (Z.div_pos (align_down b bit - align_up a bit - sz) (2 ^ bit)). lia. }
  destruct (Z.leb_spec sz (align_down b bit - align_up a bit)) as [Hle|Hlt].
  - set (d := align_down b bit - align_up a bit) in *. pose proof (Z.div_pos (d - sz) (2 ^ bit)).
    run (usub_ok W). unfold ushr. rewrite (proj2 (Z.leb_le 0 bit)), (proj2 (Z.ltb_lt bit W)) by lia.
    cbn [andb]. rewrite (st_lift_ok (Ok (Z.shiftr (d - sz) bit)) _ _ _ eq_refl), Z.shiftr_div_pow2 by lia.
    run (uadd_ok W). rewrite st_get_bind, <- Hlen. run (uadd_ok W).
    destruct (Z.ltb_spec r n) as [Hrn|Hrn].
    + assert (r * 2 ^ bit ≤ d - sz).
      { rewrite Z.mul_comm. etransitivity; [|apply (Z.mul_div_le (d - sz) (2 ^ bit)); lia].
        apply Z.mul_le_mono_nonneg_l; lia. }
      rewrite st_put_bind. run (ushl_ok W). by run (uadd_ok W).
    + by run (usub_ok W).
  - rewrite Hlen. rewrite (proj2 (Z.ltb_ge r 0)), Z.add_0_r, Z.sub_0_r by lia. done.
Qed.

Lemma places_empty a b : b ≤ a → places (a, b) = [].
Proof using Hbit Hsz.
  intros Hab. pose proof (align_up_bounds a bit ltac:(lia)). pose proof (align_down_bounds b bit ltac:(lia)).
  unfold places. cbn [fst snd]. by rewrite (proj2 (Z.leb_gt _ _)) by lia.
Qed.

Lemma gaps_loop_run es lo hi cnt r :
  laid_out lo hi es → 0 ≤ lo → hi + 2 ^ bit ≤ 2 ^ 64 → Forall wide (holes lo hi es) →
  0 ≤ cnt → cnt + (hi - lo) < 2 ^ 64 → 0 ≤ r < 2 ^ 64 →
  let ps := free_places lo hi es in
  ∃ cnt' r', gaps_loop (E:=E) (try_gap sz bit) es lo hi (cnt, r) = (Ok (ps !! Z.to_nat r), (cnt', r'))
    ∧ (ps !! Z.to_nat r = None → cnt' = cnt + Z.of_nat (length ps)).
Proof using All.
  revert lo cnt r.
  induction es as [|[b c] es IH]; intros lo cnt r Hlay Hlo Hhi Hw Hcnt Hsum Hr; cbn [gaps_loop].
  - rewrite free_places_nil.
    apply Forall_cons in Hw as [Hw _].
    destruct (Z.ltb_spec lo hi) as [Hlt|Hge].
    + rewrite (try_gap_run lo hi cnt r) by done. by do 2 eexists.
    + rewrite places_empty by done. exists cnt, r. split; [done|]. cbn. lia.
  - apply Forall_cons in Hw as [Hw Hws]. destruct Hlay as (H1 & H2 & H3).
    pose proof (laid_out_le _ _ _ H3). rewrite free_places_cons.
    assert (∃ cnt' r', (if lo <? b then try_gap (E:=E) sz bit (lo, b) else mret None) (cnt, r)
      = (Ok (places (lo, b) !! Z.to_nat r), (cnt', r'))
      ∧ cnt' = cnt + Z.of_nat (length (places (lo, b)))
      ∧ (places (lo, b) !! Z.to_nat r = None → r' = r - Z.of_nat (length (places (lo, b))) ∧ 0 ≤ r' < 2 ^ 64))
      as (cnt' & r' & Hrun & -> & Hr').
    { destruct (Z.ltb_spec lo b) as [Hlt|Hge].
      - rewrite (try_gap_run lo b cnt r) by (done || lia). do 2 eexists. split; [done|]. split; [done|].
        rewrite lookup_ge_None. intros. rewrite (proj2 (Z.ltb_ge _ _)) by lia. lia.
      - rewrite places_empty by done. do 2 eexists. split; [done|]. cbn. split; lia. }
    rewrite (st_bind_ok _ _ _ _ _ Hrun). pose proof (places_length lo b H1).
    destruct (places (lo, b) !! Z.to_nat r) as [q|] eqn:Hq.
    + exists (cnt + Z.of_nat (length (places (lo, b)))), r'. rewrite (lookup_app_l_Some _ _ _ _ Hq). done.
    + destruct (Hr' eq_refl) as [-> Hr0]. rewrite child_end_run by lia. cbv beta iota.
      rewrite (st_lift_ok (Ok (b + span c)) _ _ _ eq_refl).
      destruct (IH (b + span c) (cnt + Z.of_nat (length (places (lo, b)))) _ H3
        ltac:(lia) Hhi Hws ltac:(lia) ltac:(lia) Hr0) as (cnt' & r' & Hrec & Hfin).
      exists cnt', r'. rewrite Hrec, lookup_app_r by lia.
      replace (Z.to_nat r - length (places (lo, b)))%nat
        with (Z.to_nat (r - Z.of_nat (length (places (lo, b))))) by lia.
      split; [done|]. intros Hnone. rewrite Hfin, length_app by done. lia.
Qed.

End places.

Section find.
Context `{P : Profile}.
Context (l : Layout) (bit lo hi : Z) (es : ChildMap).

(** A request that [check_layout] has padded, and children in order. *)
Record request_ok : Prop := {
  rq_bit : 0 ≤ bit < 64;
  rq_align : align l = 2 ^ bit;
  rq_size : 0 < size l;
  rq_padded : size l mod 2 ^ bit = 0;
  rq_layout : laid_out lo hi es;
  rq_lo : 0 ≤ lo;
  rq_hi : hi + 2 ^ bit ≤ 2 ^ 64;
  rq_wide : Forall (wide bit) (holes lo hi es);
}.

Abbreviation ps := (free_places (size l) bit lo hi es).

Lemma try_find_alloc_run {E} r : request_ok → 0 ≤ r < 2 ^ 64 →
  ∃ cnt, try_find_alloc (E:=E) es (lo, hi) l r = Ok (ps !! Z.to_nat r, cnt)
    ∧ (ps !! Z.to_nat r = None → cnt = Z.of_nat (length ps)).
Proof.
  intros [Hb Ha Hs Hp Hl Hlo Hhi Hw] Hr. pose proof (pow2_pos bit ltac:(lia)).
  destruct (gaps_loop_run (size l) bit Hb Hs Hp (E:=E) es lo hi 0 r Hl Hlo Hhi Hw ltac:(lia) ltac:(lia) Hr)
    as (cnt & r' & Hrun & Hcnt).
  exists cnt. unfold try_find_alloc. rewrite Ha.
  pose proof (Z.pow_lt_mono_r 2 bit W ltac:(lia) ltac:(lia) ltac:(lia)).
  rewrite (res_bind_ok _ _ _ (msb_ok W ltac:(done) (2 ^ bit) (conj H H0))).
  rewrite Z.log2_pow2 by lia. cbn [fst snd]. rewrite Hrun. split; [done|]. intros Hn. rewrite Hcnt by done. lia.
Qed.

(** The place [find_alloc] chooses. *)
Definition chosen (debug_assertions : bool) (r1 r2 : Z) : Z :=
  let r := r1 mod 2 ^ ASLR_BIT debug_assertions in
  if r <? Z.of_nat (length ps) then r else r2 mod Z.of_nat (length ps).

Lemma find_alloc_run {E} debug_assertions r1 r2 : request_ok → 0 ≤ r1 < 2 ^ 64 → 0 ≤ r2 < 2 ^ 64 →
  find_alloc (E:=E) debug_assertions r1 r2 es (lo, hi) l =
    match ps with [] => Panic | _ => Ok (ps !! Z.to_nat (chosen debug_assertions r1 r2)) end.
Proof.
  intros Hq H1 H2. unfold find_alloc, chosen. set (k := ASLR_BIT debug_assertions).
  assert (0 < k) by (subst k; by destruct debug_assertions). pose proof (pow2_pos k ltac:(lia)).
  change (2 ^ k - 1) with (Z.pred (2 ^ k)). rewrite <- Z.ones_equiv, Z.land_ones by lia.
  pose proof (Z.mod_pos_bound r1 (2 ^ k) ltac:(lia)). pose proof (Z.mod_le r1 (2 ^ k) ltac:(lia) ltac:(lia)).
  destruct (try_find_alloc_run (E:=E) (r1 mod 2 ^ k) Hq ltac:(lia)) as (cnt & -> & Hcnt). cbn [mbind res_bind].
  destruct (ps !! Z.to_nat (r1 mod 2 ^ k)) as [p|] eqn:Hp.
  - apply lookup_lt_Some in Hp as Hlt. rewrite (proj2 (Z.ltb_lt _ _)) by lia. rewrite Hp.
    by destruct ps.
  - apply lookup_ge_None in Hp as Hge. rewrite (proj2 (Z.ltb_ge _ _)) by lia. rewrite Hcnt by done.
    destruct (Z.eqb_spec (Z.of_nat (length ps)) 0) as [Hz|Hz]; [by destruct ps|].
    pose proof (Z.mod_pos_bound r2 (Z.of_nat (length ps)) ltac:(lia)).
    pose proof (Z.mod_le r2 (Z.of_nat (length ps)) ltac:(lia) ltac:(lia)).
    destruct (try_find_alloc_run (E:=E) (r2 mod Z.of_nat (length ps)) Hq ltac:(lia)) as (cnt' & -> & _).
    cbn. by destruct ps.
Qed.
End find.

(** ** The invariant of a space *)

(** A range of pages whose children are pages, in order, disjoint and inside it. *)
Record virt_ok (x : Virt) : Prop := {
  vo_lo : 0 ≤ fst (range x);
  vo_hi : snd (range x) + PAGE_SIZE ≤ 2 ^ 64;
  vo_lo_page : fst (range x) mod PAGE_SIZE = 0;
  vo_hi_page : snd (range x) mod PAGE_SIZE = 0;
  vo_layout : laid_out (fst (range x)) (snd (range x)) (children x);
  vo_pages : Forall (λ e, fst e mod PAGE_SIZE = 0 ∧ span (snd e) mod PAGE_SIZE = 0) (children x);
}.

Definition space_ok {T A} (s : vm T A) : Prop := map_Forall (λ _, virt_ok) (virts s).

Lemma pages_wide lo hi es :
  lo mod PAGE_SIZE = 0 → hi mod PAGE_SIZE = 0 →
  Forall (λ e : Z * Child, fst e mod PAGE_SIZE = 0 ∧ span (snd e) mod PAGE_SIZE = 0) es →
  Forall (wide PAGE_SHIFT) (holes lo hi es).
Proof.
  assert (∀ a b, a mod PAGE_SIZE = 0 → b mod PAGE_SIZE = 0 → wide PAGE_SHIFT (a, b)) as Hw.
  { intros a b Ha Hb Hlt. cbn [fst snd] in *. unfold align_up, align_down.
    change (2 ^ PAGE_SHIFT) with 4096. change PAGE_SIZE with 4096 in *.
    apply Z.mod_divide in Ha as [i ->]; [|lia]. apply Z.mod_divide in Hb as [j ->]; [|lia].
    rewrite Z.div_mul by lia. apply Z.mul_le_mono_nonneg_r; [lia|].
    apply Z.lt_succ_r, Z.div_lt_upper_bound; lia. }
  revert lo. induction es as [|[b c] es IH]; intros lo Hlo Hhi HF.
  - apply Forall_singleton. by apply Hw.
  - apply Forall_cons in HF as [[Hb Hc] HF]. cbn [fst snd] in Hb, Hc. apply Forall_cons. split; [by apply Hw|].
    apply IH; [|done..]. rewrite Z.add_mod, Hb, Hc by done. done.
Qed.

Lemma virt_request x sz :
  virt_ok x → 0 < sz → sz mod PAGE_SIZE = 0 →
  request_ok (MkLayout sz PAGE_SIZE) PAGE_SHIFT (fst (range x)) (snd (range x)) (children x).
Proof. intros [] Hs Hp. split; try done. by apply pages_wide. Qed.

Lemma check_layout_pages sz l : check_layout (MkLayout sz PAGE_SIZE) = Ok l → 0 ≤ sz →
  l = MkLayout (pad_to_align (MkLayout sz PAGE_SIZE)) PAGE_SIZE ∧ 0 < size l ∧ size l mod PAGE_SIZE = 0.
Proof.
  unfold check_layout. cbn [size align]. destruct (Z.eqb_spec sz 0) as [|Hne]; [done|].
  rewrite (proj2 (Z.ltb_ge PAGE_SIZE PAGE_SIZE)) by lia. intros [= <-] Hsz.
  destruct (pad_to_align_spec (MkLayout sz PAGE_SIZE) PAGE_SHIFT) as [Hle Hmod]; [done..|].
  cbn [size align] in *. split; [done|]. split; [lia|done].
Qed.

Section spec.
Context `{P : Profile} {T A : Type} `{PA : PageAlloc T} `{PS : PageSource A} `{BS : BlockSource A}.
Context (zero_base root_table : Z) (root : nat) (vdso_flags : Z) (vdso_phys : Phys).
Context (debug_assertions : bool) (r1 r2 : Z).
Hypothesis (Hr1 : 0 ≤ r1 < 2 ^ 64) (Hr2 : 0 ≤ r2 < 2 ^ 64).
Implicit Types (s : vm T A) (x : Virt) (V : gmap nat Virt).
Abbreviation vm_m := (st (vm T A) errno).

(** What [find_range] finds without an offset fits. *)
Lemma find_range_fits x sz b e :
  virt_ok x → 0 < sz → sz mod PAGE_SIZE = 0 →
  find_range debug_assertions r1 r2 (children x) (range x) None (MkLayout sz PAGE_SIZE) = Ok (b, e) →
  e = b + sz ∧ fst (range x) ≤ b ∧ e ≤ snd (range x) ∧ b mod PAGE_SIZE = 0 ∧ Forall (apart b sz) (children x).
Proof using Hr1 Hr2.
  intros Hx Hs Hp. pose proof (virt_request x sz Hx Hs Hp) as Hq. unfold find_range.
  rewrite (surjective_pairing (range x)), (find_alloc_run _ _ _ _ _ _ _ _ Hq Hr1 Hr2).
  set (ps := free_places _ _ _ _ _). destruct (ps !! _) as [p|] eqn:Hl;
    [|destruct ps; intros ?; simplify_eq/=].
  assert (p ∈ ps) as Hin by by eapply list_elem_of_lookup_2.
  destruct ps eqn:Hps; [by apply elem_of_nil in Hin|]. rewrite <- Hps in Hin. clear Hps.
  apply (free_places_elem sz PAGE_SHIFT) in Hin as (H1 & H2 & H3 & H4); [|done|done|done|apply Hq].
  pose proof (vo_lo _ Hx). pose proof (vo_hi _ Hx). change PAGE_SIZE with 4096 in *.
  cbn [mbind res_bind of_option size]. rewrite uadd_ok by lia. cbn. intros [= <- <-]. done.
Qed.

(** *** Frames: the tables and the objects do not know the ranges *)

Section frame.
Context (Q : gmap nat Virt → Prop).
Abbreviation I := (λ s : vm T A, Q (virts s)).

Lemma on_tables_keeps {B} (m : st (machine T) Error B) : keeps I (on_tables m).
Proof. intros s Hs. unfold on_tables. by destruct (m (tables s)). Qed.

Lemma on_phys_keeps {B} (m : st (phys_state A) errno B) : keeps I (on_phys m).
Proof. intros s Hs. unfold on_phys. by destruct (m (phys_of s)). Qed.

Lemma set_vdso_base_keeps b : keeps I (set_vdso_base b).
Proof. by intros s. Qed.

Hint Resolve on_tables_keeps on_phys_keeps set_vdso_base_keeps : h2o_keeps.

Lemma upgrade_space_keeps : keeps I upgrade_space.
Proof. apply keeps_bind; [auto with h2o_keeps|]. intros s. destruct (alive s); auto with h2o_keeps. Qed.

Lemma get_virt_keeps v : keeps I (get_virt v).
Proof. unfold get_virt. auto with h2o_keeps. Qed.

Lemma arch_unmaps_keeps a b : keeps I (arch_unmaps root_table a b).
Proof. unfold arch_unmaps. auto 8 with h2o_keeps. Qed.

Lemma arch_maps_keeps a b p f : keeps I (arch_maps root_table a b p f).
Proof. apply on_tables_keeps. Qed.

Hint Resolve upgrade_space_keeps get_virt_keeps arch_unmaps_keeps arch_maps_keeps : h2o_keeps.

Lemma map_loop_keeps base e flags segs : keeps I (map_loop root_table base e flags segs).
Proof.
  revert e. induction segs as [|[a n] segs IH]; intros e; cbn [map_loop]; [auto with h2o_keeps|].
  apply keeps_bind; [auto with h2o_keeps|]. intros next.
  apply keeps_bind; [auto with h2o_keeps|]. intros [err|[]]; [|done].
  apply keeps_bind; [|auto with h2o_keeps]. destruct (base <? e); auto with h2o_keeps.
Qed.

Lemma reprotect_children_keeps e flags es : keeps I (reprotect_children root_table e flags es).
Proof.
  induction es as [|[b c] es IH]; cbn [reprotect_children]; [auto with h2o_keeps|].
  apply keeps_bind; [auto with h2o_keeps|]. intros e'. destruct (e' <=? e); [|auto with h2o_keeps].
  apply keeps_bind; [apply on_tables_keeps|done].
Qed.

(** Dropping a range deletes it and the ranges inside it. *)
Hypothesis (Qdel : ∀ m v, Q m → Q (delete v m)).

Lemma virt_drop_keeps fuel v : keeps I (virt_drop root_table fuel v).
Proof using Qdel.
  revert v. induction fuel as [|fuel IH]; intros v; cbn [virt_drop]; [auto with h2o_keeps|].
  apply keeps_bind; [auto with h2o_keeps|]. intros x.
  apply keeps_bind; [intros s Hs; by apply Qdel|]. intros _.
  induction (children x) as [|[b c] es IHes]; [auto with h2o_keeps|].
  apply keeps_bind; [auto with h2o_keeps|]. intros s.
  apply keeps_bind; [|intros _; apply keeps_bind; [destruct c; auto with h2o_keeps|done]].
  destruct (alive s); [|auto with h2o_keeps].
  apply keeps_bind; [auto with h2o_keeps|]. intros e. destruct c; auto with h2o_keeps.
Qed.

Lemma drop_child_keeps c : keeps I (drop_child root_table c).
Proof using Qdel.
  destruct c; cbn [drop_child]; [|auto with h2o_keeps].
  apply keeps_bind; [auto with h2o_keeps|]. intros s. by apply virt_drop_keeps.
Qed.

Lemma unmap_children_keeps r mid : keeps I (unmap_children root_table r mid).
Proof using Qdel.
  revert r. induction mid as [|[b c] mid IH]; intros r; cbn [unmap_children]; [auto with h2o_keeps|].
  apply keeps_bind; [auto with h2o_keeps|]. intros e.
  apply keeps_bind; [|done]. destruct c; [apply keeps_bind|]; eauto using drop_child_keeps with h2o_keeps.
Qed.
End frame.

(** *** The operations *)

Definition all_ok (V : gmap nat Virt) : Prop := map_Forall (λ _, virt_ok) V.

Lemma all_ok_delete V v : all_ok V → all_ok (delete v V).
Proof. by apply map_Forall_delete. Qed.

(** [k] keeps the invariant from every state with the ranges [V]. *)
Definition safe_from {B} (V : gmap nat Virt) (k : vm_m B) : Prop := ∀ s, virts s = V → space_ok (snd (k s)).

Lemma safe_bind {B C} V (m : vm_m B) (k : B → vm_m C) :
  all_ok V → keeps (λ s, virts s = V) m → (∀ b, safe_from V (k b)) → safe_from V (m ≫= k).
Proof.
  intros HV Hm Hk s Hs. specialize (Hm s Hs). unfold mbind, st_bind.
  destruct (m s) as [[b|e|] s'] eqn:Hrun; cbn [snd] in Hm; [by apply Hk|..]; cbn [snd]; unfold space_ok; by rewrite Hm.
Qed.

(** The same with the value of a pure step at hand. *)
Lemma safe_lift {B C} V (r : res errno B) (k : B → vm_m C) :
  all_ok V → (∀ b, r = Ok b → safe_from V (k b)) → safe_from V (lift r ≫= k).
Proof.
  intros HV Hk s Hs. unfold mbind, st_bind, lift. destruct r as [b|e|]; [by apply (Hk b)|..];
    cbn [snd]; unfold space_ok; by rewrite Hs.
Qed.

Lemma safe_virt {B} V v (k : Virt → vm_m B) :
  all_ok V → (∀ x, V !! v = Some x → virt_ok x → safe_from V (k x)) → safe_from V (get_virt v ≫= k).
Proof.
  intros HV Hk s Hs. unfold get_virt, mbind, st_bind, get, lift. rewrite Hs.
  destruct (V !! v) as [x|] eqn:Hx; cbn; [|unfold space_ok; by rewrite Hs].
  apply (Hk x); [done| |done]. by eapply map_Forall_lookup_1 in HV.
Qed.

Lemma safe_keeps {B} V (m : vm_m B) : all_ok V → keeps space_ok m → safe_from V m.
Proof. intros HV Hm s Hs. apply Hm. unfold space_ok. by rewrite Hs. Qed.

Lemma safe_fail {B} V (r : res errno B) : all_ok V → safe_from V (lift r).
Proof. intros HV. by apply safe_keeps, keeps_lift. Qed.

Lemma safe_then {B C} V (m : vm_m B) (k : B → vm_m C) :
  safe_from V m → (∀ b, keeps space_ok (k b)) → safe_from V (m ≫= k).
Proof.
  intros Hm Hk s Hs. specialize (Hm s Hs). unfold mbind, st_bind.
  destruct (m s) as [[b| |] s']; [by apply Hk|done..].
Qed.

Lemma insert_child_safe V v x b c :
  all_ok V → V !! v = Some x → virt_ok x → fst (range x) ≤ b → 0 < span c → b + span c ≤ snd (range x) →
  b mod PAGE_SIZE = 0 → span c mod PAGE_SIZE = 0 → Forall (apart b (span c)) (children x) →
  safe_from V (insert_child root_table v b c).
Proof.
  intros HV Hv Hx Hlo Hc Hhi Hb Hcp Hap s Hs. unfold insert_child.
  assert (get_virt v s = (Ok x, s)) as Hget.
  { unfold get_virt. by rewrite st_get_bind, Hs, Hv. }
  rewrite (st_bind_ok _ _ _ _ _ Hget). unfold set_children. rewrite st_modify_bind.
  match goal with |- space_ok (snd (_ ?s1)) => assert (space_ok s1) as H1 end.
  { unfold space_ok. cbn [virts]. rewrite Hs. intros w y Hy.
    destruct (decide (w = v)) as [->|Hne].
    - rewrite lookup_alter_eq, Hv in Hy. injection Hy as <-. destruct Hx. split; cbn [range children]; try done.
      + by apply laid_out_insert.
      + apply Forall_forall. intros [b' c'] Hin. apply bt_insert_elem in Hin as [[-> ->]|[_ Hin]];
          [done| |by eapply laid_out_sorted]. by apply (proj1 (Forall_forall _ _) vo_pages0 _ Hin).
    - rewrite lookup_alter_ne in Hy by done. by apply (HV w). }
  destruct (bt_get b (children x)); [|done].
  by apply (drop_child_keeps all_ok all_ok_delete).
Qed.

(** The [n] bytes at [b] are free pages of [x]. *)
Definition fits_in x b n : Prop :=
  fst (range x) ≤ b ∧ b + n ≤ snd (range x) ∧ b mod PAGE_SIZE = 0 ∧ Forall (apart b n) (children x).

Lemma fits_absent x b n : virt_ok x → 0 < n → fits_in x b n → bt_get b (children x) = None.
Proof.
  intros Hx Hn (H1 & H2 & H3 & H4). apply bt_get_none. intros c Hin.
  destruct (laid_out_elem _ _ _ _ _ (vo_layout _ Hx) Hin) as (? & ? & ?).
  destruct (proj1 (Forall_forall _ _) H4 _ Hin); cbn in *; lia.
Qed.

Lemma get_virt_run s v x : virts s !! v = Some x → get_virt v s = (Ok x, s).
Proof. intros Hv. unfold get_virt. by rewrite st_get_bind, Hv. Qed.

(** [allocate] makes an empty range of free pages, or changes nothing. *)
Lemma virt_allocate_run s v new x sz :
  virts s !! v = Some x → virt_ok x → virts s !! new = None → 0 ≤ sz →
  let r := virt_allocate root_table debug_assertions r1 r2 v new None (MkLayout sz PAGE_SIZE) s in
  (is_ok (fst r) = false ∧ snd r = s) ∨
  ∃ b, let n := pad_to_align (MkLayout sz PAGE_SIZE) in
    0 < n ∧ n mod PAGE_SIZE = 0 ∧ fits_in x b n ∧
    r = (Ok new, Vm (tables s) (phys_of s)
      (<[v := MkVirt (range x) (vparent x) (bt_insert b (CVirt new (b, b + n)) (children x))]>
        (<[new := MkVirt (b, b + n) (Some v) []]> (virts s))) (vdso s) (alive s)).
Proof using Hr1 Hr2.
  intros Hv Hx Hnew Hsz. cbv zeta. unfold virt_allocate.
  destruct (check_layout _) as [l|e|] eqn:Hl; [|by left..].
  destruct (check_layout_pages _ _ Hl Hsz) as (-> & Hn & Hp). cbn [size] in Hn, Hp.
  rewrite (st_lift_ok (Ok _) _ _ _ eq_refl), (st_bind_ok _ _ _ _ _ (get_virt_run s v x Hv)).
  set (n := pad_to_align _) in *.
  destruct (find_range _ _ _ _ _ _ _) as [[b e]|e|] eqn:Hf; [|by left..]. right. exists b.
  destruct (find_range_fits x n b e Hx Hn Hp Hf) as (-> & Hfit).
  split; [done|]. split; [done|]. split; [done|].
  assert (v ≠ new) by congruence.
  rewrite (st_lift_ok (Ok _) _ _ _ eq_refl), st_modify_bind. unfold insert_child. cbn [fst].
  match goal with |- context [_ ?s1 = _] => set (s2 := s1) end.
  assert (virts s2 !! v = Some x) as Hv2 by (cbn; by rewrite lookup_insert_ne).
  unfold mbind at 1, st_bind at 1. unfold set_children.
  rewrite (st_bind_ok _ _ _ _ _ (get_virt_run s2 v x Hv2)), st_modify_bind, (fits_absent x b n) by done.
  cbn. do 2 f_equal. apply map_eq. intros w. destruct (decide (w = v)) as [->|].
  - rewrite lookup_insert_eq, lookup_alter_eq, lookup_insert_ne, Hv by done. done.
  - by rewrite lookup_alter_ne, (lookup_insert_ne _ v) by done.
Qed.

Lemma virt_allocate_ok v new sz : 0 ≤ sz → ∀ s, virts s !! new = None → space_ok s →
  space_ok (snd (virt_allocate root_table debug_assertions r1 r2 v new None (MkLayout sz PAGE_SIZE) s)).
Proof using Hr1 Hr2.
  intros Hsz s Hnew Hs. destruct (virts s !! v) as [x|] eqn:Hv.
  - pose proof (Hs v x Hv) as Hx.
    destruct (virt_allocate_run s v new x sz Hv Hx Hnew Hsz) as [[_ ->]|(b & Hn & Hp & Hfit & ->)]; [done|].
    destruct Hfit as (H1 & H2 & H3 & H4). cbn [snd]. apply map_Forall_insert_2; [|apply map_Forall_insert_2; [|done]].
    + destruct Hx. split; cbn [range children]; try done.
      * apply laid_out_insert; cbn [span fst snd]; rewrite ?Z.add_simpl_l; done.
      * apply Forall_forall. intros [b' c'] Hin.
        apply bt_insert_elem in Hin as [[-> ->]|[_ Hin]]; [cbn; by rewrite Z.add_simpl_l|
          |by eapply laid_out_sorted]. by apply (proj1 (Forall_forall _ _) vo_pages0 _ Hin).
    + destruct Hx. split; cbn [range children fst snd laid_out]; try done; try lia.
      rewrite Z.add_mod, H3, Hp by done. done.
  - unfold virt_allocate. destruct (check_layout _) as [l|e|]; [|done..].
    rewrite (st_lift_ok (Ok l) _ _ _ eq_refl). unfold get_virt at 1, mbind at 1, st_bind at 1.
    by rewrite st_get_bind, Hv.
Qed.

Definition finds_room V (v : nat) (offset : option Z) : Prop := ∀ x n b e, V !! v = Some x → 0 < n → n mod PAGE_SIZE = 0 →
  find_range debug_assertions r1 r2 (children x) (range x) offset (MkLayout n PAGE_SIZE) = Ok (b, e) →
  e = b + n ∧ fits_in x b n.

Lemma virt_map_safe V v offset phys off sz flags :
  all_ok V → 0 ≤ sz → finds_room V v offset →
  safe_from V (virt_map zero_base root_table root vdso_flags vdso_phys debug_assertions r1 r2
    v offset phys off (MkLayout sz PAGE_SIZE) flags).
Proof.
  intros HV Hsz Hroom. unfold virt_map.
  apply safe_bind; [done|apply (on_phys_keeps (λ V', V' = V))|]. intros vdso_len. case_match; [by apply safe_fail|].
  apply safe_lift; [done|]. intros l Hl. destruct (check_layout_pages _ _ Hl Hsz) as (-> & Hn & Hp).
  set (n := pad_to_align _) in *. cbn [size] in *.
  case_match; [by apply safe_fail|]. apply safe_bind; [done|apply (on_phys_keeps (λ V', V' = V))|]. intros plen.
  apply safe_lift; [done|]. intros up _. case_match; [by apply safe_fail|].
  apply safe_bind; [done|apply (upgrade_space_keeps (λ V', V' = V))|]. intros _.
  apply safe_bind; [done|apply keeps_get|]. intros s0. case_match; [by apply safe_fail|].
  apply safe_virt; [done|]. intros x Hv Hx. apply safe_lift; [done|]. intros [b e] Hf.
  destruct (Hroom x n b e Hv Hn Hp Hf) as (-> & Hlo & Hhi & Hb & Hap).
  apply safe_bind; [done|apply (on_phys_keeps (λ V', V' = V))|]. intros segs.
  apply safe_bind; [done|apply (map_loop_keeps (λ V', V' = V))|]. intros e'.
  apply safe_lift; [done|]. intros _ _.
  apply safe_then; [by apply (insert_child_safe V v x b (CPhys phys flags off n))|]. intros _.
  apply keeps_bind; [|auto with h2o_keeps].
  destruct (ph_eqb phys vdso_phys); [apply (set_vdso_base_keeps all_ok)|auto with h2o_keeps].
Qed.

Lemma finds_room_none V v : all_ok V → finds_room V v None.
Proof using Hr1 Hr2. 
  intros HV x n b e Hv Hn Hp Hf. by destruct (find_range_fits x n b e (HV v x Hv) Hn Hp Hf) as (-> & ?).
Qed.

Lemma virt_reprotect_safe V v base len flags :
  all_ok V → safe_from V (virt_reprotect root_table vdso_phys v base len flags).
Proof.
  intros HV. unfold virt_reprotect. apply safe_lift; [done|]. intros e _.
  apply safe_virt; [done|]. intros x Hv Hx. case_match; [by apply safe_fail|].
  apply safe_bind; [done|apply (upgrade_space_keeps (λ V', V' = V))|]. intros _.
  apply safe_bind; [done|apply keeps_get|]. intros s0.
  apply safe_bind; [done|apply (on_phys_keeps (λ V', V' = V))|]. intros n. apply safe_lift; [done|]. intros _ _.
  apply safe_keeps; [done|]. apply (reprotect_children_keeps all_ok).
Qed.

Lemma laid_out_filter lo hi es (Q : Z * Child → Prop) `{∀ e, Decision (Q e)} :
  laid_out lo hi es → laid_out lo hi (filter Q es).
Proof.
  revert lo. induction es as [|[b c] es IH]; intros lo; cbn [laid_out]; [done|].
  intros (H1 & H2 & H3). rewrite filter_cons. case_decide; [cbn [laid_out]; auto|].
  apply IH. clear IH. destruct es as [|[b' c'] es]; cbn [laid_out] in *; [lia|]. destruct H3. split; [lia|done].
Qed.

Lemma virt_unmap_safe V v base len drop :
  all_ok V → safe_from V (virt_unmap root_table vdso_phys v base len drop).
Proof.
  intros HV. unfold virt_unmap. apply safe_lift; [done|]. intros e _.
  apply safe_virt; [done|]. intros x Hv Hx. case_match; [by apply safe_fail|].
  apply safe_bind; [done|apply (upgrade_space_keeps (λ V', V' = V))|]. intros _.
  apply safe_bind; [done|apply keeps_get|]. intros s0.
  apply safe_bind; [done|apply (on_phys_keeps (λ V', V' = V))|]. intros n. apply safe_lift; [done|]. intros _ _.
  intros s Hs. unfold set_children. rewrite st_modify_bind.
  apply (unmap_children_keeps all_ok all_ok_delete). cbn [virts]. rewrite Hs. intros w y Hy.
  destruct (decide (w = v)) as [->|Hne]; [|rewrite lookup_alter_ne in Hy by done; by apply (HV w)].
  rewrite lookup_alter_eq, Hv in Hy. injection Hy as <-. destruct Hx.
  split; cbn [range children]; try done; [by apply laid_out_filter|].
  apply Forall_forall. intros e' [_ Hin]%list_elem_of_filter. by apply (proj1 (Forall_forall _ _) vo_pages0 _ Hin).
Qed.

Lemma virt_destroy_safe V v : all_ok V → safe_from V (virt_destroy root_table vdso_phys v).
Proof.
  intros HV. unfold virt_destroy. apply safe_virt; [done|]. intros x _ _.
  apply safe_bind; [done|apply keeps_get|]. intros s0.
  destruct (vparent x) as [p|]; [|by apply safe_keeps, keeps_ret].
  case_bool_decide; [|by apply safe_keeps, keeps_ret].
  apply safe_lift; [done|]. intros n _. apply safe_keeps; [done|].
  apply keeps_bind; [apply keeps_attempt|auto with h2o_keeps]. intros s Hs. by apply (virt_unmap_safe (virts s)).
Qed.

Lemma checked_add_some a b c : checked_add a b = Some c → c = a + b ∧ c < 2 ^ 64.
Proof. unfold checked_add. destruct (Z.ltb_spec (a + b) (2 ^ 64)); [|done]. by intros [= <-]. Qed.

(** A range without children has room at every offset that is accepted. *)
Lemma finds_room_empty V v x : V !! v = Some x → virt_ok x → children x = [] → finds_room V v (Some PAGE_SIZE).
Proof.
  intros Hv Hx Hnil x' n b e Hv'. rewrite Hv in Hv'. injection Hv' as <-. intros Hn Hp.
  rewrite Hnil. unfold find_range. cbn [mbind res_bind size].
  destruct (checked_add (fst (range x)) PAGE_SIZE) as [base|] eqn:H1; [|done]. cbn.
  destruct (checked_add base n) as [end_|] eqn:H2; [|done]. cbn.
  apply checked_add_some in H1 as [-> H1], H2 as [-> H2].
  destruct (contains_bit _ _); [done|]. destruct (Z.leb_spec (fst (range x)) (fst (range x) + PAGE_SIZE)); [|done].
  destruct (Z.leb_spec (fst (range x) + PAGE_SIZE + n) (snd (range x))); [|done]. cbn.
  pose proof (vo_lo _ Hx). change PAGE_SIZE with 4096 in *. rewrite uadd_ok by lia. cbn. intros [= <- <-].
  split; [done|]. split; [done|]. split; [done|]. split; [|rewrite Hnil; constructor].
  pose proof (vo_lo_page _ Hx). change PAGE_SIZE with 4096 in *. by rewrite <- (Z.mul_1_l 4096) at 1; rewrite Z_mod_plus_full.
Qed.

Lemma checked_nonneg z c : checked (E:=errno) W z = Ok c → 0 ≤ c.
Proof.
  unfold checked, fits. destruct (Z.leb_spec 0 z), (Z.ltb_spec z (2 ^ W)); cbn; try (intros [= <-]; done);
    destruct overflow_checks; intros [= <-]; apply Z.mod_pos_bound; lia.
Qed.

Lemma init_stack_ok v new obj sz : 0 ≤ sz → ∀ s, virts s !! new = None → space_ok s →
  space_ok (snd (init_stack zero_base root_table root vdso_flags vdso_phys debug_assertions r1 r2 v new obj sz s)).
Proof using Hr1 Hr2.
  intros Hsz s Hnew Hs. unfold init_stack.
  rewrite (st_lift_ok _ _ _ 8192) by by apply (umul_ok W).
  destruct (8192 +! sz)%h2o as [n|e|] eqn:Hn; [|done..]. apply checked_nonneg in Hn.
  rewrite (st_lift_ok (Ok n) _ _ _ eq_refl). unfold mbind at 1, st_bind at 1.
  pose proof (virt_allocate_ok v new n Hn s Hnew Hs) as Hok.
  destruct (virts s !! v) as [x|] eqn:Hv.
  - destruct (virt_allocate_run s v new x n Hv (Hs v x Hv) Hnew Hn) as [[Hf Hsame]|(b & _ & _ & _ & Hrun)].
    + destruct (virt_allocate _ _ _ _ _ _ _ _ s) as [[]]; by try done.
    + rewrite Hrun in Hok |- *. cbn [snd] in Hok. cbn [fst].
      match goal with |- space_ok (snd (_ ?s1)) => set (s2 := s1) in * end.
      apply (safe_bind (virts s2)); [done|apply (on_phys_keeps (λ V', V' = virts s2))| |done]. intros phys.
      assert (virts s2 !! new = Some (MkVirt (b, b + pad_to_align (MkLayout n PAGE_SIZE)) (Some v) [])) as Hn2.
      { cbn. rewrite lookup_insert_ne by congruence. by rewrite lookup_insert_eq. }
      apply safe_then; [|auto with h2o_keeps]. apply virt_map_safe; [done..|].
      eapply finds_room_empty; [exact Hn2|by apply (Hok new)|done].
  - unfold virt_allocate, get_virt in Hok |- *. destruct (check_layout _) as [l|e|]; [|done..].
    rewrite (st_lift_ok (Ok l) _ _ _ eq_refl) in Hok |- *. unfold mbind, st_bind, get in Hok |- *. by rewrite Hv.
Qed.
End spec.

(** ** Theorems *)

Section theorems.
Context `{P : Profile} {T A : Type} `{PA : PageAlloc T} `{PS : PageSource A} `{BS : BlockSource A}.
Context (zero_base root_table : Z) (root : nat) (vdso_flags : Z) (vdso_phys : Phys) (debug_assertions : bool).
Implicit Types (s : vm T A).

Definition random (r : Z) : Prop := 0 ≤ r < 2 ^ 64.

(** The operations on the ranges of a space, for pages wherever there is room.
    New ranges have new identities. *)
Inductive space_step s : vm T A → Prop :=
  | step_allocate r1 r2 v new sz : random r1 → random r2 → 0 ≤ sz → virts s !! new = None →
      space_step s (snd (virt_allocate root_table debug_assertions r1 r2 v new None (page_aligned sz) s))
  | step_map r1 r2 v phys off sz flags : random r1 → random r2 → 0 ≤ sz →
      space_step s (snd (virt_map zero_base root_table root vdso_flags vdso_phys debug_assertions r1 r2
        v None phys off (page_aligned sz) flags s))
  | step_stack r1 r2 v new obj sz : random r1 → random r2 → 0 ≤ sz → virts s !! new = None →
      space_step s (snd (init_stack zero_base root_table root vdso_flags vdso_phys debug_assertions r1 r2 v new obj sz s))
  | step_reprotect v base len flags : space_step s (snd (virt_reprotect root_table vdso_phys v base len flags s))
  | step_unmap v base len drop : space_step s (snd (virt_unmap root_table vdso_phys v base len drop s))
  | step_destroy v : space_step s (snd (virt_destroy root_table vdso_phys v s)).

(** C17: whatever sequence of allocations and mappings of page alignment without a
    fixed offset, stacks, reprotections, removals and destructions is carried out, and
    whatever each of them returns, the children of every range stay in order,
    disjoint, page-aligned and inside the range. (With a fixed offset, or a larger
    alignment, they need not: [overlap_accepted] and [narrow_gap] of SpaceSpec.v.) *)
Theorem space_layout s s' : rtc space_step s s' → space_ok s → space_ok s'.
Proof.
  induction 1 as [|s s1 s2 Hstep _ IH]; [done|]. intros Hs. apply IH. clear IH.
  destruct Hstep as [r1 r2 v new sz H1 H2 Hsz Hn|r1 r2 v phys off sz flags H1 H2 Hsz|r1 r2 v new obj sz H1 H2 Hsz Hn
    | | |].
  - by apply virt_allocate_ok.
  - by apply (virt_map_safe _ _ _ _ _ _ _ _ (virts s)); [..|by apply finds_room_none|].
  - by apply init_stack_ok.
  - by apply (virt_reprotect_safe _ _ (virts s)).
  - by apply (virt_unmap_safe _ _ (virts s)).
  - by apply (virt_destroy_safe _ _ (virts s)).
Qed.

(** [find_alloc] returns exactly the first [2^ASLR_BIT] of the aligned places
    of the range that are apart from its children, each for some random numbers;
    it divides by zero when the block fits nowhere. *)
Theorem find_alloc_places (l : Layout) (bit lo hi : Z) (es : ChildMap) :
  request_ok l bit lo hi es →
  let ps := free_places (size l) bit lo hi es in
  (∀ p, p ∈ ps ↔ lo ≤ p ∧ p + size l ≤ hi ∧ p mod 2 ^ bit = 0 ∧ Forall (apart p (size l)) es) ∧
  (∀ p, p ∈ take (Z.to_nat (2 ^ ASLR_BIT debug_assertions)) ps ↔
     ∃ r1 r2, random r1 ∧ random r2 ∧ find_alloc (E:=errno) debug_assertions r1 r2 es (lo, hi) l = Ok (Some p)) ∧
  (∀ r1 r2, random r1 → random r2 → find_alloc (E:=errno) debug_assertions r1 r2 es (lo, hi) l = Panic ↔ ps = []).
Proof.
  intros Hq ps. split; [|split].
  - intros p. apply free_places_elem; apply Hq.
  - intros p. split.
    + intros (i & Hi)%list_elem_of_lookup_1. apply lookup_take_Some in Hi as [Hi Hlt].
      apply lookup_lt_Some in Hi as Hlen.
      assert (2 ^ ASLR_BIT debug_assertions ≤ 2 ^ 35) by by destruct debug_assertions.
      exists (Z.of_nat i), 0. split; [split; lia|]. split; [done|].
      rewrite (find_alloc_run l bit) by (done || split; lia). fold ps. unfold chosen. fold ps.
      rewrite Z.mod_small, (proj2 (Z.ltb_lt _ _)), Nat2Z.id, Hi by lia. by destruct ps.
    + intros (r1 & r2 & H1 & H2 & Hrun). rewrite (find_alloc_run l bit) in Hrun by done. fold ps in Hrun.
      assert (ps !! Z.to_nat (chosen l bit lo hi es debug_assertions r1 r2) = Some p) as Hl by (destruct ps; congruence).
      apply list_elem_of_lookup. exists (Z.to_nat (chosen l bit lo hi es debug_assertions r1 r2)).
      apply lookup_take_Some. split; [done|]. apply lookup_lt_Some in Hl as Hlt.
      assert (0 < 2 ^ ASLR_BIT debug_assertions) by by destruct debug_assertions.
      pose proof (Z.mod_pos_bound r1 (2 ^ ASLR_BIT debug_assertions)). revert Hlt. unfold chosen. fold ps.
      destruct (Z.ltb_spec (r1 mod 2 ^ ASLR_BIT debug_assertions) (Z.of_nat (length ps))); lia.
  - intros r1 r2 H1 H2. rewrite (find_alloc_run l bit) by done. fold ps. by destruct ps.
Qed.
End theorems.
