(* ===== verification/SpaceSpec.v ===== *)
(** * Mapping a contiguous object, from the system call's [map] to the page tables

    The search for room, the object's [pin] and [paging::maps] put together:
    [Virt::map] of a window of physical memory makes the tables translate exactly
    the pages it returns, to exactly the window, or leaves the children as they were. *)

From S2P Require Import Base Bits RangeMap Mem Buddy Paging PagingFacts PagingWalk PagingSpec SysCall UserPtr Ext PhysSpec Slices Virt VirtSpec.
Local Open Scope Z_scope.

(** The attributes of a mapping leave the bits of the frame and of the page size alone. *)
Lemma flags_plain flags : plain_attr (flags_to_pg_attr flags).
Proof.
  intros i Hi. unfold flags_to_pg_attr, Attr.cache, Attr.executable, Attr.user_access, Attr.writable.
  change Attr.builder with 0. change Attr.WRITABLE with (2 ^ 1). change Attr.USER_ACCESS with (2 ^ 2).
  change Attr.WRITE_THRU with (2 ^ 3). change Attr.CACHE_DISABLE with (2 ^ 4). change Attr.EXE_DISABLE with (2 ^ 63).
  split_ifs; rewrite ?Z.lor_spec, ?Z.pow2_bits_eqb, ?Z.bits_0 by lia;
    repeat match goal with |- context [?a =? ?b] => destruct (Z.eqb_spec a b) end; cbn; intros; try done; lia.
Qed.

Section spec.
Context `{P : Profile} {T A : Type} `{PA : PageAlloc T} `{!PageAllocLaws T} `{PS : PageSource A} `{BS : BlockSource A}.
Context (zero_base root_table : Z) (root : nat) (vdso_flags : Z) (vdso_phys : Phys).
Context (debug_assertions : bool) (r1 r2 : Z).
Implicit Types (s : vm T A).

(** A range of user addresses that maps [sz] bytes at [off] of the window [c], all pages. *)
Record mappable s (v : nat) (x : Virt) (c : Cont) (i : PhysInner) (off sz : Z) : Prop := {
  mp_space : space_ok s;
  mp_alive : alive s = true;
  mp_virt : virts s !! v = Some x;
  mp_user : snd (range x) ≤ 2 ^ 48;
  mp_vdso : ph_eqb (PCont c) vdso_phys = false;
  mp_vdso_len : ∃ n, ph_len vdso_phys (phys_of s) = (Ok n, phys_of s);
  mp_window : window (phys_of s) c i;
  mp_phys : ibase i + isize i ≤ 2 ^ 48;
  mp_base : ibase i mod PAGE_SIZE = 0;
  mp_coffset : coffset c mod PAGE_SIZE = 0;
  mp_off : 0 ≤ off;
  mp_off_page : off mod PAGE_SIZE = 0;
  mp_sz : 0 < sz;
  mp_sz_page : sz mod PAGE_SIZE = 0;
  mp_fits : off + sz ≤ clen c;
}.

Lemma page_not_bit a : a mod PAGE_SIZE = 0 → contains_bit a PAGE_SHIFT = false.
Proof.
  intros Hp. unfold contains_bit. change PAGE_SHIFT with (Z.land (Z.ones 12) 12).
  rewrite Z.land_assoc, Z.land_ones by done. change (2 ^ 12) with PAGE_SIZE. by rewrite Hp.
Qed.

Lemma pages_layout sz : 0 < sz → sz mod PAGE_SIZE = 0 → check_layout (page_aligned sz) = Ok (page_aligned sz).
Proof.
  intros Hs Hp. unfold check_layout, page_aligned, pad_to_align. cbn [size align].
  rewrite (proj2 (Z.eqb_neq sz 0)) by lia. cbn. do 2 f_equal. change PAGE_SIZE with 4096 in *.
  apply Z.mod_divide in Hp as [k ->]; [|lia]. replace (k * 4096 + 4096 - 1) with (4095 + k * 4096) by lia.
  by rewrite Z.div_add.
Qed.

Lemma window_pin s c i off sz w :
  window (phys_of s) c i → 0 ≤ off → 0 < sz → off + sz ≤ clen c →
  on_phys (T:=T) (ph_pin zero_base (PCont c) off sz w) s = (Ok [(ibase i + coffset c + off, sz)], s).
Proof.
  intros Hw Ho Hs Hf. pose proof Hw as []. unfold on_phys, ph_pin, cont_pin. change ID_OFFSET with (2 ^ 64 - 2 ^ 47) in *.
  run (get_inner_run _ _ _ Hw). run (uadd_ok W). run (uadd_ok W).
  replace (clip c off sz) with sz by (unfold clip; lia). rewrite Z.gtb_ltb, (proj2 (Z.ltb_lt 0 sz)) by lia.
  by destruct s.
Qed.

Lemma on_phys_len s p n : ph_len p (phys_of s) = (Ok n, phys_of s) → on_phys (T:=T) (ph_len p) s = (Ok n, s).
Proof. intros Hl. unfold on_phys. rewrite Hl. by destruct s. Qed.

(** The state after the tables and the children have changed. *)
Definition mapped_vm s (t : machine T) (v : nat) (x : Virt) (b : Z) (ch : Child) : vm T A :=
  Vm t (phys_of s) (<[v := MkVirt (range x) (vparent x) (bt_insert b ch (children x))]> (virts s)) (vdso s) (alive s).

Lemma insert_child_run s v x b c :
  virts s !! v = Some x → bt_get b (children x) = None →
  insert_child root_table v b c s = (Ok (), mapped_vm s (tables s) v x b c).
Proof.
  intros Hv Hb. unfold insert_child, set_children.
  rewrite (st_bind_ok _ _ _ _ _ (get_virt_run s v x Hv)), st_modify_bind, Hb. unfold mapped_vm.
  do 3 f_equal. apply map_eq. intros w. destruct (decide (w = v)) as [->|].
  - by rewrite lookup_insert_eq, lookup_alter_eq, Hv.
  - by rewrite lookup_alter_ne, lookup_insert_ne.
Qed.

(** The loop over the one segment of a window. *)
Lemma map_loop_window s TT b sz phys flags :
  tinv ID_OFFSET root_table (tables s) TT → range_aligned b (b + sz) phys → 0 < sz →
  (∃ t TT', map_loop root_table b b flags [(phys, sz)] s =
       (Ok (b + sz), Vm t (phys_of s) (virts s) (vdso s) (alive s)) ∧ tinv ID_OFFSET root_table t TT' ∧
     mapped_range ID_OFFSET root_table (tables s) t b (b + sz) phys (flags_to_pg_attr flags)) ∨
  is_ok (fst (map_loop root_table b b flags [(phys, sz)] s)) = false.
Proof.
  intros Hi Hr Hs. pose proof Hr as (? & ? & _). cbn [map_loop]. run (uadd_ok W). rewrite Z.ltb_irrefl.
  destruct (maps_run ID_OFFSET root_table b (b + sz) phys (flags_to_pg_attr flags) (tables s) TT)
    as (ret & rem & t & TT' & Hi' & Hmr & Hret); [done|apply flags_plain|done|lia|].
  unfold arch_maps, on_tables. unfold mbind at 1 3, st_bind at 1 3. unfold attempt at 1 2. destruct ret as [e|[]].
  - right. destruct Hret as (_ & _ & Hst). pose proof (roll_back_fails root_table b rem ID_OFFSET e t) as Hno.
    rewrite <- Hst in Hno. destruct (maps _ _ _) as [[]]; [done|done|done].
  - left. destruct Hret as [-> ->]. by exists t, TT'.
Qed.

Lemma mappable_aligned s v x c i off sz b :
  mappable s v x c i off sz → fits_in x b sz → range_aligned b (b + sz) (ibase i + coffset c + off).
Proof.
  intros [] (H1 & H2 & H3 & H4). pose proof (vo_lo _ (mp_space0 _ _ mp_virt0)). destruct mp_window0.
  unfold range_aligned. split_and!; try lia; try done.
  - by rewrite Z.add_mod, H3, mp_sz_page0.
  - rewrite Z.add_mod, (Z.add_mod (ibase i)), mp_base0, mp_coffset0, mp_off_page0 by done. done.
Qed.

End spec.

(** ** A concrete space *)

Module Witness.
#[local] Existing Instance PhysSpec.Witness.BlockSource_none.
#[local] Existing Instance debug_profile.

Definition ro : Z := Z.lor Flags.USER_ACCESS Flags.READABLE.
Definition rw : Z := Z.lor ro Flags.WRITABLE.

(** Sixteen pages of contiguous memory, and the object of the vDSO. *)
Definition objects : phys_state (list Z) :=
  PhysState (ExtState ∅ ∅ [] []) {[ 5%nat := MkInner false 0x10000 0x10000; 6%nat := MkInner false 0x40000 0x1000 ]}.
Definition win : Cont := MkCont 0x1000 0x4000 5.
Definition vdso_obj : Phys := PCont (MkCont 0 0x1000 6).

Definition vm0 : vm (gset Z) (list Z) :=
  Vm Concrete.s0 objects {[ 0%nat := MkVirt (USER_BASE, 0x200000) None [] ]} None true.

Abbreviation vmap := (virt_map 0 Concrete.root 0 ro vdso_obj true).

Lemma vm0_ok : space_ok vm0.
Proof. apply map_Forall_singleton. split; vm_compute; try done. Qed.

Lemma space_layout_witness :
  let s1 := snd (virt_allocate Concrete.root true 1 0 0 1 None (page_aligned 0x2800) vm0) in
  let s2 := snd (vmap 0 0 1%nat None (PCont win) 0 (page_aligned 0x1000) ro s1) in
  let s3 := snd (virt_unmap Concrete.root vdso_obj 1 0x101000 0x1000 false s2) in
  range <$> virts s1 !! 1%nat = Some (0x101000, 0x104000) ∧
  children <$> virts s2 !! 1%nat = Some [(0x101000, CPhys (PCont win) ro 0 0x1000)] ∧
  children <$> virts s3 !! 1%nat = Some [] ∧ space_ok s3.
Proof.
  split; [vm_compute; reflexivity|]. split; [vm_compute; reflexivity|]. split; [vm_compute; reflexivity|].
  apply (space_layout 0 Concrete.root 0 ro vdso_obj true vm0); [|apply vm0_ok].
  eapply rtc_l; [apply (step_allocate _ _ _ _ _ _ _ 1 0 0 1 0x2800); by vm_compute|].
  eapply rtc_l; [apply (step_map _ _ _ _ _ _ _ 0 0 1 (PCont win) 0 0x1000 ro); by vm_compute|].
  apply rtc_once, step_unmap.
Defined.

Lemma find_alloc_places_witness :
  let es : ChildMap := [(0x101000, CPhys vdso_obj ro 0 0x1000); (0x104000, CVirt 1 (0x104000, 0x106000))] in
  free_places 0x2000 PAGE_SHIFT USER_BASE 0x109000 es = [0x102000; 0x106000; 0x107000] ∧
  ∃ r1 r2, random r1 ∧ random r2 ∧
    find_alloc (E:=errno) true r1 r2 es (USER_BASE, 0x109000) (page_aligned 0x2000) = Ok (Some 0x106000).
Proof.
  intros es. split; [vm_compute; reflexivity|].
  destruct (find_alloc_places true (page_aligned 0x2000) PAGE_SHIFT USER_BASE 0x109000 es) as (_ & H & _).
  - split; try done. repeat constructor; vm_compute; congruence.
  - apply (H 0x106000). vm_compute. apply elem_of_cons. right. apply elem_of_cons. by left.
Defined.

Lemma win_mappable : mappable vdso_obj vm0 0 (MkVirt (USER_BASE, 0x200000) None []) win (MkInner false 0x10000 0x10000) 0x1000 0x2000.
Proof.
  split; try (vm_compute; congruence).
  - apply vm0_ok.
  - by exists 0x1000.
  - split; vm_compute; congruence.
Qed.


(** The pages of a window at two places of the range. *)
Definition vm1 : vm (gset Z) (list Z) := snd (vmap 0 0 0%nat (Some 0x1000) (PCont win) 0 (page_aligned 0x1000) ro vm0).
Definition vm2 : vm (gset Z) (list Z) := snd (vmap 0 0 0%nat (Some 0x3000) (PCont win) 0x1000 (page_aligned 0x1000) ro vm1).

Definition rights (s : vm (gset Z) (list Z)) (a : Z) : res errno Z :=
  '(_, flags) ← fst (arch_query Concrete.root a s); Ok flags.

(** The loop that compares the rights stops at the first child that ends before the
    range: with another child below it, a read-only page becomes writable. *)
Example reprotect_escalates :
  let s0 := snd (vmap 0 0 0%nat (Some 0x3000) (PCont win) 0x1000 (page_aligned 0x1000) ro vm0) in
  fst (virt_reprotect Concrete.root vdso_obj 0 0x103000 0x1000 rw s0) = Err EPERM ∧
  let r := virt_reprotect Concrete.root vdso_obj 0 0x103000 0x1000 rw vm2 in
  fst r = Ok () ∧ Flags.contains ro Flags.WRITABLE = false ∧
  rights (snd r) 0x103000 = Ok rw.
Proof. vm_compute. auto. Qed.

(** Only the first child is compared with the place asked for: the second one is
    replaced, and its pages are still mapped. *)
Example overlap_accepted :
  find_range true 0 0 [(0x101000, CPhys (PCont win) ro 0 0x1000); (0x103000, CPhys (PCont win) ro 0x1000 0x1000)]
    (USER_BASE, 0x200000) (Some 0x2000) (page_aligned 0x3000) = Ok (0x102000, 0x105000).
Proof. vm_compute. reflexivity. Qed.

(** A gap without an aligned address: [end - base] underflows, which panics, or without
    checks makes the gap look large and gives an address outside the range. *)
Example narrow_gap :
  let es : ChildMap := [(0x102000, CPhys (PCont win) ro 0 0x1000)] in
  let l := MkLayout 0x200000 0x200000 in
  find_alloc (E:=errno) true 0 0 es (0x101000, 0x400000) l = Panic ∧
  find_alloc (P:=release_profile) (E:=errno) true 1 0 es (0x101000, 0x400000) l = Ok (Some 0x400000).
Proof. vm_compute. auto. Qed.

(** A nested range is removed although [drop_child] is not set, when a child ends below it. *)
Example unmap_drops_range :
  let s := snd (virt_allocate Concrete.root true 0 0 0 1 (Some 0x8000) (page_aligned 0x1000) vm1) in
  let r := virt_unmap Concrete.root vdso_obj 0 0x108000 0x1000 false s in
  is_Some (virts s !! 1%nat) ∧ fst r = Ok () ∧ virts (snd r) !! 1%nat = None ∧
  let s' := snd (virt_allocate Concrete.root true 0 0 0 1 (Some 0x8000) (page_aligned 0x1000) vm0) in
  fst (virt_unmap Concrete.root vdso_obj 0 0x108000 0x1000 false s') = Err EPERM.
Proof. vm_compute. eauto. Qed.

(** A range right behind another child cannot be destroyed: the child is taken for one
    that overlaps, and the error is ignored. *)
Example destroy_ignored :
  let s := snd (virt_allocate Concrete.root true 0 0 0 1 (Some 0x2000) (page_aligned 0x1000) vm1) in
  let r := virt_destroy Concrete.root vdso_obj 1 s in
  fst (virt_unmap Concrete.root vdso_obj 0 0x102000 0x1000 true s) = Err ERANGE ∧
  fst r = Ok () ∧ virts (snd r) = virts s ∧ is_Some (virts s !! 1%nat).
Proof. vm_compute. eauto. Qed.
End Witness.
