(* ===== verification/Rpc.v ===== *)
(** * Packets of remote procedure calls ([lib/h2o_rpc/core/src/packet.rs] and
      [lib/h2o_rs/src/ipc/packet.rs])

    A value is sent as bytes and handles. [SerdePacket] is the trait, with an
    instance for every type the crate implements it for. Integers are records
    over [Z], floating point numbers their bit patterns, [NonNull<u8>] an address.
    The texts of errors are not modelled. *)

From stdpp Require Import vector.
From S2P Require Import Base Mem SysCall.
Local Open Scope Z_scope.
Local Open Scope h2o_scope.

Definition MAGIC : Z := 0xac84fb7c0391.

Record packet := MkPacket { pid : option Z; buffer : list Z; phandles : list Handle }.
Definition packet_clear (p : packet) : packet := MkPacket None [] [].

Inductive rerror :=
  | BufferTooShort (found expected_at_least : Z)
  | TypeMismatch
  | InvalidMagic (m : Z)
  | InvalidMethod (expected found : Z).

Record Deserializer := MkDe { dbuffer : list Z; dhandles : list Handle }.

Abbreviation ser_m := (st packet rerror).
Abbreviation de_m := (st Deserializer rerror).

(** ** The serializer and the deserializer *)

Definition extend_from_slice (bs : list Z) : ser_m () :=
  modify (λ p, MkPacket (pid p) (buffer p ++ bs) (phandles p)).
Definition extend_handle (h : Handle) : ser_m () :=
  modify (λ p, MkPacket (pid p) (buffer p) (phandles p ++ [h])).

Definition de_new (p : packet) : Deserializer := MkDe (buffer p) (phandles p).
Definition de_is_empty (d : Deserializer) : bool :=
  bool_decide (dbuffer d = []) && bool_decide (dhandles d = []).

Definition check_len {T} (l : list T) (len : Z) : res rerror () :=
  if len <=? Z.of_nat (length l) then Ok () else Err (BufferTooShort (Z.of_nat (length l)) len).
Definition check_buffer (d : Deserializer) (len : Z) : res rerror () := check_len (dbuffer d) len.
Definition check_handles (d : Deserializer) (len : Z) : res rerror () := check_len (dhandles d) len.

Definition next_buffer (len : Z) : de_m (list Z) :=
  d ← get;
  _ ← lift (check_buffer d len);
  _ ← put (MkDe (drop (Z.to_nat len) (dbuffer d)) (dhandles d));
  mret (take (Z.to_nat len) (dbuffer d)).

Definition next_handle : de_m Handle :=
  d ← get;
  _ ← lift (check_handles d 1);
  match dhandles d with
  | h :: hs => _ ← put (MkDe (dbuffer d) hs); mret h
  | [] => lift Panic
  end.

(** ** The trait *)

Class SerdePacket (T : Type) := {
  serialize : T → ser_m ();
  deserialize : de_m T;
}.

Definition deserialize_unchecked {T} `{SerdePacket T} : de_m T := λ d,
  match deserialize d with
  | (Err (BufferTooShort _ _), d') => (Panic, d')
  | r => r
  end.

#[export] Instance SerdePacket_unit : SerdePacket () := { serialize _ := mret (); deserialize := mret () }.

#[export] Instance SerdePacket_bool : SerdePacket bool := {
  serialize b := extend_from_slice [if b : bool then 1 else 0];
  deserialize :=
    bs ← next_buffer 1;
    match bs with
    | [0] => mret false
    | [1] => mret true
    | [_] => lift (Err TypeMismatch)
    | _ => lift Panic
    end;
}.

(** [u8] to [u128] and [usize]; [f32] and [f64] are sent as their bits. *)
#[export] Instance SerdePacket_uint w : SerdePacket (uint w) := {
  serialize v := extend_from_slice (to_le (Z.to_nat (w / 8)) (uval v));
  deserialize := bs ← next_buffer (w / 8); mret (Uint (from_le bs));
}.

(** [i8] to [i128] and [isize]. *)
Record sint (w : Z) := Sint { sval : Z }.
Arguments Sint {w} _.
Arguments sval {w} _.
#[export] Instance SerdePacket_sint w : SerdePacket (sint w) := {
  serialize v := extend_from_slice (to_le (Z.to_nat (w / 8)) (wrap w (sval v)));
  deserialize :=
    bs ← next_buffer (w / 8);
    let v := from_le bs in
    mret (Sint (if v <? 2 ^ (w - 1) then v else v - 2 ^ w));
}.

Abbreviation usize := (uint 64).

(** ** Composite types *)

Section composite.
Context {T : Type} `{ST : SerdePacket T}.

Fixpoint serialize_all (l : list T) : ser_m () :=
  match l with
  | [] => mret ()
  | x :: l => _ ← serialize x; serialize_all l
  end.

Fixpoint deserialize_all (n : nat) : de_m (list T) :=
  match n with
  | O => mret []
  | S n => x ← deserialize; l ← deserialize_all n; mret (x :: l)
  end.

(** [[T; N]]. *)
Fixpoint deserialize_array (n : nat) : de_m (vec T n) :=
  match n with
  | O => mret vnil
  | S n => x ← deserialize; v ← deserialize_array n; mret (vcons x v)
  end.

#[export] Instance SerdePacket_array n : SerdePacket (vec T n) := {
  serialize v := serialize_all (vec_to_list v);
  deserialize := deserialize_array n;
}.

#[export] Instance SerdePacket_vec : SerdePacket (list T) := {
  serialize l := _ ← serialize (Uint (Z.of_nat (length l)) : usize); serialize_all l;
  deserialize := len ← (deserialize : de_m usize); deserialize_all (Z.to_nat (uval len));
}.

#[export] Instance SerdePacket_option_vec : SerdePacket (option (list T)) := {
  serialize o := serialize (default [] o);
  deserialize := l ← deserialize; mret (match l with [] => None | _ => Some l end);
}.

(** [Box<T>]. *)
Record Box := MkBox { unbox : T }.
#[export] Instance SerdePacket_Box : SerdePacket Box :=
  { serialize b := serialize (unbox b); deserialize := x ← deserialize; mret (MkBox x) }.
End composite.

(** Tuples of two; longer ones send the same as nested pairs. *)
#[export] Instance SerdePacket_pair {A B} `{SerdePacket A, SerdePacket B} : SerdePacket (A * B) := {
  serialize p := _ ← serialize (fst p); serialize (snd p);
  deserialize := a ← deserialize; b ← deserialize; mret (a, b);
}.

(** [Result<T, E>]. *)
#[export] Instance SerdePacket_result {E T} `{SerdePacket E, SerdePacket T} : SerdePacket (E + T) := {
  serialize r :=
    match r with
    | inr t => _ ← serialize (Uint 0 : uint 8); serialize t
    | inl e => _ ← serialize (Uint 1 : uint 8); serialize e
    end;
  deserialize :=
    index ← (deserialize : de_m (uint 8));
    if uval index =? 0 then t ← deserialize; mret (inr t)
    else if uval index =? 1 then e ← deserialize; mret (inl e)
    else lift (Err TypeMismatch);
}.

Record NonNull := MkNonNull { nn_addr : Z }.
#[export] Instance SerdePacket_NonNull : SerdePacket NonNull := {
  serialize p := serialize (Uint (nn_addr p) : usize);
  deserialize :=
    value ← (deserialize : de_m usize);
    if uval value =? 0 then lift (Err TypeMismatch) else mret (MkNonNull (uval value));
}.

(** ** Text *)

(** [core::str::from_utf8] accepts exactly the well-formed sequences. *)
Definition between (lo hi b : Z) : bool := (lo <=? b) && (b <=? hi).
Definition continuation : Z → bool := between 0x80 0xBF.
Definition second_of_three (b c : Z) : bool :=
  if b =? 0xE0 then between 0xA0 0xBF c else if b =? 0xED then between 0x80 0x9F c else continuation c.
Definition second_of_four (b c : Z) : bool :=
  if b =? 0xF0 then between 0x90 0xBF c else if b =? 0xF4 then between 0x80 0x8F c else continuation c.

Fixpoint is_utf8 (l : list Z) : bool :=
  match l with
  | [] => true
  | b :: l =>
      if b <? 0x80 then is_utf8 l
      else match l with
           | [] => false
           | c1 :: l1 =>
               if between 0xC2 0xDF b then continuation c1 && is_utf8 l1
               else match l1 with
                    | [] => false
                    | c2 :: l2 =>
                        if between 0xE0 0xEF b then second_of_three b c1 && continuation c2 && is_utf8 l2
                        else match l2 with
                             | [] => false
                             | c3 :: l3 =>
                                 between 0xF0 0xF4 b && second_of_four b c1 && continuation c2
                                 && continuation c3 && is_utf8 l3
                             end
                    end
           end
  end.

Definition bytes_of (l : list Z) : list (uint 8) := Uint <$> l.
Definition of_bytes (l : list (uint 8)) : list Z := uval <$> l.

Record Str := MkStr { sbytes : list Z }.
#[export] Instance SerdePacket_Str : SerdePacket Str := {
  serialize s := serialize (bytes_of (sbytes s));
  deserialize :=
    l ← (deserialize : de_m (list (uint 8)));
    if is_utf8 (of_bytes l) then mret (MkStr (of_bytes l)) else lift (Err TypeMismatch);
}.

#[export] Instance SerdePacket_option_Str : SerdePacket (option Str) := {
  serialize o := serialize (default (MkStr []) o);
  deserialize := s ← deserialize; mret (if bool_decide (sbytes s = []) then None else Some s);
}.

(** [CString]: its bytes without the terminator. *)
Record CStr := MkCStr { cbytes : list Z }.

(** [CString::from_vec_with_nul]: the only zero is the last byte. *)
Fixpoint from_vec_with_nul (l : list Z) : option (list Z) :=
  match l with
  | [] => None
  | b :: l =>
      if b =? 0 then match l with [] => Some [] | _ => None end
      else bs ← from_vec_with_nul l; Some (b :: bs)
  end.

#[export] Instance SerdePacket_CStr : SerdePacket CStr := {
  serialize s := serialize (bytes_of (cbytes s ++ [0]));
  deserialize :=
    l ← (deserialize : de_m (list (uint 8)));
    match from_vec_with_nul (of_bytes l) with
    | Some bs => mret (MkCStr bs)
    | None => lift (Err TypeMismatch)
    end;
}.

#[export] Instance SerdePacket_option_CStr : SerdePacket (option CStr) := {
  serialize o := serialize (default (MkCStr []) o);
  deserialize := s ← deserialize; mret (if bool_decide (cbytes s = []) then None else Some s);
}.

(** ** Ordered maps *)

(** [Ord]. *)
Class Ord (K : Type) := cmp : K → K → comparison.

Section btree_map.
Context {K V : Type} `{OK : Ord K}.

(** [BTreeMap]: the bindings by increasing key. *)
Record BTreeMap := MkMap { bindings : list (K * V) }.

Fixpoint map_insert (k : K) (v : V) (m : list (K * V)) : list (K * V) :=
  match m with
  | [] => [(k, v)]
  | (k', v') :: m' =>
      match cmp k k' with
      | Lt => (k, v) :: m
      | Eq => (k, v) :: m'
      | Gt => (k', v') :: map_insert k v m'
      end
  end.

(** [FromIterator]: the last binding of a key wins. *)
Definition from_iter (l : list (K * V)) : BTreeMap :=
  MkMap (fold_left (λ m kv, map_insert (fst kv) (snd kv) m) l []).

#[export] Instance SerdePacket_BTreeMap `{SerdePacket K, SerdePacket V} : SerdePacket BTreeMap := {
  serialize m := _ ← serialize (Uint (Z.of_nat (length (bindings m))) : usize); serialize_all (bindings m);
  deserialize :=
    len ← (deserialize : de_m usize);
    l ← deserialize_all (Z.to_nat (uval len));
    mret (from_iter l);
}.
End btree_map.
Arguments BTreeMap : clear implicits.

(** ** Errors, handles and objects *)

#[export] Instance SerdePacket_errno `{P : Profile} : SerdePacket errno := {
  serialize e := serialize (Uint (into_retval e) : usize);
  deserialize :=
    retval ← (deserialize : de_m usize);
    match try_from_retval (uval retval) with
    | Ok (Some e) => mret e
    | Ok None => lift (Err TypeMismatch)
    | _ => lift Panic
    end;
}.

#[export] Instance SerdePacket_Handle : SerdePacket Handle :=
  { serialize h := extend_handle h; deserialize := next_handle }.

#[export] Instance SerdePacket_option_Handle : SerdePacket (option Handle) := {
  serialize o := serialize (default HANDLE_NULL o);
  deserialize := h ← deserialize; mret (match check_null h with Ok h => Some h | _ => None end);
}.

(** An object of the type with the identifier [id], owned through its handle. *)
Record Obj (id : Z) := MkObj { oraw : Handle }.
Arguments MkObj {id} _.
Arguments oraw {id} _.

#[export] Instance SerdePacket_Obj id : SerdePacket (Obj id) := {
  serialize o := _ ← serialize (Uint id : usize); extend_handle (oraw o);
  deserialize :=
    i ← (deserialize : de_m usize);
    if negb (uval i =? id) then lift (Err TypeMismatch)
    else h ← next_handle; mret (MkObj h);
}.

#[export] Instance SerdePacket_option_Obj id : SerdePacket (option (Obj id)) := {
  serialize o := serialize (oraw <$> o);
  deserialize :=
    i ← (deserialize : de_m usize);
    if negb (uval i =? id) then lift (Err TypeMismatch)
    else h ← (deserialize : de_m (option Handle)); mret (MkObj <$> h);
}.

(** ** Packets *)

Definition serialize_packet {T} `{SerdePacket T} (method_id : Z) (data : T) : ser_m () :=
  _ ← modify packet_clear;
  _ ← serialize (Uint MAGIC : usize);
  _ ← serialize (Uint method_id : usize);
  serialize data.

Definition read_metadata : de_m Z :=
  magic ← (deserialize : de_m usize);
  if negb (uval magic =? MAGIC) then lift (Err (InvalidMagic (uval magic)))
  else m ← (deserialize : de_m usize); mret (uval m).

Definition deserialize_metadata (input : packet) : res rerror (Z * Deserializer) :=
  match read_metadata (de_new input) with
  | (Ok m, de) => Ok (m, de)
  | (Err e, _) => Err e
  | (Panic, _) => Panic
  end.

(** The data, and the numbers of bytes and handles that are left. *)
Definition deserialize_body {T} `{SerdePacket T} (de : Deserializer) : res rerror (T * (Z * Z)) :=
  match deserialize de with
  | (Ok data, de) => Ok (data, (Z.of_nat (length (dbuffer de)), Z.of_nat (length (dhandles de))))
  | (Err e, _) => Err e
  | (Panic, _) => Panic
  end.

Definition deserialize_packet {T} `{SerdePacket T} (method_id : Z) (input : packet) : res rerror (T * (Z * Z)) :=
  '(m, de) ← deserialize_metadata input;
  if negb (m =? method_id) then Err (InvalidMethod method_id m) else deserialize_body de.
