(* ===== verification/RpcSpec.v ===== *)
(** * What the instances of [SerdePacket] promise

    [SerdeLaws] states it for one type: the bytes and handles a value is sent as,
    that reading them gives the value back and leaves the rest, and that reading
    anything else only consumes a prefix and gives values of the type. It holds of
    every instance but the one for optional objects, and so of all types that are
    built from them ([ty]). *)

From Stdlib Require Import Sorted.
From stdpp Require Import vector.
From S2P Require Import Base Mem SysCall Rpc.
Local Open Scope Z_scope.

(** ** Reading untrusted packets *)

Section reads.
Context `{P : Profile}.

(** What is left is a suffix, a value satisfies [Q], and only overflow checks panic. *)
Definition reads {A} (Q : A → Prop) (m : de_m A) : Prop := ∀ d, Forall is_byte (dbuffer d) →
  let '(r, d') := m d in
  (∃ pb, dbuffer d = pb ++ dbuffer d') ∧ (∃ ph, dhandles d = ph ++ dhandles d') ∧
  match r with Ok x => Q x | Err _ => True | Panic => overflow_checks = true end.

Lemma reads_ret {A} (Q : A → Prop) x : Q x → reads Q (mret x).
Proof. intros Hx d _. cbn. split; [by exists []|]. split; [by exists []|done]. Qed.

Lemma reads_err {A} (Q : A → Prop) e : reads Q (lift (Err e)).
Proof. intros d _. cbn. split; [by exists []|]. split; [by exists []|done]. Qed.

Lemma reads_bind {A B} (Q : A → Prop) (R : B → Prop) (m : de_m A) (k : A → de_m B) :
  reads Q m → (∀ x, Q x → reads R (k x)) → reads R (m ≫= k).
Proof.
  intros Hm Hk d Hd. specialize (Hm d Hd). unfold mbind, st_bind. destruct (m d) as [r d1].
  destruct Hm as ([pb Hpb] & [ph Hph] & Hr). destruct r as [x|e|]; [|by eauto..].
  assert (Forall is_byte (dbuffer d1)) as Hd1 by (rewrite Hpb in Hd; by apply Forall_app in Hd as [_ ?]).
  specialize (Hk x Hr d1 Hd1). destruct (k x d1) as [r2 d2]. destruct Hk as ([pb2 Hpb2] & [ph2 Hph2] & Hr2).
  split; [|split; [|done]].
  - exists (pb ++ pb2). by rewrite <- app_assoc, <- Hpb2.
  - exists (ph ++ ph2). by rewrite <- app_assoc, <- Hph2.
Qed.

Lemma reads_next_buffer n :
  reads (λ bs, Forall is_byte bs ∧ length bs = Z.to_nat n) (next_buffer n).
Proof.
  intros d Hd. unfold next_buffer. rewrite st_get_bind. unfold check_buffer, check_len.
  destruct (Z.leb_spec n (Z.of_nat (length (dbuffer d)))) as [Hle|Hlt]; cbn.
  - split; [exists (take (Z.to_nat n) (dbuffer d)); symmetry; apply take_drop|]. split; [by exists []|].
    split; [by apply Forall_take|]. rewrite length_take. lia.
  - split; [by exists []|]. split; [by exists []|done].
Qed.

Lemma reads_next_handle : reads (λ _, True) next_handle.
Proof.
  intros [b h] Hd. unfold next_handle. rewrite st_get_bind. unfold check_handles, check_len. cbn [dhandles].
  destruct h as [|x h]; cbn.
  - split; [by exists []|]. split; [by exists []|done].
  - rewrite (proj2 (Z.leb_le _ _)) by lia. cbn. split; [by exists []|]. split; [by exists [x]|done].
Qed.
End reads.
Create HintDb h2o_reads.
#[export] Hint Resolve reads_ret reads_err reads_next_handle : h2o_reads.

(** ** The laws *)

Class SerdeLaws `{P : Profile} (T : Type) `{ST : SerdePacket T} := {
  canonical : T → Prop;
  enc : T → list Z;
  hnd : T → list Handle;
  ser_run x p : canonical x →
    serialize x p = (Ok (), MkPacket (pid p) (buffer p ++ enc x) (phandles p ++ hnd x));
  de_run x b h : canonical x → deserialize (MkDe (enc x ++ b) (hnd x ++ h)) = (Ok x, MkDe b h);
  de_reads : reads canonical deserialize;
}.

(** The widths of the integers. *)
Class Width (w : Z) (n : nat) : Prop := { width : w = 8 * Z.of_nat n; width_pos : 0 < w }.
#[export] Instance Width_8 : Width 8 1.
Proof. by split. Qed.
#[export] Instance Width_16 : Width 16 2.
Proof. by split. Qed.
#[export] Instance Width_32 : Width 32 4.
Proof. by split. Qed.
#[export] Instance Width_64 : Width 64 8.
Proof. by split. Qed.
#[export] Instance Width_128 : Width 128 16.
Proof. by split. Qed.

Section widths.
Context {w : Z} {n : nat} {Hw : Width w n}.
Lemma width_bytes : w / 8 = Z.of_nat n.
Proof. rewrite (width (w:=w)), Z.mul_comm. by rewrite Z.div_mul. Qed.
Lemma width_pow : 2 ^ w = 256 ^ Z.of_nat n.
Proof. rewrite (width (w:=w)), Z.pow_mul_r by lia. done. Qed.
End widths.

Lemma next_buffer_app bs b h :
  next_buffer (Z.of_nat (length bs)) (MkDe (bs ++ b) h) = (Ok bs, MkDe b h).
Proof.
  unfold next_buffer. rewrite st_get_bind. unfold check_buffer, check_len. cbn [dbuffer].
  rewrite (proj2 (Z.leb_le _ _)) by (rewrite length_app; lia). cbn.
  by rewrite Nat2Z.id, take_app_length, drop_app_length.
Qed.

(** ** Instances *)

Section instances.
Context `{P : Profile}.

#[export] Program Instance SerdeLaws_unit : SerdeLaws () :=
  { canonical _ := True; enc _ := []; hnd _ := [] }.
Next Obligation. intros [] [] _. cbn. by rewrite !app_nil_r. Qed.
Next Obligation. by intros [] b h _. Qed.
Next Obligation. by apply reads_ret. Qed.

#[export] Program Instance SerdeLaws_bool : SerdeLaws bool :=
  { canonical _ := True; enc b := [if b : bool then 1 else 0]; hnd _ := [] }.
Next Obligation. intros b [] _. cbn. by rewrite app_nil_r. Qed.
Next Obligation. intros [] b h _; exact (st_bind_ok _ _ _ _ _ (next_buffer_app [_] b h)). Qed.
Next Obligation.
  eapply reads_bind; [apply reads_next_buffer|]. intros [|[|[| |]|] [|]] [_ Hl]; try done; auto with h2o_reads.
Qed.

#[export] Program Instance SerdeLaws_uint w n `{Hw : !Width w n} : SerdeLaws (uint w) :=
  { canonical v := 0 ≤ uval v < 2 ^ w; enc v := to_le n (uval v); hnd _ := [] }.
Next Obligation. intros w n Hw v p _. cbn. by rewrite width_bytes, Nat2Z.id, app_nil_r. Qed.
Next Obligation.
  intros w n Hw [v] b h Hv. cbn [uval] in *. cbn [deserialize SerdePacket_uint].
  rewrite width_bytes, <- (to_le_length n v) at 1. rewrite (st_bind_ok _ _ _ _ _ (next_buffer_app _ _ _)).
  cbn. rewrite from_to_le; [done|]. by rewrite <- width_pow.
Qed.
Next Obligation.
  intros w n Hw. eapply reads_bind; [apply reads_next_buffer|]. intros bs [Hbs Hl]. apply reads_ret. cbn [uval].
  rewrite width_pow. replace n with (length bs); [by apply from_le_bound|].
  by rewrite Hl, width_bytes, Nat2Z.id.
Qed.

#[export] Program Instance SerdeLaws_sint w n `{Hw : !Width w n} : SerdeLaws (sint w) :=
  { canonical v := - 2 ^ (w - 1) ≤ sval v < 2 ^ (w - 1); enc v := to_le n (wrap w (sval v)); hnd _ := [] }.
Next Obligation. intros w n Hw v p _. cbn. by rewrite width_bytes, Nat2Z.id, app_nil_r. Qed.
Next Obligation.
  intros w n Hw [v] b h Hv. cbn [sval] in *. pose proof (width_pos (Width:=Hw)). cbn [deserialize SerdePacket_sint].
  assert (2 ^ w = 2 * 2 ^ (w - 1)) as Hp by (rewrite <- Z.pow_succ_r by lia; f_equal; lia).
  rewrite width_bytes, <- (to_le_length n (wrap w v)) at 1. rewrite (st_bind_ok _ _ _ _ _ (next_buffer_app _ _ _)).
  cbn. pose proof (wrap_bound w v ltac:(lia)). rewrite from_to_le by by rewrite <- width_pow.
  unfold wrap. destruct (Z.neg_nonneg_cases v) as [Hn|Hn].
  - replace (v mod 2 ^ w) with (v + 2 ^ w) by (apply Z.mod_unique with (-1); lia).
    rewrite (proj2 (Z.ltb_ge _ _)) by lia. by rewrite Z.add_simpl_r.
  - rewrite Z.mod_small, (proj2 (Z.ltb_lt _ _)) by lia. done.
Qed.
Next Obligation.
  intros w n Hw. eapply reads_bind; [apply reads_next_buffer|]. intros bs [Hbs Hl]. apply reads_ret. cbn [sval].
  pose proof (from_le_bound bs Hbs) as Hb. rewrite Hl, width_bytes, Nat2Z.id, <- width_pow in Hb.
  pose proof (width_pos (Width:=Hw)).
  assert (2 ^ w = 2 * 2 ^ (w - 1)) as Hp by (rewrite <- Z.pow_succ_r by lia; f_equal; lia).
  destruct (Z.ltb_spec (from_le bs) (2 ^ (w - 1))); lia.
Qed.
End instances.

Section lists.
Context `{P : Profile} {T : Type} `{ST : SerdePacket T} `{!SerdeLaws T}.

Definition encs (l : list T) : list Z := mjoin (enc <$> l).
Definition hnds (l : list T) : list Handle := mjoin (hnd <$> l).

Lemma serialize_all_run l p : Forall canonical l →
  serialize_all l p = (Ok (), MkPacket (pid p) (buffer p ++ encs l) (phandles p ++ hnds l)).
Proof.
  intros Hl. revert p. induction Hl as [|x l Hx Hl IH]; intros [i b h]; cbn [serialize_all].
  - unfold encs, hnds. cbn. by rewrite !app_nil_r.
  - rewrite (st_bind_ok _ _ _ _ _ (ser_run x _ Hx)), IH. cbn. unfold encs, hnds. cbn. by rewrite <- !app_assoc.
Qed.

Lemma deserialize_all_run l b h : Forall canonical l →
  deserialize_all (length l) (MkDe (encs l ++ b) (hnds l ++ h)) = (Ok l, MkDe b h).
Proof.
  intros Hl. revert b h. induction Hl as [|x l Hx Hl IH]; intros b h; cbn [deserialize_all length]; [done|].
  unfold encs, hnds. cbn. rewrite <- !app_assoc, (st_bind_ok _ _ _ _ _ (de_run x _ _ Hx)).
  by rewrite (st_bind_ok _ _ _ _ _ (IH b h)).
Qed.

Lemma deserialize_all_reads n : reads (λ l, Forall canonical l ∧ length l = n) (deserialize_all (T:=T) n).
Proof.
  induction n as [|n IH]; cbn [deserialize_all]; [by apply reads_ret|].
  eapply reads_bind; [apply de_reads|]. intros x Hx.
  eapply reads_bind; [apply IH|]. intros l [Hl <-]. apply reads_ret. split; [by constructor|done].
Qed.

(** The number of elements comes first. *)
Definition enc_len (n : nat) : list Z := to_le 8 (Z.of_nat n).

Lemma de_len n b h : Z.of_nat n < 2 ^ 64 →
  (deserialize : de_m usize) (MkDe (enc_len n ++ b) h) = (Ok (Uint (Z.of_nat n)), MkDe b h).
Proof. intros Hn. exact (de_run (Uint (Z.of_nat n) : usize) b h (conj (Nat2Z.is_nonneg n) Hn)). Qed.

Lemma ser_len n p : Z.of_nat n < 2 ^ 64 →
  serialize (Uint (Z.of_nat n) : usize) p = (Ok (), MkPacket (pid p) (buffer p ++ enc_len n) (phandles p)).
Proof.
  intros Hn. rewrite <- (app_nil_r (phandles p)).
  exact (ser_run (Uint (Z.of_nat n) : usize) p (conj (Nat2Z.is_nonneg n) Hn)).
Qed.

#[export] Program Instance SerdeLaws_vec : SerdeLaws (list T) := {
  canonical l := Forall canonical l ∧ Z.of_nat (length l) < 2 ^ 64;
  enc l := enc_len (length l) ++ encs l;
  hnd l := hnds l;
}.
Next Obligation.
  intros l p [Hl Hn]. cbn [serialize SerdePacket_vec].
  rewrite (st_bind_ok _ _ _ _ _ (ser_len _ p Hn)), serialize_all_run by done. cbn [pid buffer phandles]. by rewrite app_assoc.
Qed.
Next Obligation.
  intros l b h [Hl Hn]. cbn [deserialize SerdePacket_vec]. rewrite <- app_assoc.
  rewrite (st_bind_ok _ _ _ _ _ (de_len _ _ _ Hn)). cbn [uval]. rewrite Nat2Z.id. by apply deserialize_all_run.
Qed.
Next Obligation.
  eapply reads_bind; [apply (de_reads (T:=usize))|]. intros [n] Hn. cbn in Hn. cbn [uval].
  intros d Hd. pose proof (deserialize_all_reads (Z.to_nat n) d Hd) as H. destruct (deserialize_all _ d) as [r d'].
  destruct H as (H1 & H2 & H3). split; [done|]. split; [done|]. destruct r; [|done..]. split; [by apply H3|]. lia.
Qed.

(** [Some(vec![])] is not sent as such. *)
#[export] Program Instance SerdeLaws_option_vec : SerdeLaws (option (list T)) := {
  canonical o := canonical (default [] o) ∧ o ≠ Some [];
  enc o := enc (default [] o);
  hnd o := hnd (default [] o);
}.
Next Obligation. intros o p [Ho _]. by apply (ser_run (default [] o)). Qed.
Next Obligation.
  intros o b h [Ho Hne]. cbn [deserialize SerdePacket_option_vec].
  rewrite (st_bind_ok _ _ _ _ _ (de_run (default [] o) b h Ho)). by destruct o as [[|]|].
Qed.
Next Obligation.
  eapply reads_bind; [apply (de_reads (T:=list T))|]. intros [|x l] Hl; by apply reads_ret.
Qed.
End lists.

Section composite.
Context `{P : Profile} {T : Type} `{ST : SerdePacket T} `{!SerdeLaws T}.

#[export] Program Instance SerdeLaws_array n : SerdeLaws (vec T n) := {
  canonical v := Forall canonical (vec_to_list v);
  enc v := encs (vec_to_list v);
  hnd v := hnds (vec_to_list v);
}.
Next Obligation. intros n v p Hv. by apply serialize_all_run. Qed.
Next Obligation.
  intros n v b h. revert b h. induction v as [|x n v IH]; intros b h Hv; cbn [deserialize SerdePacket_array deserialize_array]; [done|].
  apply Forall_cons in Hv as [Hx Hv]. unfold encs, hnds. cbn. rewrite <- !app_assoc.
  by rewrite (st_bind_ok _ _ _ _ _ (de_run x _ _ Hx)), (st_bind_ok _ _ _ _ _ (IH b h Hv)).
Qed.
Next Obligation.
  intros n. cbn [deserialize SerdePacket_array]. induction n as [|n IH]; cbn [deserialize_array]; [by apply reads_ret|].
  eapply reads_bind; [apply de_reads|]. intros x Hx. eapply reads_bind; [apply IH|]. intros v Hv.
  apply reads_ret. by constructor.
Qed.

#[export] Program Instance SerdeLaws_Box : SerdeLaws (Box (T:=T)) :=
  { canonical b := canonical (unbox b); enc b := enc (unbox b); hnd b := hnd (unbox b) }.
Next Obligation. intros x p Hx. by apply (ser_run (unbox x)). Qed.
Next Obligation.
  intros [x] b h Hx. cbn [deserialize SerdePacket_Box]. by rewrite (st_bind_ok _ _ _ _ _ (de_run x b h Hx)).
Qed.
Next Obligation. eapply reads_bind; [apply de_reads|]. intros x Hx. by apply reads_ret. Qed.

Context {U : Type} `{SU : SerdePacket U} `{!SerdeLaws U}.

#[export] Program Instance SerdeLaws_pair : SerdeLaws (T * U) := {
  canonical p := canonical (fst p) ∧ canonical (snd p);
  enc p := enc (fst p) ++ enc (snd p);
  hnd p := hnd (fst p) ++ hnd (snd p);
}.
Next Obligation.
  intros [t u] p [Ht Hu]. cbn [serialize SerdePacket_pair fst snd] in *.
  rewrite (st_bind_ok _ _ _ _ _ (ser_run t p Ht)), (ser_run u _ Hu). cbn [pid buffer phandles]. by rewrite !app_assoc.
Qed.
Next Obligation.
  intros [t u] b h [Ht Hu]. cbn [deserialize SerdePacket_pair fst snd] in *. rewrite <- !app_assoc.
  by rewrite (st_bind_ok _ _ _ _ _ (de_run t _ _ Ht)), (st_bind_ok _ _ _ _ _ (de_run u b h Hu)).
Qed.
Next Obligation.
  eapply reads_bind; [apply de_reads|]. intros t Ht. eapply reads_bind; [apply de_reads|]. intros u Hu. by apply reads_ret.
Qed.

Lemma ser_tag i p : 0 ≤ i < 256 →
  serialize (Uint i : uint 8) p = (Ok (), MkPacket (pid p) (buffer p ++ [i]) (phandles p)).
Proof.
  intros Hi. pose proof (ser_run (Uint i : uint 8) p Hi) as H. cbn [enc hnd SerdeLaws_uint to_le uval] in H.
  by rewrite Z.mod_small, app_nil_r in H.
Qed.

Lemma de_tag i b h : 0 ≤ i < 256 →
  (deserialize : de_m (uint 8)) (MkDe (i :: b) h) = (Ok (Uint i), MkDe b h).
Proof.
  intros Hi. pose proof (de_run (Uint i : uint 8) b h Hi) as H. cbn [enc hnd SerdeLaws_uint to_le uval app] in H.
  by rewrite Z.mod_small in H.
Qed.

Definition tag_of (r : U + T) : Z := match r with inr _ => 0 | inl _ => 1 end.

#[export] Program Instance SerdeLaws_result : SerdeLaws (U + T) := {
  canonical r := match r with inr t => canonical t | inl u => canonical u end;
  enc r := tag_of r :: match r with inr t => enc t | inl u => enc u end;
  hnd r := match r with inr t => hnd t | inl u => hnd u end;
}.
Next Obligation.
  intros [u|t] p Hr; cbn [serialize SerdePacket_result].
  - rewrite (st_bind_ok _ _ _ _ _ (ser_tag 1 p ltac:(done))), (ser_run u _ Hr). cbn. by rewrite <- app_assoc.
  - rewrite (st_bind_ok _ _ _ _ _ (ser_tag 0 p ltac:(done))), (ser_run t _ Hr). cbn. by rewrite <- app_assoc.
Qed.
Next Obligation.
  intros [u|t] b h Hr; cbn [deserialize SerdePacket_result tag_of app].
  - rewrite (st_bind_ok _ _ _ _ _ (de_tag 1 _ _ ltac:(done))). cbn [uval]. cbn [Z.eqb Pos.eqb].
    by rewrite (st_bind_ok _ _ _ _ _ (de_run u b h Hr)).
  - rewrite (st_bind_ok _ _ _ _ _ (de_tag 0 _ _ ltac:(done))). cbn [uval]. cbn [Z.eqb].
    by rewrite (st_bind_ok _ _ _ _ _ (de_run t b h Hr)).
Qed.
Next Obligation.
  eapply reads_bind; [apply (de_reads (T:=uint 8))|]. intros i _. destruct (uval i =? 0); [|destruct (uval i =? 1)].
  - eapply reads_bind; [apply de_reads|]. intros t Ht. by apply reads_ret.
  - eapply reads_bind; [apply de_reads|]. intros t Ht. by apply reads_ret.
  - apply reads_err.
Qed.
End composite.

Section leaves.
Context `{P : Profile}.

Lemma usize_canonical a : 0 ≤ a < 2 ^ 64 → canonical (Uint a : usize).
Proof. done. Qed.

Lemma de_usize a b h : 0 ≤ a < 2 ^ 64 →
  (deserialize : de_m usize) (MkDe (to_le 8 a ++ b) h) = (Ok (Uint a), MkDe b h).
Proof. intros Ha. exact (de_run (Uint a : usize) b h (usize_canonical a Ha)). Qed.

Lemma ser_usize a p : 0 ≤ a < 2 ^ 64 →
  serialize (Uint a : usize) p = (Ok (), MkPacket (pid p) (buffer p ++ to_le 8 a) (phandles p)).
Proof.
  intros Ha. rewrite <- (app_nil_r (phandles p)). exact (ser_run (Uint a : usize) p (usize_canonical a Ha)).
Qed.

#[export] Program Instance SerdeLaws_NonNull : SerdeLaws NonNull :=
  { canonical p := 0 < nn_addr p < 2 ^ 64; enc p := to_le 8 (nn_addr p); hnd _ := [] }.
Next Obligation.
  intros [a] p Ha. cbn [serialize SerdePacket_NonNull nn_addr] in *. by rewrite ser_usize, app_nil_r by lia.
Qed.
Next Obligation.
  intros [a] b h Ha. cbn [nn_addr] in *. cbn [deserialize SerdePacket_NonNull].
  rewrite (st_bind_ok _ _ _ _ _ (de_usize a b h ltac:(lia))). cbn [uval].
  by rewrite (proj2 (Z.eqb_neq a 0)) by lia.
Qed.
Next Obligation.
  eapply reads_bind; [apply (de_reads (T:=usize))|]. intros [v] Hv. cbn in Hv. cbn [uval].
  destruct (Z.eqb_spec v 0); [apply reads_err|]. apply reads_ret. cbn. lia.
Qed.

(** *** Text *)

Lemma of_bytes_of l : of_bytes (bytes_of l) = l.
Proof. unfold of_bytes, bytes_of. rewrite <- list_fmap_compose. apply list_fmap_id. Qed.

Lemma bytes_canonical l :
  canonical (bytes_of l) ↔ Forall is_byte l ∧ Z.of_nat (length l) < 2 ^ 64.
Proof. unfold bytes_of. cbn [canonical SerdeLaws_vec]. by rewrite Forall_fmap, length_fmap. Qed.

(** Reading bytes, then deciding. *)
Lemma reads_bytes {A} (Q : A → Prop) (k : list (uint 8) → de_m A) :
  (∀ l, Forall is_byte l → Z.of_nat (length l) < 2 ^ 64 → reads Q (k (bytes_of l))) →
  reads Q ((deserialize : de_m (list (uint 8))) ≫= k).
Proof.
  intros Hk. eapply reads_bind; [apply (de_reads (T:=list (uint 8)))|]. intros l Hl.
  assert (l = bytes_of (of_bytes l)) as Heq.
  { unfold of_bytes, bytes_of. rewrite <- list_fmap_compose. symmetry. rewrite <- (list_fmap_id l) at 2.
    apply list_fmap_ext. by intros ? []. }
  rewrite Heq in Hl |- *. apply bytes_canonical in Hl as [Hb Hn]. by apply Hk.
Qed.

#[export] Program Instance SerdeLaws_Str : SerdeLaws Str := {
  canonical s := is_utf8 (sbytes s) = true ∧ Forall is_byte (sbytes s) ∧ Z.of_nat (length (sbytes s)) < 2 ^ 64;
  enc s := enc (bytes_of (sbytes s));
  hnd s := hnd (bytes_of (sbytes s));
}.
Next Obligation. intros [l] p [_ Hl]. apply (ser_run (bytes_of l)). by apply bytes_canonical. Qed.
Next Obligation.
  intros [l] b h [Hu Hl]. cbn [deserialize SerdePacket_Str sbytes] in *.
  rewrite (st_bind_ok _ _ _ _ _ (de_run (bytes_of l) b h (proj2 (bytes_canonical l) Hl))). by rewrite of_bytes_of, Hu.
Qed.
Next Obligation.
  apply reads_bytes. intros l Hl Hn. rewrite of_bytes_of. destruct (is_utf8 l) eqn:Hu; [by apply reads_ret|apply reads_err].
Qed.

#[export] Program Instance SerdeLaws_option_Str : SerdeLaws (option Str) := {
  canonical o := canonical (default (MkStr []) o) ∧ o ≠ Some (MkStr []);
  enc o := enc (default (MkStr []) o);
  hnd o := hnd (default (MkStr []) o);
}.
Next Obligation. intros o p [Ho _]. by apply (ser_run (default (MkStr []) o)). Qed.
Next Obligation.
  intros o b h [Ho Hne]. cbn [deserialize SerdePacket_option_Str].
  rewrite (st_bind_ok _ _ _ _ _ (de_run (default (MkStr []) o) b h Ho)). by destruct o as [[[|]]|].
Qed.
Next Obligation.
  eapply reads_bind; [apply (de_reads (T:=Str))|]. intros [l] Hl. apply reads_ret.
  case_bool_decide as He; [done|]. split; [done|]. by intros [= ->].
Qed.

Lemma from_vec_with_nul_spec l bs : from_vec_with_nul l = Some bs ↔ l = bs ++ [0] ∧ Forall (λ b, b ≠ 0) bs.
Proof.
  split.
  - revert bs. induction l as [|b l IH]; intros bs; cbn [from_vec_with_nul]; [done|].
    destruct (Z.eqb_spec b 0) as [->|Hne]; [destruct l; [by intros [= <-]|done]|].
    destruct (from_vec_with_nul l) as [bs'|]; [|done]. intros [= <-].
    destruct (IH bs' eq_refl) as [-> HF]. split; [done|by constructor].
  - intros [-> HF]. induction HF as [|b bs Hb HF IH]; [done|]. cbn [app from_vec_with_nul].
    rewrite (proj2 (Z.eqb_neq b 0)) by done. by rewrite IH.
Qed.

#[export] Program Instance SerdeLaws_CStr : SerdeLaws CStr := {
  canonical s := Forall (λ b, b ≠ 0) (cbytes s) ∧ Forall is_byte (cbytes s) ∧ Z.of_nat (length (cbytes s)) + 1 < 2 ^ 64;
  enc s := enc (bytes_of (cbytes s ++ [0]));
  hnd s := hnd (bytes_of (cbytes s ++ [0]));
}.
Next Obligation.
  intros [l] p (_ & Hl & Hn). apply (ser_run (bytes_of (l ++ [0]))). apply bytes_canonical.
  rewrite Forall_app, Forall_singleton, length_app. cbn in *. by split_and!; [..|lia].
Qed.
Next Obligation.
  intros [l] b h (H0 & Hl & Hn). cbn [deserialize SerdePacket_CStr cbytes] in *.
  assert (canonical (bytes_of (l ++ [0]))) as Hc.
  { apply bytes_canonical. rewrite Forall_app, Forall_singleton, length_app. cbn. by split_and!; [..|lia]. }
  rewrite (st_bind_ok _ _ _ _ _ (de_run _ b h Hc)), of_bytes_of.
  by rewrite (proj2 (from_vec_with_nul_spec (l ++ [0]) l) (conj eq_refl H0)).
Qed.
Next Obligation.
  apply reads_bytes. intros l Hl Hn. rewrite of_bytes_of. destruct (from_vec_with_nul l) as [bs|] eqn:Hv; [|apply reads_err].
  apply from_vec_with_nul_spec in Hv as [-> H0]. apply Forall_app in Hl as [Hl _]. rewrite length_app in Hn. cbn in Hn.
  apply reads_ret. cbn. by split_and!; [..|lia].
Qed.

#[export] Program Instance SerdeLaws_option_CStr : SerdeLaws (option CStr) := {
  canonical o := canonical (default (MkCStr []) o) ∧ o ≠ Some (MkCStr []);
  enc o := enc (default (MkCStr []) o);
  hnd o := hnd (default (MkCStr []) o);
}.
Next Obligation. intros o p [Ho _]. by apply (ser_run (default (MkCStr []) o)). Qed.
Next Obligation.
  intros o b h [Ho Hne]. cbn [deserialize SerdePacket_option_CStr].
  rewrite (st_bind_ok _ _ _ _ _ (de_run (default (MkCStr []) o) b h Ho)). by destruct o as [[[|]]|].
Qed.
Next Obligation.
  eapply reads_bind; [apply (de_reads (T:=CStr))|]. intros [l] Hl. apply reads_ret.
  case_bool_decide as He; [done|]. split; [done|]. by intros [= ->].
Qed.
End leaves.

(** *** Ordered maps *)

Class OrdLaws (K : Type) `{OK : Ord K} := {
  cmp_eq a b : cmp a b = Eq → a = b;
  cmp_flip a b : cmp a b = Gt → cmp b a = Lt;
  cmp_lt a b : cmp a b = Lt → cmp b a = Gt;
  cmp_trans a b c : cmp a b = Lt → cmp b c = Lt → cmp a c = Lt;
}.

#[export] Instance Ord_uint w : Ord (uint w) := λ a b, uval a ?= uval b.
#[export] Program Instance OrdLaws_uint w : OrdLaws (uint w).
Next Obligation. intros w [a] [b] H%Z.compare_eq. cbn in H. by subst. Qed.
Next Obligation. intros w a b. unfold cmp, Ord_uint. rewrite Z.compare_gt_iff, Z.compare_lt_iff. lia. Qed.
Next Obligation. intros w a b. unfold cmp, Ord_uint. rewrite Z.compare_gt_iff, Z.compare_lt_iff. lia. Qed.
Next Obligation. intros w a b c. unfold cmp, Ord_uint. rewrite !Z.compare_lt_iff. lia. Qed.

Section btree_map.
Context `{P : Profile} {K V : Type} `{OK : Ord K} `{!OrdLaws K}.
Implicit Types (m l : list (K * V)).

Definition key_before (a b : K * V) : Prop := cmp (fst a) (fst b) = Lt.
Definition ordered m : Prop := StronglySorted key_before m.

Lemma map_insert_forall (Q : K * V → Prop) k v m : Q (k, v) → Forall Q m → Forall Q (map_insert k v m).
Proof.
  intros Hk Hm. induction Hm as [|[k' v'] m Hkv Hm IH]; cbn [map_insert]; [by constructor|].
  destruct (cmp k k'); by repeat constructor.
Qed.

Lemma map_insert_length k v m : (length (map_insert k v m) ≤ S (length m))%nat.
Proof. induction m as [|[k' v'] m IH]; cbn [map_insert]; [done|]. destruct (cmp k k'); cbn; lia. Qed.

Lemma map_insert_ordered k v m : ordered m → ordered (map_insert k v m).
Proof.
  unfold ordered. induction 1 as [|[k' v'] m Hs IH HF]; cbn [map_insert]; [by repeat constructor|].
  destruct (cmp k k') eqn:Hc.
  - apply cmp_eq in Hc as ->. by constructor.
  - constructor; [by constructor|]. constructor; [done|]. eapply List.Forall_impl; [|exact HF].
    intros b Hb. unfold key_before in *. cbn in *. by eapply cmp_trans.
  - constructor; [done|]. apply map_insert_forall; [by apply cmp_flip|done].
Qed.

Lemma map_insert_last k v m : Forall (λ b, cmp (fst b) k = Lt) m → map_insert k v m = m ++ [(k, v)].
Proof.
  induction 1 as [|[k' v'] m Hb Hm IH]; [done|]. cbn [map_insert]. cbn in Hb. by rewrite (cmp_lt _ _ Hb), IH.
Qed.

Lemma from_iter_fold l : ∀ m, ordered (m ++ l) → fold_left (λ m kv, map_insert (fst kv) (snd kv) m) l m = m ++ l.
Proof.
  induction l as [|[k v] l IH]; intros m Ho; cbn [fold_left fst snd]; [by rewrite app_nil_r|].
  rewrite map_insert_last, IH; rewrite <- ?app_assoc; [done|done|].
  clear IH. induction m as [|b m IHm]; constructor; apply StronglySorted_inv in Ho as [Ho HF].
  - apply List.Forall_app in HF as [_ HF]. by inversion HF.
  - by apply IHm.
Qed.

Lemma from_iter_props (Q : K * V → Prop) l m : Forall Q l → Forall Q m → ordered m →
  let r := fold_left (λ m kv, map_insert (fst kv) (snd kv) m) l m in
  ordered r ∧ Forall Q r ∧ (length r ≤ length m + length l)%nat.
Proof.
  intros Hl. revert m. induction Hl as [|[k v] l Hkv Hl IH]; intros m Hm Ho; cbn [fold_left fst snd].
  - split_and!; [done|done|]. cbn. lia.
  - destruct (IH (map_insert k v m)) as (H1 & H2 & H3); [by apply map_insert_forall|by apply map_insert_ordered|].
    split_and!; [done|done|]. pose proof (map_insert_length k v m). cbn in *. lia.
Qed.

Context `{SK : SerdePacket K} `{!SerdeLaws K} `{SV : SerdePacket V} `{!SerdeLaws V}.

#[export] Program Instance SerdeLaws_BTreeMap : SerdeLaws (BTreeMap K V) := {
  canonical t := ordered (bindings t) ∧ Forall canonical (bindings t) ∧ Z.of_nat (length (bindings t)) < 2 ^ 64;
  enc t := enc_len (length (bindings t)) ++ encs (bindings t);
  hnd t := hnds (bindings t);
}.
Next Obligation.
  intros [m] p (_ & Hm & Hn). cbn [serialize SerdePacket_BTreeMap bindings] in *.
  rewrite (st_bind_ok _ _ _ _ _ (ser_len _ p Hn)), serialize_all_run by done. cbn [pid buffer phandles]. by rewrite app_assoc.
Qed.
Next Obligation.
  intros [m] b h (Ho & Hm & Hn). cbn [deserialize SerdePacket_BTreeMap bindings] in *. rewrite <- app_assoc.
  rewrite (st_bind_ok _ _ _ _ _ (de_len _ _ _ Hn)). cbn [uval]. rewrite Nat2Z.id.
  rewrite (st_bind_ok _ _ _ _ _ (deserialize_all_run m b h Hm)). unfold from_iter. by rewrite (from_iter_fold m []).
Qed.
Next Obligation.
  eapply reads_bind; [apply (de_reads (T:=usize))|]. intros [n] Hn. cbn in Hn. cbn [uval].
  eapply reads_bind; [apply deserialize_all_reads|]. intros l [Hl Hlen]. apply reads_ret. cbn [bindings from_iter].
  destruct (from_iter_props canonical l []) as (H1 & H2 & H3); [done|by constructor|by constructor|].
  split_and!; [done|done|]. cbn in H3. lia.
Qed.
End btree_map.

(** *** Errors, handles and objects *)

Section objects.
Context `{P : Profile}.

Lemma into_retval_range e : 0 ≤ into_retval e < 2 ^ 64.
Proof. apply (wrap_bound 64). lia. Qed.

Lemma try_decode_declared v e : try_decode v = Ok (Some e) → declared e.
Proof.
  unfold try_decode. destruct (neg_i32 (as_i32 v)) as [err| |] eqn:Hn; [|done..]. cbn.
  destruct (_ || _) eqn:Hor; [|done]. intros [= <-]. rewrite orb_true_iff, !range_has_iff in Hor. unfold declared. cbn in *. lia.
Qed.

#[export] Program Instance SerdeLaws_errno : SerdeLaws errno :=
  { canonical := declared; enc e := to_le 8 (into_retval e); hnd _ := [] }.
Next Obligation.
  intros e p _. cbn [serialize SerdePacket_errno]. by rewrite ser_usize, app_nil_r by apply into_retval_range.
Qed.
Next Obligation.
  intros e b h He. cbn [deserialize SerdePacket_errno].
  rewrite (st_bind_ok _ _ _ _ _ (de_usize _ b h (into_retval_range e))). cbn [uval]. unfold try_from_retval.
  by rewrite (try_decode_error _ e He (encode_error_mod e He)).
Qed.
Next Obligation.
  eapply reads_bind; [apply (de_reads (T:=usize))|]. intros v _.
  destruct (try_from_retval (uval v)) as [[e|]|[]|] eqn:Hd.
  - apply reads_ret. by eapply try_decode_declared.
  - apply reads_err.
  - intros d _. cbn. split; [by exists []|]. split; [by exists []|].
    unfold try_from_retval, try_decode, neg_i32 in Hd. by destruct (_ =? _), overflow_checks.
Qed.

Lemma next_handle_run x b h : next_handle (MkDe b (x :: h)) = (Ok x, MkDe b h).
Proof.
  unfold next_handle, check_handles, check_len. rewrite st_get_bind. cbn [dhandles].
  by rewrite (proj2 (Z.leb_le _ _)) by (cbn; lia).
Qed.

#[export] Program Instance SerdeLaws_Handle : SerdeLaws Handle :=
  { canonical _ := True; enc _ := []; hnd x := [x] }.
Next Obligation. intros x p _. cbn. by rewrite app_nil_r. Qed.
Next Obligation. intros x b h _. apply next_handle_run. Qed.
Next Obligation. apply reads_next_handle. Qed.

#[export] Program Instance SerdeLaws_option_Handle : SerdeLaws (option Handle) := {
  canonical o := o ≠ Some HANDLE_NULL;
  enc _ := [];
  hnd o := [default HANDLE_NULL o];
}.
Next Obligation. intros x p _. cbn. by rewrite app_nil_r. Qed.
Next Obligation.
  intros o b h Ho. cbn [deserialize SerdePacket_option_Handle].
  rewrite (st_bind_ok _ _ _ _ _ (next_handle_run (default HANDLE_NULL o) b h)). destruct o as [[r]|]; [|done]. cbn.
  unfold check_null. cbn. destruct (Z.eqb_spec r 0) as [->|]; [by destruct Ho|done].
Qed.
Next Obligation.
  eapply reads_bind; [apply (de_reads (T:=Handle))|]. intros [r] _. apply reads_ret. unfold check_null. cbn.
  destruct (Z.eqb_spec r 0); [done|]. intros [= ->]. by cbn in *.
Qed.

(** Identifiers of types are words. *)
#[export] Program Instance SerdeLaws_Obj id `{Hid : !TCEq (fits 64 id) true} : SerdeLaws (Obj id) :=
  { canonical _ := True; enc _ := to_le 8 id; hnd o := [oraw o] }.
Next Obligation.
  intros id Hid o p _. assert (0 ≤ id < 2 ^ 64) by (apply fits_iff; by destruct Hid).
  cbn [serialize SerdePacket_Obj]. by rewrite (st_bind_ok _ _ _ _ _ (ser_usize id p ltac:(done))).
Qed.
Next Obligation.
  intros id Hid [x] b h _. assert (0 ≤ id < 2 ^ 64) by (apply fits_iff; by destruct Hid).
  cbn [deserialize SerdePacket_Obj oraw]. rewrite (st_bind_ok _ _ _ _ _ (de_usize id b _ ltac:(done))). cbn [uval].
  rewrite Z.eqb_refl. cbn [negb]. by rewrite (st_bind_ok _ _ _ _ _ (next_handle_run x b h)).
Qed.
Next Obligation.
  intros id _. eapply reads_bind; [apply (de_reads (T:=usize))|]. intros i _.
  destruct (negb _); [apply reads_err|]. eapply reads_bind; [apply reads_next_handle|]. intros x _. by apply reads_ret.
Qed.
End objects.

(** ** Packets *)

Section packets.
Context `{P : Profile} {T : Type} `{ST : SerdePacket T} `{!SerdeLaws T}.

Lemma magic_range : 0 ≤ MAGIC < 2 ^ 64.
Proof. done. Qed.

Lemma metadata_run i m b h : 0 ≤ m < 2 ^ 64 →
  deserialize_metadata (MkPacket i (to_le 8 MAGIC ++ to_le 8 m ++ b) h) = Ok (m, MkDe b h).
Proof.
  intros Hm. unfold deserialize_metadata, read_metadata, de_new. cbn [buffer phandles].
  rewrite (st_bind_ok _ _ _ _ _ (de_usize MAGIC _ h magic_range)). cbn [uval]. rewrite Z.eqb_refl. cbn [negb].
  by rewrite (st_bind_ok _ _ _ _ _ (de_usize m b h Hm)).
Qed.

(** A value that is read back as it was sent. *)
Lemma packet_roundtrip (method_id : Z) (x : T) (p : packet) :
  0 ≤ method_id < 2 ^ 64 → canonical x →
  ∃ p', serialize_packet method_id x p = (Ok (), p') ∧
    (∀ b h, deserialize_packet method_id (MkPacket (pid p') (buffer p' ++ b) (phandles p' ++ h))
       = Ok (x, (Z.of_nat (length b), Z.of_nat (length h)))) ∧
    (∀ m, m ≠ method_id → deserialize_packet (T:=T) m p' = Err (InvalidMethod m method_id)).
Proof.
  intros Hm Hx. unfold serialize_packet. rewrite st_modify_bind.
  rewrite (st_bind_ok _ _ _ _ _ (ser_usize MAGIC _ magic_range)), (st_bind_ok _ _ _ _ _ (ser_usize method_id _ Hm)).
  rewrite (ser_run x _ Hx). cbn [pid buffer phandles packet_clear app]. eexists. split; [done|]. split.
  - intros b h. unfold deserialize_packet. cbn [pid buffer phandles]. rewrite <- !app_assoc, metadata_run by done.
    cbn [mbind res_bind]. rewrite Z.eqb_refl. cbn [negb]. unfold deserialize_body. by rewrite (de_run x b h Hx).
  - intros m Hne. unfold deserialize_packet. rewrite <- !app_assoc, metadata_run by done. cbn [mbind res_bind].
    by rewrite (proj2 (Z.eqb_neq _ _)) by done.
Qed.

(** Whatever bytes and handles a peer sends, reading a packet gives an error or a
    value of the type (text is well-formed, pointers are not null, maps are ordered,
    integers are in range), and consumes no more than was sent; only a build with
    overflow checks can panic. *)
Theorem rpc_type_safe (method_id : Z) (p : packet) : Forall is_byte (buffer p) →
  match deserialize_packet (T:=T) method_id p with
  | Ok (x, (nb, nh)) => canonical x ∧ nb ≤ Z.of_nat (length (buffer p)) ∧ nh ≤ Z.of_nat (length (phandles p))
  | Err _ => True
  | Panic => overflow_checks = true
  end.
Proof.
  intros Hp. unfold deserialize_packet, deserialize_metadata.
  assert (reads (λ _, True) read_metadata) as Hm.
  { eapply reads_bind; [apply (de_reads (T:=usize))|]. intros i _. destruct (negb _); [apply reads_err|].
    eapply reads_bind; [apply (de_reads (T:=usize))|]. intros j _. by apply reads_ret. }
  specialize (Hm (de_new p) Hp). destruct (read_metadata (de_new p)) as [r d]. destruct Hm as ([pb Hb] & [ph Hh] & Hr).
  cbn [de_new dbuffer dhandles] in Hb, Hh.
  destruct r as [j|e|]; [|done..]. cbn [mbind res_bind]. destruct (negb _); [done|].
  assert (Forall is_byte (dbuffer d)) as Hd by (rewrite Hb in Hp; by apply Forall_app in Hp as [_ ?]).
  pose proof (de_reads (T:=T) d Hd) as Hde. unfold deserialize_body.
  destruct (deserialize d) as [r d']. destruct Hde as ([pb' Hb'] & [ph' Hh'] & Hr').
  destruct r as [x|e|]; [|done..]. rewrite Hb, Hh, Hb', Hh', !length_app. split; [done|]. lia.
Qed.
End packets.

(** ** The types a packet can carry *)

Inductive int_width := I8 | I16 | I32 | I64 | I128.
Definition bits (k : int_width) : Z := match k with I8 => 8 | I16 => 16 | I32 => 32 | I64 => 64 | I128 => 128 end.
Definition octets (k : int_width) : nat := match k with I8 => 1 | I16 => 2 | I32 => 4 | I64 => 8 | I128 => 16 end.
#[export] Instance Width_bits k : Width (bits k) (octets k).
Proof. by destruct k. Qed.

(** Every type the crate sends, built from the others, but optional objects
    ([optional_object_lost] below); the keys of maps are unsigned integers. *)
Inductive ty :=
  | TUnit | TBool | TUint (k : int_width) | TSint (k : int_width)
  | TVec (t : ty) | TOptVec (t : ty) | TArray (n : nat) (t : ty) | TBox (t : ty)
  | TPair (a b : ty) | TResult (t e : ty)
  | TNonNull | TStr | TOptStr | TCStr | TOptCStr
  | TMap (k : int_width) (t : ty)
  | TErrno | THandle | TOptHandle | TObj (id : Z).

Fixpoint denote (t : ty) : Type :=
  match t with
  | TUnit => ()
  | TBool => bool
  | TUint k => uint (bits k)
  | TSint k => sint (bits k)
  | TVec t => list (denote t)
  | TOptVec t => option (list (denote t))
  | TArray n t => vec (denote t) n
  | TBox t => Box (T:=denote t)
  | TPair a b => denote a * denote b
  | TResult t e => denote e + denote t
  | TNonNull => NonNull
  | TStr => Str
  | TOptStr => option Str
  | TCStr => CStr
  | TOptCStr => option CStr
  | TMap k t => BTreeMap (uint (bits k)) (denote t)
  | TErrno => errno
  | THandle => Handle
  | TOptHandle => option Handle
  | TObj id => Obj (wrap 64 id)
  end.

Lemma wrap_fits id : TCEq (fits 64 (wrap 64 id)) true.
Proof. apply TCEq_eq, fits_iff, (wrap_bound 64). lia. Qed.

Section universe.
Context `{P : Profile}.

#[export] Instance serde : ∀ t, SerdePacket (denote t) := fix serde t :=
  match t with
  | TUnit => SerdePacket_unit
  | TBool => SerdePacket_bool
  | TUint k => SerdePacket_uint (bits k)
  | TSint k => SerdePacket_sint (bits k)
  | TVec t => @SerdePacket_vec _ (serde t)
  | TOptVec t => @SerdePacket_option_vec _ (serde t)
  | TArray n t => @SerdePacket_array _ (serde t) n
  | TBox t => @SerdePacket_Box _ (serde t)
  | TPair a b => @SerdePacket_pair _ _ (serde a) (serde b)
  | TResult t e => @SerdePacket_result _ _ (serde e) (serde t)
  | TNonNull => SerdePacket_NonNull
  | TStr => SerdePacket_Str
  | TOptStr => SerdePacket_option_Str
  | TCStr => SerdePacket_CStr
  | TOptCStr => SerdePacket_option_CStr
  | TMap k t => @SerdePacket_BTreeMap _ _ _ (SerdePacket_uint (bits k)) (serde t)
  | TErrno => SerdePacket_errno
  | THandle => SerdePacket_Handle
  | TOptHandle => SerdePacket_option_Handle
  | TObj id => SerdePacket_Obj (wrap 64 id)
  end.

#[export] Instance laws : ∀ t, SerdeLaws (denote t) := fix laws t :=
  match t with
  | TUnit => SerdeLaws_unit
  | TBool => SerdeLaws_bool
  | TUint k => SerdeLaws_uint (bits k) (octets k)
  | TSint k => SerdeLaws_sint (bits k) (octets k)
  | TVec t => @SerdeLaws_vec _ _ _ (laws t)
  | TOptVec t => @SerdeLaws_option_vec _ _ _ (laws t)
  | TArray n t => @SerdeLaws_array _ _ _ (laws t) n
  | TBox t => @SerdeLaws_Box _ _ _ (laws t)
  | TPair a b => @SerdeLaws_pair _ _ _ (laws a) _ _ (laws b)
  | TResult t e => @SerdeLaws_result _ _ _ (laws t) _ _ (laws e)
  | TNonNull => SerdeLaws_NonNull
  | TStr => SerdeLaws_Str
  | TOptStr => SerdeLaws_option_Str
  | TCStr => SerdeLaws_CStr
  | TOptCStr => SerdeLaws_option_CStr
  | TMap k t => @SerdeLaws_BTreeMap _ _ _ _ _ _ (SerdeLaws_uint (bits k) (octets k)) _ (laws t)
  | TErrno => SerdeLaws_errno
  | THandle => SerdeLaws_Handle
  | TOptHandle => SerdeLaws_option_Handle
  | TObj id => @SerdeLaws_Obj _ _ (wrap_fits id)
  end.

(** The values of the types: numbers in range, text that is well-formed, pointers that are not
    null, maps with increasing keys, errors that are declared, and vectors with lengths that are words. *)
Definition str_ok (s : Str) : Prop :=
  is_utf8 (sbytes s) = true ∧ Forall is_byte (sbytes s) ∧ Z.of_nat (length (sbytes s)) < 2 ^ 64.
Definition cstr_ok (s : CStr) : Prop :=
  Forall (λ b, b ≠ 0) (cbytes s) ∧ Forall is_byte (cbytes s) ∧ Z.of_nat (length (cbytes s)) + 1 < 2 ^ 64.
Definition vec_ok {A} (Q : A → Prop) (l : list A) : Prop := Forall Q l ∧ Z.of_nat (length l) < 2 ^ 64.
Definition when_some {A} (Q : A → Prop) (o : option A) : Prop := match o with Some a => Q a | None => True end.

Fixpoint valid (t : ty) : denote t → Prop :=
  match t with
  | TUint k => λ v, 0 ≤ uval v < 2 ^ bits k
  | TSint k => λ v, - 2 ^ (bits k - 1) ≤ sval v < 2 ^ (bits k - 1)
  | TVec t => vec_ok (valid t)
  | TOptVec t => when_some (vec_ok (valid t))
  | TArray n t => λ v, Forall (valid t) (vec_to_list v)
  | TBox t => λ b, valid t (unbox b)
  | TPair a b => λ x, valid a (fst x) ∧ valid b (snd x)
  | TResult t e => λ r, match r with inr x => valid t x | inl x => valid e x end
  | TNonNull => λ p, 0 < nn_addr p < 2 ^ 64
  | TStr => str_ok
  | TOptStr => when_some str_ok
  | TCStr => cstr_ok
  | TOptCStr => when_some cstr_ok
  | TMap k t => λ m, ordered (bindings m) ∧ vec_ok (λ kv, 0 ≤ uval (fst kv) < 2 ^ bits k ∧ valid t (snd kv)) (bindings m)
  | TErrno => declared
  | TUnit | TBool | THandle | TOptHandle | TObj _ => λ _, True
  end.

(** What arrives: an optional vector or text that is empty, and an optional handle that is
    null, are sent like nothing. *)
Definition unless {A} (empty : A → bool) (o : option A) : option A := match o with Some a => if empty a then None else o | None => None end.

Fixpoint arrived (t : ty) : denote t → denote t :=
  match t with
  | TVec t => fmap (M:=list) (arrived t)
  | TOptVec t => λ o : option (list (denote t)), unless (λ l, bool_decide (length l = 0%nat)) (fmap (M:=list) (arrived t) <$> o)
  | TArray n t => vmap (arrived t)
  | TBox t => λ b, MkBox (arrived t (unbox b))
  | TPair a b => λ x, (arrived a (fst x), arrived b (snd x))
  | TResult t e => λ r, match r with inr x => inr (arrived t x) | inl x => inl (arrived e x) end
  | TOptStr => unless (λ s, bool_decide (sbytes s = []))
  | TOptCStr => unless (λ s, bool_decide (cbytes s = []))
  | TMap k t => λ m : BTreeMap _ (denote t), MkMap (prod_map id (arrived t) <$> bindings m)
  | TOptHandle => unless (λ h, bool_decide (h = HANDLE_NULL))
  | TUnit | TBool | TUint _ | TSint _ | TNonNull | TStr | TCStr | TErrno | THandle | TObj _ => id
  end.

Lemma sent_bind {T E A B} (m m' : st T E A) (k k' : A → st T E B) s : m s = m' s → (∀ a s, k a s = k' a s) → (m ≫= k) s = (m' ≫= k') s.
Proof. intros Hm Hk. unfold mbind, st_bind. rewrite Hm. destruct (m' s) as [[]]; [apply Hk|done|done]. Qed.

Lemma serialize_all_map {A} `{SA : SerdePacket A} (f : A → A) l : (∀ x p, serialize (f x) p = serialize x p) →
  ∀ p, serialize_all (f <$> l) p = serialize_all l p.
Proof.
  intros Hf. induction l as [|x l IH]; intros p; [done|]. cbn [serialize_all fmap list_fmap]. apply sent_bind; [apply Hf|intros _; apply IH].
Qed.
Lemma vec_map_sent {A} `{SA : SerdePacket A} (f : A → A) l : (∀ x p, serialize (f x) p = serialize x p) →
  ∀ p, serialize (f <$> l) p = serialize l p.
Proof.
  intros Hf p. cbn [serialize SerdePacket_vec]. rewrite length_fmap. apply sent_bind; [done|]. intros _ q. by apply serialize_all_map.
Qed.
Lemma default_unless {A} (empty : A → bool) (e : A) o : (∀ a, empty a = true → a = e) → default e (unless empty o) = default e o.
Proof. intros He. destruct o as [a|]; [|done]. cbn. destruct (empty a) eqn:H; [by rewrite (He a H)|done]. Qed.

(** What arrives is sent as the value is. *)
Lemma arrived_sent t : ∀ x p, serialize (arrived t x) p = serialize x p.
Proof.
  induction t as [| | | |t IH|t IH|n t IH|t IH|a IHa b IHb|t IHt e IHe| | | | | |k t IH| | | |id]; intros x p; try done.
  - by apply (vec_map_sent (arrived t)).
  - cbn [arrived serde serialize SerdePacket_option_vec]. rewrite default_unless.
    + destruct x as [l|]; [|done]. by apply (vec_map_sent (arrived t)).
    + intros l Hl. by apply bool_decide_eq_true, nil_length_inv in Hl.
  - cbn [arrived serde serialize SerdePacket_array]. rewrite vec_to_list_map. by apply (serialize_all_map (arrived t)).
  - exact (IH (unbox x) p).
  - apply sent_bind; [apply IHa|intros _; apply IHb].
  - destruct x as [x|x]; (apply sent_bind; [done|intros _]); [apply IHe|apply IHt].
  - cbn [arrived serde serialize SerdePacket_option_Str]. rewrite default_unless; [done|]. by intros [l] Hl%bool_decide_eq_true; cbn in Hl; subst.
  - cbn [arrived serde serialize SerdePacket_option_CStr]. rewrite default_unless; [done|]. by intros [l] Hl%bool_decide_eq_true; cbn in Hl; subst.
  - apply (vec_map_sent (prod_map id (arrived t)) (bindings x)). intros [k' y] q. apply sent_bind; [done|intros _; apply IH].
  - cbn [arrived serde serialize SerdePacket_option_Handle]. rewrite default_unless; [done|]. by intros h Hh%bool_decide_eq_true.
Qed.

Lemma vec_ok_map {A} (Q R : A → Prop) (f : A → A) l : (∀ x, Q x → R (f x)) → vec_ok Q l → vec_ok R (f <$> l).
Proof. intros Hf [Hl Hn]. split; [|by rewrite length_fmap]. apply Forall_fmap. by eapply Forall_impl. Qed.
Lemma unless_some {A} (Q : A → Prop) (empty : A → bool) (e : A) o : Q e → when_some Q o →
  Q (default e (unless empty o)) ∧ (∀ a, unless empty o = Some a → empty a = false).
Proof. intros He Ho. destruct o as [a|]; [|by split]. cbn in *. destruct (empty a) eqn:H; split; try done. by intros a' [= <-]. Qed.

Lemma ordered_map {K V} `{Ord K} (f : V → V) (l : list (K * V)) : ordered l → ordered (prod_map id f <$> l).
Proof.
  unfold ordered. induction 1 as [|[k v] l Hl IH HF]; cbn; [constructor|]. constructor; [done|].
  apply Forall_fmap. eapply List.Forall_impl; [|exact HF]. by intros [k' v'].
Qed.

(** What arrives of a value of the type is one that is read back as it was sent. *)
Lemma arrived_canonical t : ∀ x, valid t x → canonical (arrived t x).
Proof.
  induction t as [| | | |t IH|t IH|n t IH|t IH|a IHa b IHb|t IHt e IHe| | | | | |k t IH| | | |id]; intros x Hx; try done.
  - exact (vec_ok_map _ _ _ x IH Hx).
  - assert (when_some (vec_ok (canonical (T:=denote t))) (fmap (M:=list) (arrived t) <$> x)) as Hm.
    { destruct x as [l|]; [|done]. exact (vec_ok_map _ _ _ l IH Hx). }
    destruct (unless_some (vec_ok (canonical (T:=denote t))) (λ l, bool_decide (length l = 0%nat)) [] (fmap (M:=list) (arrived t) <$> x)) as [H1 H2]; [by split; [constructor|]|done|].
    split; [exact H1|]. intros Ho. by specialize (H2 _ Ho).
  - cbn [arrived laws canonical SerdeLaws_array]. rewrite vec_to_list_map. apply Forall_fmap. eapply Forall_impl; [exact Hx|exact IH].
  - exact (IH _ Hx).
  - destruct Hx. by split; [apply IHa|apply IHb].
  - destruct x; [by apply IHe|by apply IHt].
  - destruct (unless_some str_ok (λ s, bool_decide (sbytes s = [])) (MkStr []) x) as [H1 H2]; [by split_and!|done|].
    split; [exact H1|]. intros Ho. by specialize (H2 _ Ho).
  - destruct (unless_some cstr_ok (λ s, bool_decide (cbytes s = [])) (MkCStr []) x) as [H1 H2]; [by split_and!|done|].
    split; [exact H1|]. intros Ho. by specialize (H2 _ Ho).
  - destruct Hx as [Ho Hv]. split; [by apply ordered_map|]. eapply vec_ok_map; [|exact Hv]. intros [k' v] [Hk Hy]. by split; [|apply IH].
  - intros Ho. destruct (unless_some (λ _, True) (λ h, bool_decide (h = HANDLE_NULL)) HANDLE_NULL x) as [_ H2]; [done|by destruct x|].
    specialize (H2 _ Ho). by rewrite bool_decide_true in H2.
Qed.

End universe.

(** ** Witnesses *)

Module Witness.
#[local] Existing Instance debug_profile.

(** A map from numbers to a text and a result, as remote procedures return them. *)
Definition reply : ty := TMap I32 (TPair TOptStr (TResult (TVec TOptHandle) TErrno)).
Definition value : denote reply :=
  MkMap [(Uint 1, (Some (MkStr [0x68; 0xC3; 0xA9]), inr [Some (MkHandle 7); Some HANDLE_NULL])); (Uint 2, (Some (MkStr []), inl EPERM))].

Lemma value_valid : valid reply value.
Proof.
  split; [|split; [|done]].
  - apply SSorted_cons; [apply SSorted_cons; [apply SSorted_nil|done]|]. by constructor.
  - constructor; [|constructor; [|done]].
    + split; [by cbn|]. split; [|by split; [repeat constructor|]]. split; [done|]. split; [|done]. by repeat constructor.
    + split; [by cbn|]. split; [|by left]. by split_and!.
Qed.


Lemma rpc_type_safe_witness :
  match deserialize_packet (T:=list bool) 5
    (MkPacket None (to_le 8 MAGIC ++ to_le 8 5 ++ to_le 8 2 ++ [1; 0; 3]) [MkHandle 4]) with
  | Ok (x, (nb, nh)) => canonical x ∧ nb ≤ 27 ∧ nh ≤ 1
  | Err _ => True
  | Panic => true = true
  end.
Proof.
  exact (rpc_type_safe (T:=list bool) 5
    (MkPacket None (to_le 8 MAGIC ++ to_le 8 5 ++ to_le 8 2 ++ [1; 0; 3]) [MkHandle 4])
    ltac:(vm_compute; repeat constructor; congruence)).
Defined.

(** An optional object is sent without the identifier of its type, which is expected
    when it is read: it never arrives. *)
Example optional_object_lost :
  let p := snd (serialize_packet 1 (Some (MkObj (MkHandle 7)) : option (Obj 3)) (MkPacket None [] [])) in
  deserialize_packet (T:=option (Obj 3)) 1 p = Err (BufferTooShort 0 8).
Proof. vm_compute. reflexivity. Qed.

(** [0x80000000] sent as an error panics the reader of a build with overflow checks. *)
Example error_panics :
  deserialize_packet (T:=errno) 1 (MkPacket None (to_le 8 MAGIC ++ to_le 8 1 ++ to_le 8 0x80000000) []) = Panic.
Proof. vm_compute. reflexivity. Qed.
End Witness.
