(* ===== verification/Bootfs.v ===== *)
(** * The boot file system ([lib/bootfs/src])

    An image holds a header, a table with the offset of every entry, the entries and
    the contents of the files. [generate] writes the image of a tree of entries,
    visited in breadth-first order so that the entries of a directory are
    consecutive; [root], [get] and [find] read it.

    Structures have the layout of [repr(C)]; what the compiler leaves in their padding
    is the parameter [junk]. [plain::from_bytes] belongs to another crate; [aligned]
    says at which offsets of the image it accepts the address. Sizes are not
    truncated: what fits in memory does not overflow them. Slicing out of range panics,
    and so does, in the model, reading a type that is neither of the two. *)

From S2P Require Import Base Mem Slices.
Local Open Scope Z_scope.
Local Open Scope h2o_scope.

Definition PAGE_ALIGN : Z := 4096.
Definition MAX_NAME_LEN : Z := 64.
Definition VERSION : list Z := [0xbb; 0xff; 0xee; 0xaa].
Definition BOOT_HEADER_SIZE : Z := 128.
Definition ENTRY_SIZE : Z := 128.

Inductive EntryType := FileType | DirectoryType.
#[export] Instance EntryType_eq_dec : EqDecision EntryType.
Proof. solve_decision. Defined.
Definition type_byte (t : EntryType) : Z := match t with FileType => 0 | DirectoryType => 1 end.

(** [types::Entry]. *)
Record entry := MkEntry { ename : list Z; ety : EntryType; eoffset : Z; elength : Z }.
Record BootfsHeader := MkHeader { num_entries : Z; root_dir_offset : Z; root_dir_len : Z }.

Definition next_multiple_of (a b : Z) : Z := (a + b - 1) / b * b.

(** ** Generating an image ([gen.rs]) *)

Inductive Tree :=
  | TFile (name : list Z) (content : list Z)
  | TDir (name : list Z) (content : list Tree).

Definition tname (t : Tree) : list Z := match t with TFile n _ | TDir n _ => n end.

Section generate.
Context (junk : nat → list Z).

(** [name.resize(MAX_NAME_LEN, 0)]. *)
Definition pad_name (name : list Z) : list Z := name ++ replicate (Z.to_nat MAX_NAME_LEN - length name) 0.

(** The loop of [split]; the fuel is at least the number of entries below the queue. *)
Fixpoint split_loop (fuel : nat) (q : list Tree) (ent_index : Z) : res () (list entry * list (list Z)) :=
  match fuel, q with
  | _, [] => Ok ([], [])
  | O, _ => Panic
  | S fuel, t :: q =>
      _ ← assert_ (Z.of_nat (length (tname t)) <? MAX_NAME_LEN);
      let name := pad_name (tname t) in
      match t with
      | TFile _ content =>
          '(es, cs) ← split_loop fuel q (ent_index + 1);
          Ok (MkEntry name FileType 0 (Z.of_nat (length content)) :: es, content :: cs)
      | TDir _ ents =>
          let off := BOOT_HEADER_SIZE + (ent_index + Z.of_nat (length q) + 1) * 8 in
          '(es, cs) ← split_loop fuel (q ++ ents) (ent_index + 1);
          Ok (MkEntry name DirectoryType off (Z.of_nat (length ents) * 8) :: es, cs)
      end
  end.

Fixpoint tree_size (t : Tree) : nat :=
  match t with
  | TFile _ _ => 1
  | TDir _ ents => S (fold_right (λ t n, tree_size t + n)%nat 0%nat ents)
  end.

Definition split (input : Tree) : res () (list entry * list (list Z)) := split_loop (tree_size input) [input] 0.

(** [write_typed]: the bytes of the value, and zeros up to [size]. *)
Definition write_typed (data : list Z) (size : Z) : list Z :=
  data ++ replicate (Z.to_nat size - length data) 0.
Definition zeros (from to : Z) : list Z := replicate (Z.to_nat (to - from)) 0.

Definition header_bytes (h : BootfsHeader) : list Z :=
  VERSION ++ junk 4 ++ to_le 8 (num_entries h) ++ to_le 8 (root_dir_offset h) ++ to_le 8 (root_dir_len h) ++ junk 96.
Definition entry_bytes (e : entry) : list Z :=
  VERSION ++ ename e ++ [type_byte (ety e)] ++ junk 3 ++ to_le 8 (eoffset e) ++ to_le 8 (elength e) ++ junk 40.

(** The files get their offsets, in order. *)
Fixpoint place_files (offset : Z) (es : list entry) : list entry * list Z :=
  match es with
  | [] => ([], [])
  | e :: es =>
      match ety e with
      | FileType =>
          let '(es', offs) := place_files (offset + next_multiple_of (elength e) PAGE_ALIGN) es in
          (MkEntry (ename e) FileType offset (elength e) :: es', offset :: offs)
      | DirectoryType => let '(es', offs) := place_files offset es in (e :: es', offs)
      end
  end.

(** The loop that copies the contents; [end_offset] is where the last one ends. *)
Fixpoint copy_files (offs : list Z) (cs : list (list Z)) (end_offset : Z) : list Z :=
  match offs, cs with
  | off :: offs, c :: cs =>
      let next := match offs with o :: _ => o | [] => end_offset end in
      c ++ zeros (off + Z.of_nat (length c)) next ++ copy_files offs cs end_offset
  | _, _ => []
  end.

Definition generate (input : Tree) : res () (list Z) :=
  '(entries, contents) ← split input;
  let n := Z.of_nat (length entries) in
  e0 ← unwrap (head entries);
  let header := write_typed (header_bytes (MkHeader n (BOOT_HEADER_SIZE + 8) (elength e0))) BOOT_HEADER_SIZE in
  let ent_start := next_multiple_of (BOOT_HEADER_SIZE + n * 8) PAGE_ALIGN in
  let table := mjoin ((λ i, to_le 8 (ent_start + i * ENTRY_SIZE)) <$> seqZ 0 n) in
  let len := BOOT_HEADER_SIZE + n * 8 in
  let aligned_len := next_multiple_of len PAGE_ALIGN in
  let first := aligned_len + next_multiple_of (n * ENTRY_SIZE) PAGE_ALIGN in
  let '(entries, file_offsets) := place_files first entries in
  let meta := mjoin ((λ e, write_typed (entry_bytes e) ENTRY_SIZE) <$> entries) in
  let len' := aligned_len + n * ENTRY_SIZE in
  let prefix := header ++ table ++ zeros len aligned_len ++ meta in
  match contents with
  | [] => Ok prefix
  | _ =>
      _ ← assert_ (bool_decide (length file_offsets = length contents));
      first_len ← unwrap (head file_offsets);
      last_off ← unwrap (last file_offsets);
      last_content ← unwrap (last contents);
      let end_offset := next_multiple_of (last_off + Z.of_nat (length last_content)) PAGE_ALIGN in
      Ok (prefix ++ zeros len' first_len ++ copy_files file_offsets contents end_offset)
  end.
End generate.

(** ** Reading an image ([parse.rs]) *)

Section parse.
Context (aligned : Z → bool) (image : list Z).

(** [&s[from..][..len]]. *)
Definition slice (s : list Z) (from len : Z) : res () (list Z) :=
  if (from <=? Z.of_nat (length s)) && (len <=? Z.of_nat (length s) - from)
  then Ok (take (Z.to_nat len) (drop (Z.to_nat from) s)) else Panic.

Definition word_at (s : list Z) (off : nat) : Z := from_le (take 8 (drop off s)).

(** [plain::from_bytes]: [None] when the address is not aligned. *)
Definition header_from_bytes (s : list Z) : option BootfsHeader :=
  if aligned 0 then Some (MkHeader (word_at s 8) (word_at s 16) (word_at s 24)) else None.

Definition entry_from_bytes (off : Z) (s : list Z) : res () (option entry) :=
  if aligned off then
    match s !! 68%nat with
    | Some 0 => Ok (Some (MkEntry (take 64 (drop 4 s)) FileType (word_at s 72) (word_at s 80)))
    | Some 1 => Ok (Some (MkEntry (take 64 (drop 4 s)) DirectoryType (word_at s 72) (word_at s 80)))
    | _ => Panic
    end
  else Ok None.

(** [Directory::root]: the bytes of the root directory. *)
Definition root : res () (option (list Z)) :=
  version ← slice image 0 4;
  if bool_decide (version = VERSION) then
    s ← slice image 0 BOOT_HEADER_SIZE;
    match header_from_bytes s with
    | None => Ok None
    | Some header => d ← slice image (root_dir_offset header) (root_dir_len header); Ok (Some d)
    end
  else Ok None.

(** [DirIter::next]: the entry and what remains of the directory. *)
Definition dir_next (rem : list Z) : res () (option (entry * list Z)) :=
  if Z.of_nat (length rem) <? 8 then Ok None
  else
    let offset := from_le (take 8 rem) in
    s ← slice image offset ENTRY_SIZE;
    if bool_decide (take 4 s = VERSION) then
      o ← entry_from_bytes offset s;
      Ok (match o with Some e => Some (e, drop 8 rem) | None => None end)
    else Ok None.

Definition name_eq (e : entry) (name : list Z) : res () bool :=
  let len := Z.min (Z.of_nat (length name)) (MAX_NAME_LEN - 1) in
  s ← slice (ename e) 0 len;
  if bool_decide (s = name) then b ← unwrap (ename e !! Z.to_nat len); Ok (b =? 0) else Ok false.

(** [iter().find(..)]; the fuel bounds the number of entries. *)
Fixpoint get_loop (fuel : nat) (rem name : list Z) : res () (option entry) :=
  match fuel with
  | O => Panic
  | S fuel =>
      o ← dir_next rem;
      match o with
      | None => Ok None
      | Some (e, rem) => b ← name_eq e name; if b : bool then Ok (Some e) else get_loop fuel rem name
      end
  end.

Definition get_entry (dir name : list Z) : res () (option entry) := get_loop (S (length dir)) dir name.

(** [Entry::content]: the bytes of a file, or of a directory. *)
Definition entry_content (e : entry) : res () (list Z + list Z) :=
  content ← slice image (eoffset e) (elength e);
  match ety e with
  | FileType => Ok (inl content)
  | DirectoryType => _ ← assert_ (Z.land (Z.of_nat (length content)) 7 =? 0); Ok (inr content)
  end.

Fixpoint find_names (dir : list Z) (names : list (list Z)) : res () (option (list Z)) :=
  match names with
  | [] => Ok None
  | name :: names =>
      o ← get_entry dir name;
      match o with
      | None => Ok None
      | Some e =>
          c ← entry_content e;
          match c with
          | inl content => Ok (Some content)
          | inr dir => find_names dir names
          end
      end
  end.

Definition find (dir path : list Z) (separator : Z) : res () (option (list Z)) :=
  find_names dir (split_on separator path).
End parse.
