(* ===== verification/BootfsSpec.v ===== *)
(** * Images are read as the trees they were generated from

    The entries are the nodes of the tree in breadth-first order; every directory
    points at the place of its children in the table, and every file at its content. *)

From S2P Require Import Base Mem Slices Bootfs.
Local Open Scope Z_scope.

(** ** Trees *)

Definition name_ok (n : list Z) : Prop := Z.of_nat (length n) < MAX_NAME_LEN ∧ Forall (λ b, 0 < b < 256) n.

Fixpoint wf_tree (t : Tree) : Prop :=
  match t with
  | TFile n c => name_ok n ∧ Forall is_byte c
  | TDir n es => name_ok n ∧ fold_right (λ t Q, wf_tree t ∧ Q) True es
  end.

Definition kids (t : Tree) : list Tree := match t with TFile _ _ => [] | TDir _ es => es end.
Definition file_of (t : Tree) : option (list Z) := match t with TFile _ c => Some c | TDir _ _ => None end.
Definition queue_size (q : list Tree) : nat := fold_right (λ t n, tree_size t + n)%nat 0%nat q.

(** What a path leads to; a file ends it. *)
Fixpoint tree_find (es : list Tree) (names : list (list Z)) : option (list Z) :=
  match names with
  | [] => None
  | n :: names =>
      '(_, t) ← list_find (λ t, tname t = n) es;
      match t with TFile _ c => Some c | TDir _ es => tree_find es names end
  end.

Lemma wf_kids t : wf_tree t → Forall wf_tree (kids t).
Proof. destruct t as [|n es]; [by constructor|]. intros [_ H]. cbn. induction es as [|t es IH]; [constructor|]. destruct H as [H1 H2]. constructor; [done|by apply IH]. Qed.

Lemma wf_name t : wf_tree t → name_ok (tname t).
Proof. by destruct t as [|]; intros [? _]. Qed.

Lemma tree_size_kids t : tree_size t = S (queue_size (kids t)).
Proof. by destruct t. Qed.

Lemma queue_size_app p q : queue_size (p ++ q) = (queue_size p + queue_size q)%nat.
Proof. unfold queue_size. induction p as [|t p IH]; cbn; [done|]. rewrite IH. lia. Qed.

(** ** Breadth-first order *)

Fixpoint bfs (fuel : nat) (q : list Tree) : list Tree :=
  match fuel, q with
  | S fuel, t :: q => t :: bfs fuel (q ++ kids t)
  | _, _ => []
  end.

(** What is in the queue comes first. *)
Lemma bfs_prefix fuel q : (queue_size q ≤ fuel)%nat → ∃ r, bfs fuel q = q ++ r.
Proof.
  revert q. induction fuel as [|fuel IH]; intros [|t q] Hs; try (by exists []).
  - cbn in Hs. rewrite tree_size_kids in Hs. lia.
  - cbn [queue_size fold_right] in Hs. rewrite tree_size_kids in Hs.
    destruct (IH (q ++ kids t)) as [r Hr]; [rewrite queue_size_app; unfold queue_size in *; lia|].
    exists (kids t ++ r). cbn [bfs]. by rewrite Hr, <- app_assoc.
Qed.

(** An entry describes a node; the children of a directory are [c] nodes from the start. *)
Definition describes (nodes : list Tree) (k : Z) (t : Tree) (e : entry) : Prop :=
  ename e = pad_name (tname t) ∧
  match t with
  | TFile _ c => ety e = FileType ∧ elength e = Z.of_nat (length c)
  | TDir _ es => ety e = DirectoryType ∧ elength e = Z.of_nat (length es) * 8 ∧
      ∃ c, 0 ≤ c ∧ c + Z.of_nat (length es) ≤ Z.of_nat (length nodes) ∧
        eoffset e = BOOT_HEADER_SIZE + (k + c) * 8 ∧ take (length es) (drop (Z.to_nat c) nodes) = es
  end.

Lemma describes_cons t nodes k u e : describes nodes (k + 1) u e → describes (t :: nodes) k u e.
Proof.
  intros [Hn Hu]. split; [done|]. destruct u as [|n es]; [done|]. destruct Hu as (Hty & Hl & c & Hc & Hn' & Ho & Ht).
  split; [done|]. split; [done|]. exists (c + 1). split; [lia|]. split; [cbn [length]; lia|]. split; [rewrite Ho; lia|].
  by replace (Z.to_nat (c + 1)) with (S (Z.to_nat c)) by lia.
Qed.

Lemma bfs_split_ok fuel q k : (queue_size q ≤ fuel)%nat → Forall wf_tree q →
  ∃ es, split_loop fuel q k = Ok (es, omap file_of (bfs fuel q)) ∧ Forall2 (describes (bfs fuel q) k) (bfs fuel q) es.
Proof.
  revert q k. induction fuel as [|fuel IH]; intros [|t q] k Hs Hq; try (exists []; by split).
  - cbn in Hs. rewrite tree_size_kids in Hs. lia.
  - apply Forall_cons in Hq as [Ht Hq]. cbn [queue_size fold_right] in Hs. rewrite tree_size_kids in Hs.
    assert (queue_size (q ++ kids t) ≤ fuel)%nat as Hs' by (rewrite queue_size_app; unfold queue_size in *; lia).
    destruct (IH (q ++ kids t) (k + 1) Hs') as (es & Hrun & Hdes); [apply Forall_app; split; [done|by apply wf_kids]|].
    destruct (bfs_prefix _ _ Hs') as [r Hr]. cbn [split_loop bfs].
    destruct (wf_name t Ht) as [Hlen _]. rewrite (proj2 (Z.ltb_lt _ _)) by done. cbn [assert_ mbind res_bind].
    destruct t as [n c|n ents]; cbn [kids tname] in *.
    + rewrite app_nil_r in *. rewrite Hrun. cbn. eexists. split; [done|]. constructor; [done|].
      eapply Forall2_impl; [exact Hdes|]. intros u e. apply describes_cons.
    + rewrite Hrun. cbn. eexists. split; [done|]. constructor.
      * split; [done|]. split; [done|]. split; [done|]. exists (1 + Z.of_nat (length q)). split; [lia|].
        split; [rewrite Hr; cbn [length]; rewrite !length_app; lia|]. split; [cbn [eoffset]; lia|]. replace (Z.to_nat (1 + Z.of_nat (length q))) with (S (length q)) by lia.
        cbn [drop]. rewrite Hr, <- app_assoc, drop_app_length. by rewrite take_app_length.
      * eapply Forall2_impl; [exact Hdes|]. intros u e. apply describes_cons.
Qed.

(** ** Contents of files *)

Lemma next_multiple_ge a b : 0 < b → a ≤ next_multiple_of a b.
Proof. intros Hb. unfold next_multiple_of. pose proof (Z.div_mod (a + b - 1) b ltac:(lia)). pose proof (Z.mod_pos_bound (a + b - 1) b Hb). lia. Qed.

(** [n] bytes at [from] of a list. *)
Definition at_ (s : list Z) (from n : Z) (bs : list Z) : Prop :=
  0 ≤ from ∧ 0 ≤ n ∧ from + n ≤ Z.of_nat (length s) ∧ take (Z.to_nat n) (drop (Z.to_nat from) s) = bs.

Lemma at_app_r p s from n bs : at_ s from n bs → at_ (p ++ s) (Z.of_nat (length p) + from) n bs.
Proof.
  intros (H1 & Hn & H2 & H3). split; [lia|]. split; [done|]. rewrite length_app. split; [lia|].
  rewrite drop_app_ge by lia. by replace (Z.to_nat (Z.of_nat (length p) + from) - length p)%nat with (Z.to_nat from) by lia.
Qed.

Lemma at_here s r : at_ (s ++ r) 0 (Z.of_nat (length s)) s.
Proof. split; [done|]. split; [lia|]. rewrite length_app. split; [lia|]. rewrite Nat2Z.id. apply take_app_length. Qed.

Lemma at_slice s from n bs : at_ s from n bs → slice s from n = Ok bs.
Proof.
  intros (H1 & Hn & H2 & <-). unfold slice.
  by rewrite (proj2 (Z.leb_le _ _)), (proj2 (Z.leb_le _ _)) by lia.
Qed.

(** The content of a file is where its entry says, in what follows [off]. *)
Definition placed (off : Z) (blob : list Z) (t : Tree) (e : entry) : Prop :=
  match t with
  | TFile _ c => at_ blob (eoffset e - off) (Z.of_nat (length c)) c
  | TDir _ _ => True
  end.

Lemma place_ok N k nodes es : Forall2 (describes N k) nodes es → ∀ off es' offs end_offset,
  place_files off es = (es', offs) →
  let blob := copy_files offs (omap file_of nodes) end_offset in
  length offs = length (omap file_of nodes) ∧ (offs = [] ∨ head offs = Some off) ∧
  Forall2 (λ t e, describes N k t e ∧ placed off blob t e) nodes es'.
Proof.
  induction 1 as [|t e nodes es He Hes IH]; intros off es' offs fin Hp; cbn [place_files] in Hp.
  - simplify_eq. cbn. split; [done|]. split; [by left|constructor].
  - destruct t as [n c|n ds]; pose proof He as [Hname Hty].
    + destruct Hty as [Hty Hlen]. rewrite Hty in Hp.
      destruct (place_files _ es) as [es2 offs2] eqn:Hrec. injection Hp as <- <-.
      destruct (IH _ _ _ fin Hrec) as (Hl & Hh & HF). cbn [omap list_omap file_of copy_files] in *.
      set (next := match offs2 with o :: _ => o | [] => fin end).
      set (blob2 := copy_files offs2 _ fin) in *.
      split; [cbn; by rewrite Hl|]. split; [by right|]. constructor.
      * split; [split; [done|by split]|]. cbn [placed eoffset]. rewrite Z.sub_diag. apply at_here.
      * apply Forall2_same_length_lookup. split; [by eapply Forall2_length|].
        intros i t' e' Ht' He'. destruct (Forall2_lookup_lr _ _ _ _ _ _ HF Ht' He') as [Hd Hpl].
        split; [done|]. destruct t' as [n' c'|]; [|done]. cbn [placed] in Hpl |- *.
        assert (c' ∈ omap file_of nodes) as Hin.
        { apply list_elem_of_omap. exists (TFile n' c'). split; [by eapply list_elem_of_lookup_2|done]. }
        destruct Hh as [->|Hh]; [by destruct (omap file_of nodes); [apply elem_of_nil in Hin|]|].
        assert (next = off + next_multiple_of (elength e) PAGE_ALIGN) as Hnext by (subst next; by destruct offs2; simplify_eq/=).
        pose proof (next_multiple_ge (elength e) PAGE_ALIGN ltac:(done)).
        rewrite app_assoc. replace (eoffset e' - off) with
          (Z.of_nat (length (c ++ zeros (off + Z.of_nat (length c)) next))
           + (eoffset e' - (off + next_multiple_of (elength e) PAGE_ALIGN))); [by apply at_app_r|].
        unfold zeros. rewrite length_app, length_replicate. lia.
    + destruct Hty as [Hty Hrest]. rewrite Hty in Hp.
      destruct (place_files _ es) as [es2 offs2] eqn:Hrec. injection Hp as <- <-.
      destruct (IH _ _ _ fin Hrec) as (Hl & Hh & HF). cbn [omap list_omap file_of] in *.
      split; [done|]. split; [done|]. by constructor.
Qed.

(** ** The image *)

Lemma length_join_const {A} (ls : list (list A)) m : Forall (λ l, length l = m) ls → length (mjoin ls) = (m * length ls)%nat.
Proof.
  induction 1 as [|l ls Hl _ IH]; [cbn; lia|]. change (mjoin (l :: ls)) with (l ++ mjoin ls).
  rewrite length_app, IH, Hl. cbn [length]. lia.
Qed.

Lemma seqZ_split n c k : 0 ≤ c → 0 ≤ k → c + k ≤ n → seqZ 0 n = seqZ 0 c ++ seqZ c k ++ seqZ (c + k) (n - c - k).
Proof.
  intros. replace n with (c + (k + (n - c - k))) at 1 by lia. rewrite !seqZ_app by lia. by rewrite Z.add_0_l.
Qed.

Lemma pad_name_length n : Z.of_nat (length n) < MAX_NAME_LEN → length (pad_name n) = 64%nat.
Proof. intros Hn. unfold pad_name. rewrite length_app, length_replicate. change MAX_NAME_LEN with 64 in *. lia. Qed.

Section image.
Context (junk : nat → list Z) (Hjunk : ∀ n, length (junk n) = n).

Lemma header_bytes_length h : length (header_bytes junk h) = 128%nat.
Proof using Hjunk. unfold header_bytes. by rewrite !length_app, !to_le_length, !Hjunk. Qed.

Lemma entry_bytes_length e : length (ename e) = 64%nat → length (entry_bytes junk e) = 128%nat.
Proof using Hjunk. intros He. unfold entry_bytes. by rewrite !length_app, !to_le_length, !Hjunk, He. Qed.

Lemma write_typed_exact data size : Z.of_nat (length data) = size → write_typed data size = data.
Proof. intros <-. unfold write_typed. rewrite Nat2Z.id, Nat.sub_diag. apply app_nil_r. Qed.

Definition word (v : Z) : Prop := 0 ≤ v < 2 ^ 64.

Lemma take_word v r : take 8 (to_le 8 v ++ r) = to_le 8 v.
Proof. apply take_app_length'. by rewrite to_le_length. Qed.

Lemma drop_word v r : drop 8 (to_le 8 v ++ r) = r.
Proof. apply drop_app_length'. by rewrite to_le_length. Qed.

Lemma word_at_app p v r : word v → word_at (p ++ to_le 8 v ++ r) (length p) = v.
Proof.
  intros Hv. unfold word_at. rewrite drop_app_length, take_word. by apply from_to_le.
Qed.

Lemma entry_roundtrip_bytes aligned off e :
  aligned off = true → length (ename e) = 64%nat → word (eoffset e) → word (elength e) →
  take 4 (entry_bytes junk e) = VERSION ∧ entry_from_bytes aligned off (entry_bytes junk e) = Ok (Some e).
Proof using Hjunk.
  intros Ha Hn Ho Hl. split; [done|]. unfold entry_from_bytes. rewrite Ha.
  assert (entry_bytes junk e !! 68%nat = Some (type_byte (ety e))) as ->.
  { unfold entry_bytes. rewrite app_assoc. rewrite lookup_app_r by (rewrite length_app, Hn; done). by rewrite length_app, Hn. }
  assert (take 64 (drop 4 (entry_bytes junk e)) = ename e) as ->.
  { unfold entry_bytes. rewrite (drop_app_length VERSION), <- Hn. apply take_app_length. }
  assert (word_at (entry_bytes junk e) 72 = eoffset e) as ->.
  { unfold entry_bytes. rewrite !app_assoc, <- !(app_assoc _ (to_le 8 (eoffset e))).
    set (p := ((VERSION ++ ename e) ++ _) ++ _). replace 72%nat with (length p) by (subst p; by rewrite !length_app, Hjunk, Hn).
    rewrite <- app_assoc. by apply word_at_app. }
  assert (word_at (entry_bytes junk e) 80 = elength e) as ->.
  { unfold entry_bytes. rewrite !app_assoc, <- (app_assoc _ (to_le 8 (elength e))).
    set (p := (((VERSION ++ ename e) ++ _) ++ _) ++ _). replace 80%nat with (length p) by (subst p; by rewrite !length_app, !to_le_length, Hjunk, Hn).
    by apply word_at_app. }
  by destruct e as [? []].
Qed.
End image.

(** ** Reading *)

Lemma name_eq_ok e n name :
  ename e = pad_name n → name_ok n → Forall (λ b, b ≠ 0) name → name_eq e name = Ok (bool_decide (n = name)).
Proof.
  intros He [Hn Hb] Hname. unfold name_eq. pose proof (pad_name_length n Hn) as Hl. rewrite He.
  change MAX_NAME_LEN with 64 in *. set (len := Z.min _ _).
  assert (slice (pad_name n) 0 len = Ok (take (Z.to_nat len) (pad_name n))) as ->.
  { apply at_slice. split; [lia|]. split; [lia|]. split; [lia|done]. }
  cbn [mbind res_bind]. case_bool_decide as Heq.
  - assert (Z.to_nat len = length name) as Hlen.
    { rewrite <- Heq, length_take, Hl. lia. }
    assert (length name ≤ length n)%nat as Hle.
    { destruct (decide (length name ≤ length n)%nat) as [|Hgt]; [done|]. exfalso.
      assert (name !! length n = Some 0) as H0.
      { rewrite <- Heq, lookup_take_lt by lia. unfold pad_name. rewrite lookup_app_r, Nat.sub_diag by lia.
        apply lookup_replicate_2. change (Z.to_nat MAX_NAME_LEN) with 64%nat. lia. }
      apply (proj1 (Forall_lookup _ _) Hname) in H0. done. }
    rewrite Hlen. destruct (decide (length name = length n)) as [E|E].
    + assert (pad_name n !! length name = Some 0) as ->.
      { unfold pad_name. rewrite lookup_app_r, E, Nat.sub_diag by lia. apply lookup_replicate_2.
        change (Z.to_nat MAX_NAME_LEN) with 64%nat. lia. }
      cbn. rewrite bool_decide_eq_true_2; [done|]. rewrite <- Heq, Hlen, E. unfold pad_name. by rewrite take_app_length.
    + destruct (lookup_lt_is_Some_2 n (length name)) as [b Hnb]; [lia|].
      assert (pad_name n !! length name = Some b) as -> by (unfold pad_name; by apply lookup_app_l_Some).
      cbn. apply (proj1 (Forall_lookup _ _) Hb) in Hnb. rewrite (proj2 (Z.eqb_neq b 0)) by lia.
      rewrite bool_decide_eq_false_2; [done|]. by intros ->.
  - rewrite bool_decide_eq_false_2; [done|]. intros ->. apply Heq.
    replace (Z.to_nat len) with (length name) by lia. unfold pad_name. by rewrite take_app_length.
Qed.

Section reading.
Context (junk : nat → list Z) (Hjunk : ∀ n, length (junk n) = n).
Context (aligned : Z → bool) (Haligned : ∀ off, off mod 128 = 0 → aligned off = true).
Context (nodes : list Tree) (es : list entry) (image : list Z).

Abbreviation N := (Z.of_nat (length nodes)).
Definition ent_start : Z := next_multiple_of (BOOT_HEADER_SIZE + N * 8) PAGE_ALIGN.
Definition dir_bytes (c k : Z) : list Z := mjoin ((λ i, to_le 8 (ent_start + i * ENTRY_SIZE)) <$> seqZ c k).

Record image_ok : Prop := {
  io_small : Z.of_nat (length image) < 2 ^ 64;
  io_table c k : 0 ≤ c → 0 ≤ k → c + k ≤ N → at_ image (BOOT_HEADER_SIZE + c * 8) (k * 8) (dir_bytes c k);
  io_meta i e : es !! i = Some e → at_ image (ent_start + Z.of_nat i * ENTRY_SIZE) ENTRY_SIZE (entry_bytes junk e);
  io_desc : Forall2 (λ t e, describes nodes 0 t e ∧ placed 0 image t e) nodes es;
  io_wf : Forall wf_tree nodes;
}.
Hypothesis (Hi : image_ok).

Lemma ent_start_aligned i : (ent_start + i * ENTRY_SIZE) mod 128 = 0.
Proof.
  unfold ent_start, next_multiple_of. change PAGE_ALIGN with (32 * 128). change ENTRY_SIZE with 128.
  rewrite Z.mul_assoc, <- Z.mul_add_distr_r. apply Z_mod_mult.
Qed.

Lemma node_entry i t : nodes !! i = Some t → ∃ e, es !! i = Some e ∧ describes nodes 0 t e ∧ placed 0 image t e ∧
  wf_tree t ∧ word (eoffset e) ∧ word (elength e).
Proof using Hi.
  intros Ht. destruct (Forall2_lookup_l _ _ _ _ _ (io_desc Hi) Ht) as (e & He & Hd & Hp). exists e.
  pose proof (proj1 (Forall_lookup _ _) (io_wf Hi) _ _ Ht) as Hw. pose proof (io_small Hi).
  split; [done|]. split; [done|]. split; [done|]. split; [done|]. unfold word. destruct t as [nm c|nm ds].
  - destruct Hd as [_ [_ Hl]], Hp as (H1 & H2 & H3 & _). rewrite Z.sub_0_r in *. rewrite Hl. lia.
  - destruct Hd as [_ (_ & Hl & c & Hc & Hn & Ho & _)]. destruct (io_table Hi c (Z.of_nat (length ds))) as (_ & _ & H3 & _); [lia..|].
    rewrite Ho, Hl. change BOOT_HEADER_SIZE with 128 in *. lia.
Qed.

Lemma dir_next_ok c k t : 0 ≤ c → 0 < k → c + k ≤ N → nodes !! Z.to_nat c = Some t →
  ∃ e, es !! Z.to_nat c = Some e ∧ dir_next aligned image (dir_bytes c k) = Ok (Some (e, dir_bytes (c + 1) (k - 1))).
Proof using All.
  intros Hc Hk Hn Ht. destruct (node_entry _ _ Ht) as (e & He & Hd & _ & Hw & Ho & Hl). exists e. split; [done|].
  pose proof (io_meta Hi _ _ He) as Hm. rewrite Z2Nat.id in Hm by done.
  assert (word (ent_start + c * ENTRY_SIZE)) as Hoff.
  { destruct Hm as (H1 & _ & H3 & _). pose proof (io_small Hi). unfold word. change ENTRY_SIZE with 128 in *. lia. }
  assert (dir_bytes c k = to_le 8 (ent_start + c * ENTRY_SIZE) ++ dir_bytes (c + 1) (k - 1)) as ->.
  { unfold dir_bytes. rewrite seqZ_cons by done. cbn. by rewrite Z.add_1_r, Z.sub_1_r. }
  unfold dir_next. rewrite length_app, to_le_length. rewrite (proj2 (Z.ltb_ge _ _)) by lia.
  rewrite take_word, drop_word. rewrite from_to_le by done. rewrite (at_slice _ _ _ _ Hm). cbn [mbind res_bind].
  destruct (entry_roundtrip_bytes junk Hjunk aligned (ent_start + c * ENTRY_SIZE) e) as [-> ->]; [|..|done].
  - apply Haligned, ent_start_aligned.
  - destruct Hd as [-> _]. apply pad_name_length. by apply wf_name.
  - done.
  - done.
Qed.

Lemma get_loop_ok name : Forall (λ b, b ≠ 0) name → ∀ k c fuel, 0 ≤ c → c + Z.of_nat k ≤ N → (k < fuel)%nat →
  get_loop aligned image fuel (dir_bytes c (Z.of_nat k)) name =
    Ok ('(j, _) ← list_find (λ t, tname t = name) (take k (drop (Z.to_nat c) nodes)); es !! (Z.to_nat c + j)%nat).
Proof using All.
  intros Hname. induction k as [|k IH]; intros c fuel Hc Hn Hf; (destruct fuel as [|fuel]; [lia|]); cbn [get_loop].
  - done.
  - destruct (lookup_lt_is_Some_2 nodes (Z.to_nat c)) as [t Ht]; [lia|].
    destruct (dir_next_ok c (Z.of_nat (S k)) t) as (e & He & ->); [lia..|done|]. cbn [mbind res_bind].
    destruct (node_entry _ _ Ht) as (e' & He' & [Hnm _] & _ & Hw & _). rewrite He in He'. injection He' as <-.
    rewrite (name_eq_ok e (tname t)) by (done || by apply wf_name). cbn [mbind res_bind].
    rewrite (drop_S _ _ _ Ht). cbn [take list_find]. case_bool_decide as Heq.
    + rewrite decide_True by done. cbn. by rewrite Nat.add_0_r, He.
    + rewrite decide_False by done. replace (Z.of_nat (S k) - 1) with (Z.of_nat k) by lia.
      rewrite IH by lia. replace (Z.to_nat (c + 1)) with (S (Z.to_nat c)) by lia.
      destruct (list_find _ _) as [[j t']|]; cbn; [|done]. by rewrite Nat.add_succ_r.
Qed.

Lemma dir_bytes_length c k : 0 ≤ k → Z.of_nat (length (dir_bytes c k)) = k * 8.
Proof.
  intros Hk. unfold dir_bytes. rewrite (length_join_const _ 8), length_fmap, length_seqZ; [lia|].
  apply Forall_fmap, Forall_true. intros i. apply to_le_length.
Qed.

(** From the bytes of a directory, [find] follows a path as in the tree. *)
Lemma find_names_ok names : Forall (Forall (λ b, b ≠ 0)) names → ∀ c ds,
  0 ≤ c → c + Z.of_nat (length ds) ≤ N → take (length ds) (drop (Z.to_nat c) nodes) = ds →
  find_names aligned image (dir_bytes c (Z.of_nat (length ds))) names = Ok (tree_find ds names).
Proof using All.
  induction 1 as [|name names Hname Hnames IH]; intros c ds Hc Hn Hds; cbn [find_names tree_find]; [done|].
  unfold get_entry. rewrite get_loop_ok, Hds; [|done|done|done|].
  2: { pose proof (dir_bytes_length c (Z.of_nat (length ds))). lia. }
  destruct (list_find _ ds) as [[j t]|] eqn:Hf; cbn [mbind option_bind res_bind]; [|done].
  apply list_find_Some in Hf as (Hj & Hname' & _). rewrite <- Hds in Hj. apply lookup_take_Some in Hj as [Hj _].
  rewrite lookup_drop in Hj. destruct (node_entry _ _ Hj) as (e & -> & [_ Hd] & Hp & _). cbn [mbind res_bind].
  unfold entry_content. destruct t as [nm ct|nm ds'].
  - destruct Hd as [-> ->]. cbn [placed] in Hp. rewrite Z.sub_0_r in Hp. by rewrite (at_slice _ _ _ _ Hp).
  - destruct Hd as (-> & -> & c' & Hc' & Hn' & -> & Ht'). rewrite Z.add_0_l.
    rewrite (at_slice _ _ _ _ (io_table Hi c' (Z.of_nat (length ds')) ltac:(lia) ltac:(lia) ltac:(lia))).
    cbn [mbind res_bind]. rewrite dir_bytes_length by lia. change 7 with (Z.ones 3).
    rewrite Z.land_ones by done. change (2 ^ 3) with 8. rewrite Z_mod_mult. cbn [Z.eqb assert_ mbind res_bind].
    by apply IH.
Qed.
End reading.

(** ** Generated images *)

Section generated.
Context (junk : nat → list Z) (Hjunk : ∀ n, length (junk n) = n).

Lemma bfs_wf fuel q : Forall wf_tree q → Forall wf_tree (bfs fuel q).
Proof.
  revert q. induction fuel as [|fuel IH]; intros [|t q] Hq; cbn [bfs]; try by constructor.
  apply Forall_cons in Hq as [Ht Hq]. constructor; [done|]. apply IH, Forall_app. split; [done|by apply wf_kids].
Qed.

(** The parts of an image, whatever follows the entries. *)
Definition front (nodes : list Tree) (es : list entry) (root_len : Z) : list Z :=
  let n := Z.of_nat (length nodes) in
  header_bytes junk (MkHeader n (BOOT_HEADER_SIZE + 8) root_len) ++ dir_bytes nodes 0 n
  ++ zeros (BOOT_HEADER_SIZE + n * 8) (ent_start nodes) ++ mjoin (entry_bytes junk <$> es).

Lemma at_prefix s from n bs r : at_ s from n bs → at_ (s ++ r) from n bs.
Proof.
  intros (H1 & H2 & H3 & H4). split; [done|]. split; [done|]. rewrite length_app. split; [lia|].
  rewrite drop_app_le, take_app_le; [done|..]; rewrite ?length_drop; lia.
Qed.

Lemma front_table nodes es rl c k : 0 ≤ c → 0 ≤ k → c + k ≤ Z.of_nat (length nodes) →
  at_ (front nodes es rl) (BOOT_HEADER_SIZE + c * 8) (k * 8) (dir_bytes nodes c k).
Proof using Hjunk.
  intros Hc Hk Hn. unfold front. cbv zeta. set (n := Z.of_nat (length nodes)) in *.
  replace BOOT_HEADER_SIZE with (Z.of_nat (length (header_bytes junk (MkHeader n (BOOT_HEADER_SIZE + 8) rl)))) at 3
    by by rewrite header_bytes_length.
  apply at_app_r, at_prefix. unfold dir_bytes at 1. rewrite (seqZ_split n c k) by lia. rewrite !fmap_app, !join_app.
  fold (dir_bytes nodes 0 c). fold (dir_bytes nodes c k). rewrite <- (dir_bytes_length nodes 0 c) by done.
  rewrite <- (Z.add_0_r (Z.of_nat (length (dir_bytes nodes 0 c)))). apply at_app_r.
  rewrite <- (dir_bytes_length nodes c k) by done. apply at_here.
Qed.

Lemma front_meta nodes es rl i e : Forall (λ e, length (ename e) = 64%nat) es → es !! i = Some e →
  at_ (front nodes es rl) (ent_start nodes + Z.of_nat i * ENTRY_SIZE) ENTRY_SIZE (entry_bytes junk e).
Proof using Hjunk.
  intros Hes He. pose proof (proj1 (Forall_lookup _ _) Hes _ _ He) as Hel.
  assert (BOOT_HEADER_SIZE + Z.of_nat (length nodes) * 8 ≤ ent_start nodes) by by apply next_multiple_ge.
  unfold front. cbv zeta. set (n := Z.of_nat (length nodes)) in *. rewrite !app_assoc.
  set (p := (_ ++ _) ++ zeros _ _).
  replace (ent_start nodes) with (Z.of_nat (length p)).
  2: { subst p. unfold zeros. rewrite !length_app, header_bytes_length, length_replicate by done.
       pose proof (dir_bytes_length nodes 0 n). change BOOT_HEADER_SIZE with 128 in *. lia. }
  apply at_app_r. rewrite <- (take_drop_middle _ _ _ He). rewrite fmap_app, join_app. cbn [fmap list_fmap].
  change (mjoin (?a :: ?b)) with (a ++ mjoin b).
  rewrite <- (Z.add_0_r (Z.of_nat i * ENTRY_SIZE)).
  replace (Z.of_nat i * ENTRY_SIZE) with (Z.of_nat (length (mjoin (entry_bytes junk <$> take i es)))).
  - apply at_app_r. replace ENTRY_SIZE with (Z.of_nat (length (entry_bytes junk e))); [apply at_here|].
    by rewrite (entry_bytes_length junk Hjunk).
  - rewrite (length_join_const _ 128), length_fmap, length_take.
    + apply lookup_lt_Some in He. change ENTRY_SIZE with 128. lia.
    + apply Forall_fmap, Forall_take. eapply Forall_impl; [exact Hes|]. intros e'. by apply entry_bytes_length.
Qed.

Lemma front_length nodes es rl : Forall (λ e, length (ename e) = 64%nat) es → length es = length nodes →
  Z.of_nat (length (front nodes es rl)) = ent_start nodes + Z.of_nat (length nodes) * ENTRY_SIZE.
Proof using Hjunk.
  intros Hes Hl. assert (BOOT_HEADER_SIZE + Z.of_nat (length nodes) * 8 ≤ ent_start nodes) by by apply next_multiple_ge.
  unfold front, zeros. cbv zeta. rewrite !length_app, header_bytes_length, length_replicate by done.
  rewrite (length_join_const (entry_bytes junk <$> es) 128), length_fmap, Hl.
  - pose proof (dir_bytes_length nodes 0 (Z.of_nat (length nodes))). change BOOT_HEADER_SIZE with 128 in *.
    change ENTRY_SIZE with 128. lia.
  - apply Forall_fmap. eapply Forall_impl; [exact Hes|]. intros e'. by apply entry_bytes_length.
Qed.

Lemma describes_names N k nodes es (Q : Tree → entry → Prop) :
  Forall wf_tree nodes → Forall2 (λ t e, describes N k t e ∧ Q t e) nodes es → Forall (λ e, length (ename e) = 64%nat) es.
Proof.
  intros Hw HF. induction HF as [|t e nodes es [[Hn _] _] _ IH]; [constructor|].
  apply Forall_cons in Hw as [Ht Hw]. constructor; [|by apply IH]. rewrite Hn. apply pad_name_length. by apply wf_name.
Qed.

Lemma write_entries es : Forall (λ e, length (ename e) = 64%nat) es →
  (λ e, write_typed (entry_bytes junk e) ENTRY_SIZE) <$> es = entry_bytes junk <$> es.
Proof using Hjunk.
  intros Hes. apply list_fmap_ext. intros i e He. apply write_typed_exact.
  pose proof (proj1 (Forall_lookup _ _) Hes _ _ He) as Hel. cbn in Hel. by rewrite (entry_bytes_length junk Hjunk).
Qed.

Lemma placed_shift p off blob t e : Z.of_nat (length p) = off → placed off blob t e → placed 0 (p ++ blob) t e.
Proof.
  intros Hp. destruct t as [n c|]; [|done]. cbn [placed]. intros Hat.
  replace (eoffset e - 0) with (Z.of_nat (length p) + (eoffset e - off)) by lia. by apply at_app_r.
Qed.

(** Without files there is nothing to place. *)
Lemma no_files_placed N k nodes es off blob image : omap file_of nodes = [] →
  Forall2 (λ t e, describes N k t e ∧ placed off blob t e) nodes es →
  Forall2 (λ t e, describes N k t e ∧ placed 0 image t e) nodes es.
Proof.
  intros Hno HF. apply Forall2_same_length_lookup. split; [by eapply Forall2_length|].
  intros i t e Ht He. destruct (Forall2_lookup_lr _ _ _ _ _ _ HF Ht He) as [Hd _]. split; [done|].
  destruct t as [n c|]; [|done]. exfalso. apply (elem_of_nil c). rewrite <- Hno. apply list_elem_of_omap.
  exists (TFile n c). split; [by eapply list_elem_of_lookup_2|done].
Qed.

(** [generate] succeeds; it writes [front] and the contents of the files. *)
Lemma generate_ok nm ents : wf_tree (TDir nm ents) →
  let nodes := bfs (tree_size (TDir nm ents)) [TDir nm ents] in
  ∃ es tail, let image := front nodes es (Z.of_nat (length ents) * 8) ++ tail in
    generate junk (TDir nm ents) = Ok image ∧
    Forall2 (λ t e, describes nodes 0 t e ∧ placed 0 image t e) nodes es.
Proof using Hjunk.
  intros Ht nodes. destruct (bfs_split_ok (tree_size (TDir nm ents)) [TDir nm ents] 0) as (es0 & Hrun & Hdes);
    [cbn; lia|by apply Forall_singleton|]. fold nodes in Hrun, Hdes.
  assert (Forall wf_tree nodes) as Hw by by apply bfs_wf, Forall_singleton.
  pose proof (Forall2_length _ _ _ Hdes) as Hlen. unfold generate, split. rewrite Hrun. cbn [mbind res_bind].
  destruct es0 as [|e0 es0]; [by subst nodes; cbn in Hlen|].
  assert (elength e0 = Z.of_nat (length ents) * 8) as Hroot.
  { subst nodes. cbn [bfs tree_size] in Hdes. inversion Hdes as [|? ? ? ? [_ Hd] _]; subst. apply Hd. }
  cbn [head unwrap mbind res_bind]. rewrite <- Hlen, Hroot. fold (ent_start nodes).
  set (first := ent_start nodes + _). destruct (place_files first (e0 :: es0)) as [es offs] eqn:Hpl.
  rewrite (write_typed_exact (header_bytes _ _)) by by rewrite header_bytes_length.
  assert (ent_start nodes + Z.of_nat (length nodes) * ENTRY_SIZE ≤ first) as Hfirst.
  { subst first. pose proof (next_multiple_ge (Z.of_nat (length nodes) * ENTRY_SIZE) PAGE_ALIGN ltac:(done)). lia. }
  destruct (omap file_of nodes) as [|c0 cs] eqn:Hfiles.
  - destruct (place_ok _ _ _ _ Hdes first es offs 0 Hpl) as (_ & _ & HF). exists es, [].
    rewrite app_nil_r. split; [|by eapply no_files_placed].
    rewrite write_entries by by eapply describes_names. done.
  - destruct (place_ok _ _ _ _ Hdes first es offs 0 Hpl) as (Hl & Hh & HF0). rewrite Hfiles in Hl.
    rewrite bool_decide_eq_true_2 by done. cbn [assert_ mbind res_bind].
    destruct Hh as [->|Hh]; [done|]. rewrite Hh. cbn [unwrap mbind res_bind].
    destruct (last offs) as [lo|] eqn:Hlo; [|by apply last_None in Hlo as ->].
    destruct (last (c0 :: cs)) as [lc|] eqn:Hlc; [|by apply last_None in Hlc]. cbn [unwrap mbind res_bind].
    set (fin := next_multiple_of _ _). destruct (place_ok _ _ _ _ Hdes first es offs fin Hpl) as (_ & _ & HF).
    rewrite Hfiles in HF. eexists es, _. cbv zeta. rewrite write_entries by by eapply describes_names.
    split; [unfold front; cbv zeta; rewrite <- !app_assoc; done|].
    eapply Forall2_impl; [exact HF|]. intros t e [Hd Hp]. split; [done|]. rewrite app_assoc. eapply placed_shift; [|exact Hp].
    rewrite length_app. unfold zeros. rewrite length_replicate.
    pose proof (front_length nodes es (Z.of_nat (length ents) * 8) (describes_names _ _ _ _ _ Hw HF)).
    pose proof (Forall2_length _ _ _ HF). lia.
Qed.
End generated.

(** ** Theorems *)

Fixpoint join (sep : Z) (names : list (list Z)) : list Z :=
  match names with
  | [] => []
  | [n] => n
  | n :: names => n ++ sep :: join sep names
  end.

Lemma split_join sep names : names ≠ [] → Forall (Forall (λ b, b ≠ sep)) names → split_on sep (join sep names) = names.
Proof.
  intros Hne HF. induction HF as [|n names Hn HF IH]; [done|].
  assert (no_sep sep n) by (eapply Forall_impl; [exact Hn|]; intros b; by apply Z.eqb_neq).
  destruct names as [|m names]; [by apply split_on_name|].
  cbn [join]. rewrite split_on_first by done. f_equal. by apply IH.
Qed.

Lemma root_ok junk aligned nodes es rl tail : (∀ n, length (junk n) = n) → aligned 0 = true →
  word (Z.of_nat (length nodes)) → word rl →
  let image := front junk nodes es rl ++ tail in ∀ d,
  at_ image (BOOT_HEADER_SIZE + 8) rl d → root aligned image = Ok (Some d).
Proof.
  intros Hjunk Ha Hn Hrl image d Hd. unfold root.
  set (h := MkHeader (Z.of_nat (length nodes)) (BOOT_HEADER_SIZE + 8) rl).
  assert (at_ image 0 BOOT_HEADER_SIZE (header_bytes junk h)) as Hh.
  { subst image. unfold front. cbv zeta. rewrite <- app_assoc.
    pose proof (at_here (header_bytes junk h)) as Hat. rewrite header_bytes_length in Hat by done. apply Hat. }
  assert (at_ image 0 4 VERSION) as Hv.
  { destruct Hh as (H1 & H2 & H3 & H4). change BOOT_HEADER_SIZE with 128 in *. split; [done|]. split; [done|]. split; [lia|].
    change (Z.to_nat 128) with 128%nat in H4. change (Z.to_nat 4) with 4%nat. change (Z.to_nat 0) with 0%nat in *.
    rewrite drop_0 in *. replace (take 4 image) with (take 4 (take 128 image)) by by rewrite take_take. by rewrite H4. }
  rewrite (at_slice _ _ _ _ Hv). cbn [mbind res_bind]. rewrite bool_decide_eq_true_2 by done.
  rewrite (at_slice _ _ _ _ Hh). cbn [mbind res_bind]. unfold header_from_bytes. rewrite Ha.
  assert (word_at (header_bytes junk h) 16 = BOOT_HEADER_SIZE + 8) as ->.
  { unfold header_bytes. rewrite !app_assoc, <- !(app_assoc _ (to_le 8 (root_dir_offset h))).
    set (p := (VERSION ++ _) ++ _). replace 16%nat with (length p) by (subst p; by rewrite !length_app, to_le_length, Hjunk).
    rewrite <- app_assoc. by apply word_at_app. }
  assert (word_at (header_bytes junk h) 24 = rl) as ->.
  { unfold header_bytes. rewrite !app_assoc, <- (app_assoc _ (to_le 8 (root_dir_len h))).
    set (p := ((VERSION ++ _) ++ _) ++ _). replace 24%nat with (length p) by (subst p; by rewrite !length_app, !to_le_length, Hjunk).
    by apply word_at_app. }
  cbn [root_dir_offset root_dir_len]. by rewrite (at_slice _ _ _ _ Hd).
Qed.

(** C35: every tree of entries with valid names has an image, and from the root that
    [Directory::root] reads of the image, [find] leads every path to the file it
    leads to in the tree, with the same bytes, or to nothing; whatever the compiler
    leaves in the padding of the structures. *)
Theorem bootfs_roundtrip (junk : nat → list Z) (aligned : Z → bool) (nm : list Z) (ents : list Tree) (sep : Z) :
  (∀ n, length (junk n) = n) → (∀ off, off mod 128 = 0 → aligned off = true) → wf_tree (TDir nm ents) →
  ∃ image, generate junk (TDir nm ents) = Ok image ∧
    (Z.of_nat (length image) < 2 ^ 64 →
      ∃ d, root aligned image = Ok (Some d) ∧
        ∀ names, names ≠ [] → Forall (Forall (λ b, b ≠ 0 ∧ b ≠ sep)) names →
          find aligned image d (join sep names) sep = Ok (tree_find ents names)).
Proof.
  intros Hjunk Hal Ht. destruct (generate_ok junk Hjunk nm ents Ht) as (es & tail & Hgen & HF).
  set (nodes := bfs _ _) in *. set (image := front _ _ _ _ ++ tail) in *. exists image. split; [done|]. intros Hsmall.
  assert (Forall wf_tree nodes) as Hw by by apply bfs_wf, Forall_singleton.
  assert (image_ok junk nodes es image) as Hi.
  { split; [done| | |done|done].
    - intros c k ? ? ?. by apply at_prefix, front_table.
    - intros i e He. apply at_prefix, front_meta; [done|by eapply describes_names|done]. }
  destruct (bfs_prefix (queue_size ents) ents) as [r Hr]; [done|].
  assert (nodes = TDir nm ents :: ents ++ r) as Hnodes.
  { subst nodes. rewrite tree_size_kids. cbn [bfs kids app]. by rewrite Hr. }
  assert (1 + Z.of_nat (length ents) ≤ Z.of_nat (length nodes)) as Hlen
    by (rewrite Hnodes; cbn [length]; rewrite length_app; lia).
  pose proof (io_table _ _ _ _ Hi 1 (Z.of_nat (length ents)) ltac:(lia) ltac:(lia) ltac:(lia)) as Hd.
  pose proof (io_table _ _ _ _ Hi 0 (Z.of_nat (length nodes)) ltac:(lia) ltac:(lia) ltac:(lia)) as (_ & _ & Hsz & _).
  change BOOT_HEADER_SIZE with 128 in Hsz.
  exists (dir_bytes nodes 1 (Z.of_nat (length ents))). split.
  - apply root_ok; [done|by apply Hal|split; lia|split; lia|exact Hd].
  - intros names Hne Hnames. unfold find. rewrite split_join; [|done|by eapply Forall_impl; [exact Hnames|]; intros n Hn; eapply Forall_impl; [exact Hn|]; naive_solver].
    apply (find_names_ok junk Hjunk aligned Hal nodes es image Hi); [|lia|lia|].
    + eapply Forall_impl; [exact Hnames|]. intros n Hn. eapply Forall_impl; [exact Hn|]. naive_solver.
    + rewrite Hnodes. change (drop (Z.to_nat 1) (TDir nm ents :: ents ++ r)) with (ents ++ r). by rewrite take_app_length.
Qed.

(** ** Witness *)

Module Witness.
Definition tree : list Tree :=
  [TDir [98; 105; 110] [TFile [97] [1; 2; 3]; TDir [99] []]; TFile [98] [7]].

Lemma bootfs_roundtrip_witness :
  ∃ image, generate (λ n, replicate n 0xAA) (TDir [47] tree) = Ok image ∧
    (Z.of_nat (length image) < 2 ^ 64 →
      ∃ d, root (λ _, true) image = Ok (Some d) ∧
        find (λ _, true) image d (join 47 [[98; 105; 110]; [97]]) 47 = Ok (Some [1; 2; 3])).
Proof.
  destruct (bootfs_roundtrip (λ n, replicate n 0xAA) (λ _, true) [47] tree 47) as (image & Hg & Hr).
  - intros n. apply length_replicate.
  - done.
  - repeat split; repeat constructor; lia.
  - exists image. split; [exact Hg|]. intros Hs. destruct (Hr Hs) as (d & Hd & Hf). exists d. split; [exact Hd|].
    apply (Hf [[98; 105; 110]; [97]]); [done|]. repeat constructor; lia.
Defined.

(** The same by evaluation; and a path that goes on after a file still finds it. *)
Example find_evaluated :
  let r := image ← generate (λ n, replicate n 0xAA) (TDir [47] tree);
    d ← root (λ _, true) image;
    match d with
    | Some d => a ← find (λ _, true) image d [98; 105; 110; 47; 97; 47; 120] 47;
                b ← find (λ _, true) image d [98; 47; 99] 47;
                c ← find (λ _, true) image d [98; 105; 110; 47; 99; 47; 120] 47;
                Ok (a, b, c)
    | None => Panic
    end in
  r = Ok (Some [1; 2; 3], Some [7], None).
Proof. vm_compute. reflexivity. Qed.
End Witness.
