(* ===== verification/Path.v ===== *)
(** * Paths ([lib/h2o_std/core/src/path.rs] and [path/imp.rs])

    A path is its bytes. [Components] is the double-ended iterator over its
    components, with a state for either end; the other operations are made of it.
    Slices are values, so [set_extension], which truncates at the address of a slice,
    is not here. Loops have fuel for every byte and state; running out of it panics. *)

From S2P Require Import Base Slices.
Local Open Scope Z_scope.

Abbreviation path := (list Z).
Abbreviation pres := (res Empty_set).

Definition SEP : Z := 47.
Definition DOT : Z := 46.
Definition is_sep_byte (b : Z) : bool := b =? SEP.
Definition is_verbatim_sep (b : Z) : bool := b =? SEP.

(** ** Prefixes and components *)

Inductive Prefix :=
  | Verbatim (s : path)
  | VerbatimUNC (s t : path)
  | VerbatimDisk (b : Z)
  | DeviceNS (s : path)
  | UNC (s t : path)
  | Disk (b : Z).
#[export] Instance Prefix_eq_dec : EqDecision Prefix.
Proof. solve_decision. Defined.

Definition prefix_length (p : Prefix) : nat :=
  match p with
  | Verbatim x => 4 + length x
  | VerbatimUNC x y => 8 + length x + (if (0 <? Z.of_nat (length y)) then 1 + length y else 0)
  | VerbatimDisk _ => 6
  | UNC x y => 2 + length x + (if (0 <? Z.of_nat (length y)) then 1 + length y else 0)
  | DeviceNS x => 4 + length x
  | Disk _ => 2
  end.

Definition is_verbatim (p : Prefix) : bool :=
  match p with Verbatim _ | VerbatimDisk _ | VerbatimUNC _ _ => true | _ => false end.
Definition is_drive (p : Prefix) : bool := match p with Disk _ => true | _ => false end.
Definition has_implicit_root (p : Prefix) : bool := negb (is_drive p).

(** [imp::parse_prefix]: paths of this system have no prefix. *)
Definition parse_prefix (s : path) : option Prefix := None.

Inductive Component :=
  | CPrefix (raw : path) (parsed : Prefix)
  | RootDir
  | CurDir
  | ParentDir
  | Normal (s : path).
#[export] Instance Component_eq_dec : EqDecision Component.
Proof. solve_decision. Defined.

Definition comp_as_os_str (c : Component) : path :=
  match c with
  | CPrefix raw _ => raw
  | RootDir => [SEP]
  | CurDir => [DOT]
  | ParentDir => [DOT; DOT]
  | Normal s => s
  end.

(** Prefixes are compared by what was parsed. *)
Definition comp_eqb (a b : Component) : bool :=
  match a, b with
  | CPrefix _ p, CPrefix _ q => bool_decide (p = q)
  | _, _ => bool_decide (a = b)
  end.

(** The derived order: by variant, then by fields; texts by their bytes. *)
Fixpoint bytes_cmp (a b : path) : comparison :=
  match a, b with
  | [], [] => Eq
  | [], _ => Lt
  | _, [] => Gt
  | x :: a, y :: b => match x ?= y with Eq => bytes_cmp a b | c => c end
  end.

Definition prefix_variant (p : Prefix) : Z :=
  match p with
  | Verbatim _ => 0 | VerbatimUNC _ _ => 1 | VerbatimDisk _ => 2 | DeviceNS _ => 3 | UNC _ _ => 4 | Disk _ => 5
  end.
Definition prefix_fields (p : Prefix) : list path :=
  match p with
  | Verbatim s | DeviceNS s => [s]
  | VerbatimUNC s t | UNC s t => [s; t]
  | VerbatimDisk b | Disk b => [[b]]
  end.
Fixpoint fields_cmp (a b : list path) : comparison :=
  match a, b with
  | x :: a, y :: b => match bytes_cmp x y with Eq => fields_cmp a b | c => c end
  | _, _ => Eq
  end.
Definition prefix_cmp (p q : Prefix) : comparison :=
  match prefix_variant p ?= prefix_variant q with Eq => fields_cmp (prefix_fields p) (prefix_fields q) | c => c end.

Definition comp_variant (c : Component) : Z :=
  match c with CPrefix _ _ => 0 | RootDir => 1 | CurDir => 2 | ParentDir => 3 | Normal _ => 4 end.
Definition comp_cmp (a b : Component) : comparison :=
  match a, b with
  | CPrefix _ p, CPrefix _ q => prefix_cmp p q
  | Normal s, Normal t => bytes_cmp s t
  | _, _ => comp_variant a ?= comp_variant b
  end.

(** ** The iterator *)

Inductive State := SPrefix | SStartDir | SBody | SDone.
#[export] Instance State_eq_dec : EqDecision State.
Proof. solve_decision. Defined.
Definition state_num (s : State) : Z := match s with SPrefix => 0 | SStartDir => 1 | SBody => 2 | SDone => 3 end.
Definition state_leb (a b : State) : bool := state_num a <=? state_num b.

Record Components := MkComps {
  cpath : path;
  cprefix : option Prefix;
  has_physical_root : bool;
  front : State;
  back : State;
}.

Definition with_path (c : Components) (p : path) : Components :=
  MkComps p (cprefix c) (has_physical_root c) (front c) (back c).
Definition with_front (c : Components) (s : State) : Components :=
  MkComps (cpath c) (cprefix c) (has_physical_root c) s (back c).
Definition with_back (c : Components) (s : State) : Components :=
  MkComps (cpath c) (cprefix c) (has_physical_root c) (front c) s.

Section iter.
Context `{P : Profile}.

Definition debug_assert (b : bool) : pres () := if overflow_checks then assert_ b else Ok ().

(** [&s[n..]] and [&s[..n]]. *)
Definition slice_from (s : path) (n : nat) : pres path := if decide (n ≤ length s)%nat then Ok (drop n s) else Panic.
Definition slice_to (s : path) (n : nat) : pres path := if decide (n ≤ length s)%nat then Ok (take n s) else Panic.

Definition prefix_len (c : Components) : nat := match cprefix c with Some p => prefix_length p | None => 0%nat end.
Definition prefix_verbatim (c : Components) : bool := match cprefix c with Some p => is_verbatim p | None => false end.
Definition prefix_remaining (c : Components) : nat := if decide (front c = SPrefix) then prefix_len c else 0%nat.

Definition comps_has_root (c : Components) : bool :=
  has_physical_root c || match cprefix c with Some p => has_implicit_root p | None => false end.
Definition is_sep (c : Components) (b : Z) : bool := if prefix_verbatim c then is_verbatim_sep b else is_sep_byte b.

Definition include_cur_dir (c : Components) : pres bool :=
  if comps_has_root c then Ok false
  else
    s ← slice_from (cpath c) (prefix_remaining c);
    Ok (match s with
        | [b] => b =? DOT
        | b :: b' :: _ => (b =? DOT) && is_sep c b'
        | _ => false
        end).

Definition len_before_body (c : Components) : pres nat :=
  let root := (if state_leb (front c) SStartDir && has_physical_root c then 1 else 0)%nat in
  cur_dir ← (if state_leb (front c) SStartDir then b ← include_cur_dir c; Ok (if b : bool then 1 else 0)%nat else Ok 0%nat);
  Ok (prefix_remaining c + root + cur_dir)%nat.

Definition finished (c : Components) : bool :=
  bool_decide (front c = SDone) || bool_decide (back c = SDone) || negb (state_leb (front c) (back c)).

Definition parse_single_component (c : Components) (comp : path) : option Component :=
  if bool_decide (comp = [DOT]) then if prefix_verbatim c then Some CurDir else None
  else if bool_decide (comp = [DOT; DOT]) then Some ParentDir
  else if bool_decide (comp = []) then None
  else Some (Normal comp).

Definition parse_next_component (c : Components) : pres (nat * option Component) :=
  _ ← debug_assert (bool_decide (front c = SBody));
  '(extra, comp) ← match position (is_sep c) (cpath c) with
                   | None => Ok (0%nat, cpath c)
                   | Some i => s ← slice_to (cpath c) i; Ok (1%nat, s)
                   end;
  Ok ((length comp + extra)%nat, parse_single_component c comp).

Definition parse_next_component_back (c : Components) : pres (nat * option Component) :=
  _ ← debug_assert (bool_decide (back c = SBody));
  start ← len_before_body c;
  body ← slice_from (cpath c) start;
  '(extra, comp) ← match rposition (is_sep c) body with
                   | None => Ok (0%nat, body)
                   | Some i => s ← slice_from (cpath c) (start + i + 1)%nat; Ok (1%nat, s)
                   end;
  Ok ((length comp + extra)%nat, parse_single_component c comp).

Fixpoint trim_left (fuel : nat) (c : Components) : pres Components :=
  match fuel with
  | O => Panic
  | S fuel =>
      if bool_decide (cpath c = []) then Ok c
      else
        '(size, comp) ← parse_next_component c;
        if bool_decide (is_Some comp) then Ok c
        else p ← slice_from (cpath c) size; trim_left fuel (with_path c p)
  end.

Fixpoint trim_right (fuel : nat) (c : Components) : pres Components :=
  match fuel with
  | O => Panic
  | S fuel =>
      n ← len_before_body c;
      if decide (n < length (cpath c))%nat then
        '(size, comp) ← parse_next_component_back c;
        if bool_decide (is_Some comp) then Ok c
        else p ← slice_to (cpath c) (length (cpath c) - size)%nat; trim_right fuel (with_path c p)
      else Ok c
  end.

Definition trim_fuel (c : Components) : nat := S (length (cpath c)).

Definition as_path (c : Components) : pres path :=
  c ← (if decide (front c = SBody) then trim_left (trim_fuel c) c else Ok c);
  c ← (if decide (back c = SBody) then trim_right (trim_fuel c) c else Ok c);
  Ok (cpath c).

Fixpoint next_loop (fuel : nat) (c : Components) : pres (option Component * Components) :=
  match fuel with
  | O => Panic
  | S fuel =>
      if finished c then Ok (None, c)
      else match front c with
           | SPrefix =>
               match cprefix c with
               | Some p =>
                   if decide (0 < prefix_length p)%nat then
                     _ ← debug_assert (bool_decide (prefix_length p ≤ length (cpath c))%nat);
                     raw ← slice_to (cpath c) (prefix_length p);
                     rest ← slice_from (cpath c) (prefix_length p);
                     Ok (Some (CPrefix raw p), with_path (with_front c SStartDir) rest)
                   else next_loop fuel (with_front c SStartDir)
               | None => next_loop fuel (with_front c SStartDir)
               end
           | SStartDir =>
               let c := with_front c SBody in
               if has_physical_root c then
                 _ ← debug_assert (negb (bool_decide (cpath c = [])));
                 rest ← slice_from (cpath c) 1%nat;
                 Ok (Some RootDir, with_path c rest)
               else match cprefix c with
                    | Some p =>
                        if has_implicit_root p && negb (is_verbatim p) then Ok (Some RootDir, c) else next_loop fuel c
                    | None =>
                        b ← include_cur_dir c;
                        if b : bool then
                          _ ← debug_assert (negb (bool_decide (cpath c = [])));
                          rest ← slice_from (cpath c) 1%nat;
                          Ok (Some CurDir, with_path c rest)
                        else next_loop fuel c
                    end
           | SBody =>
               if bool_decide (cpath c = []) then next_loop fuel (with_front c SDone)
               else
                 '(size, comp) ← parse_next_component c;
                 rest ← slice_from (cpath c) size;
                 let c := with_path c rest in
                 match comp with
                 | Some x => Ok (Some x, c)
                 | None => next_loop fuel c
                 end
           | SDone => Panic
           end
  end.

Fixpoint next_back_loop (fuel : nat) (c : Components) : pres (option Component * Components) :=
  match fuel with
  | O => Panic
  | S fuel =>
      if finished c then Ok (None, c)
      else match back c with
           | SBody =>
               n ← len_before_body c;
               if decide (n < length (cpath c))%nat then
                 '(size, comp) ← parse_next_component_back c;
                 rest ← slice_to (cpath c) (length (cpath c) - size)%nat;
                 let c := with_path c rest in
                 match comp with
                 | Some x => Ok (Some x, c)
                 | None => next_back_loop fuel c
                 end
               else next_back_loop fuel (with_back c SStartDir)
           | SStartDir =>
               let c := with_back c SPrefix in
               if has_physical_root c then
                 rest ← slice_to (cpath c) (length (cpath c) - 1)%nat;
                 Ok (Some RootDir, with_path c rest)
               else match cprefix c with
                    | Some p =>
                        if has_implicit_root p && negb (is_verbatim p) then Ok (Some RootDir, c) else next_back_loop fuel c
                    | None =>
                        b ← include_cur_dir c;
                        if b : bool then
                          rest ← slice_to (cpath c) (length (cpath c) - 1)%nat;
                          Ok (Some CurDir, with_path c rest)
                        else next_back_loop fuel c
                    end
           | SPrefix =>
               let c := with_back c SDone in
               match cprefix c with
               | Some p => if decide (0 < prefix_length p)%nat then Ok (Some (CPrefix (cpath c) p), c) else Ok (None, c)
               | None => Ok (None, c)
               end
           | SDone => Panic
           end
  end.

Definition iter_fuel (c : Components) : nat := (length (cpath c) + 5)%nat.
Definition next (c : Components) : pres (option Component * Components) := next_loop (iter_fuel c) c.
Definition next_back (c : Components) : pres (option Component * Components) := next_back_loop (iter_fuel c) c.

(** ** Loops over iterators *)

(** [iter_after]; [step] and [step'] are [next] or [next_back]. *)
Section loops.
Context (step : Components → pres (option Component * Components)).

Fixpoint iter_after (fuel : nat) (it prefix : Components) : pres (option Components) :=
  match fuel with
  | O => Panic
  | S fuel =>
      '(x, it') ← step it;
      '(y, prefix) ← step prefix;
      match x, y with
      | Some x, Some y => if comp_eqb x y then iter_after fuel it' prefix else Ok None
      | Some _, None | None, None => Ok (Some it)
      | None, Some _ => Ok None
      end
  end.

(** [Iterator::eq] and [Iterator::cmp]. *)
Fixpoint iter_eq (fuel : nat) (a b : Components) : pres bool :=
  match fuel with
  | O => Panic
  | S fuel =>
      '(x, a) ← step a;
      '(y, b) ← step b;
      match x, y with
      | None, None => Ok true
      | Some x, Some y => if comp_eqb x y then iter_eq fuel a b else Ok false
      | _, _ => Ok false
      end
  end.

Fixpoint iter_cmp (fuel : nat) (a b : Components) : pres comparison :=
  match fuel with
  | O => Panic
  | S fuel =>
      '(x, a) ← step a;
      match x with
      | None => '(y, _) ← step b; Ok (match y with None => Eq | Some _ => Lt end)
      | Some x =>
          '(y, b) ← step b;
          match y with
          | None => Ok Gt
          | Some y => match comp_cmp x y with Eq => iter_cmp fuel a b | o => Ok o end
          end
      end
  end.
End loops.

(** More than the number of components. *)
Definition loop_fuel (c : Components) : nat := (length (cpath c) + 3)%nat.

Definition comps_eq (a b : Components) : pres bool :=
  if bool_decide (length (cpath a) = length (cpath b)) && bool_decide (front a = front b)
     && bool_decide (back a = SBody) && bool_decide (back b = SBody)
     && bool_decide (prefix_verbatim a = prefix_verbatim b) && bool_decide (cpath a = cpath b)
  then Ok true else iter_eq next_back (loop_fuel a) a b.

(** The first position at which two paths differ. *)
Fixpoint mismatch (a b : path) : option nat :=
  match a, b with
  | x :: a, y :: b => if negb (x =? y) then Some O else S <$> mismatch a b
  | _, _ => None
  end.

Definition compare_components (left right : Components) : pres comparison :=
  if bool_decide (cprefix left = None) && bool_decide (cprefix right = None) && bool_decide (front left = front right) then
    let diff :=
      match mismatch (cpath left) (cpath right) with
      | None => if decide (length (cpath left) = length (cpath right)) then None
                else Some (length (cpath left) `min` length (cpath right))%nat
      | Some d => Some d
      end in
    match diff with
    | None => Ok Eq
    | Some d =>
        s ← slice_to (cpath left) d;
        match rposition (is_sep left) s with
        | Some previous_sep =>
            l ← slice_from (cpath left) (previous_sep + 1)%nat;
            r ← slice_from (cpath right) (previous_sep + 1)%nat;
            let left := with_front (with_path left l) SBody in
            let right := with_front (with_path right r) SBody in
            iter_cmp next (loop_fuel left) left right
        | None => iter_cmp next (loop_fuel left) left right
        end
    end
  else iter_cmp next (loop_fuel left) left right.
End iter.

(** ** Paths *)

Section ops.
Context `{P : Profile}.

Definition path_has_physical_root (s : path) (prefix : option Prefix) : pres bool :=
  rest ← match prefix with Some p => slice_from s (prefix_length p) | None => Ok s end;
  Ok (match rest with b :: _ => is_sep_byte b | [] => false end).

Definition components (s : path) : pres Components :=
  let prefix := parse_prefix s in
  root ← path_has_physical_root s prefix;
  Ok (MkComps s prefix root SPrefix SBody).

(** [Iterator::collect], of [next] or of [next_back]. *)
Fixpoint collect (step : Components → pres (option Component * Components)) (fuel : nat) (c : Components)
    : pres (list Component) :=
  match fuel with
  | O => Panic
  | S fuel =>
      '(x, c) ← step c;
      match x with
      | None => Ok []
      | Some x => xs ← collect step fuel c; Ok (x :: xs)
      end
  end.

Definition path_prefix (s : path) : pres (option Prefix) := c ← components s; Ok (cprefix c).
Definition path_has_root (s : path) : pres bool := c ← components s; Ok (comps_has_root c).
Definition is_absolute (s : path) : pres bool :=
  r ← path_has_root s; if r : bool then p ← path_prefix s; Ok (bool_decide (is_Some p)) else Ok false.
Definition is_relative (s : path) : pres bool := b ← is_absolute s; Ok (negb b).

Definition parent (s : path) : pres (option path) :=
  c ← components s;
  '(comp, c) ← next_back c;
  match comp with
  | Some (Normal _ | CurDir | ParentDir) => p ← as_path c; Ok (Some p)
  | _ => Ok None
  end.

(** One call of [Ancestors::next]. *)
Definition ancestors_next (a : option path) : pres (option path * option path) :=
  a' ← match a with Some p => parent p | None => Ok None end; Ok (a, a').

Definition file_name (s : path) : pres (option path) :=
  c ← components s;
  '(comp, _) ← next_back c;
  Ok (match comp with Some (Normal n) => Some n | _ => None end).

Definition strip_prefix (s base : path) : pres (option path) :=
  c ← components s;
  b ← components base;
  r ← iter_after next (loop_fuel c) c b;
  match r with Some c => p ← as_path c; Ok (Some p) | None => Ok None end.
Definition starts_with (s base : path) : pres bool :=
  c ← components s;
  b ← components base;
  r ← iter_after next (loop_fuel c) c b;
  Ok (bool_decide (is_Some r)).
Definition ends_with (s child : path) : pres bool :=
  c ← components s;
  b ← components child;
  r ← iter_after next_back (loop_fuel c) c b;
  Ok (bool_decide (is_Some r)).

Definition rsplit_file_at_dot (file : path) : option path * option path :=
  if bool_decide (file = [DOT; DOT]) then (Some file, None)
  else
    let '(before, after) :=
      match rposition (λ b, b =? DOT) file with
      | Some i => (Some (take i file), Some (drop (S i) file))
      | None => (None, Some file)
      end in
    if bool_decide (before = Some []) then (Some file, None) else (before, after).

Definition split_file_at_dot (file : path) : pres (path * option path) :=
  if bool_decide (file = [DOT; DOT]) then Ok (file, None)
  else
    tail ← slice_from file 1%nat;
    match position (λ b, b =? DOT) tail with
    | Some i => Ok (take (i + 1) file, Some (drop (i + 1 + 1) file))
    | None => Ok (file, None)
    end.

Definition file_stem (s : path) : pres (option path) :=
  n ← file_name s;
  Ok (n ← n; let '(before, after) := rsplit_file_at_dot n in
      match before with Some b => Some b | None => after end).
Definition file_prefix (s : path) : pres (option path) :=
  n ← file_name s;
  match n with
  | Some n => '(before, _) ← split_file_at_dot n; Ok (Some before)
  | None => Ok None
  end.
Definition extension (s : path) : pres (option path) :=
  n ← file_name s;
  Ok (n ← n; let '(before, after) := rsplit_file_at_dot n in
      match before with Some _ => after | None => None end).

(** What a verbatim path makes of the components pushed to it. *)
Definition push_comp (buf : list Component) (c : Component) : list Component :=
  match c with
  | RootDir => take 1 buf ++ [c]
  | CurDir => buf
  | ParentDir => match last buf with Some (Normal _) => removelast buf | _ => buf end
  | _ => buf ++ [c]
  end.
Definition emit_comp (acc : path * bool) (c : Component) : path * bool :=
  let '(out, need_sep) := acc in
  let out := if need_sep && negb (comp_eqb c RootDir) then out ++ [SEP] else out in
  (out ++ comp_as_os_str c,
   match c with
   | RootDir => false
   | CPrefix _ p => negb (is_drive p) && (0 <? Z.of_nat (prefix_length p))
   | _ => true
   end).

Definition push (self p : path) : pres path :=
  let need_sep := match last self with Some c => negb (is_sep_byte c) | None => false end in
  comps ← components self;
  drive ← (if (0 <? Z.of_nat (prefix_len comps)) && bool_decide (prefix_len comps = length (cpath comps))
           then match cprefix comps with Some q => Ok (is_drive q) | None => Panic end else Ok false);
  let need_sep := if drive : bool then false else need_sep in
  absolute ← is_absolute p;
  prefix ← path_prefix p;
  rooted ← path_has_root p;
  if absolute || bool_decide (is_Some prefix) then Ok p
  else if prefix_verbatim comps && negb (bool_decide (p = [])) then
    buf ← collect next (loop_fuel comps) comps;
    pc ← components p;
    cs ← collect next (loop_fuel pc) pc;
    Ok (foldl emit_comp ([], false) (foldl push_comp buf cs)).1
  else if rooted : bool then
    c ← components self; Ok (take (prefix_remaining c) self ++ p)
  else if need_sep then Ok (self ++ [SEP] ++ p)
  else Ok (self ++ p).
Definition join (self p : path) : pres path := push self p.

Definition pop (self : path) : pres (bool * path) :=
  p ← parent self;
  Ok (match p with Some p => (true, take (length p) self) | None => (false, self) end).

Definition set_file_name (self name : path) : pres path :=
  n ← file_name self;
  self ← (if bool_decide (is_Some n) then '(popped, self) ← pop self; _ ← debug_assert popped; Ok self else Ok self);
  push self name.
Definition with_file_name (self name : path) : pres path := set_file_name self name.

(** [Extend]; [FromIterator] extends the empty path. *)
Fixpoint extend (self : path) (ps : list path) : pres path :=
  match ps with
  | [] => Ok self
  | p :: ps => self ← push self p; extend self ps
  end.
Definition from_iter (ps : list path) : pres path := extend [] ps.

Definition path_eq (a b : path) : pres bool := a ← components a; b ← components b; comps_eq a b.
Definition path_cmp (a b : path) : pres comparison := a ← components a; b ← components b; compare_components a b.

(** ** Hashing: what is written to the hasher *)

Inductive HWrite := HPrefix (p : Prefix) | HBytes (s : path) | HUsize (n : nat).

Section hash.
Context (verbatim : bool) (bytes : path).

(** One position: the writes so far, [component_start] and [bytes_hashed]. *)
Definition hash_at (acc : list HWrite * nat * nat) (i : nat) : list HWrite * nat * nat :=
  let '(ws, component_start, bytes_hashed) := acc in
  match bytes !! i with
  | Some b =>
      if (if verbatim then is_verbatim_sep b else is_sep_byte b) then
        let '(ws, bytes_hashed) :=
          if decide (component_start < i)%nat then
            let to_hash := take (i - component_start) (drop component_start bytes) in
            (ws ++ [HBytes to_hash], (bytes_hashed + length to_hash)%nat)
          else (ws, bytes_hashed) in
        let component_start := (i + 1)%nat in
        let skip :=
          if verbatim then 0%nat
          else match drop component_start bytes with
               | [b] => if b =? DOT then 1%nat else 0%nat
               | b :: sep :: _ => if (b =? DOT) && is_sep_byte sep then 1%nat else 0%nat
               | [] => 0%nat
               end in
        (ws, (component_start + skip)%nat, bytes_hashed)
      else acc
  | None => acc
  end.

Definition hash_bytes : list HWrite :=
  let '(ws, component_start, bytes_hashed) := foldl hash_at ([], 0, 0)%nat (seq 0 (length bytes)) in
  let '(ws, bytes_hashed) :=
    if decide (component_start < length bytes)%nat then
      let to_hash := drop component_start bytes in
      (ws ++ [HBytes to_hash], (bytes_hashed + length to_hash)%nat)
    else (ws, bytes_hashed) in
  ws ++ [HUsize bytes_hashed].
End hash.

Definition path_hash (s : path) : pres (list HWrite) :=
  let '(w, prefix_len, verbatim) :=
    match parse_prefix s with
    | Some p => ([HPrefix p], prefix_length p, is_verbatim p)
    | None => ([], 0%nat, false)
    end in
  bytes ← slice_from s prefix_len;
  Ok (w ++ hash_bytes verbatim bytes).
End ops.
