(* ===== verification/PathFacts.v ===== *)
(** * The component iterator as a list

    [comps s] is the list of components of a path. [view c] is what an iterator has
    left of it, [wf] the states it can be in, and [next] and [next_back] take the
    first and the last of the view. *)

From S2P Require Import Base Slices Path.
Local Open Scope Z_scope.

(** ** Components of a path *)

Definition piece (s : path) : option Component :=
  if bool_decide (s = [DOT]) then None
  else if bool_decide (s = [DOT; DOT]) then Some ParentDir
  else if bool_decide (s = []) then None
  else Some (Normal s).
Definition body (s : path) : list Component := omap piece (split_on SEP s).

Definition rooted (s : path) : bool := match s with b :: _ => is_sep_byte b | [] => false end.
Definition cur_dir (s : path) : bool :=
  match s with
  | [b] => b =? DOT
  | b :: b' :: _ => (b =? DOT) && is_sep_byte b'
  | [] => false
  end.
Definition start (s : path) : list Component :=
  if rooted s then [RootDir] else if cur_dir s then [CurDir] else [].
Definition comps (s : path) : list Component := start s ++ body (drop (length (start s)) s).

(** ** Iterators *)

Definition wf (c : Components) : Prop :=
  cprefix c = None ∧
  match front c, back c with
  | (SPrefix | SStartDir), SBody => has_physical_root c = rooted (cpath c)
  | (SPrefix | SStartDir), SStartDir =>
      has_physical_root c = rooted (cpath c) ∧ length (cpath c) = length (start (cpath c))
  | SBody, SBody => True
  | _, _ => cpath c = []
  end.

Definition view (c : Components) : list Component :=
  match front c, back c with
  | (SPrefix | SStartDir), SBody => comps (cpath c)
  | (SPrefix | SStartDir), SStartDir => start (cpath c)
  | SBody, SBody => body (cpath c)
  | _, _ => []
  end.

Lemma comps_wf `{P : Profile} s : ∃ c, components s = Ok c ∧ wf c ∧ view c = comps s ∧ cpath c = s.
Proof. eexists. split; [reflexivity|]. repeat split. Qed.

(** ** Bodies *)

Lemma body_nil : body [] = [].
Proof. done. Qed.
Lemma body_name s : no_sep SEP s → body s = option_list (piece s).
Proof. intros Hs. unfold body. rewrite split_on_name by done. cbn. by destruct (piece s). Qed.
Lemma body_sep s r : body (s ++ SEP :: r) = body s ++ body r.
Proof. unfold body. by rewrite split_on_sep, omap_app. Qed.

Lemma start_length s : (length (start s) ≤ length s)%nat.
Proof. unfold start, rooted, cur_dir. destruct s as [|b [|b' s]]; cbn; [lia|..]; repeat case_match; cbn; lia. Qed.

(** The start of a path is not changed by what is cut off behind a separator. *)
Lemma start_take s n : (length (start s) ≤ n)%nat → n = length (start s) ∨ s !! n = Some SEP →
  start (take n s) = start s.
Proof.
  intros Hn H. unfold start in *. destruct s as [|b s]; [by rewrite take_nil|].
  destruct n as [|[|n]].
  - cbn in *. destruct (is_sep_byte b); [cbn in Hn; lia|].
    destruct (match s with [] => b =? DOT | b' :: _ => _ end) eqn:?; cbn in Hn; [lia|done].
  - cbn [take rooted]. destruct (is_sep_byte b) eqn:Hb; cbn [rooted cur_dir] in *; rewrite ?Hb in *; [done|].
    destruct s as [|b' s]; [done|]. destruct H as [H | H].
    + destruct ((b =? DOT) && is_sep_byte b') eqn:Hc; cbn in H; [|lia].
      apply andb_true_iff in Hc as [-> _]. done.
    + cbn in H. injection H as ->. cbn. by rewrite andb_true_r.
  - destruct s as [|b' s]; done.
Qed.

Section facts.
Context `{P : Profile}.

Lemma slice_from_ok s n : (n ≤ length s)%nat → slice_from s n = Ok (drop n s).
Proof. intros H. unfold slice_from. by rewrite decide_True. Qed.
Lemma slice_to_ok s n : (n ≤ length s)%nat → slice_to s n = Ok (take n s).
Proof. intros H. unfold slice_to. by rewrite decide_True. Qed.
Lemma debug_assert_ok b : b = true → debug_assert b = Ok ().
Proof. intros ->. unfold debug_assert. by destruct overflow_checks. Qed.

Lemma nonempty_ok (s : path) : s ≠ [] → debug_assert (negb (bool_decide (s = []))) = Ok ().
Proof. intros Hs. apply debug_assert_ok. by rewrite bool_decide_eq_false_2. Qed.
Lemma nonempty_length (s : path) : s ≠ [] → (1 ≤ length s)%nat.
Proof. destruct s; [done|cbn; lia]. Qed.

Lemma is_sep_none c : cprefix c = None → is_sep c = is_sep_byte.
Proof. intros H. unfold is_sep, prefix_verbatim. by rewrite H. Qed.
Lemma parse_single_none c s : cprefix c = None → parse_single_component c s = piece s.
Proof. intros H. unfold parse_single_component, prefix_verbatim, piece. by rewrite H. Qed.
Lemma prefix_remaining_none c : cprefix c = None → prefix_remaining c = 0%nat.
Proof. intros H. unfold prefix_remaining, prefix_len. rewrite H. by destruct (decide _). Qed.

Lemma include_cur_dir_none c : cprefix c = None →
  include_cur_dir c = Ok (negb (has_physical_root c) && cur_dir (cpath c)).
Proof.
  intros H. unfold include_cur_dir, comps_has_root. rewrite H, orb_false_r.
  destruct (has_physical_root c); [done|]. rewrite prefix_remaining_none, slice_from_ok by (done || lia).
  cbn [mbind res_bind]. rewrite (is_sep_none _ H), drop_0. by destruct (cpath c) as [|b [|b' s]].
Qed.

(** Where the body starts, and what is before it. *)
Definition before (c : Components) : list Component := if state_leb (front c) SStartDir then start (cpath c) else [].

Lemma before_length c : (length (before c) ≤ length (cpath c))%nat.
Proof. unfold before. destruct (state_leb _ _); [apply start_length|cbn; lia]. Qed.

Lemma len_before_body_ok c : wf c → back c = SBody ∨ back c = SStartDir →
  len_before_body c = Ok (length (before c)).
Proof.
  intros [Hp Hw] Hb. unfold len_before_body, before. rewrite prefix_remaining_none, include_cur_dir_none by done.
  destruct (state_leb (front c) SStartDir) eqn:Hf; [|done].
  assert (Hr : has_physical_root c = rooted (cpath c)).
  { destruct (front c), (back c); try done; naive_solver. }
  rewrite Hr. unfold start. cbn. by destruct (rooted (cpath c)), (cur_dir (cpath c)).
Qed.

(** ** Parsing one piece *)

Lemma parse_next_ok c : cprefix c = None → front c = SBody → cpath c ≠ [] →
  ∃ size x, parse_next_component c = Ok (size, x) ∧ (0 < size ≤ length (cpath c))%nat ∧
    body (cpath c) = option_list x ++ body (drop size (cpath c)).
Proof.
  intros Hp Hf Hne. unfold parse_next_component. rewrite debug_assert_ok by (by apply bool_decide_eq_true).
  cbn [mbind res_bind]. rewrite (is_sep_none _ Hp). destruct (position _ _) as [i|] eqn:Hpos.
  - destruct (position_some _ _ _ Hpos) as (x & Hs & Hx & HF). apply Z.eqb_eq in Hx as ->.
    assert (Hi : (S i ≤ length (cpath c))%nat).
    { rewrite Hs at 1. rewrite length_app, length_take. cbn. pose proof (f_equal length Hs) as Hl.
      rewrite length_app, length_take in Hl. cbn in Hl. rewrite length_drop in *. lia. }
    rewrite slice_to_ok by lia. cbn [mbind res_bind]. rewrite parse_single_none by done.
    eexists _, _. split; [reflexivity|]. rewrite length_take, Nat.min_l, Nat.add_1_r by lia.
    split; [lia|]. rewrite Hs at 1. rewrite body_sep. by rewrite body_name.
  - apply position_none in Hpos. cbn [mbind res_bind]. rewrite parse_single_none by done.
    eexists _, _. split; [reflexivity|]. rewrite Nat.add_0_r. split; [destruct (cpath c); [done|cbn; lia]|].
    by rewrite drop_all, body_nil, app_nil_r, body_name.
Qed.

(** From the back: what is left still has its start. *)
Lemma parse_back_ok c : wf c → back c = SBody → (length (before c) < length (cpath c))%nat →
  ∃ size x, parse_next_component_back c = Ok (size, x) ∧
    let rest := take (length (cpath c) - size) (cpath c) in
    (0 < size ≤ length (cpath c) - length (before c))%nat ∧
    before (with_path c rest) = before c ∧ (start (cpath c) = [] → start rest = []) ∧
    body (drop (length (before c)) (cpath c)) = body (drop (length (before c)) rest) ++ option_list x.
Proof.
  intros Hw Hb Hl. unfold parse_next_component_back. rewrite debug_assert_ok by (by apply bool_decide_eq_true).
  rewrite len_before_body_ok by auto. cbn [mbind res_bind]. rewrite slice_from_ok by lia.
  cbn [mbind res_bind]. pose proof (proj1 Hw) as Hp. rewrite (is_sep_none _ Hp).
  set (n := length (before c)) in *. set (s := cpath c) in *.
  assert (Hkeep : ∀ m, (n ≤ m)%nat → m = n ∨ s !! m = Some SEP → before (with_path c (take m s)) = before c).
  { intros m. subst n. unfold before. cbn. fold s. destruct (state_leb _ _); [|done]. apply start_take. }
  assert (Hstart : ∀ m, m = n ∨ s !! m = Some SEP → start s = [] → start (take m s) = []).
  { intros m Hm He. rewrite start_take; [done|rewrite He; cbn; lia|]. destruct Hm as [-> | Hm]; [left|by right].
    subst n. unfold before. fold s. rewrite He. by destruct (state_leb _ _). }
  destruct (rposition _ _) as [i|] eqn:Hpos.
  - destruct (rposition_some _ _ _ Hpos) as (x & Hs & Hx & HF). apply Z.eqb_eq in Hx as ->.
    assert (Hlk : drop n s !! i = Some SEP).
    { assert (i ≤ length (drop n s))%nat.
      { destruct (decide (i ≤ length (drop n s))%nat) as [|H]; [done|].
        pose proof (f_equal length Hs) as Hlen. rewrite length_app, length_take in Hlen. cbn in Hlen. lia. }
      rewrite Hs, lookup_app_r by (rewrite length_take; lia). by rewrite length_take, Nat.min_l, Nat.sub_diag. }
    pose proof (lookup_lt_Some _ _ _ Hlk) as Hi. rewrite length_drop in Hi. rewrite lookup_drop in Hlk.
    rewrite slice_from_ok by lia. cbn [mbind res_bind]. rewrite parse_single_none by done.
    eexists _, _. split; [reflexivity|]. cbn zeta. rewrite length_drop.
    replace (length s - (length s - (n + i + 1) + 1))%nat with (n + i)%nat by lia.
    split; [lia|]. split; [apply Hkeep; auto with lia|]. split; [apply Hstart; auto|].
    rewrite <- take_drop_commute. rewrite Hs at 1. rewrite body_sep. f_equal.
    rewrite drop_drop in *. replace (n + S i)%nat with (n + i + 1)%nat in * by lia. by apply body_name.
  - apply rposition_none in Hpos. cbn [mbind res_bind]. rewrite parse_single_none by done.
    eexists _, _. split; [reflexivity|]. cbn zeta. rewrite length_drop.
    replace (length s - (length s - n + 0))%nat with n by lia.
    split; [lia|]. split; [apply Hkeep; auto with lia|]. split; [apply Hstart; auto|].
    rewrite (drop_ge (take _ _)) by (rewrite length_take; lia). by rewrite body_nil, body_name.
Qed.

(** ** The two ends *)

Lemma start_cases s :
  (rooted s = true ∧ start s = [RootDir] ∧ s ≠ []) ∨
  (rooted s = false ∧ cur_dir s = true ∧ start s = [CurDir] ∧ s ≠ []) ∨
  (rooted s = false ∧ cur_dir s = false ∧ start s = []).
Proof.
  unfold start. destruct (rooted s) eqn:Hr; [left|right; destruct (cur_dir s) eqn:Hc; [left|right; done]].
  - by destruct s.
  - by destruct s.
Qed.

(** Taking the start leaves the body, from either end. *)
Lemma body_left c s : cprefix c = None → front c = SBody → back c = SBody ∨ (back c = SStartDir ∧ s = []) →
  wf (with_path c s) ∧ view (with_path c s) = body s.
Proof.
  intros Hp Hf Hb. unfold wf, view. cbn. rewrite Hf. destruct Hb as [-> | [-> ->]]; done.
Qed.

Definition weight (c : Components) : nat := (length (cpath c) + Z.to_nat (3 - state_num (front c)))%nat.

Definition steps_to (r : pres (option Component * Components)) (v : list Component) (n : nat) : Prop :=
  ∃ c', r = Ok (head v, c') ∧ wf c' ∧ view c' = tail v ∧ (length (cpath c') ≤ n)%nat.

Lemma steps_here x c' v n : wf c' → view c' = v → (length (cpath c') ≤ n)%nat →
  steps_to (Ok (Some x, c')) (x :: v) n.
Proof. intros Hw Hv Hl. by exists c'. Qed.
Lemma steps_le r v n m : steps_to r v n → (n ≤ m)%nat → steps_to r v m.
Proof. intros (c' & -> & Hw & Hv & Hl) Hm. exists c'. auto with lia. Qed.

Definition steps_back (r : pres (option Component * Components)) (v : list Component) (n : nat) : Prop :=
  ∃ c', r = Ok (last v, c') ∧ wf c' ∧ view c' = removelast v ∧ (length (cpath c') ≤ n)%nat.

Lemma steps_back_here x c' v n : wf c' → view c' = v → (length (cpath c') ≤ n)%nat →
  steps_back (Ok (Some x, c')) (v ++ [x]) n.
Proof. intros Hw Hv Hl. exists c'. by rewrite last_snoc, removelast_last. Qed.
Lemma steps_back_le r v n m : steps_back r v n → (n ≤ m)%nat → steps_back r v m.
Proof. intros (c' & -> & Hw & Hv & Hl) Hm. exists c'. auto with lia. Qed.

Section next.
Context (fuel : nat) (IH : ∀ c, wf c → (weight c < fuel)%nat → steps_to (next_loop fuel c) (view c) (length (cpath c))).

Lemma next_start c : wf c → (weight c < S fuel)%nat → front c = SStartDir → finished c = false →
  steps_to (next_loop (S fuel) c) (view c) (length (cpath c)).
Proof using IH.
  intros [Hp Hw] Hf Hfr Hfin. cbn [next_loop]. rewrite Hfin, Hfr.
  assert (Hr : has_physical_root c = rooted (cpath c)).
  { unfold finished in Hfin. rewrite Hfr in *. destruct (back c); naive_solver. }
  set (s := drop (length (start (cpath c))) (cpath c)).
  assert (view c = start (cpath c) ++ body s ∧
    wf (with_path (with_front c SBody) s) ∧ view (with_path (with_front c SBody) s) = body s) as (-> & Hw1 & Hv1).
  { unfold finished in Hfin. unfold view at 1. rewrite Hfr in *. destruct (back c) eqn:Hb; try done.
    - assert (s = []) as -> by (apply drop_ge; lia). rewrite app_nil_r. split; [done|]. apply body_left; auto.
    - split; [done|]. apply body_left; auto. }
  assert (Hl : (length s ≤ length (cpath c))%nat) by (subst s; rewrite length_drop; lia).
  cbn [with_front has_physical_root cprefix cpath]. rewrite Hp, include_cur_dir_none by done.
  cbn [with_front has_physical_root cprefix cpath]. rewrite Hr.
  destruct (start_cases (cpath c)) as [(-> & Hs & Hc) | [(-> & -> & Hs & Hc) | (-> & -> & Hs)]];
    subst s; rewrite Hs in *; cbn [negb andb mbind res_bind].
  - rewrite nonempty_ok, slice_from_ok by (done || by apply nonempty_length). by apply steps_here.
  - rewrite nonempty_ok, slice_from_ok by (done || by apply nonempty_length). by apply steps_here.
  - change (with_path (with_front c SBody) (drop 0 (cpath c))) with (with_front c SBody) in *.
    rewrite <- Hv1. apply (IH _ Hw1). unfold weight in *. rewrite Hfr in Hf. cbn in *. lia.
Qed.

Lemma next_body c : wf c → (weight c < S fuel)%nat → front c = SBody → finished c = false →
  steps_to (next_loop (S fuel) c) (view c) (length (cpath c)).
Proof using IH.
  intros [Hp Hw] Hf Hfr Hfin. cbn [next_loop]. rewrite Hfin, Hfr.
  assert (Hb : back c = SBody) by (unfold finished in Hfin; rewrite Hfr in *; by destruct (back c)).
  assert (view c = body (cpath c)) as -> by (unfold view; by rewrite Hfr, Hb).
  destruct (decide (cpath c = [])) as [He|He].
  - rewrite bool_decide_eq_true_2 by done. replace (body (cpath c)) with (view (with_front c SDone)) by (by rewrite He).
    apply (IH (with_front c SDone)).
    + by split.
    + unfold weight in *. rewrite Hfr in Hf. cbn in *. lia.
  - rewrite bool_decide_eq_false_2 by done. destruct (parse_next_ok c) as (size & x & -> & Hsz & ->); try done.
    cbn [mbind res_bind]. rewrite slice_from_ok by lia. cbn [mbind res_bind].
    destruct (body_left c (drop size (cpath c))) as [Hw1 Hv1]; auto. destruct x as [x|].
    + apply steps_here; [done..|]. cbn. rewrite length_drop. lia.
    + rewrite <- Hv1. eapply steps_le; [apply (IH _ Hw1)|]; unfold weight in *; cbn in *; rewrite length_drop; lia.
Qed.
End next.

Lemma next_loop_ok fuel c : wf c → (weight c < fuel)%nat → steps_to (next_loop fuel c) (view c) (length (cpath c)).
Proof.
  revert c. induction fuel as [|fuel IH]; intros c Hw Hf; [lia|]. destruct (finished c) eqn:Hfin.
  { cbn [next_loop]. rewrite Hfin. exists c.
    assert (view c = []) as -> by (unfold view, finished in *; by destruct (front c), (back c)). auto. }
  destruct (front c) eqn:Hfr; [|by apply next_start|by apply next_body|by unfold finished in Hfin; rewrite Hfr in Hfin].
  pose proof Hw as [Hp Hw']. cbn [next_loop]. rewrite Hfin, Hfr, Hp.
  assert (view c = view (with_front c SStartDir)) as ->.
  { unfold view. cbn. rewrite Hfr. unfold finished in Hfin. rewrite Hfr in Hfin. by destruct (back c). }
  apply (IH (with_front c SStartDir)); unfold weight, wf in *; cbn in *; rewrite Hfr in *; [done|cbn in *; lia].
Qed.

Definition weight_back (c : Components) : nat := (length (cpath c) + Z.to_nat (state_num (back c)))%nat.

Lemma view_body c : wf c → back c = SBody → finished c = false →
  view c = before c ++ body (drop (length (before c)) (cpath c)).
Proof.
  intros [Hp Hw] Hb Hfin. unfold view, before, finished in *. rewrite Hb in *. by destruct (front c).
Qed.

(** Cutting the back off keeps the iterator well formed when the start is kept. *)
Lemma back_wf c rest : wf c → back c = SBody → finished c = false → before (with_path c rest) = before c →
  wf (with_path c rest).
Proof.
  intros [Hp Hw] Hb Hfin Hbe. split; [done|]. cbn. unfold before in Hbe. cbn in Hbe. rewrite Hb in *.
  unfold finished in Hfin. rewrite Hb in Hfin. destruct (front c); try done; cbn in Hbe; rewrite Hw; unfold start in Hbe;
    destruct (rooted rest), (rooted (cpath c)), (cur_dir rest), (cur_dir (cpath c)); done.
Qed.

Section next_back.
Context (fuel : nat).
Context (IH : ∀ c, wf c → (weight_back c < fuel)%nat → steps_back (next_back_loop fuel c) (view c) (length (cpath c))).

Lemma next_back_body c : wf c → (weight_back c < S fuel)%nat → back c = SBody → finished c = false →
  steps_back (next_back_loop (S fuel) c) (view c) (length (cpath c)).
Proof using IH.
  intros Hw Hf Hb Hfin. cbn [next_back_loop]. rewrite Hfin, Hb, len_before_body_ok by auto. cbn [mbind res_bind].
  pose proof (before_length c) as Hle. rewrite (view_body c) by done. destruct (decide _) as [Hlt|Hge].
  - destruct (parse_back_ok c) as (size & x & -> & Hsz & Hbe & _ & Hbody); try done. cbn zeta in *.
    set (rest := take (length (cpath c) - size) (cpath c)) in *.
    cbn [mbind res_bind]. rewrite slice_to_ok by lia. cbn [mbind res_bind]. fold rest. rewrite Hbody.
    assert (Hrl : (length rest < length (cpath c))%nat) by (subst rest; rewrite length_take; lia).
    assert (Hw1 : wf (with_path c rest)) by (by apply back_wf).
    assert (Hv1 : view (with_path c rest) = before c ++ body (drop (length (before c)) rest)).
    { rewrite view_body by done. by rewrite Hbe. }
    destruct x as [x|]; cbn [option_list]; rewrite ?app_nil_r, ?app_assoc, <- Hv1.
    + apply steps_back_here; [done..|]. cbn. lia.
    + eapply steps_back_le; [apply (IH _ Hw1)|]; unfold weight_back in *; cbn in *; lia.
  - rewrite drop_ge, body_nil, app_nil_r by lia.
    assert (wf (with_back c SStartDir) ∧ view (with_back c SStartDir) = before c) as [Hw1 <-].
    { destruct Hw as [Hp Hw]. unfold wf, view, before, finished in *. rewrite Hb in *. cbn.
      destruct (front c); try done; cbn in *; pose proof (start_length (cpath c)); (split; [|done]); (split; [done|]);
        [auto with lia..|]. by apply nil_length_inv; lia. }
    apply (IH (with_back c SStartDir)); [done|]. unfold weight_back in *. rewrite Hb in *. cbn in *. lia.
Qed.

Lemma next_back_start c : wf c → (weight_back c < S fuel)%nat → back c = SStartDir → finished c = false →
  steps_back (next_back_loop (S fuel) c) (view c) (length (cpath c)).
Proof using IH.
  intros [Hp Hw] Hf Hb Hfin. cbn [next_back_loop]. rewrite Hfin, Hb.
  assert (Hr : has_physical_root c = rooted (cpath c) ∧ length (cpath c) = length (start (cpath c)) ∧
    view c = start (cpath c) ∧ ∀ s, s = [] → wf (with_path (with_back c SPrefix) s) ∧ view (with_path (with_back c SPrefix) s) = []).
  { unfold finished, wf, view in *. cbn. rewrite Hb in *. destruct (front c); naive_solver. }
  destruct Hr as (Hr & Hl & -> & Hn). cbn [with_back has_physical_root cprefix cpath].
  rewrite Hp, include_cur_dir_none by done. cbn [with_back has_physical_root cprefix cpath]. rewrite Hr.
  destruct (start_cases (cpath c)) as [(-> & Hs & Hc) | [(-> & -> & Hs & Hc) | (-> & -> & Hs)]];
    rewrite Hs in *; cbn [negb andb mbind res_bind].
  1, 2: cbn in Hl; rewrite slice_to_ok by (cbn; lia); rewrite Hl; destruct (Hn (take (1 - 1) (cpath c)) eq_refl);
    apply (steps_back_here _ _ []); [done..|change (0 ≤ 1)%nat; lia].
  apply nil_length_inv in Hl. destruct (Hn _ Hl) as [Hw1 Hv1].
  change (with_path (with_back c SPrefix) (cpath c)) with (with_back c SPrefix) in *.
  rewrite <- Hv1. apply (IH (with_back c SPrefix)); [done|]. unfold weight_back in *. rewrite Hb in *. cbn in *. lia.
Qed.
End next_back.

Lemma next_back_loop_ok fuel c : wf c → (weight_back c < fuel)%nat →
  steps_back (next_back_loop fuel c) (view c) (length (cpath c)).
Proof.
  revert c. induction fuel as [|fuel IH]; intros c Hw Hf; [lia|]. destruct (finished c) eqn:Hfin.
  { cbn [next_back_loop]. rewrite Hfin. exists c.
    assert (view c = []) as -> by (unfold view, finished in *; by destruct (front c), (back c)). auto. }
  destruct (back c) eqn:Hb; [|by apply next_back_start|by apply next_back_body|
    by unfold finished in Hfin; rewrite Hb in Hfin; destruct (front c)].
  destruct Hw as [Hp Hw]. cbn [next_back_loop]. rewrite Hfin, Hb. cbn [with_back cprefix]. rewrite Hp.
  exists (with_back c SDone). unfold finished, view, wf in *. cbn. rewrite Hb in *. by destruct (front c).
Qed.

Lemma next_ok c : wf c → ∃ c', next c = Ok (head (view c), c') ∧ wf c' ∧ view c' = tail (view c) ∧
  (length (cpath c') ≤ length (cpath c))%nat.
Proof. intros Hw. apply next_loop_ok; [done|]. unfold weight, iter_fuel. destruct (front c); cbn; lia. Qed.
Lemma next_back_ok c : wf c → ∃ c', next_back c = Ok (last (view c), c') ∧ wf c' ∧ view c' = removelast (view c) ∧
  (length (cpath c') ≤ length (cpath c))%nat.
Proof. intros Hw. apply next_back_loop_ok; [done|]. unfold weight_back, iter_fuel. destruct (back c); cbn; lia. Qed.
End facts.
