(* ===== verification/PathSpec.v ===== *)
(** * What paths are for

    The iterator is a double-ended queue over the components ([components_deque]).
    Equality, order and hash are those of the list of components; [join],
    [strip_prefix], [parent] and [file_name] put lists of components together and
    take them apart. *)

From S2P Require Import Base Slices Path PathFacts.
Local Open Scope Z_scope.

(** ** Sizes and shapes *)

Lemma split_on_length s : (length (split_on SEP s) ≤ S (length s))%nat.
Proof.
  induction s as [|b s IH]; cbn [split_on]; [done|]. destruct (b =? SEP); [cbn; lia|].
  destruct (split_on SEP s); cbn in *; lia.
Qed.
Lemma omap_length {A B} (f : A → option B) l : (length (omap f l) ≤ length l)%nat.
Proof. induction l as [|x l IH]; cbn; [done|]. destruct (f x); cbn; lia. Qed.
Lemma body_length s : (length (body s) ≤ S (length s))%nat.
Proof. etrans; [apply omap_length|apply split_on_length]. Qed.
Lemma comps_length s : (length (comps s) ≤ S (S (length s)))%nat.
Proof.
  unfold comps. rewrite length_app. pose proof (body_length (drop (length (start s)) s)) as H.
  rewrite length_drop in H. pose proof (start_length s). lia.
Qed.

Definition no_prefix (c : Component) : Prop := match c with CPrefix _ _ => False | _ => True end.
Lemma body_no_prefix s : Forall no_prefix (body s).
Proof.
  apply Forall_forall. intros x Hx. apply list_elem_of_omap in Hx as (p & _ & Hp).
  unfold piece in Hp. repeat case_bool_decide; naive_solver.
Qed.
Lemma start_no_prefix s : Forall no_prefix (start s).
Proof. unfold start. destruct (rooted s), (cur_dir s); repeat constructor. Qed.

(** All that is left of a well formed iterator, whatever its back end. *)
Lemma view_eq c : wf c → view c = if state_leb (front c) SStartDir then comps (cpath c) else body (cpath c).
Proof.
  intros [_ Hw]. unfold view. destruct (front c), (back c); cbn in *; rewrite ?Hw; try done; destruct Hw as [_ Hw];
    unfold comps; rewrite drop_ge by lia; by rewrite body_nil, app_nil_r.
Qed.
Lemma view_no_prefix c : wf c → Forall no_prefix (view c).
Proof.
  intros Hw. rewrite view_eq by done. destruct (state_leb _ _); [|apply body_no_prefix].
  apply Forall_app. split; [apply start_no_prefix|apply body_no_prefix].
Qed.
Lemma view_length c : wf c → (length (view c) < loop_fuel c)%nat.
Proof.
  intros Hw. rewrite view_eq by done. unfold loop_fuel.
  destruct (state_leb _ _); [pose proof (comps_length (cpath c))|pose proof (body_length (cpath c))]; lia.
Qed.

Lemma comp_eqb_ok x y : no_prefix x → comp_eqb x y = bool_decide (x = y).
Proof. by destruct x. Qed.

(** ** The loops, over lists *)

Section loops.
Context `{P : Profile}.

(** [next] walks the view, [next_back] its reverse. *)
Definition walks (step : Components → pres (option Component * Components)) (dir : list Component → list Component) : Prop :=
  ∀ c, wf c → ∃ c', step c = Ok (head (dir (view c)), c') ∧ wf c' ∧ dir (view c') = tail (dir (view c)).

Lemma next_walks : walks next id.
Proof. intros c Hw. destruct (next_ok c Hw) as (c' & -> & Hw' & Hv & _). by exists c'. Qed.

Lemma reverse_last (l : list Component) : last l = head (reverse l) ∧ reverse (removelast l) = tail (reverse l).
Proof.
  destruct l as [|x l _] using rev_ind; [done|]. by rewrite last_snoc, removelast_last, reverse_snoc.
Qed.
Lemma next_back_walks : walks next_back reverse.
Proof.
  intros c Hw. destruct (next_back_ok c Hw) as (c' & -> & Hw' & Hv & _). exists c'.
  rewrite Hv. by destruct (reverse_last (view c)) as [-> ->].
Qed.

Section dir.
Context step dir (Hstep : walks step dir).
Context (Hdir : ∀ l, Forall no_prefix l → Forall no_prefix (dir l)).

(** One round of a loop over two iterators. *)
Lemma step_eq c l : wf c → dir (view c) = l → ∃ c', step c = Ok (head l, c') ∧ wf c' ∧ dir (view c') = tail l.
Proof. intros Hw <-. by apply Hstep. Qed.

Lemma collect_ok fuel c : wf c → (length (dir (view c)) < fuel)%nat → collect step fuel c = Ok (dir (view c)).
Proof.
  remember (dir (view c)) as l eqn:Hl. symmetry in Hl. revert l c Hl.
  induction fuel as [|fuel IH]; intros l c Hl Hw Hf; [lia|]. cbn [collect].
  destruct (step_eq c l Hw Hl) as (c' & -> & Hw' & Hl'). cbn. destruct l as [|x l]; [done|]. cbn in *.
  rewrite (IH _ _ Hl') by (done || lia). done.
Qed.

Lemma iter_eq_ok fuel a b : wf a → wf b → (length (dir (view a)) < fuel)%nat →
  iter_eq step fuel a b = Ok (bool_decide (dir (view a) = dir (view b))).
Proof.
  intros Ha Hb. pose proof (Hdir _ (view_no_prefix a Ha)) as Hn.
  remember (dir (view a)) as l eqn:Hl. symmetry in Hl. remember (dir (view b)) as r eqn:Hr. symmetry in Hr.
  revert l r a b Hl Hr Ha Hb Hn. induction fuel as [|fuel IH]; intros l r a b Hl Hr Ha Hb Hn Hf; [lia|].
  cbn [iter_eq]. destruct (step_eq a l Ha Hl) as (a' & -> & Ha' & Hl'). destruct (step_eq b r Hb Hr) as (b' & -> & Hb' & Hr').
  cbn. destruct l as [|x l], r as [|y r]; try done. cbn in *. apply Forall_cons in Hn as [Hx Hn].
  rewrite comp_eqb_ok by done. case_bool_decide as Hxy; [|rewrite bool_decide_eq_false_2; [done|congruence]].
  rewrite (IH _ _ _ _ Hl' Hr') by (done || lia). f_equal. do 2 case_bool_decide; congruence.
Qed.

Lemma iter_after_ok fuel a b : wf a → wf b → (length (dir (view a)) < fuel)%nat →
  ∃ r, iter_after step fuel a b = Ok r ∧
    match r with
    | Some c => wf c ∧ dir (view a) = dir (view b) ++ dir (view c) ∧ (c = a ∨ ∃ a0 x, wf a0 ∧ step a0 = Ok (Some x, c))
    | None => ¬ dir (view b) `prefix_of` dir (view a)
    end.
Proof.
  intros Ha Hb. pose proof (Hdir _ (view_no_prefix a Ha)) as Hn.
  remember (dir (view a)) as l eqn:Hl. symmetry in Hl. remember (dir (view b)) as r eqn:Hr. symmetry in Hr.
  revert l r a b Hl Hr Ha Hb Hn. induction fuel as [|fuel IH]; intros l r a b Hl Hr Ha Hb Hn Hf; [lia|].
  cbn [iter_after]. destruct (step_eq a l Ha Hl) as (a' & Hsa & Ha' & Hl'). destruct (step_eq b r Hb Hr) as (b' & -> & Hb' & Hr').
  rewrite Hsa. cbn. destruct l as [|x l], r as [|y r]; cbn in *.
  - exists (Some a). auto.
  - exists None. split; [done|]. intros [k Hk]. done.
  - exists (Some a). auto.
  - apply Forall_cons in Hn as [Hx Hn]. rewrite comp_eqb_ok by done. case_bool_decide as Hxy.
    + subst y. destruct (IH _ _ _ _ Hl' Hr') as (res & -> & Hres); try done; [lia|]. exists res. split; [done|].
      destruct res as [c|].
      * destruct Hres as (Hwc & -> & Hor). split; [done|]. split; [done|]. right.
        destruct Hor as [-> | Hor]; [by exists a, x|done].
      * intros Hpre. apply Hres. by apply prefix_cons_inv_2 in Hpre.
    + exists None. split; [done|]. intros Hpre. apply prefix_cons_inv_1 in Hpre. congruence.
Qed.
End dir.
End loops.

(** ** The iterator is a double-ended queue *)

Section deque.
Context `{P : Profile}.

(** Calls from either end ([true] for [next]), and what a list answers to them. *)
Fixpoint calls (ends : list bool) (c : Components) : pres (list (option Component)) :=
  match ends with
  | [] => Ok []
  | e :: ends => '(x, c) ← (if e : bool then next c else next_back c); xs ← calls ends c; Ok (x :: xs)
  end.
Fixpoint answers (ends : list bool) (l : list Component) : list (option Component) :=
  match ends with
  | [] => []
  | true :: ends => head l :: answers ends (tail l)
  | false :: ends => last l :: answers ends (removelast l)
  end.

Lemma calls_ok ends c : wf c → calls ends c = Ok (answers ends (view c)).
Proof.
  revert c. induction ends as [|[] ends IH]; intros c Hw; [done|..]; cbn [calls answers].
  - destruct (next_ok c Hw) as (c' & -> & Hw' & <- & _). cbn. by rewrite IH.
  - destruct (next_back_ok c Hw) as (c' & -> & Hw' & <- & _). cbn. by rewrite IH.
Qed.

(** The component iterator of any path, called from its two ends in any order, neither panics nor runs
    forever, and gives out the components of the path from its front and from its back, each once, and [None]
    from then on. *)
Theorem components_deque s ends : (c ← components s; calls ends c) = Ok (answers ends (comps s)).
Proof. destruct (comps_wf s) as (c & -> & Hw & <- & _). cbn. by apply calls_ok. Qed.
End deque.

(** ** Equality and order *)

Section order.
Context `{P : Profile}.

Lemma comps_eq_ok a b : wf a → wf b → comps_eq a b = Ok (bool_decide (view a = view b)).
Proof.
  intros Ha Hb. unfold comps_eq. destruct (_ && _) eqn:Hfast.
  - rewrite !andb_true_iff, !bool_decide_eq_true in Hfast. destruct Hfast as [[[[[_ Hf] _] _] _] Hp].
    rewrite bool_decide_eq_true_2; [done|]. rewrite !view_eq by done. by rewrite Hf, Hp.
  - rewrite (iter_eq_ok next_back reverse next_back_walks); try done.
    + f_equal. apply bool_decide_ext. split; [apply (inj reverse)|by intros ->].
    + intros l. apply Forall_reverse.
    + rewrite length_reverse. by apply view_length.
Qed.

(** Lexicographic order. *)
Fixpoint comps_cmp (a b : list Component) : comparison :=
  match a, b with
  | [], [] => Eq
  | [], _ => Lt
  | _, [] => Gt
  | x :: a, y :: b => match comp_cmp x y with Eq => comps_cmp a b | o => o end
  end.

Lemma bytes_cmp_eq a b : bytes_cmp a b = Eq ↔ a = b.
Proof.
  revert b. induction a as [|x a IH]; intros [|y b]; cbn; try done.
  destruct (Z.compare_spec x y) as [-> | |]; [rewrite IH|..]; split; try done; try naive_solver; intros [= ??]; lia.
Qed.
Lemma comp_cmp_refl x : no_prefix x → comp_cmp x x = Eq.
Proof. destruct x; try done. intros _. by apply bytes_cmp_eq. Qed.
Lemma comps_cmp_app l a b : Forall no_prefix l → comps_cmp (l ++ a) (l ++ b) = comps_cmp a b.
Proof. induction 1 as [|x l Hx _ IH]; [done|]. cbn. by rewrite comp_cmp_refl. Qed.

Lemma iter_cmp_ok fuel a b : wf a → wf b → (length (view a) < fuel)%nat →
  iter_cmp next fuel a b = Ok (comps_cmp (view a) (view b)).
Proof.
  intros Ha Hb. remember (view a) as l eqn:Hl. symmetry in Hl. remember (view b) as r eqn:Hr. symmetry in Hr.
  revert l r a b Hl Hr Ha Hb. induction fuel as [|fuel IH]; intros l r a b Hl Hr Ha Hb Hf; [lia|].
  cbn [iter_cmp]. destruct (step_eq next id next_walks a l Ha Hl) as (a' & -> & Ha' & Hl').
  destruct (step_eq next id next_walks b r Hb Hr) as (b' & -> & Hb' & Hr'). cbn.
  destruct l as [|x l], r as [|y r]; try done. cbn in *. destruct (comp_cmp x y); [|done..].
  apply IH; try done. lia.
Qed.

(** The fast path: a common beginning up to a separator has the same components. *)
Lemma mismatch_take a b d : mismatch a b = Some d → take d a = take d b ∧ (d < length a)%nat ∧ (d < length b)%nat.
Proof.
  revert b d. induction a as [|x a IH]; intros [|y b] d; cbn [mismatch]; try done.
  destruct (Z.eqb_spec x y) as [-> | _]; cbn.
  - destruct (mismatch a b) as [d'|] eqn:Hm; [|done]. intros [= <-]. destruct (IH _ _ Hm) as (H & ? & ?).
    cbn. rewrite H. auto with lia.
  - intros [= <-]. auto with lia.
Qed.
Lemma mismatch_none a b : mismatch a b = None → let d := (length a `min` length b)%nat in take d a = take d b.
Proof.
  revert b. induction a as [|x a IH]; intros [|y b]; cbn [mismatch]; try done.
  destruct (Z.eqb_spec x y) as [-> | _]; [|done]. destruct (mismatch a b) as [d'|] eqn:Hm; [done|].
  intros _. cbn. f_equal. by apply IH.
Qed.

Lemma start_sep u l : start (u ++ SEP :: l) = start (u ++ [SEP]) ∧ (length (start (u ++ [SEP])) ≤ length (u ++ [SEP]))%nat.
Proof. split; [|apply start_length]. by destruct u as [|x [|y u]]. Qed.

Lemma start_length1 s : (length (start s) ≤ 1)%nat.
Proof. unfold start. destruct (rooted s), (cur_dir s); cbn; lia. Qed.

Lemma comps_sep u l : comps (u ++ SEP :: l) = comps (u ++ [SEP]) ++ body l.
Proof.
  unfold comps. destruct (start_sep u l) as [-> _]. rewrite <- app_assoc. f_equal.
  destruct u as [|x u]; [done|].
  pose proof (start_length1 ((x :: u) ++ [SEP])).
  rewrite !drop_app_le by (rewrite length_cons; lia). by rewrite !body_sep, body_nil, app_nil_r.
Qed.

Lemma common_sep f (a b : path) d i : take d a = take d b → rposition f (take d a) = Some i → (∀ x, f x = true → x = SEP) →
  ∃ u, a = u ++ SEP :: drop (i + 1) a ∧ b = u ++ SEP :: drop (i + 1) b ∧ (i + 1 ≤ length a)%nat ∧ (i + 1 ≤ length b)%nat.
Proof.
  intros Ht Hr Hf. destruct (rposition_some _ _ _ Hr) as (x & Hs & Hx & _). apply Hf in Hx as ->.
  set (u := take i (take d a)) in *.
  assert (Hi : take d a !! i = Some SEP).
  { destruct (decide (i < length (take d a)))%nat as [Hlt|Hge].
    - rewrite Hs at 1. rewrite lookup_app_r by (subst u; rewrite length_take; lia).
      subst u. by rewrite (length_take (take d a) i), Nat.min_l, Nat.sub_diag by lia.
    - exfalso. subst u. rewrite (take_ge _ i), (drop_ge _ (S i)) in Hs by lia.
      apply (f_equal length) in Hs. rewrite length_app in Hs. cbn in Hs. lia. }
  pose proof (lookup_lt_Some _ _ _ Hi) as Hlt. rewrite length_take in Hlt.
  assert (Hu : u = take i a ∧ u = take i b).
  { subst u. rewrite Ht at 2. rewrite !take_take. by rewrite !Nat.min_l by lia. }
  exists u. rewrite Ht in Hi at 1. pose proof Hi as Hib. rewrite <- Ht in Hi. rewrite lookup_take_lt in Hi, Hib by lia.
  pose proof (lookup_lt_Some _ _ _ Hib). rewrite Nat.add_1_r.
  split; [rewrite (proj1 Hu)|split; [rewrite (proj2 Hu)|lia]]; symmetry; by apply take_drop_middle.
Qed.

(** What a view has before a separator. *)
Lemma view_sep a b u l r : wf a → wf b → front a = front b →
  cpath a = u ++ SEP :: l → cpath b = u ++ SEP :: r →
  comps_cmp (view a) (view b) = comps_cmp (body l) (body r).
Proof.
  intros Ha Hb Hf Hpa Hpb. rewrite !view_eq, Hpa, Hpb, <- Hf by done. destruct (state_leb _ _).
  - rewrite (comps_sep u l), (comps_sep u r). apply comps_cmp_app. apply Forall_app. split; [apply start_no_prefix|apply body_no_prefix].
  - rewrite !(body_sep u). apply comps_cmp_app, body_no_prefix.
Qed.

Lemma cut_ok c l : wf c → back c = SBody →
  wf (with_front (with_path c l) SBody) ∧ view (with_front (with_path c l) SBody) = body l.
Proof. intros [Hp _] Hb. unfold wf, view. cbn. by rewrite Hb. Qed.

Lemma comps_cmp_refl l : Forall no_prefix l → comps_cmp l l = Eq.
Proof. intros Hl. rewrite <- (app_nil_r l) at 1 2. by rewrite comps_cmp_app. Qed.

Lemma compare_ok a b : wf a → wf b → back a = SBody → back b = SBody →
  compare_components a b = Ok (comps_cmp (view a) (view b)).
Proof.
  intros Ha Hb Hba Hbb. unfold compare_components. destruct (_ && _) eqn:Hfast; [|by apply iter_cmp_ok, view_length].
  rewrite !andb_true_iff, !bool_decide_eq_true in Hfast. destruct Hfast as [_ Hf].
  set (diff := match mismatch _ _ with Some d => _ | None => _ end).
  assert (Hd : match diff with
               | None => cpath a = cpath b
               | Some d => take d (cpath a) = take d (cpath b) ∧ (d ≤ length (cpath a))%nat ∧ (d ≤ length (cpath b))%nat
               end).
  { subst diff. destruct (mismatch _ _) as [d|] eqn:Hm; [apply mismatch_take in Hm; naive_solver lia|].
    apply mismatch_none in Hm. cbn zeta in Hm. destruct (decide _) as [He|He]; [|split; [done|lia]].
    rewrite <- He, Nat.min_id in Hm. rewrite firstn_all in Hm. by rewrite Hm, He, firstn_all. }
  destruct diff as [d|]; cbn zeta.
  2:{ rewrite !view_eq, Hf, Hd by done. f_equal. symmetry. apply comps_cmp_refl.
      rewrite <- Hd, <- Hf, <- view_eq by done. by apply view_no_prefix. }
  destruct Hd as (Ht & Hla & Hlb). rewrite slice_to_ok by done. cbn [mbind res_bind].
  destruct (rposition _ _) as [i|] eqn:Hr; [|by apply iter_cmp_ok, view_length].
  rewrite is_sep_none in Hr by apply Ha.
  destruct (common_sep _ _ _ _ _ Ht Hr) as (u & Hua & Hub & Hia & Hib); [intros x Hx; by apply Z.eqb_eq|].
  rewrite !slice_from_ok by done. cbn [mbind res_bind].
  destruct (cut_ok a (drop (i + 1) (cpath a)) Ha Hba) as [Hwa Hva], (cut_ok b (drop (i + 1) (cpath b)) Hb Hbb) as [Hwb Hvb].
  rewrite iter_cmp_ok by (done || by apply view_length). by rewrite Hva, Hvb, (view_sep a b _ _ _ Ha Hb Hf Hua Hub).
Qed.

(** Two paths are equal when their components are; their order is the lexicographic order of the
    components, the byte-wise shortcut over a long common beginning included. *)
Theorem path_order a b :
  path_eq a b = Ok (bool_decide (comps a = comps b)) ∧ path_cmp a b = Ok (comps_cmp (comps a) (comps b)).
Proof.
  unfold path_eq, path_cmp. destruct (comps_wf a) as (ca & Hca & Ha & <- & _), (comps_wf b) as (cb & Hcb & Hb & <- & _).
  assert (back ca = SBody ∧ back cb = SBody) as [Hba Hbb] by (by injection Hca as <-; injection Hcb as <-).
  rewrite Hca, Hcb. cbn. split; [by apply comps_eq_ok|by apply compare_ok].
Qed.
End order.
