(* ===== verification/PathJoin.v ===== *)
(** * Taking paths apart and putting them together

    [as_path] gives the path of what an iterator has left. So [strip_prefix] and
    [parent] take components off a path, and [join] puts them back. *)

From S2P Require Import Base Slices Path PathFacts PathSpec.
Local Open Scope Z_scope.

Section trim.
Context `{P : Profile}.

(** A path that begins with a piece of its own has no start. *)
Lemma parse_next_start c size x : cprefix c = None → front c = SBody →
  parse_next_component c = Ok (size, Some x) → start (cpath c) = [].
Proof.
  intros Hp Hf. unfold parse_next_component. rewrite debug_assert_ok by (by apply bool_decide_eq_true).
  cbn [mbind res_bind]. rewrite (is_sep_none _ Hp). unfold start.
  destruct (cpath c) as [|b [|b' s]] eqn:Hs; [done|..]; cbn [position rooted cur_dir].
  - destruct (is_sep_byte b) eqn:Hb; cbn [fmap option_fmap option_map].
    + rewrite slice_to_ok by (cbn; lia). cbn [mbind res_bind]. by rewrite parse_single_none.
    + destruct (Z.eqb_spec b DOT) as [-> | _]; [|done]. cbn [mbind res_bind]. by rewrite parse_single_none.
  - destruct (is_sep_byte b) eqn:Hb; cbn [fmap option_fmap option_map].
    + rewrite slice_to_ok by (cbn; lia). cbn [mbind res_bind]. by rewrite parse_single_none.
    + destruct (Z.eqb_spec b DOT) as [-> | _]; [|done]. cbn [andb].
      destruct (is_sep_byte b'); [|done]. cbn [fmap option_fmap option_map].
      rewrite slice_to_ok by (cbn; lia). cbn [mbind res_bind]. by rewrite parse_single_none.
Qed.

Lemma trim_left_ok fuel c : cprefix c = None → front c = SBody → (length (cpath c) < fuel)%nat →
  ∃ p, trim_left fuel c = Ok (with_path c p) ∧ body p = body (cpath c) ∧ start p = [] ∧ (length p ≤ length (cpath c))%nat.
Proof.
  revert c. induction fuel as [|fuel IH]; intros c Hp Hf Hl; [lia|]. cbn [trim_left].
  destruct (decide (cpath c = [])) as [He|He].
  - rewrite bool_decide_eq_true_2 by done. exists []. rewrite He. destruct c. by cbn in *; subst.
  - rewrite bool_decide_eq_false_2 by done. destruct (parse_next_ok c) as (size & x & Hn & Hsz & Hb); try done.
    rewrite Hn. cbn [mbind res_bind]. destruct x as [x|].
    + rewrite bool_decide_eq_true_2 by eauto. exists (cpath c). split; [by destruct c|].
      split; [done|]. split; [by eapply parse_next_start|done].
    + rewrite bool_decide_eq_false_2 by (by intros [? [=]]). rewrite slice_from_ok by lia. cbn [mbind res_bind].
      destruct (IH (with_path c (drop size (cpath c)))) as (p & -> & Hbp & Hsp & Hlp); try done.
      { cbn. rewrite length_drop. lia. }
      exists p. cbn in *. rewrite Hbp, Hb. cbn. rewrite length_drop in Hlp. auto with lia.
Qed.

Lemma trim_right_ok fuel c : wf c → back c = SBody → (length (cpath c) < fuel)%nat →
  ∃ k, let p := take k (cpath c) in
    trim_right fuel c = Ok (with_path c p) ∧ wf (with_path c p) ∧ view (with_path c p) = view c ∧
    (start (cpath c) = [] → start p = []).
Proof.
  revert c. induction fuel as [|fuel IH]; intros c Hw Hb Hl; [lia|]. cbn [trim_right].
  rewrite len_before_body_ok by auto. cbn [mbind res_bind].
  assert (Hhere : with_path c (take (length (cpath c)) (cpath c)) = c) by (rewrite firstn_all; by destruct c).
  destruct (decide _) as [Hlt|Hge].
  2:{ exists (length (cpath c)). cbn zeta. rewrite Hhere, firstn_all. done. }
  destruct (parse_back_ok c) as (size & x & -> & Hsz & Hbe & Hst & Hbody); try done. cbn zeta in *.
  cbn [mbind res_bind]. destruct x as [x|].
  - rewrite bool_decide_eq_true_2 by eauto. exists (length (cpath c)). by rewrite Hhere, firstn_all.
  - rewrite bool_decide_eq_false_2 by (by intros [? [=]]). rewrite slice_to_ok by lia. cbn [mbind res_bind].
    set (rest := take (length (cpath c) - size) (cpath c)) in *.
    assert (Hfin : finished c = false).
    { destruct Hw as [_ Hw]. unfold finished. rewrite Hb in *. destruct (front c); try done. rewrite Hw in Hlt. cbn in Hlt. lia. }
    assert (Hw1 : wf (with_path c rest)) by (by apply back_wf).
    destruct (IH (with_path c rest)) as (k & -> & Hwk & Hvk & Hsk); try done.
    { cbn. subst rest. rewrite length_take. lia. }
    exists (k `min` (length (cpath c) - size))%nat. cbn zeta. cbn [cpath with_path] in *. subst rest.
    rewrite take_take in *. split; [done|]. split; [done|]. split; [|by auto].
    change (with_path (with_path c ?r) ?p) with (with_path c p) in *. rewrite Hvk, !view_body by done. cbn [cpath with_path].
    by rewrite Hbe, Hbody, app_nil_r.
Qed.
End trim.

Section apart.
Context `{P : Profile}.

Lemma comps_body p : start p = [] → comps p = body p.
Proof. intros H. unfold comps. by rewrite H. Qed.

Lemma as_path_front c : wf c → state_leb (front c) SStartDir = true →
  ∃ k, as_path c = Ok (take k (cpath c)) ∧ comps (take k (cpath c)) = view c.
Proof.
  intros Hw Hf. unfold as_path. destruct (decide (front c = SBody)) as [H|_]; [by rewrite H in Hf|]. cbn [mbind res_bind].
  destruct (decide (back c = SBody)) as [Hb|Hb].
  - destruct (trim_right_ok (trim_fuel c) c) as (k & -> & Hwk & Hvk & _); [done..|unfold trim_fuel; lia|]. cbn.
    exists k. split; [done|]. rewrite <- Hvk, (view_eq _ Hwk). cbn. by rewrite Hf.
  - exists (length (cpath c)). rewrite firstn_all. cbn. split; [done|]. by rewrite view_eq, Hf.
Qed.

Lemma as_path_body c : wf c → state_leb (front c) SStartDir = false →
  ∃ p, as_path c = Ok p ∧ body p = view c ∧ start p = [].
Proof.
  intros Hw Hf. rewrite view_eq, Hf by done. unfold as_path. destruct (decide (front c = SBody)) as [Hb|Hb].
  - pose proof (proj1 Hw) as Hp.
    destruct (trim_left_ok (trim_fuel c) c) as (p & -> & Hbp & Hsp & Hl); [done..|unfold trim_fuel; lia|]. cbn [mbind res_bind].
    cbn [back with_path]. destruct (decide (back c = SBody)) as [Hbk|Hbk].
    + assert (Hwp : wf (with_path c p)) by (apply body_left; auto).
      destruct (trim_right_ok (trim_fuel (with_path c p)) (with_path c p)) as (k & -> & Hwk & Hvk & Hsk);
        [done..|unfold trim_fuel; lia|].
      eexists. split; [reflexivity|]. split; [|by apply Hsk]. rewrite !view_eq in Hvk by done.
      cbn [front with_path] in Hvk. rewrite Hb in Hvk. by rewrite <- Hbp.
    + cbn. eauto.
  - assert (cpath c = []) as He by (destruct Hw as [_ Hw]; by destruct (front c), (back c)).
    cbn [mbind res_bind]. destruct (decide (back c = SBody)) as [Hbk|Hbk].
    + destruct (trim_right_ok (trim_fuel c) c) as (k & -> & _); [done..|unfold trim_fuel; lia|].
      cbn. rewrite He, take_nil. eauto.
    + cbn. rewrite He. eauto.
Qed.

Lemma as_path_ok c : wf c → ∃ p, as_path c = Ok p ∧ comps p = view c.
Proof.
  intros Hw. destruct (state_leb (front c) SStartDir) eqn:Hf.
  - destruct (as_path_front c Hw Hf) as (k & -> & Hk). eauto.
  - destruct (as_path_body c Hw Hf) as (p & -> & Hv & Hs). exists p. by rewrite comps_body.
Qed.

(** [next] moves the front into the body. *)
Lemma next_front fuel c x c' : cprefix c = None → next_loop fuel c = Ok (Some x, c') → state_leb (front c') SStartDir = false.
Proof.
  revert c. induction fuel as [|fuel IH]; intros c Hp; cbn [next_loop]; [done|]. destruct (finished c); [done|].
  rewrite Hp. destruct (front c) eqn:Hf; cbn [with_front cprefix].
  - by apply IH.
  - cbn zeta. cbn [with_front has_physical_root cprefix]. destruct (has_physical_root c); [|rewrite Hp].
    + destruct (debug_assert _) as [[]|?|]; cbn; [|done..]. destruct (slice_from _ _); cbn; [by intros [= _ <-]|done..].
    + destruct (include_cur_dir _) as [[]|?|]; cbn; [|by apply IH|done..].
      destruct (debug_assert _) as [[]|?|]; cbn; [|done..]. destruct (slice_from _ _); cbn; [by intros [= _ <-]|done..].
  - case_bool_decide; [by apply IH|]. destruct (parse_next_component c) as [[size [y|]]|?|]; cbn; [..|done|done].
    + destruct (slice_from _ _); cbn; [intros [= _ <-]; cbn; by rewrite Hf|done..].
    + destruct (slice_from _ _); cbn; [by apply IH|done..].
  - done.
Qed.
End apart.

(** ** Joining *)

Section together.
Context `{P : Profile}.

Lemma path_has_root_ok s : path_has_root s = Ok (rooted s).
Proof. unfold path_has_root. cbn. unfold comps_has_root. cbn. by rewrite orb_false_r. Qed.

Lemma is_absolute_ok s : is_absolute s = Ok false.
Proof. unfold is_absolute. rewrite path_has_root_ok. by destruct (rooted s). Qed.

(** No path of this system is absolute, one that starts with a separator included: a path is absolute when it
    has a root and a prefix, and there are no prefixes. *)
Theorem is_absolute_never s : is_absolute s = Ok false ∧ is_relative s = Ok true.
Proof. unfold is_relative. by rewrite is_absolute_ok. Qed.

Lemma push_ok self p : push self p = Ok (
  if rooted p then p
  else if match last self with Some c => negb (is_sep_byte c) | None => false end then self ++ [SEP] ++ p
  else self ++ p).
Proof.
  unfold push. cbn [components parse_prefix path_has_physical_root mbind res_bind prefix_len prefix_verbatim cprefix].
  rewrite is_absolute_ok, path_has_root_ok. cbn. destruct (rooted p); [done|].
  by destruct (last self) as [b|]; [destruct (is_sep_byte b)|].
Qed.

Lemma comps_snoc_sep s : s ≠ [] → comps (s ++ [SEP]) = comps s.
Proof.
  intros Hs. unfold comps. assert (start (s ++ [SEP]) = start s) as ->.
  { destruct s as [|b [|b' s]]; [done| |done]. unfold start. cbn. by rewrite andb_true_r. }
  f_equal. rewrite drop_app_le by apply start_length. by rewrite body_sep, body_nil, app_nil_r.
Qed.

Lemma join_comps s p q : join s p = Ok q →
  comps q = if rooted p || bool_decide (s = []) then comps p else comps s ++ body p.
Proof.
  unfold join. rewrite push_ok. intros [= <-]. destruct (rooted p); [done|]. cbn [orb].
  destruct (last s) as [b|] eqn:Hl.
  - apply last_Some in Hl as [s' ->]. rewrite bool_decide_eq_false_2 by (by destruct s').
    destruct (Z.eqb_spec b SEP) as [-> | Hb]; unfold is_sep_byte.
    + rewrite Z.eqb_refl. cbn. rewrite <- app_assoc. apply comps_sep.
    + apply Z.eqb_neq in Hb as ->. cbn [negb app]. rewrite comps_sep, comps_snoc_sep by (by destruct s'). done.
  - apply last_None in Hl as ->. done.
Qed.

Lemma piece_name u : u ≠ [] → u ≠ [DOT] → is_Some (piece u).
Proof. intros H1 H2. unfold piece. rewrite (bool_decide_eq_false_2 _ H2), (bool_decide_eq_false_2 _ H1). case_bool_decide; eauto. Qed.

Lemma comps_nil s : comps s = [] → s = [].
Proof.
  intros [Hs Hb]%app_eq_nil. rewrite Hs in Hb. change (body s = []) in Hb. destruct (decide (s = [])) as [|Hne]; [done|].
  exfalso. assert (Hu : ∀ u r, s = u ++ r → no_sep SEP u → (r = [] ∨ ∃ r', r = SEP :: r') → is_Some (piece u)).
  { intros u r -> Hn Hr. apply piece_name; intros ->.
    - destruct Hr as [-> | [r' ->]]; [done|]. done.
    - destruct Hr as [-> | [r' ->]]; done. }
  destruct (position (λ b, b =? SEP) s) as [i|] eqn:Hpos.
  - destruct (position_some _ _ _ Hpos) as (x & Hsp & Hx & HF). apply Z.eqb_eq in Hx as ->.
    destruct (Hu (take i s) (SEP :: drop (S i) s) Hsp HF) as [y Hy]; [eauto|].
    rewrite Hsp, body_sep, body_name, Hy in Hb by done. done.
  - apply position_none in Hpos. destruct (Hu s []) as [y Hy]; [by rewrite app_nil_r|done|auto|].
    rewrite body_name, Hy in Hb by done. done.
Qed.

Lemma rooted_start p : start p = [] → rooted p = false.
Proof. unfold start. by destruct (rooted p). Qed.

Lemma next_moved c x c' : wf c → next c = Ok (Some x, c') → state_leb (front c') SStartDir = false.
Proof. intros [Hp _]. by apply next_front. Qed.

Lemma path_eq_ok a b : path_eq a b = Ok (bool_decide (comps a = comps b)).
Proof.
  unfold path_eq. destruct (comps_wf a) as (ca & -> & Ha & <- & _), (comps_wf b) as (cb & -> & Hb & <- & _).
  by apply comps_eq_ok.
Qed.

(** What [strip_prefix] leaves of a path. *)
Lemma strip_ok s base : ∃ r, strip_prefix s base = Ok r ∧
  match r with
  | Some p => if bool_decide (base = []) then comps p = comps s else start p = [] ∧ comps s = comps base ++ body p
  | None => ¬ comps base `prefix_of` comps s
  end.
Proof.
  unfold strip_prefix. destruct (comps_wf s) as (c & -> & Hw & Hv & Hc), (comps_wf base) as (b & -> & Hwb & Hvb & Hcb).
  cbn [mbind res_bind]. rewrite <- Hv, <- Hvb.
  destruct (iter_after_ok next id next_walks) with (fuel := loop_fuel c) (a := c) (b := b) as (r & -> & Hr);
    try done; [by apply view_length|]. cbn [mbind res_bind id] in *. destruct r as [c'|]; [|by exists None].
  destruct Hr as (Hw' & Hvc & Hor). destruct (state_leb (front c') SStartDir) eqn:Hf.
  - assert (c' = c) as ->. { destruct Hor as [|(a0 & x & Hwa & Hn)]; [done|]. apply next_moved in Hn; [congruence|done]. }
    destruct (as_path_ok c Hw) as (p & -> & Hp). exists (Some p). split; [done|].
    assert (view b = []) as Hb0.
    { apply (f_equal length) in Hvc. rewrite length_app in Hvc. apply nil_length_inv. lia. }
    rewrite bool_decide_eq_true_2; [done|]. apply comps_nil. congruence.
  - destruct (as_path_body c' Hw' Hf) as (p & -> & Hp & Hsp). exists (Some p). split; [done|].
    case_bool_decide as Hb; [|by rewrite Hvc, Hp]. rewrite Hb in Hvb. change (view b = []) in Hvb.
    rewrite Hvc, Hvb, comps_body by done. exact Hp.
Qed.

(** Stripping a base off a path succeeds exactly when the components of the base begin those of the path, and
    joining the base with what is left gives the path back, as paths are compared. *)
Theorem strip_join s base : ∃ r, strip_prefix s base = Ok r ∧
  match r with
  | Some p => ∃ q, join base p = Ok q ∧ path_eq q s = Ok true
  | None => ¬ comps base `prefix_of` comps s
  end.
Proof.
  destruct (strip_ok s base) as (r & -> & Hr). exists r. split; [done|]. destruct r as [p|]; [|done].
  destruct (join base p) as [q|e|] eqn:Hj; [|by destruct e|by unfold join in Hj; rewrite push_ok in Hj].
  exists q. split; [done|]. rewrite path_eq_ok. f_equal. apply bool_decide_eq_true. rewrite (join_comps _ _ _ Hj).
  case_bool_decide; [by rewrite orb_true_r|]. destruct Hr as [Hs ->]. by rewrite rooted_start.
Qed.
End together.

(** ** Parents and file names *)

Section parents.
Context `{P : Profile}.

(** The back end only cuts, and leaves the front alone. *)
Definition cuts (c c' : Components) : Prop := front c' = front c ∧ ∃ k, cpath c' = take k (cpath c).
Lemma cuts_refl c c' : front c' = front c → cpath c' = cpath c → cuts c c'.
Proof. intros Hf Hp. split; [done|]. exists (length (cpath c)). by rewrite firstn_all. Qed.
Lemma cuts_trans a b c : cuts a b → cuts b c → cuts a c.
Proof. intros [H1 [k1 Hk1]] [H2 [k2 Hk2]]. split; [congruence|]. rewrite Hk2, Hk1, take_take. eauto. Qed.
Lemma cuts_take c c' n s : front c' = front c → slice_to (cpath c) n = Ok s → cuts c (with_path c' s).
Proof. unfold slice_to. intros Hf. destruct (decide _); [|done]. intros [= <-]. split; [done|]. by exists n. Qed.

Lemma next_back_cuts fuel c x c' : cprefix c = None → next_back_loop fuel c = Ok (x, c') → cuts c c'.
Proof.
  revert c. induction fuel as [|fuel IH]; intros c Hp; cbn [next_back_loop]; [done|].
  destruct (finished c); [intros [= _ <-]; by apply cuts_refl|]. destruct (back c) eqn:Hb; cbn zeta; cbn [with_back cprefix].
  - rewrite Hp. intros [= _ <-]. by apply cuts_refl.
  - cbn [with_back has_physical_root cprefix cpath]. rewrite Hp. destruct (has_physical_root c).
    + destruct (slice_to _ _) eqn:Hs; cbn; [intros [= _ <-]; by eapply cuts_take|done..].
    + destruct (include_cur_dir _) as [[]|?|]; cbn [mbind res_bind]; [| |done..].
      * destruct (slice_to _ _) eqn:Hs; cbn; [intros [= _ <-]; by eapply cuts_take|done..].
      * intros H%IH; [|done]. eapply cuts_trans; [|exact H]. by apply cuts_refl.
  - destruct (len_before_body c) as [n|?|]; cbn [mbind res_bind]; [|done..]. destruct (decide _).
    + destruct (parse_next_component_back c) as [[size [y|]]|?|]; cbn [mbind res_bind]; [..|done|done].
      * destruct (slice_to _ _) eqn:Hs; cbn; [intros [= _ <-]; by eapply cuts_take|done..].
      * destruct (slice_to _ _) eqn:Hs; cbn; [|done..]. intros H%IH; [|done].
        eapply cuts_trans; [|exact H]. by eapply cuts_take.
    + intros H%IH; [|done]. eapply cuts_trans; [|exact H]. by apply cuts_refl.
  - done.
Qed.

(** What the last component of a path can be. *)
Lemma body_elem s x : x ∈ body s → x = ParentDir ∨ ∃ n, x = Normal n ∧ no_sep SEP n ∧ piece n = Some x.
Proof.
  intros Hx. apply list_elem_of_omap in Hx as (p & Hp & Hpx). pose proof (split_on_pieces SEP s) as HF.
  rewrite Forall_forall in HF. specialize (HF _ Hp). pose proof Hpx as Hpx'. unfold piece in Hpx'.
  repeat case_bool_decide; try done; injection Hpx' as <-; [by left|right]. by exists p.
Qed.

Lemma comps_last s l x : comps s = l ++ [x] →
  x = CurDir ∨ x = ParentDir ∨ (x = RootDir ∧ l = []) ∨ ∃ n, x = Normal n ∧ no_sep SEP n ∧ piece n = Some x.
Proof.
  unfold comps. destruct (body _) as [|y b _] eqn:Hb using rev_ind.
  - rewrite app_nil_r. unfold start. destruct (rooted s), (cur_dir s); intros H; try (by destruct l);
      apply (app_inj_tail [] l) in H as [<- <-]; auto.
  - rewrite app_assoc. intros [_ <-]%app_inj_tail. destruct (body_elem (drop (length (start s)) s) y) as [|]; auto.
    rewrite Hb. apply elem_of_app. right. by apply list_elem_of_singleton.
Qed.

Lemma name_comps n : no_sep SEP n → piece n = Some (Normal n) → start n = [] ∧ body n = [Normal n].
Proof.
  intros Hn Hp. split; [|by rewrite body_name, Hp]. destruct (start_cases n) as [(Hr & _) | [(_ & Hc & _) | (_ & _ & ->)]]; [| |done].
  - destruct n as [|b n]; [done|]. apply Forall_cons in Hn as [Hb _]. unfold rooted, is_sep_byte in Hr. congruence.
  - destruct n as [|b [|b' n]]; [done|..]; cbn in Hc.
    + apply Z.eqb_eq in Hc as ->. done.
    + apply andb_true_iff in Hc as [_ Hc]. unfold no_sep in Hn. rewrite !Forall_cons in Hn.
      destruct Hn as (_ & Hb & _). unfold is_sep_byte in Hc. congruence.
Qed.

Lemma last_split (l : list Component) x : last l = Some x → l = removelast l ++ [x].
Proof. intros [l' ->]%last_Some. by rewrite removelast_last. Qed.

(** [parent] and [file_name] both look at the last component. *)
Lemma parent_ok s : ∃ r, parent s = Ok r ∧
  match r with
  | Some p => ∃ k x, p = take k s ∧ comps s = comps p ++ [x] ∧ last (comps s) = Some x
  | None => comps s = [] ∨ comps s = [RootDir]
  end.
Proof.
  unfold parent. destruct (comps_wf s) as (c & Hc & Hw & Hv & Hs). rewrite Hc. cbn [mbind res_bind].
  destruct (next_back_ok c Hw) as (c' & Hn & Hw' & Hv' & _). rewrite Hn. cbn [mbind res_bind]. rewrite Hv in *.
  destruct (next_back_cuts _ _ _ _ (proj1 Hw) Hn) as [Hf [k Hk]].
  assert (Hfr : state_leb (front c') SStartDir = true) by (rewrite Hf; by injection Hc as <-).
  destruct (as_path_front c' Hw' Hfr) as (j & Ha & Hj). rewrite Hk, Hs, take_take in Ha, Hj. rewrite Hv' in Hj.
  destruct (last (comps s)) as [x|] eqn:Hl; [|exists None; split; [done|]; left; by apply last_None].
  pose proof (last_split _ _ Hl) as Hsp.
  destruct (comps_last _ _ _ Hsp) as [-> | [-> | [[-> Hr] | (n & -> & _)]]]; rewrite ?Ha; cbn [mbind res_bind].
  1, 2, 4: eexists; split; [reflexivity|]; eexists _, _; rewrite Hj; eauto.
  exists None. split; [done|]. right. by rewrite Hsp, Hr.
Qed.

Lemma file_name_ok s : ∃ n, file_name s = Ok n ∧
  match n with
  | Some f => last (comps s) = Some (Normal f)
  | None => ∀ f, last (comps s) ≠ Some (Normal f)
  end.
Proof.
  unfold file_name. destruct (comps_wf s) as (c & -> & Hw & <- & _). cbn [mbind res_bind].
  destruct (next_back_ok c Hw) as (c' & -> & _). cbn [mbind res_bind]. eexists. split; [reflexivity|].
  by destruct (last (view c)) as [[]|].
Qed.

(** The parent of a path is the path up to its last component, and joining it with the file name gives the path
    back, as paths are compared; only the empty path and a root have no parent. [pop] leaves exactly the parent. *)
Theorem parent_join s : ∃ r n, parent s = Ok r ∧ file_name s = Ok n ∧
  match r with
  | Some p => pop s = Ok (true, p) ∧ ∃ x, comps s = comps p ++ [x]
  | None => pop s = Ok (false, s) ∧ (comps s = [] ∨ comps s = [RootDir])
  end ∧
  match n with
  | Some f => ∃ p q, r = Some p ∧ join p f = Ok q ∧ path_eq q s = Ok true
  | None => True
  end.
Proof.
  destruct (parent_ok s) as (r & Hr & Hrs), (file_name_ok s) as (n & -> & Hn). exists r, n. rewrite Hr.
  split; [done|]. split; [done|]. split.
  { unfold pop. rewrite Hr. cbn. destruct r as [p|]; [|done]. destruct Hrs as (k & x & -> & Hx & _).
    split; [|by exists x]. f_equal. f_equal. rewrite length_take. destruct (decide (k ≤ length s))%nat.
    - by rewrite Nat.min_l.
    - by rewrite Nat.min_r, firstn_all, take_ge by lia. }
  destruct n as [f|]; [|done]. destruct r as [p|].
  - destruct Hrs as (k & x & _ & Hx & Hl). assert (x = Normal f) as -> by congruence.
    destruct (comps_last _ _ _ Hx) as [|[|[[]|(m & [= <-] & Hns & Hpc)]]]; [done..|].
    destruct (name_comps f Hns Hpc) as [Hsf Hbf].
    exists p. unfold join. rewrite push_ok. eexists. split; [done|]. split; [reflexivity|].
    rewrite path_eq_ok. f_equal. apply bool_decide_eq_true.
    erewrite join_comps; [|apply push_ok]. rewrite rooted_start by done. cbn [orb].
    case_bool_decide as Hp0; [|by rewrite Hbf]. rewrite Hx, Hp0, comps_body, Hbf by done. done.
  - destruct Hrs as [H | H]; rewrite H in Hn; done.
Qed.
End parents.

(** ** The hash of a path

    [Hash for Path] scans the bytes once, without the iterator. It writes the texts of
    the components but the root, and then how many bytes those were: so paths that are
    equal have the same hash. *)

(** The texts that are hashed. *)
Definition hashed (c : Component) : option path := match c with RootDir => None | _ => Some (comp_as_os_str c) end.
Definition total (l : list path) : nat := foldr (λ s n, (length s + n)%nat) 0%nat l.

Lemma total_app a b : total (a ++ b) = (total a + total b)%nat.
Proof. unfold total. induction a as [|x a IH]; cbn; [done|]. rewrite IH. lia. Qed.

(** One piece of the body is its own text. *)
Lemma hashed_body u : no_sep SEP u → omap hashed (body u) = if bool_decide (u = []) || cur_dir u then [] else [u].
Proof.
  intros Hu. rewrite body_name by done. unfold piece. destruct (decide (u = [])) as [-> | Hne]; [done|].
  rewrite (bool_decide_eq_false_2 (u = [])) by done. cbn [orb]. case_bool_decide as Hd; [by subst|].
  assert (cur_dir u = false) as ->.
  { destruct u as [|b [|b' u]]; [done|..]; cbn.
    - apply Z.eqb_neq. congruence.
    - unfold no_sep in Hu. rewrite !Forall_cons in Hu. destruct Hu as (_ & Hb & _). unfold is_sep_byte.
      by rewrite Hb, andb_false_r. }
  case_bool_decide as Hdd; [by subst|done].
Qed.

Section scan.
Context (bytes : path).

(** What is written after the scan. *)
Definition hash_end (acc : list HWrite * nat * nat) : list HWrite * nat :=
  let '(ws, component_start, bytes_hashed) := acc in
  if decide (component_start < length bytes)%nat then
    (ws ++ [HBytes (drop component_start bytes)], (bytes_hashed + length (drop component_start bytes))%nat)
  else (ws, bytes_hashed).

Lemma hash_bytes_end : hash_bytes false bytes =
  let '(ws, n) := hash_end (foldl (hash_at false bytes) ([], 0, 0)%nat (seq 0 (length bytes))) in ws ++ [HUsize n].
Proof. unfold hash_bytes, hash_end. destruct (foldl _ _ _) as [[ws cs] bh]. by destruct (decide _). Qed.

Definition skip (r : path) : nat := if cur_dir r then 1 else 0.

Lemma skip_eq r : match r with
  | [] => 0%nat
  | [b] => if b =? DOT then 1%nat else 0%nat
  | b :: sep :: _ => if (b =? DOT) && is_sep_byte sep then 1%nat else 0%nat
  end = skip r.
Proof. by destruct r as [|b [|b' r]]. Qed.

(** Nothing happens between separators. *)
Lemma scan_name acc pre u r : bytes = pre ++ u ++ r → no_sep SEP u →
  foldl (hash_at false bytes) acc (seq (length pre) (length u)) = acc.
Proof.
  revert pre. induction u as [|b u IH]; intros pre Hb Hu; [done|]. apply Forall_cons in Hu as [Hbs Hu]. cbn [length seq foldl].
  assert (hash_at false bytes acc (length pre) = acc) as ->.
  { unfold hash_at. destruct acc as [[ws cs] bh]. rewrite Hb. cbn [app].
    rewrite list_lookup_middle by done. unfold is_sep_byte. by rewrite Hbs. }
  specialize (IH (pre ++ [b])). rewrite length_app, Nat.add_1_r in IH. apply IH; [|done]. by rewrite Hb, <- app_assoc.
Qed.

(** At a separator the piece before it is written. *)
Lemma scan_sep ws cs bh pre u r : bytes = pre ++ u ++ SEP :: r → (length pre ≤ cs)%nat →
  let t := drop (cs - length pre) u in
  hash_at false bytes (ws, cs, bh) (length (pre ++ u)) =
    (ws ++ (if bool_decide (t = []) then [] else [HBytes t]), (length (pre ++ u) + 1 + skip r)%nat, (bh + length t)%nat).
Proof.
  intros Hb Hcs t. unfold hash_at. rewrite Hb, app_assoc, list_lookup_middle by done. cbn [is_sep_byte]. change (is_sep_byte SEP) with true.
  cbn match. assert (Hr : drop (length (pre ++ u) + 1) ((pre ++ u) ++ SEP :: r) = r).
  { rewrite <- drop_drop, drop_app_length. done. }
  rewrite Hr, skip_eq. destruct (decide (cs < length (pre ++ u))%nat) as [Hlt|Hge].
  - assert (take (length (pre ++ u) - cs) (drop cs ((pre ++ u) ++ SEP :: r)) = t) as ->.
    { subst t. rewrite length_app in *. rewrite <- app_assoc, drop_app_ge, drop_app_le by lia.
      apply take_app_length'. rewrite length_drop. lia. }
    rewrite bool_decide_eq_false_2; [done|]. subst t. intros H%(f_equal length). rewrite length_drop in H.
    rewrite length_app in Hlt. cbn in H. lia.
  - assert (t = []) as ->. { subst t. apply drop_ge. rewrite length_app in Hge. lia. }
    cbn. by rewrite app_nil_r, Nat.add_0_r.
Qed.

(** The text of a piece: nothing of an empty one, nor of a single dot. *)
Definition text (u : path) : list path := if bool_decide (u = []) || cur_dir u then [] else [u].

Lemma cur_dir_name u r : no_sep SEP u → cur_dir (u ++ SEP :: r) = bool_decide (u = [DOT]) ∧ cur_dir u = bool_decide (u = [DOT]).
Proof.
  intros Hu. destruct u as [|b [|b' u]]; [by destruct r|..]; cbn.
  - rewrite andb_true_r. split; case_bool_decide as H; try (injection H as ->; done); apply Z.eqb_neq; congruence.
  - unfold no_sep in Hu. rewrite !Forall_cons in Hu. destruct Hu as (_ & Hb & _). unfold is_sep_byte.
    rewrite Hb, andb_false_r, bool_decide_eq_false_2; [done|congruence].
Qed.

Lemma drop_skip u : cur_dir u = bool_decide (u = [DOT]) →
  let t := drop (skip u) u in (if bool_decide (t = []) then [] else [t]) = text u ∧ length t = total (text u).
Proof.
  intros Hu. unfold skip, text. rewrite Hu. case_bool_decide as H; [by subst|]. rewrite drop_0.
  case_bool_decide as H2; [by subst|]. cbn. by rewrite Nat.add_0_r.
Qed.

Lemma scan_rest n pre r ws bh : (length r ≤ n)%nat → bytes = pre ++ r →
  hash_end (foldl (hash_at false bytes) (ws, length pre + skip r, bh)%nat (seq (length pre) (length r))) =
    (ws ++ map HBytes (omap hashed (body r)), (bh + total (omap hashed (body r)))%nat).
Proof.
  revert pre r ws bh. induction n as [|n IH]; intros pre r ws bh Hl Hb.
  - destruct r; [|cbn in Hl; lia]. cbn. rewrite Hb, app_nil_r, Nat.add_0_r, decide_False by lia. by rewrite app_nil_r, Nat.add_0_r.
  - destruct (position (λ b, b =? SEP) r) as [i|] eqn:Hpos.
    + destruct (position_some _ _ _ Hpos) as (x & Hr & Hx & Hu). apply Z.eqb_eq in Hx as ->.
      set (u := take i r) in *. set (r' := drop (S i) r) in *. clearbody u r'. subst r.
      destruct (cur_dir_name u r' Hu) as [Hc1 Hc2]. destruct (drop_skip u Hc2) as [Ht1 Ht2]. cbn zeta in Ht1, Ht2.
      assert (skip (u ++ SEP :: r') = skip u) as -> by (unfold skip; by rewrite Hc1, Hc2).
      rewrite length_app in *. cbn [length] in *. rewrite seq_app, foldl_app, (scan_name _ _ u (SEP :: r')) by done.
      cbn [seq foldl]. rewrite <- length_app, (scan_sep _ _ _ _ _ r') by (done || lia). cbn zeta.
      replace (length pre + skip u - length pre)%nat with (skip u) by lia. rewrite Ht2.
      specialize (IH (pre ++ u ++ [SEP]) r'). rewrite !length_app in *. cbn [length] in *.
      replace (S (length pre + length u)) with (length pre + (length u + 1))%nat by lia.
      replace (length pre + length u + 1)%nat with (length pre + (length u + 1))%nat by lia.
      rewrite IH by (lia || by rewrite <- !app_assoc).
      rewrite body_sep, omap_app, (hashed_body u) by done. fold (text u). rewrite map_app, total_app, app_assoc, Nat.add_assoc.
      f_equal. f_equal. f_equal. rewrite <- Ht1. by case_bool_decide.
    + apply position_none in Hpos. destruct (cur_dir_name r [] Hpos) as [_ Hc].
      rewrite (scan_name _ _ r []) by (done || by rewrite app_nil_r). rewrite hashed_body by done. fold (text r).
      destruct (drop_skip r Hc) as [Ht1 Ht2]. cbn zeta in *. unfold hash_end.
      assert (drop (length pre + skip r) bytes = drop (skip r) r) as ->.
      { rewrite Hb, <- drop_drop, drop_app_length. done. }
      rewrite <- Ht1 at 1. destruct (decide _) as [Hlt|Hge]; rewrite Hb, length_app in *; rewrite <- Ht2.
      * rewrite bool_decide_eq_false_2; [done|]. intros H%(f_equal length). rewrite length_drop in H. cbn in H. lia.
      * rewrite bool_decide_eq_true_2 by (apply drop_ge; lia). rewrite length_drop. cbn. rewrite app_nil_r. f_equal. lia.
Qed.
End scan.

Section hash.
Context `{P : Profile}.

(** The whole hash, from the components. *)
Definition hash_of (l : list Component) : list HWrite :=
  let ts := omap hashed l in map HBytes ts ++ [HUsize (total ts)].

Lemma path_hash_ok s : path_hash s = Ok (hash_of (comps s)).
Proof.
  unfold path_hash. cbn [parse_prefix]. rewrite slice_from_ok, drop_0 by lia. cbn [mbind res_bind app]. f_equal.
  rewrite hash_bytes_end. destruct (cur_dir s) eqn:Hc.
  - destruct s as [|b [|b' s]]; [done|..]; cbn in Hc.
    + by apply Z.eqb_eq in Hc as ->.
    + apply andb_true_iff in Hc as [->%Z.eqb_eq ->%Z.eqb_eq]. cbn [length seq foldl].
      pose proof (scan_rest (DOT :: SEP :: s) (length s) [DOT; SEP] s [HBytes [DOT]] 1 ltac:(lia) eq_refl) as H.
      cbn [length] in H. change (hash_at false (DOT :: SEP :: s) ([], 0, 0)%nat 0) with (@nil HWrite, 0, 0)%nat.
      pose proof (scan_sep (DOT :: SEP :: s) [] 0 0 [] [DOT] s eq_refl ltac:(cbn; lia)) as H1.
      change (hash_at false (DOT :: SEP :: s) ([], 0, 0)%nat 1 = ([HBytes [DOT]], 2 + skip s, 1)%nat) in H1.
      rewrite H1, H. done.
  - pose proof (scan_rest s (length s) [] s [] 0 ltac:(lia) eq_refl) as H. unfold skip in H. rewrite Hc in H.
    cbn [length Nat.add] in H. rewrite H. cbn [app]. unfold hash_of, comps, start. rewrite Hc.
    destruct (rooted s) eqn:Hr; [|done]. destruct s as [|b s]; [done|]. apply Z.eqb_eq in Hr as ->. done.
Qed.

(** The hash of a path is a function of its components alone, computed from the bytes in one pass; paths that
    compare equal write the same to the hasher. *)
Theorem path_hash_eq a b : path_hash a = Ok (hash_of (comps a)) ∧ (path_eq a b = Ok true → path_hash a = path_hash b).
Proof.
  split; [apply path_hash_ok|]. rewrite path_eq_ok, !path_hash_ok. intros [= H]. apply bool_decide_eq_true in H. by rewrite H.
Qed.
End hash.

(** [a//b] and [a/./b/] are equal, and are hashed alike. *)
Lemma path_hash_eq_witness :
  path_eq (P:=debug_profile) [97; 47; 47; 98] [97; 47; 46; 47; 98; 47] = Ok true ∧
  path_hash [97; 47; 47; 98] = path_hash [97; 47; 46; 47; 98; 47].
Proof. split; [reflexivity|]. exact (proj2 (path_hash_eq (P:=debug_profile) [97; 47; 47; 98] [97; 47; 46; 47; 98; 47]) eq_refl). Defined.
