(* ===== verification/HashMap.v ===== *)
(** * The concurrent hash map ([libs/collection_ex/src/chash_map.rs],
    [chash_map/inner.rs] and [fnv_hasher.rs])

    A table of slots with linear probing: a slot is empty, holds an entry, or is
    marked as removed. The table doubles when it is 70 percent full and shrinks
    when it is less than 35 percent full. Kernel handle tables, the waiters of
    events and the futexes of a space are such maps. An operation holds the locks
    of the slots it uses; the change of capacity is a separate step that takes the
    lock of the table, so the operations are split there. Hashes, lengths and the
    counter are [usize]: where the code adds to them or multiplies them the operations
    can panic, and only there. *)

From S2P Require Import Base.
Local Open Scope Z_scope.
Local Open Scope h2o_scope.

Definition GROW_FACTOR : Z := 2.
Definition LOAD_FACTOR_N : Z := 70.
Definition LOAD_FACTOR_D : Z := 100.
Definition MIN_CAPACITY : Z := 8.

(** ** The hash function *)

Definition FNV_PRIME : Z := 1099511628211.
Definition OFFSET_BASIS : Z := 14695981039346656037.
Definition fnv_write (state : Z) (bytes : list Z) : Z :=
  fold_left (λ s b, wrap W (Z.lxor s b * FNV_PRIME)) bytes state.

(** [n] bytes of an integer, the lowest first, as [Hash] writes them. *)
Fixpoint le_bytes (n : nat) (z : Z) : list Z :=
  match n with
  | O => []
  | S n => z mod 256 :: le_bytes n (z / 256)
  end.
Definition fnv_hash (width : nat) (key : Z) : Z := fnv_write OFFSET_BASIS (le_bytes width key).

(** ** Slots and tables *)

Inductive Entry (T : Type) := Empty | Data (x : T) | Removed.
Arguments Empty {T}.
Arguments Data {T} x.
Arguments Removed {T}.

Definition is_empty {T} (e : Entry T) : bool := match e with Empty => true | _ => false end.
Definition is_removed {T} (e : Entry T) : bool := match e with Removed => true | _ => false end.
Definition is_free {T} (e : Entry T) : bool := is_empty e || is_removed e.
Definition entry_get {T} (e : Entry T) : option T := match e with Data x => Some x | _ => None end.

Section map.
Context {K V : Type} `{EqDecision K} `{P : Profile} (hash : K → Z).

Abbreviation hres := (res Empty_set).
Abbreviation slot := (Entry (K * V)).

Definition contains_key (e : slot) (key : K) : bool :=
  match e with Data (k, _) => bool_decide (key = k) | _ => false end.

Definition with_capacity (c : Z) : list slot := replicate (Z.to_nat c) Empty.

(** The order in which the slots are visited: round the table from the hash on. *)
Definition probe (key : K) (n : nat) : list nat :=
  (λ i, Z.to_nat ((hash key mod Z.of_nat n + Z.of_nat i) mod Z.of_nat n)) <$> seq 0 n.

(** [find_read] and [find_write]. *)
Fixpoint find_slot (p : slot → bool) (data : list slot) (is_ : list nat) : option nat :=
  match is_ with
  | [] => None
  | i :: is_ =>
      match data !! i with
      | Some e => if p e then Some i else find_slot p data is_
      | None => find_slot p data is_
      end
  end.
Definition find (data : list slot) (key : K) (p : slot → bool) : option nat :=
  find_slot p data (probe key (length data)).

(** [find_mut], which adds to the hash itself. *)
Fixpoint find_mut_loop (p : slot → bool) (data : list slot) (key : K) (is_ : list nat) : hres (option nat) :=
  match is_ with
  | [] => Ok None
  | i :: is_ =>
      h ← hash key +! Z.of_nat i;
      let idx := Z.to_nat (h mod Z.of_nat (length data)) in
      match data !! idx with
      | Some e => if p e then Ok (Some idx) else find_mut_loop p data key is_
      | None => find_mut_loop p data key is_
      end
  end.
Definition find_mut (data : list slot) (key : K) (p : slot → bool) : hres (option nat) :=
  find_mut_loop p data key (seq 0 (length data)).

(** [Buckets::entry]. *)
Fixpoint entry_loop (key : K) (data : list slot) (is_ : list nat) (free : option nat) : option nat :=
  match is_ with
  | [] => free
  | i :: is_ =>
      match data !! i with
      | Some Empty => Some (default i free)
      | Some (Data (k, _)) => if bool_decide (k = key) then Some i else entry_loop key data is_ free
      | Some Removed => entry_loop key data is_ (match free with Some f => Some f | None => Some i end)
      | None => entry_loop key data is_ free
      end
  end.
Definition entry (data : list slot) (key : K) : option nat :=
  entry_loop key data (probe key (length data)) None.

Definition move_one (data : list slot) (e : slot) : hres (list slot) :=
  match e with
  | Data (k, v) =>
      i ← find_mut data k is_free;
      Ok (match i with Some i => <[i := Data (k, v)]> data | None => data end)
  | _ => Ok data
  end.
Fixpoint move_from (data other : list slot) : hres (list slot) :=
  match other with
  | [] => Ok data
  | e :: other => data ← move_one data e; move_from data other
  end.

Record CHashMap := MkMap { buckets : list slot; len : Z }.

Definition ch_new : CHashMap := MkMap (with_capacity MIN_CAPACITY) 0.

Definition blen (data : list slot) : Z := Z.of_nat (length data).

Definition grow (t : CHashMap) (old_len : Z) : hres CHashMap :=
  n ← old_len *! GROW_FACTOR;
  if blen (buckets t) <? n then
    data ← move_from (with_capacity n) (buckets t);
    Ok (MkMap data (len t))
  else Ok t.

Definition shrink (t : CHashMap) (new_len : Z) : hres CHashMap :=
  if new_len <? blen (buckets t) then
    data ← move_from (with_capacity (Z.max new_len MIN_CAPACITY)) (buckets t);
    Ok (MkMap data (len t))
  else Ok t.

Definition ch_get (t : CHashMap) (key : K) : option V :=
  match find (buckets t) key (λ e, contains_key e key) with
  | Some i => match buckets t !! i with Some (Data (_, v)) => Some v | _ => None end
  | None => None
  end.

Definition ch_contains_key (t : CHashMap) (key : K) : bool := bool_decide (is_Some (ch_get t key)).

(** [get_mut] and a write through its guard. *)
Definition ch_set (t : CHashMap) (key : K) (v : V) : CHashMap :=
  match find (buckets t) key (λ e, contains_key e key) with
  | Some i => MkMap (<[i := Data (key, v)]> (buckets t)) (len t)
  | None => t
  end.

(** What an operation that holds the table lock decides to do afterwards. *)
Inductive resize := Keep | Grow (old_len : Z) | Shrink (new_len : Z).

Definition apply_resize (t : CHashMap) (r : resize) : hres CHashMap :=
  match r with Keep => Ok t | Grow n => grow t n | Shrink n => shrink t n end.

Definition needs_grow (n : Z) (data : list slot) : hres bool :=
  a ← n *! LOAD_FACTOR_D;
  b ← blen data *! LOAD_FACTOR_N;
  Ok (b <=? a).
Definition needs_shrink (n : Z) (data : list slot) : hres bool :=
  a ← n *! GROW_FACTOR;
  a ← a *! LOAD_FACTOR_D;
  b ← blen data *! LOAD_FACTOR_N;
  Ok (a <? b).

(** One turn of the loop of [insert]: the old entry if it succeeded. The counter itself
    wraps around. *)
Definition insert_once (t : CHashMap) (key : K) (value : V) : hres (option (option (K * V)) * CHashMap * resize) :=
  match entry (buckets t) key with
  | Some i =>
      let old := default Empty (buckets t !! i) in
      let data := <[i := Data (key, value)]> (buckets t) in
      if is_free old then
        n ← len t +! 1;
        g ← needs_grow n data;
        Ok (Some (entry_get old), MkMap data (wrap W (len t + 1)), if g : bool then Grow n else Keep)
      else Ok (Some (entry_get old), MkMap data (len t), Keep)
  | None => n ← len t *! GROW_FACTOR; Ok (None, t, Grow n)
  end.

(** Two turns are enough: the first that finds no slot enlarges the table. *)
Fixpoint insert_loop (fuel : nat) (t : CHashMap) (key : K) (value : V) : hres (option (K * V) * CHashMap) :=
  match fuel with
  | O => Panic
  | S fuel =>
      '(r, t, z) ← insert_once t key value;
      t ← apply_resize t z;
      match r with
      | Some old => Ok (old, t)
      | None => insert_loop fuel t key value
      end
  end.
Definition ch_insert (t : CHashMap) (key : K) (value : V) : hres (option (K * V) * CHashMap) :=
  insert_loop 2 t key value.

(** [get_or_insert]; [None] when the loop that waits for a free slot, holding
    the lock that a change of the capacity needs, never ends. *)
Definition get_or_insert (t : CHashMap) (key : K) (value : V) : hres (option (V * CHashMap)) :=
  match entry (buckets t) key with
  | None => Ok None
  | Some i =>
      match buckets t !! i with
      | Some (Data (_, v)) => Ok (Some (v, t))
      | _ =>
          let data := <[i := Data (key, value)]> (buckets t) in
          n ← len t +! 1;
          let t := MkMap data (wrap W (len t + 1)) in
          g ← needs_grow n data;
          if g : bool then
            t ← grow t n;
            v ← unwrap (ch_get t key);
            Ok (Some (v, t))
          else Ok (Some (value, t))
      end
  end.

(** [try_remove_entry] without the final change of capacity. *)
Definition try_remove_once {E} (t : CHashMap) (key : K) (p : V → option E)
    : hres (((K * V) + option E) * CHashMap * resize) :=
  match entry (buckets t) key with
  | Some i =>
      match buckets t !! i with
      | Some (Data (k, v)) =>
          match p v with
          | None =>
              let data := <[i := Removed]> (buckets t) in
              n ← len t -! 1;
              b ← needs_shrink n data;
              Ok (inl (k, v), MkMap data (wrap W (len t - 1)), if b : bool then Shrink n else Keep)
          | Some e => Ok (inr (Some e), t, Keep)
          end
      | _ => Ok (inr None, t, Keep)
      end
  | None => Ok (inr None, t, Keep)
  end.

Definition try_remove_entry {E} (t : CHashMap) (key : K) (p : V → option E)
    : hres (((K * V) + option E) * CHashMap) :=
  '(r, t, z) ← try_remove_once t key p;
  t ← apply_resize t z;
  Ok (r, t).

Definition try_remove {E} (t : CHashMap) (key : K) (p : V → option E) : hres ((V + option E) * CHashMap) :=
  '(r, t) ← try_remove_entry t key p;
  Ok (match r with inl (_, v) => inl v | inr e => inr e end, t).

Definition remove_entry_if (t : CHashMap) (key : K) (p : V → bool) : hres (option (K * V) * CHashMap) :=
  '(r, t) ← try_remove_entry t key (λ v, if p v then None else Some ());
  Ok (match r with inl kv => Some kv | inr _ => None end, t).
Definition remove_entry (t : CHashMap) (key : K) : hres (option (K * V) * CHashMap) :=
  remove_entry_if t key (λ _, true).
Definition ch_remove_if (t : CHashMap) (key : K) (p : V → bool) : hres (option V * CHashMap) :=
  '(r, t) ← remove_entry_if t key p; Ok (option_map snd r, t).
Definition ch_remove (t : CHashMap) (key : K) : hres (option V * CHashMap) :=
  '(r, t) ← remove_entry t key; Ok (option_map snd r, t).

(** The entries, as [into_iter] gives them. *)
Definition entries (data : list slot) : list (K * V) := omap entry_get data.
Definition ch_into_iter (t : CHashMap) : list (K * V) := entries (buckets t).

(** [retain_mut] and [retain]: the predicate may change the value. *)
Definition retain_slot (p : K → V → V * bool) (e : slot) : slot :=
  match e with
  | Data (k, v) => let '(v, keep) := p k v in if keep : bool then Data (k, v) else Removed
  | e => e
  end.
Definition retain_mut (t : CHashMap) (p : K → V → V * bool) : CHashMap :=
  let data := retain_slot p <$> buckets t in
  MkMap data (wrap W (len t - (Z.of_nat (length (entries (buckets t))) - Z.of_nat (length (entries data))))).
Definition ch_retain (t : CHashMap) (p : K → V → bool) : CHashMap := retain_mut t (λ k v, (v, p k v)).

(** [take]: the map is exchanged for an empty one. *)
Definition ch_take (t : CHashMap) : CHashMap * CHashMap := (t, ch_new).
End map.
Arguments CHashMap : clear implicits.
