(* ===== verification/HashSpec.v ===== *)
(** * Refinement of finite maps by the hash map

    The operations of [CHashMap] against the operations of finite maps, as long as no hash
    is close to the end of the words ([room]), and the behaviours outside the contract:
    moving an entry with a hash close to it panics or loses it, [get_or_insert] on a full
    table does not return, and an insertion between a removal and the shrinking it decided
    on can lose an entry. *)

From S2P Require Import Base HashMap.
Local Open Scope Z_scope.

(** ** The hash map implements a finite map

    [wf t m]: the table [t] represents the finite map [m]. Its entries are those
    of [m], each found from its hash without crossing an empty slot, and the
    counter is the size of [m]. Every operation commutes with this relation. *)

Section facts.
Context {K V : Type} `{Countable K} `{P : Profile} (hash : K → Z).
Implicit Types (data : list (Entry (K * V))) (m : gmap K V) (t : CHashMap K V).

(** ** The order of probing *)

Lemma probe_sum k n : probe hash k n = (λ i, Z.to_nat ((hash k + Z.of_nat i) mod Z.of_nat n)) <$> seq 0 n.
Proof. unfold probe. apply list_fmap_ext. intros i j _. by rewrite Zplus_mod_idemp_l. Qed.

Lemma probe_complete k n i : (i < n)%nat → i ∈ probe hash k n.
Proof.
  intros Hi. rewrite probe_sum. apply list_elem_of_fmap.
  exists (Z.to_nat ((Z.of_nat i - hash k) mod Z.of_nat n)).
  pose proof (Z.mod_pos_bound (Z.of_nat i - hash k) (Z.of_nat n) ltac:(lia)). split.
  - rewrite Z2Nat.id, Zplus_mod_idemp_r by lia.
    replace (hash k + (Z.of_nat i - hash k)) with (Z.of_nat i) by lia. rewrite Z.mod_small by lia. lia.
  - apply elem_of_seq. lia.
Qed.

Lemma probe_range k n i : i ∈ probe hash k n → (i < n)%nat.
Proof.
  rewrite probe_sum. intros (j & -> & Hj)%list_elem_of_fmap. apply elem_of_seq in Hj.
  pose proof (Z.mod_pos_bound (hash k + Z.of_nat j) (Z.of_nat n) ltac:(lia)). lia.
Qed.

(** ** Entries *)

Lemma elem_of_entries data kv : kv ∈ entries data ↔ ∃ i, data !! i = Some (Data kv).
Proof.
  unfold entries. rewrite list_elem_of_omap. split.
  - intros (e & He & Hg). apply list_elem_of_lookup in He as [i Hi]. exists i.
    destruct e; simplify_eq/=. done.
  - intros [i Hi]. exists (Data kv). split; [by eapply list_elem_of_lookup_2|done].
Qed.

(** A slot apart from the others. *)
Lemma entries_slot data i e :
  data !! i = Some e → ∃ rest, entries data ≡ₚ option_list (entry_get e) ++ rest ∧
    ∀ e', entries (<[i := e']> data) ≡ₚ option_list (entry_get e') ++ rest.
Proof.
  intros Hi. exists (entries (take i data) ++ entries (drop (S i) data)). unfold entries.
  assert (∀ e', omap entry_get (take i data ++ e' :: drop (S i) data) ≡ₚ
    option_list (entry_get e') ++ omap entry_get (take i data) ++ omap entry_get (drop (S i) data)) as Hsplit.
  { intros e'. rewrite omap_app. cbn.
    destruct (entry_get e'); cbn; [by rewrite Permutation_middle|done]. }
  split.
  - rewrite <- (take_drop_middle _ _ _ Hi) at 1. apply Hsplit.
  - intros e'. rewrite insert_take_drop by (by eapply lookup_lt_Some). apply Hsplit.
Qed.

Lemma entries_full data :
  (∀ i e, data !! i = Some e → is_free e = false) → length (entries data) = length data.
Proof.
  unfold entries. induction data as [|e data IH]; intros Hd; [done|].
  pose proof (Hd 0%nat e eq_refl) as He. destruct e; try done. cbn. f_equal. apply IH.
  intros i e Hi. by apply (Hd (S i)).
Qed.

Lemma entries_length data : (length (entries data) ≤ length data)%nat.
Proof. unfold entries. induction data as [|[] data IH]; cbn; lia. Qed.

(** ** The representation *)

(** Slot [i] is found when probing for [k]. *)
Definition reaches data (k : K) (i : nat) : Prop :=
  ∃ pre post, probe hash k (length data) = pre ++ i :: post ∧ ∀ j, j ∈ pre → data !! j ≠ Some Empty.

Record rep data m : Prop := {
  rep_entries : entries data ≡ₚ map_to_list m;
  rep_reach i k v : data !! i = Some (Data (k, v)) → reaches data k i;
}.

Lemma rep_lookup data m k v : rep data m → m !! k = Some v ↔ ∃ i, data !! i = Some (Data (k, v)).
Proof.
  intros Hr. rewrite <- elem_of_entries, (rep_entries _ _ Hr). symmetry. apply elem_of_map_to_list.
Qed.

Lemma rep_length data m : rep data m → length (entries data) = size m.
Proof. intros Hr. by rewrite (rep_entries _ _ Hr), length_map_to_list. Qed.

Lemma rep_absent data m k :
  rep data m → m !! k = None → ∀ i v, data !! i ≠ Some (Data (k, v)).
Proof. intros Hr Hk i v Hi. assert (m !! k = Some v) by (apply (rep_lookup data m k v Hr); eauto). congruence. Qed.

(** A key has one slot. *)
Lemma rep_unique data m i j k v v' :
  rep data m → data !! i = Some (Data (k, v)) → data !! j = Some (Data (k, v')) → i = j.
Proof.
  intros Hr Hi Hj. destruct (decide (i = j)) as [|Hne]; [done|]. exfalso.
  destruct (entries_slot data i _ Hi) as (rest & Hrest & Hupd).
  assert ((k, v') ∈ rest) as Hin.
  { specialize (Hupd Empty). cbn in Hupd. rewrite <- Hupd. apply elem_of_entries. exists j.
    by rewrite list_lookup_insert_ne. }
  pose proof (NoDup_fst_map_to_list m) as Hnd. rewrite <- (rep_entries _ _ Hr), Hrest in Hnd. cbn in Hnd.
  apply NoDup_cons in Hnd as [Hni _]. apply Hni, list_elem_of_fmap. by exists (k, v').
Qed.

Lemma reaches_insert data k i j e :
  e ≠ Empty → reaches data k i → reaches (<[j := e]> data) k i.
Proof.
  intros He (pre & post & Hp & Hn). exists pre, post. rewrite length_insert. split; [done|].
  intros l Hl Hd. destruct (decide (j = l)) as [->|Hne].
  - apply list_lookup_insert_Some in Hd as [(_ & Hd & _)|(? & _)]; [by subst|done].
  - rewrite list_lookup_insert_ne in Hd by done. by apply (Hn l).
Qed.

(** A new key in a free slot. *)
Lemma rep_put_new data m i e k v :
  rep data m → m !! k = None → data !! i = Some e → is_free e = true → reaches data k i →
  rep (<[i := Data (k, v)]> data) (<[k := v]> m).
Proof.
  intros Hr Hk Hi Hf Hre. destruct (entries_slot data i e Hi) as (rest & Hrest & Hupd). split.
  - rewrite Hupd, map_to_list_insert by done. cbn. apply Permutation_skip.
    rewrite <- (rep_entries _ _ Hr), Hrest. by destruct e.
  - intros j k' v' Hj. apply list_lookup_insert_Some in Hj as [(<- & Hj & _)|(Hne & Hj)].
    + simplify_eq. by apply reaches_insert.
    + apply reaches_insert; [done|]. by eapply rep_reach.
Qed.

(** The rest of the entries when one is taken out. *)
Lemma rep_delete_entries data m i k v :
  rep data m → data !! i = Some (Data (k, v)) →
  ∀ e', entries (<[i := e']> data) ≡ₚ option_list (entry_get e') ++ map_to_list (delete k m).
Proof.
  intros Hr Hi e'. destruct (entries_slot data i _ Hi) as (rest & Hrest & Hupd). rewrite Hupd.
  apply Permutation_app_head. cbn in Hrest.
  assert (m !! k = Some v) as Hk by (apply (rep_lookup data m k v Hr); eauto).
  apply (Permutation_cons_inv (a:=(k, v))). rewrite <- Hrest, (rep_entries _ _ Hr).
  by rewrite map_to_list_delete.
Qed.

Lemma rep_put_old data m i k v0 v :
  rep data m → data !! i = Some (Data (k, v0)) → rep (<[i := Data (k, v)]> data) (<[k := v]> m).
Proof.
  intros Hr Hi. split.
  - rewrite (rep_delete_entries data m i k v0) by done. cbn.
    rewrite <- insert_delete_eq, map_to_list_insert; [done|apply lookup_delete_eq].
  - intros j k' v' Hj. apply list_lookup_insert_Some in Hj as [(<- & Hj & _)|(Hne & Hj)].
    + simplify_eq. apply reaches_insert; [done|]. by eapply rep_reach.
    + apply reaches_insert; [done|]. by eapply rep_reach.
Qed.

Lemma rep_take_out data m i k v :
  rep data m → data !! i = Some (Data (k, v)) → rep (<[i := Removed]> data) (delete k m).
Proof.
  intros Hr Hi. split.
  - by rewrite (rep_delete_entries data m i k v).
  - intros j k' v' Hj. apply list_lookup_insert_Some in Hj as [(<- & Hj & _)|(Hne & Hj)]; [done|].
    apply reaches_insert; [done|]. by eapply rep_reach.
Qed.

(** ** Searching *)

Lemma find_slot_spec (p : Entry (K * V) → bool) data is_ :
  match find_slot p data is_ with
  | Some i => ∃ pre post e, is_ = pre ++ i :: post ∧ data !! i = Some e ∧ p e = true ∧
      ∀ j e', j ∈ pre → data !! j = Some e' → p e' = false
  | None => ∀ j e', j ∈ is_ → data !! j = Some e' → p e' = false
  end.
Proof.
  induction is_ as [|i is_ IH]; cbn; [by intros j e' Hj%not_elem_of_nil|].
  assert (data !! i = None ∨ (∃ e, data !! i = Some e ∧ p e = false) →
    match find_slot p data is_ with
    | Some i0 => ∃ pre post e, i :: is_ = pre ++ i0 :: post ∧ data !! i0 = Some e ∧ p e = true ∧
        ∀ j e', j ∈ pre → data !! j = Some e' → p e' = false
    | None => ∀ j e', j ∈ i :: is_ → data !! j = Some e' → p e' = false
    end) as Hnext.
  { intros Hi. assert (∀ e', data !! i = Some e' → p e' = false) as Hi'.
    { intros e' He'. destruct Hi as [Hi|(e & He & Hp)]; congruence. }
    destruct (find_slot p data is_) as [l|].
    - destruct IH as (pre & post & e & -> & Hl & Hp & Hn). exists (i :: pre), post, e. split_and!; [done..|].
      intros j e' [->|Hj]%elem_of_cons; eauto.
    - intros j e' [->|Hj]%elem_of_cons; eauto. }
  destruct (data !! i) as [e|] eqn:Hi; [|apply Hnext; auto].
  destruct (p e) eqn:Hp; [|apply Hnext; eauto].
  exists [], is_, e. split_and!; [done..|]. by intros j e' Hj%not_elem_of_nil.
Qed.

Lemma entry_loop_found key data i v pre post free :
  (∀ j v', data !! j = Some (Data (key, v')) → j = i) → data !! i = Some (Data (key, v)) →
  (∀ j, j ∈ pre → data !! j ≠ Some Empty) →
  entry_loop key data (pre ++ i :: post) free = Some i.
Proof.
  intros Hu Hi. revert free. induction pre as [|j pre IH]; intros free Hpre; cbn.
  - rewrite Hi. by rewrite bool_decide_eq_true_2.
  - assert (∀ f, entry_loop key data (pre ++ i :: post) f = Some i) as IH'.
    { intros f. apply IH. intros l Hl. by apply Hpre, list_elem_of_further. }
    destruct (data !! j) as [[|[k v']|]|] eqn:Hj; [|case_bool_decide|..]; try apply IH'.
    + by destruct (Hpre j (list_elem_of_here _ _)).
    + subst k. by rewrite (Hu j v').
Qed.

Lemma entry_loop_absent key data is_ free :
  (∀ j v, data !! j ≠ Some (Data (key, v))) →
  match free, entry_loop key data is_ free with
  | Some f, r => r = Some f
  | None, Some i => ∃ pre post e, is_ = pre ++ i :: post ∧ data !! i = Some e ∧ is_free e = true ∧
      ∀ j, j ∈ pre → data !! j ≠ Some Empty
  | None, None => ∀ j e, j ∈ is_ → data !! j = Some e → is_free e = false
  end.
Proof.
  intros Ha. revert free. induction is_ as [|i is_ IH]; intros free.
  { destruct free; cbn; [done|]. by intros j e Hj%not_elem_of_nil. }
  cbn. destruct (data !! i) as [[|[k v]|]|] eqn:Hi.
  - destruct free; [done|]. cbn. exists [], is_, Empty. split_and!; [done..|]. by intros j Hj%not_elem_of_nil.
  - rewrite bool_decide_eq_false_2 by (intros ->; by apply (Ha i v)).
    specialize (IH free). destruct free; [done|]. destruct (entry_loop key data is_ None) as [l|].
    + destruct IH as (pre & post & e & -> & Hl & Hf & Hn). exists (i :: pre), post, e. split_and!; [done..|].
      intros j [->|Hj]%elem_of_cons; [by rewrite Hi|by apply Hn].
    + intros j e [->|Hj]%elem_of_cons He; [by simplify_eq|by eapply IH].
  - destruct free as [f|]; [apply (IH (Some f))|]. rewrite (IH (Some i)).
    exists [], is_, Removed. split_and!; [done..|]. by intros j Hj%not_elem_of_nil.
  - specialize (IH free). destruct free; [done|]. destruct (entry_loop key data is_ None) as [l|].
    + destruct IH as (pre & post & e & -> & Hl & Hf & Hn). exists (i :: pre), post, e. split_and!; [done..|].
      intros j [->|Hj]%elem_of_cons; [by rewrite Hi|by apply Hn].
    + intros j e [->|Hj]%elem_of_cons He; [by simplify_eq|by eapply IH].
Qed.

(** [Buckets::entry] on a table that represents [m]. *)
Lemma entry_present data m key v :
  rep data m → m !! key = Some v → ∃ i, entry hash data key = Some i ∧ data !! i = Some (Data (key, v)).
Proof.
  intros Hr Hk. destruct (proj1 (rep_lookup data m key v Hr) Hk) as [i Hi]. exists i. split; [|done].
  destruct (rep_reach _ _ Hr _ _ _ Hi) as (pre & post & Hp & Hn). unfold entry. rewrite Hp.
  eapply entry_loop_found; [|done..]. intros j v' Hj. by eapply rep_unique.
Qed.

Lemma no_free_full data m :
  rep data m → (∀ j e, data !! j = Some e → is_free e = false) → size m = length data.
Proof. intros Hr Hf. by rewrite <- (rep_length _ _ Hr), entries_full. Qed.

Lemma entry_absent data m key :
  rep data m → m !! key = None →
  match entry hash data key with
  | Some i => reaches data key i ∧ ∃ e, data !! i = Some e ∧ is_free e = true
  | None => size m = length data
  end.
Proof.
  intros Hr Hk. pose proof (entry_loop_absent key data (probe hash key (length data)) None
    (rep_absent _ _ _ Hr Hk)) as Hspec. unfold entry.
  destruct (entry_loop _ _ _ _) as [i|].
  - destruct Hspec as (pre & post & e & Hp & Hi & Hf & Hn). split; [by exists pre, post|eauto].
  - eapply no_free_full; [done|]. intros j e Hj. eapply Hspec; [|done].
    apply probe_complete. by eapply lookup_lt_Some.
Qed.

(** ** Changing the capacity *)

(** No hash is in the last [c] words. *)
Definition room (c : Z) : Prop := ∀ k, 0 ≤ hash k ∧ hash k + c ≤ 2 ^ 64.

Lemma find_mut_ok c data k p : room c → Z.of_nat (length data) ≤ c → find_mut hash data k p = Ok (find hash data k p).
Proof.
  intros Hroom Hlen. unfold find_mut, find. rewrite probe_sum.
  assert (∀ is_, (∀ i, i ∈ is_ → (i < length data)%nat) → find_mut_loop hash p data k is_ =
    Ok (find_slot p data ((λ i, Z.to_nat ((hash k + Z.of_nat i) mod Z.of_nat (length data))) <$> is_))) as Hloop.
  { intros is_. induction is_ as [|i is_ IH]; intros Hin; [done|]. destruct (Hroom k) as [H0 H1].
    assert (i < length data)%nat as Hi by (apply Hin, list_elem_of_here). cbn [find_mut_loop].
    rewrite uadd_ok by lia. cbn. rewrite IH by (intros j Hj; by apply Hin, list_elem_of_further).
    destruct (data !! _) as [e|]; [by destruct (p e)|done]. }
  apply Hloop. intros i Hi%elem_of_seq. lia.
Qed.

Lemma move_one_rep c data m k v : room c → Z.of_nat (length data) ≤ c →
  rep data m → m !! k = None → (size m < length data)%nat →
  ∃ data', move_one hash data (Data (k, v)) = Ok data' ∧ length data' = length data ∧ rep data' (<[k := v]> m).
Proof.
  intros Hroom Hlen Hr Hk Hs. unfold move_one. rewrite (find_mut_ok c) by done. cbn. unfold find.
  pose proof (find_slot_spec is_free data (probe hash k (length data))) as Hspec.
  destruct (find_slot _ _ _) as [i|].
  - destruct Hspec as (pre & post & e & Hp & Hi & Hf & Hn). eexists. split; [done|]. split; [apply length_insert|].
    eapply rep_put_new; [done..|]. exists pre, post. split; [done|]. intros j Hj Hd. by specialize (Hn j Empty Hj Hd).
  - exfalso. assert (size m = length data); [|lia]. eapply no_free_full; [done|].
    intros j e Hj. eapply Hspec; [|done]. apply probe_complete. by eapply lookup_lt_Some.
Qed.

Lemma move_from_rep c other : ∀ data m, room c → Z.of_nat (length data) ≤ c →
  rep data m → NoDup (fst <$> entries other) → (∀ k v, (k, v) ∈ entries other → m !! k = None) →
  (size m + length (entries other) ≤ length data)%nat →
  ∃ data' m', move_from hash data other = Ok data' ∧ length data' = length data ∧ rep data' m' ∧
    map_to_list m' ≡ₚ entries other ++ map_to_list m.
Proof.
  induction other as [|e other IH]; intros data m Hroom Hlen Hr Hnd Hdis Hs; [by exists data, m|]. cbn [move_from].
  destruct e as [|[k v]|]; [by apply IH| |by apply IH].
  change (entries (Data (k, v) :: other)) with ((k, v) :: entries other) in *.
  cbn [length fmap list_fmap fst] in Hnd, Hs. apply NoDup_cons in Hnd as [Hk Hnd].
  assert (m !! k = None) as Hkm by (apply (Hdis k v), list_elem_of_here).
  destruct (move_one_rep c data m k v) as (data1 & -> & Hl1 & Hr1); [done..|lia|]. cbn [mbind res_bind].
  destruct (IH data1 (<[k := v]> m)) as (data' & m' & Hmove & Hl & Hr' & Hm'); try done; [lia|..].
  - intros k' v' Hin. rewrite lookup_insert_ne; [eapply Hdis, list_elem_of_further, Hin|].
    intros ->. apply Hk, list_elem_of_fmap. by exists (k', v').
  - rewrite Hl1, map_size_insert_None by done. lia.
  - exists data', m'. split; [done|]. split; [congruence|]. split; [done|].
    rewrite Hm', map_to_list_insert by done. symmetry. apply Permutation_middle.
Qed.

Lemma rep_new c : rep (with_capacity c) (∅ : gmap K V).
Proof.
  unfold with_capacity. split.
  - rewrite map_to_list_empty. by induction (Z.to_nat c).
  - intros i k v [? _]%lookup_replicate. done.
Qed.

(** A table of another capacity with the same entries. *)
Lemma rehash_rep data m c : room c →
  rep data m → Z.of_nat (size m) ≤ c →
  ∃ data', move_from hash (with_capacity c) data = Ok data' ∧ rep data' m ∧ blen data' = c.
Proof.
  intros Hroom Hr Hc. assert (Z.of_nat (length (with_capacity (K:=K) (V:=V) c)) = c) as Hcap.
  { unfold with_capacity. rewrite length_replicate. lia. }
  destruct (move_from_rep c data (with_capacity c) ∅) as (data' & m' & Hmove & Hl & Hr' & Hm'); [done|lia|..].
  - apply rep_new.
  - rewrite (rep_entries _ _ Hr). apply NoDup_fst_map_to_list.
  - intros k v _. apply lookup_empty.
  - rewrite map_size_empty, (rep_length _ _ Hr). lia.
  - rewrite map_to_list_empty, app_nil_r, (rep_entries _ _ Hr) in Hm'. apply map_to_list_inj in Hm' as ->.
    exists data'. split; [done|]. split; [done|]. unfold blen. by rewrite Hl.
Qed.
End facts.

Section spec.
Context {K V : Type} `{Countable K} `{P : Profile} (hash : K → Z).
Implicit Types (data : list (Entry (K * V))) (m : gmap K V) (t : CHashMap K V).

Record wf t m : Prop := {
  wf_rep : rep hash (buckets t) m;
  wf_len : len t = Z.of_nat (size m);
  wf_cap : MIN_CAPACITY ≤ blen (buckets t);
}.

Lemma wf_new : wf ch_new ∅.
Proof. split; [apply rep_new|by rewrite map_size_empty|done]. Qed.

Lemma wf_size_le t m : wf t m → Z.of_nat (size m) ≤ blen (buckets t).
Proof.
  intros [Hr _ _]. rewrite <- (rep_length _ _ _ Hr). pose proof (entries_length (buckets t)). unfold blen. lia.
Qed.

Lemma grow_wf t m n : wf t m → room hash (n * GROW_FACTOR) → 0 ≤ n * GROW_FACTOR < 2 ^ 64 →
  ∃ t', grow hash t n = Ok t' ∧ wf t' m ∧ blen (buckets t') = Z.max (blen (buckets t)) (n * GROW_FACTOR).
Proof.
  intros Hwf Hroom Hn. pose proof (wf_size_le t m Hwf). destruct Hwf as [Hr Hl Hc]. unfold grow.
  rewrite umul_ok by done. cbn [mbind res_bind]. destruct (Z.ltb_spec (blen (buckets t)) (n * GROW_FACTOR)).
  - destruct (rehash_rep hash (buckets t) m (n * GROW_FACTOR)) as (data & -> & Hr' & Hb); [done|done|lia|].
    eexists. split; [done|]. split; [|cbn; rewrite Hb; lia]. split; [done|done|]. cbn. rewrite Hb. lia.
  - exists t. split; [done|]. split; [done|lia].
Qed.

Lemma shrink_wf t m : wf t m → room hash (blen (buckets t)) → ∃ t', shrink hash t (len t) = Ok t' ∧ wf t' m.
Proof.
  intros [Hr Hl Hc] Hroom. unfold shrink. destruct (Z.ltb_spec (len t) (blen (buckets t))); [|by exists t].
  destruct (rehash_rep hash (buckets t) m (Z.max (len t) MIN_CAPACITY)) as (data & -> & Hr' & Hb); [|done|lia|].
  { intros k. specialize (Hroom k). lia. }
  eexists. split; [done|]. split; [done|done|]. cbn. rewrite Hb. lia.
Qed.

Lemma ch_get_spec t m k : wf t m → ch_get hash t k = m !! k.
Proof.
  intros [Hr _ _]. unfold ch_get, find.
  pose proof (find_slot_spec (λ e, contains_key e k) (buckets t) (probe hash k (length (buckets t)))) as Hspec.
  destruct (find_slot _ _ _) as [i|].
  - destruct Hspec as (pre & post & e & Hp & Hi & He & _). rewrite Hi.
    destruct e as [|[k' v]|]; try done. apply bool_decide_eq_true in He as <-.
    symmetry. apply (rep_lookup _ _ _ _ _ Hr). eauto.
  - destruct (m !! k) as [v|] eqn:Hk; [|done]. exfalso.
    apply (rep_lookup _ _ _ _ _ Hr) in Hk as [i Hi].
    assert (contains_key (Data (k, v)) k = false) as Hf.
    { apply (Hspec i); [|done]. apply probe_complete. by eapply lookup_lt_Some. }
    cbn in Hf. by rewrite bool_decide_eq_true_2 in Hf.
Qed.

(** Room to enlarge the table: no hash is within four times the capacity of the end of the
    words, and what the load is computed from fits a word. *)
Definition roomy t : Prop := room hash (4 * blen (buckets t)) ∧ 500 * blen (buckets t) < 2 ^ 64.

Lemma room_le c c' : room hash c → c' ≤ c → room hash c'.
Proof. intros Hr Hc k. specialize (Hr k). lia. Qed.

Lemma needs_grow_run n data : 0 ≤ n → n * 100 < 2 ^ 64 → blen data * 100 < 2 ^ 64 → ∃ b, needs_grow n data = Ok b.
Proof.
  intros H0 Hn Hd. unfold needs_grow, LOAD_FACTOR_D, LOAD_FACTOR_N. assert (0 ≤ blen data) by (unfold blen; lia).
  rewrite !umul_ok by lia. by eexists.
Qed.
Lemma needs_shrink_run n data : 0 ≤ n → n * 200 < 2 ^ 64 → blen data * 100 < 2 ^ 64 → ∃ b, needs_shrink n data = Ok b.
Proof.
  intros H0 Hn Hd. unfold needs_shrink, LOAD_FACTOR_D, LOAD_FACTOR_N, GROW_FACTOR. assert (0 ≤ blen data) by (unfold blen; lia).
  rewrite !umul_ok by lia. cbn. rewrite !umul_ok by lia. by eexists.
Qed.

(** One turn of [insert]: it succeeds unless the key is new and the table full. *)
Lemma insert_once_spec t m k v :
  wf t m → 100 * blen (buckets t) + 200 < 2 ^ 64 →
  ∃ r t' z, insert_once hash t k v = Ok (r, t', z) ∧
  match r with
  | Some old => old = (λ v0, (k, v0)) <$> m !! k ∧ wf t' (<[k := v]> m) ∧ blen (buckets t') = blen (buckets t) ∧
      (z = Keep ∨ z = Grow (Z.of_nat (size m) + 1))
  | None => m !! k = None ∧ Z.of_nat (size m) = blen (buckets t) ∧ t' = t ∧
      z = Grow (len t * GROW_FACTOR)
  end.
Proof.
  intros Hwf Hbig. pose proof (wf_size_le t m Hwf) as Hsz. destruct Hwf as [Hr Hl Hc]. unfold insert_once.
  destruct (m !! k) as [v0|] eqn:Hk.
  - destruct (entry_present hash _ _ _ _ Hr Hk) as (i & -> & Hi). rewrite Hi. cbn.
    eexists _, _, _. split; [done|]. split; [done|]. split; [|split; [unfold blen; cbn; by rewrite length_insert|by left]]. split; cbn.
    + by eapply rep_put_old.
    + by rewrite map_size_insert_Some by eauto.
    + unfold blen. by rewrite length_insert.
  - pose proof (entry_absent hash _ _ k Hr Hk) as He. destruct (entry hash (buckets t) k) as [i|].
    + destruct He as (Hre & e & Hi & Hf). rewrite Hi. cbn. rewrite Hf, uadd_ok by lia. cbn.
      destruct (needs_grow_run (len t + 1) (<[i := Data (k, v)]> (buckets t))) as [g ->];
        [lia|lia|unfold blen in *; rewrite length_insert; lia|]. cbn. rewrite wrap_small by lia.
      eexists _, _, _. split; [done|]. split; [by destruct e|]. split; [|split; [unfold blen; cbn; by rewrite length_insert|]].
      * split; cbn; [by eapply rep_put_new| |unfold blen; by rewrite length_insert].
        rewrite map_size_insert_None by done. lia.
      * destruct g; [right; by rewrite Hl|by left].
    + rewrite umul_ok by (unfold GROW_FACTOR; lia). eexists _, _, _. split; [done|]. unfold blen. split_and!; [done|lia|done|done].
Qed.

(** The end of a turn that succeeded. *)
Lemma insert_resize t m c z : wf t m → room hash c → 2 * Z.of_nat (size m) ≤ c → 2 * Z.of_nat (size m) < 2 ^ 64 →
  (z = Keep ∨ z = Grow (Z.of_nat (size m))) → ∃ t', apply_resize hash t z = Ok t' ∧ wf t' m.
Proof.
  intros Hwf Hroom Hc Hw [-> | ->]; [by exists t|]. cbn [apply_resize].
  destruct (grow_wf t m (Z.of_nat (size m)) Hwf) as (t' & Hg & Hwf' & _);
    [eapply room_le; [done|unfold GROW_FACTOR; lia]|unfold GROW_FACTOR; lia|]. by exists t'.
Qed.

Lemma size_insert m k v : (m !! k = None ∧ Z.of_nat (size (<[k := v]> m)) = Z.of_nat (size m) + 1) ∨
  (is_Some (m !! k) ∧ size (<[k := v]> m) = size m).
Proof.
  destruct (m !! k) as [v0|] eqn:Hk; [right|left].
  - split; [done|]. by rewrite map_size_insert_Some by eauto.
  - split; [done|]. rewrite map_size_insert_None by done. lia.
Qed.

Lemma insert_turn t m k v c : wf t m → 100 * blen (buckets t) + 200 < 2 ^ 64 → room hash c → 2 * Z.of_nat (size m) + 2 ≤ c →
  (m !! k = None → Z.of_nat (size m) < blen (buckets t)) →
  ∃ z t1 t', insert_once hash t k v = Ok (Some ((λ v0, (k, v0)) <$> m !! k), t1, z) ∧ apply_resize hash t1 z = Ok t' ∧ wf t' (<[k := v]> m).
Proof.
  intros Hwf Hbig Hroom Hc Hfree. pose proof (wf_size_le t m Hwf) as Hsz.
  destruct (insert_once_spec t m k v Hwf Hbig) as (r & t1 & z & Hi & Hr). destruct r as [old|].
  - destruct Hr as (-> & Hwf1 & _ & Hz). destruct (size_insert m k v) as [[Hk Hs] | [[v0 Hk] Hs]].
    + destruct (insert_resize t1 (<[k := v]> m) c z Hwf1 Hroom) as (t' & Ha & Hwf'); [lia|lia|by rewrite Hs|]. by exists z, t1, t'.
    + destruct Hz as [-> | ->]; [by exists Keep, t1, t1|]. exists (Grow (Z.of_nat (size m) + 1)), t1.
      destruct (grow_wf t1 (<[k := v]> m) (Z.of_nat (size m) + 1) Hwf1) as (t' & Hg & Hwf' & _);
        [eapply room_le; [done|unfold GROW_FACTOR; lia]|unfold GROW_FACTOR; lia|]. by exists t'.
  - destruct Hr as (Hk & Hfull & _). specialize (Hfree Hk). lia.
Qed.

Lemma insert_not_full t m k v z t1 old : wf t m → insert_once hash t k v = Ok (Some old, t1, z) → m !! k = None →
  Z.of_nat (size m) < blen (buckets t).
Proof.
  intros Hwf Hi Hk. pose proof (wf_size_le t m Hwf) as Hsz. destruct Hwf as [Hr Hl Hc]. unfold insert_once in Hi.
  pose proof (entry_absent hash _ _ k Hr Hk) as He. destruct (entry hash (buckets t) k) as [i|].
  - destruct He as (Hre & e & Hi' & Hf). pose proof (rep_put_new hash _ _ _ _ _ v Hr Hk Hi' Hf Hre) as Hr'.
    pose proof (rep_length _ _ _ Hr') as Hlen. pose proof (entries_length (<[i := Data (k, v)]> (buckets t))) as Hle.
    rewrite length_insert in Hle. rewrite map_size_insert_None in Hlen by done. unfold blen. lia.
  - unfold umul, checked in Hi. destruct (fits _ _); [done|]. by destruct overflow_checks.
Qed.

Lemma ch_insert_spec t m k v :
  wf t m → roomy t → ∃ t', ch_insert hash t k v = Ok ((λ v0, (k, v0)) <$> m !! k, t') ∧ wf t' (<[k := v]> m).
Proof.
  intros Hwf [Hroom Hbig]. pose proof (wf_size_le t m Hwf) as Hsz. pose proof Hwf as [_ Hl Hcap]. unfold MIN_CAPACITY in Hcap.
  unfold ch_insert. cbn [insert_loop].
  destruct (insert_once_spec t m k v Hwf ltac:(lia)) as (r & t1 & z & Hi & Hr). destruct r as [old|].
  - destruct (insert_turn t m k v _ Hwf ltac:(lia) Hroom ltac:(lia)) as (z' & t1' & t' & Hi' & Ha & Hwf').
    { intros Hk. exact (insert_not_full t m k v z t1 old Hwf Hi Hk). }
    rewrite Hi'. cbn. rewrite Ha. by exists t'.
  - destruct Hr as (Hk & Hfull & -> & ->). rewrite Hi. cbn [mbind res_bind apply_resize].
    destruct (grow_wf t m (len t * GROW_FACTOR) Hwf) as (t2 & -> & Hwf2 & Hb2);
      [eapply room_le; [done|unfold GROW_FACTOR; lia]|unfold GROW_FACTOR; lia|]. cbn [mbind res_bind].
    destruct (insert_turn t2 m k v _ Hwf2 ltac:(unfold GROW_FACTOR in *; lia) Hroom ltac:(lia)) as (z' & t1' & t' & -> & Ha & Hwf').
    { intros _. unfold GROW_FACTOR in *. lia. }
    cbn. rewrite Ha. by exists t'.
Qed.

Lemma try_remove_spec {E} t m k (p : V → option E) :
  wf t m → roomy t →
  match m !! k with
  | None => try_remove_entry hash t k p = Ok (inr None, t)
  | Some v =>
      match p v with
      | Some e => try_remove_entry hash t k p = Ok (inr (Some e), t)
      | None => ∃ t', try_remove_entry hash t k p = Ok (inl (k, v), t') ∧ wf t' (delete k m)
      end
  end.
Proof.
  intros Hwf [Hroom Hbig]. pose proof (wf_size_le t m Hwf) as Hsz. destruct Hwf as [Hr Hl Hc].
  unfold try_remove_entry, try_remove_once. destruct (m !! k) as [v|] eqn:Hk.
  - destruct (entry_present hash _ _ _ _ Hr Hk) as (i & -> & Hi). rewrite Hi.
    destruct (p v); [done|]. pose proof (map_size_ne_0_lookup_2 m k ltac:(eauto)) as Hne. rewrite usub_ok by lia. cbn [mbind res_bind].
    destruct (needs_shrink_run (len t - 1) (<[i := Removed]> (buckets t))) as [b ->];
      [lia|lia|unfold blen in *; rewrite length_insert; lia|]. cbn [mbind res_bind]. rewrite wrap_small by lia.
    set (t1 := MkMap (<[i := Removed]> (buckets t)) (len t - 1)).
    assert (wf t1 (delete k m)) as Hwf1.
    { split; cbn.
      - by eapply rep_take_out.
      - rewrite map_size_delete_Some by eauto. lia.
      - unfold blen. by rewrite length_insert. }
    destruct b; cbn [apply_resize]; [|by exists t1]. change (len t - 1) with (len t1).
    destruct (shrink_wf t1 (delete k m) Hwf1) as (t' & -> & Hwf'); [|by exists t'].
    eapply room_le; [done|]. unfold blen in *. cbn. rewrite length_insert. lia.
  - pose proof (entry_absent hash _ _ k Hr Hk) as He. destruct (entry hash (buckets t) k) as [i|]; [|done].
    destruct He as (_ & e & Hi & Hf). rewrite Hi. by destruct e as [|[]|].
Qed.

Lemma ch_remove_spec t m k :
  wf t m → roomy t → ∃ t', ch_remove hash t k = Ok (m !! k, t') ∧ wf t' (delete k m).
Proof.
  intros Hwf Hroom. unfold ch_remove, remove_entry, remove_entry_if.
  pose proof (try_remove_spec t m k (λ v, if (λ _, true) v then None else Some ()) Hwf Hroom) as Hs. cbn in Hs.
  destruct (m !! k) as [v|] eqn:Hk.
  - destruct Hs as (t' & -> & Hwf'). cbn. eauto.
  - rewrite Hs. exists t. by rewrite delete_id.
Qed.

Lemma entries_retain data (p : K → V → bool) :
  entries (retain_slot (λ k v, (v, p k v)) <$> data) = filter (λ kv, p kv.1 kv.2 = true) (entries data).
Proof.
  induction data as [|[|[k v]|] data IH]; [done|exact IH| |exact IH].
  change (entries (Data (k, v) :: data)) with ((k, v) :: entries data). rewrite fmap_cons. cbn [retain_slot].
  destruct (p k v) eqn:Hp.
  - rewrite filter_cons_True by done. change (entries (Data (k, v) :: ?l)) with ((k, v) :: entries l). by rewrite IH.
  - rewrite filter_cons_False by (cbn; congruence). exact IH.
Qed.

Lemma ch_retain_spec t m (p : K → V → bool) :
  wf t m → blen (buckets t) < 2 ^ 64 → wf (ch_retain t p) (filter (λ kv, p kv.1 kv.2 = true) m).
Proof.
  intros Hwf Hbig. pose proof (wf_size_le t m Hwf) as Hsz. destruct Hwf as [Hr Hl Hc]. unfold ch_retain, retain_mut.
  assert (rep hash (retain_slot (λ k v, (v, p k v)) <$> buckets t) (filter (λ kv, p kv.1 kv.2 = true) m)) as Hr'.
  { split.
    - rewrite entries_retain, (rep_entries _ _ _ Hr), map_filter_alt. symmetry.
      apply map_to_list_to_map. eapply sublist_NoDup; [apply (NoDup_fst_map_to_list m)|].
      apply fmap_sublist, sublist_filter.
    - intros i k v Hi. rewrite list_lookup_fmap in Hi.
      destruct (buckets t !! i) as [[|[k' v']|]|] eqn:Hi'; cbn in Hi; try done.
      assert (k' = k) as -> by (destruct (p k' v'); by simplify_eq).
      destruct (rep_reach _ _ _ Hr _ _ _ Hi') as (pre & post & Hp & Hn).
      exists pre, post. rewrite length_fmap. split; [done|]. intros j Hj Hd.
      apply (Hn j Hj). rewrite list_lookup_fmap in Hd. destruct (buckets t !! j) as [[|[k' v'']|]|]; try done.
      cbn in Hd. by destruct (p k' v''). }
  split; [done| |].
  - cbn [len]. pose proof (entries_length (retain_slot (λ k v, (v, p k v)) <$> buckets t)) as Hle. rewrite length_fmap in Hle.
    rewrite (rep_length _ _ _ Hr), (rep_length _ _ _ Hr') in *. unfold blen in *. rewrite wrap_small; lia.
  - unfold blen in *. cbn. by rewrite length_fmap.
Qed.

(** C36: The hash map implements a finite map, as long as no hash lies within four times the
    capacity of 2^64 ([roomy]; [grow_panics] and [grow_misplaces] below are what happens
    otherwise): lookup, insertion (which returns, enlarging the table when needed),
    removal with and without a test and filtering have the results of the map operations and
    keep the relation between table and map; the counter is the size of the map. Looking up
    needs no such condition. *)
Theorem chashmap_refines t m :
  wf t m →
  len t = Z.of_nat (size m) ∧
  (∀ k, ch_get hash t k = m !! k) ∧
  (roomy t →
    (∀ k v, ∃ t', ch_insert hash t k v = Ok ((λ v0, (k, v0)) <$> m !! k, t') ∧ wf t' (<[k := v]> m)) ∧
    (∀ k, ∃ t', ch_remove hash t k = Ok (m !! k, t') ∧ wf t' (delete k m)) ∧
    (∀ k (E : Type) (p : V → option E) v e, m !! k = Some v → p v = Some e →
      try_remove_entry hash t k p = Ok (inr (Some e), t)) ∧
    (∀ p, wf (ch_retain t p) (filter (λ kv, p kv.1 kv.2 = true) m))).
Proof.
  intros Hwf. split; [apply Hwf|]. split; [intros k; by apply ch_get_spec|]. intros Hroom. split_and!.
  - intros k v. by apply ch_insert_spec.
  - intros k. by apply ch_remove_spec.
  - intros k E p v e Hk Hp. pose proof (try_remove_spec t m k p Hwf Hroom) as Hs. by rewrite Hk, Hp in Hs.
  - intros p. apply ch_retain_spec; [done|]. destruct Hroom. unfold blen in *. lia.
Qed.

(** [get_or_insert] returns the value of the key, old or new, and inserts it
    when it is absent, unless the key is absent and every slot holds an entry:
    then it never returns. *)
Theorem get_or_insert_spec t m k v :
  wf t m → roomy t →
  ∃ r, get_or_insert hash t k v = Ok r ∧
  match r with
  | Some (v', t') => v' = default v (m !! k) ∧ wf t' (if decide (m !! k = None) then <[k := v]> m else m)
  | None => m !! k = None ∧ Z.of_nat (size m) = blen (buckets t)
  end.
Proof.
  intros Hwf [Hroom Hbig]. pose proof (wf_size_le t m Hwf) as Hsz. pose proof Hwf as [Hr Hl Hc]. unfold MIN_CAPACITY in Hc.
  unfold get_or_insert. destruct (m !! k) as [v0|] eqn:Hk.
  - destruct (entry_present hash _ _ _ _ Hr Hk) as (i & -> & ->). by eexists.
  - pose proof (entry_absent hash _ _ k Hr Hk) as He.
    destruct (entry hash (buckets t) k) as [i|]; [|exists None; split; [done|]; split; [done|unfold blen; lia]].
    destruct He as (Hre & e & Hie & Hf). rewrite Hie. rewrite decide_True by done.
    set (data := <[i := Data (k, v)]> (buckets t)). set (t1 := MkMap data (len t + 1)).
    assert (blen data = blen (buckets t)) as Hbd by (unfold blen, data; by rewrite length_insert).
    assert (wf t1 (<[k := v]> m)) as Hwf1.
    { split; [by eapply rep_put_new| |cbn; unfold MIN_CAPACITY; lia]. cbn. rewrite map_size_insert_None by done. lia. }
    destruct (needs_grow_run (len t + 1) data) as [g Hg]; [lia..|].
    destruct (grow_wf t1 (<[k := v]> m) (len t + 1) Hwf1) as (t2 & Hgrow & Hwf2 & _);
      [eapply room_le; [done|unfold GROW_FACTOR; lia]|unfold GROW_FACTOR; lia|].
    destruct e as [|[]|]; try done; rewrite uadd_ok by lia; cbn [mbind res_bind]; rewrite Hg, wrap_small by lia; cbn [mbind res_bind];
      fold t1; (destruct g; [rewrite Hgrow; cbn [mbind res_bind]; rewrite (ch_get_spec _ _ k Hwf2), lookup_insert_eq|]); cbn; by eexists.
Qed.
End spec.

(** ** Witnesses and behaviours outside the contract *)

Module Witness.
#[local] Existing Instance debug_profile.
(** Keys are words of 32 bits and their own hashes. *)
Definition h (k : Z) : Z := wrap 32 k.

Definition insert_one (t : CHashMap Z Z) (k : Z) : CHashMap Z Z :=
  match ch_insert h t k (10 * k) with Ok (_, t) => t | _ => t end.
Definition insert_all (t : CHashMap Z Z) (ks : list Z) : CHashMap Z Z := fold_left insert_one ks t.
Definition remove_all (t : CHashMap Z Z) (ks : list Z) : CHashMap Z Z :=
  fold_left (λ t k, match ch_remove h t k with Ok (_, t) => t | _ => t end) ks t.

(** The table stays small. *)
Fixpoint small (t : CHashMap Z Z) (ks : list Z) : bool :=
  (blen (buckets t) <=? 1000) && match ks with [] => true | k :: ks => small (insert_one t k) ks end.

Lemma small_roomy (t : CHashMap Z Z) ks : small t ks = true → roomy h t.
Proof.
  intros Hs. assert (blen (buckets t) ≤ 1000). { apply Z.leb_le. destruct ks; by apply andb_true_iff in Hs as [? _]. }
  split; [|lia]. intros k. unfold h. pose proof (wrap_bound 32 k ltac:(lia)). lia.
Qed.
Lemma insert_all_wf ks : ∀ t m, wf h t m → small t ks = true → wf h (insert_all t ks) (fold_left (λ m k, <[k := 10 * k]> m) ks m).
Proof.
  induction ks as [|k ks IH]; intros t m Hwf Hs; [done|]. pose proof (small_roomy _ _ Hs) as Hroom.
  apply andb_true_iff in Hs as [_ Hs]. cbn. apply IH; [|done].
  destruct (ch_insert_spec h t m k (10 * k) Hwf Hroom) as (t' & Hi & Hwf'). unfold insert_one. by rewrite Hi.
Qed.

(** Nine keys, for which the table grows from 8 to 12 slots, and to 18. *)
Definition nine : CHashMap Z Z := insert_all ch_new (seqZ 1 9).

Lemma chashmap_refines_witness : blen (buckets nine) = 18 ∧ ch_get h nine 3 = Some 30 ∧
  ∃ t', ch_remove h nine 3 = Ok (Some 30, t') ∧ wf h t' (delete 3 (fold_left (λ m k, <[k := 10 * k]> m) (seqZ 1 9) ∅)).
Proof.
  pose proof (insert_all_wf (seqZ 1 9) ch_new ∅ (wf_new h) ltac:(vm_compute; reflexivity)) as Hwf.
  destruct (chashmap_refines h nine _ Hwf) as (_ & Hget & Hops).
  destruct (Hops (small_roomy nine [] ltac:(vm_compute; reflexivity))) as (_ & Hrem & _).
  split; [vm_compute; reflexivity|]. split; [rewrite Hget; vm_compute; reflexivity|].
  destruct (Hrem 3) as (t' & Hr & Hwf'). exists t'. split; [|exact Hwf']. rewrite Hr. reflexivity.
Defined.

Lemma get_or_insert_spec_witness :
  ∃ t' : CHashMap Z Z, get_or_insert h ch_new 5 50 = Ok (Some (50, t')).
Proof.
  destruct (get_or_insert_spec h ch_new ∅ 5 50 (wf_new h) (small_roomy ch_new [] eq_refl)) as (r & Hr & Hs).
  destruct r as [[v t']|].
  - exists t'. destruct Hs as [-> _]. exact Hr.
  - vm_compute in Hr. discriminate.
Defined.

(** Insertion and removal across growth and shrinking. *)
Example grows_and_shrinks :
  let t := insert_all ch_new (seqZ 1 13) in
  let t' := remove_all t (seqZ 1 4) in
  (blen (buckets t), len t, blen (buckets t'), len t') = (26, 13, 9, 9) ∧
  ch_get h t' 7 = Some 70 ∧ ch_get h t' 3 = None.
Proof. vm_compute. auto. Qed.

(** Thirteen insertions and four removals leave nine entries in nine slots,
    since shrinking makes the capacity the number of entries; [get_or_insert] of
    a new key then waits for ever, holding the lock that growing would need. *)
Example full_table_hangs :
  let t := remove_all (insert_all ch_new (seqZ 1 13)) (seqZ 1 4) in
  get_or_insert h t 100 0 = Ok None ∧ is_ok (ch_insert h t 100 0) = true.
Proof. vm_compute. auto. Qed.

(** Removal decides on the new capacity, releases the table and shrinks it
    afterwards. An insertion in between makes the entries too many for the new
    table, and one of them is silently dropped. *)
Example shrink_race_loses_entry :
  let t := remove_all (insert_all ch_new (seqZ 1 13)) (seqZ 1 3) in
  (λ r, match r with
   | Ok (t2, t3) => ch_get h t2 100 = Some 1000 ∧ len t3 = 10 ∧ length (ch_into_iter t3) = 9%nat ∧ ch_get h t3 100 = None
   | _ => False
   end)
  ('(_, t1, z) ← try_remove_once (E:=()) h t 4 (λ _, None);
   '(_, t2) ← ch_insert h t1 100 1000;
   t3 ← apply_resize h t2 z;
   Ok (t2, t3)).
Proof. vm_compute. auto. Qed.

(** A hash that is the last word, in a table whose sixth entry makes it grow to twelve
    slots: its slot there is taken. With overflow checks the kernel panics; without, the
    entry is put to the beginning of the table, where it is looked up but not found
    for removal. *)
Definition last_key : Z := 2 ^ 64 - 1.
Definition six_with_last `{P : Profile} : res Empty_set (CHashMap Z Z) :=
  foldl (λ r k, t ← r; '(_, t) ← ch_insert (λ k, k) t k (10 * k); Ok t) (Ok ch_new) [last_key; 3; 1; 2; 5; 6].
Example grow_panics : six_with_last (P:=debug_profile) = Panic.
Proof. vm_compute. reflexivity. Qed.
Example grow_misplaces : match six_with_last (P:=release_profile) with
  | Ok t => ch_get (λ k, k) t last_key = Some (10 * last_key) ∧
      match ch_remove (P:=release_profile) (λ k, k) t last_key with Ok (r, _) => r = None | _ => False end
  | _ => False
  end.
Proof. vm_compute. auto. Qed.
End Witness.
