(* ===== verification/Handles.v ===== *)
(** * Handle tables ([kernel/src/sched/task/hdl.rs] and [hdl/node.rs])

    A space maps handles to references. A reference is an object with the rights
    it may be used with and the event to wait on. Handles are numbered from one
    and masked with a random word of the space. The table is a hash map; what is
    needed of it is the class [HashTable], whose laws hold of [CHashMap] as long as its
    hashes leave room ([chashmap_laws]), and of finite maps. *)

From S2P Require Import Base SysCall HashMap HashSpec.
Local Open Scope Z_scope.

(** ** The table *)

Class HashTable (T : Type → Type) := {
  ht_new {V} : T V;
  ht_get {V} : T V → Z → option V;
  ht_insert {V} : T V → Z → V → option (option (Z * V) * T V);
  ht_try_remove {V E} : T V → Z → (V → option E) → (V + option E) * T V;
  ht_rep {V} : T V → gmap Z V → Prop;
  ht_new_rep {V} : ht_rep (V:=V) ht_new ∅;
  ht_get_rep {V} (t : T V) m k : ht_rep t m → ht_get t k = m !! k;
  ht_insert_rep {V} (t : T V) m k v : ht_rep t m →
    ∃ t', ht_insert t k v = Some ((λ v0, (k, v0)) <$> m !! k, t') ∧ ht_rep t' (<[k := v]> m);
  ht_try_remove_rep {V E} (t : T V) m k (p : V → option E) : ht_rep t m →
    match m !! k with
    | None => ht_try_remove t k p = (inr None, t)
    | Some v =>
        match p v with
        | Some e => ht_try_remove t k p = (inr (Some e), t)
        | None => ∃ t', ht_try_remove t k p = (inl v, t') ∧ ht_rep t' (delete k m)
        end
    end;
}.

(** Finite maps. [CHashMap<u32, _>] with the FNV hasher has the same laws as long as no
    hash of a handle is close to the end of the words: [chashmap_laws]. *)
#[export] Program Instance HashTable_gmap : HashTable (gmap Z) := {
  ht_new V := ∅;
  ht_get V t k := t !! k;
  ht_insert V t k v := Some ((λ v0, (k, v0)) <$> t !! k, <[k := v]> t);
  ht_try_remove V E t k p :=
    match t !! k with
    | None => (inr None, t)
    | Some v => match p v with Some e => (inr (Some e), t) | None => (inl v, delete k t) end
    end;
  ht_rep V t m := t = m;
}.
Next Obligation. done. Qed.
Next Obligation. by intros V t m k ->. Qed.
Next Obligation. intros V t m k v ->. cbn. eauto. Qed.
Next Obligation. intros V E t m k p ->. cbn. destruct (m !! k) as [v|]; [|done]. destruct (p v); eauto. Qed.

(** What the class asks for, of the hash map itself. *)
Lemma chashmap_laws `{P : Profile} {V} (t : CHashMap Z V) m : let h := fnv_hash 4 in wf h t m →
  (∀ k, ch_get h t k = m !! k) ∧
  (roomy h t →
    (∀ k v, ∃ t', ch_insert h t k v = Ok ((λ v0, (k, v0)) <$> m !! k, t') ∧ wf h t' (<[k := v]> m)) ∧
    ∀ k E (p : V → option E), match m !! k with
      | None => try_remove h t k p = Ok (inr None, t)
      | Some v =>
          match p v with
          | Some e => try_remove h t k p = Ok (inr (Some e), t)
          | None => ∃ t', try_remove h t k p = Ok (inl v, t') ∧ wf h t' (delete k m)
          end
      end).
Proof.
  intros h Hwf. split; [intros k; by apply ch_get_spec|]. intros Hroom. split; [intros k v; by apply ch_insert_spec|].
  intros k E p. pose proof (try_remove_spec _ t m k p Hwf Hroom) as Hs. unfold try_remove.
  destruct (m !! k) as [v|]; [|by rewrite Hs]. destruct (p v); [by rewrite Hs|].
  destruct Hs as (t' & -> & Hwf'). cbn. eauto.
Qed.

(** ** References *)

(** A channel keeps the number it shares with its peer; any other object is
    known by its type. *)
Inductive object := ObjChannel (addr peer_id : Z) | Obj (type addr : Z).
#[export] Instance object_eq_dec : EqDecision object.
Proof. solve_decision. Defined.

Definition TYPE_CHANNEL : Z := 0.
Definition type_of (o : object) : Z := match o with ObjChannel _ _ => TYPE_CHANNEL | Obj ty _ => ty end.

Record Ref := MkRef { event : option nat; feat : Z; obj : object }.

Definition is_type (r : Ref) (ty : Z) : bool := type_of (obj r) =? ty.

Definition from_raw_unchecked (o : object) (f : Z) (e : option nat) : res errno Ref :=
  if bool_decide (e = None) && Feature.contains f Feature.WAIT then Err EPERM else Ok (MkRef e f o).

Definition set_features (r : Ref) (f : Z) : Ref * res errno () :=
  if Z.land f (Z.lnot (feat r)) =? 0 then (MkRef (event r) f (obj r), Ok ()) else (r, Err EPERM).

Definition try_clone (r : Ref) : res errno Ref :=
  if Feature.contains (feat r) (Z.lor Feature.SEND Feature.SYNC) then Ok (MkRef (event r) (feat r) (obj r))
  else Err EPERM.

(** Features of new objects. *)
Definition channel_features : Z :=
  Z.lor (Z.lor (Z.lor Feature.SEND Feature.READ) Feature.WRITE) Feature.WAIT.
Definition event_features : Z :=
  Z.lor (Z.lor (Z.lor Feature.SEND Feature.SYNC) Feature.WAIT) Feature.EXECUTE.
Definition dispatcher_features : Z :=
  Z.lor (Z.lor (Z.lor (Z.lor Feature.SEND Feature.SYNC) Feature.READ) Feature.WRITE) Feature.WAIT.

(** ** The handle map *)

Section handles.
Context {T : Type → Type} `{HT : HashTable T}.

Record HandleMap := MkHandleMap { hlist : T Ref; mix : Z; next_id : Z }.

(** [mix] is a random word. *)
Definition hm_new (mix : Z) : HandleMap := MkHandleMap ht_new mix 1.

Abbreviation hdl := (st HandleMap errno).

Definition hm_decode (m : HandleMap) (h : Handle) : Z := Z.lxor (hraw h) (mix m).

Definition get_ref (h : Handle) : hdl Ref :=
  m ← get; lift (of_option EINVAL (ht_get (hlist m) (hm_decode m h))).

Definition get_typed (ty : Z) (h : Handle) : hdl Ref :=
  r ← get_ref h;
  if is_type r ty then mret r else lift (Err ETYPE).

Definition insert_ref (value : Ref) : hdl Handle :=
  m ← get;
  let k := next_id m in
  match ht_insert (hlist m) k value with
  | Some (old, t) =>
      _ ← put (MkHandleMap t (mix m) (wrap 32 (k + 1)));
      _ ← lift (assert_ (bool_decide (old = None)));
      mret (MkHandle (Z.lxor k (mix m)))
  | None => lift Panic
  end.

Definition clone_ref (h : Handle) : hdl Handle :=
  old ← get_ref h;
  new ← lift (try_clone old);
  insert_ref new.

Definition insert_unchecked (o : object) (f : Z) (e : option nat) : hdl Handle :=
  r ← lift (from_raw_unchecked o f e);
  insert_ref r.

(** A removal that may be refused. *)
Definition try_remove_key (h : Handle) (p : Ref → option errno) : hdl Ref :=
  m ← get;
  let '(r, t) := ht_try_remove (hlist m) (hm_decode m h) p in
  _ ← put (MkHandleMap t (mix m) (next_id m));
  match r with
  | inl r => mret r
  | inr e => lift (Err (default EINVAL e))
  end.

Definition remove_ref (h : Handle) : hdl Ref := try_remove_key h (λ _, None).

Definition remove_typed (ty : Z) (h : Handle) : hdl Ref :=
  try_remove_key h (λ r, if is_type r ty then None else Some ETYPE).

Fixpoint merge (objects : list Ref) : hdl (list Handle) :=
  match objects with
  | [] => mret []
  | o :: os =>
      h ← insert_ref o;
      hs ← merge os;
      mret (h :: hs)
  end.

(** Whether a reference may be sent through the channel [src]. *)
Definition split_test (src_peer : Z) (r : Ref) : option errno :=
  match obj r with
  | ObjChannel _ p => if p =? src_peer then Some EPERM else None
  | Obj _ _ => if negb (Feature.contains (feat r) Feature.SEND) then Some EPERM else None
  end.

Fixpoint split_loop (src_peer : Z) (handles : list Handle) (result : list Ref) : hdl (list Ref) :=
  match handles with
  | [] => mret result
  | h :: hs =>
      r ← attempt (try_remove_key h (split_test src_peer));
      match r with
      | inr o => split_loop src_peer hs (result ++ [o])
      | inl err =>
          _ ← merge result;
          lift (Err err)
      end
  end.

(** [HandleMap::send]; [split] on a list that is not empty. *)
Definition hm_send (handles : list Handle) (src_peer : Z) : hdl (list Ref) :=
  match handles with
  | [] => mret []
  | _ => split_loop src_peer handles []
  end.

(** [HandleMap::receive]: the objects are entered one by one as long as there is
    room for their handles; [zip] has already taken one slot of the buffer when
    it finds no further object. *)
Fixpoint hm_receive (room : nat) (objects : list Ref) : hdl (list Handle) :=
  match room, objects with
  | S room, o :: os =>
      h ← insert_ref o;
      hs ← hm_receive room os;
      mret (h :: hs)
  | _, _ => mret []
  end.

(** *** System calls *)

Definition obj_clone (h : Handle) : hdl Handle :=
  _ ← lift (check_null h);
  clone_ref h.

(** The value written back through the pointer, and the result. *)
Definition obj_feat (old : Handle) (f : Z) : hdl (Handle * res errno ()) :=
  _ ← lift (check_null old);
  o ← remove_ref old;
  let '(o, ret) := set_features o f in
  new ← insert_ref o;
  mret (new, ret).

Definition obj_drop (h : Handle) : hdl () :=
  _ ← lift (check_null h);
  _ ← remove_ref h;
  mret ().
End handles.
Arguments HandleMap T : clear implicits.
