(* ===== verification/HandleSpec.v ===== *)
(** * What handle tables guarantee

    Handles name what was inserted, rights only shrink, and sending takes either
    all the references or none; a refused sending renames them. *)

From S2P Require Import Base SysCall HashMap HashSpec Handles.
Local Open Scope Z_scope.

(** Inclusion of bits. *)
Lemma subset_trans a b c :
  Z.land a (Z.lnot b) = 0 → Z.land b (Z.lnot c) = 0 → Z.land a (Z.lnot c) = 0.
Proof.
  intros Hab Hbc. apply Z.bits_inj'. intros i Hi.
  apply (f_equal (λ z, Z.testbit z i)) in Hab, Hbc. autorewrite with h2o_bits in *.
  by destruct (Z.testbit a i), (Z.testbit b i), (Z.testbit c i).
Qed.

Section spec.
Context {T : Type → Type} `{HT : HashTable T}.
Implicit Types (m : HandleMap T) (g : gmap Z Ref).

(** The table of [m] is [g]; keys have been given out in order. *)
Record hm_rep m g : Prop := {
  hr_list : ht_rep (hlist m) g;
  hr_keys k : is_Some (g !! k) → 1 ≤ k < next_id m;
  hr_next : 1 ≤ next_id m < 2 ^ 32;
}.

(** The references of a table, without their handles. *)
Definition contents g : list Ref := snd <$> map_to_list g.

Lemma contents_insert g k r : g !! k = None → contents (<[k := r]> g) ≡ₚ r :: contents g.
Proof. intros Hk. unfold contents. by rewrite map_to_list_insert. Qed.

Lemma contents_delete g k r : g !! k = Some r → contents g ≡ₚ r :: contents (delete k g).
Proof. intros Hk. unfold contents. by rewrite <- (map_to_list_delete g k r Hk). Qed.

Lemma elem_of_contents g r : r ∈ contents g ↔ ∃ k, g !! k = Some r.
Proof.
  unfold contents. rewrite list_elem_of_fmap. split.
  - intros ([k r'] & -> & Hk). exists k. by apply elem_of_map_to_list.
  - intros [k Hk]. exists (k, r). split; [done|]. by apply elem_of_map_to_list.
Qed.

Lemma hm_new_rep mix : hm_rep (hm_new mix) ∅.
Proof. split; [apply ht_new_rep| |cbn; lia]. intros k [r Hr]. by rewrite lookup_empty in Hr. Qed.

(** ** The basic operations *)

Lemma get_ref_ok m g h : hm_rep m g → get_ref h m = (of_option EINVAL (g !! hm_decode m h), m).
Proof. intros Hm. unfold get_ref. rewrite st_get_bind. unfold lift. by rewrite (ht_get_rep _ g) by apply Hm. Qed.

Lemma fresh_key m g : hm_rep m g → g !! next_id m = None.
Proof.
  intros Hm. destruct (g !! next_id m) eqn:E; [|done].
  pose proof (hr_keys _ _ Hm (next_id m) ltac:(eauto)). lia.
Qed.

Lemma insert_ref_ok m g r :
  hm_rep m g → next_id m < 2 ^ 32 - 1 →
  ∃ m', insert_ref r m = (Ok (MkHandle (Z.lxor (next_id m) (mix m))), m') ∧
    hm_rep m' (<[next_id m := r]> g) ∧ mix m' = mix m ∧ next_id m' = next_id m + 1.
Proof.
  intros Hm Hn. pose proof (fresh_key m g Hm) as Hk. pose proof (hr_next _ _ Hm).
  unfold insert_ref. rewrite st_get_bind. cbv zeta.
  destruct (ht_insert_rep (hlist m) g (next_id m) r (hr_list _ _ Hm)) as (t & -> & Ht). rewrite Hk.
  exists (MkHandleMap t (mix m) (wrap 32 (next_id m + 1))). split; [done|].
  rewrite wrap_small by lia. split; [|done]. split; cbn; [done| |lia].
  intros k [<-|[_ Hk']]%lookup_insert_is_Some; [lia|]. pose proof (hr_keys _ _ Hm k Hk'). lia.
Qed.

Lemma try_remove_ok m g h p :
  hm_rep m g →
  ∃ m' g', hm_rep m' g' ∧ mix m' = mix m ∧ next_id m' = next_id m ∧
    match g !! hm_decode m h with
    | None => try_remove_key h p m = (Err EINVAL, m') ∧ g' = g
    | Some r =>
        match p r with
        | Some e => try_remove_key h p m = (Err e, m') ∧ g' = g
        | None => try_remove_key h p m = (Ok r, m') ∧ g' = delete (hm_decode m h) g
        end
    end.
Proof.
  intros Hm. unfold try_remove_key. rewrite st_get_bind.
  pose proof (ht_try_remove_rep (hlist m) g (hm_decode m h) p (hr_list _ _ Hm)) as Hr.
  assert (∀ t g', ht_rep t g' → (∀ k, is_Some (g' !! k) → is_Some (g !! k)) →
    hm_rep (MkHandleMap t (mix m) (next_id m)) g') as Hrep.
  { intros t g' Ht Hsub. split; cbn; [done| |apply Hm]. intros k Hk. by apply (hr_keys _ _ Hm), Hsub. }
  destruct (g !! hm_decode m h) as [r|] eqn:Hg; [destruct (p r) eqn:Hp|].
  - rewrite Hr. eexists _, g. split; [by apply (Hrep _ _ (hr_list _ _ Hm))|]. done.
  - destruct Hr as (t' & -> & Ht'). eexists _, _. split; [apply Hrep; [done|]|done].
    intros k Hk. by apply lookup_delete_is_Some in Hk as [_ ?].
  - rewrite Hr. eexists _, g. split; [by apply (Hrep _ _ (hr_list _ _ Hm))|]. done.
Qed.

Lemma merge_ok m g rs :
  hm_rep m g → next_id m + Z.of_nat (length rs) < 2 ^ 32 →
  ∃ hs m' g', merge rs m = (Ok hs, m') ∧ hm_rep m' g' ∧ mix m' = mix m ∧ contents g' ≡ₚ rs ++ contents g.
Proof.
  revert m g. induction rs as [|r rs IH]; intros m g Hm Hn; cbn [length] in Hn.
  { by exists [], m, g. }
  destruct (insert_ref_ok m g r Hm ltac:(lia)) as (m1 & H1 & Hm1 & Hx1 & Hn1).
  destruct (IH m1 _ Hm1 ltac:(lia)) as (hs & m2 & g2 & H2 & Hm2 & Hx2 & Hc2).
  eexists _, m2, g2. split; [|split; [done|split; [congruence|]]].
  - cbn [merge]. run H1. run H2. done.
  - rewrite Hc2, contents_insert by (by apply fresh_key). symmetry. apply Permutation_middle.
Qed.

(** ** Sending *)

Definition sendable (src_peer : Z) (r : Ref) : Prop := split_test src_peer r = None.

(** All the references or none. [mx] is the word handles are masked with. *)
Definition send_result (mx : Z) (g g' : gmap Z Ref) (src : Z) (hs : list Handle) (prev : list Ref)
    (r : res errno (list Ref)) : Prop :=
  match r with
  | Ok rs => ∃ taken, rs = prev ++ taken ∧
      Forall2 (λ h o, g !! Z.lxor (hraw h) mx = Some o ∧ sendable src o ∧ g' !! Z.lxor (hraw h) mx = None) hs taken ∧
      contents g ≡ₚ taken ++ contents g' ∧ (∀ k, is_Some (g' !! k) → g' !! k = g !! k)
  | Err e => contents g' ≡ₚ prev ++ contents g
  | Panic => False
  end.

(** One more reference taken. *)
Lemma send_result_cons mx g g' src h hs prev o r :
  g !! Z.lxor (hraw h) mx = Some o → sendable src o →
  send_result mx (delete (Z.lxor (hraw h) mx) g) g' src hs (prev ++ [o]) r →
  send_result mx g g' src (h :: hs) prev r.
Proof.
  intros Hg Ho. pose proof (contents_delete g _ o Hg) as Hc. destruct r as [rs|e|]; cbn; [| |done].
  - intros (taken & -> & Hf & Hc' & Hk). exists (o :: taken). rewrite <- app_assoc. split_and!; [done| | |].
    + constructor.
      * split_and!; [done|done|]. destruct (g' !! _) eqn:E; [|done].
        specialize (Hk (Z.lxor (hraw h) mx) ltac:(eauto)). rewrite lookup_delete_eq in Hk. congruence.
      * eapply Forall2_impl; [exact Hf|]. intros h' o' (Hl & Hs & Hn).
        apply lookup_delete_Some in Hl as [_ Hl]. done.
    + by rewrite Hc, Hc'.
    + intros k Hk'. pose proof (Hk k Hk') as E. rewrite E. destruct Hk' as [x Hx]. rewrite Hx in E.
      symmetry in E. apply lookup_delete_Some in E as [Hne E]. by rewrite lookup_delete_ne.
  - intros Hc'. rewrite Hc', <- app_assoc, Hc. done.
Qed.

Lemma split_refs_ok src hs : ∀ m g prev,
  hm_rep m g → next_id m + Z.of_nat (length prev) + Z.of_nat (length hs) < 2 ^ 32 →
  ∃ r m' g', split_loop src hs prev m = (r, m') ∧ hm_rep m' g' ∧ mix m' = mix m ∧ send_result (mix m) g g' src hs prev r.
Proof.
  induction hs as [|h hs IH]; intros m g prev Hm Hn; cbn [length] in Hn.
  { exists (Ok prev), m, g. split_and!; [done..|]. exists []. by rewrite app_nil_r. }
  cbn [split_loop].
  destruct (try_remove_ok m g h (split_test src) Hm) as (m1 & g1 & Hm1 & Hx1 & Hn1 & Hr).
  assert (∀ e, try_remove_key h (split_test src) m = (Err e, m1) → g1 = g →
    ∃ r m' g', (r0 ← attempt (try_remove_key h (split_test src));
      match r0 with
      | inr o => split_loop src hs (prev ++ [o])
      | inl err => _ ← merge prev; lift (Err err)
      end) m = (r, m') ∧ hm_rep m' g' ∧ mix m' = mix m ∧ send_result (mix m) g g' src (h :: hs) prev r) as Hfail.
  { intros e He ->. destruct (merge_ok m1 g prev Hm1 ltac:(lia)) as (hs' & m2 & g2 & H2 & Hm2 & Hx2 & Hc2).
    exists (Err e), m2, g2. split; [|split_and!; [done|congruence|done]].
    rewrite (st_bind_ok _ _ _ (inl e) m1) by (unfold attempt; by rewrite He).
    by rewrite (st_bind_ok _ _ _ hs' m2). }
  destruct (g !! hm_decode m h) as [o|] eqn:Hg; [destruct (split_test src o) eqn:Hp|].
  - destruct Hr as [He ->]. by eapply Hfail.
  - destruct Hr as [He ->].
    destruct (IH m1 _ (prev ++ [o]) Hm1) as (r & m2 & g2 & H2 & Hm2 & Hx2 & Hs2).
    { rewrite length_app. cbn. lia. }
    exists r, m2, g2. split; [|split; [done|split; [congruence|]]].
    + rewrite (st_bind_ok _ _ _ (inr o) m1) by (unfold attempt; by rewrite He). done.
    + rewrite Hx1 in Hs2. by eapply send_result_cons.
  - destruct Hr as [He ->]. by eapply Hfail.
Qed.

Lemma hm_send_ok m g hs src :
  hm_rep m g → next_id m + Z.of_nat (length hs) < 2 ^ 32 →
  ∃ r m' g', hm_send hs src m = (r, m') ∧ hm_rep m' g' ∧ mix m' = mix m ∧ send_result (mix m) g g' src hs [] r.
Proof.
  intros Hm Hn. destruct hs as [|h hs].
  - exists (Ok []), m, g. split_and!; [done..|]. by exists [].
  - apply (split_refs_ok src (h :: hs) m g []); [done|]. cbn [length] in *. lia.
Qed.

Lemma hm_receive_ok rs : ∀ m g,
  hm_rep m g → next_id m + Z.of_nat (length rs) < 2 ^ 32 →
  ∃ hs m' g', hm_receive (length rs) rs m = (Ok hs, m') ∧ hm_rep m' g' ∧ mix m' = mix m ∧
    contents g' ≡ₚ rs ++ contents g ∧ length hs = length rs ∧
    (∀ k, is_Some (g !! k) → g' !! k = g !! k) ∧
    (∀ i h r, hs !! i = Some h → rs !! i = Some r → g' !! hm_decode m' h = Some r).
Proof.
  induction rs as [|r rs IH]; intros m g Hm Hn; cbn [length] in Hn.
  { by exists [], m, g. }
  destruct (insert_ref_ok m g r Hm ltac:(lia)) as (m1 & H1 & Hm1 & Hx1 & Hn1).
  destruct (IH m1 _ Hm1 ltac:(lia)) as (hs & m2 & g2 & H2 & Hm2 & Hx2 & Hc2 & Hl2 & Hold2 & Hnew2).
  eexists _, m2, g2. split; [|split; [done|]].
  { cbn [hm_receive length]. run H1. run H2. done. }
  pose proof (fresh_key m g Hm) as Hk.
  split_and!; [congruence| |cbn; lia| |].
  - rewrite Hc2, contents_insert by done. symmetry. apply Permutation_middle.
  - intros k [r' Hr']. rewrite (Hold2 k); rewrite lookup_insert_ne by (intros <-; congruence); eauto.
  - intros [|i] h r' Hh Hr'; simplify_eq/=; [|by eapply Hnew2].
    unfold hm_decode. cbn. rewrite Hx2, Hx1, Z.lxor_assoc, Z.lxor_nilpotent, Z.lxor_0_r.
    rewrite Hold2; rewrite lookup_insert_eq; eauto.
Qed.

(** Sending references from one space and receiving them in another. Either
    all the handles named references that may be sent through the channel; then
    they name nothing in the first space any more, and the handles received name
    the same references in the second, in the same order. Or the sending is
    refused and the first space holds the same references as before. *)
Theorem transfer_spec m1 g1 m2 g2 hs src :
  hm_rep m1 g1 → hm_rep m2 g2 →
  next_id m1 + Z.of_nat (length hs) < 2 ^ 32 → next_id m2 + Z.of_nat (length hs) < 2 ^ 32 →
  match hm_send hs src m1 with
  | (Ok rs, m1') =>
      ∃ hs' m2', hm_receive (length rs) rs m2 = (Ok hs', m2') ∧ length hs' = length hs ∧
        ∀ i h h', hs !! i = Some h → hs' !! i = Some h' →
          ∃ r, fst (get_ref h m1) = Ok r ∧ sendable src r ∧ fst (get_ref h' m2') = Ok r ∧
            fst (get_ref h m1') = Err EINVAL
  | (Err e, m1') => ∃ g1', hm_rep m1' g1' ∧ contents g1' ≡ₚ contents g1
  | (Panic, _) => False
  end.
Proof.
  intros Hm1 Hm2 Hn1 Hn2. destruct (hm_send_ok m1 g1 hs src Hm1 Hn1) as (r & m1' & g1' & -> & Hm1' & Hx & Hr).
  destruct r as [rs|e|]; [|eauto|done]. destruct Hr as (taken & -> & Hf & _ & Hk). cbn [app].
  pose proof (Forall2_length _ _ _ Hf) as Hlen.
  destruct (hm_receive_ok taken m2 g2 Hm2 ltac:(lia)) as (hs' & m2' & g2' & -> & Hm2' & _ & _ & Hl & _ & Hnew).
  exists hs', m2'. split; [done|]. split; [lia|]. intros i h h' Hh Hh'.
  destruct (Forall2_lookup_l _ _ _ _ _ Hf Hh) as (o & Ho & Hg & Hs & Hnone).
  exists o. rewrite (get_ref_ok m1 g1), (get_ref_ok m2' g2'), (get_ref_ok m1' g1') by done.
  rewrite (Hnew i h' o) by done. unfold hm_decode. rewrite Hx, Hg, Hnone. done.
Qed.

(** ** Rights *)

(** No reference has a right that [grant] does not give on its object. *)
Definition within (grant : object → Z) (rs : list Ref) : Prop :=
  ∀ r, r ∈ rs → Z.land (feat r) (Z.lnot (grant (obj r))) = 0.

Lemma within_perm grant rs rs' : rs ≡ₚ rs' → within grant rs → within grant rs'.
Proof. intros Hp Hw r Hr. apply Hw. by rewrite Hp. Qed.

Lemma within_app grant rs rs' : within grant (rs ++ rs') ↔ within grant rs ∧ within grant rs'.
Proof. unfold within. setoid_rewrite elem_of_app. naive_solver. Qed.

Lemma within_cons grant r rs :
  within grant (r :: rs) ↔ Z.land (feat r) (Z.lnot (grant (obj r))) = 0 ∧ within grant rs.
Proof. unfold within. setoid_rewrite elem_of_cons. naive_solver. Qed.

Lemma set_features_within grant r f :
  Z.land (feat r) (Z.lnot (grant (obj r))) = 0 →
  let r' := fst (set_features r f) in
  Z.land (feat r') (Z.lnot (grant (obj r'))) = 0 ∧ Z.land (feat r') (Z.lnot (feat r)) = 0 ∧ obj r' = obj r.
Proof.
  intros Hw. unfold set_features. destruct (Z.eqb_spec (Z.land f (Z.lnot (feat r))) 0) as [Hf|]; cbn.
  - split; [|done]. apply subset_trans with (feat r); done.
  - split_and!; [done| |done]. apply Z.bits_inj'. intros i Hi. autorewrite with h2o_bits.
    apply andb_negb_r.
Qed.

Lemma clone_ref_ok m g h :
  hm_rep m g → next_id m < 2 ^ 32 - 1 →
  ∃ r m' g', clone_ref h m = (r, m') ∧ hm_rep m' g' ∧ r ≠ Panic ∧
    (g' = g ∨ ∃ o, o ∈ contents g ∧ contents g' ≡ₚ o :: contents g ∧
      Feature.contains (feat o) (Z.lor Feature.SEND Feature.SYNC) = true).
Proof.
  intros Hm Hn. unfold clone_ref. pose proof (get_ref_ok m g h Hm) as Hg.
  destruct (g !! hm_decode m h) as [o|] eqn:E; cbn in Hg.
  - rewrite (st_bind_ok _ _ _ _ _ Hg). unfold try_clone.
    destruct (Feature.contains _ _) eqn:Hf.
    + destruct (insert_ref_ok m g (MkRef (event o) (feat o) (obj o)) Hm Hn) as (m1 & H1 & Hm1 & _).
      eexists _, m1, _. split; [by run (eq_refl : Ok _ = Ok _)|]. split; [done|]. split; [done|]. right.
      exists o. split; [apply elem_of_contents; eauto|]. split; [|done].
      rewrite contents_insert by (by apply fresh_key). by destruct o.
    + eexists _, m, g. split; [done|]. split; [done|]. split; [done|]. by left.
  - rewrite (st_bind_err _ _ _ _ _ Hg). eexists _, m, g. split; [done|]. split; [done|]. split; [done|]. by left.
Qed.

Lemma obj_feat_ok m g h f :
  hm_rep m g → next_id m < 2 ^ 32 - 1 →
  ∃ r m' g', obj_feat h f m = (r, m') ∧ hm_rep m' g' ∧ r ≠ Panic ∧
    (g' = g ∨ ∃ o rest, contents g ≡ₚ o :: rest ∧ contents g' ≡ₚ fst (set_features o f) :: rest).
Proof.
  intros Hm Hn. unfold obj_feat, check_null. destruct (negb (hraw h =? 0)).
  2:{ eexists _, m, g. split; [done|]. split; [done|]. split; [done|]. by left. }
  rewrite (st_lift_ok _ _ _ _ eq_refl).
  destruct (try_remove_ok m g h (λ _, None) Hm) as (m1 & g1 & Hm1 & Hx1 & Hn1 & Hr).
  destruct (g !! hm_decode m h) as [o|] eqn:E; destruct Hr as [Hr ->].
  - rewrite (st_bind_ok _ _ _ _ _ Hr). destruct (set_features o f) as [o' ret] eqn:Hs.
    destruct (insert_ref_ok m1 _ o' Hm1 ltac:(lia)) as (m2 & H2 & Hm2 & _).
    eexists _, m2, _. split; [by run H2|]. split; [done|]. split; [done|]. right.
    exists o, (contents (delete (hm_decode m h) g)). rewrite Hs. split; [by apply contents_delete|].
    by rewrite contents_insert by (by apply fresh_key).
  - rewrite (st_bind_err _ _ _ _ _ Hr). eexists _, m1, g. split; [done|]. split; [done|]. split; [done|]. by left.
Qed.

(** C13: Rights never grow. Whatever rights each object was given out with, no
    reference of a space gets others by cloning (which needs SEND and SYNC), by
    [obj_feat], by sending or by receiving; and the references in a packet do not
    have others either. *)
Theorem rights_never_grow grant m g :
  hm_rep m g → within grant (contents g) → next_id m < 2 ^ 32 - 1 →
  (∀ h, ∃ r m' g', clone_ref h m = (r, m') ∧ r ≠ Panic ∧ hm_rep m' g' ∧ within grant (contents g')) ∧
  (∀ h f, ∃ r m' g', obj_feat h f m = (r, m') ∧ r ≠ Panic ∧ hm_rep m' g' ∧ within grant (contents g')) ∧
  (∀ hs src, next_id m + Z.of_nat (length hs) < 2 ^ 32 →
    ∃ r m' g', hm_send hs src m = (r, m') ∧ hm_rep m' g' ∧ within grant (contents g') ∧
      (∀ rs, r = Ok rs → within grant rs)) ∧
  (∀ rs, within grant rs → next_id m + Z.of_nat (length rs) < 2 ^ 32 →
    ∃ hs m' g', hm_receive (length rs) rs m = (Ok hs, m') ∧ hm_rep m' g' ∧ within grant (contents g')).
Proof.
  intros Hm Hw Hn. split_and!.
  - intros h. destruct (clone_ref_ok m g h Hm Hn) as (r & m' & g' & Hr & Hm' & Hp & Hg').
    exists r, m', g'. split_and!; [done..|]. destruct Hg' as [->|(o & Ho & Hc & _)]; [done|].
    eapply within_perm; [symmetry; exact Hc|]. apply within_cons. split; [by apply Hw|done].
  - intros h f. destruct (obj_feat_ok m g h f Hm Hn) as (r & m' & g' & Hr & Hm' & Hp & Hg').
    exists r, m', g'. split_and!; [done..|]. destruct Hg' as [->|(o & rest & Hc & Hc')]; [done|].
    eapply within_perm; [symmetry; exact Hc'|]. apply (within_perm _ _ _ Hc), within_cons in Hw as [Ho Hrest].
    apply within_cons. split; [|done]. by apply set_features_within.
  - intros hs src Hn'. destruct (hm_send_ok m g hs src Hm Hn') as (r & m' & g' & Hr & Hm' & _ & Hs).
    exists r, m', g'. destruct r as [rs|e|]; [| |done].
    + destruct Hs as (taken & -> & _ & Hc & _). apply (within_perm _ _ _ Hc), within_app in Hw as [Ht Hg'].
      split_and!; [done..|]. by intros rs [= <-].
    + split_and!; [done..| |done]. eapply within_perm; [symmetry; exact Hs|done].
  - intros rs Hrs Hn'. destruct (hm_receive_ok rs m g Hm Hn') as (hs & m' & g' & Hr & Hm' & _ & Hc & _).
    exists hs, m', g'. split_and!; [done..|]. eapply within_perm; [symmetry; exact Hc|]. by apply within_app.
Qed.
End spec.

(** ** Witnesses and corner cases, at the hash map of the kernel *)

Module Witness.
Abbreviation hmap := (HandleMap (gmap Z)).

Definition full : Z := Feature.all.
Definition r1 : Ref := MkRef (Some 0%nat) full (Obj 7 100).
Definition r2 : Ref := MkRef (Some 1%nat) channel_features (ObjChannel 200 3).

(** A space with the two references, whose handles are 1 and 2 masked. *)
Definition two (mx : Z) : hmap := snd (merge [r1; r2] (hm_new mx)).

Lemma two_rep mx : ∃ g, hm_rep (two mx) g ∧ contents g ≡ₚ [r1; r2] ∧ next_id (two mx) = 3.
Proof.
  destruct (insert_ref_ok (hm_new mx) ∅ r1 (hm_new_rep mx) ltac:(cbn; lia)) as (m1 & H1 & Hm1 & Hx1 & Hn1).
  destruct (insert_ref_ok m1 _ r2 Hm1 ltac:(rewrite Hn1; cbn; lia)) as (m2 & H2 & Hm2 & Hx2 & Hn2).
  assert (two mx = m2) as ->.
  { unfold two. cbn [merge]. rewrite (st_bind_ok _ _ _ _ _ H1). unfold mbind at 1, st_bind at 1.
    rewrite (st_bind_ok _ _ _ _ _ H2). done. }
  exists (<[next_id m1 := r2]> (<[next_id (hm_new mx) := r1]> ∅)). split; [done|]. split.
  - rewrite contents_insert by (rewrite Hn1; done). rewrite contents_insert by done.
    unfold contents. rewrite map_to_list_empty. apply Permutation_swap.
  - rewrite Hn2, Hn1. done.
Qed.

Lemma transfer_spec_witness :
  let m1 := two 0 in
  fst (hm_send [MkHandle 1; MkHandle 2] 9 m1) = Ok [r1; r2] ∧
  ∃ hs' m2', hm_receive 2 [r1; r2] (two 0) = (Ok hs', m2') ∧ length hs' = 2%nat.
Proof.
  destruct (two_rep 0) as (g & Hg & _ & Hn).
  pose proof (transfer_spec (two 0) g (two 0) g [MkHandle 1; MkHandle 2] 9 Hg Hg) as Ht.
  destruct (hm_send [MkHandle 1; MkHandle 2] 9 (two 0)) as [r m'] eqn:E.
  assert (r = Ok [r1; r2]) as -> by (vm_compute in E; injection E as <- _; reflexivity).
  destruct Ht as (hs' & m2' & H & Hl & _); [rewrite Hn; cbn; lia..|].
  split; [reflexivity|]. exists hs', m2'. split; [exact H|exact Hl].
Defined.

Lemma rights_never_grow_witness :
  ∃ (r : res errno (Handle * res errno ())) (m' : hmap) g',
    obj_feat (MkHandle 1) Feature.READ (two 0) = (r, m') ∧
    hm_rep m' g' ∧ within (λ _, full) (contents g').
Proof.
  destruct (two_rep 0) as (g & Hg & Hc & Hn).
  assert (within (λ _, full) (contents g)) as Hw.
  { intros r Hr. rewrite Hc in Hr. apply elem_of_cons in Hr as [->|Hr]; [reflexivity|].
    apply list_elem_of_singleton in Hr as ->. reflexivity. }
  destruct (rights_never_grow (λ _, full) (two 0) g Hg Hw) as (_ & H & _); [rewrite Hn; lia|].
  destruct (H (MkHandle 1) Feature.READ) as (r & m' & g' & H1 & _ & H2 & H3).
  exists r, m', g'. split; [exact H1|]. split; [exact H2|exact H3].
Defined.

(** Three corner cases of the handle map. The number of a reference masked
    with the word of the space can be the null handle, which no call accepts; a
    refused sending gives the references it had taken new handles, so that the
    old one is no longer valid; and a channel is sent without the SEND right. *)
Example handle_corner_cases :
  fst (insert_ref r1 (two 3)) = Ok HANDLE_NULL ∧
  (let m := snd (hm_send [MkHandle 1; MkHandle 77] 9 (two 0)) in
   fst (hm_send [MkHandle 1; MkHandle 77] 9 (two 0)) = Err EINVAL ∧
   fst (get_ref (MkHandle 1) (two 0)) = Ok r1 ∧ fst (get_ref (MkHandle 1) m) = Err EINVAL ∧
   fst (get_ref (MkHandle 3) m) = Ok r1) ∧
  (let m := snd (obj_feat (MkHandle 2) Feature.READ (two 0)) in
   fst (hm_send [MkHandle 3] 9 m) = Ok [MkRef (Some 1%nat) Feature.READ (ObjChannel 200 3)]) ∧
  (let m := snd (obj_feat (MkHandle 1) Feature.READ (two 0)) in
   fst (hm_send [MkHandle 3] 9 m) = Err EPERM).
Proof. vm_compute. split_and!; reflexivity. Qed.
End Witness.
