(* ===== verification/Ipc.v ===== *)
(** * Events, blockers and dispatchers ([kernel/src/sched/ipc.rs], [ipc/basic.rs]
    and [sched/imp/waiter.rs])

    An event is a word of signals and the waiters registered on it. A waiter is a
    blocker, which wakes a task, or a dispatcher, which moves the requests that
    are satisfied from its pending list to its ready queue and then notifies its
    own event, on which other waiters may be registered. Events and waiters refer
    to each other, so they live in a shared [world]; an event whose last strong
    reference is gone is absent from it. *)

From S2P Require Import Base Collections SysCall.
Local Open Scope Z_scope.
Local Open Scope h2o_scope.

Definition SIG_GENERIC : Z := 1.
Definition SIG_READ : Z := 2.
Definition SIG_WRITE : Z := 4.
Definition SIG_TIMER : Z := 8.

Inductive TriggerMode := Edge | Level.
#[export] Instance TriggerMode_eq_dec : EqDecision TriggerMode.
Proof. solve_decision. Defined.

Record WaiterData := MkWaiterData { trigger_mode : TriggerMode; wait_for : Z }.

(** [self.signal & !signal == 0]. *)
Definition satisfied (mask signal : Z) : bool := Z.land mask (Z.lnot signal) =? 0.

Definition can_signal (d : WaiterData) (signal : Z) (on_wait : bool) : bool :=
  if on_wait && bool_decide (trigger_mode d = Edge) then false else satisfied (wait_for d) signal.

Record EventData := MkEvent { signal : Z; waiters : list nat }.
Definition event_new (init_signal : Z) : EventData := MkEvent init_signal [].

(** [woken] lists the arguments of the calls of [WaitObject::notify]. *)
Record Blocker := MkBlocker {
  wake_all : bool;
  woken : list Z;
  bevent : nat;
  bdata : WaiterData;
  status : bool * Z;
}.

Record Request := MkRequest {
  key : Z;
  revent : nat;
  rdata : WaiterData;
  syscall : option Z;
}.

Record Ready := MkReady { canceled : bool; rsignal : Z; request : Request }.

Section ipc.
Context {Q : Type → Type} `{SQ : SegQueue Q} `{P : Profile}.

Record Dispatcher := MkDispatcher {
  next_key : Z;
  devent : nat;
  capacity : Z;
  pending : list Request;
  ready : Q Ready;
}.

Inductive waiter := WBlocker (b : Blocker) | WDispatcher (d : Dispatcher).

Record world := World { events : gmap nat EventData; wobjs : gmap nat waiter }.

(** What keeps a call from returning: re-entering the scan of a waiter table
    whose entry is locked by an outer scan, or (in the model only) no fuel. *)
Inductive stop := Deadlock | OutOfFuel.

Definition ipc := st world stop.

Definition get_event (e : nat) : ipc EventData :=
  w ← get; lift (unwrap (events w !! e)).
Definition set_event (e : nat) (d : EventData) : ipc () :=
  modify (λ w, World (<[e := d]> (events w)) (wobjs w)).
Definition get_waiter (i : nat) : ipc waiter :=
  w ← get; lift (unwrap (wobjs w !! i)).
Definition set_waiter (i : nat) (d : waiter) : ipc () :=
  modify (λ w, World (events w) (<[i := d]> (wobjs w))).

(** *** Waiters *)

(** [WaitObject::notify] is asked to wake one task or all. *)
Definition wake_num (b : Blocker) : Z := if wake_all b then MAX64 else 1.

Definition blocker_set (b : Blocker) (ok : bool) (signal : Z) : Blocker :=
  MkBlocker (wake_all b) (woken b ++ [wake_num b]) (bevent b) (bdata b) (ok, signal).

(** [drain_filter] on the pending requests and the pushes on the ready queue. *)
Definition drained (d : Dispatcher) (event : nat) (signal : Z) (on_wait : bool) : list Request :=
  filter (λ r, revent r = event ∧ can_signal (rdata r) signal on_wait = true) (pending d).
Definition undrained (d : Dispatcher) (event : nat) (signal : Z) (on_wait : bool) : list Request :=
  filter (λ r, ¬ (revent r = event ∧ can_signal (rdata r) signal on_wait = true)) (pending d).

Definition push_ready (cancel : bool) (signal : Z) (rs : list Request) (q : Q Ready) : Q Ready :=
  fold_left (λ q r, sq_push (MkReady cancel signal r) q) rs q.

Definition disp_drain (d : Dispatcher) (event : nat) (signal : Z) (on_wait cancel : bool) : Dispatcher :=
  MkDispatcher (next_key d) (devent d) (capacity d) (undrained d event signal on_wait)
    (push_ready cancel signal (drained d event signal on_wait) (ready d)).

Definition is_nil {A} (l : list A) : bool := match l with [] => true | _ => false end.

Section with_notify.
(** [notify] of the dispatcher's own event. *)
Variable notify : nat → Z → Z → ipc Z.

Definition try_on_notify (i : nat) (event : nat) (signal : Z) (on_wait : bool) : ipc bool :=
  x ← get_waiter i;
  match x with
  | WBlocker b =>
      if can_signal (bdata b) signal on_wait then
        _ ← set_waiter i (WBlocker (blocker_set b true signal));
        mret true
      else mret false
  | WDispatcher d =>
      if capacity d <=? sq_len (ready d) then mret false
      else
        let has_notify := negb (is_nil (drained d event signal on_wait)) in
        let d' := disp_drain d event signal on_wait false in
        _ ← set_waiter i (WDispatcher d');
        _ ← (if has_notify then notify (devent d) 0 SIG_READ else mret 0);
        mret (is_nil (pending d'))
  end.

Definition on_cancel (i : nat) (event : nat) (signal : Z) : ipc () :=
  x ← get_waiter i;
  match x with
  | WBlocker b => set_waiter i (WBlocker (blocker_set b false signal))
  | WDispatcher d =>
      let has_cancel := negb (is_nil (drained d event signal false)) in
      _ ← set_waiter i (WDispatcher (disp_drain d event signal false true));
      _ ← (if has_cancel then notify (devent d) 0 SIG_READ else mret 0);
      mret ()
  end.

(** [CHashMap::retain] with [!try_on_notify]; the entries that stay. *)
Fixpoint retain (event : nat) (signal : Z) (ws : list nat) : ipc (list nat) :=
  match ws with
  | [] => mret []
  | i :: ws =>
      gone ← try_on_notify i event signal false;
      rest ← retain event signal ws;
      mret (if gone : bool then rest else i :: rest)
  end.

Fixpoint cancel_loop (event : nat) (signal : Z) (ws : list nat) : ipc () :=
  match ws with
  | [] => mret ()
  | i :: ws =>
      _ ← on_cancel i event signal;
      cancel_loop event signal ws
  end.
End with_notify.

(** *** Events *)

Definition next_signal (prev clear set : Z) : Z := Z.lor (Z.land prev (Z.lnot clear)) set.

(** [notify_impl]. [busy] are the events whose tables an outer call is scanning:
    scanning one of them again waits for ever on the entry that is held. *)
Fixpoint notify (fuel : nat) (busy : list nat) (event : nat) (clear set : Z) : ipc Z :=
  match fuel with
  | O => lift (Err OutOfFuel)
  | S fuel =>
      e ← get_event event;
      let prev := signal e in
      let new := next_signal prev clear set in
      if prev =? new then mret prev
      else
        _ ← set_event event (MkEvent new (waiters e));
        if Z.land prev new =? new then mret new
        else if bool_decide (event ∈ busy) then lift (Err Deadlock)
        else
          ws ← retain (notify fuel (event :: busy)) event new (waiters e);
          _ ← set_event event (MkEvent new ws);
          mret new
  end.

(** One round for each event and one for the outermost call. *)
Definition enough (w : world) : nat := 2 + size (events w).

Definition event_notify (event : nat) (clear set : Z) : ipc Z :=
  w ← get; notify (enough w) [] event clear set.

(** [wait_impl] reads the signal and, unless the waiter is served at once,
    enters it in the table; other processors can act in between. *)
Definition wait_check (event : nat) (i : nat) : ipc bool :=
  e ← get_event event;
  w ← get;
  try_on_notify (notify (enough w) []) i event (signal e) true.

Definition wait_insert (event : nat) (i : nat) : ipc () :=
  e ← get_event event;
  if bool_decide (i ∈ waiters e) then mret ()
  else set_event event (MkEvent (signal e) (waiters e ++ [i])).

Definition wait (event : nat) (i : nat) : ipc () :=
  done ← wait_check event i;
  if done : bool then mret () else wait_insert event i.

Definition unwait (event : nat) (i : nat) : ipc (bool * Z) :=
  e ← get_event event;
  let ret := bool_decide (i ∈ waiters e) in
  _ ← set_event event (MkEvent (signal e) (filter (λ j, j ≠ i) (waiters e)));
  mret (ret, signal e).

Definition cancel (event : nat) : ipc () :=
  e ← get_event event;
  w ← get;
  _ ← set_event event (MkEvent (signal e) []);
  cancel_loop (notify (enough w) []) event (signal e) (waiters e).

(** *** Blockers *)

(** [i] is the address of the new allocation. *)
Definition blocker_new (i event : nat) (level_triggered wake_all : bool) (signal : Z) : ipc () :=
  let mode := if level_triggered then Level else Edge in
  _ ← set_waiter i (WBlocker (MkBlocker wake_all [] event (MkWaiterData mode signal) (true, 0)));
  wait event i.

(** [Blocker::wait], up to the point at which the task goes to sleep. *)
Inductive wait_res := WaitOver (r : res errno ()) | Sleeps.
Definition blocker_wait (w : world) (b : Blocker) (timeout : Z) : wait_res :=
  if (timeout =? 0) || negb (snd (status b) =? 0) then WaitOver (Ok ())
  else match events w !! bevent b with
       | None => WaitOver (Err EPIPE)
       | Some _ => Sleeps
       end.

Definition detach (i : nat) : ipc (bool * Z) :=
  x ← get_waiter i;
  match x with
  | WDispatcher _ => lift Panic
  | WBlocker b =>
      w ← get;
      match events w !! bevent b with
      | Some _ =>
          '(not_signaled, newer) ← unwait (bevent b) i;
          let has_signal := negb not_signaled && fst (status b) in
          _ ← (if negb (wake_all b) && has_signal
               then event_notify (bevent b) (wait_for (bdata b)) 0 else mret 0);
          mret (has_signal, newer)
      | None => mret (status b)
      end
  end.

(** *** Dispatchers *)

Definition disp_new (devent : nat) (capacity : Z) : Dispatcher :=
  MkDispatcher 1 devent capacity [] sq_new.

Definition get_disp (i : nat) : ipc Dispatcher :=
  x ← get_waiter i;
  match x with WDispatcher d => mret d | WBlocker _ => lift Panic end.

Definition disp_push (i event : nat) (data : WaiterData) (sys : option Z) : ipc (errno + Z) :=
  d ← get_disp i;
  let k := next_key d in
  let req := MkRequest k event data sys in
  let d := MkDispatcher (wrap W (k + 1)) (devent d) (capacity d) (pending d) (ready d) in
  _ ← set_waiter i (WDispatcher d);
  room ← lift (capacity d -! sq_len (ready d));
  if room <=? Z.of_nat (length (pending d)) then mret (inl ENOSPC)
  else
    _ ← set_waiter i (WDispatcher
          (MkDispatcher (next_key d) (devent d) (capacity d) (pending d ++ [req]) (ready d)));
    _ ← wait event i;
    mret (inr k).

(** The key, the signal and [(canceled, syscall)] of the oldest ready request. *)
Definition disp_pop (i : nat) : ipc (option (Z * Z * (bool * option Z))) :=
  d ← get_disp i;
  match sq_pop (ready d) with
  | (None, q) => mret None
  | (Some r, q) =>
      _ ← set_waiter i (WDispatcher (MkDispatcher (next_key d) (devent d) (capacity d) (pending d) q));
      let sys := if negb (canceled r) then syscall (request r) else None in
      _ ← event_notify (devent d) 0 SIG_WRITE;
      mret (Some (key (request r), rsignal r, (canceled r, sys)))
  end.
End ipc.
