(* ===== verification/IpcFacts.v ===== *)
(** * Invariants of events and waiters

    The state of events, blockers and dispatchers is [inv]ariant: tables refer
    to existing waiters, a dispatcher never holds more requests than its capacity,
    a pending request keeps its dispatcher registered on the event (unless the event
    was cancelled, which forgets its waiters), and no waiter that asked for a level it
    already has is left sleeping. [evolves] is what a notification may change on the way. *)

From S2P Require Import Base Collections SysCall Ipc.
Local Open Scope Z_scope.
Local Open Scope h2o_scope.

(** The events that are never cancelled. The events of dispatchers are among them, since no
    handle leads to one that could be used to cancel it. *)
Class Kept := kept : nat → Prop.

Section facts.
Context {Q : Type → Type} `{SQ : SegQueue Q} `{P : Profile} `{K : Kept}.
Implicit Types (w : world (Q:=Q)) (d : Dispatcher (Q:=Q)) (x : waiter (Q:=Q)).

(** ** Reasoning about calls: a call returns with [Φ] or is stuck with [C]. *)
Definition post {A} (m : ipc A) w (Φ : A → world → Prop) (C : Prop) : Prop :=
  match m w with
  | (Ok a, w') => Φ a w'
  | (Err Deadlock, _) => C
  | _ => False
  end.

Lemma post_bind {A B} (m : ipc A) (k : A → ipc B) w Φ C :
  post m w (λ a w', post (k a) w' Φ C) C → post (m ≫= k) w Φ C.
Proof. unfold post, mbind, st_bind. by destruct (m w) as [[a|[]|] w']. Qed.

Lemma post_mono {A} (m : ipc A) w (Φ Ψ : A → world → Prop) (C D : Prop) :
  post m w Φ C → (∀ a w', Φ a w' → Ψ a w') → (C → D) → post m w Ψ D.
Proof. unfold post. destruct (m w) as [[a|[]|] w']; eauto. Qed.

Lemma post_ret {A} (a : A) w (Φ : A → world → Prop) C : Φ a w → post (mret a) w Φ C.
Proof. done. Qed.

Lemma post_get_event e w a (Φ : EventData → world → Prop) C :
  events w !! e = Some a → Φ a w → post (get_event e) w Φ C.
Proof. intros Hd HΦ. unfold post, get_event. rewrite st_get_bind. unfold lift. by rewrite Hd. Qed.

Lemma post_get_waiter i w x (Φ : waiter → world → Prop) C :
  wobjs w !! i = Some x → Φ x w → post (get_waiter i) w Φ C.
Proof. intros Hd HΦ. unfold post, get_waiter. rewrite st_get_bind. unfold lift. by rewrite Hd. Qed.

(** ** Signals *)

Lemma satisfied_iff m s : satisfied m s = true ↔ Z.land m (Z.lnot s) = 0.
Proof. unfold satisfied. apply Z.eqb_eq. Qed.

Lemma satisfied_bits m s :
  satisfied m s = true ↔ ∀ i, 0 ≤ i → Z.testbit m i = true → Z.testbit s i = true.
Proof.
  rewrite satisfied_iff. split.
  - intros H i Hi Hm. apply (f_equal (λ z, Z.testbit z i)) in H.
    autorewrite with h2o_bits in H. rewrite Hm in H. by destruct (Z.testbit s i).
  - intros H. apply Z.bits_inj'. intros i Hi. autorewrite with h2o_bits.
    destruct (Z.testbit m i) eqn:Hm; [|done]. by rewrite (H i).
Qed.

Lemma satisfied_sub m s s' : Z.land s' s = s → satisfied m s = true → satisfied m s' = true.
Proof.
  rewrite !satisfied_bits. intros Hs H i Hi Hm. specialize (H i Hi Hm).
  rewrite <- Hs, Z.land_spec in H. by apply andb_true_iff in H as [? _].
Qed.

Lemma can_signal_false data s : can_signal data s false = satisfied (wait_for data) s.
Proof. done. Qed.

(** ** Evolution *)

(** The requests a dispatcher holds. *)
Definition requests d : list Request := pending d ++ (request <$> sq_elems (ready d)).

Definition disp_le d d' : Prop :=
  next_key d' = next_key d ∧ devent d' = devent d ∧ capacity d' = capacity d ∧
  (∀ r, r ∈ pending d' → r ∈ pending d) ∧
  (∃ ext, sq_elems (ready d') = sq_elems (ready d) ++ ext) ∧
  requests d' ≡ₚ requests d.

Definition notified (b b' : Blocker) : Prop :=
  fst (status b') = true ∧ (length (woken b) < length (woken b'))%nat.

(** A blocker is left alone or notified. *)
Definition blocker_le (b b' : Blocker) : Prop :=
  wake_all b' = wake_all b ∧ bevent b' = bevent b ∧ bdata b' = bdata b ∧
  (b' = b ∨ notified b b').

Definition waiter_le x x' : Prop :=
  match x, x' with
  | WBlocker b, WBlocker b' => blocker_le b b'
  | WDispatcher d, WDispatcher d' => disp_le d d'
  | _, _ => False
  end.

Definition event_le (e e' : EventData) : Prop :=
  (∀ i, i ∈ waiters e' → i ∈ waiters e) ∧
  (signal e' = signal e ∨ signal e' = Z.lor (signal e) SIG_READ).

Record evolves (B : list nat) w w' : Prop := {
  ev_wobj i x : wobjs w !! i = Some x → ∃ x', wobjs w' !! i = Some x' ∧ waiter_le x x';
  ev_wnone i : wobjs w !! i = None → wobjs w' !! i = None;
  ev_event e a : events w !! e = Some a → ∃ a', events w' !! e = Some a' ∧ event_le a a';
  ev_enone e : events w !! e = None → events w' !! e = None;
  ev_busy e : e ∈ B → events w' !! e = events w !! e;
  ev_signal e a a' : ¬ kept e → events w !! e = Some a → events w' !! e = Some a' → signal a' = signal a;
}.

Lemma disp_le_refl d : disp_le d d.
Proof. unfold disp_le. intuition eauto. exists []. by rewrite app_nil_r. Qed.

Lemma waiter_le_refl x : waiter_le x x.
Proof. destruct x; cbn; [|apply disp_le_refl]. split_and!; auto. Qed.

Lemma disp_le_trans a b c : disp_le a b → disp_le b c → disp_le a c.
Proof.
  intros (Ha1 & Ha2 & Ha3 & Ha4 & (x & Hx) & Ha5) (Hb1 & Hb2 & Hb3 & Hb4 & (y & Hy) & Hb5).
  split; [congruence|]. split; [congruence|]. split; [congruence|]. split; [eauto|].
  split; [|by rewrite Hb5]. exists (x ++ y). by rewrite Hy, Hx, app_assoc.
Qed.

Lemma notified_le b b' b'' : notified b b' → blocker_le b' b'' → notified b b''.
Proof. intros [H1 H2] (_ & _ & _ & [->|[H3 H4]]); split; auto. lia. Qed.

Lemma blocker_le_trans b b' b'' : blocker_le b b' → blocker_le b' b'' → blocker_le b b''.
Proof.
  intros (H1 & H2 & H3 & H4) H5. pose proof H5 as (H6 & H7 & H8 & H9).
  split_and!; [congruence..|].
  destruct H4 as [->|H4]; [done|]. right. by apply (notified_le _ b').
Qed.

Lemma waiter_le_trans a b c : waiter_le a b → waiter_le b c → waiter_le a c.
Proof.
  destruct a, b, c; cbn; try done; [apply blocker_le_trans|apply disp_le_trans].
Qed.

Lemma event_le_refl a : event_le a a.
Proof. split; auto. Qed.

Lemma event_le_trans a b c : event_le a b → event_le b c → event_le a c.
Proof.
  intros [Ha Hb] [Hc Hd]. split; [eauto|].
  destruct Hb as [->| ->] in Hd; destruct Hd as [->| ->]; auto.
  right. by rewrite <- Z.lor_assoc, Z.lor_diag.
Qed.

Lemma evolves_refl B w : evolves B w w.
Proof.
  split; try done; [..|intros; by simplify_eq]; intros ? y Hy; exists y; split; try done; [apply waiter_le_refl|apply event_le_refl].
Qed.

Lemma evolves_trans B a b c : evolves B a b → evolves B b c → evolves B a c.
Proof.
  intros Ha Hb. split.
  - intros i x Hx. destruct (ev_wobj _ _ _ Ha _ _ Hx) as (y & Hy & Hle).
    destruct (ev_wobj _ _ _ Hb _ _ Hy) as (z & Hz & Hle'). eauto using waiter_le_trans.
  - intros i Hi. by apply (ev_wnone _ _ _ Hb), (ev_wnone _ _ _ Ha).
  - intros i x Hx. destruct (ev_event _ _ _ Ha _ _ Hx) as (y & Hy & Hle).
    destruct (ev_event _ _ _ Hb _ _ Hy) as (z & Hz & Hle'). eauto using event_le_trans.
  - intros i Hi. by apply (ev_enone _ _ _ Hb), (ev_enone _ _ _ Ha).
  - intros e He. by rewrite (ev_busy _ _ _ Hb), (ev_busy _ _ _ Ha).
  - intros e x z Hk Hx Hz. destruct (ev_event _ _ _ Ha _ _ Hx) as (y & Hy & _).
    by rewrite (ev_signal _ _ _ Hb e y z), (ev_signal _ _ _ Ha e x y).
Qed.

Lemma evolves_weaken B B' w w' : (∀ e, e ∈ B' → e ∈ B) → evolves B w w' → evolves B' w w'.
Proof. intros HB []. split; eauto. Qed.

Lemma evolves_back_wobj B w w' i x' :
  evolves B w w' → wobjs w' !! i = Some x' → ∃ x, wobjs w !! i = Some x ∧ waiter_le x x'.
Proof.
  intros He Hx'. destruct (wobjs w !! i) as [x|] eqn:Hx.
  - destruct (ev_wobj _ _ _ He _ _ Hx) as (y & Hy & Hle). simplify_eq. eauto.
  - apply (ev_wnone _ _ _ He) in Hx. congruence.
Qed.

Lemma evolves_back_event B w w' e a' :
  evolves B w w' → events w' !! e = Some a' → ∃ a, events w !! e = Some a ∧ event_le a a'.
Proof.
  intros He Hx'. destruct (events w !! e) as [x|] eqn:Hx.
  - destruct (ev_event _ _ _ He _ _ Hx) as (y & Hy & Hle). simplify_eq. eauto.
  - apply (ev_enone _ _ _ He) in Hx. congruence.
Qed.

(** One waiter replaced by a later one. *)
Lemma evolves_set_waiter B w i x x' :
  wobjs w !! i = Some x → waiter_le x x' →
  evolves B w (World (events w) (<[i := x']> (wobjs w))).
Proof.
  intros Hx Hle. split; cbn; try done.
  - intros j y Hy. destruct (decide (j = i)) as [->|Hne].
    + rewrite lookup_insert_eq. simplify_eq. eauto.
    + rewrite lookup_insert_ne by done. eauto using waiter_le_refl.
  - intros j Hj. rewrite lookup_insert_ne; [done|]. intros ->. congruence.
  - intros e a Ha. eauto using event_le_refl.
  - intros. by simplify_eq.
Qed.

(** ** The invariant *)

(** The waiter, registered on [e], would be served at signal [s]. *)
Definition serves x (e : nat) (s : Z) : Prop :=
  match x with
  | WBlocker b => satisfied (wait_for (bdata b)) s = true
  | WDispatcher d => ∃ r, r ∈ pending d ∧ revent r = e ∧ satisfied (wait_for (rdata r)) s = true
  end.

(** The same for waiters that ask for a level. *)
Definition wants x (e : nat) (s : Z) : Prop :=
  match x with
  | WBlocker b => trigger_mode (bdata b) = Level ∧ satisfied (wait_for (bdata b)) s = true
  | WDispatcher d => ∃ r, r ∈ pending d ∧ revent r = e ∧
      trigger_mode (rdata r) = Level ∧ satisfied (wait_for (rdata r)) s = true
  end.

(** No registered waiter already has the level it waits for. *)
Definition quiet_at w (e : nat) : Prop :=
  ∀ a i x, events w !! e = Some a → i ∈ waiters a → wobjs w !! i = Some x → ¬ wants x e (signal a).

Definition disp_ok d : Prop :=
  0 ≤ capacity d < 2 ^ 64 ∧ Z.of_nat (length (requests d)) ≤ capacity d.

(** [B]: events whose waiters a notification in progress is still serving. *)
Record inv (B : list nat) w : Prop := {
  inv_waiters e a i : events w !! e = Some a → i ∈ waiters a → is_Some (wobjs w !! i);
  inv_devent i d : wobjs w !! i = Some (WDispatcher d) → is_Some (events w !! devent d);
  inv_own i d : wobjs w !! i = Some (WDispatcher d) → kept (devent d);
  inv_disp i d : wobjs w !! i = Some (WDispatcher d) → disp_ok d;
  inv_quiet e : e ∉ B → quiet_at w e;
  inv_reg i d r a : wobjs w !! i = Some (WDispatcher d) → r ∈ pending d → kept (revent r) →
    events w !! revent r = Some a → i ∈ waiters a;
}.

Lemma wants_serves x e s : wants x e s → serves x e s.
Proof. destruct x; cbn; [tauto|]. intros (r & H1 & H2 & _ & H3). eauto. Qed.

Lemma serves_le x x' e s : waiter_le x x' → serves x' e s → serves x e s.
Proof.
  destruct x, x'; cbn; try done.
  - intros (_ & _ & -> & _). done.
  - intros (_ & _ & _ & Hp & _) (r & Hr & H). exists r. eauto.
Qed.

Lemma wants_le x x' e s : waiter_le x x' → wants x' e s → wants x e s.
Proof.
  destruct x, x'; cbn; try done.
  - intros (_ & _ & -> & _). done.
  - intros (_ & _ & _ & Hp & _) (r & Hr & H). exists r. eauto.
Qed.

Lemma wants_sub x e s s' : Z.land s' s = s → wants x e s → wants x e s'.
Proof.
  destruct x; cbn.
  - intros Hs [H1 H2]. eauto using satisfied_sub.
  - intros Hs (r & H1 & H2 & H3 & H4). exists r. eauto using satisfied_sub.
Qed.

Lemma disp_ok_le d d' : disp_le d d' → disp_ok d → disp_ok d'.
Proof.
  intros (_ & _ & Hc & _ & _ & Hp) [H1 H2]. unfold disp_ok. rewrite Hc.
  by rewrite (Permutation_length Hp).
Qed.

(** Waiters move on and the events stay. *)
Lemma inv_evolves_waiters B B' w w' :
  evolves B' w w' → events w' = events w → inv B w → inv B w'.
Proof.
  intros He Hev Hi. split.
  - intros e a i Ha Hw. rewrite Hev in Ha. destruct (inv_waiters _ _ Hi _ _ _ Ha Hw) as [x Hx].
    destruct (ev_wobj _ _ _ He _ _ Hx) as (x' & -> & _). eauto.
  - intros i d Hd. rewrite Hev. destruct (evolves_back_wobj _ _ _ _ _ He Hd) as ([] & Hx & Hle); [done|].
    destruct Hle as (_ & -> & _). eapply inv_devent; eauto.
  - intros i d Hd. destruct (evolves_back_wobj _ _ _ _ _ He Hd) as ([] & Hx & Hle); [done|].
    destruct Hle as (_ & -> & _). eapply inv_own; eauto.
  - intros i d Hd. destruct (evolves_back_wobj _ _ _ _ _ He Hd) as ([] & Hx & Hle); [done|].
    eapply disp_ok_le; [exact Hle|]. eapply inv_disp; eauto.
  - intros e He' a i x Ha Hw Hx. rewrite Hev in Ha.
    destruct (evolves_back_wobj _ _ _ _ _ He Hx) as (y & Hy & Hle). intros Hwant.
    eapply (inv_quiet _ _ Hi); eauto using wants_le.
  - intros i d r a Hd Hr Hk Ha. rewrite Hev in Ha.
    destruct (evolves_back_wobj _ _ _ _ _ He Hd) as ([] & Hx & Hle); [done|].
    eapply inv_reg; eauto. by apply Hle.
Qed.

(** ** Draining a dispatcher *)

Lemma push_ready_elems c s rs (q : Q Ready) :
  sq_elems (push_ready c s rs q) = sq_elems q ++ (MkReady c s <$> rs).
Proof.
  unfold push_ready. revert q. induction rs as [|r rs IH]; intros q; cbn.
  - by rewrite app_nil_r.
  - by rewrite IH, sq_push_elems, <- app_assoc.
Qed.

Lemma disp_drain_le d e s ow c : disp_le d (disp_drain d e s ow c).
Proof.
  unfold disp_le, disp_drain. cbn. split_and!; [done..| | |].
  - intros r Hr. by apply list_elem_of_filter in Hr as [_ ?].
  - rewrite push_ready_elems. eauto.
  - unfold requests. cbn. rewrite push_ready_elems, fmap_app.
    assert (request <$> (MkReady c s <$> drained d e s ow) = drained d e s ow) as ->.
    { rewrite <- list_fmap_compose. apply list_fmap_id. }
    rewrite (Permutation_app_comm (_ <$> _)), app_assoc. apply Permutation_app_tail.
    rewrite Permutation_app_comm. apply filter_app_complement.
Qed.

Lemma disp_drain_unserved d e s c x : x = WDispatcher (disp_drain d e s false c) → ¬ serves x e s.
Proof.
  intros ->. cbn. intros (r & Hr & He & Hs). apply list_elem_of_filter in Hr as [Hn _]. apply Hn. done.
Qed.

Lemma drained_nil d e s ow c : drained d e s ow = [] → disp_drain d e s ow c = d.
Proof.
  intros Hn. unfold disp_drain. rewrite Hn.
  assert (undrained d e s ow = pending d) as ->; [|by destruct d].
  apply filter_id. intros r Hr Hc.
  assert (r ∈ drained d e s ow) as Hd by (apply list_elem_of_filter; done).
  rewrite Hn in Hd. by apply not_elem_of_nil in Hd.
Qed.

Lemma is_nil_true {A} (l : list A) : is_nil l = true ↔ l = [].
Proof. by destruct l. Qed.

(** At capacity nothing is pending. *)
Lemma disp_full d : disp_ok d → (capacity d <=? sq_len (ready d)) = true → pending d = [].
Proof.
  intros [_ Hl] Hf. zbool. rewrite sq_len_elems in Hf. unfold requests in Hl.
  rewrite length_app, length_fmap in Hl. destruct (pending d); [done|]. cbn in Hl. lia.
Qed.
End facts.
