(* ===== verification/IpcNotify.v ===== *)
(** * Notification: it ends, and it keeps the invariant

    A notification that reaches a dispatcher notifies the dispatcher's own event
    in turn. Each such step sets SIG_READ on an event that lacked it, so the depth
    is bounded by the number of events; it can only get stuck on a table that an
    outer scan holds, which needs a cycle of dispatchers. *)

From S2P Require Import Base Collections SysCall Ipc IpcFacts.
Local Open Scope Z_scope.
Local Open Scope h2o_scope.

Section notify.
Context {Q : Type → Type} `{SQ : SegQueue Q} `{P : Profile} `{K : Kept}.
Implicit Types (w : world (Q:=Q)) (d : Dispatcher (Q:=Q)) (x : waiter (Q:=Q)).

(** ** The measure: events on which SIG_READ is not set *)

Definition unread (kv : nat * EventData) : Prop := Z.lor (signal (snd kv)) SIG_READ ≠ signal (snd kv).
#[local] Instance unread_dec kv : Decision (unread kv).
Proof. unfold unread. apply _. Defined.

Definition unread_set w : gset nat := dom (filter unread (events w)).
Definition measure w : nat := size (unread_set w).

Lemma elem_of_unread w e :
  e ∈ unread_set w ↔ ∃ a, events w !! e = Some a ∧ Z.lor (signal a) SIG_READ ≠ signal a.
Proof.
  unfold unread_set. rewrite elem_of_dom. split.
  - intros [a [Ha Hu]%map_lookup_filter_Some]. eauto.
  - intros (a & Ha & Hu). exists a. by apply map_lookup_filter_Some.
Qed.

Lemma measure_le_size w : (measure w ≤ size (events w))%nat.
Proof.
  unfold measure, unread_set. rewrite <- (size_dom (D:=gset nat) (events w)). apply subseteq_size.
  intros e [a [Ha _]%map_lookup_filter_Some]%elem_of_dom. apply elem_of_dom. eauto.
Qed.

Lemma measure_evolves B w w' : evolves B w w' → (measure w' ≤ measure w)%nat.
Proof.
  intros He. unfold measure. apply subseteq_size. intros e (a' & Ha' & Hu)%elem_of_unread. apply elem_of_unread.
  destruct (evolves_back_event _ _ _ _ _ He Ha') as (a & Ha & _ & Hs). exists a. split; [done|].
  destruct Hs as [Hs|Hs]; rewrite Hs in Hu; [done|].
  by rewrite <- Z.lor_assoc, Z.lor_diag in Hu.
Qed.

Lemma measure_set_read w e a :
  events w !! e = Some a → Z.lor (signal a) SIG_READ ≠ signal a →
  (measure (World (<[e := MkEvent (Z.lor (signal a) SIG_READ) (waiters a)]> (events w)) (wobjs w)) < measure w)%nat.
Proof.
  intros Ha Hu. unfold measure. apply subset_size. split.
  - intros f (b & Hb & Hub)%elem_of_unread. cbn in Hb. apply elem_of_unread.
    destruct (decide (f = e)) as [->|Hne].
    + rewrite lookup_insert_eq in Hb. simplify_eq. cbn in Hub. by rewrite <- Z.lor_assoc, Z.lor_diag in Hub.
    + rewrite lookup_insert_ne in Hb by done. eauto.
  - intros Hsub. assert (e ∈ unread_set w) as He by (apply elem_of_unread; eauto).
    apply Hsub, elem_of_unread in He as (b & Hb & Hub). cbn in Hb. rewrite lookup_insert_eq in Hb.
    simplify_eq. cbn in Hub. by rewrite <- Z.lor_assoc, Z.lor_diag in Hub.
Qed.

(** ** Cycles *)

(** Dispatchers are ranked when each is below the events it waits on. *)
Definition ranked (rank : nat → nat) w : Prop :=
  ∀ e a i d, events w !! e = Some a → i ∈ waiters a → wobjs w !! i = Some (WDispatcher d) →
    (rank (devent d) < rank e)%nat.

Definition cyclic (B : list nat) (e : nat) w : Prop :=
  ∀ rank, ranked rank w → (∀ b, b ∈ B → (rank e < rank b)%nat) → False.

Lemma ranked_evolves rank B w w' : evolves B w w' → ranked rank w → ranked rank w'.
Proof.
  intros He Hr e a' i d Ha' Hi Hd.
  destruct (evolves_back_event _ _ _ _ _ He Ha') as (a & Ha & Hw & _).
  destruct (evolves_back_wobj _ _ _ _ _ He Hd) as ([] & Hx & Hle); [done|].
  destruct Hle as (_ & -> & _). eauto.
Qed.

(** ** What the nested calls promise *)

Definition nested_ok (nf : nat → Z → Z → ipc Z) (B : list nat) (n : nat) : Prop :=
  ∀ e w, inv B w → (measure w < n)%nat → kept e → is_Some (events w !! e) →
    post (nf e 0 SIG_READ) w (λ _ w', inv B w' ∧ evolves B w w') (cyclic B e w).

(** A waiter that was removed from a table has been served. *)
Definition settled w w' (i : nat) : Prop :=
  ∀ x, wobjs w !! i = Some x →
    match x with
    | WBlocker b => ∃ b', wobjs w' !! i = Some (WBlocker b') ∧ notified b b'
    | WDispatcher d => ∃ d', wobjs w' !! i = Some (WDispatcher d') ∧ pending d' = []
    end.

Lemma settled_evolves_r B w w' w'' i : settled w w' i → evolves B w' w'' → settled w w'' i.
Proof.
  intros Hs He x Hx. specialize (Hs x Hx). destruct x as [b|d].
  - destruct Hs as (b' & Hb' & Hn). destruct (ev_wobj _ _ _ He _ _ Hb') as ([b''|] & Hb'' & Hle); [|done].
    exists b''. split; [done|]. by apply (notified_le _ b').
  - destruct Hs as (d' & Hd' & Hn). destruct (ev_wobj _ _ _ He _ _ Hd') as ([|d''] & Hd'' & Hle); [done|].
    exists d''. split; [done|]. destruct Hle as (_ & _ & _ & Hp & _).
    destruct (pending d'') as [|r rs]; [done|]. exfalso.
    specialize (Hp r (list_elem_of_here _ _)). rewrite Hn in Hp. by apply not_elem_of_nil in Hp.
Qed.

Lemma settled_evolves_l B w w' w'' i : evolves B w w' → settled w' w'' i → settled w w'' i.
Proof.
  intros He Hs x Hx. destruct (ev_wobj _ _ _ He _ _ Hx) as (x' & Hx' & Hle). specialize (Hs x' Hx').
  destruct x as [b|d], x' as [b'|d']; try done.
  destruct Hs as (b'' & Hb'' & Hn). exists b''. split; [done|].
  destruct Hle as (_ & _ & _ & [->|[_ Hl]]); [done|]. destruct Hn. split; [done|]. lia.
Qed.

(** What [try_on_notify] leaves behind when the waiter stays or goes. *)
Definition served w w' (i e : nat) (s : Z) (gone : bool) : Prop :=
  if gone then settled w w' i else ∀ x', wobjs w' !! i = Some x' → ¬ serves x' e s.

Lemma try_on_notify_ok nf B n w i x e s :
  nested_ok nf B n → inv B w → (measure w < n)%nat → wobjs w !! i = Some x →
  post (try_on_notify nf i e s false) w
    (λ gone w', inv B w' ∧ evolves B w w' ∧ served w w' i e s gone)
    (∃ d, x = WDispatcher d ∧ cyclic B (devent d) w).
Proof.
  intros Hnf Hinv Hm Hx. unfold try_on_notify. apply post_bind. eapply post_get_waiter; [done|].
  destruct x as [b|d].
  - rewrite can_signal_false. destruct (satisfied _ s) eqn:Hs; unfold post.
    + set (x' := WBlocker (blocker_set b true s)).
      assert (waiter_le (WBlocker b) x') as Hle.
      { cbn. split_and!; [done..|]. right. split; [done|]. cbn. rewrite length_app. cbn. lia. }
      pose proof (evolves_set_waiter B w i _ _ Hx Hle) as Hev. cbn.
      split; [by eapply inv_evolves_waiters; eauto|]. split; [done|].
      intros y Hy. simplify_eq. exists (blocker_set b true s). split; [apply lookup_insert_eq|].
      split; [done|]. cbn. rewrite length_app. cbn. lia.
    + cbn. split; [done|]. split; [apply evolves_refl|]. intros x' Hx'. simplify_eq. cbn. by rewrite Hs.
  - destruct (capacity d <=? sq_len (ready d)) eqn:Hfull.
    + cbn. split; [done|]. split; [apply evolves_refl|]. intros x' Hx'. simplify_eq.
      apply disp_full in Hfull; [|by eapply inv_disp; eauto].
      cbn. rewrite Hfull. intros (r & Hr & _). by apply not_elem_of_nil in Hr.
    + set (d' := disp_drain d e s false false). apply post_bind.
      pose proof (evolves_set_waiter B w i _ (WDispatcher d') Hx (disp_drain_le d e s false false)) as Hev.
      change (post (modify ?f) w ?Φ ?C) with (Φ () (f w)). cbv beta.
      set (w1 := World (events w) (<[i := WDispatcher d']> (wobjs w))) in *.
      assert (inv B w1) as Hinv1 by (by eapply inv_evolves_waiters; eauto).
      assert (wobjs w1 !! i = Some (WDispatcher d')) as Hd1 by apply lookup_insert_eq.
      apply post_bind.
      apply (post_mono _ _ (λ _ w', inv B w' ∧ evolves B w1 w') _ (cyclic B (devent d) w1)).
      * destruct (negb _).
        -- apply Hnf; [done| | |]; [apply measure_evolves in Hev; lia|by apply (inv_own _ _ Hinv1 i d')|].
           by apply (inv_devent _ _ Hinv1 i d').
        -- cbn. split; [done|apply evolves_refl].
      * intros _ w' [Hinv' Hev']. cbn. split; [done|]. split; [by eapply evolves_trans|].
        change (served w w' i e s (is_nil (pending d'))). unfold served.
        destruct (is_nil (pending d')) eqn:Hn.
        -- apply is_nil_true in Hn. apply (settled_evolves_r B _ w1); [|done].
           intros y Hy. simplify_eq. eauto.
        -- intros x' Hx' Hs. destruct (evolves_back_wobj _ _ _ _ _ Hev' Hx') as (y & Hy & Hle).
           rewrite Hd1 in Hy. simplify_eq. eapply disp_drain_unserved; [done|]. by eapply serves_le.
      * intros Hc. exists d. split; [done|]. intros rank Hr. apply (Hc rank). by eapply ranked_evolves.
Qed.

(** The waiters of [a] that stay are not served by [s]; the others were. *)
Lemma retain_ok nf e B n a s ws w :
  nested_ok nf (e :: B) n → inv (e :: B) w → (measure w < n)%nat →
  events w !! e = Some a → (∀ i, i ∈ ws → i ∈ waiters a) →
  post (retain nf e s ws) w
    (λ keep w', inv (e :: B) w' ∧ evolves (e :: B) w w' ∧
      (∀ i, i ∈ keep → i ∈ ws ∧ served w w' i e s false) ∧
      (∀ i, i ∈ ws → i ∉ keep → served w w' i e s true))
    (cyclic B e w).
Proof.
  intros Hnf. revert w. induction ws as [|i ws IH]; intros w Hinv Hm Ha Hws.
  { cbn. split; [done|]. split; [apply evolves_refl|]. split; intros i Hi; by apply not_elem_of_nil in Hi. }
  cbn [retain]. apply post_bind.
  assert (i ∈ waiters a) as Hi by apply Hws, list_elem_of_here.
  destruct (inv_waiters _ _ Hinv _ _ _ Ha Hi) as [x Hx].
  eapply post_mono; [by eapply try_on_notify_ok| |].
  2:{ intros (d & -> & Hc) rank Hr Hb. apply (Hc rank Hr). intros b [->|Hb']%elem_of_cons; [by eapply Hr|].
      transitivity (rank e); [by eapply Hr|by apply Hb]. }
  intros gone w1 (Hinv1 & Hev1 & Hserv). apply post_bind.
  pose proof (measure_evolves _ _ _ Hev1).
  assert (events w1 !! e = Some a) as Ha1 by (rewrite (ev_busy _ _ _ Hev1); [done|apply list_elem_of_here]).
  eapply post_mono; [apply IH; [done|lia|done|]|..].
  { intros j Hj. by apply Hws, list_elem_of_further. }
  2:{ intros Hc rank Hr. apply (Hc rank). by eapply ranked_evolves. }
  intros keep w2 (Hinv2 & Hev2 & Hkeep & Hgone). cbn.
  split; [done|]. split; [by eapply evolves_trans|].
  assert (∀ j x', wobjs w2 !! j = Some x' → serves x' e s → ∃ y, wobjs w1 !! j = Some y ∧ serves y e s) as Hback.
  { intros j x' Hx' Hs'. destruct (evolves_back_wobj _ _ _ _ _ Hev2 Hx') as (y & Hy & Hle).
    eauto using serves_le. }
  assert (∀ j, j ∈ ws → j ∉ keep → served w w2 j e s true) as Hgone'.
  { intros j Hj Hk. eapply settled_evolves_l; [exact Hev1|]. by apply Hgone. }
  destruct gone.
  - split.
    + intros j Hj. destruct (Hkeep j Hj) as [Hj' Hs']. split; [by apply list_elem_of_further|done].
    + intros j [->|Hj]%elem_of_cons Hk; [|by apply Hgone'].
      by eapply settled_evolves_r.
  - split.
    + intros j [->|Hj]%elem_of_cons.
      * split; [apply list_elem_of_here|]. intros x' Hx' Hs'.
        destruct (Hback _ _ Hx' Hs') as (y & Hy & Hs''). by apply (Hserv y).
      * destruct (Hkeep j Hj) as [Hj' Hs']. split; [by apply list_elem_of_further|done].
    + intros j [->|Hj]%elem_of_cons Hk; [by destruct Hk; apply list_elem_of_here|].
      apply Hgone'; [done|]. intros ?. apply Hk. by apply list_elem_of_further.
Qed.

(** ** One event *)

Definition with_event w (e : nat) (a : EventData) : world :=
  World (<[e := a]> (events w)) (wobjs w).

Lemma inv_set_signal B w e a s :
  inv B w → events w !! e = Some a → inv (e :: B) (with_event w e (MkEvent s (waiters a))).
Proof.
  intros Hinv Ha.
  assert (∀ f b, events (with_event w e (MkEvent s (waiters a))) !! f = Some b →
    ∃ c, events w !! f = Some c ∧ waiters c = waiters b ∧ (f ≠ e → c = b)) as Hl.
  { intros f b Hb. cbn in Hb. destruct (decide (f = e)) as [->|Hne].
    - rewrite lookup_insert_eq in Hb. simplify_eq. exists a. done.
    - rewrite lookup_insert_ne in Hb by done. eauto. }
  split; cbn [wobjs with_event].
  - intros f b i Hb Hi. destruct (Hl _ _ Hb) as (c & Hc & Hw & _). rewrite <- Hw in Hi.
    by eapply inv_waiters.
  - intros i d Hd. cbn. apply lookup_insert_is_Some. destruct (decide (e = devent d)); [by left|right].
    split; [done|]. by eapply inv_devent.
  - intros i d. apply (inv_own _ _ Hinv).
  - intros i d. apply (inv_disp _ _ Hinv).
  - intros f Hf b i x Hb Hi Hx. apply not_elem_of_cons in Hf as [Hfe HfB].
    destruct (Hl _ _ Hb) as (c & Hc & _ & Heq). specialize (Heq Hfe) as ->.
    by eapply (inv_quiet _ _ Hinv f HfB).
  - intros i d r b Hd Hr Hk Hb. destruct (Hl _ _ Hb) as (c & Hc & <- & _). by eapply inv_reg.
Qed.

(** The table after the scan. *)
Lemma inv_set_waiters B w e a keep :
  inv (e :: B) w → events w !! e = Some a →
  (∀ i, i ∈ keep → i ∈ waiters a) →
  (∀ i x, i ∈ keep → wobjs w !! i = Some x → ¬ serves x e (signal a)) →
  (∀ i d, i ∈ waiters a → i ∉ keep → wobjs w !! i = Some (WDispatcher d) → pending d = []) →
  inv B (with_event w e (MkEvent (signal a) keep)).
Proof.
  intros Hinv Ha Hk Hs Hg.
  split; cbn [wobjs with_event].
  - intros f b i Hb Hi. cbn in Hb. destruct (decide (f = e)) as [->|Hne].
    + rewrite lookup_insert_eq in Hb. simplify_eq. eapply inv_waiters; eauto.
    + rewrite lookup_insert_ne in Hb by done. by eapply inv_waiters.
  - intros i d Hd. cbn. apply lookup_insert_is_Some. destruct (decide (e = devent d)); [by left|right].
    split; [done|]. by eapply inv_devent.
  - intros i d. apply (inv_own _ _ Hinv).
  - intros i d. apply (inv_disp _ _ Hinv).
  - intros f Hf b i x Hb Hi Hx. cbn in Hb. destruct (decide (f = e)) as [->|Hne].
    + rewrite lookup_insert_eq in Hb. simplify_eq. cbn in *. intros Hw%wants_serves. by eapply Hs.
    + rewrite lookup_insert_ne in Hb by done. eapply (inv_quiet _ _ Hinv); eauto.
      by apply not_elem_of_cons.
  - intros i d r b Hd Hr Hkr Hb. cbn in Hb. destruct (decide (revent r = e)) as [He|Hne].
    + rewrite He, lookup_insert_eq in Hb. simplify_eq. cbn.
      destruct (decide (i ∈ keep)); [done|]. exfalso.
      assert (i ∈ waiters a) as Hi by (by eapply inv_reg).
      rewrite (Hg i d) in Hr by done. by apply not_elem_of_nil in Hr.
    + rewrite lookup_insert_ne in Hb by done. by eapply inv_reg.
Qed.

Lemma evolves_set_waiters B w w' e a keep :
  evolves (e :: B) w w' → events w !! e = Some a → e ∉ B → (∀ i, i ∈ keep → i ∈ waiters a) →
  evolves B w (with_event w' e (MkEvent (signal a) keep)).
Proof.
  intros He Ha HB Hk. split; cbn.
  - apply He.
  - apply He.
  - intros f b Hb. destruct (decide (f = e)) as [->|Hne].
    + simplify_eq. rewrite lookup_insert_eq. eexists. split; [done|]. split; auto.
    + rewrite lookup_insert_ne by done. by apply (ev_event _ _ _ He).
  - intros f Hf. rewrite lookup_insert_ne; [by apply (ev_enone _ _ _ He)|]. intros ->. congruence.
  - intros f Hf. rewrite lookup_insert_ne by (intros ->; done).
    apply (ev_busy _ _ _ He). by apply list_elem_of_further.
  - intros f b b' Hkf Hb Hb'. destruct (decide (f = e)) as [->|Hne].
    + rewrite lookup_insert_eq in Hb'. by simplify_eq.
    + rewrite lookup_insert_ne in Hb' by done. by apply (ev_signal _ _ _ He f b b').
Qed.

(** What the scan after a change of the signal to [s] achieves. *)
Definition scanned w w' (e : nat) (a : EventData) (s : Z) : Prop :=
  ∃ keep, events w' !! e = Some (MkEvent s keep) ∧
    (∀ i, i ∈ keep → i ∈ waiters a ∧ ∀ x, wobjs w' !! i = Some x → ¬ serves x e s) ∧
    (∀ i, i ∈ waiters a → i ∉ keep → settled w w' i).

Lemma scan_ok nf B n w e a s :
  inv B w → events w !! e = Some a → e ∉ B → nested_ok nf (e :: B) n →
  (measure (with_event w e (MkEvent s (waiters a))) < n)%nat →
  post (ws ← retain nf e s (waiters a); _ ← set_event e (MkEvent s ws); mret s)
    (with_event w e (MkEvent s (waiters a)))
    (λ v w', v = s ∧ inv B w' ∧ evolves B (with_event w e (MkEvent s (waiters a))) w' ∧ scanned w w' e a s)
    (cyclic B e w).
Proof.
  intros Hinv Ha HB Hnf Hm. set (w1 := with_event w e (MkEvent s (waiters a))) in *.
  pose proof (inv_set_signal B w e a s Hinv Ha) as Hinv1. fold w1 in Hinv1.
  assert (events w1 !! e = Some (MkEvent s (waiters a))) as Ha1 by apply lookup_insert_eq.
  apply post_bind.
  eapply post_mono; [by eapply retain_ok|..].
  2:{ intros Hc rank Hr. apply (Hc rank). intros f b i d Hb Hi Hd. cbn in Hb.
      destruct (decide (f = e)) as [->|Hne].
      - rewrite lookup_insert_eq in Hb. simplify_eq. by eapply Hr.
      - rewrite lookup_insert_ne in Hb by done. by eapply Hr. }
  intros keep w2 (Hinv2 & Hev2 & Hkeep & Hgone).
  change (post _ w2 ?Φ ?C) with (Φ s (with_event w2 e (MkEvent s keep))). cbv beta.
  assert (events w2 !! e = Some (MkEvent s (waiters a))) as Ha2.
  { rewrite (ev_busy _ _ _ Hev2); [done|apply list_elem_of_here]. }
  split; [done|]. split; [|split].
  - eapply (inv_set_waiters B w2 e (MkEvent s (waiters a))); [done..| | |].
    + intros i Hi. by apply Hkeep.
    + intros i x Hi Hx. destruct (Hkeep i Hi) as [_ Hs]. by apply Hs.
    + intros i d Hi Hk Hd. specialize (Hgone i Hi Hk). cbn in Hgone.
      destruct (evolves_back_wobj _ _ _ _ _ Hev2 Hd) as ([|d0] & Hd0 & Hle); [done|].
      destruct (Hgone _ Hd0) as (d' & Hd' & Hp). by simplify_eq.
  - eapply (evolves_set_waiters B w1 w2 e (MkEvent s (waiters a))); [done..|].
    intros i Hi. by apply Hkeep.
  - exists keep. split; [apply lookup_insert_eq|]. split.
    + intros i Hi. destruct (Hkeep i Hi) as [Hi' Hs]. split; [done|]. intros x Hx. by apply Hs.
    + intros i Hi Hk. by apply Hgone.
Qed.

Lemma post_get {A} (k : world → ipc A) w Φ C : post (k w) w Φ C → post (get ≫= k) w Φ C.
Proof. done. Qed.

Lemma post_set_event {A} e a (k : () → ipc A) w Φ C :
  post (k ()) (with_event w e a) Φ C → post (set_event e a ≫= k) w Φ C.
Proof. done. Qed.

Lemma evolves_set_read B w e a :
  events w !! e = Some a → e ∉ B → kept e →
  evolves B w (with_event w e (MkEvent (Z.lor (signal a) SIG_READ) (waiters a))).
Proof.
  intros Ha HB Hk. split; cbn; try done.
  - intros i x Hx. eauto using waiter_le_refl.
  - intros f b Hb. destruct (decide (f = e)) as [->|Hne].
    + rewrite lookup_insert_eq. simplify_eq. eexists. split; [done|]. split; auto.
    + rewrite lookup_insert_ne by done. eauto using event_le_refl.
  - intros f Hf. rewrite lookup_insert_ne; [done|]. intros ->. congruence.
  - intros f Hf. rewrite lookup_insert_ne; [done|]. intros ->. done.
  - intros f b b' Hkf Hb Hb'. rewrite lookup_insert_ne in Hb' by (intros ->; done). by simplify_eq.
Qed.

(** The notification of a dispatcher's own event. *)
Lemma notify_nested fuel : ∀ B, nested_ok (notify fuel B) B fuel.
Proof.
  induction fuel as [|fuel IH]; intros B e w Hinv Hm Hk [a Ha]; [lia|].
  cbn [notify]. apply post_bind. eapply post_get_event; [done|].
  assert (next_signal (signal a) 0 SIG_READ = Z.lor (signal a) SIG_READ) as ->.
  { unfold next_signal. f_equal. apply Z.bits_inj'. intros i Hi. autorewrite with h2o_bits. apply andb_true_r. }
  destruct (Z.eqb_spec (signal a) (Z.lor (signal a) SIG_READ)) as [Heq|Hne].
  { cbn. split; [done|apply evolves_refl]. }
  apply post_set_event. destruct (Z.eqb_spec (Z.land (signal a) (Z.lor (signal a) SIG_READ))
    (Z.lor (signal a) SIG_READ)) as [Heq|_].
  { exfalso. apply Hne. rewrite <- Heq. symmetry. apply Z.bits_inj'. intros i Hi. autorewrite with h2o_bits.
    by destruct (Z.testbit (signal a) i). }
  case_bool_decide as HB.
  { cbn. intros rank Hr Hb. specialize (Hb e HB). lia. }
  pose proof (measure_set_read w e a Ha ltac:(done)) as Hm'. fold (with_event w e) in Hm'.
  pose proof (evolves_set_read B w e a Ha HB Hk) as Hev.
  eapply post_mono; [eapply (scan_ok _ B fuel); [done..|]|..|done].
  - unfold with_event. lia.
  - intros v w' (_ & Hinv' & Hev' & _). split; [done|]. by eapply evolves_trans.
Qed.

(** A notification from outside: the new signal, and either only bits were
    cleared and no waiter was touched, or the waiters were scanned. *)
Definition notify_result w w' (e : nat) (a : EventData) (s : Z) : Prop :=
  (Z.land (signal a) s = s ∧ w' = with_event w e (MkEvent s (waiters a))) ∨
  (Z.land (signal a) s ≠ s ∧ evolves [] (with_event w e (MkEvent s (waiters a))) w' ∧ scanned w w' e a s).

Lemma inv_clear w e a s :
  inv [] w → events w !! e = Some a → Z.land (signal a) s = s →
  inv [] (with_event w e (MkEvent s (waiters a))).
Proof.
  intros Hinv Ha Hs. destruct (inv_set_signal [] w e a s Hinv Ha) as [H1 H2 H0 H3 H4 H5].
  split; [done..| |done]. intros f _. destruct (decide (f = e)) as [->|Hne].
  - intros b i x Hb Hi Hx. cbn in Hb, Hx. rewrite lookup_insert_eq in Hb. simplify_eq. cbn.
    intros Hw. eapply (inv_quiet _ _ Hinv e); [by apply not_elem_of_nil|done..|].
    by eapply wants_sub.
  - apply H4. by apply not_elem_of_cons, conj, not_elem_of_nil.
Qed.

Lemma with_event_id w e a : events w !! e = Some a → with_event w e (MkEvent (signal a) (waiters a)) = w.
Proof.
  intros Ha. destruct w as [ev wo], a as [s ws]. unfold with_event. cbn in *. f_equal. by apply insert_id.
Qed.

Lemma event_notify_ok w e a clear set :
  inv [] w → events w !! e = Some a →
  post (event_notify e clear set) w
    (λ v w', v = next_signal (signal a) clear set ∧ inv [] w' ∧ notify_result w w' e a v)
    (∀ rank, ¬ ranked rank w).
Proof.
  intros Hinv Ha. unfold event_notify. apply post_get.
  unfold enough. cbn [notify Nat.add]. apply post_bind. eapply post_get_event; [done|].
  set (new := next_signal (signal a) clear set).
  destruct (Z.eqb_spec (signal a) new) as [Heq|Hne].
  { cbn. split; [done|]. split; [done|]. left. split; [apply Z.land_diag|].
    by rewrite with_event_id. }
  apply post_set_event. destruct (Z.eqb_spec (Z.land (signal a) new) new) as [Hsub|Hnsub].
  { cbn. split; [done|]. split; [by apply inv_clear|]. by left. }
  rewrite bool_decide_eq_false_2 by apply not_elem_of_nil.
  eapply post_mono.
  - eapply (scan_ok _ [] (S (size (events w)))); [done..| |apply notify_nested|].
    + apply not_elem_of_nil.
    + eapply Nat.le_lt_trans; [apply measure_le_size|]. cbn. rewrite map_size_insert_Some by eauto. lia.
  - intros v w' (-> & Hinv' & Hev' & Hsc). split; [done|]. split; [done|]. by right.
  - intros Hc rank Hr. apply (Hc rank Hr). intros b Hb. by apply not_elem_of_nil in Hb.
Qed.
End notify.
