(* ===== verification/IpcSpec.v ===== *)
(** * What events, blockers and dispatchers guarantee

    Every operation, run without interference, keeps the invariant of [IpcFacts];
    so in every reachable state no registered waiter sleeps through a level that is set,
    a dispatcher holds at most its capacity, and it stays registered for its requests
    unless their event is cancelled. The last part shows what can go wrong: cancellation, a dispatcher
    that waits on itself, and a notification between the two halves of a wait. *)

From S2P Require Import Base Collections SysCall Ipc IpcFacts IpcNotify.
Local Open Scope Z_scope.
Local Open Scope h2o_scope.

Section spec.
Context {Q : Type → Type} `{SQ : SegQueue Q} `{P : Profile} `{K : Kept}.
Implicit Types (w : world (Q:=Q)) (d : Dispatcher (Q:=Q)) (x : waiter (Q:=Q)).

Definition with_waiter w (i : nat) x : world := World (events w) (<[i := x]> (wobjs w)).

Lemma post_set_waiter {A} i x (k : () → ipc A) w Φ C :
  post (k ()) (with_waiter w i x) Φ C → post (set_waiter i x ≫= k) w Φ C.
Proof. done. Qed.

(** ** Changes that keep the invariant *)

Lemma inv_add_waiter w e a i x :
  inv [] w → events w !! e = Some a → wobjs w !! i = Some x → ¬ wants x e (signal a) →
  inv [] (with_event w e (MkEvent (signal a) (waiters a ++ [i]))).
Proof.
  intros Hinv Ha Hx Hw.
  assert (∀ f b, events (with_event w e (MkEvent (signal a) (waiters a ++ [i]))) !! f = Some b →
    ∃ c, events w !! f = Some c ∧ signal c = signal b ∧ (∀ j, j ∈ waiters c → j ∈ waiters b) ∧
      (∀ j, j ∈ waiters b → j ∈ waiters c ∨ f = e ∧ j = i)) as Hl.
  { intros f b Hb. cbn in Hb. destruct (decide (f = e)) as [->|Hne].
    - rewrite lookup_insert_eq in Hb. simplify_eq. exists a. cbn. split_and!; [done..| |]; intros j;
        rewrite elem_of_app, list_elem_of_singleton; tauto.
    - rewrite lookup_insert_ne in Hb by done. exists b. auto. }
  split; cbn [wobjs with_event].
  - intros f b j Hb Hj. destruct (Hl _ _ Hb) as (c & Hc & _ & _ & Hor).
    destruct (Hor j Hj) as [Hj'|[-> ->]]; [by eapply inv_waiters|eauto].
  - intros j d Hd. cbn. apply lookup_insert_is_Some. destruct (decide (e = devent d)); [by left|right].
    split; [done|]. by eapply inv_devent.
  - intros j d. apply (inv_own _ _ Hinv).
  - intros j d. apply (inv_disp _ _ Hinv).
  - intros f Hf b j y Hb Hj Hy. destruct (Hl _ _ Hb) as (c & Hc & <- & _ & Hor).
    destruct (Hor j Hj) as [Hj'|[-> ->]]; [|by cbn in Hy; simplify_eq].
    by eapply (inv_quiet _ _ Hinv f).
  - intros j d r b Hd Hr Hk Hb. destruct (Hl _ _ Hb) as (c & Hc & _ & Hin & _).
    apply Hin. by eapply inv_reg.
Qed.

Lemma inv_replace_disp w i d d' :
  inv [] w → wobjs w !! i = Some (WDispatcher d) → devent d' = devent d → disp_ok d' →
  (∀ e a, events w !! e = Some a → i ∈ waiters a → ¬ wants (WDispatcher d') e (signal a)) →
  (∀ r a, r ∈ pending d' → kept (revent r) → events w !! revent r = Some a → i ∈ waiters a) →
  inv [] (with_waiter w i (WDispatcher d')).
Proof.
  intros Hinv Hd Hdev Hok Hw Hreg. split; cbn [events with_waiter].
  - intros e a j Ha Hj. cbn. apply lookup_insert_is_Some. destruct (decide (i = j)); [by left|right].
    split; [done|]. by eapply inv_waiters.
  - intros j d0 Hd0. cbn in Hd0. destruct (decide (j = i)) as [->|Hne].
    + rewrite lookup_insert_eq in Hd0. simplify_eq. rewrite Hdev. by eapply inv_devent.
    + rewrite lookup_insert_ne in Hd0 by done. by eapply inv_devent.
  - intros j d0 Hd0. cbn in Hd0. destruct (decide (j = i)) as [->|Hne].
    + rewrite lookup_insert_eq in Hd0. simplify_eq. rewrite Hdev. by eapply inv_own.
    + rewrite lookup_insert_ne in Hd0 by done. by eapply inv_own.
  - intros j d0 Hd0. cbn in Hd0. destruct (decide (j = i)) as [->|Hne].
    + rewrite lookup_insert_eq in Hd0. by simplify_eq.
    + rewrite lookup_insert_ne in Hd0 by done. by eapply inv_disp.
  - intros e He a j y Ha Hj Hy. cbn in Ha, Hy. destruct (decide (j = i)) as [->|Hne].
    + rewrite lookup_insert_eq in Hy. simplify_eq. eauto.
    + rewrite lookup_insert_ne in Hy by done. by eapply (inv_quiet _ _ Hinv e).
  - intros j d0 r a Hd0 Hr Hk Ha. cbn in Hd0. destruct (decide (j = i)) as [->|Hne].
    + rewrite lookup_insert_eq in Hd0. simplify_eq. eauto.
    + rewrite lookup_insert_ne in Hd0 by done. by eapply inv_reg.
Qed.

(** A replacement with the same pending requests. *)
Lemma inv_same_pending w i d d' :
  inv [] w → wobjs w !! i = Some (WDispatcher d) → devent d' = devent d → pending d' = pending d →
  disp_ok d' → inv [] (with_waiter w i (WDispatcher d')).
Proof.
  intros Hinv Hd Hdev Hp Hok. eapply inv_replace_disp; [done..| |].
  - intros e a Ha Hi Hw. eapply (inv_quiet _ _ Hinv e); [apply not_elem_of_nil|done..|].
    cbn in Hw |- *. by rewrite <- Hp.
  - intros r a Hr. rewrite Hp in Hr. by eapply inv_reg.
Qed.

(** A new blocker, on which no table has an entry yet. *)
Lemma inv_new_blocker w i b :
  inv [] w → wobjs w !! i = None → inv [] (with_waiter w i (WBlocker b)).
Proof.
  intros Hinv Hi.
  assert (∀ j x, wobjs (with_waiter w i (WBlocker b)) !! j = Some x →
    wobjs w !! j = Some x ∨ j = i ∧ x = WBlocker b) as Hl.
  { intros j x Hx. cbn in Hx. destruct (decide (j = i)) as [->|Hne].
    - rewrite lookup_insert_eq in Hx. simplify_eq. by right.
    - rewrite lookup_insert_ne in Hx by done. by left. }
  split; cbn [events with_waiter].
  - intros e a j Ha Hj. cbn. apply lookup_insert_is_Some. destruct (decide (i = j)); [by left|right].
    split; [done|]. by eapply inv_waiters.
  - intros j d [Hd|[_ ?]]%Hl; [by eapply inv_devent|done].
  - intros j d [Hd|[_ ?]]%Hl; [by eapply inv_own|done].
  - intros j d [Hd|[_ ?]]%Hl; [by eapply inv_disp|done].
  - intros e He a j x Ha Hj [Hx|[-> ->]]%Hl; [by eapply (inv_quiet _ _ Hinv e)|].
    destruct (inv_waiters _ _ Hinv _ _ _ Ha Hj) as [y Hy]. congruence.
  - intros j d r a [Hd|[_ ?]]%Hl; [by eapply inv_reg|done].
Qed.

Lemma inv_remove_blocker w e a i b :
  inv [] w → events w !! e = Some a → wobjs w !! i = Some (WBlocker b) →
  inv [] (with_event w e (MkEvent (signal a) (filter (λ j, j ≠ i) (waiters a)))).
Proof.
  intros Hinv Ha Hb.
  assert (∀ f c, events (with_event w e (MkEvent (signal a) (filter (λ j, j ≠ i) (waiters a)))) !! f = Some c →
    ∃ c0, events w !! f = Some c0 ∧ signal c0 = signal c ∧ (∀ j, j ∈ waiters c → j ∈ waiters c0) ∧
      (∀ j, j ∈ waiters c0 → j ≠ i → j ∈ waiters c)) as Hl.
  { intros f c Hc. cbn in Hc. destruct (decide (f = e)) as [->|Hne].
    - rewrite lookup_insert_eq in Hc. simplify_eq. exists a. cbn. split_and!; [done..| |]; intros j;
        rewrite list_elem_of_filter; tauto.
    - rewrite lookup_insert_ne in Hc by done. exists c. auto. }
  split; cbn [wobjs with_event].
  - intros f c j Hc Hj. destruct (Hl _ _ Hc) as (c0 & Hc0 & _ & Hin & _). eapply inv_waiters; eauto.
  - intros j d Hd. cbn. apply lookup_insert_is_Some. destruct (decide (e = devent d)); [by left|right].
    split; [done|]. by eapply inv_devent.
  - intros j d. apply (inv_own _ _ Hinv).
  - intros j d. apply (inv_disp _ _ Hinv).
  - intros f Hf c j y Hc Hj Hy. destruct (Hl _ _ Hc) as (c0 & Hc0 & <- & Hin & _).
    eapply (inv_quiet _ _ Hinv f); eauto.
  - intros j d r c Hd Hr Hk Hc. destruct (Hl _ _ Hc) as (c0 & Hc0 & _ & _ & Hin).
    apply Hin; [by eapply inv_reg|]. intros ->. congruence.
Qed.

Lemma ranked_replace rank w i d d' :
  wobjs w !! i = Some (WDispatcher d) → devent d' = devent d →
  ranked rank w → ranked rank (with_waiter w i (WDispatcher d')).
Proof.
  intros Hd Hdev Hr e a j d0 Ha Hj Hd0. cbn in Ha, Hd0. destruct (decide (j = i)) as [->|Hne].
  - rewrite lookup_insert_eq in Hd0. simplify_eq. rewrite Hdev. by eapply Hr.
  - rewrite lookup_insert_ne in Hd0 by done. by eapply Hr.
Qed.

(** ** Blockers *)

Lemma wait_insert_ok w e a i x :
  inv [] w → events w !! e = Some a → wobjs w !! i = Some x →
  (i ∉ waiters a → ¬ wants x e (signal a)) →
  post (wait_insert e i) w (λ _ w', inv [] w' ∧ wobjs w' = wobjs w) False.
Proof.
  intros Hinv Ha Hx Hw. unfold wait_insert. apply post_bind. eapply post_get_event; [done|].
  case_bool_decide as Hi; [done|]. cbn. split; [|done].
  change (inv [] (with_event w e (MkEvent (signal a) (waiters a ++ [i])))). eapply inv_add_waiter; eauto.
Qed.

Lemma blocker_new_ok w i e a level all mask :
  inv [] w → wobjs w !! i = None → events w !! e = Some a →
  post (blocker_new i e level all mask) w
    (λ _ w', inv [] w' ∧ ∃ b, wobjs w' !! i = Some (WBlocker b) ∧ wait_for (bdata b) = mask ∧
      (level = true → satisfied mask (signal a) = true → status b = (true, signal a))) False.
Proof.
  intros Hinv Hi Ha. unfold blocker_new. apply post_set_waiter.
  set (mode := if level then Level else Edge). set (b := MkBlocker all [] e (MkWaiterData mode mask) (true, 0)).
  pose proof (inv_new_blocker w i b Hinv Hi) as Hinv1. set (w1 := with_waiter w i (WBlocker b)) in *.
  assert (wobjs w1 !! i = Some (WBlocker b)) as Hb by apply lookup_insert_eq.
  unfold wait. apply post_bind. unfold wait_check. apply post_bind. eapply post_get_event; [done|].
  apply post_get. unfold try_on_notify. apply post_bind. eapply post_get_waiter; [done|]. cbv beta iota.
  unfold can_signal. cbn [trigger_mode bdata b wait_for].
  assert (bool_decide (mode = Edge) = negb level) as -> by (unfold mode; by destruct level).
  destruct level; cbn [andb negb].
  - destruct (satisfied mask (signal a)) eqn:Hs.
    + apply post_set_waiter. unfold post. cbn [mret st_ret].
      assert (evolves [] w1 (with_waiter w1 i (WBlocker (blocker_set b true (signal a))))) as Hev.
      { eapply evolves_set_waiter; [done|]. cbn. split_and!; [done..|]. right. split; [done|]. cbn. lia. }
      split; [by eapply inv_evolves_waiters; eauto|]. eexists. split; [apply lookup_insert_eq|]. done.
    + apply post_ret. eapply post_mono; [apply (wait_insert_ok w1 e a i (WBlocker b) Hinv1 Ha Hb); cbn; rewrite Hs; by intros _ [_ ?]| |done].
      intros _ w' [Hinv' Hw']. split; [done|]. rewrite Hw'. eexists. split; [done|]. split; [done|congruence].
  - apply post_ret. eapply post_mono; [apply (wait_insert_ok w1 e a i (WBlocker b) Hinv1 Ha Hb); cbn; by intros _ [? _]| |done].
    intros _ w' [Hinv' Hw']. split; [done|]. rewrite Hw'. eexists. split; [done|]. split; [done|congruence].
Qed.

Lemma detach_ok w i b :
  inv [] w → wobjs w !! i = Some (WBlocker b) →
  post (detach i) w (λ _ w', inv [] w') (∀ rank, ¬ ranked rank w).
Proof.
  intros Hinv Hb. unfold detach. apply post_bind. eapply post_get_waiter; [done|]. apply post_get.
  destruct (events w !! bevent b) as [a|] eqn:Ha; [|done].
  apply post_bind. unfold unwait. apply post_bind. eapply post_get_event; [done|]. apply post_set_event.
  apply post_ret. apply post_bind.
  set (w1 := with_event w _ _).
  assert (inv [] w1) as Hinv1 by (by eapply inv_remove_blocker).
  assert (events w1 !! bevent b = Some (MkEvent (signal a) (filter (λ j, j ≠ i) (waiters a)))) as Ha1
    by apply lookup_insert_eq.
  destruct (_ && _); [|done].
  eapply post_mono; [by eapply event_notify_ok|by intros v w' (_ & ? & _)|].
  intros Hc rank Hr. apply (Hc rank). intros f c j d Hf Hj Hd. cbn in Hf.
  destruct (decide (f = bevent b)) as [->|Hne].
  - rewrite lookup_insert_eq in Hf. simplify_eq. cbn in Hj. apply list_elem_of_filter in Hj as [_ Hj].
    by eapply Hr.
  - rewrite lookup_insert_ne in Hf by done. by eapply Hr.
Qed.

(** ** Dispatchers *)

Definition push_req d (r : Request) : Dispatcher :=
  MkDispatcher (next_key d) (devent d) (capacity d) (pending d ++ [r]) (ready d).

Lemma push_req_ok d r :
  disp_ok d → Z.of_nat (length (requests d)) < capacity d → disp_ok (push_req d r).
Proof.
  intros [H1 H2] Hl. split; [done|]. unfold requests in *. cbn. rewrite !length_app in *. cbn. lia.
Qed.

Lemma room_not_full d :
  Z.of_nat (length (requests d)) < capacity d → (capacity d <=? sq_len (ready d)) = false.
Proof.
  intros Hl. apply Z.leb_gt. rewrite sq_len_elems. unfold requests in Hl.
  rewrite length_app, length_fmap in Hl. lia.
Qed.

(** The dispatcher after a push, with the request registered or drained. *)
Lemma inv_push w i d d' e a r :
  inv [] w → wobjs w !! i = Some (WDispatcher d) → events w !! e = Some a → revent r = e →
  devent d' = devent d → disp_ok d' →
  (∀ r', r' ∈ pending d' → r' ∈ pending d ∨
    r' = r ∧ (kept e → i ∈ waiters a) ∧ ¬ (trigger_mode (rdata r) = Level ∧ satisfied (wait_for (rdata r)) (signal a) = true)) →
  inv [] (with_waiter w i (WDispatcher d')).
Proof.
  intros Hinv Hd Ha He Hdev Hok Hp. eapply inv_replace_disp; [done..| |].
  - intros f b Hb Hi (r' & Hr' & Hf & Hl & Hs). destruct (Hp r' Hr') as [Hr|(-> & _ & Hn)].
    + eapply (inv_quiet _ _ Hinv f); [apply not_elem_of_nil|done..|]. exists r'. done.
    + simplify_eq. by apply Hn.
  - intros r' b Hr' Hk Hb. destruct (Hp r' Hr') as [Hr|(-> & Hi & _)]; [by eapply inv_reg|]. simplify_eq. by apply Hi.
Qed.

(** Nothing pending on [e] can be served when the dispatcher is entered: on an event that
    is never cancelled nothing is pending, and on another one the level is looked at. *)
Lemma wait_insert_disp w e a i d :
  inv [] w → events w !! e = Some a → wobjs w !! i = Some (WDispatcher d) →
  (¬ kept e → ¬ wants (WDispatcher d) e (signal a)) →
  post (wait_insert e i) w (λ _ w', inv [] w' ∧ wobjs w' = wobjs w) False.
Proof.
  intros Hinv Ha Hd Hnk. eapply wait_insert_ok; [done..|].
  intros Hi Hw. destruct Hw as (r & Hr & He & Hw). apply Hnk; [|by exists r]. intros Hk. apply Hi.
  eapply inv_reg; [done..| |]; by rewrite He.
Qed.

Lemma undrained_elem d r e s r' :
  r' ∈ undrained (push_req d r) e s true →
  (r' ∈ pending d ∨ r' = r) ∧ ¬ (revent r' = e ∧ can_signal (rdata r') s true = true).
Proof.
  unfold undrained. rewrite list_elem_of_filter. cbn [pending push_req].
  rewrite elem_of_app, list_elem_of_singleton. tauto.
Qed.

Lemma drained_quiet d e s : drained d e s true = [] → ¬ wants (WDispatcher d) e s.
Proof.
  intros Hn (r & Hr & He & Hl & Hs). assert (r ∈ drained d e s true) as Hd; [|rewrite Hn in Hd; by apply not_elem_of_nil in Hd].
  apply list_elem_of_filter. split; [|done]. split; [done|]. unfold can_signal. by rewrite bool_decide_eq_false_2 by congruence.
Qed.

Lemma can_signal_level data s :
  trigger_mode data = Level → satisfied (wait_for data) s = true → can_signal data s true = true.
Proof. intros Hl Hs. unfold can_signal. by rewrite bool_decide_eq_false_2 by congruence. Qed.

(** Nothing is ready at once: the dispatcher stays in the table or enters it. *)
Lemma push_quiet_ok w i d e a r :
  inv [] w → wobjs w !! i = Some (WDispatcher d) → events w !! e = Some a → revent r = e →
  Z.of_nat (length (requests d)) < capacity d → drained (push_req d r) e (signal a) true = [] →
  post (wait_insert e i) (with_waiter w i (WDispatcher (push_req d r)))
    (λ _ w', inv [] w' ∧ wobjs w' !! i = Some (WDispatcher (push_req d r))) False.
Proof.
  intros Hinv Hd Ha He Hroom Hn.
  assert (disp_ok (push_req d r)) as Hok by (apply push_req_ok; [by eapply inv_disp|done]).
  assert (∀ r', r' ∈ pending (push_req d r) → r' ∈ undrained (push_req d r) e (signal a) true) as Hun.
  { intros r' Hr'. apply list_elem_of_filter. split; [|done]. intros Hc.
    assert (r' ∈ drained (push_req d r) e (signal a) true) as Hd' by (by apply list_elem_of_filter).
    rewrite Hn in Hd'. by apply not_elem_of_nil in Hd'. }
  assert (∀ w0 a0, inv [] w0 → wobjs w0 !! i = Some (WDispatcher d) → events w0 !! e = Some a0 →
    signal a0 = signal a → i ∈ waiters a0 → inv [] (with_waiter w0 i (WDispatcher (push_req d r)))) as Hpush.
  { intros w0 a0 Hinv0 Hd0 Ha0 Hs0 Hi0. eapply (inv_push w0 i d _ e a0 r); [done..|].
    intros r' Hr'. destruct (undrained_elem _ _ _ _ _ (Hun r' Hr')) as [[Hr| ->] Hnc]; [by left|right].
    split; [done|]. split; [done|]. rewrite Hs0. intros [Hl Hs]. apply Hnc. split; [done|].
    by apply can_signal_level. }
  unfold wait_insert. apply post_bind. eapply post_get_event; [done|].
  case_bool_decide as Hi; cbn.
  - split; [by eapply Hpush|apply lookup_insert_eq].
  - split; [|apply lookup_insert_eq].
    change (inv [] (with_waiter (with_event w e (MkEvent (signal a) (waiters a ++ [i]))) i (WDispatcher (push_req d r)))).
    eapply Hpush; [|done|apply lookup_insert_eq|done|].
    + eapply inv_add_waiter; [done..|]. intros (r' & Hr' & Hw). apply (drained_quiet _ _ _ Hn). exists r'.
      split; [cbn; apply elem_of_app; by left|done].
    + cbn. apply elem_of_app. right. by apply list_elem_of_singleton.
Qed.

(** Some request is ready at once. *)
Lemma push_drain_inv w i d e a r :
  inv [] w → wobjs w !! i = Some (WDispatcher d) → events w !! e = Some a → revent r = e →
  Z.of_nat (length (requests d)) < capacity d → drained (push_req d r) e (signal a) true ≠ [] →
  inv [] (with_waiter w i (WDispatcher (disp_drain (push_req d r) e (signal a) true false))).
Proof.
  intros Hinv Hd Ha He Hroom Hn. eapply (inv_push w i d _ e a r); [done..| |].
  { eapply disp_ok_le; [apply disp_drain_le|]. apply push_req_ok; [by eapply inv_disp|done]. }
  intros r' Hr'. destruct (undrained_elem _ _ _ _ _ Hr') as [[Hr| ->] Hnc]; [by left|right].
  split; [done|]. split.
  - destruct (drained (push_req d r) e (signal a) true) as [|r1 rs] eqn:Hdr; [done|].
    assert (r1 ∈ drained (push_req d r) e (signal a) true) as H1 by (rewrite Hdr; apply list_elem_of_here).
    apply list_elem_of_filter in H1 as [[He1 Hc1] Hr1]. cbn in Hr1.
    apply elem_of_app in Hr1 as [Hr1| ->%list_elem_of_singleton]; [|by destruct Hnc].
    intros Hk. eapply inv_reg; [done..| |]; by rewrite He1.
  - intros [Hl Hs]. apply Hnc. split; [done|]. by apply can_signal_level.
Qed.

Lemma push_wait_ok w i d e a r :
  inv [] w → wobjs w !! i = Some (WDispatcher d) → events w !! e = Some a → revent r = e →
  Z.of_nat (length (requests d)) < capacity d →
  post (wait e i) (with_waiter w i (WDispatcher (push_req d r)))
    (λ _ w', inv [] w' ∧ ∃ d', wobjs w' !! i = Some (WDispatcher d') ∧ disp_le (push_req d r) d')
    (∀ rank, ¬ ranked rank w).
Proof.
  intros Hinv Hd Ha He Hroom. set (d1 := push_req d r). set (w1 := with_waiter w i (WDispatcher d1)).
  assert (wobjs w1 !! i = Some (WDispatcher d1)) as Hd1 by apply lookup_insert_eq.
  unfold wait. apply post_bind. unfold wait_check. apply post_bind. eapply post_get_event; [done|].
  apply post_get. unfold try_on_notify. apply post_bind. eapply post_get_waiter; [done|]. cbv beta iota.
  change (capacity d1) with (capacity d). change (ready d1) with (ready d).
  rewrite room_not_full by done. apply post_set_waiter.
  set (d2 := disp_drain d1 e (signal a) true false).
  assert (with_waiter w1 i (WDispatcher d2) = with_waiter w i (WDispatcher d2)) as ->.
  { unfold w1, with_waiter. cbn. by rewrite insert_insert_eq. }
  destruct (decide (drained d1 e (signal a) true = [])) as [Hn|Hn].
  { rewrite Hn. apply post_bind, post_ret, post_ret.
    assert (d2 = d1) as -> by (by apply drained_nil).
    assert (is_nil (pending d1) = false) as -> by (cbn; by destruct (pending d)).
    eapply post_mono; [by apply (push_quiet_ok w i d e a r)| |done].
    intros _ w' [Hinv' Hw']. split; [done|]. exists d1. split; [done|apply disp_le_refl]. }
  pose proof (push_drain_inv w i d e a r Hinv Hd Ha He Hroom Hn) as Hinv2. fold d1 d2 in Hinv2.
  set (w2 := with_waiter w i (WDispatcher d2)) in *.
  assert (wobjs w2 !! i = Some (WDispatcher d2)) as Hd2 by apply lookup_insert_eq.
  assert (negb (is_nil (drained d1 e (signal a) true)) = true) as -> by (by destruct (drained _ _ _ _)).
  apply post_bind.
  eapply post_mono; [apply (notify_nested _ [] (devent d) w2 Hinv2)|..].
  - eapply Nat.le_lt_trans; [apply measure_le_size|]. unfold enough. cbn. lia.
  - by apply (inv_own _ _ Hinv i d).
  - by apply (inv_devent _ _ Hinv i).
  - intros _ w3 [Hinv3 Hev3]. apply post_ret.
    destruct (ev_wobj _ _ _ Hev3 _ _ Hd2) as ([|d3] & Hd3 & Hle3); [done|].
    assert (disp_le d1 d3) as Hle by (eapply disp_le_trans; [apply disp_drain_le|exact Hle3]).
    destruct (ev_event _ _ _ Hev3 e a Ha) as (a3 & Ha3 & _).
    destruct (is_nil (pending d2)); [apply post_ret; eauto|].
    eapply post_mono; [eapply wait_insert_disp; [done..|]| |done].
    + intros Hnk Hw%(wants_le (WDispatcher d2)); [|done]. rewrite (ev_signal _ _ _ Hev3 e a a3) in Hw by done.
      destruct Hw as (r' & Hr' & He' & Hl' & Hs'). destruct (undrained_elem _ _ _ _ _ Hr') as [_ Hnc].
      apply Hnc. split; [done|]. by apply can_signal_level.
    + intros _ w' [Hinv' Hw']. split; [done|]. exists d3. rewrite Hw'. done.
  - intros Hc rank Hr. apply (Hc rank); [by eapply ranked_replace|].
    intros b Hb. by apply not_elem_of_nil in Hb.
Qed.

Lemma disp_push_ok w i d e a data sys :
  inv [] w → wobjs w !! i = Some (WDispatcher d) → events w !! e = Some a →
  post (disp_push i e data sys) w
    (λ r w', inv [] w' ∧ ∃ d', wobjs w' !! i = Some (WDispatcher d') ∧
      match r with
      | inl err => err = ENOSPC ∧ Z.of_nat (length (requests d)) = capacity d ∧ requests d' = requests d
      | inr k => k = next_key d ∧ Z.of_nat (length (requests d)) < capacity d ∧
          requests d' ≡ₚ MkRequest k e data sys :: requests d
      end)
    (∀ rank, ¬ ranked rank w).
Proof.
  intros Hinv Hd Ha. pose proof (inv_disp _ _ Hinv _ _ Hd) as [Hc Hl].
  assert (Z.of_nat (length (requests d)) = Z.of_nat (length (pending d)) + sq_len (ready d)) as Hlen.
  { unfold requests. rewrite length_app, length_fmap, sq_len_elems. lia. }
  assert (0 ≤ sq_len (ready d)) as Hq by (rewrite sq_len_elems; lia).
  unfold disp_push. apply post_bind. unfold get_disp. apply post_bind. eapply post_get_waiter; [done|].
  apply post_ret. cbv zeta. apply post_set_waiter. cbn [capacity ready pending next_key devent].
  set (d0 := MkDispatcher (wrap W (next_key d + 1)) (devent d) (capacity d) (pending d) (ready d)).
  assert (inv [] (with_waiter w i (WDispatcher d0))) as Hinv0 by (by eapply inv_same_pending).
  set (w0 := with_waiter w i (WDispatcher d0)) in *.
  assert (wobjs w0 !! i = Some (WDispatcher d0)) as Hd0 by apply lookup_insert_eq.
  apply post_bind. rewrite usub_ok by lia. unfold lift. apply post_ret.
  destruct (Z.leb_spec (capacity d - sq_len (ready d)) (Z.of_nat (length (pending d)))) as [Hfull|Hroom].
  { apply post_ret. split; [done|]. exists d0. split; [done|]. split; [done|]. split; [lia|done]. }
  apply post_set_waiter. apply post_bind.
  set (r := MkRequest (next_key d) e data sys).
  eapply post_mono; [eapply (push_wait_ok w0 i d0 e a r); [done..|]|..].
  - change (requests d0) with (requests d). cbn. lia.
  - intros _ w' (Hinv' & d' & Hd' & Hle). apply post_ret. split; [done|]. exists d'. split; [done|].
    split; [done|]. split; [lia|]. destruct Hle as (_ & _ & _ & _ & _ & Hp). rewrite Hp.
    unfold requests. cbn. rewrite <- app_assoc. apply Permutation_sym, Permutation_middle.
  - intros Hc' rank Hr. apply (Hc' rank). by eapply ranked_replace.
Qed.

Lemma disp_pop_ok w i d :
  inv [] w → wobjs w !! i = Some (WDispatcher d) →
  post (disp_pop i) w
    (λ r w', inv [] w' ∧
      match sq_elems (ready d), r with
      | [], None => w' = w
      | x :: xs, Some (k, s, (c, sys)) =>
          k = key (request x) ∧ s = rsignal x ∧ c = canceled x ∧
          sys = (if canceled x then None else syscall (request x))
      | _, _ => False
      end)
    (∀ rank, ¬ ranked rank w).
Proof.
  intros Hinv Hd. pose proof (inv_disp _ _ Hinv _ _ Hd) as Hok.
  unfold disp_pop. apply post_bind. unfold get_disp. apply post_bind. eapply post_get_waiter; [done|].
  apply post_ret. destruct (sq_elems (ready d)) as [|x xs] eqn:Hel.
  { destruct (sq_pop_nil _ Hel) as [Hp _]. destruct (sq_pop (ready d)) as [o q]. cbn in Hp. subst o.
    apply post_ret. done. }
  destruct (sq_pop_cons _ _ _ Hel) as [Hp Hxs]. destruct (sq_pop (ready d)) as [o q]. cbn in Hp, Hxs. subst o.
  apply post_set_waiter. apply post_bind.
  set (d' := MkDispatcher _ _ _ _ q).
  assert (inv [] (with_waiter w i (WDispatcher d'))) as Hinv'.
  { eapply inv_same_pending; [done..|]. destruct Hok as [H1 H2]. split; [done|].
    unfold requests in *. cbn. rewrite Hel, !length_app, !length_fmap in *. rewrite Hxs. cbn in *. lia. }
  destruct (inv_devent _ _ Hinv i d Hd) as [a Ha].
  eapply post_mono; [by eapply (event_notify_ok _ (devent d) a)|..].
  - intros v w' (_ & Hinv'' & _). apply post_ret. split; [done|]. by destruct (canceled x).
  - intros Hc rank Hr. apply (Hc rank). by eapply ranked_replace.
Qed.

(** ** Reachable states *)

(** One completed operation. A new event is not at the address of one that a
    pending request still refers to, since the weak reference keeps it allocated. *)
Inductive step w : world → Prop :=
  | step_new_event e s : events w !! e = None →
      (∀ i d r, wobjs w !! i = Some (WDispatcher d) → r ∈ pending d → revent r ≠ e) →
      step w (with_event w e (event_new s))
  | step_new_disp i e cap : wobjs w !! i = None → is_Some (events w !! e) → kept e → 0 ≤ cap < 2 ^ 64 →
      step w (with_waiter w i (WDispatcher (disp_new e cap)))
  | step_notify e c s v w' : is_Some (events w !! e) →
      event_notify e c s w = (Ok v, w') → step w w'
  | step_block i e level all mask u w' : wobjs w !! i = None → is_Some (events w !! e) →
      blocker_new i e level all mask w = (Ok u, w') → step w w'
  | step_detach i b v w' : wobjs w !! i = Some (WBlocker b) →
      detach i w = (Ok v, w') → step w w'
  | step_push i d e data sys v w' : wobjs w !! i = Some (WDispatcher d) → is_Some (events w !! e) →
      disp_push i e data sys w = (Ok v, w') → step w w'
  | step_pop i d v w' : wobjs w !! i = Some (WDispatcher d) →
      disp_pop i w = (Ok v, w') → step w w'
  | step_cancel e w' : is_Some (events w !! e) → ¬ kept e → cancel e w = (Ok (), w') → step w w'
  | step_drop_event e : (∀ i d, wobjs w !! i = Some (WDispatcher d) → devent d ≠ e) →
      step w (World (delete e (events w)) (wobjs w))
  | step_drop_waiter i : (∀ e a, events w !! e = Some a → i ∉ waiters a) →
      step w (World (events w) (delete i (wobjs w))).

Lemma post_ok {A} (m : ipc A) w Φ C a w' : post m w Φ C → m w = (Ok a, w') → Φ a w'.
Proof. unfold post. intros H E. by rewrite E in H. Qed.

Lemma inv_new_event w e s :
  inv [] w → events w !! e = None →
  (∀ i d r, wobjs w !! i = Some (WDispatcher d) → r ∈ pending d → revent r ≠ e) →
  inv [] (with_event w e (event_new s)).
Proof.
  intros Hinv He Hfresh.
  assert (∀ f b, events (with_event w e (event_new s)) !! f = Some b →
    events w !! f = Some b ∨ f = e ∧ waiters b = []) as Hl.
  { intros f b Hb. cbn in Hb. destruct (decide (f = e)) as [->|Hne].
    - rewrite lookup_insert_eq in Hb. simplify_eq. by right.
    - rewrite lookup_insert_ne in Hb by done. by left. }
  split; cbn [wobjs with_event].
  - intros f b i [Hb|[-> Hb]]%Hl Hi; [by eapply inv_waiters|]. rewrite Hb in Hi. by apply not_elem_of_nil in Hi.
  - intros i d Hd. cbn. apply lookup_insert_is_Some. destruct (decide (e = devent d)); [by left|right].
    split; [done|]. by eapply inv_devent.
  - intros i d. apply (inv_own _ _ Hinv).
  - intros i d. apply (inv_disp _ _ Hinv).
  - intros f Hf b i x [Hb|[-> Hb]]%Hl Hi Hx; [by eapply (inv_quiet _ _ Hinv f)|].
    rewrite Hb in Hi. by apply not_elem_of_nil in Hi.
  - intros i d r b Hd Hr Hk [Hb|[Heq Hb]]%Hl; [by eapply inv_reg|]. by destruct (Hfresh i d r Hd Hr).
Qed.

Lemma inv_new_disp w i e cap :
  inv [] w → wobjs w !! i = None → is_Some (events w !! e) → kept e → 0 ≤ cap < 2 ^ 64 →
  inv [] (with_waiter w i (WDispatcher (disp_new e cap))).
Proof.
  intros Hinv Hi He Hke Hc.
  set (b := MkBlocker true [] 0%nat (MkWaiterData Edge 0) (true, 0)).
  pose proof (inv_new_blocker w i b Hinv Hi) as [H1 H2 H0 H3 H4 H5].
  assert (∀ j x, wobjs (with_waiter w i (WDispatcher (disp_new e cap))) !! j = Some x → j ≠ i →
    wobjs w !! j = Some x) as Hl.
  { intros j x Hx Hne. cbn in Hx. by rewrite lookup_insert_ne in Hx. }
  assert (∀ x, wobjs (with_waiter w i (WDispatcher (disp_new e cap))) !! i = Some x →
    x = WDispatcher (disp_new e cap)) as Hl'.
  { intros x Hx. cbn in Hx. rewrite lookup_insert_eq in Hx. by simplify_eq. }
  split; cbn [events with_waiter].
  - intros f a j Ha Hj. cbn. apply lookup_insert_is_Some. destruct (decide (i = j)); [by left|right].
    split; [done|]. by eapply inv_waiters.
  - intros j d Hd. destruct (decide (j = i)) as [->|Hne].
    + apply Hl' in Hd. by simplify_eq.
    + apply Hl in Hd; [|done]. by eapply inv_devent.
  - intros j d Hd. destruct (decide (j = i)) as [->|Hne].
    + apply Hl' in Hd. by simplify_eq.
    + apply Hl in Hd; [|done]. by eapply inv_own.
  - intros j d Hd. destruct (decide (j = i)) as [->|Hne].
    + apply Hl' in Hd. simplify_eq. split; [done|]. unfold requests. cbn. rewrite sq_new_elems. cbn. lia.
    + apply Hl in Hd; [|done]. by eapply inv_disp.
  - intros f Hf a j x Ha Hj Hx. destruct (decide (j = i)) as [->|Hne].
    + destruct (inv_waiters _ _ Hinv _ _ _ Ha Hj) as [y Hy]. congruence.
    + apply Hl in Hx; [|done]. by eapply (inv_quiet _ _ Hinv f).
  - intros j d r a Hd Hr Hk Ha. destruct (decide (j = i)) as [->|Hne].
    + apply Hl' in Hd. simplify_eq. by apply not_elem_of_nil in Hr.
    + apply Hl in Hd; [|done]. by eapply inv_reg.
Qed.

(** ** Cancellation *)

Lemma inv_set_blocker w i b b' : inv [] w → wobjs w !! i = Some (WBlocker b) → bdata b' = bdata b →
  inv [] (with_waiter w i (WBlocker b')).
Proof.
  intros Hinv Hb Hdata.
  assert (∀ j d, wobjs (with_waiter w i (WBlocker b')) !! j = Some (WDispatcher d) → wobjs w !! j = Some (WDispatcher d)) as Hl.
  { intros j d Hd. cbn in Hd. destruct (decide (j = i)) as [->|Hne]; [by rewrite lookup_insert_eq in Hd|by rewrite lookup_insert_ne in Hd]. }
  split; cbn [events with_waiter].
  - intros e a j Ha Hj. cbn. apply lookup_insert_is_Some. destruct (decide (i = j)); [by left|right].
    split; [done|]. by eapply inv_waiters.
  - intros j d Hd%Hl. by eapply inv_devent.
  - intros j d Hd%Hl. by eapply inv_own.
  - intros j d Hd%Hl. by eapply inv_disp.
  - intros e He a j y Ha Hj Hy. cbn in Ha, Hy. destruct (decide (j = i)) as [->|Hne].
    + rewrite lookup_insert_eq in Hy. simplify_eq. cbn. rewrite Hdata. exact (inv_quiet _ _ Hinv e He a i _ Ha Hj Hb).
    + rewrite lookup_insert_ne in Hy by done. by eapply (inv_quiet _ _ Hinv e).
  - intros j d r a Hd%Hl. by eapply inv_reg.
Qed.

Lemma on_cancel_ok n w i e s : inv [] w → (measure w < n)%nat → is_Some (wobjs w !! i) →
  post (on_cancel (notify n []) i e s) w
    (λ _ w', inv [] w' ∧ (measure w' ≤ measure w)%nat ∧ ∀ j, is_Some (wobjs w !! j) → is_Some (wobjs w' !! j)) True.
Proof.
  intros Hinv Hm [x Hx]. unfold on_cancel. apply post_bind. eapply post_get_waiter; [done|]. destruct x as [b|d].
  - split; [by eapply inv_set_blocker|]. split; [done|]. intros j Hj. cbn. apply lookup_insert_is_Some. destruct (decide (i = j)); [by left|by right].
  - pose proof (evolves_set_waiter [] w i _ (WDispatcher (disp_drain d e s false true)) Hx (disp_drain_le d e s false true)) as Hev.
    apply post_set_waiter. set (w1 := with_waiter w i _) in *. change (evolves [] w w1) in Hev. assert (inv [] w1) as Hinv1 by (by eapply inv_evolves_waiters; eauto).
    assert (wobjs w1 !! i = Some (WDispatcher (disp_drain d e s false true))) as Hd1 by apply lookup_insert_eq.
    pose proof (measure_evolves _ _ _ Hev). apply post_bind.
    apply (post_mono _ _ (λ _ w', inv [] w' ∧ evolves [] w1 w') _ (cyclic [] (devent d) w1)); [|clear Hinv1|done].
    + destruct (negb _); [|split; [done|apply evolves_refl]].
      apply notify_nested; [done|lia|by apply (inv_own _ _ Hinv1 _ _ Hd1)|by apply (inv_devent _ _ Hinv1 _ _ Hd1)].
    + intros _ w2 [Hinv2 Hev2]. apply post_ret. split; [done|]. pose proof (measure_evolves _ _ _ Hev2). split; [lia|].
      intros j [y Hy]. destruct (ev_wobj _ _ _ Hev j y Hy) as (z & Hz & _). destruct (ev_wobj _ _ _ Hev2 j z Hz) as (z' & -> & _). by eexists.
Qed.

Lemma cancel_loop_ok n e s ws : ∀ w, inv [] w → (measure w < n)%nat → (∀ i, i ∈ ws → is_Some (wobjs w !! i)) →
  post (cancel_loop (notify n []) e s ws) w (λ _ w', inv [] w') True.
Proof.
  induction ws as [|i ws IH]; intros w Hinv Hm Hws; [done|]. cbn [cancel_loop]. apply post_bind.
  eapply post_mono; [apply on_cancel_ok; [done..|apply Hws, list_elem_of_here]| |done].
  intros _ w1 (Hinv1 & Hm1 & Hj). apply IH; [done|lia|]. intros j Hjw. by apply Hj, Hws, list_elem_of_further.
Qed.

(** The waiters of an event that is cancelled are forgotten. *)
Lemma inv_forget w e a : inv [] w → events w !! e = Some a → ¬ kept e → inv [] (with_event w e (MkEvent (signal a) [])).
Proof.
  intros Hinv Ha Hnk.
  assert (∀ f b, events (with_event w e (MkEvent (signal a) [])) !! f = Some b → (f = e ∧ waiters b = []) ∨ (f ≠ e ∧ events w !! f = Some b)) as Hl.
  { intros f b Hb. cbn in Hb. destruct (decide (f = e)) as [->|Hne].
    - rewrite lookup_insert_eq in Hb. simplify_eq. by left.
    - rewrite lookup_insert_ne in Hb by done. by right. }
  split; cbn [wobjs with_event].
  - intros f b i Hb Hi. destruct (Hl _ _ Hb) as [[_ Hw]|[_ Hb']]; [|by eapply inv_waiters]. rewrite Hw in Hi. by apply not_elem_of_nil in Hi.
  - intros i d Hd. cbn. apply lookup_insert_is_Some. destruct (decide (e = devent d)); [by left|right]. split; [done|]. by eapply inv_devent.
  - intros i d. apply (inv_own _ _ Hinv).
  - intros i d. apply (inv_disp _ _ Hinv).
  - intros f Hf b i x Hb Hi Hx. destruct (Hl _ _ Hb) as [[_ Hw]|[_ Hb']]; [|by eapply (inv_quiet _ _ Hinv f)]. rewrite Hw in Hi. by apply not_elem_of_nil in Hi.
  - intros i d r b Hd Hr Hk Hb. destruct (Hl _ _ Hb) as [[He _]|[_ Hb']]; [by rewrite He in Hk|by eapply inv_reg].
Qed.

Lemma cancel_ok w e a : inv [] w → events w !! e = Some a → ¬ kept e → post (cancel e) w (λ _ w', inv [] w') True.
Proof.
  intros Hinv Ha Hnk. unfold cancel. apply post_bind. eapply post_get_event; [done|]. apply post_get. apply post_set_event.
  apply cancel_loop_ok; [by apply inv_forget| |].
  - eapply Nat.le_lt_trans; [apply measure_le_size|]. unfold enough. cbn. rewrite map_size_insert_Some by eauto. lia.
  - intros i Hi. exact (inv_waiters _ _ Hinv e a i Ha Hi).
Qed.

Lemma inv_drop_event w e : inv [] w → (∀ i d, wobjs w !! i = Some (WDispatcher d) → devent d ≠ e) →
  inv [] (World (delete e (events w)) (wobjs w)).
Proof.
  intros Hinv Hno. split; cbn [events wobjs].
  - intros f a i [_ Ha]%lookup_delete_Some. by eapply inv_waiters.
  - intros i d Hd. rewrite lookup_delete_ne by (intros ->; by eapply Hno). by eapply inv_devent.
  - intros i d. apply (inv_own _ _ Hinv).
  - intros i d. apply (inv_disp _ _ Hinv).
  - intros f Hf a i x Ha. cbn in Ha. apply lookup_delete_Some in Ha as [_ Ha]. by eapply (inv_quiet _ _ Hinv f).
  - intros i d r a Hd Hr Hk [_ Ha]%lookup_delete_Some. by eapply inv_reg.
Qed.

Lemma inv_drop_waiter w i : inv [] w → (∀ e a, events w !! e = Some a → i ∉ waiters a) →
  inv [] (World (events w) (delete i (wobjs w))).
Proof.
  intros Hinv Hno. split; cbn [events wobjs].
  - intros f a j Ha Hj. rewrite lookup_delete_ne by (intros ->; by eapply Hno). by eapply inv_waiters.
  - intros j d [_ Hd]%lookup_delete_Some. by eapply inv_devent.
  - intros j d [_ Hd]%lookup_delete_Some. by eapply inv_own.
  - intros j d [_ Hd]%lookup_delete_Some. by eapply inv_disp.
  - intros f Hf a j x Ha Hj Hx. cbn in Ha, Hx. apply lookup_delete_Some in Hx as [_ Hx]. by eapply (inv_quiet _ _ Hinv f).
  - intros j d r a [_ Hd]%lookup_delete_Some. by eapply inv_reg.
Qed.

Lemma step_inv w w' : step w w' → inv [] w → inv [] w'.
Proof.
  intros Hst Hinv. destruct Hst as [e s He Hf|i e cap Hi He Hk Hc|e c s v w' [a Ha] Hr|i e l al m u w' Hi [a Ha] Hr
    |i b v w' Hb Hr|i d e data sys v w' Hd [a Ha] Hr|i d v w' Hd Hr|e w' [a Ha] Hk Hr|e Hno|i Hno].
  - by apply inv_new_event.
  - by apply inv_new_disp.
  - apply (post_ok _ _ _ _ _ _ (event_notify_ok w e a c s Hinv Ha) Hr).
  - apply (post_ok _ _ _ _ _ _ (blocker_new_ok w i e a l al m Hinv Hi Ha) Hr).
  - apply (post_ok _ _ _ _ _ _ (detach_ok w i b Hinv Hb) Hr).
  - apply (post_ok _ _ _ _ _ _ (disp_push_ok w i d e a data sys Hinv Hd Ha) Hr).
  - apply (post_ok _ _ _ _ _ _ (disp_pop_ok w i d Hinv Hd) Hr).
  - apply (post_ok _ _ _ _ _ _ (cancel_ok w e a Hinv Ha Hk) Hr).
  - by apply inv_drop_event.
  - by apply inv_drop_waiter.
Qed.

Definition no_objects : world (Q:=Q) := World ∅ ∅.

Lemma ipc_reachable_inv w : rtc step no_objects w → inv [] w.
Proof.
  intros Hr. assert (inv [] no_objects) as Hinv.
  { split; cbn; intros *; by rewrite ?lookup_empty. }
  induction Hr; eauto using step_inv.
Qed.

(** C23: in every state reached by complete operations (creation and end of events,
    blockers and dispatchers, notification, cancellation, detaching, pushing and
    popping), no registered waiter asks for a level that its event already has, no
    dispatcher holds more requests than its capacity, and the dispatcher of each pending
    request is registered on the event of the request, if this event is never cancelled
    in the run (a cancellation forgets the requests it does not serve:
    [cancel_strands_requests]). *)
Theorem no_lost_wakeup w :
  rtc step no_objects w →
  (∀ e a i x, events w !! e = Some a → i ∈ waiters a → wobjs w !! i = Some x → ¬ wants x e (signal a)) ∧
  (∀ i d, wobjs w !! i = Some (WDispatcher d) → Z.of_nat (length (requests d)) ≤ capacity d) ∧
  (∀ i d r a, wobjs w !! i = Some (WDispatcher d) → r ∈ pending d → kept (revent r) →
    events w !! revent r = Some a → i ∈ waiters a).
Proof.
  intros Hinv%ipc_reachable_inv. split; [|split].
  - intros e a i x. by apply (inv_quiet _ _ Hinv e), not_elem_of_nil.
  - intros i d Hd. by apply (inv_disp _ _ Hinv i d).
  - apply Hinv.
Qed.

(** C28: a notification ends. It sets the signal as asked and keeps the
    invariant; when it sets a bit, every blocker registered on the event whose
    signals are then all set is woken. It can only be stuck when dispatchers wait
    on each other in a cycle. *)
Theorem notify_spec w e a clear set :
  inv [] w → events w !! e = Some a →
  post (event_notify e clear set) w
    (λ s w', s = next_signal (signal a) clear set ∧ inv [] w' ∧
      (∃ a', events w' !! e = Some a' ∧ signal a' = s) ∧
      (∀ i b, i ∈ waiters a → wobjs w !! i = Some (WBlocker b) → Z.land (signal a) s ≠ s →
        satisfied (wait_for (bdata b)) s = true →
        ∃ b', wobjs w' !! i = Some (WBlocker b') ∧ notified b b'))
    (∀ rank, ¬ ranked rank w).
Proof.
  intros Hinv Ha. eapply post_mono; [by eapply event_notify_ok| |done].
  intros s w' (-> & Hinv' & Hres). split; [done|]. split; [done|].
  destruct Hres as [[Hsub ->]|(_ & Hev & keep & Hk & Hkeep & Hgone)].
  - split; [eexists; split; [apply lookup_insert_eq|done]|]. done.
  - split; [eauto|]. intros i b Hi Hb _ Hs. destruct (decide (i ∈ keep)) as [Hin|Hin].
    + destruct (Hkeep i Hin) as [_ Hn].
      destruct (ev_wobj _ _ _ Hev i (WBlocker b) Hb) as ([b'|] & Hb' & Hle); [|done].
      exfalso. apply (Hn _ Hb'). cbn. destruct Hle as (_ & _ & -> & _). done.
    + apply (Hgone i Hi Hin (WBlocker b) Hb).
Qed.

(** [Dispatcher::push] returns the next key and adds exactly the one
    request, or returns ENOSPC exactly when the dispatcher holds as many requests
    as its capacity, and adds none; it never underflows. *)
Theorem disp_push_spec w i d e a data sys :
  inv [] w → wobjs w !! i = Some (WDispatcher d) → events w !! e = Some a →
  post (disp_push i e data sys) w
    (λ r w', ∃ d', wobjs w' !! i = Some (WDispatcher d') ∧
      match r with
      | inl err => err = ENOSPC ∧ Z.of_nat (length (requests d)) = capacity d ∧ requests d' = requests d
      | inr k => k = next_key d ∧ Z.of_nat (length (requests d)) < capacity d ∧
          requests d' ≡ₚ MkRequest k e data sys :: requests d
      end)
    (∀ rank, ¬ ranked rank w).
Proof.
  intros Hinv Hd Ha. eapply post_mono; [by eapply disp_push_ok| |done]. by intros r w' [_ ?].
Qed.
End spec.

(** ** Witnesses, at queues that are lists *)

Module Witness.
Abbreviation lworld := (world (Q:=list)).

(** Event 0 may be cancelled. *)
#[export] Instance kept_but_0 : Kept := λ e, e ≠ 0%nat.

(** Event 0 has a level-triggered blocker 1 and is the target of dispatcher 2,
    whose own event is 3. *)
Definition w1 : lworld :=
  World (<[0%nat := MkEvent 0 [1%nat]]> (<[3%nat := event_new 0]> ∅))
    (<[1%nat := WBlocker (MkBlocker true [] 0 (MkWaiterData Level SIG_READ) (true, 0))]>
      (<[2%nat := WDispatcher (disp_new 3 2)]> ∅)).

Lemma w1_reachable : rtc (step (P:=debug_profile)) no_objects w1.
Proof.
  assert (∀ (e : nat) (s : Z) (w : lworld), events w !! e = None →
    (∀ i d r, wobjs w !! i = Some (WDispatcher d) → r ∈ pending d → revent r ≠ e) →
    step (P:=debug_profile) w (with_event w e (event_new s))) as Hev by (intros; by apply step_new_event).
  eapply rtc_l; [apply (Hev 3%nat 0); done|].
  eapply rtc_l; [apply (Hev 0%nat 0); done|].
  eapply rtc_l; [apply (step_new_disp _ 2%nat 3%nat 2); [done|vm_compute; eauto|done|lia]|].
  eapply rtc_l; [|apply rtc_refl].
  eapply (step_block _ 1%nat 0%nat true true SIG_READ ()); [done|vm_compute; eauto|].
  vm_compute. reflexivity.
Qed.

Lemma op_ran {A} (m : ipc (Q:=list) A) w v : fst (m w) = Ok v → m w = (Ok v, snd (m w)).
Proof. destruct (m w). cbn. by intros ->. Qed.

(** Dispatcher 2 waits for a level of event 0 and one of the new event 4; event 0 gets
    another level and is cancelled, and event 4 gets one nobody waits for. *)
Definition w2 : lworld := with_event w1 4 (event_new 0).
Definition w3 : lworld := snd (disp_push (P:=debug_profile) 2 4 (MkWaiterData Level SIG_READ) None w2).
Definition w4 : lworld := snd (disp_push (P:=debug_profile) 2 0 (MkWaiterData Level SIG_READ) None w3).
Definition w5 : lworld := snd (event_notify 0 0 SIG_WRITE w4).
Definition w6 : lworld := snd (cancel 0 w5).
Definition w7 : lworld := snd (event_notify 4 0 SIG_WRITE w6).

Lemma w7_reachable : rtc (step (P:=debug_profile)) no_objects w7.
Proof.
  transitivity w1; [exact w1_reachable|].
  eapply rtc_l; [apply (step_new_event w1 4%nat 0); [done|]|].
  { intros i d r Hd Hr. cbn in Hd. apply lookup_insert_Some in Hd as [[_ ?]|[_ Hd]]; [done|].
    apply lookup_insert_Some in Hd as [[_ [= <-]]|[_ Hd]]; [by apply not_elem_of_nil in Hr|]. by rewrite lookup_empty in Hd. }
  eapply (rtc_l _ _ w3); [eapply (step_push _ 2%nat (disp_new 3 2) 4%nat _ _ (inr 1)); [done|vm_compute; eauto|apply op_ran; vm_compute; reflexivity]|].
  eapply (rtc_l _ _ w4); [eapply (step_push _ 2%nat _ 0%nat _ _ (inr 2)); [vm_compute; reflexivity|vm_compute; eauto|apply op_ran; vm_compute; reflexivity]|].
  eapply (rtc_l _ _ w5); [eapply (step_notify _ 0%nat _ _ SIG_WRITE); [vm_compute; eauto|apply op_ran; vm_compute; reflexivity]|].
  eapply (rtc_l _ _ w6); [apply (step_cancel _ 0%nat); [vm_compute; eauto|intros H; by apply H|apply op_ran; vm_compute; reflexivity]|].
  apply rtc_once. eapply (step_notify _ 4%nat _ _ SIG_WRITE); [vm_compute; eauto|apply op_ran; vm_compute; reflexivity].
Qed.

Lemma no_lost_wakeup_witness :
  let r4 := MkRequest 1 4 (MkWaiterData Level SIG_READ) None in
  let d := MkDispatcher (Q:=list) 3 3 2 [r4; MkRequest 2 0 (MkWaiterData Level SIG_READ) None] [] in
  wobjs w7 !! 2%nat = Some (WDispatcher d) ∧ events w7 !! 4%nat = Some (MkEvent SIG_WRITE [2%nat]) ∧
  events w7 !! 0%nat = Some (MkEvent SIG_WRITE []) ∧
  2%nat ∈ [2%nat] ∧ ¬ wants (WDispatcher d) 4 SIG_WRITE ∧ Z.of_nat (length (requests d)) ≤ 2.
Proof.
  intros r4 d. destruct (no_lost_wakeup (P:=debug_profile) w7 w7_reachable) as (H1 & H2 & H3).
  assert (wobjs w7 !! 2%nat = Some (WDispatcher d)) as Hd by (vm_compute; reflexivity).
  assert (events w7 !! 4%nat = Some (MkEvent SIG_WRITE [2%nat])) as H4 by (vm_compute; reflexivity).
  split; [exact Hd|]. split; [exact H4|]. split; [vm_compute; reflexivity|].
  pose proof (H3 2%nat d r4 _ Hd (list_elem_of_here _ _) ltac:(done) H4) as Hin.
  split; [exact Hin|]. split; [exact (H1 4%nat _ 2%nat _ H4 Hin Hd)|exact (H2 2%nat d Hd)].
Defined.

Lemma notify_spec_witness :
  ∃ w' b', event_notify 0 0 SIG_READ w1 = (Ok SIG_READ, w') ∧
    wobjs w' !! 1%nat = Some (WBlocker b') ∧ fst (status b') = true.
Proof.
  pose proof (notify_spec w1 0%nat (MkEvent 0 [1%nat]) 0 SIG_READ
    (ipc_reachable_inv w1 w1_reachable) eq_refl) as H.
  unfold post in H. destruct (event_notify 0 0 SIG_READ w1) as [r w'] eqn:E.
  vm_compute in E. injection E as <- <-. destruct H as (_ & _ & _ & H).
  destruct (H 1%nat _ (list_elem_of_here _ _) eq_refl) as (b' & Hb' & Hn); [done|done|].
  eexists _, b'. split; [reflexivity|]. split; [exact Hb'|apply Hn].
Defined.

Lemma disp_push_spec_witness :
  ∃ w', disp_push (P:=debug_profile) 2 0 (MkWaiterData Edge SIG_READ) None w1 = (Ok (inr 1), w').
Proof.
  pose proof (disp_push_spec (P:=debug_profile) w1 2%nat (disp_new 3 2) 0%nat (MkEvent 0 [1%nat])
    (MkWaiterData Edge SIG_READ) None (ipc_reachable_inv w1 w1_reachable) eq_refl eq_refl) as H.
  unfold post in H. destruct (disp_push (P:=debug_profile) 2 0 _ None w1) as [r w'] eqn:E.
  vm_compute in E. injection E as <- <-. eexists. reflexivity.
Defined.
End Witness.

(** ** What can go wrong *)

Module Hazards.
Import Witness.

Definition run {A} (m : ipc (Q:=list) A) (w : lworld) : lworld := snd (m w).

(** Cancelling an event forgets the requests it does not cancel. Dispatcher 2
    waits for SIG_READ on event 0, as for a message on a channel; the signal is
    not set when the event is cancelled, as when the peer closes. The request
    then stays pending, uses up capacity and is registered nowhere: a later
    notification does not reach it. The blocker 1 is told of the cancellation. *)
Example cancel_strands_requests :
  let w2 := run (disp_push (P:=debug_profile) 2 0 (MkWaiterData Level SIG_READ) None) w1 in
  let w3 := run (cancel 0) w2 in
  let w4 := run (event_notify 0 0 SIG_READ) w3 in
  let r := MkRequest 1 0 (MkWaiterData Level SIG_READ) None in
  fst (cancel 0 w2) = Ok () ∧
  wobjs w4 !! 2%nat = Some (WDispatcher (MkDispatcher 2 3 2 [r] [])) ∧
  events w4 !! 0%nat = Some (MkEvent SIG_READ []) ∧
  wobjs w4 !! 1%nat = Some (WBlocker (MkBlocker true [MAX64] 0 (MkWaiterData Level SIG_READ) (false, 0))).
Proof. vm_compute. auto. Qed.

(** A notification that comes between the two halves of [wait] is lost. The
    blocker 5 waits for a level; it reads the signal before the notification
    and enters the table after it, and then sleeps although the level is set. *)
Example wait_notify_race :
  let b := MkBlocker true [] 3 (MkWaiterData Level SIG_READ) (true, 0) in
  let w2 := run (set_waiter 5 (WBlocker b)) w1 in
  let w3 := run (wait_check 3 5) w2 in
  let w4 := run (event_notify 3 0 SIG_READ) w3 in
  let w5 := run (wait_insert 3 5) w4 in
  fst (wait_check 3 5 w2) = Ok false ∧
  events w5 !! 3%nat = Some (MkEvent SIG_READ [5%nat]) ∧
  wobjs w5 !! 5%nat = Some (WBlocker b) ∧
  blocker_wait w5 b 1000 = Sleeps.
Proof. vm_compute. auto. Qed.

(** A dispatcher that waits for SIG_WRITE on its own event while SIG_READ is
    clear locks up the processor that pops from it: serving the request notifies
    the event again, whose table entry the outer scan holds. *)
Example self_wait_deadlocks :
  let w2 := run (disp_push (P:=debug_profile) 2 0 (MkWaiterData Level SIG_READ) None) w1 in
  let w3 := run (disp_push (P:=debug_profile) 2 3 (MkWaiterData Edge SIG_WRITE) None) w2 in
  let w4 := run (event_notify 0 0 SIG_READ) w3 in
  let w5 := run (blocker_new 6 3 true false SIG_READ) w4 in
  let w6 := run (detach 6) w5 in
  fst (disp_pop 2 w6) = Err Deadlock.
Proof. vm_compute. reflexivity. Qed.
End Hazards.
