(* ===== verification/Channel.v ===== *)
(** * Channels ([kernel/src/sched/ipc/channel.rs] and [channel/syscall.rs])

    A channel is one end of a pair. Each end owns a side, the queue of the packets
    sent to it and the event that tells of them; the other end knows it by a weak
    reference. A packet that does not fit the receiver's buffers is kept in
    [head] and is the next one to be received. Sides, channels and events live in
    a common state; an end that was dropped has no side any more. *)

From S2P Require Import Base Collections SysCall Handles Ipc.
Local Open Scope Z_scope.

Definition MAX_QUEUE_SIZE : Z := 2048.
Definition MAX_BUFFER_SIZE : Z := 4096.
Definition MAX_HANDLE_COUNT : Z := 256.

Record Packet := MkPacket { id : Z; objects : list Ref; buffer : list Z }.
Definition buffer_len (p : Packet) : Z := Z.of_nat (length (buffer p)).
Definition object_count (p : Packet) : Z := Z.of_nat (length (objects p)).

Section channel.
Context {Q : Type → Type} `{SQ : SegQueue Q}.

Record ChannelSide := MkSide { msgs : Q Packet; sevent : nat }.

Record Channel := MkChannel { peer_id : Z; me : nat; peer : nat; head : option Packet }.

Record chans := Chans {
  world_of : world (Q:=Q);
  sides : gmap nat ChannelSide;
  channels : gmap nat Channel;
  peer_ids : Z;
}.

Abbreviation chan_m := (st chans stop).

Definition on_events {A} (m : ipc (Q:=Q) A) : chan_m A := λ s,
  let '(r, w) := m (world_of s) in (r, Chans w (sides s) (channels s) (peer_ids s)).

Definition get_channel (c : nat) : chan_m Channel :=
  s ← get; lift (unwrap (channels s !! c)).
Definition set_channel (c : nat) (x : Channel) : chan_m () :=
  modify (λ s, Chans (world_of s) (sides s) (<[c := x]> (channels s)) (peer_ids s)).
Definition set_side (i : nat) (x : ChannelSide) : chan_m () :=
  modify (λ s, Chans (world_of s) (<[i := x]> (sides s)) (channels s) (peer_ids s)).

(** [Channel::new]: the two channels at [c1] and [c2], their sides at [s1] and
    [s2] and the events at [e1] and [e2]. *)
Definition chan_new (c1 c2 s1 s2 e1 e2 : nat) : chan_m () :=
  s ← get;
  let pid := peer_ids s in
  _ ← on_events (set_event e1 (event_new 0));
  _ ← on_events (set_event e2 (event_new 0));
  _ ← set_side s1 (MkSide sq_new e1);
  _ ← set_side s2 (MkSide sq_new e2);
  _ ← set_channel c1 (MkChannel pid s1 s2 None);
  _ ← set_channel c2 (MkChannel pid s2 s1 None);
  modify (λ s, Chans (world_of s) (sides s) (channels s) (wrap W (pid + 1))).

Definition peer_eq (a b : Channel) : bool := peer_id a =? peer_id b.

(** [Channel::send]. *)
Definition send (c : nat) (msg : Packet) : chan_m (errno + ()) :=
  ch ← get_channel c;
  s ← get;
  match sides s !! peer ch with
  | None => mret (inl EPIPE)
  | Some p =>
      if MAX_QUEUE_SIZE <=? sq_len (msgs p) then mret (inl ENOSPC)
      else
        _ ← set_side (peer ch) (MkSide (sq_push msg (msgs p)) (sevent p));
        _ ← on_events (event_notify (sevent p) 0 SIG_READ);
        mret (inr ())
  end.

(** [Channel::receive]: the result and the sizes written back. *)
Definition receive (c : nat) (buffer_cap handle_cap : Z) : chan_m ((errno + Packet) * (Z * Z)) :=
  ch ← get_channel c;
  s ← get;
  side ← lift (unwrap (sides s !! me ch));
  let finish (p : Packet) :=
    let sizes := (buffer_len p, object_count p) in
    if (buffer_cap <? buffer_len p) || (handle_cap <? object_count p) then
      _ ← set_channel c (MkChannel (peer_id ch) (me ch) (peer ch) (Some p));
      mret (inl EBUFFER, sizes)
    else mret (inr p, sizes) in
  match head ch with
  | Some p =>
      _ ← set_channel c (MkChannel (peer_id ch) (me ch) (peer ch) None);
      finish p
  | None =>
      let err := if bool_decide (is_Some (sides s !! peer ch)) then ENOENT else EPIPE in
      match sq_pop (msgs side) with
      | (Some p, q) =>
          _ ← set_side (me ch) (MkSide q (sevent side));
          finish p
      | (None, _) => mret (inl err, (buffer_cap, handle_cap))
      end
  end.

(** [Drop for Channel], and the end of the side and the event it owned. *)
Definition chan_drop (c : nat) : chan_m () :=
  ch ← get_channel c;
  s ← get;
  _ ← match sides s !! peer ch with
      | Some p => on_events (cancel (sevent p))
      | None => mret ()
      end;
  side ← lift (unwrap (sides s !! me ch));
  modify (λ s, Chans (World (delete (sevent side) (events (world_of s))) (wobjs (world_of s)))
    (delete (me ch) (sides s)) (delete c (channels s)) (peer_ids s)).

(** *** System calls, over the handle map of the calling space *)

Context {T : Type → Type} `{HT : HashTable T}.

Abbreviation sys := (st (chans * HandleMap T) stop).

Definition on_chans {A} (m : chan_m A) : sys A := λ s,
  let '(r, c) := m (fst s) in (r, (c, snd s)).

(** A call on the handle map, whose errors the caller inspects. *)
Definition on_handles {A} (m : st (HandleMap T) errno A) : sys (errno + A) := λ s,
  match m (snd s) with
  | (Ok a, h) => (Ok (inr a), (fst s, h))
  | (Err e, h) => (Ok (inl e), (fst s, h))
  | (Panic, h) => (Panic, (fst s, h))
  end.

(** [chan_send], after the packet and the arrays it points to have been read. *)
Definition chan_send (hdl : Handle) (pid : Z) (handles : list Handle) (data : list Z) : sys (errno + ()) :=
  if is_null hdl then mret (inl EINVAL)
  else if (MAX_BUFFER_SIZE <? Z.of_nat (length data)) || (MAX_HANDLE_COUNT <=? Z.of_nat (length handles))
  then mret (inl ENOMEM)
  else if bool_decide (hdl ∈ handles) then mret (inl EPERM)
  else
    r ← on_handles (get_typed TYPE_CHANNEL hdl);
    match r with
    | inl e => mret (inl e)
    | inr ref =>
        if negb (Feature.contains (feat ref) Feature.WRITE) then mret (inl EPERM)
        else
          match obj ref with
          | Obj _ _ => lift Panic
          | ObjChannel addr pid_src =>
              os ← on_handles (hm_send handles pid_src);
              match os with
              | inl e => mret (inl e)
              | inr os => on_chans (send (Z.to_nat addr) (MkPacket pid os data))
              end
          end
    end.

(** What [chan_recv] stores for the caller: the packet's number, its bytes and
    the handles of its objects, or the error; and the sizes, once the channel was
    asked. *)
Definition chan_recv (hdl : Handle) (buffer_cap handle_cap : Z)
    : sys ((errno + (Z * list Z * list Handle)) * option (Z * Z)) :=
  if is_null hdl then mret (inl EINVAL, None)
  else
    r ← on_handles (get_typed TYPE_CHANNEL hdl);
    match r with
    | inl e => mret (inl e, None)
    | inr ref =>
        if negb (Feature.contains (feat ref) Feature.READ) then mret (inl EPERM, None)
        else
          match obj ref with
          | Obj _ _ => lift Panic
          | ObjChannel addr _ =>
              let c := Z.to_nat addr in
              '(res, sizes) ← on_chans (receive c buffer_cap handle_cap);
              match res with
              | inl e => mret (inl e, Some sizes)
              | inr p =>
                  hs ← on_handles (hm_receive (Z.to_nat handle_cap) (objects p));
                  match hs with
                  | inl _ => lift Panic
                  | inr hs =>
                      ch ← on_chans (get_channel c);
                      s ← on_chans get;
                      side ← lift (unwrap (sides s !! me ch));
                      _ ← on_chans (on_events (event_notify (sevent side) SIG_READ 0));
                      mret (inr (id p, buffer p, hs), Some sizes)
                  end
              end
          end
    end.
End channel.
