(* ===== verification/ChannelSpec.v ===== *)
(** * Channels are bounded queues

    The queue of an end is its head packet followed by the packets of its side.
    Sending appends, receiving takes the first or leaves everything as it was, and
    so the packets received are those sent, in order. *)

From S2P Require Import Base Collections SysCall HashMap HashSpec Handles Ipc IpcFacts IpcNotify IpcSpec Channel.
Local Open Scope Z_scope.

Section spec.
Context {Q : Type → Type} `{SQ : SegQueue Q} `{K : Kept}.
Implicit Types (s : chans (Q:=Q)).

(** The packets that wait at the end [c]. *)
Definition queue s (c : nat) : option (list Packet) :=
  ch ← channels s !! c;
  side ← sides s !! me ch;
  Some (option_list (head ch) ++ sq_elems (msgs side)).

(** The end [c] is there and [c'] is its peer. *)
Record connected s (c c' : nat) : Prop := {
  co_ne : c ≠ c';
  co_chan : ∃ ch ch' side side', channels s !! c = Some ch ∧ channels s !! c' = Some ch' ∧
    peer ch = me ch' ∧ peer ch' = me ch ∧ me ch ≠ me ch' ∧
    sides s !! me ch = Some side ∧ sides s !! me ch' = Some side' ∧
    is_Some (events (world_of s) !! sevent side) ∧ is_Some (events (world_of s) !! sevent side');
}.

Lemma get_channel_ok s c ch : channels s !! c = Some ch → get_channel c s = (Ok ch, s).
Proof. intros Hc. unfold get_channel. rewrite st_get_bind. unfold lift. by rewrite Hc. Qed.

(** ** Receiving *)

(** The result, the sizes and the queue after [receive], for the queue before. *)
Definition receive_fifo (alive : bool) (q : list Packet) (bc hc : Z)
    : (errno + Packet) * (Z * Z) * list Packet :=
  match q with
  | [] => (inl (if alive then ENOENT else EPIPE), (bc, hc), [])
  | p :: q' =>
      if (bc <? buffer_len p) || (hc <? object_count p) then (inl EBUFFER, (buffer_len p, object_count p), q)
      else (inr p, (buffer_len p, object_count p), q')
  end.

Lemma queue_set s c ch side :
  channels s !! c = Some ch → sides s !! me ch = Some side →
  queue s c = Some (option_list (head ch) ++ sq_elems (msgs side)).
Proof. intros Hc Hs. unfold queue. rewrite Hc. cbn. by rewrite Hs. Qed.

(** The last part of [receive], with the packet in hand: [s] has an empty head. *)
Lemma receive_finish s c ch side p bc hc :
  channels s !! c = Some ch → sides s !! me ch = Some side → head ch = None →
  let r := receive_fifo true (p :: sq_elems (msgs side)) bc hc in
  ∃ s', (if (bc <? buffer_len p) || (hc <? object_count p) then
      _ ← set_channel c (MkChannel (peer_id ch) (me ch) (peer ch) (Some p));
      mret (inl EBUFFER, (buffer_len p, object_count p))
    else mret (inr p, (buffer_len p, object_count p))) s = (Ok (fst r), s') ∧
    queue s' c = Some (snd r) ∧ world_of s' = world_of s ∧ sides s' = sides s ∧
    (∀ c', c' ≠ c → channels s' !! c' = channels s !! c') ∧
    (∃ ch', channels s' !! c = Some ch' ∧ me ch' = me ch ∧ peer ch' = peer ch).
Proof.
  intros Hc Hs Hh. cbn. destruct ((bc <? buffer_len p) || (hc <? object_count p)).
  - eexists. split; [done|]. cbn. split_and!; [|done|done| |].
    + erewrite queue_set; [|apply lookup_insert_eq|cbn; done]. done.
    + intros c' Hne. by rewrite lookup_insert_ne.
    + eexists. split; [apply lookup_insert_eq|done].
  - eexists. split; [done|]. cbn. split_and!; [|done|done|done|eauto].
    erewrite queue_set by done. by rewrite Hh.
Qed.

Lemma receive_ok s c ch side bc hc :
  channels s !! c = Some ch → sides s !! me ch = Some side →
  let q := option_list (head ch) ++ sq_elems (msgs side) in
  let r := receive_fifo (bool_decide (is_Some (sides s !! peer ch))) q bc hc in
  ∃ s', receive c bc hc s = (Ok (fst r), s') ∧ queue s' c = Some (snd r) ∧ world_of s' = world_of s ∧
    (∀ i, i ≠ me ch → sides s' !! i = sides s !! i) ∧
    (∃ side', sides s' !! me ch = Some side' ∧ sevent side' = sevent side) ∧
    (∀ c', c' ≠ c → channels s' !! c' = channels s !! c') ∧
    (∃ ch', channels s' !! c = Some ch' ∧ me ch' = me ch ∧ peer ch' = peer ch).
Proof.
  intros Hc Hs q. unfold receive. rewrite (st_bind_ok _ _ _ _ _ (get_channel_ok s c ch Hc)), st_get_bind.
  rewrite (st_lift_ok _ _ _ side) by (by rewrite Hs). cbv zeta. unfold q.
  destruct (head ch) as [p|] eqn:Hh.
  - set (s1 := Chans (world_of s) (sides s) (<[c := MkChannel (peer_id ch) (me ch) (peer ch) None]> (channels s)) (peer_ids s)).
    destruct (receive_finish s1 c (MkChannel (peer_id ch) (me ch) (peer ch) None) side p bc hc)
      as (s' & Hr & Hq & Hw & Hsd & Hch & ch' & Hch'); [apply lookup_insert_eq|done|done|].
    exists s'. rewrite (st_bind_ok _ _ _ () s1) by done. split; [exact Hr|]. split; [done|]. split; [done|].
    rewrite Hsd. split; [done|]. split; [eauto|]. split; [|eauto].
    intros c' Hne. rewrite Hch by done. cbn. by rewrite lookup_insert_ne.
  - cbn [option_list app]. destruct (sq_elems (msgs side)) as [|p xs] eqn:Hel.
    + destruct (sq_pop_nil _ Hel) as [Hp _]. destruct (sq_pop (msgs side)) as [o qq]. cbn in Hp. subst o.
      exists s. split; [done|]. erewrite queue_set by done. rewrite Hh, Hel. split_and!; try done; eauto.
    + destruct (sq_pop_cons _ _ _ Hel) as [Hp Hxs]. destruct (sq_pop (msgs side)) as [o qq]. cbn in Hp, Hxs. subst o.
      set (s1 := Chans (world_of s) (<[me ch := MkSide qq (sevent side)]> (sides s)) (channels s) (peer_ids s)).
      destruct (receive_finish s1 c ch (MkSide qq (sevent side)) p bc hc)
        as (s' & Hr & Hq & Hw & Hsd & Hch & ch' & Hch'); [done|apply lookup_insert_eq|done|].
      exists s'. rewrite (st_bind_ok _ _ _ () s1) by done. cbn in Hr, Hq. rewrite Hxs in Hr, Hq.
      split; [exact Hr|]. split; [exact Hq|]. split; [done|]. rewrite Hsd. cbn. split.
      * intros i Hne. by rewrite lookup_insert_ne.
      * split; [|eauto]. eexists. split; [apply lookup_insert_eq|done].
Qed.

(** ** Sending *)

Lemma notify_keeps (w w' : world (Q:=Q)) e a v :
  events w !! e = Some a → notify_result w w' e a v →
  (∀ f, is_Some (events w !! f) → is_Some (events w' !! f)) ∧ (∀ rank, ranked rank w → ranked rank w').
Proof.
  intros Ha Hr. set (w1 := with_event w e (MkEvent v (waiters a))).
  assert (∀ f, is_Some (events w !! f) → is_Some (events w1 !! f)) as H1.
  { intros f Hf. cbn. apply lookup_insert_is_Some. destruct (decide (e = f)); auto. }
  assert (∀ rank, ranked rank w → ranked rank w1) as H2.
  { intros rank Hrk f b i d Hb Hi Hd. cbn in Hb. destruct (decide (f = e)) as [->|Hne].
    - rewrite lookup_insert_eq in Hb. simplify_eq. by eapply Hrk.
    - rewrite lookup_insert_ne in Hb by done. by eapply Hrk. }
  destruct Hr as [[_ ->]|(_ & Hev & _)]; [done|]. split.
  - intros f Hf. destruct (H1 f Hf) as [b Hb]. destruct (ev_event _ _ _ Hev _ _ Hb) as (b' & -> & _). eauto.
  - intros rank Hrk. eapply ranked_evolves; [exact Hev|]. by apply H2.
Qed.

(** The result of a sending and the queue of the peer after it. *)
Definition send_fifo (n : Z) (q : list Packet) (p : Packet) : (errno + ()) * list Packet :=
  if MAX_QUEUE_SIZE <=? n then (inl ENOSPC, q) else (inr (), q ++ [p]).

(** The packets queued at the side of [c], without the head. *)
Definition backlog s (c : nat) : Z :=
  match channels s !! c with
  | Some ch => match sides s !! me ch with Some side => sq_len (msgs side) | None => 0 end
  | None => 0
  end.

(** What a step of the pair keeps. *)
Definition stable s s' (c c' : nat) : Prop :=
  connected s' c c' ∧ inv [] (world_of s') ∧ (∀ rank, ranked rank (world_of s) → ranked rank (world_of s')).

Lemma send_ok s c c' p q :
  connected s c c' → inv [] (world_of s) → queue s c' = Some q →
  match send c p s with
  | (Ok r, s') => r = fst (send_fifo (backlog s c') q p) ∧ queue s' c' = Some (snd (send_fifo (backlog s c') q p)) ∧
      stable s s' c c'
  | (Err Deadlock, _) => ∀ rank, ¬ ranked rank (world_of s)
  | _ => False
  end.
Proof.
  intros Hco Hinv Hq. pose proof Hco as [Hne (ch & ch' & side & side' & Hc & Hc' & Hp & Hp' & Hm & Hs & Hs' & He & He')].
  rewrite (queue_set s c' ch' side') in Hq by done. injection Hq as <-.
  assert (backlog s c' = sq_len (msgs side')) as Hb by (unfold backlog; by rewrite Hc', Hs').
  unfold send. rewrite (st_bind_ok _ _ _ _ _ (get_channel_ok s c ch Hc)), st_get_bind, Hp, Hs', Hb.
  unfold send_fifo. destruct (MAX_QUEUE_SIZE <=? sq_len (msgs side')).
  { cbn. erewrite queue_set by done. split_and!; [done|done|]. done. }
  set (s1 := Chans (world_of s) (<[me ch' := MkSide (sq_push p (msgs side')) (sevent side')]> (sides s))
    (channels s) (peer_ids s)).
  rewrite (st_bind_ok _ _ _ () s1) by done. unfold mbind at 1, st_bind at 1, on_events.
  destruct He' as [a Ha].
  pose proof (event_notify_ok (world_of s) (sevent side') a 0 SIG_READ Hinv Ha) as Hn. unfold post in Hn.
  change (world_of s1) with (world_of s).
  destruct (event_notify (sevent side') 0 SIG_READ (world_of s)) as [[v|[]|] w']; [|exact Hn|done|done].
  destruct Hn as (_ & Hinv' & Hres). destruct (notify_keeps _ _ _ _ _ Ha Hres) as [Hal Hrk]. cbn.
  split; [done|]. split.
  - erewrite queue_set; [|done|apply lookup_insert_eq]. cbn. by rewrite sq_push_elems, app_assoc.
  - split; [|done]. split; [done|].
    exists ch, ch', side, (MkSide (sq_push p (msgs side')) (sevent side')). cbn.
    rewrite lookup_insert_ne, lookup_insert_eq by done. split_and!; try done; apply Hal; eauto.
Qed.

Lemma receive_stable s c c' bc hc q :
  connected s c c' → inv [] (world_of s) → queue s c' = Some q →
  ∃ s', receive c' bc hc s = (Ok (fst (receive_fifo true q bc hc)), s') ∧
    queue s' c' = Some (snd (receive_fifo true q bc hc)) ∧ stable s s' c c'.
Proof.
  intros Hco Hinv Hq. pose proof Hco as [Hne (ch & ch' & side & side' & Hc & Hc' & Hp & Hp' & Hm & Hs & Hs' & He & He')].
  rewrite (queue_set s c' ch' side') in Hq by done. injection Hq as <-.
  destruct (receive_ok s c' ch' side' bc hc Hc' Hs') as (s' & Hr & Hq & Hw & Hsd & (sd & Hsd' & Hse) & Hch & ch2 & Hch2 & Hme & Hpe).
  rewrite Hp', Hs, bool_decide_eq_true_2 in Hr, Hq by eauto.
  exists s'. split; [done|]. split; [done|]. split; [|rewrite Hw; done]. split; [done|].
  exists ch, ch2, side, sd. rewrite Hch, Hme, Hpe, Hw by done. rewrite (Hsd (me ch)), Hse by congruence.
  split_and!; congruence || done.
Qed.

(** ** Histories *)

Inductive op := OSend (p : Packet) | OReceive (buffer_cap handle_cap : Z).

(** Sendings at [c] and receivings at [c'] in any order; the packets that were
    accepted and those that were delivered. *)
Fixpoint exec (c c' : nat) (ops : list op) : st (chans (Q:=Q)) stop (list Packet * list Packet) :=
  match ops with
  | [] => mret ([], [])
  | OSend p :: ops =>
      r ← send c p;
      '(sent, got) ← exec c c' ops;
      mret (match r with inr _ => p :: sent | inl _ => sent end, got)
  | OReceive bc hc :: ops =>
      '(r, _) ← receive c' bc hc;
      '(sent, got) ← exec c c' ops;
      mret (sent, match r with inr p => p :: got | inl _ => got end)
  end.

Lemma exec_ok ops c c' : ∀ s q,
  connected s c c' → inv [] (world_of s) → queue s c' = Some q →
  match exec c c' ops s with
  | (Ok (sent, got), s') => ∃ q', queue s' c' = Some q' ∧ q ++ sent = got ++ q'
  | (Err Deadlock, _) => ∀ rank, ¬ ranked rank (world_of s)
  | _ => False
  end.
Proof.
  induction ops as [|[p|bc hc] ops IH]; intros s q Hco Hinv Hq.
  - exists q. by rewrite app_nil_r.
  - cbn [exec]. pose proof (send_ok s c c' p q Hco Hinv Hq) as Hs.
    unfold mbind at 1, st_bind at 1. destruct (send c p s) as [[r|[]|] s1]; [|exact Hs|done|done].
    destruct Hs as (-> & Hq1 & Hco1 & Hinv1 & Hrk1). specialize (IH s1 _ Hco1 Hinv1 Hq1).
    unfold mbind at 1, st_bind at 1. destruct (exec c c' ops s1) as [[[sent got]|[]|] s2]; [| |done|done].
    + destruct IH as (q' & Hq' & Heq). exists q'. split; [done|]. rewrite <- Heq. unfold send_fifo.
      destruct (MAX_QUEUE_SIZE <=? _); cbn; [done|]. by rewrite <- app_assoc.
    + intros rank Hr. by apply (IH rank), Hrk1.
  - cbn [exec]. destruct (receive_stable s c c' bc hc q Hco Hinv Hq) as (s1 & Hr & Hq1 & Hco1 & Hinv1 & Hrk1).
    rewrite (st_bind_ok _ _ _ _ _ Hr). specialize (IH s1 _ Hco1 Hinv1 Hq1).
    destruct (receive_fifo true q bc hc) as [[r sizes] q1] eqn:Hf. cbn in IH. cbn [fst].
    unfold mbind at 1, st_bind at 1. destruct (exec c c' ops s1) as [[[sent got]|[]|] s2]; [| |done|done].
    + destruct IH as (q' & Hq' & Heq). exists q'. split; [done|].
      unfold receive_fifo in Hf. destruct q as [|p q]; simplify_eq/=; [done|].
      destruct ((bc <? buffer_len p) || (hc <? object_count p)); simplify_eq/=; [done|]. by rewrite Heq.
    + intros rank Hrk. by apply (IH rank), Hrk1.
Qed.

(** C38: between the ends of a channel packets are neither lost, duplicated nor
    reordered: whatever sendings at one end and receivings at the other are
    made in whatever order, the packets that waited before followed by those
    accepted are the packets delivered followed by those that still wait. The
    calls always return, unless dispatchers wait on each other in a cycle. *)
Theorem channel_fifo s c c' ops q :
  connected s c c' → inv [] (world_of s) → queue s c' = Some q →
  match exec c c' ops s with
  | (Ok (sent, got), s') => ∃ q', queue s' c' = Some q' ∧ q ++ sent = got ++ q'
  | (Err Deadlock, _) => ∀ rank, ¬ ranked rank (world_of s)
  | _ => False
  end.
Proof. apply exec_ok. Qed.

(** The operations of a channel on every branch. Sending appends to the
    queue of the peer, is refused with ENOSPC when 2048 packets wait and with
    EPIPE when the peer is gone. Receiving takes the first packet; it is refused
    with EBUFFER, reports the sizes needed and keeps the queue, when the packet
    does not fit; and with ENOENT or EPIPE when nothing waits, the peer being
    there or not. What was sent before the peer left can still be received. *)
Theorem channel_ops_spec s c c' p q bc hc :
  inv [] (world_of s) → queue s c' = Some q →
  (connected s c c' →
    match send c p s with
    | (Ok r, s') => r = fst (send_fifo (backlog s c') q p) ∧
        queue s' c' = Some (snd (send_fifo (backlog s c') q p))
    | (Err Deadlock, _) => ∀ rank, ¬ ranked rank (world_of s)
    | _ => False
    end) ∧
  (∀ ch, channels s !! c = Some ch → sides s !! peer ch = None → send c p s = (Ok (inl EPIPE), s)) ∧
  (∀ ch', channels s !! c' = Some ch' →
    let r := receive_fifo (bool_decide (is_Some (sides s !! peer ch'))) q bc hc in
    ∃ s', receive c' bc hc s = (Ok (fst r), s') ∧ queue s' c' = Some (snd r)).
Proof.
  intros Hinv Hq. split; [|split].
  - intros Hco. pose proof (send_ok s c c' p q Hco Hinv Hq) as Hs.
    destruct (send c p s) as [[r|[]|] s']; [|done..]. by destruct Hs as (? & ? & _).
  - intros ch Hc Hs. unfold send. rewrite (st_bind_ok _ _ _ _ _ (get_channel_ok s c ch Hc)), st_get_bind.
    by rewrite Hs.
  - intros ch' Hc'. unfold queue in Hq. rewrite Hc' in Hq. cbn in Hq.
    destruct (sides s !! me ch') as [side|] eqn:Hs; [|done]. injection Hq as <-.
    destruct (receive_ok s c' ch' side bc hc Hc' Hs) as (s' & Hr & Hq' & _). eauto.
Qed.
End spec.

(** ** Witnesses and corner cases *)

Module Witness.
#[local] Instance kept_all : Kept := λ _, True.
Definition pair : chans (Q:=list) := snd (chan_new 0 1 0 1 0 1 (Chans no_objects ∅ ∅ 0)).
Definition pk (n : Z) : Packet := MkPacket n [] [n; n].

Lemma pair_inv : inv [] (world_of pair).
Proof.
  apply (inv_new_event (with_event no_objects 0 (event_new 0)) 1 0); [|done|done].
  apply (inv_new_event no_objects 0 0); [|done|done].
  apply (ipc_reachable_inv (P:=debug_profile)). apply rtc_refl.
Qed.

Lemma pair_connected : connected pair 0 1.
Proof.
  split; [done|]. do 4 eexists. split; [reflexivity|]. split; [reflexivity|]. cbn.
  split_and!; try reflexivity; try done; eexists; reflexivity.
Qed.

Lemma channel_fifo_witness :
  let ops := [OSend (pk 1); OSend (pk 2); OReceive 1 0; OReceive 8 0; OSend (pk 3)] in
  fst (exec 0 1 ops pair) = Ok ([pk 1; pk 2; pk 3], [pk 1]) ∧
  ∃ q', [] ++ [pk 1; pk 2; pk 3] = [pk 1] ++ q'.
Proof.
  intros ops. pose proof (channel_fifo pair 0 1 ops [] pair_connected pair_inv eq_refl) as H.
  destruct (exec 0 1 ops pair) as [r s'] eqn:E.
  assert (r = Ok ([pk 1; pk 2; pk 3], [pk 1])) as -> by (vm_compute in E; injection E as <- _; reflexivity).
  split; [reflexivity|]. destruct H as (q' & _ & Heq). exists q'. exact Heq.
Defined.

Lemma channel_ops_spec_witness :
  ∃ s', receive 1 8 8 pair = (Ok (inl ENOENT, (8, 8)), s') ∧ queue s' 1 = Some [].
Proof.
  destruct (channel_ops_spec pair 0 1 (pk 1) [] 8 8 pair_inv eq_refl) as (_ & _ & H).
  exact (H _ eq_refl).
Defined.

Abbreviation sstate := (chans (Q:=list) * HandleMap (gmap Z))%type.
Definition run {A} (m : st sstate stop A) (s : sstate) : sstate := snd (m s).

(** A space with both ends of the pair: handles 1 and 2; handle 3 is an event. *)
Definition space : sstate :=
  (pair, snd (merge [MkRef (Some 0%nat) channel_features (ObjChannel 0 0);
                     MkRef (Some 1%nat) channel_features (ObjChannel 1 0);
                     MkRef (Some 5%nat) event_features (Obj 1 50)] (hm_new 0))).

(** [chan_recv] clears SIG_READ although packets still wait: after two
    packets were sent and one received, the signal is clear while the queue is not
    empty, so a blocker that then asks for the level SIG_READ goes to sleep. *)
Example recv_clears_level :
  let s1 := run (chan_send (MkHandle 1) 7 [] [1]) space in
  let s2 := run (chan_send (MkHandle 1) 8 [] [2]) s1 in
  let s3 := run (chan_recv (MkHandle 2) 16 0) s2 in
  let w := snd (blocker_new 9 1 true true SIG_READ (world_of (fst s3))) in
  fst (chan_recv (MkHandle 2) 16 0 s2) = Ok (inr (7, [1], []), Some (1, 0)) ∧
  queue (fst s3) 1 = Some [MkPacket 8 [] [2]] ∧
  signal <$> events (world_of (fst s3)) !! 1%nat = Some 0 ∧
  match wobjs w !! 9%nat with Some (WBlocker b) => blocker_wait w b 1000 = Sleeps | _ => False end.
Proof. vm_compute. split_and!; reflexivity. Qed.

(** A sending that fails after the handles were taken loses the objects:
    the peer has been dropped, [chan_send] returns EPIPE, and the event it was to
    carry is in no handle map and in no queue any more. *)
Example failed_send_loses_objects :
  let s1 := run (on_chans (chan_drop 1)) space in
  let r := chan_send (MkHandle 1) 7 [MkHandle 3] [1] s1 in
  fst r = Ok (inl EPIPE) ∧
  fst (get_ref (MkHandle 3) (snd s1)) = Ok (MkRef (Some 5%nat) event_features (Obj 1 50)) ∧
  fst (get_ref (MkHandle 3) (snd (snd r))) = Err EINVAL ∧
  sides (fst (snd r)) !! 1%nat = None ∧ queue (fst (snd r)) 0 = Some [].
Proof. vm_compute. split_and!; reflexivity. Qed.
End Witness.
