(* ===== verification/Heap.v ===== *)
(** * The slab heap ([libs/heap])

    Pages of 4 KiB are divided into objects of one of 28 sizes. A page begins with
    a header that holds a bitmap of the objects in use (the header's own included);
    the pages of a size are kept in a red-black tree by the number of free objects.
    Larger requests go to the pager. The kernel and the user runtime build their
    global allocators from it; the thread cache in front of it is only used in
    user space.

    Pages live in memory and the trees refer to them by address. The tree is the
    class [PageTree]; the pager is a pair of function pointers. *)

From Stdlib Require Import Sorting.Sorted.
From S2P Require Import Base Bits Collections Slices.
Local Open Scope Z_scope.
Local Open Scope h2o_scope.

(** ** [intrusive_collections::RBTree] keyed by a value read from the elements *)

Definition sorted_by (key : Z → Z) (l : list Z) : Prop := StronglySorted (λ x y, key x ≤ key y) l.

Class PageTree (T : Type) := {
  pt_new : T;
  pt_insert : (Z → Z) → Z → T → T;
  pt_lower_bound_remove : (Z → Z) → Z → T → option Z * T;
  pt_remove : Z → T → T;
  pt_elems : T → list Z;
  pt_new_elems : pt_elems pt_new = [];
  pt_insert_elems key x t : sorted_by key (pt_elems t) →
    pt_elems (pt_insert key x t) ≡ₚ x :: pt_elems t ∧ sorted_by key (pt_elems (pt_insert key x t));
  (** The first element whose key is above the bound. *)
  pt_lower_bound_elems key k t : sorted_by key (pt_elems t) →
    match pt_lower_bound_remove key k t with
    | (Some x, t') => ∃ xs ys, pt_elems t = xs ++ x :: ys ∧ pt_elems t' = xs ++ ys ∧
        (∀ y, y ∈ xs → key y ≤ k) ∧ k < key x
    | (None, t') => t' = t ∧ ∀ y, y ∈ pt_elems t → key y ≤ k
    end;
  (** Removal through the link of the element. *)
  pt_remove_elems t x xs ys : pt_elems t = xs ++ x :: ys → NoDup (pt_elems t) →
    pt_elems (pt_remove x t) = xs ++ ys;
}.

Fixpoint list_insert_by (key : Z → Z) (x : Z) (l : list Z) : list Z :=
  match l with
  | [] => [x]
  | y :: l' => if key x <? key y then x :: l else y :: list_insert_by key x l'
  end.
Fixpoint list_lower_bound (key : Z → Z) (k : Z) (l : list Z) : option Z * list Z :=
  match l with
  | [] => (None, [])
  | y :: l' =>
      if k <? key y then (Some y, l')
      else let '(r, l'') := list_lower_bound key k l' in (r, y :: l'')
  end.

#[export] Program Instance PageTree_list : PageTree (list Z) := {
  pt_new := [];
  pt_insert := list_insert_by;
  pt_lower_bound_remove := list_lower_bound;
  pt_remove x l := filter (λ y, y ≠ x) l;
  pt_elems l := l;
}.
Next Obligation. done. Qed.
Next Obligation.
  intros key x l. induction l as [|y l IH]; intros Hs; cbn.
  - split; [done|]. repeat constructor.
  - apply StronglySorted_inv in Hs as [Hs Hf]. destruct (Z.ltb_spec (key x) (key y)).
    + split; [done|]. constructor; [by constructor|]. constructor; [lia|].
      eapply Forall_impl; [exact Hf|]. cbn. intros. lia.
    + destruct (IH Hs) as [Hp Hs']. split; [by rewrite Hp; constructor|]. constructor; [done|].
      rewrite Forall_forall in Hf |- *. intros z Hz. rewrite Hp in Hz.
      apply elem_of_cons in Hz as [->|Hz]; [lia|by apply Hf].
Qed.
Next Obligation.
  intros key k l. induction l as [|y l IH]; intros Hs; cbn.
  - split; [done|]. by intros y Hy%not_elem_of_nil.
  - apply StronglySorted_inv in Hs as [Hs Hf]. destruct (Z.ltb_spec k (key y)).
    + exists [], l. split_and!; [done..| |done]. by intros z Hz%not_elem_of_nil.
    + specialize (IH Hs). destruct (list_lower_bound key k l) as [[x|] l'].
      * destruct IH as (xs & ys & -> & -> & Hxs & Hx). exists (y :: xs), ys. split_and!; [done..| |done].
        intros z [->|Hz]%elem_of_cons; [lia|by apply Hxs].
      * destruct IH as [-> Hl]. split; [done|]. intros z [->|Hz]%elem_of_cons; [lia|by apply Hl].
Qed.
Next Obligation.
  intros l x xs ys -> Hnd. apply NoDup_app in Hnd as (_ & Hxs & Hys).
  apply NoDup_cons in Hys as [Hys _]. rewrite filter_app, filter_cons_False by tauto.
  rewrite !filter_id; [done| |].
  - intros z Hz ->. done.
  - intros z Hz ->. by apply (Hxs _ Hz), list_elem_of_here.
Qed.

(** ** Sizes *)

Definition PAGE_SIZE : Z := 4096.
Definition OBJ_SIZES : list Z :=
  [16; 24; 32; 48; 64; 80; 96; 112; 128; 160; 192; 224; 256; 320; 384; 448; 512; 640; 768; 896;
   1024; 1152; 1280; 1408; 1536; 1664; 1792; 1920].
Definition NR_OBJ_SIZES : nat := length OBJ_SIZES.
Definition MIN_OBJ_SIZE : Z := 16.
Definition MAX_OBJ_SIZE : Z := 1920.

Inductive Classes := Small | Medium | Large.
Definition from_index (index : nat) : Classes :=
  if (20 <=? index)%nat then Large else if (4 <=? index)%nat then Medium else Small.

Inductive herror := Internal | NeedExt | InvLayout.

(** [binary_search]: the place of the value, found or not. *)
Definition search (v : Z) (l : list Z) : nat := length (filter (λ x, x < v) l).

Definition unwrap_layout {E} (err : herror → E) (l : Layout) : res E nat :=
  if size l =? 0 then Err (err InvLayout)
  else
    let idx := search (pad_to_align l) OBJ_SIZES in
    if (idx <? NR_OBJ_SIZES)%nat then Ok idx else Err (err InvLayout).

(** ** Statistics *)

Record Stat := MkStat { capacity : Z; in_cnt : Z; out_cnt : Z; current_used : Z }.
Definition stat_new : Stat := MkStat 0 0 0 0.

Section stat.
Context `{P : Profile}.
Definition stat_extend {E} (s : Stat) (n : Z) : res E Stat :=
  c ← capacity s +! n;
  Ok (MkStat c (in_cnt s) (out_cnt s) (current_used s)).
Definition stat_allocate {E} (s : Stat) (n : Z) : res E Stat :=
  o ← out_cnt s +! n;
  u ← current_used s +! n;
  Ok (MkStat (capacity s) (in_cnt s) o u).
Definition stat_deallocate {E} (s : Stat) (n : Z) : res E Stat :=
  i ← in_cnt s +! n;
  u ← current_used s -! n;
  Ok (MkStat (capacity s) i (out_cnt s) u).
End stat.

(** ** Pages, slabs and the pool *)

Section heap.
(** The bitmap, the tree, the size of its link and the state of the pager. *)
Context `{P : Profile} {B T PS : Type} `{BV : BitVec B} `{PT : PageTree T} (link_size : Z).

Record Page := MkPage { objsize : Z; used : B; used_count : Z }.

Definition HEADER_SIZE : Z := link_size + 8 + PAGE_SIZE / MIN_OBJ_SIZE / 8 + 8.

Definition header_count (pg : Page) : Z :=
  HEADER_SIZE / objsize pg + (if HEADER_SIZE mod objsize pg =? 0 then 0 else 1).
Definition max_count (pg : Page) : Z := PAGE_SIZE / objsize pg.
Definition free_count (pg : Page) : Z := max_count pg - used_count pg.

(** Bit [i] of the bitmap. *)
Definition used_bit (pg : Page) (i : nat) : bool := default false (bv_bits (used pg) !! i).

Fixpoint mark_header (n : nat) (b : B) : B :=
  match n with
  | O => b
  | S n => bv_set n true (mark_header n b)
  end.

Definition page_init (sz : Z) : Page :=
  let pg := MkPage sz (bv_zeros (PAGE_SIZE / MIN_OBJ_SIZE)) 0 in
  let n := header_count pg in
  MkPage sz (mark_header (Z.to_nat n) (used pg)) n.

Fixpoint first_unused (pg : Page) (i n : nat) : option nat :=
  match n with
  | O => None
  | S n => if used_bit pg i then first_unused pg (S i) n else Some i
  end.

(** [Page::pop] of the page at [base]. *)
Definition page_pop (base : Z) (pg : Page) : res herror (Z * Page) :=
  let hdrcnt := Z.to_nat (header_count pg) in
  match first_unused pg hdrcnt (Z.to_nat (max_count pg) - hdrcnt) with
  | Some i => Ok (base + objsize pg * Z.of_nat i, MkPage (objsize pg) (bv_set i true (used pg)) (used_count pg + 1))
  | None => Err Internal
  end.

(** [Page::push]. *)
Definition page_push (base : Z) (pg : Page) (addr : Z) : res herror Page :=
  let idx := (addr - base) / objsize pg in
  if negb ((0 <=? idx) && (idx <? max_count pg)) then Err Internal
  else if negb (used_bit pg (Z.to_nat idx)) then Err Internal
  else Ok (MkPage (objsize pg) (bv_set (Z.to_nat idx) false (used pg)) (used_count pg - 1)).

(** Memory, the slab lists and the pager. *)
Record heap := MkHeap {
  pages : gmap Z Page;
  slabs : list T;
  stat : Stat;
  pager : PS;
}.

Definition heap_new (ps : PS) : heap := MkHeap ∅ (replicate NR_OBJ_SIZES pt_new) stat_new ps.

Definition set_page (p : Z) (pg : Page) : st heap herror () :=
  modify (λ h, MkHeap (<[p := pg]> (pages h)) (slabs h) (stat h) (pager h)).
Definition set_slab (idx : nat) (t : T) : st heap herror () :=
  modify (λ h, MkHeap (pages h) (<[idx := t]> (slabs h)) (stat h) (pager h)).
Definition set_stat (s : Stat) : st heap herror () :=
  modify (λ h, MkHeap (pages h) (slabs h) s (pager h)).

(** The key of the tree: the number of free objects of a page. *)
Definition key_of (h : heap) (p : Z) : Z :=
  match pages h !! p with Some pg => free_count pg | None => 0 end.

Definition slab_at (idx : nat) : st heap herror T := h ← get; lift (unwrap (slabs h !! idx)).

Definition slab_extend (idx : nat) (p : Z) : st heap herror () :=
  t ← slab_at idx;
  h ← get;
  set_slab idx (pt_insert (key_of h) p t).

Definition slab_pop (idx : nat) : st heap herror Z :=
  t ← slab_at idx;
  h ← get;
  let '(r, t) := pt_lower_bound_remove (key_of h) 0 t in
  _ ← set_slab idx t;
  match r with
  | Some p =>
      pg ← lift (unwrap (pages h !! p));
      '(ret, pg) ← lift (page_pop p pg);
      _ ← set_page p pg;
      _ ← slab_extend idx p;
      mret ret
  | None => lift (Err NeedExt)
  end.

(** The page of an address, as [addr & !PAGE_MASK]. *)
Definition page_base (addr : Z) : Z := addr - addr mod PAGE_SIZE.

Definition slab_push (idx : nat) (addr : Z) : st heap herror (option Z) :=
  let base := page_base addr in
  if base =? 0 then lift (Err Internal)
  else
    h ← get;
    pg ← lift (unwrap (pages h !! base));
    pg ← lift (page_push base pg addr);
    _ ← set_page base pg;
    let partially_free := used_count pg <? max_count pg in
    t ← slab_at idx;
    _ ← set_slab idx (pt_remove base t);
    if partially_free then
      _ ← slab_extend idx base;
      mret None
    else mret (Some base).

Definition pool_extend (l : Layout) (p : Z) : st heap herror () :=
  idx ← lift (unwrap_layout id l);
  sz ← lift (unwrap (OBJ_SIZES !! idx));
  _ ← set_page p (page_init sz);
  _ ← slab_extend idx p;
  h ← get;
  s ← lift (stat_extend (stat h) PAGE_SIZE);
  set_stat s.

Definition pool_allocate (l : Layout) : st heap herror Z :=
  idx ← lift (unwrap_layout id l);
  a ← slab_pop idx;
  h ← get;
  s ← lift (stat_allocate (stat h) (pad_to_align l));
  _ ← set_stat s;
  mret a.

Definition pool_deallocate (addr : Z) (l : Layout) : st heap herror (option Z) :=
  idx ← lift (unwrap_layout id l);
  r ← slab_push idx addr;
  h ← get;
  s ← lift (stat_deallocate (stat h) (pad_to_align l));
  _ ← set_stat s;
  mret r.

(** ** The allocator *)

(** The function pointers of the pager. *)
Variable alloc_pages : Z → PS → option Z * PS.
Variable dealloc_pages : Z → Z → PS → PS.

Definition pager_alloc (n : Z) : st heap herror (option Z) := λ h,
  let '(r, ps) := alloc_pages n (pager h) in (Ok r, MkHeap (pages h) (slabs h) (stat h) ps).
Definition pager_dealloc (p n : Z) : st heap herror () := λ h,
  (Ok (), MkHeap (pages h) (slabs h) (stat h) (dealloc_pages p n (pager h))).

(** [GlobalAlloc::alloc] without the thread cache; 0 is the null pointer. *)
Definition heap_alloc (l : Layout) : st heap herror Z :=
  let sz := pad_to_align l in
  if sz <=? MAX_OBJ_SIZE then
    r ← attempt (pool_allocate l);
    match r with
    | inr x => mret x
    | inl NeedExt =>
        p ← pager_alloc 1;
        match p with
        | Some p =>
            e ← attempt (pool_extend l p);
            _ ← lift (match e with inr _ => Ok () | inl _ => Panic end);
            r ← attempt (pool_allocate l);
            mret (match r with inr x => x | inl _ => 0 end)
        | None => mret 0
        end
    | inl _ => mret 0
    end
  else
    n ← lift (div_ceil_bit W sz 12);
    p ← pager_alloc n;
    mret (default 0 p).

Definition heap_dealloc (ptr : Z) (l : Layout) : st heap herror () :=
  let sz := pad_to_align l in
  if sz <=? MAX_OBJ_SIZE then
    r ← attempt (pool_deallocate ptr l);
    match r with
    | inr (Some p) => pager_dealloc p 1
    | _ => mret ()
    end
  else
    n ← lift (div_ceil_bit W sz 12);
    _ ← lift (assert_ (negb (ptr =? 0)));
    pager_dealloc ptr n.

(** ** The thread cache ([tcache.rs]) *)

(** [items] are the addresses stored in [memory]; their number is the counter. *)
Record TcSlab := MkTc { memory : option Z; items : list Z; tc_size : Z; tc_obj_size : Z }.

Definition tc_slab_size (c : Classes) : Z := match c with Small => 32 | Medium => 8 | Large => 4 end.
Definition tc_count (tc : TcSlab) : Z := Z.of_nat (length (items tc)).

Definition tcache_new : list TcSlab :=
  imap (λ i sz, MkTc None [] (tc_slab_size (from_index i)) sz) OBJ_SIZES.

Abbreviation cached := (heap * list TcSlab)%type.
Definition on_heap {A} (m : st heap herror A) : st cached herror A := λ s,
  let '(r, h) := m (fst s) in (r, (h, snd s)).
Definition get_tc (i : nat) : st cached herror TcSlab := s ← get; lift (unwrap (snd s !! i)).
Definition set_tc (i : nat) (tc : TcSlab) : st cached herror () := modify (λ s, (fst s, <[i := tc]> (snd s))).

Definition LADDR_ALIGN : Z := 8.

Definition tc_memory (i : nat) : st cached herror Z :=
  tc ← get_tc i;
  match memory tc with
  | Some m => mret m
  | None =>
      r ← attempt (on_heap (pool_allocate (MkLayout (tc_size tc * tc_obj_size tc) LADDR_ALIGN)));
      match r with
      | inr a =>
          if a =? 0 then lift (Err Internal)
          else
            _ ← set_tc i (MkTc (Some a) (items tc) (tc_size tc) (tc_obj_size tc));
            mret a
      | inl _ => lift (Err Internal)
      end
  end.

(** The loop that fills the cache; it runs at most [tc_size] times. *)
Fixpoint tc_fill (fuel : nat) (i : nat) : st cached herror () :=
  match fuel with
  | O => mret ()
  | S fuel =>
      tc ← get_tc i;
      if tc_count tc <? tc_size tc then
        r ← attempt (on_heap (pool_allocate (MkLayout (tc_obj_size tc) LADDR_ALIGN)));
        match r with
        | inr a =>
            _ ← set_tc i (MkTc (memory tc) (items tc ++ [a]) (tc_size tc) (tc_obj_size tc));
            tc_fill fuel i
        | inl _ => mret ()
        end
      else mret ()
  end.

Definition tc_pop (i : nat) : st cached herror Z :=
  _ ← tc_memory i;
  tc ← get_tc i;
  _ ← (if tc_count tc =? 0 then tc_fill (Z.to_nat (tc_size tc)) i else mret ());
  tc ← get_tc i;
  match last (items tc) with
  | Some a =>
      _ ← set_tc i (MkTc (memory tc) (take (length (items tc) - 1) (items tc)) (tc_size tc) (tc_obj_size tc));
      mret a
  | None => lift (Err NeedExt)
  end.

Definition tc_push (i : nat) (addr : Z) : st cached herror (option Z) :=
  _ ← tc_memory i;
  tc ← get_tc i;
  page ← (if tc_count tc =? tc_size tc then
            match last (items tc) with
            | Some a =>
                _ ← set_tc i (MkTc (memory tc) (take (length (items tc) - 1) (items tc)) (tc_size tc) (tc_obj_size tc));
                r ← attempt (on_heap (pool_deallocate a (MkLayout (tc_obj_size tc) LADDR_ALIGN)));
                mret (match r with inr p => p | inl _ => None end)
            | None => lift Panic
            end
          else mret None);
  tc ← get_tc i;
  if tc_count tc <? tc_size tc then
    _ ← set_tc i (MkTc (memory tc) (items tc ++ [addr]) (tc_size tc) (tc_obj_size tc));
    mret page
  else lift (Err Internal).

Definition tc_allocate (l : Layout) : st cached herror Z :=
  i ← lift (unwrap_layout id l);
  tc_pop i.

Definition tc_deallocate (addr : Z) (l : Layout) : st cached herror (option Z) :=
  i ← lift (unwrap_layout id l);
  tc_push i addr.

(** [GlobalAlloc::alloc] with the thread cache. *)
Definition heap_alloc_tc (l : Layout) : st cached herror Z :=
  let sz := pad_to_align l in
  if sz <=? MAX_OBJ_SIZE then
    r ← attempt (tc_allocate l);
    match r with
    | inr x => mret x
    | inl NeedExt =>
        p ← on_heap (pager_alloc 1);
        match p with
        | Some p =>
            e ← attempt (on_heap (pool_extend l p));
            _ ← lift (match e with inr _ => Ok () | inl _ => Panic end);
            r ← attempt (tc_allocate l);
            mret (match r with inr x => x | inl _ => 0 end)
        | None => mret 0
        end
    | inl _ => mret 0
    end
  else
    n ← lift (div_ceil_bit W sz 12);
    p ← on_heap (pager_alloc n);
    mret (default 0 p).

Definition heap_dealloc_tc (ptr : Z) (l : Layout) : st cached herror () :=
  let sz := pad_to_align l in
  if sz <=? MAX_OBJ_SIZE then
    r ← attempt (tc_deallocate ptr l);
    match r with
    | inr (Some p) => on_heap (pager_dealloc p 1)
    | _ => mret ()
    end
  else
    n ← lift (div_ceil_bit W sz 12);
    _ ← lift (assert_ (negb (ptr =? 0)));
    on_heap (pager_dealloc ptr n).
End heap.
