(* ===== verification/HeapFacts.v ===== *)
(** * Invariants of the slab heap

    [heap_wf]: every page of a slab list has the object size of the list, its
    header marked as used and a counter that agrees with the bitmap; the trees are
    sorted by the number of free objects. [live] are the objects handed out. *)

From Stdlib Require Import Sorting.Sorted.
From S2P Require Import Base Bits Collections Slices Heap.
Local Open Scope Z_scope.
Local Open Scope h2o_scope.

(** ** Sizes *)

Lemma obj_sizes_range idx sz : OBJ_SIZES !! idx = Some sz → 16 ≤ sz ≤ 1920.
Proof.
  intros H. assert (Forall (λ s, 16 ≤ s ≤ 1920) OBJ_SIZES) as Hf by (unfold OBJ_SIZES; repeat constructor; lia).
  by eapply Forall_lookup_1 in Hf.
Qed.

Lemma obj_sizes_inj i j sz : OBJ_SIZES !! i = Some sz → OBJ_SIZES !! j = Some sz → i = j.
Proof.
  intros Hi Hj. assert (NoDup OBJ_SIZES) as Hn by (apply (bool_decide_unpack _); vm_compute; done).
  by eapply NoDup_lookup.
Qed.

(** The list of a size: the smallest object that holds it. *)
Lemma search_spec v : 0 < v → v ≤ MAX_OBJ_SIZE →
  ∃ sz, OBJ_SIZES !! search v OBJ_SIZES = Some sz ∧ v ≤ sz.
Proof.
  intros H0 H1. unfold MAX_OBJ_SIZE in H1.
  assert (forallb (λ v, match OBJ_SIZES !! search v OBJ_SIZES with Some sz => v <=? sz | None => false end)
    (seqZ 1 1920) = true) as H by (vm_compute; reflexivity).
  rewrite forallb_forall in H. specialize (H v). rewrite <- list_elem_of_In, elem_of_seqZ in H.
  specialize (H ltac:(lia)). destruct (OBJ_SIZES !! search v OBJ_SIZES) as [sz|]; [|done].
  exists sz. zbool. done.
Qed.

(** A size that is a multiple of a power of two gets objects that are, too. *)
Lemma search_aligned v k sz :
  0 ≤ k → 0 < v ≤ MAX_OBJ_SIZE → v mod 2 ^ k = 0 →
  OBJ_SIZES !! search v OBJ_SIZES = Some sz → sz mod 2 ^ k = 0.
Proof.
  intros Hk Hv Hm Hs. unfold MAX_OBJ_SIZE in Hv.
  assert (k ≤ 10) as Hk10.
  { destruct (Z.le_gt_cases k 10); [done|]. exfalso.
    pose proof (Z.pow_le_mono_r 2 11 k ltac:(lia) ltac:(lia)).
    rewrite Z.mod_small in Hm by lia. lia. }
  assert (forallb (λ k, forallb (λ v, negb (v mod 2 ^ k =? 0) ||
      match OBJ_SIZES !! search v OBJ_SIZES with Some sz => sz mod 2 ^ k =? 0 | None => true end)
    (seqZ 1 1920)) (seqZ 0 11) = true) as H by (vm_compute; reflexivity).
  rewrite forallb_forall in H. specialize (H k). rewrite <- list_elem_of_In, elem_of_seqZ in H.
  specialize (H ltac:(lia)). cbv beta in H. rewrite forallb_forall in H. specialize (H v).
  rewrite <- list_elem_of_In, elem_of_seqZ in H. specialize (H ltac:(lia)).
  rewrite Hs, Hm, Z.eqb_refl in H. cbn in H. by zbool.
Qed.

(** Padding a layout. *)
(** ** Bitmaps *)

Definition count_true (l : list bool) : nat := length (filter (λ b, b = true) l).

Lemma count_true_cons b l : count_true (b :: l) = ((if b then 1 else 0) + count_true l)%nat.
Proof. unfold count_true. by destruct b. Qed.

Lemma count_true_set l i b :
  l !! i = Some (negb b) →
  Z.of_nat (count_true (<[i := b]> l)) = Z.of_nat (count_true l) + (if b then 1 else -1).
Proof.
  revert i. induction l as [|c l IH]; intros [|i] Hi; simplify_eq/=.
  - rewrite !count_true_cons. destruct b; cbn; lia.
  - rewrite !count_true_cons. specialize (IH i Hi). lia.
Qed.

Lemma count_true_prefix l n :
  (n ≤ length l)%nat → (∀ i, (i < n)%nat → l !! i = Some true) → (n ≤ count_true l)%nat.
Proof.
  revert n. induction l as [|c l IH]; intros [|n] Hn Ht; cbn [length] in Hn; try lia.
  rewrite count_true_cons. pose proof (Ht 0%nat ltac:(lia)) as H0. simplify_eq/=.
  enough (n ≤ count_true l)%nat by lia. apply IH; [lia|]. intros i Hi. apply (Ht (S i)). lia.
Qed.

Lemma count_true_le l n :
  (∀ i, (n ≤ i)%nat → default false (l !! i) = false) → (count_true l ≤ n)%nat.
Proof.
  revert n. induction l as [|c l IH]; intros n Hn; [cbn; lia|]. rewrite count_true_cons.
  destruct n as [|n].
  - pose proof (Hn 0%nat ltac:(lia)) as H0. cbn in H0. subst c. cbn.
    apply (IH 0%nat). intros i _. apply (Hn (S i)). lia.
  - enough (count_true l ≤ n)%nat by (destruct c; lia). apply IH. intros i Hi. apply (Hn (S i)). lia.
Qed.

Section facts.
Context `{P : Profile} {B T PS : Type} `{BV : BitVec B} `{PT : PageTree T} (link_size : Z).
Hypothesis link_range : 0 ≤ link_size ≤ 1024.
Abbreviation hdr := (header_count link_size).
Abbreviation heap := (Heap.heap (B:=B) (T:=T) (PS:=PS)).
Implicit Types (pg : Page (B:=B)) (h : heap).

Lemma used_bit_lookup pg i b : bv_bits (used pg) !! i = Some b → used_bit pg i = b.
Proof. unfold used_bit. by intros ->. Qed.

(** The header takes less than the page. *)
Lemma header_bounds pg :
  16 ≤ objsize pg ≤ 1920 → 1 ≤ hdr pg < max_count pg ∧ max_count pg ≤ 256 ∧
  max_count pg * objsize pg ≤ PAGE_SIZE.
Proof.
  intros Hs. unfold header_count, max_count. set (s := objsize pg) in *.
  assert (48 ≤ HEADER_SIZE link_size ≤ 1072) as Hh.
  { unfold HEADER_SIZE. change (PAGE_SIZE / MIN_OBJ_SIZE / 8) with 32. lia. }
  set (H := HEADER_SIZE link_size) in *. unfold PAGE_SIZE.
  pose proof (Z.mul_div_le 4096 s ltac:(lia)) as H1.
  pose proof (Z.mul_succ_div_gt 4096 s ltac:(lia)) as H2.
  pose proof (Z.div_mod H s ltac:(lia)) as H3. pose proof (Z.mod_pos_bound H s ltac:(lia)) as H4.
  assert (4096 / s ≤ 256) by (apply Z.div_le_upper_bound; lia).
  assert (0 ≤ H / s) by (apply Z.div_pos; lia).
  set (c := if H mod s =? 0 then 0 else 1).
  assert (0 ≤ c ≤ 1 ∧ (H / s = 0 → c = 1)) as [Hc Hc0].
  { unfold c. destruct (Z.eqb_spec (H mod s) 0); lia. }
  split; [|lia]. split; [destruct (Z.eq_dec (H / s) 0); lia|].
  destruct (Z.le_gt_cases s 1072).
  - assert (s * (H / s + 1) < s * (4096 / s)); [|nia]. nia.
  - assert (H / s = 0) as -> by (apply Z.div_small; lia). assert (2 ≤ 4096 / s); [|lia].
    apply Z.div_le_lower_bound; lia.
Qed.

(** ** Pages *)

Record page_ok (idx : nat) (p : Z) pg : Prop := {
  po_size : OBJ_SIZES !! idx = Some (objsize pg);
  po_base : 0 < p ∧ p mod PAGE_SIZE = 0;
  po_bits : length (bv_bits (used pg)) = 256%nat;
  po_header i : Z.of_nat i < hdr pg → bv_bits (used pg) !! i = Some true;
  po_tail i : max_count pg ≤ Z.of_nat i → used_bit pg i = false;
  po_count : used_count pg = Z.of_nat (count_true (bv_bits (used pg)));
}.

Lemma page_bounds idx p pg : page_ok idx p pg →
  1 ≤ hdr pg < max_count pg ∧ max_count pg ≤ 256 ∧ max_count pg * objsize pg ≤ PAGE_SIZE.
Proof. intros Hp. apply header_bounds. eapply obj_sizes_range, po_size, Hp. Qed.

Lemma page_bit idx p pg i : page_ok idx p pg → Z.of_nat i < max_count pg →
  bv_bits (used pg) !! i = Some (used_bit pg i).
Proof.
  intros Hp Hi. pose proof (page_bounds _ _ _ Hp). unfold used_bit.
  destruct (lookup_lt_is_Some_2 (bv_bits (used pg)) i) as [b Hb]; [rewrite (po_bits _ _ _ Hp); lia|].
  by rewrite Hb.
Qed.

Lemma page_count_le idx p pg : page_ok idx p pg → used_count pg ≤ max_count pg.
Proof.
  intros Hp. pose proof (page_bounds _ _ _ Hp). rewrite (po_count _ _ _ Hp).
  enough (count_true (bv_bits (used pg)) ≤ Z.to_nat (max_count pg))%nat by lia.
  apply count_true_le. intros i Hi. apply (po_tail _ _ _ Hp). lia.
Qed.

Lemma first_unused_spec pg n : ∀ i,
  match first_unused pg i n with
  | Some j => (i ≤ j < i + n)%nat ∧ used_bit pg j = false
  | None => ∀ j, (i ≤ j < i + n)%nat → used_bit pg j = true
  end.
Proof.
  induction n as [|n IH]; intros i; cbn; [intros j Hj; lia|].
  destruct (used_bit pg i) eqn:Hu; [|split; [lia|done]]. specialize (IH (S i)).
  destruct (first_unused pg (S i) n) as [j|].
  - destruct IH. split; [lia|done].
  - intros j Hj. destruct (decide (j = i)) as [->|]; [done|]. apply IH. lia.
Qed.

(** One bit changed. *)
Definition set_bit pg (i : nat) (b : bool) : Page :=
  MkPage (objsize pg) (bv_set i b (used pg)) (used_count pg + (if b then 1 else -1)).

Lemma set_bit_used idx p pg i b j : page_ok idx p pg → Z.of_nat i < max_count pg →
  used_bit (set_bit pg i b) j = if decide (j = i) then b else used_bit pg j.
Proof.
  intros Hp Hi. pose proof (page_bounds _ _ _ Hp). pose proof (po_bits _ _ _ Hp).
  unfold used_bit. cbn. rewrite bv_set_bits by lia. case_decide as Hj.
  - subst j. rewrite list_lookup_insert_eq by lia. done.
  - by rewrite list_lookup_insert_ne.
Qed.

Lemma set_bit_ok idx p pg i b :
  page_ok idx p pg → hdr pg ≤ Z.of_nat i < max_count pg → used_bit pg i = negb b →
  page_ok idx p (set_bit pg i b).
Proof.
  intros Hp Hi Hb. pose proof (page_bounds _ _ _ Hp). pose proof (po_bits _ _ _ Hp) as Hl.
  pose proof (page_bit _ _ _ i Hp ltac:(lia)) as Hbit. rewrite Hb in Hbit. split.
  - apply Hp.
  - apply Hp.
  - cbn. rewrite bv_set_bits by lia. by rewrite length_insert.
  - intros j Hj. change (hdr (set_bit pg i b)) with (hdr pg) in Hj. cbn. rewrite bv_set_bits by lia.
    rewrite list_lookup_insert_ne by lia. by apply (po_header _ _ _ Hp).
  - intros j Hj. change (max_count (set_bit pg i b)) with (max_count pg) in Hj.
    rewrite (set_bit_used idx p) by (done || lia). rewrite decide_False by lia. by apply (po_tail _ _ _ Hp).
  - cbn. rewrite bv_set_bits, count_true_set by (done || lia). by rewrite (po_count _ _ _ Hp).
Qed.

(** [Page::pop] finds an object when one is free. *)
Lemma page_pop_ok idx p pg :
  page_ok idx p pg → 0 < free_count pg →
  ∃ i, hdr pg ≤ Z.of_nat i < max_count pg ∧ used_bit pg i = false ∧
    page_pop link_size p pg = Ok (p + objsize pg * Z.of_nat i, set_bit pg i true).
Proof.
  intros Hp Hf. pose proof (page_bounds _ _ _ Hp) as (Hb & Hm & _). unfold page_pop.
  pose proof (first_unused_spec pg (Z.to_nat (max_count pg) - Z.to_nat (hdr pg)) (Z.to_nat (hdr pg))) as Hs.
  destruct (first_unused _ _ _) as [i|].
  - destruct Hs as [Hi Hu]. exists i. split; [lia|]. done.
  - exfalso. assert (Z.to_nat (max_count pg) ≤ count_true (bv_bits (used pg)))%nat as Hc.
    { apply count_true_prefix; [rewrite (po_bits _ _ _ Hp); lia|]. intros i Hi.
      destruct (Z.lt_ge_cases (Z.of_nat i) (hdr pg)).
      - by apply (po_header _ _ _ Hp).
      - rewrite (page_bit _ _ _ i Hp) by lia. f_equal. apply Hs. lia. }
    unfold free_count in Hf. rewrite (po_count _ _ _ Hp) in Hf. lia.
Qed.

(** [Page::push] of an object of the page that is in use. *)
Lemma page_push_ok idx p pg i :
  page_ok idx p pg → hdr pg ≤ Z.of_nat i < max_count pg → used_bit pg i = true →
  page_push p pg (p + objsize pg * Z.of_nat i) = Ok (set_bit pg i false).
Proof.
  intros Hp Hi Hu. pose proof (page_bounds _ _ _ Hp). pose proof (obj_sizes_range _ _ (po_size _ _ _ Hp)).
  unfold page_push. replace (p + objsize pg * Z.of_nat i - p) with (Z.of_nat i * objsize pg) by lia.
  rewrite Z.div_mul by lia. rewrite (proj2 (Z.leb_le _ _)), (proj2 (Z.ltb_lt _ _)) by lia. cbn.
  rewrite Nat2Z.id, Hu. done.
Qed.

(** A new page. *)
Lemma mark_header_bits n :
  (n ≤ 256)%nat →
  bv_bits (mark_header n (bv_zeros 256)) = replicate n true ++ replicate (256 - n) false.
Proof.
  induction n as [|n IH]; intros Hn; cbn [mark_header]; [by rewrite bv_zeros_bits|].
  specialize (IH ltac:(lia)).
  rewrite bv_set_bits, IH by (rewrite IH, length_app, !length_replicate; lia).
  rewrite insert_app_r_alt by (rewrite length_replicate; lia). rewrite length_replicate, Nat.sub_diag.
  rewrite (replicate_S_end n), <- app_assoc. replace (256 - n)%nat with (S (256 - S n)) by lia. done.
Qed.

Lemma count_true_replicate n m : count_true (replicate n true ++ replicate m false) = n.
Proof.
  induction n as [|n IH]; cbn [replicate app]; [|by rewrite count_true_cons, IH].
  induction m as [|m IHm]; [done|]. cbn [replicate]. by rewrite count_true_cons, IHm.
Qed.

Lemma page_init_ok idx p sz :
  OBJ_SIZES !! idx = Some sz → 0 < p → p mod PAGE_SIZE = 0 →
  page_ok idx p (page_init link_size sz) ∧ 0 < free_count (page_init link_size sz) ∧
  (∀ i, hdr (page_init link_size sz) ≤ Z.of_nat i → used_bit (page_init link_size sz) i = false).
Proof.
  intros Hs Hp0 Hp1. set (pg := page_init link_size sz).
  pose proof (header_bounds pg (obj_sizes_range _ _ Hs)) as (Hb & Hm & _).
  assert (bv_bits (used pg) = replicate (Z.to_nat (hdr pg)) true ++ replicate (256 - Z.to_nat (hdr pg)) false) as Hbits.
  { apply (mark_header_bits (Z.to_nat (hdr pg))). lia. }
  assert (∀ i, hdr pg ≤ Z.of_nat i → used_bit pg i = false) as Hfree.
  { intros i Hi. unfold used_bit. rewrite Hbits, lookup_app_r by (rewrite length_replicate; lia).
    destruct (replicate _ false !! _) as [b|] eqn:E; [|done].
    by apply lookup_replicate in E as [-> _]. }
  split; [|split; [|done]].
  - split; [done|done| | | |].
    + rewrite Hbits, length_app, !length_replicate. lia.
    + intros i Hi. rewrite Hbits, lookup_app_l by (rewrite length_replicate; lia).
      apply lookup_replicate_2. lia.
    + intros i Hi. apply Hfree. lia.
    + rewrite Hbits, count_true_replicate. change (used_count pg) with (hdr pg). lia.
  - unfold free_count. change (used_count pg) with (hdr pg). lia.
Qed.

(** ** The heap *)

Record heap_wf h : Prop := {
  hw_len : length (slabs h) = NR_OBJ_SIZES;
  hw_page idx t p : slabs h !! idx = Some t → p ∈ pt_elems t →
    ∃ pg, pages h !! p = Some pg ∧ page_ok idx p pg;
  hw_tree idx t : slabs h !! idx = Some t → NoDup (pt_elems t) ∧ sorted_by (key_of h) (pt_elems t);
}.

(** The page [p] is in a slab list. *)
Definition owned h (p : Z) : Prop := ∃ idx t, slabs h !! idx = Some t ∧ p ∈ pt_elems t.

(** The objects in use on a page. *)
Definition page_obj (p : Z) pg (a s : Z) : Prop :=
  ∃ i : nat, hdr pg ≤ Z.of_nat i < max_count pg ∧ used_bit pg i = true ∧
    a = p + objsize pg * Z.of_nat i ∧ s = objsize pg.

(** The object of [s] bytes at [a] is in use. *)
Definition live h (a s : Z) : Prop :=
  ∃ idx t p pg, slabs h !! idx = Some t ∧ p ∈ pt_elems t ∧ pages h !! p = Some pg ∧ page_obj p pg a s.

Lemma heap_new_wf (ps : PS) : heap_wf (heap_new ps).
Proof.
  split.
  - apply length_replicate.
  - intros idx t p [-> _]%lookup_replicate. rewrite pt_new_elems. by intros Hp%not_elem_of_nil.
  - intros idx t [-> _]%lookup_replicate. rewrite pt_new_elems. split; constructor.
Qed.

(** A page is in one list. *)
Lemma owned_unique h idx idx' t t' p :
  heap_wf h → slabs h !! idx = Some t → p ∈ pt_elems t → slabs h !! idx' = Some t' → p ∈ pt_elems t' → idx = idx'.
Proof.
  intros Hwf Ht Hp Ht' Hp'. destruct (hw_page _ Hwf _ _ _ Ht Hp) as (pg & Hpg & Hok).
  destruct (hw_page _ Hwf _ _ _ Ht' Hp') as (pg' & Hpg' & Hok'). simplify_eq.
  eapply obj_sizes_inj; [apply Hok|apply Hok'].
Qed.

Lemma sorted_by_ext (key key' : Z → Z) l :
  (∀ x, x ∈ l → key' x = key x) → sorted_by key l → sorted_by key' l.
Proof.
  intros Hk Hs. unfold sorted_by in *. induction Hs as [|x l Hs IH Hf]; constructor.
  - apply IH. intros y Hy. by apply Hk, list_elem_of_further.
  - rewrite Forall_forall in Hf |- *. intros y Hy. rewrite !Hk; [by apply Hf| |].
    + by apply list_elem_of_further.
    + apply list_elem_of_here.
Qed.

Lemma sorted_by_sublist key l l' : l' `sublist_of` l → sorted_by key l → sorted_by key l'.
Proof.
  intros Hsub. unfold sorted_by. induction Hsub as [|x l l' Hsub IH|x l l' Hsub IH]; intros Hs; [done| |].
  - apply StronglySorted_inv in Hs as [Hs Hf]. constructor; [by apply IH|].
    rewrite Forall_forall in Hf |- *. eauto using elem_of_sublist.
  - apply StronglySorted_inv in Hs as [Hs _]. by apply IH.
Qed.

(** A page is (re-)entered in its list: [t0] is the tree without it. *)
Definition put_page h (idx : nat) (t0 : T) (p : Z) pg : heap :=
  let h1 := MkHeap (<[p := pg]> (pages h)) (slabs h) (stat h) (pager h) in
  MkHeap (pages h1) (<[idx := pt_insert (key_of h1) p t0]> (slabs h)) (stat h) (pager h).

Lemma key_of_ne h p pg q : q ≠ p →
  key_of (MkHeap (<[p := pg]> (pages h)) (slabs h) (stat h) (pager h)) q = key_of h q.
Proof. intros Hne. unfold key_of. cbn. by rewrite lookup_insert_ne. Qed.

Section put.
Context (h : heap) (idx : nat) (t t0 : T) (p : Z) (pg' : Page (B:=B)).
Hypothesis Hwf : heap_wf h.
Hypothesis Ht : slabs h !! idx = Some t.
Hypothesis Hsub : pt_elems t0 `sublist_of` pt_elems t.
Hypothesis Hp0 : p ∉ pt_elems t0.
Hypothesis Hpg' : page_ok idx p pg'.
Hypothesis Hother : ∀ idx' t', idx' ≠ idx → slabs h !! idx' = Some t' → p ∉ pt_elems t'.

Let h1 := MkHeap (<[p := pg']> (pages h)) (slabs h) (stat h) (pager h).

Lemma put_tree :
  pt_elems (pt_insert (key_of h1) p t0) ≡ₚ p :: pt_elems t0 ∧
  sorted_by (key_of h1) (pt_elems (pt_insert (key_of h1) p t0)).
Proof.
  apply pt_insert_elems. apply (sorted_by_ext (key_of h)).
  - intros x Hx. apply key_of_ne. intros ->. done.
  - eapply sorted_by_sublist; [exact Hsub|]. by apply (hw_tree _ Hwf idx).
Qed.

Lemma put_slabs idx' t' :
  slabs (put_page h idx t0 p pg') !! idx' = Some t' →
  (idx' = idx ∧ t' = pt_insert (key_of h1) p t0) ∨ (idx' ≠ idx ∧ slabs h !! idx' = Some t').
Proof. cbn. intros [(-> & <- & _)|[Hne ?]]%list_lookup_insert_Some; [by left|right]. auto. Qed.

Lemma put_page_wf : heap_wf (put_page h idx t0 p pg').
Proof.
  pose proof put_tree as [Hpe Hso]. pose proof (hw_tree _ Hwf _ _ Ht) as [Hnd _]. split.
  - cbn. rewrite length_insert. apply Hwf.
  - intros idx' t' q [[-> ->]|[Hne Ht']]%put_slabs Hq.
    + rewrite Hpe in Hq. cbn. apply elem_of_cons in Hq as [->|Hq].
      * rewrite lookup_insert_eq. eauto.
      * rewrite lookup_insert_ne by (intros ->; done). eapply hw_page; [done..|]. by eapply elem_of_sublist.
    + cbn. rewrite lookup_insert_ne; [by eapply hw_page|]. intros ->. by eapply Hother.
  - intros idx' t' [[-> ->]|[Hne Ht']]%put_slabs.
    + split; [|exact Hso]. rewrite Hpe. constructor; [done|]. by eapply sublist_NoDup.
    + destruct (hw_tree _ Hwf _ _ Ht') as [Hnd' Hs']. split; [done|].
      eapply sorted_by_ext; [|exact Hs']. intros x Hx. apply key_of_ne. intros ->. by eapply Hother.
Qed.

Lemma put_page_owned q : owned (put_page h idx t0 p pg') q → q = p ∨ owned h q.
Proof.
  intros (idx' & t' & [[-> ->]|[Hne Ht']]%put_slabs & Hq).
  - rewrite (proj1 put_tree) in Hq. apply elem_of_cons in Hq as [->|Hq]; [by left|right].
    exists idx, t. split; [done|]. by eapply elem_of_sublist.
  - right. by exists idx', t'.
Qed.

Lemma put_page_live a s :
  (∀ q, q ∈ pt_elems t → q = p ∨ q ∈ pt_elems t0) →
  live (put_page h idx t0 p pg') a s ↔
  page_obj p pg' a s ∨ ∃ idx' t' q pg, slabs h !! idx' = Some t' ∧ q ∈ pt_elems t' ∧ q ≠ p ∧
    pages h !! q = Some pg ∧ page_obj q pg a s.
Proof.
  intros Hall. pose proof put_tree as [Hpe _]. split.
  - intros (idx' & t' & q & pg & [[-> ->]|[Hne Ht']]%put_slabs & Hq & Hpg & Hobj).
    + rewrite Hpe in Hq. cbn in Hpg. apply elem_of_cons in Hq as [->|Hq].
      * rewrite lookup_insert_eq in Hpg. simplify_eq. by left.
      * right. assert (q ≠ p) by (intros ->; done). rewrite lookup_insert_ne in Hpg by done.
        exists idx, t, q, pg. split_and!; try done. by eapply elem_of_sublist.
    + right. assert (q ≠ p) by (intros ->; by eapply Hother). cbn in Hpg. rewrite lookup_insert_ne in Hpg by done.
      exists idx', t', q, pg. done.
  - assert (slabs (put_page h idx t0 p pg') !! idx = Some (pt_insert (key_of h1) p t0)) as Hidx.
    { cbn. apply list_lookup_insert_eq. by eapply lookup_lt_Some. }
    intros [Hobj|(idx' & t' & q & pg & Ht' & Hq & Hne & Hpg & Hobj)].
    + exists idx, (pt_insert (key_of h1) p t0), p, pg'. split_and!; [done| | |done].
      * rewrite Hpe. apply list_elem_of_here.
      * apply lookup_insert_eq.
    + destruct (decide (idx' = idx)) as [->|Hnidx].
      * simplify_eq. exists idx, (pt_insert (key_of h1) p t0), q, pg. split_and!; [done| | |done].
        -- rewrite Hpe. apply elem_of_cons. by apply Hall.
        -- cbn. by rewrite lookup_insert_ne.
      * exists idx', t', q, pg. split_and!; try done.
        -- cbn. by rewrite list_lookup_insert_ne.
        -- cbn. by rewrite lookup_insert_ne.
Qed.
End put.
End facts.
