(* ===== verification/HeapSpec.v ===== *)
(** * What the slab heap guarantees

    An allocation returns an object that was not in use, large and aligned enough
    and apart from all others, or null when the pager has no page; freeing an
    object takes exactly that one out of use. *)

From Stdlib Require Import Sorting.Sorted.
From S2P Require Import Base Bits Collections Slices Heap HeapFacts.
Local Open Scope Z_scope.
Local Open Scope h2o_scope.

Section spec.
Context `{P : Profile} {B T PS : Type} `{BV : BitVec B} `{PT : PageTree T} (link_size : Z).
Hypothesis link_range : 0 ≤ link_size ≤ 1024.
Abbreviation hdr := (header_count link_size).
Abbreviation heap := (Heap.heap (B:=B) (T:=T) (PS:=PS)).
Abbreviation heap_wf := (heap_wf link_size).
Abbreviation live := (live link_size).
Implicit Types (pg : Page (B:=B)) (h : heap).

(** Objects of one page apart from the others. *)
Lemma live_split h idx t p pg a s :
  heap_wf h → slabs h !! idx = Some t → p ∈ pt_elems t → pages h !! p = Some pg →
  live h a s ↔ page_obj link_size p pg a s ∨ ∃ idx' t' q pg0, slabs h !! idx' = Some t' ∧ q ∈ pt_elems t' ∧
    q ≠ p ∧ pages h !! q = Some pg0 ∧ page_obj link_size q pg0 a s.
Proof.
  intros Hwf Ht Hp Hpg. split.
  - intros (idx' & t' & q & pg0 & Ht' & Hq & Hpg0 & Hobj). destruct (decide (q = p)) as [->|Hne].
    + simplify_eq. by left.
    + right. exists idx', t', q, pg0. done.
  - intros [Hobj|(idx' & t' & q & pg0 & Ht' & Hq & Hne & Hpg0 & Hobj)].
    + exists idx, t, p, pg. done.
    + exists idx', t', q, pg0. done.
Qed.

Lemma page_obj_set idx p pg i b a s :
  page_ok link_size idx p pg → hdr pg ≤ Z.of_nat i < max_count pg → used_bit pg i = negb b →
  let o := p + objsize pg * Z.of_nat i in
  page_obj link_size p (set_bit pg i b) a s ↔
  if b then page_obj link_size p pg a s ∨ (a = o ∧ s = objsize pg)
  else page_obj link_size p pg a s ∧ a ≠ o.
Proof.
  intros Hok Hi Hu o. pose proof (obj_sizes_range _ _ (po_size _ _ _ _ Hok)) as Hsz. unfold page_obj.
  change (hdr (set_bit pg i b)) with (hdr pg). change (max_count (set_bit pg i b)) with (max_count pg).
  cbn [objsize set_bit].
  assert (∀ j, used_bit (set_bit pg i b) j = if decide (j = i) then b else used_bit pg j) as Hbit.
  { intros j. apply (set_bit_used link_size link_range idx p); [done|lia]. }
  destruct b.
  - split.
    + intros (j & Hj & Huj & -> & ->). rewrite Hbit in Huj. case_decide; [subst; by right|left]. eauto.
    + intros [(j & Hj & Huj & -> & ->)|[-> ->]].
      * exists j. rewrite Hbit. by case_decide.
      * exists i. rewrite Hbit, decide_True by done. done.
  - split.
    + intros (j & Hj & Huj & -> & ->). rewrite Hbit in Huj. case_decide; [done|]. split; [eauto|].
      unfold o. intros Heq. assert (Z.of_nat j = Z.of_nat i); [nia|lia].
    + intros [(j & Hj & Huj & -> & ->) Hne]. exists j. rewrite Hbit.
      rewrite decide_False; [done|]. intros ->. done.
Qed.

(** The page of an object. *)
Lemma page_base_obj idx p pg i :
  page_ok link_size idx p pg → 0 ≤ i < max_count pg → page_base (p + objsize pg * i) = p.
Proof.
  intros Hok Hi. pose proof (page_bounds link_size link_range _ _ _ Hok) as (_ & _ & Hm).
  pose proof (obj_sizes_range _ _ (po_size _ _ _ _ Hok)). destruct (po_base _ _ _ _ Hok) as [_ Ha].
  unfold page_base. rewrite Z.add_mod, Ha, Z.add_0_l, Z.mod_mod by done.
  rewrite Z.mod_small; [lia|]. unfold PAGE_SIZE in *. nia.
Qed.

(** Different objects do not overlap. *)
Lemma live_disjoint h a s a' s' :
  heap_wf h → live h a s → live h a' s' → a = a' ∧ s = s' ∨ a + s ≤ a' ∨ a' + s' ≤ a.
Proof.
  intros Hwf (idx & t & p & pg & Ht & Hp & Hpg & i & Hi & _ & -> & ->)
    (idx' & t' & p' & pg' & Ht' & Hp' & Hpg' & i' & Hi' & _ & -> & ->).
  destruct (hw_page _ _ Hwf _ _ _ Ht Hp) as (q & Hq & Hok). destruct (hw_page _ _ Hwf _ _ _ Ht' Hp') as (q' & Hq' & Hok').
  simplify_eq. pose proof (page_bounds link_size link_range _ _ _ Hok) as (Hb & _ & Hm).
  pose proof (page_bounds link_size link_range _ _ _ Hok') as (Hb' & _ & Hm').
  pose proof (obj_sizes_range _ _ (po_size _ _ _ _ Hok)). pose proof (obj_sizes_range _ _ (po_size _ _ _ _ Hok')).
  destruct (decide (p = p')) as [->|Hne].
  - simplify_eq. destruct (decide (i = i')) as [->|Hni]; [by left|right].
    destruct (Z.lt_ge_cases (Z.of_nat i) (Z.of_nat i')); [left|right]; nia.
  - right. destruct (po_base _ _ _ _ Hok) as [_ Ha]. destruct (po_base _ _ _ _ Hok') as [_ Ha'].
    apply Z.div_exact in Ha; [|done]. apply Z.div_exact in Ha'; [|done].
    assert (objsize pg * (Z.of_nat i + 1) ≤ PAGE_SIZE) by nia.
    assert (objsize pg' * (Z.of_nat i' + 1) ≤ PAGE_SIZE) by nia.
    unfold PAGE_SIZE in *. destruct (Z.lt_ge_cases p p'); [left|right]; nia.
Qed.

(** Objects of other pages are elsewhere. *)
Lemma other_page_obj h idx p pg i idx' t' q pg0 b s :
  heap_wf h → page_ok link_size idx p pg → 0 ≤ i < max_count pg →
  slabs h !! idx' = Some t' → q ∈ pt_elems t' → q ≠ p → pages h !! q = Some pg0 →
  page_obj link_size q pg0 b s → b ≠ p + objsize pg * i.
Proof.
  intros Hwf Hok Hi Ht' Hq Hne Hpg0 (j & Hj & _ & -> & _) Heq.
  destruct (hw_page _ _ Hwf _ _ _ Ht' Hq) as (pg1 & Hpg1 & Hok1). simplify_eq.
  pose proof (page_bounds link_size link_range _ _ _ Hok1).
  apply Hne. rewrite <- (page_base_obj idx' q pg0 (Z.of_nat j)), Heq by (done || lia).
  by apply (page_base_obj idx).
Qed.

Lemma slab_at_ok idx h t : slabs h !! idx = Some t → slab_at idx h = (Ok t, h).
Proof. intros Ht. unfold slab_at. rewrite st_get_bind. unfold lift. by rewrite Ht. Qed.

(** ** Taking an object from a list *)

(** [o] bytes at [a] were put in use. *)
Definition allocated h h' (a o : Z) : Prop :=
  heap_wf h' ∧ (∀ b s, live h' b s ↔ live h b s ∨ (b = a ∧ s = o)) ∧ (∀ s, ¬ live h a s) ∧
  (∀ p, owned h' p → owned h p).

(** A tree and the same without one of its pages. *)
Lemma tree_without (t t0 : T) xs p ys :
  pt_elems t = xs ++ p :: ys → pt_elems t0 = xs ++ ys → NoDup (pt_elems t) →
  p ∉ pt_elems t0 ∧ pt_elems t0 `sublist_of` pt_elems t ∧ (∀ q, q ∈ pt_elems t → q = p ∨ q ∈ pt_elems t0).
Proof.
  intros Hel Hel0 Hnd. rewrite Hel in Hnd. apply NoDup_app in Hnd as (Hn1 & Hn2 & Hn3).
  apply NoDup_cons in Hn3 as [Hn3 Hn4]. split_and!.
  - rewrite Hel0. intros [Hx|Hy]%elem_of_app; [|done]. by apply (Hn2 p Hx), list_elem_of_here.
  - rewrite Hel, Hel0. apply sublist_app; [done|]. by apply sublist_cons.
  - intros q. rewrite Hel, Hel0, !elem_of_app, elem_of_cons. tauto.
Qed.

(** Entering a page that was written back in the tree again. *)
Lemma extend_run idx (t0 : T) p pg' h :
  (idx < length (slabs h))%nat →
  slab_extend idx p (MkHeap (<[p := pg']> (pages h)) (<[idx := t0]> (slabs h)) (stat h) (pager h)) =
    (Ok (), put_page h idx t0 p pg').
Proof.
  intros Hlt. set (hB := MkHeap (<[p := pg']> (pages h)) (<[idx := t0]> (slabs h)) (stat h) (pager h)).
  unfold slab_extend.
  rewrite (st_bind_ok _ _ _ _ _ (slab_at_ok idx hB t0 (list_lookup_insert_eq _ _ _ Hlt))), st_get_bind.
  unfold set_slab, modify, put_page. cbn [pages slabs stat pager hB]. by rewrite list_insert_insert_eq.
Qed.

Lemma slab_pop_run idx t h :
  heap_wf h → slabs h !! idx = Some t →
  match slab_pop link_size idx h with
  | (Ok a, h') => ∃ p pg i t0 xs ys, pt_elems t = xs ++ p :: ys ∧ pt_elems t0 = xs ++ ys ∧
      pages h !! p = Some pg ∧ page_ok link_size idx p pg ∧ hdr pg ≤ Z.of_nat i < max_count pg ∧
      used_bit pg i = false ∧ a = p + objsize pg * Z.of_nat i ∧ h' = put_page h idx t0 p (set_bit pg i true)
  | (Err NeedExt, h') => h' = h ∧ ∀ p, p ∈ pt_elems t → key_of h p ≤ 0
  | _ => False
  end.
Proof.
  intros Hwf Ht. unfold slab_pop. rewrite (st_bind_ok _ _ _ _ _ (slab_at_ok idx h t Ht)), st_get_bind.
  destruct (hw_tree _ _ Hwf _ _ Ht) as [Hnd Hso].
  pose proof (pt_lower_bound_elems (key_of h) 0 t Hso) as Hl.
  destruct (pt_lower_bound_remove (key_of h) 0 t) as [[p|] t0].
  2:{ destruct Hl as [-> Hk]. rewrite (st_bind_ok _ _ _ () h); [done|].
      unfold set_slab, modify. rewrite list_insert_id by done. by destruct h. }
  destruct Hl as (xs & ys & Hel & Hel0 & _ & Hkey).
  assert (p ∈ pt_elems t) as Hp by (rewrite Hel; apply elem_of_app; right; apply list_elem_of_here).
  destruct (hw_page _ _ Hwf _ _ _ Ht Hp) as (pg & Hpg & Hok).
  unfold key_of in Hkey. rewrite Hpg in Hkey.
  destruct (page_pop_ok link_size link_range idx p pg Hok Hkey) as (i & Hi & Hu & Hpop).
  rewrite (st_bind_ok _ _ _ () (MkHeap (pages h) (<[idx := t0]> (slabs h)) (stat h) (pager h))) by done.
  rewrite (st_lift_ok _ _ _ pg) by (by rewrite Hpg). rewrite (st_lift_ok _ _ _ _ Hpop).
  cbv beta iota zeta.
  rewrite (st_bind_ok _ _ _ () (MkHeap (<[p := set_bit pg i true]> (pages h)) (<[idx := t0]> (slabs h)) (stat h) (pager h))) by done.
  rewrite (st_bind_ok _ _ _ _ _ (extend_run idx t0 p (set_bit pg i true) h ltac:(by eapply lookup_lt_Some))).
  exists p, pg, i, t0, xs, ys. done.
Qed.

Lemma slab_pop_ok idx t h :
  heap_wf h → slabs h !! idx = Some t →
  match slab_pop link_size idx h with
  | (Ok a, h') => ∃ p pg i, page_ok link_size idx p pg ∧ 0 ≤ i < max_count pg ∧
      a = p + objsize pg * i ∧ allocated h h' a (objsize pg) ∧ stat h' = stat h ∧ pager h' = pager h
  | (Err NeedExt, h') => h' = h ∧ ∀ p, p ∈ pt_elems t → key_of h p ≤ 0
  | _ => False
  end.
Proof.
  intros Hwf Ht. pose proof (slab_pop_run idx t h Hwf Ht) as Hr.
  destruct (slab_pop link_size idx h) as [[a|[]|] h']; [|done..].
  destruct Hr as (p & pg & i & t0 & xs & ys & Hel & Hel0 & Hpg & Hok & Hi & Hu & -> & ->).
  destruct (tree_without t t0 xs p ys Hel Hel0) as (Hp0 & Hsub & Hall); [by apply (hw_tree _ _ Hwf idx)|].
  assert (p ∈ pt_elems t) as Hp by (rewrite Hel; apply elem_of_app; right; apply list_elem_of_here).
  assert (∀ idx' t', idx' ≠ idx → slabs h !! idx' = Some t' → p ∉ pt_elems t') as Hoth.
  { intros idx' t' Hne Ht' Hp'. apply Hne. by eapply (owned_unique link_size h). }
  assert (page_ok link_size idx p (set_bit pg i true)) as Hok' by (by apply set_bit_ok).
  pose proof (page_bounds link_size link_range _ _ _ Hok).
  exists p, pg, (Z.of_nat i). split; [done|]. split; [lia|]. split; [done|]. split; [|done].
  split; [by eapply put_page_wf|]. split_and!.
  - intros b s. rewrite (put_page_live link_size h idx t t0 p) by done.
    rewrite (live_split h idx t p pg) by done. rewrite (page_obj_set idx) by done. tauto.
  - intros s. rewrite (live_split h idx t p pg) by done.
    intros [(j & Hj & Huj & Heq & _)|(idx' & t' & q & pg0 & Ht' & Hq & Hne & Hpg0 & Hobj)].
    + pose proof (obj_sizes_range _ _ (po_size _ _ _ _ Hok)).
      assert (Z.of_nat j = Z.of_nat i) by nia. assert (j = i) as -> by lia. congruence.
    + eapply (other_page_obj h idx p pg (Z.of_nat i)); [done|done|lia|done..].
  - intros q Hq. eapply put_page_owned in Hq as [->|Hq]; [|done..]. by exists idx, t.
Qed.

(** ** Giving an object back *)

(** The object at [a] was taken out of use. *)
Definition freed h h' (a : Z) : Prop :=
  heap_wf h' ∧ (∀ b s, live h' b s ↔ live h b s ∧ b ≠ a) ∧ (∀ p, owned h' p → owned h p).

(** An object of the list [idx]. *)
Definition live_in h (idx : nat) (a : Z) : Prop :=
  ∃ t p pg, slabs h !! idx = Some t ∧ p ∈ pt_elems t ∧ pages h !! p = Some pg ∧
    page_obj link_size p pg a (objsize pg).

Lemma slab_push_ok idx a h :
  heap_wf h → live_in h idx a →
  ∃ h', slab_push idx a h = (Ok None, h') ∧ freed h h' a ∧ stat h' = stat h ∧ pager h' = pager h.
Proof.
  intros Hwf (t & p & pg & Ht & Hp & Hpg & i & Hi & Hu & -> & _).
  destruct (hw_page _ _ Hwf _ _ _ Ht Hp) as (pg1 & Hpg1 & Hok). simplify_eq.
  pose proof (page_bounds link_size link_range _ _ _ Hok) as (Hb & Hm & _).
  unfold slab_push. rewrite (page_base_obj idx p pg) by (done || lia).
  destruct (Z.eqb_spec p 0) as [->|_]; [by destruct (po_base _ _ _ _ Hok)|].
  rewrite st_get_bind, (st_lift_ok _ _ _ pg) by (by rewrite Hpg).
  rewrite (st_lift_ok _ _ _ _ (page_push_ok link_size link_range idx p pg i Hok Hi Hu)).
  set (pg' := set_bit pg i false). set (h1 := MkHeap (<[p := pg']> (pages h)) (slabs h) (stat h) (pager h)).
  rewrite (st_bind_ok _ _ _ () h1) by done. rewrite (st_bind_ok _ _ _ _ _ (slab_at_ok idx h1 t Ht)).
  assert (page_ok link_size idx p pg') as Hok' by (by apply set_bit_ok).
  assert (used_count pg' < max_count pg') as Hlt.
  { change (used_count pg') with (used_count pg - 1). change (max_count pg') with (max_count pg).
    pose proof (page_count_le link_size link_range idx p pg Hok). lia. }
  rewrite (proj2 (Z.ltb_lt _ _) Hlt).
  assert (p ∈ pt_elems t) as Hin by done. apply list_elem_of_split in Hin as (xs & ys & Hel).
  destruct (hw_tree _ _ Hwf _ _ Ht) as [Hnd _].
  pose proof (pt_remove_elems t p xs ys Hel Hnd) as Hel0. set (t0 := pt_remove p t) in *.
  rewrite (st_bind_ok _ _ _ () (MkHeap (<[p := pg']> (pages h)) (<[idx := t0]> (slabs h)) (stat h) (pager h))) by done.
  rewrite (st_bind_ok _ _ _ _ _ (extend_run idx t0 p pg' h ltac:(by eapply lookup_lt_Some))).
  destruct (tree_without t t0 xs p ys Hel Hel0 Hnd) as (Hp0 & Hsub & Hall).
  assert (∀ idx' t', idx' ≠ idx → slabs h !! idx' = Some t' → p ∉ pt_elems t') as Hoth.
  { intros idx' t' Hne Ht' Hp'. apply Hne. by eapply (owned_unique link_size h). }
  eexists. split; [done|]. split; [|done]. split; [by eapply put_page_wf|]. split.
  - intros b s. rewrite (put_page_live link_size h idx t t0 p) by done.
    rewrite (live_split h idx t p pg) by done. unfold pg'. rewrite (page_obj_set idx) by done.
    assert (∀ q pg0 idx' t', slabs h !! idx' = Some t' → q ∈ pt_elems t' → q ≠ p → pages h !! q = Some pg0 →
      page_obj link_size q pg0 b s → b ≠ p + objsize pg * Z.of_nat i) as Hne; [|naive_solver].
    intros q pg0 idx' t'. eapply other_page_obj; [done|done|lia].
  - intros q Hq. eapply put_page_owned in Hq as [->|Hq]; [|done..]. by exists idx, t.
Qed.

(** ** The pool *)

(** A layout that a slab list serves. *)
Record small (l : Layout) (k : Z) : Prop := {
  sm_size : 0 < size l;
  sm_align : 0 ≤ k ∧ align l = 2 ^ k;
  sm_max : pad_to_align l ≤ MAX_OBJ_SIZE;
}.

Definition index_of (l : Layout) : nat := search (pad_to_align l) OBJ_SIZES.

(** The statistics are far from the range of a word. *)
Definition stat_below (n : Z) (s : Stat) : Prop :=
  0 ≤ capacity s < n ∧ 0 ≤ in_cnt s < n ∧ 0 ≤ out_cnt s < n ∧ 0 ≤ current_used s < n.
Definition stat_ok : Stat → Prop := stat_below (2 ^ 63).

Lemma small_pad l k : small l k → size l ≤ pad_to_align l ∧ pad_to_align l mod 2 ^ k = 0 ∧ 0 < pad_to_align l.
Proof.
  intros [Hs [Hk Ha] Hm]. destruct (pad_to_align_spec l k Hk Ha ltac:(lia)). split_and!; [done..|lia].
Qed.

Lemma small_index l k : small l k →
  unwrap_layout id l = Ok (index_of l) ∧ ∃ sz, OBJ_SIZES !! index_of l = Some sz ∧ pad_to_align l ≤ sz ∧ sz mod 2 ^ k = 0.
Proof.
  intros Hl. pose proof (small_pad l k Hl) as (Hp & Hm & Hpos).
  destruct (search_spec (pad_to_align l) Hpos (sm_max _ _ Hl)) as (sz & Hsz & Hle). split.
  - unfold unwrap_layout. rewrite (proj2 (Z.eqb_neq _ _)) by (pose proof (sm_size _ _ Hl); lia).
    fold (index_of l). rewrite (proj2 (Nat.ltb_lt _ _)); [done|]. by eapply lookup_lt_Some.
  - exists sz. split_and!; [done..|]. eapply (search_aligned (pad_to_align l)); [|split; [lia|]| |done].
    + apply Hl.
    + apply Hl.
    + done.
Qed.

Lemma small_slab h l k : heap_wf h → small l k → ∃ t, slabs h !! index_of l = Some t.
Proof.
  intros Hwf Hl. destruct (small_index l k Hl) as (_ & sz & Hsz & _).
  apply lookup_lt_is_Some_2. rewrite (hw_len _ _ Hwf). by eapply lookup_lt_Some.
Qed.

(** The new object fits the layout. *)
Definition fits_layout (l : Layout) (a o : Z) : Prop :=
  a ≠ 0 ∧ a mod align l = 0 ∧ size l ≤ o.

Lemma object_fits idx p pg i l k :
  small l k → idx = index_of l → page_ok link_size idx p pg → 0 ≤ i →
  fits_layout l (p + objsize pg * i) (objsize pg).
Proof.
  intros Hl -> Hok Hi. destruct (small_index l k Hl) as (_ & sz & Hsz & Hle & Ha).
  pose proof (small_pad l k Hl) as (Hp & _ & _). destruct (po_base _ _ _ _ Hok) as [Hp0 Hpa].
  pose proof (po_size _ _ _ _ Hok) as Hs. rewrite Hsz in Hs. injection Hs as <-.
  pose proof (obj_sizes_range _ _ Hsz). unfold fits_layout. destruct (sm_align _ _ Hl) as [Hk ->].
  split; [nia|]. split; [|lia].
  assert (k ≤ 10) as Hk10.
  { destruct (Z.le_gt_cases k 10); [done|]. exfalso.
    pose proof (Z.pow_le_mono_r 2 11 k ltac:(lia) ltac:(lia)). rewrite Z.mod_small in Ha by lia. lia. }
  assert (p mod 2 ^ k = 0) as Hpk.
  { apply Z.mod_divide; [lia|]. apply Z.mod_divide in Hpa; [|done]. etransitivity; [|exact Hpa].
    exists (2 ^ (12 - k)). unfold PAGE_SIZE. rewrite <- Z.pow_add_r by lia. by replace (12 - k + k) with 12 by lia. }
  pose proof (pow2_pos k Hk).
  apply Z.mod_divide in Hpk, Ha; [|lia..]. apply Z.mod_divide; [lia|].
  apply Z.divide_add_r; [done|]. by apply Z.divide_mul_l.
Qed.

(** ** Allocation *)

Lemma stat_allocate_ok {E} s n : stat_ok s → 0 ≤ n < 2 ^ 62 → ∃ s', stat_allocate (E:=E) s n = Ok s'.
Proof.
  intros (H1 & H2 & H3 & H4) Hn. unfold stat_allocate. rewrite uadd_ok by lia. cbn. rewrite uadd_ok by lia. eauto.
Qed.

Lemma live_same h h' : pages h' = pages h → slabs h' = slabs h → ∀ a s, live h' a s ↔ live h a s.
Proof. intros Hp Hs a s. unfold HeapFacts.live. by rewrite Hp, Hs. Qed.

Lemma wf_same h h' : pages h' = pages h → slabs h' = slabs h → heap_wf h → heap_wf h'.
Proof.
  intros Hp Hs [H1 H2 H3]. split; rewrite ?Hs, ?Hp; [done..|].
  intros idx t Ht. destruct (H3 idx t Ht) as [Hnd Hso]. split; [done|].
  eapply sorted_by_ext; [|exact Hso]. intros x _. unfold key_of. by rewrite Hp.
Qed.

Lemma pool_allocate_ok l k h :
  heap_wf h → small l k → stat_ok (stat h) →
  match pool_allocate link_size l h with
  | (Ok a, h') => ∃ o, fits_layout l a o ∧ allocated h h' a o ∧ pager h' = pager h
  | (Err NeedExt, h') => h' = h ∧ ∀ t p, slabs h !! index_of l = Some t → p ∈ pt_elems t → key_of h p ≤ 0
  | _ => False
  end.
Proof.
  intros Hwf Hl Hst. unfold pool_allocate. destruct (small_index l k Hl) as [Hu _].
  rewrite (st_lift_ok _ _ _ _ Hu). destruct (small_slab h l k Hwf Hl) as [t Ht].
  pose proof (slab_pop_ok (index_of l) t h Hwf Ht) as Hp. unfold mbind at 1, st_bind at 1.
  destruct (slab_pop link_size (index_of l) h) as [[a|[]|] h1]; [|done| |done..].
  2:{ destruct Hp as [-> Hk]. split; [done|]. intros t' p Ht'. simplify_eq. apply Hk. }
  destruct Hp as (p & pg & i & Hok & Hi & -> & (Hwf1 & Hlive & Hnot & Hown) & Hs1 & Hp1).
  rewrite st_get_bind, Hs1. pose proof (small_pad l k Hl) as (_ & _ & Hpos). pose proof (sm_max _ _ Hl) as Hmax.
  unfold MAX_OBJ_SIZE in Hmax.
  destruct (stat_allocate_ok (E:=herror) (stat h) (pad_to_align l) Hst ltac:(lia)) as [s' Hs'].
  rewrite (st_lift_ok _ _ _ _ Hs').
  rewrite (st_bind_ok _ _ _ () (MkHeap (pages h1) (slabs h1) s' (pager h1))) by reflexivity.
  unfold mret, st_ret. cbv beta iota.
  exists (objsize pg). split; [apply (object_fits (index_of l) p pg i l k); [done..|lia]|]. split; [|exact Hp1].
  split; [by apply (wf_same h1)|]. split; [|done].
  intros b s. rewrite <- Hlive. by apply live_same.
Qed.

(** A page from the pager that the heap does not have yet. *)
Definition new_page h (p : Z) : Prop := 0 < p ∧ p mod PAGE_SIZE = 0 ∧ ¬ owned h p.

Lemma pool_extend_ok l k h p :
  heap_wf h → small l k → stat_below (2 ^ 62) (stat h) → new_page h p →
  ∃ h' t, pool_extend link_size l p h = (Ok (), h') ∧ heap_wf h' ∧ (∀ a s, live h' a s ↔ live h a s) ∧
    stat_ok (stat h') ∧ slabs h' !! index_of l = Some t ∧ p ∈ pt_elems t ∧ 0 < key_of h' p.
Proof.
  intros Hwf Hl Hst (Hp0 & Hpa & Hown). destruct (small_index l k Hl) as (Hu & sz & Hsz & _).
  destruct (small_slab h l k Hwf Hl) as [t Ht]. set (idx := index_of l) in *.
  destruct (page_init_ok link_size link_range idx p sz Hsz Hp0 Hpa) as (Hok & Hfree & Hnone).
  set (pg := page_init link_size sz) in *.
  assert (p ∉ pt_elems t) as Hpt by (intros Hin; apply Hown; by exists idx, t).
  assert (∀ idx' t', idx' ≠ idx → slabs h !! idx' = Some t' → p ∉ pt_elems t') as Hoth.
  { intros idx' t' _ Ht' Hin. apply Hown. by exists idx', t'. }
  set (h1 := put_page h idx t p pg).
  assert (heap_wf h1) as Hwf1 by (by eapply put_page_wf).
  destruct Hst as (H1 & H2 & H3 & H4).
  assert (stat_extend (stat h1) PAGE_SIZE = @Ok herror Stat (MkStat (capacity (stat h) + PAGE_SIZE) (in_cnt (stat h)) (out_cnt (stat h)) (current_used (stat h)))) as Hs.
  { unfold stat_extend, PAGE_SIZE. rewrite uadd_ok by (change (stat h1) with (stat h); lia). reflexivity. }
  set (s' := MkStat (capacity (stat h) + PAGE_SIZE) _ _ _) in Hs.
  exists (MkHeap (pages h1) (slabs h1) s' (pager h1)), (pt_insert (key_of (MkHeap (<[p := pg]> (pages h)) (slabs h) (stat h) (pager h))) p t).
  pose proof (put_tree link_size h idx t t p pg Hwf Ht ltac:(done) Hpt) as [Hpe _].
  split_and!.
  - unfold pool_extend. rewrite (st_lift_ok _ _ _ _ Hu). rewrite (st_lift_ok _ _ _ sz) by (by rewrite Hsz).
    rewrite (st_bind_ok _ _ _ () (MkHeap (<[p := pg]> (pages h)) (<[idx := t]> (slabs h)) (stat h) (pager h))).
    2:{ unfold set_page, modify. by rewrite list_insert_id. }
    rewrite (st_bind_ok _ _ _ _ _ (extend_run idx t p pg h ltac:(by eapply lookup_lt_Some))).
    rewrite st_get_bind, (st_lift_ok _ _ _ _ Hs). reflexivity.
  - by apply (wf_same h1).
  - intros a s. rewrite (live_same h1) by done. unfold h1.
    rewrite (put_page_live link_size h idx t t p pg) by auto.
    split.
    + intros [(i & Hi & Hbit & _)|(idx' & t' & q & pg0 & Ht' & Hq & _ & Hpg0 & Hobj)].
      * by rewrite Hnone in Hbit by lia.
      * by exists idx', t', q, pg0.
    + intros (idx' & t' & q & pg0 & Ht' & Hq & Hpg0 & Hobj). right. exists idx', t', q, pg0. split_and!; try done.
      intros ->. apply Hown. by exists idx', t'.
  - unfold stat_ok, stat_below, s', PAGE_SIZE. cbn [stat capacity in_cnt out_cnt current_used]. lia.
  - apply list_lookup_insert_eq. by eapply lookup_lt_Some.
  - rewrite Hpe. apply list_elem_of_here.
  - unfold key_of. change (pages (MkHeap (pages h1) (slabs h1) s' (pager h1))) with (<[p := pg]> (pages h)).
    by rewrite lookup_insert_eq.
Qed.

(** What a successful allocation did. *)
Definition alloc_result h h' (l : Layout) (a : Z) : Prop :=
  ∃ o, fits_layout l a o ∧ heap_wf h' ∧ (∀ b s, live h' b s ↔ live h b s ∨ (b = a ∧ s = o)) ∧
    (∀ b s, live h b s → b + s ≤ a ∨ a + o ≤ b).

Lemma alloc_result_intro h0 h h' l a o :
  heap_wf h → (∀ b s, live h b s ↔ live h0 b s) → fits_layout l a o → allocated h h' a o → alloc_result h0 h' l a.
Proof.
  intros Hwf Hsame Hfit (Hwf' & Hlive & Hnot & _). exists o. split_and!; [done..| |].
  - intros b s. by rewrite Hlive, Hsame.
  - intros b s Hb. apply Hsame in Hb.
    destruct (live_disjoint h' b s a o) as [[-> _]|H]; [done|..|done].
    + apply Hlive. by left.
    + apply Hlive. by right.
    + by destruct (Hnot s).
Qed.

Context (alloc_pages : Z → PS → option Z * PS) (dealloc_pages : Z → Z → PS → PS).

(** C34: An allocation of at most 1920 bytes returns an object that is aligned as
    asked, at least as large as asked and apart from every object in use, and
    puts exactly it in use; it returns null only when the pager has no page. It
    never panics. *)
Theorem heap_alloc_spec l k h :
  heap_wf h → small l k → stat_below (2 ^ 62) (stat h) →
  (∀ p ps, alloc_pages 1 (pager h) = (Some p, ps) → new_page h p) →
  match heap_alloc link_size alloc_pages l h with
  | (Ok a, h') =>
      alloc_result h h' l a ∨
      (a = 0 ∧ fst (alloc_pages 1 (pager h)) = None ∧ heap_wf h' ∧ ∀ b s, live h' b s ↔ live h b s)
  | _ => False
  end.
Proof.
  intros Hwf Hl Hst Hnew. unfold heap_alloc. rewrite (proj2 (Z.leb_le _ _) (sm_max _ _ Hl)).
  assert (stat_ok (stat h)) as Hst' by (unfold stat_ok, stat_below in *; lia).
  pose proof (pool_allocate_ok l k h Hwf Hl Hst') as Hp. unfold mbind at 1, st_bind at 1, attempt at 1.
  destruct (pool_allocate link_size l h) as [[a|[]|] h1]; [|done| |done..].
  { destruct Hp as (o & Hfit & Hall & _). left. by eapply alloc_result_intro. }
  destruct Hp as [-> _]. unfold mbind at 1, st_bind at 1, pager_alloc.
  destruct (alloc_pages 1 (pager h)) as [[p|] ps] eqn:Hpa.
  2:{ right. split_and!; [done..| |]; [by apply (wf_same h)|]. by apply live_same. }
  set (h2 := MkHeap (pages h) (slabs h) (stat h) ps).
  assert (heap_wf h2) as Hwf2 by (by apply (wf_same h)).
  destruct (pool_extend_ok l k h2 p Hwf2 Hl Hst (Hnew p ps eq_refl)) as (h3 & t & He & Hwf3 & Hlive3 & Hst3 & Ht3 & Hp3 & Hk3).
  rewrite (st_bind_ok _ _ _ (inr ()) h3) by (unfold attempt; by rewrite He).
  rewrite (st_lift_ok _ _ _ ()) by reflexivity.
  pose proof (pool_allocate_ok l k h3 Hwf3 Hl Hst3) as Hp. unfold mbind at 1, st_bind at 1, attempt.
  destruct (pool_allocate link_size l h3) as [[a|[]|] h4]; [|done| |done..].
  - destruct Hp as (o & Hfit & Hall & _). left. eapply (alloc_result_intro h h3); [done| |done..].
    intros b s. rewrite Hlive3. by apply live_same.
  - destruct Hp as [_ Hk]. specialize (Hk t p Ht3 Hp3). lia.
Qed.

Lemma stat_deallocate_ok {E} s n :
  stat_ok s → 0 ≤ n ≤ current_used s → ∃ s', stat_deallocate (E:=E) s n = Ok s'.
Proof.
  intros (H1 & H2 & H3 & H4) Hn. unfold stat_deallocate. rewrite uadd_ok by lia. cbn. rewrite usub_ok by lia. eauto.
Qed.

(** Freeing an object of the list that its layout belongs to takes exactly
    that object out of use. The page is never given back to the pager, even when
    its last object is freed. *)
Theorem heap_dealloc_spec l k h a :
  heap_wf h → small l k → stat_ok (stat h) → pad_to_align l ≤ current_used (stat h) →
  live_in h (index_of l) a →
  ∃ h', heap_dealloc dealloc_pages a l h = (Ok (), h') ∧ heap_wf h' ∧
    (∀ b s, live h' b s ↔ live h b s ∧ b ≠ a) ∧ pager h' = pager h.
Proof.
  intros Hwf Hl Hst Hused Ha. unfold heap_dealloc. rewrite (proj2 (Z.leb_le _ _) (sm_max _ _ Hl)).
  destruct (slab_push_ok (index_of l) a h Hwf Ha) as (h1 & Hpush & (Hwf1 & Hlive & _) & Hs1 & Hp1).
  pose proof (small_pad l k Hl) as (_ & _ & Hpos).
  destruct (stat_deallocate_ok (E:=herror) (stat h) (pad_to_align l) Hst ltac:(lia)) as [s' Hs'].
  set (h2 := MkHeap (pages h1) (slabs h1) s' (pager h1)).
  assert (pool_deallocate a l h = (Ok None, h2)) as Hd.
  { unfold pool_deallocate. rewrite (st_lift_ok _ _ _ _ (proj1 (small_index l k Hl))).
    rewrite (st_bind_ok _ _ _ _ _ Hpush), st_get_bind, Hs1. by rewrite (st_lift_ok _ _ _ _ Hs'). }
  exists h2. split.
  - by rewrite (st_bind_ok _ _ _ (inr None) h2) by (unfold attempt; by rewrite Hd).
  - split; [by apply (wf_same h1)|]. split; [|done]. intros b s. rewrite <- Hlive. by apply live_same.
Qed.
End spec.

(** ** The thread cache on an empty pool *)

Section tcache.
Context `{P : Profile} {B T PS : Type} `{BV : BitVec B} `{PT : PageTree T} (link_size : Z).
Context (alloc_pages : Z → PS → option Z * PS).

Lemma pool_allocate_empty (ps : PS) l :
  ∃ e, pool_allocate (B:=B) (T:=T) link_size l (heap_new ps) = (Err e, heap_new ps).
Proof.
  unfold pool_allocate. destruct (unwrap_layout id l) as [idx|e|] eqn:Hu.
  - assert (idx < NR_OBJ_SIZES)%nat as Hidx.
    { unfold unwrap_layout in Hu. destruct (size l =? 0); [done|].
      destruct (Nat.ltb_spec (search (pad_to_align l) OBJ_SIZES) NR_OBJ_SIZES); [by simplify_eq|done]. }
    rewrite (st_lift_ok _ _ _ _ eq_refl). exists NeedExt.
    assert (slab_pop (B:=B) (T:=T) link_size idx (heap_new ps) = (Err NeedExt, heap_new ps)) as Hp; [|by rewrite (st_bind_err _ _ _ _ _ Hp)].
    assert (slabs (heap_new (B:=B) (T:=T) ps) !! idx = Some pt_new) as Ht by (by apply lookup_replicate_2).
    unfold slab_pop. rewrite (st_bind_ok _ _ _ _ _ (slab_at_ok idx _ _ Ht)), st_get_bind.
    pose proof (pt_lower_bound_elems (key_of (heap_new (B:=B) (T:=T) ps)) 0 pt_new) as Hl. rewrite pt_new_elems in Hl.
    specialize (Hl ltac:(constructor)). destruct (pt_lower_bound_remove _ _ _) as [[p|] t0].
    + destruct Hl as (xs & ys & Hel & _). by destruct xs.
    + destruct Hl as [-> _]. rewrite (st_bind_ok _ _ _ () (heap_new ps)); [done|].
      unfold set_slab, modify. by rewrite list_insert_id.
  - by exists e.
  - unfold unwrap_layout in Hu. destruct (size l =? 0); [done|]. by destruct (_ <? _)%nat.
Qed.

(** With the thread cache a heap never gets its first page: the cache asks
    the empty pool for memory of its own, reports the lack as an internal error
    instead of a need for pages, and the allocation returns null and leaves the
    heap and the pager as they were. *)
Theorem tcache_never_extends (ps : PS) l :
  pad_to_align l ≤ MAX_OBJ_SIZE →
  heap_alloc_tc (B:=B) (T:=T) link_size alloc_pages l (heap_new ps, tcache_new) =
    (Ok 0, (heap_new ps, tcache_new)).
Proof.
  intros Hs. unfold heap_alloc_tc. rewrite (proj2 (Z.leb_le _ _) Hs).
  assert (∃ e, e ≠ NeedExt ∧ tc_allocate (B:=B) (T:=T) link_size l (heap_new ps, tcache_new) =
    (Err e, (heap_new ps, tcache_new))) as (e & Hne & He).
  2:{ rewrite (st_bind_ok _ _ _ (inl e) (heap_new ps, tcache_new)) by (unfold attempt; by rewrite He). by destruct e. }
  unfold tc_allocate. destruct (unwrap_layout id l) as [i|e|] eqn:Hu.
  - rewrite (st_lift_ok _ _ _ _ eq_refl). exists Internal. split; [done|].
    assert (i < NR_OBJ_SIZES)%nat as Hi.
    { unfold unwrap_layout in Hu. destruct (size l =? 0); [done|].
      destruct (Nat.ltb_spec (search (pad_to_align l) OBJ_SIZES) NR_OBJ_SIZES); [by simplify_eq|done]. }
    destruct (lookup_lt_is_Some_2 OBJ_SIZES i Hi) as [sz Hsz].
    set (tc := MkTc None [] (tc_slab_size (from_index i)) sz).
    assert (tcache_new !! i = Some tc) as Htc by (unfold tcache_new; by rewrite list_lookup_imap, Hsz).
    assert (tc_memory (B:=B) (T:=T) link_size i (heap_new ps, tcache_new) = (Err Internal, (heap_new ps, tcache_new))) as Hm.
    { unfold tc_memory, get_tc. rewrite (st_bind_ok _ _ _ tc (heap_new ps, tcache_new)).
      2:{ rewrite st_get_bind. unfold lift. cbn [snd]. by rewrite Htc. }
      cbn [memory tc]. destruct (pool_allocate_empty ps (MkLayout (tc_size tc * tc_obj_size tc) LADDR_ALIGN)) as [e He].
      rewrite (st_bind_ok _ _ _ (inl e) (heap_new ps, tcache_new)); [done|].
      unfold attempt, on_heap. cbn [fst snd]. by rewrite He. }
    unfold tc_pop. by rewrite (st_bind_err _ _ _ _ _ Hm).
  - exists e. split; [|done]. unfold unwrap_layout in Hu. destruct (size l =? 0); [by simplify_eq|].
    destruct (_ <? _)%nat; by simplify_eq.
  - unfold unwrap_layout in Hu. destruct (size l =? 0); [done|]. by destruct (_ <? _)%nat.
Qed.
End tcache.

(** ** Witnesses *)

Module Witness.
(** Pages are handed out one after the other. *)
Definition next_pages (n ps : Z) : option Z * Z := (Some ps, ps + n * PAGE_SIZE).
Definition keep_pages (p n ps : Z) : Z := ps.
Definition h0 : heap (B:=list bool) (T:=list Z) := heap_new 65536.
Definition l24 : Layout := MkLayout 20 8.

Lemma l24_small : small l24 3.
Proof. split; [cbn; lia|split; [lia|done]|vm_compute; congruence]. Qed.

Lemma h0_new p ps : next_pages 1 (pager h0) = (Some p, ps) → new_page h0 p.
Proof.
  intros [= <- <-]. split; [done|]. split; [done|].
  intros (idx & t & [-> _]%lookup_replicate & Hp). by apply not_elem_of_nil in Hp.
Qed.

Definition h1 := snd (heap_alloc (P:=debug_profile) 24 next_pages l24 h0).

Lemma alloc_eval : heap_alloc (P:=debug_profile) 24 next_pages l24 h0 = (Ok 65608, h1).
Proof. unfold h1. vm_compute. reflexivity. Qed.

Lemma heap_alloc_spec_witness : alloc_result 24 h0 h1 l24 65608.
Proof.
  pose proof (heap_alloc_spec (P:=debug_profile) 24 ltac:(lia) next_pages l24 3 h0 (heap_new_wf 24 _)
    l24_small ltac:(unfold stat_below; cbn; lia) h0_new) as H.
  rewrite alloc_eval in H. destruct H as [H|[H _]]; [exact H|discriminate].
Defined.

Lemma h1_live : live_in 24 h1 (index_of l24) 65608.
Proof.
  do 3 eexists. split; [vm_compute; reflexivity|]. split; [apply list_elem_of_here|].
  split; [vm_compute; reflexivity|]. exists 3%nat. vm_compute. intuition congruence.
Qed.

Lemma h1_wf : heap_wf 24 h1.
Proof.
  destruct (put_page_wf 24 h0 1 [] [] 65536 (set_bit (page_init 24 24) 3 true)) as [H1 H2 H3].
  - apply heap_new_wf.
  - reflexivity.
  - done.
  - by apply not_elem_of_nil.
  - apply set_bit_ok; [lia| |vm_compute; intuition congruence|reflexivity].
    by apply (page_init_ok 24 ltac:(lia)).
  - intros idx' t' _ [-> _]%lookup_replicate. by apply not_elem_of_nil.
  - apply (wf_same 24 (put_page h0 1 [] 65536 (set_bit (page_init 24 24) 3 true))); [..|by split];
      vm_compute; reflexivity.
Qed.

Lemma heap_dealloc_spec_witness :
  ∃ h', heap_dealloc (P:=debug_profile) keep_pages 65608 l24 h1 = (Ok (), h') ∧ pager h' = 69632.
Proof.
  destruct (heap_dealloc_spec (P:=debug_profile) 24 ltac:(lia) keep_pages l24 3 h1 65608 h1_wf l24_small)
    as (h' & H & _ & _ & Hp).
  - unfold stat_ok, stat_below. vm_compute. intuition congruence.
  - vm_compute. congruence.
  - exact h1_live.
  - exists h'. split; [exact H|]. rewrite Hp. vm_compute. reflexivity.
Defined.

Lemma tcache_never_extends_witness :
  heap_alloc_tc (P:=debug_profile) (B:=list bool) (T:=list Z) 24 next_pages l24 (heap_new 65536, tcache_new) =
    (Ok 0, (heap_new 65536, tcache_new)).
Proof. apply (tcache_never_extends (P:=debug_profile) 24 next_pages 65536 l24). vm_compute. congruence. Defined.

(** Even in a pool with pages the cache of the objects of 256 bytes and more
    cannot get its memory: it asks for more than the largest object. *)
Example tcache_large_objects :
  let h := snd (pool_extend (P:=debug_profile) 24 (MkLayout 256 8) 65536 h0) in
  fst (pool_allocate (P:=debug_profile) 24 (MkLayout 256 8) h) = Ok 65792 ∧
  fst (tc_allocate (P:=debug_profile) 24 (MkLayout 256 8) (h, tcache_new)) = Err Internal.
Proof. vm_compute. split; reflexivity. Qed.
End Witness.
