(* ===== verification/Sched.v ===== *)
(** * The scheduler ([kernel/src/sched/imp.rs], [sched/task/sm.rs], [task/tid.rs],
    [sched/wait.rs], [wait/futex.rs], [task/sig.rs] and [cpu/time/timer.rs])

    Every processor has a queue of tasks that are ready, the one it runs and a queue of
    timers; a task that waits is the callback of a timer, or sits in the slot of a
    suspend token. [switch_ctx] changes stacks: what a function does after it is done
    when the task runs again, so an operation ends where its task is switched out. What
    the other components are asked for, notifying an event or cancelling it, is
    recorded in [ev_calls]. [ok] says whether an allocation succeeds. *)

From S2P Require Import Base Collections SysCall.
From stdpp Require Import gmap.
Local Open Scope Z_scope.
Local Open Scope h2o_scope.

(** ** Time: [Instant] is a [u128] of nanoseconds, a [Duration] has [u64] seconds *)

Definition NPS : Z := 1000000000.
Definition DURATION_MAX : Z := 2 ^ 64 * NPS - 1.
Definition from_us (us : Z) : Z := if us =? MAX64 then DURATION_MAX else us * 1000.
Definition as_micros (d : Z) : Z := d / 1000.
Definition dur_add {E} (a b : Z) : res E Z := if a + b <=? DURATION_MAX then Ok (a + b) else Panic.
Definition saturating_duration_since (now earlier : Z) : Z := if earlier <=? now then now - earlier else 0.

Definition MIN_TIME_GRAN : Z := 30 * 1000000.
Definition WAKE_TIME_GRAN : Z := 1000000.
Definition MAX_CPU : Z := 256.

(** [BinaryHeap<TimerEntry>]: the greatest entry is the one with the earliest deadline;
    between equal deadlines there is no order. *)
Class TimerHeap (H : Type) := {
  th_new : H;
  th_push : Z * nat → H → H;
  th_peek : H → option (Z * nat);
  th_pop : H → H;
  th_elems : H → list (Z * nat);
  th_new_elems : th_elems th_new = [];
  th_push_elems x h : th_elems (th_push x h) ≡ₚ x :: th_elems h;
  th_peek_none h : th_peek h = None → th_elems h = [];
  th_peek_min h x : th_peek h = Some x → Forall (λ y, fst x ≤ fst y) (th_elems h);
  th_pop_elems h x : th_peek h = Some x → th_elems h ≡ₚ x :: th_elems (th_pop h);
}.

(** ** Tasks *)

Inductive Ty := Kernel | User.
#[export] Instance Ty_eq_dec : EqDecision Ty.
Proof. solve_decision. Defined.

(** [Type::pass]. *)
Definition ty_pass (this : option Ty) (cur_ty : Ty) : res errno Ty :=
  match this, cur_ty with
  | Some Kernel, User => Err EPERM
  | Some ty, _ => Ok ty
  | None, _ => Ok cur_ty
  end.

(** [affinity]: the bits of the mask. *)
Record Context := MkContext {
  tid : Z;
  ty : Ty;
  affinity : list bool;
  space : nat;
  cpu : nat;
  runtime : Z;
}.

(** The union is its bits: a time, or one of two values that are not taken for times. *)
Definition NOT_RUNNING : Z := 0.
Definition NEED_RESCHED : Z := 2 ^ 128 - 1.
Definition start_time (rs : Z) : option Z := if (rs =? NOT_RUNNING) || (rs =? NEED_RESCHED) then None else Some rs.
Definition needs_resched (rs : Z) : bool := rs =? NEED_RESCHED.

Record Ready := MkReady { ctx : Context; running_state : Z; time_slice : Z }.
Definition with_state (t : Ready) (rs : Z) : Ready := MkReady (ctx t) rs (time_slice t).
Definition set_cpu (c : Context) (i : nat) : Context := MkContext (tid c) (ty c) (affinity c) (space c) i (runtime c).

(** [IntoReady]: a new task, or one that was blocked. *)
Inductive IntoReady := Init (c : Context) | Blocked (c : Context).
Definition into_ctx (t : IntoReady) : Context := match t with Init c | Blocked c => c end.
Definition last_cpu (t : IntoReady) : option nat := match t with Init _ => None | Blocked c => Some (cpu c) end.
Definition into_ready (t : IntoReady) (i : nat) (slice : Z) : Ready := MkReady (set_cpu (into_ctx t) i) NOT_RUNNING slice.

Inductive Signal := Kill | Suspend (slot : nat).
#[export] Instance Signal_eq_dec : EqDecision Signal.
Proof. solve_decision. Defined.

Inductive Callback := CTask (c : Context) | CEvent (e : nat).
Record Timer := MkTimer { callback : option Callback; deadline : Z; fired : bool }.

Inductive ev_call := EvNotify (e : nat) | EvCancel (e : nat) | EvExit (tid : Z).

Section sched.
Context {Q : Type → Type} `{SQ : SegQueue Q} {H : Type} `{TH : TimerHeap H} `{P : Profile}.

(** [Scheduler], [SchedInfo], [TIMER_QUEUE] and [CTX_DROPPER] of one processor. *)
Record CpuState := MkCpu {
  run_queue : Q Ready;
  current : option Ready;
  migration_queue : Q Ready;
  expected_runtime : Z;
  timer_queue : H;
  dropper : Q Context;
}.

Record sched := MkSched {
  cpus : list CpuState;
  timers : list Timer;
  slots : list (option Context);
  wait_queues : list (Q nat);
  futexes : gmap (nat * Z) nat;
  signals : gmap Z Signal;
  rets : gmap Z Z;
  mains : gmap nat Z;
  ti_map : gset Z;
  task_count : Z;
  tid_gen : Z;
  ev_calls : list ev_call;
  clock : Z;
}.

Abbreviation sm := (st sched errno).

(** ** The state *)

Definition with_cpus (s : sched) (x : list CpuState) : sched :=
  MkSched x (timers s) (slots s) (wait_queues s) (futexes s) (signals s) (rets s) (mains s) (ti_map s) (task_count s) (tid_gen s) (ev_calls s) (clock s).
Definition with_timers (s : sched) (x : list Timer) : sched :=
  MkSched (cpus s) x (slots s) (wait_queues s) (futexes s) (signals s) (rets s) (mains s) (ti_map s) (task_count s) (tid_gen s) (ev_calls s) (clock s).
Definition with_slots (s : sched) (x : list (option Context)) : sched :=
  MkSched (cpus s) (timers s) x (wait_queues s) (futexes s) (signals s) (rets s) (mains s) (ti_map s) (task_count s) (tid_gen s) (ev_calls s) (clock s).
Definition with_wqs (s : sched) (x : list (Q nat)) (f : gmap (nat * Z) nat) : sched :=
  MkSched (cpus s) (timers s) (slots s) x f (signals s) (rets s) (mains s) (ti_map s) (task_count s) (tid_gen s) (ev_calls s) (clock s).
Definition with_signals (s : sched) (x : gmap Z Signal) : sched :=
  MkSched (cpus s) (timers s) (slots s) (wait_queues s) (futexes s) x (rets s) (mains s) (ti_map s) (task_count s) (tid_gen s) (ev_calls s) (clock s).
Definition with_mains (s : sched) (x : gmap nat Z) : sched :=
  MkSched (cpus s) (timers s) (slots s) (wait_queues s) (futexes s) (signals s) (rets s) x (ti_map s) (task_count s) (tid_gen s) (ev_calls s) (clock s).
Definition with_tids (s : sched) (r : gmap Z Z) (m : gset Z) (n g : Z) : sched :=
  MkSched (cpus s) (timers s) (slots s) (wait_queues s) (futexes s) (signals s) r (mains s) m n g (ev_calls s) (clock s).
Definition with_call (s : sched) (x : ev_call) : sched :=
  MkSched (cpus s) (timers s) (slots s) (wait_queues s) (futexes s) (signals s) (rets s) (mains s) (ti_map s) (task_count s) (tid_gen s) (ev_calls s ++ [x]) (clock s).
Definition with_clock (s : sched) (x : Z) : sched :=
  MkSched (cpus s) (timers s) (slots s) (wait_queues s) (futexes s) (signals s) (rets s) (mains s) (ti_map s) (task_count s) (tid_gen s) (ev_calls s) x.

Definition get_cpu (i : nat) : sm CpuState := s ← get; lift (unwrap (cpus s !! i)).
Definition put_cpu (i : nat) (c : CpuState) : sm () := modify (λ s, with_cpus s (<[i := c]> (cpus s))).

Definition with_run (c : CpuState) (q : Q Ready) (cur : option Ready) : CpuState :=
  MkCpu q cur (migration_queue c) (expected_runtime c) (timer_queue c) (dropper c).
Definition with_migration (c : CpuState) (q : Q Ready) : CpuState :=
  MkCpu (run_queue c) (current c) q (expected_runtime c) (timer_queue c) (dropper c).
Definition with_expected (c : CpuState) (e : Z) : CpuState :=
  MkCpu (run_queue c) (current c) (migration_queue c) e (timer_queue c) (dropper c).
Definition with_timer_queue (c : CpuState) (h : H) : CpuState :=
  MkCpu (run_queue c) (current c) (migration_queue c) (expected_runtime c) h (dropper c).
Definition with_dropper (c : CpuState) (q : Q Context) : CpuState :=
  MkCpu (run_queue c) (current c) (migration_queue c) (expected_runtime c) (timer_queue c) q.

(** [fetch_add] and [fetch_sub] wrap around. *)
Definition add_expected (i : nat) (slice : Z) : sm () :=
  c ← get_cpu i; put_cpu i (with_expected c (wrap W (expected_runtime c + wrap W (as_micros slice)))).
Definition sub_expected (i : nat) (slice : Z) : sm () :=
  c ← get_cpu i; put_cpu i (with_expected c (wrap W (expected_runtime c - wrap W (as_micros slice)))).

(** ** Choosing a processor *)

Fixpoint ones_from (i : nat) (mask : list bool) : list nat :=
  match mask with
  | [] => []
  | b :: mask => if b : bool then i :: ones_from (S i) mask else ones_from (S i) mask
  end.
Definition iter_ones (mask : list bool) : list nat := ones_from 0 mask.

(** [ilog2] panics at zero. *)
Definition ilog2 {E} (n : Z) : res E Z := if n =? 0 then Panic else Ok (Z.log2 n).

Definition cpu_weight (a b : nat) (ra rb : Z) (cur : nat) (last : option nat) : res errno Z :=
  let wlast :=
    match last with
    | Some l => if bool_decide (a = l) && negb (bool_decide (b = l)) then 1
                else if negb (bool_decide (a = l)) && bool_decide (b = l) then -1 else 0
    | None => 0
    end in
  let wcur :=
    if bool_decide (a = cur) && negb (bool_decide (b = cur)) then 1
    else if negb (bool_decide (a = cur)) && bool_decide (b = cur) then -1 else 0 in
  wruntime ← (let diff := Z.abs (ra - rb) in
              if diff <=? 1 then Ok 0
              else d ← diff +! 1; l ← ilog2 d; Ok (l * if rb <? ra then -1 else 1));
  Ok (wlast * 15 + wcur + wruntime * 40).

Fixpoint select_loop (ers : list Z) (cur : nat) (last : option nat) (bs : list nat) (ret : nat) (rret : Z) : res errno nat :=
  match bs with
  | [] => Ok ret
  | b :: bs =>
      rb ← unwrap (ers !! b);
      if bool_decide (b = cur) && (rb =? 0) then Ok b
      else
        weight ← cpu_weight ret b rret rb cur last;
        if weight <? 0 then select_loop ers cur last bs b rb else select_loop ers cur last bs ret rret
  end.

Definition select_cpu (ers : list Z) (mask : list bool) (cur : nat) (last : option nat) : res errno (option nat) :=
  match iter_ones mask with
  | [] => Ok None
  | ret :: bs =>
      rret ← unwrap (ers !! ret);
      if bool_decide (ret = cur) && (rret =? 0) then Ok (Some ret)
      else i ← select_loop ers cur last bs ret rret; Ok (Some i)
  end.

(** ** Switching *)

(** The result is what the task that is switched out gets when it runs again. *)
Definition schedule_impl {R} (self : nat) (cur_time : Z) (nxt : option Ready) (func : Ready → sm R) : sm R :=
  c ← get_cpu self;
  '(n, q) ← match nxt with
            | Some n => mret (n, run_queue c)
            | None =>
                match sq_pop (run_queue c) with
                | (Some n, q) => mret (n, q)
                | (None, _) => lift (Err ENOENT)
                end
            end;
  let n := MkReady (set_cpu (ctx n) self) cur_time (time_slice n) in
  _ ← put_cpu self (with_run c q (Some n));
  match current c with
  | Some prev => func prev
  | None => lift (Err ESRCH)
  end.

Definition push_run (self : nat) (t : Ready) : sm () :=
  c ← get_cpu self; put_cpu self (with_run c (sq_push t (run_queue c)) (current c)).

Definition should_preempt (cur task : Ready) : res errno bool :=
  b ← dur_add (runtime (ctx task)) WAKE_TIME_GRAN; Ok (b <? runtime (ctx cur)).

(** Whether the processor was switched to the task: what the caller does next is then
    done when the task that called runs again. *)
Definition enqueue (self : nat) (task : Ready) (preempt : bool) : sm bool :=
  _ ← add_expected self (time_slice task);
  c ← get_cpu self;
  match current c with
  | Some cur =>
      pre ← (if preempt then lift (should_preempt cur task) else mret false);
      if pre : bool then
        s ← get;
        _ ← attempt (E':=errno) (schedule_impl self (clock s) (Some task) (λ t, push_run self (with_state t NOT_RUNNING)));
        mret true
      else _ ← push_run self task; mret false
  | None => _ ← push_run self task; mret false
  end.

Definition unblock (self : nat) (task : IntoReady) (preempt : bool) : sm bool :=
  s ← get;
  sel ← lift (select_cpu (map expected_runtime (cpus s)) (affinity (into_ctx task)) self (last_cpu task));
  i ← lift (unwrap sel);
  let task := into_ready task i MIN_TIME_GRAN in
  if bool_decide (i = self) then enqueue self task preempt
  else c ← get_cpu i; _ ← put_cpu i (with_migration c (sq_push task (migration_queue c))); mret false.

(** [task_migrate_handler], up to the first switch; the rest of the loop is a loop of its
    own when the task that was interrupted runs again. *)
Fixpoint migrate_loop (trials : nat) (self : nat) : sm () :=
  match trials with
  | O => mret ()
  | S trials =>
      c ← get_cpu self;
      match sq_pop (migration_queue c) with
      | (None, _) => mret ()
      | (Some task, q) =>
          _ ← put_cpu self (with_migration c q);
          away ← enqueue self task true;
          if away : bool then mret () else migrate_loop trials self
      end
  end.
Definition task_migrate_handler (self : nat) : sm () := migrate_loop 50 self.

(** ** Timers *)

Definition activate (self : nat) (duration : Z) (cb : Callback) (ok : bool) : sm nat :=
  s ← get;
  dl ← lift (uadd 128 (clock s) duration);
  if ok then
    let i := length (timers s) in
    _ ← modify (λ s, with_timers s (timers s ++ [MkTimer (Some cb) dl false]));
    _ ← (if duration <? DURATION_MAX then
           c ← get_cpu self; put_cpu self (with_timer_queue c (th_push (dl, i) (timer_queue c)))
         else mret ());
    mret i
  else lift (Err ENOMEM).

(** [self.callback.write().take()]. *)
Definition take_callback (t : nat) : sm (option Callback) :=
  s ← get;
  x ← lift (unwrap (timers s !! t));
  _ ← modify (λ s, with_timers s (<[t := MkTimer None (deadline x) (fired x)]> (timers s)));
  mret (callback x).

(** All its callers, and those of [WaitObject::notify], pass [false] for [preempt]. *)
Definition timer_cancel (self t : nat) : sm bool :=
  cb ← take_callback t;
  match cb with
  | Some (CTask c) => _ ← unblock self (Blocked c) false; mret true
  | Some (CEvent e) => _ ← modify (λ s, with_call s (EvCancel e)); mret true
  | None => mret false
  end.

Definition timer_fire (self t : nat) : sm bool :=
  cb ← take_callback t;
  match cb with
  | None => mret false
  | Some cb =>
      s ← get;
      x ← lift (unwrap (timers s !! t));
      _ ← modify (λ s, with_timers s (<[t := MkTimer (callback x) (deadline x) true]> (timers s)));
      match cb with
      | CTask c => unblock self (Blocked c) true
      | CEvent e => _ ← modify (λ s, with_call s (EvNotify e)); mret false
      end
  end.

Definition is_fired (t : nat) : sm bool := s ← get; x ← lift (unwrap (timers s !! t)); mret (fired x).

(** The next timer that is due: those whose callback is gone are dropped on the way. *)
Fixpoint next_due (fuel : nat) (self : nat) (now : Z) : sm (option nat) :=
  match fuel with
  | O => lift Panic
  | S fuel =>
      s ← get;
      c ← get_cpu self;
      match th_peek (timer_queue c) with
      | None => mret None
      | Some (dl, t) =>
          x ← lift (unwrap (timers s !! t));
          let drop_it := put_cpu self (with_timer_queue c (th_pop (timer_queue c))) in
          if bool_decide (callback x = None) then _ ← drop_it; next_due fuel self now
          else if dl <=? now then _ ← drop_it; mret (Some t)
          else mret None
      end
  end.

(** [tick], up to the first switch, and whether there was one. *)
Fixpoint timer_tick (fuel : nat) (self : nat) : sm bool :=
  match fuel with
  | O => lift Panic
  | S fuel =>
      s ← get;
      c ← get_cpu self;
      t ← next_due (S (length (th_elems (timer_queue c)))) self (clock s);
      match t with
      | Some t => away ← timer_fire self t; if away : bool then mret true else timer_tick fuel self
      | None => mret false
      end
  end.

(** ** Identifiers *)

Definition NR_TASKS : Z := 65536.

Definition tid_next : sm (option Z) :=
  s ← get;
  if NR_TASKS <=? task_count s then mret None
  else
    _ ← put (with_tids s (rets s) (ti_map s) (task_count s + 1) (wrap W (tid_gen s + 1)));
    mret (if tid_gen s =? 0 then None else Some (tid_gen s)).

Definition allocate (ok : bool) : sm Z :=
  raw ← tid_next;
  match raw with
  | Some raw =>
      if ok then
        s ← get;
        _ ← put (with_tids s (rets s) ({[raw]} ∪ ti_map s) (task_count s) (tid_gen s));
        _ ← lift (if overflow_checks then assert_ (negb (bool_decide (raw ∈ ti_map s))) else Ok ());
        mret raw
      else lift (Err ENOMEM)
  | None => lift (Err ENOSPC)
  end.

Definition deallocate (raw : Z) : sm bool :=
  s ← get;
  if bool_decide (raw ∈ ti_map s) then
    _ ← put (with_tids s (rets s) (ti_map s ∖ {[raw]}) (wrap W (task_count s - 1)) (tid_gen s));
    mret true
  else mret false.

(** ** Leaving the processor *)

(** [Ready::exit]. *)
Definition task_exit_ (self : nat) (t : Ready) (retval : Z) : sm () :=
  _ ← deallocate (tid (ctx t));
  _ ← modify (λ s, with_tids s (<[tid (ctx t) := retval]> (rets s)) (ti_map s) (task_count s) (tid_gen s));
  _ ← modify (λ s, with_call s (EvExit (tid (ctx t))));
  c ← get_cpu self;
  put_cpu self (with_dropper c (sq_push (ctx t) (dropper c))).

Definition push_wait (wq t : nat) : sm () :=
  s ← get;
  q ← lift (unwrap (wait_queues s !! wq));
  modify (λ s, with_wqs s (<[wq := sq_push t q]> (wait_queues s)) (futexes s)).

Definition block_current (self : nat) (wq : option nat) (duration : Z) (ok : bool) : sm nat :=
  c ← get_cpu self;
  _ ← match current c with Some cur => sub_expected self (time_slice cur) | None => mret () end;
  s ← get;
  schedule_impl self (clock s) None (λ task,
    t ← activate self duration (CTask (ctx task)) ok;
    _ ← match wq with Some wq => push_wait wq t | None => mret () end;
    mret t).

Definition main_of (s : sched) (sp : nat) : Z := default 0 (mains s !! sp).
Definition set_main (sp : nat) (raw : Z) : sm () :=
  modify (λ s, if main_of s sp =? 0 then with_mains s (<[sp := raw]> (mains s)) else s).
Definition try_stop (sp : nat) (raw : Z) : sm () :=
  modify (λ s, if main_of s sp =? raw then with_mains s (<[sp := 0]> (mains s)) else s).

(** What does not come back panics when it does. *)
Definition diverges (m : sm ()) : sm () := r ← attempt (E':=errno) m; match r with inr _ => mret () | inl _ => lift Panic end.

Definition exit_current (self : nat) (retval : Z) (kill_all : bool) : sm () :=
  c ← get_cpu self;
  _ ← match current c with
      | Some cur =>
          _ ← sub_expected self (time_slice cur);
          if kill_all then try_stop (space (ctx cur)) (tid (ctx cur)) else mret ()
      | None => mret ()
      end;
  s ← get;
  diverges (schedule_impl self (clock s) None (λ t, task_exit_ self t retval)).

Definition kill (self : nat) (cur : Ready) (cur_time : Z) : sm () :=
  _ ← sub_expected self (time_slice cur);
  diverges (schedule_impl self cur_time None (λ t, task_exit_ self t (into_retval EKILLED))).

(** ** The tick *)

(** [Go now]: the task goes on, at that time; [Away]: it was switched out. *)
Inductive flow := Go (now : Z) | Away.

Definition set_slot (slot : nat) (x : option Context) : sm () := modify (λ s, with_slots s (<[slot := x]> (slots s))).

Definition check_signal (self : nat) (cur_time : Z) : sm flow :=
  c ← get_cpu self;
  match current c with
  | None => mret (Go cur_time)
  | Some cur =>
      s ← get;
      if main_of s (space (ctx cur)) =? 0 then _ ← kill self cur cur_time; mret Away
      else if bool_decide (ty (ctx cur) = Kernel) then mret (Go cur_time)
      else
        let sig := signals s !! tid (ctx cur) in
        _ ← put (with_signals s (delete (tid (ctx cur)) (signals s)));
        match sig with
        | Some Kill => _ ← kill self cur cur_time; mret Away
        | Some (Suspend slot) =>
            _ ← sub_expected self (time_slice cur);
            r ← attempt (schedule_impl self cur_time None (λ t, set_slot slot (Some (ctx t))));
            match r with
            | inr _ => mret Away
            | inl e => _ ← lift (assert_ (bool_decide (e = ENOENT))); s ← get; mret (Go (clock s))
            end
        | None => mret (Go cur_time)
        end
  end.

Definition update (self : nat) (cur_time : Z) : sm bool :=
  c ← get_cpu self;
  let sole := sq_len (run_queue c) =? 0 in
  match current c with
  | None => mret (negb sole)
  | Some cur =>
      match start_time (running_state cur) with
      | Some st =>
          let delta := saturating_duration_since cur_time st in
          rt ← lift (dur_add (runtime (ctx cur)) delta);
          let x := ctx cur in
          let x := MkContext (tid x) (ty x) (affinity x) (space x) (cpu x) rt in
          let resched := (time_slice cur <? delta) && negb sole in
          _ ← put_cpu self (with_run c (run_queue c)
                (Some (MkReady x (if resched then NEED_RESCHED else running_state cur) (time_slice cur))));
          mret resched
      | None => _ ← lift (assert_ (needs_resched (running_state cur))); mret true
      end
  end.

Definition schedule (self : nat) (cur_time : Z) : sm () :=
  schedule_impl self cur_time None (λ t,
    _ ← lift (if overflow_checks then assert_ (needs_resched (running_state t)) else Ok ());
    push_run self (with_state t NOT_RUNNING)).

Definition tick (self : nat) (cur_time : Z) : sm () :=
  f ← check_signal self cur_time;
  match f with
  | Away => mret ()
  | Go cur_time =>
      b ← update self cur_time;
      if b : bool then _ ← attempt (E':=errno) (schedule self cur_time); mret () else mret ()
  end.

Definition request_resched (self : nat) : sm () :=
  c ← get_cpu self;
  cur ← lift (of_option ESRCH (current c));
  put_cpu self (with_run c (run_queue c) (Some (with_state cur NEED_RESCHED))).

(** [None] when the task only yields. *)
Definition task_sleep (self : nat) (ms : Z) (ok : bool) : sm (option nat) :=
  if ms =? 0 then
    _ ← attempt (E':=errno) (request_resched self);
    s ← get;
    _ ← tick self (clock s);
    mret None
  else t ← block_current self None (ms * 1000000) ok; mret (Some t).

(** ** Wait objects *)

Definition wo_new : sm nat :=
  s ← get;
  _ ← put (with_wqs s (wait_queues s ++ [sq_new]) (futexes s));
  mret (length (wait_queues s)).

(** [WaitObject::wait], before the switch and after it. *)
Definition wo_wait (self wq : nat) (timeout : Z) (ok : bool) : sm nat := block_current self (Some wq) timeout ok.
Definition wo_wait_end (t : nat) : sm () := f ← is_fired t; if f : bool then lift (Err ETIME) else mret ().

Definition pop_wait (wq : nat) : sm (option nat) :=
  s ← get;
  q ← lift (unwrap (wait_queues s !! wq));
  let '(x, q) := sq_pop q in
  _ ← put (with_wqs s (<[wq := q]> (wait_queues s)) (futexes s));
  mret x.

Fixpoint notify_loop (fuel : nat) (self wq : nat) (num cnt : Z) : sm Z :=
  match fuel with
  | O => lift Panic
  | S fuel =>
      if cnt <? num then
        t ← pop_wait wq;
        match t with
        | Some t =>
            b ← timer_cancel self t;
            notify_loop fuel self wq num (if b : bool then cnt + 1 else cnt)
        | None => mret cnt
        end
      else mret cnt
  end.

Definition wo_notify (self wq : nat) (num : Z) : sm Z :=
  s ← get;
  q ← lift (unwrap (wait_queues s !! wq));
  notify_loop (S (S (length (sq_elems q)))) self wq (if num =? 0 then MAX64 else num) 0.

(** ** Futexes: a wait object for each address of a space that is waited on *)

(** [Space::futex]. *)
Definition futex (sp : nat) (key : Z) : sm nat :=
  s ← get;
  match futexes s !! (sp, key) with
  | Some wq => mret wq
  | None =>
      wq ← wo_new;
      _ ← modify (λ s, with_wqs s (wait_queues s) (<[(sp, key) := wq]> (futexes s)));
      mret wq
  end.

(** [Space::try_drop_futex]. *)
Definition try_drop_futex (sp : nat) (key : Z) : sm () :=
  s ← get;
  match futexes s !! (sp, key) with
  | Some wq =>
      q ← lift (unwrap (wait_queues s !! wq));
      if sq_len q =? 0 then put (with_wqs s (wait_queues s) (delete (sp, key) (futexes s))) else mret ()
  | None => mret ()
  end.

Definition current_space (self : nat) : sm nat :=
  c ← get_cpu self; cur ← lift (unwrap (current c)); mret (space (ctx cur)).

(** [value]: what is at the address when it is loaded. *)
Definition futex_wait_ (self wq : nat) (value val timeout : Z) (ok : bool) : sm nat :=
  if value =? val then wo_wait self wq timeout ok else lift (Err EINVAL).

(** The system call, before the switch and after it; [rd] is what reading the user's
    pointer gives. *)
Definition futex_wait (self : nat) (ptr : Z) (rd : res errno Z) (value expected timeout_us : Z) (ok : bool) : sm nat :=
  _ ← lift rd;
  sp ← current_space self;
  wq ← futex sp ptr;
  r ← attempt (E':=errno) (futex_wait_ self wq value expected (from_us timeout_us) ok);
  match r with
  | inr t => mret t
  | inl e => _ ← try_drop_futex sp ptr; lift (Err e)
  end.
Definition futex_wait_end (sp : nat) (ptr : Z) (t : nat) : sm () := _ ← try_drop_futex sp ptr; wo_wait_end t.

Definition futex_wake (self : nat) (ptr : Z) (rd : res errno Z) (num : Z) : sm Z :=
  _ ← lift rd;
  c ← get_cpu self;
  cur ← lift (of_option ESRCH (current c));
  wq ← futex (space (ctx cur)) ptr;
  wo_notify self wq num.

Fixpoint requeue_loop (fuel : nat) (wq other : nat) (rem : Z) : sm Z :=
  match fuel with
  | O => lift Panic
  | S fuel =>
      if 0 <? rem then
        t ← pop_wait wq;
        match t with
        | None => mret rem
        | Some t => _ ← push_wait other t; requeue_loop fuel wq other (rem - 1)
        end
      else mret rem
  end.
Definition requeue (wq other : nat) (num : Z) : sm Z :=
  s ← get;
  q ← lift (unwrap (wait_queues s !! wq));
  rem ← requeue_loop (S (S (length (sq_elems q)))) wq other num;
  mret (num - rem).

(** The system call up to the writes of its results; the two addresses differ, for the
    table of futexes is locked at the first one. *)
Definition futex_reque (self : nat) (ptr : Z) (rd : res errno Z) (wake : Z) (other : Z) (rd' : res errno Z) (num : Z)
    : sm (Z * Z) :=
  _ ← lift rd;
  _ ← lift rd';
  sp ← current_space self;
  wq ← futex sp ptr;
  wq' ← futex sp other;
  woken ← wo_notify self wq wake;
  moved ← requeue wq wq' num;
  mret (woken, moved).

(** ** Making and controlling tasks *)

(** [exec_inner]: [ok] and [ok'] for the exception channel and the task information. *)
Definition exec_inner (cur : Context) (this : option Ty) (mask : option (list bool)) (sp : nat) (ok ok' : bool) : sm IntoReady :=
  t ← lift (ty_pass this (ty cur));
  _ ← lift (if ok then Ok () else Err ENOMEM);
  r ← attempt (E':=errno) (allocate ok');
  match r with
  | inl _ => lift (Err EBUSY)
  | inr raw =>
      _ ← set_main sp raw;
      mret (Init (MkContext raw t (default (affinity cur) mask) sp 0 0))
  end.

(** The mask with one bit, [cpu::current_mask]. *)
Definition current_mask (self : nat) : list bool := <[self := true]> (replicate (Z.to_nat MAX_CPU) false).

(** [IDLE] of a processor; it fails only with a panic. *)
Definition idle_new (self sp : nat) (ok ok' : bool) : sm () :=
  _ ← lift (assert_ ok);
  r ← attempt (E':=errno) (allocate ok');
  match r with
  | inl _ => lift Panic
  | inr raw =>
      _ ← set_main sp raw;
      _ ← unblock self (Init (MkContext raw Kernel (current_mask self) sp 0 0)) true;
      mret ()
  end.

(** [task_exec], from the point at which its arguments are read; [hdl] is what inserting
    the handle of the new task gives. *)
Definition exec (self : nat) (this : option Ty) (mask : option (list bool)) (sp : nat) (ok ok' : bool) (hdl : res errno Z) : sm Z :=
  c ← get_cpu self;
  cur ← lift (of_option ESRCH (current c));
  t ← exec_inner (ctx cur) this mask sp ok ok';
  h ← lift hdl;
  _ ← unblock self t true;
  mret h.

(** [Drop for SuspendToken]. *)
Definition token_drop (self slot : nat) (child : Z) : sm () :=
  s ← get;
  x ← lift (unwrap (slots s !! slot));
  _ ← set_slot slot None;
  match x with
  | Some c => _ ← unblock self (Blocked c) true; mret ()
  | None => modify (λ s, if bool_decide (signals s !! child = Some (Suspend slot))
                         then with_signals s (delete child (signals s)) else s)
  end.

(** [task_new], from the point at which its arguments are read: a task that is made
    suspended, by [create], which makes what [exec_inner] makes with the type and the mask of
    the maker. [ok] is for the slot, [hdl] and [tok] are what inserting the handle of
    the task and the token gives, and [wr] what writing the token's handle gives. *)
Definition task_new (self sp : nat) (ok ok' ok'' : bool) (hdl tok : res errno Z) (wr : res errno ()) : sm Z :=
  _ ← lift (if ok then Ok () else Err ENOMEM);
  c ← get_cpu self;
  cur ← lift (of_option ESRCH (current c));
  t ← exec_inner (ctx cur) None None sp ok' ok'';
  h ← lift hdl;
  let x := ctx (into_ready t self MIN_TIME_GRAN) in
  s ← get;
  let slot := length (slots s) in
  _ ← put (with_slots s (slots s ++ [Some x]));
  match tok with
  | Err e => _ ← token_drop self slot (tid x); lift (Err e)
  | tok => _ ← lift tok; _ ← lift wr; mret h
  end.

(** [task_ctl]; [tok] is what inserting the token gives. *)
Definition ctl_kill (child : Z) : sm () := modify (λ s, with_signals s (<[child := Kill]> (signals s))).
Definition ctl_suspend (self : nat) (child : Z) (ok : bool) (tok : res errno Z) : sm nat :=
  if ok then
    s ← get;
    let slot := length (slots s) in
    _ ← put (with_slots s (slots s ++ [None]));
    if bool_decide (signals s !! child = Some Kill) then lift (Err EPERM)
    else
      _ ← modify (λ s, with_signals s (<[child := Suspend slot]> (signals s)));
      match tok with
      | Err e => _ ← token_drop self slot child; lift (Err e)
      | tok => _ ← lift tok; mret slot
      end
  else lift (Err ENOMEM).

(** [task_debug] on the task in a slot, which is taken out and put back; while there is
    none it waits, and returns nothing. [early]: it returned before it put the task back;
    [ret] is what the operation on registers or memory gives. *)
Definition task_debug (slot : nat) (early : option errno) (ret : res errno ()) : sm (option ()) :=
  s ← get;
  x ← lift (unwrap (slots s !! slot));
  match x with
  | None => mret None
  | Some task =>
      _ ← set_slot slot None;
      match early with
      | Some e => lift (Err e)
      | None => _ ← set_slot slot (Some task); _ ← lift ret; mret (Some ())
      end
  end.
End sched.

(** ** Timer queues as lists *)

Fixpoint list_min (l : list (Z * nat)) : option (Z * nat) :=
  match l with
  | [] => None
  | x :: l => match list_min l with Some y => if fst y <? fst x then Some y else Some x | None => Some x end
  end.
Fixpoint list_remove (x : Z * nat) (l : list (Z * nat)) : list (Z * nat) :=
  match l with
  | [] => []
  | y :: l => if bool_decide (x = y) then l else y :: list_remove x l
  end.

Lemma list_min_some l x : list_min l = Some x → x ∈ l ∧ Forall (λ y, fst x ≤ fst y) l.
Proof.
  revert x. induction l as [|z l IH]; intros x; cbn; [done|]. destruct (list_min l) as [y|] eqn:Hy.
  - destruct (IH y eq_refl) as [Hin HF]. destruct (Z.ltb_spec (fst y) (fst z)); intros [= <-].
    + split; [by right|]. constructor; [lia|done].
    + split; [by left|]. constructor; [lia|]. eapply Forall_impl; [exact HF|]. cbn. lia.
  - intros [= <-]. destruct l as [|w l]; [|cbn in Hy; by destruct (list_min l) as [w'|]; [destruct (fst w' <? fst w)|]].
    split; [by left|]. by repeat constructor.
Qed.
Lemma list_remove_perm x l : x ∈ l → l ≡ₚ x :: list_remove x l.
Proof.
  induction l as [|y l IH]; intros Hx; [by apply elem_of_nil in Hx|]. cbn. case_bool_decide as H; [by subst|].
  apply elem_of_cons in Hx as [|Hx]; [done|]. transitivity (y :: x :: list_remove x l); [by constructor; apply IH|constructor].
Qed.

#[export] Program Instance TimerHeap_list : TimerHeap (list (Z * nat)) := {
  th_new := [];
  th_push x l := x :: l;
  th_peek := list_min;
  th_pop l := match list_min l with Some x => list_remove x l | None => l end;
  th_elems l := l;
}.
Next Obligation. done. Qed.
Next Obligation. done. Qed.
Next Obligation. intros [|x l]; [done|]. cbn. by destruct (list_min l) as [y|]; [destruct (fst y <? fst x)|]. Qed.
Next Obligation. intros l x Hx. by apply list_min_some. Qed.
Next Obligation. intros l x Hx. cbn. rewrite Hx. by apply list_remove_perm, list_min_some. Qed.
