(* ===== verification/SchedFacts.v ===== *)
(** * Where the tasks are

    [occ t s] counts the places in which task [t] is: running, in a run queue, in a
    migration queue, blocked on a timer, or suspended in a slot. [bal d m] says by how much
    a computation changes the counts. *)

From S2P Require Import Base Collections SysCall Sched.
From stdpp Require Import gmap.
Local Open Scope Z_scope.

Definition sumZ {A} (f : A → Z) (l : list A) : Z := foldr (λ x a, f x + a) 0 l.

Section sums.
Context {A : Type} (f : A → Z).

Lemma sumZ_nil : sumZ f [] = 0.
Proof. done. Qed.
Lemma sumZ_cons x l : sumZ f (x :: l) = f x + sumZ f l.
Proof. done. Qed.
Lemma sumZ_app l k : sumZ f (l ++ k) = sumZ f l + sumZ f k.
Proof. induction l as [|x l IH]; [done|]. cbn [app]. rewrite !sumZ_cons, IH. lia. Qed.
Lemma sumZ_insert l i x y : l !! i = Some x → sumZ f (<[i := y]> l) = sumZ f l - f x + f y.
Proof.
  revert i. induction l as [|z l IH]; intros [|i]; cbn [lookup list_lookup]; [done..| |].
  - intros [= ->]. cbn. lia.
  - intros Hi. change (<[S i := y]> (z :: l)) with (z :: <[i := y]> l). rewrite !sumZ_cons, (IH _ Hi). lia.
Qed.
Lemma sumZ_nonneg l : (∀ x, 0 ≤ f x) → 0 ≤ sumZ f l.
Proof. intros Hf. induction l as [|x l IH]; [done|]. rewrite sumZ_cons. specialize (Hf x). lia. Qed.
Lemma sumZ_elem l x : (∀ x, 0 ≤ f x) → x ∈ l → f x ≤ sumZ f l.
Proof.
  intros Hf. induction l as [|y l IH]; intros Hx; [by apply elem_of_nil in Hx|]. rewrite sumZ_cons.
  apply elem_of_cons in Hx as [-> |Hx]; [pose proof (sumZ_nonneg l Hf); lia|]. specialize (IH Hx). specialize (Hf y). lia.
Qed.
End sums.
#[global] Arguments sumZ : simpl never.

Section occ.
Context {Q : Type → Type} `{SQ : SegQueue Q} {H : Type} `{TH : TimerHeap H} `{P : Profile}.
Abbreviation sched := (sched (Q:=Q) (H:=H)).
Abbreviation sm := (st sched errno).

Definition at_ (t : Z) (c : Context) : Z := if tid c =? t then 1 else 0.
Definition occ_ready (t : Z) (r : Ready) : Z := at_ t (ctx r).
Definition occ_opt {A} (f : A → Z) (o : option A) : Z := match o with Some x => f x | None => 0 end.
Definition occ_cpu (t : Z) (c : CpuState (Q:=Q) (H:=H)) : Z :=
  sumZ (occ_ready t) (sq_elems (run_queue c)) + occ_opt (occ_ready t) (current c) + sumZ (occ_ready t) (sq_elems (migration_queue c)).
Definition occ_cb (t : Z) (cb : option Callback) : Z := match cb with Some (CTask c) => at_ t c | _ => 0 end.
Definition occ_timer (t : Z) (x : Timer) : Z := occ_cb t (callback x).
Definition occ (t : Z) (s : sched) : Z :=
  sumZ (occ_cpu t) (cpus s) + sumZ (occ_timer t) (timers s) + sumZ (occ_opt (at_ t)) (slots s).

Lemma at_nonneg t c : 0 ≤ at_ t c.
Proof. unfold at_. destruct (tid c =? t); lia. Qed.
Lemma occ_nonneg t s : 0 ≤ occ t s.
Proof.
  unfold occ. assert (Hr : ∀ r, 0 ≤ occ_ready t r) by (intros; apply at_nonneg).
  assert (0 ≤ sumZ (occ_cpu t) (cpus s)).
  { apply sumZ_nonneg. intros c. unfold occ_cpu, occ_opt.
    pose proof (sumZ_nonneg _ (sq_elems (run_queue c)) Hr). pose proof (sumZ_nonneg _ (sq_elems (migration_queue c)) Hr).
    destruct (current c) as [r|]; [specialize (Hr r)|]; lia. }
  assert (0 ≤ sumZ (occ_timer t) (timers s)).
  { apply sumZ_nonneg. intros x. unfold occ_timer, occ_cb. destruct (callback x) as [[c|]|]; try lia. apply at_nonneg. }
  assert (0 ≤ sumZ (occ_opt (at_ t)) (slots s)).
  { apply sumZ_nonneg. intros [c|]; cbn; [apply at_nonneg|lia]. }
  lia.
Qed.

(** What names a task, and what is asked of it. *)
Definition ids (s : sched) : gset Z * Z * Z * gmap Z Signal * list (option Context) :=
  (ti_map s, task_count s, tid_gen s, signals s, slots s).

(** [m] does not fail, and changes the counts by [d]; a panic ends the system. *)
Definition bal {A} (d : Z → Z) (m : sm A) : Prop := ∀ s,
  match m s with
  | (Ok _, s') => (∀ t, occ t s' = occ t s + d t) ∧ ids s' = ids s
  | (Err _, _) => False
  | (Panic, _) => True
  end.

Lemma bal_ext {A} d d' (m : sm A) : bal d m → (∀ t, d t = d' t) → bal d' m.
Proof. intros Hm Hd s. specialize (Hm s). destruct (m s) as [[a|e|] s']; [|done..]. destruct Hm as [Ho Hi]. split; [|done]. intros t. by rewrite Ho, Hd. Qed.
Lemma bal_ret {A} (a : A) : bal (λ _, 0) (mret a).
Proof. intros s. cbn. split; [intros t; lia|done]. Qed.
Lemma bal_get : bal (λ _, 0) get.
Proof. intros s. cbn. split; [intros t; lia|done]. Qed.
Lemma bal_lift {A} (r : res errno A) : (∀ e, r ≠ Err e) → bal (λ _, 0) (lift r).
Proof. intros Hr s. unfold lift. destruct r as [a|e|]; [|by destruct (Hr e)|done]. split; [intros t; lia|done]. Qed.
Lemma bal_unwrap {A} (o : option A) : bal (λ _, 0) (lift (unwrap o)).
Proof. apply bal_lift. by destruct o. Qed.
Lemma bal_bind {A B} d1 d2 (m : sm A) (k : A → sm B) :
  bal d1 m → (∀ a, bal d2 (k a)) → bal (λ t, d1 t + d2 t) (m ≫= k).
Proof.
  intros Hm Hk s. unfold mbind, st_bind. specialize (Hm s). destruct (m s) as [[a|e|] s1]; [|done..].
  specialize (Hk a s1). destruct (k a s1) as [[b|e|] s2]; [|done..]. destruct Hm as [Ho1 Hi1], Hk as [Ho2 Hi2].
  split; [|congruence]. intros t. rewrite Ho2, Ho1. lia.
Qed.
Lemma bal_then {A B} d (m : sm A) (k : A → sm B) : bal (λ _, 0) m → (∀ a, bal d (k a)) → bal d (m ≫= k).
Proof. intros Hm Hk. eapply bal_ext; [by apply bal_bind|]. intros t. cbn. lia. Qed.
Lemma bal_modify f : (∀ s, (∀ t, occ t (f s) = occ t s) ∧ ids (f s) = ids s) → bal (λ _, 0) (modify f).
Proof. intros Hf s. cbn. destruct (Hf s) as [Ho Hi]. split; [|done]. intros t. rewrite Ho. lia. Qed.
Lemma bal_get_bind {B} d (k : sched → sm B) : (∀ s0, bal d (k s0)) → bal d (get ≫= k).
Proof. intros Hk. apply bal_then; [apply bal_get|done]. Qed.

(** Reading and writing one processor. *)
Lemma get_cpu_run {A} i (k : CpuState → sm A) s :
  (get_cpu i ≫= k) s = match cpus s !! i with Some c => k c s | None => (Panic, s) end.
Proof. unfold get_cpu, mbind, st_bind. cbn. by destruct (cpus s !! i). Qed.
Lemma put_cpu_run {A} i c (k : () → sm A) s : (put_cpu i c ≫= k) s = k () (with_cpus s (<[i := c]> (cpus s))).
Proof. done. Qed.

Lemma occ_put_cpu i c c' s t : cpus s !! i = Some c →
  occ t (with_cpus s (<[i := c']> (cpus s))) = occ t s - occ_cpu t c + occ_cpu t c'.
Proof. intros Hi. unfold occ. cbn. rewrite (sumZ_insert _ _ _ _ _ Hi). lia. Qed.

Lemma bal_cpu {A} d i (k : CpuState → CpuState) (m : CpuState → sm A) :
  (∀ c, bal (λ t, d t - (occ_cpu t (k c) - occ_cpu t c)) (m c)) →
  bal d (c ← get_cpu i; _ ← put_cpu i (k c); m c).
Proof.
  intros Hm s. unfold get_cpu, put_cpu. unfold mbind, st_bind. cbn. destruct (cpus s !! i) as [c|] eqn:Hi; cbn; [|done].
  specialize (Hm c (with_cpus s (<[i := k c]> (cpus s)))). destruct (m c _) as [[a|e|] s']; [|done..].
  destruct Hm as [Ho Hids]. split; [|done]. intros t. rewrite Ho, (occ_put_cpu i c) by done. lia.
Qed.
Lemma bal_cpu_last d i (k : CpuState → CpuState) :
  (∀ c t, occ_cpu t (k c) - occ_cpu t c = d t) → bal d (c ← get_cpu i; put_cpu i (k c)).
Proof.
  intros Hd s. unfold get_cpu, put_cpu. unfold mbind, st_bind. cbn. destruct (cpus s !! i) as [c|] eqn:Hi; cbn; [|done].
  split; [|done]. intros t. rewrite (occ_put_cpu i c) by done. specialize (Hd c t). lia.
Qed.

(** ** Switching *)

Lemma pop_sum {A} (f : A → Z) (q : Q A) : match sq_pop q with
  | (Some x, q') => sumZ f (sq_elems q) = f x + sumZ f (sq_elems q')
  | (None, _) => sq_elems q = []
  end.
Proof.
  destruct (sq_elems q) as [|x xs] eqn:Hq.
  - destruct (sq_pop_nil q Hq) as [Hf _]. by destruct (sq_pop q) as [[]?].
  - destruct (sq_pop_cons q x xs Hq) as [Hf Hs]. destruct (sq_pop q) as [o q']. cbn in *. by subst.
Qed.
Lemma push_sum {A} (f : A → Z) x (q : Q A) : sumZ f (sq_elems (sq_push x q)) = sumZ f (sq_elems q) + f x.
Proof. rewrite sq_push_elems, sumZ_app, sumZ_cons, sumZ_nil. lia. Qed.

Lemma schedule_impl_cases {R} self ct nxt (func : Ready → sm R) s :
  schedule_impl self ct nxt func s = (Panic, s) ∨
  (nxt = None ∧ schedule_impl self ct nxt func s = (Err ENOENT, s)) ∨
  (∃ c s1, cpus s !! self = Some c ∧ ids s1 = ids s ∧
    (∀ t, occ t s1 = occ t s + occ_opt (occ_ready t) nxt - occ_opt (occ_ready t) (current c)) ∧
    schedule_impl self ct nxt func s = match current c with Some prev => func prev s1 | None => (Err ESRCH, s1) end).
Proof.
  unfold schedule_impl, get_cpu, put_cpu, mbind, st_bind. cbn. destruct (cpus s !! self) as [c|] eqn:Hc; cbn; [|by left].
  assert (Hocc : ∀ n n' q t, occ_ready t n' = occ_ready t n → occ t (with_cpus s (<[self := with_run c q (Some n')]> (cpus s))) =
    occ t s - sumZ (occ_ready t) (sq_elems (run_queue c)) - occ_opt (occ_ready t) (current c) + sumZ (occ_ready t) (sq_elems q) + occ_ready t n).
  { intros n n' q t Hn. rewrite (occ_put_cpu _ c) by done. unfold occ_cpu. cbn. rewrite Hn. lia. }
  destruct nxt as [n|].
  - right. right. cbn. eexists c, _. split; [done|]. split; [|split; [|by destruct (current c)]]; [done|].
    intros t. rewrite (Hocc n) by done. cbn. lia.
  - pose proof (λ t, pop_sum (occ_ready t) (run_queue c)) as Hpop. destruct (sq_pop (run_queue c)) as [[n|] q]; cbn; [|by right; left].
    right. right. eexists c, _. split; [done|]. split; [|split; [|by destruct (current c)]]; [done|].
    intros t. rewrite (Hocc n), (Hpop t) by done. cbn. lia.
Qed.

Lemma push_run_bal self t : bal (λ x, occ_ready x t) (push_run self t).
Proof. apply bal_cpu_last. intros c x. unfold occ_cpu. cbn. rewrite push_sum. lia. Qed.
Lemma add_expected_bal i d : bal (λ _, 0) (add_expected i d : sm ()).
Proof. apply bal_cpu_last. intros c x. unfold occ_cpu. cbn. lia. Qed.
Lemma sub_expected_bal i d : bal (λ _, 0) (sub_expected i d : sm ()).
Proof. apply bal_cpu_last. intros c x. unfold occ_cpu. cbn. lia. Qed.
Lemma get_cpu_bal i : bal (λ _, 0) (get_cpu i : sm CpuState).
Proof. apply bal_get_bind. intros s. apply bal_unwrap. Qed.

(** A switch that makes room for the task it is given. *)
Lemma attempt_switch_bal {R} self ct n (func : Ready → sm R) : (∀ prev, bal (λ t, occ_ready t prev) (func prev)) →
  bal (λ t, occ_ready t n) (attempt (E':=errno) (schedule_impl self ct (Some n) func)).
Proof.
  intros Hf s. unfold attempt. destruct (schedule_impl_cases self ct (Some n) func s) as [-> | [[? _] | (c & s1 & Hc & Hi & Ho & ->)]]; [done..|].
  destruct (current c) as [prev|].
  - specialize (Hf prev s1). destruct (func prev s1) as [[a|e|] s2]; [|done..]. destruct Hf as [Ho2 Hi2].
    split; [|congruence]. intros t. rewrite Ho2, Ho. cbn. lia.
  - split; [|done]. intros t. rewrite Ho. cbn. lia.
Qed.

Lemma bal_last {A B} d (m : sm A) (b : B) : bal d m → bal d (_ ← m; mret b : sm B).
Proof. intros Hm. eapply bal_ext; [apply bal_bind; [exact Hm|intros _; apply bal_ret]|]. intros t. cbn. lia. Qed.
#[local] Hint Resolve bal_last push_run_bal : core.

Lemma enqueue_bal self task pre : bal (λ t, occ_ready t task) (enqueue self task pre).
Proof.
  apply bal_then; [apply add_expected_bal|]. intros _. apply bal_then; [apply get_cpu_bal|]. intros c.
  destruct (current c) as [cur|]; [|auto].
  apply bal_then.
  { destruct pre; [|apply bal_ret]. apply bal_lift. intros e. unfold should_preempt, dur_add. cbn. by destruct (_ <=? _). }
  intros []; [|auto]. apply bal_get_bind. intros s. apply bal_last, attempt_switch_bal.
  intros prev. exact (push_run_bal self (with_state prev NOT_RUNNING)).
Qed.

Lemma select_no_err ers mask cur last e : select_cpu ers mask cur last ≠ Err e.
Proof.
  unfold select_cpu. destruct (iter_ones mask) as [|b bs]; [done|]. cbn. destruct (ers !! b) as [rr|]; cbn; [|done].
  destruct (_ && _); [done|].
  enough (∀ r rr, select_loop ers cur last bs r rr ≠ Err e) as He.
  { specialize (He b rr). destruct (select_loop _ _ _ _ _ _); cbn; congruence. }
  clear. induction bs as [|b bs IH]; intros r rr; cbn [select_loop]; [done|]. destruct (ers !! b) as [rb|]; cbn; [|done].
  destruct (_ && _); [done|]. unfold cpu_weight. cbn zeta. destruct (_ <=? 1); cbn; [destruct (_ <? 0); apply IH|].
  unfold uadd, checked. destruct (fits _ _); [|destruct overflow_checks; [done|]]; cbn;
    unfold ilog2; destruct (_ =? 0); cbn; try done; destruct (_ <? 0); apply IH.
Qed.

Lemma unblock_bal self task pre : bal (λ t, at_ t (into_ctx task)) (unblock self task pre).
Proof.
  apply bal_get_bind. intros s. apply bal_then; [apply bal_lift; intros e; apply select_no_err|]. intros sel.
  apply bal_then; [apply bal_unwrap|]. intros i. cbn zeta. case_bool_decide.
  - eapply bal_ext; [apply enqueue_bal|]. done.
  - apply (bal_cpu _ i (λ c, with_migration c _)). intros c. eapply bal_ext; [apply bal_ret|]. intros t.
    unfold occ_cpu. cbn. rewrite push_sum. unfold occ_ready. cbn. unfold at_. cbn. lia.
Qed.

Lemma migrate_bal n self : bal (λ _, 0) (migrate_loop n self).
Proof.
  induction n as [|n IH]; cbn [migrate_loop]; [apply bal_ret|]. intros s. rewrite get_cpu_run.
  destruct (cpus s !! self) as [c|] eqn:Hc; [|done].
  pose proof (λ t, pop_sum (occ_ready t) (migration_queue c)) as Hpop. destruct (sq_pop (migration_queue c)) as [[x|] q]; cbn.
  - rewrite put_cpu_run. set (s1 := with_cpus s _).
    assert (Hrest : bal (λ t, occ_ready t x) (away ← enqueue self x true; if away : bool then mret () else migrate_loop n self)).
    { eapply bal_ext; [apply bal_bind; [apply enqueue_bal|intros []; [apply bal_ret|apply IH]]|]. intros t. cbn. lia. }
    specialize (Hrest s1). destruct (mbind (M:=sm) _ _ s1) as [[a|e|] s2]; [|done..].
    destruct Hrest as [Ho Hi]. split; [|done]. intros t. rewrite Ho. subst s1. rewrite (occ_put_cpu _ c) by done.
    unfold occ_cpu. cbn. rewrite (Hpop t). lia.
  - split; [intros t; lia|done].
Qed.
End occ.
