(* ===== verification/SchedInv.v ===== *)
(** * Every task is in exactly one place

    The operations that wake, block, suspend and move tasks change no count; leaving for
    good takes the task out of its place and out of the table of identifiers. So no task is
    in two places, and none that has left is in any; when an allocation fails, a task may
    get lost, and as long as none fails the tasks in the table are exactly those in some
    place ([tasks_in_place]). [exact] says which of the two is counted. *)

From S2P Require Import Base Collections SysCall Sched SchedFacts.
From stdpp Require Import gmap.
Local Open Scope Z_scope.

Create HintDb h2o_sched.

Class Exact := exact : bool.
Definition upto `{X : Exact} (a b : Z) : Prop := if exact then a = b else a ≤ b.

Section upto.
Context `{X : Exact}.
#[export] Instance upto_refl : Reflexive upto.
Proof. intros a. unfold upto. destruct exact; lia. Qed.
#[export] Instance upto_trans : Transitive upto.
Proof. intros a b c. unfold upto. destruct exact; lia. Qed.
Lemma upto_eq a b : a = b → upto a b.
Proof. by intros ->. Qed.
Lemma upto_le a b : upto a b → a ≤ b.
Proof. unfold upto. destruct exact; lia. Qed.
Lemma upto_sub a b c : upto a b → upto (a - c) (b - c).
Proof. unfold upto. destruct exact; lia. Qed.
Lemma upto_add a b c : upto a b → upto (a + c) (b + c).
Proof. unfold upto. destruct exact; lia. Qed.
End upto.

Section inv.
Context {Q : Type → Type} `{SQ : SegQueue Q} {H : Type} `{TH : TimerHeap H} `{P : Profile} `{X : Exact}.
Abbreviation sched := (sched (Q:=Q) (H:=H)).
Abbreviation sm := (st sched errno).

(** ** Timers *)

Lemma activate_bal self d cb : bal (λ t, occ_cb t (Some cb)) (activate self d cb true).
Proof.
  apply bal_get_bind. intros s0. apply bal_then.
  { apply bal_lift. intros e. unfold uadd, checked. by destruct (fits _ _), overflow_checks. }
  intros dl. cbn zeta.
  apply (bal_ext (λ t, occ_cb t (Some cb) + 0)); [|intros t; lia]. apply bal_bind.
  - intros s. cbn. split; [|done]. intros t. unfold occ. cbn. rewrite sumZ_app, sumZ_cons, sumZ_nil. unfold occ_timer. cbn. lia.
  - intros _. apply bal_then; [|intros _; apply bal_ret]. destruct (_ <? _); [|apply bal_ret].
    apply bal_cpu_last. intros c t. unfold occ_cpu. cbn. lia.
Qed.

(** Whatever is done with the callback that was taken out of a timer. *)
Lemma take_callback_bal {A} d t (k : option Callback → sm A) :
  (∀ cb, bal (λ x, d x + occ_cb x cb) (k cb)) → bal d (cb ← take_callback t; k cb).
Proof.
  intros Hk s. unfold take_callback. unfold mbind, st_bind. cbn. destruct (timers s !! t) as [x|] eqn:Ht; cbn; [|done].
  specialize (Hk (callback x) (with_timers s (<[t := MkTimer None (deadline x) (fired x)]> (timers s)))).
  destruct (k _ _) as [[a|e|] s2]; [|done..]. destruct Hk as [Ho Hi]. split; [|done]. intros y. rewrite Ho.
  unfold occ. cbn. rewrite (sumZ_insert _ _ _ _ _ Ht). unfold occ_timer. cbn. lia.
Qed.

Lemma call_bal x : bal (λ _, 0) (modify (λ s : sched, with_call s x)).
Proof. apply bal_modify. by intros s. Qed.

(** A task given back, with a result. *)
Lemma unblock_ret {A} self c pre (a : A) : bal (λ t, 0 + at_ t c) (_ ← unblock self (Blocked c) pre; mret a : sm A).
Proof. eapply bal_ext; [apply bal_bind; [apply unblock_bal|intros _; apply bal_ret]|]. intros t. cbn. lia. Qed.

Lemma timer_cancel_bal self t : bal (λ _, 0) (timer_cancel self t : sm bool).
Proof.
  apply take_callback_bal. intros [[c|e]|]; cbn [occ_cb]; [apply unblock_ret| |apply (bal_ext (λ _, 0)); [apply bal_ret|done]].
  apply (bal_ext (λ _, 0)); [|done]. apply bal_then; [apply call_bal|intros _; apply bal_ret].
Qed.

Lemma timer_fire_bal self t : bal (λ _, 0) (timer_fire self t : sm bool).
Proof.
  apply take_callback_bal. intros [cb|]; [|apply (bal_ext (λ _, 0)); [apply bal_ret|done]].
  intros s. unfold mbind, st_bind. cbn. destruct (timers s !! t) as [x|] eqn:Ht; cbn; [|done].
  set (s1 := with_timers s _).
  assert (Ho1 : ∀ y, occ y s1 = occ y s).
  { intros y. subst s1. unfold occ. cbn. rewrite (sumZ_insert _ _ _ _ _ Ht). unfold occ_timer. cbn. lia. }
  destruct cb as [c|e]; cbn.
  - pose proof (unblock_bal self (Blocked c) true s1) as Hu. destruct (unblock self (Blocked c) true s1) as [[a|e|] s2]; [|done..].
    destruct Hu as [Ho Hi]. split; [|done]. intros y. rewrite Ho, Ho1. cbn. lia.
  - split; [|done]. intros y. change (occ y (with_call s1 (EvNotify e))) with (occ y s1). rewrite Ho1. lia.
Qed.

Lemma next_due_bal fuel self now : bal (λ _, 0) (next_due fuel self now : sm (option nat)).
Proof.
  induction fuel as [|fuel IH]; cbn [next_due]; [by intros s|]. intros s. rewrite st_get_bind, get_cpu_run.
  destruct (cpus s !! self) as [c|] eqn:Hc; [|done]. destruct (th_peek (timer_queue c)) as [[dl t]|]; [|apply (bal_ret None)].
  destruct (timers s !! t) as [x|]; [|done]. rewrite (st_lift_ok (unwrap (Some x)) _ _ x eq_refl). cbn zeta.
  set (s1 := with_cpus s (<[self := with_timer_queue c (th_pop (timer_queue c))]> (cpus s))).
  assert (Ho1 : ∀ y, occ y s1 = occ y s).
  { intros y. subst s1. rewrite (occ_put_cpu _ c) by done. unfold occ_cpu. cbn. lia. }
  case_bool_decide.
  - rewrite put_cpu_run. fold s1. specialize (IH s1). destruct (next_due fuel self now s1) as [[a|e|] s2]; [|done..].
    destruct IH as [Ho Hi]. split; [|done]. intros y. rewrite Ho, Ho1. lia.
  - destruct (_ <=? _); [|apply (bal_ret None)]. rewrite put_cpu_run. fold s1. cbn. split; [|done].
    intros y. rewrite Ho1. lia.
Qed.

Lemma timer_tick_bal fuel self : bal (λ _, 0) (timer_tick fuel self : sm bool).
Proof.
  induction fuel as [|fuel IH]; cbn [timer_tick]; [by intros s|]. apply bal_get_bind. intros s.
  apply bal_then; [apply get_cpu_bal|]. intros c. apply bal_then; [apply next_due_bal|].
  intros [t|]; [|apply bal_ret]. apply bal_then; [apply timer_fire_bal|]. intros []; [apply bal_ret|apply IH].
Qed.

(** ** Operations that may fail, but move nothing *)

Definition gives {A} (d : Z → Z) (m : sm A) : Prop := ∀ s,
  match m s with
  | (Panic, _) => True
  | (_, s') => (∀ t, upto (occ t s') (occ t s + d t)) ∧ ids s' = ids s
  end.
Definition still {A} (m : sm A) : Prop := ∀ s,
  match m s with
  | (Panic, _) => True
  | (_, s') => (∀ t, upto (occ t s') (occ t s)) ∧ ids s' = ids s
  end.

Lemma bal_gives {A} d (m : sm A) : bal d m → gives d m.
Proof.
  intros Hm s. specialize (Hm s). destruct (m s) as [[a|e|] s']; [|done..]. destruct Hm as [Ho Hi].
  split; [|done]. intros t. by apply upto_eq.
Qed.
Lemma bal_still {A} (m : sm A) : bal (λ _, 0) m → still m.
Proof.
  intros Hm s. specialize (Hm s). destruct (m s) as [[a|e|] s']; [|done..]. destruct Hm as [Ho Hi].
  split; [|done]. intros t. apply upto_eq. rewrite Ho. lia.
Qed.
Lemma still_ret {A} (a : A) : still (mret a).
Proof. apply bal_still, bal_ret. Qed.
Lemma still_lift {A} (r : res errno A) : still (lift r).
Proof. intros s. unfold lift. by destruct r. Qed.
Lemma still_get : still get.
Proof. by intros s. Qed.
Lemma still_bind {A B} (m : sm A) (k : A → sm B) : still m → (∀ a, still (k a)) → still (m ≫= k).
Proof.
  intros Hm Hk s. unfold mbind, st_bind. specialize (Hm s). destruct (m s) as [[a|e|] s1]; [|done..].
  specialize (Hk a s1). destruct (k a s1) as [[b|e|] s2]; try done; destruct Hm as [Ho1 Hi1], Hk as [Ho2 Hi2];
    (split; [intros t; by transitivity (occ t s1)|congruence]).
Qed.
Lemma still_attempt {E' A} (m : sm A) : still m → ∀ s,
  match attempt (E':=E') m s with (Panic, _) => True | (_, s') => (∀ t, upto (occ t s') (occ t s)) ∧ ids s' = ids s end.
Proof. intros Hm s. unfold attempt. specialize (Hm s). by destruct (m s) as [[a|e|] s']. Qed.
End inv.

#[export] Hint Resolve still_ret still_lift still_get : h2o_sched.
#[export] Hint Resolve get_cpu_bal sub_expected_bal add_expected_bal timer_cancel_bal timer_tick_bal migrate_bal push_run_bal : h2o_sched.
#[export] Hint Resolve bal_still : h2o_sched.

Section ops.
Context {Q : Type → Type} `{SQ : SegQueue Q} {H : Type} `{TH : TimerHeap H} `{P : Profile} `{X : Exact}.
Abbreviation sched := (sched (Q:=Q) (H:=H)).
Abbreviation sm := (st sched errno).

(** ** Blocking, waiting and waking *)

Lemma switch_still {R} self ct (func : Ready → sm R) : (∀ prev, gives (λ t, occ_ready t prev) (func prev)) →
  still (schedule_impl self ct None func).
Proof.
  intros Hf s. destruct (schedule_impl_cases self ct None func s) as [-> | [[_ ->] | (c & s1 & Hc & Hi & Ho & ->)]]; [done..|].
  destruct (current c) as [prev|].
  - specialize (Hf prev s1). destruct (func prev s1) as [[a|e|] s2]; [..|done]; destruct Hf as [Ho2 Hi2];
      (split; [|congruence]); intros t; (etransitivity; [apply Ho2|]); apply upto_eq; rewrite Ho; cbn; lia.
  - split; [|done]. intros t. apply upto_eq. rewrite Ho. cbn. lia.
Qed.

Lemma push_wait_bal wq t : bal (λ _, 0) (push_wait wq t : sm ()).
Proof.
  apply bal_get_bind. intros s. apply bal_then; [apply bal_unwrap|]. intros q. apply bal_modify. by intros s'.
Qed.

(** A task whose timer cannot be allocated is lost. *)
Lemma block_gives self wq d prev ok : (exact = true → ok = true) →
  gives (λ t, occ_ready t prev) (t ← activate self d (CTask (ctx prev)) ok;
    _ ← match wq with Some wq => push_wait wq t | None => mret () end; mret t : sm nat).
Proof.
  intros Hok. destruct ok.
  - apply bal_gives. eapply bal_ext; [apply bal_bind; [apply activate_bal|]|].
    { intros t. apply bal_then; [destruct wq; [apply push_wait_bal|apply bal_ret]|]. intros _. apply bal_ret. }
    intros t. cbn. unfold occ_ready. lia.
  - assert (exact = false) as He by (by destruct exact; [discriminate Hok|]).
    intros s. unfold activate, mbind, st_bind. cbn. destruct (uadd _ _ _) as [dl|e|]; cbn; [..|done];
      (split; [|done]); intros t; unfold upto; rewrite He; unfold occ_ready; pose proof (at_nonneg t (ctx prev)); lia.
Qed.

Lemma block_still self wq d ok : (exact = true → ok = true) → still (block_current self wq d ok : sm nat).
Proof.
  intros Hok. apply still_bind; [auto with h2o_sched|]. intros c. apply still_bind; [destruct (current c); auto with h2o_sched|].
  intros _. apply still_bind; [auto with h2o_sched|]. intros s. apply switch_still. intros prev. by apply block_gives.
Qed.

Lemma pop_wait_still wq : still (pop_wait wq : sm (option nat)).
Proof.
  intros s. unfold pop_wait, mbind, st_bind. cbn. destruct (wait_queues s !! wq) as [q|]; cbn; [|done].
  by destruct (sq_pop q) as [x q'].
Qed.
Lemma notify_loop_still fuel self wq num cnt : still (notify_loop fuel self wq num cnt : sm Z).
Proof.
  revert cnt. induction fuel as [|fuel IH]; intros cnt; cbn [notify_loop]; [apply still_lift|].
  destruct (cnt <? num); [|apply still_ret]. apply still_bind; [apply pop_wait_still|]. intros [t|]; [|apply still_ret].
  apply still_bind; [auto with h2o_sched|]. intros b. apply IH.
Qed.
Lemma notify_still self wq num : still (wo_notify self wq num : sm Z).
Proof. apply still_bind; [auto with h2o_sched|]. intros s. apply still_bind; [auto with h2o_sched|]. intros q. apply notify_loop_still. Qed.

Lemma wo_new_still : still (wo_new : sm nat).
Proof. by intros s. Qed.
Lemma futex_still sp key : still (futex sp key : sm nat).
Proof. intros s. unfold futex, wo_new, mbind, st_bind. cbn. by destruct (futexes s !! (sp, key)). Qed.
Lemma try_drop_still sp key : still (try_drop_futex sp key : sm ()).
Proof.
  intros s. unfold try_drop_futex, mbind, st_bind. cbn. destruct (futexes s !! (sp, key)) as [wq|]; cbn; [|done].
  destruct (wait_queues s !! wq) as [q|]; cbn; [|done]. by destruct (sq_len q =? 0).
Qed.
Lemma requeue_loop_still fuel wq other rem : still (requeue_loop fuel wq other rem : sm Z).
Proof.
  revert rem. induction fuel as [|fuel IH]; intros rem; cbn [requeue_loop]; [apply still_lift|].
  destruct (0 <? rem); [|apply still_ret]. apply still_bind; [apply pop_wait_still|]. intros [t|]; [|apply still_ret].
  apply still_bind; [apply bal_still, push_wait_bal|]. intros _. apply IH.
Qed.
Lemma requeue_still wq other num : still (requeue wq other num : sm Z).
Proof.
  apply still_bind; [auto with h2o_sched|]. intros s. apply still_bind; [auto with h2o_sched|]. intros q.
  apply still_bind; [apply requeue_loop_still|]. intros r. apply still_ret.
Qed.
Lemma current_space_still self : still (current_space self : sm nat).
Proof. apply still_bind; [auto with h2o_sched|]. intros c. apply still_bind; auto with h2o_sched. Qed.

Lemma futex_wait_still self ptr rd value expected us ok : (exact = true → ok = true) →
  still (futex_wait self ptr rd value expected us ok : sm nat).
Proof.
  intros Hok. apply still_bind; [auto with h2o_sched|]. intros _. apply still_bind; [apply current_space_still|]. intros sp.
  apply still_bind; [apply futex_still|]. intros wq. apply still_bind.
  { intros s. apply still_attempt. unfold futex_wait_. destruct (_ =? _); [by apply block_still|apply still_lift]. }
  intros [e|t]; [|apply still_ret]. apply still_bind; [apply try_drop_still|auto with h2o_sched].
Qed.
Lemma futex_wait_end_still sp ptr t : still (futex_wait_end sp ptr t : sm ()).
Proof.
  apply still_bind; [apply try_drop_still|]. intros _. apply still_bind.
  - apply still_bind; [auto with h2o_sched|]. intros s. apply still_bind; auto with h2o_sched.
  - intros []; [apply still_lift|apply still_ret].
Qed.
Lemma futex_wake_still self ptr rd num : still (futex_wake self ptr rd num : sm Z).
Proof.
  apply still_bind; [auto with h2o_sched|]. intros _. apply still_bind; [auto with h2o_sched|]. intros c.
  apply still_bind; [auto with h2o_sched|]. intros cur. apply still_bind; [apply futex_still|]. intros wq. apply notify_still.
Qed.
Lemma futex_reque_still self ptr rd wake other rd' num : still (futex_reque self ptr rd wake other rd' num : sm (Z * Z)).
Proof.
  do 2 (apply still_bind; [auto with h2o_sched|]; intros _). apply still_bind; [apply current_space_still|]. intros sp.
  do 2 (apply still_bind; [apply futex_still|]; intros ?). apply still_bind; [apply notify_still|]. intros woken.
  apply still_bind; [apply requeue_still|]. intros moved. apply still_ret.
Qed.

(** ** The invariant *)

(** A task that is asked to suspend has an empty slot of its own to go to. *)
Definition slots_ok (s : sched) : Prop := ∀ c slot, signals s !! c = Some (Suspend slot) →
  slots s !! slot = Some None ∧ ∀ c', signals s !! c' = Some (Suspend slot) → c' = c.

(** [n] bounds the identifiers that were given out. *)
Record placed (n : Z) (s : sched) : Prop := {
  pl_occ t : upto (occ t s) (if bool_decide (t ∈ ti_map s) then 1 else 0);
  pl_count : upto (Z.of_nat (size (ti_map s))) (task_count s) ∧ task_count s ≤ NR_TASKS;
  pl_gen : 0 < tid_gen s ≤ n ∧ ∀ t, t ∈ ti_map s → 0 < t < tid_gen s;
  pl_slots : slots_ok s;
}.

(** [m] keeps the invariant, and gives out no more than [k] identifiers. *)
Definition places {A} (k : Z) (m : sm A) : Prop := ∀ n s, placed n s → n + k < 2 ^ 64 →
  match m s with (Panic, _) => True | (_, s') => placed (n + k) s' end.

Lemma placed_frame n s s' : placed n s → (∀ t, upto (occ t s') (occ t s)) → ids s' = ids s → placed n s'.
Proof.
  intros [Ho Hc Hg Hs] Hocc [= Ht Hcnt Hgen Hsig Hsl]. split; rewrite ?Ht, ?Hcnt, ?Hgen; try done.
  - intros t. etransitivity; [apply Hocc|apply Ho].
  - unfold slots_ok. by rewrite Hsig, Hsl.
Qed.
Lemma placed_le n m s : placed n s → n ≤ m → placed m s.
Proof. intros [Ho Hc [Hg Hg'] Hs] Hm. split; try done. split; [lia|done]. Qed.

Lemma still_places {A} k (m : sm A) : 0 ≤ k → still m → places k m.
Proof.
  intros Hk Hm n s Hs Hn. specialize (Hm s). destruct (m s) as [[a|e|] s']; [..|done]; destruct Hm as [Ho Hi];
    (eapply placed_le; [by eapply placed_frame|lia]).
Qed.
Lemma places_bind {A B} (m : sm A) (k : A → sm B) : places 0 m → (∀ a, places 0 (k a)) → places 0 (m ≫= k).
Proof.
  intros Hm Hk n s Hs Hn. unfold mbind, st_bind. specialize (Hm n s Hs Hn). destruct (m s) as [[a|e|] s1]; [|done..].
  rewrite Z.add_0_r in Hm. by apply Hk.
Qed.
Lemma places_ret {A} (a : A) : places 0 (mret a).
Proof. apply still_places, still_ret; lia. Qed.

(** ** Controlling tasks *)

Lemma ctl_kill_places child : places 0 (ctl_kill child : sm ()).
Proof.
  intros n s [Ho Hc Hg Hs] Hn. cbn. rewrite Z.add_0_r. split; try done. intros c slot. cbn.
  destruct (decide (c = child)) as [-> | Hne]; [by rewrite lookup_insert_eq|]. rewrite lookup_insert_ne by done.
  intros [Hsl Hu]%Hs. split; [done|]. intros c'. destruct (decide (c' = child)) as [-> | Hne']; [by rewrite lookup_insert_eq|].
  rewrite lookup_insert_ne by done. apply Hu.
Qed.

Lemma occ_new_slot t (s : sched) : occ t (with_slots s (slots s ++ [None])) = occ t s.
Proof. unfold occ. cbn. rewrite sumZ_app, sumZ_cons, sumZ_nil. cbn. lia. Qed.
Lemma slots_ok_app (s : sched) x : slots_ok s → slots_ok (with_slots s (slots s ++ [x])).
Proof. intros Hs c slot Hc. cbn in *. destruct (Hs c slot Hc) as [Hsl Hu]. split; [by apply lookup_app_l_Some|done]. Qed.

(** Asking a task to suspend gives it a new slot. *)
Lemma suspend_asked n child (s : sched) : placed n s →
  placed n (with_signals (with_slots s (slots s ++ [None])) (<[child := Suspend (length (slots s))]> (signals s))).
Proof.
  intros [Ho Hc Hg Hs].
  assert (Hold : ∀ c slot, signals s !! c = Some (Suspend slot) → (slots s ++ [None]) !! slot = Some None ∧ (slot < length (slots s))%nat).
  { intros c slot [Hsl _]%Hs. split; [by apply lookup_app_l_Some|by eapply lookup_lt_Some]. }
  split; try done.
  - intros t. etransitivity; [|apply Ho]. apply upto_eq, occ_new_slot.
  - intros c slot. cbn. destruct (decide (c = child)) as [-> | Hne].
    + rewrite lookup_insert_eq. intros [= <-]. split; [by rewrite lookup_app_r, Nat.sub_diag by done|].
      intros c'. destruct (decide (c' = child)) as [-> | Hne']; [done|]. rewrite lookup_insert_ne by done.
      intros [_ Hlt]%Hold. lia.
    + rewrite lookup_insert_ne by done. intros Hcs. split; [by eapply Hold|]. intros c'.
      destruct (decide (c' = child)) as [-> | Hne'].
      * rewrite lookup_insert_eq. intros [= Heq]. apply Hold in Hcs as [_ Hlt]. lia.
      * rewrite lookup_insert_ne by done. by apply (Hs c slot).
Qed.
Lemma slot_added n (s : sched) : placed n s → placed n (with_slots s (slots s ++ [None])).
Proof.
  intros [Ho Hc Hg Hs]. split; try done.
  - intros t. etransitivity; [|apply Ho]. apply upto_eq, occ_new_slot.
  - by apply slots_ok_app.
Qed.

Lemma token_drop_places self slot child : places 0 (token_drop self slot child : sm ()).
Proof.
  intros n s Hp Hn. rewrite Z.add_0_r. destruct Hp as [Ho Hc Hg Hs]. unfold token_drop, mbind, st_bind. cbn.
  destruct (slots s !! slot) as [x|] eqn:Hx; cbn; [|done]. set (s1 := with_slots s _).
  assert (Ho1 : ∀ t, occ t s1 = occ t s - occ_opt (at_ t) x).
  { intros t. subst s1. unfold occ. cbn. rewrite (sumZ_insert _ _ _ _ _ Hx). cbn. lia. }
  assert (Hs1 : slots_ok s1).
  { intros c sl Hsig. cbn in *. apply Hs in Hsig as [Hsl Hu]. split; [|done].
    destruct (decide (sl = slot)) as [-> | Hne]; [|by rewrite list_lookup_insert_ne].
    rewrite list_lookup_insert_eq; [done|]. by eapply lookup_lt_Some. }
  destruct x as [c|].
  - pose proof (unblock_bal self (Blocked c) true s1) as Hu. destruct (unblock self (Blocked c) true s1) as [[a|e|] s2]; [|done..].
    cbn. destruct Hu as [Ho2 [= Ht Hcnt Hgen Hsig Hsl]]. split; rewrite ?Ht, ?Hcnt, ?Hgen; try done.
    + intros t. etransitivity; [|apply Ho]. apply upto_eq. rewrite Ho2, Ho1. cbn. lia.
    + unfold slots_ok. by rewrite Hsig, Hsl.
  - assert (Hp1 : placed n s1). { split; try done. intros t. etransitivity; [|apply Ho]. apply upto_eq. rewrite Ho1. cbn. lia. }
    cbn. case_bool_decide as Hsig; [|done]. destruct Hp1 as [Ho' Hc' Hg' Hs']. split; try done.
    intros c sl. cbn. intros [Hne Hcs]%lookup_delete_Some. apply Hs in Hcs as Hcs'. destruct Hcs' as [Hsl Hu].
    destruct (Hs1 c sl Hcs) as [Hsl1 _]. split; [done|]. intros c' [_ Hc'']%lookup_delete_Some. by apply Hu.
Qed.

Lemma ctl_suspend_places self child ok tok : places 0 (ctl_suspend self child ok tok : sm nat).
Proof.
  destruct ok; [|apply still_places, still_lift; lia]. intros n s Hp Hn. unfold ctl_suspend. rewrite st_get_bind. cbn zeta. rewrite st_put_bind.
  case_bool_decide.
  { cbn. rewrite Z.add_0_r. by apply slot_added. }
  rewrite st_modify_bind. cbn [signals with_slots]. pose proof (suspend_asked n child s Hp) as Hp1. set (s1 := with_signals _ _) in *.
  destruct tok as [h|e|]; cbn; [by rewrite Z.add_0_r| |done].
  pose proof (token_drop_places self (length (slots s)) child n s1 Hp1 Hn) as Hd. unfold mbind, st_bind.
  by destruct (token_drop _ _ _ s1) as [[[]|e'|] s2].
Qed.

(** The task is put back into its slot, or lost. *)
Lemma task_debug_places slot early ret : (exact = true → early = None) → places 0 (task_debug slot early ret : sm (option ())).
Proof.
  intros He n s Hp Hn. rewrite Z.add_0_r. unfold task_debug, mbind, st_bind. cbn.
  destruct (slots s !! slot) as [[c|]|] eqn:Hx; cbn; [|done..]. assert (Hlt : (slot < length (slots s))%nat) by (by eapply lookup_lt_Some).
  assert (Hfree : ∀ p sl, signals s !! p = Some (Suspend sl) → sl ≠ slot).
  { intros p sl [Hsl _]%(pl_slots n s Hp) ->. congruence. }
  destruct early as [e|].
  - cbn. destruct Hp as [Ho Hc Hg Hs]. split; try done.
    + intros t. specialize (Ho t). unfold upto in *. assert (exact = false) as Hf by (by destruct exact; [discriminate He|]).
      rewrite Hf in *. unfold occ in *. cbn. rewrite (sumZ_insert _ _ _ _ _ Hx). cbn. pose proof (at_nonneg t c). lia.
    + intros p sl Hsig. cbn in *. destruct (Hs p sl Hsig) as [Hsl Hu]. split; [|done].
      rewrite list_lookup_insert_ne; [done|]. by apply not_eq_sym, (Hfree p).
  - assert (with_slots (with_slots s (<[slot := None]> (slots s))) (<[slot := Some c]> (<[slot := None]> (slots s))) = s) as Hback.
    { rewrite list_insert_insert_eq, (list_insert_id _ _ _ Hx). clear. by destruct s. }
    cbn. destruct ret; cbn; by rewrite ?Hback.
Qed.

(** ** Leaving *)

(** [Ready::exit] takes the identifier back; the task itself was taken out before. *)
Lemma exit_run self t retval (s : sched) : match task_exit_ self t retval s with
  | (Panic, _) => True
  | (Err _, _) => False
  | (Ok _, s') => (∀ x, occ x s' = occ x s) ∧ signals s' = signals s ∧ slots s' = slots s ∧ tid_gen s' = tid_gen s ∧
      (if bool_decide (tid (ctx t) ∈ ti_map s)
       then ti_map s' = ti_map s ∖ {[tid (ctx t)]} ∧ task_count s' = wrap W (task_count s - 1)
       else ti_map s' = ti_map s ∧ task_count s' = task_count s)
  end.
Proof.
  unfold task_exit_, deallocate, get_cpu, put_cpu, mbind, st_bind. cbn. case_bool_decide as Hin; cbn;
    (destruct (cpus s !! self) as [c|] eqn:Hc; cbn; [|done]); (split; [|by rewrite ?bool_decide_eq_true_2, ?bool_decide_eq_false_2 by done]);
    intros x; unfold occ; cbn; rewrite (sumZ_insert _ _ _ _ _ Hc); unfold occ_cpu; cbn; lia.
Qed.

Lemma leave_places self ct retval : places 0 (diverges (schedule_impl self ct None (λ t, task_exit_ self t retval)) : sm ()).
Proof.
  intros n s [Ho Hc Hg Hs] Hn. rewrite Z.add_0_r. unfold diverges, mbind, st_bind, attempt.
  destruct (schedule_impl_cases self ct None (λ t, task_exit_ self t retval) s) as [-> | [[_ ->] | (c & s1 & Hcpu & Hi & Ho1 & ->)]]; [done..|].
  destruct (current c) as [prev|]; [|done]. pose proof (exit_run self prev retval s1) as He.
  destruct (task_exit_ self prev retval s1) as [[[]|e|] s2]; [|done..]. cbn. destruct He as (Ho2 & Hsig & Hsl & Hgen & Hids).
  injection Hi as Ht1 Hc1 Hg1 Hsig1 Hsl1. set (p := tid (ctx prev)) in *.
  assert (Hocc : ∀ t, occ t s2 = occ t s - occ_ready t prev). { intros t. rewrite Ho2, Ho1. cbn. lia. }
  assert (Hp : p ∈ ti_map s).
  { specialize (Hocc p). pose proof (occ_nonneg p s2). pose proof (upto_le _ _ (Ho p)) as Hle. unfold occ_ready, at_ in Hocc. fold p in Hocc.
    rewrite Z.eqb_refl in Hocc. case_bool_decide; [done|lia]. }
  rewrite Ht1, bool_decide_eq_true_2 in Hids by done. destruct Hids as [Ht2 Hc2].
  assert (Hsize : Z.of_nat (size (ti_map s ∖ {[p]})) = Z.of_nat (size (ti_map s)) - 1).
  { rewrite size_difference, size_singleton by set_solver. assert (size (ti_map s) ≠ 0)%nat by (by apply size_non_empty_iff; set_solver). lia. }
  split.
  - intros t. rewrite Hocc, Ht2. etransitivity; [apply upto_sub, Ho|]. apply upto_eq. unfold occ_ready, at_. fold p.
    destruct (Z.eqb_spec p t) as [<- | Hne].
    + rewrite bool_decide_eq_true_2, bool_decide_eq_false_2 by set_solver. lia.
    + rewrite Z.sub_0_r. assert (t ∈ ti_map s ↔ t ∈ ti_map s ∖ {[p]}) as Hiff by set_solver.
      by rewrite (bool_decide_ext _ _ Hiff).
  - rewrite Hc2, Hc1, Ht2, Hsize. destruct Hc as [Hcs Hcn]. pose proof (upto_le _ _ Hcs) as Hle.
    assert (size (ti_map s) ≠ 0)%nat by (apply size_non_empty_iff; set_solver).
    rewrite wrap_small by (unfold NR_TASKS in *; lia). split; [by apply upto_sub|lia].
  - rewrite Hgen, Hg1, Ht2. destruct Hg as [Hg Hg']. split; [done|]. intros t Hin. apply Hg'. set_solver.
  - intros c' slot'. rewrite Hsig, Hsl, Hsig1, Hsl1. apply Hs.
Qed.

Lemma kill_places self cur ct : places 0 (kill self cur ct : sm ()).
Proof. apply places_bind; [apply still_places; [done|auto with h2o_sched]|]. intros _. apply leave_places. Qed.

Lemma stop_still sp raw : still (try_stop sp raw : sm ()).
Proof. intros s. unfold try_stop. cbn. by destruct (_ =? _). Qed.
Lemma set_main_still sp raw : still (set_main sp raw : sm ()).
Proof. intros s. unfold set_main. cbn. by destruct (_ =? _). Qed.

Lemma exit_places self retval ka : places 0 (exit_current self retval ka : sm ()).
Proof.
  apply places_bind; [apply still_places; [done|auto with h2o_sched]|]. intros c. apply places_bind.
  { apply still_places; [done|]. destruct (current c); [|apply still_ret]. apply still_bind; [auto with h2o_sched|]. intros _.
    destruct ka; [apply stop_still|apply still_ret]. }
  intros _. apply places_bind; [apply still_places, still_get; lia|]. intros s. apply leave_places.
Qed.

(** ** The tick *)

Lemma drop_signal n p (s : sched) : placed n s → placed n (with_signals s (delete p (signals s))).
Proof.
  intros [Ho Hc Hg Hs]. split; try done. intros c sl. cbn. intros [_ Hc']%lookup_delete_Some.
  apply Hs in Hc' as [Hsl Hu]. split; [done|]. intros c' [_ Hc'']%lookup_delete_Some. by apply Hu.
Qed.

(** A task that suspends goes to its slot, which is empty and nobody else's. *)
Lemma suspend_run n self ct (s : sched) slot : placed n s → slots s !! slot = Some None →
  (∀ c, signals s !! c ≠ Some (Suspend slot)) →
  match schedule_impl self ct None (λ t, set_slot slot (Some (ctx t))) s with (Panic, _) => True | (_, s') => placed n s' end.
Proof.
  intros Hps Hslot Hnone. pose proof Hps as [Ho Hc Hg Hok].
  destruct (schedule_impl_cases self ct None (λ t, set_slot slot (Some (ctx t))) s) as [-> | [[_ ->] | (c & s1 & Hcpu & Hi & Ho1 & ->)]]; [done..|].
  destruct (current c) as [prev|].
  2:{ eapply placed_frame; [exact Hps| |done]. intros t. apply upto_eq. rewrite Ho1. cbn. lia. }
  cbn. injection Hi as Ht1 Hc1 Hg1 Hsig1 Hsl1. split; cbn; rewrite ?Ht1, ?Hc1, ?Hg1; try done.
  - intros t. assert (Hsl : slots s1 !! slot = Some None) by (by rewrite Hsl1). specialize (Ho1 t).
    etransitivity; [|apply Ho]. apply upto_eq.
    unfold occ in *. cbn in *. rewrite (sumZ_insert _ _ _ _ _ Hsl). cbn. unfold occ_ready in *. lia.
  - intros c' sl. cbn. rewrite Hsig1, Hsl1. intros Hc'. destruct (Hok c' sl Hc') as [Hsl Hu]. split; [|done].
    rewrite list_lookup_insert_ne; [done|]. intros ->. by apply (Hnone c').
Qed.

Lemma kill_away_places self cur ct : places 0 (_ ← kill self cur ct; mret Away : sm flow).
Proof. apply places_bind; [apply kill_places|intros _; apply places_ret]. Qed.

Lemma check_signal_places self ct : places 0 (check_signal self ct : sm flow).
Proof.
  intros n s Hp Hn. unfold check_signal. rewrite get_cpu_run. destruct (cpus s !! self) as [c|]; [|done].
  destruct (current c) as [cur|]; [|by apply places_ret]. rewrite st_get_bind. destruct (_ =? 0); [by apply kill_away_places|].
  case_bool_decide; [by apply places_ret|]. cbn zeta. rewrite st_put_bind. set (p := tid (ctx cur)).
  pose proof (drop_signal n p s Hp) as Hp1. set (s1 := with_signals s _) in *.
  destruct (signals s !! p) as [[|slot]|] eqn:Hsig; [by apply kill_away_places| |by apply places_ret].
  destruct (pl_slots n s Hp p slot Hsig) as [Hslot Huniq].
  assert (Hnone : ∀ c, signals s1 !! c ≠ Some (Suspend slot)).
  { intros c'. subst s1. cbn. intros [Hne Hc']%lookup_delete_Some. by apply Hne, eq_sym, Huniq. }
  rewrite Z.add_0_r. pose proof (sub_expected_bal self (time_slice cur) s1) as Hsub.
  unfold mbind at 1, st_bind at 1. destruct (sub_expected _ _ s1) as [[[]|e|] s2]; [|done..]. destruct Hsub as [Ho2 Hi2].
  assert (Hp2 : placed n s2). { eapply placed_frame; [exact Hp1| |done]. intros t. apply upto_eq. rewrite Ho2. lia. }
  injection Hi2 as _ _ _ Hsig2 Hsl2. pose proof (suspend_run n self ct s2 slot Hp2) as Hsus.
  rewrite Hsl2, Hsig2 in Hsus. specialize (Hsus Hslot Hnone). unfold attempt, mbind, st_bind.
  destruct (schedule_impl _ _ _ _ s2) as [[[]|e|] s3]; [done| |done]. cbn. by case_bool_decide.
Qed.

Lemma update_still self ct : still (update self ct : sm bool).
Proof.
  intros s. unfold update. rewrite get_cpu_run. destruct (cpus s !! self) as [c|] eqn:Hc; [|done].
  destruct (current c) as [cur|] eqn:Hcur; [|done]. destruct (start_time _) as [st|].
  - unfold dur_add. destruct (_ <=? _); [|done]. cbn. split; [|done]. intros t. apply upto_eq. rewrite (occ_put_cpu _ c) by done.
    unfold occ_cpu. cbn. rewrite Hcur. cbn. unfold occ_ready, at_. cbn. lia.
  - by destruct (needs_resched _).
Qed.

Lemma schedule_still self ct : still (schedule self ct : sm ()).
Proof.
  apply switch_still. intros prev. apply bal_gives, bal_then; [|intros _; exact (push_run_bal self (with_state prev NOT_RUNNING))].
  apply bal_lift. intros e. destruct overflow_checks; [|done]. by destruct (needs_resched _).
Qed.

Lemma tick_places self ct : places 0 (tick self ct : sm ()).
Proof.
  apply places_bind; [apply check_signal_places|]. intros [now|]; [|apply places_ret].
  apply still_places; [done|]. apply still_bind; [apply update_still|]. intros []; [|apply still_ret].
  apply still_bind; [intros s; apply still_attempt, schedule_still|]. intros _. apply still_ret.
Qed.

Lemma request_still self : still (request_resched self : sm ()).
Proof.
  intros s. unfold request_resched. rewrite get_cpu_run. destruct (cpus s !! self) as [c|] eqn:Hc; [|done].
  destruct (current c) as [cur|] eqn:Hcur; [|done]. cbn. split; [|done]. intros t. apply upto_eq. rewrite (occ_put_cpu _ c) by done.
  unfold occ_cpu. cbn. rewrite Hcur. cbn. unfold occ_ready. cbn. lia.
Qed.

Lemma sleep_places self ms ok : (exact = true → ok = true) → places 0 (task_sleep self ms ok : sm (option nat)).
Proof.
  intros Hok. unfold task_sleep. destruct (ms =? 0).
  - apply places_bind; [apply still_places; [done|]; intros s; apply still_attempt, request_still|]. intros _.
    apply places_bind; [apply still_places, still_get; lia|]. intros s. apply places_bind; [apply tick_places|]. intros _. apply places_ret.
  - apply still_places; [done|]. apply still_bind; [by apply block_still|]. intros t. apply still_ret.
Qed.

(** ** New tasks *)

(** When the information of the task cannot be allocated, only the count is wrong. *)
Lemma allocate_run n ok (s : sched) : placed n s → n + 1 < 2 ^ 64 → (exact = true → ok = true) →
  (∃ e s', allocate ok s = (Err e, s') ∧ placed (n + 1) s') ∨
  task_count s < NR_TASKS ∧
    allocate ok s = (Ok (tid_gen s), with_tids s (rets s) ({[tid_gen s]} ∪ ti_map s) (task_count s + 1) (tid_gen s + 1)).
Proof.
  intros Hp Hn Hok. pose proof Hp as [Ho [Hc Hcn] [Hg Hg'] Hs]. unfold allocate, tid_next, mbind, st_bind. cbn.
  destruct (Z.leb_spec NR_TASKS (task_count s)); cbn.
  { left. eexists _, s. split; [done|]. eapply placed_le; [done|lia]. }
  destruct (Z.eqb_spec (tid_gen s) 0); [lia|]. cbn. rewrite wrap_small by lia. destruct ok.
  - right. split; [done|]. cbn. assert (negb (bool_decide (tid_gen s ∈ ti_map s)) = true) as ->.
    { rewrite bool_decide_eq_false_2; [done|]. intros Hin%Hg'. lia. }
    by destruct overflow_checks.
  - left. eexists _, _. split; [reflexivity|]. assert (exact = false) as He by (by destruct exact; [discriminate Hok|]).
    split; cbn; try done.
    + split; [|lia]. unfold upto in *. rewrite He in *. lia.
    + split; [lia|]. intros t Hin%Hg'. lia.
Qed.

(** The table with the new task, which is in no place yet. *)
Definition made (s s2 : sched) (c : Context) : Prop :=
  tid c = tid_gen s ∧ task_count s < NR_TASKS ∧ (∀ t, occ t s2 = occ t s) ∧
  ids s2 = ({[tid_gen s]} ∪ ti_map s, task_count s + 1, tid_gen s + 1, signals s, slots s).

Lemma exec_inner_run n cur this mask sp ok ok' (s : sched) : placed n s → n + 1 < 2 ^ 64 → (exact = true → ok' = true) →
  (∃ e s', exec_inner cur this mask sp ok ok' s = (Err e, s') ∧ placed (n + 1) s') ∨
  (∃ c s2, exec_inner cur this mask sp ok ok' s = (Ok (Init c), s2) ∧ made s s2 c).
Proof.
  intros Hp Hn Hok. assert (Hsame : placed (n + 1) s) by (eapply placed_le; [done|lia]).
  unfold exec_inner. destruct (ty_pass this (ty cur)) as [t|e|] eqn:Ht; [|left; by exists e, s|by destruct this as [[]|], (ty cur)].
  unfold mbind, st_bind, attempt, set_main. cbn. destruct ok; [|left; by exists ENOMEM, s]. cbn.
  destruct (allocate_run n ok' s Hp Hn Hok) as [(e & s' & -> & Hp') | [Hcnt ->]]; [left; by exists EBUSY, s'|]. right. cbn.
  eexists _, _. split; [reflexivity|]. split; [done|]. split; [done|]. by destruct (main_of _ sp =? 0).
Qed.

(** A new task finds its place, or is lost. *)
Lemma made_placed n c (s s2 s3 : sched) : placed n s → n + 1 < 2 ^ 64 → made s s2 c →
  (∀ t, upto (occ t s3) (occ t s2 + at_ t c)) → ti_map s3 = ti_map s2 → task_count s3 = task_count s2 → tid_gen s3 = tid_gen s2 →
  slots_ok s3 → placed (n + 1) s3.
Proof.
  intros [Ho [Hc Hcn] [Hg Hg'] Hs] Hn (Htid & Hcnt & Ho2 & [= Ht2 Hc2 Hg2 _ _]) Ho3 Ht3 Hc3 Hg3 Hs3.
  rewrite Ht2 in Ht3. rewrite Hc2 in Hc3. rewrite Hg2 in Hg3.
  assert (Hfresh : tid_gen s ∉ ti_map s) by (intros Hin%Hg'; lia). split; [..|done].
  - intros t'. etransitivity; [apply Ho3|]. rewrite Ho2, Ht3. etransitivity; [apply upto_add, Ho|]. apply upto_eq. unfold at_. rewrite Htid.
    destruct (Z.eqb_spec (tid_gen s) t') as [<- | Hne].
    + rewrite bool_decide_eq_false_2, bool_decide_eq_true_2 by set_solver. done.
    + rewrite Z.add_0_r. assert (t' ∈ ti_map s ↔ t' ∈ ({[tid_gen s]} ∪ ti_map s : gset Z)) as Hiff by set_solver.
      by rewrite (bool_decide_ext _ _ Hiff).
  - rewrite Hc3, Ht3, size_union, size_singleton by set_solver. split; [|lia]. apply (upto_add _ _ 1) in Hc.
    by replace (Z.of_nat (1 + size (ti_map s))) with (Z.of_nat (size (ti_map s)) + 1) by lia.
  - rewrite Hg3, Ht3. split; [lia|]. intros t' [->%elem_of_singleton | Hin%Hg']%elem_of_union; lia.
Qed.

Lemma slots_ok_made (s s2 : sched) c n : placed n s → made s s2 c → slots_ok s2.
Proof. intros [_ _ _ Hs] (_ & _ & _ & [= _ _ _ Hsig Hsl]). unfold slots_ok. by rewrite Hsig, Hsl. Qed.

Lemma spawn_places n self c pre (s s2 : sched) : placed n s → n + 1 < 2 ^ 64 → made s s2 c →
  match unblock self (Init c) pre s2 with (Panic, _) => True | (Err _, _) => False | (Ok _, s') => placed (n + 1) s' end.
Proof.
  intros Hp Hn Hm. pose proof (unblock_bal self (Init c) pre s2) as Hu.
  destruct (unblock self (Init c) pre s2) as [[a|e|] s3]; [|done..].
  destruct Hu as [Ho3 [= Ht Hc Hg Hsig Hsl]]. apply (made_placed n c s s2 s3 Hp Hn Hm); try done.
  - intros t. by apply upto_eq.
  - unfold slots_ok. rewrite Hsig, Hsl. by eapply slots_ok_made.
Qed.

(** Without its handle the new task is lost. *)
Lemma made_lost n c (s s2 : sched) : placed n s → n + 1 < 2 ^ 64 → made s s2 c → exact = false → placed (n + 1) s2.
Proof.
  intros Hp Hn Hm He. apply (made_placed n c s s2 s2 Hp Hn Hm); try done.
  - intros t. unfold upto. rewrite He. pose proof (at_nonneg t c). lia.
  - by eapply slots_ok_made.
Qed.

Lemma exec_places self this mask sp ok ok' hdl : (exact = true → ok' = true ∧ is_ok hdl = true) →
  places 1 (exec self this mask sp ok ok' hdl : sm Z).
Proof.
  intros Hx n s Hp Hn. assert (Hsame : placed (n + 1) s) by (eapply placed_le; [done|lia]).
  unfold exec. rewrite get_cpu_run. destruct (cpus s !! self) as [cp|]; [|done]. destruct (current cp) as [cur|]; [|done].
  rewrite (st_lift_ok (of_option ESRCH (Some cur)) _ _ cur eq_refl).
  destruct (exec_inner_run n (ctx cur) this mask sp ok ok' s Hp Hn) as [(e & s' & He & Hp') | (c & s2 & He & Hm)]; [by intros []%Hx|..].
  { by rewrite (st_bind_err _ _ _ _ _ He). }
  rewrite (st_bind_ok _ _ _ _ _ He). destruct hdl as [h|e|]; [|cbn|done].
  - pose proof (spawn_places n self c true s s2 Hp Hn Hm) as Hs. unfold mbind, st_bind. cbn.
    by destruct (unblock self (Init c) true s2) as [[a|e|] s3].
  - apply (made_lost n c s s2 Hp Hn Hm). destruct exact; [|done]. by destruct Hx.
Qed.

Lemma task_new_places self sp ok ok' ok'' hdl tok wr : (exact = true → ok'' = true ∧ is_ok hdl = true) →
  places 1 (task_new self sp ok ok' ok'' hdl tok wr : sm Z).
Proof.
  intros Hx n s Hp Hn. assert (Hsame : placed (n + 1) s) by (eapply placed_le; [done|lia]).
  unfold task_new. destruct ok; [|done]. rewrite (st_lift_ok (Ok ()) _ _ () eq_refl), get_cpu_run.
  destruct (cpus s !! self) as [cp|]; [|done]. destruct (current cp) as [cur|]; [|done].
  rewrite (st_lift_ok (of_option ESRCH (Some cur)) _ _ cur eq_refl).
  destruct (exec_inner_run n (ctx cur) None None sp ok' ok'' s Hp Hn) as [(e & s' & He & Hp') | (c & s2 & He & Hm)]; [by intros []%Hx|..].
  { by rewrite (st_bind_err _ _ _ _ _ He). }
  rewrite (st_bind_ok _ _ _ _ _ He). destruct hdl as [h|e|]; [|cbn|done].
  2:{ apply (made_lost n c s s2 Hp Hn Hm). destruct exact; [|done]. by destruct Hx. }
  rewrite (st_lift_ok (Ok h) _ _ h eq_refl). cbn zeta. rewrite st_get_bind, st_put_bind. set (s3 := with_slots s2 _).
  assert (Hp3 : placed (n + 1) s3).
  { apply (made_placed n c s s2 s3 Hp Hn Hm); try done; [|by eapply slots_ok_app, slots_ok_made].
    intros t. apply upto_eq. unfold occ. cbn. rewrite sumZ_app, sumZ_cons, sumZ_nil. cbn. unfold at_. cbn. lia. }
  destruct tok as [k|e|]; [|cbn|done].
  - destruct wr; cbn; done.
  - pose proof (token_drop_places self (length (slots s2)) (tid c) (n + 1) s3 Hp3) as Hd. rewrite !Z.add_0_r in Hd.
    specialize (Hd Hn). unfold mbind, st_bind. by destruct (token_drop _ _ _ s3) as [[[]|e'|] s4].
Qed.

Lemma idle_places self sp ok ok' : (exact = true → ok' = true) → places 1 (idle_new self sp ok ok' : sm ()).
Proof.
  intros Hx n s Hp Hn. unfold idle_new. destruct ok; [|done]. rewrite (st_lift_ok (assert_ true) _ _ () eq_refl).
  destruct (allocate_run n ok' s Hp Hn Hx) as [(e & s' & He & _) | [Hcnt He]].
  { rewrite (st_bind_ok (attempt (E':=errno) (allocate ok')) _ s (inl e) s'); [done|]. unfold attempt. by rewrite He. }
  erewrite (st_bind_ok (attempt (E':=errno) (allocate ok')) _ s (inr (tid_gen s))); [|unfold attempt; by rewrite He].
  unfold set_main. rewrite st_modify_bind. 
  match goal with |- context [(_ ≫= _) ?x] => set (s2 := x) end. set (c := MkContext (tid_gen s) Kernel (current_mask self) sp 0 0).
  pose proof (spawn_places n self c true s s2 Hp Hn) as Hs. unfold mbind, st_bind.
  destruct (unblock self (Init c) true s2) as [[a|e|] s3]; [cbn|exfalso|done]; apply Hs;
    (split; [done|]; split; [done|]); subst s2; by destruct (_ =? 0).
Qed.

(** ** The system *)

(** What a processor, or the tasks it runs, can ask of the scheduler; the booleans and the
    results say what the allocations, the table of handles and the user's memory give. *)
Inductive op :=
  | OTick (self : nat)
  | OTimerTick (self : nat)
  | OMigrate (self : nat)
  | OSleep (self : nat) (ms : Z) (ok : bool)
  | OTimer (self : nat) (duration : Z) (event : nat) (ok : bool)
  | OCancel (self t : nat)
  | OWoNew
  | OWait (self wq : nat) (timeout : Z) (ok : bool)
  | ONotify (self wq : nat) (num : Z)
  | OFutexWait (self : nat) (ptr : Z) (rd : res errno Z) (value expected us : Z) (ok : bool)
  | OFutexEnd (sp : nat) (ptr : Z) (t : nat)
  | OFutexWake (self : nat) (ptr : Z) (rd : res errno Z) (num : Z)
  | OFutexReque (self : nat) (ptr : Z) (rd : res errno Z) (wake other : Z) (rd' : res errno Z) (num : Z)
  | OIdle (self sp : nat) (ok ok' : bool)
  | OExec (self : nat) (this : option Ty) (mask : option (list bool)) (sp : nat) (ok ok' : bool) (hdl : res errno Z)
  | ONew (self sp : nat) (ok ok' ok'' : bool) (hdl tok : res errno Z) (wr : res errno ())
  | OExit (self : nat) (retval : Z) (kill_all : bool)
  | OKill (child : Z)
  | OSuspend (self : nat) (child : Z) (ok : bool) (tok : res errno Z)
  | ODebug (slot : nat) (early : option errno) (ret : res errno ())
  | OToken (self slot : nat) (child : Z)
  | OTime (now : Z).

(** Nothing fails at which the kernel loses a task or miscounts: the timer of a task that
    waits, the information and the handle of a new task, the channel for exceptions. *)
Definition succeeds (o : op) : Prop :=
  match o with
  | OSleep _ _ ok | OWait _ _ _ ok | OFutexWait _ _ _ _ _ _ ok | OIdle _ _ _ ok => ok = true
  | OExec _ _ _ _ _ ok hdl | ONew _ _ _ _ ok hdl _ _ => ok = true ∧ is_ok hdl = true
  | ODebug _ early _ => early = None
  | _ => True
  end.

Definition void {A} (m : sm A) : sm () := _ ← m; mret ().

(** [timer_tick] handles each timer of the queue once. *)
Definition run_timers (self : nat) : sm bool := c ← get_cpu self; timer_tick (S (length (th_elems (timer_queue c)))) self.

Definition run_op (o : op) : sm () :=
  match o with
  | OTick self => s ← get; tick self (clock s)
  | OTimerTick self => void (run_timers self)
  | OMigrate self => task_migrate_handler self
  | OSleep self ms ok => void (task_sleep self ms ok)
  | OTimer self d e ok => void (activate self d (CEvent e) ok)
  | OCancel self t => void (timer_cancel self t)
  | OWoNew => void wo_new
  | OWait self wq d ok => void (wo_wait self wq d ok)
  | ONotify self wq num => void (wo_notify self wq num)
  | OFutexWait self ptr rd v e us ok => void (futex_wait self ptr rd v e us ok)
  | OFutexEnd sp ptr t => futex_wait_end sp ptr t
  | OFutexWake self ptr rd num => void (futex_wake self ptr rd num)
  | OFutexReque self ptr rd wake other rd' num => void (futex_reque self ptr rd wake other rd' num)
  | OIdle self sp ok ok' => idle_new self sp ok ok'
  | OExec self this mask sp ok ok' hdl => void (exec self this mask sp ok ok' hdl)
  | ONew self sp ok ok' ok'' hdl tok wr => void (task_new self sp ok ok' ok'' hdl tok wr)
  | OExit self r ka => exit_current self r ka
  | OKill c => ctl_kill c
  | OSuspend self c ok tok => void (ctl_suspend self c ok tok)
  | ODebug slot early ret => void (task_debug slot early ret)
  | OToken self slot c => token_drop self slot c
  | OTime now => modify (λ s, with_clock s now)
  end.

(** Any operations, in any order, as long as the kernel does not panic. *)
Inductive runs : list op → sched → sched → Prop :=
  | runs_nil s : runs [] s s
  | runs_ok o os s s1 s2 : run_op o s = (Ok (), s1) → runs os s1 s2 → runs (o :: os) s s2
  | runs_err o os s e s1 s2 : run_op o s = (Err e, s1) → runs os s1 s2 → runs (o :: os) s s2.

Lemma void_still {A} (m : sm A) : still m → still (void m).
Proof. intros Hm. apply still_bind; [done|]. intros a. apply still_ret. Qed.

Lemma void_places {A} k (m : sm A) : places k m → places k (void m).
Proof.
  intros Hm n s Hp Hn. specialize (Hm n s Hp Hn). unfold void, mbind, st_bind. by destruct (m s) as [[a|e|] s'].
Qed.
Lemma event_still self d e ok : still (activate self d (CEvent e) ok : sm nat).
Proof.
  destruct ok.
  - apply bal_still. eapply bal_ext; [apply activate_bal|done].
  - apply still_bind; [auto with h2o_sched|]. intros s. apply still_bind; [auto with h2o_sched|]. intros dl. apply still_lift.
Qed.

Lemma op_places o : (exact = true → succeeds o) → places 1 (run_op o).
Proof.
  assert (Hle : ∀ A (m : sm A), places 0 m → places 1 m).
  { intros A m Hm n s Hs Hn. specialize (Hm n s Hs ltac:(lia)). destruct (m s) as [[a|e|] s']; try done; (eapply placed_le; [exact Hm|lia]). }
  assert (Hst : ∀ A (m : sm A), still m → places 1 m) by (intros; by apply still_places).
  destruct o; cbn [run_op succeeds]; intros Hx.
  - apply Hle, places_bind; [apply still_places, still_get; lia|]. intros s. apply tick_places.
  - apply Hst, void_still, still_bind; auto with h2o_sched.
  - apply Hst, bal_still, migrate_bal.
  - by apply Hle, void_places, sleep_places.
  - apply Hst, void_still, event_still.
  - apply Hst, void_still. auto with h2o_sched.
  - apply Hst, void_still, wo_new_still.
  - by apply Hst, void_still, block_still.
  - apply Hst, void_still, notify_still.
  - by apply Hst, void_still, futex_wait_still.
  - apply Hst, futex_wait_end_still.
  - apply Hst, void_still, futex_wake_still.
  - apply Hst, void_still, futex_reque_still.
  - by apply idle_places.
  - by apply void_places, exec_places.
  - by apply void_places, task_new_places.
  - apply Hle, exit_places.
  - apply Hle, ctl_kill_places.
  - apply Hle, void_places, ctl_suspend_places.
  - by apply Hle, void_places, task_debug_places.
  - apply Hle, token_drop_places.
  - apply Hst. by intros s.
Qed.

Lemma runs_placed os s s' n : runs os s s' → (exact = true → Forall succeeds os) → placed n s →
  n + Z.of_nat (length os) < 2 ^ 64 → placed (n + Z.of_nat (length os)) s'.
Proof.
  intros Hr. revert n. induction Hr as [s|o os s s1 s2 Ho _ IH|o os s e s1 s2 Ho _ IH]; intros n Hx Hp Hn; cbn [length] in *.
  - by rewrite Z.add_0_r.
  - pose proof (op_places o (λ E, Forall_inv (Hx E)) n s Hp ltac:(lia)) as H1. rewrite Ho in H1.
    replace (n + _) with (n + 1 + Z.of_nat (length os)) by lia. apply IH; [|done|lia]. intros E. exact (Forall_inv_tail (Hx E)).
  - pose proof (op_places o (λ E, Forall_inv (Hx E)) n s Hp ltac:(lia)) as H1. rewrite Ho in H1.
    replace (n + _) with (n + 1 + Z.of_nat (length os)) by lia. apply IH; [|done|lia]. intros E. exact (Forall_inv_tail (Hx E)).
Qed.
End ops.
