(* ===== verification/SchedSpec.v ===== *)
(** * What the scheduler guarantees

    No task is in two places, and none is lost unless an allocation fails
    ([tasks_in_place]); a task that is ready gets to run when the tasks before it have had
    a time slice or left ([round_robin]), and the processor that is chosen for a task is
    one it may run on ([select_cpu_spec]). *)

From S2P Require Import Base Collections SysCall Sched SchedFacts SchedInv.
From stdpp Require Import gmap.
Local Open Scope Z_scope.

(** ** Places *)

Section places.
Context {Q : Type → Type} `{SQ : SegQueue Q} {H : Type} `{TH : TimerHeap H} `{P : Profile}.

(** The system before any task is made. *)
Definition boot (n : nat) (now : Z) : sched (Q:=Q) (H:=H) :=
  MkSched (replicate n (MkCpu sq_new None sq_new 0 th_new sq_new)) [] [] [] ∅ ∅ ∅ ∅ ∅ 0 1 [] now.

Lemma boot_placed `{X : Exact} n now : placed 1 (boot n now).
Proof.
  split; [|done..]. intros t. apply upto_eq. unfold occ, boot. cbn. rewrite !sumZ_nil. induction n as [|n IH]; cbn; [done|].
  rewrite sumZ_cons. unfold occ_cpu at 1. cbn. rewrite sq_new_elems, !sumZ_nil. lia.
Qed.

(** C15: Whatever the operations [op] do, in any order, whether their allocations succeed or
    not: a task is in at most one place (running, ready, migrating, blocked or suspended),
    one without an identifier in the table is in none, and the number of tasks never exceeds
    the limit nor falls below the size of the table. As long as nothing fails at which the
    kernel loses a task ([succeeds]; [wait_loses_task], [exec_loses_task],
    [debug_loses_task] and [tid_leak] below are what happens otherwise), a task with an
    identifier in the table is in exactly one place, and tasks are counted right. *)
Theorem tasks_in_place n now os s : runs os (boot n now) s → Z.of_nat (length os) < 2 ^ 64 - 1 →
  (∀ t, occ t s ≤ if bool_decide (t ∈ ti_map s) then 1 else 0) ∧
  Z.of_nat (size (ti_map s)) ≤ task_count s ≤ NR_TASKS ∧
  (Forall succeeds os →
    (∀ t, occ t s = if bool_decide (t ∈ ti_map s) then 1 else 0) ∧ task_count s = Z.of_nat (size (ti_map s))).
Proof.
  intros Hr Hn.
  destruct (runs_placed (X:=false) os _ s 1 Hr ltac:(done) (boot_placed (X:=false) n now)) as [Ho [Hc Hl] _ _]; [lia|].
  split; [done|]. split; [done|]. intros Hx.
  destruct (runs_placed (X:=true) os _ s 1 Hr (λ _, Hx) (boot_placed (X:=true) n now)) as [Ho' [Hc' _] _ _]; [lia|]. done.
Qed.
End places.

(** ** Choosing a processor *)

Section select.
Context `{P : Profile}.

Lemma ones_elem i mask b : b ∈ ones_from i mask → (i ≤ b)%nat ∧ mask !! (b - i)%nat = Some true.
Proof.
  revert i. induction mask as [|m mask IH]; intros i; cbn; [intros Hb; by apply elem_of_nil in Hb|].
  assert (Hrec : b ∈ ones_from (S i) mask → (i ≤ b)%nat ∧ (m :: mask) !! (b - i)%nat = Some true).
  { intros [Hle Hm]%IH. split; [lia|]. by replace (b - i)%nat with (S (b - S i)) by lia. }
  destruct m; [|done]. intros [-> |]%elem_of_cons; [|by apply Hrec]. by rewrite Nat.sub_diag.
Qed.
Lemma ones_complete i mask j : mask !! j = Some true → (i + j)%nat ∈ ones_from i mask.
Proof.
  revert i j. induction mask as [|m mask IH]; intros i [|j]; cbn; [done..| |].
  - intros [= ->]. rewrite Nat.add_0_r. by left.
  - intros Hj. rewrite <- Nat.add_succ_comm. destruct m; [right|]; by apply IH.
Qed.

(** The runtimes that are compared do not overflow. *)
Definition loads_ok (ers : list Z) : Prop := Forall (λ r, 0 ≤ r < 2 ^ 64 - 1) ers.

Lemma weight_ok a b ra rb cur last : 0 ≤ ra < 2 ^ 64 - 1 → 0 ≤ rb < 2 ^ 64 - 1 → ∃ w, cpu_weight a b ra rb cur last = Ok w.
Proof.
  intros Ha Hb. unfold cpu_weight. cbn zeta. destruct (Z.leb_spec (Z.abs (ra - rb)) 1); cbn; [by eexists|].
  rewrite uadd_ok by lia. cbn. unfold ilog2. destruct (Z.eqb_spec (Z.abs (ra - rb) + 1) 0); [lia|]. cbn. by eexists.
Qed.

(** One of the candidates; the processor itself, if it is idle and a candidate. *)
Lemma select_loop_ok ers cur last bs ret rret : loads_ok ers → Forall (λ b, (b < length ers)%nat) bs → 0 ≤ rret < 2 ^ 64 - 1 →
  ∃ i, select_loop ers cur last bs ret rret = Ok i ∧ (i = ret ∨ i ∈ bs) ∧ (cur ∈ bs → ers !! cur = Some 0 → i = cur).
Proof.
  intros He Hbs. revert ret rret. induction Hbs as [|b bs Hb Hbs IH]; intros ret rret Hr; cbn [select_loop].
  { exists ret. split; [done|]. split; [by left|]. intros Hin. by apply elem_of_nil in Hin. }
  destruct (lookup_lt_is_Some_2 ers b Hb) as [rb Hrb]. rewrite Hrb. cbn [unwrap mbind res_bind].
  assert (Hrb' : 0 ≤ rb < 2 ^ 64 - 1) by (by eapply Forall_lookup_1 in He).
  destruct (bool_decide (b = cur) && (rb =? 0)) eqn:Hc.
  { apply andb_true_iff in Hc as [->%bool_decide_eq_true _]. exists cur. split; [done|]. split; [right; by left|done]. }
  destruct (weight_ok ret b rret rb cur last Hr Hrb') as [w ->]. cbn [mbind res_bind].
  assert (Hskip : cur ∈ b :: bs → ers !! cur = Some 0 → cur ∈ bs).
  { intros [-> |]%elem_of_cons; [|done]. intros H0. rewrite Hrb in H0. injection H0 as ->.
    rewrite bool_decide_eq_true_2 in Hc by done. done. }
  destruct (w <? 0).
  - destruct (IH b rb Hrb') as (i & -> & Hi & Hcur). exists i. split; [done|]. split; [|by auto].
    destruct Hi as [-> | Hi]; right; [by left|by right].
  - destruct (IH ret rret Hr) as (i & -> & Hi & Hcur). exists i. split; [done|]. split; [|by auto].
    destruct Hi as [-> | Hi]; [by left|right; by right].
Qed.

(** The processor chosen for a task is one of its affinity mask; when the mask has the asking processor and that
    is idle, it is chosen. Only an empty mask gives none. *)
Theorem select_cpu_spec ers mask cur last : loads_ok ers → (∀ i, mask !! i = Some true → (i < length ers)%nat) →
  ∃ r, select_cpu ers mask cur last = Ok r ∧
  match r with
  | Some i => mask !! i = Some true ∧ (mask !! cur = Some true → ers !! cur = Some 0 → i = cur)
  | None => ∀ i, mask !! i ≠ Some true
  end.
Proof.
  intros He Hm. unfold select_cpu, iter_ones. pose proof (ones_elem 0 mask) as Hel. pose proof (ones_complete 0 mask) as Hall. cbn in Hall.
  destruct (ones_from 0 mask) as [|ret bs].
  { exists None. split; [done|]. intros i Hi%Hall. by apply elem_of_nil in Hi. }
  assert (Hmask : ∀ b, b ∈ ret :: bs → mask !! b = Some true). { intros b [_ Hb]%Hel. by rewrite Nat.sub_0_r in Hb. }
  destruct (lookup_lt_is_Some_2 ers ret) as [rr Hrr]; [by apply Hm, Hmask; left|]. rewrite Hrr. cbn [unwrap mbind res_bind].
  assert (Hr : 0 ≤ rr < 2 ^ 64 - 1) by (by eapply Forall_lookup_1 in He).
  destruct (bool_decide (ret = cur) && (rr =? 0)) eqn:Hc.
  { apply andb_true_iff in Hc as [->%bool_decide_eq_true _]. exists (Some cur). split; [done|]. split; [apply Hmask; by left|done]. }
  destruct (select_loop_ok ers cur last bs ret rr He) as (i & -> & Hi & Hcur); [|done|].
  { apply Forall_forall. intros b Hb. apply Hm, Hmask. by right. }
  exists (Some i). split; [done|]. split; [apply Hmask; destruct Hi as [-> |]; [by left|by right]|].
  intros Hcm H0. apply Hcur; [|done]. apply Hall in Hcm. apply elem_of_cons in Hcm as [-> |]; [|done].
  rewrite Hrr in H0. injection H0 as ->. by rewrite bool_decide_eq_true_2 in Hc.
Qed.
End select.

(** ** Fairness *)

Section fair.
Context {Q : Type → Type} `{SQ : SegQueue Q} {H : Type} `{TH : TimerHeap H} `{P : Profile}.
Abbreviation sched := (sched (Q:=Q) (H:=H)).
Abbreviation sm := (st sched errno).
Context (self : nat).

(** What happens on the processor, at a time: a tick, a task that is woken or made is put
    to it, or the running task sleeps, yields (by sleeping for no time) or ends. *)
Inductive act := ATick | AWake (task : Ready) (preempt : bool) | ASleep (ms : Z) (ok : bool) | AExit (retval : Z) (kill_all : bool).

Definition do_act (a : act) : sm () :=
  match a with
  | ATick => s ← get; tick self (clock s)
  | AWake task pre => _ ← enqueue self task pre; mret ()
  | ASleep ms ok => _ ← attempt (E':=errno) (task_sleep self ms ok); mret ()
  | AExit r ka => exit_current self r ka
  end.
Fixpoint turns (ts : list (Z * act)) : sm () :=
  match ts with
  | [] => mret ()
  | (now, a) :: ts => _ ← modify (λ s, with_clock s now); _ ← do_act a; turns ts
  end.

(** The turns at which the processor is passed on. *)
Definition passes (a : act) : bool := match a with AWake _ _ => false | _ => true end.
Definition count_passes (ts : list (Z * act)) : nat := length (filter (λ t, passes (snd t) = true) ts).

(** The processor runs [cur] and has [q] waiting, and maybe more behind. *)
Definition runs_on (s : sched) (cur : Ready) (q : list Ready) : Prop :=
  ∃ c extra, cpus s !! self = Some c ∧ current c = Some cur ∧ sq_elems (run_queue c) = q ++ extra.

(** The task has used up its time slice. *)
Definition slice_over (cur : Ready) (now : Z) : Prop :=
  running_state cur = NEED_RESCHED ∨
  ∃ st, start_time (running_state cur) = Some st ∧ time_slice cur < saturating_duration_since now st ∧
    runtime (ctx cur) + saturating_duration_since now st ≤ DURATION_MAX.

Definition dispatched (n : Ready) (now : Z) : Ready := MkReady (set_cpu (ctx n) self) now (time_slice n).

Lemma switch_to {R} now (func : Ready → sm R) s cur n q : runs_on s cur (n :: q) →
  ∃ s1, runs_on s1 (dispatched n now) q ∧ mains s1 = mains s ∧ signals s1 = signals s ∧ clock s1 = clock s ∧
    schedule_impl self now None func s = func cur s1.
Proof.
  intros (c & extra & Hc & Hcur & Hq). unfold schedule_impl. rewrite get_cpu_run, Hc.
  destruct (sq_pop_cons (run_queue c) n (q ++ extra) Hq) as [Hf Hs]. destruct (sq_pop (run_queue c)) as [o rq]. cbn in Hf, Hs. subst o.
  rewrite st_ret_bind, put_cpu_run, Hcur. eexists. split; [|split; [|split; [|split; [|reflexivity]]]]; [|done..]. eexists _, extra. cbn.
  rewrite list_lookup_insert_eq by (by eapply lookup_lt_Some). split; [reflexivity|]. split; [done|]. exact Hs.
Qed.

(** What may be done to the processor meanwhile. *)
Lemma push_run_on s cur q t : runs_on s cur q → ∃ s', push_run self t s = (Ok (), s') ∧ runs_on s' cur q.
Proof.
  intros (c & extra & Hc & Hcur & Hq). unfold push_run. rewrite get_cpu_run, Hc. eexists. split; [reflexivity|].
  eexists _, (extra ++ [t]). cbn. rewrite list_lookup_insert_eq by (by eapply lookup_lt_Some). split; [done|]. split; [done|].
  cbn. by rewrite sq_push_elems, Hq, app_assoc.
Qed.
Lemma sub_expected_on s cur q d : runs_on s cur q →
  ∃ s', sub_expected self d s = (Ok (), s') ∧ runs_on s' cur q ∧ mains s' = mains s ∧ signals s' = signals s ∧ clock s' = clock s.
Proof.
  intros (c & extra & Hc & Hcur & Hq). unfold sub_expected. rewrite get_cpu_run, Hc. eexists. split; [reflexivity|].
  split; [|done]. eexists _, extra. cbn. by rewrite list_lookup_insert_eq by (by eapply lookup_lt_Some).
Qed.
Lemma exit_on s cur q t retval : runs_on s cur q → ∃ s', task_exit_ self t retval s = (Ok (), s') ∧ runs_on s' cur q.
Proof.
  intros (c & extra & Hc & Hcur & Hq). unfold task_exit_.
  assert (∃ b s1, deallocate (tid (ctx t)) s = (Ok b, s1) ∧ cpus s1 = cpus s) as (b & s1 & Hd & Hcpus).
  { unfold deallocate, mbind, st_bind. cbn. case_bool_decide; eexists _, _; (split; [reflexivity|done]). }
  rewrite (st_bind_ok _ _ _ _ _ Hd), !st_modify_bind, get_cpu_run. cbn. rewrite Hcpus, Hc. eexists. split; [reflexivity|].
  eexists _, extra. cbn. rewrite Hcpus, list_lookup_insert_eq by (by eapply lookup_lt_Some). done.
Qed.

Lemma leave_on now s cur n q retval : runs_on s cur (n :: q) →
  ∃ s', diverges (schedule_impl self now None (λ t, task_exit_ self t retval)) s = (Ok (), s') ∧ runs_on s' (dispatched n now) q.
Proof.
  intros Hr. destruct (switch_to now (λ t, task_exit_ self t retval) s cur n q Hr) as (s1 & Hr1 & _ & _ & _ & Hsw).
  destruct (exit_on s1 _ _ cur retval Hr1) as (s2 & He & Hr2). exists s2. split; [|done].
  unfold diverges, mbind, st_bind, attempt. by rewrite Hsw, He.
Qed.

Lemma kill_on now s cur n q t : runs_on s cur (n :: q) → ∃ s', kill self t now s = (Ok (), s') ∧ runs_on s' (dispatched n now) q.
Proof.
  intros Hr. destruct (sub_expected_on s cur _ (time_slice t) Hr) as (s1 & Hs1 & Hr1 & _). unfold kill.
  rewrite (st_bind_ok _ _ _ _ _ Hs1). by eapply leave_on.
Qed.

Lemma schedule_on now s cur n q : runs_on s cur (n :: q) → needs_resched (running_state cur) = true →
  ∃ s', schedule self now s = (Ok (), s') ∧ runs_on s' (dispatched n now) q.
Proof.
  intros Hr Hn. unfold schedule. set (func := λ t : Ready, _).
  destruct (switch_to now func s cur n q Hr) as (s1 & Hr1 & _ & _ & _ & Hsw). rewrite Hsw. subst func. cbv beta.
  rewrite Hn. rewrite (st_lift_ok (if overflow_checks then assert_ true else Ok ()) _ _ ()) by (by destruct overflow_checks).
  by apply push_run_on.
Qed.

Lemma update_on now s cur q n : runs_on s cur (n :: q) → slice_over cur now →
  ∃ s' cur', update self now s = (Ok true, s') ∧ runs_on s' cur' (n :: q) ∧ needs_resched (running_state cur') = true.
Proof.
  intros Hr Hover. pose proof Hr as (c & extra & Hc & Hcur & Hq). unfold update. rewrite get_cpu_run, Hc, Hcur. cbn zeta.
  destruct Hover as [Hn | (st & -> & Hlt & Hmax)].
  { rewrite Hn. cbn. exists s, cur. split; [done|]. split; [done|]. by rewrite Hn. }
  rewrite (st_lift_ok (dur_add _ _) _ _ (runtime (ctx cur) + saturating_duration_since now st)).
  2:{ unfold dur_add. by rewrite (proj2 (Z.leb_le _ _) Hmax). }
  cbn zeta. assert (sq_len (run_queue c) =? 0 = false) as ->. { rewrite sq_len_elems, Hq. by apply Z.eqb_neq. }
  rewrite (proj2 (Z.ltb_lt _ _) Hlt). cbn [negb andb]. rewrite put_cpu_run. eexists _, _. split; [reflexivity|]. split.
  - eexists _, extra. cbn. rewrite list_lookup_insert_eq by (by eapply lookup_lt_Some). split; [reflexivity|]. by split.
  - done.
Qed.

Lemma check_signal_on now s cur n q : runs_on s cur (n :: q) →
  ∃ f s', check_signal self now s = (Ok f, s') ∧
    match f with Away => runs_on s' (dispatched n now) q | Go now' => now' = now ∧ runs_on s' cur (n :: q) end.
Proof.
  intros Hr. pose proof Hr as (c & extra & Hc & Hcur & Hq). unfold check_signal. rewrite get_cpu_run, Hc, Hcur, st_get_bind.
  destruct (_ =? 0).
  { destruct (kill_on now s cur n q cur Hr) as (s' & Hk & Hr'). rewrite (st_bind_ok _ _ _ _ _ Hk). by exists Away, s'. }
  case_bool_decide; [by exists (Go now), s|]. cbn zeta. rewrite st_put_bind. set (s1 := with_signals s _).
  assert (Hr1 : runs_on s1 cur (n :: q)) by (by exists c, extra). destruct (signals s !! tid (ctx cur)) as [[|slot]|].
  - destruct (kill_on now s1 cur n q cur Hr1) as (s' & Hk & Hr'). rewrite (st_bind_ok _ _ _ _ _ Hk). by exists Away, s'.
  - destruct (sub_expected_on s1 cur _ (time_slice cur) Hr1) as (s2 & Hs2 & Hr2 & _). rewrite (st_bind_ok _ _ _ _ _ Hs2).
    destruct (switch_to now (λ t, set_slot slot (Some (ctx t))) s2 cur n q Hr2) as (s3 & Hr3 & _ & _ & _ & Hsw).
    unfold mbind, st_bind, attempt. rewrite Hsw. cbn. eexists Away, _. split; [done|].
    destruct Hr3 as (c3 & extra3 & Hc3). by exists c3, extra3.
  - by exists (Go now), s1.
Qed.

(** A tick after the slice is used up hands the processor to the first task that waits:
    whether the running one is put back, suspended or killed. *)
Lemma tick_on now s cur n q : runs_on s cur (n :: q) → slice_over cur now →
  ∃ s', tick self now s = (Ok (), s') ∧ runs_on s' (dispatched n now) q.
Proof.
  intros Hr Hover. unfold tick. destruct (check_signal_on now s cur n q Hr) as (f & s1 & Hf & Hflow).
  rewrite (st_bind_ok _ _ _ _ _ Hf). destruct f as [now'|]; [|by exists s1]. destruct Hflow as [-> Hr1].
  destruct (update_on now s1 cur q n Hr1 Hover) as (s2 & cur' & Hu & Hr2 & Hn). rewrite (st_bind_ok _ _ _ _ _ Hu).
  destruct (schedule_on now s2 cur' n q Hr2 Hn) as (s3 & Hs3 & Hr3). exists s3. split; [|done].
  unfold mbind, st_bind, attempt. by rewrite Hs3.
Qed.

Lemma frame_on (s s' : sched) cur q : cpus s' = cpus s → runs_on s cur q → runs_on s' cur q.
Proof. intros Hc (c & e & Hr). exists c, e. by rewrite Hc. Qed.

Lemma exit_current_on s cur n q r ka : runs_on s cur (n :: q) →
  ∃ s', exit_current self r ka s = (Ok (), s') ∧ runs_on s' (dispatched n (clock s)) q.
Proof.
  intros Hr. pose proof Hr as (c & extra & Hc & Hcur & _). unfold exit_current. rewrite get_cpu_run, Hc, Hcur.
  destruct (sub_expected_on s cur _ (time_slice cur) Hr) as (s1 & Hs1 & Hr1 & _ & _ & Hclk).
  assert (∃ s2, (_ ← sub_expected self (time_slice cur);
      if ka then try_stop (space (ctx cur)) (tid (ctx cur)) else mret ()) s = (Ok (), s2) ∧
      cpus s2 = cpus s1 ∧ clock s2 = clock s1) as (s2 & Hs2 & Hc2 & Hclk2).
  { rewrite (st_bind_ok _ _ _ _ _ Hs1). destruct ka; [|by exists s1]. unfold try_stop, modify. destruct (main_of s1 _ =? _); by eexists. }
  rewrite (st_bind_ok _ _ _ _ _ Hs2), st_get_bind. rewrite <- Hclk, <- Hclk2. eapply leave_on. by eapply frame_on.
Qed.

Lemma block_on s cur n q d ok : runs_on s cur (n :: q) → 0 ≤ clock s + d < 2 ^ 128 →
  ∃ r s', attempt (E':=errno) (block_current self None d ok) s = (Ok r, s') ∧ runs_on s' (dispatched n (clock s)) q.
Proof.
  intros Hr Hd. pose proof Hr as (c & extra & Hc & Hcur & _). unfold attempt, block_current. rewrite get_cpu_run, Hc, Hcur.
  destruct (sub_expected_on s cur _ (time_slice cur) Hr) as (s1 & Hs1 & Hr1 & _ & _ & Hclk).
  rewrite (st_bind_ok _ _ _ _ _ Hs1), st_get_bind, Hclk. set (func := λ t : Ready, _).
  destruct (switch_to (clock s) func s1 cur n q Hr1) as (s2 & Hr2 & _ & _ & Hclk2 & Hsw). rewrite Hsw. subst func. cbv beta.
  unfold activate. unfold mbind, st_bind. cbn. rewrite Hclk2, Hclk, uadd_ok by lia. cbn.
  destruct ok; [|by eexists _, s2]. cbn. destruct (d <? DURATION_MAX); cbn.
  - destruct Hr2 as (c2 & e2 & Hc2 & Hcur2 & Hq2). unfold get_cpu, put_cpu, mbind, st_bind. cbn. rewrite Hc2. cbn. eexists _, _. split; [reflexivity|].
    eexists _, e2. cbn. rewrite list_lookup_insert_eq by (by eapply lookup_lt_Some). split; [done|]. by split.
  - eexists _, _. split; [reflexivity|]. by eapply frame_on.
Qed.

Lemma yield_on s cur n q ok : runs_on s cur (n :: q) →
  ∃ r s', attempt (E':=errno) (task_sleep self 0 ok) s = (Ok r, s') ∧ runs_on s' (dispatched n (clock s)) q.
Proof.
  intros Hr. pose proof Hr as (c & extra & Hc & Hcur & Hq). unfold task_sleep. cbn [Z.eqb].
  set (cur' := with_state cur NEED_RESCHED). set (s1 := with_cpus s (<[self := with_run c (run_queue c) (Some cur')]> (cpus s))).
  assert (Hreq : attempt (E':=errno) (request_resched self) s = (Ok (inr ()), s1)).
  { unfold attempt, request_resched. rewrite get_cpu_run, Hc, Hcur. done. }
  assert (Hr1 : runs_on s1 cur' (n :: q)).
  { eexists _, extra. cbn. rewrite list_lookup_insert_eq by (by eapply lookup_lt_Some). split; [done|]. by split. }
  destruct (tick_on (clock s1) s1 cur' n q Hr1 ltac:(by left)) as (s2 & Ht & Hr2).
  unfold attempt at 1. rewrite (st_bind_ok _ _ _ _ _ Hreq), st_get_bind, (st_bind_ok _ _ _ _ _ Ht). by eexists _, s2.
Qed.

(** What a task needs to be counted and preempted until time [until]. *)
Definition in_time (until : Z) (r : Ready) : Prop :=
  time_slice r ≤ MIN_TIME_GRAN ∧ runtime (ctx r) + Z.max until WAKE_TIME_GRAN ≤ DURATION_MAX.
(** The running task was dispatched before time [now], or is to be rescheduled. *)
Definition started (now until : Z) (cur : Ready) : Prop :=
  in_time until cur ∧ (running_state cur = NEED_RESCHED ∨ ∃ st, start_time (running_state cur) = Some st ∧ 0 ≤ st ≤ now).

Definition act_ok (now until : Z) (a : act) : Prop :=
  match a with
  | AWake task _ => in_time until task
  | ASleep ms _ => 0 ≤ ms ∧ now + ms * 1000000 < 2 ^ 128
  | _ => True
  end.
(** Turns one after the other up to time [until], with more than a time slice before each tick. *)
Fixpoint spaced (before until : Z) (ts : list (Z * act)) : Prop :=
  match ts with
  | [] => True
  | (now, a) :: ts =>
      0 < now ≤ until ∧ before ≤ now ∧ (a = ATick → before + MIN_TIME_GRAN < now) ∧ act_ok now until a ∧ spaced now until ts
  end.

Lemma dispatched_started n now until : 0 < now ≤ until → until < NEED_RESCHED → in_time until n → started now until (dispatched n now).
Proof.
  intros Hn Hu Hin. split; [done|]. right. exists now. split; [|lia]. unfold dispatched, start_time. cbn [running_state].
  destruct (Z.eqb_spec now NOT_RUNNING); [unfold NOT_RUNNING in *; lia|]. destruct (Z.eqb_spec now NEED_RESCHED); [lia|done].
Qed.

Lemma started_over before now until cur : started before until cur → before + MIN_TIME_GRAN < now → now ≤ until → slice_over cur now.
Proof.
  intros [[Hts Hrt] [Hst | (st & Hst & Hle)]] Hgap Hu; [by left|]. right. exists st. split; [done|].
  unfold saturating_duration_since, MIN_TIME_GRAN in *. rewrite (proj2 (Z.leb_le st now)) by lia. lia.
Qed.

(** A turn at which the processor is passed on gives it to the first task that waits. *)
Lemma pass_on before until s cur n q now a : runs_on s cur (n :: q) → started before until cur → passes a = true →
  spaced before until [(now, a)] → ∃ s', do_act a (with_clock s now) = (Ok (), s') ∧ runs_on s' (dispatched n now) q.
Proof.
  intros Hr Hst Hp (Hnow & Hle & Htick & Hok & _). assert (Hr1 : runs_on (with_clock s now) cur (n :: q)) by (by eapply frame_on).
  destruct a as [|task pre|ms ok|r ka]; [|done|..]; cbn [do_act].
  - rewrite st_get_bind. apply (tick_on now _ cur n q Hr1). eapply started_over; [done|by apply Htick|lia].
  - destruct (Z.eq_dec ms 0) as [-> | Hms].
    + destruct (yield_on _ cur n q ok Hr1) as (x & s' & Hy & Hr'). rewrite (st_bind_ok _ _ _ _ _ Hy). by exists s'.
    + destruct (block_on _ cur n q (ms * 1000000) ok Hr1) as (x & s' & Hb & Hr'); [cbn in *; lia|].
      assert (∃ y, attempt (E':=errno) (task_sleep self ms ok) (with_clock s now) = (Ok y, s')) as [y Hy].
      { unfold task_sleep. rewrite (proj2 (Z.eqb_neq ms 0) Hms). revert Hb. unfold attempt, mbind, st_bind.
        destruct (block_current _ _ _ _ _) as [[t|e|] s2]; [..|done]; intros [= _ <-]; by eexists. }
      rewrite (st_bind_ok _ _ _ _ _ Hy). by exists s'.
  - by apply (exit_current_on _ cur n q r ka Hr1).
Qed.

(** A task that is put to the processor goes to the end, or takes the place of the running one. *)
Lemma wake_on until s cur q task pre : runs_on s cur q → in_time until task →
  ∃ b s', enqueue self task pre s = (Ok b, s') ∧ runs_on s' (if b : bool then dispatched task (clock s) else cur) q.
Proof.
  intros (c & extra & Hc & Hcur & Hq) [_ Hrt]. assert (Hlen : (self < length (cpus s))%nat) by (by eapply lookup_lt_Some).
  unfold enqueue, add_expected. unfold mbind at 1, st_bind at 1. rewrite get_cpu_run, Hc. cbn.
  set (e := wrap W _). set (s1 := with_cpus s _). assert (Hc1 : cpus s1 !! self = Some (with_expected c e)) by (by apply list_lookup_insert_eq).
  change (clock s) with (clock s1). clearbody s1. apply lookup_lt_Some in Hc1 as Hlen1.
  assert (Hpush : ∃ s', (_ ← push_run self task; mret false) s1 = (Ok false, s') ∧ runs_on s' cur q).
  { destruct (push_run_on s1 cur q task) as (s2 & Hp & Hr2); [by exists (with_expected c e), extra|].
    rewrite (st_bind_ok _ _ _ _ _ Hp). by exists s2. }
  rewrite get_cpu_run, Hc1. cbn [current with_expected]. rewrite Hcur. destruct pre; [|by exists false].
  rewrite (st_lift_ok _ _ _ (runtime (ctx task) + WAKE_TIME_GRAN <? runtime (ctx cur))).
  2:{ unfold should_preempt, dur_add. by rewrite (proj2 (Z.leb_le (runtime (ctx task) + WAKE_TIME_GRAN) DURATION_MAX)) by lia. }
  destruct (_ <? _); [|by exists false]. rewrite st_get_bind. exists true. clear Hpush.
  unfold attempt, schedule_impl, push_run, get_cpu, put_cpu, modify, mbind, st_bind. cbn. rewrite Hc1. cbn. rewrite Hcur. cbn.
  rewrite list_lookup_insert_eq by done. cbn. eexists. split; [reflexivity|].
  eexists _, (extra ++ [with_state cur NOT_RUNNING]). cbn. rewrite list_lookup_insert_eq by (by rewrite !length_insert).
  split; [reflexivity|]. split; [done|]. cbn. by rewrite sq_push_elems, Hq, app_assoc.
Qed.

(** Each turn either passes the processor on or leaves the order of those that wait. *)
Lemma turns_on until ts before s cur q : until < NEED_RESCHED → runs_on s cur q → started before until cur → Forall (in_time until) q →
  spaced before until ts → (count_passes ts ≤ length q)%nat →
  ∃ s' cur' before', turns ts s = (Ok (), s') ∧ runs_on s' cur' (drop (count_passes ts) q) ∧ started before' until cur' ∧
    (∀ last, spaced before until (ts ++ [last]) → spaced before' until [last]).
Proof.
  intros Hu. revert before s cur q. induction ts as [|[now a] ts IH]; intros before s cur q Hr Hst Hq Hsp Hlen.
  { exists s, cur, before. split; [done|]. split; [done|]. split; [done|]. by intros last. }
  cbn [turns]. rewrite st_modify_bind. destruct Hsp as (Hnow & Hle & Htick & Hok & Hsp).
  unfold count_passes in *. rewrite filter_cons in Hlen |- *. cbn [snd] in *. destruct (decide (passes a = true)) as [Hp|Hp].
  - destruct q as [|n q]; [cbn in Hlen; lia|]. apply Forall_cons in Hq as [Hn Hq].
    destruct (pass_on before until s cur n q now a Hr Hst Hp) as (s1 & Hd & Hr1); [by repeat split; auto; lia|].
    rewrite (st_bind_ok _ _ _ _ _ Hd).
    destruct (IH now s1 (dispatched n now) q Hr1) as (s' & cur' & before' & Ht & Hr' & Hst' & Hl); try done.
    { by apply dispatched_started. } { cbn in Hlen. lia. }
    exists s', cur', before'. split; [done|]. split; [done|]. split; [done|].
    intros last (_ & _ & _ & _ & Hlast). by apply Hl.
  - destruct a as [|task pre|ms ok|r ka]; try by destruct Hp.
    destruct (wake_on until (with_clock s now) cur q task pre) as (b & s1 & He & Hr1); [by eapply frame_on|done|].
    cbn [do_act]. unfold mbind at 1, st_bind at 1. rewrite (st_bind_ok _ _ _ _ _ He). cbn.
    destruct (IH now s1 _ q Hr1) as (s' & cur' & before' & Ht & Hr' & Hst' & Hl); try done.
    { destruct b; [by apply dispatched_started|]. destruct Hst as [Hin [H1 | (st & H1 & H2)]]; (split; [done|]);
        [by left|]. right. exists st. split; [done|]. lia. }
    exists s', cur', before'. split; [done|]. split; [done|]. split; [done|].
    intros last (_ & _ & _ & _ & Hlast). by apply Hl.
Qed.

Lemma spaced_app before until ts ts' : spaced before until (ts ++ ts') → spaced before until ts.
Proof.
  revert before. induction ts as [|[now a] ts IH]; intros before; cbn; [done|]. intros (? & ? & ? & ? & Hsp).
  do 4 (split; [done|]). by apply IH.
Qed.
Lemma turns_app ts ts' s : turns (ts ++ ts') s = (_ ← turns ts; turns ts') s.
Proof.
  revert s. induction ts as [|[now a] ts IH]; intros s; cbn [app turns]; [done|]. unfold mbind, st_bind. cbn.
  destruct (do_act a _) as [[[]|e|] s1]; [|done..]. apply IH.
Qed.

(** C19: A task that is ready and has [k] tasks before it runs when the processor has been
    passed on [k + 1] times: by ticks that come when the running task has used up its time
    slice, or by that task sleeping, yielding or ending. In between any tasks may be woken
    or made on the processor, with or without preempting the running one: they take its
    place or queue up behind, and let nobody get in before the task. *)
Theorem round_robin until before s cur q ts now a k x : runs_on s cur q → q !! k = Some x →
  until < NEED_RESCHED → started before until cur → Forall (in_time until) q → spaced before until (ts ++ [(now, a)]) →
  count_passes ts = k → passes a = true →
  ∃ s', turns (ts ++ [(now, a)]) s = (Ok (), s') ∧ runs_on s' (dispatched x now) [].
Proof.
  intros Hr Hx Hu Hst Hq Hsp Hk Hp. pose proof (lookup_lt_Some _ _ _ Hx) as Hlt.
  destruct (turns_on until ts before s cur q Hu Hr Hst Hq) as (s1 & cur1 & before1 & Ht & Hr1 & Hst1 & Hl); [by eapply spaced_app|lia|].
  rewrite Hk, (drop_S _ _ _ Hx) in Hr1.
  destruct (pass_on before1 until s1 cur1 x (drop (S k) q) now a Hr1 Hst1 Hp (Hl _ Hsp)) as (s2 & Hd & Hr2).
  exists s2. split.
  - rewrite turns_app, (st_bind_ok _ _ _ _ _ Ht). cbn [turns]. by rewrite st_modify_bind, (st_bind_ok _ _ _ _ _ Hd).
  - destruct Hr2 as (c & e & Hc & Hcur & He). by exists c, (drop (S k) q ++ e).
Qed.
End fair.

(** ** On concrete systems *)

Module Witness.
#[local] Existing Instance debug_profile.
Abbreviation sched0 := (sched (Q:=list) (H:=list (Z * nat))).

(** Where operations lead. *)
Fixpoint play (os : list op) (s : sched0) : sched0 :=
  match os with
  | [] => s
  | o :: os => play os (snd (run_op o s))
  end.

Definition idle (self sp : nat) : op := OIdle self sp true true.
Definition run_user (self : nat) (mask : list bool) (sp : nat) : op := OExec self (Some User) (Some mask) sp true true (Ok 1).

(** Two processors, an idle task and a user task on each; the user tasks wait on a futex,
    and one of them times out. A fifth task is made suspended, looked at and let go. *)
Definition two_cpus : list op :=
  [idle 0 0; OTick 0; idle 1 1; OTick 1; run_user 0 [true; true] 2; run_user 1 [true; true] 3; OMigrate 0; OMigrate 1;
   OTime 40000000; OTick 0; OTick 1; ONew 0 4 true true true (Ok 1) (Ok 2) (Ok ()); ODebug 0 None (Err EBUFFER); OToken 0 0 5;
   OFutexWait 0 4096 (Ok 7) 7 7 50 true; OFutexWait 1 4096 (Ok 7) 7 7 1000 true; OSuspend 0 3 true (Ok 3);
   OTime 80000000; OTimerTick 0; OTick 0; OTick 1].

Ltac run_ops := repeat (first [eapply runs_ok; [vm_compute; reflexivity|] | eapply runs_err; [vm_compute; reflexivity|] | apply runs_nil]).

Lemma tasks_in_place_witness : ∃ s : sched0, runs two_cpus (boot 2 1000) s ∧ Z.of_nat (length two_cpus) < 2 ^ 64 - 1 ∧
  occ 3 s = 1 ∧ task_count s = 5.
Proof.
  assert (Hs : ∃ s : sched0, runs two_cpus (boot 2 1000) s ∧ bool_decide (3 ∈ ti_map s) = true ∧ Z.of_nat (size (ti_map s)) = 5).
  { eexists. split; [unfold two_cpus, idle, run_user; run_ops|]. split; reflexivity. }
  destruct Hs as (s & Hr & Hin & Hsize). assert (Hlen : Z.of_nat (length two_cpus) < 2 ^ 64 - 1) by done.
  assert (Hok : Forall succeeds two_cpus) by (by repeat constructor).
  pose proof (tasks_in_place 2 1000 two_cpus s Hr Hlen) as (_ & _ & Hx). destruct (Hx Hok) as [Ho Hc]. exists s. rewrite Ho, Hin, Hc, Hsize. done.
Defined.

(** One processor whose idle task has run for a while, with two tasks ready. *)
Definition one_cpu : sched0 :=
  Eval vm_compute in play [idle 0 0; OTick 0; run_user 0 [true] 1; run_user 0 [true] 2; OTime 20000000; OTick 0] (boot 1 1000).
(** A task is woken and preempts the idle one; after a slice the first of the tasks that
    were ready runs and goes to sleep, and the second one runs. *)
Definition woken : Ready := MkReady (MkContext 9 User [true] 3 0 0) 0 MIN_TIME_GRAN.
Definition busy_turns : list (Z * act) := [(21000000, AWake woken true); (60000000, ATick)].

Lemma round_robin_witness : ∃ s' x, turns 0 (busy_turns ++ [(61000000, ASleep 5 true)]) one_cpu = (Ok (), s') ∧
  runs_on 0 s' x [] ∧ tid (ctx x) = 3.
Proof.
  set (c := MkCpu [] None [] 0 [] [] : CpuState (Q:=list) (H:=list (Z * nat))).
  set (cpu0 := default c (cpus one_cpu !! 0%nat)).
  set (cur := default woken (current cpu0)).
  destruct (round_robin 0 100000000 20000000 one_cpu cur (run_queue cpu0) busy_turns 61000000 (ASleep 5 true) 1
    (default cur (run_queue cpu0 !! 1%nat))) as (s' & Ht & Hr).
  - exists cpu0, []. repeat split.
  - reflexivity.
  - reflexivity.
  - split; [split; vm_compute; congruence|]. right. exists 1000. repeat split; vm_compute; congruence.
  - repeat constructor; vm_compute; congruence.
  - repeat split; vm_compute; congruence.
  - reflexivity.
  - reflexivity.
  - exists s', (dispatched 0 (default cur (run_queue cpu0 !! 1%nat)) 61000000). split; [exact Ht|]. split; [exact Hr|reflexivity].
Defined.

Lemma select_cpu_spec_witness : ∃ r, select_cpu [5; 0; 9] [false; true; true] 1 None = Ok r ∧ r = Some 1%nat.
Proof.
  destruct (select_cpu_spec [5; 0; 9] [false; true; true] 1 None) as (r & Hr & Hspec).
  - repeat constructor; lia.
  - intros [|[|[|i]]]; cbn; intros [=]; lia.
  - exists r. split; [exact Hr|]. destruct r as [i|]; [|by destruct (Hspec 1%nat)]. by rewrite (proj2 Hspec).
Defined.

(** A processor with an idle task alone is ticked after 10 and after 20 microseconds: it is charged for 30. *)
Example runtime_counted_twice :
  runtime (ctx (default (MkReady (MkContext 0 Kernel [] 0 0 0) 0 0)
    (current (default (MkCpu [] None [] 0 [] []) (cpus (play [idle 0 0; OTick 0; OTime 11000; OTick 0; OTime 21000; OTick 0] (boot 1 1000)) !! 0%nat))))) = 30000.
Proof. reflexivity. Qed.

(** When no timer can be allocated, the task that wants to wait is dropped: it stays in the table, but is nowhere. *)
Example wait_loses_task : let s := play [idle 0 0; OTick 0; run_user 0 [true] 1; OTime 40000000; OTick 0] (boot 1 1000) in
  occ 2 s = 1 ∧ 2 ∈ ti_map s ∧
  let '(r, s') := block_current 0 None 1000 false s in r = Err ENOMEM ∧ occ 2 s' = 0 ∧ 2 ∈ ti_map s'.
Proof.
  split; [reflexivity|]. split; [vm_compute; set_solver|]. cbn zeta.
  assert (Hs : ∃ s', block_current 0 None 1000 false
    (play [idle 0 0; OTick 0; run_user 0 [true] 1; OTime 40000000; OTick 0] (boot 1 1000)) = (Err ENOMEM, s') ∧
    occ 2 s' = 0 ∧ bool_decide (2 ∈ ti_map s') = true).
  { eexists. split; [vm_compute; reflexivity|]. split; reflexivity. }
  destruct Hs as (s' & -> & Ho & Hin). split; [done|]. split; [done|]. by apply bool_decide_eq_true in Hin.
Qed.

(** When the handle of a new task cannot be inserted, the task is dropped, and likewise when
    the channel for exceptions of a suspended task cannot be made. *)
Definition with_task : sched0 := Eval vm_compute in play [idle 0 0; OTick 0] (boot 1 1000).
Example exec_loses_task : let '(r, s) := exec 0 (Some User) None 1 true true (Err ENOMEM) with_task in
  r = Err ENOMEM ∧ occ 2 s = 0 ∧ bool_decide (2 ∈ ti_map s) = true.
Proof. vm_compute. done. Qed.
Example debug_loses_task :
  let s := play [ONew 0 1 true true true (Ok 1) (Ok 2) (Ok ())] with_task in
  occ 2 s = 1 ∧ let '(r, s) := task_debug 0 (Some EEXIST) (Ok ()) s in
  r = Err EEXIST ∧ occ 2 s = 0 ∧ bool_decide (2 ∈ ti_map s) = true ∧ fst (task_debug 0 None (Ok ()) s) = Ok None.
Proof. vm_compute. done. Qed.

(** When the information of a new task cannot be allocated, its identifier is given out but the count is not taken back. *)
Example tid_leak : let '(r, s) := allocate false (boot 1 0 : sched0) in r = Err ENOMEM ∧ task_count s = 1 ∧ ti_map s = ∅.
Proof. done. Qed.
End Witness.
