(* ===== verification/SchedWake.v ===== *)
(** * Waking

    [WaitObject::notify], and with it [futex_wake], wakes the tasks that wait in the order
    in which they came, and no more than it was asked to; a task it wakes is ready on a
    processor it may run on. *)

From S2P Require Import Base Collections SysCall Sched SchedFacts SchedInv SchedSpec.
From stdpp Require Import gmap.
Local Open Scope Z_scope.

Section wake.
Context {Q : Type → Type} `{SQ : SegQueue Q} {H : Type} `{TH : TimerHeap H} `{P : Profile}.
Abbreviation sched := (sched (Q:=Q) (H:=H)).
Abbreviation cpu_state := (CpuState (Q:=Q) (H:=H)).
Abbreviation sm := (st sched errno).

(** The expected runtime of no processor exceeds the bound. *)
Definition loads_below (cs : list cpu_state) (b : Z) : Prop := Forall (λ c, 0 ≤ expected_runtime c ≤ b) cs.

Definition affinity_ok (cs : list cpu_state) (c : Context) : Prop :=
  (∃ i, affinity c !! i = Some true) ∧ ∀ i, affinity c !! i = Some true → (i < length cs)%nat.

(** The task is in a queue of a processor it may run on. *)
Definition queued (c : cpu_state) : list Ready := sq_elems (run_queue c) ++ sq_elems (migration_queue c).
Definition is_ready (cs : list cpu_state) (x : Context) : Prop :=
  ∃ i c, cs !! i = Some c ∧ affinity x !! i = Some true ∧ into_ready (Blocked x) i MIN_TIME_GRAN ∈ queued c.

(** Queues only grow. *)
Definition grows (cs cs' : list cpu_state) : Prop :=
  length cs' = length cs ∧ ∀ i c, cs !! i = Some c → ∃ c', cs' !! i = Some c' ∧ queued c ⊆ queued c'.

Lemma grows_refl cs : grows cs cs.
Proof. split; [done|]. intros i c Hc. by exists c. Qed.
Lemma grows_trans a b c : grows a b → grows b c → grows a c.
Proof.
  intros [Hl1 H1] [Hl2 H2]. split; [congruence|]. intros i x Hx. destruct (H1 i x Hx) as (y & Hy & Hxy).
  destruct (H2 i y Hy) as (z & Hz & Hyz). exists z. split; [done|]. set_solver.
Qed.
Lemma grows_insert cs i c c' : cs !! i = Some c → queued c ⊆ queued c' → grows cs (<[i := c']> cs).
Proof.
  intros Hc Hq. split; [by rewrite length_insert|]. intros j x Hx. destruct (decide (j = i)) as [-> | Hne].
  - exists c'. rewrite list_lookup_insert_eq by (by eapply lookup_lt_Some). split; [done|]. by simplify_eq.
  - exists x. by rewrite list_lookup_insert_ne.
Qed.
Lemma ready_grows cs cs' x : grows cs cs' → is_ready cs x → is_ready cs' x.
Proof. intros [_ Hg] (i & c & Hc & Ha & Hin). destruct (Hg i c Hc) as (c' & Hc' & Hq). exists i, c'. set_solver. Qed.
Lemma affinity_grows cs cs' x : grows cs cs' → affinity_ok cs x → affinity_ok cs' x.
Proof. intros [Hl _] [He Ha]. split; [done|]. intros i Hi. rewrite Hl. by apply Ha. Qed.

Lemma micros_gran : wrap W (as_micros MIN_TIME_GRAN) = 30000.
Proof. done. Qed.

Lemma enqueue_run self task (s : sched) c b : cpus s !! self = Some c → 0 ≤ expected_runtime c ≤ b → b + 30000 < 2 ^ 64 - 1 →
  time_slice task = MIN_TIME_GRAN →
  enqueue self task false s = (Ok false, with_cpus s (<[self :=
    MkCpu (sq_push task (run_queue c)) (current c) (migration_queue c) (expected_runtime c + 30000) (timer_queue c) (dropper c)]> (cpus s))).
Proof.
  intros Hc Hb Hlt Hts. assert (Hlen : (self < length (cpus s))%nat) by (by eapply lookup_lt_Some).
  unfold enqueue, add_expected, push_run, get_cpu, put_cpu, mbind, st_bind. cbn. rewrite Hc. cbn.
  rewrite list_lookup_insert_eq by done. cbn. rewrite Hts, micros_gran, wrap_small by lia.
  destruct (current c) as [cur|] eqn:Hcur; cbn; rewrite list_lookup_insert_eq by done;
    unfold modify, with_run, with_cpus; cbn; by rewrite list_insert_insert_eq, Hcur.
Qed.

(** The processor a task is sent to. *)
Lemma unblock_to self x pre (s : sched) b : loads_below (cpus s) b → b < 2 ^ 64 - 1 → affinity_ok (cpus s) x →
  ∃ i c, cpus s !! i = Some c ∧ affinity x !! i = Some true ∧ 0 ≤ expected_runtime c ≤ b ∧
    unblock self (Blocked x) pre s =
      let task := into_ready (Blocked x) i MIN_TIME_GRAN in
      if bool_decide (i = self) then enqueue self task pre s
      else (Ok false, with_cpus s (<[i := with_migration c (sq_push task (migration_queue c))]> (cpus s))).
Proof.
  intros Hloads Hb [[a Ha] Haff]. unfold unblock. rewrite st_get_bind.
  destruct (select_cpu_spec (map expected_runtime (cpus s)) (affinity x) self (Some (cpu x))) as (r & Hr & Hspec).
  { apply Forall_map. eapply Forall_impl; [exact Hloads|]. cbn. lia. }
  { intros i Hi. rewrite length_map. by apply Haff. }
  rewrite (st_lift_ok _ _ _ _ Hr). destruct r as [i|]; [|by destruct (Hspec a)]. destruct Hspec as [Hi _].
  rewrite (st_lift_ok (unwrap (Some i)) _ _ i eq_refl). cbn zeta.
  destruct (lookup_lt_is_Some_2 (cpus s) i (Haff i Hi)) as [c Hc]. exists i, c. split; [done|]. split; [done|].
  split; [by apply (proj1 (Forall_lookup _ _) Hloads i c Hc)|]. case_bool_decide; [done|]. by rewrite get_cpu_run, Hc.
Qed.
Lemma loads_insert cs b i c : loads_below cs b → 0 ≤ expected_runtime c ≤ b + 30000 → loads_below (<[i := c]> cs) (b + 30000).
Proof. intros Hl Hc. apply Forall_insert; [|done]. eapply Forall_impl; [exact Hl|]. cbn. lia. Qed.

(** Unblocking, without preemption. *)
Lemma unblock_ready self x (s : sched) b : loads_below (cpus s) b → b + 30000 < 2 ^ 64 - 1 → affinity_ok (cpus s) x →
  ∃ cs, unblock self (Blocked x) false s = (Ok false, with_cpus s cs) ∧ grows (cpus s) cs ∧ loads_below cs (b + 30000) ∧ is_ready cs x.
Proof.
  intros Hloads Hb Haff. destruct (unblock_to self x false s b) as (i & c & Hc & Hi & Hci & ->); [done|lia|done|]. cbn zeta.
  assert (Hin : ∀ c' : cpu_state, into_ready (Blocked x) i MIN_TIME_GRAN ∈ queued c' → is_ready (<[i := c']> (cpus s)) x).
  { intros c' Hc'. exists i, c'. rewrite list_lookup_insert_eq by (by eapply lookup_lt_Some). done. }
  case_bool_decide as Hself.
  - subst i. erewrite enqueue_run by (try done; lia). eexists. split; [reflexivity|]. split; [|split].
    + apply (grows_insert _ _ c); [done|]. unfold queued. cbn. rewrite sq_push_elems. set_solver.
    + apply loads_insert; [done|]. cbn. lia.
    + apply Hin. unfold queued. cbn. rewrite sq_push_elems. set_solver.
  - eexists. split; [reflexivity|]. split; [|split].
    + apply (grows_insert _ _ c); [done|]. unfold queued. cbn. rewrite sq_push_elems. set_solver.
    + apply loads_insert; [done|]. cbn. lia.
    + apply Hin. unfold queued. cbn. rewrite sq_push_elems. set_solver.
Qed.

(** ** Notifying *)

(** A timer whose callback is still there. *)
Definition live (ts : list Timer) (t : nat) : bool := match ts !! t with Some x => bool_decide (is_Some (callback x)) | None => false end.
Definition lives (ts : list Timer) (q : list nat) : Z := Z.of_nat (length (filter (λ t, live ts t = true) q)).

(** What is in the queue can be woken. *)
Definition wakeable (cs : list cpu_state) (ts : list Timer) (q : list nat) : Prop :=
  NoDup q ∧ ∀ t, t ∈ q → ∃ x, ts !! t = Some x ∧ match callback x with Some (CTask c) => affinity_ok cs c | _ => True end.

Lemma take_run {A} t x (k : option Callback → sm A) s : timers s !! t = Some x →
  (take_callback t ≫= k) s = k (callback x) (with_timers s (<[t := MkTimer None (deadline x) (fired x)]> (timers s))).
Proof. intros Ht. unfold take_callback, mbind, st_bind. cbn. by rewrite Ht. Qed.

Lemma cancel_run self t x (s : sched) b : timers s !! t = Some x → loads_below (cpus s) b →
  b + 30000 < 2 ^ 64 - 1 → match callback x with Some (CTask c) => affinity_ok (cpus s) c | _ => True end →
  ∃ s', timer_cancel self t s = (Ok (live (timers s) t), s') ∧
    timers s' = <[t := MkTimer None (deadline x) (fired x)]> (timers s) ∧ wait_queues s' = wait_queues s ∧
    grows (cpus s) (cpus s') ∧ loads_below (cpus s') (b + 30000) ∧
    match callback x with Some (CTask c) => is_ready (cpus s') c | _ => True end.
Proof.
  intros Ht Hloads Hb Haff. unfold timer_cancel. rewrite (take_run _ _ _ _ Ht). unfold live. rewrite Ht.
  set (s1 := with_timers s _). assert (Hl' : loads_below (cpus s) (b + 30000)).
  { eapply Forall_impl; [exact Hloads|]. cbn. lia. }
  destruct (callback x) as [[c|e]|].
  - destruct (unblock_ready self c s1 b Hloads Hb Haff) as (cs & Hu & Hg & Hl & Hr). rewrite (st_bind_ok _ _ _ _ _ Hu).
    rewrite bool_decide_eq_true_2 by done. exists (with_cpus s1 cs). done.
  - rewrite st_modify_bind, bool_decide_eq_true_2 by done. eexists. split; [reflexivity|]. do 2 (split; [done|]).
    split; [apply grows_refl|done].
  - rewrite bool_decide_eq_false_2 by (by intros [? [=]]). exists s1. do 3 (split; [done|]). split; [apply grows_refl|done].
Qed.

Lemma lives_cons ts t q : lives ts (t :: q) = (if live ts t then 1 else 0) + lives ts q.
Proof. unfold lives. rewrite filter_cons. destruct (live ts t) eqn:Hl; [rewrite decide_True by done|rewrite decide_False by congruence]; cbn; lia. Qed.
Lemma lives_frame ts t y q : t ∉ q → lives (<[t := y]> ts) q = lives ts q.
Proof.
  intros Hq. induction q as [|u q IH]; [done|]. rewrite not_elem_of_cons in Hq. destruct Hq as [Hne Hq].
  rewrite !lives_cons, IH by done. unfold live. by rewrite list_lookup_insert_ne.
Qed.
Lemma lives_nonneg ts q : 0 ≤ lives ts q.
Proof. unfold lives. lia. Qed.

(** What was popped is woken, what is left still waits. *)
Definition woken (s s' : sched) (wq : nat) (popped rest : list nat) : Prop :=
  (∃ q', wait_queues s' !! wq = Some q' ∧ sq_elems q' = rest) ∧
  (∀ t, t ∈ popped → live (timers s') t = false) ∧
  (∀ t x c, t ∈ popped → timers s !! t = Some x → callback x = Some (CTask c) → is_ready (cpus s') c) ∧
  (∀ t, t ∉ popped → timers s' !! t = timers s !! t) ∧ grows (cpus s) (cpus s').

Lemma pop_wait_run wq (s : sched) q t ts : wait_queues s !! wq = Some q → sq_elems q = t :: ts →
  ∃ q' s1, pop_wait wq s = (Ok (Some t), s1) ∧ wait_queues s1 !! wq = Some q' ∧ sq_elems q' = ts ∧
    cpus s1 = cpus s ∧ timers s1 = timers s.
Proof.
  intros Hq He. unfold pop_wait, mbind, st_bind. cbn. rewrite Hq. cbn.
  destruct (sq_pop_cons q t ts He) as [Hf Hs]. destruct (sq_pop q) as [o q']. cbn in *. subst o.
  eexists q', _. split; [reflexivity|]. cbn. rewrite list_lookup_insert_eq by (by eapply lookup_lt_Some). done.
Qed.

Lemma woken_cons s s1 s2 s' wq t x popped rest : timers s !! t = Some x →
  cpus s1 = cpus s → timers s1 = timers s →
  timers s2 = <[t := MkTimer None (deadline x) (fired x)]> (timers s1) → grows (cpus s1) (cpus s2) →
  match callback x with Some (CTask c) => is_ready (cpus s2) c | _ => True end →
  t ∉ popped → woken s2 s' wq popped rest → woken s s' wq (t :: popped) rest.
Proof.
  intros Hx Hc1 Ht1 Ht2 Hg Hr Hnin (Hq & Hdead & Hready & Hkeep & Hg'). split; [done|]. split; [|split; [|split]].
  - intros u [-> | Hu]%elem_of_cons; [|by apply Hdead]. unfold live. rewrite Hkeep, Ht2 by done.
    rewrite list_lookup_insert_eq by (rewrite Ht1; by eapply lookup_lt_Some). by apply bool_decide_eq_false_2; intros [? [=]].
  - intros u y c Hu Hy Hcb. destruct (decide (u = t)) as [-> | Hne].
    + simplify_eq. rewrite Hcb in Hr. by eapply ready_grows.
    + apply elem_of_cons in Hu as [|Hu]; [done|]. apply (Hready u y c); [done| |done]. by rewrite Ht2, Ht1, list_lookup_insert_ne.
  - intros u [Hne Hu]%not_elem_of_cons. rewrite Hkeep, Ht2, Ht1 by done. by apply list_lookup_insert_ne.
  - rewrite <- Hc1. by eapply grows_trans.
Qed.

Lemma woken_none (s s' : sched) wq q' ts : wait_queues s' !! wq = Some q' → sq_elems q' = ts → cpus s' = cpus s →
  timers s' = timers s → woken s s' wq [] ts.
Proof.
  intros Hq He Hc Ht. split; [by exists q'|]. split; [by intros t Hin%elem_of_nil|]. split; [by intros t x c Hin%elem_of_nil|].
  rewrite Hc, Ht. split; [done|apply grows_refl].
Qed.
Lemma pop_wait_none wq (s : sched) q : wait_queues s !! wq = Some q → sq_elems q = [] →
  ∃ s1, pop_wait wq s = (Ok None, s1) ∧ woken s s1 wq [] [].
Proof.
  intros Hq He. unfold pop_wait, mbind, st_bind. cbn. rewrite Hq. cbn. destruct (sq_pop_nil q He) as [Hn Hs].
  destruct (sq_pop q) as [o q']. cbn in *. subst o. eexists. split; [reflexivity|].
  eapply woken_none; [|exact Hs|done|done]. cbn. by rewrite list_lookup_insert_eq by (by eapply lookup_lt_Some).
Qed.

Lemma notify_loop_ok fuel self wq num cnt (s : sched) q ts b : wait_queues s !! wq = Some q → sq_elems q = ts →
  (length ts < fuel)%nat → loads_below (cpus s) b →
  b + 30000 * Z.of_nat (length ts) < 2 ^ 64 - 1 → wakeable (cpus s) (timers s) ts → cnt ≤ num →
  ∃ popped rest s', notify_loop fuel self wq num cnt s = (Ok (cnt + lives (timers s) popped), s') ∧
    ts = popped ++ rest ∧ cnt + lives (timers s) popped ≤ num ∧ (rest = [] ∨ cnt + lives (timers s) popped = num) ∧
    woken s s' wq popped rest.
Proof.
  revert cnt s q ts b. induction fuel as [|fuel IH]; intros cnt s q ts b Hq He Hf Hloads Hb [Hnd Hwk] Hcnt; [lia|].
  cbn [notify_loop]. destruct (Z.ltb_spec cnt num) as [Hlt|Hge].
  2:{ exists [], ts, s. change (lives (timers s) []) with 0. rewrite Z.add_0_r.
      do 2 (split; [done|]). split; [lia|]. split; [right; lia|by eapply woken_none]. }
  destruct ts as [|t ts].
  { destruct (pop_wait_none wq s q Hq He) as (s1 & Hpop & Hw). rewrite (st_bind_ok _ _ _ _ _ Hpop).
    exists [], [], s1. change (lives (timers s) []) with 0. rewrite Z.add_0_r. do 2 (split; [done|]). auto. }
  destruct (pop_wait_run wq s q t ts Hq He) as (q1 & s1 & Hpop & Hq1 & He1 & Hc1 & Ht1). rewrite (st_bind_ok _ _ _ _ _ Hpop).
  apply NoDup_cons in Hnd as [Hnin Hnd]. destruct (Hwk t ltac:(by left)) as (x & Hx & Haff). cbn [length] in *.
  rewrite <- Hc1 in Hloads, Haff. rewrite <- Ht1 in Hx.
  destruct (cancel_run self t x s1 b Hx Hloads ltac:(lia) Haff) as (s2 & Hcan & Ht2 & Hw2 & Hg2 & Hl2 & Hr2).
  rewrite (st_bind_ok _ _ _ _ _ Hcan). set (cnt' := if live (timers s1) t then cnt + 1 else cnt).
  destruct (IH cnt' s2 q1 ts (b + 30000)) as (popped & rest & s' & Hloop & Hts & Hle & Hend & Hwok); try done.
  - by rewrite Hw2.
  - lia.
  - lia.
  - split; [done|]. intros u Hu. destruct (Hwk u ltac:(by right)) as (y & Hy & Hay). exists y.
    rewrite Ht2, Ht1, list_lookup_insert_ne by (intros ->; done). split; [done|]. destruct (callback y) as [[c|]|]; [|done..].
    rewrite Hc1 in Hg2. by eapply affinity_grows.
  - subst cnt'. destruct (live (timers s1) t); lia.
  - assert (Hcount : cnt' + lives (timers s2) popped = cnt + lives (timers s) (t :: popped)).
    { rewrite lives_cons, Ht2, lives_frame, Ht1 by (intros Hin; apply Hnin; rewrite Hts; by apply elem_of_app; left).
      subst cnt'. rewrite Ht1. destruct (live (timers s) t); lia. }
    rewrite Hcount in *. exists (t :: popped), rest, s'. rewrite Hts. do 2 (split; [done|]). split; [done|]. split; [done|].
    eapply (woken_cons s s1 s2); try done; [by rewrite <- Ht1|]. intros Hin. apply Hnin. rewrite Hts. by apply elem_of_app; left.
Qed.

(** [notify] takes waiters off the queue in the order they came, until it has woken as many as it was asked to (all
    of them for zero) or none is left; it tells how many it woke, not counting those that timed out before; a task it
    wakes is ready on a processor it may run on, and nobody else is touched. *)
Theorem notify_wakes self wq num (s : sched) q b : wait_queues s !! wq = Some q →
  loads_below (cpus s) b → b + 30000 * Z.of_nat (length (sq_elems q)) < 2 ^ 64 - 1 →
  wakeable (cpus s) (timers s) (sq_elems q) → 0 ≤ num →
  let limit := if num =? 0 then MAX64 else num in
  ∃ popped rest s', wo_notify self wq num s = (Ok (lives (timers s) popped), s') ∧
    sq_elems q = popped ++ rest ∧ lives (timers s) popped ≤ limit ∧ (rest = [] ∨ lives (timers s) popped = limit) ∧
    woken s s' wq popped rest.
Proof.
  intros Hq Hloads Hb Hwk Hnum limit. unfold wo_notify. rewrite st_get_bind, Hq.
  rewrite (st_lift_ok (unwrap (Some q)) _ _ q eq_refl).
  destruct (notify_loop_ok (S (S (length (sq_elems q)))) self wq limit 0 s q (sq_elems q) b) as (popped & rest & s' & Hl & Hrest); try done.
  - lia.
  - subst limit. unfold MAX64. destruct (Z.eqb_spec num 0); lia.
  - exists popped, rest, s'. by rewrite !Z.add_0_l in *.
Qed.
End wake.

(** Three tasks wait on an address; the first of them has timed out, and two are to be woken. *)
Module WakeWitness.
#[local] Existing Instance debug_profile.
Definition waiter (i : Z) : Context := MkContext i User [true] 0 0 0.
Definition sleepers : sched (Q:=list) (H:=list (Z * nat)) :=
  MkSched [MkCpu [] (Some (MkReady (waiter 9) 1 MIN_TIME_GRAN)) [] 30000 [] []]
    [MkTimer None 50 true; MkTimer (Some (CTask (waiter 2))) 100 false; MkTimer (Some (CTask (waiter 3))) 100 false] []
    [[0; 1; 2]%nat] ∅ ∅ ∅ ∅ ∅ 0 1 [] 60.

Lemma notify_wakes_witness : ∃ popped rest s', wo_notify 0 0 1 sleepers = (Ok (lives (timers sleepers) popped), s') ∧
  [0; 1; 2]%nat = popped ++ rest ∧ woken sleepers s' 0 popped rest.
Proof.
  destruct (notify_wakes 0 0 1 sleepers [0; 1; 2]%nat 30000) as (popped & rest & s' & Hn & Hq & _ & _ & Hw).
  - reflexivity.
  - repeat constructor; cbn; lia.
  - cbn. lia.
  - split; [apply (bool_decide_unpack _); reflexivity|]. intros t Ht. change (t ∈ [0; 1; 2]%nat) in Ht. rewrite !elem_of_cons, elem_of_nil in Ht.
    assert (Haff : ∀ i, affinity_ok (cpus sleepers) (waiter i)).
    { intros i. split; [by exists 0%nat|]. intros [|j]; cbn; [lia|done]. }
    destruct Ht as [-> | [-> | [-> | []]]]; eexists; (split; [reflexivity|]); cbn; auto.
  - lia.
  - exists popped, rest, s'. auto.
Defined.

Example wakes_one : fst (wo_notify 0 0 1 sleepers) = Ok 1 ∧ fst (wo_notify 0 0 0 sleepers) = Ok 2.
Proof. done. Qed.
End WakeWitness.
