(* ===== verification/SchedTimer.v ===== *)
(** * Timers fire

    A tick of the timers of a processor fires timers that are due, each once, and leaves
    the others. When a task that it wakes preempts the running one, the processor is
    switched to it in the middle of the loop: the timers that are left stay in the queue for
    the next tick. A tick that is not left in this way has fired every timer that is
    due; so a task that waits with a timeout is ready again after as many ticks as there
    are timers, at most. *)

From S2P Require Import Base Collections SysCall Sched SchedFacts SchedInv SchedSpec SchedWake.
From stdpp Require Import gmap.
Local Open Scope Z_scope.

Section timer.
Context {Q : Type → Type} `{SQ : SegQueue Q} {H : Type} `{TH : TimerHeap H} `{P : Profile}.
Abbreviation sched := (sched (Q:=Q) (H:=H)).
Abbreviation cpu_state := (CpuState (Q:=Q) (H:=H)).
Abbreviation sm := (st sched errno).

(** The tasks that run on a processor or wait for it. *)
Definition present (c : cpu_state) : list Z := map (λ r, tid (ctx r)) (queued c ++ option_list (current c)).
Definition is_up (cs : list cpu_state) (x : Context) : Prop :=
  ∃ i c, cs !! i = Some c ∧ affinity x !! i = Some true ∧ tid x ∈ present c.
Definition stays (cs cs' : list cpu_state) : Prop :=
  length cs' = length cs ∧ ∀ i c, cs !! i = Some c → ∃ c', cs' !! i = Some c' ∧ present c ⊆ present c'.

Lemma stays_refl cs : stays cs cs.
Proof. split; [done|]. intros i c Hc. by exists c. Qed.
Lemma stays_trans a b c : stays a b → stays b c → stays a c.
Proof.
  intros [Hl1 H1] [Hl2 H2]. split; [congruence|]. intros i x Hx. destruct (H1 i x Hx) as (y & Hy & Hxy).
  destruct (H2 i y Hy) as (z & Hz & Hyz). exists z. split; [done|]. set_solver.
Qed.
Lemma stays_insert cs i c c' : cs !! i = Some c → present c ⊆ present c' → stays cs (<[i := c']> cs).
Proof.
  intros Hc Hq. split; [by rewrite length_insert|]. intros j x Hx. destruct (decide (j = i)) as [-> | Hne].
  - exists c'. rewrite list_lookup_insert_eq by (by eapply lookup_lt_Some). split; [done|]. by simplify_eq.
  - exists x. by rewrite list_lookup_insert_ne.
Qed.
Lemma up_stays cs cs' x : stays cs cs' → is_up cs x → is_up cs' x.
Proof. intros [_ Hg] (i & c & Hc & Ha & Hin). destruct (Hg i c Hc) as (c' & Hc' & Hq). exists i, c'. set_solver. Qed.

(** Enough room to count the time of a task. *)
Definition runtime_ok (x : Context) : Prop := runtime x + WAKE_TIME_GRAN ≤ DURATION_MAX.

Lemma present_push c x : tid (ctx x) ∈ present (with_run c (sq_push x (run_queue c)) (current c)) ∧
  present c ⊆ present (with_run c (sq_push x (run_queue c)) (current c)).
Proof. unfold present, queued. cbn. rewrite sq_push_elems, !map_app. cbn. set_solver. Qed.

(** The processor after a task was put to it: only its queue, its running task and its load change. *)
Definition put_to (c c' : cpu_state) (t : Z) : Prop :=
  timer_queue c' = timer_queue c ∧ expected_runtime c' = expected_runtime c + 30000 ∧ t ∈ present c' ∧ present c ⊆ present c'.

(** The processor runs the task. *)
Definition switched (c : cpu_state) (x : Context) : Prop := ∃ r, current c = Some r ∧ tid (ctx r) = tid x.

Lemma enqueue_up self task pre (s : sched) c b : cpus s !! self = Some c → 0 ≤ expected_runtime c ≤ b → b + 30000 < 2 ^ 64 - 1 →
  time_slice task = MIN_TIME_GRAN → runtime_ok (ctx task) →
  ∃ away c', enqueue self task pre s = (Ok away, with_cpus s (<[self := c']> (cpus s))) ∧ put_to c c' (tid (ctx task)) ∧
    (away = true → switched c' (ctx task)).
Proof.
  intros Hc Hb Hlt Hts Hrt. assert (Hlen : (self < length (cpus s))%nat) by (by eapply lookup_lt_Some).
  set (c1 := with_expected c (expected_runtime c + 30000)).
  assert (Hadd : add_expected self (time_slice task) s = (Ok (), with_cpus s (<[self := c1]> (cpus s)))).
  { unfold add_expected. rewrite get_cpu_run, Hc, Hts, micros_gran, wrap_small by lia. done. }
  unfold enqueue. rewrite (st_bind_ok _ _ _ _ _ Hadd), get_cpu_run. cbn [cpus with_cpus]. rewrite list_lookup_insert_eq by done.
  assert (Hpush : (_ ← push_run self task; mret false) (with_cpus s (<[self := c1]> (cpus s))) =
    (Ok false, with_cpus s (<[self := with_run c1 (sq_push task (run_queue c1)) (current c1)]> (cpus s)))).
  { unfold push_run, get_cpu, put_cpu, modify, mbind, st_bind. cbn. rewrite list_lookup_insert_eq by done.
    unfold with_cpus. cbn. by rewrite list_insert_insert_eq. }
  assert (Hput : put_to c (with_run c1 (sq_push task (run_queue c1)) (current c1)) (tid (ctx task))).
  { do 2 (split; [done|]). apply (present_push c1 task). }
  assert (Hqueue : ∃ away c', (_ ← push_run self task; mret false) (with_cpus s (<[self := c1]> (cpus s))) =
    (Ok away, with_cpus s (<[self := c']> (cpus s))) ∧ put_to c c' (tid (ctx task)) ∧ (away = true → switched c' (ctx task)))
    by (by eexists _, _).
  destruct (current c1) as [cur|] eqn:Hcur; [|exact Hqueue]. destruct pre; [|exact Hqueue].
  rewrite (st_lift_ok _ _ _ (runtime (ctx task) + WAKE_TIME_GRAN <? runtime (ctx cur))).
  2:{ unfold should_preempt, dur_add. by rewrite (proj2 (Z.leb_le _ _) Hrt). }
  destruct (_ <? _); [|exact Hqueue].
  rewrite st_get_bind. unfold attempt, schedule_impl, push_run, get_cpu, put_cpu, modify, mbind, st_bind. cbn.
  rewrite list_lookup_insert_eq by done. cbn. change (current c = Some cur) in Hcur. rewrite Hcur. cbn. rewrite list_lookup_insert_eq by (by rewrite !length_insert). cbn.
  eexists _, _. split; [unfold with_cpus; cbn; rewrite !list_insert_insert_eq; reflexivity|].
  split; [|by eexists]. do 2 (split; [done|]). unfold present, queued. cbn. rewrite Hcur, sq_push_elems, !map_app. cbn. set_solver.
Qed.

(** The timer queues of the processors. *)
Definition same_timers (cs cs' : list cpu_state) : Prop := ∀ i c, cs !! i = Some c → ∃ c', cs' !! i = Some c' ∧ timer_queue c' = timer_queue c.

Lemma same_timers_insert cs i c c' : cs !! i = Some c → timer_queue c' = timer_queue c → same_timers cs (<[i := c']> cs).
Proof.
  intros Hc Hq j x Hx. destruct (decide (j = i)) as [-> | Hne].
  - exists c'. rewrite list_lookup_insert_eq by (by eapply lookup_lt_Some). split; [done|]. by simplify_eq.
  - exists x. by rewrite list_lookup_insert_ne.
Qed.

Lemma unblock_up self x pre (s : sched) b : loads_below (cpus s) b → b + 30000 < 2 ^ 64 - 1 → affinity_ok (cpus s) x → runtime_ok x →
  ∃ away cs, unblock self (Blocked x) pre s = (Ok away, with_cpus s cs) ∧ stays (cpus s) cs ∧ loads_below cs (b + 30000) ∧ is_up cs x ∧
    same_timers (cpus s) cs ∧ (away = true → ∃ c, cs !! self = Some c ∧ switched c x).
Proof.
  intros Hloads Hb Haff Hrt. destruct (unblock_to self x pre s b) as (i & c & Hc & Hi & Hci & ->); [done|lia|done|]. cbn zeta.
  set (task := into_ready (Blocked x) i MIN_TIME_GRAN).
  assert (Hdone : ∀ c', timer_queue c' = timer_queue c → expected_runtime c' ≤ expected_runtime c + 30000 → 0 ≤ expected_runtime c' →
    tid x ∈ present c' → present c ⊆ present c' → let cs := <[i := c']> (cpus s) in
    stays (cpus s) cs ∧ loads_below cs (b + 30000) ∧ is_up cs x ∧ same_timers (cpus s) cs).
  { intros c' Htq Her Hpos Hin Hsub cs. split; [by apply (stays_insert _ _ c)|]. split; [apply loads_insert; [done|lia]|].
    split; [|by apply (same_timers_insert _ _ c)]. exists i, c'. subst cs. by rewrite list_lookup_insert_eq by (by eapply lookup_lt_Some). }
  case_bool_decide as Hself.
  - subst i. destruct (enqueue_up self task pre s c b) as (away & c' & -> & (Htq & Her & Hin & Hsub) & Hsw); [done|lia|lia|done|done|].
    eexists _, _. split; [reflexivity|].
    destruct (Hdone c') as (H1 & H2 & H3 & H4); try done; [lia..|]. do 4 (split; [done|]). intros Ha. exists c'.
    rewrite list_lookup_insert_eq by (by eapply lookup_lt_Some). split; [done|]. by apply Hsw.
  - eexists false, _. split; [reflexivity|].
    destruct (Hdone (with_migration c (sq_push task (migration_queue c)))) as (H1 & H2 & H3 & H4); cbn; try done; [lia|lia|..];
      unfold present, queued; cbn; rewrite ?sq_push_elems, ?map_app; cbn; set_solver.
Qed.

(** ** The queue *)

Definition dead (ts : list Timer) (l : list (Z * nat)) : Prop := Forall (λ e, live ts (snd e) = false) l.

(** The entries of a queue are timers, each once. *)
Definition queue_ok (cs : list cpu_state) (ts : list Timer) (l : list (Z * nat)) : Prop :=
  NoDup (snd <$> l) ∧ ∀ dl t, (dl, t) ∈ l → ∃ x, ts !! t = Some x ∧
    match callback x with Some (CTask c) => affinity_ok cs c ∧ runtime_ok c | _ => True end.

Lemma live_callback ts t x : ts !! t = Some x → live ts t = bool_decide (is_Some (callback x)).
Proof. intros Hx. unfold live. by rewrite Hx. Qed.

Lemma next_due_ok fuel self now (s : sched) c : cpus s !! self = Some c → queue_ok (cpus s) (timers s) (th_elems (timer_queue c)) →
  (length (th_elems (timer_queue c)) < fuel)%nat →
  ∃ r h dropped, next_due fuel self now s = (Ok r, with_cpus s (<[self := with_timer_queue c h]> (cpus s))) ∧
    dead (timers s) dropped ∧
    match r with
    | Some t => ∃ dl, th_elems (timer_queue c) ≡ₚ dropped ++ (dl, t) :: th_elems h ∧ dl ≤ now ∧ live (timers s) t = true
    | None => th_elems (timer_queue c) ≡ₚ dropped ++ th_elems h ∧ Forall (λ e, now < fst e) (th_elems h)
    end.
Proof.
  revert s c. induction fuel as [|fuel IH]; intros s c Hc [Hnd Hok] Hf; [lia|]. cbn [next_due].
  rewrite st_get_bind, get_cpu_run, Hc. assert (Hlen : (self < length (cpus s))%nat) by (by eapply lookup_lt_Some).
  assert (Hhere : with_cpus s (<[self := with_timer_queue c (timer_queue c)]> (cpus s)) = s).
  { assert (with_timer_queue c (timer_queue c) = c) as -> by (by destruct c). rewrite list_insert_id by done. by destruct s. }
  destruct (th_peek (timer_queue c)) as [[dl t]|] eqn:Hpeek.
  2:{ exists None, (timer_queue c), []. rewrite Hhere. split; [done|]. split; [constructor|]. split; [done|].
      rewrite th_peek_none by done. constructor. }
  pose proof (th_pop_elems _ _ Hpeek) as Hpop. pose proof (th_peek_min _ _ Hpeek) as Hmin. cbn in Hmin.
  destruct (Hok dl t) as (x & Hx & _); [rewrite Hpop; by left|]. rewrite Hx, (st_lift_ok (unwrap (Some x)) _ _ x eq_refl). cbn zeta.
  set (h1 := th_pop (timer_queue c)) in *. case_bool_decide as Hcb.
  - rewrite put_cpu_run. set (s1 := with_cpus s _).
    destruct (IH s1 (with_timer_queue c h1)) as (r & h & dropped & Hrun & Hdead & Hres).
    + subst s1. cbn. by rewrite list_lookup_insert_eq.
    + cbn. rewrite Hpop in Hnd. cbn in Hnd. apply NoDup_cons in Hnd as [_ Hnd]. split; [done|]. intros dl' t' Hin.
      destruct (Hok dl' t') as (y & Hy & Hcy); [rewrite Hpop; by right|]. exists y. split; [done|].
      destruct (callback y) as [[z|]|]; [|done..]. destruct Hcy as [[He Ha] Hr]. split; [|done]. split; [done|]. intros i Hi. rewrite length_insert. by apply Ha.
    + cbn. apply Permutation_length in Hpop. cbn in Hpop. lia.
    + exists r, h, ((dl, t) :: dropped). split.
      { rewrite Hrun. subst s1. unfold with_cpus. cbn. by rewrite list_insert_insert_eq. }
      split; [constructor; [|done]; cbn; rewrite (live_callback _ _ _ Hx); by rewrite Hcb|].
      cbn in Hres. destruct r as [t'|].
      * destruct Hres as (dl' & Hperm & Hle & Hlive). exists dl'. split; [|done]. rewrite Hpop, Hperm. done.
      * destruct Hres as [Hperm Hlater]. split; [|done]. rewrite Hpop, Hperm. done.
  - destruct (Z.leb_spec dl now) as [Hle|Hgt].
    + exists (Some t), h1, []. rewrite put_cpu_run. split; [done|]. split; [constructor|]. exists dl. split; [done|]. split; [done|].
      rewrite (live_callback _ _ _ Hx). apply bool_decide_eq_true. by apply not_eq_None_Some.
    + exists None, (timer_queue c), []. rewrite Hhere. split; [done|]. split; [constructor|]. split; [done|].
      eapply Forall_impl; [exact Hmin|]. cbn. lia.
Qed.

(** ** Firing *)

Lemma fire_run self t x cb (s : sched) b : timers s !! t = Some x → callback x = Some cb → loads_below (cpus s) b →
  b + 30000 < 2 ^ 64 - 1 → match cb with CTask c => affinity_ok (cpus s) c ∧ runtime_ok c | CEvent _ => True end →
  ∃ away s', timer_fire self t s = (Ok away, s') ∧ timers s' = <[t := MkTimer None (deadline x) true]> (timers s) ∧ clock s' = clock s ∧
    stays (cpus s) (cpus s') ∧ loads_below (cpus s') (b + 30000) ∧ same_timers (cpus s) (cpus s') ∧
    match cb with
    | CTask x => is_up (cpus s') x ∧ (away = true → ∃ c, cpus s' !! self = Some c ∧ switched c x)
    | CEvent _ => away = false
    end.
Proof.
  intros Ht Hcb Hloads Hb Hc. unfold timer_fire. rewrite (take_run _ _ _ _ Ht), Hcb, st_get_bind. cbn [timers with_timers].
  assert (Hlen : (t < length (timers s))%nat) by (by eapply lookup_lt_Some).
  rewrite list_lookup_insert_eq by done. rewrite (st_lift_ok (unwrap (Some _)) _ _ _ eq_refl), st_modify_bind.
  cbn [timers with_timers callback deadline]. rewrite list_insert_insert_eq. set (s1 := with_timers _ _).
  assert (Hst : ∀ s : sched, same_timers (cpus s) (cpus s)) by (intros s' i c'; by exists c').
  destruct cb as [c|e].
  - destruct Hc as [Haff Hrt]. destruct (unblock_up self c true s1 b Hloads Hb Haff Hrt) as (away & cs & -> & Hs & Hl & Hup & Hsame & Hsw).
    by exists away, (with_cpus s1 cs).
  - eexists _, _. split; [reflexivity|]. do 2 (split; [done|]). split; [apply stays_refl|]. split; [|split; [exact (Hst s)|done]].
    eapply Forall_impl; [exact Hloads|]. cbn. lia.
Qed.

(** The entries [l] of the queue were dealt with: those due have fired, all other timers are as they were. *)
Definition all_fired (s s' : sched) (l : list (Z * nat)) : Prop :=
  (∀ dl t x, (dl, t) ∈ l → timers s !! t = Some x → dl ≤ clock s → live (timers s') t = false ∧
    (is_Some (callback x) → timers s' !! t = Some (MkTimer None (deadline x) true)) ∧
    (∀ c, callback x = Some (CTask c) → is_up (cpus s') c)) ∧
  (∀ t, (∀ dl, (dl, t) ∈ l → clock s < dl ∨ live (timers s) t = false) → timers s' !! t = timers s !! t) ∧
  stays (cpus s) (cpus s').

Lemma affinity_stays cs cs' x : stays cs cs' → affinity_ok cs x → affinity_ok cs' x.
Proof. intros [Hl _] [He Ha]. split; [done|]. intros i Hi. rewrite Hl. by apply Ha. Qed.

Lemma queue_ok_sub cs ts l l' d : l ≡ₚ d ++ l' → queue_ok cs ts l → queue_ok cs ts l'.
Proof.
  intros Hp [Hnd Hok]. split.
  - rewrite Hp, fmap_app in Hnd. by apply NoDup_app in Hnd as (_ & _ & ?).
  - intros dl t Hin. apply (Hok dl t). rewrite Hp. apply elem_of_app. by right.
Qed.

Lemma live_unchanged ts ts' t : ts' !! t = ts !! t → live ts' t = live ts t.
Proof. unfold live. by intros ->. Qed.

Lemma all_fired_dead (s s' : sched) l : timers s' = timers s → stays (cpus s) (cpus s') → dead (timers s) l → all_fired s s' l.
Proof.
  intros Hts Hst Hdead. split; [|by rewrite Hts]. intros dl t x Hin Hx _.
  pose proof (proj1 (Forall_forall _ _) Hdead _ Hin) as Hl. cbn in Hl. rewrite Hts. split; [done|].
  rewrite (live_callback _ _ _ Hx) in Hl. apply bool_decide_eq_false in Hl. split; [done|]. intros c Hc. destruct Hl. by rewrite Hc.
Qed.
Lemma all_fired_one (s s' : sched) dl t x : timers s !! t = Some x → is_Some (callback x) → dl ≤ clock s →
  timers s' = <[t := MkTimer None (deadline x) true]> (timers s) → stays (cpus s) (cpus s') →
  (∀ c, callback x = Some (CTask c) → is_up (cpus s') c) → all_fired s s' [(dl, t)].
Proof.
  intros Hx Hcb Hdl Hts Hst Hup. assert (Hnew : timers s' !! t = Some (MkTimer None (deadline x) true)).
  { rewrite Hts. apply list_lookup_insert_eq. by eapply lookup_lt_Some. }
  split; [|split; [|done]].
  - intros d u z [[= -> ->] | Hin%elem_of_nil]%elem_of_cons Hz _; [|done]. assert (z = x) as -> by congruence.
    rewrite (live_callback _ _ _ Hnew). done.
  - intros u Hu. rewrite Hts. apply list_lookup_insert_ne. intros <-. destruct (Hu dl) as [Hlt|Hl]; [by left|lia|].
    rewrite (live_callback _ _ _ Hx) in Hl. by apply bool_decide_eq_false in Hl.
Qed.
Lemma all_fired_app (s s1 s2 : sched) l l' : NoDup (snd <$> l ++ l') → clock s1 = clock s →
  all_fired s s1 l → all_fired s1 s2 l' → all_fired s s2 (l ++ l').
Proof.
  intros Hnd Hclk (Hf & Hk & Hst) (Hf' & Hk' & Hst'). rewrite fmap_app in Hnd. apply NoDup_app in Hnd as (_ & Hdis & _).
  assert (Hin : ∀ (d : Z) (u : nat) k, (d, u) ∈ k → u ∈ (snd <$> k)) by (intros d u k Hd; apply list_elem_of_fmap; by exists (d, u)).
  split; [|split; [|by eapply stays_trans]].
  - intros d u z [Hd|Hd]%elem_of_app Hz Hle.
    + destruct (Hf d u z Hd Hz Hle) as (Hl & Hn & Hup). assert (Hsame : timers s2 !! u = timers s1 !! u).
      { apply Hk'. intros d' Hd'. destruct (Hdis u); [by eapply Hin|by eapply Hin]. }
      rewrite (live_unchanged _ _ _ Hsame), Hsame. split; [done|]. split; [done|]. intros c Hc. eapply up_stays; [done|by apply Hup].
    + apply (Hf' d u z Hd); [|by rewrite Hclk]. rewrite Hk; [done|]. intros d' Hd'. destruct (Hdis u); by eapply Hin.
  - intros u Hu. assert (Hsame : timers s1 !! u = timers s !! u). { apply Hk. intros d Hd. apply Hu. apply elem_of_app. by left. }
    rewrite <- Hsame. apply Hk'. intros d Hd. rewrite Hclk, (live_unchanged _ _ _ Hsame). apply Hu. apply elem_of_app. by right.
Qed.

(** A part of the loop: of the entries [l] of the queue it dealt with [taken] and left [rest]. *)
Record part (self : nat) (s s' : sched) (l taken rest : list (Z * nat)) : Prop := {
  part_split : l ≡ₚ taken ++ rest;
  part_fired : all_fired s s' taken;
  part_rest : ∃ c, cpus s' !! self = Some c ∧ th_elems (timer_queue c) = rest;
  part_clock : clock s' = clock s;
}.
(** The processor was switched to a task whose timer fired. *)
Definition switched_to (self : nat) (s s' : sched) (taken : list (Z * nat)) : Prop :=
  ∃ dl t x y c, (dl, t) ∈ taken ∧ dl ≤ clock s ∧ timers s !! t = Some x ∧ callback x = Some (CTask y) ∧
    cpus s' !! self = Some c ∧ switched c y.

Lemma part_apart self (s s' : sched) l taken rest d t : part self s s' l taken rest → NoDup (snd <$> l) → (d, t) ∈ rest →
  timers s' !! t = timers s !! t.
Proof.
  intros [Hperm (_ & Hk & _) _ _] Hnd Hin. rewrite Hperm, fmap_app in Hnd. apply NoDup_app in Hnd as (_ & Hdis & _).
  apply Hk. intros d' Hd'. destruct (Hdis t); apply list_elem_of_fmap; [by exists (d', t)|by exists (d, t)].
Qed.
Lemma part_ok self (s s' : sched) l taken rest : part self s s' l taken rest → queue_ok (cpus s) (timers s) l →
  queue_ok (cpus s') (timers s') rest.
Proof.
  intros Hp Hok. destruct (queue_ok_sub _ _ _ _ _ (part_split _ _ _ _ _ _ Hp) Hok) as [Hnd' Hr]. split; [done|].
  intros dl t Hin. destruct (Hr dl t Hin) as (x & Hx & Hcb). exists x. rewrite (part_apart _ _ _ _ _ _ _ _ Hp (proj1 Hok) Hin).
  split; [done|]. destruct (callback x) as [[c|]|]; [|done..]. destruct Hcb. split; [|done].
  eapply affinity_stays; [apply (part_fired _ _ _ _ _ _ Hp)|done].
Qed.
Lemma part_app self (s s1 s2 : sched) l taken m taken' rest : NoDup (snd <$> l) →
  part self s s1 l taken m → part self s1 s2 m taken' rest → part self s s2 l (taken ++ taken') rest.
Proof.
  intros Hnd [Hp1 Hf1 _ Hc1] [Hp2 Hf2 Hr2 Hc2]. split; [|eapply all_fired_app|done|congruence]; try done.
  - by rewrite Hp1, Hp2, app_assoc.
  - rewrite Hp1, Hp2, app_assoc, fmap_app in Hnd. by apply NoDup_app in Hnd as (? & _ & _).
Qed.
Lemma switched_app self (s s1 s2 : sched) l taken m taken' rest : NoDup (snd <$> l) →
  part self s s1 l taken m → part self s1 s2 m taken' rest → switched_to self s1 s2 taken' → switched_to self s s2 (taken ++ taken').
Proof.
  intros Hnd Hp1 Hp2 (dl & t & x & y & c & Hin & Hle & Hx & Hsw). exists dl, t, x, y, c.
  rewrite <- (part_clock _ _ _ _ _ _ Hp1). split; [apply elem_of_app; by right|]. split; [done|]. split; [|done].
  rewrite <- Hx. symmetry. eapply (part_apart _ _ _ _ _ _ dl); [done|done|]. rewrite (part_split _ _ _ _ _ _ Hp2). apply elem_of_app. by left.
Qed.

(** The round that fires a timer. *)
Lemma fired_round self (s s1 : sched) c1 h dropped dl t b l : l ≡ₚ dropped ++ (dl, t) :: th_elems h →
  queue_ok (cpus s) (timers s) l → dead (timers s) dropped → dl ≤ clock s → live (timers s) t = true →
  timers s1 = timers s → clock s1 = clock s → stays (cpus s) (cpus s1) → loads_below (cpus s1) b → b + 30000 < 2 ^ 64 - 1 →
  cpus s1 !! self = Some c1 → timer_queue c1 = h →
  ∃ away s2, timer_fire self t s1 = (Ok away, s2) ∧ loads_below (cpus s2) (b + 30000) ∧
    part self s s2 l (dropped ++ [(dl, t)]) (th_elems h) ∧ (away = true → switched_to self s s2 (dropped ++ [(dl, t)])).
Proof.
  intros Hperm [Hnd Hok] Hdead Hdl Hlive Hts1 Hclk1 Hst1 Hloads Hb Hc1 Hq1.
  destruct (Hok dl t) as (x & Hx & Hcx); [rewrite Hperm; set_solver|]. rewrite (live_callback _ _ _ Hx) in Hlive.
  apply bool_decide_eq_true in Hlive as [cb Hcb]. rewrite Hcb in Hcx. assert (Hx1 : timers s1 !! t = Some x) by congruence.
  destruct (fire_run self t x cb s1 b Hx1 Hcb Hloads Hb) as (away & s2 & Hfire & Hts & Hclk & Hst & Hl2 & Hsame & Hup).
  { destruct cb as [z|]; [|done]. destruct Hcx. split; [by eapply affinity_stays|done]. }
  exists away, s2. split; [done|]. split; [done|]. split.
  - split; [by rewrite <- app_assoc| | |congruence].
    + apply (all_fired_app s s1 s2).
      * rewrite Hperm, cons_middle, app_assoc, fmap_app in Hnd. by apply NoDup_app in Hnd as (? & _ & _).
      * done.
      * by apply all_fired_dead.
      * apply (all_fired_one s1 s2 dl t x); [done|by exists cb|lia|done|done|]. intros z Hz. rewrite Hcb in Hz. simplify_eq. by destruct Hup.
    + destruct (Hsame self c1 Hc1) as (c2 & Hc2 & Hq2). exists c2. split; [done|]. by rewrite Hq2, Hq1.
  - intros ->. destruct cb as [y|]; [|done]. destruct Hup as [_ Hsw]. destruct (Hsw eq_refl) as (c2 & Hc2 & Hs2).
    exists dl, t, x, y, c2. split; [apply elem_of_app; right; by left|]. done.
Qed.

Lemma timer_tick_ok fuel self (s : sched) c b : cpus s !! self = Some c → queue_ok (cpus s) (timers s) (th_elems (timer_queue c)) →
  (length (th_elems (timer_queue c)) < fuel)%nat → loads_below (cpus s) b →
  b + 30000 * Z.of_nat (length (th_elems (timer_queue c))) < 2 ^ 64 - 1 →
  ∃ away s' taken rest, timer_tick fuel self s = (Ok away, s') ∧ part self s s' (th_elems (timer_queue c)) taken rest ∧
    loads_below (cpus s') (b + 30000 * Z.of_nat (length taken)) ∧
    if away then switched_to self s s' taken else Forall (λ e, clock s < fst e) rest.
Proof.
  revert s c b. induction fuel as [|fuel IH]; intros s c b Hc Hok Hf Hloads Hb; [lia|]. cbn [timer_tick].
  rewrite st_get_bind, get_cpu_run, Hc. assert (Hlen : (self < length (cpus s))%nat) by (by eapply lookup_lt_Some).
  destruct (next_due_ok (S (length (th_elems (timer_queue c)))) self (clock s) s c Hc Hok) as (r & h & dropped & Hrun & Hdead & Hres); [lia|].
  rewrite (st_bind_ok _ _ _ _ _ Hrun). set (s1 := with_cpus s _) in *.
  assert (Hstay1 : stays (cpus s) (cpus s1)) by (by apply (stays_insert _ _ c)).
  assert (Hloads1 : loads_below (cpus s1) b).
  { apply Forall_insert; [done|]. by apply (Forall_lookup_1 _ _ _ _ Hloads Hc). }
  assert (Hc1 : cpus s1 !! self = Some (with_timer_queue c h)) by (by apply list_lookup_insert_eq).
  destruct r as [t|].
  2:{ destruct Hres as [Hperm Hlater]. exists false, s1, dropped, (th_elems h). split; [done|]. split; [|split; [|done]].
      - split; try done; [by apply all_fired_dead|by exists (with_timer_queue c h)].
      - eapply Forall_impl; [exact Hloads1|]. cbn. lia. }
  destruct Hres as (dl & Hperm & Hdl & Hlive). pose proof (Permutation_length Hperm) as Hpl. rewrite length_app in Hpl. cbn in Hpl.
  destruct (fired_round self s s1 _ h dropped dl t b _ Hperm Hok Hdead Hdl Hlive eq_refl eq_refl Hstay1 Hloads1 ltac:(lia) Hc1 eq_refl)
    as (away & s2 & Hfire & Hl2 & Hpart & Hsw).
  rewrite (st_bind_ok _ _ _ _ _ Hfire). destruct away.
  { eexists true, s2, _, _. split; [done|]. split; [exact Hpart|]. split; [|by apply Hsw].
    eapply Forall_impl; [exact Hl2|]. rewrite length_app. cbn. lia. }
  pose proof (part_ok _ _ _ _ _ _ Hpart Hok) as Hok2. destruct (part_rest _ _ _ _ _ _ Hpart) as (c2 & Hc2 & Hq2).
  destruct (IH s2 c2 (b + 30000)) as (away & s' & taken & rest & Hrun' & Hpart' & Hl' & Hend); rewrite ?Hq2; [done|done|lia|done|lia|].
  rewrite Hq2 in Hpart'. eexists away, s', ((dropped ++ [(dl, t)]) ++ taken), rest. split; [done|].
  split; [by eapply part_app; [apply Hok|..]|]. split.
  - eapply Forall_impl; [exact Hl'|]. rewrite !length_app. cbn. lia.
  - rewrite (part_clock _ _ _ _ _ _ Hpart) in Hend. destruct away; [|done]. by eapply switched_app; [apply Hok|..].
Qed.

Lemma run_timers_ok self (s : sched) c b : cpus s !! self = Some c → queue_ok (cpus s) (timers s) (th_elems (timer_queue c)) →
  loads_below (cpus s) b → b + 30000 * Z.of_nat (length (th_elems (timer_queue c))) < 2 ^ 64 - 1 →
  ∃ away s' taken rest, run_timers self s = (Ok away, s') ∧ part self s s' (th_elems (timer_queue c)) taken rest ∧
    loads_below (cpus s') (b + 30000 * Z.of_nat (length taken)) ∧
    if away then switched_to self s s' taken else Forall (λ e, clock s < fst e) rest.
Proof. intros Hc Hok Hl Hb. unfold run_timers. rewrite get_cpu_run, Hc. apply timer_tick_ok; [done..|lia|done|done]. Qed.

(** The loop again and again, as long as it is left for a task that preempts. *)
Fixpoint resume (runs self : nat) : sm bool :=
  match runs with
  | O => mret true
  | S runs => away ← run_timers self; if away : bool then resume runs self else mret false
  end.

(** Entries that are not due need no firing. *)
Lemma all_fired_later (s s' : sched) l l' : Forall (λ e, clock s < fst e) l' → NoDup (snd <$> l ++ l') →
  all_fired s s' l → all_fired s s' (l ++ l').
Proof.
  intros Hl Hnd (Hf & Hk & Hst). split; [|split; [|done]].
  - intros d u z [Hd|Hd]%elem_of_app Hz Hle; [by apply (Hf d)|]. rewrite Forall_forall in Hl. specialize (Hl _ Hd). cbn in Hl. lia.
  - intros u Hu. apply Hk. intros d Hd. apply Hu. apply elem_of_app. by left.
Qed.
Lemma all_fired_perm (s s' : sched) l l' : l ≡ₚ l' → all_fired s s' l → all_fired s s' l'.
Proof.
  intros Hp (Hf & Hk & Hst). split; [|split; [|done]].
  - intros d u z Hd. rewrite <- Hp in Hd. by apply (Hf d).
  - intros u Hu. apply Hk. intros d Hd. rewrite Hp in Hd. by apply Hu.
Qed.

Lemma resume_ok runs self (s : sched) c b : cpus s !! self = Some c → queue_ok (cpus s) (timers s) (th_elems (timer_queue c)) →
  (length (th_elems (timer_queue c)) < runs)%nat → loads_below (cpus s) b →
  b + 30000 * Z.of_nat (length (th_elems (timer_queue c))) < 2 ^ 64 - 1 →
  ∃ s', resume runs self s = (Ok false, s') ∧ all_fired s s' (th_elems (timer_queue c)).
Proof.
  revert s c b. induction runs as [|runs IH]; intros s c b Hc Hok Hn Hl Hb; [lia|]. cbn [resume].
  destruct (run_timers_ok self s c b Hc Hok Hl Hb) as (away & s1 & taken & rest & Hrun & Hpart & Hl1 & Hend).
  rewrite (st_bind_ok _ _ _ _ _ Hrun). pose proof (part_split _ _ _ _ _ _ Hpart) as Hperm. destruct away.
  - pose proof (part_ok _ _ _ _ _ _ Hpart Hok) as Hok1. destruct (part_rest _ _ _ _ _ _ Hpart) as (c1 & Hc1 & Hq1).
    assert (Hne : (0 < length taken)%nat). { destruct Hend as (dl & t & _ & _ & _ & Hin & _). destruct taken; [by apply elem_of_nil in Hin|cbn; lia]. }
    pose proof (Permutation_length Hperm) as Hpl. rewrite length_app in Hpl.
    destruct (IH s1 c1 (b + 30000 * Z.of_nat (length taken))) as (s' & Hrun' & Hall); rewrite ?Hq1; [done|done|lia|done|lia|].
    exists s'. split; [done|]. rewrite Hq1 in Hall. eapply all_fired_perm; [by symmetry|].
    eapply all_fired_app; [|apply (part_clock _ _ _ _ _ _ Hpart)|apply (part_fired _ _ _ _ _ _ Hpart)|done]. rewrite <- Hperm. apply Hok.
  - exists s1. split; [done|]. eapply all_fired_perm; [by symmetry|]. apply all_fired_later; [done|rewrite <- Hperm; apply Hok|].
    apply (part_fired _ _ _ _ _ _ Hpart).
Qed.

(** C29: A tick of the timers of a processor returns, when the entries of its queue are
    different timers whose tasks may run on some processor and have room to be counted
    ([queue_ok]) and the loads cannot overflow. It takes some entries out of the queue: each timer of
    them that is due has fired once, and the task that waited for it is running or ready on
    a processor it may run on. All other timers are as before, and no task that was running or
    ready is lost. Either no timer that is due is left, or the processor was switched to
    a task whose timer fired; ticking it again whenever that happens, at most once for
    each timer, fires every timer that is due. *)
Theorem timers_fire self (s : sched) c b : cpus s !! self = Some c → queue_ok (cpus s) (timers s) (th_elems (timer_queue c)) →
  loads_below (cpus s) b → b + 30000 * Z.of_nat (length (th_elems (timer_queue c))) < 2 ^ 64 - 1 →
  (∃ away s' taken rest, run_timers self s = (Ok away, s') ∧ part self s s' (th_elems (timer_queue c)) taken rest ∧
    if away then switched_to self s s' taken else Forall (λ e, clock s < fst e) rest) ∧
  ∃ s', resume (S (length (th_elems (timer_queue c)))) self s = (Ok false, s') ∧ all_fired s s' (th_elems (timer_queue c)).
Proof.
  intros Hc Hok Hl Hb. split; [|eapply resume_ok; [done..| |done|done]; lia].
  destruct (run_timers_ok self s c b Hc Hok Hl Hb) as (away & s1 & taken & rest & Hrun & Hpart & _ & Hend). by exists away, s1, taken, rest.
Qed.
End timer.

Module TimerWitness.
#[local] Existing Instance debug_profile.
Definition sleeper (i run : Z) : Context := MkContext i User [true] 0 0 run.

(** At time 60: a timer that was cancelled, two that are due and one for later. The running
    task has run for longer than those that wait. *)
Definition queue : list (Z * nat) := [(40, 0%nat); (50, 1%nat); (55, 2%nat); (100, 3%nat)].
Definition asleep : sched (Q:=list) (H:=list (Z * nat)) :=
  MkSched [MkCpu [] (Some (MkReady (sleeper 9 5000000) 1 MIN_TIME_GRAN)) [] 30000 queue []]
    [MkTimer None 40 false; MkTimer (Some (CTask (sleeper 2 0))) 50 false; MkTimer (Some (CTask (sleeper 3 0))) 55 false;
     MkTimer (Some (CTask (sleeper 4 0))) 100 false] [] [] ∅ ∅ ∅ ∅ ∅ 0 1 [] 60.

Lemma timers_fire_witness :
  (∃ away s' taken rest, run_timers 0 asleep = (Ok away, s') ∧ part 0 asleep s' queue taken rest) ∧
  ∃ s', resume 5 0 asleep = (Ok false, s') ∧ all_fired asleep s' queue.
Proof.
  destruct (timers_fire 0 asleep _ 30000 eq_refl) as [(away & s1 & taken & rest & Hrun & Hpart & _) (s' & Hres & Hall)].
  - split; [apply (bool_decide_unpack _); reflexivity|]. intros dl t Ht. change ((dl, t) ∈ queue) in Ht. unfold queue in Ht.
    rewrite !elem_of_cons, elem_of_nil in Ht.
    assert (Haff : ∀ i, affinity_ok (cpus asleep) (sleeper i 0) ∧ runtime_ok (sleeper i 0)).
    { intros i. split; [|vm_compute; done]. split; [by exists 0%nat|]. intros [|j]; cbn; [lia|done]. }
    destruct Ht as [Ht | [Ht | [Ht | [Ht | []]]]]; injection Ht as -> ->; eexists; (split; [reflexivity|]); cbn; auto.
  - repeat constructor; cbn; lia.
  - cbn. lia.
  - split; [by exists away, s1, taken, rest|]. exists s'. auto.
Defined.

(** The first task that is woken preempts the running one: the second timer that is due
    fires only when the loop runs again. *)
Example leaves_the_loop : let '(r, s1) := run_timers 0 asleep in
  r = Ok true ∧ map fired (timers s1) = [false; true; false; false] ∧ map timer_queue (cpus s1) = [[(55, 2%nat); (100, 3%nat)]] ∧
  let '(r, s2) := run_timers 0 s1 in
  r = Ok false ∧ map fired (timers s2) = [false; true; true; false] ∧ map present (cpus s2) = [[9; 3; 2]].
Proof. by vm_compute. Qed.
End TimerWitness.
