(* ===== verification/Threads.v ===== *)
(** * Threads

    Programs of threads that share a state. A thread is at a point of its code; [step] gives
    what it can do there in one atomic action: nothing when it is blocked, several results when
    the code or its environment has a choice. Runs are any interleaving of such steps. *)

From S2P Require Import Base.
From stdpp Require Import relations.

(** ** Configurations *)

Record conf (G L : Type) := Conf { shared : G; threads : list L }.
Arguments Conf {G L} shared threads.
Arguments shared {G L} c.
Arguments threads {G L} c.

Section threads.
Context {G L : Type} (step : nat → G → L → list (G * L)).

Inductive cstep : conf G L → conf G L → Prop :=
  | cstep_thread i g ls l g' l' : ls !! i = Some l → (g', l') ∈ step i g l → cstep (Conf g ls) (Conf g' (<[i := l']> ls)).

Definition reach : conf G L → conf G L → Prop := rtc cstep.
Definition reach_in (n : nat) : conf G L → conf G L → Prop := nsteps cstep n.

(** Thread [i] takes the [k]-th of its choices, for each pair of the schedule. *)
Fixpoint run (sched : list (nat * nat)) (c : conf G L) : option (conf G L) :=
  match sched with
  | [] => Some c
  | (i, k) :: sched =>
      l ← threads c !! i;
      r ← step i (shared c) l !! k;
      run sched (Conf (fst r) (<[i := snd r]> (threads c)))
  end.

Lemma run_reach_in sched c c' : run sched c = Some c' → reach_in (length sched) c c'.
Proof.
  revert c. induction sched as [|[i k] sched IH]; intros [g ls] Hrun; cbn in Hrun; [by simplify_eq; apply nsteps_O|].
  destruct (ls !! i) as [l|] eqn:Hl; [|done]. cbn in Hrun. destruct (step i g l !! k) as [[g' l']|] eqn:Hs; [|done].
  eapply nsteps_l; [|by apply IH]. econstructor; [exact Hl|]. by eapply list_elem_of_lookup_2.
Qed.

Lemma run_reach sched c c' : run sched c = Some c' → reach c c'.
Proof. intros Hrun. eapply rtc_nsteps_2. by apply run_reach_in. Qed.

(** Rule induction, with what a step does spelled out. *)
Lemma reach_inv (I : G → list L → Prop) c c' :
  (∀ i g ls l g' l', I g ls → ls !! i = Some l → (g', l') ∈ step i g l → I g' (<[i := l']> ls)) →
  I (shared c) (threads c) → reach c c' → I (shared c') (threads c').
Proof. intros Hstep HI Hr. induction Hr as [|x y z Hxy _ IH]; [done|]. apply IH. destruct Hxy. cbn in *. eauto. Qed.

(** The same with the number of steps. *)
Lemma reach_in_inv (I : nat → G → list L → Prop) c c' n :
  (∀ k i g ls l g' l', I k g ls → ls !! i = Some l → (g', l') ∈ step i g l → I (S k) g' (<[i := l']> ls)) →
  I 0%nat (shared c) (threads c) → reach_in n c c' → I n (shared c') (threads c').
Proof.
  intros Hstep HI Hr. assert (Hgen : ∀ k, I k (shared c) (threads c) → I (n + k)%nat (shared c') (threads c')).
  { clear HI. unfold reach_in in Hr. induction Hr as [|n x y z Hxy _ IH]; [done|]. intros k HI. replace (S n + k)%nat with (n + S k)%nat by lia.
    apply IH. destruct Hxy. cbn in *. eauto. }
  specialize (Hgen 0%nat HI). by rewrite Nat.add_0_r in Hgen.
Qed.

Lemma reach_reach_in c c' : reach c c' → ∃ n, reach_in n c c'.
Proof. apply rtc_nsteps_1. Qed.
End threads.

(** ** How many threads are at a point *)

Section count.
Context {L : Type}.

Fixpoint count (p : L → bool) (ls : list L) : Z :=
  match ls with
  | [] => 0
  | l :: ls => (if p l then 1 else 0) + count p ls
  end.

Definition b2z (b : bool) : Z := if b then 1 else 0.

Lemma count_insert p ls i l l' : ls !! i = Some l → count p (<[i := l']> ls) = (count p ls - b2z (p l) + b2z (p l'))%Z.
Proof.
  revert i. induction ls as [|x ls IH]; intros [|i] Hi; cbn in Hi; [done..| |].
  - simplify_eq. cbn. unfold b2z. destruct (p l), (p l'); lia.
  - change (<[S i := l']> (x :: ls)) with (x :: <[i := l']> ls). cbn [count]. rewrite (IH i Hi). lia.
Qed.

Lemma count_nonneg p ls : (0 ≤ count p ls)%Z.
Proof. induction ls as [|x ls IH]; cbn; [lia|]. destruct (p x); lia. Qed.

Lemma count_le_length p ls : (count p ls ≤ Z.of_nat (length ls))%Z.
Proof. induction ls as [|x ls IH]; cbn [count length]; [lia|]. destruct (p x); lia. Qed.

Lemma count_lookup p ls i l : ls !! i = Some l → p l = true → (1 ≤ count p ls)%Z.
Proof.
  revert i. induction ls as [|x ls IH]; intros [|i] Hi Hp; cbn in Hi |- *; [done..| |].
  - simplify_eq. rewrite Hp. pose proof (count_nonneg p ls). lia.
  - specialize (IH i Hi Hp). destruct (p x); lia.
Qed.

Lemma count_two p ls i j l l' : i ≠ j → ls !! i = Some l → ls !! j = Some l' → p l = true → p l' = true → (2 ≤ count p ls)%Z.
Proof.
  intros Hne Hi Hj Hp Hp'. revert i j Hne Hi Hj. induction ls as [|x ls IH]; intros [|i] [|j] Hne Hi Hj; cbn in Hi, Hj |- *; try done.
  - simplify_eq. rewrite Hp. pose proof (count_lookup p ls j l' Hj Hp'). lia.
  - simplify_eq. rewrite Hp'. pose proof (count_lookup p ls i l Hi Hp). lia.
  - specialize (IH i j ltac:(congruence) Hi Hj). destruct (p x); lia.
Qed.

Lemma count_pos p ls : (0 < count p ls)%Z → ∃ i l, ls !! i = Some l ∧ p l = true.
Proof.
  induction ls as [|x ls IH]; cbn; [lia|]. destruct (p x) eqn:Hx; intros H.
  - by exists 0%nat, x.
  - destruct (IH ltac:(lia)) as (i & l & Hi & Hl). by exists (S i), l.
Qed.

Lemma count_zero p ls : count p ls = 0%Z ↔ ∀ i l, ls !! i = Some l → p l = false.
Proof.
  split.
  - intros H i l Hi. destruct (p l) eqn:Hp; [|done]. pose proof (count_lookup p ls i l Hi Hp). lia.
  - intros H. destruct (decide (0 < count p ls)%Z) as [Hlt|]; [|pose proof (count_nonneg p ls); lia].
    apply count_pos in Hlt as (i & l & Hi & Hl). by rewrite (H i l Hi) in Hl.
Qed.

Lemma count_replicate p n l : p l = false → count p (replicate n l) = 0%Z.
Proof. intros Hp. induction n as [|n IH]; cbn; [done|]. by rewrite Hp, IH. Qed.
End count.

(** What the threads have together. *)

Section total.
Context {L : Type} (w : L → Z) (Hw : ∀ l, (0 ≤ w l)%Z).

Fixpoint total (ls : list L) : Z := match ls with [] => 0 | l :: ls => w l + total ls end.

Lemma total_insert ls i l l' : ls !! i = Some l → total (<[i := l']> ls) = (total ls - w l + w l')%Z.
Proof using.
  revert i. induction ls as [|x ls IH]; intros [|i] Hi; cbn in Hi; [done..| |].
  - simplify_eq. cbn. lia.
  - change (<[S i := l']> (x :: ls)) with (x :: <[i := l']> ls). cbn [total]. rewrite (IH i Hi). lia.
Qed.

Lemma total_nonneg ls : (0 ≤ total ls)%Z.
Proof using Hw. induction ls as [|x ls IH]; cbn; [lia|]. specialize (Hw x). lia. Qed.

Lemma total_lookup ls i l : ls !! i = Some l → (w l ≤ total ls)%Z.
Proof using Hw.
  revert i. induction ls as [|x ls IH]; intros [|i] Hi; cbn in Hi |- *; [done..| |].
  - simplify_eq. pose proof (total_nonneg ls). lia.
  - specialize (IH i Hi). specialize (Hw x). lia.
Qed.

Lemma total_replicate n l : total (replicate n l) = (Z.of_nat n * w l)%Z.
Proof using. induction n as [|n IH]; cbn [replicate total]; [lia|]. rewrite IH. lia. Qed.
End total.

(** ** Some thread is at a point *)

Section some.
Context {L : Type}.

Definition some (p : nat → L → Prop) (ls : list L) : Prop := ∃ i l, ls !! i = Some l ∧ p i l.

Lemma some_here (p : nat → L → Prop) ls i l l' : ls !! i = Some l → p i l' → some p (<[i := l']> ls).
Proof. intros Hi Hp. exists i, l'. by rewrite list_lookup_insert_eq by (by eapply lookup_lt_Some). Qed.

(** It still is after a step of a thread, unless that thread was the one. *)
Lemma some_step (p q : nat → L → Prop) ls i l l' : ls !! i = Some l → some p ls → (∀ j x, p j x → q j x) → (p i l → q i l' ∨ some q (<[i := l']> ls)) →
  some q (<[i := l']> ls).
Proof.
  intros Hi (j & x & Hj & Hp) Hpq Hhere. destruct (decide (j = i)) as [-> | Hne].
  - simplify_eq. destruct (Hhere Hp) as [Hq|]; [by eapply some_here|done].
  - exists j, x. rewrite list_lookup_insert_ne by done. auto.
Qed.

Lemma every_step (p : nat → L → Prop) (ls : list L) i l' : (∀ j x, ls !! j = Some x → j ≠ i → p j x) → p i l' → ∀ j x, <[i := l']> ls !! j = Some x → p j x.
Proof.
  intros Hall Hi j x Hj. destruct (decide (j = i)) as [-> | Hne].
  - apply list_lookup_insert_Some in Hj as [(_ & -> & _)|[? _]]; done.
  - rewrite list_lookup_insert_ne in Hj by done. auto.
Qed.
End some.

(** ** Queues of threads that sleep *)

Section sleeping.
Context {L : Type}.

(** The threads in [q] are at the point [a]. *)
Definition sleeping (a : L) (q : list nat) (ls : list L) : Prop := NoDup q ∧ ∀ i, i ∈ q → ls !! i = Some a.

Lemma sleeping_nil a ls : sleeping a [] ls.
Proof. split; [apply NoDup_nil_2|]. intros i Hi. by apply elem_of_nil in Hi. Qed.
Lemma sleeping_out a q ls i l l' : sleeping a q ls → ls !! i = Some l → i ∉ q → sleeping a q (<[i := l']> ls).
Proof.
  intros [Hnd Hq] Hl Hi. split; [done|]. intros j Hj. rewrite list_lookup_insert_ne by (by intros ->). by apply Hq.
Qed.
Lemma sleeping_sub a q q' ls : sublist q' q → sleeping a q ls → sleeping a q' ls.
Proof. intros Hs [Hnd Hq]. split; [by eapply sublist_NoDup|]. intros i Hi. apply Hq. by eapply elem_of_sublist. Qed.
Lemma sleeping_in a q ls i l : sleeping a q ls → ls !! i = Some l → i ∉ q → sleeping a (q ++ [i]) (<[i := a]> ls).
Proof.
  intros [Hnd Hq] Hl Hi. split; [apply NoDup_app; split; [done|]; split; [set_solver|apply NoDup_singleton]|].
  intros j Hj. destruct (decide (j = i)) as [-> | Hne].
  - apply list_lookup_insert_eq. by eapply lookup_lt_Some.
  - rewrite list_lookup_insert_ne by done. apply Hq. set_solver.
Qed.
Lemma sublist_tail (q : list nat) : sublist (tail q) q.
Proof. destruct q; [done|]. by apply sublist_cons. Qed.
End sleeping.

(** The cases of a step: [H] says that the result is one of a list. *)
Ltac step_cases H :=
  repeat match type of H with
  | context [if ?b then _ else _] => let E := fresh "E" in destruct b eqn:E; cbn in H
  | context [match ?x with _ => _ end] => let E := fresh "E" in destruct x eqn:E; cbn in H
  end;
  rewrite ?elem_of_cons, ?elem_of_nil in H;
  repeat match type of H with
  | _ ∨ _ => destruct H as [H|H]
  | False => destruct H
  | (_, _) = (_, _) => injection H as -> ->
  end.
