(* ===== verification/Locks.v ===== *)
(** * Mutexes, condition variables and parking ([h2o_std/core/src/sync/imp.rs])

    [RawMutex], [RawCondvar] and [Parker] are words that threads change atomically and futexes
    of the kernel on these words. Each function is cut at its atomic accesses; a thread is at
    one of the points in between. A futex is the queue of the threads that sleep on it: the
    kernel compares the word and puts the thread to the queue under the lock of the table of
    futexes, which [futex_wake] takes as well ([Space::futex]), so that this is one step. A
    thread that sleeps goes on when it is in the queue no longer. *)

From S2P Require Import Base Threads.
Local Open Scope Z_scope.

(** ** [futex_wake] of the kernel, with a number of threads to wake that is not zero *)

Definition wake_one (q : list nat) : list nat := tail q.
Definition wake_all (q : list nat) : list nat := [].

(** ** Mutexes and condition variables

    Threads lock and unlock one mutex and use one condition variable with it. *)

Module Mutex.

Record state := State {
  futex : Z;             (* the word of [RawMutex] *)
  queue : list nat;      (* threads that sleep on it *)
  seq : Z;               (* the word of [RawCondvar] *)
  cv_queue : list nat;   (* threads that sleep on it *)
}.

Definition with_futex (g : state) (x : Z) : state := State x (queue g) (seq g) (cv_queue g).
Definition with_queue (g : state) (x : list nat) : state := State (futex g) x (seq g) (cv_queue g).
Definition with_seq (g : state) (x : Z) : state := State (futex g) (queue g) x (cv_queue g).
Definition with_cv (g : state) (x : list nat) : state := State (futex g) (queue g) (seq g) x.

Definition new : state := State 0 [] 0 [].

(** What a thread does after [unlock]. *)
Inductive after :=
  | Return
  | CvWait (value : Z) (forever : bool).

Inductive point :=
  | Out                              (* does not hold the mutex *)
  | Lock                             (* [lock]: at [try_lock] *)
  | Spin (first : bool)              (* [spin], called for the first time or in the loop *)
  | Contended                        (* [lock_contended]: at [compare_exchange] *)
  | Loop (s : Z)                     (* at the top of the loop, with [state] *)
  | FutexWait                        (* at [futex_wait] *)
  | Asleep
  | Held                             (* holds the mutex *)
  | Unlock (k : after)               (* [unlock]: at [swap] *)
  | Wake (k : after)                 (* at [futex_wake] *)
  | CvLoad (forever : bool)          (* [RawCondvar::wait]: at [load] *)
  | CvFutexWait (value : Z) (forever : bool)
  | CvAsleep (forever : bool)
  | Notify (all held : bool)         (* [notify_one] or [notify_all]: at [fetch_add] *)
  | CvWake (all held : bool).        (* at [futex_wake] or [futex_wake_all] *)

#[export] Instance after_eq_dec : EqDecision after.
Proof. solve_decision. Defined.
#[export] Instance point_eq_dec : EqDecision point.
Proof. solve_decision. Defined.

(** [compare_exchange(0, 1)]. *)
Definition try_lock (g : state) : bool * state := if futex g =? 0 then (true, with_futex g 1) else (false, g).

(** [spin] returned [s]. *)
Definition spun (first : bool) (s : Z) : point := if first then if s =? 0 then Contended else Loop s else Loop s.

(** [spin] reads the word until it is not 1, or until the backoff is completed. *)
Definition spin (first : bool) (g : state) : list (state * point) :=
  if futex g =? 1 then [(g, Spin first); (g, spun first (futex g))] else [(g, spun first (futex g))].

(** [lock] and [lock_contended]. *)
Definition lock (i : nat) (g : state) (l : point) : list (state * point) :=
  match l with
  | Lock => let '(b, g') := try_lock g in [(g', if b then Held else Spin true)]
  | Spin first => spin first g
  | Contended => let '(b, g') := try_lock g in [(g', if b then Held else Loop (futex g))]
  | Loop s =>
      if s =? 2 then [(g, FutexWait)]
      else [(with_futex g 2, if futex g =? 0 then Held else FutexWait)]
  | FutexWait =>
      (* the kernel refuses when it has no memory, or the word has changed *)
      (g, Spin false) :: if futex g =? 2 then [(with_queue g (queue g ++ [i]), Asleep)] else []
  | Asleep => if bool_decide (i ∈ queue g) then [] else [(g, Spin false)]
  | _ => []
  end.

Definition unlocked (k : after) : point :=
  match k with Return => Out | CvWait value forever => CvFutexWait value forever end.

(** [unlock]. *)
Definition unlock (g : state) (l : point) : list (state * point) :=
  match l with
  | Unlock k => [(with_futex g 0, if futex g =? 2 then Wake k else unlocked k)]
  | Wake k => [(with_queue g (wake_one (queue g)), unlocked k)]
  | _ => []
  end.

(** [RawCondvar::wait]; the thread locks the mutex again at the end. *)
Definition cv_wait (i : nat) (g : state) (l : point) : list (state * point) :=
  match l with
  | CvLoad forever => [(g, Unlock (CvWait (seq g) forever))]
  | CvFutexWait value forever =>
      (g, Lock) :: if seq g =? value then [(with_cv g (cv_queue g ++ [i]), CvAsleep forever)] else []
  | CvAsleep forever =>
      if bool_decide (i ∈ cv_queue g) then
        (* the timeout *)
        if forever then [] else [(with_cv g (filter (λ j, j ≠ i) (cv_queue g)), Lock)]
      else [(g, Lock)]
  | _ => []
  end.

(** [notify_one] and [notify_all], by a thread that holds the mutex or does not. *)
Definition notify (g : state) (l : point) : list (state * point) :=
  match l with
  | Notify all held => [(with_seq g (wrap W (seq g + 1)), CvWake all held)]
  | CvWake all held =>
      [(with_cv g (if all then wake_all (cv_queue g) else wake_one (cv_queue g)), if held then Held else Out)]
  | _ => []
  end.

(** What the program that uses the mutex may call. *)
Definition calls (g : state) (l : point) : list (state * point) :=
  match l with
  | Out => (g, Lock) :: (let '(b, g') := try_lock g in (g', if b then Held else Out)) :: [(g, Notify true false); (g, Notify false false)]
  | Held => [(g, Unlock Return); (g, CvLoad true); (g, CvLoad false); (g, Notify true true); (g, Notify false true)]
  | _ => []
  end.

Definition step (i : nat) (g : state) (l : point) : list (state * point) :=
  lock i g l ++ unlock g l ++ cv_wait i g l ++ notify g l ++ calls g l.

(** [n] threads that share a new mutex. *)
Definition start (n : nat) : conf state point := Conf new (replicate n Out).
End Mutex.

(** ** Parking: thread 0 parks, every thread unparks it *)

Module Parker.

Definition EMPTY : Z := 0.
Definition PARKED : Z := 2 ^ 64 - 1.
Definition NOTIFIED : Z := 1.

Record state := State { futex : Z; queue : list nat }.
Definition new : state := State EMPTY [].

Inductive point :=
  | Idle
  | Park (timed : bool)            (* [park] or [park_timeout]: at [fetch_sub] *)
  | FutexWait (timed : bool)       (* at [futex_wait] *)
  | Asleep (timed : bool)
  | Woken                          (* [park]: at [compare_exchange] in the loop *)
  | Expired                        (* [park_timeout]: at [swap] *)
  | Unpark                         (* [unpark]: at [swap] *)
  | Wake                           (* at [futex_wake] *)
  | Parked (notified : bool).      (* [park] or [park_timeout] returned *)

Definition waited (timed : bool) : point := if timed then Expired else Woken.

(** [park] and [park_timeout]. *)
Definition park (i : nat) (g : state) (l : point) : list (state * point) :=
  match l with
  | Park timed => [(State (wrap W (futex g - 1)) (queue g), if futex g =? NOTIFIED then Parked true else FutexWait timed)]
  | FutexWait timed => (g, waited timed) :: if futex g =? PARKED then [(State (futex g) (queue g ++ [i]), Asleep timed)] else []
  | Asleep timed =>
      if bool_decide (i ∈ queue g) then if timed then [(State (futex g) (filter (λ j, j ≠ i) (queue g)), Expired)] else []
      else [(g, waited timed)]
  | Woken => if futex g =? NOTIFIED then [(State EMPTY (queue g), Parked true)] else [(g, FutexWait false)]
  | Expired => [(State EMPTY (queue g), Parked (futex g =? NOTIFIED))]
  | _ => []
  end.

Definition unpark (g : state) (l : point) : list (state * point) :=
  match l with
  | Unpark => [(State NOTIFIED (queue g), if futex g =? PARKED then Wake else Idle)]
  | Wake => [(State (futex g) (wake_one (queue g)), Idle)]
  | _ => []
  end.

(** Only the owner parks. *)
Definition calls (i : nat) (g : state) (l : point) : list (state * point) :=
  match l with
  | Idle | Parked _ => (g, Unpark) :: if bool_decide (i = 0%nat) then [(g, Park true); (g, Park false)] else []
  | _ => []
  end.

Definition step (i : nat) (g : state) (l : point) : list (state * point) := park i g l ++ unpark g l ++ calls i g l.

Definition start (n : nat) : conf state point := Conf new (replicate n Idle).
End Parker.

(** ** Mutexes exclude, and no wakeup is lost

    Invariants of [Locks] over all interleavings of any number of threads. *)

Module MutexSpec.
Import Mutex.

(** ** Who holds the mutex *)

Definition holds (l : point) : bool :=
  match l with
  | Held | Unlock _ | CvLoad _ => true
  | Notify _ held | CvWake _ held => held
  | _ => false
  end.

Definition excl (g : state) (ls : list point) : Prop :=
  (futex g = 0 ∧ count holds ls = 0) ∨ ((futex g = 1 ∨ futex g = 2) ∧ count holds ls = 1).

Lemma excl_step i g ls l g' l' : excl g ls → ls !! i = Some l → (g', l') ∈ step i g l → excl g' (<[i := l']> ls).
Proof.
  intros He Hl Hs. unfold excl in *. rewrite (count_insert _ _ _ _ _ Hl).
  assert (Hhold : holds l = true → count holds ls = 1).
  { intros Hh. pose proof (count_lookup _ _ _ _ Hl Hh). lia. }
  unfold step, lock, unlock, cv_wait, notify, calls, spin, spun, try_lock, unlocked in Hs.
  destruct l; cbn in Hs, Hhold; step_cases Hs; cbn in *; unfold b2z; try (specialize (Hhold eq_refl)); lia.
Qed.

(** ** The queue of the mutex *)

Lemma awake i g ls l g' l' : sleeping Asleep (queue g) ls → ls !! i = Some l → (g', l') ∈ step i g l → i ∉ queue g.
Proof.
  intros [_ Hq] Hl Hs Hi. specialize (Hq _ Hi). rewrite Hq in Hl. injection Hl as <-. cbn in Hs. rewrite bool_decide_true in Hs by done. by apply elem_of_nil in Hs.
Qed.

Lemma sleeping_step i g ls l g' l' : sleeping Asleep (queue g) ls → ls !! i = Some l → (g', l') ∈ step i g l → sleeping Asleep (queue g') (<[i := l']> ls).
Proof.
  intros Hq Hl Hs. pose proof (awake _ _ _ _ _ _ Hq Hl Hs) as Hi.
  unfold step, lock, unlock, cv_wait, notify, calls, spin, spun, try_lock, unlocked in Hs.
  destruct l; cbn in Hs; step_cases Hs; cbn; try (by eapply sleeping_out); try (by eapply sleeping_in);
    (eapply sleeping_sub; [apply sublist_tail|]; by eapply sleeping_out).
Qed.

(** ** Somebody will see that threads sleep

    A thread that will make the word 2, or wake a thread that will. *)

Definition eager (q : list nat) (i : nat) (l : point) : Prop :=
  match l with
  | Wake _ | Spin false | Loop _ | FutexWait => True
  | Asleep => i ∉ q
  | _ => False
  end.

Definition noticed (g : state) (ls : list point) : Prop := queue g ≠ [] → futex g = 2 ∨ some (eager (queue g)) ls.

Lemma eager_sub q q' i l : q' ⊆ q → eager q i l → eager q' i l.
Proof. destruct l as [| |[]| | | | | | | | | | | |]; cbn; set_solver. Qed.

(** The thread that [futex_wake] takes from the queue. *)
Lemma eager_woken q ls i l' : sleeping Asleep q ls → i ∉ q → q ≠ [] → some (eager (wake_one q)) (<[i := l']> ls).
Proof.
  intros [Hnd Hq] Hi Hne. destruct q as [|h q]; [done|]. apply NoDup_cons in Hnd as [Hh _].
  exists h, Asleep. rewrite list_lookup_insert_ne by set_solver. split; [apply Hq; by left|done].
Qed.

Lemma noticed_step i g ls l g' l' : sleeping Asleep (queue g) ls → noticed g ls → ls !! i = Some l → (g', l') ∈ step i g l → noticed g' (<[i := l']> ls).
Proof.
  intros Hq Hn Hl Hs. pose proof (awake _ _ _ _ _ _ Hq Hl Hs) as Hi.
  assert (Hkeep : futex g' = 2 ∨ futex g' = futex g ∨ futex g ≠ 2 → queue g' = queue g → (eager (queue g) i l → eager (queue g) i l' ∨ futex g' = 2) → noticed g' (<[i := l']> ls)).
  { intros Hf Heq Hee Hne. rewrite Heq in *. destruct (decide (futex g' = 2)) as [|Hf']; [by left|]. destruct (Hn Hne) as [H2|Hsome]; [lia|].
    right. eapply some_step; [done|exact Hsome|done|]. intros He. destruct (Hee He); [by left|done]. }
  unfold step, lock, unlock, cv_wait, notify, calls, spin, spun, try_lock, unlocked in Hs.
  destruct l; cbn in Hs; step_cases Hs; try (apply Hkeep; cbn in *; lia || tauto); intros Hne; cbn in *.
  - left. lia.
  - right. by eapply some_here.
  - right. apply eager_woken; [done..|]. intros H0. by rewrite H0 in Hne.
  - right. apply eager_woken; [done..|]. intros H0. by rewrite H0 in Hne.
Qed.

Definition inv (g : state) (ls : list point) : Prop := excl g ls ∧ sleeping Asleep (queue g) ls ∧ noticed g ls.

Lemma mutex_step i g ls l g' l' : inv g ls → ls !! i = Some l → (g', l') ∈ step i g l → inv g' (<[i := l']> ls).
Proof.
  intros (He & Hq & Hn) Hl Hs. split; [by eapply excl_step|]. split; [by eapply sleeping_step|by eapply noticed_step].
Qed.

Lemma mutex_reach n c : reach step (start n) c → inv (shared c) (threads c).
Proof.
  apply (reach_inv step inv); [apply mutex_step|]. split; [left; split; [done|by apply count_replicate]|].
  split; [apply sleeping_nil|]. intros Hne. by destruct Hne.
Qed.

(** A thread has a next step unless it sleeps. *)
Lemma mutex_can_step i g l : step i g l = [] → (l = Asleep ∧ i ∈ queue g) ∨ (∃ forever, l = CvAsleep forever ∧ i ∈ cv_queue g).
Proof.
  unfold step, lock, unlock, cv_wait, notify, calls, spin, spun, try_lock, unlocked. intros H.
  destruct l; cbn in H; repeat case_match; cbn in H; try done; case_bool_decide; try done; eauto.
Qed.

(** C37: At most one thread holds the mutex, and its word is 0 exactly when none does, whatever
    threads lock it, try to, wait on a condition variable with it or notify it, in any
    interleaving. *)
Theorem mutex_exclusion n c : reach step (start n) c →
  count holds (threads c) ≤ 1 ∧ (futex (shared c) = 0 ↔ count holds (threads c) = 0).
Proof. intros [He _]%mutex_reach. unfold excl in He. lia. Qed.

(** C40: When a thread sleeps on the mutex, another one holds it or is about to lock it or to wake
    a thread, and is not blocked: not all threads that use the mutex sleep on it. *)
Theorem mutex_no_lost_wakeup n c i : reach step (start n) c → i ∈ queue (shared c) →
  ∃ j l, threads c !! j = Some l ∧ (holds l = true ∨ eager (queue (shared c)) j l) ∧ step j (shared c) l ≠ [].
Proof.
  intros (He & Hq & Hn)%mutex_reach Hi. assert (Hne : queue (shared c) ≠ []) by (intros Hnil; rewrite Hnil in Hi; set_solver).
  assert (Hj : ∃ j l, threads c !! j = Some l ∧ (holds l = true ∨ eager (queue (shared c)) j l)).
  { destruct (Hn Hne) as [H2|(j & l & Hj & Hl)]; [|by eauto]. destruct He as [|[_ Hc]]; [lia|].
    destruct (count_pos holds (threads c)) as (j & l & Hj & Hl); [lia|]. eauto. }
  destruct Hj as (j & l & Hj & Hl). exists j, l. split; [done|]. split; [done|]. intros Hb.
  apply mutex_can_step in Hb as [[-> Hin]|(forever & -> & Hin)]; destruct Hl as [Hl|Hl]; cbn in Hl; done.
Qed.
End MutexSpec.

Module ParkerSpec.
Import Parker.

(** ** The word of a parker says what its owner does *)

Definition waits (l : point) : bool := match l with FutexWait _ | Asleep _ | Woken | Expired => true | _ => false end.
Definition parks (l : point) : bool := match l with Park _ => true | _ => waits l end.

Record inv (g : state) (ls : list point) : Prop := Inv {
  inv_owner i l : ls !! i = Some l → parks l = true → i = 0%nat;
  inv_word : futex g = NOTIFIED ∨ futex g = if from_option waits false (ls !! 0%nat) then PARKED else EMPTY;
  inv_queue : queue g = [] ∨ (queue g = [0%nat] ∧ ∃ t, ls !! 0%nat = Some (Asleep t));
  inv_wake : queue g ≠ [] → futex g = PARKED ∨ some (λ _ l, l = Wake) ls;
}.

Lemma owner_step i g ls l g' l' : inv g ls → ls !! i = Some l → (g', l') ∈ step i g l → parks l' = true → i = 0%nat.
Proof.
  intros [Ho _ _ _] Hl Hs Hp. specialize (Ho i l Hl). unfold step, park, unpark, calls, waited in Hs.
  destruct l; cbn in Hs; try (apply Ho; reflexivity); try case_bool_decide; step_cases Hs; done.
Qed.

(** The owner sleeps: it goes on only when its time is over. *)
Lemma timed_out g (ls : list point) l g' l' : queue g = [0%nat] → (∃ t, ls !! 0%nat = Some (Asleep t)) → ls !! 0%nat = Some l → (g', l') ∈ step 0 g l → queue g' = [].
Proof.
  intros Hq [t Ht] Hl Hs. rewrite Ht in Hl. injection Hl as <-. unfold step in Hs. cbn in Hs.
  rewrite Hq, bool_decide_true in Hs by set_solver. destruct t; cbn in Hs; [|by apply elem_of_nil in Hs].
  apply list_elem_of_singleton in Hs. injection Hs as -> _. reflexivity.
Qed.

Lemma parker_step i g ls l g' l' : inv g ls → ls !! i = Some l → (g', l') ∈ step i g l → inv g' (<[i := l']> ls).
Proof.
  intros HI Hl Hs. pose proof (owner_step _ _ _ _ _ _ HI Hl Hs) as Hown. destruct HI as [Ho Hw Hq Hwk].
  assert (Hlen : (i < length ls)%nat) by (by eapply lookup_lt_Some).
  split.
  - apply (every_step (λ i l, parks l = true → i = 0%nat)); [|done]. eauto.
  - destruct (decide (i = 0%nat)) as [-> | Hne].
    + rewrite list_lookup_insert_eq by done. rewrite Hl in Hw. unfold step, park, unpark, calls, waited in Hs.
      destruct l; cbn in Hs, Hw; step_cases Hs; cbn; unfold NOTIFIED, EMPTY, PARKED in *; rewrite ?Z.eqb_eq, ?Z.eqb_neq in *; try lia.
      * right. by replace (futex g) with 1 by lia.
      * right. by replace (futex g) with 0 by lia.
    + rewrite list_lookup_insert_ne by done. pose proof (Ho i l Hl) as Hn. unfold step, park, unpark, calls, waited in Hs.
      destruct l; cbn in Hs, Hn; try (by specialize (Hn eq_refl)); step_cases Hs; cbn; auto.
  - destruct (decide (i = 0%nat)) as [-> | Hne].
    + rewrite list_lookup_insert_eq by done. destruct Hq as [Hq|[Hq Ht]]; [|left; by eapply timed_out].
      unfold step, park, unpark, calls, waited in Hs. destruct l; cbn in Hs; rewrite ?Hq in Hs; cbn in Hs; step_cases Hs; cbn; rewrite ?Hq; eauto.
    + rewrite list_lookup_insert_ne by done. pose proof (Ho i l Hl) as Hn. unfold step, park, unpark, calls, waited in Hs.
      destruct l; cbn in Hs, Hn; try (by specialize (Hn eq_refl)); step_cases Hs; cbn; try done. left. by destruct Hq as [-> | [-> _]].
  - intros Hne. destruct (decide (i = 0%nat)) as [-> | Hi].
    + destruct Hq as [Hq|[Hq Ht]]; [|by rewrite (timed_out _ _ _ _ _ Hq Ht Hl Hs) in Hne]. unfold step, park, unpark, calls, waited in Hs.
      destruct l; cbn in Hs; step_cases Hs; cbn in *; rewrite ?Hq in Hne; try done; left; lia.
    + assert (Hkeep : futex g' = futex g ∨ futex g ≠ PARKED → queue g' = queue g → l ≠ Wake → futex g' = PARKED ∨ some (λ _ l, l = Wake) (<[i := l']> ls)).
      { intros Hf Heq Hnw. rewrite Heq in Hne. destruct (Hwk Hne) as [Hp|Hsome]; [destruct Hf; [left; congruence|tauto]|].
        right. eapply some_step; [done|exact Hsome|done|done]. }
      pose proof (Ho i l Hl) as Hn. unfold step, park, unpark, calls, waited in Hs.
      destruct l; cbn in Hs, Hn; try (by specialize (Hn eq_refl)); step_cases Hs; cbn in *; try (by apply Hkeep; auto).
      * right. by eapply some_here.
      * apply Hkeep; [right; lia|done..].
      * destruct Hq as [Hq|[Hq _]]; by rewrite Hq in Hne.
Qed.

Lemma parker_reach n c : reach step (start n) c → inv (shared c) (threads c).
Proof.
  apply (reach_inv step inv); [apply parker_step|]. split; cbn.
  - intros i l [-> _]%lookup_replicate Hp. done.
  - right. by destruct n.
  - by left.
  - done.
Qed.

(** A thread that parks without a timeout sleeps only while it was not unparked: once it was,
    it is awake, or the thread that unparked it is about to wake it, and does. *)
Theorem parker_no_lost_wakeup n c : reach step (start n) c → 0%nat ∈ queue (shared c) → futex (shared c) ≠ PARKED →
  futex (shared c) = NOTIFIED ∧
  ∃ j, threads c !! j = Some Wake ∧ ∀ g' l', (g', l') ∈ step j (shared c) Wake → 0%nat ∉ queue g'.
Proof.
  intros [Ho Hw Hq Hwk]%parker_reach Hin Hf. assert (Hne : queue (shared c) ≠ []) by (intros H0; rewrite H0 in Hin; set_solver).
  split.
  - destruct Hw as [|Hw]; [done|]. destruct Hq as [|[_ [t Ht]]]; [done|]. rewrite Ht in Hw. cbn in Hw. done.
  - destruct (Hwk Hne) as [|(j & l & Hj & ->)]; [done|]. exists j. split; [done|]. intros g' l' Hs. unfold step in Hs. cbn in Hs.
    apply list_elem_of_singleton in Hs. injection Hs as -> _. cbn. destruct Hq as [-> | [-> _]]; cbn; set_solver.
Qed.
End ParkerSpec.

(** ** Runs *)

Module LockWitness.

(** Thread 0 locks, thread 1 sleeps. *)
Definition lock_twice : list (nat * nat) := [(0, 0); (0, 0); (1, 0); (1, 0); (1, 1); (1, 0); (1, 1)]%nat.
Definition contended : conf Mutex.state Mutex.point :=
  default (Mutex.start 0) (run Mutex.step lock_twice (Mutex.start 2)).

Lemma contended_reach : reach Mutex.step (Mutex.start 2) contended.
Proof. apply (run_reach _ lock_twice). reflexivity. Qed.

Lemma mutex_exclusion_witness : Mutex.futex (shared contended) = 2 ∧ count MutexSpec.holds (threads contended) ≤ 1.
Proof. split; [reflexivity|]. exact (proj1 (MutexSpec.mutex_exclusion 2 contended contended_reach)). Defined.

Lemma mutex_no_lost_wakeup_witness : ∃ j l, threads contended !! j = Some l ∧
  (MutexSpec.holds l = true ∨ MutexSpec.eager (Mutex.queue (shared contended)) j l) ∧ Mutex.step j (shared contended) l ≠ [].
Proof.
  apply (MutexSpec.mutex_no_lost_wakeup 2 contended 1); [exact contended_reach|].
  change (Mutex.queue (shared contended)) with [1%nat]. by left.
Defined.

(** Thread 0 sleeps, thread 1 has unparked it and is about to wake it. *)
Definition park_unpark : list (nat * nat) := [(0, 2); (0, 0); (0, 1); (1, 0); (1, 0)]%nat.
Definition unparked : conf Parker.state Parker.point :=
  default (Parker.start 0) (run Parker.step park_unpark (Parker.start 2)).

Lemma unparked_reach : reach Parker.step (Parker.start 2) unparked.
Proof. apply (run_reach _ park_unpark). reflexivity. Qed.

Lemma parker_no_lost_wakeup_witness : Parker.futex (shared unparked) = Parker.NOTIFIED ∧
  ∃ j, threads unparked !! j = Some Parker.Wake ∧ ∀ g' l', (g', l') ∈ Parker.step j (shared unparked) Parker.Wake → 0%nat ∉ Parker.queue g'.
Proof.
  apply (ParkerSpec.parker_no_lost_wakeup 2 unparked unparked_reach); [|by vm_compute].
  change (Parker.queue (shared unparked)) with [0%nat]. by left.
Defined.
End LockWitness.
