(* ===== verification/RwLock.v ===== *)
(** * Readers-writer locks ([RawRwLock] of [h2o_std/core/src/sync/imp.rs])

    One word holds the number of readers, or that a writer has the lock, and two bits that say
    that readers or writers wait; a second word counts the notifications of writers. The
    functions are cut at their atomic accesses as in [Locks]. A weak exchange may fail even
    though the word is the expected one. A failed assertion leads to [Panicked]. *)

From S2P Require Import Base Threads Locks.
Local Open Scope Z_scope.

Definition READ_LOCKED : Z := 1.
Definition MASK : Z := 2 ^ 30 - 1.
Definition WRITE_LOCKED : Z := MASK.
Definition MAX_READERS : Z := MASK - 1.
Definition READERS_WAITING : Z := 2 ^ 30.
Definition WRITERS_WAITING : Z := 2 ^ 31.

Definition is_unlocked (s : Z) : bool := Z.land s MASK =? 0.
Definition is_write_locked (s : Z) : bool := Z.land s MASK =? WRITE_LOCKED.
Definition has_readers_waiting (s : Z) : bool := negb (Z.land s READERS_WAITING =? 0).
Definition has_writers_waiting (s : Z) : bool := negb (Z.land s WRITERS_WAITING =? 0).
Definition is_read_lockable (s : Z) : bool :=
  (Z.land s MASK <? MAX_READERS) && negb (has_readers_waiting s) && negb (has_writers_waiting s).
Definition has_reached_max_readers (s : Z) : bool := Z.land s MASK =? MAX_READERS.

Record rwlock := RwLock {
  word : Z;            (* [state] *)
  notify : Z;          (* [writer_notify] *)
  readers : list nat;  (* threads that sleep on [state] *)
  writers : list nat;  (* threads that sleep on [writer_notify] *)
}.
Definition with_word (g : rwlock) (x : Z) : rwlock := RwLock x (notify g) (readers g) (writers g).
Definition with_notify (g : rwlock) (x : Z) : rwlock := RwLock (word g) x (readers g) (writers g).
Definition with_readers (g : rwlock) (x : list nat) : rwlock := RwLock (word g) (notify g) x (writers g).
Definition with_writers (g : rwlock) (x : list nat) : rwlock := RwLock (word g) (notify g) (readers g) x.

Definition new : rwlock := RwLock 0 0 [] [].

Inductive point :=
  | Out
  | TryRead | TryReadCas (s : Z)     (* [try_read]: in [fetch_update] *)
  | Read | ReadCas (s : Z)           (* [read] *)
  | RSpin                            (* [read_contended]: [spin_read] *)
  | RCas (s : Z)                     (* at the exchange that locks *)
  | RSet (s : Z)                     (* at the exchange that sets the bit *)
  | RFutexWait (s : Z)
  | RAsleep
  | Reading                          (* has the lock *)
  | ReadUnlock
  | TryWrite | TryWriteCas (s : Z)   (* [try_write] *)
  | Write                            (* [write] *)
  | WSpin (other : Z)                (* [write_contended]: [spin_write], with [other_writers_waiting] *)
  | WCas (other s : Z)
  | WSet (other s : Z)
  | WSeq                             (* at the load of [writer_notify] *)
  | WCheck (seq : Z)                 (* at the load of [state] after it *)
  | WFutexWait (seq : Z)
  | WAsleep
  | Writing
  | WriteUnlock
  | WakeW                            (* [wake_writer_or_readers]: only writers wait *)
  | WakeB                            (* both wait *)
  | WakeR                            (* only readers wait *)
  | NotifyAdd (both : bool)          (* [wake_writer]: at [fetch_add] *)
  | NotifyWake (both : bool)         (* at [futex_wake] *)
  | WakeAll                          (* at [futex_wake_all] *)
  | Panicked.

#[export] Instance point_eq_dec : EqDecision point.
Proof. solve_decision. Defined.

(** [compare_exchange(s, x)]: the points after success and, with the word found, after failure. *)
Definition cas (g : rwlock) (s x : Z) (ok : point) (err : Z → point) : list (rwlock * point) :=
  if word g =? s then [(with_word g x, ok)] else [(g, err (word g))].
Definition cas_weak (g : rwlock) (s x : Z) (ok : point) (err : Z → point) : list (rwlock * point) :=
  (g, err (word g)) :: if word g =? s then [(with_word g x, ok)] else [].

(** [spin_until]. *)
Definition spin_until (f : Z → bool) (g : rwlock) (again : point) (k : Z → point) : list (rwlock * point) :=
  (g, k (word g)) :: if f (word g) then [] else [(g, again)].
Definition spin_write := spin_until (λ s, is_unlocked s || has_writers_waiting s).
Definition spin_read := spin_until (λ s, negb (is_write_locked s) || has_readers_waiting s || has_writers_waiting s).

(** ** Reading *)

Definition try_read_next (s : Z) : point := if is_read_lockable s then TryReadCas s else Out.
Definition try_read (g : rwlock) (l : point) : list (rwlock * point) :=
  match l with
  | TryRead => [(g, try_read_next (word g))]
  | TryReadCas s => cas_weak g s (s + READ_LOCKED) Reading try_read_next
  | _ => []
  end.

Definition read (g : rwlock) (l : point) : list (rwlock * point) :=
  match l with
  | Read => [(g, if is_read_lockable (word g) then ReadCas (word g) else RSpin)]
  | ReadCas s => cas_weak g s (s + READ_LOCKED) Reading (λ _, RSpin)
  | _ => []
  end.

(** The top of the loop of [read_contended]. *)
Definition read_next (s : Z) : point :=
  if is_read_lockable s then RCas s
  else if has_reached_max_readers s then Panicked
  else if negb (has_readers_waiting s) then RSet s
  else RFutexWait s.

Definition read_contended (i : nat) (g : rwlock) (l : point) : list (rwlock * point) :=
  match l with
  | RSpin => spin_read g RSpin read_next
  | RCas s => cas_weak g s (s + READ_LOCKED) Reading read_next
  | RSet s => cas g s (Z.lor s READERS_WAITING) (RFutexWait s) read_next
  | RFutexWait s =>
      (g, RSpin) :: if word g =? Z.lor s READERS_WAITING then [(with_readers g (readers g ++ [i]), RAsleep)] else []
  | RAsleep => if bool_decide (i ∈ readers g) then [] else [(g, RSpin)]
  | _ => []
  end.

(** ** Waking *)

Definition wake_readers_if (s : Z) : point := if s =? READERS_WAITING then WakeR else Out.
Definition wake_both_if (s : Z) : point := if s =? READERS_WAITING + WRITERS_WAITING then WakeB else wake_readers_if s.
Definition wake_start (s : Z) : point :=
  if is_unlocked s then if s =? WRITERS_WAITING then WakeW else wake_both_if s else Panicked.

Definition wake_writer (g : rwlock) (l : point) : list (rwlock * point) :=
  match l with
  | NotifyAdd both => [(with_notify g (wrap W (notify g + 1)), NotifyWake both)]
  | NotifyWake both =>
      [(with_writers g (wake_one (writers g)),
        if both then match writers g with [] => wake_readers_if READERS_WAITING | _ => Out end else Out)]
  | _ => []
  end.

Definition wake_writer_or_readers (g : rwlock) (l : point) : list (rwlock * point) :=
  match l with
  | WakeW => cas g WRITERS_WAITING 0 (NotifyAdd false) wake_both_if
  | WakeB => cas g (READERS_WAITING + WRITERS_WAITING) READERS_WAITING (NotifyAdd true) (λ _, Out)
  | WakeR => cas g READERS_WAITING 0 WakeAll (λ _, Out)
  | WakeAll => [(with_readers g (wake_all (readers g)), Out)]
  | _ => wake_writer g l
  end.

Definition read_unlock (g : rwlock) (l : point) : list (rwlock * point) :=
  match l with
  | ReadUnlock =>
      let s := word g - READ_LOCKED in
      [(with_word g (wrap W s),
        if s <? 0 then Panicked
        else if has_readers_waiting s && negb (has_writers_waiting s) then Panicked
        else if is_unlocked s && has_writers_waiting s then wake_start s
        else Out)]
  | _ => []
  end.

(** ** Writing *)

Definition try_write_next (s : Z) : point := if is_unlocked s then TryWriteCas s else Out.
Definition try_write (g : rwlock) (l : point) : list (rwlock * point) :=
  match l with
  | TryWrite => [(g, try_write_next (word g))]
  | TryWriteCas s => cas_weak g s (s + WRITE_LOCKED) Writing try_write_next
  | _ => []
  end.

Definition write (g : rwlock) (l : point) : list (rwlock * point) :=
  match l with
  | Write => cas_weak g 0 WRITE_LOCKED Writing (λ _, WSpin 0)
  | _ => []
  end.

(** The top of the loop of [write_contended]. *)
Definition write_next (other s : Z) : point :=
  if is_unlocked s then WCas other s
  else if negb (has_writers_waiting s) then WSet other s
  else WSeq.

Definition write_contended (i : nat) (g : rwlock) (l : point) : list (rwlock * point) :=
  match l with
  | WSpin other => spin_write g (WSpin other) (write_next other)
  | WCas other s => cas_weak g s (Z.lor (Z.lor s WRITE_LOCKED) other) Writing (write_next other)
  | WSet other s => cas g s (Z.lor s WRITERS_WAITING) WSeq (write_next other)
  | WSeq => [(g, WCheck (notify g))]
  | WCheck seq =>
      [(g, if is_unlocked (word g) || negb (has_writers_waiting (word g)) then write_next WRITERS_WAITING (word g) else WFutexWait seq)]
  | WFutexWait seq =>
      (g, WSpin WRITERS_WAITING) :: if notify g =? seq then [(with_writers g (writers g ++ [i]), WAsleep)] else []
  | WAsleep => if bool_decide (i ∈ writers g) then [] else [(g, WSpin WRITERS_WAITING)]
  | _ => []
  end.

Definition write_unlock (g : rwlock) (l : point) : list (rwlock * point) :=
  match l with
  | WriteUnlock =>
      let s := word g - WRITE_LOCKED in
      [(with_word g (wrap W s),
        if s <? 0 then Panicked
        else if negb (is_unlocked s) then Panicked
        else if has_writers_waiting s || has_readers_waiting s then wake_start s
        else Out)]
  | _ => []
  end.

(** ** The program *)

Definition calls (g : rwlock) (l : point) : list (rwlock * point) :=
  match l with
  | Out => [(g, TryRead); (g, Read); (g, TryWrite); (g, Write)]
  | Reading => [(g, ReadUnlock)]
  | Writing => [(g, WriteUnlock)]
  | _ => []
  end.

Definition step (i : nat) (g : rwlock) (l : point) : list (rwlock * point) :=
  try_read g l ++ read g l ++ read_contended i g l ++ read_unlock g l ++
  try_write g l ++ write g l ++ write_contended i g l ++ write_unlock g l ++ wake_writer_or_readers g l ++ calls g l.

Definition start (n : nat) : conf rwlock point := Conf new (replicate n Out).
