(* ===== verification/RwSpec.v ===== *)
(** * Readers-writer locks exclude, and no wakeup is lost *)

From S2P Require Import Base Threads Locks RwLock.
Local Open Scope Z_scope.

(** ** The word of a readers-writer lock

    The word as a number of readers and two bits: what the tests and updates of [RwLock] do on
    this form. *)

(** [r] readers, or [MASK] when a writer has the lock; readers wait; writers wait. *)
Definition mk (r : Z) (rw ww : bool) : Z := r + (if rw then READERS_WAITING else 0) + (if ww then WRITERS_WAITING else 0).

Lemma land_pow2 s k : 0 ≤ k → (Z.land s (2 ^ k) =? 0) = negb (Z.testbit s k).
Proof.
  intros Hk. destruct (Z.testbit s k) eqn:Hb; cbn.
  - apply Z.eqb_neq. intros H0. apply (f_equal (λ z, Z.testbit z k)) in H0.
    rewrite Z.land_spec, Hb, Z.pow2_bits_true, Z.bits_0 in H0 by done. done.
  - apply Z.eqb_eq, Z.bits_inj'. intros n Hn. rewrite Z.land_spec, Z.bits_0. destruct (decide (n = k)) as [-> | Hne]; [by rewrite Hb|].
    rewrite Z.pow2_bits_false by lia. apply andb_false_r.
Qed.

Lemma testbit_of s k q r : 0 ≤ k → s = q * 2 ^ k + r → 0 ≤ r < 2 ^ k → Z.testbit s k = Z.odd q.
Proof.
  intros Hk -> Hr. rewrite Z.testbit_odd, Z.shiftr_div_pow2 by done. f_equal.
  rewrite Z.div_add_l by lia. rewrite Z.div_small by done. lia.
Qed.

Lemma lor_pow2 s k : 0 ≤ k → Z.lor s (2 ^ k) = if Z.testbit s k then s else s + 2 ^ k.
Proof.
  intros Hk. pose proof (land_pow2 s k Hk) as Hl. destruct (Z.testbit s k) eqn:Hb; cbn in Hl.
  - apply Z.bits_inj'. intros n Hn. rewrite Z.lor_spec. destruct (decide (n = k)) as [-> | Hne]; [by rewrite Hb|].
    rewrite Z.pow2_bits_false by lia. apply orb_false_r.
  - apply Z.eqb_eq in Hl. by apply lor_land_disjoint.
Qed.

Section mk.
Context (r : Z) (rw ww : bool) (Hr : 0 ≤ r ≤ MASK).

Lemma mk_mask : Z.land (mk r rw ww) MASK = r.
Proof using Hr.
  change MASK with (Z.ones 30). rewrite Z.land_ones by done. unfold mk, READERS_WAITING, WRITERS_WAITING, MASK in *.
  destruct rw, ww; Z.to_euclidean_division_equations; lia.
Qed.
Lemma mk_unlocked : is_unlocked (mk r rw ww) = (r =? 0).
Proof using Hr. unfold is_unlocked. by rewrite mk_mask. Qed.
Lemma mk_write_locked : is_write_locked (mk r rw ww) = (r =? MASK).
Proof using Hr. unfold is_write_locked. by rewrite mk_mask. Qed.
Lemma mk_max : has_reached_max_readers (mk r rw ww) = (r =? MAX_READERS).
Proof using Hr. unfold has_reached_max_readers. by rewrite mk_mask. Qed.
Lemma mk_rw : has_readers_waiting (mk r rw ww) = rw.
Proof using Hr.
  unfold has_readers_waiting, READERS_WAITING. rewrite land_pow2, negb_involutive by done. unfold MASK in Hr.
  rewrite (testbit_of _ 30 ((if rw then 1 else 0) + (if ww then 2 else 0)) r) by (unfold mk, READERS_WAITING, WRITERS_WAITING; destruct rw, ww; lia).
  by destruct rw, ww.
Qed.
Lemma mk_ww : has_writers_waiting (mk r rw ww) = ww.
Proof using Hr.
  unfold has_writers_waiting, WRITERS_WAITING. rewrite land_pow2, negb_involutive by done. unfold MASK in Hr.
  rewrite (testbit_of _ 31 (if ww then 1 else 0) (r + if rw then 2 ^ 30 else 0)) by (unfold mk, READERS_WAITING, WRITERS_WAITING; destruct rw, ww; lia).
  by destruct ww.
Qed.
Lemma mk_lockable : is_read_lockable (mk r rw ww) = (r <? MAX_READERS) && negb rw && negb ww.
Proof using Hr. unfold is_read_lockable. by rewrite mk_mask, mk_rw, mk_ww. Qed.
Lemma mk_bit30 : Z.testbit (mk r rw ww) 30 = rw.
Proof using Hr. pose proof mk_rw as H. unfold has_readers_waiting, READERS_WAITING in H. by rewrite land_pow2, negb_involutive in H by done. Qed.
Lemma mk_bit31 : Z.testbit (mk r rw ww) 31 = ww.
Proof using Hr. pose proof mk_ww as H. unfold has_writers_waiting, WRITERS_WAITING in H. by rewrite land_pow2, negb_involutive in H by done. Qed.
Lemma mk_set_rw : Z.lor (mk r rw ww) READERS_WAITING = mk r true ww.
Proof using Hr. unfold READERS_WAITING at 1. rewrite lor_pow2, mk_bit30 by done. unfold mk. destruct rw; unfold READERS_WAITING; lia. Qed.
Lemma mk_set_ww : Z.lor (mk r rw ww) WRITERS_WAITING = mk r rw true.
Proof using Hr. unfold WRITERS_WAITING at 1. rewrite lor_pow2, mk_bit31 by done. unfold mk. destruct ww; unfold WRITERS_WAITING; lia. Qed.
Lemma mk_wrap : wrap W (mk r rw ww) = mk r rw ww.
Proof using Hr. apply Z.mod_small. unfold mk, READERS_WAITING, WRITERS_WAITING, MASK in *. destruct rw, ww; lia. Qed.
End mk.

Lemma mk_set_write rw ww other : other = 0 ∨ other = WRITERS_WAITING →
  Z.lor (Z.lor (mk 0 rw ww) WRITE_LOCKED) other = mk MASK rw (ww || (other =? WRITERS_WAITING)).
Proof. intros [-> | ->]; by destruct rw, ww. Qed.

Lemma mk_inj r rw ww r' rw' ww' : 0 ≤ r ≤ MASK → 0 ≤ r' ≤ MASK → mk r rw ww = mk r' rw' ww' → r = r' ∧ rw = rw' ∧ ww = ww'.
Proof.
  intros H H' Heq. split; [by rewrite <- (mk_mask r rw ww), Heq, mk_mask|].
  split; [by rewrite <- (mk_rw r rw ww), Heq, mk_rw|by rewrite <- (mk_ww r rw ww), Heq, mk_ww].
Qed.

(** ** Who has the lock *)

Definition reading (l : point) : bool := match l with Reading | ReadUnlock => true | _ => false end.
Definition writing (l : point) : bool := match l with Writing | WriteUnlock => true | _ => false end.

(** What a thread knows of the words it has read. *)
Definition other_ok (other : Z) : Prop := other = 0 ∨ other = WRITERS_WAITING.
Definition local (l : point) : Prop :=
  match l with
  | TryReadCas s | ReadCas s | RCas s => is_read_lockable s = true
  | RSet s => is_read_lockable s = false ∧ has_readers_waiting s = false
  | TryWriteCas s => is_unlocked s = true
  | WSpin other => other_ok other
  | WCas other s => is_unlocked s = true ∧ other_ok other
  | WSet other s => is_unlocked s = false ∧ has_writers_waiting s = false ∧ other_ok other
  | Panicked => False
  | _ => True
  end.

Lemma local_try_read s : local (try_read_next s).
Proof. unfold try_read_next. by destruct (is_read_lockable s) eqn:E. Qed.
Lemma local_try_write s : local (try_write_next s).
Proof. unfold try_write_next. by destruct (is_unlocked s) eqn:E. Qed.
Lemma local_read s : has_reached_max_readers s = false → local (read_next s).
Proof. intros Hm. unfold read_next. destruct (is_read_lockable s) eqn:E; [done|]. rewrite Hm. by destruct (has_readers_waiting s) eqn:E'. Qed.
Lemma local_write other s : other_ok other → local (write_next other s).
Proof. intros Ho. unfold write_next. destruct (is_unlocked s) eqn:E; [done|]. by destruct (has_writers_waiting s) eqn:E'. Qed.
Lemma local_wake_both s : local (wake_both_if s).
Proof. unfold wake_both_if, wake_readers_if. by repeat case_match. Qed.
Lemma local_wake s : is_unlocked s = true → local (wake_start s).
Proof. intros Hu. unfold wake_start. rewrite Hu. case_match; [done|apply local_wake_both]. Qed.

Definition plain (l : point) : Prop := reading l = false ∧ writing l = false.
Lemma plain_try_read s : plain (try_read_next s).
Proof. unfold try_read_next. by case_match. Qed.
Lemma plain_try_write s : plain (try_write_next s).
Proof. unfold try_write_next. by case_match. Qed.
Lemma plain_read s : plain (read_next s).
Proof. unfold read_next. by repeat case_match. Qed.
Lemma plain_write other s : plain (write_next other s).
Proof. unfold write_next. by repeat case_match. Qed.
Lemma plain_wake_both s : plain (wake_both_if s).
Proof. unfold wake_both_if, wake_readers_if. by repeat case_match. Qed.
Lemma plain_wake s : plain (wake_start s).
Proof. unfold wake_start. repeat case_match; by try apply plain_wake_both. Qed.

Create HintDb h2o_rw.
#[export] Hint Resolve local_try_read local_try_write local_read local_write local_wake_both local_wake : h2o_rw.
#[export] Hint Resolve plain_try_read plain_try_write plain_read plain_write plain_wake_both plain_wake : h2o_rw.
#[export] Hint Extern 0 (plain _) => (split; reflexivity) : h2o_rw.
#[export] Hint Extern 0 (local _) => exact I : h2o_rw.
#[export] Hint Extern 1 (local (WSpin _)) => (cbn; unfold other_ok; tauto) : h2o_rw.
#[export] Hint Unfold other_ok : h2o_rw.

(** The word counts the readers, or says that a writer has the lock. *)
Definition lock_ok (r nr nw : Z) : Prop := (r = nr ∧ nw = 0 ∧ r ≤ MAX_READERS) ∨ (r = MASK ∧ nw = 1 ∧ nr = 0).

Definition view (g : rwlock) (r : Z) (rw ww : bool) : Prop := word g = mk r rw ww ∧ 0 ≤ r ≤ MASK.

Record safe (g : rwlock) (ls : list point) (r : Z) (rw ww : bool) : Prop := Safe {
  sf_view : view g r rw ww;
  sf_lock : lock_ok r (count reading ls) (count writing ls);
  sf_bits : 0 < r < MASK → rw = true → ww = true;
  sf_local i l : ls !! i = Some l → local l;
}.

(** A step as seen by the view: what becomes of the number of readers and the bits. *)
Inductive moves : point → point → Z * bool * bool → Z * bool * bool → Prop :=
  | mv_same l l' v : plain l ∧ plain l' ∨ reading l = reading l' ∧ writing l = writing l' → moves l l' v v
  | mv_read l r : reading l = false → writing l = false → r < MAX_READERS → moves l Reading (r, false, false) (r + 1, false, false)
  | mv_set_rw s r ww : r = MASK ∨ ww = true → moves (RSet s) (RFutexWait s) (r, false, ww) (r, true, ww)
  | mv_read_unlock r rw ww l' : 0 < r < MASK → (l' = if (r =? 1) && ww then wake_start (mk 0 rw ww) else Out) →
      moves ReadUnlock l' (r, rw, ww) (r - 1, rw, ww)
  | mv_write l rw ww ww' : reading l = false → writing l = false →
      (ww' = ww ∨ (∃ s, l = WCas WRITERS_WAITING s) ∧ ww' = true) → (∀ s, l = WCas WRITERS_WAITING s → ww' = true) →
      moves l Writing (0, rw, ww) (MASK, rw, ww')
  | mv_set_ww other s r rw : r ≠ 0 → moves (WSet other s) WSeq (r, rw, false) (r, rw, true)
  | mv_write_unlock rw ww l' : (l' = if ww || rw then wake_start (mk 0 rw ww) else Out) →
      moves WriteUnlock l' (MASK, rw, ww) (0, rw, ww)
  | mv_wake_w : moves WakeW (NotifyAdd false) (0, false, true) (0, false, false)
  | mv_wake_b : moves WakeB (NotifyAdd true) (0, true, true) (0, true, false)
  | mv_wake_r : moves WakeR WakeAll (0, true, false) (0, false, false).

Ltac open_step H :=
  unfold step, try_read, read, read_contended, read_unlock, try_write, write, write_contended, write_unlock,
    wake_writer_or_readers, wake_writer, calls, cas, cas_weak, spin_read, spin_write, spin_until in H.

(** The three ways to take the lock for reading, and those to take it for writing. *)
Lemma takes_read g r rw ww l s : view g r rw ww → plain l → is_read_lockable s = true → (word g =? s) = true →
  ∃ r' rw' ww', view (with_word g (s + READ_LOCKED)) r' rw' ww' ∧ moves l Reading (r, rw, ww) (r', rw', ww') ∧ local Reading.
Proof.
  intros [Hv Hr] [Hpr Hpw] Hlk <-%Z.eqb_eq. rewrite Hv, mk_lockable in Hlk by done. rewrite !andb_true_iff, !negb_true_iff, Z.ltb_lt in Hlk.
  destruct Hlk as [[Hlt ->] ->]. exists (r + 1), false, false. split; [split; cbn|split; [by constructor|done]].
  - rewrite Hv. unfold mk, READ_LOCKED. lia.
  - unfold MAX_READERS in Hlt. lia.
Qed.

Lemma takes_write g r rw ww l other s : view g r rw ww → plain l → is_unlocked s = true → (word g =? s) = true → other_ok other →
  (if decide (other = 0) then ∀ x, l ≠ WCas WRITERS_WAITING x else ∃ x, l = WCas other x) →
  ∃ r' rw' ww', view (with_word g (Z.lor (Z.lor s WRITE_LOCKED) other)) r' rw' ww' ∧ moves l Writing (r, rw, ww) (r', rw', ww') ∧ local Writing.
Proof.
  intros [Hv Hr] [Hpr Hpw] Hu <-%Z.eqb_eq Ho Hl. rewrite Hv, mk_unlocked in Hu by done. apply Z.eqb_eq in Hu as ->.
  exists MASK, rw, (ww || (other =? WRITERS_WAITING)). split; [|split; [|done]].
  - split; cbn; [|unfold MASK; lia]. rewrite Hv. by apply mk_set_write.
  - constructor; [done|done| |].
    + destruct Ho as [-> | ->]; cbn; [left; by rewrite orb_false_r|]. right. split; [|by rewrite orb_true_r].
      rewrite decide_False in Hl by done. done.
    + intros x ->. destruct Ho as [-> | ->]; cbn; [|by rewrite orb_true_r]. rewrite decide_True in Hl by done. by destruct (Hl x).
Qed.

Lemma unlocks_read g r rw ww g' l' ls i : safe g ls r rw ww → ls !! i = Some ReadUnlock → (g', l') ∈ read_unlock g ReadUnlock →
  ∃ r' rw' ww', view g' r' rw' ww' ∧ moves ReadUnlock l' (r, rw, ww) (r', rw', ww') ∧ local l'.
Proof.
  intros [[Hv Hr] Hlock Hbits _] Hl Hs. pose proof (count_lookup reading _ _ _ Hl eq_refl) as Hc.
  assert (Hr1 : 0 < r < MASK) by (unfold lock_ok, MAX_READERS, MASK in *; lia).
  assert (Hs1 : word g - READ_LOCKED = mk (r - 1) rw ww) by (rewrite Hv; unfold mk, READ_LOCKED; lia).
  assert (Hrr : 0 ≤ r - 1 ≤ MASK) by lia. cbn -[Z.sub Z.ltb] in Hs. rewrite Hs1 in Hs.
  rewrite mk_rw, mk_ww, mk_unlocked, mk_wrap in Hs by done. apply list_elem_of_singleton in Hs. injection Hs as -> ->.
  rewrite (proj2 (Z.ltb_ge _ 0)) by (unfold mk, READERS_WAITING, WRITERS_WAITING; destruct rw, ww; lia).
  replace (rw && negb ww) with false by (destruct rw, ww; try done; by specialize (Hbits Hr1 eq_refl)).
  replace (r - 1 =? 0) with (r =? 1) by lia. exists (r - 1), rw, ww. split; [done|].
  split; [apply mv_read_unlock; [lia|]|]; destruct (Z.eqb_spec r 1) as [-> | Hne]; try done; cbn.
  destruct ww; [|done]. apply local_wake. rewrite mk_unlocked by (unfold MASK; lia). done.
Qed.

Lemma unlocks_write g r rw ww g' l' ls i : safe g ls r rw ww → ls !! i = Some WriteUnlock → (g', l') ∈ write_unlock g WriteUnlock →
  ∃ r' rw' ww', view g' r' rw' ww' ∧ moves WriteUnlock l' (r, rw, ww) (r', rw', ww') ∧ local l'.
Proof.
  intros [[Hv Hr] Hlock _ _] Hl Hs. pose proof (count_lookup writing _ _ _ Hl eq_refl) as Hc.
  assert (r = MASK) as -> by (unfold lock_ok in *; lia).
  assert (Hs1 : word g - WRITE_LOCKED = mk 0 rw ww) by (rewrite Hv; unfold mk, WRITE_LOCKED; lia).
  assert (Hrr : 0 ≤ 0 ≤ MASK) by (unfold MASK; lia). cbn -[Z.sub Z.ltb] in Hs. rewrite Hs1 in Hs.
  rewrite mk_rw, mk_ww, mk_unlocked, mk_wrap in Hs by done. apply list_elem_of_singleton in Hs. injection Hs as -> ->.
  rewrite (proj2 (Z.ltb_ge _ 0)) by (unfold mk, READERS_WAITING, WRITERS_WAITING; destruct rw, ww; lia).
  exists 0, rw, ww. cbn. split; [done|]. split; [by constructor|]. destruct (ww || rw); [|done]. apply local_wake. by rewrite mk_unlocked.
Qed.

Lemma step_moves i g ls l g' l' r rw ww : safe g ls r rw ww → Z.of_nat (length ls) < MAX_READERS → ls !! i = Some l → (g', l') ∈ step i g l →
  ∃ r' rw' ww', view g' r' rw' ww' ∧ moves l l' (r, rw, ww) (r', rw', ww') ∧ local l'.
Proof.
  intros Hsafe Hlen Hl Hs. pose proof Hsafe as [[Hv Hr] Hlock Hbits Hloc]. specialize (Hloc i l Hl).
  pose proof (count_le_length reading ls) as Hcr. pose proof (count_nonneg reading ls) as Hcn.
  assert (Hmax : r ≠ MAX_READERS) by (unfold lock_ok, MAX_READERS, MASK in *; lia).
  assert (Hmaxb : has_reached_max_readers (word g) = false) by (rewrite Hv, mk_max by done; by apply Z.eqb_neq).
  assert (Hsame : ∀ l', plain l ∧ plain l' ∨ reading l = reading l' ∧ writing l = writing l' → local l' → word g' = word g →
    ∃ r' rw' ww', view g' r' rw' ww' ∧ moves l l' (r, rw, ww) (r', rw', ww') ∧ local l').
  { intros x Hx Hlx Hw. exists r, rw, ww. split; [split; [congruence|done]|]. split; [by constructor|done]. }
  destruct (decide (l = ReadUnlock)) as [-> | Hnr]; [eapply (unlocks_read g); [exact Hsafe|exact Hl|exact Hs]|].
  destruct (decide (l = WriteUnlock)) as [-> | Hnw]; [eapply (unlocks_write g); [exact Hsafe|exact Hl|exact Hs]|].
  open_step Hs. destruct l; cbn in Hs, Hloc; try done; step_cases Hs.
  all: try (apply Hsame; [auto with h2o_rw|auto with h2o_rw|reflexivity]; fail).
  all: try (by eapply takes_read; [by split|split; reflexivity|exact Hloc|exact E]).
  all: try (by apply Hsame; [auto with h2o_rw|apply local_write; tauto|reflexivity]).
  - apply Z.eqb_eq in E as <-. destruct Hloc as [Hlk Hnrw]. rewrite Hv, mk_lockable in Hlk by done. rewrite Hv, mk_rw in Hnrw by done. subst rw.
    exists r, true, ww. split; [split; [cbn; rewrite Hv; by apply mk_set_rw|done]|]. split; [|done]. constructor.
    destruct ww; [by right|]. left. rewrite !andb_true_r in Hlk. apply Z.ltb_ge in Hlk. unfold MAX_READERS, MASK in *. lia.
  - pose proof (takes_write g r rw ww (TryWriteCas s) 0 s) as Ht. rewrite Z.lor_0_r in Ht. rewrite Z.eqb_eq in E. subst s.
    replace (word g + WRITE_LOCKED) with (Z.lor (word g) WRITE_LOCKED); [apply Ht; [by split|by split|done|by rewrite Z.eqb_eq|by left|done]|].
    rewrite Hv in Hloc |- *. rewrite mk_unlocked in Hloc by done. apply Z.eqb_eq in Hloc as ->. by destruct rw, ww.
  - pose proof (takes_write g r rw ww Write 0 0) as Ht. apply Ht; [by split|by split|done|done|by left|done].
  - destruct Hloc as [Hu Ho]. apply (takes_write g r rw ww (WCas other s) other s); [by split|by split|done|done|done|].
    case_decide; [intros x Hx; injection Hx as Hx _; unfold WRITERS_WAITING in Hx; lia|by eexists].
  - apply Z.eqb_eq in E as <-. destruct Hloc as (Hu & Hnww & _). rewrite Hv, mk_unlocked in Hu by done. rewrite Hv, mk_ww in Hnww by done. subst ww.
    exists r, rw, true. split; [split; [cbn; rewrite Hv; by apply mk_set_ww|done]|]. split; [|done]. constructor. by apply Z.eqb_neq.
  - apply Z.eqb_eq in E. rewrite Hv in E. apply (mk_inj r rw ww 0 false true) in E as (-> & -> & ->); [|done|unfold MASK; lia].
    exists 0, false, false. split; [by split|]. split; [constructor|done].
  - apply Z.eqb_eq in E. rewrite Hv in E. apply (mk_inj r rw ww 0 true true) in E as (-> & -> & ->); [|done|unfold MASK; lia].
    exists 0, true, false. split; [by split|]. split; [constructor|done].
  - apply Z.eqb_eq in E. rewrite Hv in E. apply (mk_inj r rw ww 0 true false) in E as (-> & -> & ->); [|done|unfold MASK; lia].
    exists 0, false, false. split; [by split|]. split; [constructor|done].
Qed.

Lemma unlock_plain (b : bool) s : reading (if b then wake_start s else Out) = false ∧ writing (if b then wake_start s else Out) = false.
Proof. destruct b; [apply plain_wake|done]. Qed.

Lemma moves_lock l l' r rw ww r' rw' ww' nr nw : moves l l' (r, rw, ww) (r', rw', ww') → lock_ok r nr nw → 0 ≤ nr → 0 ≤ nw →
  (writing l = true → 1 ≤ nw) → lock_ok r' (nr - b2z (reading l) + b2z (reading l')) (nw - b2z (writing l) + b2z (writing l')).
Proof.
  intros Hm Hlock Hnr Hnw Hw. unfold lock_ok, MAX_READERS, MASK, plain, b2z in *.
  inversion Hm as [l0 l0' v Hp|l0 ? Hr0 Hw0|?|r0 rw0 ww0 l0 Hlt Hl0|l0 ? ? ? Hr0 Hw0|?|rw0 ww0 l0 Hl0| | |]; subst; cbn in *; try lia.
  - destruct Hp as [[[-> ->] [-> ->]]|[-> ->]]; [lia|]. destruct (reading l'), (writing l'); lia.
  - rewrite Hr0, Hw0. unfold MAX_READERS, MASK in *. lia.
  - destruct (unlock_plain ((r =? 1) && ww') (mk 0 rw' ww')) as [-> ->]. unfold MASK in *. lia.
  - rewrite Hr0, Hw0. unfold MASK. lia.
  - destruct (unlock_plain (ww' || rw') (mk 0 rw' ww')) as [-> ->]. unfold MASK in *. specialize (Hw eq_refl). lia.
Qed.

Lemma moves_bits l l' r rw ww r' rw' ww' : moves l l' (r, rw, ww) (r', rw', ww') → (0 < r < MASK → rw = true → ww = true) → 0 ≤ r ≤ MASK →
  0 < r' < MASK → rw' = true → ww' = true.
Proof.
  intros Hm Hb Hr Hr' Hrw. inversion Hm as [| |? ? ? Hset| | | | | | |]; subst; try done; auto; try lia.
  destruct Hset; [lia|done].
Qed.

Lemma safe_step i g ls l g' l' r rw ww : safe g ls r rw ww → Z.of_nat (length ls) < MAX_READERS → ls !! i = Some l → (g', l') ∈ step i g l →
  ∃ r' rw' ww', safe g' (<[i := l']> ls) r' rw' ww' ∧ moves l l' (r, rw, ww) (r', rw', ww').
Proof.
  intros Hsafe Hlen Hl Hs. destruct (step_moves _ _ _ _ _ _ _ _ _ Hsafe Hlen Hl Hs) as (r' & rw' & ww' & Hv' & Hm & Hloc').
  exists r', rw', ww'. split; [|done]. destruct Hsafe as [[Hv Hr] Hlock Hbits Hloc].
  split; [done| | |].
  - rewrite !(count_insert _ _ _ _ _ Hl). eapply moves_lock; [exact Hm|exact Hlock|apply count_nonneg..|]. intros Hw. by eapply count_lookup.
  - eapply moves_bits; eauto.
  - apply (every_step (λ _ l, local l)); [|done]. eauto.
Qed.

(** ** Who will wake the threads that sleep *)

(** A writer that waits, is awake, and will set the bit or take the lock with it. *)
Definition active (g : rwlock) (i : nat) (l : point) : Prop :=
  match l with
  | WSpin other | WCas other _ | WSet other _ => other = WRITERS_WAITING
  | WSeq | WCheck _ => True
  | WFutexWait seq => seq ≠ notify g
  | WAsleep => i ∉ writers g
  | _ => False
  end.

(** The thread that deals with the bits of a lock that nobody has. *)
Definition in_charge (g : rwlock) (rw ww : bool) (i : nat) (l : point) : Prop :=
  match l with
  | WakeW => ww = true
  | WakeB => rw = true ∧ ww = true
  | WakeR | NotifyAdd true | NotifyWake true => ww = false
  | _ => ww = false ∧ active g i l
  end.

Definition notifies (g : rwlock) (i : nat) (l : point) : Prop :=
  match l with NotifyAdd _ | NotifyWake _ => True | _ => active g i l end.

Lemma notifies_cases g i l : notifies g i l → (∃ b, l = NotifyAdd b) ∨ (∃ b, l = NotifyWake b) ∨ active g i l.
Proof. destruct l; cbn; eauto. Qed.

Lemma in_charge_cases g rw ww i l : in_charge g rw ww i l →
  (l = WakeW ∧ ww = true) ∨ (l = WakeB ∧ rw = true ∧ ww = true) ∨
  (ww = false ∧ (l = WakeR ∨ l = NotifyAdd true ∨ l = NotifyWake true ∨ active g i l)).
Proof. destruct l as [| | | | | | | | | | | | | | | | | | | | | | | | | | |[]|[]| |]; cbn; tauto. Qed.
Lemma in_charge_active g rw i l : active g i l → in_charge g rw false i l.
Proof. by destruct l. Qed.

Record awake (k : nat) (g : rwlock) (ls : list point) (r : Z) (rw ww : bool) : Prop := Awake {
  aw_rq : sleeping RAsleep (readers g) ls;
  aw_wq : sleeping WAsleep (writers g) ls;
  aw_readers : readers g ≠ [] → rw = true ∨ some (λ _ l, l = WakeAll) ls;
  aw_free : r = 0 → rw || ww = true → some (in_charge g rw ww) ls;
  aw_writers : writers g ≠ [] → ww = true ∨ some (notifies g) ls;
  aw_count : 0 ≤ notify g ≤ Z.of_nat k;
  aw_seq i seq : ls !! i = Some (WCheck seq) ∨ ls !! i = Some (WFutexWait seq) → seq ≤ notify g;
  aw_wait i : ls !! i = Some (WFutexWait (notify g)) → ww = true ∨ some (λ _ l, ∃ b, l = NotifyAdd b) ls;
}.

Lemma moves_rw l l' r rw ww r' rw' ww' : moves l l' (r, rw, ww) (r', rw', ww') → rw = true → rw' = true ∨ l' = WakeAll.
Proof. intros Hm Hrw. inversion Hm; subst; auto. Qed.
Lemma moves_ww l l' r rw ww r' rw' ww' : moves l l' (r, rw, ww) (r', rw', ww') → ww = true → ww' = true ∨ ∃ b, l' = NotifyAdd b.
Proof. intros Hm Hww. inversion Hm as [| | | |l0 ? ? ? ? ? Hc| | | | |]; subst; eauto. destruct Hc as [-> | [_ ->]]; auto. Qed.

Lemma not_asleep i g ls l g' l' : sleeping RAsleep (readers g) ls → sleeping WAsleep (writers g) ls → ls !! i = Some l → (g', l') ∈ step i g l →
  i ∉ readers g ∧ i ∉ writers g.
Proof.
  intros [_ Hr] [_ Hw] Hl Hs. split; intros Hi; [specialize (Hr _ Hi); rewrite Hr in Hl|specialize (Hw _ Hi); rewrite Hw in Hl];
    injection Hl as <-; cbn in Hs; rewrite bool_decide_true in Hs by done; by apply elem_of_nil in Hs.
Qed.

Lemma queues_step i g ls l g' l' : sleeping RAsleep (readers g) ls → sleeping WAsleep (writers g) ls → ls !! i = Some l → (g', l') ∈ step i g l →
  sleeping RAsleep (readers g') (<[i := l']> ls) ∧ sleeping WAsleep (writers g') (<[i := l']> ls).
Proof.
  intros Hr Hw Hl Hs. destruct (not_asleep _ _ _ _ _ _ Hr Hw Hl Hs) as [Hir Hiw].
  assert (Hkeep : ∀ x, sleeping RAsleep (readers g) (<[i := x]> ls) ∧ sleeping WAsleep (writers g) (<[i := x]> ls)).
  { intros x. split; by eapply sleeping_out. }
  open_step Hs. destruct l; cbn in Hs; step_cases Hs; cbn; try apply Hkeep.
  all: split; try apply Hkeep; try apply sleeping_nil; try (by eapply sleeping_in).
  all: eapply sleeping_sub; [|apply Hkeep]; first [apply sublist_tail|by apply sublist_cons].
Qed.

Lemma set_rw s : has_readers_waiting (Z.lor s READERS_WAITING) = true.
Proof.
  unfold has_readers_waiting, READERS_WAITING. rewrite land_pow2, negb_involutive by done.
  rewrite Z.lor_spec, Z.pow2_bits_true by done. apply orb_true_r.
Qed.

(** One step of thread [i]. *)
Section step.
Context (k i : nat) (g g' : rwlock) (ls : list point) (l l' : point) (r r' : Z) (rw rw' ww ww' : bool).
Context (Hl : ls !! i = Some l) (Hs : (g', l') ∈ step i g l) (Hm : moves l l' (r, rw, ww) (r', rw', ww')).
Context (Hv : view g r rw ww) (Hv' : view g' r' rw' ww') (Ha : awake k g ls r rw ww) (Hk : Z.of_nat k < 2 ^ 64 - 1).

Lemma step_readers : readers g' ≠ [] → rw' = true ∨ some (λ _ l, l = WakeAll) (<[i := l']> ls).
Proof using All.
  intros Hne. assert (Hkeep : readers g' = readers g → l ≠ WakeAll → rw' = true ∨ some (λ _ l, l = WakeAll) (<[i := l']> ls)).
  { intros Heq Hl'. rewrite Heq in Hne. destruct (aw_readers _ _ _ _ _ _ Ha Hne) as [Hrw|Hsome].
    - destruct (moves_rw _ _ _ _ _ _ _ _ Hm Hrw) as [|Hwake]; [by left|]. right. by eapply some_here.
    - right. eapply some_step; [done|exact Hsome|done|]. done. }
  destruct Hv' as [Hw' Hr']. pose proof (mk_rw r' rw' ww' Hr') as Hbit. rewrite <- Hw' in Hbit. clear Hw' Hr'.
  open_step Hs. destruct l; cbn in Hs; step_cases Hs; cbn in *; try (by apply Hkeep).
  left. rewrite <- Hbit. apply Z.eqb_eq in E. rewrite E. apply set_rw.
Qed.

Lemma step_notify : notify g' = match l with NotifyAdd _ => notify g + 1 | _ => notify g end.
Proof using All.
  pose proof (aw_count _ _ _ _ _ _ Ha) as Hc. assert (Hw : wrap W (notify g + 1) = notify g + 1) by (apply Z.mod_small; lia).
  open_step Hs. destruct l; cbn in Hs; step_cases Hs; cbn; done.
Qed.
Lemma step_notify_le : notify g' = notify g ∨ notify g' = notify g + 1.
Proof using All. rewrite step_notify. destruct l; auto. Qed.

Lemma step_queue : writers g' = writers g ∨ ((∃ b, l = NotifyWake b) ∧ writers g' = wake_one (writers g)) ∨
  (l = WFutexWait (notify g) ∧ l' = WAsleep ∧ writers g' = writers g ++ [i]).
Proof using All.
  open_step Hs. destruct l; cbn in Hs; try (step_cases Hs; cbn; auto; fail).
  - destruct (Z.eqb_spec (notify g) seq) as [<-|]; cbn in Hs; step_cases Hs; cbn; auto.
  - apply list_elem_of_singleton in Hs. injection Hs as -> _. cbn. eauto.
Qed.

(** A writer that is awake stays so when another thread acts. *)
Lemma step_active j x : j ≠ i → ls !! j = Some x → active g j x → active g' j x.
Proof using All.
  intros Hne Hj Hact. pose proof (aw_seq _ _ _ _ _ _ Ha j) as Hseq. destruct x; cbn in *; try done.
  - specialize (Hseq seq ltac:(by right)). destruct step_notify_le as [-> | ->]; [done|lia].
  - destruct step_queue as [-> | [[_ ->]|(_ & _ & ->)]]; [done| |].
    + intros Hin. apply Hact. eapply elem_of_sublist; [exact Hin|apply sublist_tail].
    + set_solver.
Qed.

Lemma step_count : 0 ≤ notify g' ≤ Z.of_nat (S k).
Proof using All. pose proof (aw_count _ _ _ _ _ _ Ha). destruct step_notify_le as [-> | ->]; lia. Qed.

(** Where a thread has the value of [writer_notify] from. *)
Lemma step_seq_here seq : l' = WCheck seq ∨ l' = WFutexWait seq →
  (l = WSeq ∧ seq = notify g ∧ l' = WCheck seq) ∨ (l = WCheck seq ∧ is_unlocked (word g) = false ∧ has_writers_waiting (word g) = true).
Proof using All.
  intros Hl'. open_step Hs.
  unfold try_read_next, try_write_next, read_next, write_next, wake_start, wake_both_if, wake_readers_if in Hs.
  destruct l; cbn in Hs; try (step_cases Hs; destruct Hl' as [[=]|[=]]; subst; auto; fail).
  destruct (is_unlocked (word g)), (has_writers_waiting (word g)); cbn in Hs; step_cases Hs; destruct Hl' as [[=]|[=]]; subst; auto.
Qed.

Lemma step_seq j seq : <[i := l']> ls !! j = Some (WCheck seq) ∨ <[i := l']> ls !! j = Some (WFutexWait seq) → seq ≤ notify g'.
Proof using All.
  intros Hj. assert (Hle : notify g ≤ notify g') by (destruct step_notify_le as [-> | ->]; lia).
  destruct (decide (j = i)) as [-> | Hne].
  - pose proof (aw_seq _ _ _ _ _ _ Ha i) as Hseq. rewrite list_lookup_insert_eq in Hj by (by eapply lookup_lt_Some).
    assert (Hl' : l' = WCheck seq ∨ l' = WFutexWait seq) by naive_solver.
    destruct (step_seq_here seq Hl') as [(-> & -> & _)|[-> _]]; [done|]. specialize (Hseq seq ltac:(by left)). lia.
  - rewrite list_lookup_insert_ne in Hj by done. pose proof (aw_seq _ _ _ _ _ _ Ha j seq Hj). lia.
Qed.

Lemma step_wait j : <[i := l']> ls !! j = Some (WFutexWait (notify g')) → ww' = true ∨ some (λ _ l, ∃ b, l = NotifyAdd b) (<[i := l']> ls).
Proof using All.
  intros Hj. assert (Hww : ww = true → ww' = true ∨ some (λ _ l, ∃ b, l = NotifyAdd b) (<[i := l']> ls)).
  { intros Hww. destruct (moves_ww _ _ _ _ _ _ _ _ Hm Hww) as [|Hl']; [by left|]. right. by eapply some_here. }
  destruct (decide (j = i)) as [-> | Hne].
  - rewrite list_lookup_insert_eq in Hj by (by eapply lookup_lt_Some). injection Hj as Hj.
    destruct (step_seq_here (notify g') ltac:(by right)) as [(_ & _ & Hl')|(_ & _ & Hb)]; [by rewrite Hl' in Hj|].
    apply Hww. destruct Hv as [Hw Hr]. by rewrite Hw, mk_ww in Hb.
  - rewrite list_lookup_insert_ne in Hj by done. pose proof (aw_seq _ _ _ _ _ _ Ha j _ (or_intror Hj)) as Hle.
    pose proof step_notify as Hn. assert (Heq : notify g' = notify g) by (destruct step_notify_le; lia).
    rewrite Heq in Hj. destruct (aw_wait _ _ _ _ _ _ Ha j Hj) as [Hw|Hsome]; [by apply Hww|].
    right. eapply some_step; [done|exact Hsome|done|]. intros [b Hb]. rewrite Hb in Hn. lia.
Qed.

(** A writer that is awake and acts. *)
Lemma step_active_self : active g i l → active g' i l' ∨ ww' = true.
Proof using All.
  intros Hact. assert (Hww : has_writers_waiting (word g) = true → ww = true) by (destruct Hv as [Hw Hr]; by rewrite Hw, mk_ww).
  pose proof (moves_ww _ _ _ _ _ _ _ _ Hm) as Hmw. open_step Hs. unfold write_next in Hs.
  destruct l; cbn in Hact; try done; cbn in Hs; step_cases Hs; cbn; auto; try (by left; rewrite ?orb_true_l in *).
  all: right; first [subst other; inversion Hm as [? ? ? Hp| | | |? ? ? ? ? ? ? Hset| | | | |]; subst; [destruct Hp as [[_ [_ [=]]]|[_ [=]]]|by eapply Hset]
    |destruct Hmw as [|[b [=]]]; [|done]; apply Hww; by destruct (has_writers_waiting (word g)), (is_unlocked (word g))
    |lia].
Qed.

Lemma step_add b : l = NotifyAdd b → l' = NotifyWake b.
Proof using All. intros ->. open_step Hs. cbn in Hs. by step_cases Hs. Qed.

(** The writer that is woken. *)
Lemma step_woken b : l = NotifyWake b → (writers g ≠ [] → some (active g') (<[i := l']> ls)) ∧
  (b = true → writers g = [] → l' = WakeR).
Proof using All.
  intros ->. assert (Hstep : writers g' = wake_one (writers g) ∧ (b = true → writers g = [] → l' = WakeR)).
  { open_step Hs. cbn in Hs. apply list_elem_of_singleton in Hs. injection Hs as -> ->. split; [done|]. intros -> ->. done. }
  destruct Hstep as [Hq Hl']. split; [|done]. intros Hne. pose proof (aw_wq _ _ _ _ _ _ Ha) as [Hnd Hall].
  destruct (writers g) as [|h q]; [done|]. apply NoDup_cons in Hnd as [Hh _]. exists h, WAsleep.
  pose proof (Hall h ltac:(by left)) as Hlh. rewrite list_lookup_insert_ne by (intros ->; congruence). split; [done|].
  cbn. by rewrite Hq.
Qed.

Lemma step_writers : writers g' ≠ [] → ww' = true ∨ some (notifies g') (<[i := l']> ls).
Proof using All.
  intros Hne. assert (Hww : ww = true → ww' = true ∨ some (notifies g') (<[i := l']> ls)).
  { intros Hww. destruct (moves_ww _ _ _ _ _ _ _ _ Hm Hww) as [|[b ->]]; [by left|]. right. by eapply some_here. }
  assert (Hkeep : ∀ j x, j ≠ i → ls !! j = Some x → notifies g j x → some (notifies g') (<[i := l']> ls)).
  { intros j x Hji Hj Hx. exists j, x. rewrite list_lookup_insert_ne by done. split; [done|].
    pose proof (step_active j x Hji Hj). destruct x; cbn in *; auto. }
  assert (Hself : ∀ j x, active g' j x → notifies g' j x) by (by intros j []).
  assert (Hact : some (active g') (<[i := l']> ls) → some (notifies g') (<[i := l']> ls)).
  { intros (j & x & Hj & Hx). exists j, x. auto. }
  destruct step_queue as [Hq|[[[b Hb] Hq]|(Hwl & Hwl' & Hq)]].
  - rewrite Hq in Hne. destruct (aw_writers _ _ _ _ _ _ Ha Hne) as [|(j & x & Hj & Hx)]; [by apply Hww|].
    destruct (decide (j = i)) as [-> | Hji]; [|right; by eapply Hkeep]. assert (x = l) as -> by congruence.
    destruct (notifies_cases _ _ _ Hx) as [[b Hb]|[[b Hb]|Hx']].
    + right. eapply some_here; [exact Hl|]. by rewrite (step_add b Hb).
    + right. by apply Hact, (step_woken b Hb).
    + destruct step_active_self as [Ha'|]; [exact Hx'| |by left]. right. eapply some_here; [exact Hl|]. by apply Hself.
  - assert (Hne0 : writers g ≠ []) by (intros H0; rewrite Hq, H0 in Hne; done). right. apply Hact. by apply (step_woken b Hb).
  - rewrite Hwl in *. destruct (aw_wait _ _ _ _ _ _ Ha i Hl) as [|(j & x & Hj & [b ->])]; [by apply Hww|].
    right. eapply (Hkeep j); [|exact Hj|done]. intros ->. rewrite Hj in Hl. done.
Qed.

(** The thread in charge acts and the bits stay. *)
Lemma step_in_charge : r = 0 → rw || ww = true → r' = r → rw' = rw → ww' = ww → in_charge g rw ww i l → some (in_charge g' rw ww) (<[i := l']> ls).
Proof using All.
  intros Hr0 Hbits Hr' Hrw' Hww' Hc. destruct Hv as [Hw _]. destruct Hv' as [Hw' _]. rewrite Hr', Hrw', Hww' in Hw'. rewrite Hr0 in Hw, Hw'.
  apply in_charge_cases in Hc as [[Hl' Hb]|[(Hl' & Hb & Hb')|[Hb [Hl'|[Hl'|[Hl'|Hact]]]]]].
  - eapply some_here; [exact Hl|]. rewrite Hl', Hb in *. open_step Hs. cbn -[Z.eqb] in Hs. rewrite Hw in Hs.
    destruct rw; cbn in Hs; by step_cases Hs.
  - eapply some_here; [exact Hl|]. rewrite Hl', Hb, Hb' in *. open_step Hs. cbn -[Z.eqb] in Hs. rewrite Hw in Hs. cbn in Hs. by step_cases Hs.
  - rewrite Hb, orb_false_r in Hbits. rewrite Hl', Hb, Hbits in *. open_step Hs. cbn -[Z.eqb] in Hs. rewrite Hw in Hs. cbn in Hs. by step_cases Hs.
  - eapply some_here; [exact Hl|]. by rewrite (step_add true Hl').
  - destruct (step_woken true Hl') as [Hwk Hnone]. destruct (decide (writers g = [])) as [H0|Hne].
    + eapply some_here; [exact Hl|]. by rewrite (Hnone eq_refl H0).
    + destruct (Hwk Hne) as (j & x & Hj & Hx). exists j, x. split; [done|]. rewrite Hb. by apply in_charge_active.
  - destruct (step_active_self Hact) as [Hact'|]; [|congruence]. eapply some_here; [exact Hl|]. rewrite Hb. by apply in_charge_active.
Qed.

Lemma step_charge_other j x rw0 ww0 : j ≠ i → ls !! j = Some x → in_charge g rw0 ww0 j x → in_charge g' rw0 ww0 j x.
Proof using All. intros Hne Hj Hx. pose proof (step_active j x Hne Hj). destruct x as [| | | | | | | | | | | | | | | | | | | | | | | | | | |[]|[]| |]; cbn in *; tauto. Qed.

Lemma wake_start_charge rw0 ww0 : rw0 || ww0 = true → in_charge g' rw0 ww0 i (wake_start (mk 0 rw0 ww0)).
Proof using All. by destruct rw0, ww0. Qed.

Lemma step_free : (0 < r < MASK → rw = true → ww = true) → r' = 0 → rw' || ww' = true → some (in_charge g' rw' ww') (<[i := l']> ls).
Proof using All.
  intros Hsb Hr0 Hbits. assert (Hrr : 0 ≤ r ≤ MASK) by apply Hv. pose proof step_in_charge as Hcharge. pose proof step_charge_other as Hother.
  pose proof wake_start_charge as Hwake. pose proof (aw_free _ _ _ _ _ _ Ha) as Hfree.
  inversion Hm as [? ? ? Hp| |? ? ? Hset|? ? ? ? Hlt Hl'| | |? ? ? Hl'| | |]; subst; try done; try (unfold MASK in *; lia).
  - destruct (Hfree eq_refl Hbits) as (j & x & Hj & Hx). destruct (decide (j = i)) as [-> | Hne].
    + assert (x = l) as -> by congruence. by apply Hcharge.
    + exists j, x. rewrite list_lookup_insert_ne by done. split; [done|]. by apply Hother.
  - destruct Hset as [|Hww]; [unfold MASK in *; lia|]. rewrite Hww in *. destruct (Hfree eq_refl eq_refl) as (j & x & Hj & Hx).
    apply in_charge_cases in Hx as [[-> _]|[(_ & [=] & _)|[[=] _]]].
    exists j, WakeW. rewrite list_lookup_insert_ne by (intros ->; congruence). done.
  - assert (Hww : ww' = true) by (destruct rw'; [apply Hsb; [lia|done]|done]). eapply some_here; [exact Hl|]. rewrite Hww in *.
    rewrite (proj2 (Z.eqb_eq r 1)) by lia. by apply Hwake.
  - eapply some_here; [exact Hl|]. rewrite orb_comm in Hbits. rewrite Hbits. apply Hwake. by rewrite orb_comm.
  - by eapply some_here.
Qed.

Lemma step_awake : (0 < r < MASK → rw = true → ww = true) → awake (S k) g' (<[i := l']> ls) r' rw' ww'.
Proof using All.
  intros Hsb. destruct (queues_step i g ls l g' l' (aw_rq _ _ _ _ _ _ Ha) (aw_wq _ _ _ _ _ _ Ha) Hl Hs) as [Hrq Hwq].
  split; [done|done|apply step_readers|by apply step_free|apply step_writers|apply step_count|apply step_seq|apply step_wait].
Qed.
End step.

(** ** Theorems *)

Definition inv (n : nat) (k : nat) (g : rwlock) (ls : list point) : Prop :=
  length ls = n ∧ ∃ r rw ww, safe g ls r rw ww ∧ (Z.of_nat k < 2 ^ 64 → awake k g ls r rw ww).

Lemma rw_reach n k c : Z.of_nat n < MAX_READERS → reach_in step k (start n) c → inv n k (shared c) (threads c).
Proof.
  intros Hn. apply (reach_in_inv step (inv n)).
  - intros k' i g ls l g' l' (Hlen & r & rw & ww & Hsafe & Ha) Hl Hs. split; [by rewrite length_insert|].
    destruct (safe_step _ _ _ _ _ _ _ _ _ Hsafe ltac:(by rewrite Hlen) Hl Hs) as (r' & rw' & ww' & Hsafe' & Hm).
    exists r', rw', ww'. split; [done|]. intros Hk. destruct Hsafe as [Hv _ Hb _]. destruct Hsafe' as [Hv' _ _ _].
    eapply (step_awake k' i g g' ls l l'); eauto; [apply Ha|]; lia.
  - split; [apply length_replicate|]. exists 0, false, false. split.
    + split; [split; [done|unfold MASK; lia]| |done|].
      * left. cbn. rewrite !count_replicate by done. unfold MAX_READERS, MASK. lia.
      * intros i l [-> _]%lookup_replicate. done.
    + intros _. split; cbn; try done; try apply sleeping_nil.
      * intros i seq [[? _]%lookup_replicate|[? _]%lookup_replicate]; done.
      * intros i [? _]%lookup_replicate. done.
Qed.

(** C30: A writer has the lock alone: while one writes no other thread reads or writes. The word
    of the lock counts the readers, and no assertion of the lock fails, with fewer than
    [MAX_READERS] threads that lock and unlock it in any interleaving. *)
Theorem rwlock_exclusion n c : Z.of_nat n < MAX_READERS → reach step (start n) c →
  ((count writing (threads c) = 0 ∧ Z.land (word (shared c)) MASK = count reading (threads c)) ∨
   (count writing (threads c) = 1 ∧ count reading (threads c) = 0 ∧ is_write_locked (word (shared c)) = true)) ∧
  ∀ i, threads c !! i ≠ Some Panicked.
Proof.
  intros Hn [k Hk]%reach_reach_in. destruct (rw_reach n k c Hn Hk) as (_ & r & rw & ww & [[Hw Hr] Hlock _ Hloc] & _). split.
  - rewrite Hw, mk_mask, mk_write_locked by done. destruct Hlock as [(-> & -> & _)|(-> & -> & ->)]; auto.
  - intros i Hi. by apply Hloc in Hi.
Qed.

(** Threads that have the lock, wake others, or are writers about to try again. *)
Definition will_wake (g : rwlock) (i : nat) (l : point) : Prop :=
  reading l = true ∨ writing l = true ∨ active g i l ∨
  match l with WakeW | WakeB | WakeR | NotifyAdd _ | NotifyWake _ | WakeAll => True | _ => False end.

Lemma rw_can_step i g l : step i g l = [] → (l = RAsleep ∧ i ∈ readers g) ∨ (l = WAsleep ∧ i ∈ writers g) ∨ l = Panicked.
Proof.
  unfold step, try_read, read, read_contended, read_unlock, try_write, write, write_contended, write_unlock,
    wake_writer_or_readers, wake_writer, calls, cas, cas_weak, spin_read, spin_write, spin_until. intros H.
  destruct l; cbn in H; repeat case_match; cbn in H; try done; try case_bool_decide; try done; auto.
Qed.

(** C32: When a thread sleeps in [read] or [write], another one has the lock, is about to wake
    threads, or is a writer that is awake and about to take the lock, and that thread is not
    blocked: the threads that use a lock never all sleep. The count of notifications has 64
    bits; the theorem is about runs in which it does not overflow. *)
Theorem rwlock_no_lost_wakeup n k c i : Z.of_nat n < MAX_READERS → Z.of_nat k < 2 ^ 64 → reach_in step k (start n) c →
  i ∈ readers (shared c) ∨ i ∈ writers (shared c) →
  ∃ j l, threads c !! j = Some l ∧ will_wake (shared c) j l ∧ step j (shared c) l ≠ [].
Proof.
  intros Hn Hk Hr Hi. destruct (rw_reach n k c Hn Hr) as (_ & r & rw & ww & [[Hw Hrr] Hlock _ Hloc] & Ha). specialize (Ha Hk).
  assert (Hj : some (will_wake (shared c)) (threads c)).
  { assert (Hbits : rw || ww = true ∨ some (will_wake (shared c)) (threads c)).
    { destruct Hi as [Hi|Hi].
      - destruct (aw_readers _ _ _ _ _ _ Ha) as [-> | (j & l & Hj & ->)]; [intros H0; rewrite H0 in Hi; set_solver|by left|].
        right. exists j, WakeAll. split; [done|]. unfold will_wake. auto.
      - destruct (aw_writers _ _ _ _ _ _ Ha) as [-> | (j & l & Hj & Hl)]; [intros H0; rewrite H0 in Hi; set_solver|left; apply orb_true_r|].
        right. exists j, l. split; [done|]. unfold will_wake. destruct l; cbn in *; auto. }
    destruct Hbits as [Hbits|]; [|done]. destruct (decide (r = 0)) as [Hr0|Hr0].
    - destruct (aw_free _ _ _ _ _ _ Ha Hr0 Hbits) as (j & l & Hj & Hl). exists j, l. split; [done|]. unfold will_wake.
      apply in_charge_cases in Hl as [[-> _]|[[-> _]|[_ [->|[->|[->|Hl]]]]]]; auto.
    - assert (Hc : 0 < count reading (threads c) ∨ 0 < count writing (threads c)) by (unfold lock_ok in Hlock; lia).
      destruct Hc as [(j & l & Hj & Hl)%count_pos|(j & l & Hj & Hl)%count_pos]; exists j, l; unfold will_wake; auto. }
  destruct Hj as (j & l & Hj & Hl). exists j, l. split; [done|]. split; [done|]. intros Hb.
  apply rw_can_step in Hb as [[-> Hin]|[[-> Hin]| ->]]; unfold will_wake in Hl; cbn in Hl.
  - by destruct Hl as [|[|[|]]].
  - by destruct Hl as [|[|[|]]].
  - by apply Hloc in Hj.
Qed.

(** ** A run: a reader and a writer sleep while a thread writes *)

Module RwWitness.
Definition sched : list (nat * nat) :=
  [(0, 3); (0, 1); (1, 1); (1, 0); (1, 0); (1, 0); (1, 1); (2, 3); (2, 0); (2, 0); (2, 0); (2, 0); (2, 0); (2, 1)]%nat.
Definition busy : conf rwlock point := default (start 0) (run step sched (start 3)).

Lemma rwlock_exclusion_witness : is_write_locked (word (shared busy)) = true ∧
  ((count writing (threads busy) = 0 ∧ Z.land (word (shared busy)) MASK = count reading (threads busy)) ∨
   (count writing (threads busy) = 1 ∧ count reading (threads busy) = 0 ∧ is_write_locked (word (shared busy)) = true)).
Proof.
  split; [reflexivity|]. apply (rwlock_exclusion 3 busy); [done|]. apply (run_reach step sched). reflexivity.
Defined.

Lemma rwlock_no_lost_wakeup_witness : ∃ j l, threads busy !! j = Some l ∧ will_wake (shared busy) j l ∧ step j (shared busy) l ≠ [].
Proof.
  apply (rwlock_no_lost_wakeup 3 (length sched) busy 2); [done|done|apply (run_reach_in step sched); reflexivity|].
  right. change (writers (shared busy)) with [2%nat]. by left.
Defined.
End RwWitness.
