(* ===== verification/Deque.v ===== *)
(** * Work-stealing queues ([h2o/kernel/src/sched/imp/deque.rs])

    [Worker] and [Stealer]: a ring of slots that the owner, thread 0, pushes tasks to and pops
    them from, and that other threads steal from at its front. The functions are cut at their
    accesses to what threads share; only the owner writes the back index, the slots and which
    buffer is in use, so that its own reads of these belong to the step before. A buffer that was
    replaced is kept: the epochs under which it is read do not let it be freed before.

    Tasks are numbered as they are pushed. [taken] is the list of the tasks that calls have
    taken, in the order in which this was decided; it is not part of the queue. *)

From S2P Require Import Base Threads.
Local Open Scope Z_scope.

Definition MIN_CAP : Z := 64.

(** [wrapping_add] and [wrapping_sub] of [isize]. *)
Definition iwrap (z : Z) : Z := (z + 2 ^ 63) mod 2 ^ 64 - 2 ^ 63.

(** ** Buffers *)

Record Buffer := MkBuffer { cap : Z; slots : gmap Z nat }.

Definition alloc (cap : Z) : Buffer := MkBuffer cap ∅.
Definition at_ (b : Buffer) (index : Z) : Z := Z.land index (cap b - 1).
Definition bwrite (b : Buffer) (index : Z) (task : nat) : Buffer := MkBuffer (cap b) (<[at_ b index := task]> (slots b)).
Definition bread (b : Buffer) (index : Z) : option nat := slots b !! at_ b index.

(** ** The queue *)

Inductive Flavor := Fifo | Lifo.

Record deque := MkDeque {
  front : Z;
  back : Z;
  buffers : list Buffer;  (* all that were allocated *)
  buffer : nat;           (* the one in use *)
  pushed : nat;           (* how many tasks were pushed *)
  taken : list nat;
}.
Definition with_front (d : deque) (x : Z) : deque := MkDeque x (back d) (buffers d) (buffer d) (pushed d) (taken d).
Definition with_back (d : deque) (x : Z) : deque := MkDeque (front d) x (buffers d) (buffer d) (pushed d) (taken d).
Definition with_buffer (d : deque) (l : list Buffer) (x : nat) : deque := MkDeque (front d) (back d) l x (pushed d) (taken d).
Definition with_pushed (d : deque) (x : nat) : deque := MkDeque (front d) (back d) (buffers d) (buffer d) x (taken d).
Definition take_task (d : deque) (t : nat) : deque := MkDeque (front d) (back d) (buffers d) (buffer d) (pushed d) (taken d ++ [t]).

(** [new_fifo] and [new_lifo]. *)
Definition new : deque := MkDeque 0 0 [alloc MIN_CAP] 0 0 [].

Definition cur (d : deque) : Buffer := default (alloc MIN_CAP) (buffers d !! buffer d).

(** What the owner does after [resize]. *)
Inductive resized :=
  | ToPush
  | ToReturn (task : nat).

Inductive point :=
  | Idle
  | Push                              (* [push]: at the load of [front] *)
  | Resize (new_cap : Z) (k : resized)   (* [resize]: at the load of [front] *)
  | Swap (new_cap f : Z) (k : resized)   (* at the swap of the buffer *)
  | PushWrite                         (* [push]: at the write of the slot *)
  | PushStore                         (* at the store of [back] *)
  | Pop                               (* [pop]: at the load of [front] *)
  | FifoAdd (len : Z)                 (* at [fetch_add] *)
  | FifoRestore (f : Z)               (* at the store of [front] *)
  | FifoRead (f len : Z)              (* at the read of the slot *)
  | LifoStore                         (* at the store of [back] *)
  | LifoLoad (b : Z)                  (* at the second load of [front] *)
  | LifoRestore (b : Z)
  | LifoCas (b f : Z) (task : nat)    (* the last task: at [compare_exchange] *)
  | LifoBack (b : Z) (r : option nat) (* after it, at the store of [back] *)
  | Popped (r : option nat)
  | Steal                             (* [steal]: at the load of [front] *)
  | StealBack (f : Z)                 (* at the load of [back] *)
  | StealBuffer (f : Z)               (* at the load of the buffer *)
  | StealRead (f : Z) (buf : nat)     (* at the read of the slot *)
  | StealCheck (f : Z) (buf : nat) (task : option nat)  (* at the second load of the buffer *)
  | StealCas (f : Z) (task : option nat)                (* at [compare_exchange] *)
  | Empty
  | Retry
  | Success (task : nat)
  | Stuck.                            (* a slot that was never written was given out *)

(** ** The owner *)

(** The loop of [resize]: the slots from [f] on to a new buffer. *)
Fixpoint copy (n : nat) (old new : Buffer) (i : Z) : Buffer :=
  match n with
  | O => new
  | S n => copy n old (match bread old i with Some t => bwrite new i t | None => new end) (iwrap (i + 1))
  end.

Definition after_resize (k : resized) : point := match k with ToPush => PushWrite | ToReturn t => Popped (Some t) end.

Definition resize (d : deque) (l : point) : list (deque * point) :=
  match l with
  | Resize new_cap k => [(d, Swap new_cap (front d) k)]
  | Swap new_cap f k =>
      let new := copy (Z.to_nat (iwrap (back d - f))) (cur d) (alloc new_cap) f in
      [(with_buffer d (buffers d ++ [new]) (length (buffers d)), after_resize k)]
  | _ => []
  end.

Definition push (d : deque) (l : point) : list (deque * point) :=
  match l with
  | Push =>
      let len := iwrap (back d - front d) in
      [(d, if cap (cur d) <=? len then Resize (2 * cap (cur d)) ToPush else PushWrite)]
  | PushWrite => [(with_buffer d (<[buffer d := bwrite (cur d) (back d) (pushed d)]> (buffers d)) (buffer d), PushStore)]
  | PushStore => [(with_pushed (with_back d (iwrap (back d + 1))) (S (pushed d)), Idle)]
  | _ => []
  end.

(** A task is taken; the buffer is halved when [small]. *)
Definition shrink (d : deque) (small : bool) (t : nat) : point :=
  if (MIN_CAP <? cap (cur d)) && small then Resize (cap (cur d) / 2) (ToReturn t) else Popped (Some t).

Definition pop (fl : Flavor) (d : deque) (l : point) : list (deque * point) :=
  match l with
  | Pop =>
      let len := iwrap (back d - front d) in
      [(d, if len <=? 0 then Popped None else match fl with Fifo => FifoAdd len | Lifo => LifoStore end)]
  | FifoAdd len =>
      let new_f := iwrap (front d + 1) in
      [(with_front d new_f, if iwrap (back d - new_f) <? 0 then FifoRestore (front d) else FifoRead (front d) len)]
  | FifoRestore f => [(with_front d f, Popped None)]
  | FifoRead f len =>
      match bread (cur d) f with
      | Some t => [(take_task d t, shrink d (len <=? cap (cur d) / 4) t)]
      | None => [(d, Stuck)]
      end
  | LifoStore => let b := iwrap (back d - 1) in [(with_back d b, LifoLoad b)]
  | LifoLoad b =>
      let len := iwrap (b - front d) in
      if len <? 0 then [(d, LifoRestore b)]
      else match bread (cur d) b with
      | Some t =>
          if len =? 0 then [(d, LifoCas b (front d) t)]
          else [(take_task d t, shrink d (len <? cap (cur d) / 4) t)]
      | None => [(d, Stuck)]
      end
  | LifoRestore b => [(with_back d (iwrap (b + 1)), Popped None)]
  | LifoCas b f t =>
      if front d =? f then [(take_task (with_front d (iwrap (f + 1))) t, LifoBack b (Some t))] else [(d, LifoBack b None)]
  | LifoBack b r => [(with_back d (iwrap (b + 1)), Popped r)]
  | _ => []
  end.

(** ** Stealers *)

Definition steal (d : deque) (l : point) : list (deque * point) :=
  match l with
  | Steal => [(d, StealBack (front d))]
  | StealBack f => [(d, if iwrap (back d - f) <=? 0 then Empty else StealBuffer f)]
  | StealBuffer f => [(d, StealRead f (buffer d))]
  | StealRead f buf => [(d, StealCheck f buf (b ← buffers d !! buf; bread b f))]
  | StealCheck f buf t => [(d, if bool_decide (buffer d = buf) then StealCas f t else Retry)]
  | StealCas f t =>
      if front d =? f then
        match t with
        | Some t => [(take_task (with_front d (iwrap (f + 1))) t, Success t)]
        | None => [(d, Stuck)]
        end
      else [(d, Retry)]
  | _ => []
  end.

(** The owner pushes and pops, the others steal. *)
Definition calls (i : nat) (d : deque) (l : point) : list (deque * point) :=
  match l with
  | Idle | Popped _ | Empty | Retry | Success _ => if bool_decide (i = 0%nat) then [(d, Push); (d, Pop)] else [(d, Steal)]
  | _ => []
  end.

Definition step (fl : Flavor) (i : nat) (d : deque) (l : point) : list (deque * point) :=
  push d l ++ resize d l ++ pop fl d l ++ steal d l ++ calls i d l.

Definition start (n : nat) : conf deque point := Conf new (replicate n Idle).

(** ** Every task of a work-stealing queue is taken once

    The invariant of [Deque] over all interleavings of an owner and stealers. *)

(** ** Buffers *)

Definition pow2 (c : Z) : Prop := ∃ n, 0 ≤ n ∧ c = 2 ^ n.

Lemma cap_pos c : pow2 c → 0 < c.
Proof. intros (n & Hn & ->). lia. Qed.

Lemma at_mod b i : pow2 (cap b) → at_ b i = i mod cap b.
Proof. intros (n & Hn & Hc). unfold at_. rewrite Hc. by apply land_ones_mod. Qed.

(** Indices that are less than a lap apart have different slots. *)
Lemma at_ne b i j : pow2 (cap b) → i < j < i + cap b → at_ b i ≠ at_ b j.
Proof.
  intros Hp Hij. rewrite !at_mod by done. pose proof (cap_pos _ Hp). intros Heq.
  assert (Hd : (j - i) mod cap b = 0) by (rewrite Zminus_mod, Heq, Z.sub_diag; apply Z.mod_0_l; lia).
  rewrite Z.mod_small in Hd by lia. lia.
Qed.

Lemma bread_write b i t : bread (bwrite b i t) i = Some t.
Proof. unfold bread, bwrite, at_. cbn. apply lookup_insert_eq. Qed.
Lemma bread_write_ne b i j t : pow2 (cap b) → i ≠ j → Z.abs (i - j) < cap b → bread (bwrite b i t) j = bread b j.
Proof.
  intros Hp Hne Hd. unfold bread, bwrite. cbn. apply lookup_insert_ne. change (at_ (MkBuffer (cap b) _) j) with (at_ b j).
  destruct (Z.lt_total i j) as [Hlt|[?|Hlt]]; [|done|]; [|intros ?; symmetry in H; revert H]; apply at_ne; (done || lia).
Qed.

Lemma iwrap_small z : - 2 ^ 63 ≤ z < 2 ^ 63 → iwrap z = z.
Proof. intros Hz. unfold iwrap. rewrite Z.mod_small; lia. Qed.

Lemma copy_cap n old new i : cap (copy n old new i) = cap new.
Proof. revert new i. induction n as [|n IH]; intros new i; cbn; [done|]. rewrite IH. by destruct (bread old i). Qed.

Lemma copy_keep n old new i j : pow2 (cap new) → 0 ≤ i → i + Z.of_nat n < 2 ^ 62 → j < i → i + Z.of_nat n ≤ j + cap new →
  bread (copy n old new i) j = bread new j.
Proof.
  revert new i. induction n as [|n IH]; intros new i Hp Hi Hn Hj Hc; [done|]. cbn [copy]. rewrite iwrap_small by lia.
  destruct (bread old i) as [t|]; rewrite IH; cbn [cap bwrite]; try done; try lia. apply bread_write_ne; [done|lia|lia].
Qed.

Lemma copy_read n old new i j t : pow2 (cap new) → 0 ≤ i → i + Z.of_nat n < 2 ^ 62 → i ≤ j < i + Z.of_nat n → Z.of_nat n ≤ cap new →
  bread old j = Some t → bread (copy n old new i) j = Some t.
Proof.
  revert new i. induction n as [|n IH]; intros new i Hp Hi Hn Hj Hc Ht; [lia|]. cbn [copy]. rewrite iwrap_small by lia.
  destruct (decide (j = i)) as [-> | Hne].
  - rewrite Ht. rewrite copy_keep; cbn [cap bwrite]; try done; try lia. apply bread_write.
  - apply IH; try done; try lia; destruct (bread old i); cbn [cap bwrite]; try done; lia.
Qed.

(** ** The invariant *)

(** The ends of the queue, while the owner has moved an index it may have to move back. *)
Definition lfront (o : point) (d : deque) : Z := match o with FifoRestore f => f | _ => front d end.
Definition lback (o : point) (d : deque) : Z :=
  match o with LifoLoad b | LifoRestore b | LifoCas b _ _ | LifoBack b _ => b + 1 | _ => back d end.

(** The tasks from index [f] on. *)
Definition content (b : Buffer) (f : Z) (q : list nat) : Prop := ∀ n t, q !! n = Some t → bread b (f + Z.of_nat n) = Some t.

(** The task that the owner has taken and not read yet. *)
Definition inflight (b : Buffer) (o : point) : list nat := match o with FifoRead f _ => option_list (bread b f) | _ => [] end.

Definition fits (k : resized) (len new_cap : Z) : Prop := match k with ToPush => len < new_cap | ToReturn _ => len ≤ new_cap end.

Definition owner (fl : Flavor) (o : point) (d : deque) (b : Buffer) : Prop :=
  match o with
  | Idle | Push | Pop | Popped _ => True
  | PushWrite => back d - front d < cap b
  | PushStore => back d - front d < cap b ∧ bread b (back d) = Some (pushed d)
  | Resize nc k => (pow2 nc ∧ 64 ≤ nc) ∧ fits k (back d - front d) nc
  | Swap nc f k => (pow2 nc ∧ 64 ≤ nc) ∧ fits k (back d - f) nc ∧ 0 ≤ f ≤ front d
  | FifoAdd len => fl = Fifo ∧ back d - front d ≤ len
  | FifoRestore f => fl = Fifo ∧ front d = f + 1 ∧ back d = f
  | FifoRead f len => fl = Fifo ∧ 0 ≤ f < front d ∧ back d - front d ≤ len ∧ is_Some (bread b f)
  | LifoStore => fl = Lifo ∧ 0 < back d
  | LifoLoad x => fl = Lifo ∧ back d = x
  | LifoRestore x | LifoBack x _ => fl = Lifo ∧ back d = x ∧ front d = x + 1
  | LifoCas x f t => fl = Lifo ∧ back d = x ∧ f = x ∧ x ≤ front d ∧ bread b x = Some t
  | _ => False
  end.

Definition stealer (fl : Flavor) (k : nat) (d : deque) (b : Buffer) (lf lb : Z) (l : point) : Prop :=
  match l with
  | Idle | Steal | Empty | Retry | Success _ => True
  | StealBack f => 0 ≤ f ≤ Z.of_nat k ∧ (fl = Lifo → f ≤ front d)
  | StealBuffer f => 0 ≤ f < lb ∧ (fl = Lifo → f ≤ front d)
  | StealRead f buf => 0 ≤ f < lb ∧ (fl = Lifo → f ≤ front d) ∧ ∃ x, buffers d !! buf = Some x ∧ (lf ≤ f → bread x f = bread b f)
  | StealCheck f _ t | StealCas f t => 0 ≤ f < lb ∧ (fl = Lifo → f ≤ front d) ∧ (lf ≤ f → t = bread b f)
  | _ => False
  end.

Record good (fl : Flavor) (k : nat) (d : deque) (o : point) (b : Buffer) (q : list nat) : Prop := Good {
  g_cur : buffers d !! buffer d = Some b;
  g_cap : pow2 (cap b) ∧ 64 ≤ cap b;
  g_bounds : 0 ≤ lfront o d ∧ 0 ≤ back d ∧ front d ≤ Z.of_nat k ∧ lback o d ≤ Z.of_nat k;
  g_len : Z.of_nat (length q) = lback o d - lfront o d;
  g_fit : lback o d - lfront o d ≤ cap b;
  g_content : content b (lfront o d) q;
  g_perm : taken d ++ inflight b o ++ q ≡ₚ seq 0 (pushed d);
  g_owner : owner fl o d b;
  g_fifo : fl = Fifo → Z.of_nat (pushed d) = back d ∧ q = seq (Z.to_nat (lfront o d)) (length q);
}.

Definition inv (fl : Flavor) (k : nat) (d : deque) (ls : list point) : Prop :=
  ∃ o b q, good fl k d o b q ∧ ls !! 0%nat = Some o ∧ ∀ j x, ls !! j = Some x → j ≠ 0%nat → stealer fl k d b (lfront o d) (lback o d) x.

(** What stealers rely on. *)
Record mono (fl : Flavor) (d d' : deque) (b b' : Buffer) (lf lf' lb lb' : Z) : Prop := Mono {
  m_front : fl = Lifo → front d ≤ front d';
  m_lf : lf ≤ lf';
  m_lb : lb ≤ lb' ∨ (fl = Lifo ∧ front d < lb');
  m_cur f : lf' ≤ f < lb → bread b' f = bread b f;
  m_buf i x : buffers d !! i = Some x → ∃ x', buffers d' !! i = Some x' ∧ ∀ f, lf' ≤ f < lb → bread x' f = bread x f;
}.

Lemma stealer_mono fl k d d' b b' lf lf' lb lb' x : mono fl d d' b b' lf lf' lb lb' → stealer fl k d b lf lb x → stealer fl (S k) d' b' lf' lb' x.
Proof.
  intros [Hf Hlf Hlb Hcur Hbuf] Hs.
  assert (Hl : ∀ f, 0 ≤ f < lb → (fl = Lifo → f ≤ front d) → 0 ≤ f < lb' ∧ (fl = Lifo → f ≤ front d')).
  { intros f Hfl Hfr. split; [|intros Hlifo; specialize (Hf Hlifo); specialize (Hfr Hlifo); lia].
    destruct Hlb as [|[Hlifo ?]]; [lia|]. specialize (Hfr Hlifo). lia. }
  destruct x; cbn in *; try done.
  - split; [lia|]. intros Hlifo. specialize (Hf Hlifo). destruct Hs as [_ Hs]. specialize (Hs Hlifo). lia.
  - destruct Hs. by apply Hl.
  - destruct Hs as (H1 & H2 & y & Hy & Hr). destruct (Hbuf _ _ Hy) as (y' & Hy' & Hr'). destruct (Hl f H1 H2). split; [done|]. split; [done|].
    exists y'. split; [done|]. intros Hle. rewrite Hr', Hcur by lia. apply Hr. lia.
  - destruct Hs as (H1 & H2 & Hr). destruct (Hl f H1 H2). split; [done|]. split; [done|]. intros Hle. rewrite Hcur by lia. apply Hr. lia.
  - destruct Hs as (H1 & H2 & Hr). destruct (Hl f H1 H2). split; [done|]. split; [done|]. intros Hle. rewrite Hcur by lia. apply Hr. lia.
Qed.

Lemma mono_refl fl d b lf lb : mono fl d d b b lf lf lb lb.
Proof. split; try done; [by left|]. intros i x Hx. by exists x. Qed.

Lemma good_S fl k d o b q : good fl k d o b q → good fl (S k) d o b q.
Proof. intros [? ? ? ? ? ? ? ? ?]. split; try done. lia. Qed.

Lemma content_tail b f t q : content b f (t :: q) → bread b f = Some t ∧ content b (f + 1) q.
Proof.
  intros Hc. split.
  - specialize (Hc 0%nat t eq_refl). by rewrite Z.add_0_r in Hc.
  - intros n x Hx. specialize (Hc (S n) x Hx). by replace (f + 1 + Z.of_nat n) with (f + Z.of_nat (S n)) by lia.
Qed.

(** Tasks of a first-in-first-out queue have the numbers of their indices. *)
Lemma fifo_tail (fl : Flavor) (p : Prop) f (t : nat) q : (fl = Fifo → p ∧ t :: q = seq (Z.to_nat f) (length (t :: q))) → 0 ≤ f →
  fl = Fifo → p ∧ q = seq (Z.to_nat (f + 1)) (length q).
Proof. intros H Hf Hfl. destruct (H Hfl) as [Hp Hq]. cbn in Hq. injection Hq as _ Hq. split; [done|]. by replace (Z.to_nat (f + 1)) with (S (Z.to_nat f)) by lia. Qed.

(** ** Stealers *)

(** The exchange of a stealer succeeds: it takes the task at the front. *)
Lemma steal_front fl k d o b q f t : good fl k d o b q → Z.of_nat k < 2 ^ 62 → 0 ≤ f < lback o d → (lfront o d ≤ f → Some t = bread b f) → front d = f →
  let d' := take_task (with_front d (iwrap (f + 1))) t in
  ∃ q', good fl (S k) d' o b q' ∧ mono fl d d' b b (lfront o d) (lfront o d') (lback o d) (lback o d').
Proof.
  intros [Hcur Hcap Hb Hlen Hfit Hq Hp Ho Hfifo] Hk Hf Ht Hff d'.
  assert (Hw : lfront o d = front d ∧ lback o d' = lback o d ∧ lfront o d' = f + 1).
  { subst d'. destruct o; cbn in *; rewrite ?iwrap_small by lia; try done; lia. }
  destruct Hw as (Hlf & Hlb & Hlf'). destruct q as [|t' q]; [cbn in Hlen; lia|].
  apply content_tail in Hq as [Ht' Hq]. rewrite Hff in Hlf. rewrite Hlf in *. specialize (Ht ltac:(lia)). assert (t' = t) as -> by congruence.
  exists q. split.
  - split; rewrite ?Hlf', ?Hlb; try done.
    + subst d'. cbn. rewrite iwrap_small by lia. lia.
    + cbn in Hlen. lia.
    + lia.
    + subst d'. cbn. rewrite <- Hp. change (inflight b o) with (inflight b o). rewrite <- app_assoc. cbn.
      rewrite (Permutation_middle (inflight b o) q t). done.
    + subst d'. destruct o; cbn in *; rewrite ?iwrap_small by lia; try done; try lia.
      * destruct Ho as [? Hfits]. split; [done|]. destruct k0; cbn in *; lia.
      * destruct Ho as (? & ? & ?). split; [done|]. split; [done|]. lia.
      * destruct Ho. split; [lia|done].
      * destruct Ho. split; [done|lia].
      * destruct Ho as (? & ? & ? & ?). split; [done|]. split; [lia|]. split; [lia|done].
      * destruct Ho as (? & ? & ? & ? & ?). repeat split; try done; lia.
    + eapply fifo_tail; [exact Hfifo|lia].
  - rewrite Hlf', Hlb. split; [subst d'; cbn; rewrite iwrap_small by lia; lia|lia|by left|done|]. intros i x Hx. by exists x.
Qed.

Lemma steal_step fl k i d o b q l d' l' : good fl k d o b q → Z.of_nat k < 2 ^ 62 → i ≠ 0%nat → stealer fl k d b (lfront o d) (lback o d) l →
  (d', l') ∈ step fl i d l →
  ∃ q', good fl (S k) d' o b q' ∧ mono fl d d' b b (lfront o d) (lfront o d') (lback o d) (lback o d') ∧
    stealer fl (S k) d' b (lfront o d') (lback o d') l'.
Proof.
  intros Hg Hk Hi Hst Hs. pose proof (good_S _ _ _ _ _ _ Hg) as HS. pose proof Hg as [Hcur Hcap Hb Hlen Hfit Hq Hp Ho Hfifo].
  assert (Hsame : ∀ l0, stealer fl (S k) d b (lfront o d) (lback o d) l0 → ∃ q', good fl (S k) d o b q' ∧
    mono fl d d b b (lfront o d) (lfront o d) (lback o d) (lback o d) ∧ stealer fl (S k) d b (lfront o d) (lback o d) l0).
  { intros l0 Hl0. exists q. split; [done|]. split; [apply mono_refl|done]. }
  unfold step, push, resize, pop, steal, calls in Hs. rewrite bool_decide_false in Hs by done.
  destruct l; cbn in Hst, Hs; try done; try (step_cases Hs; apply Hsame; cbn; done).
  - step_cases Hs. apply Hsame. cbn. split; [|lia]. assert (0 ≤ front d) by (destruct o; cbn in *; lia). lia.
  - assert (Hlb : back d ≤ lback o d ∧ 0 ≤ back d) by (destruct o; cbn in *; lia).
    rewrite iwrap_small in Hs by lia. destruct (Z.leb_spec (back d - f) 0); step_cases Hs; apply Hsame; cbn; [done|]. split; [lia|tauto].
  - step_cases Hs. apply Hsame. cbn. destruct Hst. split; [done|]. split; [done|]. by exists b.
  - step_cases Hs. apply Hsame. cbn. destruct Hst as (? & ? & x & Hx & Hr). split; [done|]. split; [done|]. intros Hle. rewrite Hx. cbn. by apply Hr.
  - destruct Hst as (Hf & Hlf & Ht). destruct (Z.eqb_spec (front d) f) as [Heq|]; [|cbn in Hs; step_cases Hs; by apply Hsame].
    assert (Hlive : lfront o d ≤ f) by (destruct o; cbn in *; lia).
    destruct task as [t|].
    + cbn in Hs. step_cases Hs. destruct (steal_front fl k d o b q f t Hg Hk Hf Ht Heq) as (q' & Hg' & Hm). by exists q'.
    + exfalso. destruct q as [|t q]; [cbn in Hlen; destruct o; cbn in *; lia|]. apply content_tail in Hq as [Hq _].
      assert (Hff : lfront o d = f) by (destruct o; cbn in *; lia). rewrite Hff in Hq. specialize (Ht Hlive). congruence.
Qed.

(** ** The owner *)

Definition step_ok (fl : Flavor) (k : nat) (d : deque) (o : point) (b : Buffer) (d' : deque) (o' : point) : Prop :=
  ∃ b' q', good fl (S k) d' o' b' q' ∧ mono fl d d' b b' (lfront o d) (lfront o' d') (lback o d) (lback o' d').

Lemma cur_eq fl k d o b q : good fl k d o b q → cur d = b.
Proof. intros Hg. unfold cur. by rewrite (g_cur _ _ _ _ _ _ Hg). Qed.

(** The owner moves on and the queue stays. *)
Lemma same_ok fl k d o b q o' : good fl k d o b q →
  lfront o' d = lfront o d → lback o' d = lback o d → inflight b o' = inflight b o → owner fl o' d b → step_ok fl k d o b d o'.
Proof.
  intros [? ? ? ? ? ? ? ? ?] Hlf Hlb Hin Ho'. exists b, q. split; [|rewrite Hlf, Hlb; apply mono_refl].
  split; rewrite ?Hlf, ?Hlb, ?Hin; try done. lia.
Qed.

Lemma pow2_double c : pow2 c → pow2 (2 * c).
Proof. intros (n & Hn & ->). exists (n + 1). split; [lia|]. rewrite Z.pow_add_r by lia. lia. Qed.

Lemma deque_push_ok fl k d o b q d' o' : good fl k d o b q → Z.of_nat k < 2 ^ 62 → (d', o') ∈ push d o → step_ok fl k d o b d' o'.
Proof.
  intros Hg Hk Hs. pose proof (cur_eq _ _ _ _ _ _ Hg) as Hc. pose proof Hg as [Hcur [Hp2 H64] Hb Hlen Hfit Hq Hp Ho Hfifo].
  assert (Hlt : (buffer d < length (buffers d))%nat) by (by eapply lookup_lt_Some).
  destruct o; cbn in Hs, Hb, Hlen, Hfit, Hq, Hp, Ho; try (by apply elem_of_nil in Hs); rewrite ?Hc in Hs.
  - rewrite iwrap_small in Hs by lia. destruct (Z.leb_spec (cap b) (back d - front d)); step_cases Hs; eapply same_ok; try done; cbn; try lia.
    split; [|lia]. split; [by apply pow2_double|lia].
  - step_cases Hs. assert (Hkeep : ∀ f, front d ≤ f < back d → bread (bwrite b (back d) (pushed d)) f = bread b f).
    { intros f Hf. apply bread_write_ne; [done|lia|lia]. }
    exists (bwrite b (back d) (pushed d)), q. split; [split; cbn; try done|split; cbn; try done].
    + by rewrite list_lookup_insert_eq.
    + lia.
    + intros n t Ht. rewrite Hkeep; [by apply Hq|]. apply lookup_lt_Some in Ht. lia.
    + split; [lia|apply bread_write].
    + by left.
    + intros i x Hx. destruct (decide (i = buffer d)) as [-> | Hne].
      * exists (bwrite b (back d) (pushed d)). rewrite list_lookup_insert_eq by done. split; [done|]. intros f Hf. rewrite Hkeep by done. congruence.
      * exists x. by rewrite list_lookup_insert_ne.
  - step_cases Hs. destruct Ho as [Hroom Hslot]. exists b, (q ++ [pushed d]). rewrite iwrap_small by lia. split; [split; cbn; try done|split; cbn; try done].
    + lia.
    + rewrite length_app. cbn. lia.
    + lia.
    + intros n t Ht. apply lookup_app_Some in Ht as [Ht|[Hge Ht]]; [by apply Hq|]. apply list_lookup_singleton_Some in Ht as [Hn <-].
      replace (front d + Z.of_nat n) with (back d) by lia. done.
    + rewrite app_assoc, Hp. change (0%nat :: seq 1 (pushed d)) with (seq 0 (S (pushed d))). by rewrite seq_S.
    + intros Hfl. destruct (Hfifo Hfl) as [Hpb Hqs]. cbn in Hqs. split; [lia|]. rewrite length_app. cbn [length].
      rewrite Nat.add_1_r, seq_S, <- Hqs. do 2 f_equal. lia.
    + left. lia.
    + intros i x Hx. by exists x.
Qed.

(** Every live index has a task. *)
Lemma live_some b lf lb q f : content b lf q → Z.of_nat (length q) = lb - lf → lf ≤ f < lb → ∃ t, q !! Z.to_nat (f - lf) = Some t ∧ bread b f = Some t.
Proof.
  intros Hq Hlen Hf. destruct (lookup_lt_is_Some_2 q (Z.to_nat (f - lf))) as [t Ht]; [lia|]. exists t. split; [done|].
  specialize (Hq _ _ Ht). by replace (lf + Z.of_nat (Z.to_nat (f - lf))) with f in Hq by lia.
Qed.

Lemma resize_ok fl k d o b q d' o' : good fl k d o b q → Z.of_nat k < 2 ^ 62 → (d', o') ∈ resize d o → step_ok fl k d o b d' o'.
Proof.
  intros Hg Hk Hs. pose proof (cur_eq _ _ _ _ _ _ Hg) as Hc. pose proof Hg as [Hcur [Hp2 H64] Hb Hlen Hfit Hq Hp Ho Hfifo].
  destruct o; cbn in Hs, Hb, Hlen, Hfit, Hq, Hp, Ho; try (by apply elem_of_nil in Hs); rewrite ?Hc in Hs; step_cases Hs.
  - eapply same_ok; try done. cbn. split; [tauto|]. split; [tauto|lia].
  - destruct Ho as ([Hnp Hn64] & Hfits & Hf). rewrite iwrap_small by lia. set (n := Z.to_nat (back d - f)).
    assert (Hn : Z.of_nat n ≤ new_cap) by (subst n; destruct k0; cbn in Hfits; lia).
    set (b' := copy n b (alloc new_cap) f).
    assert (Hread : ∀ i t, front d ≤ i < back d → bread b i = Some t → bread b' i = Some t).
    { intros i t Hi Ht. apply copy_read; cbn; try done; lia. }
    assert (Hsome : ∀ i, front d ≤ i < back d → ∃ t, bread b i = Some t).
    { intros i Hi. destruct (live_some _ _ _ _ _ Hq Hlen Hi) as (t & _ & Ht). by exists t. }
    assert (Hpts : lfront (after_resize k0) d = front d ∧ lback (after_resize k0) d = back d ∧ inflight b' (after_resize k0) = []) by (by destruct k0).
    destruct Hpts as (Hlf & Hlb & Hin).
    exists b', q. set (d2 := with_buffer _ _ _). change (lfront (after_resize k0) d2) with (lfront (after_resize k0) d).
    change (lback (after_resize k0) d2) with (lback (after_resize k0) d). rewrite Hlf, Hlb. split.
    + split; try (change (lfront (after_resize k0) d2) with (lfront (after_resize k0) d); change (lback (after_resize k0) d2) with (lback (after_resize k0) d); rewrite ?Hlf, ?Hlb).
      * subst d2. cbn. rewrite lookup_app_r, Nat.sub_diag by lia. done.
      * unfold b'. rewrite copy_cap. done.
      * subst d2. cbn. lia.
      * done.
      * unfold b'. rewrite copy_cap. cbn. lia.
      * intros m t Ht. pose proof (lookup_lt_Some _ _ _ Ht). apply Hread; [lia|]. by apply Hq.
      * rewrite Hin. done.
      * destruct k0; cbn; [|done]. unfold b'. rewrite copy_cap. cbn in *. lia.
      * exact Hfifo.
    + split; cbn; try done; [by left| |].
      * intros i Hi. destruct (Hsome i Hi) as [t Ht]. rewrite Ht. by apply Hread.
      * intros i x Hx. exists x. split; [|done]. by apply lookup_app_l_Some.
Qed.

Lemma pow2_half c : pow2 c → 64 < c → pow2 (c / 2) ∧ 64 ≤ c / 2.
Proof.
  intros (n & Hn & ->) H. destruct (decide (n ≤ 6)) as [Hle|Hgt].
  - pose proof (Z.pow_le_mono_r 2 n 6 ltac:(lia) Hle). lia.
  - replace n with (n - 1 + 1) by lia. rewrite Z.pow_add_r by lia. rewrite Z.pow_1_r, Z.div_mul by lia. split; [exists (n - 1); lia|].
    pose proof (Z.pow_le_mono_r 2 6 (n - 1) ltac:(lia) ltac:(lia)). lia.
Qed.

(** A task was taken: the owner returns it, perhaps with a smaller buffer. *)
Lemma shrink_point d small t : (∀ x, lfront (shrink d small t) x = front x) ∧ (∀ x, lback (shrink d small t) x = back x) ∧
  ∀ b, inflight b (shrink d small t) = [].
Proof. unfold shrink. by destruct (_ && _). Qed.

Lemma shrink_owner fl d d' b small t : cur d = b → pow2 (cap b) → (small = true → back d' - front d' ≤ cap b / 2) → owner fl (shrink d small t) d' b.
Proof.
  intros Hc Hp Hs. unfold shrink. rewrite Hc. destruct (Z.ltb_spec MIN_CAP (cap b)); cbn; [|done]. destruct small; [|done]. cbn.
  split; [by apply pow2_half|]. by apply Hs.
Qed.

Lemma fifo_ok k d o b q d' o' : good Fifo k d o b q → Z.of_nat k < 2 ^ 62 → (d', o') ∈ pop Fifo d o → step_ok Fifo k d o b d' o'.
Proof.
  intros Hg Hk Hs. pose proof (cur_eq _ _ _ _ _ _ Hg) as Hc. pose proof Hg as [Hcur [Hp2 H64] Hb Hlen Hfit Hq Hp Ho Hfifo].
  destruct o; cbn in Hs, Hb, Hlen, Hfit, Hq, Hp, Ho; try (by apply elem_of_nil in Hs); rewrite ?Hc in Hs; try (by destruct Ho).
  - rewrite iwrap_small in Hs by lia. destruct (Z.leb_spec (back d - front d) 0); step_cases Hs; eapply same_ok; try done; cbn; lia || (split; [done|lia]).
  - rewrite !iwrap_small in Hs by (rewrite ?iwrap_small; lia). destruct (Z.ltb_spec (back d - (front d + 1)) 0) as [Hlt|Hge]; step_cases Hs.
    + exists b, q. split; [split; cbn; try done; try lia; split; [done|lia]|]. split; cbn; try done; [by left|]. intros i x Hx. by exists x.
    + destruct q as [|t q]; [cbn in Hlen; lia|]. apply content_tail in Hq as [Ht Hq]. exists b, q. split; [split; cbn; try done|split; cbn; try done].
      * lia.
      * cbn in Hlen. lia.
      * lia.
      * by rewrite Ht.
      * split; [done|]. split; [lia|]. split; [lia|by eexists].
      * eapply fifo_tail; [exact Hfifo|cbn; lia].
      * lia.
      * by left.
      * intros i x Hx. by exists x.
  - step_cases Hs. destruct Ho as (_ & Hf & Hbk). exists b, q. split; [split; cbn; try done; lia|]. split; cbn; try done; [by left|].
    intros i x Hx. by exists x.
  - destruct Ho as (_ & Hf & Hl & [t Ht]). rewrite Ht in Hs, Hp. step_cases Hs.
    destruct (shrink_point d (len <=? cap b / 4) t) as (Hlf & Hlb & Hin). exists b, q. rewrite Hlf, Hlb. split; [split|split]; rewrite ?Hlf, ?Hlb, ?Hin; cbn; try done.
    + lia.
    + rewrite <- app_assoc. done.
    + apply shrink_owner; [done|done|]. intros Hsm%Z.leb_le. cbn. Z.to_euclidean_division_equations. lia.
    + by left.
    + intros i x Hx. by exists x.
Qed.

(** The owner takes the last task at index [x] while there are others. *)
Lemma take_last k d b q x t o' small : good Lifo k d (LifoLoad x) b q → o' = shrink d small t → cur d = b → front d < x → bread b x = Some t →
  (small = true → x - front d ≤ cap b / 2) → step_ok Lifo k d (LifoLoad x) b (take_task d t) o'.
Proof.
  intros [Hcur [Hp2 H64] Hb Hlen Hfit Hq Hp [_ Hbk] _] -> Hc Hlt Ht Hsm. cbn in *.
  destruct (shrink_point d small t) as (Hlf & Hlb & Hin).
  destruct q as [|t' q _] using rev_ind; [cbn in Hlen; lia|]. rewrite length_app in Hlen. cbn in Hlen.
  assert (t' = t) as ->.
  { specialize (Hq (length q) t'). rewrite list_lookup_middle in Hq by done. specialize (Hq eq_refl).
    replace (front d + Z.of_nat (length q)) with x in Hq by lia. congruence. }
  exists b, q. rewrite Hlf, Hlb. cbn. split; [split|split]; rewrite ?Hlf, ?Hlb, ?Hin; cbn; try done.
  - lia.
  - lia.
  - lia.
  - intros n y Hy. apply Hq. by apply lookup_app_l_Some.
  - rewrite <- app_assoc. cbn. rewrite <- Hp. apply Permutation_app_head. apply (Permutation_app_comm [t] q).
  - apply shrink_owner; [done|done|]. cbn. rewrite Hbk. done.
  - right. split; [done|lia].
  - intros i y Hy. by exists y.
Qed.

Lemma lifo_ok k d o b q d' o' : good Lifo k d o b q → Z.of_nat k < 2 ^ 62 → (d', o') ∈ pop Lifo d o → step_ok Lifo k d o b d' o'.
Proof.
  intros Hg Hk Hs. pose proof (cur_eq _ _ _ _ _ _ Hg) as Hc. pose proof Hg as [Hcur [Hp2 H64] Hb Hlen Hfit Hq Hp Ho Hfifo].
  destruct o; cbn in Hs, Hb, Hlen, Hfit, Hq, Hp, Ho; try (by apply elem_of_nil in Hs); rewrite ?Hc in Hs; try (by destruct Ho).
  - rewrite iwrap_small in Hs by lia. destruct (Z.leb_spec (back d - front d) 0); step_cases Hs; eapply same_ok; try done; cbn. split; [done|lia].
  - step_cases Hs. rewrite iwrap_small by lia. exists b, q. split; [split; cbn; try done; lia|].
    split; cbn; try done; [left; lia|]. intros i x Hx. by exists x.
  - destruct Ho as [_ Hbk]. rewrite iwrap_small in Hs by lia. destruct (Z.ltb_spec (b0 - front d) 0) as [Hlt|Hge]; cbn in Hs.
    + step_cases Hs. eapply same_ok; try done. cbn. split; [done|lia].
    + destruct (live_some _ _ _ _ b0 Hq Hlen ltac:(lia)) as (t & _ & Ht). rewrite Ht in Hs.
      destruct (Z.eqb_spec (b0 - front d) 0) as [H0|Hn0]; cbn in Hs; step_cases Hs.
      * eapply same_ok; try done. cbn. repeat split; try done; lia.
      * eapply take_last; try done; [lia|]. intros Hsm%Z.ltb_lt. Z.to_euclidean_division_equations. lia.
  - step_cases Hs. destruct Ho as (_ & Hbk & Hf). rewrite iwrap_small by lia. exists b, q. split; [split; cbn; try done; lia|].
    split; cbn; try done; [by left|]. intros i x Hx. by exists x.
  - destruct Ho as (_ & Hbk & -> & Hle & Ht). destruct (Z.eqb_spec (front d) b0) as [Heq|Hne]; cbn in Hs; step_cases Hs.
    + rewrite iwrap_small by lia. destruct q as [|t' [|t'' q]]; cbn in Hlen; try lia. apply content_tail in Hq as [Ht' _]. rewrite Heq in Ht'.
      assert (t' = task) as -> by congruence. exists b, []. split; [split; cbn; try done; try lia|].
      * by rewrite app_nil_r.
      * split; cbn; try done; [lia|lia|by left|]. intros i x Hx. by exists x.
    + eapply same_ok; try done. cbn. repeat split; try done; lia.
  - step_cases Hs. destruct Ho as (_ & Hbk & Hf). rewrite iwrap_small by lia. exists b, q. split; [split; cbn; try done; lia|].
    split; cbn; try done; [by left|]. intros i x Hx. by exists x.
Qed.

Lemma deque_owner_step fl k d o b q d' o' : good fl k d o b q → Z.of_nat k < 2 ^ 62 → (d', o') ∈ step fl 0 d o → step_ok fl k d o b d' o'.
Proof.
  intros Hg Hk Hs. unfold step in Hs. rewrite !elem_of_app in Hs. destruct Hs as [Hs|[Hs|[Hs|[Hs|Hs]]]].
  - by eapply deque_push_ok.
  - by eapply resize_ok.
  - destruct fl; [by eapply fifo_ok|by eapply lifo_ok].
  - pose proof (g_owner _ _ _ _ _ _ Hg) as Ho. destruct o; cbn in Hs, Ho; try done; by apply elem_of_nil in Hs.
  - pose proof (g_owner _ _ _ _ _ _ Hg) as Ho. unfold calls in Hs.
    destruct o; cbn in Hs, Ho; try done; try (by apply elem_of_nil in Hs); step_cases Hs; by eapply same_ok.
Qed.

Lemma deque_step fl k i d ls l d' l' : inv fl k d ls → Z.of_nat k < 2 ^ 62 → ls !! i = Some l → (d', l') ∈ step fl i d l → inv fl (S k) d' (<[i := l']> ls).
Proof.
  intros (o & b & q & Hg & Ho & Hst) Hk Hl Hs. destruct (decide (i = 0%nat)) as [-> | Hne].
  - assert (l = o) as -> by congruence. destruct (deque_owner_step _ _ _ _ _ _ _ _ Hg Hk Hs) as (b' & q' & Hg' & Hm).
    exists l', b', q'. split; [done|]. split; [apply list_lookup_insert_eq; by eapply lookup_lt_Some|].
    intros j x Hj Hj0. rewrite list_lookup_insert_ne in Hj by done. eapply stealer_mono; [exact Hm|]. by eapply Hst.
  - destruct (steal_step _ _ _ _ _ _ _ _ _ _ Hg Hk Hne (Hst i l Hl Hne) Hs) as (q' & Hg' & Hm & Hl').
    exists o, b, q'. split; [done|]. split; [by rewrite list_lookup_insert_ne|].
    apply (every_step (λ j x, j ≠ 0%nat → stealer fl (S k) d' b (lfront o d') (lback o d') x)); [|done].
    intros j x Hj _ Hj0. eapply stealer_mono; [exact Hm|]. by eapply Hst.
Qed.

Lemma deque_reach fl n k c : reach_in (step fl) k (start (S n)) c → Z.of_nat k < 2 ^ 62 → inv fl k (shared c) (threads c).
Proof.
  apply (reach_in_inv (step fl) (λ k d ls, Z.of_nat k < 2 ^ 62 → inv fl k d ls)).
  - intros k' i d ls l d' l' IH Hl Hs Hk. eapply deque_step; [apply IH; lia|lia|done|done].
  - intros _. exists Idle, (alloc MIN_CAP), []. split; [|split; [done|]].
    + split; cbn; try done. split; [by exists 6|done].
    + intros j x Hj _. apply lookup_replicate in Hj as [-> _]. done.
Qed.

(** ** Theorems *)

(** The tasks in the queue, from its front. *)
Definition queue_of (d : deque) : list nat := omap (bread (cur d)) (seqZ (front d) (back d - front d)).

Lemma queue_of_content b f q : content b f q → omap (bread b) (seqZ f (Z.of_nat (length q))) = q.
Proof.
  revert f. induction q as [|t q IH]; intros f Hc; [done|]. apply content_tail in Hc as [Ht Hc].
  rewrite seqZ_cons by (cbn; lia). cbn [omap list_omap]. rewrite Ht. f_equal. rewrite <- (IH _ Hc) at 2. do 2 f_equal; cbn; lia.
Qed.

Definition quiet (o : point) : Prop := match o with Idle | Popped _ => True | _ => False end.

(** C24: In every interleaving of an owner that pushes and pops and any number of stealers, each
    task is taken at most once, only tasks that were pushed are taken, and no slot is given out
    that was not written. When the owner is between calls, the tasks taken and those in the
    queue are those pushed: none is lost, also when the buffer grows or shrinks. *)
Theorem deque_takes_once fl n k c : reach_in (step fl) k (start (S n)) c → Z.of_nat k < 2 ^ 62 →
  let d := shared c in
  NoDup (taken d) ∧ (∀ t, t ∈ taken d → (t < pushed d)%nat) ∧ (∀ i, threads c !! i ≠ Some Stuck) ∧
  (∀ o, threads c !! 0%nat = Some o → quiet o → taken d ++ queue_of d ≡ₚ seq 0 (pushed d)).
Proof.
  intros Hr Hk d. destruct (deque_reach _ _ _ _ Hr Hk) as (o & b & q & Hg & Ho & Hst). pose proof Hg as [_ _ _ Hlen _ Hq Hp Hown _].
  assert (Hnd : NoDup (taken d ++ inflight b o ++ q)) by (subst d; rewrite Hp; apply NoDup_seq).
  split; [by apply NoDup_app in Hnd as (? & _ & _)|]. split; [|split].
  - intros t Ht. assert (Hin : t ∈ seq 0 (pushed d)) by (subst d; rewrite <- Hp; apply elem_of_app; by left). apply elem_of_seq in Hin. lia.
  - intros i Hi. destruct (decide (i = 0%nat)) as [-> | Hne]; [rewrite Ho in Hi; injection Hi as ->; done|]. by apply (Hst i Stuck).
  - intros o' Ho' Hquiet. assert (o' = o) as -> by congruence.
    assert (Hlf : lfront o d = front d ∧ lback o d = back d ∧ inflight b o = []) by (by destruct o).
    destruct Hlf as (Hlf & Hlb & Hin). subst d. rewrite Hlf in Hq, Hlen. rewrite Hlb in Hlen. rewrite Hin in Hp.
    unfold queue_of. rewrite (cur_eq _ _ _ _ _ _ Hg), <- Hlen. by rewrite queue_of_content.
Qed.

(** A first-in-first-out queue gives out tasks in the order in which they were pushed: the
    tasks in it are the last ones pushed, in order, whatever was stolen in between. *)
Theorem deque_fifo n k c o : reach_in (step Fifo) k (start (S n)) c → Z.of_nat k < 2 ^ 62 → threads c !! 0%nat = Some o → quiet o →
  let d := shared c in
  queue_of d = seq (Z.to_nat (front d)) (pushed d - Z.to_nat (front d)) ∧ taken d ≡ₚ seq 0 (Z.to_nat (front d)).
Proof.
  intros Hr Hk Ho' Hquiet d. destruct (deque_reach _ _ _ _ Hr Hk) as (o0 & b & q & Hg & Ho & Hst).
  pose proof Hg as [_ _ Hb Hlen _ Hq Hp Hown Hfifo]. assert (o0 = o) as -> by congruence.
  assert (Hlf : lfront o d = front d ∧ lback o d = back d ∧ inflight b o = []) by (by destruct o).
  destruct Hlf as (Hlf & Hlb & Hin). fold d in Hb, Hlen, Hq, Hp, Hfifo. rewrite Hlf in *. rewrite Hlb in *. rewrite Hin in Hp. cbn in Hp.
  destruct (Hfifo eq_refl) as [Hpb Hqs].
  assert (Hqq : queue_of d = q) by (unfold queue_of, d; rewrite (cur_eq _ _ _ _ _ _ Hg); fold d; rewrite <- Hlen; by apply queue_of_content).
  split; [rewrite Hqq, Hqs at 1; f_equal; lia|].
  replace (pushed d) with (Z.to_nat (front d) + length q)%nat in Hp by lia. rewrite seq_app in Hp.
  rewrite Nat.add_0_l, <- Hqs in Hp. by apply Permutation_app_inv_r in Hp.
Qed.

(** ** Runs *)

Module DequeWitness.
(** The owner pushes two tasks; thread 1 and the owner race for the tasks. *)
Definition sched : list (nat * nat) :=
  [(0, 0); (0, 0); (0, 0); (0, 0); (0, 0); (0, 0); (0, 0); (0, 0); (1, 0); (1, 0); (1, 0); (1, 0); (0, 1); (0, 0); (0, 0); (0, 0); (1, 0); (1, 0); (1, 0)]%nat.
Definition raced (fl : Flavor) : conf deque point := default (start 0) (run (step fl) sched (start 2)).

Lemma raced_reach fl : reach_in (step fl) (length sched) (start 2) (raced fl).
Proof. apply run_reach_in. destruct fl; vm_compute; reflexivity. Qed.

Lemma deque_takes_once_witness : taken (shared (raced Lifo)) = [1; 0]%nat ∧ NoDup (taken (shared (raced Lifo))) ∧
  taken (shared (raced Lifo)) ++ queue_of (shared (raced Lifo)) ≡ₚ seq 0 2.
Proof.
  destruct (deque_takes_once Lifo 1 (length sched) (raced Lifo) (raced_reach Lifo) ltac:(vm_compute; reflexivity)) as (Hnd & _ & _ & Hp).
  split; [vm_compute; reflexivity|]. split; [exact Hnd|]. apply (Hp (Popped (Some 1%nat))); [vm_compute; reflexivity|exact I].
Defined.

Lemma deque_fifo_witness : queue_of (shared (raced Fifo)) = seq 1 1 ∧ taken (shared (raced Fifo)) ≡ₚ seq 0 1.
Proof.
  apply (deque_fifo 1 (length sched) (raced Fifo) (Popped (Some 0%nat)) (raced_reach Fifo)); [vm_compute; reflexivity|vm_compute; reflexivity|exact I].
Defined.
End DequeWitness.
