(* ===== verification/Arsc.v ===== *)
(** * Reference counts ([h2o/kernel/src/sched/ipc/arsc.rs])

    One object behind [Arsc] pointers that threads own, clone, drop, send to each other, and
    through which they ask for the only access. The functions are cut at their accesses to the
    count. [dropped] says how often the data was dropped or moved out, [freed] how often the
    memory was given back. *)

From S2P Require Import Base Threads.
Local Open Scope Z_scope.

Definition REF_COUNT_MAX : Z := 2 ^ 63 - 1.
Definition REF_COUNT_SATURATED : Z := 0xC000000000000000.

Record arsc := MkArsc {
  ref_count : Z;
  dropped : nat;
  freed : nat;
  sent : nat;      (* pointers on their way between threads *)
}.
Definition with_count (a : arsc) (x : Z) : arsc := MkArsc x (dropped a) (freed a) (sent a).
Definition drop_data (a : arsc) : arsc := MkArsc (ref_count a) (S (dropped a)) (freed a) (sent a).
Definition deallocate (a : arsc) : arsc := MkArsc (ref_count a) (dropped a) (S (freed a)) (sent a).
Definition with_sent (a : arsc) (x : nat) : arsc := MkArsc (ref_count a) (dropped a) (freed a) x.

(** [try_new_in]: the pointer it returns belongs to the first thread. *)
Definition try_new : arsc := MkArsc 1 0 0 0.

(** A thread that owns [h] pointers. *)
Inductive point :=
  | Run (h : nat)
  | CloneStore (h : nat)     (* [clone]: at the store of the saturated count *)
  | DropStore (h : nat)      (* [drop]: likewise *)
  | DropInPlace (h : nat)    (* [drop] of the last pointer: at [drop_in_place] *)
  | Dealloc (h : nat)        (* at [deallocate] *)
  | GetMutStore (h : nat)    (* [get_mut], [try_make_mut_with]: at the store after the exchange *)
  | Mut (h : nat)            (* uses the mutable reference *)
  | UnwrapStore (h : nat)    (* [try_unwrap]: at the store after the exchange *)
  | UnwrapRead (h : nat)     (* at the read of the data *)
  | UnwrapDrop (h : nat).    (* drops the pointer to the data that was moved out *)

(** [clone]. *)
Definition clone (a : arsc) (l : point) : list (arsc * point) :=
  match l with
  | Run (S h) =>
      [(with_count a (wrap W (ref_count a + 1)), if REF_COUNT_MAX <=? ref_count a then CloneStore (S h) else Run (S (S h)))]
  | CloneStore h => [(with_count a REF_COUNT_SATURATED, Run (S h))]
  | _ => []
  end.

(** [drop]; [last] is where it goes on with the last pointer. *)
Definition drop_count (a : arsc) (h : nat) (last : point) : list (arsc * point) :=
  [(with_count a (wrap W (ref_count a - 1)),
    if REF_COUNT_MAX <=? ref_count a then DropStore h else if ref_count a =? 1 then last else Run h)].

Definition drop (a : arsc) (l : point) : list (arsc * point) :=
  match l with
  | Run (S h) => drop_count a h (DropInPlace h)
  | DropStore h => [(with_count a REF_COUNT_SATURATED, Run h)]
  | DropInPlace h => [(drop_data a, Dealloc h)]
  | Dealloc h => [(deallocate a, Run h)]
  | UnwrapDrop h => drop_count a h (Dealloc h)
  | _ => []
  end.

(** [compare_exchange(1, 0)]. *)
Definition unique (a : arsc) (ok err : point) : arsc * point := if ref_count a =? 1 then (with_count a 0, ok) else (a, err).

(** [get_mut]; [try_make_mut_with] does the same when the pointer is the only one, and otherwise
    replaces it by one to a new object, so that it is dropped. *)
Definition get_mut (a : arsc) (l : point) : list (arsc * point) :=
  match l with
  | Run (S h) => [unique a (GetMutStore (S h)) (Run (S h))]
  | GetMutStore h => [(with_count a 1, Mut h)]
  | Mut h => [(a, Run h)]
  | _ => []
  end.

Definition try_unwrap (a : arsc) (l : point) : list (arsc * point) :=
  match l with
  | Run (S h) => [unique a (UnwrapStore h) (Run (S h))]
  | UnwrapStore h => [(with_count a 1, UnwrapRead h)]
  | UnwrapRead h => [(drop_data a, UnwrapDrop h)]
  | _ => []
  end.

(** Pointers move between threads. *)
Definition send (a : arsc) (l : point) : list (arsc * point) :=
  match l with
  | Run h =>
      match h with S h' => [(with_sent a (S (sent a)), Run h')] | O => [] end ++
      match sent a with S n => [(with_sent a n, Run (S h))] | O => [] end
  | _ => []
  end.

Definition step (i : nat) (a : arsc) (l : point) : list (arsc * point) :=
  clone a l ++ drop a l ++ get_mut a l ++ try_unwrap a l ++ send a l.

Definition start (n : nat) : conf arsc point := Conf try_new (Run 1 :: replicate n (Run 0)).

(** ** Reference counts are exact

    The invariant of [Arsc] over all interleavings. *)

(** The pointers that threads own which have not the only access. *)
Definition own (l : point) : Z :=
  match l with Run h | CloneStore h | DropStore h => Z.of_nat h | _ => 0 end.
Lemma own_nonneg l : 0 ≤ own l.
Proof. destruct l; cbn; lia. Qed.

Definition pointers (a : arsc) (ls : list point) : Z := total own ls + Z.of_nat (sent a).

(** A thread that has the only access owns one pointer, or none when it drops the object. *)
Definition alone (l : point) : Prop :=
  match l with
  | Mut h | GetMutStore h => h = 1%nat
  | UnwrapStore h | UnwrapRead h | UnwrapDrop h | DropInPlace h | Dealloc h => h = 0%nat
  | _ => True
  end.

(** Threads at a point where they have the only access. *)
Definition exchanged (l : point) : bool := match l with GetMutStore _ | UnwrapStore _ => true | _ => false end.
Definition moving (l : point) : bool := match l with UnwrapRead _ => true | _ => false end.
Definition moved (l : point) : bool := match l with UnwrapDrop _ => true | _ => false end.
Definition dropping (l : point) : bool := match l with DropInPlace _ => true | _ => false end.
Definition freeing (l : point) : bool := match l with Dealloc _ => true | _ => false end.
Definition mutating (l : point) : bool := match l with Mut _ => true | _ => false end.
Definition saturating (l : point) : bool := match l with CloneStore _ | DropStore _ => true | _ => false end.

(** What the count and the object are like: the number of pointers, the count, how often the data
    was dropped and the memory freed, then how many threads are at each of the points above. *)
Inductive phase (t rc dr fr x mv md dp fe mu : Z) : Prop :=
  | ph_shared (_ : 1 ≤ t ∧ rc = t ∧ dr = 0 ∧ fr = 0) (_ : x = 0 ∧ mv = 0 ∧ md = 0 ∧ dp = 0 ∧ fe = 0 ∧ mu = 0)
  | ph_mutated (_ : t = 0 ∧ rc = 1 ∧ dr = 0 ∧ fr = 0) (_ : x = 0 ∧ mv = 0 ∧ md = 0 ∧ dp = 0 ∧ fe = 0 ∧ mu = 1)
  | ph_exchanged (_ : t = 0 ∧ rc = 0 ∧ dr = 0 ∧ fr = 0) (_ : x = 1 ∧ mv = 0 ∧ md = 0 ∧ dp = 0 ∧ fe = 0 ∧ mu = 0)
  | ph_moving (_ : t = 0 ∧ rc = 1 ∧ dr = 0 ∧ fr = 0) (_ : x = 0 ∧ mv = 1 ∧ md = 0 ∧ dp = 0 ∧ fe = 0 ∧ mu = 0)
  | ph_moved (_ : t = 0 ∧ rc = 1 ∧ dr = 1 ∧ fr = 0) (_ : x = 0 ∧ mv = 0 ∧ md = 1 ∧ dp = 0 ∧ fe = 0 ∧ mu = 0)
  | ph_dropping (_ : t = 0 ∧ rc = 0 ∧ dr = 0 ∧ fr = 0) (_ : x = 0 ∧ mv = 0 ∧ md = 0 ∧ dp = 1 ∧ fe = 0 ∧ mu = 0)
  | ph_freeing (_ : t = 0 ∧ rc = 0 ∧ dr = 1 ∧ fr = 0) (_ : x = 0 ∧ mv = 0 ∧ md = 0 ∧ dp = 0 ∧ fe = 1 ∧ mu = 0)
  | ph_gone (_ : t = 0 ∧ rc = 0 ∧ dr = 1 ∧ fr = 1) (_ : x = 0 ∧ mv = 0 ∧ md = 0 ∧ dp = 0 ∧ fe = 0 ∧ mu = 0).

Ltac phase_solve := first [exfalso; lia|apply ph_shared; lia|apply ph_mutated; lia|apply ph_exchanged; lia|apply ph_moving; lia
  |apply ph_moved; lia|apply ph_dropping; lia|apply ph_freeing; lia|apply ph_gone; lia].

Record inv (k : nat) (a : arsc) (ls : list point) : Prop := Inv {
  i_phase : phase (pointers a ls) (ref_count a) (Z.of_nat (dropped a)) (Z.of_nat (freed a))
    (count exchanged ls) (count moving ls) (count moved ls) (count dropping ls) (count freeing ls) (count mutating ls);
  i_sat : count saturating ls = 0;
  i_bound : pointers a ls ≤ Z.of_nat k + 1;
  i_alone i l : ls !! i = Some l → alone l;
}.

Lemma arsc_step k i a ls l a' l' : inv k a ls → Z.of_nat k < 2 ^ 62 → ls !! i = Some l → (a', l') ∈ step i a l → inv (S k) a' (<[i := l']> ls).
Proof.
  intros [Hp Hsat Hb Hal] Hk Hl Hs. pose proof (total_lookup own own_nonneg ls i l Hl) as Hown. pose proof (Hal i l Hl) as Hall.
  assert (Hat : ∀ p, p l = true → 1 ≤ count p ls) by (intros p; by eapply count_lookup).
  pose proof (Hat exchanged) as H1. pose proof (Hat moving) as H2. pose proof (Hat moved) as H3. pose proof (Hat dropping) as H4.
  pose proof (Hat freeing) as H5. pose proof (Hat mutating) as H6. pose proof (Hat saturating) as H7. clear Hat.
  assert (Hw : ∀ z, -1 < z < 2 ^ 63 → wrap W z = z) by (intros z Hz; apply Z.mod_small; lia).
  unfold pointers in *. assert (Hrc : 0 ≤ ref_count a ≤ total own ls + Z.of_nat (sent a) + 1) by (destruct Hp; lia).
  unfold step, clone, drop, drop_count, get_mut, try_unwrap, unique, send, REF_COUNT_MAX in Hs.
  split; unfold pointers; rewrite ?(total_insert own _ _ _ _ Hl), ?(count_insert _ _ _ _ _ Hl).
  - destruct l as [[|h]|h|h|h|h|h|h|h|h|h]; cbn in *; repeat match goal with H : true = true → _ |- _ => specialize (H eq_refl) end;
      destruct Hp; destruct_and!; try (exfalso; lia); step_cases Hs; cbn; unfold b2z; rewrite ?Hw by lia; phase_solve.
  - destruct l as [[|h]|h|h|h|h|h|h|h|h|h]; cbn in *; step_cases Hs; cbn; unfold b2z; lia.
  - destruct l as [[|h]|h|h|h|h|h|h|h|h|h]; cbn in *; step_cases Hs; cbn; unfold b2z; lia.
  - apply (every_step (λ _ l, alone l)); [eauto|].
    destruct l as [[|h]|h|h|h|h|h|h|h|h|h]; cbn in *; step_cases Hs; cbn; try done; destruct Hp; lia.
Qed.

Lemma arsc_reach n k c : reach_in step k (start n) c → Z.of_nat k < 2 ^ 62 → inv k (shared c) (threads c).
Proof.
  apply (reach_in_inv step (λ k a ls, Z.of_nat k < 2 ^ 62 → inv k a ls)).
  - intros k' i a ls l a' l' IH Hl Hs Hk. eapply arsc_step; [apply IH; lia|lia|done|done].
  - intros _. split; cbn; rewrite ?count_replicate by done.
    + apply ph_shared; [|done]. unfold pointers. cbn. rewrite total_replicate. cbn. lia.
    + done.
    + unfold pointers. cbn. rewrite total_replicate. cbn. lia.
    + intros [|i] l Hl; [injection Hl as <-; done|]. cbn in Hl. apply lookup_replicate in Hl as [-> _]. done.
Qed.

(** The thread has a pointer through which it can use the data. *)
Definition uses (l : point) : Prop :=
  match l with
  | Run h | CloneStore h | DropStore h => (0 < h)%nat
  | GetMutStore _ | Mut _ | UnwrapStore _ | UnwrapRead _ => True
  | _ => False
  end.

Lemma uses_pointers l : uses l → 1 ≤ own l ∨ exchanged l = true ∨ moving l = true ∨ mutating l = true.
Proof. destruct l; cbn; intros; auto; try done; left; lia. Qed.

(** The data of an [Arsc] is dropped or moved out at most once and its memory freed at most
    once. This does not happen while a thread owns a pointer or one is on its way; it has
    happened when there is none left. The mutable reference that [get_mut] gives is the only
    way to the data. For any interleaving of threads that clone, drop, send and unwrap. *)
Theorem arsc_safe n k c : reach_in step k (start n) c → Z.of_nat k < 2 ^ 62 →
  let a := shared c in
  (dropped a ≤ 1 ∧ freed a ≤ dropped a)%nat ∧
  ((0 < sent a)%nat ∨ (∃ i l, threads c !! i = Some l ∧ uses l) → dropped a = 0%nat ∧ freed a = 0%nat) ∧
  ((∀ i l, threads c !! i = Some l → l = Run 0) → sent a = 0%nat → dropped a = 1%nat ∧ freed a = 1%nat) ∧
  (∀ i h, threads c !! i = Some (Mut h) → h = 1%nat ∧ sent a = 0%nat ∧ ∀ j l, j ≠ i → threads c !! j = Some l → l = Run 0).
Proof.
  intros Hr Hk a. destruct (arsc_reach n k c Hr Hk) as [Hp Hsat Hb Hal]. fold a in Hp, Hb.
  pose proof (total_nonneg own own_nonneg (threads c)) as Htn. unfold pointers in *.
  split; [destruct Hp; lia|]. split; [|split].
  - intros [Hs|(i & l & Hl & Hu)]; [destruct Hp; lia|]. pose proof (total_lookup own own_nonneg _ _ _ Hl) as Ho.
    pose proof (λ p, count_lookup p _ _ _ Hl) as Hc. destruct (uses_pointers l Hu) as [H|[H|[H|H]]]; [|apply Hc in H..]; destruct Hp; lia.
  - intros Hall Hs. assert (Hz : ∀ p, p (Run 0) = false → count p (threads c) = 0).
    { intros p Hp0. apply count_zero. intros i l Hl. by rewrite (Hall i l Hl). }
    assert (Ht : total own (threads c) = 0).
    { clear -Hall. induction (threads c) as [|x ls IH]; [done|]. cbn. rewrite (Hall 0%nat x eq_refl). cbn. apply IH. intros i l. apply (Hall (S i)). }
    destruct Hp as [H _|_ H|_ H|_ H|_ H|_ H|_ H|H _]; rewrite ?Hz in H by done; lia.
  - intros i h Hi. pose proof (Hal _ _ Hi) as Hh. pose proof (count_lookup mutating _ _ _ Hi eq_refl) as Hm. cbn in Hh. split; [done|].
    split; [destruct Hp; lia|]. intros j l Hne Hj. pose proof (total_lookup own own_nonneg _ _ _ Hj) as Ho. pose proof (λ p, count_lookup p _ _ _ Hj) as Hc.
    pose proof (Hc exchanged) as H1. pose proof (Hc moving) as H2. pose proof (Hc moved) as H3. pose proof (Hc dropping) as H4.
    pose proof (Hc freeing) as H5. pose proof (Hc saturating) as H6. pose proof (count_two mutating _ _ _ _ _ Hne Hj Hi) as H7.
    destruct l as [[|h']|?|?|?|?|?|?|?|?|?]; cbn in *; try done; exfalso; destruct Hp; try lia;
      repeat match goal with H : true = true → _ |- _ => specialize (H eq_refl) end; lia.
Qed.

(** ** A run *)

Module ArscWitness.
(** Thread 0 clones, sends the clone to thread 1, which drops it; thread 0 then has the only access. *)
Definition sched : list (nat * nat) := [(0, 0); (0, 4); (1, 0); (1, 1); (0, 2); (0, 0)]%nat.
Definition shared_once : conf arsc point := default (start 0) (run step sched (start 1)).

Lemma arsc_safe_witness : threads shared_once = [Mut 1; Run 0] ∧ (dropped (shared shared_once) ≤ 1 ∧ freed (shared shared_once) ≤ dropped (shared shared_once))%nat.
Proof.
  split; [reflexivity|]. apply (arsc_safe 1 (length sched) shared_once); [|done]. apply run_reach_in. reflexivity.
Defined.
End ArscWitness.
