(* ===== verification/MemCalls.v ===== *)
(** * System calls on memory ([kernel/src/mem/syscall.rs])

    The calls find the objects they work on through the handles of the caller's
    space. A reference holds the address of its object; [heap] is what is at these
    addresses. Page tables and physical objects are shared by all spaces, ranges
    belong to one. What a call takes from outside (the places of new objects, the
    kernel's stack, random numbers) is a [frame]. The memory of objects whose last
    reference is dropped is reclaimed elsewhere, except for an object that a call
    has just made. *)

From S2P Require Import Base Bits RangeMap Mem Buddy Paging Resource SysCall Handles UserPtr Ext PhysSpec Slices Virt.
Local Open Scope Z_scope.
Local Open Scope h2o_scope.

(** ** State *)

(** [Arc<Phys>], [Arc<Weak<Virt>>], [Arc<Resource<usize>>] and [Arc<task::Space>]. *)
Inductive kobj :=
  | OPhys (p : Phys)
  | OVirt (sp v : nat)
  | ORes (id : Z)
  | OSpace (sp : nat).

Definition TYPE_PHYS : Z := 1.
Definition TYPE_VIRT : Z := 2.
Definition TYPE_RESOURCE : Z := 3.
Definition TYPE_SPACE : Z := 4.

(** [mem::space::Space]. *)
Record Space := MkSpace {
  sp_table : Z;
  sp_root : nat;
  sp_virts : gmap nat Virt;
  sp_vdso : option Z;
  sp_alive : bool;
}.

Record kernel (H : Type → Type) (T A : Type) := Kernel {
  handles : HandleMap H;
  heap : gmap Z kobj;
  mach : machine T;
  phys : phys_state A;
  spaces : gmap nat Space;
  resources : rheap;
}.
Arguments Kernel {H T A} _ _ _ _ _ _.
Arguments handles {H T A} _.
Arguments heap {H T A} _.
Arguments mach {H T A} _.
Arguments phys {H T A} _.
Arguments spaces {H T A} _.
Arguments resources {H T A} _.

(** Addresses for two new references, identities for two physical objects, a range
    and a space; an event that is not notified; the address of a local variable;
    the buffer of a [Vec], when there is room for it; two random numbers. *)
Record frame := MkFrame {
  new_obj : Z;
  new_obj2 : Z;
  new_id : nat;
  new_id2 : nat;
  new_virt : nat;
  new_space : nat;
  no_event : nat;
  local : Z;
  vec_buf : option Z;
  rand1 : Z;
  rand2 : Z;
}.

(** ** Flags and features *)

Definition check_flags (flags : Z) : res errno Z :=
  if negb (Flags.contains flags Flags.USER_ACCESS) then Err EPERM else Ok flags.

Definition features_to_flags (f : Z) : Z :=
  let flags := Flags.USER_ACCESS in
  let flags := if Feature.contains f Feature.READ then Z.lor flags Flags.READABLE else flags in
  let flags := if Feature.contains f Feature.WRITE then Z.lor flags Flags.WRITABLE else flags in
  if Feature.contains f Feature.EXECUTE then Z.lor flags Flags.EXECUTABLE else flags.

Definition phys_features : Z :=
  Z.lor (Z.lor (Z.lor (Z.lor (Z.lor Feature.SEND Feature.SYNC) Feature.READ) Feature.WRITE) Feature.EXECUTE) Feature.WAIT.
Definition virt_features : Z := Z.lor (Z.lor (Z.lor Feature.SYNC Feature.READ) Feature.WRITE) Feature.EXECUTE.
Definition space_features : Z := Z.lor Feature.READ Feature.WRITE.

(** [PhysOptions]. *)
Definition RESIZABLE : Z := 1.
Definition ZEROED : Z := 2.

Record VirtMapInfo := MkMapInfo { vm_offset : Z; vm_phys : Handle; vm_phys_offset : Z; vm_len : Z; vm_align : Z; vm_flags : Z }.

(** The fields of a [VirtMapInfo] and of an array of [IoVec] in memory. *)
Definition read_int (m : memory) (a n : Z) : Z := from_le (bytes m a n).
Definition read_map_info (m : memory) (a : Z) : VirtMapInfo :=
  MkMapInfo (read_int m a 8) (MkHandle (read_int m (a + 8) 4)) (read_int m (a + 16) 8) (read_int m (a + 24) 8)
    (read_int m (a + 32) 8) (read_int m (a + 40) 4).
Definition read_iovecs (m : memory) (a count : Z) : list (Z * Z) :=
  (λ i, (read_int m (a + 16 * i) 8, read_int m (a + 16 * i + 8) 8)) <$> seqZ 0 count.

Section calls.
Context `{P : Profile} {H : Type → Type} {T A : Type}.
Context `{HT : HashTable H} `{PA : PageAlloc T} `{PS : PageSource A} `{BS : BlockSource A}.
(** The copy of user memory, the zero page, the kernel's root table, [VDSO], the
    build, and [MEM_RESOURCE]. *)
Context (checked_copy : Z → Z → Z → memory → CheckedCopyRet * memory) (zero_base kernel_root : Z).
Context (vdso_flags : Z) (vdso_phys : Phys) (debug_assertions : bool) (mem_resource : Z).

Abbreviation sys := (st (kernel H T A) errno).

(** ** The parts of the state *)

Definition on_handles {B} (m : st (HandleMap H) errno B) : sys B := λ s,
  let '(r, h) := m (handles s) in (r, Kernel h (heap s) (mach s) (phys s) (spaces s) (resources s)).
Definition on_physical {B} (m : st (phys_state A) errno B) : sys B := λ s,
  let '(r, p) := m (phys s) in (r, Kernel (handles s) (heap s) (mach s) p (spaces s) (resources s)).
Definition new_object (a : Z) (o : kobj) : sys () :=
  modify (λ s, Kernel (handles s) (<[a := o]> (heap s)) (mach s) (phys s) (spaces s) (resources s)).

(** A call of a method of a range of the space [sp]; it gets the root table and the
    root range. *)
Definition on_space {B} (sp : nat) (m : Z → nat → st (vm T A) errno B) : sys B := λ s,
  match spaces s !! sp with
  | None => (Panic, s)
  | Some x =>
      let '(r, v) := m (sp_table x) (sp_root x) (Vm (mach s) (phys s) (sp_virts x) (sp_vdso x) (sp_alive x)) in
      (r, Kernel (handles s) (heap s) (tables v) (phys_of v)
        (<[sp := MkSpace (sp_table x) (sp_root x) (virts v) (vdso v) (alive v)]> (spaces s)) (resources s))
  end.

(** Accesses through a pointer of the user: what is read arrives at [local], what is
    written is there before. *)
Definition user_read (p : user_ptr) (at_ : Z) : sys () :=
  on_physical (on_mem (read checked_copy true p at_)).
Definition user_write (f : frame) (p : user_ptr) (value : list Z) : sys () :=
  _ ← on_physical (on_mem (modify (store (local f) value)));
  on_physical (on_mem (write checked_copy true p (local f))).

(** [get::<Phys>]: the features and the object. *)
Definition get_phys (hdl : Handle) : sys (Z * Phys) :=
  r ← on_handles (get_typed TYPE_PHYS hdl);
  s ← get;
  match obj r with
  | Obj _ a => match heap s !! a with Some (OPhys p) => mret (feat r, p) | _ => lift Panic end
  | ObjChannel _ _ => lift Panic
  end.

(** [get::<Weak<Virt>>] and [upgrade]. *)
Definition get_virt (hdl : Handle) : sys (nat * nat * Virt) :=
  r ← on_handles (get_typed TYPE_VIRT hdl);
  s ← get;
  match obj r with
  | Obj _ a =>
      match heap s !! a with
      | Some (OVirt sp v) =>
          x ← lift (of_option EKILLED (spaces s !! sp ≫= λ x, sp_virts x !! v));
          mret (sp, v, x)
      | _ => lift Panic
      end
  | ObjChannel _ _ => lift Panic
  end.

(** [insert_raw], [insert_unchecked] and [insert] of an object at the address [a]. *)
Definition insert_at (a ty : Z) (o : kobj) (f : Z) (e : option nat) : sys Handle :=
  h ← on_handles (insert_unchecked (Obj ty a) f e);
  _ ← new_object a o;
  mret h.

Definition ph_event (f : frame) (p : Phys) : nat := match p with PExt id => id | PCont _ => no_event f end.

(** A contiguous object that was just made goes away with its block. *)
Definition drop_new (p : Phys) : sys () :=
  match p with PCont c => on_physical (inner_drop (inner c)) | PExt _ => mret () end.

(** ** Physical objects *)

Definition phys_alloc (f : frame) (size options : Z) : sys Handle :=
  p ← on_physical (allocate_phys (new_id f) size (Flags.intersects options RESIZABLE) (Flags.intersects options ZEROED) false);
  insert_at (new_obj f) TYPE_PHYS (OPhys p) phys_features (Some (ph_event f p)).

Definition phys_size (hdl : Handle) : sys Z :=
  _ ← lift (check_null hdl);
  '(_, p) ← get_phys hdl;
  on_physical (ph_len p).

Definition phys_check (hdl : Handle) (offset len : Z) : sys (Z * Phys) :=
  _ ← lift (check_null hdl);
  let offset_end := wrap W (offset + len) in
  if offset_end <? offset then lift (Err ERANGE)
  else
    '(feat, p) ← get_phys hdl;
    if ph_eqb p vdso_phys then lift (Err EACCES) else mret (feat, p).

(** [phys_read] ([to_user]) and [phys_write]. *)
Definition phys_copy (to_user : bool) (hdl : Handle) (offset len buffer : Z) : sys Z :=
  _ ← lift (check_slice (UserPtr buffer 1 1) len);
  '(feat, p) ← phys_check hdl offset len;
  if negb (Feature.contains feat (if to_user then Feature.READ else Feature.WRITE)) then lift (Err EPERM)
  else if len >? 0 then on_physical (ph_copy zero_base checked_copy true to_user p offset len buffer)
  else mret 0.
Definition phys_read := phys_copy true.
Definition phys_write := phys_copy false.

(** [Vec::with_capacity] of 16 bytes each, which panics when there is no room. *)
Definition vec_with_capacity (f : frame) (count : Z) : sys Z :=
  if 16 * count >? ISIZE_MAX then lift Panic else lift (unwrap (vec_buf f)).

Definition check_physv (f : frame) (hdl : Handle) (bufs count : Z) : sys (Z * Phys * list (Z * Z)) :=
  _ ← lift (check_null hdl);
  _ ← lift (check_slice (UserPtr bufs 16 8) count);
  '(feat, p) ← get_phys hdl;
  a ← vec_with_capacity f count;
  _ ← on_physical (on_mem (read_slice checked_copy true (UserPtr bufs 16 8) a count));
  s ← get;
  mret (feat, p, read_iovecs (emem (ext (phys s))) a count).

(** [phys_readv] ([to_user]) and [phys_writev]. *)
Definition phys_copyv (to_user : bool) (f : frame) (hdl : Handle) (offset bufs count : Z) : sys Z :=
  '(feat, p, vec) ← check_physv f hdl bufs count;
  if negb (Feature.contains feat (if to_user then Feature.READ else Feature.WRITE)) then lift (Err EPERM)
  else on_physical (ph_vectored zero_base checked_copy true to_user p offset vec).
Definition phys_readv := phys_copyv true.
Definition phys_writev := phys_copyv false.

Definition phys_sub (f : frame) (hdl : Handle) (offset len : Z) (copy : bool) : sys Handle :=
  '(feat, p) ← phys_check hdl offset len;
  if negb (Feature.contains feat Feature.READ) then lift (Err EPERM)
  else
    sub ← on_physical (ph_create_sub p (new_id f) (new_id2 f) offset len copy);
    insert_at (new_obj f) TYPE_PHYS (OPhys sub) (if copy then phys_features else feat) (Some (ph_event f sub)).

Definition phys_resize (hdl : Handle) (new_len : Z) (zeroed : bool) : sys () :=
  if new_len =? 0 then lift (Err EINVAL)
  else
    '(feat, p) ← get_phys hdl;
    if ph_eqb p vdso_phys then lift (Err EACCES)
    else if negb (Feature.contains feat (Z.lor (Z.lor Feature.READ Feature.WRITE) Feature.EXECUTE)) then lift (Err EPERM)
    else on_physical (ph_resize p new_len).

(** The block of an object that cannot be entered is freed. *)
Definition insert_new (f : frame) (p : Phys) : sys Handle :=
  r ← attempt (insert_at (new_obj f) TYPE_PHYS (OPhys p) phys_features None);
  match r with
  | inr h => mret h
  | inl e => _ ← drop_new p; lift (Err e)
  end.

Definition phys_acq (f : frame) (hdl : Handle) (addr size : Z) : sys Handle :=
  if contains_bit addr (PAGE_SIZE - 1) || contains_bit size (PAGE_SIZE - 1) then lift (Err EINVAL)
  else
    r ← on_handles (get_typed TYPE_RESOURCE hdl);
    s ← get;
    res ← lift (unwrap (match obj r with
                        | Obj _ a => match heap s !! a with Some (ORes id) => Resource.objs (resources s) !! id | _ => None end
                        | ObjChannel _ _ => None
                        end));
    root ← lift (unwrap (Resource.objs (resources s) !! mem_resource));
    if negb (magic_eq res root) then lift (Err EPERM)
    else if addr =? 0 then
      p ← on_physical (allocate_phys (new_id f) size false true true);
      insert_new f p
    else
      ok ← (if fst (r_range res) <=? addr then e ← lift (addr +! size); mret (e <=? snd (r_range res)) else mret false);
      if negb ok then lift (Err EPERM)
      else
        p ← on_physical (new_phys (new_id f) addr size);
        insert_new f p.

(** ** Ranges *)

Definition some_offset (offset : Z) : option Z := if offset =? MAX64 then None else Some offset.

Definition layout_of (size align : Z) : res errno Layout := of_option ENOMEM (from_size_align size align).

Definition virt_alloc (f : frame) (hdl : Handle) (offset size align : Z) : sys Handle :=
  _ ← lift (check_null hdl);
  '(sp, v, _) ← get_virt hdl;
  l ← lift (layout_of size align);
  sub ← on_space sp (λ t _, virt_allocate t debug_assertions (rand1 f) (rand2 f) v (new_virt f) (some_offset offset) l);
  insert_at (new_obj f) TYPE_VIRT (OVirt sp sub) virt_features None.

Definition virt_info (f : frame) (hdl : Handle) (size : Z) : sys Z :=
  _ ← lift (check_null hdl);
  '(_, _, x) ← get_virt hdl;
  _ ← (if negb (size =? 0) then n ← lift (range_len (Virt.range x)); user_write f (UserPtr size 8 8) (to_le 8 n) else mret ());
  mret (fst (Virt.range x)).

Definition virt_drop (hdl : Handle) : sys () :=
  _ ← lift (check_null hdl);
  '(sp, v, _) ← get_virt hdl;
  on_space sp (λ t _, virt_destroy t vdso_phys v).

Definition virt_map (f : frame) (hdl : Handle) (mi_ptr : Z) : sys Z :=
  _ ← lift (check_null hdl);
  _ ← user_read (UserPtr mi_ptr 48 8) (local f);
  s ← get;
  let mi := read_map_info (emem (ext (phys s))) (local f) in
  flags ← lift (check_flags (vm_flags mi));
  '(sp, v, _) ← get_virt hdl;
  r ← on_handles (remove_typed TYPE_PHYS (vm_phys mi));
  s ← get;
  p ← lift (unwrap (match obj r with
                    | Obj _ a => match heap s !! a with Some (OPhys p) => Some p | _ => None end
                    | ObjChannel _ _ => None
                    end));
  if Flags.intersects flags (Z.ldiff Flags.all (features_to_flags (feat r))) then lift (Err EPERM)
  else
    size ← (if vm_len mi =? 0 then on_physical (ph_len p) else mret (vm_len mi));
    l ← lift (layout_of size (vm_align mi));
    addr ← on_space sp (λ t root, Virt.virt_map zero_base t root vdso_flags vdso_phys debug_assertions (rand1 f) (rand2 f)
             v (some_offset (vm_offset mi)) p (vm_phys_offset mi) l flags);
    _ ← user_write f (UserPtr (wrap W (mi_ptr + 24)) 8 8) (to_le 8 size);
    mret addr.

Definition virt_reprot (hdl : Handle) (base len flags : Z) : sys () :=
  _ ← lift (check_null hdl);
  _ ← lift (check (UserPtr base 1 1));
  flags ← lift (check_flags flags);
  '(sp, v, _) ← get_virt hdl;
  on_space sp (λ t _, virt_reprotect t vdso_phys v base len flags).

Definition virt_unmap (hdl : Handle) (base len : Z) (drop_child : bool) : sys () :=
  _ ← lift (check_null hdl);
  _ ← lift (check (UserPtr base 1 1));
  '(sp, v, _) ← get_virt hdl;
  on_space sp (λ t _, Virt.virt_unmap t vdso_phys v base len drop_child).

(** ** Spaces *)

(** [task::Space::new], with an empty root range. *)
Definition space_make (f : frame) : sys () := λ s,
  match arch_new kernel_root (mach s) with
  | (Ok t, m) =>
      (Ok (), Kernel (handles s) (heap s) m (phys s)
        (<[new_space f := MkSpace t (new_virt f) {[ new_virt f := MkVirt (ty_to_range User) None bt_empty ]} None true]> (spaces s))
        (resources s))
  | (Err e, m) => (Err e, Kernel (handles s) (heap s) m (phys s) (spaces s) (resources s))
  | (Panic, m) => (Panic, Kernel (handles s) (heap s) m (phys s) (spaces s) (resources s))
  end.

Definition space_new (f : frame) (root_virt : Z) : sys Handle :=
  _ ← lift (check (UserPtr root_virt 4 4));
  _ ← space_make f;
  ret ← insert_at (new_obj f) TYPE_SPACE (OSpace (new_space f)) space_features None;
  virt ← insert_at (new_obj2 f) TYPE_VIRT (OVirt (new_space f) (new_virt f)) (Z.lor virt_features Feature.SEND) None;
  _ ← user_write f (UserPtr root_virt 4 4) (to_le 4 (hraw virt));
  mret ret.

(** [mem_info]: the memory there is, and the bytes the heap has handed out. *)
Definition mem_info (f : frame) (all_available current_used info : Z) : sys () :=
  _ ← lift (check (UserPtr info 16 8));
  user_write f (UserPtr info 16 8) (to_le 8 all_available ++ to_le 8 current_used).

(** ** The calls together *)

(** Calls on one physical object or range. *)
Inductive object_call :=
  | PhysSize (hdl : Handle)
  | PhysRead (hdl : Handle) (offset len buffer : Z)
  | PhysWrite (hdl : Handle) (offset len buffer : Z)
  | PhysSub (hdl : Handle) (offset len : Z) (copy : bool)
  | PhysResize (hdl : Handle) (new_len : Z) (zeroed : bool)
  | VirtAlloc (hdl : Handle) (offset size align : Z)
  | VirtDrop (hdl : Handle)
  | VirtReprot (hdl : Handle) (base len flags : Z)
  | VirtUnmap (hdl : Handle) (base len : Z) (drop_child : bool).

Inductive call :=
  | On (c : object_call)
  | PhysAlloc (size options : Z)
  | PhysReadv (hdl : Handle) (offset bufs count : Z)
  | PhysWritev (hdl : Handle) (offset bufs count : Z)
  | PhysAcq (res : Handle) (addr size : Z)
  | SpaceNew (root_virt : Z)
  | VirtInfo (hdl : Handle) (size : Z)
  | VirtMap (hdl : Handle) (mi_ptr : Z)
  | GetMemInfo (all_available current_used info : Z).

Definition as_handle (m : sys Handle) : sys Z := h ← m; mret (hraw h).
Definition as_unit (m : sys ()) : sys Z := _ ← m; mret 0.

(** The word each call returns. *)
Definition object_call_run (f : frame) (c : object_call) : sys Z :=
  match c with
  | PhysSize hdl => phys_size hdl
  | PhysRead hdl offset len buffer => phys_read hdl offset len buffer
  | PhysWrite hdl offset len buffer => phys_write hdl offset len buffer
  | PhysSub hdl offset len copy => as_handle (phys_sub f hdl offset len copy)
  | PhysResize hdl new_len zeroed => as_unit (phys_resize hdl new_len zeroed)
  | VirtAlloc hdl offset size align => as_handle (virt_alloc f hdl offset size align)
  | VirtDrop hdl => as_unit (virt_drop hdl)
  | VirtReprot hdl base len flags => as_unit (virt_reprot hdl base len flags)
  | VirtUnmap hdl base len drop_child => as_unit (virt_unmap hdl base len drop_child)
  end.

Definition call_run (f : frame) (c : call) : sys Z :=
  match c with
  | On c => object_call_run f c
  | PhysAlloc size options => as_handle (phys_alloc f size options)
  | PhysReadv hdl offset bufs count => phys_readv f hdl offset bufs count
  | PhysWritev hdl offset bufs count => phys_writev f hdl offset bufs count
  | PhysAcq res addr size => as_handle (phys_acq f res addr size)
  | SpaceNew root_virt => as_handle (space_new f root_virt)
  | VirtInfo hdl size => virt_info f hdl size
  | VirtMap hdl mi_ptr => virt_map f hdl mi_ptr
  | GetMemInfo all_available current_used info => as_unit (mem_info f all_available current_used info)
  end.
End calls.
