(* ===== verification/MemSpec.v ===== *)
(** * What the system calls on memory check

    The calls on one object are refused with the error of a table, in its order,
    and then nothing changes; otherwise they do exactly what they are for. Every
    call keeps the types of the objects behind the handles. A mapping has no right
    that the handle of its object does not have. *)

From S2P Require Import Base Bits RangeMap Mem Buddy Paging Resource SysCall Handles HandleSpec UserPtr Ext PhysSpec Slices Virt MemCalls PagingSpec HashMap HashSpec SpaceSpec.
Local Open Scope Z_scope.
Local Open Scope h2o_scope.

(** ** Types *)

Definition kobj_type (o : kobj) : Z :=
  match o with
  | OPhys _ => TYPE_PHYS
  | OVirt _ _ => TYPE_VIRT
  | ORes _ => TYPE_RESOURCE
  | OSpace _ => TYPE_SPACE
  end.

(** A reference of one of these types holds the address of an object of its type. *)
Definition typed_obj (h : gmap Z kobj) (o : object) : Prop :=
  match o with
  | ObjChannel _ _ => True
  | Obj ty a => TYPE_PHYS ≤ ty ≤ TYPE_SPACE → ∃ o, h !! a = Some o ∧ kobj_type o = ty
  end.

Lemma object_types : TYPE_PHYS ≤ TYPE_PHYS ≤ TYPE_SPACE ∧ TYPE_PHYS ≤ TYPE_VIRT ≤ TYPE_SPACE ∧ TYPE_PHYS ≤ TYPE_RESOURCE ≤ TYPE_SPACE.
Proof. by vm_compute. Qed.

Record well_typed {H T A} `{HT : HashTable H} (s : kernel H T A) (g : gmap Z Ref) : Prop := {
  wt_rep : hm_rep (handles s) g;
  wt_obj k r : g !! k = Some r → typed_obj (heap s) (obj r);
}.

(** ** The table of errors *)

Definition first_error (l : list (bool * errno)) : option errno :=
  foldr (λ b e, if fst b : bool then Some (snd b) else e) None l.

Definition or_else {B} (x y : option B) : option B := match x with Some _ => x | None => y end.

(** Bytes that are not all in the user part. *)
Definition outside (a n : Z) : bool := (0 <? n) && negb ((USER_BASE <=? a) && (a + n <=? USER_END)).

Section spec.
Context `{P : Profile} {H : Type → Type} {T A : Type}.
Context `{HT : HashTable H} `{PA : PageAlloc T} `{PS : PageSource A} `{BS : BlockSource A}.
Context (checked_copy : Z → Z → Z → memory → CheckedCopyRet * memory) (zero_base kernel_root : Z).
Context (vdso_flags : Z) (vdso_phys : Phys) (debug_assertions : bool) (mem_resource : Z).
Implicit Types (s : kernel H T A) (g : gmap Z Ref) (f : frame).

(** What a handle stands for. *)
Definition target s g (ty : Z) (hdl : Handle) : errno + Z * kobj :=
  match g !! hm_decode (handles s) hdl with
  | None => inl EINVAL
  | Some r =>
      match obj r with
      | Obj ty' a => if ty' =? ty then match heap s !! a with Some o => inr (feat r, o) | None => inl EINVAL end else inl ETYPE
      | ObjChannel _ _ => inl ETYPE
      end
  end.

Definition phys_error s g (hdl : Handle) (vdso_too : bool) (need : Z) : option errno :=
  match target s g TYPE_PHYS hdl with
  | inl e => Some e
  | inr (feat, OPhys p) =>
      first_error [(negb vdso_too && ph_eqb p vdso_phys, EACCES); (negb (Feature.contains feat need), EPERM)]
  | inr _ => None
  end.

Definition live_virt s (sp v : nat) : option Virt := spaces s !! sp ≫= λ x, sp_virts x !! v.

Definition virt_error s g (hdl : Handle) : option errno :=
  match target s g TYPE_VIRT hdl with
  | inl e => Some e
  | inr (_, OVirt sp v) => if live_virt s sp v then None else Some EKILLED
  | inr _ => None
  end.

Definition why_not s g (c : object_call) : option errno :=
  match c with
  | PhysSize hdl => or_else (first_error [(is_null hdl, EINVAL)]) (phys_error s g hdl true 0)
  | PhysRead hdl offset len buffer =>
      or_else (first_error [(outside buffer len, EPERM); (is_null hdl, EINVAL); (2 ^ 64 <=? offset + len, ERANGE)])
        (phys_error s g hdl false Feature.READ)
  | PhysWrite hdl offset len buffer =>
      or_else (first_error [(outside buffer len, EPERM); (is_null hdl, EINVAL); (2 ^ 64 <=? offset + len, ERANGE)])
        (phys_error s g hdl false Feature.WRITE)
  | PhysSub hdl offset len copy =>
      or_else (first_error [(is_null hdl, EINVAL); (2 ^ 64 <=? offset + len, ERANGE)])
        (phys_error s g hdl false Feature.READ)
  | PhysResize hdl new_len _ =>
      or_else (first_error [(new_len =? 0, EINVAL)])
        (phys_error s g hdl false (Z.lor (Z.lor Feature.READ Feature.WRITE) Feature.EXECUTE))
  | VirtAlloc hdl _ size align =>
      or_else (or_else (first_error [(is_null hdl, EINVAL)]) (virt_error s g hdl))
        (if from_size_align size align then None else Some ENOMEM)
  | VirtDrop hdl => or_else (first_error [(is_null hdl, EINVAL)]) (virt_error s g hdl)
  | VirtReprot hdl base _ flags =>
      or_else (first_error [(is_null hdl, EINVAL); (outside base 1, EPERM);
        (negb (Flags.contains flags Flags.USER_ACCESS), EPERM)]) (virt_error s g hdl)
  | VirtUnmap hdl base _ _ =>
      or_else (first_error [(is_null hdl, EINVAL); (outside base 1, EPERM)]) (virt_error s g hdl)
  end.

(** The object of the call, and what is done with it. *)
Definition with_phys s g (hdl : Handle) (k : Z → Phys → st (kernel H T A) errno Z) : st (kernel H T A) errno Z :=
  match target s g TYPE_PHYS hdl with inr (feat, OPhys p) => k feat p | _ => lift Panic end.
Definition with_virt s g (hdl : Handle) (k : nat → nat → st (kernel H T A) errno Z) : st (kernel H T A) errno Z :=
  match target s g TYPE_VIRT hdl with inr (_, OVirt sp v) => k sp v | _ => lift Panic end.

Definition copy_bytes (to_user : bool) (offset len buffer : Z) (p : Phys) : st (kernel H T A) errno Z :=
  if 0 <? len then on_physical (ph_copy zero_base checked_copy true to_user p offset len buffer) else mret 0.

Definition effect f s g (c : object_call) : st (kernel H T A) errno Z :=
  match c with
  | PhysSize hdl => with_phys s g hdl (λ _ p, on_physical (ph_len p))
  | PhysRead hdl offset len buffer => with_phys s g hdl (λ _, copy_bytes true offset len buffer)
  | PhysWrite hdl offset len buffer => with_phys s g hdl (λ _, copy_bytes false offset len buffer)
  | PhysSub hdl offset len copy => with_phys s g hdl (λ feat p, as_handle (
      sub ← on_physical (ph_create_sub p (new_id f) (new_id2 f) offset len copy);
      insert_at (new_obj f) TYPE_PHYS (OPhys sub) (if copy then phys_features else feat) (Some (ph_event f sub))))
  | PhysResize hdl new_len _ => with_phys s g hdl (λ _ p, as_unit (on_physical (ph_resize p new_len)))
  | VirtAlloc hdl offset size align => with_virt s g hdl (λ sp v, as_handle (
      sub ← on_space sp (λ t _, virt_allocate t debug_assertions (rand1 f) (rand2 f) v (new_virt f) (some_offset offset)
              (MkLayout size align));
      insert_at (new_obj f) TYPE_VIRT (OVirt sp sub) virt_features None))
  | VirtDrop hdl => with_virt s g hdl (λ sp v, as_unit (on_space sp (λ t _, virt_destroy t vdso_phys v)))
  | VirtReprot hdl base len flags =>
      with_virt s g hdl (λ sp v, as_unit (on_space sp (λ t _, virt_reprotect t vdso_phys v base len flags)))
  | VirtUnmap hdl base len drop_child =>
      with_virt s g hdl (λ sp v, as_unit (on_space sp (λ t _, Virt.virt_unmap t vdso_phys v base len drop_child)))
  end.

(** The words of the call are words. *)
Definition words (c : object_call) : Prop :=
  match c with
  | PhysRead _ offset len buffer | PhysWrite _ offset len buffer =>
      0 ≤ offset < 2 ^ 64 ∧ 0 ≤ len < 2 ^ 64 ∧ 0 ≤ buffer < 2 ^ 64
  | PhysSub _ offset len _ => 0 ≤ offset < 2 ^ 64 ∧ 0 ≤ len < 2 ^ 64
  | _ => True
  end.

(** ** Running the checks *)

Lemma get_typed_run m g ty hdl : hm_rep m g →
  get_typed ty hdl m = (match g !! hm_decode m hdl with
                        | None => Err EINVAL
                        | Some r => if is_type r ty then Ok r else Err ETYPE
                        end, m).
Proof.
  intros Hm. unfold get_typed, mbind, st_bind. rewrite (get_ref_ok m g) by done.
  destruct (g !! _) as [r|]; cbn; [|done]. by destruct (is_type r ty).
Qed.

Lemma kernel_eta s : Kernel (handles s) (heap s) (mach s) (phys s) (spaces s) (resources s) = s.
Proof. by destruct s. Qed.

Lemma on_handles_typed s g ty hdl : well_typed s g →
  on_handles (get_typed ty hdl) s = (match g !! hm_decode (handles s) hdl with
                                     | None => Err EINVAL
                                     | Some r => if is_type r ty then Ok r else Err ETYPE
                                     end, s).
Proof. intros Hs. unfold on_handles. by rewrite (get_typed_run _ g) by apply Hs; rewrite kernel_eta. Qed.

Lemma target_type s g ty hdl feat o :
  target s g ty hdl = inr (feat, o) → well_typed s g → TYPE_PHYS ≤ ty ≤ TYPE_SPACE → kobj_type o = ty.
Proof.
  unfold target. intros Ht Hs Hty. destruct (g !! _) as [r|] eqn:Hg; [|done].
  pose proof (wt_obj _ _ Hs _ _ Hg) as Ho. destruct (obj r) as [|ty' a]; [done|].
  destruct (Z.eqb_spec ty' ty) as [->|]; [|done]. destruct (Ho Hty) as (o' & Ha & Hk). rewrite Ha in Ht. by injection Ht as _ ->.
Qed.

Lemma get_phys_run s g hdl : well_typed s g →
  get_phys hdl s = (match target s g TYPE_PHYS hdl with
                    | inl e => Err e
                    | inr (feat, OPhys p) => Ok (feat, p)
                    | inr _ => Panic
                    end, s).
Proof.
  intros Hs. unfold get_phys, mbind, st_bind, target. rewrite (on_handles_typed s g) by done. unfold is_type.
  destruct (g !! _) as [r|] eqn:Hg; [|done]. pose proof (wt_obj _ _ Hs _ _ Hg) as Ho.
  destruct (obj r) as [|ty a] eqn:Hr; [done|]. cbn [type_of]. destruct (Z.eqb_spec ty TYPE_PHYS) as [->|]; [|done].
  cbn [get]. rewrite Hr. destruct (Ho ltac:(apply object_types)) as (o & -> & Hk). by destruct o.
Qed.

Lemma weak_virt_run s g hdl : well_typed s g →
  get_virt hdl s = (match target s g TYPE_VIRT hdl with
                    | inl e => Err e
                    | inr (_, OVirt sp v) => x ← of_option EKILLED (live_virt s sp v); Ok (sp, v, x)
                    | inr _ => Panic
                    end, s).
Proof.
  intros Hs. unfold get_virt, mbind, st_bind, target. rewrite (on_handles_typed s g) by done. unfold is_type.
  destruct (g !! _) as [r|] eqn:Hg; [|done]. pose proof (wt_obj _ _ Hs _ _ Hg) as Ho.
  destruct (obj r) as [|ty a] eqn:Hr; [done|]. cbn [type_of]. destruct (Z.eqb_spec ty TYPE_VIRT) as [->|]; [|done].
  cbn [get]. rewrite Hr. destruct (Ho ltac:(apply object_types)) as (o & -> & Hk). destruct o; try done.
  unfold lift, live_virt. destruct (spaces s !! sp) as [x|]; [|done]. cbn. by destruct (sp_virts x !! v).
Qed.

Lemma check_bytes a n : 0 ≤ n → check_ptr a n 1 = if outside a n then Err EPERM else Ok ().
Proof.
  intros Hn. unfold check_ptr. rewrite usub_ok by lia. cbn [mbind res_bind]. rewrite Z.land_0_r. cbn.
  assert ((saturating_add a n <=? USER_END) = (a + n <=? USER_END)) as ->.
  { unfold saturating_add, MAX64, USER_END. apply eq_true_iff_eq. rewrite !Z.leb_le. lia. }
  unfold outside. rewrite andb_comm, Z.gtb_ltb. by destruct (_ && _).
Qed.

Lemma check_slice_bytes a n : 0 ≤ n < 2 ^ 64 → check_slice (UserPtr a 1 1) n = if outside a n then Err EPERM else Ok ().
Proof.
  intros Hn. unfold check_slice. cbn [size_of data align_of]. rewrite umul_ok, Z.mul_1_l by lia. cbn [mbind res_bind].
  apply check_bytes. lia.
Qed.

Lemma end_wraps a n : 0 ≤ a < 2 ^ 64 → 0 ≤ n < 2 ^ 64 → (wrap W (a + n) <? a) = (2 ^ 64 <=? a + n).
Proof.
  intros Ha Hn. apply eq_true_iff_eq. rewrite Z.ltb_lt, Z.leb_le.
  destruct (decide (a + n < 2 ^ 64)) as [Hs|Hs]; [rewrite wrap_small by lia; lia|].
  unfold wrap. rewrite <- (Z_mod_plus_full _ (-1)), Z.mod_small by lia. lia.
Qed.

Lemma phys_check_run s g hdl offset len :
  well_typed s g → 0 ≤ offset < 2 ^ 64 → 0 ≤ len < 2 ^ 64 →
  phys_check vdso_phys hdl offset len s =
  (match first_error [(is_null hdl, EINVAL); (2 ^ 64 <=? offset + len, ERANGE)] with
   | Some e => Err e
   | None =>
       match target s g TYPE_PHYS hdl with
       | inl e => Err e
       | inr (feat, OPhys p) => if ph_eqb p vdso_phys then Err EACCES else Ok (feat, p)
       | inr _ => Panic
       end
   end, s).
Proof.
  intros Hs Ho Hl. unfold phys_check, check_null, is_null. cbn [first_error foldr fst snd].
  destruct (hraw hdl =? 0); [done|]. cbn [negb]. rewrite (st_lift_ok (Ok _) _ _ _ eq_refl), end_wraps by done.
  destruct (2 ^ 64 <=? offset + len); [done|]. unfold mbind, st_bind. rewrite (get_phys_run s g) by done.
  destruct (target _ _ _ _) as [|[? []]]; try done. by destruct (ph_eqb _ _).
Qed.

Lemma phys_copy_run (to_user : bool) s g hdl offset len buffer :
  well_typed s g → 0 ≤ offset < 2 ^ 64 → 0 ≤ len < 2 ^ 64 →
  let c := if to_user then PhysRead hdl offset len buffer else PhysWrite hdl offset len buffer in
  phys_copy checked_copy zero_base vdso_phys to_user hdl offset len buffer s =
  match why_not s g c with
  | Some e => (Err e, s)
  | None => with_phys s g hdl (λ _, copy_bytes to_user offset len buffer) s
  end.
Proof.
  intros Hs Ho Hl c. unfold phys_copy. rewrite check_slice_bytes by done.
  assert (why_not s g c = or_else (first_error [(outside buffer len, EPERM); (is_null hdl, EINVAL); (2 ^ 64 <=? offset + len, ERANGE)])
        (phys_error s g hdl false (if to_user then Feature.READ else Feature.WRITE))) as -> by by destruct to_user.
  cbn [first_error foldr fst snd]. destruct (outside buffer len); [done|].
  rewrite (st_lift_ok (Ok ()) _ _ _ eq_refl). unfold mbind, st_bind. rewrite (phys_check_run s g) by done.
  cbn [first_error foldr fst snd]. destruct (is_null hdl); [done|]. destruct (2 ^ 64 <=? offset + len); [done|].
  unfold phys_error, with_phys, copy_bytes. destruct (target _ _ _ _) as [|[feat []]]; try done. cbn [negb andb].
  cbn [first_error foldr fst snd]. destruct (ph_eqb _ _); [done|]. cbn [or_else]. destruct (negb _); [done|].
  by rewrite Z.gtb_ltb.
Qed.

Lemma virt_run {B} s g hdl (k : nat * nat * Virt → st (kernel H T A) errno B) :
  well_typed s g →
  (x ← get_virt hdl; k x) s =
  match virt_error s g hdl with
  | Some e => (Err e, s)
  | None => match target s g TYPE_VIRT hdl with
            | inr (_, OVirt sp v) => match live_virt s sp v with Some x => k (sp, v, x) s | None => (Panic, s) end
            | _ => (Panic, s)
            end
  end.
Proof.
  intros Hs. unfold mbind, st_bind. rewrite (weak_virt_run s g) by done. unfold virt_error.
  destruct (target _ _ _ _) as [|[? []]]; try done. by destruct (live_virt s sp v).
Qed.

Lemma null_run {B} hdl (m : st (kernel H T A) errno B) s :
  (_ ← lift (check_null hdl); m) s = match first_error [(is_null hdl, EINVAL)] with Some e => (Err e, s) | None => m s end.
Proof. unfold check_null, is_null. by destruct (hraw hdl =? 0). Qed.

Lemma flags_run {B} flags (k : Z → st (kernel H T A) errno B) s :
  (x ← lift (check_flags flags); k x) s =
  match first_error [(negb (Flags.contains flags Flags.USER_ACCESS), EPERM)] with Some e => (Err e, s) | None => k flags s end.
Proof. unfold check_flags. by destruct (negb _). Qed.

Lemma byte_run {B} a (m : st (kernel H T A) errno B) s :
  (_ ← lift (check (UserPtr a 1 1)); m) s = match first_error [(outside a 1, EPERM)] with Some e => (Err e, s) | None => m s end.
Proof. unfold check. cbn [data size_of align_of]. rewrite check_bytes by lia. cbn [first_error foldr fst snd]. by destruct (outside a 1). Qed.

(** The results of the calls, after a failure and after the checks. *)
Ltac checks := cbn [first_error foldr fst snd or_else];
  repeat match goal with
  | |- context [is_null ?h] => destruct (is_null h); [done|]; cbn [or_else]
  | |- context [outside ?a ?n] => destruct (outside a n); [done|]; cbn [or_else]
  | |- context [negb (Flags.contains ?a ?b)] => destruct (negb (Flags.contains a b)); [done|]; cbn [or_else]
  end.

Lemma phys_calls_run f s g c : well_typed s g → words c →
  match c with PhysSize _ | PhysRead _ _ _ _ | PhysWrite _ _ _ _ | PhysSub _ _ _ _ | PhysResize _ _ _ => True | _ => False end →
  object_call_run checked_copy zero_base vdso_phys debug_assertions f c s =
  match why_not s g c with Some e => (Err e, s) | None => effect f s g c s end.
Proof.
  intros Hs Hc Hp. destruct c; try done; cbn [object_call_run why_not effect words] in *.
  - unfold phys_size. rewrite null_run. checks. unfold mbind, st_bind. rewrite (get_phys_run s g) by done.
    unfold phys_error, with_phys, Feature.contains. destruct (target _ _ _ _) as [|[? []]]; try done.
    by rewrite Z.land_0_r.
  - by apply (phys_copy_run true _ g); [|apply Hc..].
  - by apply (phys_copy_run false _ g); [|apply Hc..].
  - unfold as_handle, phys_sub, mbind, st_bind. rewrite (phys_check_run s g) by apply Hc || done. checks.
    destruct (2 ^ 64 <=? offset + len); [done|]. cbn [or_else]. unfold phys_error, with_phys.
    destruct (target _ _ _ _) as [|[? []]]; try done. cbn [negb andb]. checks.
    destruct (ph_eqb _ _); [done|]. by destruct (negb _).
  - unfold phys_resize. cbn [first_error foldr fst snd]. destruct (new_len =? 0); [done|]. cbn [or_else].
    unfold as_unit, mbind, st_bind. rewrite (get_phys_run s g) by done. unfold phys_error, with_phys.
    destruct (target _ _ _ _) as [|[? []]]; try done. cbn [negb andb]. checks.
    destruct (ph_eqb _ _); [done|]. by destruct (negb _).
Qed.

Lemma virt_calls_run f s g c : well_typed s g →
  match c with VirtAlloc _ _ _ _ | VirtDrop _ | VirtReprot _ _ _ _ | VirtUnmap _ _ _ _ => True | _ => False end →
  object_call_run checked_copy zero_base vdso_phys debug_assertions f c s =
  match why_not s g c with Some e => (Err e, s) | None => effect f s g c s end.
Proof.
  intros Hs Hp. destruct c; try done; cbn [object_call_run why_not effect] in *; unfold as_unit, as_handle.
  all: unfold virt_alloc, virt_drop, virt_reprot, virt_unmap, with_virt.
  all: unfold mbind at 1, st_bind at 1; rewrite null_run; checks; rewrite ?byte_run; checks; rewrite ?flags_run; checks.
  all: rewrite (virt_run s g) by done; unfold virt_error.
  all: destruct (target _ _ _ _) as [|[? [|sp v| |]]] eqn:Ht; try done.
  all: try by apply target_type in Ht; [|done|apply object_types].
  all: destruct (live_virt s sp v); try done.
  all: unfold layout_of, from_size_align; by destruct (_ && _).
Qed.

(** C4: the calls on one physical object or range ([phys_size], [phys_read],
    [phys_write], [phys_sub], [phys_resize], [virt_alloc], [virt_drop],
    [virt_reprot], [virt_unmap]): if one of the conditions of the table holds, the
    call returns the error of the first of them and nothing has changed; if none
    does, it does its work on the object the handle stands for, and no check refuses it. *)
Theorem object_calls_errors f s g c : well_typed s g → words c →
  object_call_run checked_copy zero_base vdso_phys debug_assertions f c s =
  match why_not s g c with
  | Some e => (Err e, s)
  | None => effect f s g c s
  end.
Proof.
  intros Hs Hc. destruct c; (by apply phys_calls_run) || (by apply virt_calls_run).
Qed.

(** ** [phys_acq] *)

Lemma insert_at_waits a ty o e s : e = None →
  insert_at a ty o phys_features e s = (Err EPERM, s).
Proof. intros ->. by destruct s. Qed.

Lemma insert_new_fails f p s : is_ok (fst (insert_new f p s)) = false.
Proof.
  unfold insert_new, attempt, mbind, st_bind. rewrite insert_at_waits by done. by destruct (drop_new p s) as [[]].
Qed.

Lemma insert_new_block f s base size : inners (phys s) !! new_id f = None →
  (p ← on_physical (new_phys (new_id f) base size); insert_new f p) s = (Err EPERM, s).
Proof.
  intros Hn. destruct s as [h o m [e i] sp r]. cbn [phys inners] in Hn.
  set (s1 := Kernel h o m (PhysState e (<[new_id f := MkInner false base size]> i)) sp r).
  rewrite (st_bind_ok _ _ _ (PCont (MkCont 0 size (new_id f))) s1) by done.
  unfold insert_new, attempt, mbind, st_bind. rewrite insert_at_waits by done.
  unfold drop_new, on_physical, inner_drop, get_inner, mbind, st_bind. cbn. rewrite lookup_insert_eq. cbn.
  by rewrite delete_insert_id.
Qed.

(** A request for addresses of the resource, and not for any pages. *)
Record acq_ok f s g (hdl : Handle) (addr size : Z) (r root : resource) : Prop := {
  ao_target : ∃ feat id, target s g TYPE_RESOURCE hdl = inr (feat, ORes id) ∧ Resource.objs (resources s) !! id = Some r;
  ao_root : Resource.objs (resources s) !! mem_resource = Some root;
  ao_magic : r_magic r = r_magic root;
  ao_page : addr mod PAGE_SIZE = 0 ∧ size mod PAGE_SIZE = 0;
  ao_range : 0 < addr ∧ fst (r_range r) ≤ addr ∧ 0 ≤ size ∧ addr + size ≤ snd (r_range r) < 2 ^ 64;
  ao_fresh : inners (phys s) !! new_id f = None;
}.

(** [phys_acq] never returns a handle: it enters the object with the features
    of physical objects, which include WAIT, and without an event, which the table
    refuses. A request that passes every check is answered EPERM, and nothing has
    changed. *)
Theorem phys_acq_refused f s g hdl addr size : well_typed s g →
  is_ok (fst (phys_acq mem_resource f hdl addr size s)) = false ∧
  (∀ r root, acq_ok f s g hdl addr size r root → phys_acq mem_resource f hdl addr size s = (Err EPERM, s)).
Proof.
  intros Hs. split.
  - unfold phys_acq. destruct (_ || _); [done|]. unfold mbind at 1, st_bind at 1. rewrite (on_handles_typed s g) by done.
    destruct (g !! _) as [r|]; [|done]. destruct (is_type r _); [|done]. rewrite st_get_bind.
    unfold lift, mbind, st_bind. destruct (unwrap _); [|done..]. destruct (unwrap _); [|done..].
    destruct (negb _); [done|]. destruct (addr =? 0).
    + destruct (on_physical _ s) as [[] ?]; [apply insert_new_fails|done..].
    + destruct (fst _ <=? addr); [|done]. destruct (addr +! size); [|done..]. cbn. destruct (negb _); [done|].
      apply insert_new_fails.
  - intros r root [(feat & id & Ht & Hr) Hroot Hm [Hp1 Hp2] (Ha & H1 & H2 & H3 & H4) Hn]. unfold phys_acq.
    assert (∀ z, z mod PAGE_SIZE = 0 → contains_bit z (PAGE_SIZE - 1) = false) as Hpage.
    { intros z Hz. unfold contains_bit. change (PAGE_SIZE - 1) with (2 ^ 12 - 1). rewrite land_ones_mod by done.
      change (2 ^ 12) with PAGE_SIZE. by rewrite Hz. }
    rewrite !Hpage by done. cbn [orb]. unfold mbind at 1, st_bind at 1. rewrite (on_handles_typed s g) by done.
    revert Ht. unfold target. destruct (g !! _) as [x|]; [|done]. unfold is_type.
    destruct (obj x) as [|ty a] eqn:Hx; [done|]. cbn [type_of]. destruct (ty =? TYPE_RESOURCE); [|done].
    destruct (heap s !! a) as [o|] eqn:Hh; [|done]. intros [= _ ->]. rewrite st_get_bind, Hx, Hh, Hr.
    rewrite (st_lift_ok (unwrap (Some r)) _ _ _ eq_refl), Hroot, (st_lift_ok (unwrap (Some root)) _ _ _ eq_refl).
    unfold magic_eq. rewrite Hm, Z.eqb_refl. cbn [negb]. rewrite (proj2 (Z.eqb_neq _ _)) by lia.
    rewrite (proj2 (Z.leb_le _ _)) by lia. rewrite uadd_ok by lia.
    rewrite (st_bind_ok _ _ s true s); [by apply insert_new_block|].
    rewrite (st_lift_ok (Ok _) _ _ _ eq_refl), (proj2 (Z.leb_le _ _)) by lia. done.
Qed.

(** ** Mappings *)

(** No right that the features do not give; the cache is never turned off. *)
Definition rights_ok (feat flags : Z) : Prop :=
  (Flags.contains flags Flags.READABLE = true → Feature.contains feat Feature.READ = true) ∧
  (Flags.contains flags Flags.WRITABLE = true → Feature.contains feat Feature.WRITE = true) ∧
  (Flags.contains flags Flags.EXECUTABLE = true → Feature.contains feat Feature.EXECUTE = true) ∧
  Flags.contains flags Flags.UNCACHED = false.

Lemma land_excludes x k b : Z.land x k = 0 → Z.land k b = b → b ≠ 0 → Flags.contains x b = false.
Proof.
  intros Hx Hb Hn. unfold Flags.contains. rewrite <- Hb, Z.land_assoc, Hx, Z.land_0_l, Hb. by apply Z.eqb_neq.
Qed.

Lemma flags_within feat flags :
  Flags.intersects flags (Z.ldiff Flags.all (features_to_flags feat)) = false → rights_ok feat flags.
Proof.
  unfold Flags.intersects, rights_ok, features_to_flags. intros Hi%negb_false_iff%Z.eqb_eq.
  destruct (Feature.contains feat Feature.READ), (Feature.contains feat Feature.WRITE), (Feature.contains feat Feature.EXECUTE).
  all: split_and!; try done.
  all: match goal with |- context [Flags.contains _ ?b] => by rewrite (land_excludes _ _ b Hi) end.
Qed.

Lemma on_physical_frame {B} (m : st (phys_state A) errno B) s r s' :
  on_physical m s = (r, s') → handles s' = handles s ∧ heap s' = heap s ∧ spaces s' = spaces s.
Proof. unfold on_physical. destruct (m (phys s)). by intros [= _ <-]. Qed.

Lemma on_space_frame {B} sp (m : Z → nat → st (vm T A) errno B) s r s' :
  on_space sp m s = (r, s') → handles s' = handles s.
Proof.
  unfold on_space. destruct (spaces s !! sp) as [x|]; [|by intros [= _ <-]].
  destruct (m _ _ _) as [? v]. by intros [= _ <-].
Qed.

Lemma on_handles_frame {B} (m : st (HandleMap H) errno B) s r s' :
  on_handles m s = (r, s') → s' = Kernel (handles s') (heap s) (mach s) (phys s) (spaces s) (resources s).
Proof. unfold on_handles. destruct (m (handles s)). by intros [= _ <-]. Qed.

Lemma user_write_frame f p v s r s' : user_write checked_copy f p v s = (r, s') → handles s' = handles s.
Proof.
  unfold user_write, mbind, st_bind. destruct (on_physical _ s) as [[] s1] eqn:H1; intros Hr.
  all: apply on_physical_frame in H1 as [H1 _]; rewrite <- H1; try by injection Hr as _ <-.
  by apply on_physical_frame in Hr as [Hr _].
Qed.

Lemma well_typed_frame s s' g : handles s' = handles s → heap s' = heap s → well_typed s g → well_typed s' g.
Proof. intros Hh Hp [Hr Ho]. split; [by rewrite Hh|]. intros k r Hk. rewrite Hp. by eapply Ho. Qed.

Lemma remove_phys s g hdl r s' : well_typed s g →
  on_handles (remove_typed TYPE_PHYS hdl) s = (Ok r, s') →
  g !! hm_decode (handles s) hdl = Some r ∧ type_of (obj r) = TYPE_PHYS ∧ heap s' = heap s ∧
  hm_rep (handles s') (delete (hm_decode (handles s) hdl) g).
Proof.
  intros Hs. unfold on_handles, remove_typed.
  destruct (try_remove_ok (handles s) g hdl (λ r, if is_type r TYPE_PHYS then None else Some ETYPE) (wt_rep _ _ Hs))
    as (m' & g' & Hm' & _ & _ & Hr).
  destruct (g !! _) as [x|]; [|by destruct Hr as [-> _]]. destruct (is_type x TYPE_PHYS) eqn:Ht.
  - apply Z.eqb_eq in Ht. destruct Hr as [-> ->]. by intros [= -> <-].
  - by destruct Hr as [-> _].
Qed.

(** The state once the request has been copied, and the request as it is then in memory. *)
Definition copied f s (mi_ptr : Z) : kernel H T A := snd (user_read checked_copy (UserPtr mi_ptr 48 8) (local f) s).
Definition request f s (mi_ptr : Z) : VirtMapInfo :=
  read_map_info (emem (ext (phys (copied f s mi_ptr)))) (local f).
Definition with_handles (m : HandleMap H) (s : kernel H T A) : kernel H T A :=
  Kernel m (heap s) (mach s) (phys s) (spaces s) (resources s).

(** The state [s'] is that after mapping [size] bytes of [p], the length of [p] when
    the request says 0, into the range [v] of the space [sp] of the state [s], at the
    address [a], with the offsets, the alignment and the flags of the request, and
    writing the size back into the request. *)
Definition mapped_as f (mi : VirtMapInfo) (mi_ptr : Z) sp v p (a : Z) (s s' : kernel H T A) : Prop :=
  ∃ size l s1 s2,
    (if vm_len mi =? 0 then on_physical (ph_len p) else mret (vm_len mi)) s = (Ok size, s1) ∧
    layout_of size (vm_align mi) = Ok l ∧
    on_space sp (λ t root, Virt.virt_map zero_base t root vdso_flags vdso_phys debug_assertions (rand1 f) (rand2 f)
      v (some_offset (vm_offset mi)) p (vm_phys_offset mi) l (vm_flags mi)) s1 = (Ok a, s2) ∧
    user_write checked_copy f (UserPtr (wrap W (mi_ptr + 24)) 8 8) (to_le 8 size) s2 = (Ok (), s').

Lemma virt_map_inv f s g hdl mi_ptr a s' : well_typed s g →
  virt_map checked_copy zero_base vdso_flags vdso_phys debug_assertions f hdl mi_ptr s = (Ok a, s') →
  let mi := request f s mi_ptr in
  ∃ r p m fv sp v, target s g TYPE_VIRT hdl = inr (fv, OVirt sp v) ∧
    g !! hm_decode (handles s) (vm_phys mi) = Some r ∧
    target s g TYPE_PHYS (vm_phys mi) = inr (feat r, OPhys p) ∧
    Flags.contains (vm_flags mi) Flags.USER_ACCESS = true ∧ rights_ok (feat r) (vm_flags mi) ∧
    hm_rep m (delete (hm_decode (handles s) (vm_phys mi)) g) ∧
    mapped_as f mi mi_ptr sp v p a (with_handles m (copied f s mi_ptr)) s'.
Proof.
  intros Hs Hv mi. unfold virt_map in Hv.
  apply st_lift_inv in Hv as (_ & _ & Hv). apply st_ok_inv in Hv as ([] & s1 & Hu & Hv).
  assert (copied f s mi_ptr = s1) as Hc by (unfold copied; by rewrite Hu). rewrite Hc.
  assert (mi = read_map_info (emem (ext (phys s1))) (local f)) as Hmi by (unfold mi, request; by rewrite Hc).
  apply on_physical_frame in Hu as (Hh1 & Hp1 & _). rewrite st_get_bind in Hv. cbv zeta in Hv. rewrite <- Hmi in Hv.
  assert (well_typed s1 g) as Hs1 by by apply (well_typed_frame s).
  assert (∀ ty h, target s1 g ty h = target s g ty h) as Htg by (intros; unfold target; by rewrite Hh1, Hp1).
  apply st_lift_inv in Hv as (flags & Hf & Hv). unfold check_flags in Hf.
  destruct (Flags.contains (vm_flags mi) Flags.USER_ACCESS) eqn:Hua; [|done]. injection Hf as <-.
  rewrite (virt_run s1 g), Htg in Hv by done. destruct (virt_error s1 g hdl); [done|].
  destruct (target s g TYPE_VIRT hdl) as [|[fv [|sp v| |]]]; [done..| |done|done].
  destruct (live_virt s1 sp v); [|done].
  apply st_ok_inv in Hv as (r & s2 & Hr & Hv). pose proof (on_handles_frame _ _ _ _ Hr) as Hs2.
  apply (remove_phys _ g) in Hr as (Hg & Ht & Hp2 & Hm2); [|done].
  rewrite Hh1 in Hg, Hm2. rewrite st_get_bind in Hv. apply st_lift_inv in Hv as (p & Hp & Hv).
  exists r, p, (handles s2), fv, sp, v. destruct (Flags.intersects _ _) eqn:Hi; [done|].
  split_and!; [done|done| |done|by apply flags_within|done|].
  - unfold target. rewrite Hg. destruct (obj r) as [|ty ad]; [done|]. cbn in Ht. subst ty. cbn.
    rewrite Hp2, Hp1 in Hp. destruct (heap s !! ad) as [[]|]; try done. by injection Hp as ->.
  - unfold with_handles. rewrite <- Hs2.
    apply st_ok_inv in Hv as (sz & s3 & Hsz & Hv). apply st_lift_inv in Hv as (l & Hl & Hv).
    apply st_ok_inv in Hv as (ad & s4 & Hmap & Hv). apply st_ok_inv in Hv as ([] & s5 & Hw & Hv).
    injection Hv as -> <-. by exists sz, l, s3, s4.
Qed.

(** C9: when [virt_map] succeeds, the handle of the request was that of a physical
    object and has left the table, and the flags of the request are those of user memory and
    allow no reading, writing or execution that the features of that handle do not. What
    was done is exactly to map this object into the range the other handle names, with
    the offsets, length, alignment and flags of the request, at the address returned,
    and to write the size of the mapping back. *)
Theorem virt_map_rights f s g hdl mi_ptr a s' : well_typed s g →
  virt_map checked_copy zero_base vdso_flags vdso_phys debug_assertions f hdl mi_ptr s = (Ok a, s') →
  let mi := request f s mi_ptr in
  let k := hm_decode (handles s) (vm_phys mi) in
  ∃ r p m fv sp v, target s g TYPE_VIRT hdl = inr (fv, OVirt sp v) ∧
    g !! k = Some r ∧ target s g TYPE_PHYS (vm_phys mi) = inr (feat r, OPhys p) ∧
    Flags.contains (vm_flags mi) Flags.USER_ACCESS = true ∧ rights_ok (feat r) (vm_flags mi) ∧
    hm_rep m (delete k g) ∧ handles s' = m ∧
    mapped_as f mi mi_ptr sp v p a (with_handles m (copied f s mi_ptr)) s'.
Proof.
  intros Hs Hv mi k. destruct (virt_map_inv _ _ _ _ _ _ _ Hs Hv) as (r & p & m & fv & sp & v & H1 & H2 & H3 & H4 & H5 & H6 & H7).
  exists r, p, m, fv, sp, v. split_and!; try done. clear - H7. destruct H7 as (size & l & s1 & s2 & Hsz & _ & Hmap & Hw).
  apply user_write_frame in Hw. apply on_space_frame in Hmap. rewrite Hw, Hmap.
  destruct (_ =? 0); [by apply on_physical_frame in Hsz as [-> _]|by injection Hsz as _ <-].
Qed.

(** ** Types are kept *)

(** From a state of [I], a computation leaves one of [J], whatever it returns. *)
Definition leads {B} (I J : kernel H T A → Prop) (m : st (kernel H T A) errno B) : Prop := ∀ s, I s → J (snd (m s)).

Lemma leads_bind {B C} (I J K : kernel H T A → Prop) (m : st (kernel H T A) errno B) (k : B → st (kernel H T A) errno C) :
  (∀ s, J s → K s) → leads I J m → (∀ b, leads J K (k b)) → leads I K (m ≫= k).
Proof.
  intros HJ Hm Hk s Hs. specialize (Hm s Hs). unfold mbind, st_bind.
  destruct (m s) as [[b| |] s1]; [by apply Hk|by apply HJ..].
Qed.

(** There is room for [n] handles, and nothing yet at the addresses [l]. *)
Definition ready (l : list Z) (n : Z) s : Prop :=
  NoDup l ∧ Forall (λ a, heap s !! a = None) l ∧ next_id (handles s) + n < 2 ^ 32 ∧ ∃ g, well_typed s g.

Lemma ready_less a l n n' s : n' ≤ n → ready (a :: l) n s → ready l n' s.
Proof. intros Hn ([_ Hd]%NoDup_cons & [_ Hf]%Forall_cons & Hi & Hg). split_and!; [done..|lia|done]. Qed.

Lemma ready_end l n s : 0 ≤ n → ready l n s → ready [] 0 s.
Proof. intros Hn (_ & _ & Hi & Hg). split_and!; [constructor..|lia|done]. Qed.

Lemma ready_frame l n s s' : handles s' = handles s → heap s' = heap s → ready l n s → ready l n s'.
Proof.
  intros Hh Hp (Hd & Hf & Hi & g & Hg). split_and!; [done|by rewrite Hp|by rewrite Hh|]. exists g. by apply (well_typed_frame s).
Qed.

Lemma on_physical_ready {B} l n (m : st (phys_state A) errno B) : keeps (ready l n) (on_physical m).
Proof.
  intros s Hs. destruct (on_physical m s) as [r s'] eqn:Hm. apply on_physical_frame in Hm as (? & ? & _).
  by apply (ready_frame _ _ s).
Qed.

Lemma on_space_ready {B} l n sp (m : Z → nat → st (vm T A) errno B) : keeps (ready l n) (on_space sp m).
Proof.
  intros s Hs. unfold on_space. destruct (spaces s !! sp) as [x|]; [|done]. destruct (m _ _ _) as [r v].
  by apply (ready_frame _ _ s).
Qed.

Lemma user_write_ready l n f p v : keeps (ready l n) (user_write checked_copy f p v).
Proof. apply keeps_bind; [|intros _]; apply on_physical_ready. Qed.

Lemma get_typed_ready l n ty hdl : keeps (ready l n) (on_handles (get_typed ty hdl)).
Proof. intros s Hs. pose proof Hs as (_ & _ & _ & g & Hg). by rewrite (on_handles_typed s g). Qed.

Lemma get_phys_ready l n hdl : keeps (ready l n) (get_phys hdl).
Proof. intros s Hs. pose proof Hs as (_ & _ & _ & g & Hg). by rewrite (get_phys_run s g). Qed.

Lemma get_virt_ready l n hdl : keeps (ready l n) (get_virt hdl).
Proof. intros s Hs. pose proof Hs as (_ & _ & _ & g & Hg). by rewrite (weak_virt_run s g). Qed.

Lemma remove_ready l n ty hdl : keeps (ready l n) (on_handles (remove_typed ty hdl)).
Proof.
  intros s (Hd & Hf & Hi & g & Hg). unfold on_handles, remove_typed.
  destruct (try_remove_ok (handles s) g hdl (λ r, if is_type r ty then None else Some ETYPE) (wt_rep _ _ Hg))
    as (m' & g' & Hm' & _ & Hn & Hr).
  assert (g' ⊆ g) as Hsub.
  { destruct (g !! _) as [r|]; [|by destruct Hr as [_ ->]].
    destruct (is_type r ty); destruct Hr as [_ ->]; [apply delete_subseteq|done]. }
  destruct (try_remove_key _ _ _) as [r m] eqn:Hm.
  assert (m = m') as -> by (destruct (g !! _) as [x|]; [destruct (is_type x ty)|]; by destruct Hr as [[= -> ->] _]).
  split_and!; [done..|cbn; lia|]. exists g'. split; [done|]. intros k x Hk. eapply (wt_obj _ _ Hg k), lookup_weaken; done.
Qed.

Lemma typed_obj_insert h a o x : h !! a = None → typed_obj h x → typed_obj (<[a := o]> h) x.
Proof.
  intros Ha. destruct x as [|ty b]; [done|]. intros Hx Hty. destruct (Hx Hty) as (o' & Hb & Ho).
  exists o'. split; [|done]. rewrite lookup_insert_ne; [done|]. congruence.
Qed.

Lemma insert_at_ready a l n ty o ft e : ty = kobj_type o → 0 ≤ n →
  leads (ready (a :: l) (n + 1)) (ready l n) (insert_at a ty o ft e).
Proof.
  intros -> Hn0 s Hs. pose proof Hs as ([Ha Hd]%NoDup_cons & [Hn Hf]%Forall_cons & Hi & g & Hg).
  unfold insert_at, insert_unchecked, mbind, st_bind. unfold on_handles.
  destruct (from_raw_unchecked _ ft e) as [r| |] eqn:Hr; unfold lift.
  2,3: apply (ready_frame _ _ s); [done..|apply (ready_less a l (n + 1)); [lia|done]].
  destruct (insert_ref_ok (handles s) g r (wt_rep _ _ Hg) ltac:(lia)) as (m & -> & Hm & _ & Hnext). cbn.
  assert (obj r = Obj (kobj_type o) a) as Hobj.
  { unfold from_raw_unchecked in Hr. destruct (_ && _); [done|]. by injection Hr as <-. }
  split_and!; [done| |cbn; lia|].
  - apply Forall_forall. intros b Hb. cbn. rewrite lookup_insert_ne by set_solver. by eapply Forall_forall in Hf.
  - eexists. split; [done|]. cbn. intros k x [[_ <-]|[_ Hk]]%lookup_insert_Some.
    + rewrite Hobj. intros _. exists o. by rewrite lookup_insert_eq.
    + apply typed_obj_insert; [done|]. by eapply wt_obj.
Qed.

(** What keeps an invariant of this shape, step by step. *)
Ltac keep := repeat first
  [ progress (intros) | apply keeps_bind | apply keeps_ret | apply keeps_lift | apply keeps_get | apply keeps_attempt
  | apply on_physical_ready | apply on_space_ready | apply user_write_ready | apply get_typed_ready | apply get_phys_ready
  | apply get_virt_ready | apply remove_ready
  | match goal with |- keeps _ (match ?x with _ => _ end) => destruct x end ].

Definition fresh_frame f s : Prop := ready [new_obj f; new_obj2 f] 2 s.
Definition typed s : Prop := ready [] 0 s.

Lemma fresh_typed f s : fresh_frame f s → typed s.
Proof. by apply ready_end. Qed.

Lemma leads_keeps {B} f (m : st (kernel H T A) errno B) : keeps (fresh_frame f) m → leads (fresh_frame f) typed m.
Proof. intros Hm s Hs. by eapply fresh_typed, Hm. Qed.

Lemma leads_first {B C} f (m : st (kernel H T A) errno B) (k : B → st (kernel H T A) errno C) :
  keeps (fresh_frame f) m → (∀ b, leads (fresh_frame f) typed (k b)) → leads (fresh_frame f) typed (m ≫= k).
Proof. by apply leads_bind, fresh_typed. Qed.

Lemma leads_last {B C} f (m : st (kernel H T A) errno B) (k : B → st (kernel H T A) errno C) :
  leads (fresh_frame f) typed m → (∀ b, keeps typed (k b)) → leads (fresh_frame f) typed (m ≫= k).
Proof. by apply leads_bind. Qed.

Lemma leads_insert f ty o ft e : ty = kobj_type o → leads (fresh_frame f) typed (insert_at (new_obj f) ty o ft e).
Proof. intros Ht s Hs. eapply ready_end; [|by eapply (insert_at_ready _ _ 1)]. done. Qed.

Lemma leads_insert_new f p : leads (fresh_frame f) typed (insert_new f p).
Proof.
  apply leads_last; [|intros [e|h]; unfold drop_new; keep].
  intros s Hs. unfold attempt. pose proof (leads_insert f TYPE_PHYS (OPhys p) phys_features None eq_refl s Hs) as Hi.
  by destruct (insert_at _ _ _ _ _ s) as [[]].
Qed.

Lemma object_calls_ready f c : leads (fresh_frame f) typed
  (object_call_run checked_copy zero_base vdso_phys debug_assertions f c).
Proof.
  destruct c; cbn [object_call_run].
  all: unfold phys_size, phys_read, phys_write, phys_copy, phys_sub, phys_check, phys_resize, virt_alloc, virt_drop, virt_reprot,
    virt_unmap, as_unit.
  all: try (apply leads_keeps; unfold fresh_frame; keep; fail).
  - apply leads_last; [|intros; apply keeps_ret]. apply leads_first; [unfold fresh_frame; keep|intros [feat p]].
    destruct (negb _); [by apply leads_keeps, keeps_lift|]. apply leads_first; [apply on_physical_ready|intros sub].
    by apply leads_insert.
  - apply leads_last; [|intros; apply keeps_ret]. apply leads_first; [apply keeps_lift|intros _].
    apply leads_first; [apply get_virt_ready|intros [[sp v] x]]. apply leads_first; [apply keeps_lift|intros ?].
    apply leads_first; [apply on_space_ready|intros ?]. by apply leads_insert.
Qed.

Lemma space_make_ready l n f : keeps (ready l n) (space_make kernel_root f).
Proof. intros s Hs. unfold space_make. destruct (arch_new _ _) as [[] m]; by apply (ready_frame _ _ s). Qed.

Lemma space_new_ready f root_virt : leads (fresh_frame f) typed (space_new checked_copy kernel_root f root_virt).
Proof.
  unfold space_new. apply leads_first; [apply keeps_lift|intros _]. apply leads_first; [apply space_make_ready|intros _].
  apply (leads_bind _ (ready [new_obj2 f] 1)); [by intros s; apply ready_end|by apply (insert_at_ready _ _ 1)|intros ret].
  apply (leads_bind _ (ready [] 0)); [done|by apply (insert_at_ready _ _ 0)|intros virt].
  change (keeps typed (_ ← user_write checked_copy f (UserPtr root_virt 4 4) (to_le 4 (hraw virt)); mret ret)). unfold typed. keep.
Qed.

Lemma phys_acq_ready f hdl addr size : leads (fresh_frame f) typed (phys_acq mem_resource f hdl addr size).
Proof.
  unfold phys_acq. destruct (_ || _); [by apply leads_keeps, keeps_lift|].
  apply leads_first; [apply get_typed_ready|intros r]. apply leads_first; [apply keeps_get|intros s].
  do 2 (apply leads_first; [apply keeps_lift|intros ?]). destruct (negb _); [by apply leads_keeps, keeps_lift|].
  destruct (addr =? 0).
  - apply leads_first; [apply on_physical_ready|apply leads_insert_new].
  - apply leads_first; [unfold fresh_frame; keep|intros ok]. destruct (negb ok); [by apply leads_keeps, keeps_lift|].
    apply leads_first; [apply on_physical_ready|apply leads_insert_new].
Qed.

(** Whatever call a task makes and whatever it returns, every handle of its table
    still holds the address of an object of its type, so that no later call takes an
    object for one of another type. *)
Theorem calls_keep_types f c s g :
  well_typed s g → next_id (handles s) + 2 < 2 ^ 32 →
  heap s !! new_obj f = None → heap s !! new_obj2 f = None → new_obj f ≠ new_obj2 f →
  ∃ g', well_typed (snd (call_run checked_copy zero_base kernel_root vdso_flags vdso_phys debug_assertions mem_resource f c s)) g'.
Proof.
  intros Hg Hn H1 H2 Hne.
  assert (fresh_frame f s) as Hs.
  { split_and!; [|by repeat constructor|done|by exists g]. repeat constructor; set_solver. }
  enough (leads (fresh_frame f) typed
    (call_run checked_copy zero_base kernel_root vdso_flags vdso_phys debug_assertions mem_resource f c)) as Hl by apply (Hl s Hs).
  destruct c; cbn [call_run].
  - apply object_calls_ready.
  - apply leads_last; [|intros; apply keeps_ret]. apply leads_first; [apply on_physical_ready|intros p]. by apply leads_insert.
  - apply leads_keeps. unfold fresh_frame, phys_readv, phys_copyv, check_physv, vec_with_capacity. keep.
  - apply leads_keeps. unfold fresh_frame, phys_writev, phys_copyv, check_physv, vec_with_capacity. keep.
  - apply leads_last; [apply phys_acq_ready|intros; apply keeps_ret].
  - apply leads_last; [apply space_new_ready|intros; apply keeps_ret].
  - apply leads_keeps. unfold fresh_frame, virt_info. keep.
  - apply leads_keeps. unfold fresh_frame, virt_map, user_read. keep.
  - apply leads_keeps. unfold fresh_frame, mem_info, as_unit. keep.
Qed.
End spec.

(** ** A task with five handles

    Concrete calls on memory: a space with a read-only and a writable object, the
    vDSO, a range and the memory resource. *)

#[local] Existing Instance PhysSpec.Witness.BlockSource_none.

(** References entered one after the other get successive keys. *)
Fixpoint enter (rs : list Ref) (k : Z) (g : gmap Z Ref) : gmap Z Ref :=
  match rs with
  | [] => g
  | r :: rs => enter rs (k + 1) (<[k := r]> g)
  end.

Lemma merge_enter rs : ∀ (m : HandleMap (gmap Z)) g, hm_rep m g → next_id m + Z.of_nat (length rs) < 2 ^ 32 →
  hm_rep (snd (merge rs m)) (enter rs (next_id m) g).
Proof.
  induction rs as [|r rs IH]; intros m g Hm Hn; [done|]. cbn [length] in Hn. cbn [merge enter].
  destruct (insert_ref_ok m g r Hm ltac:(lia)) as (m1 & H1 & Hm1 & _ & Hn1). rewrite (st_bind_ok _ _ _ _ _ H1).
  specialize (IH m1 _ Hm1 ltac:(lia)). rewrite Hn1 in IH. unfold mbind, st_bind. by destruct (merge rs m1) as [[] ?].
Qed.

Lemma enter_Forall (Q : Ref → Prop) rs : ∀ k g, Forall Q rs → map_Forall (λ _, Q) g → map_Forall (λ _, Q) (enter rs k g).
Proof.
  induction rs as [|r rs IH]; intros k g Hrs Hg; [done|]. apply Forall_cons in Hrs as [Hr Hrs].
  cbn [enter]. apply IH; [done|]. by apply map_Forall_insert_2.
Qed.

Module MemWitness.
Import SpaceSpec.Witness.

Definition read_only : Z := Z.lor (Z.lor Feature.SEND Feature.SYNC) Feature.READ.
Definition refs : list Ref :=
  [ MkRef (Some 0%nat) read_only (Obj TYPE_PHYS 0x10);
    MkRef (Some 0%nat) phys_features (Obj TYPE_PHYS 0x11);
    MkRef None (Z.lor Feature.READ Feature.EXECUTE) (Obj TYPE_PHYS 0x12);
    MkRef None virt_features (Obj TYPE_VIRT 0x13);
    MkRef None space_features (Obj TYPE_RESOURCE 0x14) ].
Definition mix : Z := 0x55.
Definition h (k : Z) : Handle := MkHandle (Z.lxor k mix).

(** A request at 0x200000: map the object of handle 1, one page, to read it; a buffer
    of 16 bytes at 0x200100. *)
Definition request_bytes : list Z :=
  to_le 8 0x1000 ++ to_le 8 (hraw (h 1)) ++ to_le 8 0 ++ to_le 8 0x1000 ++ to_le 8 0x1000 ++ to_le 8 ro.

Definition all_phys : phys_state (list Z) :=
  PhysState (ExtState ∅ (store 0x200100 (to_le 8 0x300000 ++ to_le 8 16) (store 0x200000 request_bytes ∅)) [] []) (inners objects).

Definition k0 : kernel (gmap Z) (gset Z) (list Z) :=
  Kernel (snd (merge refs (hm_new mix)))
    (list_to_map [(0x10, OPhys (PCont win)); (0x11, OPhys (PCont (MkCont 0x8000 0x2000 5))); (0x12, OPhys vdso_obj); (0x13, OVirt 0 0); (0x14, ORes 0)])
    Concrete.s0 all_phys {[ 0%nat := MkSpace Concrete.root 0 (virts vm0) None true ]}
    (snd (new_root 7 (0, 2 ^ 40) (Rheap ∅ 0))).

Definition g0 : gmap Z Ref := enter refs 1 ∅.

(** The copy of user memory, when no page is missing. *)
Definition copy_ok (dst src n : Z) (m : memory) : CheckedCopyRet * memory := (Ret 0 0, memcpy dst src n m).

Definition fr : frame := MkFrame 0x20 0x21 9 10 1 1 0 0xFFFF800000300000 (Some 0xFFFF800000400000) 0 0.

Lemma k0_typed : well_typed k0 g0.
Proof.
  split.
  - apply (merge_enter refs (hm_new mix) ∅); [apply hm_new_rep|done].
  - intros k r Hk. apply (enter_Forall (λ r, typed_obj (heap k0) (obj r)) refs 1 ∅) in Hk; [done| |apply map_Forall_empty].
    repeat constructor; cbn; intros _; eexists; (split; [vm_compute; reflexivity|reflexivity]).
Qed.

Abbreviation orun P := (object_call_run (P:=P) copy_ok 0 vdso_obj true fr).

Lemma object_calls_errors_witness :
  orun debug_profile (PhysWrite (h 1) 0 16 0x200000) k0 = (Err EPERM, k0) ∧
  orun debug_profile (PhysRead (h 3) 0 16 0x200000) k0 = (Err EACCES, k0) ∧
  orun debug_profile (VirtReprot (h 2) 0x101000 0x1000 rw) k0 = (Err ETYPE, k0) ∧
  orun debug_profile (PhysWrite (h 2) 0 16 0x200000) k0 =
    on_physical (ph_copy (P:=debug_profile) 0 copy_ok true false (PCont (MkCont 0x8000 0x2000 5)) 0 16 0x200000) k0.
Proof.
  assert (∀ c, words c → orun debug_profile c k0 = match why_not vdso_obj k0 g0 c with
    | Some e => (Err e, k0) | None => effect (P:=debug_profile) copy_ok 0 vdso_obj true fr k0 g0 c k0 end) as H.
  { intros c Hc. exact (object_calls_errors (P:=debug_profile) copy_ok 0 vdso_obj true fr k0 g0 c k0_typed Hc). }
  assert (∀ c e, words c → why_not vdso_obj k0 g0 c = Some e → orun debug_profile c k0 = (Err e, k0)) as He.
  { intros c e Hc Hw. rewrite (H c Hc). by rewrite Hw. }
  split; [|split; [|split]].
  - apply He; [cbn; lia|vm_compute; reflexivity].
  - apply He; [cbn; lia|vm_compute; reflexivity].
  - apply He; [done|vm_compute; reflexivity].
  - rewrite H by (cbn; lia). assert (why_not vdso_obj k0 g0 (PhysWrite (h 2) 0 16 0x200000) = None) as -> by (vm_compute; reflexivity).
    cbn [effect]. unfold with_phys, target, copy_bytes.
    assert (g0 !! hm_decode (handles k0) (h 2) = Some (MkRef (Some 0%nat) phys_features (Obj TYPE_PHYS 0x11))) as -> by (vm_compute; reflexivity).
    cbn [obj]. rewrite Z.eqb_refl.
    assert (heap k0 !! 0x11 = Some (OPhys (PCont (MkCont 0x8000 0x2000 5)))) as -> by (vm_compute; reflexivity). reflexivity.
Defined.

Lemma phys_acq_refused_witness :
  fst (phys_acq (P:=debug_profile) 0 fr (h 5) 0x20000 0x1000 k0) = Err EPERM ∧
  phys_acq (P:=debug_profile) 0 fr (h 5) 0x20000 0x1000 k0 = (Err EPERM, k0).
Proof.
  assert (phys_acq (P:=debug_profile) 0 fr (h 5) 0x20000 0x1000 k0 = (Err EPERM, k0)) as H.
  { apply (proj2 (phys_acq_refused (P:=debug_profile) 0 fr k0 g0 (h 5) 0x20000 0x1000 k0_typed)
      (Resource 7 (0, 2 ^ 40) (rm_new (0, 2 ^ 40)) None) (Resource 7 (0, 2 ^ 40) (rm_new (0, 2 ^ 40)) None)).
    split; [|done|done|done|cbn; lia|vm_compute; reflexivity].
    exists space_features, 0. split; vm_compute; reflexivity. }
  split; [by rewrite H|exact H].
Defined.

Abbreviation vmap_call := (virt_map (P:=debug_profile) copy_ok 0 ro vdso_obj true fr (h 4) 0x200000 k0).

Lemma virt_map_rights_witness :
  fst vmap_call = Ok 0x101000 ∧
  ∃ r p m fv sp v, target k0 g0 TYPE_VIRT (h 4) = inr (fv, OVirt sp v) ∧
    g0 !! 1 = Some r ∧ target k0 g0 TYPE_PHYS (h 1) = inr (feat r, OPhys p) ∧
    Flags.contains ro Flags.USER_ACCESS = true ∧ rights_ok (feat r) ro ∧
    hm_rep m (delete 1 g0) ∧ handles (snd vmap_call) = m ∧
    mapped_as (P:=debug_profile) copy_ok 0 ro vdso_obj true fr (MkMapInfo 0x1000 (h 1) 0 0x1000 0x1000 ro) 0x200000 sp v p 0x101000
      (with_handles m (copied (P:=debug_profile) copy_ok fr k0 0x200000)) (snd vmap_call).
Proof.
  assert (fst vmap_call = Ok 0x101000) as Hf by (vm_compute; reflexivity). split; [exact Hf|].
  pose proof (virt_map_rights (P:=debug_profile) copy_ok 0 ro vdso_obj true fr k0 g0 (h 4) 0x200000 0x101000 (snd vmap_call) k0_typed
    ltac:(rewrite <- Hf; apply surjective_pairing)) as Hr. cbv zeta in Hr.
  assert (request (P:=debug_profile) copy_ok fr k0 0x200000 = MkMapInfo 0x1000 (h 1) 0 0x1000 0x1000 ro) as Hq by (vm_compute; reflexivity).
  rewrite Hq in Hr. exact Hr.
Defined.

Lemma calls_keep_types_witness :
  let s1 := snd (call_run (P:=debug_profile) copy_ok 0 Concrete.root ro vdso_obj true 0 fr (On (PhysSub (h 1) 0x2000 0x1000 false)) k0) in
  heap s1 !! 0x20 = Some (OPhys (PCont (MkCont 0x3000 0x1000 5))) ∧ ∃ g, well_typed s1 g.
Proof.
  split; [vm_compute; reflexivity|].
  apply (calls_keep_types (P:=debug_profile) copy_ok 0 Concrete.root ro vdso_obj true 0 fr _ k0 g0 k0_typed);
    [vm_compute; reflexivity|vm_compute; reflexivity|vm_compute; reflexivity|done].
Defined.

(** A count that makes the size of the array wrap passes the check of the pointer
    without overflow checks, and the kernel panics when it asks for the buffer; so
    does any count the heap has no room for. With overflow checks it panics before. *)
Example readv_panics :
  fst (phys_readv (P:=release_profile) copy_ok 0 fr (h 1) 0 0x200000 (2 ^ 60) k0) = Panic ∧
  fst (phys_readv (P:=debug_profile) copy_ok 0 fr (h 1) 0 0x200000 (2 ^ 60) k0) = Panic ∧
  let full := MkFrame 0x20 0x21 9 10 1 1 0 0xFFFF800000300000 None 0 0 in
  fst (phys_readv (P:=release_profile) copy_ok 0 full (h 1) 0 0x200000 (2 ^ 42) k0) = Panic.
Proof. vm_compute. auto. Qed.

(** The vDSO cannot be read with [phys_read], but it can with [phys_readv]. *)
Example readv_reads_vdso :
  fst (phys_read (P:=debug_profile) copy_ok 0 vdso_obj (h 3) 0 16 0x200000 k0) = Err EACCES ∧
  fst (phys_readv (P:=debug_profile) copy_ok 0 fr (h 3) 0 0x200100 1 k0) = Ok 16.
Proof. vm_compute. auto. Qed.

(** The last page of the address space: the end of the range overflows, which
    panics, or without checks passes for an address inside the resource. *)
Example acq_overflows :
  fst (phys_acq (P:=debug_profile) 0 fr (h 5) (2 ^ 64 - 0x1000) 0x1000 k0) = Panic ∧
  fst (phys_acq (P:=debug_profile) 0 fr (h 5) (2 ^ 64 - 0x2000) 0x1000 k0) = Err EPERM.
Proof. vm_compute. auto. Qed.
End MemWitness.
