(* ===== verification/Libc.v ===== *)
(** * Strings and memory of the C library ([libc/src/ffi/string.rs], [ctypes.rs] and
    [getenv] of [stdlib.rs])

    A pointer is an address, the null pointer is zero. Functions that write work on
    the memory, and a panic is one of the language: an index or a size that is out of
    bounds, or an overflow in a build that checks for it. The crates [memchr] and
    [bitvec] are the class [Memchr] and the number of bits of an array. *)

From stdpp Require Import strings.
From S2P Require Import Base Mem SysCall.
Local Open Scope Z_scope.
Local Open Scope h2o_scope.

(** ** Strings of C *)

(** [CStr::from_ptr(p).to_bytes()]: the bytes before the first zero. There is one
    within [size m] bytes, since bytes that are not in the memory are zero. *)
Fixpoint cstr (fuel : nat) (m : memory) (p : Z) : list Z :=
  match fuel with
  | O => []
  | S fuel => if byte m p =? 0 then [] else byte m p :: cstr fuel m (p + 1)
  end.
Definition to_bytes (m : memory) (p : Z) : list Z := cstr (S (size m)) m p.

(** [memchr::memchr] and [memchr::memrchr]: the first and the last position. *)
Class Memchr := {
  mc_memchr : Z → list Z → option nat;
  mc_memrchr : Z → list Z → option nat;
  mc_memchr_spec c l i : mc_memchr c l = Some i ↔ l !! i = Some c ∧ ∀ j, (j < i)%nat → l !! j ≠ Some c;
  mc_memrchr_spec c l i : mc_memrchr c l = Some i ↔ l !! i = Some c ∧ ∀ j, (i < j)%nat → l !! j ≠ Some c;
}.

Definition as_u8 (c : Z) : Z := wrap 8 c.

(** [<[u8]>::cmp]. *)
Fixpoint slice_cmp (l r : list Z) : comparison :=
  match l, r with
  | [], [] => Eq
  | [], _ :: _ => Lt
  | _ :: _, [] => Gt
  | a :: l, b :: r => match a ?= b with Eq => slice_cmp l r | c => c end
  end.

Section string.
Context `{P : Profile} `{MC : Memchr}.
(** The number of bits of [bitarr![0; c_char::BITS]]. *)
Context (bitarr_len : Z).

Abbreviation libc := (st memory Empty_set).
Definition load (a : Z) : libc Z := m ← get; mret (byte m a).
Definition put_byte (a v : Z) : libc () := modify (<[a := v]>).
Definition c_str (p : Z) : libc (list Z) := m ← get; mret (to_bytes m p).

(** *** Copies *)

(** The fuel is used up when the copy has overwritten the end of its source and
    would not stop. *)
Fixpoint strcpy_loop (fuel : nat) (d s : Z) : libc () :=
  match fuel with
  | O => lift Panic
  | S fuel =>
      c ← load s;
      if negb (c =? 0) then
        _ ← put_byte d c;
        strcpy_loop fuel (d + 1) (s + 1)
      else put_byte d c
  end.

Definition strcpy (dest src : Z) : libc Z :=
  m ← get;
  _ ← strcpy_loop (S (size m)) dest src;
  mret dest.

Fixpoint strncpy_loop (n : nat) (i : Z) (f : bool) (dest src : Z) : libc () :=
  match n with
  | O => mret ()
  | S n =>
      if f then
        _ ← put_byte (dest + i) 0;
        strncpy_loop n (i + 1) f dest src
      else
        ch ← load (src + i);
        _ ← put_byte (dest + i) ch;
        strncpy_loop n (i + 1) (f || (ch =? 0)) dest src
  end.

Definition strncpy (dest src count : Z) : libc Z :=
  _ ← strncpy_loop (Z.to_nat count) 0 false dest src;
  mret dest.

Definition strlen (s : Z) : libc Z := l ← c_str s; mret (Z.of_nat (length l)).

Definition strcat (dest src : Z) : libc Z :=
  n ← strlen dest;
  _ ← strcpy (dest + n) src;
  mret dest.

(** The loop of [strncat] over [0..=count]. *)
Fixpoint strncat_loop (n : nat) (i : Z) (d src : Z) : libc () :=
  match n with
  | O => mret ()
  | S n =>
      c ← load (src + i);
      _ ← put_byte (d + i) c;
      strncat_loop n (i + 1) d src
  end.

Definition strncat (dest src count : Z) : libc Z :=
  n ← strlen dest;
  let d := dest + n in
  k ← strlen src;
  let count := Z.min count k in
  _ ← strncat_loop (S (Z.to_nat count)) 0 d src;
  mret dest.

Definition strxfrm (dest src n : Z) : libc Z :=
  len ← strlen src;
  _ ← (if len <? n then _ ← strcpy dest src; mret () else mret ());
  mret len.

(** *** Comparisons *)

(** [l.get(..count).unwrap_or(l)]. *)
Definition get_to (count : Z) (l : list Z) : list Z :=
  if count <=? Z.of_nat (length l) then take (Z.to_nat count) l else l.

Definition strncmp (lhs rhs count : Z) : libc Z :=
  l ← c_str lhs;
  r ← c_str rhs;
  mret (match slice_cmp (get_to count l) (get_to count r) with Lt => -1 | Eq => 0 | Gt => 1 end).

Definition strcmp (lhs rhs : Z) : libc Z := strncmp lhs rhs MAX64.
Definition strcoll (lhs rhs : Z) : libc Z := strcmp lhs rhs.

Fixpoint memcmp_loop (n : nat) (i lhs rhs : Z) : libc Z :=
  match n with
  | O => mret 0
  | S n =>
      a ← load (lhs + i);
      b ← load (rhs + i);
      if negb (a =? b) then mret (a - b) else memcmp_loop n (i + 1) lhs rhs
  end.
Definition memcmp (lhs rhs count : Z) : libc Z := memcmp_loop (Z.to_nat count) 0 lhs rhs.

(** *** Searches *)

Definition at_pos (s : Z) (pos : option nat) : Z := match pos with Some i => s + Z.of_nat i | None => 0 end.

Definition strchr (s ch : Z) : libc Z := l ← c_str s; mret (at_pos s (mc_memchr (as_u8 ch) l)).
Definition strrchr (s ch : Z) : libc Z := l ← c_str s; mret (at_pos s (mc_memrchr (as_u8 ch) l)).
Definition memchr (ptr ch count : Z) : libc Z := m ← get; mret (at_pos ptr (mc_memchr (as_u8 ch) (bytes m ptr count))).

(** [bytes.set(i, true)] and [bytes[i]]. *)
Definition bit_set (i : Z) (b : gset Z) : res Empty_set (gset Z) :=
  if i <? bitarr_len then Ok ({[ i ]} ∪ b) else Panic.
Definition bit_get (i : Z) (b : gset Z) : res Empty_set bool :=
  if i <? bitarr_len then Ok (bool_decide (i ∈ b)) else Panic.

Fixpoint bits_of (src : list Z) (b : gset Z) : res Empty_set (gset Z) :=
  match src with
  | [] => Ok b
  | c :: src => b ← bit_set c b; bits_of src b
  end.

Fixpoint span_loop (cmp : bool) (b : gset Z) (dest : list Z) (i : Z) : res Empty_set Z :=
  match dest with
  | [] => Ok i
  | c :: dest =>
      x ← bit_get c b;
      if negb (eqb x cmp) then Ok i else span_loop cmp b dest (i + 1)
  end.

Definition strspn_inner (dest src : Z) (cmp : bool) : libc Z :=
  d ← c_str dest;
  s ← c_str src;
  b ← lift (bits_of s ∅);
  lift (span_loop cmp b d 0).

Definition strspn (dest src : Z) : libc Z := strspn_inner dest src true.
Definition strcspn (dest src : Z) : libc Z := strspn_inner dest src false.

Definition strpbrk (dest breakset : Z) : libc Z :=
  n ← strcspn dest breakset;
  let ptr := dest + n in
  c ← load ptr;
  mret (if negb (c =? 0) then ptr else 0).

(** The loop over [s.windows(substr.len())], at the address [p]. *)
Fixpoint windows_find (sub s : list Z) (p : Z) : Z :=
  if (length s <? length sub)%nat then 0
  else if bool_decide (take (length sub) s = sub) then p
  else match s with
       | [] => 0
       | _ :: s => windows_find sub s (p + 1)
       end.

Definition strstr (s substr : Z) : libc Z :=
  l ← c_str s;
  sub ← c_str substr;
  match sub with
  | [] => lift Panic
  | _ => mret (windows_find sub l s)
  end.

(** *** Tokens *)

(** [strtok_r]: [lasts] is the value of the variable it is given; the result is the
    token and the new value. *)
Definition strtok_r (s delim lasts : Z) : libc (Z * Z) :=
  let hs := s in
  if (hs =? 0) && (lasts =? 0) then mret (0, lasts)
  else
    let hs := if hs =? 0 then lasts else hs in
    n ← strspn hs delim;
    let hs := hs + n in
    c ← load hs;
    if c =? 0 then mret (0, 0)
    else
      let token := hs in
      hs ← strpbrk token delim;
      if negb (hs =? 0) then
        _ ← put_byte hs 0;
        mret (token, hs + 1)
      else mret (token, 0).

(** *** Blocks *)

(** [rep movs] and [rep stos] of [sz] bytes at a time; [step] is the change of the
    registers. *)
Fixpoint rep_movs (sz step : Z) (rcx : nat) (rdi rsi : Z) : libc (Z * Z) :=
  match rcx with
  | O => mret (rdi, rsi)
  | S rcx =>
      m ← get;
      _ ← put (store rdi (bytes m rsi sz) m);
      rep_movs sz step rcx (wrap W (rdi + step)) (wrap W (rsi + step))
  end.

Fixpoint rep_stos (sz step : Z) (rax : Z) (rcx : nat) (rdi : Z) : libc Z :=
  match rcx with
  | O => mret rdi
  | S rcx =>
      _ ← modify (store rdi (to_le (Z.to_nat sz) rax));
      rep_stos sz step rax rcx (wrap W (rdi + step))
  end.

Definition memset (dest ch count : Z) : libc Z :=
  let qword_count := Z.shiftr count 3 in
  let byte_count := Z.land count 7 in
  rax ← lift (wrap W ch *! 0x0101010101010101);
  rdi ← rep_stos 8 8 rax (Z.to_nat qword_count) dest;
  _ ← rep_stos 1 1 rax (Z.to_nat byte_count) rdi;
  mret dest.

Definition memcpy (dest src count : Z) : libc Z :=
  let qword_count := Z.shiftr count 3 in
  let byte_count := Z.land count 7 in
  '(rdi, rsi) ← rep_movs 8 8 (Z.to_nat qword_count) dest src;
  _ ← rep_movs 1 1 (Z.to_nat byte_count) rdi rsi;
  mret dest.

Definition memmove (dest src count : Z) : libc Z :=
  let delta := wrap W (dest - src) in
  if count <=? delta then memcpy dest src count
  else
    let qword_count := Z.shiftr count 3 in
    let byte_count := Z.land count 7 in
    '(rdi, rsi) ← rep_movs 8 (-8) (Z.to_nat qword_count) (wrap W (dest + count - 8)) (wrap W (src + count - 8));
    _ ← rep_movs 1 (-1) (Z.to_nat byte_count) (wrap W (rdi + 7)) (wrap W (rsi + 7));
    mret dest.
End string.

(** ** Messages of errors *)

Section error.
Context `{P : Profile}.

(** [<[T]>::get]. *)
Definition slice_get {B} (l : list B) (i : Z) : option B := if i <? Z.of_nat (length l) then l !! Z.to_nat i else None.

(** [Error::desc_by_index]. *)
Definition desc_by_index (errnum : Z) : res Empty_set (option string) :=
  n ← neg_i32 errnum;
  let index := i32_as_usize n in
  match slice_get ERRC_DESC index with
  | Some s => Ok (Some s)
  | None => i ← index -! CUSTOM_OFFSET; Ok (slice_get CUSTOM_DESC i)
  end.

Definition string_bytes (s : string) : list Z := (λ c, Z.of_N (Ascii.N_of_ascii c)) <$> String.list_ascii_of_string s.

Definition strerror_r (errnum buf buflen : Z) : st memory Empty_set Z :=
  d ← lift (desc_by_index errnum);
  match d with
  | None => mret (raw EINVAL)
  | Some desc =>
      let desc := string_bytes desc in
      if buflen <=? Z.of_nat (length desc) then mret (raw EBUFFER)
      else
        _ ← modify (store buf desc);
        _ ← put_byte (buf + Z.of_nat (length desc)) 0;
        mret (raw OK)
  end.
End error.

(** ** Classes of characters

    [c_int::from(b)]; the methods of [u8] are ranges of ASCII. *)

Definition from_bool (b : bool) : Z := if b then 1 else 0.
Definition among (lo hi c : Z) : bool := (lo <=? c) && (c <=? hi).

Definition islower (x : Z) : Z := from_bool (among 97 122 (as_u8 x)).
Definition isupper (x : Z) : Z := from_bool (among 65 90 (as_u8 x)).
Definition isdigit (x : Z) : Z := from_bool (among 48 57 (as_u8 x)).
Definition isxdigit (x : Z) : Z :=
  from_bool (among 48 57 (as_u8 x) || among 65 70 (as_u8 x) || among 97 102 (as_u8 x)).
Definition iscntrl (x : Z) : Z := from_bool (among 0 31 (as_u8 x) || (as_u8 x =? 127)).
Definition isgraph (x : Z) : Z := from_bool (among 33 126 (as_u8 x)).
Definition isalpha (x : Z) : Z := from_bool (negb (isupper x =? 0) || negb (islower x =? 0)).
Definition isalnum (x : Z) : Z := from_bool (negb (isalpha x =? 0) || negb (isdigit x =? 0)).
Definition isspace (x : Z) : Z := from_bool (existsb (Z.eqb (as_u8 x)) [32; 9; 10; 13; 11; 12]).
Definition isblank (x : Z) : Z := from_bool (existsb (Z.eqb (as_u8 x)) [32; 9]).
Definition isprint (x : Z) : Z := from_bool ((32 <=? x) && (x <? 127)).
Definition ispunct (x : Z) : Z :=
  from_bool (among 33 47 (as_u8 x) || among 58 64 (as_u8 x) || among 91 96 (as_u8 x) || among 123 126 (as_u8 x)).
Definition tolower (x : Z) : Z := if negb (isupper x =? 0) then Z.lor x 32 else x.
Definition toupper (x : Z) : Z := if negb (islower x =? 0) then Z.land x (Z.lnot 32) else x.

(** ** The environment *)

(** [envs.split(|&b| b == 0)]: the parts with their addresses. *)
Fixpoint split_zero (l : list Z) (start : Z) (acc : list Z) : list (Z * list Z) :=
  match l with
  | [] => [(start, acc)]
  | b :: l =>
      if b =? 0 then (start, acc) :: split_zero l (start + Z.of_nat (length acc) + 1) []
      else split_zero l start (acc ++ [b])
  end.

(** [s.iter().position(|&b| b == b'=')] and [s.split_at(pos)]. *)
Fixpoint position (c : Z) (l : list Z) : option nat :=
  match l with
  | [] => None
  | b :: l => if b =? c then Some O else S <$> position c l
  end.

Definition EQUALS : Z := 61.

(** The name and the value, which begins with the sign. *)
Definition name_value (e : Z * list Z) : option (list Z * (Z * list Z)) :=
  (λ pos, (take pos (snd e), (fst e + Z.of_nat pos, drop pos (snd e)))) <$> position EQUALS (snd e).

(** The closure of [find_map]. *)
Definition value_of (name : list Z) (e : list Z * (Z * list Z)) : option Z :=
  if bool_decide (fst e = name) then
    match snd (snd e) with [] => None | _ :: _ => Some (fst (snd e) + 1) end
  else None.

Fixpoint find_map {A B} (f : A → option B) (l : list A) : option B :=
  match l with
  | [] => None
  | a :: l => match f a with Some b => Some b | None => find_map f l end
  end.

(** [envs] is the block of the environment and its length, when there is one. *)
Definition getenv (envs : option (Z * Z)) (name : Z) : st memory Empty_set Z :=
  m ← get;
  let name := to_bytes m name in
  match envs with
  | None => mret 0
  | Some (base, len) => mret (default 0 (find_map (value_of name) (omap name_value (split_zero (bytes m base len) base []))))
  end.
