(* ===== verification/LibcMem.v ===== *)
(** * Blocks of memory in the C library

    [memcpy], [memmove] and [memset] against what they should leave in memory, and
    the length and the bytes of strings. Memories are compared by their bytes. *)

From stdpp Require Import strings.
From S2P Require Import Base Mem SysCall Libc.
Local Open Scope Z_scope.
Local Open Scope h2o_scope.

(** ** Memories with the same bytes *)

Definition mem_eq (m m' : memory) : Prop := ∀ a, byte m a = byte m' a.
Infix "≡ₘ" := mem_eq (at level 70) : h2o_scope.

#[export] Instance mem_eq_equivalence : Equivalence mem_eq.
Proof. split; [done|by intros m m' Hm a; rewrite Hm|by intros m m1 m2 H1 H2 a; rewrite H1]. Qed.

#[export] Instance byte_proper : Proper (mem_eq ==> eq ==> eq) byte.
Proof. intros m m' Hm a ? <-. apply Hm. Qed.

#[export] Instance bytes_proper : Proper (mem_eq ==> eq ==> eq ==> eq) bytes.
Proof. intros m m' Hm a ? <- n ? <-. by apply bytes_ext. Qed.

Lemma byte_insert m a v x : byte (<[a := v]> m) x = if decide (a = x) then v else byte m x.
Proof. unfold byte. rewrite lookup_insert. by destruct (decide (a = x)). Qed.

Lemma byte_store a bs m x :
  byte (store a bs m) x =
  if decide (a ≤ x < a + Z.of_nat (length bs)) then default 0 (bs !! Z.to_nat (x - a)) else byte m x.
Proof.
  destruct (decide _) as [Hx|Hx]; [|apply store_out; lia].
  destruct (lookup_lt_is_Some_2 bs (Z.to_nat (x - a))) as [b Hb]; [lia|]. rewrite Hb.
  replace x with (a + Z.of_nat (Z.to_nat (x - a))) at 1 by lia. by apply store_in.
Qed.

#[export] Instance store_proper : Proper (eq ==> eq ==> mem_eq ==> mem_eq) store.
Proof. intros a ? <- bs ? <- m m' Hm x. rewrite !byte_store. by destruct (decide _). Qed.

(** [n] bytes at [d] are those that were at [s]; the others are as before. *)
Definition copied (d s n : Z) (m m' : memory) : Prop := m' ≡ₘ store d (bytes m s n) m.

Lemma copied_byte d s n m m' x : 0 ≤ n →
  copied d s n m m' → byte m' x = if decide (d ≤ x < d + n) then byte m (s + (x - d)) else byte m x.
Proof.
  intros Hn Hc. rewrite (Hc x), byte_store, bytes_length, Z2Nat.id by done. destruct (decide _); [|done].
  rewrite bytes_lookup by lia. cbn. f_equal. lia.
Qed.

Lemma copied_intro d s n m m' : 0 ≤ n →
  (∀ x, byte m' x = if decide (d ≤ x < d + n) then byte m (s + (x - d)) else byte m x) → copied d s n m m'.
Proof.
  intros Hn Hb x. rewrite Hb, byte_store, bytes_length, Z2Nat.id by done. destruct (decide _); [|done].
  rewrite bytes_lookup by lia. cbn. f_equal. lia.
Qed.

(** Copying upwards when the destination is not above the source within the block,
    and downwards when it is not below. *)
Definition upwards (d s n : Z) : Prop := d ≤ s ∨ s + n ≤ d.

Lemma copied_up d s k k' m m1 m2 : 0 ≤ k → 0 ≤ k' → upwards d s (k + k') →
  copied d s k m m1 → copied (d + k) (s + k) k' m1 m2 → copied d s (k + k') m m2.
Proof.
  intros Hk Hk' Hu H1 H2. apply copied_intro; [lia|]. intros x. rewrite (copied_byte _ _ _ _ _ x Hk' H2).
  rewrite !(copied_byte _ _ _ _ _ _ Hk H1). unfold upwards in Hu.
  repeat destruct (decide _); try lia; f_equal; lia.
Qed.

Lemma copied_down d s k k' m m1 m2 : 0 ≤ k → 0 ≤ k' → s ≤ d →
  copied (d + k) (s + k) k' m m1 → copied d s k m1 m2 → copied d s (k + k') m m2.
Proof.
  intros Hk Hk' Hu H1 H2. apply copied_intro; [lia|]. intros x. rewrite (copied_byte _ _ _ _ _ x Hk H2).
  rewrite !(copied_byte _ _ _ _ _ _ Hk' H1). repeat destruct (decide _); try lia; f_equal; lia.
Qed.

Lemma copied_none d s m : copied d s 0 m m.
Proof. by intros x. Qed.

(** ** [rep movs] *)

Lemma rep_movs_up sz n : 0 < sz → ∀ d s m,
  0 ≤ d → 0 ≤ s → d + sz * Z.of_nat n < 2 ^ 64 → s + sz * Z.of_nat n < 2 ^ 64 → upwards d s (sz * Z.of_nat n) →
  ∃ m', rep_movs sz sz n d s m = (Ok (d + sz * Z.of_nat n, s + sz * Z.of_nat n), m') ∧ copied d s (sz * Z.of_nat n) m m'.
Proof.
  intros Hsz. induction n as [|n IH]; intros d s m Hd Hs Hdn Hsn Hu; cbn [rep_movs].
  - rewrite Z.mul_0_r, !Z.add_0_r. exists m. split; [done|apply copied_none].
  - rewrite st_get_bind, st_put_bind. rewrite Nat2Z.inj_succ, Z.mul_succ_r in *.
    rewrite !wrap_small by nia.
    destruct (IH (d + sz) (s + sz) (store d (bytes m s sz) m)) as (m' & Hr & Hc); [lia..|destruct Hu; [left|right]; lia|].
    exists m'. split; [rewrite Hr; do 3 f_equal; lia|].
    rewrite (Z.add_comm (sz * Z.of_nat n)) in Hu |- *. eapply copied_up; [lia..|exact Hu| |exact Hc]. by intros x.
Qed.

Lemma rep_movs_down sz n : 0 < sz → ∀ d s m,
  0 ≤ s → s ≤ d → d + sz * Z.of_nat n < 2 ^ 64 →
  let t := d + sz * Z.of_nat n in let u := s + sz * Z.of_nat n in
  ∃ m', rep_movs sz (- sz) n (wrap W (t - sz)) (wrap W (u - sz)) m = (Ok (wrap W (d - sz), wrap W (s - sz)), m') ∧
    copied d s (sz * Z.of_nat n) m m'.
Proof.
  intros Hsz. induction n as [|n IH]; intros d s m Hs Hd Hdn; cbn [rep_movs].
  - rewrite Z.mul_0_r, !Z.add_0_r. exists m. split; [done|apply copied_none].
  - rewrite st_get_bind, st_put_bind. rewrite Nat2Z.inj_succ, Z.mul_succ_r in *.
    set (k := sz * Z.of_nat n) in *. assert (0 ≤ k) by (unfold k; lia).
    replace (d + (k + sz) - sz) with (d + k) by lia. replace (s + (k + sz) - sz) with (s + k) by lia.
    rewrite (wrap_small _ (d + k)), (wrap_small _ (s + k)) by lia.
    destruct (IH d s (store (d + k) (bytes m (s + k) sz) m)) as (m' & Hr & Hc); [lia..|].
    exists m'. split; [exact Hr|]. eapply copied_down; [lia..| |exact Hc]. by intros x.
Qed.

Lemma shiftr3 n : Z.shiftr n 3 = n / 8.
Proof. by rewrite Z.shiftr_div_pow2. Qed.
Lemma land7 n : Z.land n 7 = n mod 8.
Proof. apply (land_ones_mod n 3). lia. Qed.

(** [count] in units of eight and the rest, as the registers hold them. *)
Lemma split8 n : 0 ≤ n → 8 * Z.of_nat (Z.to_nat (Z.shiftr n 3)) + 1 * Z.of_nat (Z.to_nat (Z.land n 7)) = n.
Proof.
  intros Hn. rewrite shiftr3, land7. pose proof (Z.div_mod n 8). pose proof (Z.mod_pos_bound n 8).
  pose proof (Z.div_pos n 8). lia.
Qed.

Definition in_space (a n : Z) : Prop := 0 ≤ a ∧ a + n < 2 ^ 64.

Lemma memcpy_copied d s n m : 0 ≤ n → in_space d n → in_space s n → upwards d s n →
  ∃ m', Libc.memcpy d s n m = (Ok d, m') ∧ copied d s n m m'.
Proof.
  intros Hn [Hd Hdn] [Hs Hsn] Hu. unfold Libc.memcpy. pose proof (split8 n Hn) as Hk.
  set (q := Z.to_nat (Z.shiftr n 3)) in *. set (r := Z.to_nat (Z.land n 7)) in *.
  destruct (rep_movs_up 8 q ltac:(done) d s m) as (m1 & H1 & Hc1); [lia..|destruct Hu; [left|right]; lia|].
  rewrite (st_bind_ok _ _ _ _ _ H1).
  destruct (rep_movs_up 1 r ltac:(done) (d + 8 * Z.of_nat q) (s + 8 * Z.of_nat q) m1) as (m2 & H2 & Hc2);
    [lia..|destruct Hu; [left|right]; lia|].
  rewrite (st_bind_ok _ _ _ _ _ H2). exists m2. split; [done|]. rewrite <- Hk in Hu |- *.
  eapply copied_up; [lia..|exact Hu|exact Hc1|exact Hc2].
Qed.

Lemma wrap_plus a b : wrap W (wrap W a + b) = wrap W (a + b).
Proof. apply Z.add_mod_idemp_l. done. Qed.

(** C27: [memmove] copies a block to wherever it is to go, above or below its old place
    and overlapping it or not: whatever path it takes through the string
    instructions, eight bytes and one byte at a time, upwards or downwards, the
    destination holds the bytes the source had, and no other byte changes. *)
Theorem memmove_copies d s n m : 0 ≤ n → in_space d n → in_space s n →
  ∃ m', memmove d s n m = (Ok d, m') ∧ copied d s n m m'.
Proof.
  intros Hn [Hd Hdn] [Hs Hsn]. unfold memmove. destruct (n <=? wrap W (d - s)) eqn:Hw; zbool.
  - apply memcpy_copied; [done..|]. unfold upwards. destruct (decide (d ≤ s)); [by left|right].
    rewrite wrap_small in Hw by lia. lia.
  - assert (s ≤ d) as Hle.
    { destruct (decide (s ≤ d)); [done|]. exfalso. revert Hw. unfold wrap.
      rewrite <- (Z_mod_plus_full _ 1), Z.mod_small by lia. lia. }
    pose proof (split8 n Hn) as Hk. rewrite Z.mul_1_l in Hk.
    set (q := Z.to_nat (Z.shiftr n 3)) in *. set (r := Z.to_nat (Z.land n 7)) in *.
    destruct (rep_movs_down 8 q ltac:(done) (d + Z.of_nat r) (s + Z.of_nat r) m) as (m1 & H1 & Hc1); [lia..|].
    replace (d + n) with (d + Z.of_nat r + 8 * Z.of_nat q) by lia. replace (s + n) with (s + Z.of_nat r + 8 * Z.of_nat q) by lia.
    rewrite (st_bind_ok _ _ _ _ _ H1), !wrap_plus.
    destruct (rep_movs_down 1 r ltac:(done) d s m1) as (m2 & H2 & Hc2); [lia..|].
    rewrite Z.mul_1_l in H2, Hc2.
    replace (d + Z.of_nat r - 8 + 7) with (d + Z.of_nat r - 1) by lia.
    replace (s + Z.of_nat r - 8 + 7) with (s + Z.of_nat r - 1) by lia.
    rewrite (st_bind_ok _ _ _ _ _ H2). exists m2. split; [done|]. rewrite <- Hk, Z.add_comm.
    eapply copied_down; [lia..|exact Hc1|exact Hc2].
Qed.

(** ** [rep stos] *)

(** [n] bytes at [d] are [c]. *)
Definition filled (d n c : Z) (m m' : memory) : Prop := m' ≡ₘ store d (replicate (Z.to_nat n) c) m.

Lemma filled_byte d n c m m' x : 0 ≤ n →
  filled d n c m m' → byte m' x = if decide (d ≤ x < d + n) then c else byte m x.
Proof.
  intros Hn Hf. rewrite (Hf x), byte_store, length_replicate, Z2Nat.id by done. destruct (decide _); [|done].
  by rewrite lookup_replicate_2 by lia.
Qed.

Lemma filled_app d n k c m m1 m2 : 0 ≤ n → 0 ≤ k →
  filled d n c m m1 → filled (d + n) k c m1 m2 → filled d (n + k) c m m2.
Proof.
  intros Hn Hk H1 H2 x. rewrite (filled_byte _ _ _ _ _ x Hk H2), (filled_byte _ _ _ _ _ x Hn H1).
  rewrite byte_store, length_replicate, Z2Nat.id by lia. repeat destruct (decide _); try lia.
  all: by rewrite ?lookup_replicate_2 by lia.
Qed.

Lemma rep_stos_fills sz rax c n : 0 < sz → to_le (Z.to_nat sz) rax = replicate (Z.to_nat sz) c → ∀ d m,
  0 ≤ d → d + sz * Z.of_nat n < 2 ^ 64 →
  ∃ m', rep_stos sz sz rax n d m = (Ok (d + sz * Z.of_nat n), m') ∧ filled d (sz * Z.of_nat n) c m m'.
Proof.
  intros Hsz Hc. induction n as [|n IH]; intros d m Hd Hdn; cbn [rep_stos].
  - rewrite Z.mul_0_r, Z.add_0_r. exists m. split; [done|by intros x].
  - rewrite st_modify_bind, Hc. rewrite Nat2Z.inj_succ, Z.mul_succ_r in *. rewrite wrap_small by nia.
    destruct (IH (d + sz) (store d (replicate (Z.to_nat sz) c) m)) as (m' & Hr & Hf); [lia..|].
    exists m'. split; [rewrite Hr; do 2 f_equal; lia|].
    rewrite Z.add_comm. eapply filled_app; [lia..| |exact Hf]. by intros x.
Qed.

Lemma all_bytes (f : Z → bool) : forallb f (seqZ 0 256) = true → ∀ c, 0 ≤ c < 256 → f c = true.
Proof. rewrite forallb_forall. intros Hf c Hc. apply Hf, list_elem_of_In, elem_of_seqZ. lia. Qed.

Lemma stos_pattern ch : 0 ≤ ch < 256 →
  to_le 8 (ch * 0x0101010101010101) = replicate 8 ch ∧ to_le 1 (ch * 0x0101010101010101) = replicate 1 ch.
Proof.
  intros Hch. apply (bool_decide_eq_true_1 (_ ∧ _)). revert ch Hch.
  apply (all_bytes (λ ch, bool_decide (to_le 8 (ch * 0x0101010101010101) = replicate 8 ch ∧
    to_le 1 (ch * 0x0101010101010101) = replicate 1 ch))). vm_compute. reflexivity.
Qed.

(** [memset] with a byte fills the block with it and changes nothing else. *)
Theorem memset_fills `{P : Profile} d ch n m : 0 ≤ ch < 256 → 0 ≤ n → in_space d n →
  ∃ m', Libc.memset d ch n m = (Ok d, m') ∧ filled d n ch m m'.
Proof.
  intros Hch Hn [Hd Hdn]. unfold Libc.memset. rewrite (wrap_small W ch), umul_ok by lia.
  rewrite (st_lift_ok (Ok _) _ _ _ eq_refl). pose proof (split8 n Hn) as Hk. destruct (stos_pattern ch Hch) as [H8 H1].
  set (q := Z.to_nat (Z.shiftr n 3)) in *. set (r := Z.to_nat (Z.land n 7)) in *.
  destruct (rep_stos_fills 8 _ ch q ltac:(done) H8 d m) as (m1 & Hr1 & Hf1); [lia..|]. rewrite (st_bind_ok _ _ _ _ _ Hr1).
  destruct (rep_stos_fills 1 _ ch r ltac:(done) H1 (d + 8 * Z.of_nat q) m1) as (m2 & Hr2 & Hf2); [lia..|].
  rewrite (st_bind_ok _ _ _ _ _ Hr2). exists m2. split; [done|]. rewrite <- Hk. eapply filled_app; [lia..|exact Hf1|exact Hf2].
Qed.

(** ** Strings *)

(** [l] is the string at [p]. *)
Record cstring (m : memory) (p : Z) (l : list Z) : Prop := {
  cs_bytes : bytes m p (Z.of_nat (length l)) = l;
  cs_end : byte m (p + Z.of_nat (length l)) = 0;
  cs_nonzero : 0 ∉ l;
}.

Lemma bytes_cons m p n : 0 ≤ n → bytes m p (n + 1) = byte m p :: bytes m (p + 1) n.
Proof.
  intros Hn. unfold bytes. rewrite Z.add_1_r, seqZ_cons, Z.pred_succ, fmap_cons, Z.add_0_r by lia. f_equal.
  replace (Z.succ 0) with (1 + 0) by done. rewrite <- fmap_add_seqZ, <- list_fmap_compose.
  apply list_fmap_ext. intros i x _. cbn. f_equal. lia.
Qed.

Lemma cstring_nil m p : cstring m p [] ↔ byte m p = 0.
Proof.
  split; [intros []; cbn in *; by rewrite Z.add_0_r in *|]. intros Hp. split; [done|cbn; by rewrite Z.add_0_r|set_solver].
Qed.

Lemma cstring_cons m p c l : cstring m p (c :: l) ↔ byte m p = c ∧ c ≠ 0 ∧ cstring m (p + 1) l.
Proof.
  split.
  - intros [Hb He Hn]. cbn [length] in *. rewrite Nat2Z.inj_succ, <- Z.add_1_r in *.
    rewrite bytes_cons in Hb by lia. injection Hb as <- Hb. split; [done|]. split; [set_solver|].
    split; [done|by rewrite <- He; f_equal; lia|set_solver].
  - intros (<- & Hc & [Hb He Hn]). split; cbn [length]; rewrite ?Nat2Z.inj_succ, <- ?Z.add_1_r.
    + by rewrite bytes_cons, Hb by lia.
    + rewrite <- He. f_equal. lia.
    + set_solver.
Qed.

#[export] Instance cstring_proper : Proper (mem_eq ==> eq ==> eq ==> iff) cstring.
Proof. intros m m' Hm p ? <- l ? <-. split; intros [Hb He Hn]; split; try done; by rewrite <- ?Hm || rewrite Hm. Qed.

Lemma cstr_run l : ∀ fuel m p, cstring m p l → (length l < fuel)%nat → cstr fuel m p = l.
Proof.
  induction l as [|c l IH]; intros [|fuel] m p Hc Hf; cbn [length] in Hf; try lia; cbn [cstr].
  - apply cstring_nil in Hc. by rewrite Hc.
  - apply cstring_cons in Hc as (-> & Hz & Hc). rewrite (proj2 (Z.eqb_neq _ _)) by done. f_equal. apply IH; [done|lia].
Qed.

Lemma cstr_either fuel : ∀ m p, cstring m p (cstr fuel m p) ∨ ∀ i, 0 ≤ i < Z.of_nat fuel → byte m (p + i) ≠ 0.
Proof.
  induction fuel as [|fuel IH]; intros m p; cbn [cstr]; [right; lia|].
  destruct (Z.eqb_spec (byte m p) 0) as [Hp|Hp]; [left; by apply cstring_nil|].
  destruct (IH m (p + 1)) as [Hc|Hc]; [left; by apply cstring_cons|right].
  intros i Hi. destruct (decide (i = 0)) as [->|]; [by rewrite Z.add_0_r|].
  replace (p + i) with (p + 1 + (i - 1)) by lia. apply Hc. lia.
Qed.

(** Bytes that are not zero are in the memory. *)
Lemma nonzero_size m p n : (∀ i, 0 ≤ i < Z.of_nat n → byte m (p + i) ≠ 0) → (n ≤ size m)%nat.
Proof.
  intros Hn. rewrite <- size_dom. transitivity (size (list_to_set (seqZ p (Z.of_nat n)) : gset Z)).
  - rewrite size_list_to_set by apply NoDup_seqZ. rewrite length_seqZ. lia.
  - apply subseteq_size. intros x Hx%elem_of_list_to_set%elem_of_seqZ. apply elem_of_dom.
    specialize (Hn (x - p) ltac:(lia)). unfold byte in Hn. replace (p + (x - p)) with x in Hn by lia.
    destruct (m !! x); [by eexists|done].
Qed.

Lemma to_bytes_cstring m p : cstring m p (to_bytes m p).
Proof. destruct (cstr_either (S (size m)) m p) as [Hc|Hc]; [done|]. apply nonzero_size in Hc. lia. Qed.

Lemma cstring_inj l : ∀ m p l', cstring m p l → cstring m p l' → l = l'.
Proof.
  induction l as [|c l IH]; intros m p [|c' l'] H1 H2; [done|..].
  - apply cstring_nil in H1. apply cstring_cons in H2 as (<- & ? & _). done.
  - apply cstring_nil in H2. apply cstring_cons in H1 as (<- & ? & _). done.
  - apply cstring_cons in H1 as (<- & ? & H1), H2 as (<- & ? & H2). f_equal. by eapply IH.
Qed.

Lemma to_bytes_eq m p l : cstring m p l → to_bytes m p = l.
Proof. intros Hc. eapply cstring_inj; [apply to_bytes_cstring|done]. Qed.

(** ** The string functions of the C library

    Copies and concatenations leave the string they should, comparisons give the
    order of the strings, searches the first place, and the calls of [strtok_r] the
    words of a string one after the other. *)

Abbreviation len l := (Z.of_nat (length l)).

(** ** Strings in a memory that changes *)

Lemma cstring_frame m m' p l :
  (∀ x, p ≤ x ≤ p + len l → byte m' x = byte m x) → cstring m p l → cstring m' p l.
Proof.
  intros Hx [Hb He Hn]. split; [|by rewrite Hx by lia|done]. rewrite <- Hb at 2. apply bytes_ext. intros i Hi. apply Hx. lia.
Qed.

Lemma cstring_app l1 l2 : ∀ m p, cstring m p (l1 ++ l2) ↔
  bytes m p (len l1) = l1 ∧ 0 ∉ l1 ∧ cstring m (p + len l1) l2.
Proof.
  induction l1 as [|c l1 IH]; intros m p; cbn [app length].
  - rewrite Z.add_0_r. split; [intros H; split; [done|split; [set_solver|done]]|by intros (_ & _ & H)].
  - rewrite cstring_cons, IH, Nat2Z.inj_succ, <- Z.add_1_r, bytes_cons, not_elem_of_cons by lia.
    replace (p + (len l1 + 1)) with (p + 1 + len l1) by lia. split.
    + intros (-> & Hc & Hb & Hn & Hs). rewrite Hb. done.
    + intros (Hb & [Hc Hn] & Hs). injection Hb as -> Hb. done.
Qed.

Lemma run_c_str {B} m p l (k : list Z → st memory Empty_set B) : cstring m p l → (x ← c_str p; k x) m = k l m.
Proof. intros Hl. change (k (to_bytes m p) m = k l m). by rewrite (to_bytes_eq m p l). Qed.

Lemma run_load {B} m a (k : Z → st memory Empty_set B) : (x ← load a; k x) m = k (byte m a) m.
Proof. done. Qed.

Lemma run_strlen {B} m p l (k : Z → st memory Empty_set B) : cstring m p l → (x ← strlen p; k x) m = k (len l) m.
Proof.
  intros Hl. unfold mbind at 1, st_bind at 1, strlen. by rewrite (run_c_str m p l).
Qed.

(** ** Copies *)

Lemma put_byte_copied m d s : copied d s 1 m (<[d := byte m s]> m).
Proof.
  apply copied_intro; [done|]. intros x. rewrite byte_insert. repeat destruct (decide _); try lia; f_equal; lia.
Qed.

Lemma strcpy_loop_copied l : ∀ fuel d s m, cstring m s l → upwards d s (len l + 1) → (length l < fuel)%nat →
  ∃ m', strcpy_loop fuel d s m = (Ok (), m') ∧ copied d s (len l + 1) m m'.
Proof.
  induction l as [|c l IH]; intros [|fuel] d s m Hs Hu Hf; cbn [length] in *; try lia; cbn [strcpy_loop].
  - apply cstring_nil in Hs. rewrite run_load, Hs. cbn. eexists. split; [done|].
    rewrite <- Hs. apply put_byte_copied.
  - apply cstring_cons in Hs as (Hc & Hz & Hs). rewrite Nat2Z.inj_succ, <- Z.add_1_r in *.
    rewrite run_load.
    rewrite (proj2 (Z.eqb_neq (byte m s) 0)) by congruence. cbn [negb]. unfold put_byte. rewrite st_modify_bind.
    destruct (IH fuel (d + 1) (s + 1) (<[d := byte m s]> m)) as (m' & Hr & Hc').
    + eapply cstring_frame; [|done]. intros x Hx. rewrite byte_insert. destruct (decide _); [|done].
      destruct Hu; lia.
    + destruct Hu; [left|right]; lia.
    + lia.
    + exists m'. split; [done|]. rewrite (Z.add_comm _ 1). eapply copied_up; [lia..| |apply put_byte_copied|exact Hc'].
      destruct Hu; [left|right]; lia.
Qed.

Lemma strcpy_copied d s m l : cstring m s l → upwards d s (len l + 1) →
  ∃ m', strcpy d s m = (Ok d, m') ∧ copied d s (len l + 1) m m'.
Proof.
  intros Hs Hu. unfold strcpy. rewrite st_get_bind.
  destruct (strcpy_loop_copied l (S (size m)) d s m Hs Hu) as (m' & Hr & Hc).
  { enough (length l ≤ size m)%nat by lia. apply (nonzero_size m s). intros i Hi Hz.
    destruct Hs as [Hb _ Hn]. apply Hn. rewrite <- Hb, <- Hz.
    apply list_elem_of_lookup. exists (Z.to_nat i). rewrite bytes_lookup by lia. do 2 f_equal. lia. }
  exists m'. by rewrite (st_bind_ok _ _ _ _ _ Hr).
Qed.

Lemma copied_string d s m m' l : cstring m s l → copied d s (len l + 1) m m' → cstring m' d l.
Proof.
  intros [Hb He Hn] Hc. pose proof (λ x, copied_byte d s (len l + 1) m m' x ltac:(lia) Hc) as Hx. split; [|rewrite Hx|done].
  - rewrite <- Hb at 2. apply bytes_ext. intros i Hi. rewrite Hx. destruct (decide _); [|lia]. f_equal. lia.
  - destruct (decide _); [|lia]. rewrite <- He. f_equal. lia.
Qed.

(** Everything outside [n] bytes at [a] is as before. *)
Definition only (a n : Z) (m m' : memory) : Prop := ∀ x, x < a ∨ a + n ≤ x → byte m' x = byte m x.

Lemma copied_only d s n m m' : 0 ≤ n → copied d s n m m' → only d n m m'.
Proof. intros Hn Hc x Hx. rewrite (copied_byte _ _ _ _ _ _ Hn Hc). destruct (decide _); [lia|done]. Qed.

Lemma strcat_appends d s m l1 l2 : cstring m d l1 → cstring m s l2 → upwards (d + len l1) s (len l2 + 1) →
  ∃ m', strcat d s m = (Ok d, m') ∧ cstring m' d (l1 ++ l2) ∧ only (d + len l1) (len l2 + 1) m m'.
Proof.
  intros Hd Hs Hu. unfold strcat. rewrite (run_strlen m d l1) by done.
  destruct (strcpy_copied (d + len l1) s m l2 Hs Hu) as (m' & Hr & Hc). rewrite (st_bind_ok _ _ _ _ _ Hr).
  exists m'. split; [done|]. assert (only (d + len l1) (len l2 + 1) m m') as Ho by (eapply copied_only; [lia|done]).
  split; [|done]. apply cstring_app. split; [|split; [apply Hd|by eapply copied_string]].
  rewrite <- (cs_bytes _ _ _ Hd) at 2. apply bytes_ext. intros i Hi. apply Ho. lia.
Qed.

(** *** [strncpy] *)

(** The first [n] bytes of the string, then zeros. *)
Definition padded (n : nat) (l : list Z) : list Z := take n l ++ replicate (n - length l) 0.

Lemma padded_length n l : length (padded n l) = n.
Proof. unfold padded. rewrite length_app, length_take, length_replicate. lia. Qed.

Lemma store_cons_eq a b bs m : store a (b :: bs) m ≡ₘ store (a + 1) bs (<[a := b]> m).
Proof.
  intros x. cbn [store]. rewrite byte_insert, !byte_store, byte_insert. repeat destruct (decide _); try lia; done.
Qed.

Lemma strncpy_zeros n : ∀ i dest src m, ∃ m',
  strncpy_loop n i true dest src m = (Ok (), m') ∧ m' ≡ₘ store (dest + i) (replicate n 0) m.
Proof.
  induction n as [|n IH]; intros i dest src m; cbn [strncpy_loop]; [by exists m|]. unfold put_byte. rewrite st_modify_bind.
  destruct (IH (i + 1) dest src (<[dest + i := 0]> m)) as (m' & Hr & Hm). exists m'. split; [done|].
  rewrite Hm. cbn [replicate]. by rewrite store_cons_eq, Z.add_assoc.
Qed.

Lemma strncpy_loop_pads n : ∀ i dest src m l, cstring m (src + i) l →
  dest + i + Z.of_nat n ≤ src + i ∨ src + i + len l + 1 ≤ dest + i → ∃ m',
  strncpy_loop n i false dest src m = (Ok (), m') ∧ m' ≡ₘ store (dest + i) (padded n l) m.
Proof.
  induction n as [|n IH]; intros i dest src m l Hl Ho; cbn [strncpy_loop]; [by exists m|]. rewrite run_load.
  unfold put_byte. rewrite st_modify_bind. destruct l as [|c l]; cbn [length] in Ho.
  - apply cstring_nil in Hl. rewrite Hl. cbn [orb Z.eqb].
    destruct (strncpy_zeros n (i + 1) dest src (<[dest + i := 0]> m)) as (m' & Hr & Hm). exists m'. split; [done|].
    rewrite Hm. change (padded (S n) []) with (replicate (S n) 0). cbn [replicate]. by rewrite store_cons_eq, Z.add_assoc.
  - apply cstring_cons in Hl as (-> & Hz & Hl). cbn [orb]. rewrite (proj2 (Z.eqb_neq _ _)) by done.
    destruct (IH (i + 1) dest src (<[dest + i := c]> m) l) as (m' & Hr & Hm); [|lia|].
    + rewrite Z.add_assoc. eapply cstring_frame; [|done]. intros x Hx. rewrite byte_insert. destruct (decide _); [lia|done].
    + exists m'. split; [done|]. rewrite Hm. change (padded (S n) (c :: l)) with (c :: padded n l).
      by rewrite store_cons_eq, Z.add_assoc.
Qed.

Lemma strncpy_pads d s n m l : cstring m s l → 0 ≤ n → d + n ≤ s ∨ s + len l + 1 ≤ d →
  ∃ m', strncpy d s n m = (Ok d, m') ∧ bytes m' d n = padded (Z.to_nat n) l ∧ only d n m m'.
Proof.
  intros Hs Hn Ho. unfold strncpy.
  destruct (strncpy_loop_pads (Z.to_nat n) 0 d s m l) as (m' & Hr & Hm); rewrite ?Z.add_0_r; [done|lia|].
  rewrite Z.add_0_r in Hm. rewrite (st_bind_ok _ _ _ _ _ Hr). exists m'. split; [done|]. split.
  - rewrite Hm. rewrite <- (bytes_store_eq d (padded (Z.to_nat n) l) m) at 2. by rewrite padded_length, Z2Nat.id.
  - intros x Hx. rewrite (Hm x), byte_store, padded_length. destruct (decide _); [lia|done].
Qed.

(** *** [strncat] *)

Lemma strncat_loop_copied n : ∀ i d s m, upwards (d + i) (s + i) (Z.of_nat n) →
  ∃ m', strncat_loop n i d s m = (Ok (), m') ∧ copied (d + i) (s + i) (Z.of_nat n) m m'.
Proof.
  induction n as [|n IH]; intros i d s m Hu; cbn [strncat_loop]; [exists m; split; [done|apply copied_none]|].
  rewrite run_load. unfold put_byte. rewrite st_modify_bind. rewrite Nat2Z.inj_succ, <- Z.add_1_l in *.
  destruct (IH (i + 1) d s (<[d + i := byte m (s + i)]> m)) as (m' & Hr & Hc); [destruct Hu; [left|right]; lia|].
  exists m'. split; [done|]. rewrite !Z.add_assoc in Hc.
  eapply copied_up; [lia..|exact Hu|apply put_byte_copied|exact Hc].
Qed.

(** With room for all of [src] it is [strcat]. *)
Lemma strncat_appends d s n m l1 l2 : cstring m d l1 → cstring m s l2 → len l2 ≤ n → upwards (d + len l1) s (len l2 + 1) →
  ∃ m', strncat d s n m = (Ok d, m') ∧ cstring m' d (l1 ++ l2) ∧ only (d + len l1) (len l2 + 1) m m'.
Proof.
  intros Hd Hs Hn Hu. unfold strncat. rewrite (run_strlen m d l1) by done. cbv zeta. rewrite (run_strlen m s l2) by done.
  rewrite Z.min_r, Nat2Z.id by lia.
  destruct (strncat_loop_copied (S (length l2)) 0 (d + len l1) s m) as (m' & Hr & Hc);
    rewrite ?Z.add_0_r, Nat2Z.inj_succ, <- Z.add_1_r in *; [done|]. rewrite (st_bind_ok _ _ _ _ _ Hr). exists m'. split; [done|].
  assert (only (d + len l1) (len l2 + 1) m m') as Ho by (eapply copied_only; [lia|done]). split; [|done].
  apply cstring_app. split; [|split; [apply Hd|by eapply copied_string]].
  rewrite <- (cs_bytes _ _ _ Hd) at 2. apply bytes_ext. intros i Hi. apply Ho. lia.
Qed.

(** The functions that build strings, when what they write does not overlap what
    they read: [strcpy] leaves the string of the source, [strcat], and [strncat] with a
    count that is not below the length of the source, the two strings one after the
    other, and [strncpy] its first bytes padded with zeros; each returns the
    destination and writes nowhere else. *)
Theorem strings_built m d s l1 l2 n : cstring m d l1 → cstring m s l2 → 0 ≤ n →
  (d + len l1 + n + len l2 + 1 ≤ s ∨ s + len l2 + 1 ≤ d) →
  (∃ m', strcpy d s m = (Ok d, m') ∧ cstring m' d l2 ∧ only d (len l2 + 1) m m') ∧
  (∃ m', strcat d s m = (Ok d, m') ∧ cstring m' d (l1 ++ l2) ∧ only (d + len l1) (len l2 + 1) m m') ∧
  (len l2 ≤ n → ∃ m', strncat d s n m = (Ok d, m') ∧ cstring m' d (l1 ++ l2) ∧ only (d + len l1) (len l2 + 1) m m') ∧
  (∃ m', strncpy d s n m = (Ok d, m') ∧ bytes m' d n = padded (Z.to_nat n) l2 ∧ only d n m m').
Proof.
  intros Hd Hs Hn Ho. split_and!.
  - destruct (strcpy_copied d s m l2 Hs) as (m' & Hr & Hc); [destruct Ho; [left|right]; lia|].
    exists m'. split; [done|]. split; [by eapply copied_string|]. eapply copied_only; [lia|done].
  - apply strcat_appends; [done..|]. destruct Ho; [left|right]; lia.
  - intros Hl. apply strncat_appends; [done..|]. destruct Ho; [left|right]; lia.
  - apply strncpy_pads; [done..|lia].
Qed.
