(* ===== verification/LibcTok.v ===== *)
(** * Comparing, searching and splitting strings in the C library, and the environment *)

From stdpp Require Import strings.
From S2P Require Import Base Mem SysCall Libc LibcMem.
Local Open Scope Z_scope.
Local Open Scope h2o_scope.

(** ** The order of strings *)

(** [l] comes before [r] in the dictionary of unsigned bytes. *)
Definition precedes (l r : list Z) : Prop := ∃ p,
  (∃ b r', l = p ∧ r = p ++ b :: r') ∨ (∃ a l' b r', l = p ++ a :: l' ∧ r = p ++ b :: r' ∧ a < b).

Lemma precedes_cons c l r : precedes l r → precedes (c :: l) (c :: r).
Proof.
  intros (p & [(b & r' & -> & ->)|(a & l' & b & r' & -> & -> & Hab)]); exists (c :: p).
  - left. by exists b, r'.
  - right. by exists a, l', b, r'.
Qed.

Lemma slice_cmp_spec l : ∀ r, match slice_cmp l r with Lt => precedes l r | Eq => l = r | Gt => precedes r l end.
Proof.
  induction l as [|a l IH]; intros [|b r]; cbn [slice_cmp]; [done|exists []; left; by exists b, r|exists []; left; by exists a, l|].
  specialize (IH r). destruct (Z.compare_spec a b) as [->|Hab|Hab].
  - destruct (slice_cmp l r); [by f_equal|by apply precedes_cons..].
  - exists []. right. by exists a, l, b, r.
  - exists []. right. by exists b, r, a, l.
Qed.

Lemma get_to_take n l : 0 ≤ n → get_to n l = take (Z.to_nat n) l.
Proof. intros Hn. unfold get_to. destruct (n <=? len l) eqn:H; zbool; [done|]. rewrite take_ge; [done|lia]. Qed.

(** The three answers of a comparison. *)
Definition compared (r : Z) (l1 l2 : list Z) : Prop :=
  (r = 0 ∧ l1 = l2) ∨ (r = -1 ∧ precedes l1 l2) ∨ (r = 1 ∧ precedes l2 l1).

Lemma strncmp_compared m p q n l1 l2 : cstring m p l1 → cstring m q l2 → 0 ≤ n →
  ∃ r, strncmp p q n m = (Ok r, m) ∧ compared r (take (Z.to_nat n) l1) (take (Z.to_nat n) l2).
Proof.
  intros H1 H2 Hn. unfold strncmp. rewrite (run_c_str m p l1), (run_c_str m q l2) by done. rewrite !get_to_take by done.
  eexists. split; [done|]. pose proof (slice_cmp_spec (take (Z.to_nat n) l1) (take (Z.to_nat n) l2)) as Hs.
  unfold compared. destruct (slice_cmp _ _); naive_solver.
Qed.

(** [memcmp]: zero when the blocks are equal, else the difference of the first bytes that differ. *)
Definition first_diff (m : memory) (p q n r : Z) : Prop :=
  (r = 0 ∧ bytes m p n = bytes m q n) ∨
  ∃ i, 0 ≤ i < n ∧ bytes m p i = bytes m q i ∧ byte m (p + i) ≠ byte m (q + i) ∧ r = byte m (p + i) - byte m (q + i).

Lemma bytes_snoc m p n : 0 ≤ n → bytes m p (n + 1) = bytes m p n ++ [byte m (p + n)].
Proof.
  intros Hn. rewrite <- (Z2Nat.id n) by done. unfold bytes. rewrite Z.add_1_r, <- Nat2Z.inj_succ, seqZ_S. by rewrite fmap_app.
Qed.

Lemma memcmp_loop_diff n : ∀ i p q m, 0 ≤ i → bytes m p i = bytes m q i →
  ∃ r, memcmp_loop n i p q m = (Ok r, m) ∧ first_diff m p q (i + Z.of_nat n) r.
Proof.
  induction n as [|n IH]; intros i p q m Hi Hb; cbn [memcmp_loop].
  - exists 0. split; [done|]. left. by rewrite Z.add_0_r.
  - rewrite !run_load. destruct (Z.eqb_spec (byte m (p + i)) (byte m (q + i))) as [He|He]; cbn [negb].
    + destruct (IH (i + 1) p q m) as (r & Hr & Hd); [lia|by rewrite !bytes_snoc, Hb, He by done|].
      exists r. split; [done|]. by replace (i + Z.of_nat (S n)) with (i + 1 + Z.of_nat n) by lia.
    + eexists. split; [done|]. right. exists i. split; [lia|]. done.
Qed.

(** [strncmp] and [strcmp] order two strings, cut to [n] bytes or whole, as a
    dictionary of unsigned bytes does; [memcmp] gives the difference of the first
    bytes that differ. None of them changes the memory. *)
Theorem comparisons_order m p q n l1 l2 : cstring m p l1 → cstring m q l2 → 0 ≤ n →
  (∃ r, strncmp p q n m = (Ok r, m) ∧ compared r (take (Z.to_nat n) l1) (take (Z.to_nat n) l2)) ∧
  (len l1 < 2 ^ 64 → len l2 < 2 ^ 64 → ∃ r, strcmp p q m = (Ok r, m) ∧ compared r l1 l2) ∧
  (∃ r, memcmp p q n m = (Ok r, m) ∧ first_diff m p q n r).
Proof.
  intros H1 H2 Hn. split_and!.
  - by apply strncmp_compared.
  - intros Hl1 Hl2. unfold strcmp. destruct (strncmp_compared m p q MAX64 l1 l2 H1 H2 ltac:(done)) as (r & Hr & Hc).
    exists r. split; [done|]. by rewrite !take_ge in Hc by (unfold MAX64; lia).
  - unfold memcmp. destruct (memcmp_loop_diff (Z.to_nat n) 0 p q m ltac:(done) eq_refl) as (r & Hr & Hd).
    exists r. split; [done|]. by rewrite Z.add_0_l, Z2Nat.id in Hd.
Qed.

(** ** Searches *)

Definition occurs (sub l : list Z) (i : nat) : Prop := take (length sub) (drop i l) = sub.

Lemma windows_find_spec sub l : sub ≠ [] → ∀ p,
  (∃ i, occurs sub l i ∧ (∀ j, (j < i)%nat → ¬ occurs sub l j) ∧ windows_find sub l p = p + Z.of_nat i) ∨
  ((∀ i, ¬ occurs sub l i) ∧ windows_find sub l p = 0).
Proof.
  intros Hsub. assert (∀ l' : list Z, (length l' < length sub)%nat → ∀ i, ¬ occurs sub l' i) as Hshort.
  { unfold occurs. intros l' Hl i Hi. apply (f_equal length) in Hi. rewrite length_take, length_drop in Hi. lia. }
  induction l as [|c l IH]; intros p; cbn [windows_find].
  - right. destruct sub as [|b sub]; [done|]. split; [by apply Hshort; cbn; lia|done].
  - destruct (Nat.ltb_spec (length (c :: l)) (length sub)) as [Hlt|Hle]; [right; split; [by apply Hshort|done]|].
    case_bool_decide as Ht; [left; exists O; rewrite Z.add_0_r; split; [done|split; [lia|done]]|].
    destruct (IH (p + 1)) as [(i & Hi & Hf & ->)|(Hno & ->)].
    + left. exists (S i). split; [done|]. split; [|lia]. intros [|j] Hj; [done|]. apply Hf. lia.
    + right. split; [|done]. intros [|i]; [done|apply Hno].
Qed.

(** A pointer to the place [i], or null when there is none. *)
Definition place (s r : Z) (Q : nat → Prop) : Prop := (∃ i, Q i ∧ r = s + Z.of_nat i) ∨ ((∀ i, ¬ Q i) ∧ r = 0).

Section search.
Context `{MC : Memchr}.

Lemma at_pos_first s c l : place s (at_pos s (mc_memchr c l)) (λ i, l !! i = Some c ∧ ∀ j, (j < i)%nat → l !! j ≠ Some c).
Proof.
  destruct (mc_memchr c l) as [i|] eqn:Hi; [left|right].
  - exists i. split; [by apply mc_memchr_spec|done].
  - split; [|done]. intros i Hi'%mc_memchr_spec. congruence.
Qed.

Lemma at_pos_last s c l : place s (at_pos s (mc_memrchr c l)) (λ i, l !! i = Some c ∧ ∀ j, (i < j)%nat → l !! j ≠ Some c).
Proof.
  destruct (mc_memrchr c l) as [i|] eqn:Hi; [left|right].
  - exists i. split; [by apply mc_memrchr_spec|done].
  - split; [|done]. intros i Hi'%mc_memrchr_spec. congruence.
Qed.

(** [strchr] and [memchr] give the first place of a byte, [strrchr] the last one,
    and [strstr] the first occurrence of a string that is not empty, or null when
    there is none. *)
Theorem searches_find m s t l sub ch n : cstring m s l → cstring m t sub → 0 ≤ ch < 256 →
  (∃ r, strchr s ch m = (Ok r, m) ∧ place s r (λ i, l !! i = Some ch ∧ ∀ j, (j < i)%nat → l !! j ≠ Some ch)) ∧
  (∃ r, strrchr s ch m = (Ok r, m) ∧ place s r (λ i, l !! i = Some ch ∧ ∀ j, (i < j)%nat → l !! j ≠ Some ch)) ∧
  (∃ r, memchr s ch n m = (Ok r, m) ∧
     place s r (λ i, bytes m s n !! i = Some ch ∧ ∀ j, (j < i)%nat → bytes m s n !! j ≠ Some ch)) ∧
  (sub ≠ [] → ∃ r, strstr s t m = (Ok r, m) ∧ place s r (λ i, occurs sub l i ∧ ∀ j, (j < i)%nat → ¬ occurs sub l j)).
Proof.
  intros Hs Ht Hch. assert (as_u8 ch = ch) as Hu by by apply wrap_small.
  unfold strchr, strrchr, memchr, strstr. rewrite !(run_c_str m s l), (run_c_str m t sub), Hu by done. split_and!.
  - eexists. split; [done|apply at_pos_first].
  - eexists. split; [done|apply at_pos_last].
  - eexists. split; [done|apply at_pos_first].
  - intros Hne. destruct sub as [|b sub]; [done|]. eexists. split; [done|].
    destruct (windows_find_spec (b :: sub) l Hne s) as [(i & Hi & Hf & ->)|(Hno & ->)].
    + left. by exists i.
    + right. split; [|done]. intros i [Hi _]. by eapply Hno.
Qed.
End search.

(** ** Tokens *)

(** The longest prefix of bytes that are (or are not) in [D], and its length. *)
Definition in_set (D : list Z) (cmp : bool) (c : Z) : Prop := bool_decide (c ∈ D) = cmp.

#[export] Instance in_set_dec D cmp c : Decision (in_set D cmp c).
Proof. unfold in_set. apply _. Defined.

Lemma bits_of_run L src : ∀ b, Forall (λ c, c < L) src → bits_of L src b = Ok (list_to_set src ∪ b).
Proof.
  induction src as [|c src IH]; intros b Hs; cbn [bits_of list_to_set]; [by rewrite (left_id_L ∅ (∪))|].
  apply Forall_cons in Hs as [Hc Hs]. unfold bit_set. rewrite (proj2 (Z.ltb_lt _ _)) by done. cbn [mbind res_bind].
  rewrite IH by done. f_equal. set_solver.
Qed.

(** [l] is [w], all of it in the set, followed by the end or by a byte that is not. *)
Definition splits (D : list Z) (cmp : bool) (l w r : list Z) : Prop :=
  l = w ++ r ∧ Forall (in_set D cmp) w ∧ match r with [] => True | c :: _ => ¬ in_set D cmp c end.

Lemma splits_exist D cmp l : ∃ w r, splits D cmp l w r.
Proof.
  induction l as [|c l (w & r & -> & Hw & Hr)]; [by exists [], []|].
  destruct (decide (in_set D cmp c)) as [Hc|Hc]; [exists (c :: w), r|exists [], (c :: w ++ r)]; split_and!; try done.
  by constructor.
Qed.

Lemma span_loop_run L D cmp r w : match r with [] => True | c :: _ => ¬ in_set D cmp c end → ∀ i,
  Forall (in_set D cmp) w → Forall (λ c, c < L) (w ++ r) →
  span_loop L cmp (list_to_set D) (w ++ r) i = Ok (i + len w).
Proof.
  intros Hr. assert (∀ c, bool_decide (c ∈ (list_to_set D : gset Z)) = bool_decide (c ∈ D)) as Hset.
  { intros c. apply bool_decide_ext. apply elem_of_list_to_set. }
  induction w as [|c w IH]; intros i Hw HL; cbn [app] in *.
  - rewrite Z.add_0_r. destruct r as [|c r]; [done|]. cbn [span_loop]. apply Forall_cons in HL as [Hc _].
    unfold bit_get. rewrite (proj2 (Z.ltb_lt _ _)) by done. cbn [mbind res_bind]. rewrite Hset.
    unfold in_set in Hr. destruct (eqb _ cmp) eqn:He; [by apply eqb_prop in He|done].
  - apply Forall_cons in Hw as [Hc Hw], HL as [HcL HL]. cbn [span_loop]. unfold bit_get.
    rewrite (proj2 (Z.ltb_lt _ _)) by done. cbn [mbind res_bind]. rewrite Hset, Hc, eqb_reflx. cbn [negb].
    rewrite IH by done. f_equal. cbn [length]. lia.
Qed.

Section tokens.
Context (L : Z).

(** The strings have no byte that is not an index of the array. *)
Definition small (l : list Z) : Prop := Forall (λ c, c < L) l.

Lemma strspn_inner_run cmp m p q l D w r : cstring m p l → cstring m q D → small l → small D → splits D cmp l w r →
  strspn_inner L p q cmp m = (Ok (len w), m).
Proof.
  intros Hp Hq Hl HD (-> & Hw & Hr). unfold strspn_inner. rewrite (run_c_str m p (w ++ r)), (run_c_str m q D) by done.
  rewrite bits_of_run, (right_id_L ∅ (∪)) by done. rewrite (st_lift_ok (Ok _) _ _ _ eq_refl). unfold lift.
  by rewrite (span_loop_run L D cmp r w).
Qed.

Lemma strpbrk_run m p q l D w r : cstring m p l → cstring m q D → small l → small D → splits D false l w r →
  strpbrk L p q m = (Ok (match r with [] => 0 | _ => p + len w end), m).
Proof.
  intros Hp Hq Hl HD Hs. unfold strpbrk, strcspn. rewrite (st_bind_ok _ _ _ _ _ (strspn_inner_run _ _ _ _ _ _ _ _ Hp Hq Hl HD Hs)).
  cbv zeta. rewrite run_load. destruct Hs as (-> & _ & _). apply cstring_app in Hp as (_ & _ & Hp). destruct r as [|c r].
  - apply cstring_nil in Hp. by rewrite Hp.
  - apply cstring_cons in Hp as (-> & Hc & _). by rewrite (proj2 (Z.eqb_neq _ _)).
Qed.

(** What one call finds: delimiters, then a word, then the end or a delimiter. *)
Lemma strtok_r_run m s lasts q l D skip w rest :
  cstring m (if s =? 0 then lasts else s) l → cstring m q D → small l → small D →
  (s ≠ 0 ∨ lasts ≠ 0) → splits D true l skip (w ++ rest) → splits D false (w ++ rest) w rest →
  let t := (if s =? 0 then lasts else s) + len skip in
  t + len w ≠ 0 →
  strtok_r L s q lasts m =
  match w, rest with
  | [], _ => (Ok (0, 0), m)
  | _, [] => (Ok (t, 0), m)
  | _, _ :: _ => (Ok (t, t + len w + 1), <[t + len w := 0]> m)
  end.
Proof.
  intros Hp Hq Hl HD Hn Hs Hw t Ht. unfold strtok_r.
  assert ((s =? 0) && (lasts =? 0) = false) as -> by (destruct (Z.eqb_spec s 0), (Z.eqb_spec lasts 0); naive_solver).
  cbv zeta. unfold strspn. rewrite (st_bind_ok _ _ _ _ _ (strspn_inner_run _ _ _ _ _ _ _ _ Hp Hq Hl HD Hs)). fold t.
  pose proof Hs as (-> & _ & _). apply cstring_app in Hp as (_ & _ & Hp). fold t in Hp.
  apply Forall_app in Hl as [_ Hl]. rewrite run_load. destruct w as [|c w].
  - destruct rest as [|c rest]; [apply cstring_nil in Hp; by rewrite Hp|].
    destruct Hs as (_ & _ & Hc), Hw as (_ & _ & Hc'). exfalso. unfold in_set in *. cbn in Hc. by destruct (bool_decide _).
  - pose proof Hp as (Hc & Hz & _)%cstring_cons. rewrite Hc, (proj2 (Z.eqb_neq _ _)) by done.
    rewrite (st_bind_ok _ _ _ _ _ (strpbrk_run _ _ _ _ _ _ _ Hp Hq Hl HD Hw)). destruct rest as [|d rest]; [done|].
    by rewrite (proj2 (Z.eqb_neq _ _)).
Qed.

(** The words of [l]: the longest runs of bytes that are not delimiters. *)
Fixpoint words (D l acc : list Z) : list (list Z) :=
  match l with
  | [] => match acc with [] => [] | _ => [acc] end
  | c :: l =>
      if bool_decide (c ∈ D) then match acc with [] => words D l [] | _ => acc :: words D l [] end
      else words D l (acc ++ [c])
  end.

Lemma words_skip D skip l : Forall (in_set D true) skip → words D (skip ++ l) [] = words D l [].
Proof. induction 1 as [|c skip Hc _ IH]; [done|]. cbn [app words]. unfold in_set in Hc. by rewrite Hc. Qed.

Lemma words_word D w l : Forall (in_set D false) w → ∀ acc, words D (w ++ l) acc = words D l (acc ++ w).
Proof.
  induction 1 as [|c w Hc _ IH]; intros acc; cbn [app words]; [by rewrite app_nil_r|].
  unfold in_set in Hc. rewrite Hc, IH. by rewrite <- app_assoc.
Qed.

(** Calls of [strtok_r] until it returns null: the pointers, as a program collects them. *)
Fixpoint tokens (fuel : nat) (s q lasts : Z) : st memory Empty_set (list Z) :=
  match fuel with
  | O => lift Panic
  | S fuel =>
      '(t, lasts) ← strtok_r L s q lasts;
      if t =? 0 then mret []
      else ts ← tokens fuel 0 q lasts; mret (t :: ts)
  end.
(** A string that a change at [a] does not touch. *)
Lemma cstring_insert m p l a v : a < p ∨ p + len l < a → cstring m p l → cstring (<[a := v]> m) p l.
Proof. intros Ha. apply cstring_frame. intros x Hx. rewrite byte_insert. destruct (decide _); [lia|done]. Qed.

(** The word before the delimiter that was overwritten, and the string after it. *)
Lemma cut m t w d rest : cstring m t (w ++ d :: rest) →
  cstring (<[t + len w := 0]> m) t w ∧ cstring (<[t + len w := 0]> m) (t + len w + 1) rest.
Proof.
  intros (Hb & Hn & Hr)%cstring_app. apply cstring_cons in Hr as (_ & _ & Hr). split.
  - split; [|rewrite byte_insert; by destruct (decide _)|done]. rewrite <- Hb at 3. apply bytes_ext. intros i Hi.
    rewrite byte_insert. destruct (decide _); [lia|done].
  - apply cstring_insert; [lia|done].
Qed.

(** The parts one call sees exist. *)
Lemma parts_exist D l : ∃ skip w rest, splits D true l skip (w ++ rest) ∧ splits D false (w ++ rest) w rest.
Proof.
  destruct (splits_exist D true l) as (skip & r & Hs). destruct (splits_exist D false r) as (w & rest & Hw).
  pose proof Hw as (-> & _ & _). by exists skip, w, rest.
Qed.

Lemma words_parts D l skip w rest : splits D true l skip (w ++ rest) → splits D false (w ++ rest) w rest →
  words D l [] = match w, rest with
                 | [], _ => []
                 | _, [] => [w]
                 | _, _ :: rest => w :: words D rest []
                 end.
Proof.
  intros (-> & Hsk & Hs) (_ & Hw & Hr). rewrite words_skip, words_word by done. cbn [app]. destruct rest as [|d rest].
  - by destruct w.
  - unfold in_set in *. destruct w as [|c w]; cbn [app] in Hs.
    + by destruct (bool_decide (d ∈ D)).
    + cbn [words]. by destruct (bool_decide (d ∈ D)).
Qed.

Lemma tokens_run fuel : ∀ s lasts m q l D, (length l < fuel)%nat →
  let base := if s =? 0 then lasts else s in
  0 < base → cstring m base l → cstring m q D → q + len D < base ∨ base + len l < q → small l → small D →
  ∃ ts m', tokens fuel s q lasts m = (Ok ts, m') ∧ Forall2 (cstring m') ts (words D l []) ∧ only base (len l) m m'.
Proof.
  induction fuel as [|fuel IH]; intros s lasts m q l D Hf base Hb Hl HD Ho Hsl HsD; [lia|]. cbn [tokens].
  destruct (parts_exist D l) as (skip & w & rest & Hs & Hw). pose proof Hs as (Hlen & _ & _).
  rewrite (words_parts D l skip w rest) by done.
  assert (s ≠ 0 ∨ lasts ≠ 0) as Hn by (unfold base in Hb; destruct (Z.eqb_spec s 0); lia).
  pose proof (strtok_r_run m s lasts q l D skip w rest Hl HD Hsl HsD Hn Hs Hw) as Hr. fold base in Hr.
  specialize (Hr ltac:(lia)). unfold mbind at 1, st_bind at 1. rewrite Hr.
  rewrite Hlen in Hl, Hsl, Hf, Ho. rewrite !length_app in Hf, Ho. pose proof Hl as (_ & _ & Hl')%cstring_app.
  destruct w as [|c w]; [by exists [], m|]. set (t := base + len skip) in *. destruct rest as [|d rest].
  - rewrite (proj2 (Z.eqb_neq t 0)) by lia. destruct fuel as [|fuel]; [cbn [length] in Hf; lia|].
    exists [t], m. split; [done|]. split; [|done]. rewrite app_nil_r in Hl'. constructor; [done|constructor].
  - rewrite (proj2 (Z.eqb_neq t 0)) by lia. apply cut in Hl' as [Hc1 Hc2]. cbn [length] in *.
    destruct (IH 0 (t + len (c :: w) + 1) (<[t + len (c :: w) := 0]> m) q rest D) as (ts & m' & Hts & Hall & Hfr);
      try (cbn [length Z.eqb]; lia); try done.
    + apply cstring_insert; [cbn [length]; lia|done].
    + apply Forall_app in Hsl as [_ Hsl]. apply Forall_app in Hsl as [_ Hsl]. by apply Forall_cons in Hsl as [_ ?].
    + exists (t :: ts), m'. rewrite (st_bind_ok _ _ _ _ _ Hts). split; [done|]. cbn [Z.eqb] in Hfr. split.
      * constructor; [|done]. eapply cstring_frame; [|exact Hc1]. intros x Hx. apply Hfr. cbn [length] in *. lia.
      * intros x Hx. rewrite Hlen, !length_app in Hx. cbn [length] in *. rewrite Hfr, byte_insert by lia.
        destruct (decide _); [lia|done].
Qed.

(** Calling [strtok_r] until it returns null, first with a string and then with
    null, gives pointers to the words of the string, that is to the longest runs of
    bytes that are not delimiters, in order and each ended by a zero; only bytes of the
    string change. It holds for bytes that are indices of the bit array. *)
Theorem strtok_words m s q l D lasts :
  0 < s → cstring m s l → cstring m q D → q + len D < s ∨ s + len l < q → small l → small D →
  ∃ ts m', tokens (S (length l)) s q lasts m = (Ok ts, m') ∧ Forall2 (cstring m') ts (words D l []) ∧ only s (len l) m m'.
Proof.
  intros Hs Hl HD Ho Hsl HsD. pose proof (tokens_run (S (length l)) s lasts m q l D ltac:(lia)) as Hr.
  cbv zeta in Hr. rewrite (proj2 (Z.eqb_neq s 0)) in Hr by lia. by apply Hr.
Qed.
End tokens.

(** ** The environment and the classes of characters in the C library; examples *)

(** ** [getenv] *)

(** One variable of the block, and the block. *)
Definition env_entry (e : list Z * list Z) : list Z := fst e ++ EQUALS :: snd e ++ [0].
Definition env_block (es : list (list Z * list Z)) : list Z := mjoin (env_entry <$> es).

(** Names have no sign and nothing has a zero. *)
Definition entry_ok (e : list Z * list Z) : Prop := 0 ∉ fst e ∧ EQUALS ∉ fst e ∧ 0 ∉ snd e.

(** The value of the first variable of that name. *)
Fixpoint lookup_env (name : list Z) (es : list (list Z * list Z)) : option (list Z) :=
  match es with
  | [] => None
  | (n, v) :: es => if bool_decide (n = name) then Some v else lookup_env name es
  end.

Lemma bytes_app m p a b : 0 ≤ a → 0 ≤ b → bytes m p (a + b) = bytes m p a ++ bytes m (p + a) b.
Proof.
  intros Ha Hb. unfold bytes. rewrite seqZ_app, fmap_app, Z.add_0_l by done. f_equal.
  rewrite <- (Z.add_0_r a) at 1. rewrite <- fmap_add_seqZ, <- list_fmap_compose.
  apply list_fmap_ext. intros i x _. cbn. f_equal. lia.
Qed.

(** The bytes of [l] are at [p]. *)
Definition at_mem (m : memory) (p : Z) (l : list Z) : Prop := bytes m p (len l) = l.

Lemma at_mem_app m p l1 l2 : at_mem m p (l1 ++ l2) ↔ at_mem m p l1 ∧ at_mem m (p + len l1) l2.
Proof.
  unfold at_mem. rewrite length_app, Nat2Z.inj_add, bytes_app by lia. split; [|by intros [-> ->]].
  intros Hl. apply app_inj_1 in Hl; [done|]. rewrite bytes_length. lia.
Qed.

Lemma at_mem_cstring m p l : at_mem m p (l ++ [0]) → 0 ∉ l → cstring m p l.
Proof.
  intros [Hl Hz]%at_mem_app Hn. split; [done| |done]. unfold at_mem in Hz. cbn in Hz.
  injection Hz as Hz. by rewrite Z.add_0_r in Hz.
Qed.

Lemma split_zero_run w : ∀ l start acc, 0 ∉ w →
  split_zero (w ++ 0 :: l) start acc = (start, acc ++ w) :: split_zero l (start + len (acc ++ w) + 1) [].
Proof.
  induction w as [|c w IH]; intros l start acc Hw; cbn [app split_zero]; [by rewrite app_nil_r|].
  apply not_elem_of_cons in Hw as [Hc Hw]. rewrite (proj2 (Z.eqb_neq c 0)), IH by done. by rewrite <- app_assoc.
Qed.

Lemma position_run c l r : c ∉ l → position c (l ++ c :: r) = Some (length l).
Proof.
  induction l as [|b l IH]; cbn [app position]; [by rewrite Z.eqb_refl|].
  intros [Hb Hl]%not_elem_of_cons. rewrite (proj2 (Z.eqb_neq b c)), IH by done. done.
Qed.

(** [getenv] on a block of variables returns a pointer to the value of the first
    one with the name, or null when there is none. *)
Theorem getenv_finds m base es p name : at_mem m base (env_block es) → Forall entry_ok es → cstring m p name →
  ∃ r, getenv (Some (base, len (env_block es))) p m = (Ok r, m) ∧
    match lookup_env name es with Some v => cstring m r v | None => r = 0 end.
Proof.
  intros Hb Hes Hp. unfold getenv. rewrite st_get_bind, (to_bytes_eq m p name) by done. cbv zeta. rewrite Hb.
  eexists. split; [done|]. clear p Hp. revert base Hb. induction Hes as [|[n v] es (Hn & He & Hv) _ IH]; intros base Hb; [done|].
  cbn [fst snd] in *. assert (env_block ((n, v) :: es) = (n ++ EQUALS :: v) ++ 0 :: env_block es) as Hblk.
  { unfold env_block. cbn. unfold env_entry. cbn. by rewrite <- !app_assoc; cbn; rewrite <- app_assoc. }
  rewrite Hblk in Hb |- *. rewrite split_zero_run by (rewrite elem_of_app, elem_of_cons; unfold EQUALS; naive_solver lia).
  cbn [omap list_omap app]. assert (name_value (base, n ++ EQUALS :: v) = Some (n, (base + len n, EQUALS :: v))) as ->.
  { unfold name_value. cbn [fst snd]. rewrite position_run by done. cbn. by rewrite take_app_length, drop_app_length. }
  cbn [find_map lookup_env].
  change (value_of name (n, (base + len n, EQUALS :: v))) with (if bool_decide (n = name) then Some (base + len n + 1) else None).
  apply at_mem_app in Hb as [Hb1 Hb2].
  case_bool_decide as Hname; cbn [default id].
  - apply at_mem_cstring; [|done]. apply at_mem_app in Hb1 as [_ Hb1]. change (EQUALS :: v) with ([EQUALS] ++ v) in Hb1.
    apply at_mem_app in Hb1 as [_ Hb1]. change (0 :: env_block es) with ([0] ++ env_block es) in Hb2.
    apply at_mem_app in Hb2 as [Hb2 _]. apply at_mem_app. split; [done|]. rewrite length_app in Hb2. cbn [length] in Hb2.
    by replace (base + len n + 1 + len v) with (base + Z.of_nat (length n + S (length v))) by lia.
  - apply IH. change (0 :: env_block es) with ([0] ++ env_block es) in Hb2. by apply at_mem_app in Hb2 as [_ Hb2].
Qed.

(** ** Classes of characters *)

Definition holds (c : Z) : bool := negb (c =? 0).

(** What the standard asks of the classes, for one byte. *)
Definition classes_ok (x : Z) : bool :=
  eqb (holds (isalnum x)) (holds (isalpha x) || holds (isdigit x)) &&
  eqb (holds (isalpha x)) (xorb (holds (isupper x)) (holds (islower x))) &&
  eqb (holds (isgraph x)) (xorb (holds (isalnum x)) (holds (ispunct x))) &&
  eqb (holds (isprint x)) (holds (isgraph x) || (x =? 32)) &&
  eqb (x <? 128) (xorb (holds (isprint x)) (holds (iscntrl x))) &&
  implb (holds (isblank x)) (holds (isspace x)) && implb (holds (isspace x)) (holds (iscntrl x) || (x =? 32)) &&
  implb (holds (isdigit x)) (holds (isxdigit x)) && implb (holds (isxdigit x)) (holds (isalnum x)) &&
  eqb (holds (isupper x)) (negb (tolower x =? x)) && eqb (holds (islower x)) (negb (toupper x =? x)) &&
  implb (holds (isalpha x)) (holds (isupper (toupper x)) && holds (islower (tolower x)) &&
    (toupper (tolower x) =? toupper x) && (tolower (toupper x) =? tolower x)).

(** The classes of characters are related as the standard says for every byte:
    letters are upper or lower case and not both, graphic characters letters, digits
    or punctuation, printing characters those and the space, ASCII is split into
    printing and control characters, and the conversions change exactly the letters
    of the other case. *)
Theorem character_classes x : 0 ≤ x < 256 → classes_ok x = true.
Proof. apply all_bytes. vm_compute. reflexivity. Qed.

(** ** Examples *)

(** The crate [memchr] as a scan. *)
Fixpoint last_pos (c : Z) (l : list Z) : option nat :=
  match l with
  | [] => None
  | b :: l => match last_pos c l with Some i => Some (S i) | None => if b =? c then Some O else None end
  end.

Lemma position_spec c l : ∀ i, position c l = Some i ↔ l !! i = Some c ∧ ∀ j, (j < i)%nat → l !! j ≠ Some c.
Proof.
  induction l as [|b l IH]; intros i; cbn [position]; [split; [done|by intros [? _]]|].
  destruct (Z.eqb_spec b c) as [->|Hb].
  - split; [intros [= <-]; split; [done|lia]|]. intros [_ Hf]. destruct i as [|i]; [done|]. by destruct (Hf O ltac:(lia)).
  - rewrite fmap_Some. split.
    + intros (k & [Hk Hf]%IH & ->). split; [done|]. intros [|j] Hj; [cbn; congruence|]. apply Hf. lia.
    + destruct i as [|i]; [intros [[= ->] _]; done|]. intros [Hi Hf]. exists i. split; [|done]. apply IH. split; [done|].
      intros j Hj. apply (Hf (S j)). lia.
Qed.

Lemma last_pos_spec c l : ∀ i, last_pos c l = Some i ↔ l !! i = Some c ∧ ∀ j, (i < j)%nat → l !! j ≠ Some c.
Proof.
  induction l as [|b l IH]; intros i; cbn [last_pos]; [split; [done|by intros [? _]]|].
  destruct (last_pos c l) as [k|] eqn:Hk.
  - pose proof (proj1 (IH k) eq_refl) as [Hl Hf]. split.
    + intros [= <-]. split; [done|]. intros [|j] Hj; [lia|]. apply Hf. lia.
    + destruct i as [|i]; intros [Hi Hg]; [by destruct (Hg (S k) ltac:(lia))|]. do 2 f_equal.
      assert (Some k = Some i) as [= ->]; [|done]. apply IH. split; [done|]. intros j Hj. apply (Hg (S j)). lia.
  - assert (∀ j, l !! j ≠ Some c) as Hno.
    { intros j Hj. assert (c ∈ l) as Hin by (by eapply list_elem_of_lookup_2). clear -Hin Hk.
      induction Hin as [x l0|x y l0 _ IH]; cbn in Hk; [rewrite Z.eqb_refl in Hk; by destruct (last_pos x l0)|].
      apply IH. by destruct (last_pos x l0). }
    destruct (Z.eqb_spec b c) as [->|Hb].
    + split; [intros [= <-]; split; [done|]; intros [|j] Hj; [lia|apply Hno]|]. intros [Hi _].
      destruct i as [|i]; [done|]. by destruct (Hno i).
    + split; [done|]. intros [Hi _]. destruct i as [|i]; [injection Hi as ->; done|by destruct (Hno i)].
Qed.

#[export] Program Instance Memchr_scan : Memchr := { mc_memchr := position; mc_memrchr := last_pos }.
Next Obligation. intros. apply position_spec. Qed.
Next Obligation. intros. apply last_pos_spec. Qed.

Module LibcWitness.
Definition text (s : string) : list Z := string_bytes s.
Definition put_str (a : Z) (s : string) : memory → memory := store a (text s ++ [0]).

(** Two strings, and a block of the environment. *)
Definition m0 : memory :=
  put_str 0x100 "==12=-3,=45" (put_str 0x200 "-=," (put_str 0x300 "HOME"
    (store 0x400 (env_block [(text "PATH", text "/bin"); (text "HOME", text "/root")]) ∅))).

Ltac at_once := split; [vm_compute; reflexivity|vm_compute; reflexivity|refine (bool_decide_unpack _ _); vm_compute; exact I].

Lemma m0_text : cstring m0 0x100 (text "==12=-3,=45").
Proof. at_once. Qed.
Lemma m0_delim : cstring m0 0x200 (text "-=,").
Proof. at_once. Qed.
Lemma m0_home : cstring m0 0x300 (text "HOME").
Proof. at_once. Qed.

Lemma memmove_copies_witness :
  let r := memmove 0x103 0x100 11 m0 in
  bytes (snd r) 0x103 11 = text "==12=-3,=45" ∧ ∃ m', r = (Ok 0x103, m') ∧ copied 0x103 0x100 11 m0 m'.
Proof.
  split; [vm_compute; reflexivity|]. apply (memmove_copies 0x103 0x100 11 m0); [lia|split; lia|split; lia].
Defined.

Lemma memset_fills_witness :
  ∃ m', Libc.memset (P:=debug_profile) 0x500 0xAB 13 m0 = (Ok 0x500, m') ∧ filled 0x500 13 0xAB m0 m'.
Proof. apply (memset_fills (P:=debug_profile) 0x500 0xAB 13 m0); [lia|lia|split; lia]. Defined.

Lemma strings_built_witness :
  ∃ m', strcat 0x300 0x200 m0 = (Ok 0x300, m') ∧ cstring m' 0x300 (text "HOME" ++ text "-=,") ∧ only (0x300 + 4) (3 + 1) m0 m'.
Proof.
  apply (proj1 (proj2 (strings_built m0 0x300 0x200 (text "HOME") (text "-=,") 3 m0_home m0_delim ltac:(lia)
    ltac:(right; vm_compute; congruence)))).
Defined.

Lemma comparisons_order_witness :
  fst (strcmp 0x300 0x200 m0) = Ok 1 ∧ ∃ r, strcmp 0x300 0x200 m0 = (Ok r, m0) ∧ compared r (text "HOME") (text "-=,").
Proof.
  split; [vm_compute; reflexivity|].
  apply (proj1 (proj2 (comparisons_order m0 0x300 0x200 0 (text "HOME") (text "-=,") m0_home m0_delim ltac:(lia))));
    by vm_compute.
Defined.

Lemma searches_find_witness :
  fst (strchr 0x100 45 m0) = Ok 0x105 ∧
  ∃ r, strchr 0x100 45 m0 = (Ok r, m0) ∧
    place 0x100 r (λ i, text "==12=-3,=45" !! i = Some 45 ∧ ∀ j, (j < i)%nat → text "==12=-3,=45" !! j ≠ Some 45).
Proof.
  split; [vm_compute; reflexivity|].
  apply (proj1 (searches_find m0 0x100 0x200 (text "==12=-3,=45") (text "-=,") 45 0 m0_text m0_delim ltac:(lia))).
Defined.

Lemma strtok_words_witness :
  words (text "-=,") (text "==12=-3,=45") [] = [text "12"; text "3"; text "45"] ∧
  ∃ ts m', tokens 64 12 0x100 0x200 0 m0 = (Ok ts, m') ∧
    Forall2 (cstring m') ts (words (text "-=,") (text "==12=-3,=45") []) ∧ only 0x100 11 m0 m'.
Proof.
  split; [vm_compute; reflexivity|].
  apply (strtok_words 64 m0 0x100 0x200 (text "==12=-3,=45") (text "-=,") 0); [lia|exact m0_text|exact m0_delim| | |].
  - right. vm_compute. reflexivity.
  - refine (bool_decide_unpack _ _). vm_compute. exact I.
  - refine (bool_decide_unpack _ _). vm_compute. exact I.
Defined.

Lemma getenv_finds_witness :
  let es := [(text "PATH", text "/bin"); (text "HOME", text "/root")] in
  ∃ r, getenv (Some (0x400, len (env_block es))) 0x300 m0 = (Ok r, m0) ∧ cstring m0 r (text "/root").
Proof.
  apply (getenv_finds m0 0x400 [(text "PATH", text "/bin"); (text "HOME", text "/root")] 0x300 (text "HOME")); [| |exact m0_home].
  - vm_compute. reflexivity.
  - repeat constructor; refine (bool_decide_unpack _ _); vm_compute; exact I.
Defined.

Lemma character_classes_witness : classes_ok 65 = true.
Proof. apply (character_classes 65). lia. Defined.

(** The bit array has [c_char::BITS] bits, rounded up to a word: a letter is out of
    its bounds. *)
Example span_of_letters : fst (strspn 64 0x300 0x300 m0) = Panic ∧ fst (strspn 64 0x100 0x200 m0) = Ok 2.
Proof. vm_compute. auto. Qed.

(** With a smaller count, one byte too many is appended, and no zero. *)
Example strncat_unterminated :
  let m := store 0x300 (text "ab" ++ [0; 33; 33; 33; 0]) m0 in
  fst (strncat 0x300 0x100 1 m) = Ok 0x300 ∧
  to_bytes (snd (strncat 0x300 0x100 1 m)) 0x300 = text "ab==!!".
Proof. vm_compute. auto. Qed.

(** The zero at the end of a string is not found, and the empty string panics. *)
Example search_corners :
  fst (strchr 0x300 0 m0) = Ok 0 ∧ fst (strstr 0x300 0x304 m0) = Panic.
Proof. vm_compute. auto. Qed.

(** A negative character is not reduced to a byte before it is multiplied. *)
Example memset_negative :
  fst (Libc.memset (P:=debug_profile) 0x500 (-1) 8 m0) = Panic ∧
  bytes (snd (Libc.memset (P:=release_profile) 0x500 (-1) 8 m0)) 0x500 8 = [255; 254; 254; 254; 254; 254; 254; 254].
Proof. vm_compute. auto. Qed.

(** The index of an unknown number underflows. *)
Example unknown_error :
  fst (strerror_r (P:=debug_profile) (-100) 0x500 64 m0) = Panic ∧
  fst (strerror_r (P:=release_profile) (-100) 0x500 64 m0) = Ok (-22).
Proof. vm_compute. auto. Qed.
End LibcWitness.
