(* ===== verification/LocalFs.v ===== *)
(** * The name space of a process ([h2o_fs/src/fs.rs])

    A process sees a tree of directories of its own, at the leaves of which remote
    entries are mounted. A node is reached only from its parent and is locked while it
    is changed, so the tree is a value that the calls replace. What is behind a remote
    entry is asked over its channel: [call] is the answer of the other side, which is
    not modelled, and the world it depends on. Paths are those of [Path]. *)

From S2P Require Import Base Slices Path.
Local Open Scope Z_scope.

(** ** UTF-8: [str::from_utf8] *)

Definition cont (b : Z) : bool := (0x80 <=? b) && (b <=? 0xBF).
Definition within (lo hi b : Z) : bool := (lo <=? b) && (b <=? hi).

Fixpoint utf8 (s : path) : bool :=
  match s with
  | [] => true
  | a :: s =>
      if a <=? 0x7F then utf8 s
      else
        match s with
        | b :: s =>
            if within 0xC2 0xDF a then cont b && utf8 s
            else
              match s with
              | c :: s =>
                  if within 0xE0 0xEF a then
                    within (if a =? 0xE0 then 0xA0 else 0x80) (if a =? 0xED then 0x9F else 0xBF) b && cont c && utf8 s
                  else
                    match s with
                    | d :: s =>
                        within 0xF0 0xF4 a && within (if a =? 0xF0 then 0x90 else 0x80) (if a =? 0xF4 then 0x8F else 0xBF) b
                        && cont c && cont d && utf8 s
                    | [] => false
                    end
              | [] => false
              end
        | [] => false
        end
  end.

Definition to_str (s : path) : option path := if utf8 s then Some s else None.

(** ** Data *)

Inductive FileType := File | Directory | RpcNode.
#[export] Instance FileType_eq_dec : EqDecision FileType.
Proof. solve_decision. Defined.

Record Metadata := MkMetadata { file_type : FileType; perm : Z; mlen : Z }.

(** Texts in errors are the bytes of their strings. *)
Inductive fs_error :=
  | NotFound
  | Exists
  | IterEnd
  | WouldBlock
  | LocalFs (p : path)
  | InvalidType (t : FileType)
  | InvalidSeek
  | InvalidPath (p : path)
  | InvalidNameLength (n : Z)
  | PermissionDenied (p : Z)
  | IsAncestorOrEquals (ancestor descendant : path)
  | DirNotEmpty
  | RpcError (s : path)
  | InvalidData (s : path)
  | Other (code : Z).

(** [OpenOptions] and [Permission::all]; [Permission::default()] is 0. *)
Definition READ : Z := 1.
Definition WRITE : Z := 2.
Definition CREATE_NEW : Z := 16.
Definition PERM_ALL : Z := 7.

(** [EntrySyncClient], [DirectorySyncClient] and [FileSyncClient] are the client's end
    of a channel. *)
Abbreviation client := Z.

Inductive Node :=
  | Dir (entries : list (path * Node))
  | Remote (remote : client).

(** *** [BTreeMap<String, _>] in the order of its keys *)

Fixpoint entry_get {B} (name : path) (es : list (path * B)) : option B :=
  match es with
  | [] => None
  | (n, x) :: es => if bool_decide (n = name) then Some x else entry_get name es
  end.

Fixpoint entry_insert {B} (name : path) (x : B) (es : list (path * B)) : list (path * B) :=
  match es with
  | [] => [(name, x)]
  | (n, y) :: es =>
      match bytes_cmp name n with
      | Lt => (name, x) :: (n, y) :: es
      | Eq => (name, x) :: es
      | Gt => (n, y) :: entry_insert name x es
      end
  end.

Fixpoint entry_remove {B} (name : path) (es : list (path * B)) : list (path * B) :=
  match es with
  | [] => []
  | (n, y) :: es => if bool_decide (n = name) then es else (n, y) :: entry_remove name es
  end.

(** What is asked of the other side of a channel, and its answers. *)
Inductive request :=
  | EntryOpen (r : client) (p : path) (options conn : Z)
  | EntryMetadata (r : client)
  | EntryClone (r : client) (conn : Z)
  | DirOpen (d : client) (p : path) (options conn : Z)
  | DirUnlink (d : client) (name : path) (expect_dir : bool)
  | DirRename (d : client) (src : path) (dst_parent : Z) (dst : path)
  | DirLink (d : client) (src : path) (dst_parent : Z) (dst : path)
  | DirEventToken (d : client)
  | FileMetadata (f : client)
  | FileRead (f : client) (len : Z)
  | FileWrite (f : client) (content : path)
  | CloseConnection (f : client).

Inductive reply := RUnit | RMeta (m : Metadata) | RToken (t : Z) | RBytes (b : path) | RLen (n : Z).

Record fs (A : Type) := MkFs { root : Node; cwd : path; world : A }.
Arguments MkFs {A} _ _ _.
Arguments root {A} _.
Arguments cwd {A} _.
Arguments world {A} _.

(** [LocalFs::new], in the world [w]. *)
Definition fs_new {A} (w : A) : fs A := MkFs (Dir []) [] w.
(** [LocalFs::clone]: the tree is shared, the working directory is not. *)
Definition fs_clone {A} (s : fs A) : fs A := MkFs (root s) [] (world s).

Section fs.
Context `{P : Profile} {A : Type}.
(** [Channel::new] gives the two ends; [call] sends a request and waits for the reply. *)
Context (channel_new : A → Z * Z * A) (call : request → A → res fs_error reply * A).

Abbreviation fsm := (st (fs A) fs_error).
Abbreviation fres := (res fs_error).

Definition lift_path {B} (r : pres B) : fres B := match r with Ok b => Ok b | Err e => match e with end | Panic => Panic end.

Definition new_channel : fsm (Z * Z) := λ s,
  let '(t, conn, w) := channel_new (world s) in (Ok (t, conn), MkFs (root s) (cwd s) w).
Definition ask (q : request) : fsm reply := λ s,
  let '(r, w) := call q (world s) in (r, MkFs (root s) (cwd s) w).
Definition ask_unit (q : request) : fsm () := r ← ask q; match r with RUnit => mret () | _ => lift Panic end.
Definition ask_meta (q : request) : fsm Metadata := r ← ask q; match r with RMeta m => mret m | _ => lift Panic end.
Definition ask_token (q : request) : fsm Z := r ← ask q; match r with RToken t => mret t | _ => lift Panic end.
Definition ask_bytes (q : request) : fsm path := r ← ask q; match r with RBytes b => mret b | _ => lift Panic end.
Definition ask_len (q : request) : fsm Z := r ← ask q; match r with RLen n => mret n | _ => lift Panic end.
Definition set_root (n : Node) : fsm () := modify (λ s, MkFs n (cwd s) (world s)).
Definition set_cwd (p : path) : fsm () := modify (λ s, MkFs (root s) p (world s)).

(** [path.components()], as the loops take them. *)
Definition path_components (p : path) : fres (list Component) :=
  lift_path (c ← components p; collect next (loop_fuel c) c).

(** [let Component::Normal(comp) = comp else { unreachable!() }; comp.to_str().unwrap()]. *)
Definition normal_name (c : Component) : fres path :=
  match c with
  | Normal n => unwrap (to_str n)
  | _ => Panic
  end.

(** ** Nodes *)

(** [Node::open_node]: the node, and the components that are left. *)
Fixpoint open_node (node : Node) (cs : list Component) : fres (Node * list Component) :=
  match node with
  | Remote _ => Ok (node, cs)
  | Dir entries =>
      match cs with
      | [] => Ok (node, [])
      | c :: cs =>
          name ← normal_name c;
          match entry_get name entries with
          | Some child => open_node child cs
          | None => Err NotFound
          end
      end
  end.

(** [Node::create_node]: the node afterwards, with the result. *)
Fixpoint create_node (node : Node) (p : path) (cs : list Component) (create : option client) : fres () * Node :=
  match cs with
  | [] => (if create then Err Exists else Ok (), node)
  | c :: cs =>
      match normal_name c with
      | Ok name =>
          match node with
          | Remote _ => (Err (LocalFs p), node)
          | Dir entries =>
              match entry_get name entries with
              | Some child =>
                  let '(r, child) := create_node child p cs create in (r, Dir (entry_insert name child entries))
              | None =>
                  match create with
                  | None => (Ok (), node)
                  | Some remote =>
                      let last := match cs with [] => true | _ => false end in
                      let new := if last then Remote remote else Dir [] in
                      let '(r, new) := create_node new p cs (if last then None else create) in
                      (r, Dir (entry_insert name new entries))
                  end
              end
          end
      | Err e => (Err e, node)
      | Panic => (Panic, node)
      end
  end.

(** The entry of [parent_path] that [Node::remove] takes out. *)
Definition remove_from (node : Node) (parent_path rest : path) (all : bool) : fres Node :=
  match node with
  | Remote _ => Err (LocalFs parent_path)
  | Dir entries =>
      match entry_get rest entries with
      | None => Err NotFound
      | Some child =>
          match child with
          | Dir _ => if all then Ok (Dir (entry_remove rest entries)) else Err (InvalidType Directory)
          | Remote _ => Ok (Dir (entry_remove rest entries))
          end
      end
  end.

(** A change of the node that [open_node] finds. *)
Fixpoint update_node (node : Node) (cs : list Component) (f : Node → fres Node) : fres Node :=
  match node with
  | Remote _ => f node
  | Dir entries =>
      match cs with
      | [] => f node
      | c :: cs =>
          name ← normal_name c;
          match entry_get name entries with
          | Some child => child ← update_node child cs f; Ok (Dir (entry_insert name child entries))
          | None => Err NotFound
          end
      end
  end.

Definition remove (node : Node) (p : path) (all : bool) : fres Node :=
  parent ← lift_path (parent p);
  match parent with
  | None => Err (PermissionDenied 0)
  | Some parent_path =>
      cs ← path_components parent_path;
      (* [open_node] fails before the name is looked at *)
      _ ← open_node node cs;
      file ← lift_path (file_name p);
      file ← unwrap file;
      rest ← unwrap (to_str file);
      update_node node cs (λ n, remove_from n parent_path rest all)
  end.

Definition node_metadata (node : Node) : fsm Metadata :=
  match node with
  | Dir entries => mret (MkMetadata Directory PERM_ALL (Z.of_nat (length entries)))
  | Remote remote => ask_meta (EntryMetadata remote)
  end.

(** [PathBuf::from_iter(comps)]. *)
Definition rest_path (cs : list Component) : fres path := lift_path (from_iter (comp_as_os_str <$> cs)).

(** [Node::open]. *)
Definition node_open (node : Node) (p : path) (options conn : Z) : fsm () :=
  cs ← lift (path_components p);
  '(node, comps) ← lift (open_node node cs);
  match node with
  | Dir _ => lift (Err (LocalFs p))
  | Remote remote =>
      p ← lift (rest_path comps);
      ask_unit (EntryOpen remote p options conn)
  end.

(** [Node::export]: the paths and clients are appended to [output]. *)
Fixpoint export_node (node : Node) (p : path) (output : list (path * client)) : fsm (list (path * client)) :=
  match node with
  | Dir entries =>
      (fix each (es : list (path * Node)) (output : list (path * client)) : fsm (list (path * client)) :=
        match es with
        | [] => mret output
        | (name, child) :: es =>
            q ← lift (lift_path (join p name));
            output ← export_node child q output;
            each es output
        end) entries output
  | Remote remote =>
      '(t, conn) ← new_channel;
      _ ← ask_unit (EntryClone remote conn);
      mret (output ++ [(p, t)])
  end.

(** [Node::copy_local]. *)
Definition copy_local (node : Node) (src dst : path) (remove_src : bool) : fsm () :=
  sp ← lift (lift_path (parent src));
  sf ← lift (lift_path (file_name src));
  '(src_parent, src_file) ← lift (match sp, sf ≫= to_str with Some p, Some f => Ok (p, f) | _, _ => Err (InvalidPath src) end);
  dp ← lift (lift_path (parent dst));
  df ← lift (lift_path (file_name dst));
  '(dst_parent, dst_file) ← lift (match dp, df with Some p, Some f => Ok (p, f) | _, _ => Err (InvalidPath dst) end);
  '(src_dir, conn) ← new_channel;
  _ ← node_open node src_parent (Z.lor READ WRITE) conn;
  '(dst_dir, conn) ← new_channel;
  _ ← node_open node dst_parent (Z.lor READ WRITE) conn;
  '(sfile, conn) ← new_channel;
  _ ← ask_unit (DirOpen src_dir src_file (Z.lor READ WRITE) conn);
  '(dfile, conn) ← new_channel;
  _ ← ask_unit (DirOpen dst_dir dst_file (Z.lor (Z.lor CREATE_NEW READ) WRITE) conn);
  sm ← ask_meta (FileMetadata sfile);
  if negb (bool_decide (file_type sm = File)) then lift (Err (InvalidType (file_type sm)))
  else
    dm ← ask_meta (FileMetadata dfile);
    if negb (bool_decide (file_type dm = File)) then lift (Err (InvalidType (file_type dm)))
    else
      content ← ask_bytes (FileRead sfile (mlen sm));
      written ← ask_len (FileWrite dfile content);
      _ ← lift (assert_ (written =? mlen sm));
      _ ← ask_unit (CloseConnection sfile);
      _ ← ask_unit (CloseConnection dfile);
      if remove_src then ask_unit (DirUnlink src_dir src_file false) else mret ().

(** ** The name space *)

(** The loop of [canonicalize_with]; [None] is the [None] of the inner function. *)
Fixpoint canon_loop (out : path) (cs : list Component) : fres (option path) :=
  match cs with
  | [] => Ok (Some out)
  | c :: cs =>
      match c with
      | CPrefix _ _ => Ok None
      | RootDir | CurDir => canon_loop out cs
      | ParentDir =>
          '(popped, out) ← lift_path (pop out);
          if popped : bool then canon_loop out cs else Ok None
      | Normal n =>
          match to_str n with
          | Some n => out ← lift_path (push out n); canon_loop out cs
          | None => Ok None
          end
      end
  end.

Definition canonicalize_with (p cwd : path) : fres path :=
  absolute ← lift_path (is_absolute p);
  q ← (if absolute : bool then Ok p else lift_path (join cwd p));
  cs ← path_components q;
  out ← canon_loop [] cs;
  of_option (InvalidPath p) out.

Definition canonicalize (p : path) : fsm path := s ← get; lift (canonicalize_with p (cwd s)).

Definition fs_open (p : path) (options conn : Z) : fsm () :=
  p ← canonicalize p;
  s ← get;
  node_open (root s) p options conn.

Definition chdir (p : path) : fsm () := p ← canonicalize p; set_cwd p.

Definition mount (p : path) (remote : client) : fsm () :=
  p ← canonicalize p;
  cs ← lift (path_components p);
  s ← get;
  let '(r, n) := create_node (root s) p cs (Some remote) in
  _ ← set_root n;
  lift r.

Definition unmount (p : path) (all : bool) : fsm () :=
  p ← canonicalize p;
  s ← get;
  n ← lift (remove (root s) p all);
  set_root n.

Definition fs_metadata (p : path) : fsm Metadata :=
  p ← canonicalize p;
  cs ← lift (path_components p);
  s ← get;
  '(node, comps) ← lift (open_node (root s) cs);
  match node, comps with
  | Dir _, _ => node_metadata node
  | Remote remote, _ :: _ =>
      p ← lift (rest_path comps);
      '(t, conn) ← new_channel;
      _ ← ask_unit (EntryOpen remote p READ conn);
      ask_meta (EntryMetadata t)
  | Remote remote, [] => ask_meta (EntryMetadata remote)
  end.

Inductive DirIter := LocalIter (entries : list (path * Node)) | RemoteIter (d : client).

Definition read_dir (p : path) : fsm DirIter :=
  p ← canonicalize p;
  cs ← lift (path_components p);
  s ← get;
  '(node, comps) ← lift (open_node (root s) cs);
  match node with
  | Dir entries => mret (LocalIter entries)
  | Remote remote =>
      m ← ask_meta (EntryMetadata remote);
      if negb (bool_decide (file_type m = Directory)) then lift (Err (InvalidType (file_type m)))
      else
        '(t, conn) ← new_channel;
        _ ← (match comps with
             | _ :: _ => p ← lift (rest_path comps); ask_unit (EntryOpen remote p READ conn)
             | [] => ask_unit (EntryClone remote conn)
             end);
        mret (RemoteIter t)
  end.

(** [LocalIter::next]: the item, an error of the entry included, and the entries that are left. *)
Definition local_next (es : list (path * Node)) : fsm (option (fres (path * Metadata)) * list (path * Node)) := λ s,
  match es with
  | [] => (Ok (None, []), s)
  | (name, node) :: es =>
      match node_metadata node s with
      | (Ok m, s) => (Ok (Some (Ok (name, m)), es), s)
      | (Err e, s) => (Ok (Some (Err e), es), s)
      | (Panic, s) => (Panic, s)
      end
  end.

Definition export : fsm (list (path * client)) := s ← get; export_node (root s) [] [].

Definition unlink (p : path) (expect_dir : bool) : fsm () :=
  p ← canonicalize p;
  parent ← lift (lift_path (parent p));
  parent ← lift (of_option (PermissionDenied 0) parent);
  '(dir, conn) ← new_channel;
  _ ← fs_open parent (Z.lor READ WRITE) conn;
  file ← lift (lift_path (file_name p));
  name ← lift (of_option (InvalidPath p) (file ≫= to_str));
  ask_unit (DirUnlink dir name expect_dir).

(** *** Start of the process *)

(** [if let Err(err) = res { log::warn!(..) }]. *)
Definition warned (m : fsm ()) : fsm () := λ s,
  match m s with
  | (Err _, s) => (Ok (), s)
  | r => r
  end.

(** The loop of [init_rt] over the clients and their paths, then the working directory. *)
Fixpoint init_mounts (l : list (client * path)) : fsm () :=
  match l with
  | [] => mret ()
  | (remote, p) :: l => _ ← warned (mount p remote); init_mounts l
  end.

Definition init_rt (remotes : list client) (paths : list path) (cwd : option path) : fsm () :=
  _ ← init_mounts (zip remotes paths);
  match cwd with
  | Some p => warned (chdir p)
  | None => mret ()
  end.

(** *** Operations on two paths *)

(** [src.iter().zip(&dst)] while the components are equal. *)
Fixpoint common (lcp : path) (src dst : list Component) : fres path :=
  match src, dst with
  | a :: src, b :: dst =>
      if bool_decide (comp_as_os_str a = comp_as_os_str b) then lcp ← lift_path (push lcp (comp_as_os_str a)); common lcp src dst
      else Ok lcp
  | _, _ => Ok lcp
  end.

Definition parent_file (p err : path) : fres (path * path) :=
  parent ← lift_path (parent p);
  file ← lift_path (file_name p);
  match parent, file with
  | Some q, Some f => f ← of_option (InvalidPath err) (to_str f); Ok (q, f)
  | _, _ => Err (InvalidPath p)
  end.

Definition two_path_op (src dst : path) (op : client → path → Z → path → fsm ()) (op_local : Node → path → path → path → fsm ()) : fsm () :=
  s ← get;
  src ← lift (canonicalize_with src (cwd s));
  dst ← lift (canonicalize_with dst (cwd s));
  scs ← lift (path_components src);
  dcs ← lift (path_components dst);
  lcp ← lift (common [] scs dcs);
  src_inner ← lift (lift_path (strip_prefix src lcp));
  src_inner ← lift (unwrap src_inner);
  dst_inner ← lift (lift_path (strip_prefix dst lcp));
  dst_inner ← lift (unwrap dst_inner);
  e ← lift (lift_path (path_eq src_inner []));
  if e : bool then lift (Err (IsAncestorOrEquals src dst))
  else
    e ← lift (lift_path (path_eq dst_inner []));
    if e : bool then lift (Err Exists)
    else
      cs ← lift (path_components lcp);
      '(node, _) ← lift (open_node (root s) cs);
      match node with
      | Dir _ => op_local node lcp src_inner dst_inner
      | Remote _ =>
          '(src_parent, src_file) ← lift (parent_file src src);
          '(dst_parent, dst_file) ← lift (parent_file dst src);
          '(src_dir, conn) ← new_channel;
          (* [self.clone()] has an empty working directory *)
          p ← lift (canonicalize_with src_parent (cwd (fs_clone s)));
          _ ← node_open (root s) p (Z.lor READ WRITE) conn;
          '(dst_dir, conn) ← new_channel;
          _ ← fs_open dst_parent (Z.lor READ WRITE) conn;
          token ← ask_token (DirEventToken dst_dir);
          op src_dir src_file token dst_file
      end.

Definition rename (src dst : path) : fsm () :=
  two_path_op src dst (λ dir src token dst, ask_unit (DirRename dir src token dst))
    (λ node _ src dst, copy_local node src dst true).

Definition link (src dst : path) : fsm () :=
  two_path_op src dst (λ dir src token dst, ask_unit (DirLink dir src token dst))
    (λ _ lcp _ _, lift (Err (LocalFs lcp))).
End fs.
