(* ===== verification/LocalFsTree.v ===== *)
(** * The tree of mounted entries

    What the loops of [Node] do to the tree, in terms of what lies at each list of
    names: nothing, a directory or a remote entry. *)

From Stdlib Require Import Sorting.Sorted.
From S2P Require Import Base Slices Path PathFacts PathSpec PathJoin LocalFs.
Local Open Scope Z_scope.

(** ** Canonical paths of the name space

    [canonicalize_with] is a walk over a stack of names: the components of the working
    directory, then those of the path. The path it gives has only names, so the loops
    over the tree, which take any other component for unreachable, never reach it. *)

(** A name of the tree: one component, in UTF-8. *)
Definition name_ok (n : path) : Prop := no_sep SEP n ∧ piece n = Some (Normal n) ∧ utf8 n = true.

(** The stack of names after some components; [None] above the root, and where a name
    is not a string. *)
Fixpoint resolve (stack : list path) (cs : list Component) : option (list path) :=
  match cs with
  | [] => Some stack
  | CPrefix _ _ :: _ => None
  | (RootDir | CurDir) :: cs => resolve stack cs
  | ParentDir :: cs => match stack with [] => None | _ => resolve (removelast stack) cs end
  | Normal n :: cs => if utf8 n then resolve (stack ++ [n]) cs else None
  end.

(** A path that is the given names and nothing else. *)
Definition names (p : path) (ns : list path) : Prop := comps p = Normal <$> ns ∧ Forall name_ok ns.

#[export] Instance name_ok_dec n : Decision (name_ok n).
Proof. unfold name_ok, no_sep. apply _. Defined.
#[export] Instance names_dec p ns : Decision (names p ns).
Proof. unfold names. apply _. Defined.

Section canon.
Context `{P : Profile}.

Lemma path_components_ok p : path_components p = Ok (comps p).
Proof.
  unfold path_components. destruct (comps_wf p) as (c & -> & Hw & Hv & _). cbn [mbind res_bind].
  rewrite (collect_ok next id next_walks) by (done || by apply view_length). cbn. by rewrite Hv.
Qed.

Lemma comps_elem s n : Normal n ∈ comps s → no_sep SEP n ∧ piece n = Some (Normal n).
Proof.
  unfold comps. rewrite elem_of_app. intros [Hs | Hb].
  - unfold start in Hs. destruct (rooted s), (cur_dir s); apply list_elem_of_In in Hs; cbn in Hs; naive_solver.
  - destruct (body_elem _ _ Hb) as [|(m & [= <-] & H)]; done.
Qed.

Lemma take_prefix_id k (p : path) : take (length (take k p)) p = take k p.
Proof. rewrite <- (take_drop k p) at 2. by rewrite take_app_length. Qed.

Lemma names_nil : names [] [].
Proof. done. Qed.

Lemma names_push p ns n : names p ns → name_ok n → ∃ q, push p n = Ok q ∧ names q (ns ++ [n]).
Proof.
  intros [Hp Hns] Hn. pose proof Hn as (H1 & H2 & _). destruct (name_comps n H1 H2) as [Hs Hb].
  destruct (push p n) as [q|[]|] eqn:Hq; [|by rewrite push_ok in Hq]. exists q. split; [done|].
  split; [|by apply Forall_app; split; [done|constructor]].
  rewrite (join_comps _ _ _ Hq), (rooted_start _ Hs), fmap_app. cbn [orb fmap list_fmap].
  case_bool_decide as He; [|by rewrite Hp, Hb].
  subst p. rewrite comps_body, Hb by done. destruct ns; done.
Qed.

Lemma names_pop p ns : names p ns →
  ∃ q, pop p = Ok (match ns with [] => false | _ => true end, q) ∧ names q (removelast ns).
Proof.
  intros [Hp Hns]. unfold pop. destruct (parent_ok p) as (r & -> & Hr). cbn [mbind res_bind]. destruct r as [q|].
  - destruct Hr as (k & x & -> & Hc & _). rewrite Hp in Hc. rewrite (take_prefix_id k). destruct ns as [|n ns _] using rev_ind.
    + by destruct (comps (take k p)).
    + rewrite fmap_app in Hc. apply app_inj_tail in Hc as [Hc _]. exists (take k p).
      rewrite removelast_last. apply Forall_app in Hns as [Hns _]. split; [by destruct ns|done].
  - rewrite Hp in Hr. destruct ns as [|n [|]]; destruct Hr as [Hr | Hr]; try done. exists p. by split.
Qed.

(** Components whose names are components of a path. *)
Definition parts (cs : list Component) : Prop := ∀ n, Normal n ∈ cs → no_sep SEP n ∧ piece n = Some (Normal n).

Lemma parts_cons c cs : parts (c :: cs) → parts cs.
Proof. intros H n Hn. apply H. by right. Qed.

Lemma canon_loop_ok cs out ns : parts cs → names out ns →
  match resolve ns cs with
  | Some ms => ∃ q, canon_loop out cs = Ok (Some q) ∧ names q ms
  | None => canon_loop out cs = Ok None
  end.
Proof.
  revert out ns. induction cs as [|c cs IH]; intros out ns Hp Hn; cbn [resolve canon_loop]; [eauto|].
  pose proof (IH _ _ (parts_cons _ _ Hp) Hn) as IHn. destruct c as [? ?| | | |n]; [done|done|done| |].
  - destruct (names_pop out ns Hn) as (q & -> & Hq). cbn [lift_path mbind res_bind]. destruct ns as [|m ns]; [done|].
    by apply IH; [eapply parts_cons|].
  - unfold to_str. destruct (utf8 n) eqn:Hu; [|done]. destruct (Hp n) as [H1 H2]; [by left|].
    destruct (names_push out ns n Hn) as (q & -> & Hq); [done|]. cbn [lift_path mbind res_bind].
    by apply IH; [eapply parts_cons|].
Qed.

Lemma resolve_app ns cs ms ds : resolve ns cs = Some ms → resolve ns (cs ++ ds) = resolve ms ds.
Proof.
  revert ns. induction cs as [|c cs IH]; intros ns; cbn; [by intros [= ->]|].
  destruct c; [done|by apply IH|by apply IH|destruct ns; [done|by apply IH]|destruct (utf8 s); [by apply IH|done]].
Qed.

Lemma resolve_names ns ms : Forall name_ok ms → resolve ns (Normal <$> ms) = Some (ns ++ ms).
Proof.
  intros H. revert ns. induction H as [|m ms (_ & _ & Hm) _ IH]; intros ns; cbn; [by rewrite app_nil_r|].
  by rewrite Hm, IH, <- app_assoc.
Qed.

(** A leading dot is a component of a path of its own, and none of a path behind another. *)
Lemma resolve_body ns p : rooted p = false → resolve ns (body p) = resolve ns (comps p).
Proof.
  intros Hr. unfold comps. destruct (start_cases p) as [(? & _) | [(_ & Hc & -> & _) | (_ & _ & ->)]]; [congruence| |done].
  cbn [length app resolve]. destruct p as [|b [|b' p]]; [done|..]; cbn in Hc.
  - apply Z.eqb_eq in Hc as ->. done.
  - apply andb_true_iff in Hc as [->%Z.eqb_eq Hb]. unfold is_sep_byte in Hb. apply Z.eqb_eq in Hb as ->.
    change (DOT :: SEP :: p) with ([DOT] ++ SEP :: p). rewrite body_sep. cbn [drop app].
    change (SEP :: p) with ([] ++ SEP :: p). by rewrite body_sep.
Qed.

Lemma comps_parts p : parts (comps p).
Proof. intros n. apply comps_elem. Qed.

Lemma joined cwd ns p : names cwd ns → ∃ q, join cwd p = Ok q ∧
  resolve [] (comps q) = resolve (if rooted p then [] else ns) (comps p).
Proof.
  intros [Hc Hn]. destruct (join cwd p) as [q|[]|] eqn:Hq; [|by unfold join in Hq; rewrite push_ok in Hq].
  exists q. split; [done|]. rewrite (join_comps _ _ _ Hq). destruct (rooted p) eqn:Hr; [done|]. cbn [orb].
  case_bool_decide as He; [subst; by destruct ns|].
  rewrite Hc, (resolve_app _ _ _ _ (resolve_names [] ns Hn)). by apply resolve_body.
Qed.

Lemma canonicalize_ok p cwd ns : names cwd ns →
  match resolve (if rooted p then [] else ns) (comps p) with
  | Some ms => ∃ q, canonicalize_with p cwd = Ok q ∧ names q ms
  | None => canonicalize_with p cwd = Err (InvalidPath p)
  end.
Proof.
  intros Hc. unfold canonicalize_with. rewrite is_absolute_ok. cbn [lift_path mbind res_bind].
  destruct (joined cwd ns p Hc) as (q & -> & <-). cbn [lift_path mbind res_bind].
  rewrite path_components_ok. cbn [mbind res_bind].
  pose proof (canon_loop_ok (comps q) [] [] (comps_parts q) names_nil) as H.
  destruct (resolve [] (comps q)); [destruct H as (r & -> & Hr); by exists r|by rewrite H].
Qed.

Lemma names_rooted p ns : names p ns → rooted p = false.
Proof. intros [Hp _]. unfold comps, start in Hp. destruct (rooted p); [by destruct ns|done]. Qed.

(** A canonical path stays as it is at the root. *)
Lemma canonicalize_again p ns : names p ns → ∃ q, canonicalize_with p [] = Ok q ∧ names q ns.
Proof.
  intros Hp. pose proof (canonicalize_ok p [] [] names_nil) as H.
  rewrite (names_rooted _ _ Hp), (proj1 Hp), (resolve_names [] ns (proj2 Hp)) in H. done.
Qed.

(** Whatever the path, canonicalising it walks a stack of names: from the root when the path begins with a
    separator and from the working directory when not, a name is pushed, [..] pops, and the result is the stack. It
    fails exactly where [..] would leave the root or a name is not UTF-8, it never panics, every component of the
    result is a name, so that no path leads out of the tree, and canonicalising the result at the root changes
    nothing. *)
Theorem canonicalize_stack p cwd ns : names cwd ns →
  match resolve (if rooted p then [] else ns) (comps p) with
  | Some ms => ∃ q, canonicalize_with p cwd = Ok q ∧ names q ms ∧
      ∃ q', canonicalize_with q [] = Ok q' ∧ path_eq q' q = Ok true
  | None => canonicalize_with p cwd = Err (InvalidPath p)
  end.
Proof.
  intros Hc. pose proof (canonicalize_ok p cwd ns Hc) as H. destruct (resolve _ _) as [ms|]; [|done].
  destruct H as (q & Hq & Hn). destruct (canonicalize_again q ms Hn) as (q' & Hq' & Hn'). exists q.
  do 2 (split; [done|]). exists q'. split; [done|]. rewrite path_eq_ok, (proj1 Hn), (proj1 Hn'). by rewrite bool_decide_eq_true_2.
Qed.
End canon.

(** What lies at the names: nothing, a directory, or a remote entry. *)
Inductive kind := KDir | KRemote (r : client).
#[export] Instance kind_eq_dec : EqDecision kind.
Proof. solve_decision. Defined.

Fixpoint at_ (node : Node) (ns : list path) : option Node :=
  match ns with
  | [] => Some node
  | n :: ns => match node with Dir es => entry_get n es ≫= λ child, at_ child ns | Remote _ => None end
  end.
Definition kind_of (node : Node) : kind := match node with Dir _ => KDir | Remote r => KRemote r end.
Definition kind_at (node : Node) (ns : list path) : option kind := kind_of <$> at_ node ns.

(** A remote entry lies above the names, or at them. *)
Definition under (node : Node) (ns : list path) : Prop := ∃ pre rest r, ns = pre ++ rest ∧ kind_at node pre = Some (KRemote r).
(** A remote entry lies strictly above them. *)
Definition blocked (node : Node) (ns : list path) : Prop :=
  ∃ pre n rest r, ns = pre ++ n :: rest ∧ kind_at node pre = Some (KRemote r).

(** Keys in the order of a [BTreeMap], which leaves no two of them equal. *)
Definition key_lt (a b : path) : Prop := bytes_cmp a b = Lt.
Definition ordered (ks : list path) : Prop := StronglySorted key_lt ks.

(** The keys of a directory are in order, and all of them names. *)
Inductive tree : Node → Prop :=
  | tree_remote r : tree (Remote r)
  | tree_dir es : ordered es.*1 → (∀ n child, entry_get n es = Some child → name_ok n ∧ tree child) → tree (Dir es).

(** ** Maps in order *)

Lemma bytes_cmp_swap a b : bytes_cmp a b = CompOpp (bytes_cmp b a).
Proof.
  revert b. induction a as [|x a IH]; intros [|y b]; cbn; try done.
  rewrite (Z.compare_antisym y x). by destruct (y ?= x); cbn.
Qed.

#[export] Instance key_lt_trans : Transitive key_lt.
Proof.
  unfold key_lt. intros a. induction a as [|x a IH]; intros [|y b] [|z c]; cbn; try done.
  destruct (Z.compare_spec x y), (Z.compare_spec y z), (Z.compare_spec x z); try done; try lia. apply IH.
Qed.

Lemma key_lt_irrefl a : ¬ key_lt a a.
Proof. unfold key_lt. by rewrite (proj2 (bytes_cmp_eq a a) eq_refl). Qed.

Lemma ordered_nodup ks : ordered ks → NoDup ks.
Proof.
  induction 1 as [|k ks _ IH Hk]; constructor; [|done]. rewrite Forall_forall in Hk. intros H%Hk. by apply key_lt_irrefl in H.
Qed.

Section entries.
Context {B : Type}.
Implicit Type es : list (path * B).

Lemma get_insert n k (x : B) es : entry_get k (entry_insert n x es) = if bool_decide (n = k) then Some x else entry_get k es.
Proof.
  induction es as [|[m y] es IH]; cbn; [done|].
  destruct (bytes_cmp n m) eqn:Hc; cbn.
  - apply bytes_cmp_eq in Hc as ->. by destruct (bool_decide (m = k)).
  - done.
  - rewrite IH. destruct (decide (n = k)) as [->|]; [|by rewrite (bool_decide_eq_false_2 (n = k))].
    rewrite (bool_decide_eq_true_2 (k = k)), bool_decide_eq_false_2; [done| |done].
    intros ->. by rewrite (proj2 (bytes_cmp_eq k k) eq_refl) in Hc.
Qed.

Lemma keys_insert n (x : B) es k : k ∈ (entry_insert n x es).*1 → k = n ∨ k ∈ es.*1.
Proof.
  induction es as [|[m y] es IH]; cbn; [rewrite list_elem_of_singleton; auto|].
  destruct (bytes_cmp n m); cbn; rewrite !elem_of_cons; naive_solver.
Qed.

Lemma ordered_insert n (x : B) es : ordered es.*1 → ordered (entry_insert n x es).*1.
Proof.
  induction es as [|[m y] es IH]; cbn; [intros _; by repeat constructor|].
  intros [Ho Hm]%StronglySorted_inv. destruct (bytes_cmp n m) eqn:Hc; cbn.
  - apply bytes_cmp_eq in Hc as ->. by constructor.
  - constructor; [by constructor|]. constructor; [done|]. eapply Forall_impl; [exact Hm|]. cbn. intros k Hk. by trans m.
  - constructor; [by apply IH|]. apply Forall_forall. intros k [-> | Hk]%keys_insert.
    + unfold key_lt. by rewrite bytes_cmp_swap, Hc.
    + rewrite Forall_forall in Hm. by apply Hm.
Qed.

Lemma get_key n es : n ∉ es.*1 → entry_get n es = None.
Proof. induction es as [|[m y] es IH]; cbn; [done|]. rewrite not_elem_of_cons. intros [H1 H2]. rewrite bool_decide_eq_false_2; auto. Qed.

Lemma get_remove n k es : ordered es.*1 → entry_get k (entry_remove n es) = if bool_decide (n = k) then None else entry_get k es.
Proof.
  intros Ho%ordered_nodup. revert Ho. induction es as [|[m y] es IH]; cbn; [by case_bool_decide|].
  intros [Hm Hd]%NoDup_cons. destruct (decide (m = n)) as [->|Hn].
  - rewrite (bool_decide_eq_true_2 (n = n)) by done. destruct (decide (n = k)) as [->|Hk].
    + rewrite bool_decide_eq_true_2 by done. by apply get_key.
    + by rewrite !(bool_decide_eq_false_2 (n = k)).
  - rewrite (bool_decide_eq_false_2 (m = n)) by done. cbn. rewrite IH by done.
    repeat case_bool_decide; congruence.
Qed.

Lemma keys_remove n es k : k ∈ (entry_remove n es).*1 → k ∈ es.*1.
Proof. induction es as [|[m y] es IH]; cbn; [done|]. case_bool_decide; cbn; rewrite !elem_of_cons; naive_solver. Qed.

Lemma ordered_remove n es : ordered es.*1 → ordered (entry_remove n es).*1.
Proof.
  induction es as [|[m y] es IH]; cbn; [done|]. intros [Ho Hm]%StronglySorted_inv. case_bool_decide; [done|].
  constructor; [by apply IH|]. rewrite Forall_forall in *. intros k Hk%keys_remove. by apply Hm.
Qed.
End entries.

(** ** The loops *)

Lemma kind_dir es n ns : kind_at (Dir es) (n :: ns) = entry_get n es ≫= λ child, kind_at child ns.
Proof. unfold kind_at. cbn. by destruct (entry_get n es). Qed.
Lemma kind_remote r n ns : kind_at (Remote r) (n :: ns) = None.
Proof. done. Qed.

Lemma kind_insert n child es ks :
  kind_at (Dir (entry_insert n child es)) ks =
  match ks with
  | [] => Some KDir
  | k :: ks => if bool_decide (n = k) then kind_at child ks else kind_at (Dir es) (k :: ks)
  end.
Proof. destruct ks as [|k ks]; [done|]. rewrite !kind_dir, get_insert. by case_bool_decide. Qed.

Lemma blocked_cons es n child ns : entry_get n es = Some child → blocked (Dir es) (n :: ns) ↔ blocked child ns.
Proof.
  intros Hg. split.
  - intros ([|m pre] & x & rest & r & Hn & Hk); [done|]. injection Hn as <- ->. rewrite kind_dir, Hg in Hk. by exists pre, x, rest, r.
  - intros (pre & x & rest & r & -> & Hk). exists (n :: pre), x, rest, r. by rewrite kind_dir, Hg.
Qed.
Lemma blocked_none es n ns : entry_get n es = None → ¬ blocked (Dir es) (n :: ns).
Proof. intros Hg ([|m pre] & x & rest & r & Hn & Hk); [done|]. injection Hn as <- ->. by rewrite kind_dir, Hg in Hk. Qed.
Lemma blocked_nil node : ¬ blocked node [].
Proof. by intros ([|] & x & rest & r & ? & _). Qed.
Lemma blocked_remote r n ns : blocked (Remote r) (n :: ns).
Proof. by exists [], n, ns, r. Qed.

Lemma normal_name_ok n : name_ok n → normal_name (Normal n) = Ok n.
Proof. intros (_ & _ & Hu). unfold normal_name, to_str. by rewrite Hu. Qed.

Lemma open_node_ok node ns : Forall name_ok ns →
  match open_node node (Normal <$> ns) with
  | Ok (Remote r, cs) => ∃ pre rest, ns = pre ++ rest ∧ cs = Normal <$> rest ∧ at_ node pre = Some (Remote r)
  | Ok (Dir es, cs) => cs = [] ∧ at_ node ns = Some (Dir es)
  | Err e => e = NotFound ∧ at_ node ns = None ∧ ¬ under node ns
  | Panic => False
  end.
Proof.
  intros Hns. revert node. induction Hns as [|n ns Hn Hns IH]; intros [es|r]; cbn [open_node fmap list_fmap].
  - done.
  - by exists [], [].
  - rewrite normal_name_ok by done. cbn [mbind res_bind]. destruct (entry_get n es) as [child|] eqn:Hg.
    + specialize (IH child). destruct (open_node child (Normal <$> ns)) as [[[es'|r] cs]|e|].
      * cbn. by rewrite Hg.
      * destruct IH as (pre & rest & -> & -> & Ha). exists (n :: pre), rest. cbn. by rewrite Hg.
      * destruct IH as (-> & Ha & Hu). cbn. rewrite Hg. do 2 (split; [done|]).
        intros ([|m pre] & rest & r & He & Hk); [done|]. injection He as <- ->. rewrite kind_dir, Hg in Hk. destruct Hu. by exists pre, rest, r.
      * done.
    + cbn. rewrite Hg. do 2 (split; [done|]).
      intros ([|m pre] & rest & r & He & Hk); [done|]. injection He as <- ->. by rewrite kind_dir, Hg in Hk.
  - by exists [], (n :: ns).
Qed.

(** Nothing of the tree lies below a remote entry. *)
Lemma remote_below node pre rest r n : kind_at node pre = Some (KRemote r) → at_ node (pre ++ n :: rest) = None.
Proof.
  revert node. induction pre as [|m pre IH]; intros [es|r']; cbn [app at_]; try done.
  rewrite kind_dir. destruct (entry_get m es) as [child|]; [|done]. cbn. apply IH.
Qed.
Lemma remote_stops node pre rest r es : kind_at node pre = Some (KRemote r) → at_ node (pre ++ rest) ≠ Some (Dir es).
Proof.
  intros Hk. destruct rest as [|n rest]; [|by rewrite (remote_below _ _ _ r)].
  rewrite app_nil_r. unfold kind_at in Hk. intros Ha. by rewrite Ha in Hk.
Qed.
Lemma remote_once node pre rest pre' rest' r r' : pre ++ rest = pre' ++ rest' →
  kind_at node pre = Some (KRemote r) → kind_at node pre' = Some (KRemote r') → pre = pre' ∧ rest = rest' ∧ r = r'.
Proof.
  revert node pre'. induction pre as [|m pre IH]; intros node [|m' pre'] He Hk Hk'.
  - rewrite Hk in Hk'. by simplify_eq/=.
  - destruct node; [done|]. by rewrite kind_remote in Hk'.
  - destruct node; [done|]. by rewrite kind_remote in Hk.
  - cbn in He. injection He as <- He. destruct node as [es|]; [|done]. rewrite kind_dir in Hk, Hk'.
    destruct (entry_get m es) as [child|]; [|done]. destruct (IH child pre' He Hk Hk') as (-> & -> & ->). done.
Qed.

(** What lies where after [r] was mounted at [ns]. *)
Definition mounted (ns : list path) (r : client) (k : list path → option kind) (ks : list path) : option kind :=
  if decide (ks = ns) then Some (KRemote r) else if decide (ks `prefix_of` ns) then Some KDir else k ks.

Lemma mounted_cons n ns r k k' ks : (∀ ks, k' (n :: ks) = k ks) → mounted (n :: ns) r k' (n :: ks) = mounted ns r k ks.
Proof.
  intros Hk. unfold mounted. destruct (decide (ks = ns)) as [->|Hne]; [by rewrite decide_True|].
  rewrite decide_False by congruence. destruct (decide (ks `prefix_of` ns)) as [Hp|Hp].
  - by rewrite decide_True by (by apply prefix_cons).
  - rewrite decide_False by (by intros ?%prefix_cons_inv_2). by rewrite Hk.
Qed.
Lemma mounted_other n ns r k m ks : n ≠ m → mounted (n :: ns) r k (m :: ks) = k (m :: ks).
Proof. intros H. unfold mounted. rewrite !decide_False; [done| |congruence]. by intros ?%prefix_cons_inv_1. Qed.
Lemma mounted_root n ns r k : mounted (n :: ns) r k [] = Some KDir.
Proof. unfold mounted. by rewrite decide_False, decide_True by (done || apply prefix_nil). Qed.

(** The three outcomes of creating a leaf. *)
Definition created (node : Node) (p : path) (ns : list path) (r : client) (out : res fs_error () * Node) : Prop :=
  (blocked node ns → out.1 = Err (LocalFs p) ∧ ∀ ks, kind_at out.2 ks = kind_at node ks) ∧
  (is_Some (kind_at node ns) → out.1 = Err Exists ∧ ∀ ks, kind_at out.2 ks = kind_at node ks) ∧
  (¬ blocked node ns → kind_at node ns = None → out.1 = Ok () ∧ ∀ ks, kind_at out.2 ks = mounted ns r (kind_at node) ks).

Lemma created_child es n child p ns r out : entry_get n es = Some child → created child p ns r out →
  created (Dir es) p (n :: ns) r (out.1, Dir (entry_insert n out.2 es)).
Proof.
  intros Hg (H1 & H2 & H3). unfold created. rewrite (blocked_cons _ _ _ _ Hg), kind_dir, Hg. cbn [fst snd mbind option_bind].
  assert (Hsame : (∀ ks, kind_at out.2 ks = kind_at child ks) →
    ∀ ks, kind_at (Dir (entry_insert n out.2 es)) ks = kind_at (Dir es) ks).
  { intros H [|k ks]; rewrite kind_insert; [done|]. case_bool_decide; [|done]. subst k. by rewrite kind_dir, Hg, H. }
  split_and!.
  - intros [? ?]%H1. auto.
  - intros [? ?]%H2. auto.
  - intros Hb Hk. destruct (H3 Hb Hk) as [? H]. split; [done|]. intros [|k ks]; rewrite kind_insert; [by rewrite mounted_root|].
    case_bool_decide as Hn; [subst k|by rewrite mounted_other].
    rewrite H. symmetry. apply mounted_cons. intros ?. by rewrite kind_dir, Hg.
Qed.

Lemma created_new es n p ns r new : entry_get n es = None →
  (∀ ks, kind_at new ks = mounted ns r (λ _, None) ks) → created (Dir es) p (n :: ns) r (Ok (), Dir (entry_insert n new es)).
Proof.
  intros Hg Hnew. unfold created. rewrite kind_dir, Hg. cbn [fst snd mbind option_bind]. split_and!.
  - by intros ?%blocked_none.
  - by intros [? ?].
  - intros _ _. split; [done|]. intros [|k ks]; rewrite kind_insert; [by rewrite mounted_root|].
    case_bool_decide as Hn; [subst k|by rewrite mounted_other].
    rewrite Hnew. symmetry. apply mounted_cons. intros ?. by rewrite kind_dir, Hg.
Qed.

Lemma kind_leaf r ks : kind_at (Remote r) ks = mounted [] r (λ _, None) ks.
Proof. unfold mounted. destruct ks as [|k ks]; [done|]. rewrite decide_False by done. rewrite decide_False; [done|]. by intros [? ?]. Qed.

Lemma mounted_ext ns r k k' ks : (∀ ks, ks ≠ [] → k ks = k' ks) → mounted ns r k ks = mounted ns r k' ks.
Proof.
  intros H. unfold mounted. repeat case_decide; try done. apply H. intros ->. match goal with Hp : ¬ _ `prefix_of` _ |- _ => apply Hp, prefix_nil end.
Qed.

Lemma create_node_ok node p ns r : Forall name_ok ns → created node p ns r (create_node node p (Normal <$> ns) (Some r)).
Proof.
  intros Hns. revert node. induction Hns as [|n ns Hn Hns IH]; intros node; cbn [create_node fmap list_fmap].
  { split_and!; [by intros ?%blocked_nil|by intros _|done]. }
  rewrite normal_name_ok by done. destruct node as [es|r'].
  2:{ split_and!; [by intros _|by intros [? ?]|]. intros []. apply blocked_remote. }
  destruct (entry_get n es) as [child|] eqn:Hg.
  { specialize (IH child). destruct (create_node child p _ _) as [o child'] eqn:Ho. by apply (created_child _ _ child _ _ _ (o, child')). }
  destruct ns as [|m ns]; [apply created_new; [done|]; apply kind_leaf|].
  specialize (IH (Dir [])). change (Normal <$> m :: ns) with (Normal m :: (Normal <$> ns)) in *.
  destruct (create_node (Dir []) p _ _) as [o new]. destruct IH as (_ & _ & IH).
  destruct IH as [Ho Hnew]; [by apply blocked_none|done|]. cbn in Ho, Hnew. subst o. apply created_new; [done|].
  intros ks. rewrite Hnew. apply mounted_ext. by intros [|].
Qed.

Lemma tree_insert n child es : name_ok n → tree child → tree (Dir es) → tree (Dir (entry_insert n child es)).
Proof.
  intros Hn Hc. inversion 1 as [|? Ho He]; subst. constructor; [by apply ordered_insert|].
  intros m c. rewrite get_insert. case_bool_decide; [|apply He]. intros [= <-]. by subst.
Qed.

Lemma tree_child n child es : tree (Dir es) → entry_get n es = Some child → tree child.
Proof. inversion 1 as [|? _ He]; subst. intros H'. by apply (He n). Qed.

Lemma tree_empty : tree (Dir []).
Proof. constructor; [constructor|done]. Qed.

Lemma create_node_tree node p ns c : Forall name_ok ns → tree node → tree (create_node node p (Normal <$> ns) c).2.
Proof.
  intros Hns. revert node c. induction Hns as [|n ns Hn Hns IH]; intros node c Ht; cbn [create_node fmap list_fmap]; [done|].
  rewrite normal_name_ok by done. destruct node as [es|r']; [|done]. destruct (entry_get n es) as [child|] eqn:Hg.
  { specialize (IH child c (tree_child _ _ _ Ht Hg)). destruct (create_node child _ _ _). by apply tree_insert. }
  destruct c as [r|]; [|done]. destruct ns as [|m ns]; [by apply tree_insert; [|constructor|]|].
  specialize (IH (Dir []) (Some r) tree_empty). change (Normal <$> m :: ns) with (Normal m :: (Normal <$> ns)) in *.
  destruct (create_node (Dir []) _ _ _). by apply tree_insert.
Qed.

(** What lies where after [ns] was taken out. *)
Definition unmounted (ns : list path) (k : list path → option kind) (ks : list path) : option kind :=
  if decide (ns `prefix_of` ks) then None else k ks.

(** The four outcomes of removing an entry; [q] is the path of the directory. *)
Definition removed (node : Node) (q : path) (ns : list path) (all : bool) (out : res fs_error Node) : Prop :=
  (blocked node ns → out = Err (LocalFs q)) ∧
  (¬ blocked node ns → kind_at node ns = None → out = Err NotFound) ∧
  (kind_at node ns = Some KDir → all = false → out = Err (InvalidType Directory)) ∧
  (∀ k, kind_at node ns = Some k → (k = KDir → all = true) →
    ∃ node', out = Ok node' ∧ tree node' ∧ ∀ ks, kind_at node' ks = unmounted ns (kind_at node) ks).

Lemma kind_not_blocked node ns : is_Some (kind_at node ns) → ¬ blocked node ns.
Proof.
  intros [k Hk] (pre & n & rest & r & -> & Hp). revert node Hk Hp. induction pre as [|m pre IH]; intros [es|r'] Hk Hp; try done.
  cbn [app] in Hk. rewrite kind_dir in Hk, Hp. destruct (entry_get m es) as [child|]; [|done]. by apply (IH child).
Qed.

Lemma kind_remove n es ks : ordered es.*1 → kind_at (Dir (entry_remove n es)) ks = unmounted [n] (kind_at (Dir es)) ks.
Proof.
  intros Ho. unfold unmounted. destruct ks as [|k ks].
  { rewrite decide_False; [done|]. by intros [? ?]. }
  rewrite !kind_dir, get_remove by done. destruct (decide (n = k)) as [->|Hk].
  - rewrite bool_decide_eq_true_2, decide_True; [done| |done]. by exists ks.
  - rewrite bool_decide_eq_false_2, decide_False; [done| |done]. by intros ?%prefix_cons_inv_1.
Qed.

Lemma tree_remove n es : tree (Dir es) → tree (Dir (entry_remove n es)).
Proof.
  inversion 1 as [|? Ho He]; subst. constructor; [by apply ordered_remove|].
  intros m c. rewrite get_remove by done. case_bool_decide; [done|]. apply He.
Qed.

Lemma remove_from_ok node q n all : tree node → removed node q [n] all (remove_from node q n all).
Proof.
  intros Ht. destruct node as [es|r].
  2:{ split_and!; [done|intros []; apply blocked_remote|done|done]. }
  assert (Hb : ¬ blocked (Dir es) [n]) by (by intros ([|m [|]] & x & rest & r & ? & ?)).
  unfold removed. rewrite kind_dir. cbn [remove_from]. destruct (entry_get n es) as [child|] eqn:Hg; [|by split_and!].
  change (Some child ≫= _) with (kind_at child []). split_and!; [done|done|by destruct child; [intros _ ->|]|].
  intros k [= <-] Hall. exists (Dir (entry_remove n es)). split_and!.
  - destruct child; [|done]. by rewrite Hall.
  - by apply tree_remove.
  - intros ks. apply kind_remove. by inversion Ht.
Qed.

Lemma removed_child es m child q ns all out : name_ok m → tree (Dir es) → entry_get m es = Some child → removed child q ns all out →
  removed (Dir es) q (m :: ns) all (match out with Ok c => Ok (Dir (entry_insert m c es)) | Err e => Err e | Panic => Panic end).
Proof.
  intros Hm Ht Hg (H1 & H2 & H3 & H4). unfold removed. rewrite (blocked_cons _ _ _ _ Hg), kind_dir, Hg. cbn [mbind option_bind].
  split_and!.
  - by intros ->%H1.
  - by intros ? ->%H2.
  - by intros ? ->%H3.
  - intros k Hk Hall. destruct (H4 k Hk Hall) as (c & -> & Hc & H). eexists. split; [done|]. split; [by apply tree_insert|].
    intros ks. rewrite kind_insert. unfold unmounted. destruct ks as [|k' ks].
    { rewrite decide_False; [done|]. by intros [? ?]. }
    case_bool_decide as Hn.
    + subst k'. rewrite H, kind_dir, Hg. unfold unmounted. cbn. destruct (decide (ns `prefix_of` ks)).
      * by rewrite decide_True by (by apply prefix_cons).
      * by rewrite decide_False by (by intros ?%prefix_cons_inv_2).
    + rewrite decide_False; [done|]. by intros ?%prefix_cons_inv_1.
Qed.

Lemma update_remove node q pre n all : Forall name_ok pre → tree node →
  removed node q (pre ++ [n]) all (update_node node (Normal <$> pre) (λ d, remove_from d q n all)).
Proof.
  intros Hpre. revert node. induction Hpre as [|m pre Hm Hpre IH]; intros node Ht; cbn [update_node fmap list_fmap app].
  { destruct node; by apply remove_from_ok. }
  destruct node as [es|r].
  2:{ cbn. split_and!; [done|intros []; apply blocked_remote|done|done]. }
  rewrite normal_name_ok by done. cbn [mbind res_bind]. destruct (entry_get m es) as [child|] eqn:Hg.
  - specialize (IH child (tree_child _ _ _ Ht Hg)). pose proof (removed_child _ _ _ _ _ _ _ Hm Ht Hg IH) as H.
    by destruct (update_node child _ _).
  - unfold removed. rewrite kind_dir, Hg. cbn. split_and!; [by intros ?%blocked_none|done|done|done].
Qed.

Lemma update_opens node cs f e : open_node node cs = Err e → update_node node cs f = Err e.
Proof.
  revert node. induction cs as [|c cs IH]; intros [es|r]; cbn; try done.
  destruct (normal_name c); cbn; try done; [|by intros [= ->]]. destruct (entry_get _ es) as [child|]; [|by intros [= ->]].
  intros H. by rewrite (IH child H).
Qed.

Section remove.
Context `{P : Profile}.

Lemma remove_ok node p pre n all : names p (pre ++ [n]) → tree node →
  ∃ q, names q pre ∧ parent p = Ok (Some q) ∧ removed node q (pre ++ [n]) all (remove node p all).
Proof.
  intros [Hp Hns] Ht. apply Forall_app in Hns as [Hpre Hn]. apply Forall_singleton in Hn as (_ & _ & Hu).
  unfold remove. destruct (parent_ok p) as (r & -> & Hr), (file_name_ok p) as (f & -> & Hf).
  assert (comps p = (Normal <$> pre) ++ [Normal n]) as Hp' by (by rewrite Hp, fmap_app). clear Hp. rewrite Hp' in *.
  destruct r as [q|]; [|by destruct pre as [|? []]; destruct Hr as [Hr | Hr]].
  destruct Hr as (k & x & _ & [Hq _]%app_inj_tail & _).
  destruct f as [f|]; rewrite last_snoc in Hf; [injection Hf as <-|by destruct (Hf n)].
  exists q. split; [done|]. split; [done|]. cbn [lift_path mbind res_bind].
  rewrite path_components_ok, <- Hq. cbn [mbind res_bind].
  pose proof (update_remove node q pre n all Hpre Ht) as H. pose proof (open_node_ok node pre Hpre) as Ho.
  destruct (open_node node (Normal <$> pre)) as [o|e|] eqn:Hop; [| |done].
  { cbn. unfold to_str. by rewrite Hu. }
  rewrite (update_opens _ _ _ _ Hop) in H. exact H.
Qed.

Lemma remove_root node p all : names p [] → remove node p all = Err (PermissionDenied 0).
Proof.
  intros [Hp _]. unfold remove. destruct (parent_ok p) as ([q|] & -> & Hr); [|done].
  destruct Hr as (k & x & _ & Hc & _). rewrite Hp in Hc. by destruct (comps q).
Qed.
End remove.
