(* ===== verification/LocalFsSpec.v ===== *)
(** * What the name space of a process promises

    The calls on the name space, over the walk and the tree of [LocalFsTree]: mounting and unmounting change what lies at one list of names and
    nothing else, opening sends the rest of the path to the entry that is mounted above
    it, and every call keeps the tree and the working directory well formed. *)

From S2P Require Import Base Slices Path PathFacts PathSpec PathJoin LocalFs LocalFsTree.
Local Open Scope Z_scope.

Section spec.
Context `{P : Profile} {A : Type}.
Context (channel_new : A → Z * Z * A) (call : request → A → res fs_error reply * A).
Implicit Type s : fs A.

(** The names that a path stands for in the name space. *)
Definition target (ns : list path) (p : path) : option (list path) := resolve (if rooted p then [] else ns) (comps p).

Lemma canonicalize_run s p ns ms : names (cwd s) ns → target ns p = Some ms →
  ∃ q, canonicalize p s = (Ok q, s) ∧ names q ms.
Proof.
  intros Hc Ht. pose proof (canonicalize_ok p (cwd s) ns Hc) as H. unfold target in Ht. rewrite Ht in H.
  destruct H as (q & Hq & Hn). exists q. unfold canonicalize. rewrite st_get_bind, Hq. done.
Qed.

Lemma canonicalize_fails s p ns : names (cwd s) ns → target ns p = None → canonicalize p s = (Err (InvalidPath p), s).
Proof.
  intros Hc Ht. pose proof (canonicalize_ok p (cwd s) ns Hc) as H. unfold target in Ht. rewrite Ht in H.
  unfold canonicalize. by rewrite st_get_bind, H.
Qed.

Lemma components_names q ms : names q ms → path_components q = Ok (Normal <$> ms).
Proof. intros [H _]. by rewrite path_components_ok, H. Qed.

Lemma rest_path_ok ms : Forall name_ok ms → ∃ q, rest_path (Normal <$> ms) = Ok q ∧ names q ms.
Proof.
  intros Hms. unfold rest_path, from_iter.
  assert (H : ∀ p ns, names p ns → ∃ q, extend p (comp_as_os_str <$> (Normal <$> ms)) = Ok q ∧ names q (ns ++ ms)).
  { induction Hms as [|m ms Hm _ IH]; intros p ns Hp; cbn [fmap list_fmap extend comp_as_os_str].
    - exists p. by rewrite app_nil_r.
    - destruct (names_push p ns m Hp Hm) as (q & -> & Hq). cbn [mbind res_bind].
      destruct (IH q _ Hq) as (q' & Hq' & Hn). exists q'. by rewrite <- app_assoc in Hn. }
  destruct (H [] [] names_nil) as (q & -> & Hq). by exists q.
Qed.

(** C11: Mounting changes the name space at the names of the path only. If nothing lies there and no remote entry lies
    above, then afterwards the entry lies there, directories above it, and everything else is where it was. Otherwise
    the call fails, because the place lies in a remote entry or is taken, and nothing has moved. *)
Theorem mount_spec s p r ns ms : names (cwd s) ns → target ns p = Some ms →
  ∃ q out root', mount p r s = (out, MkFs root' (cwd s) (world s)) ∧ names q ms ∧
    (blocked (root s) ms → out = Err (LocalFs q) ∧ ∀ ks, kind_at root' ks = kind_at (root s) ks) ∧
    (is_Some (kind_at (root s) ms) → out = Err Exists ∧ ∀ ks, kind_at root' ks = kind_at (root s) ks) ∧
    (¬ blocked (root s) ms → kind_at (root s) ms = None →
      out = Ok () ∧ ∀ ks, kind_at root' ks = mounted ms r (kind_at (root s)) ks).
Proof.
  intros Hc Ht. destruct (canonicalize_run s p ns ms Hc Ht) as (q & Hq & Hn).
  pose proof (create_node_ok (root s) q ms r (proj2 Hn)) as H.
  unfold mount. erewrite st_bind_ok by exact Hq. rewrite (components_names _ _ Hn).
  rewrite (st_lift_ok _ _ _ _ eq_refl), st_get_bind. destruct (create_node _ _ _ _) as [out root'].
  exists q, out, root'. unfold set_root. rewrite st_modify_bind. done.
Qed.

(** Unmounting takes out what lies at the names of the path with everything below it, and nothing else. A
    directory of the name space goes only when all of it is asked for; the root stays; a path in a remote entry or
    where nothing lies is refused; and a call that is refused changes nothing. *)
Theorem unmount_spec s p all ns ms : names (cwd s) ns → tree (root s) → target ns p = Some ms →
  ∃ out root' q, unmount p all s = (out, MkFs root' (cwd s) (world s)) ∧
    (out ≠ Ok () → root' = root s) ∧
    (ms = [] → out = Err (PermissionDenied 0)) ∧
    (blocked (root s) ms → out = Err (LocalFs q) ∧ names q (removelast ms)) ∧
    (¬ blocked (root s) ms → kind_at (root s) ms = None → out = Err NotFound) ∧
    (ms ≠ [] → kind_at (root s) ms = Some KDir → all = false → out = Err (InvalidType Directory)) ∧
    (∀ k, ms ≠ [] → kind_at (root s) ms = Some k → (k = KDir → all = true) →
      out = Ok () ∧ ∀ ks, kind_at root' ks = unmounted ms (kind_at (root s)) ks).
Proof.
  intros Hc Htr Ht. destruct (canonicalize_run s p ns ms Hc Ht) as (q & Hq & Hn).
  unfold unmount. erewrite st_bind_ok by exact Hq. rewrite st_get_bind.
  destruct ms as [|n pre _] using rev_ind.
  { rewrite (remove_root _ _ _ Hn). exists (Err (PermissionDenied 0)), (root s), [].
    split; [by destruct s|]. split_and!; try done. by intros ?%blocked_nil. }
  destruct (remove_ok (root s) q pre n all Hn Htr) as (d & Hd & _ & H1 & H2 & H3 & H4).
  exists (match remove (root s) q all with Ok _ => Ok () | Err e => Err e | Panic => Panic end),
    (match remove (root s) q all with Ok t => t | _ => root s end), d. rewrite removelast_last.
  split; [by destruct s, (remove _ q all)|]. split; [by destruct (remove _ q all)|].
  split_and!.
  - by intros [_ ?]%app_eq_nil.
  - by intros ->%H1.
  - by intros ? ->%H2.
  - by intros _ ? ->%H3.
  - intros k _ Hk Ha. destruct (H4 k Hk Ha) as (t & -> & _ & Hks). done.
Qed.

Lemma open_run s p options conn ns ms : names (cwd s) ns → target ns p = Some ms →
  (∀ pre rest r, ms = pre ++ rest → kind_at (root s) pre = Some (KRemote r) →
    ∃ q, names q rest ∧ fs_open call p options conn s = ask_unit call (EntryOpen r q options conn) s) ∧
  (kind_at (root s) ms = Some KDir → ∃ q, names q ms ∧ fs_open call p options conn s = (Err (LocalFs q), s)) ∧
  (¬ under (root s) ms → kind_at (root s) ms = None → fs_open call p options conn s = (Err NotFound, s)).
Proof.
  intros Hc Ht. destruct (canonicalize_run s p ns ms Hc Ht) as (q & Hq & Hn).
  assert (Hrun : fs_open call p options conn s = node_open call (root s) q options conn s).
  { unfold fs_open. erewrite st_bind_ok by exact Hq. by rewrite st_get_bind. }
  rewrite Hrun. unfold node_open. rewrite (components_names _ _ Hn), (st_lift_ok _ _ _ _ eq_refl).
  pose proof (open_node_ok (root s) ms (proj2 Hn)) as H.
  destruct (open_node (root s) (Normal <$> ms)) as [[[es|r'] cs]|e|] eqn:Ho; [| | |done].
  - destruct H as [-> Ha]. split_and!.
    + intros pre rest r -> Hk. exfalso. by apply (remote_stops (root s) pre rest r es).
    + intros _. exists q. by split.
    + unfold kind_at. by rewrite Ha.
  - destruct H as (pre' & rest' & He & -> & Ha). split_and!.
    + intros pre rest r -> Hk. destruct (remote_once (root s) pre rest pre' rest' r r') as (-> & -> & ->); [done..|by unfold kind_at; rewrite Ha|].
      destruct (rest_path_ok rest') as (q' & Hq' & Hn'); [by destruct Hn as [_ [_ ?]%Forall_app]|].
      exists q'. split; [done|]. rewrite (st_lift_ok _ _ _ _ eq_refl). by rewrite Hq', (st_lift_ok _ _ _ _ eq_refl).
    + intros Hk. exfalso. destruct rest' as [|x rest'].
      * rewrite app_nil_r in He. subst. unfold kind_at in Hk. by rewrite Ha in Hk.
      * apply (kind_not_blocked (root s) ms); [by rewrite Hk|]. exists pre', x, rest', r'. unfold kind_at. by rewrite Ha.
    + intros [] _. exists pre', rest', r'. unfold kind_at. by rewrite Ha.
  - destruct H as (-> & Ha & Hu). split_and!; [|by unfold kind_at; rewrite Ha|done].
    intros pre rest r -> Hk. destruct Hu. by exists pre, rest, r.
Qed.

(** C7: Opening a path finds the remote entry that is mounted at it or above it, of which there is one at most:
    exactly one request goes out, to this entry, with the rest of the path, and its answer is the answer. A directory of the name
    space is not opened, a path where nothing lies is not found, and then nothing is sent. *)
Theorem open_routes s p options conn ns ms : names (cwd s) ns → target ns p = Some ms →
  (∀ pre rest r, ms = pre ++ rest → kind_at (root s) pre = Some (KRemote r) →
    ∃ q, names q rest ∧ fs_open call p options conn s = ask_unit call (EntryOpen r q options conn) s) ∧
  (kind_at (root s) ms = Some KDir → ∃ q, names q ms ∧ fs_open call p options conn s = (Err (LocalFs q), s)) ∧
  (¬ under (root s) ms → kind_at (root s) ms = None → fs_open call p options conn s = (Err NotFound, s)).
Proof. apply open_run. Qed.

(** ** The invariant *)

(** The root is a directory, the tree is well formed, and the working directory is canonical. *)
Definition fs_ok (s : fs A) : Prop := kind_of (root s) = KDir ∧ tree (root s) ∧ ∃ ns, names (cwd s) ns.

Abbreviation kept := (keeps fs_ok).

Lemma keeps_ask q : kept (ask call q).
Proof. intros s Hs. unfold ask. by destruct (call q (world s)). Qed.
Lemma keeps_channel : kept (new_channel channel_new).
Proof. intros s Hs. unfold new_channel. by destruct (channel_new (world s)) as [[? ?] ?]. Qed.

(** What only looks at the tree, asks and makes channels. *)
Ltac looks :=
  repeat first
    [ apply keeps_ask | apply keeps_channel | apply keeps_ret | apply keeps_lift | apply keeps_get
    | apply keeps_bind; [|intros ?] | assumption | case_match ].

Lemma keeps_node_open node p options conn : kept (node_open call node p options conn).
Proof. unfold node_open, ask_unit. looks. Qed.
Lemma keeps_metadata node : kept (node_metadata call node).
Proof. unfold node_metadata, ask_meta. looks. Qed.

Lemma keeps_canonicalize p : kept (canonicalize p).
Proof. unfold canonicalize. looks. Qed.
Lemma keeps_open p options conn : kept (fs_open call p options conn).
Proof. unfold fs_open. apply keeps_bind; [apply keeps_canonicalize|intros q]. apply keeps_bind; [apply keeps_get|intros ?]. apply keeps_node_open. Qed.

Lemma keeps_export node p out : kept (export_node channel_new call node p out).
Proof.
  revert p out. revert node. fix IH 1. intros [es|r] p out; cbn [export_node].
  - revert out. induction es as [|[n child] es IHes]; intros out; [apply keeps_ret|].
    apply keeps_bind; [apply keeps_lift|intros q]. apply keeps_bind; [apply IH|intros o]. apply IHes.
  - unfold ask_unit. looks.
Qed.

Lemma canonical_inv s p q s' : fs_ok s → canonicalize p s = (Ok q, s') → s' = s ∧ ∃ ms, names q ms.
Proof.
  intros (_ & _ & ns & Hc) Hq. destruct (target ns p) as [ms|] eqn:Ht.
  - destruct (canonicalize_run s p ns ms Hc Ht) as (q' & Hq' & Hn). rewrite Hq' in Hq. injection Hq as <- <-. eauto.
  - by rewrite (canonicalize_fails s p ns Hc Ht) in Hq.
Qed.

(** A call that starts with the canonical path keeps the invariant if the rest of it does for every canonical path. *)
Lemma keeps_canonical {B} p (k : path → st (fs A) fs_error B) :
  (∀ q ms s, names q ms → fs_ok s → fs_ok (k q s).2) → kept (canonicalize p ≫= k).
Proof.
  intros Hk s Hs. destruct (canonicalize p s) as [[q|e|] s'] eqn:Hq.
  - destruct (canonical_inv _ _ _ _ Hs Hq) as (-> & ms & Hn). erewrite st_bind_ok by exact Hq. by eapply Hk.
  - erewrite st_bind_err by exact Hq. pose proof (keeps_canonicalize p s Hs) as H. by rewrite Hq in H.
  - erewrite st_bind_panic by exact Hq. pose proof (keeps_canonicalize p s Hs) as H. by rewrite Hq in H.
Qed.

Lemma keeps_chdir p : kept (chdir p).
Proof. apply keeps_canonical. intros q ms s Hn (H1 & H2 & _). split_and!; [done|done|by exists ms]. Qed.

Lemma create_dir node p cs c : kind_of node = KDir → kind_of (create_node node p cs c).2 = KDir.
Proof.
  destruct node as [es|], cs as [|x cs]; try done. intros _. cbn [create_node]. destruct (normal_name x) as [n| |]; try done.
  destruct (entry_get n es); [by destruct (create_node _ _ _ _)|]. destruct c; [|done]. by destruct (create_node _ _ _ _).
Qed.

Lemma keeps_mount p r : kept (mount p r).
Proof.
  apply keeps_canonical. intros q ms s Hn (H1 & H2 & H3). rewrite (components_names _ _ Hn), (st_lift_ok _ _ _ _ eq_refl), st_get_bind.
  pose proof (create_node_tree (root s) q ms (Some r) (proj2 Hn) H2) as Ht.
  pose proof (create_dir (root s) q (Normal <$> ms) (Some r) H1) as Hd.
  destruct (create_node _ _ _ _) as [out n]. unfold set_root. rewrite st_modify_bind. done.
Qed.

Lemma remove_inv node p ms all node' : names p ms → kind_of node = KDir → tree node → remove node p all = Ok node' →
  kind_of node' = KDir ∧ tree node'.
Proof.
  intros Hn Hd Ht Hr. destruct ms as [|n pre _] using rev_ind; [by rewrite (remove_root _ _ _ Hn) in Hr|].
  destruct (remove_ok node p pre n all Hn Ht) as (q & _ & _ & H1 & H2 & H3 & H4). rewrite Hr in *.
  destruct (kind_at node (pre ++ [n])) as [k|] eqn:Hk.
  - destruct (decide (k = KDir ∧ all = false)) as [[-> ->]|Hka]; [by specialize (H3 eq_refl eq_refl)|].
    destruct (H4 k eq_refl) as (t & [= <-] & Htt & Hks); [by intros ->; destruct all; [|destruct Hka]|]. split; [|done].
    specialize (Hks []). unfold unmounted in Hks. rewrite decide_False in Hks by (intros [? ?]; by destruct pre).
    cbn in Hks. rewrite Hd in Hks. by injection Hks.
  - specialize (H2 (λ Hb, ltac:(by specialize (H1 Hb))) eq_refl). done.
Qed.

Lemma keeps_unmount p all : kept (unmount p all).
Proof.
  apply keeps_canonical. intros q ms s Hn (H1 & H2 & H3). rewrite st_get_bind.
  destruct (remove (root s) q all) as [t| |] eqn:Hr; [|done|done]. rewrite (st_lift_ok _ _ _ _ eq_refl).
  destruct (remove_inv _ _ _ _ _ Hn H1 H2 Hr). done.
Qed.

Lemma keeps_warned m : kept m → kept (warned m).
Proof. intros Hm s Hs. specialize (Hm s Hs). unfold warned. by destruct (m s) as [[]]. Qed.
Lemma keeps_init remotes paths c : kept (init_rt remotes paths c).
Proof.
  unfold init_rt. apply keeps_bind; [|intros _; destruct c; [apply keeps_warned, keeps_chdir|apply keeps_ret]].
  induction (zip remotes paths) as [|[r p] l IH]; cbn [init_mounts]; [apply keeps_ret|].
  apply keeps_bind; [apply keeps_warned, keeps_mount|by intros _].
Qed.

(** The calls on the name space. *)
Inductive fs_call :=
  | COpen (p : path) (options conn : Z)
  | CChdir (p : path)
  | CMount (p : path) (r : client)
  | CUnmount (p : path) (all : bool)
  | CMetadata (p : path)
  | CReadDir (p : path)
  | CNext (es : list (path * Node))
  | CExport
  | CUnlink (p : path) (expect_dir : bool)
  | CRename (src dst : path)
  | CLink (src dst : path)
  | CInit (remotes : list client) (paths : list path) (c : option path).

Definition perform (c : fs_call) (s : fs A) : fs A :=
  match c with
  | COpen p o conn => (fs_open call p o conn s).2
  | CChdir p => (chdir p s).2
  | CMount p r => (mount p r s).2
  | CUnmount p all => (unmount p all s).2
  | CMetadata p => (fs_metadata channel_new call p s).2
  | CReadDir p => (read_dir channel_new call p s).2
  | CNext es => (local_next call es s).2
  | CExport => (export channel_new call s).2
  | CUnlink p d => (unlink channel_new call p d s).2
  | CRename a b => (rename channel_new call a b s).2
  | CLink a b => (link channel_new call a b s).2
  | CInit r ps c => (init_rt r ps c s).2
  end.

Lemma perform_ok c s : fs_ok s → fs_ok (perform c s).
Proof.
  intros Hs. destruct c; cbn [perform].
  - by apply keeps_open.
  - by apply keeps_chdir.
  - by apply keeps_mount.
  - by apply keeps_unmount.
  - revert s Hs. change (kept (fs_metadata channel_new call p)). unfold fs_metadata, node_metadata, canonicalize, ask_unit, ask_meta. looks.
  - revert s Hs. change (kept (read_dir channel_new call p)). unfold read_dir, canonicalize, ask_unit, ask_meta. looks.
  - unfold local_next. destruct es as [|[n node] es]; [done|]. pose proof (keeps_metadata node s Hs) as H.
    by destruct (node_metadata call node s) as [[]].
  - revert s Hs. change (kept (export channel_new call)). unfold export. apply keeps_bind; [apply keeps_get|intros ?; apply keeps_export].
  - revert s Hs. change (kept (unlink channel_new call p expect_dir)). unfold unlink, fs_open, node_open, canonicalize, ask_unit. looks.
  - revert s Hs. change (kept (rename channel_new call src dst)).
    unfold rename, two_path_op, copy_local, fs_open, node_open, canonicalize, ask_unit, ask_meta, ask_token, ask_bytes, ask_len. looks.
  - revert s Hs. change (kept (link channel_new call src dst)).
    unfold link, two_path_op, fs_open, node_open, canonicalize, ask_unit, ask_token. looks.
  - by apply keeps_init.
Qed.

(** Whatever calls a process makes on its name space, and whatever the other sides of its channels answer, the
    root stays a directory, the entries of every directory stay in order under names that are single components in
    UTF-8, and the working directory stays a canonical path. *)
Theorem localfs_invariant w cs : fs_ok (fold_left (λ s c, perform c s) cs (fs_new w)).
Proof.
  assert (H0 : fs_ok (fs_new w)) by (split_and!; [done|apply tree_empty|exists []; apply names_nil]).
  revert H0. generalize (fs_new w). induction cs as [|c cs IH]; intros s Hs; cbn; [done|]. by apply IH, perform_ok.
Qed.
End spec.

(** ** Concrete inputs

    The other sides of the channels answer every request and keep a list of what they
    were asked. *)

Module LocalFsWitness.
Definition log := list request.
Definition channel (w : log) : Z * Z * log := (10, 11, w).
Definition answer (q : request) (w : log) : res fs_error reply * log := (Ok RUnit, w ++ [q]).
#[local] Instance checked : Profile := true.

(** "data", "f", "a" *)
Definition data : path := [100; 97; 116; 97].
Definition f : path := [102].
Definition a : path := [97].
(** "../f" *)
Definition up_f : path := [46; 46; 47; 102].

(** The entry 7 is mounted at [data], which is the working directory. *)
Definition start_ : fs log := (init_rt [7] [data] (Some data) (fs_new [])).2.

(** A path that leaves the working directory. *)
Lemma canonicalize_stack_witness : names data [data] ∧ ∃ q, canonicalize_with up_f data = Ok q ∧ names q [f] ∧
  ∃ q', canonicalize_with q [] = Ok q' ∧ path_eq q' q = Ok true.
Proof.
  assert (H : names data [data]) by (refine (bool_decide_unpack _ _); vm_compute; exact I).
  split; [exact H|]. exact (canonicalize_stack up_f data [data] H).
Defined.

(** No component leads above the root. *)
Example above_root : canonicalize_with (up_f) [] = Err (InvalidPath up_f).
Proof. vm_compute. reflexivity. Qed.

Lemma cwd_start : names (cwd start_) [data].
Proof. refine (bool_decide_unpack _ _). vm_compute. exact I. Qed.

Lemma mount_spec_witness : names (cwd start_) [data] ∧ target [data] up_f = Some [f] ∧
  ∃ root', mount up_f 8 start_ = (Ok (), MkFs root' (cwd start_) (world start_)) ∧
    kind_at root' [f] = Some (KRemote 8) ∧ kind_at root' [data] = Some (KRemote 7).
Proof.
  assert (Ht : target [data] up_f = Some [f]) by (vm_compute; reflexivity).
  split; [exact cwd_start|]. split; [exact Ht|].
  destruct (mount_spec start_ up_f 8 [data] [f] cwd_start Ht) as (q & out & root' & Hm & _ & _ & _ & H).
  destruct H as [-> H]; [|vm_compute; reflexivity|].
  { intros ([|x [|y pre]] & n & rest & r & He & Hk); [done|by injection He|by injection He]. }
  exists root'. split; [exact Hm|]. by rewrite !H.
Defined.

Lemma unmount_spec_witness : names (cwd start_) [data] ∧
  target [data] [47; 100; 97; 116; 97] = Some [data] ∧ ∃ root', unmount [47; 100; 97; 116; 97] false start_ =
    (Ok (), MkFs root' (cwd start_) (world start_)) ∧ kind_at root' [data] = None.
Proof.
  assert (Ht : target [data] [47; 100; 97; 116; 97] = Some [data]) by (vm_compute; reflexivity).
  assert (Htr : tree (root start_)).
  { vm_compute. constructor; [by repeat constructor|]. intros n child. cbn. case_bool_decide as Hn; [|done].
    intros [= <-]. subst n. split; [refine (bool_decide_unpack _ _); vm_compute; exact I|constructor]. }
  split; [exact cwd_start|]. split; [exact Ht|].
  destruct (unmount_spec start_ [47; 100; 97; 116; 97] false [data] [data] cwd_start Htr Ht)
    as (out & root' & q & Hu & _ & _ & _ & _ & _ & H).
  destruct (H (KRemote 7)) as [-> Hks]; [done|vm_compute; reflexivity|done|]. exists root'. split; [exact Hu|]. by rewrite Hks.
Defined.

Lemma open_routes_witness : names (cwd start_) [data] ∧ target [data] f = Some [data; f] ∧
  ∃ q, names q [f] ∧ fs_open answer f READ 3 start_ = ask_unit answer (EntryOpen 7 q READ 3) start_.
Proof.
  assert (Ht : target [data] f = Some [data; f]) by (vm_compute; reflexivity).
  split; [exact cwd_start|]. split; [exact Ht|].
  exact (proj1 (open_routes answer start_ f READ 3 [data] [data; f] cwd_start Ht) [data] [f] 7 eq_refl eq_refl).
Defined.

(** [unlink] makes the path canonical and then opens its parent, which is made canonical once more, from the working
    directory: the directory [data] of the remote entry is opened instead of its root. *)
Example unlink_twice : world (unlink channel answer f false start_).2 = [EntryOpen 7 data 3 11; DirUnlink 10 f false].
Proof. vm_compute. reflexivity. Qed.

(** The working directory may be one that does not exist. *)
Example chdir_nowhere : let s := fs_new ([] : log) in
  (chdir a s).1 = Ok () ∧ (fs_metadata channel answer [] (chdir a s).2).1 = Err NotFound.
Proof. vm_compute. split; reflexivity. Qed.
End LocalFsWitness.
