(* ===== verification/MemFs.v ===== *)
(** * Directories in memory and their servers ([h2o_fs/src/mem], [dir], [rpc.rs])

    A server of a file system holds entries: directories that never change ([MemDir]),
    directories that do ([MemDirMut]), files and nodes of other protocols. The first are
    values; the others are shared and locked while they are changed, so they are objects
    of a store and entries name them. Opening an entry starts a task that serves a
    connection; the store has the connections with what they serve and the options they
    were opened with. One request is one step. The errors, the metadata and the maps in
    order are those of [LocalFs]. *)

From S2P Require Import Base Slices Path LocalFs.
Local Open Scope Z_scope.

(** ** Options and permissions *)

Definition CREATE : Z := 8.
Definition EXECUTE : Z := 64.
Definition EXPECT_FILE : Z := 128.
Definition EXPECT_DIR : Z := 256.
Definition EXPECT_RPC : Z := 512.
Definition PERM_READ : Z := 1.
Definition PERM_WRITE : Z := 2.
Definition PERM_EXECUTE : Z := 4.

Definition intersects (a b : Z) : bool := negb (Z.land a b =? 0).
Definition contains (a b : Z) : bool := Z.land a b =? b.

(** [OpenOptions::require]. *)
Definition require (options : Z) : Z :=
  let ret := 0 in
  let ret := if contains options READ then Z.lor ret PERM_READ else ret in
  let ret := if contains options WRITE then Z.lor ret PERM_WRITE else ret in
  if contains options EXECUTE then Z.lor ret PERM_EXECUTE else ret.

(** ** Entries *)

(** [Arsc<dyn Entry>]. *)
Inductive entry :=
  | MemDir (entries : list (path * entry)) (perm : Z)
  | Shared (id : nat).

Inductive object :=
  | MemDirMut (entries : list (path * entry)) (perm : Z) (dpath : path) (file_inserter : nat)
  | MemFile (phys : Z) (perm : Z) (locked : bool)
  | RpcNodeObj.

(** A connection: what it serves, its options, and the handle in [EventTokens] if it has one. *)
Record conn := MkConn { serves : entry; options : Z; token : option Z }.

Record store := MkStore {
  objects : list object;
  conns : gmap Z conn;                (* by the handle of the server's end *)
  tokens : gmap Z (nat * Z);          (* [EventTokens] *)
  events : list (Z * Z);              (* the events that were sent *)
}.

Definition MAX_NAME : Z := 255.
Definition ADD : Z := 1.
Definition REMOVE : Z := 2.

Section mem.
Context `{P : Profile}.
(** [Phys::len], and the function that makes new files. *)
Context (phys_len : Z → Z) (inserter : nat → path → res fs_error object).

Abbreviation srv := (st store fs_error).

Definition set_objects (os : list object) : srv () := modify (λ s, MkStore os (conns s) (tokens s) (events s)).
Definition load (id : nat) : srv object := s ← get; lift (unwrap (objects s !! id)).
Definition store_at (id : nat) (o : object) : srv () := s ← get; set_objects (<[id := o]> (objects s)).
Definition alloc (o : object) : srv entry := s ← get; _ ← set_objects (objects s ++ [o]); mret (Shared (length (objects s))).
Definition send_event (c flags : Z) : srv () := modify (λ s, MkStore (objects s) (conns s) (tokens s) (events s ++ [(c, flags)])).

(** [spawner.spawn(task)]: the task serves the connection from now on. *)
Definition spawn (c : Z) (e : entry) (opts : Z) : srv () :=
  modify (λ s, MkStore (objects s) (<[c := MkConn e opts None]> (conns s)) (tokens s) (events s)).

Definition set_conn (c : Z) (k : conn) : srv () := modify (λ s, MkStore (objects s) (<[c := k]> (conns s)) (tokens s) (events s)).
Definition set_tokens (t : gmap Z (nat * Z)) : srv () := modify (λ s, MkStore (objects s) (conns s) t (events s)).

(** [Entry::metadata]. *)
Definition metadata (e : entry) : srv Metadata :=
  match e with
  | MemDir es perm => mret (MkMetadata Directory perm (Z.of_nat (length es)))
  | Shared id =>
      o ← load id;
      mret (match o with
            | MemDirMut es perm _ _ => MkMetadata Directory perm (Z.of_nat (length es))
            | MemFile phys perm _ => MkMetadata File perm (phys_len phys)
            | RpcNodeObj => MkMetadata RpcNode (Z.lor PERM_READ PERM_WRITE) 0
            end)
  end.

(** [MemDir::get] and [MemDirMut::get]. *)
Definition dir_get (name : path) (es : list (path * entry)) : res fs_error entry :=
  if Z.of_nat (length name) >? MAX_NAME then Err (InvalidNameLength (Z.of_nat (length name)))
  else of_option NotFound (entry_get name es).

Definition dir_mut (id : nat) : srv (list (path * entry) * Z * path * nat) :=
  o ← load id;
  match o with MemDirMut es perm p f => mret (es, perm, p, f) | _ => lift Panic end.

Definition dir_get_or_insert (id : nat) (name : path) (opts : Z) (next : path) : srv (entry * bool) :=
  if Z.of_nat (length name) >? MAX_NAME then lift (Err (InvalidNameLength (Z.of_nat (length name))))
  else
    '(es, perm, p, f) ← dir_mut id;
    match entry_get name es with
    | Some ent => if contains opts CREATE_NEW then lift (Err Exists) else mret (ent, false)
    | None =>
        empty ← lift (lift_path (path_eq next []));
        o ← (if negb empty then lift (inserter f name)
             else q ← lift (lift_path (join p name)); mret (MemDirMut [] (require opts) q f));
        ent ← alloc o;
        _ ← store_at id (MemDirMut (entry_insert name ent es) perm p f);
        mret (ent, true)
    end.

Definition dir_insert (id : nat) (name : path) (ent : entry) : srv () :=
  '(es, perm, p, f) ← dir_mut id;
  match entry_get name es with
  | None => store_at id (MemDirMut (entry_insert name ent es) perm p f)
  | Some _ => lift (Err Exists)
  end.

Definition dir_remove (id : nat) (name : path) : srv entry :=
  '(es, perm, p, f) ← dir_mut id;
  match entry_get name es with
  | Some ent => _ ← store_at id (MemDirMut (entry_remove name es) perm p f); mret ent
  | None => lift (Err NotFound)
  end.

(** ** Opening *)

(** [path.components().next()]. *)
Definition first_component (p : path) : res fs_error (option Component) :=
  c ← lift_path (components p);
  '(x, _) ← lift_path (next c);
  Ok x.

(** The directory itself, in the three cases of the options. *)
Definition open_dir (e : entry) (perm opts c : Z) (create_checked : bool) : srv bool :=
  if intersects opts (Z.lor EXPECT_FILE EXPECT_RPC) then lift (Err (InvalidType Directory))
  else if create_checked && contains opts CREATE_NEW then lift (Err Exists)
  else if negb (contains perm (require opts)) then lift (Err (PermissionDenied (Z.ldiff (require opts) perm)))
  else _ ← spawn c e opts; mret false.

Definition creates (opts : Z) : bool := intersects opts (Z.lor CREATE CREATE_NEW).

(** [MemFile::open]. *)
Definition open_file (id : nat) (perm : Z) (locked : bool) (p : path) (opts c : Z) : srv bool :=
  empty ← lift (lift_path (path_eq p []));
  if negb empty || intersects opts (Z.lor EXPECT_DIR EXPECT_RPC) then lift (Err (InvalidType File))
  else if locked then lift (Err WouldBlock)
  else if negb (contains perm (require opts)) then lift (Err (PermissionDenied (Z.ldiff (require opts) perm)))
  else _ ← spawn c (Shared id) opts; mret false.

(** [RpcNode::open]. *)
Definition open_rpc (id : nat) (p : path) (opts c : Z) : srv bool :=
  if negb (Z.ldiff opts EXPECT_RPC =? Z.lor READ WRITE) then lift (Err (PermissionDenied (require opts)))
  else
    empty ← lift (lift_path (path_eq p []));
    if negb empty then lift (Err (InvalidPath p))
    else _ ← spawn c (Shared id) opts; mret false.

(** [MemDir::open], with [Entry::open] of what it has. *)
Definition memdir_open (open : entry → path → Z → Z → srv bool) (es : list (path * entry)) (perm : Z) (p : path) (opts c : Z) : srv bool :=
  if creates opts then lift (Err (PermissionDenied PERM_WRITE))
  else
    x ← lift (first_component p);
    match x with
    | Some (Normal name) =>
        name ← lift (of_option (InvalidPath p) (to_str name));
        rest ← lift (lift_path (strip_prefix p name));
        rest ← lift (unwrap rest);
        ent ← lift (dir_get name es);
        open ent rest opts c
    | Some _ => lift (Err (InvalidPath p))
    | None => open_dir (MemDir es perm) perm opts c false
    end.

(** [MemDirMut::open]. *)
Definition memdirmut_open (open : entry → path → Z → Z → srv bool) (id : nat) (es : list (path * entry)) (perm : Z)
    (p : path) (opts c : Z) : srv bool :=
  x ← lift (first_component p);
  match x with
  | Some (Normal name) =>
      name ← lift (of_option (InvalidPath p) (to_str name));
      rest ← lift (lift_path (strip_prefix p name));
      rest ← lift (unwrap rest);
      '(ent, created) ← (if negb (creates opts) then ent ← lift (dir_get name es); mret (ent, false)
                         else dir_get_or_insert id name opts rest);
      res ← open ent rest opts c;
      mret (res || created)
  | Some _ => lift (Err (InvalidPath p))
  | None => open_dir (Shared id) perm opts c true
  end.

(** [Entry::open]. Each call of itself has one component less. *)
Fixpoint open_loop (fuel : nat) (e : entry) (p : path) (opts c : Z) : srv bool :=
  match fuel with
  | O => lift Panic
  | S fuel =>
      match e with
      | MemDir es perm => memdir_open (open_loop fuel) es perm p opts c
      | Shared id =>
          o ← load id;
          match o with
          | MemDirMut es perm _ _ => memdirmut_open (open_loop fuel) id es perm p opts c
          | MemFile _ perm locked => open_file id perm locked p opts c
          | RpcNodeObj => open_rpc id p opts c
          end
      end
  end.

Definition entry_open (e : entry) (p : path) (opts c : Z) : srv bool := open_loop (length p + 3) e p opts c.

(** ** Operations of directories *)

(** [entries.range(last..).nth(1)] and [entries.iter().next()]. *)
Definition dirent_after (last : option path) (es : list (path * entry)) : option (path * entry) :=
  match last with
  | Some l => filter (λ x, bytes_cmp x.1 l ≠ Lt) es !! 1%nat
  | None => es !! 0%nat
  end.

Definition dir_entries (e : entry) : srv (list (path * entry)) :=
  match e with
  | MemDir es _ => mret es
  | Shared id => '(es, _, _, _) ← dir_mut id; mret es
  end.

Definition next_dirent (e : entry) (last : option path) : srv (path * Metadata) :=
  es ← dir_entries e;
  '(name, ent) ← lift (of_option IterEnd (dirent_after last es));
  m ← metadata ent;
  mret (name, m).

(** The test against cycles of [rename] and [link]. *)
Definition check_cycle (src_path src dst_path dst : path) : res fs_error () :=
  dst_full ← lift_path (join dst_path dst);
  src_full ← lift_path (join src_path src);
  next ← lift_path (strip_prefix dst_full src_full);
  match next with
  | Some next =>
      empty ← lift_path (path_eq next []);
      if negb empty then Err (IsAncestorOrEquals src_full dst_full) else Ok ()
  | None => Ok ()
  end.

(** [res.inspect_err(|_| drop(undo))]. *)
Definition inspect_err {A B} (m : srv A) (undo : srv B) : srv A := λ s,
  match m s with
  | (Err e, s) => match undo s with (Panic, s) => (Panic, s) | (_, s) => (Err e, s) end
  | r => r
  end.

Definition mem_rename (id : nat) (src : path) (dst_parent : nat) (dst : path) : srv () :=
  '(_, _, dp, _) ← dir_mut dst_parent;
  '(_, _, sp, _) ← dir_mut id;
  _ ← lift (check_cycle sp src dp dst);
  ent ← dir_remove id src;
  inspect_err (dir_insert dst_parent dst ent) (dir_insert id src ent).

Definition mem_link (id : nat) (src : path) (dst_parent : nat) (dst : path) : srv () :=
  '(_, _, dp, _) ← dir_mut dst_parent;
  '(es, _, sp, _) ← dir_mut id;
  _ ← lift (check_cycle sp src dp dst);
  ent ← lift (dir_get src es);
  dir_insert dst_parent dst ent.

Definition mem_unlink (id : nat) (name : path) (expect_dir : bool) : srv () :=
  '(es, perm, p, f) ← dir_mut id;
  match entry_get name es with
  | None => lift (Err NotFound)
  | Some ent =>
      m ← metadata ent;
      if expect_dir && negb (bool_decide (file_type m = Directory)) then lift (Err (InvalidType (file_type m)))
      else if bool_decide (file_type m = Directory) && (mlen m >? 0) then lift (Err DirNotEmpty)
      else store_at id (MemDirMut (entry_remove name es) perm p f)
  end.

(** ** Serving a connection *)

Inductive dir_request :=
  | CloneConnection (c : Z)
  | CloseConn
  | MetadataReq
  | NextDirent (last : option path)
  | OpenReq (p : path) (opts c : Z)
  | EventToken
  | LinkReq (src : path) (dst_parent : Z) (dst : path)
  | RenameReq (src : path) (dst_parent : Z) (dst : path)
  | UnlinkReq (name : path) (expect_dir : bool)
  | Unknown.

(** What the responder sends. [Closed] is [responder.close()], [NoReply] an unknown request. *)
Inductive dir_reply :=
  | Unit
  | Meta (m : Metadata)
  | Dirent (name : path) (m : Metadata)
  | Token (h : Z)
  | Failed (e : fs_error)
  | Closed
  | NoReply.

Definition reply_of {A} (f : A → dir_reply) (m : srv A) : srv dir_reply := λ s,
  match m s with
  | (Ok a, s) => (Ok (f a), s)
  | (Err e, s) => (Ok (Failed e), s)
  | (Panic, s) => (Panic, s)
  end.

(** The end of the loop of [handle] and [handle_mut]. *)
Definition close_conn (c : Z) (k : conn) : srv dir_reply :=
  _ ← modify (λ s, MkStore (objects s) (delete c (conns s))
                (match token k with Some h => delete h (tokens s) | None => tokens s end) (events s));
  mret Closed.

(** [handle_request]. [None] is [HandleRequest::Continue]. *)
Definition handle_request (c : Z) (k : conn) (q : dir_request) : srv (option dir_reply) :=
  match q with
  | CloneConnection c' => λ s,
      match entry_open (serves k) [] (options k) c' s with
      | (Ok _, s) => (Ok (Some Unit), s)
      | (Err _, s) => (r ← close_conn c k; mret (Some r)) s
      | (Panic, s) => (Panic, s)
      end
  | CloseConn => r ← close_conn c k; mret (Some r)
  | MetadataReq => r ← reply_of Meta (metadata (serves k)); mret (Some r)
  | NextDirent last =>
      r ← (if contains (options k) READ then reply_of (λ x, Dirent x.1 x.2) (next_dirent (serves k) last)
           else mret (Failed (PermissionDenied PERM_READ)));
      mret (Some r)
  | OpenReq p opts c' =>
      r ← reply_of (λ _, Unit) (create ← entry_open (serves k) p opts c';
                                if create : bool then send_event c ADD else mret ());
      mret (Some r)
  | _ => mret None
  end.

(** [EventTokens::take_if] with the condition of the two requests. *)
Definition take_writable (h : Z) : srv (option nat) :=
  s ← get;
  match tokens s !! h with
  | Some (id, opts) => if contains opts WRITE then _ ← set_tokens (delete h (tokens s)); mret (Some id) else mret None
  | None => mret None
  end.

Definition denied : dir_reply := Failed (PermissionDenied PERM_WRITE).

(** [handle_request_mut] for the directory [id]. *)
Definition handle_request_mut (c : Z) (k : conn) (id : nat) (q : dir_request) : srv (option dir_reply) :=
  r ← handle_request c k q;
  match r with
  | Some r => mret (Some r)
  | None =>
      match q with
      | EventToken =>
          if negb (contains (options k) WRITE) then mret (Some denied)
          else
            _ ← set_conn c (MkConn (serves k) (options k) (Some c));
            s ← get;
            _ ← set_tokens (<[c := (id, options k)]> (tokens s));
            mret (Some (Token c))
      | LinkReq src dst_parent dst =>
          if contains (options k) WRITE then
            d ← take_writable dst_parent;
            match d with
            | Some d => r ← reply_of (λ _, Unit) (_ ← mem_link id src d dst; send_event dst_parent ADD); mret (Some r)
            | None => mret (Some denied)
            end
          else mret (Some denied)
      | RenameReq src dst_parent dst =>
          if contains (options k) WRITE then
            d ← take_writable dst_parent;
            match d with
            | Some d =>
                r ← reply_of (λ _, Unit) (_ ← mem_rename id src d dst; _ ← send_event c REMOVE; send_event dst_parent ADD);
                mret (Some r)
            | None => mret (Some denied)
            end
          else mret (Some denied)
      | UnlinkReq name expect_dir =>
          if contains (options k) WRITE then
            r ← reply_of (λ _, Unit) (_ ← mem_unlink id name expect_dir; send_event c REMOVE);
            mret (Some r)
          else mret (Some denied)
      | _ => mret None
      end
  end.

(** One request on the connection [c]: [handle] for a directory that does not change,
    [handle_mut] for one that does. Files and nodes have other protocols. *)
Definition serve (c : Z) (q : dir_request) : srv dir_reply :=
  s ← get;
  match conns s !! c with
  | None => mret NoReply
  | Some k =>
      r ← (match serves k with
           | MemDir _ _ => handle_request c k q
           | Shared id =>
               o ← load id;
               match o with MemDirMut _ _ _ _ => handle_request_mut c k id q | _ => mret None end
           end);
      mret (default NoReply r)
  end.
End mem.

(** ** The iterator of a client ([dir::sync::RemoteIter]) *)

Record RemoteIter := MkIter { ilast : option path; istop : bool }.

(** The reply of [DirectorySyncClient::next_dirent], or an error of the transport. *)
Inductive dirent_reply := Transport (e : path) | Answer (r : res fs_error (path * Metadata)).

Definition remote_next {S} (ask : option path → S → dirent_reply * S) (it : RemoteIter) (s : S)
    : option (res fs_error (path * Metadata)) * RemoteIter * S :=
  if istop it then (None, it, s)
  else
    let '(r, s) := ask (ilast it) s in
    match r with
    | Answer (Err IterEnd) => (None, MkIter None false, s)
    | Answer (Ok item) => (Some (Ok item), MkIter (Some item.1) false, s)
    | Answer r => (Some r, MkIter None false, s)
    | Transport e => (Some (Err (RpcError e)), MkIter None true, s)
    end.
