(* ===== verification/MemFsSpec.v ===== *)
(** * What the servers of directories in memory promise

    Whatever is asked on whatever connection, no connection has options its entry does not
    permit, and no request makes the server panic. Then: what a listing by a client shows,
    and what renaming, linking and unlinking change. *)

From Stdlib Require Import Sorting.Sorted.
From S2P Require Import Base Slices Path PathFacts PathSpec PathJoin LocalFs LocalFsTree LocalFsSpec MemFs.
Local Open Scope Z_scope.

(** ** Well-formed stores *)

(** Keys are in order, and the objects an entry names exist. *)
Inductive entry_ok (n : nat) : entry → Prop :=
  | ok_shared id : (id < n)%nat → entry_ok n (Shared id)
  | ok_dir es perm : ordered es.*1 → (∀ name e, entry_get name es = Some e → entry_ok n e) → entry_ok n (MemDir es perm).

Definition entries_ok (n : nat) (es : list (path * entry)) : Prop :=
  ordered es.*1 ∧ ∀ name e, entry_get name es = Some e → entry_ok n e.

Definition object_ok (n : nat) (o : object) : Prop := match o with MemDirMut es _ _ _ => entries_ok n es | _ => True end.

Definition obj_perm (o : object) : Z :=
  match o with MemDirMut _ p _ _ => p | MemFile _ p _ => p | RpcNodeObj => Z.lor PERM_READ PERM_WRITE end.
Definition perm_of (os : list object) (e : entry) : option Z :=
  match e with MemDir _ p => Some p | Shared id => obj_perm <$> os !! id end.

(** The options are within the permissions of the entry. *)
Definition permitted (os : list object) (e : entry) (opts : Z) : Prop :=
  ∃ p, perm_of os e = Some p ∧ contains p (require opts) = true.

Definition is_dir_mut (o : object) : Prop := match o with MemDirMut _ _ _ _ => True | _ => False end.

Record store_ok (s : store) : Prop := {
  so_objects : ∀ id o, objects s !! id = Some o → object_ok (length (objects s)) o;
  so_conns : ∀ c k, conns s !! c = Some k → entry_ok (length (objects s)) (serves k) ∧ permitted (objects s) (serves k) (options k);
  so_tokens : ∀ h id opts, tokens s !! h = Some (id, opts) →
    (∃ o, objects s !! id = Some o ∧ is_dir_mut o) ∧ permitted (objects s) (Shared id) opts;
}.

(** Objects stay what they are and keep their permissions; only the entries of a directory change. *)
Definition same_object (o o' : object) : Prop :=
  match o, o' with
  | MemDirMut _ p q f, MemDirMut _ p' q' f' => p = p' ∧ q = q' ∧ f = f'
  | MemFile h p _, MemFile h' p' _ => h = h' ∧ p = p'
  | RpcNodeObj, RpcNodeObj => True
  | _, _ => False
  end.
Definition extends (os os' : list object) : Prop :=
  ∀ id o, os !! id = Some o → ∃ o', os' !! id = Some o' ∧ same_object o o'.

Lemma same_refl o : same_object o o.
Proof. by destruct o. Qed.
#[export] Instance extends_pre : PreOrder extends.
Proof.
  split.
  - intros os id o H. exists o. split; [done|apply same_refl].
  - intros os1 os2 os3 H1 H2 id o H. destruct (H1 _ _ H) as (o2 & Ho2 & Hs2), (H2 _ _ Ho2) as (o3 & Ho3 & Hs3).
    exists o3. split; [done|]. destruct o, o2, o3; naive_solver.
Qed.

Lemma extends_length os os' : extends os os' → (length os ≤ length os')%nat.
Proof.
  intros H. destruct (decide (length os ≤ length os')%nat) as [|Hn]; [done|]. destruct (lookup_lt_is_Some_2 os (length os')) as [o Ho]; [lia|].
  destruct (H _ _ Ho) as (o' & Ho' & _). apply lookup_lt_Some in Ho'. lia.
Qed.

Lemma entry_ok_mono n m e : (n ≤ m)%nat → entry_ok n e → entry_ok m e.
Proof. intros Hnm. induction 1 as [id H|es p Ho _ IH]; constructor; [lia|done|done]. Qed.
Lemma entries_ok_mono n m es : (n ≤ m)%nat → entries_ok n es → entries_ok m es.
Proof. intros Hnm [Ho He]. split; [done|]. intros name e H. eapply entry_ok_mono; [exact Hnm|by eapply He]. Qed.
Lemma object_ok_mono n m o : (n ≤ m)%nat → object_ok n o → object_ok m o.
Proof. destruct o; [apply entries_ok_mono|done|done]. Qed.

Lemma permitted_extends os os' e opts : extends os os' → permitted os e opts → permitted os' e opts.
Proof.
  intros Hx (p & Hp & Hc). exists p. split; [|done]. destruct e as [|id]; [done|]. cbn in *.
  destruct (os !! id) as [o|] eqn:Ho; [|done]. destruct (Hx _ _ Ho) as (o' & -> & Hs). destruct o, o'; naive_solver.
Qed.

(** Stores with other objects that extend those there were. *)
Lemma store_ok_objects s os : store_ok s → extends (objects s) os → (∀ id o, os !! id = Some o → object_ok (length os) o) →
  store_ok (MkStore os (conns s) (tokens s) (events s)).
Proof.
  intros [H1 H2 H3] Hx Ho. pose proof (extends_length _ _ Hx) as Hl. split; cbn; [done| |].
  - intros c k Hk. destruct (H2 c k Hk). split; [by eapply entry_ok_mono|by eapply permitted_extends].
  - intros h id opts Ht. destruct (H3 _ _ _ Ht) as ((o & Hid & Hd) & Hp). split; [|by eapply permitted_extends].
    destruct (Hx _ _ Hid) as (o' & Ho' & Hs). exists o'. split; [done|]. by destruct o, o'.
Qed.

(** ** Computations that keep stores well formed and do not panic *)

Definition good (s s' : store) : Prop := store_ok s' ∧ extends (objects s) (objects s').
Definition safe {A} (m : st store fs_error A) (Q : A → store → Prop) (s : store) : Prop :=
  match m s with
  | (Ok a, s') => good s s' ∧ Q a s'
  | (Err _, s') => good s s'
  | (Panic, _) => False
  end.

Lemma good_refl s : store_ok s → good s s.
Proof. by split. Qed.
Lemma good_trans s1 s2 s3 : good s1 s2 → good s2 s3 → good s1 s3.
Proof. intros [_ H1] [H2 H3]. split; [done|]. by etrans. Qed.

Lemma safe_ret {A} (a : A) (Q : A → store → Prop) s : store_ok s → Q a s → safe (mret a) Q s.
Proof. intros Hs HQ. split; [by apply good_refl|done]. Qed.
Lemma safe_ok {A} (a : A) (Q : A → store → Prop) s : store_ok s → Q a s → safe (lift (Ok a)) Q s.
Proof. intros Hs HQ. split; [by apply good_refl|done]. Qed.
Lemma safe_err {A} e (Q : A → store → Prop) s : store_ok s → safe (lift (Err e)) Q s.
Proof. intros Hs. by apply good_refl. Qed.
Lemma safe_seq {A B} (m : st store fs_error A) (k : A → st store fs_error B) Q R s :
  safe m Q s → (∀ a s', good s s' → Q a s' → safe (k a) R s') → safe (m ≫= k) R s.
Proof.
  unfold safe. intros Hm Hk. destruct (m s) as [[a|e|] s'] eqn:Hms; [|by erewrite st_bind_err by exact Hms|done].
  erewrite st_bind_ok by exact Hms. destruct Hm as [Hg HQ]. specialize (Hk a s' Hg HQ). unfold safe in Hk.
  destruct (k a s') as [[b|e|] s'']; [|by eapply good_trans|done]. destruct Hk as [Hg' HR]. split; [by eapply good_trans|done].
Qed.
Lemma safe_weaken {A} (m : st store fs_error A) (Q R : A → store → Prop) s : (∀ a s', Q a s' → R a s') → safe m Q s → safe m R s.
Proof. unfold safe. intros H. destruct (m s) as [[] ?]; naive_solver. Qed.
Lemma safe_get {B} (k : store → st store fs_error B) R s : safe (k s) R s → safe (get ≫= k) R s.
Proof. unfold safe. by rewrite st_get_bind. Qed.
Lemma safe_result {A} (r : res fs_error A) (Q : A → store → Prop) s : store_ok s → r ≠ Panic → (∀ a, r = Ok a → Q a s) → safe (lift r) Q s.
Proof. intros Hs Hr HQ. destruct r; [|by apply good_refl|done]. split; [by apply good_refl|by apply HQ]. Qed.
Lemma safe_modify f (Q : () → store → Prop) s : good s (f s) → Q () (f s) → safe (modify f) Q s.
Proof. done. Qed.

Section safety.
Context `{P : Profile} (phys_len : Z → Z) (inserter : nat → path → res fs_error object).
(** A function that makes new files gives an object of its own: it names no other, and is no full directory. *)
Context (inserter_fresh : ∀ f n o, inserter f n = Ok o → match o with MemDirMut es _ _ _ => es = [] | _ => True end).
Context (inserter_returns : ∀ f n, inserter f n ≠ Panic).

Lemma lift_path_ok {A} (a : A) : lift_path (Ok a) = Ok a.
Proof. done. Qed.

Lemma entries_ok_insert n name e es : entries_ok n es → entry_ok n e → entries_ok n (entry_insert name e es).
Proof.
  intros [Ho He] Hn. split; [by apply ordered_insert|]. intros m x. rewrite get_insert.
  case_bool_decide; [by intros [= <-]|apply He].
Qed.
Lemma entries_ok_remove n name es : entries_ok n es → entries_ok n (entry_remove name es).
Proof.
  intros [Ho He]. split; [by apply ordered_remove|]. intros m x. rewrite get_remove by done.
  case_bool_decide; [done|apply He].
Qed.

Lemma extends_insert os id o o' : os !! id = Some o → same_object o o' → extends os (<[id := o']> os).
Proof.
  intros Ho Hs i x Hi. destruct (decide (i = id)) as [->|Hne].
  - exists o'. rewrite list_lookup_insert_eq by (by eapply lookup_lt_Some). by simplify_eq.
  - exists x. rewrite list_lookup_insert_ne by done. split; [done|apply same_refl].
Qed.
Lemma extends_app os l : extends os (os ++ l).
Proof. intros i x Hi. exists x. split; [by apply lookup_app_l_Some|apply same_refl]. Qed.

Lemma safe_load id s : store_ok s → (id < length (objects s))%nat →
  safe (load id) (λ o s', s' = s ∧ objects s !! id = Some o) s.
Proof.
  intros Hs [o Ho]%lookup_lt_is_Some_2. unfold load. apply safe_get. rewrite Ho. by apply safe_ok.
Qed.

Lemma safe_store id o o' s : store_ok s → objects s !! id = Some o → same_object o o' →
  object_ok (length (objects s)) o' →
  safe (store_at id o') (λ _ s', s' = MkStore (<[id := o']> (objects s)) (conns s) (tokens s) (events s)) s.
Proof.
  intros Hs Ho Hsame Hok. unfold store_at. apply safe_get. apply safe_modify; [|done].
  pose proof (extends_insert _ _ _ _ Ho Hsame) as Hx. split; [|done]. apply store_ok_objects; [done|done|].
  rewrite length_insert. intros i x. destruct (decide (i = id)) as [->|Hne].
  - rewrite list_lookup_insert_eq by (by eapply lookup_lt_Some). by intros [= <-].
  - rewrite list_lookup_insert_ne by done. apply (so_objects s Hs).
Qed.

Lemma safe_alloc o s : store_ok s → object_ok (length (objects s)) o →
  safe (alloc o) (λ e s', e = Shared (length (objects s)) ∧ s' = MkStore (objects s ++ [o]) (conns s) (tokens s) (events s)) s.
Proof.
  intros Hs Hok. unfold alloc. apply safe_get.
  apply (safe_seq _ _ (λ _ s', s' = MkStore (objects s ++ [o]) (conns s) (tokens s) (events s))); [apply safe_modify; [|done]|].
  - split; [|apply extends_app]. apply store_ok_objects; [done|apply extends_app|].
    rewrite length_app. cbn. intros i x [Hi | [_ Hi]]%lookup_app_Some.
    + eapply object_ok_mono; [|by eapply (so_objects s Hs)]. lia.
    + apply list_lookup_singleton_Some in Hi as [_ <-]. eapply object_ok_mono; [|done]. lia.
  - intros [] s' [Hg _] ->. by apply safe_ret.
Qed.

Lemma safe_event c f s : store_ok s → safe (send_event c f) (λ _ _, True) s.
Proof. intros Hs. apply safe_modify; [|done]. split; [|done]. destruct Hs. by split. Qed.

Lemma safe_spawn c e opts s : store_ok s → entry_ok (length (objects s)) e → permitted (objects s) e opts →
  safe (spawn c e opts) (λ _ _, True) s.
Proof.
  intros [H1 H2 H3] He Hp. apply safe_modify; [|done]. split; [|done]. split; cbn; [done| |done].
  intros c' k. destruct (decide (c = c')) as [->|]; [rewrite lookup_insert_eq by done; by intros [= <-]|].
  rewrite lookup_insert_ne by done. apply H2.
Qed.

Lemma safe_metadata e s : store_ok s → entry_ok (length (objects s)) e → safe (metadata phys_len e) (λ _ s', s' = s) s.
Proof.
  intros Hs He. destruct e as [es p|id]; [by apply safe_ret|]. inversion He; subst. cbn [metadata].
  eapply safe_seq; [by apply safe_load|]. intros o s' _ [-> _]. by apply safe_ret.
Qed.

Lemma safe_dir_mut id o s : store_ok s → objects s !! id = Some o → is_dir_mut o →
  safe (dir_mut id) (λ '(es, perm, p, f) s', s' = s ∧ o = MemDirMut es perm p f ∧ entries_ok (length (objects s)) es) s.
Proof.
  intros Hs Ho Hd. unfold dir_mut. eapply safe_seq; [apply safe_load; [done|by eapply lookup_lt_Some]|].
  intros x s' _ [-> Hx]. assert (x = o) as -> by congruence. destruct o as [es perm p f| |]; try done.
  apply safe_ret; [done|]. split_and!; [done|done|]. exact (so_objects s Hs _ _ Ho).
Qed.

Lemma entries_get n es name e : entries_ok n es → entry_get name es = Some e → entry_ok n e.
Proof. intros [_ H]. apply H. Qed.

Lemma safe_dir_get_or_insert id o name opts nxt s : store_ok s → objects s !! id = Some o → is_dir_mut o →
  safe (dir_get_or_insert inserter id name opts nxt) (λ '(e, _) s', entry_ok (length (objects s')) e) s.
Proof.
  intros Hs Ho Hd. unfold dir_get_or_insert. case_match; [by apply safe_err|].
  eapply safe_seq; [by apply (safe_dir_mut id o)|]. intros [[[es perm] p] f] s' _ (-> & -> & Hes).
  destruct (entry_get name es) as [ent|] eqn:Hg.
  { case_match; [by apply safe_err|]. apply safe_ret; [done|]. by eapply entries_get. }
  rewrite path_eq_ok. cbn [lift_path]. eapply safe_seq; [by apply (safe_ok _ (λ _ s', s' = s))|]. intros empty s' _ ->.
  apply (safe_seq _ _ (λ o s', s' = s ∧ object_ok (length (objects s)) o)).
  { destruct empty; cbn [negb].
    - destruct (join p name) as [q|[]|] eqn:Hj; [|by unfold join in Hj; rewrite push_ok in Hj]. cbn [lift_path].
      eapply safe_seq; [by apply (safe_ok _ (λ _ s', s' = s))|]. intros q' s' _ ->. apply safe_ret; [done|]. split; [done|].
      split; [constructor|done].
    - apply safe_result; [done|apply inserter_returns|]. intros x Hx. split; [done|]. specialize (inserter_fresh _ _ _ Hx).
      destruct x; [|done..]. subst. split; [constructor|done]. }
  intros x s' _ [-> Hx]. eapply safe_seq; [by apply safe_alloc|]. intros ent s' [Hs' _] [-> ->].
  eapply safe_seq; [eapply (safe_store id (MemDirMut es perm p f)); [done|cbn; by apply lookup_app_l_Some|done|]|].
  { cbn. rewrite length_app. cbn. apply entries_ok_insert; [eapply entries_ok_mono; [|done]; lia|]. constructor. lia. }
  intros [] s' [Hs'' _] ->. apply safe_ret; [done|]. constructor. cbn. rewrite length_insert, length_app. cbn. lia.
Qed.

Lemma safe_dir_insert id o name ent s : store_ok s → objects s !! id = Some o → is_dir_mut o → entry_ok (length (objects s)) ent →
  safe (dir_insert id name ent) (λ _ _, True) s.
Proof.
  intros Hs Ho Hd He. unfold dir_insert. eapply safe_seq; [by apply (safe_dir_mut id o)|].
  intros [[[es perm] p] f] s' _ (-> & -> & Hes). destruct (entry_get name es); [by apply safe_err|].
  eapply safe_weaken; [done|]. eapply safe_store; [done|done|done|]. by apply entries_ok_insert.
Qed.

Lemma safe_dir_remove id o name s : store_ok s → objects s !! id = Some o → is_dir_mut o →
  safe (dir_remove id name) (λ e s', entry_ok (length (objects s')) e) s.
Proof.
  intros Hs Ho Hd. unfold dir_remove. eapply safe_seq; [by apply (safe_dir_mut id o)|].
  intros [[[es perm] p] f] s' _ (-> & -> & Hes). destruct (entry_get name es) as [ent|] eqn:Hg; [|by apply safe_err].
  eapply safe_seq; [eapply safe_store; [done|done|done|by apply entries_ok_remove]|]. intros [] s' [Hs' _] ->.
  apply safe_ret; [done|]. cbn. rewrite length_insert. by eapply entries_get.
Qed.

Lemma safe_open_dir e perm opts c b s : store_ok s → entry_ok (length (objects s)) e → perm_of (objects s) e = Some perm →
  safe (open_dir e perm opts c b) (λ _ _, True) s.
Proof.
  intros Hs He Hp. unfold open_dir. do 2 (case_match; [by apply safe_err|]).
  destruct (contains perm (require opts)) eqn:Hc; cbn [negb]; [|by apply safe_err].
  eapply safe_seq; [apply safe_spawn; [done|done|by exists perm]|]. intros [] s' [? _] _. by apply safe_ret.
Qed.

Lemma safe_open_file id h perm locked p opts c s : store_ok s → objects s !! id = Some (MemFile h perm locked) →
  safe (open_file id perm locked p opts c) (λ _ _, True) s.
Proof.
  intros Hs Ho. unfold open_file. rewrite path_eq_ok. cbn [lift_path].
  eapply safe_seq; [by apply (safe_ok _ (λ _ s', s' = s))|]. intros empty s' _ ->.
  do 2 (case_match; [by apply safe_err|]). destruct (contains perm (require opts)) eqn:Hc; cbn [negb]; [|by apply safe_err].
  eapply safe_seq; [apply safe_spawn; [done|constructor; by eapply lookup_lt_Some|]|intros [] s' [? _] _; by apply safe_ret].
  exists perm. cbn. by rewrite Ho.
Qed.

(** With exactly the options to read and to write no more than these is required. *)
Lemma rpc_require opts : Z.ldiff opts EXPECT_RPC = Z.lor READ WRITE → contains (Z.lor PERM_READ PERM_WRITE) (require opts) = true.
Proof.
  intros H. unfold require. assert (contains opts EXECUTE = false) as ->; [|by repeat case_match].
  unfold contains. apply Z.eqb_neq. intros He. apply (f_equal (λ z, Z.testbit z 6)) in H, He.
  cbv beta in H, He. rewrite Z.ldiff_spec in H. rewrite Z.land_spec in He.
  change (Z.testbit EXPECT_RPC 6) with false in H. change (Z.testbit (Z.lor READ WRITE) 6) with false in H.
  change (Z.testbit EXECUTE 6) with true in He. destruct (Z.testbit opts 6); done.
Qed.

Lemma safe_open_rpc id p opts c s : store_ok s → objects s !! id = Some RpcNodeObj →
  safe (open_rpc id p opts c) (λ _ _, True) s.
Proof.
  intros Hs Ho. unfold open_rpc. destruct (Z.eqb_spec (Z.ldiff opts EXPECT_RPC) (Z.lor READ WRITE)) as [He|]; cbn [negb]; [|by apply safe_err].
  rewrite path_eq_ok. cbn [lift_path]. eapply safe_seq; [by apply (safe_ok _ (λ _ s', s' = s))|]. intros empty s' _ ->.
  case_match; [by apply safe_err|].
  eapply safe_seq; [apply safe_spawn; [done|constructor; by eapply lookup_lt_Some|]|intros [] s' [? _] _; by apply safe_ret].
  exists (Z.lor PERM_READ PERM_WRITE). cbn. rewrite Ho. split; [done|by apply rpc_require].
Qed.

Lemma first_component_ok p : first_component p = Ok (head (comps p)).
Proof.
  unfold first_component. destruct (comps_wf p) as (c & -> & Hw & Hv & _). cbn [lift_path mbind res_bind].
  destruct (next_ok c Hw) as (c' & -> & _). cbn. by rewrite Hv.
Qed.

(** The first name taken off a path. *)
Lemma strip_name p n tl : comps p = Normal n :: tl → ∃ q, strip_prefix p n = Ok (Some q) ∧ comps q = tl.
Proof.
  intros Hp. destruct (comps_elem p n) as [H1 H2]; [rewrite Hp; by left|]. destruct (name_comps n H1 H2) as [Hs Hb].
  destruct (strip_ok p n) as ([q|] & -> & Hq).
  - exists q. split; [done|]. rewrite bool_decide_eq_false_2 in Hq by (by intros ->). destruct Hq as [Hsq Hc].
    rewrite (comps_body q) by done. rewrite Hp, (comps_body n), Hb in Hc by done. by injection Hc.
  - destruct Hq. rewrite Hp, (comps_body n), Hb by done. by exists tl.
Qed.

Lemma dir_get_ok n name es : entries_ok n es →
  dir_get name es ≠ Panic ∧ ∀ e, dir_get name es = Ok e → entry_ok n e.
Proof.
  intros He. unfold dir_get. case_match; [done|]. destruct (entry_get name es) as [e|] eqn:Hg; cbn; [|done].
  split; [done|]. intros ? [= <-]. by eapply entries_get.
Qed.

(** Both kinds of directories take the first name off and go on with the rest. *)
Lemma safe_name {B} p n tl (k : path → path → st store fs_error B) R s : store_ok s → comps p = Normal n :: tl →
  (∀ q, comps q = tl → safe (k n q) R s) →
  safe (name ← lift (of_option (InvalidPath p) (to_str n)); rest ← lift (lift_path (strip_prefix p name));
        rest ← lift (unwrap rest); k name rest) R s.
Proof.
  intros Hs Hp Hk. unfold to_str. destruct (utf8 n); cbn [of_option]; [|by apply safe_seq with (λ _ _, False); [apply safe_err|]].
  destruct (strip_name p n tl Hp) as (q & Hst & Hq).
  unfold safe. rewrite (st_lift_ok _ _ _ _ eq_refl), Hst. cbn [lift_path].
  rewrite (st_lift_ok _ _ _ _ eq_refl). cbn [unwrap]. rewrite (st_lift_ok _ _ _ _ eq_refl). by apply Hk.
Qed.

Lemma safe_open_loop fuel e p opts c s : store_ok s → entry_ok (length (objects s)) e → (length (comps p) < fuel)%nat →
  safe (open_loop inserter fuel e p opts c) (λ _ _, True) s.
Proof.
  revert e p s. induction fuel as [|fuel IH]; intros e p s Hs He Hf; [lia|]. cbn [open_loop]. unfold memdir_open, memdirmut_open.
  destruct e as [es perm|id].
  - case_match; [by apply safe_err|]. unfold safe. rewrite first_component_ok, (st_lift_ok _ _ _ _ eq_refl).
    destruct (comps p) as [|[| | | |n] tl] eqn:Hp; cbn [head]; try (by apply safe_err); [by apply safe_open_dir|].
    apply (safe_name p n tl (λ name rest, ent ← lift (dir_get name es); open_loop inserter fuel ent rest opts c)); [done|done|].
    intros q Hq. inversion He as [|? ? Ho Hes]; subst. destruct (dir_get_ok _ n es (conj Ho Hes)) as [Hnp Hok].
    eapply safe_seq; [apply (safe_result _ (λ e s', entry_ok (length (objects s)) e ∧ s' = s)); [done|done|auto]|].
    intros ent s' _ [Hent ->]. apply IH; [done|done|]. cbn in Hf. lia.
  - inversion He; subst. eapply safe_seq; [by apply safe_load|]. intros o s' _ [-> Ho].
    destruct o as [es perm dp f|h perm locked|]; [|by eapply safe_open_file|by apply safe_open_rpc].
    unfold safe. rewrite first_component_ok, (st_lift_ok _ _ _ _ eq_refl).
    destruct (comps p) as [|[| | | |n] tl] eqn:Hp; cbn [head]; try (by apply safe_err).
    { apply safe_open_dir; [done|done|]. cbn. by rewrite Ho. }
    apply (safe_name p n tl (λ name rest,
      '(ent, created) ← (if negb (creates opts) then ent ← lift (dir_get name es); mret (ent, false)
                         else dir_get_or_insert inserter id name opts rest);
      r ← open_loop inserter fuel ent rest opts c; mret (r || created))); [done|done|].
    intros q Hq. apply (safe_seq _ _ (λ '(e, _) s', entry_ok (length (objects s')) e)).
    { case_match; [|by eapply safe_dir_get_or_insert]. destruct (dir_get_ok _ n es (so_objects s Hs _ _ Ho)) as [Hnp Hok].
      eapply safe_seq; [apply (safe_result _ (λ e s', entry_ok (length (objects s)) e ∧ s' = s)); [done|done|auto]|].
      intros ent s' _ [Hent ->]. by apply safe_ret. }
    intros [ent created] s' [Hs' _] Hent. eapply safe_seq; [apply IH; [done|done|cbn in Hf; rewrite Hq; lia]|].
    intros r s'' [Hs'' _] _. by apply safe_ret.
Qed.

Lemma safe_open e p opts c s : store_ok s → entry_ok (length (objects s)) e → safe (entry_open inserter e p opts c) (λ _ _, True) s.
Proof. intros Hs He. apply safe_open_loop; [done|done|]. pose proof (comps_length p). lia. Qed.

Lemma entry_get_elem name (e : entry) es : ordered es.*1 → (name, e) ∈ es → entry_get name es = Some e.
Proof.
  intros Ho%ordered_nodup. induction es as [|[m x] es IH]; [by intros ?%not_elem_of_nil|]. cbn in Ho. apply NoDup_cons in Ho as [Hm Hd].
  intros [[= -> ->] | He]%elem_of_cons; cbn; [by rewrite bool_decide_eq_true_2|].
  rewrite bool_decide_eq_false_2; [by apply IH|]. intros ->. apply Hm. apply list_elem_of_fmap. by exists (name, e).
Qed.

Lemma dirent_after_elem last es x : dirent_after last es = Some x → x ∈ es.
Proof.
  unfold dirent_after. destruct last as [l|]; [|by apply list_elem_of_lookup_2].
  intros H%list_elem_of_lookup_2. by apply list_elem_of_filter in H as [_ ?].
Qed.

(** What is a directory. *)
Definition is_dir (os : list object) (e : entry) : Prop :=
  match e with MemDir _ _ => True | Shared id => ∃ o, os !! id = Some o ∧ is_dir_mut o end.

Lemma safe_dir_entries e s : store_ok s → entry_ok (length (objects s)) e → is_dir (objects s) e →
  safe (dir_entries e) (λ es s', s' = s ∧ entries_ok (length (objects s)) es) s.
Proof.
  intros Hs He Hd. destruct e as [es perm|id]; cbn [dir_entries].
  - inversion He; subst. by apply safe_ret.
  - destruct Hd as (o & Ho & Hd). eapply safe_seq; [by apply (safe_dir_mut id o)|].
    intros [[[es perm] p] f] s' _ (-> & _ & Hes). by apply safe_ret.
Qed.

Lemma safe_next_dirent e l s : store_ok s → entry_ok (length (objects s)) e → is_dir (objects s) e →
  safe (next_dirent phys_len e l) (λ _ s', s' = s) s.
Proof.
  intros Hs He Hd. unfold next_dirent. eapply safe_seq; [by apply safe_dir_entries|]. intros es s' _ [-> Hes].
  destruct (dirent_after l es) as [[name ent]|] eqn:Hl; cbn [of_option]; [|by apply safe_seq with (λ _ _, False); [apply safe_err|]].
  eapply safe_seq; [by apply (safe_ok _ (λ x s', x = (name, ent) ∧ s' = s))|]. intros ? s' _ [-> ->].
  eapply safe_seq; [apply safe_metadata; [done|]|intros m s' _ ->; by apply safe_ret].
  eapply entries_get; [done|]. eapply entry_get_elem; [apply Hes|by eapply dirent_after_elem].
Qed.

Lemma check_cycle_ok sp src dp dst : check_cycle sp src dp dst ≠ Panic.
Proof.
  unfold check_cycle. destruct (join dp dst) as [d|[]|] eqn:Hd; [|by unfold join in Hd; rewrite push_ok in Hd].
  destruct (join sp src) as [q|[]|] eqn:Hq; [|by unfold join in Hq; rewrite push_ok in Hq]. cbn [lift_path mbind res_bind].
  destruct (strip_ok d q) as (r & -> & _). cbn [lift_path mbind res_bind]. destruct r as [r|]; [|done].
  rewrite path_eq_ok. cbn. by case_match.
Qed.

Lemma good_lookup s s' id o : good s s' → objects s !! id = Some o → is_dir_mut o → ∃ o', objects s' !! id = Some o' ∧ is_dir_mut o'.
Proof. intros [_ Hx] Ho Hd. destruct (Hx _ _ Ho) as (o' & ? & ?). exists o'. split; [done|]. by destruct o, o'. Qed.

Lemma safe_inspect {A B} (m : st store fs_error A) (undo : st store fs_error B) Q s :
  safe m Q s → (∀ s', good s s' → safe undo (λ _ _, True) s') → safe (inspect_err m undo) Q s.
Proof.
  unfold safe, inspect_err. intros Hm Hu. destruct (m s) as [[a|e|] s']; [done| |done]. specialize (Hu s' Hm).
  destruct (undo s') as [[] s'']; [destruct Hu as [Hu _]|..]; by (eapply good_trans || done).
Qed.

Lemma safe_rename id o src d od dst s : store_ok s → objects s !! id = Some o → is_dir_mut o → objects s !! d = Some od → is_dir_mut od →
  safe (mem_rename id src d dst) (λ _ _, True) s.
Proof.
  intros Hs Ho Hd Hod Hdd. unfold mem_rename. eapply safe_seq; [by apply (safe_dir_mut d od)|].
  intros [[[es1 p1] dp] f1] s' _ (-> & _ & _). eapply safe_seq; [by apply (safe_dir_mut id o)|].
  intros [[[es2 p2] sp] f2] s' _ (-> & _ & _).
  eapply safe_seq; [apply (safe_result _ (λ _ s', s' = s)); [done|apply check_cycle_ok|done]|]. intros ? s' _ ->.
  eapply safe_seq; [by apply (safe_dir_remove id o)|]. intros ent s' Hg Hent.
  destruct (good_lookup _ _ _ _ Hg Hod Hdd) as (od' & Hod' & Hdd'). pose proof (proj1 Hg) as Hs'. apply safe_inspect.
  - by eapply safe_dir_insert.
  - intros s'' Hg'. destruct (good_lookup _ _ _ _ (good_trans _ _ _ Hg Hg') Ho Hd) as (o' & Ho' & Hd').
    eapply safe_dir_insert; [apply Hg'|done|done|]. eapply entry_ok_mono; [|exact Hent]. by apply extends_length, Hg'.
Qed.

Lemma safe_link id o src d od dst s : store_ok s → objects s !! id = Some o → is_dir_mut o → objects s !! d = Some od → is_dir_mut od →
  safe (mem_link id src d dst) (λ _ _, True) s.
Proof.
  intros Hs Ho Hd Hod Hdd. unfold mem_link. eapply safe_seq; [by apply (safe_dir_mut d od)|].
  intros [[[es1 p1] dp] f1] s' _ (-> & _ & _). eapply safe_seq; [by apply (safe_dir_mut id o)|].
  intros [[[es2 p2] sp] f2] s' _ (-> & _ & Hes).
  eapply safe_seq; [apply (safe_result _ (λ _ s', s' = s)); [done|apply check_cycle_ok|done]|]. intros ? s' _ ->.
  destruct (dir_get_ok _ src es2 Hes) as [Hnp Hok].
  eapply safe_seq; [apply (safe_result _ (λ e s', entry_ok (length (objects s)) e ∧ s' = s)); [done|done|auto]|].
  intros ent s' _ [Hent ->]. by eapply safe_dir_insert.
Qed.

Lemma safe_unlink id o name b s : store_ok s → objects s !! id = Some o → is_dir_mut o →
  safe (mem_unlink phys_len id name b) (λ _ _, True) s.
Proof.
  intros Hs Ho Hd. unfold mem_unlink. eapply safe_seq; [by apply (safe_dir_mut id o)|].
  intros [[[es perm] p] f] s' _ (-> & -> & Hes). destruct (entry_get name es) as [ent|] eqn:Hg; [|by apply safe_err].
  eapply safe_seq; [apply safe_metadata; [done|by eapply entries_get]|]. intros m s' _ ->.
  do 2 (case_match; [by apply safe_err|]). eapply safe_weaken; [done|]. eapply safe_store; [done|done|done|by apply entries_ok_remove].
Qed.

(** ** Requests are answered *)

Definition answers {A} (m : st store fs_error A) (s : store) : Prop := ∃ a s', m s = (Ok a, s') ∧ good s s'.

Lemma answers_reply {A} (f : A → dir_reply) m Q s : safe m Q s → answers (reply_of f m) s.
Proof. unfold safe, answers, reply_of. destruct (m s) as [[a|e|] s']; [intros [? _]|intros ?|done]; eauto. Qed.
Lemma answers_ret {A} (a : A) s : store_ok s → answers (mret a) s.
Proof. intros Hs. exists a, s. split; [done|by apply good_refl]. Qed.
Lemma answers_bind {A B} (m : st store fs_error A) (k : A → st store fs_error B) s :
  answers m s → (∀ a s', good s s' → answers (k a) s') → answers (m ≫= k) s.
Proof.
  intros (a & s' & Hm & Hg) Hk. destruct (Hk a s' Hg) as (b & s'' & Hb & Hg'). exists b, s''.
  split; [by erewrite st_bind_ok by exact Hm|by eapply good_trans].
Qed.
Lemma answers_some (m : st store fs_error dir_reply) s : answers m s → answers (r ← m; mret (Some r)) s.
Proof. intros Hm. apply answers_bind; [done|]. intros r s' [Hs' _]. by apply answers_ret. Qed.
Lemma answers_step {A B} (m : st store fs_error A) (k : A → st store fs_error B) s a s' :
  m s = (Ok a, s') → good s s' → answers (k a) s' → answers (m ≫= k) s.
Proof.
  intros Hm Hg (b & s'' & Hb & Hg'). exists b, s''. split; [by erewrite st_bind_ok by exact Hm|by eapply good_trans].
Qed.

Lemma answers_close c k s : store_ok s → answers (close_conn c k) s.
Proof.
  intros Hs. eexists _, _. split; [reflexivity|]. split; [|done]. destruct Hs as [H1 H2 H3]. split; cbn; [done| |].
  - intros c' k'. rewrite lookup_delete_Some. intros [_ H]. by apply (H2 c').
  - intros h id opts. destruct (token k) as [h'|]; [rewrite lookup_delete_Some; intros [_ H]|intros H]; by apply (H3 h).
Qed.

Lemma answers_request c k q s : store_ok s → conns s !! c = Some k → is_dir (objects s) (serves k) →
  answers (handle_request phys_len inserter c k q) s.
Proof.
  intros Hs Hk Hd. destruct (so_conns s Hs _ _ Hk) as [He Hp]. destruct q; cbn [handle_request]; try (by apply answers_ret).
  - pose proof (safe_open (serves k) [] (options k) c0 s Hs He) as Ho. unfold safe in Ho. unfold answers.
    destruct (entry_open _ _ _ _ _ s) as [[b|e|] s']; [by destruct Ho; eauto| |done].
    destruct (answers_some _ s' (answers_close c k s' (proj1 Ho))) as (a & s'' & Ha & Hg). exists a, s''. split; [done|by eapply good_trans].
  - by apply answers_some, answers_close.
  - apply answers_some. by eapply answers_reply, safe_metadata.
  - apply answers_some. case_match; [by eapply answers_reply, safe_next_dirent|by apply answers_ret].
  - apply answers_some. apply (answers_reply _ _ (λ _ _, True)). eapply safe_seq; [by apply safe_open|]. intros b s' [Hs' _] _.
    destruct b; [by apply safe_event|by apply safe_ret].
Qed.

Lemma answers_take h s : store_ok s → ∃ d s', take_writable h s = (Ok d, s') ∧ good s s' ∧ objects s' = objects s ∧
  match d with Some d => ∃ o, objects s !! d = Some o ∧ is_dir_mut o | None => True end.
Proof.
  intros Hs. unfold take_writable. rewrite st_get_bind. destruct (tokens s !! h) as [[d opts]|] eqn:Ht.
  2:{ exists None, s. split_and!; [done|by apply good_refl|done|done]. }
  destruct (contains opts WRITE); [|exists None, s; split_and!; [done|by apply good_refl|done|done]].
  eexists (Some d), _. split; [reflexivity|]. destruct Hs as [H1 H2 H3]. split_and!; [|done|exact (proj1 (H3 h d opts Ht))].
  split; [|done]. split; cbn; [done|done|]. intros h' id o. rewrite lookup_delete_Some. intros [_ H]. by apply (H3 h').
Qed.

(** A request that takes a token goes on with the directory of the token. *)
Lemma answers_token h (m : nat → st store fs_error dir_reply) s : store_ok s →
  (∀ d o s', store_ok s' → objects s' = objects s → objects s !! d = Some o → is_dir_mut o → answers (m d) s') →
  answers (d ← take_writable h; match d with Some d => r ← m d; mret (Some r) | None => mret (Some denied) end) s.
Proof.
  intros Hs Hm. destruct (answers_take h s Hs) as (d & s' & Ht & Hg & Ho & Hd). eapply answers_step; [exact Ht|done|].
  destruct d as [d|]; [|apply answers_ret, Hg]. destruct Hd as (o & Hdo & Hdd). apply answers_some. eapply Hm; [apply Hg|done..].
Qed.

Lemma answers_request_mut c k id o q s : store_ok s → conns s !! c = Some k → serves k = Shared id →
  objects s !! id = Some o → is_dir_mut o → answers (handle_request_mut phys_len inserter c k id q) s.
Proof.
  intros Hs Hk He Ho Hd. destruct (so_conns s Hs _ _ Hk) as [Hok Hp].
  assert (Hdir : is_dir (objects s) (serves k)) by (rewrite He; by exists o).
  destruct (answers_request c k q s Hs Hk Hdir) as (r & s1 & Hr & Hg).
  unfold handle_request_mut. eapply answers_step; [exact Hr|done|]. destruct r as [r|]; [apply answers_ret, Hg|].
  destruct q; cbn [handle_request] in Hr; try (by apply answers_ret, Hg); injection Hr as <-.
  all: destruct (contains (options k) WRITE) eqn:Hw; cbn [negb]; [|by apply answers_ret].
  - eexists _, _. split; [reflexivity|]. split; [|done]. rewrite He in *. destruct Hs as [H1 H2 H3]. split; cbn; [done| |].
    + intros c' k'. destruct (decide (c = c')) as [->|]; [rewrite lookup_insert_eq; by intros [= <-]|].
      rewrite lookup_insert_ne by done. apply H2.
    + intros h i opts. destruct (decide (c = h)) as [->|]; [rewrite lookup_insert_eq; intros [= <- <-]; split; [by exists o|done]|].
      rewrite lookup_insert_ne by done. apply H3.
  - apply (answers_token _ (λ d, reply_of (λ _, Unit) (_ ← mem_link id src d dst; send_event dst_parent ADD))); [done|].
    intros d od s' Hs' Hos Hod Hdd. rewrite <- Hos in Ho, Hod. eapply (answers_reply _ _ (λ _ _, True)), safe_seq; [by eapply (safe_link id o src d od)|].
    intros ? s2 [? _] _. by apply safe_event.
  - apply (answers_token _ (λ d, reply_of (λ _, Unit) (_ ← mem_rename id src d dst; _ ← send_event c REMOVE; send_event dst_parent ADD))); [done|].
    intros d od s' Hs' Hos Hod Hdd. rewrite <- Hos in Ho, Hod. eapply (answers_reply _ _ (λ _ _, True)), safe_seq; [by eapply (safe_rename id o src d od)|].
    intros ? s2 [? _] _. eapply safe_seq; [by apply safe_event|]. intros ? s3 [? _] _. by apply safe_event.
  - apply answers_some. eapply (answers_reply _ _ (λ _ _, True)), safe_seq; [by eapply (safe_unlink id o)|]. intros ? s2 [? _] _. by apply safe_event.
Qed.

Lemma serve_answers c q s : store_ok s → answers (serve phys_len inserter c q) s.
Proof.
  intros Hs. unfold serve. eapply answers_step; [reflexivity|by apply good_refl|]. cbv beta.
  destruct (conns s !! c) as [k|] eqn:Hk; [|by apply answers_ret]. destruct (so_conns s Hs _ _ Hk) as [Hok Hp].
  apply answers_bind; [|intros r s' [? _]; by apply answers_ret]. destruct (serves k) as [es perm|id] eqn:He.
  - apply answers_request; [done|done|]. by rewrite He.
  - inversion Hok as [? Hid|]; subst. apply lookup_lt_is_Some_2 in Hid as [o Ho].
    eapply answers_step; [unfold load; rewrite st_get_bind, Ho; reflexivity|by apply good_refl|].
    destruct o eqn:Hob; [|by apply answers_ret..]. by eapply answers_request_mut.
Qed.

(** Requests one after the other, each on its connection. *)
Fixpoint session (rs : list (Z * dir_request)) : st store fs_error (list dir_reply) :=
  match rs with
  | [] => mret []
  | (c, q) :: rs => r ← serve phys_len inserter c q; l ← session rs; mret (r :: l)
  end.

Lemma session_answers rs s : store_ok s → answers (session rs) s.
Proof.
  revert s. induction rs as [|[c q] rs IH]; intros s Hs; cbn [session]; [by apply answers_ret|].
  apply answers_bind; [by apply serve_answers|]. intros r s' [Hs' _]. apply answers_bind; [by apply IH|].
  intros l s'' [? _]. by apply answers_ret.
Qed.

(** C5: Whatever requests come on whatever connections to the directories of a server, each is answered, with an error
    if need be, and the server does not panic; and at the end as on the way no connection has options that need more
    than its entry permits, and no token stands for more. *)
Theorem memfs_permissions s rs : store_ok s →
  ∃ replies s', session rs s = (Ok replies, s') ∧
    (∀ c k, conns s' !! c = Some k → permitted (objects s') (serves k) (options k)) ∧
    (∀ h id opts, tokens s' !! h = Some (id, opts) → permitted (objects s') (Shared id) opts).
Proof.
  intros Hs. destruct (session_answers rs s Hs) as (l & s' & Hl & [[H1 H2 H3] _]). exists l, s'. split_and!; [done| |].
  - intros c k Hk. by apply (H2 c).
  - intros h id opts Ht. by apply (H3 h).
Qed.

(** ** Listing a directory *)

Lemma ordered_app l r : ordered (l ++ r) → (∀ a b, a ∈ l → b ∈ r → key_lt a b) ∧ ordered r.
Proof.
  induction l as [|x l IH]; cbn; [intros Ho; split; [by intros a b ?%not_elem_of_nil|done]|].
  intros [Ho Hx]%StronglySorted_inv. destruct (IH Ho) as [H1 H2]. split; [|done]. rewrite Forall_app, !Forall_forall in Hx.
  intros a b [-> | Ha]%elem_of_cons Hb; [by apply Hx|by apply H1].
Qed.

Lemma filter_none {A} (Q : A → Prop) `{∀ x, Decision (Q x)} l : (∀ x, x ∈ l → ¬ Q x) → filter Q l = [].
Proof.
  induction l as [|x l IH]; [done|]. intros Hl. rewrite filter_cons_False by (apply Hl; by left). apply IH. intros y Hy. apply Hl. by right.
Qed.

(** The entry behind another. *)
Lemma dirent_after_ok pre l e post : ordered (pre ++ (l, e) :: post).*1 → dirent_after (Some l) (pre ++ (l, e) :: post) = head post.
Proof.
  rewrite fmap_app. cbn. intros Ho. destruct (ordered_app _ _ Ho) as [Hpre Hpost]. apply StronglySorted_inv in Hpost as [_ Hpost].
  unfold dirent_after. rewrite filter_app, (filter_none _ pre); cbn [app].
  - rewrite filter_cons_True by (cbn; by rewrite (proj2 (bytes_cmp_eq l l) eq_refl)).
    replace (filter _ post) with post; [by destruct post|]. clear -Hpost. induction post as [|[x y] post IH]; [done|].
    apply Forall_cons in Hpost as [Hx Hpost]. rewrite filter_cons_True; [by rewrite <- IH|]. cbn in *.
    unfold key_lt in Hx. by rewrite bytes_cmp_swap, Hx.
  - intros [x y] Hx Hne. apply Hne. apply (Hpre x l); [|by left]. apply list_elem_of_fmap. by exists (x, y).
Qed.

(** [next_dirent] with the last of the entries before gives the first of those behind. *)
Lemma dirent_next pre post : ordered (pre ++ post).*1 → dirent_after (fst <$> last pre) (pre ++ post) = head post.
Proof.
  destruct pre as [|[x y] pre _] using rev_ind; [by destruct post|]. rewrite last_snoc, <- app_assoc. apply dirent_after_ok.
Qed.

Definition ask_dirent (c : Z) (l : option path) (s : store) : dirent_reply * store :=
  match serve phys_len inserter c (NextDirent l) s with
  | (Ok (Dirent name m), s) => (Answer (Ok (name, m)), s)
  | (Ok (Failed e), s) => (Answer (Err e), s)
  | (_, s) => (Transport [], s)
  end.

(** The items of the iterator up to its end. *)
Fixpoint items (fuel : nat) (c : Z) (it : RemoteIter) (s : store) : option (list (res fs_error (path * Metadata)) * store) :=
  match fuel with
  | O => None
  | S fuel =>
      match remote_next (ask_dirent c) it s with
      | (None, _, s) => Some ([], s)
      | (Some x, it, s) => '(l, s) ← items fuel c it s; Some (x :: l, s)
      end
  end.

Lemma items_unfold fuel c it s : items (S fuel) c it s =
  match remote_next (ask_dirent c) it s with
  | (None, _, s) => Some ([], s)
  | (Some x, it, s) => '(l, s) ← items fuel c it s; Some (x :: l, s)
  end.
Proof. done. Qed.

Lemma entry_metadata_run e s : store_ok s → entry_ok (length (objects s)) e → ∃ m, metadata phys_len e s = (Ok m, s).
Proof.
  intros Hs He. destruct e as [es p|id]; [by eexists|]. inversion He as [? H|]; subst. apply lookup_lt_is_Some_2 in H as [o Ho].
  cbn [metadata]. erewrite st_bind_ok; [by eexists|]. unfold load. by rewrite st_get_bind, Ho.
Qed.

Lemma load_run id o s : objects s !! id = Some o → load id s = (Ok o, s).
Proof. intros Ho. unfold load. by rewrite st_get_bind, Ho. Qed.
Lemma dir_mut_run id es p q f s : objects s !! id = Some (MemDirMut es p q f) → dir_mut id s = (Ok (es, p, q, f), s).
Proof. intros Ho. unfold dir_mut. by erewrite st_bind_ok by by apply load_run. Qed.

(** The entries of a directory. *)
Definition entries_at (os : list object) (e : entry) : option (list (path * entry)) :=
  match e with
  | MemDir es _ => Some es
  | Shared id => match os !! id with Some (MemDirMut es _ _ _) => Some es | _ => None end
  end.

Lemma entries_at_ok s e es : store_ok s → entry_ok (length (objects s)) e → entries_at (objects s) e = Some es →
  entries_ok (length (objects s)) es ∧ dir_entries e s = (Ok es, s).
Proof.
  intros Hs He. destruct e as [es' p|id]; cbn [entries_at].
  - inversion He; subst. by intros [= <-].
  - destruct (objects s !! id) as [[es' p q f| |]|] eqn:Ho; try done. intros [= <-].
    split; [exact (so_objects s Hs _ _ Ho)|]. cbn [dir_entries]. by erewrite st_bind_ok by by eapply dir_mut_run.
Qed.

(** A directory answers what [next_dirent] gives. *)
Lemma serve_dirent c k l es s : conns s !! c = Some k → contains (options k) READ = true → entries_at (objects s) (serves k) = Some es →
  serve phys_len inserter c (NextDirent l) s = reply_of (λ x, Dirent x.1 x.2) (next_dirent phys_len (serves k) l) s.
Proof.
  intros Hk Hr Hes. unfold serve. rewrite st_get_bind, Hk.
  assert (Hreq : handle_request phys_len inserter c k (NextDirent l) s =
    (r ← reply_of (λ x, Dirent x.1 x.2) (next_dirent phys_len (serves k) l); mret (Some r)) s) by (cbn [handle_request]; by rewrite Hr).
  destruct (serves k) as [es' perm|id] eqn:He; cbn [entries_at] in Hes.
  - unfold mbind at 1, st_bind at 1. rewrite Hreq. unfold mbind at 1, st_bind at 1. by destruct (reply_of _ _ s) as [[]].
  - destruct (objects s !! id) as [[es' p q f| |]|] eqn:Ho; try done.
    unfold mbind at 1, st_bind at 1. erewrite (st_bind_ok (load id)) by by apply load_run.
    unfold handle_request_mut. unfold mbind at 1, st_bind at 1. rewrite Hreq. unfold mbind at 1, st_bind at 1.
    by destruct (reply_of _ _ s) as [[]].
Qed.

Lemma ask_run c k l es s : store_ok s → conns s !! c = Some k → contains (options k) READ = true →
  entries_at (objects s) (serves k) = Some es →
  match dirent_after l es with
  | Some (name, e) => ∃ m, metadata phys_len e s = (Ok m, s) ∧ ask_dirent c l s = (Answer (Ok (name, m)), s)
  | None => ask_dirent c l s = (Answer (Err IterEnd), s)
  end.
Proof.
  intros Hs Hk Hr Hes. destruct (entries_at_ok s (serves k) es Hs (proj1 (so_conns s Hs _ _ Hk)) Hes) as [Hok Hd].
  unfold ask_dirent. rewrite (serve_dirent c k l es) by done. unfold reply_of, next_dirent. erewrite st_bind_ok by exact Hd.
  destruct (dirent_after l es) as [[name e]|] eqn:Hl; [|done]. cbn [of_option]. rewrite (st_lift_ok _ _ _ _ eq_refl).
  destruct (entry_metadata_run e s Hs) as [m Hm]; [|exists m; split; [done|]; by erewrite st_bind_ok by exact Hm].
  eapply entries_get; [done|]. eapply entry_get_elem; [apply Hok|by eapply dirent_after_elem].
Qed.

(** An iterator over a directory that does not change meanwhile gives every entry once, in the order of the names
    and with its metadata, and then ends: one request for each entry, each with the last name, over the server of the
    directory. *)
Theorem listing_complete s c k es : store_ok s → conns s !! c = Some k → contains (options k) READ = true →
  entries_at (objects s) (serves k) = Some es →
  ∃ l, items (S (length es)) c (MkIter None false) s = Some (l, s) ∧
    Forall2 (λ x i, ∃ m, metadata phys_len x.2 s = (Ok m, s) ∧ i = Ok (x.1, m)) es l.
Proof.
  intros Hs Hk Hr Hes. pose proof (λ l, ask_run c k l es s Hs Hk Hr Hes) as Hask.
  destruct (entries_at_ok s (serves k) es Hs (proj1 (so_conns s Hs _ _ Hk)) Hes) as [[Ho _] _].
  assert (H : ∀ post pre it, es = pre ++ post → it = MkIter (fst <$> last pre) false →
    ∃ l, items (S (length post)) c it s = Some (l, s) ∧
      Forall2 (λ x i, ∃ m, metadata phys_len x.2 s = (Ok m, s) ∧ i = Ok (x.1, m)) post l).
  { induction post as [|[n e] post IH]; intros pre it Heq Hit; cbn [length]; rewrite items_unfold.
    all: specialize (Hask (ilast it)); subst it; cbn [ilast] in Hask; rewrite Heq, dirent_next in Hask by (by rewrite <- Heq).
    all: cbn [head] in Hask; unfold remote_next; cbn [ilast istop].
    - rewrite Hask. exists []. by split.
    - destruct Hask as (m & Hm & Hask). destruct (IH (pre ++ [(n, e)]) (MkIter (Some n) false)) as (l & Hl & HF).
      + by rewrite Heq, <- app_assoc.
      + by rewrite last_snoc.
      + exists (Ok (n, m) :: l). rewrite Hask. cbn [fst snd]. rewrite Hl. split; [done|]. constructor; [by exists m|done]. }
  exact (H es [] _ eq_refl eq_refl).
Qed.

(** ** Changing directories *)

(** What the directory [i] has under a name. *)
Definition get_at (os : list object) (i : nat) (name : path) : option entry :=
  match os !! i with Some (MemDirMut es _ _ _) => entry_get name es | _ => None end.

Definition put_objects (s : store) (os : list object) : store := MkStore os (conns s) (tokens s) (events s).

Lemma get_at_insert os id es es' p q f i name : os !! id = Some (MemDirMut es p q f) →
  get_at (<[id := MemDirMut es' p q f]> os) i name = if decide (i = id) then entry_get name es' else get_at os i name.
Proof.
  intros Ho. unfold get_at. case_decide as Hi; [subst i; by rewrite list_lookup_insert_eq by by eapply lookup_lt_Some|].
  by rewrite list_lookup_insert_ne.
Qed.

Lemma dir_insert_run id es p q f name e s : objects s !! id = Some (MemDirMut es p q f) →
  dir_insert id name e s = match entry_get name es with
    | None => (Ok (), put_objects s (<[id := MemDirMut (entry_insert name e es) p q f]> (objects s)))
    | Some _ => (Err Exists, s)
    end.
Proof. intros Ho. unfold dir_insert. erewrite st_bind_ok by by eapply dir_mut_run. cbv beta iota. destruct (entry_get name es); reflexivity. Qed.

Lemma dir_remove_run id es p q f name s : objects s !! id = Some (MemDirMut es p q f) →
  dir_remove id name s = match entry_get name es with
    | Some e => (Ok e, put_objects s (<[id := MemDirMut (entry_remove name es) p q f]> (objects s)))
    | None => (Err NotFound, s)
    end.
Proof. intros Ho. unfold dir_remove. erewrite st_bind_ok by by eapply dir_mut_run. cbv beta iota. destruct (entry_get name es); reflexivity. Qed.

(** [get_at] after an entry was moved, and after one was put in. *)
Definition moved (g : nat → path → option entry) (id : nat) (src : path) (d : nat) (dst : path) (e : entry) (i : nat) (name : path) : option entry :=
  if decide (i = d ∧ name = dst) then Some e else if decide (i = id ∧ name = src) then None else g i name.
Definition put_in (g : nat → path → option entry) (d : nat) (dst : path) (e : entry) (i : nat) (name : path) : option entry :=
  if decide (i = d ∧ name = dst) then Some e else g i name.
Definition taken_out (g : nat → path → option entry) (id : nat) (src : path) (i : nat) (name : path) : option entry :=
  if decide (i = id ∧ name = src) then None else g i name.

Lemma get_removed os id es p q f src i name : os !! id = Some (MemDirMut es p q f) → ordered es.*1 →
  get_at (<[id := MemDirMut (entry_remove src es) p q f]> os) i name = taken_out (get_at os) id src i name.
Proof.
  clear phys_len inserter inserter_fresh inserter_returns.
  intros Ho Hes. rewrite (get_at_insert _ _ es) by done. unfold taken_out. destruct (decide (i = id)) as [->|Hi].
  - rewrite get_remove by done. unfold get_at. rewrite Ho. repeat case_decide; repeat case_bool_decide; naive_solver.
  - rewrite decide_False by naive_solver. done.
Qed.
Lemma get_inserted os d es p q f dst e i name : os !! d = Some (MemDirMut es p q f) →
  get_at (<[d := MemDirMut (entry_insert dst e es) p q f]> os) i name = put_in (get_at os) d dst e i name.
Proof.
  clear phys_len inserter inserter_fresh inserter_returns.
  intros Ho. rewrite (get_at_insert _ _ es) by done. unfold put_in. destruct (decide (i = d)) as [->|Hi].
  - rewrite get_insert. unfold get_at. rewrite Ho. repeat case_decide; repeat case_bool_decide; naive_solver.
  - rewrite decide_False by naive_solver. done.
Qed.

(** The directory that something is put into after something was taken out of another, or of itself. *)
Lemma after_remove os id es p q f src d de dp dq df : os !! id = Some (MemDirMut es p q f) → ordered es.*1 →
  os !! d = Some (MemDirMut de dp dq df) →
  ∃ de', <[id := MemDirMut (entry_remove src es) p q f]> os !! d = Some (MemDirMut de' dp dq df) ∧
    ∀ name, entry_get name de' = taken_out (get_at os) id src d name.
Proof.
  intros Ho Hes Hd. assert (H : ∀ name, get_at (<[id := MemDirMut (entry_remove src es) p q f]> os) d name = taken_out (get_at os) id src d name)
    by (intros name; by apply get_removed).
  unfold get_at at 1 in H. destruct (decide (d = id)) as [->|Hne].
  - rewrite list_lookup_insert_eq in * by by eapply lookup_lt_Some. simplify_eq. by eexists.
  - rewrite list_lookup_insert_ne in * by done. rewrite Hd in *. by eexists.
Qed.

(** What renaming does once the test against cycles has passed. *)
Lemma rename_run id es p q f src d de dp dq df dst e s : store_ok s →
  objects s !! id = Some (MemDirMut es p q f) → objects s !! d = Some (MemDirMut de dp dq df) →
  check_cycle q src dq dst = Ok () → entry_get src es = Some e →
  let g := get_at (objects s) in
  match taken_out g id src d dst with
  | None => ∃ s', mem_rename id src d dst s = (Ok (), s') ∧ ∀ i n, get_at (objects s') i n = moved g id src d dst e i n
  | Some _ => ∃ s', mem_rename id src d dst s = (Err Exists, s') ∧ ∀ i n, get_at (objects s') i n = g i n
  end.
Proof.
  intros Hs Ho Hd Hc He g. pose proof (proj1 (so_objects s Hs _ _ Ho)) as Hes.
  set (os1 := <[id := MemDirMut (entry_remove src es) p q f]> (objects s)).
  assert (Hrun : mem_rename id src d dst s = inspect_err (dir_insert d dst e) (dir_insert id src e) (put_objects s os1)).
  { unfold mem_rename. erewrite st_bind_ok by by eapply dir_mut_run. cbv beta iota.
    erewrite st_bind_ok by by eapply dir_mut_run. cbv beta iota. rewrite Hc, (st_lift_ok _ _ _ _ eq_refl). erewrite st_bind_ok; [reflexivity|]. by rewrite (dir_remove_run id es p q f), He. }
  assert (H1 : ∀ i n, get_at os1 i n = taken_out g id src i n) by (intros i n; by apply get_removed).
  destruct (after_remove _ id es p q f src d de dp dq df Ho Hes Hd) as (de' & Hd' & Hg').
  rewrite Hrun. unfold inspect_err. rewrite (dir_insert_run d de' dp dq df) by done. rewrite Hg'. fold g.
  destruct (taken_out g id src d dst) as [x|] eqn:Hx.
  - destruct (after_remove _ id es p q f src id es p q f Ho Hes Ho) as (es' & Hi' & Hgi).
    rewrite (dir_insert_run id es' p q f) by done. rewrite Hgi. fold g. unfold taken_out at 1. rewrite decide_True by done.
    eexists. split; [reflexivity|]. intros i n. cbn [put_objects objects]. rewrite (get_inserted _ id es') by done.
    unfold put_in. rewrite H1. unfold taken_out. case_decide as Hin; [|done]. destruct Hin as [-> ->]. unfold g, get_at. by rewrite Ho.
  - eexists. split; [reflexivity|]. intros i n. cbn [put_objects objects]. rewrite (get_inserted _ d de') by done.
    unfold put_in, moved. by rewrite H1.
Qed.

(** C26: Renaming moves one entry and changes nothing else in any directory. It succeeds exactly when the entry is there,
    its new name is free (or is the old one), and the new place does not lie below the old one by the paths the
    directories were made with; when it fails, each name in each directory stands for what it did. *)
Theorem rename_moves s id d src dst es p q f de dp dq df : store_ok s →
  objects s !! id = Some (MemDirMut es p q f) → objects s !! d = Some (MemDirMut de dp dq df) →
  let g := get_at (objects s) in
  ∃ out s', mem_rename id src d dst s = (out, s') ∧
    (out = Ok () ↔ check_cycle q src dq dst = Ok () ∧ is_Some (g id src) ∧ (g d dst = None ∨ (d = id ∧ dst = src))) ∧
    (out ≠ Ok () → ∀ i n, get_at (objects s') i n = g i n) ∧
    (∀ e, out = Ok () → g id src = Some e → ∀ i n, get_at (objects s') i n = moved g id src d dst e i n).
Proof.
  clear phys_len inserter inserter_fresh inserter_returns.
  intros Hs Ho Hd g. assert (Hg : g id src = entry_get src es) by (unfold g, get_at; by rewrite Ho).
  assert (Hrun : mem_rename id src d dst s = (_ ← lift (check_cycle q src dq dst); e ← dir_remove id src;
    inspect_err (dir_insert d dst e) (dir_insert id src e)) s).
  { unfold mem_rename. erewrite st_bind_ok by by eapply dir_mut_run. cbv beta iota. by erewrite st_bind_ok by by eapply dir_mut_run. }
  destruct (check_cycle q src dq dst) as [[]|err|] eqn:Hc; [|exists (Err err), s; rewrite Hrun; naive_solver|by apply check_cycle_ok in Hc].
  destruct (entry_get src es) as [e|] eqn:He.
  - pose proof (rename_run id es p q f src d de dp dq df dst e s Hs Ho Hd Hc He) as H. fold g in H. cbv zeta in H.
    destruct (taken_out g id src d dst) as [x|] eqn:Hx; destruct H as (s' & Hm & Hs'); eexists _, s'; split_and!; try exact Hm; try done.
    + split; [done|]. intros (_ & _ & [H|[-> ->]]); unfold taken_out in Hx; case_decide; naive_solver.
    + split; [|done]. intros _. split; [done|]. split; [by rewrite Hg|]. unfold taken_out in Hx. case_decide as Hdd; [right; by destruct Hdd|by left].
    + intros e' _ He'. rewrite Hg in He'. by injection He' as <-.
  - exists (Err NotFound), s. rewrite Hrun, (st_lift_ok _ _ _ _ eq_refl).
    erewrite st_bind_err; [|by rewrite (dir_remove_run id es p q f), He]. split_and!; [done| |done|done].
    split; [done|]. intros (_ & [x Hx] & _). congruence.
Qed.

(** Linking adds one name for an entry that is there, under a name that is free, and changes nothing else; unlinking
    takes out one name, never that of a directory with entries, nor that of anything else than a directory when one is
    expected. A call that fails changes nothing at all. *)
Theorem link_unlink_change s id d src dst b es p q f de dp dq df : store_ok s →
  objects s !! id = Some (MemDirMut es p q f) → objects s !! d = Some (MemDirMut de dp dq df) →
  let g := get_at (objects s) in
  (∃ out s', mem_link id src d dst s = (out, s') ∧ (out ≠ Ok () → s' = s) ∧
    (out = Ok () ↔ check_cycle q src dq dst = Ok () ∧ Z.of_nat (length src) ≤ MAX_NAME ∧ is_Some (g id src) ∧ g d dst = None) ∧
    (∀ e, out = Ok () → g id src = Some e → ∀ i n, get_at (objects s') i n = put_in g d dst e i n)) ∧
  (∃ out s', mem_unlink phys_len id src b s = (out, s') ∧ (out ≠ Ok () → s' = s) ∧
    (out = Ok () ↔ ∃ e m, g id src = Some e ∧ metadata phys_len e s = (Ok m, s) ∧
      (b = true → file_type m = Directory) ∧ (file_type m = Directory → mlen m ≤ 0)) ∧
    (out = Ok () → ∀ i n, get_at (objects s') i n = taken_out g id src i n)).
Proof.
  clear inserter inserter_fresh inserter_returns.
  intros Hs Ho Hd g. assert (Hg : g id src = entry_get src es) by (unfold g, get_at; by rewrite Ho).
  assert (Hgd : g d dst = entry_get dst de) by (unfold g, get_at; by rewrite Hd). split.
  - assert (Hrun : mem_link id src d dst s = (_ ← lift (check_cycle q src dq dst); e ← lift (dir_get src es); dir_insert d dst e) s).
    { unfold mem_link. erewrite st_bind_ok by by eapply dir_mut_run. cbv beta iota. by erewrite st_bind_ok by by eapply dir_mut_run. }
    rewrite Hrun. destruct (check_cycle q src dq dst) as [[]|err|] eqn:Hc; [|exists (Err err), s; naive_solver|by apply check_cycle_ok in Hc].
    rewrite (st_lift_ok _ _ _ _ eq_refl). unfold dir_get. rewrite Hg, Hgd.
    destruct (Z.gtb_spec (Z.of_nat (length src)) MAX_NAME); [eexists _, s; split; [reflexivity|]; split_and!; [done| |done]; split; [done|lia]|].
    destruct (entry_get src es) as [e|] eqn:He; cbn [of_option].
    2:{ eexists _, s. split; [reflexivity|]. split_and!; [done| |done]. split; [done|]. by intros (_ & _ & [? ?] & _). }
    rewrite (st_lift_ok _ _ _ _ eq_refl), (dir_insert_run d de dp dq df) by done. destruct (entry_get dst de) eqn:Hde.
    + eexists _, s. split; [reflexivity|]. split_and!; [done| |done]. split; [done|]. by intros (_ & _ & _ & ?).
    + eexists _, _. split; [reflexivity|]. split_and!; [done|naive_solver|]. intros e' _ [= <-] i n. by apply (get_inserted _ d de).
  - unfold mem_unlink. erewrite st_bind_ok by by eapply dir_mut_run. cbv beta iota. rewrite Hg.
    destruct (entry_get src es) as [e|] eqn:He; [|eexists _, s; split; [reflexivity|]; split_and!; [done| |done]; naive_solver].
    destruct (entry_metadata_run e s Hs) as [m Hm]; [by eapply entries_get; [exact (so_objects s Hs _ _ Ho)|]|].
    erewrite st_bind_ok by exact Hm.
    destruct (b && negb (bool_decide (file_type m = Directory))) eqn:H1.
    { eexists _, s. split; [reflexivity|]. split_and!; [done| |done]. split; [done|]. intros (? & ? & [= <-] & Hm' & Hb & _). rewrite Hm in Hm'.
      injection Hm' as <-. apply andb_true_iff in H1 as [-> H1]. by rewrite bool_decide_eq_true_2 in H1 by auto. }
    destruct (bool_decide (file_type m = Directory) && (mlen m >? 0)) eqn:H2.
    { eexists _, s. split; [reflexivity|]. split_and!; [done| |done]. split; [done|]. intros (? & ? & [= <-] & Hm' & _ & Hl). rewrite Hm in Hm'.
      injection Hm' as <-. apply andb_true_iff in H2 as [H2%bool_decide_eq_true H3]. specialize (Hl H2). lia. }
    eexists _, _. split; [reflexivity|]. split_and!; [done| |intros _ i n; apply get_removed; [done|apply (so_objects s Hs _ _ Ho)]].
    split; [|done]. intros _. exists e, m. split_and!; [done|done| |].
    + intros ->. by case_bool_decide.
    + intros Hdir. rewrite bool_decide_eq_true_2 in H2 by done. cbn in H2. lia.
Qed.
End safety.
