(* ===== verification/MemBuild.v ===== *)
(** * Building directories in memory ([h2o_fs/src/mem/dir/builder.rs])

    A [Builder] collects entries by their paths; a [RecursiveBuilder] reads a stream of
    steps down, entries and steps up. Both give a directory that does not change. *)

From Stdlib Require Import Sorting.Sorted.
From S2P Require Import Base Slices Path PathFacts PathSpec PathJoin LocalFs LocalFsTree LocalFsSpec MemFs MemFsSpec.
Local Open Scope Z_scope.

(** ** [Builder] *)

Inductive builder :=
  MkBuilder (bentries : list (path * (builder + entry))) (bperm : Z).

Definition builder_new : builder := MkBuilder [] 0.

Section builder.
Context `{P : Profile}.
Abbreviation bres := (res fs_error).

(** [comps.next()] and the text of the component, with the components that are left. *)
Definition first_text (p : path) : bres (path * list Component) :=
  cs ← path_components p;
  '(c, cs) ← of_option (InvalidPath p) (match cs with c :: cs => Some (c, cs) | [] => None end);
  t ← of_option (InvalidPath p) (to_str (comp_as_os_str c));
  Ok (t, cs).

(** [Builder::entry]; what was changed before an error stays changed. *)
Fixpoint builder_entry (fuel : nat) (b : builder) (p : path) (perm : Z) (e : entry) : bres () * builder :=
  match fuel with
  | O => (Panic, b)
  | S fuel =>
      let '(MkBuilder es bp) := b in
      match first_text p with
      | Ok (comp, []) =>
          match entry_get comp es with
          | None => (Ok (), MkBuilder (entry_insert comp (inr e) es) (Z.lor bp perm))
          | Some _ => (Err Exists, b)
          end
      | Ok (comp, cs) =>
          let es := match entry_get comp es with None => entry_insert comp (inl builder_new) es | Some _ => es end in
          match entry_get comp es with
          | Some (inl dir) =>
              match rest_path cs with
              | Ok q =>
                  let '(r, dir) := builder_entry fuel dir q perm e in
                  (r, MkBuilder (entry_insert comp (inl dir) es) (Z.lor bp perm))
              | Err err => (Err err, MkBuilder es (Z.lor bp perm))
              | Panic => (Panic, b)
              end
          | _ => (Err (LocalFs comp), MkBuilder es bp)
          end
      | Err err => (Err err, b)
      | Panic => (Panic, b)
      end
  end.

(** [Builder::empty_path]. *)
Fixpoint empty_path (fuel : nat) (b : builder) (p : path) (perm : Z) : bres () * builder :=
  match fuel with
  | O => (Panic, b)
  | S fuel =>
      let '(MkBuilder es bp) := b in
      match first_text p with
      | Ok (comp, cs) =>
          let es := match entry_get comp es with None => entry_insert comp (inl builder_new) es | Some _ => es end in
          match entry_get comp es with
          | Some (inl dir) =>
              match cs with
              | [] => (Ok (), MkBuilder es (Z.lor bp perm))
              | _ =>
                  match rest_path cs with
                  | Ok q =>
                      let '(r, dir) := empty_path fuel dir q perm in
                      (r, MkBuilder (entry_insert comp (inl dir) es) (Z.lor bp perm))
                  | Err err => (Err err, MkBuilder es (Z.lor bp perm))
                  | Panic => (Panic, b)
                  end
              end
          | _ => (Err (LocalFs comp), MkBuilder es bp)
          end
      | Err err => (Err err, b)
      | Panic => (Panic, b)
      end
  end.

(** [Builder::build]. *)
Fixpoint build (b : builder) : entry :=
  let '(MkBuilder es perm) := b in
  MemDir ((fix go (es : list (path * (builder + entry))) : list (path * entry) :=
    match es with
    | [] => []
    | (name, inl b) :: es => (name, build b) :: go es
    | (name, inr e) :: es => (name, e) :: go es
    end) es) perm.

Definition add (b : builder) (p : path) (perm : Z) (e : entry) : bres () * builder := builder_entry (length p + 3) b p perm e.
End builder.

(** ** [RecursiveBuilder] *)

Inductive RecursiveBuild :=
  | Down (name : path) (perm : Z)
  | RbEntry (name : path) (e : entry)
  | Up.

(** The loop of [build_recursive]: the entries of the directory, and the steps that are left. *)
Fixpoint build_recursive (fuel : nat) (l : list RecursiveBuild) (es : list (path * entry)) :
    res fs_error (list (path * entry) * list RecursiveBuild) :=
  match fuel with
  | O => Panic
  | S fuel =>
      match l with
      | [] => Ok (es, [])
      | Down name perm :: l =>
          match entry_get name es with
          | None =>
              '(sub, l) ← build_recursive fuel l [];
              build_recursive fuel l (entry_insert name (MemDir sub perm) es)
          | Some _ => Err Exists
          end
      | RbEntry name e :: l =>
          match entry_get name es with
          | None => build_recursive fuel l (entry_insert name e es)
          | Some _ => Err Exists
          end
      | Up :: l => Ok (es, l)
      end
  end.

(** [RecursiveBuilder::build]. *)
Definition rb_build (l : list RecursiveBuild) (root_perm : Z) : res fs_error entry :=
  '(es, _) ← build_recursive (S (length l)) l [];
  Ok (MemDir es root_perm).

(** The steps that describe a directory. *)
Fixpoint steps (name : path) (e : entry) : list RecursiveBuild :=
  match e with
  | MemDir es perm =>
      Down name perm ::
      (fix go (es : list (path * entry)) : list RecursiveBuild :=
        match es with [] => [] | (n, e) :: es => steps n e ++ go es end) es ++ [Up]
  | Shared _ => [RbEntry name e]
  end.
Fixpoint all_steps (es : list (path * entry)) : list RecursiveBuild :=
  match es with [] => [] | (n, e) :: es => steps n e ++ all_steps es end.

Lemma steps_dir name es perm : steps name (MemDir es perm) = Down name perm :: all_steps es ++ [Up].
Proof. done. Qed.

(** A name behind all others is put at the end. *)
Lemma insert_last {B} n (x : B) (acc : list (path * B)) : (∀ k, k ∈ acc.*1 → key_lt k n) →
  entry_get n acc = None ∧ entry_insert n x acc = acc ++ [(n, x)].
Proof.
  intros Hk. split.
  - apply get_key. intros H%Hk. by apply key_lt_irrefl in H.
  - induction acc as [|[m y] acc IH]; [done|]. cbn [entry_insert app].
    assert (key_lt m n) as Hm by (apply Hk; by left). unfold key_lt in Hm. rewrite (bytes_cmp_swap n m), Hm. cbn. f_equal.
    apply IH. intros k H. apply Hk. by right.
Qed.

Lemma ordered_snoc (acc : list (path * entry)) n e es : ordered (acc ++ (n, e) :: es).*1 →
  (∀ k, k ∈ acc.*1 → key_lt k n) ∧ ordered ((acc ++ [(n, e)]) ++ es).*1.
Proof.
  intros Ho. split; [|by rewrite <- app_assoc]. rewrite fmap_app in Ho. destruct (ordered_app _ _ Ho) as [H _].
  intros k Hk. apply H; [done|by left].
Qed.

Lemma build_recursive_ok fuel k es acc fin rest :
  (fin = [] ∧ rest = []) ∨ fin = Up :: rest → (length (all_steps es ++ fin) < fuel)%nat →
  ordered (acc ++ es).*1 → entries_ok k es → build_recursive fuel (all_steps es ++ fin) acc = Ok (acc ++ es, rest).
Proof.
  revert es acc fin rest. induction fuel as [|fuel IH]; intros es acc fin rest Hfin Hf Ho Hok; [lia|].
  destruct es as [|[n e] es].
  { rewrite app_nil_r. cbn [all_steps app]. by destruct Hfin as [[-> ->] | ->]. }
  destruct (ordered_snoc _ _ _ _ Ho) as [Hk Ho']. destruct Hok as [Hes Hget].
  assert (He : entry_ok k e) by (apply (Hget n); cbn; by rewrite bool_decide_eq_true_2).
  assert (Htl : entries_ok k es).
  { split; [by apply StronglySorted_inv in Hes as [? _]|]. intros m x Hm. apply (Hget m). cbn. rewrite bool_decide_eq_false_2; [done|].
    intros ->. cbn in Hes. apply ordered_nodup, NoDup_cons in Hes as [Hn _]. by rewrite (get_key _ _ Hn) in Hm. }
  destruct (insert_last n e acc Hk) as [Hnone Hins].
  replace (acc ++ (n, e) :: es) with ((acc ++ [(n, e)]) ++ es) by (by rewrite <- app_assoc).
  cbn [all_steps]. rewrite <- app_assoc. destruct e as [sub p|id].
  - rewrite steps_dir in *. cbn [app build_recursive]. rewrite Hnone, <- app_assoc. cbn [app].
    cbn [all_steps app] in Hf. rewrite steps_dir in Hf. cbn [app length] in Hf. rewrite !length_app in Hf. cbn [length] in Hf.
    rewrite (IH sub [] (Up :: all_steps es ++ fin) (all_steps es ++ fin)).
    + cbn [mbind res_bind app]. rewrite Hins. apply IH; [done| |done|done]. rewrite length_app. lia.
    + by right.
    + rewrite length_app. cbn [length]. rewrite length_app. lia.
    + by inversion He.
    + by inversion He.
  - cbn [steps app build_recursive]. rewrite Hnone, Hins. apply IH; [done| |done|done].
    cbn [all_steps steps app length] in Hf. lia.
Qed.

(** The stream of steps that describes a directory, with the steps of the directories in it between a step down and
    a step up, is built into this directory. *)
Theorem recursive_build_roundtrip k es perm : entry_ok k (MemDir es perm) → rb_build (all_steps es) perm = Ok (MemDir es perm).
Proof.
  intros He. inversion He; subst. unfold rb_build.
  rewrite <- (app_nil_r (all_steps es)), (build_recursive_ok _ k _ _ _ []); [done|by left|rewrite !app_nil_r; lia|done|done].
Qed.

(** ** What was added is found *)

(** The entry at some names below an entry. *)
Fixpoint walk (os : list object) (e : entry) (ns : list path) : option entry :=
  match ns with
  | [] => Some e
  | n :: ns => es ← entries_at os e; x ← entry_get n es; walk os x ns
  end.

Definition built (x : builder + entry) : entry := match x with inl b => build b | inr e => e end.

Lemma build_get es perm n : ∃ es', build (MkBuilder es perm) = MemDir es' perm ∧ entry_get n es' = built <$> entry_get n es.
Proof.
  eexists. split; [reflexivity|]. induction es as [|[m [b|e]] es IH]; cbn; [done|by case_bool_decide..].
Qed.

Lemma walk_build os es perm n ns : walk os (build (MkBuilder es perm)) (n :: ns) = x ← entry_get n es; walk os (built x) ns.
Proof. destruct (build_get es perm n) as (es' & -> & Hg). cbn. rewrite Hg. by destruct (entry_get n es). Qed.

Section added.
Context `{P : Profile}.

Lemma first_text_ok p n ns : names p (n :: ns) → first_text p = Ok (n, Normal <$> ns).
Proof.
  intros Hp. unfold first_text. rewrite (components_names _ _ Hp). cbn. destruct Hp as [_ [(_ & _ & Hu) _]%Forall_cons].
  unfold to_str. by rewrite Hu.
Qed.

Lemma builder_entry_ok fuel b p n ns perm e os : names p (n :: ns) → (length ns < fuel)%nat →
  ∃ r b', builder_entry fuel b p perm e = (r, b') ∧ r ≠ Panic ∧ (r = Ok () → walk os (build b') (n :: ns) = Some e).
Proof.
  revert b p n ns. induction fuel as [|fuel IH]; intros [es bp] p n ns Hp Hf; [lia|]. cbn [builder_entry].
  rewrite (first_text_ok p n ns Hp). destruct ns as [|m ns]; [cbn [fmap list_fmap]|rewrite fmap_cons; cbv beta iota].
  { destruct (entry_get n es) eqn:Hg; [by eexists _, _|]. eexists _, _. split; [done|]. split; [done|]. intros _.
    rewrite walk_build, get_insert, bool_decide_eq_true_2 by done. done. }
  set (es1 := match entry_get n es with None => _ | Some _ => es end).
  destruct (entry_get n es1) as [[dir|x]|]; [|by eexists _, _..].
  rewrite <- fmap_cons.
  destruct Hp as [_ [_ Hms]%Forall_cons]. destruct (rest_path_ok (m :: ns) Hms) as (q & -> & Hq).
  destruct (IH dir q m ns Hq) as (r & dir' & -> & Hr & Hw); [cbn in Hf; lia|]. eexists r, _. split; [done|]. split; [done|].
  intros ->. rewrite walk_build, get_insert, bool_decide_eq_true_2 by done. by apply Hw.
Qed.

(** An entry that was added to a builder under a path is what lies there in the directory that is built, and adding
    never panics. *)
Theorem builder_adds b p n ns perm e os : names p (n :: ns) →
  ∃ r b', add b p perm e = (r, b') ∧ r ≠ Panic ∧ (r = Ok () → walk os (build b') (n :: ns) = Some e).
Proof.
  intros Hp. apply builder_entry_ok; [done|]. pose proof (comps_length p) as H. rewrite (proj1 Hp) in H.
  rewrite length_fmap in H. cbn in H. lia.
Qed.
End added.
