(* ===== verification/FsCompose.v ===== *)
(** * A name space over servers of directories

    [LocalFs] asks the other sides of its channels; here they are the servers of [MemFs].
    A path that a process opens leads through its name space to a remote entry, and
    through the directories of the server to the entry that lies there. *)

From S2P Require Import Base Slices Path PathFacts PathSpec PathJoin LocalFs LocalFsTree LocalFsSpec MemFs MemFsSpec MemBuild.
Local Open Scope Z_scope.

(** ** Opening in a server *)

(** What an entry asks of the options. *)
Definition openable (os : list object) (e : entry) (opts : Z) : Prop :=
  let dir_ok perm := intersects opts (Z.lor EXPECT_FILE EXPECT_RPC) = false ∧ contains perm (require opts) = true in
  match e with
  | MemDir _ perm => dir_ok perm
  | Shared id =>
      match os !! id with
      | Some (MemDirMut _ perm _ _) => dir_ok perm
      | Some (MemFile _ perm locked) =>
          intersects opts (Z.lor EXPECT_DIR EXPECT_RPC) = false ∧ locked = false ∧ contains perm (require opts) = true
      | Some RpcNodeObj => Z.ldiff opts EXPECT_RPC = Z.lor READ WRITE
      | None => False
      end
  end.

(** The store after a connection was opened. *)
Definition connected (s : store) (c : Z) (e : entry) (opts : Z) : store :=
  MkStore (objects s) (<[c := MkConn e opts None]> (conns s)) (tokens s) (events s).

Definition short (n : path) : Prop := Z.of_nat (length n) ≤ MAX_NAME.

Lemma creates_new opts : creates opts = false → contains opts CREATE_NEW = false.
Proof.
  unfold creates, intersects, contains. intros H%negb_false_iff%Z.eqb_eq. apply Z.eqb_neq. intros H'.
  apply (f_equal (λ z, Z.testbit z 4)) in H, H'. cbv beta in *. rewrite Z.land_spec in *.
  change (Z.testbit (Z.lor CREATE CREATE_NEW) 4) with true in H. change (Z.testbit CREATE_NEW 4) with true in H'.
  rewrite Z.bits_0 in H. congruence.
Qed.

Section open.
Context `{P : Profile} (phys_len : Z → Z) (inserter : nat → path → res fs_error object).

(** An entry itself, by the empty path. *)
Lemma open_here fuel e p opts c s : names p [] → creates opts = false → openable (objects s) e opts →
  open_loop inserter (S fuel) e p opts c s = (Ok false, connected s c e opts).
Proof.
  intros [Hp _] Hcr Ho. cbn [open_loop]. unfold memdir_open, memdirmut_open. assert (Hempty : path_eq p [] = Ok true) by (rewrite path_eq_ok, Hp; done).
  destruct e as [es perm|id]; cbn [openable] in Ho.
  - rewrite Hcr, first_component_ok, Hp, (st_lift_ok _ _ _ _ eq_refl). cbn [head fmap list_fmap]. unfold open_dir.
    destruct Ho as [-> ->]. done.
  - destruct (objects s !! id) as [o|] eqn:Hid; [|done]. erewrite st_bind_ok by by apply load_run. destruct o as [es perm q f|h perm locked|].
    + rewrite first_component_ok, Hp, (st_lift_ok _ _ _ _ eq_refl). cbn [head fmap list_fmap]. unfold open_dir.
      rewrite (creates_new _ Hcr). destruct Ho as [-> ->]. done.
    + unfold open_file. rewrite Hempty. cbn [lift_path]. rewrite (st_lift_ok _ _ _ _ eq_refl). destruct Ho as (-> & -> & ->). done.
    + unfold open_rpc. rewrite Ho. cbn [negb Z.eqb]. rewrite Z.eqb_refl, Hempty. cbn [negb lift_path].
      by rewrite (st_lift_ok _ _ _ _ eq_refl).
Qed.

Lemma get_short n es e : short n → entry_get n es = Some e → dir_get n es = Ok e.
Proof. unfold short, dir_get. intros Hn He. destruct (Z.gtb_spec (Z.of_nat (length n)) MAX_NAME); [lia|]. by rewrite He. Qed.

Lemma open_walk fuel e p ns e' opts c s : names p ns → Forall short ns → creates opts = false →
  walk (objects s) e ns = Some e' → openable (objects s) e' opts → (length ns < fuel)%nat →
  open_loop inserter fuel e p opts c s = (Ok false, connected s c e' opts).
Proof.
  intros Hp Hsh Hcr Hw Ho. revert fuel e p Hp Hw. induction Hsh as [|n ns Hn Hsh IH]; intros [|fuel] e p Hp Hw Hf; [cbn in Hf; lia| |cbn in Hf; lia|].
  { cbn in Hw. injection Hw as ->. by apply open_here. }
  cbn [walk] in Hw. destruct (entries_at (objects s) e) as [es|] eqn:Hes; [|done]. cbn in Hw. destruct (entry_get n es) as [x|] eqn:Hx; [|done].
  pose proof Hp as [Hc Hns]. rewrite fmap_cons in Hc. apply Forall_cons in Hns as [(_ & _ & Hu) Hns].
  destruct (strip_name p n _ Hc) as (q & Hst & Hq). specialize (IH fuel x q (conj Hq Hns) Hw).
  assert (Hlt : (length ns < fuel)%nat) by (cbn in Hf; lia). specialize (IH Hlt).
  destruct e as [es' perm|id]; cbn [entries_at] in Hes; cbn [open_loop]; unfold memdir_open, memdirmut_open.
  - injection Hes as ->. rewrite Hcr, first_component_ok, Hc, (st_lift_ok _ _ _ _ eq_refl). cbn [head]. unfold to_str. rewrite Hu. cbn [of_option].
    rewrite (st_lift_ok _ _ _ _ eq_refl), Hst. cbn [lift_path]. rewrite (st_lift_ok _ _ _ _ eq_refl). cbn [unwrap].
    by rewrite (st_lift_ok _ _ _ _ eq_refl), (get_short n es x), (st_lift_ok _ _ _ _ eq_refl).
  - destruct (objects s !! id) as [[es' perm dp f| |]|] eqn:Hid; try done. injection Hes as ->.
    erewrite st_bind_ok by by apply load_run. rewrite first_component_ok, Hc, (st_lift_ok _ _ _ _ eq_refl). cbn [head]. unfold to_str. rewrite Hu. cbn [of_option].
    rewrite (st_lift_ok _ _ _ _ eq_refl), Hst. cbn [lift_path]. rewrite (st_lift_ok _ _ _ _ eq_refl). cbn [unwrap].
    rewrite (st_lift_ok _ _ _ _ eq_refl), Hcr, (get_short n es x) by done. cbn [negb].
    erewrite st_bind_ok; [|by rewrite (st_lift_ok _ _ _ _ eq_refl)]. cbv beta iota. by erewrite st_bind_ok by exact IH.
Qed.
End open.

(** ** The servers behind a name space *)

(** A channel is named by one number, which stands for both of its ends. *)
Record net := MkNet { servers : store; fresh : Z }.

Section compose.
Context `{P : Profile} (phys_len : Z → Z) (inserter : nat → path → res fs_error object).

Definition new_chan (w : net) : Z * Z * net := (fresh w, fresh w, MkNet (servers w) (fresh w + 1)).

(** The requests of directories and entries; files are served elsewhere. *)
Definition to_request (q : request) : option (Z * dir_request) :=
  match q with
  | EntryOpen r p o c | DirOpen r p o c => Some (r, OpenReq p o c)
  | EntryMetadata r => Some (r, MetadataReq)
  | EntryClone r c => Some (r, MemFs.CloneConnection c)
  | DirUnlink d n b => Some (d, UnlinkReq n b)
  | DirRename d src t dst => Some (d, RenameReq src t dst)
  | DirLink d src t dst => Some (d, LinkReq src t dst)
  | DirEventToken d => Some (d, EventToken)
  | FileMetadata _ | FileRead _ _ | FileWrite _ _ | CloseConnection _ => None
  end.

Definition to_reply (r : dir_reply) : res fs_error reply :=
  match r with
  | Unit => Ok RUnit
  | Meta m => Ok (RMeta m)
  | Token t => Ok (RToken t)
  | Failed e => Err e
  | Dirent _ _ | Closed | NoReply => Err (RpcError [])
  end.

Definition ask_server (q : request) (w : net) : res fs_error reply * net :=
  match to_request q with
  | None => (Err (RpcError []), w)
  | Some (c, q) =>
      match serve phys_len inserter c q (servers w) with
      | (Ok r, s) => (to_reply r, MkNet s (fresh w))
      | (_, s) => (Panic, MkNet s (fresh w))
      end
  end.

(** A directory that is asked to open a path opens it. *)
Lemma serve_open c k p opts c' s b s' : conns s !! c = Some k → is_dir (objects s) (serves k) →
  entry_open inserter (serves k) p opts c' s = (Ok b, s') → b = false →
  serve phys_len inserter c (OpenReq p opts c') s = (Ok Unit, s').
Proof.
  intros Hk Hd Ho ->. unfold serve. rewrite st_get_bind, Hk.
  assert (Hreq : handle_request phys_len inserter c k (OpenReq p opts c') s = (Ok (Some Unit), s')).
  { cbn [handle_request]. erewrite st_bind_ok; [reflexivity|]. unfold reply_of. by erewrite st_bind_ok by exact Ho. }
  destruct (serves k) as [es perm|id] eqn:He.
  - by erewrite st_bind_ok by exact Hreq.
  - destruct Hd as (o & Hid & Hdm). rewrite (st_bind_ok _ _ _ (Some Unit) s'); [reflexivity|].
    erewrite st_bind_ok by by apply load_run. destruct o; try done. unfold handle_request_mut.
    by erewrite st_bind_ok by exact Hreq.
Qed.

(** C3: Opening a path of a process connects it to what lies there: the way through the name space leads to the remote
    entry that is mounted above the path, the names that are left lead through the directories of its server to an
    entry, and if this permits the options, the new channel is served by exactly this entry with exactly these
    options, and nothing else has changed on either side. *)
Theorem open_end_to_end (s : fs net) p opts conn ns pre rest r k e :
  names (cwd s) ns → target ns p = Some (pre ++ rest) → kind_at (root s) pre = Some (KRemote r) →
  conns (servers (world s)) !! r = Some k → is_dir (objects (servers (world s))) (serves k) →
  walk (objects (servers (world s))) (serves k) rest = Some e → Forall short rest →
  creates opts = false → openable (objects (servers (world s))) e opts →
  fs_open ask_server p opts conn s =
    (Ok (), MkFs (root s) (cwd s) (MkNet (connected (servers (world s)) conn e opts) (fresh (world s)))).
Proof.
  intros Hc Ht Hk Hr Hd Hw Hsh Hcr Ho.
  destruct (proj1 (open_run ask_server s p opts conn ns (pre ++ rest) Hc Ht) pre rest r eq_refl Hk) as (q & Hq & ->).
  assert (Hopen : entry_open inserter (serves k) q opts conn (servers (world s)) = (Ok false, connected (servers (world s)) conn e opts)).
  { eapply open_walk; try done. pose proof (comps_length q) as Hl. rewrite (proj1 Hq), length_fmap in Hl. lia. }
  unfold ask_unit, ask, mbind, st_bind. cbn [ask_server to_request]. by rewrite (serve_open r k q opts conn _ false _ Hr Hd Hopen eq_refl).
Qed.
End compose.

(** ** Concrete servers *)

Module MemFsWitness.
#[local] Instance checked : Profile := true.
Definition len (h : Z) : Z := 4096.
Definition make (f : nat) (n : path) : res fs_error object := Ok (MemFile 9 3 false).

(** "a", "b", "f", "x", "x/y", "data", "data/a" *)
Definition na : path := [97].
Definition nb : path := [98].
Definition nf : path := [102].
Definition nx : path := [120].
Definition nxy : path := [120; 47; 121].
Definition data : path := [100; 97; 116; 97].
Definition data_a : path := data ++ [47] ++ na.

(** A directory with two directories and a file, served on channel 100. *)
Definition dirs : list object :=
  [MemDirMut [(na, Shared 1); (nb, Shared 2); (nf, Shared 3)] 7 [] 0; MemDirMut [] 7 na 0; MemDirMut [] 7 nb 0; MemFile 9 3 false].
Definition server : store := MkStore dirs {[100 := MkConn (Shared 0) 3 None]} ∅ [].

Lemma server_ok : store_ok server.
Proof.
  split; cbn.
  - intros [|[|[|[|id]]]] o Ho; cbn in Ho; simplify_eq; cbn; try done; (split; [by repeat constructor|]); [|done..].
    intros name e. cbn. repeat case_bool_decide; intros [= <-]; constructor; lia.
  - intros c k [<- <-]%lookup_singleton_Some. cbn. split; [constructor; lia|]. exists 7. done.
  - intros h id opts. by rewrite lookup_empty.
Qed.

Lemma memfs_permissions_witness : store_ok server ∧
  ∃ replies s', session len make [(100, OpenReq na 3 101); (101, EventToken); (100, RenameReq nf 101 nx); (100, OpenReq nb 64 102)] server = (Ok replies, s') ∧
    replies = [Unit; Token 101; Unit; Unit] ∧
    (∀ c k, conns s' !! c = Some k → permitted (objects s') (serves k) (options k)) ∧
    (∀ h id opts, tokens s' !! h = Some (id, opts) → permitted (objects s') (Shared id) opts).
Proof.
  split; [exact server_ok|].
  destruct (memfs_permissions len make ltac:(intros f n o [= <-]; exact I) ltac:(done) server
    [(100, OpenReq na 3 101); (101, EventToken); (100, RenameReq nf 101 nx); (100, OpenReq nb 64 102)] server_ok) as (l & s' & Hl & H1 & H2).
  exists l, s'. split_and!; [exact Hl| |exact H1|exact H2].
  assert ((session len make [(100, OpenReq na 3 101); (101, EventToken); (100, RenameReq nf 101 nx); (100, OpenReq nb 64 102)] server).1 =
    Ok [Unit; Token 101; Unit; Unit]) as He by (vm_compute; reflexivity). rewrite Hl in He. by injection He.
Defined.

Lemma listing_complete_witness : ∃ l, items len make 4 100 (MkIter None false) server = Some (l, server) ∧ length l = 3%nat.
Proof.
  destruct (listing_complete len make server 100 (MkConn (Shared 0) 3 None)
    [(na, Shared 1); (nb, Shared 2); (nf, Shared 3)] server_ok eq_refl eq_refl eq_refl) as (l & Hl & HF).
  exists l. split; [exact Hl|]. apply Forall2_length in HF. exact (eq_sym HF).
Defined.

Lemma rename_moves_witness : ∃ s', mem_rename 0 nf 1 nx server = (Ok (), s') ∧
  get_at (objects s') 1 nx = Some (Shared 3) ∧ get_at (objects s') 0 nf = None ∧ get_at (objects s') 0 nb = Some (Shared 2).
Proof.
  destruct (rename_moves server 0 1 nf nx _ _ _ _ _ _ _ _ server_ok eq_refl eq_refl) as (out & s' & Hm & Hiff & _ & Heff).
  assert (out = Ok ()) as -> by (apply Hiff; split_and!; [vm_compute; reflexivity|eexists; reflexivity|left; reflexivity]).
  exists s'. split; [exact Hm|]. specialize (Heff (Shared 3) eq_refl eq_refl). rewrite !Heff. by split_and!.
Defined.

Lemma link_unlink_change_witness :
  (∃ s', mem_link 0 nf 1 nx server = (Ok (), s') ∧ get_at (objects s') 0 nf = get_at (objects s') 1 nx) ∧
  (∃ s', mem_unlink len 0 nf false server = (Ok (), s') ∧ get_at (objects s') 0 nf = None).
Proof.
  destruct (link_unlink_change len server 0 1 nf nx false _ _ _ _ _ _ _ _ server_ok eq_refl eq_refl)
    as [(out & s' & Hm & _ & Hiff & Heff) (out2 & s2 & Hm2 & _ & Hiff2 & Heff2)]. split.
  - assert (out = Ok ()) as -> by (apply Hiff; split_and!; [vm_compute; reflexivity|done|eexists; reflexivity|reflexivity]).
    exists s'. split; [exact Hm|]. specialize (Heff (Shared 3) eq_refl eq_refl). by rewrite !Heff.
  - assert (out2 = Ok ()) as -> by (apply Hiff2; eexists _, _; split_and!; [reflexivity|reflexivity|done|done]).
    exists s2. split; [exact Hm2|]. by rewrite (Heff2 eq_refl).
Defined.

Definition small : list (path * entry) := [(na, MemDir [(nb, Shared 0)] 1); (nf, Shared 0)].
Lemma recursive_build_roundtrip_witness : entry_ok 1 (MemDir small 7) ∧ rb_build (all_steps small) 7 = Ok (MemDir small 7).
Proof.
  assert (H : entry_ok 1 (MemDir small 7)).
  { constructor; [by repeat constructor|]. intros n e. cbn. repeat case_bool_decide; intros [= <-]; constructor; try lia; [by repeat constructor|].
    intros m x. cbn. case_bool_decide; intros [= <-]. constructor. lia. }
  split; [exact H|]. exact (recursive_build_roundtrip 1 small 7 H).
Defined.

Lemma builder_adds_witness : names nxy [nx; [121]] ∧ ∃ b', add builder_new nxy 3 (Shared 0) = (Ok (), b') ∧
  walk [] (build b') [nx; [121]] = Some (Shared 0).
Proof.
  assert (H : names nxy [nx; [121]]) by (refine (bool_decide_unpack _ _); vm_compute; exact I). split; [exact H|].
  destruct (builder_adds builder_new nxy nx [[121]] 3 (Shared 0) [] H) as (r & b' & Ha & _ & Hw). exists b'.
  assert ((add builder_new nxy 3 (Shared 0)).1 = Ok ()) as He by (vm_compute; reflexivity). rewrite Ha in He. cbn in He. subst r.
  split; [exact Ha|by apply Hw].
Defined.

(** A process that has mounted the server at [data] opens the directory [a] of it. *)
Definition process : fs net := (mount data 100 (fs_new (MkNet server 200))).2.
Lemma open_end_to_end_witness : fs_open (ask_server len make) data_a 3 101 process =
  (Ok (), MkFs (root process) (cwd process) (MkNet (connected server 101 (Shared 1) 3) 200)).
Proof.
  apply (open_end_to_end len make process data_a 3 101 [] [data] [na] 100 (MkConn (Shared 0) 3 None) (Shared 1)); try reflexivity.
  - exact names_nil.
  - eexists. split; [reflexivity|exact I].
  - constructor; [done|constructor].
  - split; reflexivity.
Defined.

(** *** Behaviours outside of what is promised *)

(** Creating [x/y] makes a file of [x], which the rest of the path is then refused by. *)
Example create_below_makes_file : let r := serve len make 100 (OpenReq nxy 11 101) server in
  r.1 = Ok (Failed (InvalidType File)) ∧ get_at (objects r.2) 0 nx = Some (Shared 4) ∧ objects r.2 !! 4%nat = Some (MemFile 9 3 false).
Proof. vm_compute. split_and!; reflexivity. Qed.

(** Creating [x] makes a directory of it, never a file. *)
Example create_makes_directory : let r := serve len make 100 (OpenReq nx 11 101) server in
  r.1 = Ok Unit ∧ objects r.2 !! 4%nat = Some (MemDirMut [] 3 nx 0).
Proof. vm_compute. split_and!; reflexivity. Qed.

(** Creating [x] anew makes it and then says that it exists. *)
Example create_new_exists : let r := serve len make 100 (OpenReq nx 19 101) server in
  r.1 = Ok (Failed Exists) ∧ get_at (objects r.2) 0 nx = Some (Shared 4).
Proof. vm_compute. split_and!; reflexivity. Qed.

(** A directory keeps its path when it is moved, so the test against cycles does not see one. *)
Example rename_makes_cycle : let s1 := mem_rename 0 na 2 na server in let s2 := mem_rename 0 nb 1 nb s1.2 in
  s1.1 = Ok () ∧ s2.1 = Ok () ∧ walk (objects s2.2) (Shared 1) [nb; na] = Some (Shared 1) ∧
  get_at (objects s2.2) 0 na = None ∧ get_at (objects s2.2) 0 nb = None.
Proof. vm_compute. split_and!; reflexivity. Qed.

(** When the last entry that was shown is removed, the one behind it is passed over. *)
Example listing_skips : let s1 := (mem_unlink len 0 na false server).2 in
  (serve len make 100 (NextDirent (Some na)) s1).1 = Ok (Dirent nf (MkMetadata File 3 4096)) ∧ get_at (objects s1) 0 nb = Some (Shared 2).
Proof. vm_compute. split_and!; reflexivity. Qed.

(** A name may become so long that it cannot be opened any more. *)
Example long_name : let n := replicate 300 97 in let s1 := mem_rename 0 nf 0 n server in
  s1.1 = Ok () ∧ (serve len make 100 (OpenReq n 3 101) s1.2).1 = Ok (Failed (InvalidNameLength 300)).
Proof. vm_compute. split_and!; reflexivity. Qed.
End MemFsWitness.
