(* ===== verification/Stream.v ===== *)
(** * Streams over physical objects ([h2o_async/src/io.rs], [h2o_fs/src/file/stream.rs])

    A stream reads and writes a physical object at a position that moves. The object is
    given by what its calls promise ([PhysObj]); the bytes it has are its whole state.
    A call is what it gives in the end, after it has waited for the object where it must. *)

From S2P Require Import Base SysCall.
Local Open Scope Z_scope.
Local Open Scope h2o_scope.

Abbreviation bytes := (list Z).
Definition blen (l : bytes) : Z := Z.of_nat (length l).
Definition btake (n : Z) (l : bytes) : bytes := take (Z.to_nat n) l.
Definition bdrop (n : Z) (l : bytes) : bytes := drop (Z.to_nat n) l.

(** The bytes from [off] on replaced by [l], which must not reach over the end. *)
Definition overwrite (off : Z) (l content : bytes) : bytes := btake off content ++ l ++ bdrop (off + blen l) content.

(** ** Physical objects

    Reading gives what there is from the offset on, up to the capacity of the buffer;
    writing stops at the end; what is added by a change of the length is zero. A call of
    [h2o_async] that finds the object busy waits for it, and then its length is lost (see
    [pack_receive] below): the read gives no bytes, and the write reports none, whether
    or not they were written. *)
Class PhysObj (F : Type) := {
  content : F → bytes;
  pread : F → Z → Z → res errno bytes;
  pwrite : F → Z → bytes → res errno Z * F;
  presize : F → Z → res errno () * F;
  pread_some f off cap l : 0 ≤ off → 0 ≤ cap → pread f off cap = Ok l → l = btake cap (bdrop off (content f)) ∨ l = [];
  pwrite_some f off l n f' : 0 ≤ off → pwrite f off l = (Ok n, f') →
    let k := Z.min (blen l) (Z.max 0 (blen (content f) - off)) in
    (n = k ∨ n = 0) ∧ (content f' = overwrite off (btake k l) (content f) ∨ n = 0 ∧ content f' = content f);
  presize_ok f n f' : 0 < n → presize f n = (Ok (), f') →
    content f' = btake n (content f ++ replicate (Z.to_nat n) 0);
}.

(** An object whose calls never have to wait, as those of [h2o_rs], which return [EAGAIN] instead. *)
Class Immediate F `{PhysObj F} := {
  pread_ok f off cap l : 0 ≤ off → 0 ≤ cap → pread f off cap = Ok l → l = btake cap (bdrop off (content f));
  pwrite_ok f off l n f' : 0 ≤ off → pwrite f off l = (Ok n, f') →
    n = Z.min (blen l) (Z.max 0 (blen (content f) - off)) ∧ content f' = overwrite off (btake n l) (content f);
}.

(** One whose calls neither wait nor fail. *)
Class Reliable F `{PhysObj F} := {
  never_waits :: Immediate F;
  reads f off cap : pread f off cap ≠ Panic ∧ is_ok (pread f off cap) = true;
  writes f off l : is_ok (pwrite f off l).1 = true;
  resizes f n : 0 < n → is_ok (presize f n).1 = true;
}.

(** ** [Stream] *)

Inductive SeekFrom := Start (pos : Z) | Current (delta : Z) | End (delta : Z).
Inductive io_error := OtherError (e : errno) | InvalidSeekFrom (pos : SeekFrom).

Record stream (F : Type) := MkStream { sphys : F; seeker : Z }.
Arguments MkStream {F} _ _.
Arguments sphys {F} _.
Arguments seeker {F} _.

(** [(-x) as usize] for a negative [isize]. *)
Definition neg_usize `{Profile} {E} (x : Z) : res E Z :=
  if (x =? - 2 ^ 63) && overflow_checks then Panic else Ok (wrap W (- x)).

Section stream.
Context `{P : Profile} {F : Type} `{O : PhysObj F}.
(** The capacity of a vector after [reserve], from the old one and what is asked for. *)
Context (grow : Z → Z → Z).

Abbreviation io := (st (stream F) io_error).

Definition set_seeker (z : Z) : io () := modify (λ s, MkStream (sphys s) z).
Definition other {A} (r : res errno A) : res io_error A := map_err OtherError r.

Definition saturating_sub (a b : Z) : Z := Z.max 0 (a - b).

(** [Inner::seek]. *)
Definition seek (pos : SeekFrom) : io Z :=
  s ← get;
  _ ← (match pos with
       | Start start => set_seeker start
       | Current delta =>
           if delta >=? 0 then z ← lift (seeker s +! delta); set_seeker z
           else
             d ← lift (neg_usize delta);
             if seeker s <? d then lift (Err (InvalidSeekFrom pos)) else set_seeker (seeker s - d)
       | End delta =>
           let len := blen (content (sphys s)) in
           if delta >=? 0 then z ← lift (len +! delta); set_seeker z
           else
             d ← lift (neg_usize delta);
             if len <? d then lift (Err (InvalidSeekFrom pos)) else set_seeker (len - d)
       end);
  s ← get;
  mret (seeker s).

(** The buffers are returned with what was read into them. *)
Fixpoint read_loop (len cap read_len : Z) (bufs : list bytes) : io (Z * list bytes) :=
  match bufs with
  | [] => mret (read_len, [])
  | buf :: bufs =>
      if blen buf =? 0 then '(n, out) ← read_loop len cap read_len bufs; mret (n, buf :: out)
      else
        s ← get;
        let cap := grow cap (Z.min (blen buf) (saturating_sub len (seeker s))) in
        cache ← lift (other (pread (sphys s) (seeker s) cap));
        let n := Z.min (blen cache) (blen buf) in
        let buf' := btake n cache ++ bdrop n buf in
        read_len ← lift (read_len +! n);
        z ← lift (seeker s +! n);
        _ ← set_seeker z;
        if n <? blen buf then mret (read_len, buf' :: bufs)
        else '(m, out) ← read_loop len cap read_len bufs; mret (m, buf' :: out)
  end.

(** [Inner::read_vectored]. *)
Definition read_vectored (bufs : list bytes) : io (Z * list bytes) :=
  s ← get; read_loop (blen (content (sphys s))) 0 0 bufs.

(** [Inner::read_at_vectored]: the capacity is made for what is left behind the seeker. *)
Fixpoint read_at_loop (len cap pos read_len : Z) (bufs : list bytes) : io (Z * list bytes) :=
  match bufs with
  | [] => mret (read_len, [])
  | buf :: bufs =>
      if blen buf =? 0 then '(n, out) ← read_at_loop len cap pos read_len bufs; mret (n, buf :: out)
      else
        s ← get;
        let cap := grow cap (Z.min (blen buf) (saturating_sub len (seeker s))) in
        cache ← lift (other (pread (sphys s) pos cap));
        let n := Z.min (blen cache) (blen buf) in
        let buf' := btake n cache ++ bdrop n buf in
        read_len ← lift (read_len +! n);
        pos ← lift (pos +! n);
        if n <? blen buf then mret (read_len, buf' :: bufs)
        else '(m, out) ← read_at_loop len cap pos read_len bufs; mret (m, buf' :: out)
  end.
Definition read_at_vectored (pos : Z) (bufs : list bytes) : io (Z * list bytes) :=
  s ← get; read_at_loop (blen (content (sphys s))) 0 pos 0 bufs.

Definition single (r : io (Z * list bytes)) : io (Z * bytes) := '(n, l) ← r; mret (n, default [] (l !! 0%nat)).
Definition read (buf : bytes) : io (Z * bytes) := single (read_vectored [buf]).
Definition read_at (pos : Z) (buf : bytes) : io (Z * bytes) := single (read_at_vectored pos [buf]).

(** [IoSlice::advance_slices]. *)
Fixpoint advance_loop (acc n : Z) (bufs : list bytes) : res io_error (list bytes) :=
  match bufs with
  | [] => if n =? acc then Ok [] else Panic
  | buf :: rest =>
      sum ← acc +! blen buf;
      if sum >? n then Ok (bdrop (n - acc) buf :: rest) else advance_loop sum n rest
  end.
Definition advance_slices (bufs : list bytes) (n : Z) : res io_error (list bytes) := advance_loop 0 n bufs.

(** [Phys::write] at the position of the stream. *)
Definition write_here (l : bytes) : io Z := λ s,
  match pwrite (sphys s) (seeker s) l with
  | (Ok n, f) => (Ok n, MkStream f (seeker s))
  | (Err e, f) => (Err (OtherError e), MkStream f (seeker s))
  | (Panic, f) => (Panic, MkStream f (seeker s))
  end.
Definition resize_to (n : Z) : io () := λ s,
  if n =? 0 then (Err (OtherError EINVAL), s)
  else
    match presize (sphys s) n with
    | (Ok (), f) => (Ok (), MkStream f (seeker s))
    | (Err e, f) => (Err (OtherError e), MkStream f (seeker s))
    | (Panic, f) => (Panic, MkStream f (seeker s))
    end.

(** [Inner::write_inner]; [inr] when a buffer was not written as a whole. *)
Fixpoint write_inner (len written : Z) (bufs : list bytes) : io (Z + Z) :=
  match bufs with
  | [] => mret (inl written)
  | buf :: bufs =>
      if blen buf =? 0 then write_inner len written bufs
      else
        s ← get;
        n ← write_here (btake (Z.min (blen buf) (saturating_sub len (seeker s))) buf);
        z ← lift (seeker s +! n);
        _ ← set_seeker z;
        written ← lift (written +! n);
        if n <? blen buf then mret (inr written) else write_inner len written bufs
  end.

Fixpoint total (bufs : list bytes) : res io_error Z :=
  match bufs with [] => Ok 0 | buf :: bufs => n ← total bufs; blen buf +! n end.

(** [Inner::write_vectored]. *)
Definition write_vectored (bufs : list bytes) : io Z :=
  bufs ← lift (advance_slices bufs 0);
  s ← get;
  let len := blen (content (sphys s)) in
  r ← write_inner len 0 bufs;
  match r with
  | inl written => mret written
  | inr len1 =>
      bufs ← lift (advance_slices bufs len1);
      match bufs with
      | [] => mret len1
      | _ =>
          additional ← lift (total bufs);
          len ← lift (len +! additional);
          _ ← resize_to len;
          r ← write_inner len 0 bufs;
          lift (len1 +! match r with inl n => n | inr n => n end)
      end
  end.

(** [Inner::write_at_vectored]: the same at a position of its own. *)
Definition write_at_vectored (pos : Z) (bufs : list bytes) : io Z := λ s,
  let '(r, s') := write_vectored bufs (MkStream (sphys s) pos) in (r, MkStream (sphys s') (seeker s)).

Definition write (buf : bytes) : io Z := write_vectored [buf].
Definition write_at (pos : Z) (buf : bytes) : io Z := write_at_vectored pos [buf].

(** [Stream::resize]. *)
Definition stream_resize (n : Z) : io () := resize_to n.
End stream.

(** ** Results of calls that were waited for ([PackRead::receive] of [h2o_rs/src/mem/phys.rs]) *)

Definition pack_receive (r : res errno Z) (canceled : bool) : res errno Z :=
  match r with
  | Ok _ => if canceled then Err EAGAIN else Ok 0
  | Err e => Err e
  | Panic => Panic
  end.
