(* ===== verification/StreamSpec.v ===== *)
(** * What streams promise

    Reading and writing in parts is reading and writing of one piece at the position, and
    what was written is read back. *)

From S2P Require Import Base SysCall Stream.
Local Open Scope Z_scope.
Local Open Scope h2o_scope.

(** ** Pieces of byte strings *)

Lemma blen_nonneg l : 0 ≤ blen l.
Proof. unfold blen. lia. Qed.
Lemma blen_app a b : blen (a ++ b) = blen a + blen b.
Proof. unfold blen. rewrite length_app. lia. Qed.
Lemma blen_take n l : 0 ≤ n → blen (btake n l) = Z.min n (blen l).
Proof. intros Hn. unfold blen, btake. rewrite length_take. lia. Qed.
Lemma blen_drop n l : 0 ≤ n → blen (bdrop n l) = Z.max 0 (blen l - n).
Proof. intros Hn. unfold blen, bdrop. rewrite length_drop. lia. Qed.
Lemma btake_all n l : blen l ≤ n → btake n l = l.
Proof. unfold blen, btake. intros H. apply take_ge. lia. Qed.
Lemma bdrop_all n l : blen l ≤ n → bdrop n l = [].
Proof. unfold blen, bdrop. intros H. apply drop_ge. lia. Qed.
Lemma btake_0 l : btake 0 l = [].
Proof. done. Qed.
Lemma btake_neg n l : n ≤ 0 → btake n l = [].
Proof. intros H. unfold btake. by replace (Z.to_nat n) with 0%nat by lia. Qed.
Lemma bdrop_neg n l : n ≤ 0 → bdrop n l = l.
Proof. intros H. unfold bdrop. by replace (Z.to_nat n) with 0%nat by lia. Qed.
Lemma bdrop_0 l : bdrop 0 l = l.
Proof. done. Qed.
Lemma btake_drop n l : btake n l ++ bdrop n l = l.
Proof. apply take_drop. Qed.
Lemma btake_app n a b : 0 ≤ n → btake n (a ++ b) = btake n a ++ btake (n - blen a) b.
Proof. intros Hn. unfold btake, blen. rewrite take_app. do 2 f_equal. lia. Qed.
Lemma bdrop_app n a b : 0 ≤ n → bdrop n (a ++ b) = bdrop n a ++ bdrop (n - blen a) b.
Proof. intros Hn. unfold bdrop, blen. rewrite drop_app. do 2 f_equal. lia. Qed.
Lemma bdrop_drop n m l : 0 ≤ n → 0 ≤ m → bdrop n (bdrop m l) = bdrop (m + n) l.
Proof. intros Hn Hm. unfold bdrop. rewrite drop_drop. f_equal. lia. Qed.
Lemma btake_take n m l : 0 ≤ n → 0 ≤ m → btake n (btake m l) = btake (Z.min n m) l.
Proof. intros Hn Hm. unfold btake. rewrite take_take. f_equal. lia. Qed.

Lemma btake_add k n l : 0 ≤ k → 0 ≤ n → btake (k + n) l = btake k l ++ btake n (bdrop k l).
Proof. intros Hk Hn. unfold btake, bdrop. rewrite Z2Nat.inj_add by done. symmetry. apply take_take_drop. Qed.
Lemma btake_btake n m l : n ≤ m → btake n (btake m l) = btake n l.
Proof. intros H. unfold btake. rewrite take_take. f_equal. lia. Qed.
Lemma blen_nil l : blen l = 0 → l = [].
Proof. unfold blen. intros H. apply nil_length_inv. lia. Qed.

#[export] Hint Resolve blen_nonneg : core.

Lemma blen_overwrite off l c : 0 ≤ off → off + blen l ≤ blen c → blen (overwrite off l c) = blen c.
Proof.
  intros Ho Hl. pose proof (blen_nonneg l). unfold overwrite. rewrite !blen_app, blen_take, blen_drop by lia. lia.
Qed.

(** Two pieces one behind the other are one. *)
Lemma overwrite_app off a b c : 0 ≤ off → off + blen a ≤ blen c →
  overwrite (off + blen a) b (overwrite off a c) = overwrite off (a ++ b) c.
Proof.
  intros Ho Ha. pose proof (blen_nonneg a). pose proof (blen_nonneg b).
  assert (blen (btake off c ++ a) = off + blen a) as Hx by (rewrite blen_app, blen_take by done; lia).
  assert (overwrite off a c = (btake off c ++ a) ++ bdrop (off + blen a) c) as -> by (unfold overwrite; by rewrite app_assoc).
  unfold overwrite. rewrite (btake_app (off + blen a)), (bdrop_app (off + blen a + blen b)), Hx by lia.
  rewrite (btake_all (off + blen a)), (bdrop_all (off + blen a + blen b)) by lia.
  replace (off + blen a - (off + blen a)) with 0 by lia. rewrite btake_0, app_nil_r, blen_app. cbn [app].
  rewrite bdrop_drop by lia. rewrite <- !app_assoc. do 4 f_equal. lia.
Qed.

Lemma overwrite_nil off c : overwrite off [] c = c.
Proof. unfold overwrite. cbn [app]. change (blen []) with 0. rewrite Z.add_0_r. apply btake_drop. Qed.

Definition joined (bufs : list bytes) : bytes := concat bufs.
Lemma joined_one b : joined [b] = b.
Proof. apply app_nil_r. Qed.
Lemma joined_cons b bs : joined (b :: bs) = b ++ joined bs.
Proof. done. Qed.

Section spec.
Context `{P : Profile} {F : Type} `{O : PhysObj F} `{R : !Reliable F}.
Implicit Type f : F.

Lemma pwrite_run f off l : 0 ≤ off → ∃ f', pwrite f off l = (Ok (Z.min (blen l) (Z.max 0 (blen (content f) - off))), f') ∧
  content f' = overwrite off (btake (Z.min (blen l) (Z.max 0 (blen (content f) - off))) l) (content f).
Proof.
  intros Ho. destruct (pwrite f off l) as [[n|e|] f'] eqn:Hw.
  - destruct (pwrite_ok f off l n f' Ho Hw) as [-> Hc]. by exists f'.
  - pose proof (writes f off l) as H. by rewrite Hw in H.
  - pose proof (writes f off l) as H. by rewrite Hw in H.
Qed.
Lemma presize_run f n : 0 < n → ∃ f', presize f n = (Ok (), f') ∧ content f' = btake n (content f ++ replicate (Z.to_nat n) 0).
Proof.
  intros Hn. pose proof (resizes f n Hn) as H. destruct (presize f n) as [[[]|e|] f'] eqn:Hw; [|done|done].
  exists f'. split; [done|]. by apply presize_ok.
Qed.
Lemma pread_run f off cap : 0 ≤ off → 0 ≤ cap → pread f off cap = Ok (btake cap (bdrop off (content f))).
Proof.
  intros Ho Hc. destruct (reads f off cap) as [_ H]. destruct (pread f off cap) as [l|e|] eqn:Hr; [|done|done].
  by rewrite (pread_ok f off cap l Ho Hc Hr).
Qed.

(** ** Writing *)

Definition room (s : stream F) : Z := Z.max 0 (blen (content (sphys s)) - seeker s).

Lemma write_inner_ok bufs w s : 0 ≤ seeker s → 0 ≤ w → seeker s + blen (joined bufs) < 2 ^ 64 → w + blen (joined bufs) < 2 ^ 64 →
  let n := Z.min (blen (joined bufs)) (room s) in
  ∃ f', write_inner (blen (content (sphys s))) w bufs s =
      (Ok (if blen (joined bufs) <=? room s then inl (w + n) else inr (w + n)), MkStream f' (seeker s + n)) ∧
    content f' = overwrite (seeker s) (btake n (joined bufs)) (content (sphys s)).
Proof.
  revert w s. induction bufs as [|buf bufs IH]; intros w [f sk] Hsk Hw Hlt Hlw; cbn [sphys seeker] in *.
  { exists f. unfold room. cbn [sphys seeker write_inner]. change (blen (joined [])) with 0. rewrite Z.min_l, !Z.add_0_r by lia.
    rewrite (proj2 (Z.leb_le _ _)) by lia. split; [done|]. apply eq_sym, overwrite_nil. }
  cbn [write_inner]. rewrite joined_cons in *. rewrite blen_app in *. pose proof (blen_nonneg buf). pose proof (blen_nonneg (joined bufs)).
  destruct (Z.eqb_spec (blen buf) 0) as [Hb|Hb].
  { apply blen_nil in Hb as ->. cbn [app]. change (blen []) with 0. rewrite Z.add_0_l. by apply (IH w (MkStream f sk)); cbn; lia. }
  unfold room. cbn [sphys seeker]. set (len := blen (content f)). set (rm := Z.max 0 (len - sk)).
  rewrite st_get_bind. cbn [sphys seeker]. unfold saturating_sub. fold rm. set (k := Z.min (blen buf) rm).
  destruct (pwrite_run f sk (btake k buf) Hsk) as (f1 & Hf1 & Hc1). rewrite blen_take in Hf1, Hc1 by lia. fold len in Hf1, Hc1. fold rm in Hf1, Hc1.
  replace (Z.min (Z.min k (blen buf)) rm) with k in Hf1, Hc1 by lia. rewrite btake_btake in Hc1 by lia.
  erewrite st_bind_ok; [|unfold write_here; cbn; by rewrite Hf1]. cbn [sphys seeker].
  rewrite !uadd_ok by lia. rewrite (st_lift_ok _ _ _ _ eq_refl). unfold set_seeker. rewrite st_modify_bind, (st_lift_ok _ _ _ _ eq_refl).
  cbn [sphys seeker]. destruct (Z.ltb_spec k (blen buf)) as [Hk|Hk].
  { rewrite (proj2 (Z.leb_gt _ _)) by lia. replace (Z.min (blen buf + blen (joined bufs)) rm) with k by lia. exists f1. split; [done|].
    rewrite Hc1, btake_app by lia. by rewrite (btake_neg (k - blen buf)), app_nil_r by lia. }
  assert (0 < blen buf ≤ rm) as Hfit by lia. assert (sk + blen buf ≤ len) as Hin by lia.
  replace k with (blen buf) in * by lia. clear k. rewrite btake_all in Hc1 by lia.
  assert (Hlen : blen (content f1) = len) by (rewrite Hc1; by apply blen_overwrite).
  destruct (IH (w + blen buf) (MkStream f1 (sk + blen buf))) as (f2 & Hf2 & Hc2); cbn [sphys seeker] in *; [lia..|].
  unfold room in Hf2, Hc2. cbn [sphys seeker] in Hf2, Hc2. rewrite Hlen in Hf2, Hc2.
  replace (Z.max 0 (len - (sk + blen buf))) with (rm - blen buf) in Hf2, Hc2 by lia.
  set (m := Z.min (blen (joined bufs)) (rm - blen buf)) in *. replace (Z.min (blen buf + blen (joined bufs)) rm) with (blen buf + m) by lia.
  exists f2. split.
  - rewrite Hf2. f_equal; [f_equal|f_equal; lia].
    replace (blen buf + blen (joined bufs) <=? rm) with (blen (joined bufs) <=? rm - blen buf) by (apply eq_true_iff_eq; rewrite !Z.leb_le; lia).
    case_match; f_equal; lia.
  - rewrite Hc2, Hc1, overwrite_app by done. f_equal. rewrite btake_app, (btake_all (blen buf + m) buf) by lia. do 2 f_equal. lia.
Qed.

Lemma advance_ok bufs acc n : 0 ≤ acc ≤ n → n - acc ≤ blen (joined bufs) → acc + blen (joined bufs) < 2 ^ 64 →
  ∃ rest, advance_loop acc n bufs = Ok rest ∧ joined rest = bdrop (n - acc) (joined bufs) ∧ (rest = [] ↔ n - acc = blen (joined bufs)).
Proof.
  revert acc. induction bufs as [|buf bufs IH]; intros acc Ha Hn Hlt; cbn [advance_loop].
  { change (blen (joined [])) with 0 in *. rewrite (proj2 (Z.eqb_eq _ _)) by lia. exists []. split; [done|].
    split; [rewrite bdrop_all; [done|change (blen (joined [])) with 0; lia]|]. split; [lia|done]. }
  rewrite joined_cons, blen_app in *. pose proof (blen_nonneg buf). pose proof (blen_nonneg (joined bufs)).
  rewrite uadd_ok by lia. cbn [mbind res_bind]. destruct (Z.gtb_spec (acc + blen buf) n) as [Hg|Hg].
  - eexists. split; [done|]. rewrite joined_cons, bdrop_app by lia. split; [|split; [done|lia]].
    rewrite (bdrop_neg (n - acc - blen buf)) by lia. done.
  - destruct (IH (acc + blen buf)) as (rest & Hr & Hj & Hi); [lia..|]. exists rest. split; [done|].
    rewrite Hj, Hi, bdrop_app, (bdrop_all (n - acc) buf) by lia. cbn [app]. split; [f_equal; lia|lia].
Qed.

Lemma total_ok bufs : blen (joined bufs) < 2 ^ 64 → total bufs = Ok (blen (joined bufs)).
Proof.
  induction bufs as [|buf bufs IH]; cbn [total]; [done|]. rewrite joined_cons, blen_app. intros H.
  pose proof (blen_nonneg buf). pose proof (blen_nonneg (joined bufs)). rewrite IH by lia. cbn [mbind res_bind]. by rewrite uadd_ok by lia.
Qed.

(** What does not fit is appended. *)
Lemma overwrite_append off d1 d2 c : 0 ≤ off → off + blen d1 = blen c →
  overwrite (blen c) d2 (btake (blen c + blen d2) (overwrite off d1 c ++ replicate (Z.to_nat (blen c + blen d2)) 0)) =
  overwrite off (d1 ++ d2) c.
Proof.
  intros Ho Hd. pose proof (blen_nonneg d1). pose proof (blen_nonneg d2). pose proof (blen_nonneg c).
  assert (Hx : blen (overwrite off d1 c) = blen c) by (apply blen_overwrite; lia).
  assert (Hc : overwrite off d1 c = btake off c ++ d1).
  { unfold overwrite. rewrite (bdrop_all (off + blen d1)) by lia. by rewrite app_nil_r. }
  rewrite btake_app, Hx, (btake_all _ (overwrite off d1 c)) by lia. unfold overwrite at 1.
  rewrite (btake_app (blen c)), Hx, (btake_all (blen c) (overwrite off d1 c)), btake_neg, app_nil_r by lia.
  rewrite bdrop_all by (rewrite blen_app, Hx, blen_take by lia; lia). rewrite Hc, app_nil_r. unfold overwrite.
  rewrite blen_app, (bdrop_all (off + (blen d1 + blen d2))) by lia. by rewrite app_nil_r, <- app_assoc.
Qed.

Lemma match_cons {A B} (l : list A) (x y : B) : l ≠ [] → match l with [] => x | _ :: _ => y end = y.
Proof. by destruct l. Qed.

(** The second half of a write: the object grows, and the rest fits. *)
Lemma grow_write_ok f bufs n : let len := blen (content f) in
  0 ≤ n → 0 < blen (joined bufs) → len + blen (joined bufs) < 2 ^ 64 → n + blen (joined bufs) < 2 ^ 64 →
  ∃ f', (additional ← lift (total bufs); len' ← lift (len +! additional); _ ← resize_to len';
         r ← write_inner len' 0 bufs; lift (n +! match r with inl k => k | inr k => k end)) (MkStream f len) =
      (Ok (n + blen (joined bufs)), MkStream f' (len + blen (joined bufs))) ∧
    content f' = overwrite len (joined bufs) (btake (len + blen (joined bufs)) (content f ++ replicate (Z.to_nat (len + blen (joined bufs))) 0)).
Proof.
  intros len Hn Hpos Hlt Hlt'. assert (0 ≤ len) by apply blen_nonneg.
  rewrite total_ok, (st_lift_ok _ _ _ _ eq_refl) by lia. rewrite (uadd_ok W len) by lia. rewrite (st_lift_ok _ _ _ _ eq_refl).
  destruct (presize_run f (len + blen (joined bufs))) as (f2 & Hf2 & Hc2); [lia|].
  erewrite st_bind_ok; [|unfold resize_to; rewrite (proj2 (Z.eqb_neq _ _)) by lia; cbn; by rewrite Hf2].
  assert (Hl2 : blen (content f2) = len + blen (joined bufs)).
  { rewrite Hc2, blen_take, blen_app by lia. fold len. unfold blen at 2. rewrite length_replicate. lia. }
  destruct (write_inner_ok bufs 0 (MkStream f2 len)) as (f3 & Hf3 & Hc3); unfold room in *; cbn [sphys seeker] in *; [lia..|].
  rewrite Hl2 in Hf3, Hc3. rewrite Z.min_l in Hf3, Hc3 by lia. rewrite (proj2 (Z.leb_le _ _)) in Hf3 by lia.
  erewrite st_bind_ok by exact Hf3. cbv iota. rewrite Z.add_0_l, uadd_ok by lia. exists f3. split; [done|].
  by rewrite Hc3, btake_all, Hc2 by lia.
Qed.

(** Writing in parts at a place in the object or at its end. *)
Lemma write_ok bufs f sk : 0 ≤ sk ≤ blen (content f) → blen (content f) + blen (joined bufs) < 2 ^ 64 →
  ∃ f', write_vectored bufs (MkStream f sk) = (Ok (blen (joined bufs)), MkStream f' (sk + blen (joined bufs))) ∧
    content f' = overwrite sk (joined bufs) (content f).
Proof.
  intros Hsk Hlt. pose proof (blen_nonneg (joined bufs)) as H0. set (len := blen (content f)) in *.
  destruct (advance_ok bufs 0 0) as (b1 & Hb1 & Hj1 & _); [lia..|]. rewrite Z.sub_0_r, bdrop_0 in Hj1. unfold write_vectored, advance_slices.
  rewrite Hb1, (st_lift_ok _ _ _ _ eq_refl), st_get_bind. cbn [sphys]. fold len. rewrite <- Hj1 in *. clear bufs Hb1 Hj1.
  destruct (write_inner_ok b1 0 (MkStream f sk)) as (f1 & Hf1 & Hc1); cbn [sphys seeker] in *; [lia..|]. fold len in Hf1, Hc1.
  unfold room in Hf1, Hc1. cbn [sphys seeker] in Hf1, Hc1. fold len in Hf1, Hc1. rewrite (Z.max_r 0) in Hf1, Hc1 by lia.
  erewrite st_bind_ok by exact Hf1. destruct (Z.leb_spec (blen (joined b1)) (len - sk)) as [Hfit|Hno].
  { rewrite Z.min_l in Hc1 |- * by lia. rewrite btake_all in Hc1 by lia. by exists f1. }
  rewrite Z.min_r in Hc1 |- * by lia. rewrite Z.add_0_l. destruct (advance_ok b1 0 (len - sk)) as (b2 & Hb2 & Hj2 & Hi); [lia..|].
  rewrite Z.sub_0_r in *. rewrite Hb2, (st_lift_ok _ _ _ _ eq_refl). assert (Hne : b2 ≠ []) by (intros ->; pose proof (proj1 Hi eq_refl); lia).
  rewrite (match_cons b2 _ _ Hne). pose proof (grow_write_ok f1 b2 (len - sk)) as Hg. cbv zeta in Hg.
  assert (Hl2 : blen (joined b2) = blen (joined b1) - (len - sk)) by (rewrite Hj2, blen_drop by lia; lia).
  assert (Hd1 : blen (btake (len - sk) (joined b1)) = len - sk) by (rewrite blen_take by lia; lia).
  assert (Hl1 : blen (content f1) = len) by (rewrite Hc1; apply blen_overwrite; lia). rewrite Hl1 in Hg.
  replace (sk + (len - sk)) with len by lia. destruct Hg as (f2 & -> & Hc2); [lia..|]. exists f2. split.
  - by replace (len - sk + blen (joined b2)) with (blen (joined b1)) by lia; replace (len + blen (joined b2)) with (sk + blen (joined b1)) by lia.
  - rewrite Hc2, Hc1. unfold len. rewrite overwrite_append by (fold len; lia). by rewrite Hj2, btake_drop.
Qed.

(** ** Reading *)

Section reading.
Context (grow : Z → Z → Z) (Hgrow : ∀ a b, Z.max a b ≤ grow a b).

(** What one buffer takes of what is left behind [pos]. *)
Lemma take_cached c pos cap want buf : 0 ≤ pos → 0 ≤ cap → Z.min (blen buf) (Z.max 0 (blen c - pos)) ≤ want →
  let cache := btake (grow cap want) (bdrop pos c) in let k := Z.min (blen buf) (Z.max 0 (blen c - pos)) in
  Z.min (blen cache) (blen buf) = k ∧ btake k cache = btake k (bdrop pos c) ∧ 0 ≤ grow cap want.
Proof.
  intros Hp Hc Hw cache k. pose proof (Hgrow cap want). pose proof (blen_nonneg buf). unfold cache.
  rewrite blen_take, blen_drop by lia. rewrite btake_btake by lia. split; [lia|]. split; [done|lia].
Qed.

(** The pieces the buffers got are one piece of the object. *)
Lemma joined_filled c pos buf k rest out :
  0 ≤ pos → k = Z.min (blen buf) (Z.max 0 (blen c - pos)) →
  let n := Z.min (blen (joined rest)) (Z.max 0 (blen c - (pos + k))) in
  (k < blen buf ∧ out = rest ∨ k = blen buf ∧ joined out = btake n (bdrop (pos + k) c) ++ bdrop n (joined rest)) →
  let m := Z.min (blen buf + blen (joined rest)) (Z.max 0 (blen c - pos)) in
  m = (if k <? blen buf then k else k + n) ∧
  joined ((btake k (bdrop pos c) ++ bdrop k buf) :: out) = btake m (bdrop pos c) ++ bdrop m (joined (buf :: rest)).
Proof.
  intros Hp Hk n Hout m. pose proof (blen_nonneg buf). pose proof (blen_nonneg (joined rest)). rewrite !joined_cons.
  destruct Hout as [[Hlt ->]|[Heq ->]].
  - rewrite (proj2 (Z.ltb_lt _ _)) by done. assert (m = k) as -> by lia. split; [done|].
    rewrite bdrop_app by lia. by rewrite (bdrop_neg (k - blen buf)), <- !app_assoc by lia.
  - rewrite (proj2 (Z.ltb_ge _ _)) by lia. assert (m = k + n) as -> by lia. split; [done|].
    rewrite (bdrop_all k buf), app_nil_r by lia. rewrite (bdrop_app (k + n)), (bdrop_all (k + n) buf) by lia. cbn [app].
    replace (k + n - blen buf) with n by lia. rewrite app_assoc. f_equal.
    by rewrite btake_add, bdrop_drop by lia.
Qed.

Lemma read_loop_ok bufs : ∀ cap acc f sk, 0 ≤ sk → 0 ≤ cap → 0 ≤ acc → acc + blen (joined bufs) < 2 ^ 64 → sk + blen (joined bufs) < 2 ^ 64 →
  let n := Z.min (blen (joined bufs)) (Z.max 0 (blen (content f) - sk)) in
  ∃ out, read_loop grow (blen (content f)) cap acc bufs (MkStream f sk) = (Ok (acc + n, out), MkStream f (sk + n)) ∧
    joined out = btake n (bdrop sk (content f)) ++ bdrop n (joined bufs) ∧ map blen out = map blen bufs.
Proof.
  induction bufs as [|buf bufs IH]; intros cap acc f sk Hsk Hcap Hacc Ha Hs n.
  { exists []. subst n. cbn [read_loop]. change (blen (joined [])) with 0. rewrite Z.min_l, !Z.add_0_r by lia. done. }
  cbn [read_loop]. subst n. rewrite joined_cons, blen_app in *. pose proof (blen_nonneg buf). pose proof (blen_nonneg (joined bufs)).
  destruct (Z.eqb_spec (blen buf) 0) as [Hb|Hb].
  { destruct (IH cap acc f sk) as (out & Hr & Hj & Hm); [lia..|]. erewrite st_bind_ok by exact Hr. apply blen_nil in Hb as ->.
    cbn [app]. change (blen []) with 0. rewrite Z.add_0_l. exists ([] :: out). split; [done|]. split; [done|]. cbn. by rewrite Hm. }
  rewrite st_get_bind. cbn [sphys seeker]. unfold saturating_sub. set (want := Z.min (blen buf) _).
  destruct (take_cached (content f) sk cap want buf) as (Hk & Ht & Hg); [lia..|]. rewrite pread_run by lia.
  cbn [other map_err]. rewrite (st_lift_ok _ _ _ _ eq_refl). fold want in Hk, Ht. rewrite Hk, Ht.
  rewrite !uadd_ok by lia. rewrite !(st_lift_ok _ _ _ _ eq_refl). unfold set_seeker. rewrite st_modify_bind. cbn [sphys seeker].
  destruct (Z.ltb_spec want (blen buf)) as [Hlt|Hge].
  - destruct (joined_filled (content f) sk buf want bufs bufs) as [Hm Hj]; [lia|done|by left|].
    rewrite (proj2 (Z.ltb_lt _ _)) in Hm by done. rewrite Hm in Hj |- *. eexists. split; [done|]. split; [exact Hj|].
    cbn [map]. f_equal. rewrite blen_app, blen_take, !blen_drop by lia. lia.
  - destruct (IH (grow cap want) (acc + want) f (sk + want)) as (out & Hr & Hj & Hm); [lia..|].
    destruct (joined_filled (content f) sk buf want bufs out) as [Hn Hj2]; [lia|done|right; split; [lia|done]|].
    rewrite (proj2 (Z.ltb_ge _ _)) in Hn by done. erewrite st_bind_ok by exact Hr. rewrite Hn in Hj2 |- *. rewrite !Z.add_assoc.
    eexists. split; [done|]. split; [exact Hj2|]. cbn [map]. rewrite Hm. f_equal. rewrite blen_app, blen_take, !blen_drop by lia. lia.
Qed.

(** Reading at a position of its own: the capacity suffices when the seeker is not behind it. *)
Lemma read_at_loop_ok bufs : ∀ cap pos acc f sk, 0 ≤ sk ≤ pos → 0 ≤ cap → 0 ≤ acc → acc + blen (joined bufs) < 2 ^ 64 → pos + blen (joined bufs) < 2 ^ 64 →
  let n := Z.min (blen (joined bufs)) (Z.max 0 (blen (content f) - pos)) in
  ∃ out, read_at_loop grow (blen (content f)) cap pos acc bufs (MkStream f sk) = (Ok (acc + n, out), MkStream f sk) ∧
    joined out = btake n (bdrop pos (content f)) ++ bdrop n (joined bufs) ∧ map blen out = map blen bufs.
Proof.
  induction bufs as [|buf bufs IH]; intros cap pos acc f sk Hsk Hcap Hacc Ha Hs n.
  { exists []. subst n. cbn [read_at_loop]. change (blen (joined [])) with 0. rewrite Z.min_l, !Z.add_0_r by lia. done. }
  cbn [read_at_loop]. subst n. rewrite joined_cons, blen_app in *. pose proof (blen_nonneg buf). pose proof (blen_nonneg (joined bufs)).
  destruct (Z.eqb_spec (blen buf) 0) as [Hb|Hb].
  { destruct (IH cap pos acc f sk) as (out & Hr & Hj & Hm); [lia..|]. erewrite st_bind_ok by exact Hr. apply blen_nil in Hb as ->.
    cbn [app]. change (blen []) with 0. rewrite Z.add_0_l. exists ([] :: out). split; [done|]. split; [done|]. cbn. by rewrite Hm. }
  rewrite st_get_bind. cbn [sphys seeker]. unfold saturating_sub.
  destruct (take_cached (content f) pos cap (Z.min (blen buf) (Z.max 0 (blen (content f) - sk))) buf) as (Hk & Ht & Hg); [lia..|].
  rewrite pread_run by lia. cbn [other map_err]. rewrite (st_lift_ok _ _ _ _ eq_refl), Hk, Ht. set (got := Z.min (blen buf) (Z.max 0 (blen (content f) - pos))).
  rewrite !uadd_ok by lia. rewrite !(st_lift_ok _ _ _ _ eq_refl).
  destruct (Z.ltb_spec got (blen buf)) as [Hlt|Hge].
  - destruct (joined_filled (content f) pos buf got bufs bufs) as [Hm Hj]; [lia|done|by left|].
    rewrite (proj2 (Z.ltb_lt _ _)) in Hm by done. rewrite Hm in Hj |- *. eexists. split; [done|]. split; [exact Hj|].
    cbn [map]. f_equal. rewrite blen_app, blen_take, !blen_drop by lia. lia.
  - edestruct (IH (grow cap (Z.min (blen buf) (Z.max 0 (blen (content f) - sk)))) (pos + got) (acc + got) f sk) as (out & Hr & Hj & Hm); [lia..|].
    destruct (joined_filled (content f) pos buf got bufs out) as [Hn Hj2]; [lia|done|right; split; [lia|done]|].
    rewrite (proj2 (Z.ltb_ge _ _)) in Hn by done. erewrite st_bind_ok by exact Hr. rewrite Hn in Hj2 |- *. rewrite !Z.add_assoc.
    eexists. split; [done|]. split; [exact Hj2|]. cbn [map]. rewrite Hm. f_equal. rewrite blen_app, blen_take, !blen_drop by lia. lia.
Qed.

Lemma read_run bufs f sk : 0 ≤ sk → sk + blen (joined bufs) < 2 ^ 64 →
  let n := Z.min (blen (joined bufs)) (Z.max 0 (blen (content f) - sk)) in
  ∃ out, read_vectored grow bufs (MkStream f sk) = (Ok (n, out), MkStream f (sk + n)) ∧
    joined out = btake n (bdrop sk (content f)) ++ bdrop n (joined bufs) ∧ map blen out = map blen bufs.
Proof. intros Hs Hl. unfold read_vectored. rewrite st_get_bind. apply (read_loop_ok bufs 0 0 f sk); lia. Qed.

(** Reading to several buffers is reading one piece of the object at the seeker: as many
    bytes as fit and as there are, to the buffers in their order, of which the rest is left as
    it was; the seeker moves behind the piece and the object is not changed. Reading at a
    position does the same there and leaves the seeker, if the seeker is not behind the
    position. *)
Theorem stream_reads bufs pos f sk : 0 ≤ sk ≤ pos → pos + blen (joined bufs) < 2 ^ 64 →
  let piece p n out := joined out = btake n (bdrop p (content f)) ++ bdrop n (joined bufs) ∧ map blen out = map blen bufs in
  let n p := Z.min (blen (joined bufs)) (Z.max 0 (blen (content f) - p)) in
  (∃ out, read_vectored grow bufs (MkStream f sk) = (Ok (n sk, out), MkStream f (sk + n sk)) ∧ piece sk (n sk) out) ∧
  (∃ out, read_at_vectored grow pos bufs (MkStream f sk) = (Ok (n pos, out), MkStream f sk) ∧ piece pos (n pos) out).
Proof.
  intros Hs Hl piece n. split; [apply read_run; lia|]. unfold read_at_vectored. rewrite st_get_bind.
  apply (read_at_loop_ok bufs 0 pos 0 f sk); lia.
Qed.
End reading.

(** Writing several buffers is writing one piece to the object at the seeker, or at a
    position without a move of the seeker. All the bytes are written, and the object grows when
    the piece reaches over its end, if the piece starts in the object or at its end. *)
Theorem stream_writes bufs pos f sk : 0 ≤ pos ≤ blen (content f) → blen (content f) + blen (joined bufs) < 2 ^ 64 →
  (∃ f', write_vectored bufs (MkStream f pos) = (Ok (blen (joined bufs)), MkStream f' (pos + blen (joined bufs))) ∧
    content f' = overwrite pos (joined bufs) (content f)) ∧
  (∃ f', write_at_vectored pos bufs (MkStream f sk) = (Ok (blen (joined bufs)), MkStream f' sk) ∧
    content f' = overwrite pos (joined bufs) (content f)).
Proof.
  intros Hp Hl. destruct (write_ok bufs f pos Hp Hl) as (f' & Hw & Hc). split; [by exists f'|].
  exists f'. split; [|done]. unfold write_at_vectored. cbn [sphys]. by rewrite Hw.
Qed.
End spec.

(** ** Objects that are lists of bytes *)

Module StreamWitness.

#[export] Instance phys_list : PhysObj bytes.
Proof.
  refine {| content f := f;
    pread f off cap := Ok (btake cap (bdrop off f));
    pwrite f off l := let n := Z.min (blen l) (Z.max 0 (blen f - off)) in (Ok n, overwrite off (btake n l) f);
    presize f n := (Ok (), btake n (f ++ replicate (Z.to_nat n) 0)) |}.
  - intros f off cap l _ _ [= <-]. by left.
  - intros f off l n f' _ [= <- <-]. split; by left.
  - by intros f n f' _ [= <-].
Defined.
#[export] Instance phys_list_immediate : Immediate bytes.
Proof. split; [by intros f off cap l _ _ [= <-]|by intros f off l n f' _ [= <- <-]]. Defined.
#[export] Instance phys_list_reliable : Reliable bytes.
Proof. by split; [apply phys_list_immediate|..]. Defined.

#[export] Instance release : Profile := false.

Definition bytes_1_5 : bytes := [1; 2; 3; 4; 5].

Lemma stream_writes_witness :
  write_vectored [[7]; []; [8; 9; 10]] (MkStream bytes_1_5 3) = (Ok 4, MkStream [1; 2; 3; 7; 8; 9; 10] 7) ∧
  write_at_vectored 3 [[7]; []; [8; 9; 10]] (MkStream bytes_1_5 1) = (Ok 4, MkStream [1; 2; 3; 7; 8; 9; 10] 1).
Proof.
  destruct (stream_writes [[7]; []; [8; 9; 10]] 3 bytes_1_5 1) as [(f & -> & Hf) (g & -> & Hg)]; [split; discriminate|reflexivity|].
  cbn in Hf, Hg. subst f g. split; reflexivity.
Defined.

Lemma stream_reads_witness :
  (read_vectored Z.max [[0]; []; [0; 0; 0]] (MkStream bytes_1_5 2)).1 = Ok (3, [[3]; []; [4; 5; 0]]) ∧
  (∃ out, read_at_vectored Z.max 4 [[0]; []; [0; 0; 0]] (MkStream bytes_1_5 2) = (Ok (1, out), MkStream bytes_1_5 2)).
Proof.
  destruct (stream_reads Z.max ltac:(intros; lia) [[0]; []; [0; 0; 0]] 4 bytes_1_5 2) as [_ (out & Hr & _)]; [split; discriminate|reflexivity|].
  split; [reflexivity|]. by exists out.
Defined.

(** The room for a read at a position is made for what is behind the seeker: with the seeker at
    the end nothing is read. *)
Example read_at_needs_seeker :
  (read_at Z.max 1 [0; 0] (MkStream bytes_1_5 0)).1 = Ok (2, [2; 3]) ∧ (read_at Z.max 1 [0; 0] (MkStream bytes_1_5 5)).1 = Ok (0, [0; 0]).
Proof. by vm_compute. Qed.

(** A write behind the end gets only what the object grew by: the bytes are lost, though the
    object is longer. *)
Example write_past_end :
  write [7; 8] (MkStream bytes_1_5 6) = (Ok 1, MkStream [1; 2; 3; 4; 5; 0; 7] 7) ∧
  write [7; 8] (MkStream bytes_1_5 9) = (Ok 0, MkStream [1; 2; 3; 4; 5; 0; 0] 9).
Proof. by vm_compute. Qed.

(** What a call that was waited for gives is always 0. *)
Example waited_length_lost n : pack_receive (Ok n) false = Ok 0.
Proof. done. Qed.

(** Bytes whose writes are always waited for: they are made, and reported as none, so that
    the stream does not move and the caller writes them again. *)
Record busy := MkBusy { held : bytes }.
#[export] Instance phys_busy : PhysObj busy.
Proof.
  refine {| content := held;
    pread f off cap := Ok [];
    pwrite f off l := (pack_receive (Ok (blen l)) false, MkBusy (overwrite off (btake (Z.min (blen l) (Z.max 0 (blen (held f) - off))) l) (held f)));
    presize f n := (Ok (), MkBusy (btake n (held f ++ replicate (Z.to_nat n) 0))) |}.
  - intros f off cap l _ _ [= <-]. by right.
  - intros f off l n f' _ [= <- <-]. split; [by right|by left].
  - by intros f n f' _ [= <-].
Defined.
Example waited_write : write [7; 8] (MkStream (MkBusy bytes_1_5) 1) = (Ok 0, MkStream (MkBusy [1; 7; 8; 4; 5; 0; 0]) 1).
Proof. vm_compute. reflexivity. Qed.
End StreamWitness.
