(* ===== verification/FileServer.v ===== *)
(** * Servers of files ([h2o_fs/src/file.rs], [file], [mem/file.rs])

    A connection to a file is served by a task that answers its requests one after the other
    ([handle_impl]). The task has a file with a position of its own ([DirectFile]) or a stream
    over the memory of the file ([StreamFile]); the requests are answered from what both of
    them offer ([StreamIo]). The connections of a file in memory share the file: its physical
    object and its lock. One request is one step, and the steps of the connections come in any
    order. *)

From S2P Require Import Base SysCall Path LocalFs MemFs Stream.
Local Open Scope Z_scope.
Local Open Scope h2o_scope.

(** [From<solvent_async::io::Error>]. *)
Definition from_io (e : io_error) : fs_error :=
  match e with InvalidSeekFrom _ => InvalidSeek | OtherError e => Other (SysCall.raw e) end.

Inductive PhysOptions := SharedPhys | CopyPhys.

(** ** The traits *)

(** [File] for a world [S]; [F] are physical objects, and a [RawStream] is one with a position. *)
Class File (S F : Type) := {
  file_open : path → Z → Z → st S fs_error ();
  file_metadata : st S fs_error Metadata;
  file_lock : option (stream F) → st S fs_error (option (stream F));
  file_unlock : st S fs_error ();
  file_flush : st S fs_error ();
  file_read_at : Z → bytes → st S fs_error (Z * bytes);
  file_write_at : Z → bytes → st S fs_error Z;
  file_len : st S fs_error Z;
  file_resize : Z → st S fs_error ();
  file_phys : PhysOptions → st S fs_error F;
}.

(** The default of [File::is_empty]. *)
Definition file_is_empty {S F} `{File S F} : st S fs_error bool := len ← file_len; mret (negb (len =? 0)).

(** [StreamIo] for a file with a state [L] of its own. *)
Class StreamIo (L S F : Type) := {
  io_lock : st (L * S) fs_error (option (stream F));
  io_read : bytes → st (L * S) fs_error (Z * bytes);
  io_read_at : Z → bytes → st (L * S) fs_error (Z * bytes);
  io_write : bytes → st (L * S) fs_error Z;
  io_write_at : Z → bytes → st (L * S) fs_error Z;
  io_resize : Z → st (L * S) fs_error ();
  io_seek : SeekFrom → st (L * S) fs_error Z;
  io_phys : PhysOptions → st (L * S) fs_error F;
  io_drop : st (L * S) fs_error ();
}.

(** A step of the world, and of the state of its own. *)
Definition on_world {L S E A} (m : st S E A) : st (L * S) E A := λ s, let '(r, w) := m s.2 in (r, (s.1, w)).
Definition own {L S E} : st (L * S) E L := s ← get; mret s.1.
Definition set_own {L S E} (l : L) : st (L * S) E () := modify (λ s, (l, s.2)).

(** [let _ = m]. *)
Definition ignored {S E A} (m : st S E A) : st S E () := λ s,
  let '(r, s) := m s in (match r with Panic => Panic | _ => Ok () end, s).

(** ** [DirectFile] *)

Record DirectFile := MkDirect { dseeker : Z; dlocked : bool }.

Section direct.
Context `{P : Profile} {S F : Type} `{X : File S F}.
Abbreviation dm := (st (DirectFile * S) fs_error).

Definition set_dseeker (z : Z) : dm () := d ← own; set_own (MkDirect z (dlocked d)).

Definition direct_lock : dm (option (stream F)) :=
  d ← own;
  if dlocked d then mret None
  else
    r ← on_world (file_lock None);
    _ ← set_own (MkDirect (dseeker d) true);
    mret r.

Definition direct_read (buf : bytes) : dm (Z * bytes) :=
  d ← own;
  '(n, buf) ← on_world (file_read_at (dseeker d) buf);
  z ← lift (dseeker d +! n);
  _ ← set_dseeker z;
  mret (n, buf).

Definition direct_write (buf : bytes) : dm Z :=
  d ← own;
  n ← on_world (file_write_at (dseeker d) buf);
  z ← lift (dseeker d +! n);
  _ ← set_dseeker z;
  mret n.

Definition seek_isize (start pos : Z) : res fs_error Z :=
  if pos >? 0 then start +! pos
  else
    delta ← neg_usize pos;
    if start <? delta then Err InvalidSeek else Ok (start - delta).

Definition direct_seek (pos : SeekFrom) : dm Z :=
  new ← (match pos with
         | Start pos => mret pos
         | Current pos => d ← own; lift (seek_isize (dseeker d) pos)
         | End pos => len ← on_world file_len; lift (seek_isize len pos)
         end);
  _ ← set_dseeker new;
  mret new.

(** [DirectFile::drop]. *)
Definition direct_drop : dm () :=
  d ← own;
  if dlocked d then ignored (on_world file_unlock) else mret ().

#[export] Instance direct_io : StreamIo DirectFile S F := {
  io_lock := direct_lock;
  io_read := direct_read;
  io_read_at pos buf := on_world (file_read_at pos buf);
  io_write := direct_write;
  io_write_at pos buf := on_world (file_write_at pos buf);
  io_resize n := on_world (file_resize n);
  io_seek := direct_seek;
  io_phys o := on_world (file_phys o);
  io_drop := direct_drop;
}.
End direct.

(** ** [StreamFile] *)

Record StreamFile := MkStreamFile { sraw : option Z; slocked : bool }.

(** The world has the memory the streams of a file read and write. *)
Class Backed (S F : Type) := { backing : S → F; set_backing : F → S → S }.

Section stream_file.
Context `{P : Profile} {S F : Type} `{O : PhysObj F} `{X : File S F} `{B : Backed S F} (grow : Z → Z → Z).
(** [FileEventSender::send] with [UNLOCK]. *)
Context (send_unlock : st S fs_error ()).
Abbreviation sm := (st (StreamFile * S) fs_error).

(** An operation of the stream with the given position. *)
Definition on_stream {A} (z : Z) (m : st (stream F) io_error A) : sm A := λ s,
  let '(r, s') := m (MkStream (backing s.2) z) in
  (map_err from_io r, (MkStreamFile (Some (seeker s')) (slocked s.1), set_backing (sphys s') s.2)).

(** [StreamFile::stream], and an operation of the stream. *)
Definition with_stream {A} (m : st (stream F) io_error A) : sm A :=
  f ← own;
  match sraw f with
  | None => lift (Err WouldBlock)
  | Some z => on_stream z m
  end.

Definition sfile_lock : sm (option (stream F)) :=
  f ← own;
  if slocked f then mret None
  else
    s ← get;
    _ ← set_own (MkStreamFile None (slocked f));
    r ← on_world (file_lock (MkStream (backing s.2) <$> sraw f));
    _ ← set_own (MkStreamFile None true);
    mret r.

(** [StreamFile::drop]. *)
Definition sfile_drop : sm () :=
  f ← own;
  if slocked f then _ ← ignored (on_world file_unlock); ignored (on_world send_unlock)
  else mret ().

#[export] Instance stream_io : StreamIo StreamFile S F := {
  io_lock := sfile_lock;
  io_read buf := with_stream (Stream.read grow buf);
  io_read_at pos buf := with_stream (Stream.read_at grow pos buf);
  io_write buf := with_stream (Stream.write buf);
  io_write_at pos buf := with_stream (Stream.write_at pos buf);
  io_resize n := with_stream (stream_resize n);
  io_seek pos := with_stream (Stream.seek pos);
  io_phys o := on_world (file_phys o);
  io_drop := sfile_drop;
}.
End stream_file.

(** ** Requests *)

Inductive file_request :=
  | CloneFile (conn : Z)
  | CloseFile
  | Flush
  | Lock
  | FileMetadata
  | OpenFile (p : path) (opts conn : Z)
  | Read (len : Z)
  | ReadAt (offset len : Z)
  | Resize (new_len : Z)
  | Seek (pos : SeekFrom)
  | Write (buf : bytes)
  | WriteAt (offset : Z) (buf : bytes)
  | UnknownFile
  | PhysReq (o : PhysOptions).

Inductive file_value (F : Type) :=
  | VUnit
  | VStream (raw : option (stream F))
  | VMeta (m : Metadata)
  | VBytes (l : bytes)
  | VLen (n : Z)
  | VPhys (f : F).
Arguments VUnit {F}.
Arguments VStream {F} _.
Arguments VMeta {F} _.
Arguments VBytes {F} _.
Arguments VLen {F} _.
Arguments VPhys {F} _.

(** An answer, or the end of the loop. *)
Inductive file_reply (F : Type) := Sent (r : res fs_error (file_value F)) | Break.
Arguments Sent {F} _.
Arguments Break {F}.

Section handle.
Context `{P : Profile} {L S F : Type} `{X : File S F} `{IO : StreamIo L S F}.
Abbreviation hm := (st (L * S) fs_error).

(** [responder.send] of what an operation gives. *)
Definition send {A} (f : A → file_value F) (m : hm A) : hm (file_reply F) := λ s,
  match m s with
  | (Ok a, s) => (Ok (Sent (Ok (f a))), s)
  | (Err e, s) => (Ok (Sent (Err e)), s)
  | (Panic, s) => (Panic, s)
  end.

(** [vec![0; len]]: a vector has at most [isize::MAX] bytes. *)
Definition zeros (len : Z) : res fs_error bytes := if len <? 2 ^ 63 then Ok (replicate (Z.to_nat len) 0) else Panic.

Definition need {A} (opts option perm : Z) (m : hm A) : hm A :=
  if negb (contains opts option) then lift (Err (PermissionDenied perm)) else m.

Definition handle_file (opts : Z) (q : file_request) : hm (file_reply F) :=
  match q with
  | CloneFile conn => λ s,
      match send (λ _, VUnit) (on_world (file_open [] opts conn)) s with
      | (Ok (Sent (Err _)), s) => (Ok Break, s)
      | r => r
      end
  | CloseFile => mret Break
  | Flush => send (λ _, VUnit) (on_world file_flush)
  | Lock => send VStream io_lock
  | FileMetadata => send VMeta (on_world file_metadata)
  | OpenFile p opts conn => send (λ _, VUnit) (on_world (file_open p opts conn))
  | Read len => send (λ x, VBytes (btake x.1 x.2)) (need opts READ PERM_READ (buf ← lift (zeros len); io_read buf))
  | ReadAt offset len => send (λ x, VBytes (btake x.1 x.2)) (need opts READ PERM_READ (buf ← lift (zeros len); io_read_at offset buf))
  | Resize new_len => send (λ _, VUnit) (need opts WRITE PERM_WRITE (io_resize new_len))
  | Seek pos => send VLen (io_seek pos)
  | Write buf => send VLen (need opts WRITE PERM_WRITE (io_write buf))
  | WriteAt offset buf => send VLen (need opts WRITE PERM_WRITE (io_write_at offset buf))
  | UnknownFile => mret Break
  | PhysReq o => send VPhys (io_phys o)
  end.
End handle.

(** ** [MemFile] and its connections *)

Record file_conn := MkFileConn { cfile : StreamFile; copts : Z }.

Record mem_world (F : Type) := MkWorld {
  fphys : F;
  fperm : Z;
  flocked : bool;
  fconns : gmap Z file_conn;
  unlocks : nat;                      (* the [UNLOCK] events that were sent *)
}.
Arguments MkWorld {F} _ _ _ _ _.
Arguments fphys {F} _.
Arguments fperm {F} _.
Arguments flocked {F} _.
Arguments fconns {F} _.
Arguments unlocks {F} _.

Section mem_file.
Context `{P : Profile} {F : Type} `{O : PhysObj F} (grow : Z → Z → Z).
(** [sv_phys_sub]. *)
Context (phys_sub : F → Z → Z → bool → res errno F).
Abbreviation fm := (st (mem_world F) fs_error).

Definition set_locked (b : bool) : fm () := modify (λ w, MkWorld (fphys w) (fperm w) b (fconns w) (unlocks w)).
Definition set_fconn (c : Z) (k : file_conn) : fm () :=
  modify (λ w, MkWorld (fphys w) (fperm w) (flocked w) (<[c := k]> (fconns w)) (unlocks w)).

(** [MemFile::open]: the connection is served by a [StreamFile] at the start of the object. *)
Definition memfile_open (p : path) (opts conn : Z) : fm () :=
  empty ← lift (lift_path (path_eq p []));
  if negb empty || intersects opts (Z.lor EXPECT_DIR EXPECT_RPC) then lift (Err (InvalidType LocalFs.File))
  else
    w ← get;
    if flocked w then lift (Err WouldBlock)
    else if negb (contains (fperm w) (require opts)) then lift (Err (PermissionDenied (Z.ldiff (require opts) (fperm w))))
    else set_fconn conn (MkFileConn (MkStreamFile (Some 0) false) opts).

(** [Phys::create_sub]. *)
Definition phys_create_sub (f : F) (offset len : Z) (copy : bool) : res errno F :=
  if len >? 0 then phys_sub f offset len copy else Err ERANGE.

Definition memfile_lock (raw : option (stream F)) : fm (option (stream F)) :=
  w ← get;
  _ ← set_locked true;
  if flocked w then lift (Err WouldBlock) else mret raw.

Definition memfile_phys (o : PhysOptions) : fm F :=
  w ← get;
  if flocked w then lift (Err WouldBlock)
  else
    let copy := match o with CopyPhys => true | SharedPhys => false end in
    lift (map_err (λ e, Other (SysCall.raw e)) (phys_create_sub (fphys w) 0 (blen (content (fphys w))) copy)).

#[export] Instance memfile : File (mem_world F) F := {
  file_open := memfile_open;
  file_metadata := w ← get; mret (MkMetadata LocalFs.File (fperm w) (blen (content (fphys w))));
  file_lock := memfile_lock;
  file_unlock := set_locked false;
  file_flush := mret ();
  file_read_at _ _ := lift Panic;
  file_write_at _ _ := lift Panic;
  file_len := lift Panic;
  file_resize _ := lift Panic;
  file_phys := memfile_phys;
}.

#[export] Instance memfile_backed : Backed (mem_world F) F := {
  backing := fphys;
  set_backing f w := MkWorld f (fperm w) (flocked w) (fconns w) (unlocks w);
}.

Definition send_unlock : fm () := modify (λ w, MkWorld (fphys w) (fperm w) (flocked w) (fconns w) (S (unlocks w))).

#[export] Instance memfile_io : StreamIo StreamFile (mem_world F) F := stream_io grow send_unlock.

(** What happens to the file: a connection is opened, asks, or goes away. *)
Inductive file_event := Opened (p : path) (opts conn : Z) | Asked (c : Z) (q : file_request) | Gone (c : Z).

(** The end of [handle_impl]: the [StreamFile] is dropped. *)
Definition close_file (c : Z) (f : StreamFile) : fm () := λ w,
  let '(r, (_, w)) := io_drop (f, w) in
  (r, MkWorld (fphys w) (fperm w) (flocked w) (delete c (fconns w)) (unlocks w)).

(** A request of the connection [c]. *)
Definition ask_file (c : Z) (k : file_conn) (q : file_request) : fm (file_reply F) := λ w,
  match handle_file (L:=StreamFile) (copts k) q (cfile k, w) with
  | (Ok Break, (f, w)) => (_ ← close_file c f; mret Break) w
  | (Ok r, (f, w)) => (_ ← set_fconn c (MkFileConn f (copts k)); mret r) w
  | (Err e, (f, w)) => (Err e, w)
  | (Panic, (f, w)) => (Panic, w)
  end.

Definition file_step (e : file_event) : fm (file_reply F) :=
  match e with
  | Opened p opts conn => λ w,
      match memfile_open p opts conn w with
      | (Ok _, w) => (Ok (Sent (Ok VUnit)), w)
      | (Err e, w) => (Ok (Sent (Err e)), w)
      | (Panic, w) => (Panic, w)
      end
  | Asked c q =>
      w ← get;
      match fconns w !! c with Some k => ask_file c k q | None => mret Break end
  | Gone c =>
      w ← get;
      match fconns w !! c with Some k => _ ← close_file c (cfile k); mret Break | None => mret Break end
  end.

Fixpoint file_steps (es : list file_event) : fm (list (file_reply F)) :=
  match es with
  | [] => mret []
  | e :: es => r ← file_step e; rs ← file_steps es; mret (r :: rs)
  end.
End mem_file.
