(* ===== verification/FileSpec.v ===== *)
(** * What servers of files promise

    Over all orders of the requests of any number of connections: at most one connection has the
    lock, the permission of the file bounds what is read and written through the requests that
    look at it, and what one connection writes another one reads as long as no call waits. *)

From S2P Require Import Base SysCall Path PathSpec PathJoin LocalFs MemFs Stream StreamSpec FileServer.
Local Open Scope Z_scope.
Local Open Scope h2o_scope.

(** ** What operations of streams leave *)

Section frames.
Context `{P : Profile} {F : Type} `{O : PhysObj F} (grow : Z → Z → Z).

Lemma keeps_seeker f z : keeps (λ s : stream F, sphys s = f) (set_seeker z).
Proof. by intros s. Qed.
Hint Resolve keeps_seeker : h2o_keeps.

Lemma seek_phys f pos : keeps (λ s : stream F, sphys s = f) (seek pos).
Proof.
  unfold seek. apply keeps_bind; [apply keeps_get|]. intros s. apply keeps_bind; [|eauto with h2o_keeps].
  destruct pos; repeat first [case_match | apply keeps_seeker | apply keeps_lift | apply keeps_bind; [apply keeps_lift|intros ?]].
Qed.
Lemma read_loop_phys f len bufs : ∀ cap n, keeps (λ s : stream F, sphys s = f) (read_loop grow len cap n bufs).
Proof.
  induction bufs as [|buf bufs IH]; intros cap n; cbn [read_loop]; [apply keeps_ret|]. case_match.
  - apply keeps_bind; [apply IH|]. intros [m out]. apply keeps_ret.
  - repeat (apply keeps_bind; [solve [eauto with h2o_keeps]|intros ?]).
    case_match; [apply keeps_ret|]. apply keeps_bind; [apply IH|]. intros [m out]. apply keeps_ret.
Qed.
Lemma read_at_loop_phys f len bufs : ∀ cap pos n, keeps (λ s : stream F, sphys s = f) (read_at_loop grow len cap pos n bufs).
Proof.
  induction bufs as [|buf bufs IH]; intros cap pos n; cbn [read_at_loop]; [apply keeps_ret|]. case_match.
  - apply keeps_bind; [apply IH|]. intros [m out]. apply keeps_ret.
  - repeat (apply keeps_bind; [solve [eauto with h2o_keeps]|intros ?]).
    case_match; [apply keeps_ret|]. apply keeps_bind; [apply IH|]. intros [m out]. apply keeps_ret.
Qed.
Lemma reads_phys f buf pos : keeps (λ s : stream F, sphys s = f) (read grow buf) ∧ keeps (λ s : stream F, sphys s = f) (read_at grow pos buf).
Proof.
  unfold read, read_at, single, read_vectored, read_at_vectored.
  split; (apply keeps_bind; [|intros [n l]; apply keeps_ret]); (apply keeps_bind; [apply keeps_get|intros s]).
  - apply read_loop_phys.
  - apply read_at_loop_phys.
Qed.
End frames.

(** ** Permissions *)

Lemma contains_both p a b : contains p (Z.lor a b) = true → contains p a = true ∧ contains p b = true.
Proof.
  unfold contains. rewrite !Z.eqb_eq. intros H.
  assert (Hb : ∀ i, Z.testbit (Z.lor a b) i = true → Z.testbit p i = true).
  { intros i Hi. rewrite <- H, Z.land_spec in Hi. by apply andb_prop in Hi as [? _]. }
  split; apply Z.bits_inj'; intros i _; rewrite Z.land_spec;
    [destruct (Z.testbit a i) eqn:Hi|destruct (Z.testbit b i) eqn:Hi]; rewrite ?andb_false_r, ?andb_true_r; try done;
    apply Hb; rewrite Z.lor_spec, Hi, ?orb_true_r; done.
Qed.
Lemma require_read p opts : contains p (require opts) = true → contains opts READ = true → contains p PERM_READ = true.
Proof. unfold require. intros H Hr. rewrite Hr in H. repeat case_match; repeat (apply contains_both in H as [H ?]); done. Qed.
Lemma require_write p opts : contains p (require opts) = true → contains opts WRITE = true → contains p PERM_WRITE = true.
Proof. unfold require. intros H Hr. rewrite Hr in H. repeat case_match; repeat (apply contains_both in H as [H ?]); done. Qed.

Lemma own_bind {L S E A} (k : L → st (L * S) E A) l w : (own ≫= k) (l, w) = k l (l, w).
Proof. done. Qed.
Lemma set_own_bind {L S E A} (k : () → st (L * S) E A) l l' w : (set_own l' ≫= k) (l, w) = k () (l', w).
Proof. done. Qed.
Lemma on_world_run {L S E A} (m : st S E A) (l : L) w : on_world m (l, w) = ((m w).1, (l, (m w).2)).
Proof. unfold on_world. cbn. by destruct (m w). Qed.

Section server.
Context `{P : Profile} {F : Type} `{O : PhysObj F} (grow : Z → Z → Z).
Context (phys_sub : F → Z → Z → bool → res errno F).
Implicit Types (w : mem_world F) (f : StreamFile).

#[local] Instance the_file : FileServer.File (mem_world F) F := memfile phys_sub.
#[local] Instance the_io : StreamIo StreamFile (mem_world F) F := memfile_io grow phys_sub.

(** ** What a request does to the file and the connections *)

Inductive change f w : StreamFile → mem_world F → Prop :=
  | unchanged f' w' : flocked w' = flocked w → fconns w' = fconns w → slocked f' = slocked f → change f w f' w'
  | taken f' w' : flocked w = false → slocked f = false → flocked w' = true → fconns w' = fconns w → slocked f' = true → change f w f' w'
  | opened w' c opts : flocked w = false → flocked w' = false → contains (fperm w) (require opts) = true →
      fconns w' = <[c := MkFileConn (MkStreamFile (Some 0) false) opts]> (fconns w) → change f w f w'.

(** Answers with bytes of the file, the object or a stream over it, and the requests that
    ask for the object or the stream. *)
Definition discloses (r : file_reply F) : bool :=
  match r with Sent (Ok (VBytes _ | VPhys _ | VStream (Some _))) => true | _ => false end.
Definition hands_out (q : file_request) : bool := match q with Lock | PhysReq _ => true | _ => false end.

Definition request_ok opts q f w (r : file_reply F) f' w' : Prop :=
  fperm w' = fperm w ∧ change f w f' w' ∧
  (contains opts WRITE = false → fphys w' = fphys w) ∧
  (discloses r = true → contains opts READ = true ∨ hands_out q = true).

Lemma with_stream_frame {A} (m : st (stream F) io_error A) f w r f' w' : with_stream m (f, w) = (r, (f', w')) →
  fperm w' = fperm w ∧ change f w f' w' ∧ (keeps (λ s, sphys s = fphys w) m → fphys w' = fphys w).
Proof.
  intros H. unfold with_stream in H. rewrite own_bind in H. destruct (sraw f) as [z|].
  - unfold on_stream in H. cbn in H. destruct (m (MkStream (fphys w) z)) as [r0 s'] eqn:Hm. injection H as _ <- <-. cbn.
    split; [done|]. split; [by apply unchanged|]. intros Hk. specialize (Hk (MkStream (fphys w) z) eq_refl). by rewrite Hm in Hk.
  - injection H as _ <- <-. split; [done|]. split; [by apply unchanged|done].
Qed.

Lemma open_frame p opts c w r w' : memfile_open p opts c w = (r, w') →
  fperm w' = fperm w ∧ fphys w' = fphys w ∧ ∀ f, change f w f w'.
Proof.
  unfold memfile_open. rewrite path_eq_ok. cbn [lift_path]. rewrite (st_lift_ok _ _ _ _ eq_refl).
  case_match; [intros [= _ <-]; split; [done|]; split; [done|]; intros f; by apply unchanged|].
  rewrite st_get_bind. destruct (flocked w) eqn:Hl; [intros [= _ <-]; split; [done|]; split; [done|]; intros f; by apply unchanged|].
  destruct (contains (fperm w) (require opts)) eqn:Hc; cbn [negb]; intros [= _ <-]; cbn; (split; [done|]); (split; [done|]); intros f.
  - by eapply opened.
  - by apply unchanged.
Qed.

Lemma send_cases {A} (g : A → file_value F) (m : st (StreamFile * mem_world F) fs_error A) s r s' : send g m s = (Ok r, s') →
  (∃ a, m s = (Ok a, s') ∧ r = Sent (Ok (g a))) ∨ (∃ e, m s = (Err e, s') ∧ r = Sent (Err e)).
Proof. unfold send. destruct (m s) as [[a|e|] s0]; intros [= <- <-]; eauto. Qed.

Lemma memfile_lock_run raw w :
  memfile_lock raw w = (if flocked w then Err WouldBlock else Ok raw, MkWorld (fphys w) (fperm w) true (fconns w) (unlocks w)).
Proof. unfold memfile_lock, set_locked. rewrite st_get_bind, st_modify_bind. by destruct (flocked w). Qed.

Lemma lock_frame f w r f' w' : sfile_lock (f, w) = (r, (f', w')) → fperm w' = fperm w ∧ change f w f' w' ∧ fphys w' = fphys w.
Proof.
  unfold sfile_lock. rewrite own_bind. destruct (slocked f) eqn:Hf; [intros [= _ <- <-]; split; [done|]; split; [by apply unchanged|done]|].
  rewrite st_get_bind, set_own_bind. cbn [snd]. assert (Hr := on_world_run (memfile_lock (MkStream (fphys w) <$> sraw f)) (MkStreamFile None false) w). rewrite memfile_lock_run in Hr. cbn in Hr.
  destruct (flocked w) eqn:Hw.
  - erewrite st_bind_err by exact Hr. intros [= _ <- <-]. split; [done|]. split; [by apply unchanged|done].
  - erewrite st_bind_ok by exact Hr. rewrite set_own_bind. intros [= _ <- <-]. split; [done|]. split; [by apply taken|done].
Qed.

Definition frame opts f w f' w' : Prop := fperm w' = fperm w ∧ change f w f' w' ∧ (contains opts WRITE = false → fphys w' = fphys w).

Lemma reply_ok {A} opts q (g : A → file_value F) m f w r f' w' : send g m (f, w) = (Ok r, (f', w')) →
  (∀ r0 f0 w0, m (f, w) = (r0, (f0, w0)) → frame opts f w f0 w0) →
  (∀ a s, m (f, w) = (Ok a, s) → discloses (Sent (Ok (g a))) = true → contains opts READ = true ∨ hands_out q = true) →
  request_ok opts q f w r f' w'.
Proof.
  intros Hs Hf Hb. apply send_cases in Hs as [(a & Hm & ->)|(e & Hm & ->)]; destruct (Hf _ _ _ Hm) as (? & ? & ?); repeat split; try done.
  by eapply Hb.
Qed.
Lemma same_frame opts f w : frame opts f w f w.
Proof. split; [done|]. split; [by apply unchanged|done]. Qed.
Hint Resolve same_frame : core.

Lemma need_frame {A} opts o p (m : st (StreamFile * mem_world F) fs_error A) f w :
  (contains opts o = true → ∀ r f' w', m (f, w) = (r, (f', w')) → frame opts f w f' w') →
  ∀ r f' w', need opts o p m (f, w) = (r, (f', w')) → frame opts f w f' w'.
Proof. intros H r f' w'. unfold need. destruct (contains opts o); cbn [negb]; [by apply H|]. by intros [= _ <- <-]. Qed.
Lemma need_ok {A} opts o p (m : st (StreamFile * mem_world F) fs_error A) s a s' : need opts o p m s = (Ok a, s') → contains opts o = true.
Proof. unfold need. by destruct (contains opts o). Qed.

Lemma buf_frame opts (k : bytes → st (stream F) io_error (Z * bytes)) len f w r f' w' : (∀ buf, keeps (λ s, sphys s = fphys w) (k buf)) →
  (buf ← lift (zeros len); with_stream (k buf)) (f, w) = (r, (f', w')) → frame opts f w f' w'.
Proof.
  intros Hk. destruct (zeros len) as [buf|e|] eqn:Hz.
  - rewrite (st_lift_ok _ _ _ _ eq_refl). intros H. apply with_stream_frame in H as (? & ? & H). split; [done|]. split; [done|]. intros _. by apply H.
  - unfold zeros in Hz. by case_match.
  - by intros [= _ <- <-].
Qed.
Lemma stream_frame {A} opts (m : st (stream F) io_error A) f w r f' w' : contains opts WRITE = true ∨ keeps (λ s, sphys s = fphys w) m →
  with_stream m (f, w) = (r, (f', w')) → frame opts f w f' w'.
Proof. intros Hm H. apply with_stream_frame in H as (? & ? & H). split; [done|]. split; [done|]. destruct Hm as [->|Hm]; [done|]. intros _. by apply H. Qed.
Lemma world_frame {A} opts (m : st (mem_world F) fs_error A) f w r f' w' : (∀ r w', m w = (r, w') → fperm w' = fperm w ∧ fphys w' = fphys w ∧ change f w f w') →
  on_world m (f, w) = (r, (f', w')) → frame opts f w f' w'.
Proof. intros Hm. rewrite on_world_run. destruct (m w) as [r0 w0] eqn:E. intros [= <- <- <-]. destruct (Hm _ _ eq_refl) as (? & ? & ?). by split. Qed.

Lemma handle_ok opts q f w r f' w' : handle_file opts q (f, w) = (Ok r, (f', w')) → request_ok opts q f w r f' w'.
Proof.
  assert (Hsame : request_ok opts q f w Break f w) by (destruct (same_frame opts f w) as (? & ? & ?); repeat split; try done).
  assert (Hopen : ∀ p o c r f' w', on_world (memfile_open p o c) (f, w) = (r, (f', w')) → frame opts f w f' w').
  { intros p o c r0 f0 w0. apply world_frame. intros r1 w1 H1. apply open_frame in H1 as (? & ? & ?). eauto. }
  assert (Hphys : ∀ o r f' w', on_world (memfile_phys phys_sub o) (f, w) = (r, (f', w')) → frame opts f w f' w').
  { intros o r0 f0 w0. apply world_frame. intros r1 w1. unfold memfile_phys. rewrite st_get_bind. by case_match; intros [= _ <-]; destruct (same_frame opts f w) as (? & ? & ?). }
  destruct q; cbn [handle_file]; try (intros H; eapply reply_ok; [exact H|..]; clear H; [|first [done|intros ? ? _ _; by right]]).
  - destruct (send _ _ (f, w)) as [v [f0 w0]] eqn:Hs. intros H. assert (Hv : ∃ x, v = Ok x) by (destruct v; [eauto|done..]). destruct Hv as [x ->].
    eapply reply_ok in Hs; [|exact (Hopen _ _ _)|done]. destruct Hs as (H1 & H2 & H3 & H4). destruct x as [[v|e|]|]; injection H as <- <- <-; by repeat split.
  - by intros [= <- <- <-].
  - intros r0 f0 w0. apply world_frame. intros r1 w1 [= _ <-]. by destruct (same_frame opts f w) as (? & ? & ?).
  - intros r0 f0 w0 H. apply lock_frame in H as (? & ? & ?). by split.
  - intros r0 f0 w0. apply world_frame. intros r1 w1 [= _ <-]. by destruct (same_frame opts f w) as (? & ? & ?).
  - exact (Hopen _ _ _).
  - intros H. eapply reply_ok; [exact H|..]; [|intros a s Hn _; left; by eapply need_ok].
    apply need_frame. intros _ r0 f0 w0. apply buf_frame. intros buf. by apply (reads_phys grow).
  - intros H. eapply reply_ok; [exact H|..]; [|intros a s Hn _; left; by eapply need_ok].
    apply need_frame. intros _ r0 f0 w0. apply buf_frame. intros buf. by apply (reads_phys grow).
  - apply need_frame. intros Hw r0 f0 w0. apply stream_frame. by left.
  - intros r0 f0 w0. apply stream_frame. right. apply seek_phys.
  - apply need_frame. intros Hw r0 f0 w0. apply stream_frame. by left.
  - apply need_frame. intros Hw r0 f0 w0. apply stream_frame. by left.
  - by intros [= <- <- <-].
  - exact (Hphys _).
Qed.

(** ** Invariant *)

Definition holds_lock w c : Prop := ∃ k, fconns w !! c = Some k ∧ slocked (cfile k) = true.

Record file_ok w : Prop := {
  one_lock c1 c2 : holds_lock w c1 → holds_lock w c2 → c1 = c2;
  lock_held : flocked w = true ↔ ∃ c, holds_lock w c;
  conns_allowed c k : fconns w !! c = Some k → contains (fperm w) (require (copts k)) = true;
}.

Definition with_conn w c k : mem_world F := MkWorld (fphys w) (fperm w) (flocked w) (<[c := k]> (fconns w)) (unlocks w).

Lemma held_insert w c k c' : holds_lock (with_conn w c k) c' ↔ (c' = c ∧ slocked (cfile k) = true) ∨ (c' ≠ c ∧ holds_lock w c').
Proof.
  unfold holds_lock. cbn. destruct (decide (c' = c)) as [->|Hn].
  - rewrite lookup_insert_eq. naive_solver.
  - rewrite lookup_insert_ne by done. naive_solver.
Qed.
Lemma not_locked w c : file_ok w → flocked w = false → ¬ holds_lock w c.
Proof. intros [_ Hl _] Hf Hc. assert (flocked w = true) by (apply Hl; eauto). congruence. Qed.

Lemma insert_ok w c k : file_ok w → contains (fperm w) (require (copts k)) = true →
  (∀ k0, fconns w !! c = Some k0 → slocked (cfile k0) = slocked (cfile k)) →
  (fconns w !! c = None → slocked (cfile k) = false) → file_ok (with_conn w c k).
Proof.
  intros [H1 H2 H3] Hp Hs Hn.
  assert (Heq : ∀ c', holds_lock (with_conn w c k) c' ↔ holds_lock w c').
  { intros c'. rewrite held_insert. unfold holds_lock. destruct (fconns w !! c) as [k0|] eqn:Hc.
    - specialize (Hs k0 eq_refl). split.
      + intros [[-> Hk]|[_ Hk]]; [|done]. exists k0. by rewrite Hs.
      + intros (k' & Hk' & Hl). destruct (decide (c' = c)) as [->|]; [left|right; by split; [|exists k']]. split; [done|]. rewrite <- Hs. congruence.
    - specialize (Hn eq_refl). split.
      + intros [[-> Hk]|[_ Hk]]; [congruence|done].
      + intros (k' & Hk' & Hl). right. split; [congruence|]. by exists k'. }
  split.
  - intros c1 c2. rewrite !Heq. apply H1.
  - cbn. rewrite H2. by setoid_rewrite Heq.
  - intros c' k' Hk. cbn in *. apply lookup_insert_Some in Hk as [[_ <-]|[_ Hk]]; [done|]. by eapply H3.
Qed.

(** The connection is written back after its request. *)
Lemma change_ok w c k f' w' : file_ok w → fconns w !! c = Some k → change (cfile k) w f' w' → fperm w' = fperm w →
  file_ok (with_conn w' c (MkFileConn f' (copts k))).
Proof.
  intros Hok Hc Hch Hp. assert (Hk : contains (fperm w) (require (copts k)) = true) by (by eapply conns_allowed).
  destruct Hch as [f' w' Hl Hcs Hs|f' w' Hl Hs Hl' Hcs Hs'|w' c0 opts Hl Hl' Ho Hcs].
  - assert (Hw : file_ok w').
    { destruct Hok as [H1 H2 H3]. unfold holds_lock in *. split; unfold holds_lock; rewrite ?Hcs, ?Hl, ?Hp; done. }
    apply insert_ok; cbn; [done|by rewrite Hp|rewrite Hcs; congruence|rewrite Hcs; congruence].
  - assert (Hno : ∀ c', ¬ holds_lock w' c').
    { intros c'. unfold holds_lock. rewrite Hcs. by apply not_locked. }
    split.
    + intros c1 c2. rewrite !held_insert. intros [[-> _]|[_ H1]]; [|by destruct (Hno c1)]. intros [[-> _]|[_ H2]]; [done|by destruct (Hno c2)].
    + cbn. split; [|done]. intros _. exists c. rewrite held_insert. by left.
    + intros c' k' Hk'. cbn in *. rewrite Hcs, Hp in *. apply lookup_insert_Some in Hk' as [[_ <-]|[_ Hk']]; [done|]. by eapply conns_allowed.
  - assert (Hno : ∀ c', ¬ holds_lock w c') by (intros c'; by apply not_locked).
    assert (Hno' : ∀ c', ¬ holds_lock w' c').
    { intros c'. unfold holds_lock in *. rewrite Hcs. intros (k' & Hk' & Hs). apply lookup_insert_Some in Hk' as [[_ <-]|[_ Hk']]; [done|]. naive_solver. }
    assert (Hs : slocked (cfile k) = false) by (destruct (slocked (cfile k)) eqn:Hs; [|done]; exfalso; apply (Hno c); by exists k).
    split.
    + intros c1 c2 Hc1. rewrite held_insert in Hc1. cbn in Hc1. destruct Hc1 as [[_ ?]|[_ Hc1]]; [congruence|by destruct (Hno' c1)].
    + cbn. rewrite Hl'. split; [done|]. intros [c' Hc']. rewrite held_insert in Hc'. cbn in Hc'. destruct Hc' as [[_ ?]|[_ Hc']]; [congruence|by destruct (Hno' c')].
    + intros c' k' Hk'. cbn in *. rewrite Hcs, Hp in *. apply lookup_insert_Some in Hk' as [[_ <-]|[_ Hk']]; [done|].
      apply lookup_insert_Some in Hk' as [[_ <-]|[_ Hk']]; [done|]. by eapply conns_allowed.
Qed.

Lemma close_run c f w : close_file grow phys_sub c f w =
  (Ok (), MkWorld (fphys w) (fperm w) (if slocked f then false else flocked w) (delete c (fconns w)) (if slocked f then S (unlocks w) else unlocks w)).
Proof. by destruct f as [raw []]. Qed.

Lemma close_ok c k w : file_ok w → fconns w !! c = Some k → file_ok (close_file grow phys_sub c (cfile k) w).2.
Proof.
  intros Hok Hc. rewrite close_run. cbn [snd]. destruct Hok as [H1 H2 H3].
  assert (Hd : ∀ b n c', holds_lock (MkWorld (fphys w) (fperm w) b (delete c (fconns w)) n) c' ↔ c' ≠ c ∧ holds_lock w c').
  { intros b n c'. unfold holds_lock. cbn. split.
    - intros (k' & Hk & Hs). apply lookup_delete_Some in Hk as [? Hk]. eauto.
    - intros (Hn & k' & Hk & Hs). exists k'. split; [|done]. by apply lookup_delete_Some. }
  split.
  - intros c1 c2. rewrite !Hd. intros [_ ?] [_ ?]. by apply H1.
  - cbn [flocked]. destruct (slocked (cfile k)) eqn:Hs.
    + split; [done|]. intros [c' Hc']. apply Hd in Hc' as [Hn Hc']. destruct Hn. apply H1; [done|]. by exists k.
    + rewrite H2. split; intros [c' Hc']; exists c'.
      * apply Hd. split; [|done]. intros ->. destruct Hc' as (k' & Hk & Hs'). congruence.
      * by apply Hd in Hc' as [_ ?].
  - intros c' k' Hk. cbn in *. apply lookup_delete_Some in Hk as [_ Hk]. by eapply H3.
Qed.
Lemma close_frame c f w : fperm (close_file grow phys_sub c f w).2 = fperm w ∧ fphys (close_file grow phys_sub c f w).2 = fphys w.
Proof. by rewrite close_run. Qed.
Lemma close_with_conn c f opts w : (close_file grow phys_sub c f (with_conn w c (MkFileConn f opts))).2 = (close_file grow phys_sub c f w).2.
Proof. rewrite !close_run. cbn. by rewrite delete_insert_eq. Qed.

Lemma close_then {A} c f w (x : A) : (_ ← close_file grow phys_sub c f; mret x) w = (Ok x, (close_file grow phys_sub c f w).2).
Proof. erewrite st_bind_ok by apply close_run. by rewrite close_run. Qed.

(** Events that are not requests for the object or the stream. *)
Definition keeps_object (e : file_event) : bool := match e with Asked _ q => negb (hands_out q) | _ => true end.

Definition step_ok e w (r : file_reply F) w' : Prop :=
  file_ok w' ∧ fperm w' = fperm w ∧ (contains (fperm w) PERM_WRITE = false → fphys w' = fphys w) ∧
  (discloses r = true → contains (fperm w) PERM_READ = true ∨ keeps_object e = false).

Lemma ask_ok c k q w r w' : file_ok w → fconns w !! c = Some k → ask_file grow phys_sub c k q w = (Ok r, w') → step_ok (Asked c q) w r w'.
Proof.
  intros Hok Hc. unfold ask_file. destruct (handle_file _ _ _) as [[r0|e|] [f0 w0]] eqn:Hh; [|done..].
  apply handle_ok in Hh as (Hp & Hch & Hw & Hb). pose proof (change_ok w c k f0 w0 Hok Hc Hch Hp) as Hok'.
  assert (Hk : contains (fperm w) (require (copts k)) = true) by (by eapply conns_allowed).
  assert (Hphys : contains (fperm w) PERM_WRITE = false → fphys w0 = fphys w).
  { intros Hn. apply Hw. destruct (contains (copts k) WRITE) eqn:Ho; [|done]. by rewrite (require_write _ _ Hk Ho) in Hn. }
  destruct r0 as [x|].
  - intros [= <- <-]. split; [done|]. split; [done|]. split; [done|]. intros Hl. destruct (Hb Hl) as [Hb'|Hb']; [left; by eapply require_read|right; cbn; by rewrite Hb'].
  - assert (Hcl := close_ok c (MkFileConn f0 (copts k)) (with_conn w0 c (MkFileConn f0 (copts k))) Hok' (lookup_insert_eq _ _ _)).
    cbn [cfile] in Hcl. rewrite close_with_conn in Hcl. destruct (close_frame c f0 w0) as [Hp' Hf'].
    rewrite close_then. intros [= <- <-]. split; [done|]. split; [congruence|]. split; [|done]. intros Hn. rewrite Hf'. by apply Hphys.
Qed.

Lemma step_all_ok e w r w' : file_ok w → file_step grow phys_sub e w = (Ok r, w') → step_ok e w r w'.
Proof.
  intros Hok. destruct e as [p opts c|c q|c]; cbn [file_step].
  - destruct (memfile_open p opts c w) as [r0 w0] eqn:Ho. intros H.
    assert (w' = w0 ∧ discloses r = false) as [-> Hr] by (by destruct r0; [injection H as <- <-|injection H as <- <-|]).
    apply open_frame in Ho as (Hp & Hf & Hch). split; [|split; [done|]; split; [done|]; by rewrite Hr].
    specialize (Hch (MkStreamFile None false)). inversion Hch as [f1 w1 Hl Hcs Hs|f1 w1 _ _ _ _ Hx|w1 c0 o Hl Hl' Ho Hcs]; subst; [|done|].
    + destruct Hok as [H1 H2 H3]. unfold holds_lock in *. split; unfold holds_lock; rewrite ?Hcs, ?Hl, ?Hp; done.
    + assert (Hw0 : w0 = MkWorld (fphys w0) (fperm w0) (flocked w0) (fconns w0) (unlocks w0)) by (by destruct w0).
      assert (Hi : file_ok (with_conn w c0 (MkFileConn (MkStreamFile (Some 0) false) o))).
      { apply insert_ok; [done|done| |done]. intros k0 Hk0. destruct (slocked (cfile k0)) eqn:Hs; [|done].
        destruct (not_locked w c0 Hok Hl). by exists k0. }
      destruct Hi as [H1 H2 H3]. unfold holds_lock in *. cbn in *. split; unfold holds_lock; rewrite ?Hcs, ?Hl', ?Hp; [done| |done]. by rewrite <- H2, Hl.
  - rewrite st_get_bind. destruct (fconns w !! c) as [k|] eqn:Hc; [by apply ask_ok|]. by intros [= <- <-].
  - rewrite st_get_bind. destruct (fconns w !! c) as [k|] eqn:Hc; [|by intros [= <- <-]]. rewrite close_then. intros [= <- <-].
    destruct (close_frame c (cfile k) w) as [Hp Hf]. split; [by apply close_ok|]. by repeat split.
Qed.

Lemma steps_all_ok es : ∀ w rs w', file_ok w → file_steps grow phys_sub es w = (Ok rs, w') →
  file_ok w' ∧ fperm w' = fperm w ∧ (contains (fperm w) PERM_WRITE = false → fphys w' = fphys w) ∧
  (contains (fperm w) PERM_READ = false → forallb keeps_object es = true → Forall (λ r, discloses r = false) rs).
Proof.
  induction es as [|e es IH]; intros w rs w' Hok H; cbn [file_steps] in H.
  { injection H as <- <-. split; [done|]. split; [done|]. split; [done|]. constructor. }
  destruct (file_step grow phys_sub e w) as [[r|x|] w1] eqn:Hs.
  - erewrite st_bind_ok in H by exact Hs. destruct (step_all_ok e w r w1 Hok Hs) as (Hok1 & Hp1 & Hf1 & Hb1).
    destruct (file_steps grow phys_sub es w1) as [[rs1|x|] w2] eqn:Hs2.
    + erewrite st_bind_ok in H by exact Hs2. injection H as <- <-. destruct (IH w1 rs1 w2 Hok1 Hs2) as (Hok2 & Hp2 & Hf2 & Hb2).
      rewrite Hp1 in *. split; [done|]. split; [done|]. split; [intros Hn; rewrite Hf2, Hf1; done|].
      intros Hn Hes. cbn [forallb] in Hes. apply andb_true_iff in Hes as [He Hes]. constructor; [|by apply Hb2].
      destruct (discloses r); [|done]. destruct (Hb1 eq_refl); congruence.
    + by erewrite st_bind_err in H by exact Hs2.
    + by erewrite st_bind_panic in H by exact Hs2.
  - by erewrite st_bind_err in H by exact Hs.
  - by erewrite st_bind_panic in H by exact Hs.
Qed.

Lemma open_locked p opts c w : flocked w = true → ∃ e, memfile_open p opts c w = (Err e, w).
Proof.
  intros Hl. unfold memfile_open. rewrite path_eq_ok. cbn [lift_path]. rewrite (st_lift_ok _ _ _ _ eq_refl).
  case_match; [by eexists|]. rewrite st_get_bind, Hl. by eexists.
Qed.
Lemma new_ok (x : F) perm : file_ok (MkWorld x perm false ∅ 0).
Proof.
  assert (Hn : ∀ c, ¬ holds_lock (MkWorld x perm false ∅ 0) c) by (by intros c (k & Hk & _)).
  split; [intros c1 c2 H; by destruct (Hn c1)|split; [done|]; intros [c Hc]; by destruct (Hn c)|]. by intros c k Hk.
Qed.

(** C21: whatever the connections of a file in memory do and in whatever order they come and
    go, at most one of them has the lock of the file, the file is marked as locked exactly
    when one has, and no connection is opened while it is. *)
Theorem file_locks (x : F) perm es rs w : file_steps grow phys_sub es (MkWorld x perm false ∅ 0) = (Ok rs, w) →
  (∀ c1 c2, holds_lock w c1 → holds_lock w c2 → c1 = c2) ∧
  (flocked w = true ↔ ∃ c, holds_lock w c) ∧
  (flocked w = true → ∀ p opts c, (file_step grow phys_sub (Opened p opts c) w).2 = w).
Proof.
  intros H. apply steps_all_ok in H as ([H1 H2 _] & _); [|apply new_ok]. split; [done|]. split; [done|]. intros Hl p opts c.
  cbn [file_step]. by destruct (open_locked p opts c w Hl) as [e ->].
Qed.

(** C20: whatever options the connections of a file in memory are opened with and in whatever
    order they ask: a file without the permission to write is never changed by the requests;
    and as long as no connection asks for the physical object or for the lock (which hand
    out the object itself without a look at the permissions, [phys_unchecked] below), a file
    without the permission to read gives away none of its bytes, nor the object. *)
Theorem file_permissions (x : F) perm es rs w : file_steps grow phys_sub es (MkWorld x perm false ∅ 0) = (Ok rs, w) →
  (contains perm PERM_WRITE = false → fphys w = x) ∧
  (contains perm PERM_READ = false → forallb keeps_object es = true → Forall (λ r, discloses r = false) rs).
Proof. intros H. by apply steps_all_ok in H as (_ & _ & Hw & Hr); [|apply new_ok]. Qed.
End server.

(** ** Reading what was written *)

Section contents.
Context `{P : Profile} {F : Type} `{O : PhysObj F} `{R : !Reliable F} (grow : Z → Z → Z) (Hgrow : ∀ a b, Z.max a b ≤ grow a b).
Context (phys_sub : F → Z → Z → bool → res errno F).
Implicit Type w : mem_world F.

(** The connection has its stream, at [z]. *)
Definition streams w c opts z : Prop := ∃ b, fconns w !! c = Some (MkFileConn (MkStreamFile (Some z) b) opts).
Definition streaming w c opts : Prop := ∃ z, streams w c opts z.

(** A request that is an operation of the stream. *)
Lemma ask_stream {A} (g : A → file_value F) (m : st (stream F) io_error A) c opts z w q a x z' :
  streams w c opts z → (∀ s, handle_file (IO:=memfile_io grow phys_sub) (X:=memfile phys_sub) opts q s = send g (with_stream m) s) →
  m (MkStream (fphys w) z) = (Ok a, MkStream x z') →
  ∃ w', file_step grow phys_sub (Asked c q) w = (Ok (Sent (Ok (g a))), w') ∧ fphys w' = x ∧ streams w' c opts z' ∧
    ∀ c' opts', streaming w c' opts' → streaming w' c' opts'.
Proof.
  intros [b Hc] Hq Hm. cbn [file_step]. rewrite st_get_bind, Hc. unfold ask_file. cbn [copts cfile]. rewrite Hq. unfold send, with_stream.
  rewrite own_bind. cbn [sraw]. unfold on_stream. cbn. rewrite Hm. cbn. eexists. split; [done|]. split; [done|]. split.
  - exists b. apply lookup_insert_eq.
  - intros c' opts' (z0 & b0 & Hc'). cbn. destruct (decide (c' = c)) as [->|Hn].
    + rewrite Hc in Hc'. injection Hc' as <- <- <-. exists z', b. apply lookup_insert_eq.
    + exists z0, b0. cbn. by rewrite lookup_insert_ne by done.
Qed.

Lemma read_back off l c : 0 ≤ off ≤ blen c → btake (blen l) (bdrop off (overwrite off l c)) = l.
Proof.
  intros H. unfold overwrite. rewrite bdrop_app, blen_take, Z.min_l by lia. rewrite (bdrop_all off (btake off c)) by (rewrite blen_take by lia; lia).
  replace (off - off) with 0 by lia. rewrite bdrop_0. cbn [app]. pose proof (blen_nonneg l). rewrite btake_app, btake_all by lia.
  by rewrite (btake_neg (blen l - blen l)), app_nil_r by lia.
Qed.
Lemma seek_start_run x z p : seek (Start p) (MkStream x z) = (Ok p, MkStream x p).
Proof. done. Qed.

Lemma write_run buf x z : 0 ≤ z ≤ blen (content x) → blen (content x) + blen buf < 2 ^ 64 →
  ∃ x', write buf (MkStream x z) = (Ok (blen buf), MkStream x' (z + blen buf)) ∧ content x' = overwrite z buf (content x).
Proof.
  intros Hz Hl. pose proof (write_ok [buf] x z) as H. rewrite joined_one in H. by apply H.
Qed.
Lemma read_all_run n x z : 0 ≤ z → 0 ≤ n → z + n ≤ blen (content x) → blen (content x) < 2 ^ 64 →
  read grow (replicate (Z.to_nat n) 0) (MkStream x z) = (Ok (n, btake n (bdrop z (content x))), MkStream x (z + n)).
Proof.
  intros Hz Hn Hl Hc. set (buf := replicate (Z.to_nat n) 0). assert (Hb : blen buf = n) by (unfold blen, buf; rewrite length_replicate; lia).
  pose proof (read_run grow Hgrow [buf] x z) as H. rewrite joined_one, Hb in H. destruct H as (out & Hr & Hj & Hm); [lia..|].
  rewrite Z.min_l in * by lia. rewrite (bdrop_all n buf), app_nil_r in Hj by lia. unfold read, single.
  erewrite st_bind_ok by exact Hr. destruct out as [|b1 [|b2 out]]; [done| |done]. rewrite joined_one in Hj. by rewrite Hj.
Qed.

End contents.

(** ** Both kinds of files seek alike *)

Section seeking.
Context `{P : Profile} {F S : Type} `{O : PhysObj F} `{X : !FileServer.File S F}.

(** A move of a position as the stream computes it. *)
Definition moved (pos : SeekFrom) (start delta : Z) : res io_error Z :=
  if delta >=? 0 then start +! delta
  else d ← neg_usize delta; if start <? d then Err (InvalidSeekFrom pos) else Ok (start - d).

Lemma moved_isize pos start delta : 0 ≤ start < 2 ^ 64 → seek_isize start delta = map_err from_io (moved pos start delta).
Proof.
  intros Hs. unfold seek_isize, moved. destruct (Z.gtb_spec delta 0) as [Hd|Hd].
  - rewrite (proj2 (Z.geb_le _ _)) by lia. unfold uadd, checked. by repeat case_match.
  - destruct (Z.geb_spec delta 0) as [H0|H0].
    + assert (delta = 0) as -> by lia. rewrite uadd_ok by lia. change (neg_usize 0) with (Ok 0 : res fs_error Z).
      cbn [mbind res_bind map_err]. rewrite (proj2 (Z.ltb_ge _ _)) by lia. by f_equal.
    + destruct (neg_usize delta) eqn:Hn; unfold neg_usize in Hn |- *; case_match; simplify_eq; cbn; [by case_match|done].
Qed.

Lemma move_run (x : F) z pos start d :
  (if d >=? 0 then z ← lift (start +! d); set_seeker z
   else d ← lift (neg_usize d); if start <? d then lift (Err (InvalidSeekFrom pos)) else set_seeker (start - d)) (MkStream x z) =
  (z ← lift (moved pos start d); set_seeker z) (MkStream x z).
Proof.
  unfold moved. destruct (d >=? 0); [done|]. destruct (neg_usize d) as [d'|e|]; [|done..].
  rewrite (st_lift_ok _ _ _ _ eq_refl). cbn [mbind res_bind]. by destruct (start <? d').
Qed.
Lemma bind_same {T E A B} (m m' : st T E A) (k : A → st T E B) s : m s = m' s → (m ≫= k) s = (m' ≫= k) s.
Proof. intros H. unfold mbind, st_bind. by rewrite H. Qed.

Lemma seek_moved x z pos : seek pos (MkStream x z) =
  match (match pos with Start p => Ok p | Current d => moved pos z d | End d => moved pos (blen (content x)) d end) with
  | Ok z' => (Ok z', MkStream x z')
  | Err e => (Err e, MkStream x z)
  | Panic => (Panic, MkStream x z)
  end.
Proof.
  unfold seek. rewrite st_get_bind. cbn [sphys seeker]. destruct pos as [p|d|d]; [done|..].
  all: rewrite (bind_same _ _ _ _ (move_run x z _ _ d)). all: by destruct (moved _ _ d).
Qed.

(** The files with a position of their own and the files over streams seek alike: to the
    same positions, with the same errors, which leave the position, and with a panic for the
    same inputs. *)
Theorem seek_equiv (x : F) z b pos (w : S) : 0 ≤ z < 2 ^ 64 → blen (content x) < 2 ^ 64 → file_len w = (Ok (blen (content x)), w) →
  direct_seek pos (MkDirect z b, w) =
  let '(r, s) := seek pos (MkStream x z) in (map_err from_io r, (MkDirect (seeker s) b, w)).
Proof.
  intros Hz Hx Hl. pose proof (blen_nonneg (content x)). rewrite seek_moved. unfold direct_seek. destruct pos as [p|d|d]; [done|..].
  - rewrite (bind_same _ (lift (seek_isize z d))) by done. rewrite (moved_isize (Current d)) by lia. by destruct (moved _ z d).
  - rewrite (bind_same _ (lift (seek_isize (blen (content x)) d))).
    + rewrite (moved_isize (End d)) by lia. by destruct (moved _ (blen (content x)) d).
    + erewrite st_bind_ok; [done|]. by rewrite on_world_run, Hl.
Qed.
End seeking.

(** ** Files of lists of bytes *)

Module FileWitness.
Import StreamWitness.

Definition no_sub (f : bytes) (offset len : Z) (copy : bool) : res errno bytes := Ok (btake len (bdrop offset f)).
Abbreviation run := (file_steps (F:=bytes) Z.max no_sub).
Definition RW : Z := Z.lor READ WRITE.
Definition new_file (perm : Z) : mem_world bytes := MkWorld bytes_1_5 perm false ∅ 0.

Lemma file_locks_witness :
  let w := (run [Opened [] RW 1; Opened [] RW 2; Asked 1 Lock; Asked 2 Lock] (new_file 3)).2 in
  holds_lock w 1 ∧ (∀ c, holds_lock w c → 1 = c) ∧ flocked w = true.
Proof.
  intros w. destruct (file_locks Z.max no_sub bytes_1_5 3 [Opened [] RW 1; Opened [] RW 2; Asked 1 Lock; Asked 2 Lock]
    [Sent (Ok VUnit); Sent (Ok VUnit); Sent (Ok (VStream (Some (MkStream bytes_1_5 0)))); Sent (Err WouldBlock)] w) as (H1 & H2 & _); [by vm_compute|].
  assert (Hh : holds_lock w 1) by (exists (MkFileConn (MkStreamFile None true) RW); by vm_compute).
  split; [done|]. split; [intros c Hc; by apply H1|]. apply H2. by exists 1.
Defined.

(** One connection may only write, the other may do nothing. *)
Lemma file_permissions_witness :
  let es := [Opened [] RW 1; Opened [] WRITE 1; Opened [] 0 2; Asked 1 (Write [9]); Asked 1 (Read 2); Asked 2 (Seek (End 0)); Asked 2 (ReadAt 0 5)] in
  (run es (new_file PERM_WRITE)).1 =
    Ok [Sent (Err (PermissionDenied PERM_READ)); Sent (Ok VUnit); Sent (Ok VUnit); Sent (Ok (VLen 1)); Sent (Err (PermissionDenied PERM_READ));
        Sent (Ok (VLen 5)); Sent (Err (PermissionDenied PERM_READ))] ∧
  ∃ rs w, run es (new_file PERM_WRITE) = (Ok rs, w) ∧ Forall (λ r, discloses r = false) rs.
Proof.
  intros es. split; [by vm_compute|]. destruct (run es (new_file PERM_WRITE)) as [[rs|e|] w] eqn:H; [|by vm_compute in H..].
  exists rs, w. split; [done|]. by apply (file_permissions Z.max no_sub bytes_1_5 PERM_WRITE es rs w H).
Defined.

Definition two_conns : mem_world bytes := (run [Opened [] RW 1; Opened [] READ 2] (new_file 3)).2.


(** A file with a position of its own, over a list. *)
#[local] Instance list_file : FileServer.File bytes bytes := {
  file_open _ _ _ := mret ();
  file_metadata := f ← get; mret (MkMetadata LocalFs.File 3 (blen f));
  file_lock _ := mret None;
  file_unlock := mret ();
  file_flush := mret ();
  file_read_at pos buf := f ← get; let l := btake (blen buf) (bdrop pos f) in mret (blen l, l ++ bdrop (blen l) buf);
  file_write_at _ _ := mret 0;
  file_len := f ← get; mret (blen f);
  file_resize _ := mret ();
  file_phys _ := get;
}.

Lemma seek_equiv_witness :
  direct_seek (End (-2)) (MkDirect 1 false, bytes_1_5) = (Ok 3, (MkDirect 3 false, bytes_1_5)) ∧
  (direct_seek (Current (-2)) (MkDirect 1 false, bytes_1_5)).1 = Err InvalidSeek.
Proof.
  split.
  - rewrite (seek_equiv bytes_1_5) by (split; [discriminate|reflexivity] || reflexivity). reflexivity.
  - rewrite (seek_equiv bytes_1_5) by (split; [discriminate|reflexivity] || reflexivity). reflexivity.
Defined.

(** A connection that asks for the lock in vain has lost its stream: it can read no more. *)
Example lock_loses_stream :
  (run [Opened [] RW 1; Opened [] RW 2; Asked 1 Lock; Asked 2 Lock; Gone 1; Asked 2 (Read 2); Asked 2 Lock] (new_file 3)).1 =
  Ok [Sent (Ok VUnit); Sent (Ok VUnit); Sent (Ok (VStream (Some (MkStream bytes_1_5 0)))); Sent (Err WouldBlock); Break; Sent (Err WouldBlock); Sent (Ok (VStream None))].
Proof. by vm_compute. Qed.

(** The lock does not keep away the connections that were opened before. *)
Example locked_written :
  fphys (run [Opened [] RW 1; Opened [] RW 2; Asked 1 Lock; Asked 2 (Write [9])] (new_file 3)).2 = [9; 2; 3; 4; 5].
Proof. by vm_compute. Qed.

(** The object itself, or a stream over it, is given to a connection that may neither read nor write. *)
Example phys_unchecked :
  (run [Opened [] 0 1; Asked 1 (PhysReq SharedPhys)] (new_file 0)).1 = Ok [Sent (Ok VUnit); Sent (Ok (VPhys bytes_1_5))] ∧
  (run [Opened [] 0 1; Asked 1 Lock] (new_file 0)).1 = Ok [Sent (Ok VUnit); Sent (Ok (VStream (Some (MkStream bytes_1_5 0))))].
Proof. by vm_compute. Qed.

(** A request for too many bytes ends the server. *)
Example read_panics : (run [Opened [] RW 1; Asked 1 (Read (2 ^ 63))] (new_file 3)).1 = Panic.
Proof. by vm_compute. Qed.

(** [File::is_empty] says the opposite. *)
Example is_empty_inverted : (file_is_empty bytes_1_5).1 = Ok true ∧ (file_is_empty ([] : bytes)).1 = Ok false.
Proof. by vm_compute. Qed.
End FileWitness.
