(* ===== verification/Elf.v ===== *)
(** * Tables of ELF files in memory ([ldso/src/elf.rs])

    The dynamic linker reads the tables of a file from the memory it is mapped to: the symbols,
    their names, the hash table over the names, the relative relocations and the initial data
    of thread-local variables. *)

From S2P Require Import Base Bits Mem Slices.
Local Open Scope Z_scope.
Local Open Scope h2o_scope.

(** ** Words in memory *)

Definition read_u32 (m : memory) (a : Z) : Z := from_le (bytes m a 4).
Definition read_u64 (m : memory) (a : Z) : Z := from_le (bytes m a 8).
Definition write_u64 (a v : Z) (m : memory) : memory := store a (to_le 8 v) m.

(** [CStr::from_ptr]: the bytes up to the first zero. An address that is not in the map holds
    zero, so there are at most as many as the map has addresses. *)
Fixpoint c_str_loop (limit : nat) (m : memory) (a : Z) : list Z :=
  match limit with
  | O => []
  | S limit => if byte m a =? 0 then [] else byte m a :: c_str_loop limit m (a + 1)
  end.
Definition c_str (m : memory) (a : Z) : list Z := c_str_loop (base.size m) m a.

(** ** Relative relocations *)

Section relr.
Context `{P : Profile} {E : Type}.
Abbreviation mm := (st memory E).

(** [*addr += base as usize]. *)
Definition add_base (base addr : Z) : mm () :=
  m ← get;
  v ← lift (read_u64 m addr +! base);
  put (write_u64 addr v m).

(** The loop over the bits of an entry; a bit is found in each turn. *)
Fixpoint relr_bits (fuel : nat) (base run bitmask : Z) : mm () :=
  match fuel with
  | O => lift Panic
  | S fuel =>
      if bitmask =? 0 then mret ()
      else
        let skip := cttz W bitmask in
        let run := run + skip * 8 in
        _ ← add_base base run;
        relr_bits fuel base (run + 8) (Z.shiftr bitmask (skip + 1))
  end.

(** The loop over the entries that are bitmaps: the index of the first one that is not. *)
Fixpoint relr_bitmaps (fuel : nat) (base relr len i addr : Z) : mm Z :=
  match fuel with
  | O => lift Panic
  | S fuel =>
      m ← get;
      let e := read_u64 m (relr + i * 8) in
      if (i <? len) && negb (Z.land e 1 =? 0) then
        _ ← relr_bits 64 base addr (Z.shiftr e 1);
        relr_bitmaps fuel base relr len (i + 1) (addr + 63 * 8)
      else mret i
  end.

Fixpoint relr_loop (fuel : nat) (base relr len i : Z) : mm () :=
  match fuel with
  | O => lift Panic
  | S fuel' =>
      if i <? len then
        m ← get;
        let addr := base + read_u64 m (relr + i * 8) in
        _ ← add_base base addr;
        i ← relr_bitmaps fuel base relr len (i + 1) (addr + 8);
        relr_loop fuel' base relr len i
      else mret ()
  end.

(** [apply_relr]; every turn of a loop takes an entry. *)
Definition apply_relr (base relr size : Z) : mm () :=
  let len := size / 8 in relr_loop (S (Z.to_nat len)) base relr len 0.
End relr.

(** ** Symbols *)

Record Sym := MkSym { st_name : Z; st_info : Z; st_other : Z; st_shndx : Z; st_value : Z; st_size : Z }.
#[export] Instance Sym_eq_dec : EqDecision Sym.
Proof. solve_decision. Defined.

(** The layout of an entry of a symbol table. *)
Definition sym_at (m : memory) (a : Z) : Sym :=
  MkSym (read_u32 m a) (byte m (a + 4)) (byte m (a + 5)) (from_le (bytes m (a + 6) 2)) (read_u64 m (a + 8)) (read_u64 m (a + 16)).
Definition SYM_SIZE : Z := 24.

(** [slice::from_raw_parts] of symbols and of words. *)
Definition syms_at (m : memory) (a n : Z) : list Sym := (λ i, sym_at m (a + i * SYM_SIZE)) <$> seqZ 0 n.
Definition u32s_at (m : memory) (a n : Z) : list Z := (λ i, read_u32 m (a + i * 4)) <$> seqZ 0 n.
Definition u64s_at (m : memory) (a n : Z) : list Z := (λ i, read_u64 m (a + i * 8)) <$> seqZ 0 n.

Record GnuHash := MkGnu {
  sym_base : Z;
  bloom_shift : Z;
  bloom_filters : list Z;
  buckets : list Z;
  chains : list Z;
  gsyms : list Sym;
  strs : Z;
}.

Inductive Symbols := GnuHashed (g : GnuHash) | Raw (syms : list Sym) (strs : Z).

(** [DsoBase] of [dso.rs], and [Dyn]. *)
Inductive DsoBase := DynBase (base : Z) | ExecBase (base : Z).
Record Dyn := MkDyn { d_tag : Z; d_val : Z }.

Definition DT_NEEDED : Z := 1.
Definition DT_STRTAB : Z := 5.
Definition DT_SYMTAB : Z := 6.
Definition DT_GNU_HASH : Z := 0x6ffffef5.

Section symbols.
Context `{P : Profile} {E : Type}.
Abbreviation r := (res E).

Definition base_get (b : DsoBase) : Z := match b with DynBase x => x | ExecBase x => x end.
Definition base_ptr (b : DsoBase) (offset : Z) : r Z :=
  match b with DynBase x => x +! offset | ExecBase _ => Ok offset end.

(** [GnuHash::hash]. *)
Definition gnu_hash (symbol : list Z) : Z := fold_left (λ h b, wrap 32 (wrap 32 (h * 33) + b)) symbol 5381.

Definition MASK_LB : Z := 0xfffffffe.

(** The loop of [lookup] over a chain and the symbols beside it. *)
Fixpoint chain_loop (m : memory) (strs : Z) (name : list Z) (hash : Z) (hs : list Z) (ss : list Sym) : option Sym :=
  match hs, ss with
  | h :: hs, s :: ss =>
      if (hash =? Z.land h MASK_LB) && bool_decide (name = c_str m (strs + st_name s)) then Some s
      else if negb (Z.land h 1 =? 0) then None
      else chain_loop m strs name hash hs ss
  | _, _ => None
  end.

Definition gnu_lookup (m : memory) (g : GnuHash) (name : list Z) (hash : Z) : r (option Sym) :=
  let n := Z.of_nat (length (buckets g)) in
  if n =? 0 then Panic
  else
    bucket ← unwrap (buckets g !! Z.to_nat (hash mod n));
    if bucket <? sym_base g then Ok None
    else
      let chain_idx := bucket - sym_base g in
      let hash := Z.land hash MASK_LB in
      if Z.of_nat (length (chains g)) <? chain_idx then Ok None
      else if Z.of_nat (length (gsyms g)) <? bucket then Ok None
      else Ok (chain_loop m (strs g) name hash (drop (Z.to_nat chain_idx) (chains g)) (drop (Z.to_nat bucket) (gsyms g))).

Definition may_contain (g : GnuHash) (hash : Z) : r bool :=
  hash2 ← ushr 32 hash (bloom_shift g);
  let bitmask := Z.lor (Z.shiftl 1 (Z.land hash 63)) (Z.shiftl 1 (Z.land hash2 63)) in
  mask ← usub 32 (wrap 32 (Z.of_nat (length (bloom_filters g)))) 1;
  let bloom_idx := Z.land (hash / 64) mask in
  bitmask_word ← unwrap (bloom_filters g !! Z.to_nat bloom_idx);
  Ok (Z.land bitmask_word bitmask =? bitmask).

Definition get_hashed (m : memory) (g : GnuHash) (name : list Z) (hash : Z) : r (option Sym) :=
  b ← may_contain g hash;
  if b : bool then gnu_lookup m g name hash else Ok None.

(** The loop of [parse] over the words of the last chain; [fuel] bounds its length. *)
Fixpoint chain_end (fuel : nat) (m : memory) (ptr max_sym : Z) : r (Z * Z) :=
  match fuel with
  | O => Panic
  | S fuel =>
      let value := read_u32 m ptr in
      max_sym ← uadd 32 max_sym 1;
      if negb (Z.land value 1 =? 0) then Ok (ptr + 4, max_sym) else chain_end fuel m (ptr + 4) max_sym
  end.

Definition gnu_parse (fuel : nat) (m : memory) (ghash sym_ptr str_ptr : Z) : r (option GnuHash) :=
  let bucket_count := read_u32 m ghash in
  let sym_base := read_u32 m (ghash + 4) in
  let bloom_count := read_u32 m (ghash + 8) in
  let bloom_shift := read_u32 m (ghash + 12) in
  let bloom_base := ghash + 16 in
  let bucket_base := bloom_base + bloom_count * 8 in
  let buckets := u32s_at m bucket_base bucket_count in
  let chain_base := bucket_base + bucket_count * 4 in
  match buckets with
  | [] => Panic
  | b :: bs =>
      let max_sym := fold_left Z.max bs b in
      if max_sym =? 0 then Ok None
      else
        skip ← usub 32 max_sym sym_base;
        '(ptr, sym_len) ← chain_end fuel m (chain_base + skip * 4) max_sym;
        Ok (Some (MkGnu sym_base bloom_shift (u64s_at m bloom_base bloom_count) buckets
                    (u32s_at m chain_base ((ptr - chain_base) / 4)) (syms_at m sym_ptr sym_len) str_ptr))
  end.

(** [Symbols::get_by_name_hashed]: without a hash table the last symbol of the name. *)
Definition get_by_name_hashed (m : memory) (s : Symbols) (name : list Z) (ghash : Z) : r (option Sym) :=
  match s with
  | GnuHashed g => get_hashed m g name ghash
  | Raw syms strs =>
      Ok (fold_left (λ ret s, if bool_decide (c_str m (strs + st_name s) = name) then Some s else ret) syms None)
  end.
Definition get_by_name (m : memory) (s : Symbols) (name : list Z) : r (option Sym) := get_by_name_hashed m s name (gnu_hash name).

Definition sym_get (s : Symbols) (index : Z) : option Sym :=
  match s with GnuHashed g => gsyms g !! Z.to_nat index | Raw syms _ => syms !! Z.to_nat index end.
Definition get_str (m : memory) (s : Symbols) (name : Z) : list Z :=
  match s with GnuHashed g => c_str m (strs g + name) | Raw _ strs => c_str m (strs + name) end.

(** [dynamic.iter().find_map] of a tag. *)
Fixpoint find_tag (tag : Z) (dynamic : list Dyn) : option Z :=
  match dynamic with
  | [] => None
  | d :: ds => if d_tag d =? tag then Some (d_val d) else find_tag tag ds
  end.

(** [Symbols::from_dynamic]. *)
Definition from_dynamic (fuel : nat) (m : memory) (base : DsoBase) (dynamic : list Dyn) (sym_len : option Z) : r (option Symbols) :=
  match find_tag DT_SYMTAB dynamic with
  | None => Ok None
  | Some sym =>
      sym_ptr ← base_ptr base sym;
      match find_tag DT_STRTAB dynamic with
      | None => Ok None
      | Some str =>
          str_ptr ← base_ptr base str;
          g ← (match find_tag DT_GNU_HASH dynamic with
               | None => Ok None
               | Some offset => ghash ← base_ptr base offset; gnu_parse fuel m ghash sym_ptr str_ptr
               end);
          Ok (match g with
              | Some g => Some (GnuHashed g)
              | None => (λ n, Raw (syms_at m sym_ptr n) str_ptr) <$> sym_len
              end)
      end
  end.
End symbols.

(** ** Thread-local variables *)

Record Tls := MkTls { tlayout : Layout; init_ptr : Z; init_len : Z; toffset : Z }.

(** [Tcb]: [static_base] is the number of bytes of [data] it lies behind, once it is set. *)
Record Tcb := MkTcb { static_base : option Z; tcb_id : Z; tdata : list Z; dtors : list (Z * Z) }.

Section tls.
Context `{P : Profile} {E : Type}.

(** [copy_from_slice] to [data[offset..][..len]]. *)
Definition copy_at (offset : Z) (src data : list Z) : res E (list Z) :=
  if Z.of_nat (length data) <? offset then Panic
  else if Z.of_nat (length data) - offset <? Z.of_nat (length src) then Panic
  else Ok (take (Z.to_nat offset) data ++ src ++ drop (Z.to_nat offset + length src) data).

(** [Tls::push]. *)
Definition tls_push (m : memory) (t : Tls) (data : list Z) : res E (list Z) :=
  new_len ← toffset t +! pad_to_align (tlayout t);
  let data := if new_len >? Z.of_nat (length data) then data ++ replicate (Z.to_nat new_len - length data) 0 else data in
  copy_at (toffset t) (bytes m (init_ptr t) (init_len t)) data.
End tls.
