(* ===== verification/ElfSpec.v ===== *)
(** * Relocations and symbols are found where the tables say

    The loops over the bits of relative relocations are compared with the definition of the
    format, and the search in a hash table with the search among all symbols. *)

From S2P Require Import Base Bits Mem Slices Elf.
Local Open Scope Z_scope.
Local Open Scope h2o_scope.

(** ** Words *)

Lemma u64_bound m a : (∀ x, 0 ≤ byte m x < 256) → 0 ≤ read_u64 m a < 2 ^ 64.
Proof.
  intros Hb. assert (H : Forall is_byte (bytes m a 8)).
  { apply Forall_forall. intros x Hx. apply list_elem_of_fmap in Hx as (i & -> & _). apply Hb. }
  apply from_le_bound in H. by rewrite bytes_length in H.
Qed.

Lemma read_write_same m a v : 0 ≤ v < 2 ^ 64 → read_u64 (write_u64 a v m) a = v.
Proof.
  intros Hv. unfold read_u64, write_u64. pose proof (bytes_store_eq a (to_le 8 v) m) as H. rewrite to_le_length in H.
  change (Z.of_nat 8) with 8 in H. rewrite H. by apply from_to_le.
Qed.
Lemma read_write_other m a b v : b + 8 ≤ a ∨ a + 8 ≤ b → read_u64 (write_u64 a v m) b = read_u64 m b.
Proof. intros H. unfold read_u64, write_u64. rewrite bytes_store_ne; [done|]. rewrite to_le_length. lia. Qed.

(** ** Relative relocations

    An entry that is even is an address; the bits of an odd one, from the second on, stand for
    the 63 words behind what the entry before covers. *)

Definition bitmap_targets (addr e : Z) : list Z :=
  (λ j, addr + (j - 1) * 8) <$> filter (λ j, Z.testbit e j = true) (seqZ 1 63).

Fixpoint relr_targets (addr : option Z) (es : list Z) : list Z :=
  match es with
  | [] => []
  | e :: es =>
      match addr with
      | Some a => if Z.odd e then bitmap_targets a e ++ relr_targets (Some (a + 63 * 8)) es else e :: relr_targets (Some (e + 8)) es
      | None => e :: relr_targets (Some (e + 8)) es
      end
  end.

(** ** Bits from the lowest one on *)

Abbreviation ones_of b l := (filter (λ j, Z.testbit b j = true) l).

Lemma filter_map_list {A B} (Q : B → Prop) `{∀ x, Decision (Q x)} (f : A → B) (l : list A) : filter Q (f <$> l) = f <$> filter (λ x, Q (f x)) l.
Proof. induction l as [|x l IH]; [done|]. rewrite fmap_cons, !filter_cons, IH. by case_decide. Qed.

Lemma ones_shift b s n : 0 ≤ s → filter (λ j, Z.testbit b (s + j) = true) (seqZ 0 n) = ones_of (Z.shiftr b s) (seqZ 0 n).
Proof.
  intros Hs. assert (H : ∀ l : list Z, (∀ j, j ∈ l → 0 ≤ j) → filter (λ j, Z.testbit b (s + j) = true) l = ones_of (Z.shiftr b s) l).
  { induction l as [|j l IH]; intros H; [done|]. rewrite !filter_cons, Z.shiftr_spec, (Z.add_comm j) by (apply H; set_solver).
    rewrite IH; [done|]. intros j' Hj. apply H. set_solver. }
  apply H. intros j Hj. apply elem_of_seqZ in Hj. lia.
Qed.
Lemma ones_none b (l : list Z) : (∀ j, j ∈ l → Z.testbit b j = false) → ones_of b l = [].
Proof.
  induction l as [|j l IH]; intros H; [done|]. rewrite filter_cons, (H j) by set_solver. rewrite decide_False by done.
  apply IH. intros j' Hj. apply H. set_solver.
Qed.

Lemma ones_first b n : 0 < b < 2 ^ n → 0 ≤ n → let s := cttz W b in
  0 ≤ s < n ∧ 0 ≤ Z.shiftr b (s + 1) < 2 ^ (n - s - 1) ∧
  ones_of b (seqZ 0 n) = s :: (Z.add (s + 1) <$> ones_of (Z.shiftr b (s + 1)) (seqZ 0 (n - s - 1))).
Proof.
  intros Hb Hn s. destruct (cttz_spec W b) as [Hs (k & Hk & Hk0)]; [lia|]. fold s in Hs, Hk.
  pose proof (pow2_pos s Hs) as Hps. assert (Hsn : s < n).
  { apply (Z.pow_lt_mono_r_iff 2); [lia|lia|]. nia. }
  assert (Hsh : Z.shiftr b (s + 1) = k).
  { rewrite Z.shiftr_div_pow2 by lia. rewrite Z.pow_add_r by lia. symmetry. apply Z.div_unique with (2 ^ s); [lia|]. rewrite Hk. ring. }
  split; [lia|]. split.
  - rewrite Hsh. split; [done|]. apply (Z.mul_lt_mono_pos_r (2 ^ (s + 1))); [apply pow2_pos; lia|].
    rewrite <- Z.pow_add_r by lia. replace (n - s - 1 + (s + 1)) with n by lia. rewrite Z.pow_add_r by lia. nia.
  - replace n with (s + (1 + (n - s - 1))) at 1 by lia. rewrite !seqZ_app by lia. rewrite !filter_app.
    rewrite (ones_none b (seqZ 0 s)).
    2: { intros j Hj. apply elem_of_seqZ in Hj. rewrite Hk. apply Z.mul_pow2_bits_low. lia. }
    cbn [app]. rewrite (seqZ_cons _ 1), seqZ_nil by lia. rewrite filter_cons, decide_True, filter_nil.
    2: { rewrite Hk. rewrite Z.add_0_l. replace s with (s + 0) at 2 by lia. rewrite Z.mul_pow2_bits_add by done.
         rewrite Z.testbit_odd. rewrite Z.shiftr_0_r. replace (2 * k + 1) with (1 + 2 * k) by lia. by rewrite Z.odd_add_mul_2. }
    cbn [app]. rewrite Z.add_0_l. f_equal. rewrite <- (Z.add_0_r (s + 1)) at 1. rewrite <- fmap_add_seqZ, filter_map_list. f_equal. apply ones_shift. lia.
Qed.

Section relr.
Context `{P : Profile} {E : Type} (base relr : Z).
Implicit Type m : memory.

(** The words at the addresses, counted from [base], are moved by [base]. *)
Fixpoint move_all (l : list Z) : st memory E () :=
  match l with [] => mret () | a :: l => _ ← add_base base (base + a); move_all l end.

Lemma bind_cong {A B} (c c' : st memory E A) (k k' : A → st memory E B) m : c m = c' m →
  (∀ a m', c' m = (Ok a, m') → k a m' = k' a m') → (c ≫= k) m = (c' ≫= k') m.
Proof.
  intros Hc Hk. unfold mbind, st_bind. rewrite Hc. destruct (c' m) as [[a|e|] m'] eqn:Hr; [by apply Hk|done|done].
Qed.
Lemma bind_assoc {A B C} (c : st memory E A) (k : A → st memory E B) (k' : B → st memory E C) m :
  ((c ≫= k) ≫= k') m = (c ≫= λ a, k a ≫= k') m.
Proof. unfold mbind, st_bind. by destruct (c m) as [[a|e|] m']. Qed.

Lemma move_all_app l1 l2 m : move_all (l1 ++ l2) m = (_ ← move_all l1; move_all l2) m.
Proof.
  revert m. induction l1 as [|a l1 IH]; intros m; [done|]. cbn [app move_all]. rewrite bind_assoc. apply bind_cong; [done|].
  intros [] m' _. apply IH.
Qed.

Lemma bits_moved fuel : ∀ n a b m, 0 ≤ b < 2 ^ n → 0 ≤ n → (Z.to_nat n < fuel)%nat →
  relr_bits fuel base (base + a) b m = move_all ((λ j, a + j * 8) <$> ones_of b (seqZ 0 n)) m.
Proof.
  induction fuel as [|fuel IH]; intros n a b m Hb Hn Hf; [lia|]. cbn [relr_bits]. destruct (Z.eqb_spec b 0) as [->|Hb0].
  { rewrite ones_none; [done|]. intros j _. apply Z.bits_0. }
  destruct (ones_first b n) as (Hs & Hb' & ->); [lia|done|]. set (s := cttz W b) in *. rewrite fmap_cons. cbn [move_all].
  apply bind_cong; [f_equal; lia|]. intros [] m' _. replace (base + a + s * 8 + 8) with (base + (a + (s + 1) * 8)) by lia.
  rewrite (IH (n - s - 1)) by lia. rewrite <- list_fmap_compose. f_equal. apply list_fmap_ext. intros k j _. cbn. lia.
Qed.

Lemma bitmap_moved a e m : 0 ≤ e < 2 ^ 64 → relr_bits 64 base (base + a) (Z.shiftr e 1) m = move_all (bitmap_targets a e) m.
Proof.
  intros He. rewrite (bits_moved 64 63); [|rewrite Z.shiftr_div_pow2 by lia; split; [apply Z.div_pos; lia|apply Z.div_lt_upper_bound; lia]|lia|lia].
  f_equal. unfold bitmap_targets. change (seqZ 1 63) with (seqZ (1 + 0) 63). rewrite <- (fmap_add_seqZ 1 0), filter_map_list, ones_shift by lia.
  rewrite <- list_fmap_compose. apply list_fmap_ext. intros k j _. cbn. lia.
Qed.

Lemma odd_land e : negb (Z.land e 1 =? 0) = Z.odd e.
Proof.
  change 1 with (Z.ones 1). rewrite Z.land_ones by lia. change (2 ^ 1) with 2. rewrite Zmod_odd. by destruct (Z.odd e).
Qed.

(** The table is where the relocations do not reach. *)
Definition table m i (es : list Z) : Prop := ∀ k e, es !! k = Some e → read_u64 m (relr + (i + Z.of_nat k) * 8) = e.
Definition off_table (i len : Z) (a : Z) : Prop := base + a + 8 ≤ relr + i * 8 ∨ relr + len * 8 ≤ base + a.

Lemma add_base_table m m' a i len es : off_table i len a → Z.of_nat (length es) = len - i →
  add_base (E:=E) base (base + a) m = (Ok (), m') → table m i es → table m' i es.
Proof.
  intros Ho Hl. unfold add_base. rewrite st_get_bind. destruct (read_u64 m (base + a) +! base) as [v|e|]; [|done|done].
  rewrite (st_lift_ok _ _ _ _ eq_refl). intros [= <-] Ht k e Hk. rewrite read_write_other; [by apply Ht|].
  apply lookup_lt_Some in Hk. unfold off_table in Ho. lia.
Qed.
Lemma move_all_table l : ∀ m m' i len es, Forall (off_table i len) l → Z.of_nat (length es) = len - i →
  move_all l m = (Ok (), m') → table m i es → table m' i es.
Proof.
  induction l as [|a l IH]; intros m m' i len es Hf Hl Hr Ht; cbn [move_all] in Hr; [by injection Hr as <-|].
  apply Forall_cons in Hf as [Ha Hf]. destruct (add_base (E:=E) base (base + a) m) as [[[]|e|] m1] eqn:Hm.
  - erewrite st_bind_ok in Hr by exact Hm. eapply IH; [exact Hf|done|exact Hr|]. by eapply add_base_table.
  - by erewrite st_bind_err in Hr by exact Hm.
  - by erewrite st_bind_panic in Hr by exact Hm.
Qed.

(** Reading on behind an entry that covers the words up to [a]. *)
Lemma relr_moved es : ∀ f1 f2 i len a m, Z.of_nat (length es) = len - i → 0 ≤ i → (length es < f1)%nat → (length es < f2)%nat →
  Forall (λ e, 0 ≤ e < 2 ^ 64) es → table m i es → Forall (off_table 0 len) (relr_targets (Some a) es) →
  (j ← relr_bitmaps f1 base relr len i (base + a); relr_loop f2 base relr len j) m = move_all (relr_targets (Some a) es) m.
Proof.
  induction es as [|e es IH]; intros f1 f2 i len a m Hl Hi Hf1 Hf2 He Ht Ho; (destruct f1 as [|f1]; [lia|]); (destruct f2 as [|f2]; [lia|]).
  { cbn [length] in Hl. cbn [relr_bitmaps]. rewrite bind_assoc, st_get_bind. rewrite (proj2 (Z.ltb_ge _ _)) by lia. cbn [andb].
    rewrite st_ret_bind. cbn [relr_loop]. by rewrite (proj2 (Z.ltb_ge _ _)) by lia. }
  cbn [length] in *. apply Forall_cons in He as [He Hes]. assert (Hread : read_u64 m (relr + i * 8) = e).
  { rewrite <- (Ht 0%nat e eq_refl). do 2 f_equal. lia. }
  assert (Ht' : ∀ m', table m' i (e :: es) → table m' (i + 1) es).
  { intros m' H k x Hk. rewrite <- (H (S k) x Hk). do 2 f_equal. lia. }
  assert (Hmono : ∀ x, off_table 0 len x → off_table i len x) by (unfold off_table; lia).
  cbn [relr_bitmaps]. rewrite bind_assoc, st_get_bind, Hread. rewrite (proj2 (Z.ltb_lt _ _)) by lia. cbn [andb relr_targets] in *.
  rewrite odd_land. destruct (Z.odd e).
  - rewrite bind_assoc, move_all_app. apply Forall_app in Ho as [Ho1 Ho2]. apply bind_cong; [by apply bitmap_moved|]. intros [] m' Hm.
    replace (base + a + 63 * 8) with (base + (a + 63 * 8)) by lia. apply IH; try lia; [done| |done]. apply Ht'.
    eapply (move_all_table _ m m' i len); [|cbn; lia|exact Hm|exact Ht]. eapply Forall_impl; [exact Ho1|done].
  - rewrite st_ret_bind. cbn [relr_loop move_all]. rewrite (proj2 (Z.ltb_lt _ _)) by lia. rewrite st_get_bind, Hread.
    apply Forall_cons in Ho as [Ho1 Ho2]. apply bind_cong; [done|]. intros [] m' Hm.
    replace (base + e + 8) with (base + (e + 8)) by lia. apply IH; try lia; [done| |done]. apply Ht'.
    eapply (add_base_table m m' e i len); [by apply Hmono|cbn; lia|exact Hm|exact Ht].
Qed.

(** Words that do not share bytes. *)
Fixpoint apart (l : list Z) : Prop :=
  match l with [] => True | a :: l => Forall (λ b, a + 8 ≤ b ∨ b + 8 ≤ a) l ∧ apart l end.

Lemma move_all_words l : ∀ m, apart l → Forall (λ a, 0 ≤ read_u64 m (base + a) + base < 2 ^ 64) l →
  ∃ m', move_all l m = (Ok (), m') ∧ Forall (λ a, read_u64 m' (base + a) = read_u64 m (base + a) + base) l ∧
    ∀ x, Forall (λ a, x < base + a ∨ base + a + 8 ≤ x) l → byte m' x = byte m x.
Proof.
  induction l as [|a l IH]; intros m Hap Hov; cbn [move_all].
  { exists m. split; [done|]. split; [constructor|done]. }
  destruct Hap as [Ha Hap]. apply Forall_cons in Hov as [Hov Hovs]. set (v := read_u64 m (base + a) + base) in *.
  assert (Hstep : add_base (E:=E) base (base + a) m = (Ok (), write_u64 (base + a) v m)).
  { unfold add_base. rewrite st_get_bind. rewrite uadd_ok by exact Hov. done. }
  destruct (IH (write_u64 (base + a) v m) Hap) as (m' & Hr & Hw & Hb).
  { apply Forall_forall. intros b Hin. rewrite Forall_forall in Ha, Hovs. specialize (Ha b Hin). rewrite read_write_other by lia. by apply Hovs. }
  exists m'. erewrite st_bind_ok by exact Hstep. split; [done|]. split.
  - constructor.
    + transitivity (read_u64 (write_u64 (base + a) v m) (base + a)); [|by apply read_write_same]. unfold read_u64. f_equal. apply bytes_ext. intros i Hi. apply Hb.
      eapply Forall_impl; [exact Ha|]. cbn. lia.
    + apply Forall_forall. intros b Hin. rewrite Forall_forall in Hw, Ha. rewrite (Hw b Hin), read_write_other; [done|]. specialize (Ha b Hin). lia.
  - intros x Hx. apply Forall_cons in Hx as [Hx Hxs]. rewrite Hb by done. unfold write_u64. apply store_out. rewrite to_le_length. lia.
Qed.
End relr.

(** C31: the loops over the bitmaps of relative relocations do what the format says: the words
    at exactly the addresses the entries stand for are moved by the base, in their order. When
    these words do not overlap and their values do not overflow, each is the old one and the
    base, and no other byte of memory changes. *)
Theorem relr_spec `{P : Profile} {E} base relr size m :
  let es := u64s_at m relr (size / 8) in let targets := relr_targets None es in
  0 ≤ size → (∀ x, 0 ≤ byte m x < 256) → Forall (off_table base relr 0 (size / 8)) targets →
  apply_relr (E:=E) base relr size m = move_all base targets m ∧
  (apart targets → Forall (λ a, 0 ≤ read_u64 m (base + a) + base < 2 ^ 64) targets →
   ∃ m', apply_relr (E:=E) base relr size m = (Ok (), m') ∧
     Forall (λ a, read_u64 m' (base + a) = read_u64 m (base + a) + base) targets ∧
     ∀ x, Forall (λ a, x < base + a ∨ base + a + 8 ≤ x) targets → byte m' x = byte m x).
Proof.
  intros es targets Hs Hb Ho. assert (Heq : apply_relr (E:=E) base relr size m = move_all base targets m).
  { assert (Hlen : Z.of_nat (length es) = size / 8) by (unfold es, u64s_at; rewrite length_fmap, length_seqZ; pose proof (Z.div_pos size 8); lia).
    assert (Ht : table relr m 0 es).
    { intros k e Hk. unfold es, u64s_at in Hk. apply list_lookup_fmap_Some in Hk as (i & -> & Hi). apply lookup_seqZ in Hi as [-> _]. done. }
    assert (He : Forall (λ e, 0 ≤ e < 2 ^ 64) es).
    { apply Forall_forall. intros e Hin. apply list_elem_of_fmap in Hin as (i & -> & _). by apply u64_bound. }
    unfold apply_relr, targets in *. rewrite <- Hlen in *. rewrite Nat2Z.id. clearbody es. destruct es as [|e es]; [done|].
    cbn [length relr_loop relr_targets move_all] in *. rewrite (proj2 (Z.ltb_lt _ _)) by lia. rewrite st_get_bind.
    change (relr + 0 * 8) with (relr + (0 + Z.of_nat 0) * 8). rewrite (Ht 0%nat e eq_refl).
    apply Forall_cons in Ho as [Ho1 Ho2]. apply Forall_cons in He as [He Hes]. apply bind_cong; [done|]. intros [] m' Hm.
    replace (base + e + 8) with (base + (e + 8)) by lia.
    apply (relr_moved base relr es (S (S (length es))) (S (length es)) (0 + 1) (Z.of_nat (S (length es))) (e + 8) m'); [lia|lia|lia|lia|done| |done].
    pose proof (add_base_table base relr m m' e 0 (Z.of_nat (S (length es))) (e :: es) Ho1 ltac:(cbn; lia) Hm Ht) as H. intros k x Hk. rewrite <- (H (S k) x Hk). do 2 f_equal. lia. }
  split; [done|]. intros Hap Hov. rewrite Heq. by apply move_all_words.
Qed.

(** ** Hash tables of symbols *)

Section gnu.
Context `{P : Profile} {E : Type}.
Implicit Types (m : memory) (g : GnuHash) (name : list Z).

Definition sym_name m g (s : Sym) : list Z := c_str m (strs g + st_name s).

(** What the format asks of a table: the filter is a power of two of words that have two bits
    for every hash; a symbol is in the part of its bucket's chain that is not ended before it,
    beside its hash. *)
Definition in_bloom g (h : Z) : Prop := ∃ w,
  bloom_filters g !! Z.to_nat ((h / 64) mod Z.of_nat (length (bloom_filters g))) = Some w ∧
  Z.testbit w (h mod 64) = true ∧ Z.testbit w (Z.shiftr h (bloom_shift g) mod 64) = true.

Definition in_chain g (i : nat) (h : Z) : Prop := ∃ b c,
  buckets g !! Z.to_nat (h mod Z.of_nat (length (buckets g))) = Some b ∧ sym_base g ≤ b ≤ Z.of_nat i ∧
  chains g !! (i - Z.to_nat (sym_base g))%nat = Some c ∧ Z.land c MASK_LB = Z.land h MASK_LB ∧
  ∀ j, (Z.to_nat b ≤ j < i)%nat → ∃ c', chains g !! (j - Z.to_nat (sym_base g))%nat = Some c' ∧ Z.land c' 1 = 0.

Record gnu_ok m g : Prop := {
  go_buckets : buckets g ≠ [];
  go_bloom : ∃ k, 0 ≤ k < 32 ∧ Z.of_nat (length (bloom_filters g)) = 2 ^ k;
  go_shift : 0 ≤ bloom_shift g < 32;
  go_base : 0 ≤ sym_base g;
  go_syms (i : nat) s : sym_base g ≤ Z.of_nat i → gsyms g !! i = Some s →
    in_bloom g (gnu_hash (sym_name m g s)) ∧ in_chain g i (gnu_hash (sym_name m g s));
}.

Lemma gnu_hash_bound name : 0 ≤ gnu_hash name < 2 ^ 32.
Proof.
  unfold gnu_hash. assert (H : ∀ h, 0 ≤ h < 2 ^ 32 → 0 ≤ fold_left (λ h b, wrap 32 (wrap 32 (h * 33) + b)) name h < 2 ^ 32).
  { induction name as [|b name IH]; intros h Hh; [done|]. cbn [fold_left]. apply IH. apply Z.mod_pos_bound. lia. }
  apply H. lia.
Qed.

Lemma land_pow2_minus_1 x k : 0 ≤ k → Z.land x (2 ^ k - 1) = x mod 2 ^ k.
Proof. intros Hk. replace (2 ^ k - 1) with (Z.ones k) by (rewrite Z.ones_equiv; lia). by apply Z.land_ones. Qed.

Lemma two_bits w a b : 0 ≤ a → 0 ≤ b →
  (Z.land w (Z.lor (Z.shiftl 1 a) (Z.shiftl 1 b)) =? Z.lor (Z.shiftl 1 a) (Z.shiftl 1 b)) = Z.testbit w a && Z.testbit w b.
Proof.
  intros Ha Hb. set (mask := Z.lor (Z.shiftl 1 a) (Z.shiftl 1 b)).
  assert (Hm : ∀ i, Z.testbit mask i = (i =? a) || (i =? b)).
  { intros i. unfold mask. rewrite Z.lor_spec, !Z.shiftl_1_l, !Z.pow2_bits_eqb by done. by rewrite !(Z.eqb_sym _ i). }
  apply eq_true_iff_eq. rewrite Z.eqb_eq, andb_true_iff. split.
  - intros H. assert (Hi : ∀ i, Z.testbit mask i = true → Z.testbit w i = true).
    { intros i Hi. rewrite <- H, Z.land_spec in Hi. by apply andb_true_iff in Hi as [? _]. }
    split; apply Hi; rewrite Hm, Z.eqb_refl, ?orb_true_r; done.
  - intros [H1 H2]. apply Z.bits_inj'. intros i _. rewrite Z.land_spec, Hm.
    destruct (Z.eqb_spec i a) as [->|]; [by rewrite H1|]. destruct (Z.eqb_spec i b) as [->|]; [by rewrite H2|]. by rewrite andb_false_r.
Qed.

Lemma may_contain_run m g h : gnu_ok m g → 0 ≤ h < 2 ^ 32 →
  ∃ b, may_contain (E:=E) g h = Ok b ∧ (in_bloom g h → b = true).
Proof.
  intros Hok Hh. destruct (go_bloom m g Hok) as (k & Hk & Hlen). pose proof (go_shift m g Hok) as Hsh. unfold may_contain.
  unfold ushr. rewrite (proj2 (andb_true_iff _ _)) by (rewrite Z.leb_le, Z.ltb_lt; lia). cbn [mbind res_bind].
  assert (2 ^ k < 2 ^ 32) by (apply Z.pow_lt_mono_r; lia). assert (0 < 2 ^ k) by (apply pow2_pos; lia).
  rewrite Hlen. rewrite (wrap_small 32) by lia. rewrite usub_ok by lia. cbn [mbind res_bind].
  change 63 with (2 ^ 6 - 1). rewrite !land_pow2_minus_1 by lia. change (2 ^ 6) with 64.
  assert (Hi : 0 ≤ (h / 64) mod 2 ^ k < 2 ^ k) by (apply Z.mod_pos_bound; lia).
  destruct (lookup_lt_is_Some_2 (bloom_filters g) (Z.to_nat ((h / 64) mod 2 ^ k))) as [w Hw]; [lia|]. rewrite Hw. cbn [unwrap mbind res_bind].
  eexists. split; [done|]. intros (w' & Hw' & H1 & H2). rewrite Hlen in Hw'. rewrite Hw in Hw'. injection Hw' as <-.
  rewrite two_bits by (apply Z.mod_pos_bound; lia). by rewrite H1, H2.
Qed.

Lemma chain_sound m p name hash hs : ∀ ss s, chain_loop m p name hash hs ss = Some s → s ∈ ss ∧ name = c_str m (p + st_name s).
Proof.
  induction hs as [|h hs IH]; intros [|s0 ss] s H; try done. cbn [chain_loop] in H. case_match eqn:Hc.
  - injection H as <-. apply andb_true_iff in Hc as [_ Hn]. apply bool_decide_eq_true in Hn. split; [set_solver|done].
  - case_match; [done|]. apply IH in H as [? ?]. split; [set_solver|done].
Qed.

Lemma chain_finds m p name hash k : ∀ hs ss s c, ss !! k = Some s → hs !! k = Some c → hash = Z.land c MASK_LB → name = c_str m (p + st_name s) →
  (∀ j s', (j < k)%nat → ss !! j = Some s' → name ≠ c_str m (p + st_name s')) →
  (∀ j, (j < k)%nat → ∃ c', hs !! j = Some c' ∧ Z.land c' 1 = 0) → chain_loop m p name hash hs ss = Some s.
Proof.
  induction k as [|k IH]; intros [|h hs] [|s0 ss] s c Hs Hc Hh Hn Hbef Hlow; try done; cbn [chain_loop].
  - injection Hs as ->. injection Hc as ->. rewrite <- Hh, Z.eqb_refl, bool_decide_true by done. done.
  - rewrite (bool_decide_false (name = _)) by (apply (Hbef 0%nat); [lia|done]). rewrite andb_false_r.
    destruct (Hlow 0%nat) as (c' & [= <-] & H0); [lia|]. rewrite H0. cbn [Z.eqb negb].
    apply (IH hs ss s c); [done|done|done|done| |].
    + intros j s' Hj Hs'. apply (Hbef (S j)); [lia|done].
    + intros j Hj. apply (Hlow (S j)). lia.
Qed.

Lemma lookup_found m g name (i : nat) s : gnu_ok m g → sym_base g ≤ Z.of_nat i → gsyms g !! i = Some s → sym_name m g s = name →
  (∀ j s', (Z.to_nat (sym_base g) ≤ j < i)%nat → gsyms g !! j = Some s' → sym_name m g s' ≠ name) →
  gnu_lookup (E:=E) m g name (gnu_hash name) = Ok (Some s).
Proof.
  intros Hok Hi Hs <- Hbef. pose proof (go_base m g Hok). destruct (go_syms m g Hok i s Hi Hs) as [_ (b & c & Hb & Hle & Hc & Hm & Hch)].
  unfold gnu_lookup. pose proof (go_buckets m g Hok) as Hne.
  rewrite (proj2 (Z.eqb_neq _ _)) by (destruct (buckets g); [done|cbn; lia]). rewrite Hb. cbn [unwrap mbind res_bind].
  apply lookup_lt_Some in Hs as Hlt. apply lookup_lt_Some in Hc as Hlc.
  rewrite !(proj2 (Z.ltb_ge _ _)) by lia. f_equal. apply (chain_finds _ _ _ _ (i - Z.to_nat b) _ _ _ c).
  - rewrite lookup_drop. rewrite <- Hs. f_equal. lia.
  - rewrite lookup_drop. rewrite <- Hc. f_equal. lia.
  - done.
  - done.
  - intros j s' Hj Hs'. rewrite lookup_drop in Hs'. apply not_eq_sym. eapply Hbef; [|exact Hs']. lia.
  - intros j Hj. destruct (Hch (Z.to_nat b + j)%nat) as (c' & Hc' & H0); [lia|]. exists c'. split; [|done]. rewrite lookup_drop, <- Hc'. f_equal. lia.
Qed.

Lemma lookup_absent m g name : gnu_ok m g → (∀ s, s ∈ drop (Z.to_nat (sym_base g)) (gsyms g) → sym_name m g s ≠ name) →
  gnu_lookup (E:=E) m g name (gnu_hash name) = Ok None.
Proof.
  intros Hok Hno. pose proof (go_base m g Hok). unfold gnu_lookup. pose proof (go_buckets m g Hok) as Hne.
  assert (Hn : 0 < Z.of_nat (length (buckets g))) by (destruct (buckets g); [done|cbn; lia]). rewrite (proj2 (Z.eqb_neq _ _)) by lia.
  pose proof (Z.mod_pos_bound (gnu_hash name) _ Hn).
  destruct (lookup_lt_is_Some_2 (buckets g) (Z.to_nat (gnu_hash name mod Z.of_nat (length (buckets g))))) as [b Hb]; [lia|].
  rewrite Hb. cbn [unwrap mbind res_bind]. destruct (Z.ltb_spec b (sym_base g)); [done|]. do 2 (case_match; [done|]). f_equal.
  destruct (chain_loop _ _ _ _ _ _) as [s|] eqn:Hc; [|done]. apply chain_sound in Hc as [Hin Hname]. destruct (Hno s); [|done].
  apply list_elem_of_lookup in Hin as [j Hj]. rewrite lookup_drop in Hj. apply list_elem_of_lookup.
  exists (Z.to_nat b + j - Z.to_nat (sym_base g))%nat. rewrite lookup_drop, <- Hj. f_equal. lia.
Qed.

(** C22: in a table that is made as the format says, the search by the filter, the bucket and
    the chain of a hash finds what a search through all hashed symbols finds: the first one of
    the name, or none when there is none; it never panics. *)
Theorem gnu_lookup_spec m g name : gnu_ok m g →
  get_hashed (E:=E) m g name (gnu_hash name) =
  Ok (snd <$> list_find (λ s, sym_name m g s = name) (drop (Z.to_nat (sym_base g)) (gsyms g))).
Proof.
  intros Hok. pose proof (gnu_hash_bound name) as Hh. destruct (may_contain_run m g _ Hok Hh) as (b & Hb & Hbloom).
  unfold get_hashed. rewrite Hb. cbn [mbind res_bind].
  destruct (list_find _ _) as [[i s]|] eqn:Hf.
  - apply list_find_Some in Hf as (Hi & Hn & Hbef). rewrite lookup_drop in Hi. cbn [fmap option_fmap option_map snd].
    assert (Hle : sym_base g ≤ Z.of_nat (Z.to_nat (sym_base g) + i)) by lia.
    rewrite (Hbloom (eq_ind _ (λ n, in_bloom g (gnu_hash n)) (proj1 (go_syms m g Hok _ s Hle Hi)) _ Hn)).
    apply (lookup_found m g name (Z.to_nat (sym_base g) + i) s); [done|done|done|done|]. intros j s' Hj Hs'.
    apply (Hbef (j - Z.to_nat (sym_base g))%nat); [|lia]. rewrite lookup_drop, <- Hs'. f_equal. lia.
  - apply list_find_None in Hf. rewrite Forall_forall in Hf. destruct b; [|done]. by apply lookup_absent.
Qed.
End gnu.

(** ** Reading a table back *)

Definition holds (m : memory) (a : Z) (l : list Z) : Prop := ∀ i b, l !! i = Some b → byte m (a + Z.of_nat i) = b.

Lemma holds_app m a l1 l2 : holds m a (l1 ++ l2) → holds m a l1 ∧ holds m (a + Z.of_nat (length l1)) l2.
Proof.
  intros H. split.
  - intros i b Hi. apply H. by apply lookup_app_l_Some.
  - intros i b Hi. rewrite <- (H (length l1 + i)%nat b); [f_equal; lia|]. by rewrite lookup_app_r, Nat.add_sub' by lia.
Qed.
Lemma holds_bytes m a l : holds m a l → bytes m a (Z.of_nat (length l)) = l.
Proof.
  intros H. apply list_eq_same_length with (length l); [done|by rewrite bytes_length; lia|].
  intros i x y Hi Hx Hy. rewrite bytes_lookup in Hx by lia. injection Hx as <-. by apply H.
Qed.
Lemma holds_u32 m a v : 0 ≤ v < 2 ^ 32 → holds m a (to_le 4 v) → read_u32 m a = v.
Proof. intros Hv H. apply holds_bytes in H. rewrite to_le_length in H. unfold read_u32. change (Z.of_nat 4) with 4 in H. rewrite H. by apply from_to_le. Qed.
Lemma holds_u64 m a v : 0 ≤ v < 2 ^ 64 → holds m a (to_le 8 v) → read_u64 m a = v.
Proof. intros Hv H. apply holds_bytes in H. rewrite to_le_length in H. unfold read_u64. change (Z.of_nat 8) with 8 in H. rewrite H. by apply from_to_le. Qed.

(** The bytes of words of [n] bytes. *)
Definition words_le (n : nat) (ws : list Z) : list Z := concat (map (to_le n) ws).
Lemma words_le_length n ws : length (words_le n ws) = (n * length ws)%nat.
Proof. unfold words_le. induction ws as [|w ws IH]; [cbn; lia|]. cbn [map concat]. rewrite length_app, IH, to_le_length. cbn. lia. Qed.

Lemma seqZ_shift {A} (f : Z → A) n : 0 < n → f <$> seqZ 0 n = f 0 :: ((λ i, f (i + 1)) <$> seqZ 0 (n - 1)).
Proof.
  intros Hn. rewrite seqZ_cons by done. rewrite fmap_cons. f_equal. change (Z.succ 0) with (1 + 0). rewrite <- fmap_add_seqZ, <- list_fmap_compose.
  replace (Z.pred n) with (n - 1) by lia. apply list_fmap_ext. intros i x _. cbn. f_equal. lia.
Qed.

Lemma holds_u32s m ws : ∀ a, Forall (λ w, 0 ≤ w < 2 ^ 32) ws → holds m a (words_le 4 ws) → u32s_at m a (Z.of_nat (length ws)) = ws.
Proof.
  induction ws as [|w ws IH]; intros a Hw H; [done|]. apply Forall_cons in Hw as [Hw Hws]. unfold words_le in H. cbn [map concat] in H.
  apply holds_app in H as [H1 H2]. rewrite to_le_length in H2. unfold u32s_at. rewrite seqZ_shift by (cbn; lia). f_equal.
  - rewrite Z.add_0_r. by apply holds_u32.
  - rewrite <- (IH (a + Z.of_nat 4) Hws H2) at 2. unfold u32s_at. replace (Z.of_nat (length (w :: ws)) - 1) with (Z.of_nat (length ws)) by (cbn; lia).
    apply list_fmap_ext. intros i x _. f_equal. lia.
Qed.
Lemma holds_u64s m ws : ∀ a, Forall (λ w, 0 ≤ w < 2 ^ 64) ws → holds m a (words_le 8 ws) → u64s_at m a (Z.of_nat (length ws)) = ws.
Proof.
  induction ws as [|w ws IH]; intros a Hw H; [done|]. apply Forall_cons in Hw as [Hw Hws]. unfold words_le in H. cbn [map concat] in H.
  apply holds_app in H as [H1 H2]. rewrite to_le_length in H2. unfold u64s_at. rewrite seqZ_shift by (cbn; lia). f_equal.
  - rewrite Z.add_0_r. by apply holds_u64.
  - rewrite <- (IH (a + Z.of_nat 8) Hws H2) at 2. unfold u64s_at. replace (Z.of_nat (length (w :: ws)) - 1) with (Z.of_nat (length ws)) by (cbn; lia).
    apply list_fmap_ext. intros i x _. f_equal. lia.
Qed.

Lemma u32_read m a ws i w : Forall (λ w, 0 ≤ w < 2 ^ 32) ws → holds m a (words_le 4 ws) → ws !! i = Some w → read_u32 m (a + Z.of_nat i * 4) = w.
Proof.
  intros Hw H Hi. rewrite <- (holds_u32s m ws a Hw H) in Hi. unfold u32s_at in Hi. apply list_lookup_fmap_Some in Hi as (x & -> & Hx).
  by apply lookup_seqZ in Hx as [-> _].
Qed.

Section parse.
Context `{P : Profile} {E : Type}.
Implicit Type m : memory.

(** The bytes of a table; the number of symbols is not among them. *)
Definition gnu_bytes (base shift : Z) (bloom bs cs : list Z) : list Z :=
  words_le 4 [Z.of_nat (length bs); base; Z.of_nat (length bloom); shift] ++ words_le 8 bloom ++ words_le 4 bs ++ words_le 4 cs.

Definition bucket_max (bs : list Z) : Z := match bs with [] => 0 | b :: bs => fold_left Z.max bs b end.

Lemma chain_end_run m (k : nat) : ∀ fuel ptr mx, (k < fuel)%nat → (∀ j, (j < k)%nat → Z.land (read_u32 m (ptr + Z.of_nat j * 4)) 1 = 0) →
  Z.land (read_u32 m (ptr + Z.of_nat k * 4)) 1 ≠ 0 → 0 ≤ mx → mx + Z.of_nat k + 1 < 2 ^ 32 →
  chain_end (E:=E) fuel m ptr mx = Ok (ptr + (Z.of_nat k + 1) * 4, mx + Z.of_nat k + 1).
Proof.
  induction k as [|k IH]; intros fuel ptr mx Hf Hlow Hend Hmx Hb; (destruct fuel as [|fuel]; [lia|]); cbn [chain_end]; rewrite uadd_ok by lia; cbn [mbind res_bind].
  - rewrite Z.add_0_r in Hend. rewrite (proj2 (Z.eqb_neq _ _)) by done. cbn [negb]. do 2 f_equal; lia.
  - specialize (Hlow 0%nat) as H0. rewrite Z.add_0_r in H0. rewrite H0 by lia. cbn [Z.eqb negb]. rewrite (IH fuel (ptr + 4) (mx + 1)); [do 2 f_equal; lia|lia| | |lia|lia].
    + intros j Hj. rewrite <- (Hlow (S j)) by lia. do 2 f_equal. lia.
    + intros He. apply Hend. rewrite <- He. do 2 f_equal. lia.
Qed.

(** What is needed of the contents for the table to be read: its words fit, the largest bucket
    starts the last chain, and only the last word of this chain ends one. *)
Record gnu_fits (base shift : Z) (bloom bs cs : list Z) (k : nat) : Prop := {
  gf_base : 0 ≤ base ≤ bucket_max bs;
  gf_shift : 0 ≤ shift < 2 ^ 32;
  gf_bloom : Forall (λ w, 0 ≤ w < 2 ^ 64) bloom ∧ Z.of_nat (length bloom) < 2 ^ 32;
  gf_buckets : Forall (λ w, 0 ≤ w < 2 ^ 32) bs ∧ Z.of_nat (length bs) < 2 ^ 32;
  gf_chains : Forall (λ w, 0 ≤ w < 2 ^ 32) cs ∧ base + Z.of_nat (length cs) < 2 ^ 32;
  gf_max : 0 < bucket_max bs;
  gf_last : bucket_max bs - base + Z.of_nat k + 1 = Z.of_nat (length cs);
  gf_low j c : bucket_max bs - base ≤ Z.of_nat j < bucket_max bs - base + Z.of_nat k → cs !! j = Some c → Z.land c 1 = 0;
  gf_end c : last cs = Some c → Z.land c 1 ≠ 0;
}.

(** A hash table of symbols is read back from its bytes: the words of the filter, the
    buckets and the chains as they were written, and as many symbols as the chains reach, a
    number the bytes do not have. *)
Theorem gnu_parse_roundtrip fuel m ghash sym_ptr str_ptr base shift bloom bs cs k :
  holds m ghash (gnu_bytes base shift bloom bs cs) → gnu_fits base shift bloom bs cs k → (k < fuel)%nat →
  gnu_parse (E:=E) fuel m ghash sym_ptr str_ptr =
  Ok (Some (MkGnu base shift bloom bs cs (syms_at m sym_ptr (base + Z.of_nat (length cs))) str_ptr)).
Proof.
  intros H [Hbase Hsh [Hbl Hbl'] [Hbs Hbs'] [Hcs Hcs'] Hmax Hlast Hlow Hend] Hf. unfold gnu_bytes in H.
  apply holds_app in H as [Hh H]. rewrite words_le_length in H. apply holds_app in H as [H1 H]. rewrite words_le_length in H.
  apply holds_app in H as [H2 H3]. rewrite words_le_length in H3. cbn [length] in *.
  assert (Hbmax : 0 < Z.of_nat (length bs)) by (destruct bs; [cbn in Hmax; lia|cbn; lia]).
  assert (Hhd : Forall (λ w, 0 ≤ w < 2 ^ 32) [Z.of_nat (length bs); base; Z.of_nat (length bloom); shift]) by (repeat constructor; lia).
  pose proof (u32_read m ghash _ 0 _ Hhd Hh eq_refl) as Hw0. rewrite Z.add_0_r in Hw0.
  pose proof (u32_read m ghash _ 1 _ Hhd Hh eq_refl : read_u32 m (ghash + 4) = _) as Hw1.
  pose proof (u32_read m ghash _ 2 _ Hhd Hh eq_refl : read_u32 m (ghash + 8) = _) as Hw2.
  pose proof (u32_read m ghash _ 3 _ Hhd Hh eq_refl : read_u32 m (ghash + 12) = _) as Hw3.
  unfold gnu_parse. rewrite Hw0, Hw1, Hw2, Hw3.
  assert (Ebs : u32s_at m (ghash + 16 + Z.of_nat (length bloom) * 8) (Z.of_nat (length bs)) = bs).
  { etransitivity; [|exact (holds_u32s m bs _ Hbs H2)]. f_equal. lia. }
  assert (Ecs : u32s_at m (ghash + 16 + Z.of_nat (length bloom) * 8 + Z.of_nat (length bs) * 4) (Z.of_nat (length cs)) = cs).
  { etransitivity; [|exact (holds_u32s m cs _ Hcs H3)]. f_equal. lia. }
  set (cb := ghash + 16 + Z.of_nat (length bloom) * 8 + Z.of_nat (length bs) * 4) in *. rewrite Ebs.
  destruct bs as [|b bs]; [done|]. change (fold_left Z.max bs b) with (bucket_max (b :: bs)). set (mx := bucket_max (b :: bs)) in *.
  rewrite (proj2 (Z.eqb_neq _ _)) by lia. rewrite usub_ok by lia. cbn [mbind res_bind].
  assert (Hrd : ∀ j c, cs !! j = Some c → read_u32 m (cb + Z.of_nat j * 4) = c).
  { intros j c Hj. rewrite <- (u32_read m _ cs j c Hcs H3 Hj). f_equal. lia. }
  assert (Hat : ∀ j : nat, cb + (mx - base) * 4 + Z.of_nat j * 4 = cb + Z.of_nat (Z.to_nat (mx - base) + j) * 4) by lia.
  rewrite (chain_end_run m k); [|done| | |lia|lia].
  - cbn [mbind res_bind]. replace (cb + (mx - base) * 4 + (Z.of_nat k + 1) * 4 - cb) with (Z.of_nat (length cs) * 4) by lia.
    rewrite Z.div_mul by lia. rewrite Ecs. replace (mx + Z.of_nat k + 1) with (base + Z.of_nat (length cs)) by lia.
    by rewrite (holds_u64s m bloom _ Hbl H1 : u64s_at m (ghash + 16) _ = _).
  - intros j Hj. destruct (lookup_lt_is_Some_2 cs (Z.to_nat (mx - base) + j)) as [c Hc]; [lia|]. rewrite Hat, (Hrd _ _ Hc). eapply Hlow; [|exact Hc]. lia.
  - destruct (lookup_lt_is_Some_2 cs (Z.to_nat (mx - base) + k)) as [c Hc]; [lia|]. rewrite Hat, (Hrd _ _ Hc). apply Hend.
    rewrite last_lookup, <- Hc. f_equal. lia.
Qed.
End parse.

(** ** Small tables *)

Module ElfWitness.

#[export] Instance checks : Profile := true.

(** Two words of a file that is mapped at 4096, and a table of an address and a bitmap. *)
Definition relr_mem : memory := store 8192 (words_le 8 [256; 5]) (store 4352 (words_le 8 [16; 7; 32]) ∅).

Lemma small_bytes (m : memory) : map_Forall (λ _ b, 0 ≤ b < 256) m → ∀ x, 0 ≤ byte m x < 256.
Proof. intros H x. unfold byte. destruct (m !! x) as [b|] eqn:Hb; cbn; [by apply (H x)|lia]. Qed.

Lemma relr_spec_witness : ∃ m, apply_relr (E:=()) 4096 8192 16 relr_mem = (Ok (), m) ∧
  read_u64 m 4352 = 4112 ∧ read_u64 m 4360 = 7 ∧ read_u64 m 4368 = 4128.
Proof.
  assert (Ht : relr_targets None (u64s_at relr_mem 8192 (16 / 8)) = [256; 272]) by (vm_compute; reflexivity).
  pose proof (relr_spec (E:=()) 4096 8192 16 relr_mem) as H. cbv zeta in H. rewrite Ht in H. destruct H as [_ H].
  - discriminate.
  - apply small_bytes. refine (bool_decide_unpack _ _). vm_compute. exact I.
  - apply Forall_cons. split; [left; discriminate|]. apply Forall_cons. split; [left; discriminate|constructor].
  - destruct H as (m & Hr & Hw & Hb).
    + split; [|by split; [constructor|]]. apply Forall_cons. split; [left; discriminate|constructor].
    + refine (bool_decide_unpack _ _). vm_compute. exact I.
    + exists m. split; [exact Hr|].
      apply Forall_cons in Hw as [H1 Hw]. apply Forall_cons in Hw as [H2 _]. split; [exact H1|]. split; [|exact H2].
      unfold read_u64. rewrite (bytes_ext m relr_mem 4360 4360 8); [reflexivity|]. intros i Hi. apply Hb.
      apply Forall_cons. split; [lia|]. apply Forall_cons. split; [lia|constructor].
Defined.

(** A table of one name. *)
Definition name_a : list Z := [97].
Definition names_mem : memory := store 100 [0; 97; 0] ∅.
Definition table_a : GnuHash :=
  MkGnu 1 6 [2 ^ 64 - 1] [1] [177671] [MkSym 0 0 0 0 0 0; MkSym 1 16 0 1 64 8] 100.

Lemma table_a_ok : gnu_ok names_mem table_a.
Proof.
  split; [done|exists 0; split; [lia|done]|cbn; lia|cbn; lia|]. intros i s Hi Hs. destruct i as [|[|i]]; [cbn in Hi; lia| |done].
  injection Hs as <-. split.
  - exists (2 ^ 64 - 1). by vm_compute.
  - exists 1, 177671. split; [done|]. split; [cbn; lia|]. split; [done|]. split; [by vm_compute|]. cbn. lia.
Qed.

Lemma gnu_lookup_spec_witness :
  get_hashed (E:=()) names_mem table_a name_a (gnu_hash name_a) = Ok (Some (MkSym 1 16 0 1 64 8)) ∧
  get_hashed (E:=()) names_mem table_a [98] (gnu_hash [98]) = Ok None.
Proof.
  split; (rewrite (gnu_lookup_spec names_mem table_a) by exact table_a_ok); vm_compute; reflexivity.
Defined.

Definition gnu_mem : memory := store 1000 (gnu_bytes 1 6 [5] [1; 0] [176; 178; 99]) ∅.

Lemma gnu_parse_roundtrip_witness :
  gnu_parse (E:=()) 8 gnu_mem 1000 0 0 = Ok (Some (MkGnu 1 6 [5] [1; 0] [176; 178; 99] (syms_at gnu_mem 0 4) 0)).
Proof.
  apply (gnu_parse_roundtrip 8 gnu_mem 1000 0 0 1 6 [5] [1; 0] [176; 178; 99] 2); [|split|lia].
  - intros i b Hi. by apply store_in.
  - by vm_compute.
  - lia.
  - split; [|cbn; lia]. repeat constructor; lia.
  - split; [|cbn; lia]. repeat constructor; lia.
  - split; [|cbn; lia]. repeat constructor; lia.
  - by vm_compute.
  - by vm_compute.
  - intros j c Hj Hc. change (bucket_max [1; 0]) with 1 in Hj. destruct j as [|[|j]]; [by injection Hc as <-|by injection Hc as <-|lia].
  - by intros c [= <-].
Defined.
End ElfWitness.
