(* ===== verification/ElfLoad.v ===== *)
(** * Loading of ELF files ([elfload/src/lib.rs])

    The segments of a file are mapped into a new range of the address space: the whole pages
    of the file as a copy of it, the rest as new pages with what is left of the file at their
    start. Physical objects and the address space are given by what their calls promise; the
    records of the file are parsed by a library, which is a parameter. *)

From S2P Require Import Base Bits Slices SysCall Stream StreamSpec.
Local Open Scope Z_scope.
Local Open Scope h2o_scope.

Definition PT_LOAD : Z := 1.
Definition PT_DYNAMIC : Z := 2.
Definition PT_INTERP : Z := 3.
Definition PT_TLS : Z := 7.
Definition PT_GNU_STACK : Z := 0x6474e551.
Definition PF_X : Z := 1.
Definition PF_W : Z := 2.
Definition PF_R : Z := 4.
Definition ET_EXEC : Z := 2.
Definition ET_DYN : Z := 3.
Definition ELFCLASS64 : Z := 2.
Definition ELFDATA2LSB : Z := 1.
Definition EI_CLASS : nat := 4.
Definition EI_DATA : nat := 5.
Definition SHT_DYNSYM : Z := 11.
Definition PAGE_MASK : Z := 2 ^ 12 - 1.

Inductive elf_error :=
  | ElfParse
  | NotSupported
  | PhysAlloc (e : errno)
  | PhysRead (e : errno)
  | PhysWrite (e : errno)
  | PhysSub (e : errno)
  | VirtAlloc (e : errno)
  | VirtMap (e : errno).

(** The fields of the headers that are used. *)
Record Header := MkHeader { e_ident : list Z; e_type : Z; e_entry : Z; e_phoff : Z; e_shoff : Z; e_phnum : Z; e_shnum : Z }.
Record ProgramHeader := MkPh { p_type : Z; p_flags : Z; p_offset : Z; p_vaddr : Z; p_filesz : Z; p_memsz : Z; p_align : Z }.
Record SectionHeader := MkSh { sh_type : Z; sh_size : Z; sh_entsize : Z }.

Record LoadedElf := MkElf {
  is_dyn : bool;
  evirt : nat;
  range_start : Z;
  range_end : Z;
  estack : option (Z * Z);
  eentry : Z;
  edynamic : option ProgramHeader;
  etls : option ProgramHeader;
  sym_len : Z;
}.

Definition pages (n : Z) : Prop := 0 < n ∧ n mod 2 ^ 12 = 0.

(** ** What the loader relies on *)

(** New objects: one of zeros, and a copy of a part of another. *)
Class PhysMake (F : Type) `{PhysObj F} := {
  phys_alloc : Z → res errno F;
  phys_copy : F → Z → Z → res errno F;
  phys_alloc_ok n f : pages n → phys_alloc n = Ok f → content f = replicate (Z.to_nat n) 0;
  phys_copy_ok f off n g : 0 ≤ off → 0 < n → off + n ≤ blen (content f) → phys_copy f off n = Ok g →
    content g = btake n (bdrop off (content f));
}.

(** The address space: the byte and the flags at every address that is mapped, and the start
    and the length of the ranges that are allocated. A mapping does not cover another one;
    a range at a place of the choice of the kernel is free. *)
Class AddressSpace (F S : Type) `{PhysObj F} := {
  root_base : Z;
  view : S → Z → option (Z * Z);
  range : S → nat → option (Z * Z);
  virt_alloc : option Z → Z → Z → S → res errno nat * S;
  virt_map : nat → Z → F → Z → S → res errno Z * S;
  virt_drop : nat → S → res errno () * S;
  root_base_pos : 0 ≤ root_base;
  virt_alloc_ok off n s v s' : virt_alloc off n (2 ^ 12) s = (Ok v, s') →
    (∀ x, view s' x = view s x) ∧
    ∃ b len, range s' v = Some (b, len) ∧ 0 ≤ b ∧ b + len < 2 ^ 64 ∧ b mod 2 ^ 12 = 0 ∧
      match off with Some o => o < 2 ^ 64 - 1 → b = root_base + o | None => ∀ x, b ≤ x < b + len → view s x = None end;
  virt_alloc_err off n al s r s' : virt_alloc off n al s = (r, s') → is_ok r = false → ∀ x, view s' x = view s x;
  virt_map_ok v off f flags s a s' b len : 0 ≤ off < 2 ^ 64 - 1 → pages (blen (content f)) → range s v = Some (b, len) →
    virt_map v off f flags s = (Ok a, s') →
    ∀ x, match (if b + off <=? x then content f !! Z.to_nat (x - (b + off)) else None) with
         | Some c => view s x = None ∧ view s' x = Some (c, flags)
         | None => view s' x = view s x
         end;
  virt_map_inside v off f flags s r s' b len : range s v = Some (b, len) → virt_map v off f flags s = (r, s') →
    range s' v = Some (b, len) ∧ ∀ x, x < b ∨ b + len ≤ x → view s' x = view s x;
  virt_drop_inside v s r s' b len : range s v = Some (b, len) → virt_drop v s = (r, s') →
    ∀ x, x < b ∨ b + len ≤ x → view s' x = view s x;
}.

(** ** The loader *)

Section load.
Context `{P : Profile} {F S : Type} `{O : PhysObj F} `{M : !PhysMake F} `{A : !AddressSpace F S}.
(** [Header::parse], [ProgramHeader::from_bytes] and [SectionHeader::from_bytes] of the library. *)
Context (header_parse : bytes → res elf_error Header).
Context (segments_from : bytes → Z → res elf_error (list ProgramHeader)).
Context (sections_from : bytes → Z → res elf_error (list SectionHeader)).

Abbreviation er := (res elf_error).
Abbreviation em := (st S elf_error).

Definition parse_flags (flags : Z) : Z :=
  let ret := Flags.USER_ACCESS in
  let ret := if negb (Z.land flags PF_R =? 0) then Z.lor ret Flags.READABLE else ret in
  let ret := if negb (Z.land flags PF_W =? 0) then Z.lor ret Flags.WRITABLE else ret in
  if negb (Z.land flags PF_X =? 0) then Z.lor ret Flags.EXECUTABLE else ret.

(** [Phys::read], [Phys::write] and [Phys::create_sub]: nothing is asked for no bytes. *)
Definition phys_read (f : F) (off len : Z) : res errno bytes := if len =? 0 then Ok [] else pread f off len.
Definition phys_write (f : F) (off : Z) (l : bytes) : res errno F :=
  match l with [] => Ok f | _ => let '(r, f') := pwrite f off l in _ ← r; Ok f' end.
Definition phys_create_copy (f : F) (off len : Z) : res errno F := if len >? 0 then phys_copy f off len else Err ERANGE.

Definition parse_header (f : F) (dyn_only : bool) : er (Header * bool) :=
  data ← map_err PhysRead (phys_read f 0 64);
  h ← header_parse data;
  if negb (nth EI_CLASS (e_ident h) 0 =? ELFCLASS64) then Err NotSupported
  else if negb (nth EI_DATA (e_ident h) 0 =? ELFDATA2LSB) then Err NotSupported
  else if (dyn_only || negb (e_type h =? ET_EXEC)) && negb (e_type h =? ET_DYN) then Err NotSupported
  else Ok (h, e_type h =? ET_DYN).

Definition parse_segments (f : F) (offset count : Z) : er (list ProgramHeader) :=
  n ← count *! 56;
  data ← map_err PhysRead (phys_read f offset n);
  segments_from data count.

Definition parse_sections (f : F) (offset count : Z) : er (list SectionHeader) :=
  n ← count *! 64;
  data ← map_err PhysRead (phys_read f offset n);
  sections_from data count.

(** The fold of [get_addr_range_info]. *)
Fixpoint range_loop (hs : list ProgramHeader) (mn mx : Z) : er (Z * Z) :=
  match hs with
  | [] => Ok (mn, mx)
  | h :: hs =>
      if p_type h =? PT_LOAD then e ← p_vaddr h +! p_memsz h; range_loop hs (Z.min mn (p_vaddr h)) (Z.max mx e)
      else range_loop hs mn mx
  end.
Definition get_addr_range_info (hs : list ProgramHeader) : er (Z * Z) := range_loop hs (2 ^ 64 - 1) 0.

(** [x & !PAGE_MASK]. *)
Definition page_down (x : Z) : Z := Z.land x (2 ^ 64 - 1 - PAGE_MASK).

Definition map_phys (v : nat) (off : Z) (f : F) (flags : Z) : em () := λ s,
  let '(r, s') := virt_map v off f flags s in (_ ← map_err VirtMap r; Ok (), s').

Definition map_segment (h : ProgramHeader) (f : F) (v : nat) (base_offset : Z) : em () :=
  let msize := p_memsz h in
  let fsize := p_filesz h in
  let offset := p_offset h in
  let address := p_vaddr h in
  if negb (Z.land offset PAGE_MASK =? Z.land address PAGE_MASK) then lift (Err NotSupported)
  else
    cend ← lift (offset +! fsize);
    let fend := page_down cend in
    m ← lift (offset +! msize);
    m ← lift (m +! PAGE_MASK);
    let mend := page_down m in
    let offset := page_down offset in
    let address := page_down address in
    fsize ← lift (fend -! offset);
    csize ← lift (cend -! fend);
    let asize := saturating_sub mend fend in
    let flags := parse_flags (p_flags h) in
    _ ← (if fsize >? 0 then
           data ← lift (map_err PhysSub (phys_create_copy f offset fsize));
           o ← lift (address -! base_offset);
           map_phys v o data flags
         else mret ());
    if asize >? 0 then
      address ← lift (address +! fsize);
      mem ← lift (map_err PhysAlloc (phys_alloc asize));
      cdata ← lift (map_err PhysRead (phys_read f fend csize));
      mem ← lift (map_err PhysWrite (phys_write mem 0 cdata));
      o ← lift (address -! base_offset);
      map_phys v o mem flags
    else mret ().

(** The first segment of the interpreter, as bytes. *)
Fixpoint interp_loop (f : F) (hs : list ProgramHeader) : er (option bytes) :=
  match hs with
  | [] => Ok None
  | h :: hs =>
      if p_type h =? PT_INTERP then d ← map_err PhysRead (phys_read f (p_offset h) (p_filesz h)); Ok (Some d)
      else interp_loop f hs
  end.
Definition get_interp (f : F) : er (option bytes) :=
  '(h, _) ← parse_header f true;
  hs ← parse_segments f (e_phoff h) (e_phnum h);
  interp_loop f hs.

(** What the loop over the segments collects. *)
Record found := MkFound { fstack : option (Z * Z); fdynamic : option ProgramHeader; ftls : option ProgramHeader }.

Fixpoint load_loop (f : F) (v : nat) (base_offset : Z) (hs : list ProgramHeader) (x : found) : em found :=
  match hs with
  | [] => mret x
  | h :: hs =>
      let go := load_loop f v base_offset hs in
      if p_type h =? PT_LOAD then _ ← map_segment h f v base_offset; go x
      else if p_type h =? PT_GNU_STACK then go (MkFound (Some (p_memsz h, parse_flags (p_flags h))) (fdynamic x) (ftls x))
      else if p_type h =? PT_DYNAMIC then go (MkFound (fstack x) (Some h) (ftls x))
      else if p_type h =? PT_TLS then go (MkFound (fstack x) (fdynamic x) (Some h))
      else go x
  end.

Fixpoint find_sym_len (ss : list SectionHeader) : Z :=
  match ss with
  | [] => 0
  | s :: ss => if (sh_type s =? SHT_DYNSYM) && negb (sh_entsize s =? 0) then sh_size s / sh_entsize s else find_sym_len ss
  end.

(** The new range. *)
Definition new_virt (off : option Z) (n : Z) : em nat := λ s, let '(r, s') := virt_alloc off n (2 ^ 12) s in (map_err VirtAlloc r, s').
Definition alloc_range (dyn : bool) (mn mx : Z) : em nat :=
  n ← lift (mx -! mn);
  off ← lift (if dyn then Ok None else if mn <? root_base then Err NotSupported else Ok (Some (mn - root_base)));
  new_virt off n.

Definition base_of (v : nat) : em Z := λ s, (match range s v with Some (b, _) => Ok b | None => Panic end, s).

(** What is done under the guard, which destroys the range when an error is returned. *)
Definition guarded {B} (v : nat) (m : em B) : em B := λ s,
  match m s with
  | (Err e, s') => (Err e, (virt_drop v s').2)
  | r => r
  end.

Definition fill (f : F) (h : Header) (dyn : bool) (hs : list ProgramHeader) (ss : list SectionHeader) (mn mx : Z) (v : nat) : em LoadedElf :=
  base ← base_of v;
  let base_offset := if dyn then 0 else base in
  e ← lift (e_entry h +! base);
  entry ← lift (e -! base_offset);
  x ← load_loop f v base_offset hs (MkFound None None None);
  t ← lift (base +! mx);
  t ← lift (t -! mn);
  mret (MkElf dyn v base t (fstack x) entry (fdynamic x) (ftls x) (find_sym_len ss)).

Definition load (f : F) (dyn_only : bool) : em LoadedElf :=
  '(h, dyn) ← lift (parse_header f dyn_only);
  hs ← lift (parse_segments f (e_phoff h) (e_phnum h));
  ss ← lift (parse_sections f (e_shoff h) (e_shnum h));
  '(mn, mx) ← lift (get_addr_range_info hs);
  v ← alloc_range dyn mn mx;
  guarded v (fill f h dyn hs ss mn mx v).
End load.

(** ** What is mapped *)

(** A sum or a difference that does not overflow, in a run that succeeds. *)
Ltac lift_step H :=
  let x := fresh in let E := fresh in apply st_lift_inv in H as (x & E & H);
  first [rewrite uadd_ok in E by (unfold PAGE_MASK; lia) | rewrite usub_ok in E by lia]; injection E as <-.

Lemma page_down_ok x : 0 ≤ x < 2 ^ 64 → page_down x = align_down x 12.
Proof. intros H. unfold page_down, PAGE_MASK. by apply land_high_mask. Qed.
Lemma align_12 x : align_down x 12 ≤ x < align_down x 12 + 4096 ∧ align_down x 12 mod 4096 = 0.
Proof. split; [apply (align_down_bounds x 12); lia|apply (align_down_aligned x 12)]. Qed.

Lemma align_12_pos x : 0 ≤ x → 0 ≤ align_down x 12.
Proof. intros H. unfold align_down. apply Z.mul_nonneg_nonneg; [apply Z.div_pos; lia|lia]. Qed.

Section image.
Context `{P : Profile} {F S : Type} `{O : PhysObj F} `{I : !Immediate F} `{M : !PhysMake F} `{A : !AddressSpace F S}.
Implicit Types (f : F) (s : S) (h g : ProgramHeader).

(** A loadable segment inside the file and the address space. *)
Record seg_ok f h : Prop := {
  so_sizes : 0 ≤ p_filesz h ≤ p_memsz h;
  so_offset : 0 ≤ p_offset h ∧ p_offset h + p_memsz h + 4096 < 2 ^ 64;
  so_address : 0 ≤ p_vaddr h ∧ p_vaddr h + p_memsz h + 4096 < 2 ^ 64;
  so_file : p_offset h + p_filesz h ≤ blen (content f);
}.

Definition grows s s' : Prop := ∀ x y, view s x = Some y → view s' x = Some y.
(** The bytes [l] from the address [a] on. *)
Definition shows s (a : Z) (l : bytes) (flags : Z) : Prop := ∀ i c, l !! i = Some c → view s (a + Z.of_nat i) = Some (c, flags).

Lemma grows_shows s s' a l flags : grows s s' → shows s a l flags → shows s' a l flags.
Proof. intros Hg H i c Hi. by apply Hg, H. Qed.
Lemma view_grows_trans s1 s2 s3 : grows s1 s2 → grows s2 s3 → grows s1 s3.
Proof. intros H1 H2 x y Hx. by apply H2, H1. Qed.
Lemma shows_app s a l1 l2 flags : shows s a l1 flags → shows s (a + blen l1) l2 flags → shows s a (l1 ++ l2) flags.
Proof.
  intros H1 H2 i c Hi. apply lookup_app_Some in Hi as [Hi|[Hl Hi]]; [by apply H1|]. specialize (H2 _ _ Hi). rewrite <- H2. f_equal. unfold blen. lia.
Qed.

Lemma map_phys_ok v o (g : F) flags s u s' b len : range s v = Some (b, len) → 0 ≤ o < 2 ^ 64 - 1 → pages (blen (content g)) →
  map_phys v o g flags s = (Ok u, s') → range s' v = Some (b, len) ∧ grows s s' ∧ shows s' (b + o) (content g) flags.
Proof.
  intros Hr Ho Hp H. unfold map_phys in H. destruct (virt_map v o g flags s) as [r s1] eqn:Hm. destruct r as [a| |]; [|done|done]. injection H as <- <-.
  destruct (virt_map_inside _ _ _ _ _ _ _ _ _ Hr Hm) as [Hr' _]. pose proof (virt_map_ok _ _ _ _ _ _ _ _ _ Ho Hp Hr Hm) as Hv. split; [done|]. split.
  - intros x y Hx. specialize (Hv x). case_match; [destruct Hv; congruence|congruence].
  - intros i c Hi. specialize (Hv (b + o + Z.of_nat i)). rewrite (proj2 (Z.leb_le _ _)) in Hv by lia.
    replace (Z.to_nat (b + o + Z.of_nat i - (b + o))) with i in Hv by lia. rewrite Hi in Hv. by destruct Hv.
Qed.

Lemma copy_pages f off n (g : F) : 0 ≤ off → off + n ≤ blen (content f) → phys_create_copy f off n = Ok g → content g = btake n (bdrop off (content f)) ∧ blen (content g) = n.
Proof.
  intros Ho Hb H. unfold phys_create_copy in H. destruct (Z.gtb_spec n 0); [|done]. pose proof (phys_copy_ok f off n g Ho ltac:(lia) Hb H) as Hc.
  split; [done|]. rewrite Hc. unfold blen, btake, bdrop in *. rewrite length_take, length_drop. lia.
Qed.

(** The new pages: what is left of the file, then zeros. *)
Lemma tail_pages f fend csize asize mem cdata mem' : 0 ≤ fend → 0 ≤ csize ≤ asize → pages asize → fend + csize ≤ blen (content f) →
  phys_alloc asize = Ok mem → phys_read f fend csize = Ok cdata → phys_write mem 0 cdata = Ok mem' →
  content mem' = btake csize (bdrop fend (content f)) ++ replicate (Z.to_nat (asize - csize)) 0.
Proof.
  intros Hf Hc Hp Hb Ha Hr Hw. apply phys_alloc_ok in Ha; [|done].
  assert (Hd : cdata = btake csize (bdrop fend (content f))).
  { unfold phys_read in Hr. destruct (Z.eqb_spec csize 0) as [->|]; [by injection Hr as <-|]. by apply pread_ok in Hr; [|lia..]. }
  assert (Hl : blen cdata = csize) by (rewrite Hd; unfold blen, btake, bdrop in *; rewrite length_take, length_drop; lia).
  rewrite <- Hd. unfold phys_write in Hw. destruct cdata as [|c cs] eqn:Hcs.
  - injection Hw as <-. rewrite Ha. cbn in Hl. rewrite <- Hl, Z.sub_0_r. done.
  - rewrite <- Hcs in *. clear Hcs c cs. destruct (pwrite mem 0 cdata) as [[n| |] m'] eqn:Hpw; [|done|done]. injection Hw as <-.
    apply pwrite_ok in Hpw as [Hn Hc']; [|lia]. rewrite Hc', Ha. unfold overwrite, btake, bdrop, blen in *. rewrite Ha, length_replicate in Hn.
    rewrite (take_ge cdata) by lia. change (Z.to_nat 0) with 0%nat. rewrite take_0, app_nil_l, drop_replicate. do 2 f_equal. lia.
Qed.
Definition segment_image f h : bytes := btake (p_filesz h) (bdrop (p_offset h) (content f)) ++ replicate (Z.to_nat (p_memsz h - p_filesz h)) 0.

Lemma shows_sub s a l k n flags : shows s a l flags → shows s (a + Z.of_nat k) (take n (drop k l)) flags.
Proof. intros H i c Hi. apply lookup_take_Some in Hi as [Hi _]. rewrite lookup_drop in Hi. rewrite <- (H _ _ Hi). f_equal. lia. Qed.

(** The pages of a segment hold its image. *)
Lemma pages_image f h off0 cend mend : off0 = align_down (p_offset h) 12 → cend = p_offset h + p_filesz h → mend = align_down (p_offset h + p_memsz h + PAGE_MASK) 12 → seg_ok f h →
  segment_image f h = take (Z.to_nat (p_memsz h)) (drop (Z.to_nat (p_offset h - off0)) (btake (cend - off0) (bdrop off0 (content f)) ++ replicate (Z.to_nat (mend - cend)) 0)).
Proof.
  intros -> -> Hm [Hs Ho _ Hf]. pose proof (align_12 (p_offset h)) as [Ha _]. pose proof (align_12 (p_offset h + p_memsz h + PAGE_MASK)) as [Hb _]. rewrite <- Hm in Hb. clear Hm.
  pose proof (align_12_pos (p_offset h) ltac:(lia)).
  unfold segment_image, btake, bdrop, blen, PAGE_MASK in *. set (o := align_down _ _) in *. rewrite drop_app_le by (rewrite length_take, length_drop; lia).
  rewrite take_app, take_replicate. rewrite length_drop, length_take, length_drop. rewrite skipn_firstn_comm, drop_drop, take_take. f_equal; [f_equal; [lia|f_equal; lia]|f_equal; lia].
Qed.
Lemma aligned_sub x y : x mod 4096 = 0 → y mod 4096 = 0 → (x - y) mod 4096 = 0.
Proof. intros Hx Hy. rewrite Zminus_mod, Hx, Hy. done. Qed.

(** The first part of [map_segment]: the whole pages of the file. *)
Lemma map_file f v bo off0 fend adr flags s u s' b len : range s v = Some (b, len) → 0 ≤ off0 ≤ fend → fend ≤ blen (content f) → (fend - off0) mod 4096 = 0 →
  0 ≤ bo ≤ adr → adr < 2 ^ 64 - 1 →
  (if fend - off0 >? 0 then
     data ← lift (map_err PhysSub (phys_create_copy f off0 (fend - off0)));
     o ← lift (adr -! bo);
     map_phys v o data flags
   else mret ()) s = (Ok u, s') →
  range s' v = Some (b, len) ∧ grows s s' ∧ shows s' (b - bo + adr) (btake (fend - off0) (bdrop off0 (content f))) flags.
Proof.
  intros Hr Ho Hf Ha Hb HA H. destruct (Z.gtb_spec (fend - off0) 0).
  - apply st_lift_inv in H as (g & Hg & H). apply map_err_ok in Hg. apply copy_pages in Hg as [Hc Hl]; [|lia..].
    lift_step H.
    eapply map_phys_ok in H as (H1 & H2 & H3); [|exact Hr|lia|rewrite Hl; by split; [lia|]]. split; [done|]. split; [done|]. rewrite <- Hc. by replace (b - bo + adr) with (b + (adr - bo)) by lia.
  - injection H as _ <-. split; [done|]. split; [by intros x y|]. replace (fend - off0) with 0 by lia. intros i c Hi. destruct i; discriminate.
Qed.

(** The second part: new pages. *)
Lemma map_rest f v bo fend csize asize adr flags s u s' b len : range s v = Some (b, len) → 0 ≤ fend → 0 ≤ csize ≤ asize → asize mod 4096 = 0 → fend + csize ≤ blen (content f) →
  0 ≤ bo ≤ adr → adr < 2 ^ 64 - 1 →
  (if asize >? 0 then
     mem ← lift (map_err PhysAlloc (phys_alloc asize));
     cdata ← lift (map_err PhysRead (phys_read f fend csize));
     mem ← lift (map_err PhysWrite (phys_write mem 0 cdata));
     o ← lift (adr -! bo);
     map_phys v o mem flags
   else mret ()) s = (Ok u, s') →
  range s' v = Some (b, len) ∧ grows s s' ∧ shows s' (b - bo + adr) (btake csize (bdrop fend (content f)) ++ replicate (Z.to_nat (asize - csize)) 0) flags.
Proof.
  intros Hr Hf Hc Ha Hb Hbo HA H. destruct (Z.gtb_spec asize 0).
  - apply st_lift_inv in H as (m & Hm & H). apply st_lift_inv in H as (cd & Hcd & H). apply st_lift_inv in H as (m' & Hm' & H).
    apply map_err_ok in Hm, Hcd, Hm'. assert (Hp : pages asize) by (by split; [lia|]). pose proof (tail_pages f fend csize asize m cd m' Hf Hc Hp Hb Hm Hcd Hm') as Hct.
    lift_step H.
    assert (Hl : blen (content m') = asize).
    { rewrite Hct. unfold blen, btake, bdrop in *. rewrite length_app, length_replicate, length_take, length_drop. lia. }
    eapply map_phys_ok in H as (H1 & H2 & H3); [|exact Hr|lia|by rewrite Hl]. split; [done|]. split; [done|]. rewrite <- Hct. by replace (b - bo + adr) with (b + (adr - bo)) by lia.
  - injection H as _ <-. split; [done|]. split; [by intros x y|]. replace csize with 0 by lia. replace asize with 0 by lia. intros i c Hi. destruct i; discriminate.
Qed.
Lemma cat_parts (l : bytes) x y z : 0 ≤ x ≤ y → y ≤ z → btake (y - x) (bdrop x l) ++ btake (z - y) (bdrop y l) = btake (z - x) (bdrop x l).
Proof.
  intros H1 H2. unfold btake, bdrop. replace (Z.to_nat y) with (Z.to_nat x + Z.to_nat (y - x))%nat by lia. rewrite <- drop_drop, take_take_drop. f_equal. lia.
Qed.

Lemma map_segment_ok f h v bo s u s' b len : seg_ok f h → range s v = Some (b, len) → 0 ≤ bo ≤ align_down (p_vaddr h) 12 →
  map_segment h f v bo s = (Ok u, s') →
  range s' v = Some (b, len) ∧ grows s s' ∧ shows s' (b - bo + p_vaddr h) (segment_image f h) (parse_flags (p_flags h)).
Proof.
  intros Hok Hr Hbo H. pose proof Hok as [Hs Ho Hv Hf]. unfold map_segment in H. destruct (Z.eqb_spec (Z.land (p_offset h) PAGE_MASK) (Z.land (p_vaddr h) PAGE_MASK)) as [He|]; [|done].
  cbn [negb] in H. cbv zeta in H. unfold PAGE_MASK in He. rewrite !land_ones_mod in He by lia.
  lift_step H. lift_step H.
  lift_step H. rewrite !page_down_ok in H by (unfold PAGE_MASK; lia).
  pose proof (align_12 (p_offset h)) as [Ho1 Ho2]. pose proof (align_12 (p_vaddr h)) as [Hv1 Hv2]. pose proof (align_12 (p_offset h + p_filesz h)) as [Hf1 Hf2].
  pose proof (align_12 (p_offset h + p_memsz h + PAGE_MASK)) as [Hm1 Hm2]. pose proof (align_12_pos (p_offset h) ltac:(lia)).
  assert (Hle : align_down (p_offset h) 12 ≤ align_down (p_offset h + p_filesz h) 12) by (unfold align_down; apply Z.mul_le_mono_nonneg_r; [lia|apply Z.div_le_mono; lia]).
  assert (Hd : p_vaddr h - align_down (p_vaddr h) 12 = p_offset h - align_down (p_offset h) 12) by (unfold align_down; rewrite (Z.mul_comm _ (2 ^ 12)), (Z.mul_comm _ (2 ^ 12)), <- !Z.mod_eq by lia; lia).
  pose proof (pages_image f h _ _ _ eq_refl eq_refl eq_refl Hok) as Himg.
  set (off0 := align_down (p_offset h) 12) in *. set (adr := align_down (p_vaddr h) 12) in *. set (fend := align_down (p_offset h + p_filesz h) 12) in *.
  set (mend := align_down (p_offset h + p_memsz h + PAGE_MASK) 12) in *. unfold PAGE_MASK in Hm1.
  lift_step H. lift_step H.
  unfold saturating_sub in H. rewrite Z.max_r in H by lia. apply st_ok_inv in H as (u1 & s1 & H1 & H).
  eapply map_file in H1 as (Hr1 & Hg1 & Hs1); [|exact Hr|lia|lia|by apply aligned_sub|lia|lia].
  destruct (map_rest f v bo fend (p_offset h + p_filesz h - fend) (mend - fend) (adr + (fend - off0)) (parse_flags (p_flags h)) s1 u s' b len) as (Hr2 & Hg2 & Hs2);
    [exact Hr1|lia|lia|by apply aligned_sub|lia|lia|lia| |].
  { destruct (mend - fend >? 0); [|exact H]. apply st_lift_inv in H as (x & Hx & H). rewrite uadd_ok in Hx by lia. by injection Hx as <-. }
  split; [done|]. split; [by eapply view_grows_trans|]. rewrite Himg. replace (b - bo + p_vaddr h) with (b - bo + adr + Z.of_nat (Z.to_nat (p_offset h - off0))) by lia.
  apply shows_sub. rewrite <- (cat_parts (content f) off0 fend), <- app_assoc by lia. apply shows_app; [by eapply grows_shows|].
  assert (Hl1 : blen (btake (fend - off0) (bdrop off0 (content f))) = fend - off0) by (unfold blen, btake, bdrop in *; rewrite length_take, length_drop; lia).
  rewrite Hl1. replace (b - bo + adr + (fend - off0)) with (b - bo + (adr + (fend - off0))) by lia.
  by replace (mend - (p_offset h + p_filesz h)) with (mend - fend - (p_offset h + p_filesz h - fend)) by lia.
Qed.
Definition shown f s (a : Z) h : Prop := p_type h = PT_LOAD → shows s (a + p_vaddr h) (segment_image f h) (parse_flags (p_flags h)).

Lemma load_loop_ok f v bo b len hs : ∀ x s y s', (∀ h, h ∈ hs → p_type h = PT_LOAD → seg_ok f h ∧ 0 ≤ bo ≤ align_down (p_vaddr h) 12) → range s v = Some (b, len) →
  load_loop f v bo hs x s = (Ok y, s') → range s' v = Some (b, len) ∧ grows s s' ∧ ∀ h, h ∈ hs → shown f s' (b - bo) h.
Proof.
  induction hs as [|h hs IH]; intros x s y s' Hok Hr H.
  { injection H as <- <-. split; [done|]. split; [by intros ? ?|]. intros h Hh. set_solver. }
  assert (Hok' : ∀ g, g ∈ hs → p_type g = PT_LOAD → seg_ok f g ∧ 0 ≤ bo ≤ align_down (p_vaddr g) 12) by (intros g Hg; apply Hok; set_solver).
  cbn [load_loop] in H. destruct (Z.eqb_spec (p_type h) PT_LOAD) as [Ht|Ht].
  - apply st_ok_inv in H as (u & s1 & H1 & H). destruct (Hok h) as [Hs Hb]; [set_solver|done|].
    destruct (map_segment_ok f h v bo s u s1 b len Hs Hr Hb H1) as (Hr1 & Hg1 & Hs1). destruct (IH x s1 y s' Hok' Hr1 H) as (Hr2 & Hg2 & Hs2).
    split; [done|]. split; [by eapply view_grows_trans|]. intros g Hg. apply elem_of_cons in Hg as [->|Hg]; [|by apply Hs2]. intros _. by eapply grows_shows.
  - assert (∃ x', load_loop f v bo hs x' s = (Ok y, s')) as [x' H'] by (repeat case_match; by eexists). destruct (IH x' s y s' Hok' Hr H') as (Hr2 & Hg2 & Hs2).
    split; [done|]. split; [done|]. intros g Hg. apply elem_of_cons in Hg as [->|Hg]; [by intros ?|by apply Hs2].
Qed.

Lemma range_loop_min hs : ∀ mn mx r, range_loop hs mn mx = Ok r → r.1 ≤ mn ∧ ∀ h, h ∈ hs → p_type h = PT_LOAD → r.1 ≤ p_vaddr h.
Proof.
  induction hs as [|h hs IH]; intros mn mx r H; cbn [range_loop] in H; [injection H as <-; split; [done|set_solver]|].
  destruct (Z.eqb_spec (p_type h) PT_LOAD).
  - destruct (p_vaddr h +! p_memsz h) as [z| |]; [|done|done]. apply IH in H as [H1 H2]. split; [lia|]. intros g Hg. apply elem_of_cons in Hg as [->|Hg]; [lia|by apply H2].
  - apply IH in H as [H1 H2]. split; [done|]. intros g Hg. apply elem_of_cons in Hg as [->|Hg]; [done|by apply H2].
Qed.

Lemma aligned_below m x : m mod 4096 = 0 → m ≤ x → m ≤ align_down x 12.
Proof. intros Hm Hx. unfold align_down. change (2 ^ 12) with 4096. pose proof (Z.div_le_mono m x 4096). pose proof (Z.div_mod m 4096). lia. Qed.
End image.

Section loads.
Context `{P : Profile} {F S : Type} `{O : PhysObj F} `{I : !Immediate F} `{M : !PhysMake F} `{A : !AddressSpace F S}.
Context (header_parse : bytes → res elf_error Header).
Context (segments_from : bytes → Z → res elf_error (list ProgramHeader)).
Context (sections_from : bytes → Z → res elf_error (list SectionHeader)).
Implicit Types (f : F) (s : S) (h : Header) (g : ProgramHeader).

Lemma fill_ok f h (dyn : bool) hs ss mn mx v s elf s' b len : range s v = Some (b, len) →
  (∀ g, g ∈ hs → p_type g = PT_LOAD → seg_ok f g ∧ 0 ≤ (if dyn then 0 else b) ≤ align_down (p_vaddr g) 12) →
  fill f h dyn hs ss mn mx v s = (Ok elf, s') → 0 ≤ b →
  let bias := if dyn then b else 0 in
  range_start elf = b ∧ grows s s' ∧ (∀ g, g ∈ hs → shown f s' bias g) ∧ (0 ≤ e_entry h → e_entry h + b < 2 ^ 64 → eentry elf = bias + e_entry h).
Proof.
  intros Hr Hok H Hb bias. unfold fill in H. apply st_ok_inv in H as (b' & s1 & H1 & H). unfold base_of in H1. rewrite Hr in H1. injection H1 as <- <-.
  apply st_lift_inv in H as (e & He & H). apply st_lift_inv in H as (e2 & He2 & H). apply st_ok_inv in H as (x & s2 & H2 & H).
  apply st_lift_inv in H as (t & Ht & H). apply st_lift_inv in H as (t2 & Ht2 & H). injection H as <- <-.
  destruct (load_loop_ok f v _ b len hs _ s x s2 Hok Hr H2) as (_ & Hg & Hs). split; [done|]. split; [done|]. split.
  - intros g Hin. specialize (Hs g Hin). unfold bias. by destruct dyn; [rewrite Z.sub_0_r in Hs|rewrite Z.sub_diag in Hs].
  - intros H0 Hlt. rewrite uadd_ok in He by lia. injection He as <-. cbn [eentry]. unfold bias. destruct dyn; (rewrite usub_ok in He2 by lia; injection He2 as <-; lia).
Qed.

(** C10: A file that is loaded is in memory as its program headers say: every loadable segment
    is found at its address (from the start of the new range for a shared object, as it is
    for an executable), byte by byte the part of the file and then zeros up to its size in
    memory, with the protection of its flags, also where the parts do not begin or end with
    a page; the entry is moved in the same way, and nothing that was mapped before changes. *)
Theorem elf_image f dyn_only s elf s' h dyn hs :
  parse_header header_parse f dyn_only = Ok (h, dyn) → parse_segments segments_from f (e_phoff h) (e_phnum h) = Ok hs →
  (∀ g, g ∈ hs → p_type g = PT_LOAD → seg_ok f g) →
  load header_parse segments_from sections_from f dyn_only s = (Ok elf, s') →
  let bias := if dyn then range_start elf else 0 in
  grows s s' ∧
  (∀ g, g ∈ hs → p_type g = PT_LOAD → shows s' (bias + p_vaddr g) (segment_image f g) (parse_flags (p_flags g))) ∧
  (0 ≤ e_entry h → e_entry h + range_start elf < 2 ^ 64 → eentry elf = bias + e_entry h).
Proof.
  intros Hh Hs Hok H bias. unfold load in H. rewrite Hh in H. apply st_lift_inv in H as (? & [= <-] & H). rewrite Hs in H.
  apply st_lift_inv in H as (? & [= <-] & H). apply st_lift_inv in H as (ss & _ & H). apply st_lift_inv in H as ([mn mx] & Hm & H).
  apply range_loop_min in Hm as [_ Hm]. cbn [fst] in Hm. apply st_ok_inv in H as (v & s1 & H1 & H). unfold alloc_range in H1.
  apply st_lift_inv in H1 as (n & _ & H1). apply st_lift_inv in H1 as (off & Hoff & H1). unfold new_virt in H1.
  destruct (virt_alloc off n (2 ^ 12) s) as [r s1'] eqn:Ha. injection H1 as Hr ->. apply map_err_ok in Hr as ->.
  destruct (virt_alloc_ok _ _ _ _ _ Ha) as (Hv & b & len & Hrg & Hb & Hlen & Hal & Hplace).
  unfold guarded in H. destruct (fill _ _ _ _ _ _ _ _ _) as [[x|e|] s2] eqn:Hf; [|done|done]. injection H as -> ->.
  destruct (fill_ok f h dyn hs ss mn mx v s1 elf s' b len Hrg) as (Hst & Hg & Hsh & He); [|done|done|].
  - intros g Hg Ht. specialize (Hok g Hg Ht). split; [done|]. destruct Hok as [Hz Ho Hva Hfi]. pose proof (align_12_pos (p_vaddr g) ltac:(lia)).
    destruct dyn; [lia|]. destruct (Z.ltb_spec mn root_base); [done|]. injection Hoff as <-. specialize (Hm g Hg Ht).
    pose proof root_base_pos. rewrite Hplace in Hal |- * by lia. split; [lia|]. apply aligned_below; [done|lia].
  - unfold bias. rewrite Hst. split; [|done]. intros x y Hx. apply Hg. by rewrite Hv.
Qed.
Lemma parse_header_dyn f h dyn : parse_header header_parse f true = Ok (h, dyn) → dyn = true.
Proof.
  unfold parse_header, mbind, res_bind. intros H. repeat case_match; simplify_eq; try done. by destruct (e_type h =? ET_DYN).
Qed.

(** Whatever the file is, only the new range changes while it is filled. *)
Definition inside s0 v b len s : Prop := range s v = Some (b, len) ∧ ∀ x, x < b ∨ b + len ≤ x → view s x = view s0 x.

Lemma map_phys_inside s0 v b len o (p : F) flags : keeps (inside s0 v b len) (map_phys v o p flags).
Proof.
  intros s [Hr Hv]. unfold map_phys. destruct (virt_map v o p flags s) as [r s'] eqn:H. destruct (virt_map_inside _ _ _ _ _ _ _ _ _ Hr H) as [Hr' Hv'].
  split; [done|]. intros x Hx. cbn [snd]. by rewrite Hv', Hv.
Qed.
#[local] Hint Resolve map_phys_inside : h2o_keeps.
Lemma map_segment_inside s0 v b len g f bo : keeps (inside s0 v b len) (map_segment g f v bo).
Proof. unfold map_segment. cbv zeta. repeat (case_match || apply keeps_bind; intros); eauto with h2o_keeps. Qed.
#[local] Hint Resolve map_segment_inside : h2o_keeps.
Lemma load_loop_inside s0 v b len f bo hs : ∀ x, keeps (inside s0 v b len) (load_loop f v bo hs x).
Proof. induction hs as [|g hs IH]; intros x; cbn [load_loop]; [eauto with h2o_keeps|]. repeat case_match; eauto with h2o_keeps. Qed.
#[local] Hint Resolve load_loop_inside : h2o_keeps.
Lemma fill_inside s0 v b len f h dyn hs ss mn mx : keeps (inside s0 v b len) (fill f h dyn hs ss mn mx v).
Proof. unfold fill. apply keeps_bind; [by intros s|]. intros b'. cbv zeta. eauto 12 with h2o_keeps. Qed.

(** C16: A shared object that cannot be loaded is confined to the range made for it:
    whatever the file is, when the loader returns an error (the file is malformed, or any
    call to the kernel fails, also after some of the segments are mapped), either
    nothing has changed, or the new range has been given up with [Virt::destroy] after the failure.
    In the second case no address of the range was mapped before, every address
    outside it is mapped as before at the failure and at the end, and the final state is
    the one [Virt::destroy] makes of the state at the failure: what it does not unmap is
    the only thing that can remain. *)
Theorem elf_load_undone f s e s' : load header_parse segments_from sections_from f true s = (Err e, s') →
  (∀ x, view s' x = view s x) ∨
  ∃ v b len s1, range s1 v = Some (b, len) ∧ (∀ x, b ≤ x < b + len → view s x = None) ∧
    (∀ x, x < b ∨ b + len ≤ x → view s1 x = view s x ∧ view s' x = view s x) ∧ s' = (virt_drop v s1).2.
Proof.
  unfold load. intros H. unfold mbind, st_bind, lift in H.
  destruct (parse_header header_parse f true) as [[h dyn]| |] eqn:Hh; [|left; by injection H as _ <-|done].
  apply parse_header_dyn in Hh as ->. destruct (parse_segments _ _ _ _) as [hs| |]; [|left; by injection H as _ <-|done].
  destruct (parse_sections _ _ _ _) as [ss| |]; [|left; by injection H as _ <-|done].
  destruct (get_addr_range_info hs) as [[mn mx]| |]; [|left; by injection H as _ <-|done].
  unfold alloc_range, mbind, st_bind, lift, new_virt in H. destruct (mx -! mn) as [n| |]; [|left; by injection H as _ <-|done].
  destruct (virt_alloc None n (2 ^ 12) s) as [[v|e'|] s1] eqn:Ha; cbn [map_err] in H;
    [|left; injection H as _ <-; by eapply virt_alloc_err|done].
  destruct (virt_alloc_ok _ _ _ _ _ Ha) as (Hv & b & len & Hrg & _ & _ & _ & Hfree). unfold guarded in H. right.
  pose proof (fill_inside s1 v b len f h true hs ss mn mx s1 (conj Hrg (λ x _, eq_refl))) as [Hr2 Hv2].
  destruct (fill f h true hs ss mn mx v s1) as [[el|e'|] s2]; [done| |done]. cbn [snd] in Hr2, Hv2. injection H as _ <-.
  exists v, b, len, s2. split_and!; [done|done| |done]. intros x Hx. rewrite Hv2, Hv by done. split; [done|].
  destruct (virt_drop v s2) as [r s3] eqn:Hd. cbn [snd]. by rewrite (virt_drop_inside _ _ _ _ _ _ Hr2 Hd), Hv2, Hv.
Qed.
End loads.

(** ** A small address space *)

Module LoadWitness.
Import StreamWitness.

(** The latest first: what was put where, and where a range was given back. *)
Inductive item := Placed (a : Z) (l : bytes) (flags : Z) | Hole (b n : Z).
Record space := MkSpace { items : list item; ranges : list (Z * Z) }.

Fixpoint mapped_in (l : list item) (x : Z) : option (Z * Z) :=
  match l with
  | [] => None
  | Placed a d flags :: l =>
      match (if a <=? x then d !! Z.to_nat (x - a) else None) with Some c => Some (c, flags) | None => mapped_in l x end
  | Hole b n :: l => if (b <=? x) && (x <? b + n) then None else mapped_in l x
  end.
Definition mapped (s : space) : Z → option (Z * Z) := mapped_in (items s).

Definition free (s : space) (a n : Z) : bool :=
  forallb (λ i, match i with Placed b l _ => (a + n <=? b) || (b + blen l <=? a) | Hole _ _ => true end) (items s).
Definition low : Z := 2 ^ 20.
Definition alloc (off : option Z) (n al : Z) (s : space) : res errno nat * space :=
  let b := low + default (2 ^ 20 * Z.of_nat (length (ranges s))) off in
  let len := align_up n 12 in
  if (0 <=? b) && (b + len <? 2 ^ 64) && (b mod 2 ^ 12 =? 0) && free s b len
  then (Ok (length (ranges s)), MkSpace (items s) (ranges s ++ [(b, len)]))
  else (Err ENOMEM, s).
Definition map_at (v : nat) (off : Z) (l : bytes) (flags : Z) (s : space) : res errno Z * space :=
  match ranges s !! v with
  | None => (Err EINVAL, s)
  | Some (b, len) =>
      if (0 <=? off) && (off + blen l <=? len) && free s (b + off) (blen l)
      then (Ok (b + off), MkSpace (Placed (b + off) l flags :: items s) (ranges s)) else (Err ERANGE, s)
  end.
Definition drop_range (v : nat) (s : space) : res errno () * space :=
  match ranges s !! v with
  | None => (Err EINVAL, s)
  | Some (b, len) => (Ok (), MkSpace (Hole b len :: items s) (ranges s))
  end.

Lemma placed_at s a l flags r x : mapped (MkSpace (Placed a l flags :: items s) r) x =
  match (if a <=? x then l !! Z.to_nat (x - a) else None) with Some c => Some (c, flags) | None => mapped s x end.
Proof. done. Qed.
Lemma free_at s a n x : free s a n = true → a ≤ x < a + n → mapped s x = None.
Proof.
  unfold free, mapped. induction (items s) as [|[b l fl|b m] its IH]; intros H Hx; [done| |]; cbn [forallb mapped_in] in *; apply andb_true_iff in H as [Hi H].
  - destruct (Z.leb_spec b x); [|by apply IH]. rewrite lookup_ge_None_2; [by apply IH|]. unfold blen in Hi. lia.
  - case_match; [done|by apply IH].
Qed.

#[export] Program Instance make_list : PhysMake bytes := {
  phys_alloc n := Ok (replicate (Z.to_nat n) 0);
  phys_copy f off n := Ok (btake n (bdrop off f));
}.
Next Obligation. intros n f _ [= <-]. done. Qed.
Next Obligation. intros f off n g _ _ _ [= <-]. done. Qed.

#[export] Program Instance small_space : AddressSpace bytes space := {
  root_base := low;
  view := mapped;
  range s v := ranges s !! v;
  virt_alloc := alloc;
  virt_map := map_at;
  virt_drop := drop_range;
}.
Next Obligation. done. Qed.
Next Obligation.
  intros off n s v s' H. unfold alloc in H. set (b := low + _) in *. destruct (_ && _) eqn:Hc in H; [|done]. injection H as <- <-. split; [done|].
  apply andb_true_iff in Hc as [Hc Hf]. apply andb_true_iff in Hc as [Hc Hm]. apply andb_true_iff in Hc as [Hb Hl]. exists b, (align_up n 12).
  split; [cbn [ranges]; by rewrite lookup_app_r, Nat.sub_diag by lia|]. split; [lia|]. split; [lia|]. split; [lia|]. destruct off; [done|]. intros x Hx. by eapply free_at.
Qed.
Next Obligation. intros off n al s r s' H Hr x. unfold alloc in H. destruct (_ && _) in H; injection H as <- <-; done. Qed.
Next Obligation.
  intros v off f flags s a s' b len _ _ Hr H x. unfold map_at in H. rewrite Hr in H. destruct (_ && _) eqn:Hc in H; [|done]. injection H as <- <-.
  apply andb_true_iff in Hc as [_ Hf]. change (content f) with f. rewrite placed_at.
  destruct (if b + off <=? x then _ else _) as [c|] eqn:Hx; [|done]. split; [|done]. destruct (Z.leb_spec (b + off) x); [|done].
  eapply free_at; [exact Hf|]. apply lookup_lt_Some in Hx. unfold blen. cbn in Hx. lia.
Qed.
Next Obligation.
  intros v off f flags s r s' b len Hr H. unfold map_at in H. rewrite Hr in H. destruct (_ && _) eqn:Hc in H; injection H as <- <-; [|done]. split; [done|].
  intros x Hx. apply andb_true_iff in Hc as [Hc _]. apply andb_true_iff in Hc as [H1 H2]. rewrite placed_at.
  destruct (Z.leb_spec (b + off) x); [|done]. rewrite lookup_ge_None_2; [done|]. unfold blen in H2. lia.
Qed.
Next Obligation.
  intros v s r s' b len Hr H x Hx. unfold drop_range in H. rewrite Hr in H. injection H as <- <-.
  cbn [mapped items mapped_in]. by destruct (Z.leb_spec b x), (Z.ltb_spec x (b + len)); try lia.
Qed.

(** A file of 4200 bytes with one segment, which begins and ends inside pages, or with one
    that begins above the first page. *)
Definition file : bytes := (λ i, i mod 251) <$> seqZ 0 4200.
Definition ident : list Z := [127; 69; 76; 70; ELFCLASS64; ELFDATA2LSB].
Definition ehdr (ty : Z) : Header := MkHeader ident ty 32 0 0 1 0.
Definition data_seg (vaddr : Z) : ProgramHeader := MkPh PT_LOAD 6 16 vaddr 4180 4300 4096.
Abbreviation try_load hs s := (load (λ _, Ok (ehdr ET_DYN)) (λ _ _, Ok hs) (λ _ _, Ok []) file true s).
Definition nothing_mapped : space := MkSpace [] [].

Definition small_elf : LoadedElf := MkElf true 0 low (low + 4300) None (low + 32) None None 0.

Lemma data_seg_ok : seg_ok (F:=bytes) file (data_seg 16).
Proof. split; cbn [p_filesz p_memsz p_offset p_vaddr data_seg]; [lia|lia|lia|]. vm_compute. discriminate. Qed.

Lemma small_result : (try_load [data_seg 16] nothing_mapped).1 = Ok small_elf.
Proof. vm_compute. reflexivity. Qed.

Lemma ok_run {S E A} (m : res E A * S) a : m.1 = Ok a → ∃ s, m = (Ok a, s).
Proof. destruct m as [r s]. cbn. intros ->. by exists s. Qed.

Lemma elf_image_witness : ∃ s', try_load [data_seg 16] nothing_mapped = (Ok small_elf, s') ∧
  shows s' (low + 16) (segment_image (F:=bytes) file (data_seg 16)) 7 ∧ segment_image (F:=bytes) file (data_seg 16) !! 4180%nat = Some 0.
Proof.
  destruct (ok_run _ _ small_result) as [s' H]. exists s'. split; [exact H|].
  destruct (elf_image (λ _, Ok (ehdr ET_DYN)) (λ _ _, Ok [data_seg 16]) (λ _ _, Ok []) file true nothing_mapped small_elf s' (ehdr ET_DYN) true [data_seg 16]) as (_ & Hs & _);
    [vm_compute; reflexivity|vm_compute; reflexivity| |exact H|].
  - intros g Hg _. apply list_elem_of_singleton in Hg as ->. exact data_seg_ok.
  - split; [|vm_compute; reflexivity]. exact (Hs (data_seg 16) (proj2 (list_elem_of_singleton _ _) eq_refl) eq_refl).
Defined.

Lemma high_result : (try_load [data_seg 8208] nothing_mapped).1 = Err (VirtMap ERANGE).
Proof. vm_compute. reflexivity. Qed.
Lemma err_run {S E A} (m : res E A * S) e : m.1 = Err e → ∃ s, m = (Err e, s).
Proof. destruct m as [r s]. cbn. intros ->. by exists s. Qed.

(** A shared object whose first segment is not at the start does not fit in the range that
    is made for it; here, where dropping the range unmaps it, nothing stays mapped. *)
Lemma elf_load_undone_witness : ∃ s', try_load [data_seg 8208] nothing_mapped = (Err (VirtMap ERANGE), s') ∧
  ((∀ x, view s' x = view nothing_mapped x) ∨
   ∃ v b len s1, range s1 v = Some (b, len) ∧ (∀ x, b ≤ x < b + len → view nothing_mapped x = None) ∧
    (∀ x, x < b ∨ b + len ≤ x → view s1 x = view nothing_mapped x ∧ view s' x = view nothing_mapped x) ∧ s' = (virt_drop v s1).2).
Proof.
  destruct (err_run _ _ high_result) as [s' H]. exists s'. split; [exact H|].
  exact (elf_load_undone (λ _, Ok (ehdr ET_DYN)) (λ _ _, Ok [data_seg 8208]) (λ _ _, Ok []) file nothing_mapped _ s' H).
Defined.

(** Without a loadable segment the size of the range is below zero: a panic with overflow
    checks, and a page without. *)
Example nothing_loadable :
  (@load true _ _ _ _ _ (λ _, Ok (ehdr ET_DYN)) (λ _ _, Ok []) (λ _ _, Ok []) file true nothing_mapped).1 = Panic ∧
  match (try_load [] nothing_mapped).1 with Ok e => (range_start e, range_end e) = (low, low + 1) | _ => False end.
Proof. split; vm_compute; reflexivity. Qed.
End LoadWitness.
