(* ===== verification/Dso.v ===== *)
(** * The dynamic linker ([ldso/src/dso.rs], [ldso/src/ffi.rs])

    Shared objects are nodes of a list with links in both directions; a second chain has those
    that are to be finished. The linker finds symbols among the objects, relocates the memory of
    an object when it is added, sets up thread-local variables and calls the functions of the
    objects at the start and at the end. A call is recorded; what the function does is not
    modelled. The memory of the process is [memory]; loading a file into it and asking the
    loader for files are parameters. *)

From S2P Require Import Base Bits Mem Slices SysCall Elf ElfLoad.
Local Open Scope Z_scope.
Local Open Scope h2o_scope.

Definition DT_NULL : Z := 0.
Definition DT_PLTRELSZ : Z := 2.
Definition DT_RELA : Z := 7.
Definition DT_RELASZ : Z := 8.
Definition DT_INIT : Z := 12.
Definition DT_FINI : Z := 13.
Definition DT_REL : Z := 17.
Definition DT_RELSZ : Z := 18.
Definition DT_PLTREL : Z := 20.
Definition DT_JMPREL : Z := 23.
Definition DT_INIT_ARRAY : Z := 25.
Definition DT_FINI_ARRAY : Z := 26.
Definition DT_INIT_ARRAYSZ : Z := 27.
Definition DT_FINI_ARRAYSZ : Z := 28.
Definition DT_PREINIT_ARRAY : Z := 32.
Definition DT_PREINIT_ARRAYSZ : Z := 33.
Definition DT_RELRSZ : Z := 35.
Definition DT_RELR : Z := 36.

Definition R_NONE : Z := 0.
Definition R_64 : Z := 1.
Definition R_PC32 : Z := 2.
Definition R_COPY : Z := 5.
Definition R_GLOB_DAT : Z := 6.
Definition R_JUMP_SLOT : Z := 7.
Definition R_RELATIVE : Z := 8.
Definition R_DTPMOD64 : Z := 16.
Definition R_DTPOFF64 : Z := 17.
Definition R_TPOFF64 : Z := 18.

Definition STT_NOTYPE : Z := 0.
Definition STT_OBJECT : Z := 1.
Definition STT_FUNC : Z := 2.
Definition STT_SECTION : Z := 3.
Definition STT_COMMON : Z := 5.
Definition STT_TLS : Z := 6.
Definition STB_GLOBAL : Z := 1.
Definition STB_WEAK : Z := 2.
Definition STB_GNU_UNIQUE : Z := 10.
Definition SHN_UNDEF : Z := 0.

Definition sym_type (info : Z) : Z := Z.land info 15.
Definition sym_bind (info : Z) : Z := Z.shiftr info 4.

(** ** Data *)

Inductive ld_error :=
  | SymbolLoad
  | ElfLoad
  | DepGet (e : errno)
  | Memory (size align : Z)
  | Serde.

(** [Dso]; the three [Once] are whether they are done. *)
Record Dso := MkDso {
  lnext : option nat;
  lprev : option nat;
  fnext : option nat;
  dbase : DsoBase;
  dname : list Z;
  dynamic : list Dyn;
  dsyms : Symbols;
  dtls : option Z;
  relocated : bool;
  inited : bool;
  finied : bool;
}.

Definition with_next (d : Dso) (n : option nat) : Dso :=
  MkDso n (lprev d) (fnext d) (dbase d) (dname d) (dynamic d) (dsyms d) (dtls d) (relocated d) (inited d) (finied d).
Definition with_prev (d : Dso) (n : option nat) : Dso :=
  MkDso (lnext d) n (fnext d) (dbase d) (dname d) (dynamic d) (dsyms d) (dtls d) (relocated d) (inited d) (finied d).
Definition with_fnext (d : Dso) (n : option nat) : Dso :=
  MkDso (lnext d) (lprev d) n (dbase d) (dname d) (dynamic d) (dsyms d) (dtls d) (relocated d) (inited d) (finied d).
Definition with_tls (d : Dso) (t : option Z) : Dso :=
  MkDso (lnext d) (lprev d) (fnext d) (dbase d) (dname d) (dynamic d) (dsyms d) t (relocated d) (inited d) (finied d).
Definition with_relocated (d : Dso) : Dso :=
  MkDso (lnext d) (lprev d) (fnext d) (dbase d) (dname d) (dynamic d) (dsyms d) (dtls d) true (inited d) (finied d).
Definition with_inited (d : Dso) : Dso :=
  MkDso (lnext d) (lprev d) (fnext d) (dbase d) (dname d) (dynamic d) (dsyms d) (dtls d) (relocated d) true (finied d).
Definition with_finied (d : Dso) : Dso :=
  MkDso (lnext d) (lprev d) (fnext d) (dbase d) (dname d) (dynamic d) (dsyms d) (dtls d) (relocated d) (inited d) true.

(** [DsoList], the memory, the nodes that were made and the functions that were called. *)
Record ld := MkLd {
  mem : memory;
  nodes : gmap nat Dso;
  next_node : nat;
  head : option nat;
  tail : option nat;
  prog : option nat;
  fini : option nat;
  names : gset (list Z);
  tls : list Tls;
  threads : list Tcb;
  preinit : bool;
  calls : list Z;
}.

Definition set_mem (m : memory) (w : ld) : ld :=
  MkLd m (nodes w) (next_node w) (head w) (tail w) (prog w) (fini w) (names w) (tls w) (threads w) (preinit w) (calls w).
Definition set_nodes (ns : gmap nat Dso) (w : ld) : ld :=
  MkLd (mem w) ns (next_node w) (head w) (tail w) (prog w) (fini w) (names w) (tls w) (threads w) (preinit w) (calls w).
Definition set_ends (h t : option nat) (w : ld) : ld :=
  MkLd (mem w) (nodes w) (next_node w) h t (prog w) (fini w) (names w) (tls w) (threads w) (preinit w) (calls w).
Definition set_prog (p : option nat) (w : ld) : ld :=
  MkLd (mem w) (nodes w) (next_node w) (head w) (tail w) p (fini w) (names w) (tls w) (threads w) (preinit w) (calls w).
Definition set_fini (f : option nat) (w : ld) : ld :=
  MkLd (mem w) (nodes w) (next_node w) (head w) (tail w) (prog w) f (names w) (tls w) (threads w) (preinit w) (calls w).
Definition set_names (n : gset (list Z)) (w : ld) : ld :=
  MkLd (mem w) (nodes w) (next_node w) (head w) (tail w) (prog w) (fini w) n (tls w) (threads w) (preinit w) (calls w).
Definition set_tls (t : list Tls) (w : ld) : ld :=
  MkLd (mem w) (nodes w) (next_node w) (head w) (tail w) (prog w) (fini w) (names w) t (threads w) (preinit w) (calls w).
Definition set_threads (t : list Tcb) (w : ld) : ld :=
  MkLd (mem w) (nodes w) (next_node w) (head w) (tail w) (prog w) (fini w) (names w) (tls w) t (preinit w) (calls w).
Definition set_preinit (w : ld) : ld :=
  MkLd (mem w) (nodes w) (next_node w) (head w) (tail w) (prog w) (fini w) (names w) (tls w) (threads w) true (calls w).
Definition add_calls (fs : list Z) (w : ld) : ld :=
  MkLd (mem w) (nodes w) (next_node w) (head w) (tail w) (prog w) (fini w) (names w) (tls w) (threads w) (preinit w) (calls w ++ fs).
Definition add_node (d : Dso) (w : ld) : ld :=
  MkLd (mem w) (<[next_node w := d]> (nodes w)) (S (next_node w)) (head w) (tail w) (prog w) (fini w) (names w) (tls w) (threads w) (preinit w) (calls w).

Section linker.
Context `{P : Profile}.
(** Where the linker itself is mapped. *)
Context (load_address : Z).

Abbreviation lr := (res ld_error).
Abbreviation lm := (st ld ld_error).

Definition node (id : nat) : lm Dso := w ← get; lift (unwrap (nodes w !! id)).
Definition set_node (id : nat) (d : Dso) : lm () := modify (λ w, set_nodes (<[id := d]> (nodes w)) w).

(** ** The dynamic section *)

Definition dyn_val (d : Dso) (tag : Z) : option Z := find_tag tag (dynamic d).
Definition dyn_ptr (d : Dso) (tag : Z) : lr (option Z) :=
  match dyn_val d tag with
  | None => Ok None
  | Some offset => p ← base_ptr (dbase d) offset; Ok (Some p)
  end.

(** Where the slice is and how many elements of [size] bytes it has. *)
Definition dyn_slice (size : Z) (d : Dso) (tag_offset tag_size : Z) : lr (option (Z * Z)) :=
  p ← dyn_ptr d tag_offset;
  Ok (match p, dyn_val d tag_size with Some p, Some n => Some (p, n / size) | _, _ => None end).

(** ** Finding symbols *)

Definition check_type (ty : Z) : bool :=
  (ty =? STT_NOTYPE) || (ty =? STT_COMMON) || (ty =? STT_FUNC) || (ty =? STT_OBJECT) || (ty =? STT_TLS).
Definition check_bind (b : Z) : bool := (b =? STB_GLOBAL) || (b =? STB_WEAK) || (b =? STB_GNU_UNIQUE).

Definition check_sym (s : Sym) (needs_def : bool) : bool :=
  let ty := sym_type (st_info s) in
  negb ((st_shndx s =? 0) && (needs_def || (ty =? STT_TLS))) &&
  negb ((st_value s =? 0) && negb (ty =? STT_TLS)) && check_type ty && check_bind (sym_bind (st_info s)).

(** The loop of [find_symbol] from the object [cur] on; the list is not longer than there are
    nodes. *)
Fixpoint find_loop (fuel : nat) (w : ld) (name : list Z) (ghash : Z) (except : option nat) (needs_def : bool)
    (ret : option (nat * Sym)) (cur : option nat) : lr (option (nat * Sym)) :=
  match fuel with
  | O => Panic
  | S fuel =>
      match cur with
      | None => Ok ret
      | Some id =>
          d ← unwrap (nodes w !! id);
          let go ret := find_loop fuel w name ghash except needs_def ret (lnext d) in
          if bool_decide (except = Some id) then go ret
          else
            sym ← get_by_name_hashed (mem w) (dsyms d) name ghash;
            match sym with
            | None => go ret
            | Some s =>
                let bind := sym_bind (st_info s) in
                if negb (check_sym s needs_def) then go ret
                else if bool_decide (is_Some ret) && (bind =? STB_WEAK) then go ret
                else if bind =? STB_GLOBAL then Ok (Some (id, s))
                else go (Some (id, s))
            end
      end
  end.
Definition list_fuel (w : ld) : nat := S (base.size (nodes w)).
Definition find_symbol (w : ld) (name : list Z) (except : option nat) (needs_def : bool) : lr (option (nat * Sym)) :=
  find_loop (list_fuel w) w name (gnu_hash name) except needs_def None (head w).

(** [__tls_get_addr] in the data of a thread: the index of the byte, or null. *)
Definition tls_get_addr (w : ld) (data : list Z) (id offset : Z) : option Z :=
  t ← tls w !! Z.to_nat id;
  if toffset t <? Z.of_nat (length data) then Some (toffset t + offset) else None.

(** What a symbol stands for: an address, or a byte of the data of the thread. *)
Inductive value := Address (a : Z) | Local (i : option Z).

(** [get_symbol_value] in one object, or in all. *)
Definition get_symbol_value (w : ld) (data : list Z) (dso : option nat) (name : list Z) : lr (option value) :=
  match dso with
  | Some id =>
      d ← unwrap (nodes w !! id);
      sym ← get_by_name_hashed (mem w) (dsyms d) name (gnu_hash name);
      match sym with
      | Some s =>
          if sym_type (st_info s) =? STT_TLS then
            Ok (match dtls d with None => None | Some t => Some (Local (tls_get_addr w data t (st_value s))) end)
          else if check_type (sym_type (st_info s)) then p ← base_ptr (dbase d) (st_value s); Ok (Some (Address p))
          else Ok None
      | None => Ok None
      end
  | None =>
      f ← find_symbol w name None false;
      match f with
      | None => Ok None
      | Some (id, s) =>
          d ← unwrap (nodes w !! id);
          if sym_type (st_info s) =? STT_TLS then
            Ok (match dtls d with None => None | Some t => Some (Local (tls_get_addr w data t (st_value s))) end)
          else p ← base_ptr (dbase d) (st_value s); Ok (Some (Address p))
      end
  end.

(** ** Relocation *)

Record Reloc := MkReloc { roffset : Z; addend : Z; rty : Z; sym_index : Z }.

(** [From<&Rel>] and [From<&Rela>]: an entry of 16 or 24 bytes in memory. *)
Definition rel_at (m : memory) (a : Z) : Reloc :=
  let info := read_u64 m (a + 8) in MkReloc (read_u64 m a) 0 (Z.land info (2 ^ 32 - 1)) (Z.shiftr info 32).
Definition rela_at (m : memory) (a : Z) : Reloc :=
  let info := read_u64 m (a + 8) in MkReloc (read_u64 m a) (read_u64 m (a + 16)) (Z.land info (2 ^ 32 - 1)) (Z.shiftr info 32).

Definition write_word (a v : Z) : lm () := modify (λ w, set_mem (write_u64 a v (mem w)) w).

(** The definition a relocation refers to. *)
Definition reloc_def (w : ld) (id : nat) (d : Dso) (r : Reloc) (sym : Sym) : lr (option (nat * Sym)) :=
  if sym_index r =? 0 then Ok None
  else if sym_type (st_info sym) =? STT_SECTION then Ok (Some (id, sym))
  else
    def ← find_symbol w (get_str (mem w) (dsyms d) (st_name sym)) (if rty r =? R_COPY then Some id else None) (rty r =? R_JUMP_SLOT);
    if bool_decide (def = None) && (negb (st_shndx sym =? SHN_UNDEF) || negb (sym_bind (st_info sym) =? STB_WEAK)) then Panic
    else Ok def.

(** [dso.tls.expect(..)] and [self.tls[..]]. *)
Definition tls_of (w : ld) (id : nat) : lr Tls :=
  d ← unwrap (nodes w !! id);
  t ← unwrap (dtls d);
  unwrap (tls w !! Z.to_nat t).

(** [relocate_one]: whether the loop over the relocations ends. *)
Definition relocate_one (id : nat) (r : Reloc) : lm bool :=
  w ← get;
  d ← node id;
  reloc_ptr ← lift (base_ptr (dbase d) (roffset r));
  match sym_get (dsyms d) (sym_index r) with
  | None => mret false
  | Some sym =>
      def ← lift (reloc_def w id d r sym);
      sym_val ← lift (match def with
                      | Some (i, s) => e ← unwrap (nodes w !! i); base_ptr (dbase e) (st_value s)
                      | None => Ok 0
                      end);
      if rty r =? R_NONE then mret true
      else if (rty r =? R_64) || (rty r =? R_GLOB_DAT) || (rty r =? R_JUMP_SLOT) then
        v ← lift (sym_val +! addend r); _ ← write_word reloc_ptr v; mret false
      else if rty r =? R_RELATIVE then
        v ← lift (base_get (dbase d) +! addend r); _ ← write_word reloc_ptr v; mret false
      else if rty r =? R_COPY then
        _ ← modify (λ w, set_mem (memcpy reloc_ptr sym_val (st_size sym) (mem w)) w); mret false
      else if rty r =? R_PC32 then
        v ← lift (sym_val +! addend r); v ← lift (v -! reloc_ptr); _ ← write_word reloc_ptr v; mret false
      else if rty r =? R_DTPMOD64 then
        e ← node (match def with Some (i, _) => i | None => id end);
        t ← lift (unwrap (dtls e)); _ ← write_word reloc_ptr t; mret false
      else if rty r =? R_DTPOFF64 then
        '(i, s) ← lift (unwrap def);
        t ← lift (tls_of w i);
        v ← lift (st_value s +! addend r);
        _ ← write_word reloc_ptr (wrap W (v - size (tlayout t))); mret false
      else if rty r =? R_TPOFF64 then
        '(i, s) ← lift (unwrap def);
        t ← lift (tls_of w i);
        t0 ← lift (unwrap (tls w !! 0%nat));
        v ← lift (st_value s +! addend r);
        _ ← write_word reloc_ptr (wrap W (v + wrap W (toffset t - toffset t0))); mret false
      else lift Panic
  end.

(** The loop over [n] relocations of [size] bytes, from the address [a] on. *)
Fixpoint reloc_loop (entry : memory → Z → Reloc) (size : Z) (id : nat) (n : nat) (a : Z) : lm () :=
  match n with
  | O => mret ()
  | S n =>
      w ← get;
      stop ← relocate_one id (entry (mem w) a);
      if stop : bool then mret () else reloc_loop entry size id n (a + size)
  end.

Definition relocate_table (entry : memory → Z → Reloc) (size : Z) (id : nat) (tag_offset tag_size : Z) : lm () :=
  d ← node id;
  s ← lift (dyn_slice size d tag_offset tag_size);
  match s with None => mret () | Some (a, n) => reloc_loop entry size id (Z.to_nat n) a end.

Definition on_memory (m : st memory ld_error ()) : lm () := λ w, let '(r, x) := m (mem w) in (r, set_mem x w).

(** [relocate_dso]. *)
Definition relocate_dso (id : nat) : lm () :=
  d ← node id;
  if relocated d then mret ()
  else
    _ ← (if negb (base_get (dbase d) =? load_address) then
           match dyn_val d DT_RELR, dyn_val d DT_RELRSZ with
           | Some offset, Some size =>
               b ← lift (base_ptr (dbase d) 0);
               t ← lift (base_ptr (dbase d) offset);
               on_memory (apply_relr b t size)
           | _, _ => mret ()
           end
         else mret ());
    _ ← relocate_table rel_at 16 id DT_REL DT_RELSZ;
    _ ← relocate_table rela_at 24 id DT_RELA DT_RELASZ;
    let v := default 0 (dyn_val d DT_PLTREL) in
    _ ← (if v =? DT_RELA then relocate_table rela_at 24 id DT_JMPREL DT_PLTRELSZ
         else if v =? DT_REL then relocate_table rel_at 16 id DT_JMPREL DT_PLTRELSZ
         else mret ());
    d ← node id;
    set_node id (with_relocated d).

(** ** The list of objects *)

(** [DsoList::push]. *)
Definition push (d : Dso) (is_prog : bool) : lm nat :=
  w ← get;
  let id := next_node w in
  _ ← modify (add_node (with_prev (with_next d None) (tail w)));
  _ ← (match tail w with
       | None => modify (set_ends (Some id) (Some id))
       | Some t => e ← node t; _ ← set_node t (with_next e (Some id)); modify (set_ends (head w) (Some id))
       end);
  _ ← relocate_dso id;
  _ ← (if is_prog then modify (set_prog (Some id)) else mret ());
  mret id.

(** The loop of [DsoList::pop]; the linker and the object of the kernel are never taken out. *)
Fixpoint pop_loop (fuel : nat) (id : nat) (cur : option nat) : lm (option Dso) :=
  match fuel with
  | O => lift Panic
  | S fuel =>
      match cur with
      | None => mret None
      | Some c =>
          d ← node c;
          if bool_decide (c = id) then
            _ ← (match lprev d with
                 | Some p => e ← node p; set_node p (with_next e (lnext d))
                 | None => modify (λ w, set_ends (lnext d) (tail w) w)
                 end);
            _ ← (match lnext d with
                 | Some n => e ← node n; set_node n (with_prev e (lprev d))
                 | None => modify (λ w, set_ends (head w) (lprev d) w)
                 end);
            _ ← modify (λ w, set_nodes (delete c (nodes w)) w);
            mret (Some (with_prev (with_next d None) None))
          else pop_loop fuel id (lnext d)
      end
  end.
Definition pop (statics : list nat) (id : nat) : lm (option Dso) :=
  if bool_decide (id ∈ statics) then mret None
  else w ← get; pop_loop (list_fuel w) id (head w).

(** ** Calling the functions of the objects *)

(** The functions an array of the dynamic section points to. *)
Definition fn_array (d : Dso) (tag_offset tag_size : Z) : lm (list Z) :=
  s ← lift (dyn_slice 8 d tag_offset tag_size);
  w ← get;
  mret (match s with None => [] | Some (a, n) => u64s_at (mem w) a n end).

(** The function of a single entry: the word it points to. *)
Definition fn_entry (d : Dso) (tag : Z) : lm (list Z) :=
  p ← lift (dyn_ptr d tag);
  w ← get;
  mret (match p with None => [] | Some a => [read_u64 (mem w) a] end).

Definition call (fs : list Z) : lm () := modify (add_calls fs).

(** [DsoList::push_fini]. *)
Definition push_fini (id : nat) : lm () :=
  w ← get;
  d ← node id;
  _ ← set_node id (with_fnext d (fini w));
  modify (set_fini (Some id)).

(** The closure of [do_init] for an object. *)
Definition init_one (id : nat) : lm () :=
  d ← node id;
  if inited d then mret ()
  else
    f ← fn_entry d DT_INIT;
    _ ← call f;
    fs ← fn_array d DT_INIT_ARRAY DT_INIT_ARRAYSZ;
    _ ← call fs;
    _ ← push_fini id;
    d ← node id;
    set_node id (with_inited d).

Fixpoint init_loop (fuel : nat) (cur : option nat) : lm () :=
  match fuel with
  | O => lift Panic
  | S fuel =>
      match cur with
      | None => mret ()
      | Some id => _ ← init_one id; d ← node id; init_loop fuel (lnext d)
      end
  end.

(** The functions of the program that come before all others. *)
Definition do_preinit : lm () :=
  w ← get;
  match prog w with
  | None => mret ()
  | Some p =>
      d ← node p;
      s ← lift (dyn_slice 8 d DT_PREINIT_ARRAY DT_PREINIT_ARRAYSZ);
      match s with
      | Some (a, n) => if preinit w then mret () else _ ← call (u64s_at (mem w) a n); modify set_preinit
      | None => mret ()
      end
  end.

Definition do_init : lm () :=
  _ ← do_preinit;
  w ← get;
  init_loop (list_fuel w) (head w).

Definition fini_one (id : nat) : lm () :=
  d ← node id;
  if inited d && negb (finied d) then
    fs ← fn_array d DT_FINI_ARRAY DT_FINI_ARRAYSZ;
    _ ← call (reverse fs);
    f ← fn_entry d DT_FINI;
    _ ← call f;
    set_node id (with_finied d)
  else mret ().

Fixpoint fini_loop (fuel : nat) (cur : option nat) : lm () :=
  match fuel with
  | O => lift Panic
  | S fuel =>
      match cur with
      | None => mret ()
      | Some id => _ ← fini_one id; d ← node id; fini_loop fuel (fnext d)
      end
  end.
Definition do_fini : lm () := w ← get; fini_loop (list_fuel w) (fini w).

(** ** Threads *)

(** [DsoList::load_tls]: the object with the number of its block. *)
Definition load_tls (d : Dso) (h : ProgramHeader) : lm Dso :=
  layout ← lift (of_option (Memory (p_memsz h) (p_align h)) (from_size_align (p_memsz h) (p_align h)));
  tdata ← lift (base_ptr (dbase d) (p_offset h));
  w ← get;
  offset ← lift (match last (tls w) with
                 | Some l => toffset l +! pad_to_align (tlayout l)
                 | None => Ok 0
                 end);
  _ ← modify (λ w, set_tls (tls w ++ [MkTls layout tdata (p_filesz h) offset]) w);
  mret (with_tls d (Some (Z.of_nat (length (tls w))))).

Fixpoint push_blocks (m : memory) (ts : list Tls) (data : list Z) : lr (list Z) :=
  match ts with
  | [] => Ok data
  | t :: ts => data ← tls_push m t data; push_blocks m ts data
  end.

(** [DsoList::init_back_thread] and [push_thread]. *)
Definition init_back_thread : lm () :=
  w ← get;
  t ← lift (unwrap (last (threads w)));
  data ← lift (push_blocks (mem w) (tls w) (tdata t));
  modify (λ w, set_threads (removelast (threads w) ++ [MkTcb (Some (Z.of_nat (length data))) (tcb_id t) data (dtors t)]) w).

Definition push_thread (init : bool) : lm () :=
  w ← get;
  _ ← modify (λ w, set_threads (threads w ++ [MkTcb None (Z.of_nat (length (threads w))) [] []]) w);
  if init then init_back_thread else mret ().

(** [__libc_deallocate_tcb] for the thread [i]: the destructors in the reverse order. *)
Definition deallocate_tcb (i : nat) : lm () :=
  w ← get;
  t ← lift (unwrap (threads w !! i));
  _ ← call (reverse (dtors t).*2);
  modify (λ w, set_threads (<[i := MkTcb None 0 [] []]> (threads w)) w).

(** ** Loading *)

Section load.
(** [elfload::load] into the memory, and [get_object] for the names of files. *)
Context {Ph : Type} (elf_load : Ph → memory → lr LoadedElf * memory) (get_object : list (list Z) → lr (list Ph)).
(** A bound on the length of the last chain of a hash table. *)
Context (chain : nat).

Fixpoint dyns_at (m : memory) (n : nat) (a : Z) : list Dyn :=
  match n with
  | O => []
  | S n => MkDyn (read_u64 m a) (read_u64 m (a + 8)) :: dyns_at m n (a + 16)
  end.

(** What [split] of the dynamic section gives first. *)
Fixpoint before_null (ds : list Dyn) : list Dyn :=
  match ds with
  | [] => []
  | d :: ds => if d_tag d =? DT_NULL then [] else d :: before_null ds
  end.

Definition dynamic_of (m : memory) (base : DsoBase) (seg : option ProgramHeader) : lr (list Dyn) :=
  match seg with
  | None => Ok []
  | Some seg => a ← base_ptr base (p_vaddr seg); Ok (before_null (dyns_at m (Z.to_nat (p_memsz seg / 16)) a))
  end.

Definition needed (w : ld) (dynamic : list Dyn) (syms : Symbols) : list (list Z) :=
  filter (λ n, n ∉ names w) ((λ d, get_str (mem w) syms (d_val d)) <$> filter (λ d, d_tag d = DT_NEEDED) dynamic).

(** [Dso::load_dso] and [load_deps]; [fuel] bounds the depth of the dependencies. *)
Fixpoint load_dso (fuel : nat) (phys : Ph) (name : list Z) (is_prog : bool) : lm (LoadedElf * nat) :=
  match fuel with
  | O => lift Panic
  | S fuel =>
      elf ← (λ w, let '(r, m) := elf_load phys (mem w) in (r, set_mem m w));
      let base := if is_dyn elf then DynBase (range_start elf) else ExecBase (range_start elf) in
      w ← get;
      dynamic ← lift (dynamic_of (mem w) base (edynamic elf));
      s ← lift (from_dynamic chain (mem w) base dynamic (Some (sym_len elf)));
      syms ← lift (of_option SymbolLoad s);
      _ ← modify (λ w, set_names ({[name]} ∪ names w) w);
      w ← get;
      let deps := needed w dynamic syms in
      objs ← lift (get_object deps);
      _ ← (fix load_all (l : list (Ph * list Z)) : lm () :=
             match l with
             | [] => mret ()
             | (o, n) :: l => _ ← load_dso fuel o n false; load_all l
             end) (zip objs deps);
      let d := MkDso None None None base name dynamic syms None false false false in
      d ← (match etls elf with
           | None => mret d
           | Some h => d ← load_tls d h; _ ← (if is_prog then init_back_thread else mret ()); mret d
           end);
      id ← push d is_prog;
      mret (elf, id)
  end.

(** [Dso::load]: the names are restored when it fails. *)
Definition load (fuel : nat) (phys : Ph) (name : list Z) (is_prog : bool) : lm (LoadedElf * nat) := λ w,
  match load_dso fuel phys name is_prog w with
  | (Err e, w') => (Err e, set_names (names w) w')
  | r => r
  end.
(** ** The linker itself *)

Definition read_u16 (m : memory) (a : Z) : Z := from_le (bytes m a 2).

(** A program header of 56 bytes. *)
Definition ph_at (m : memory) (a : Z) : ProgramHeader :=
  MkPh (read_u32 m a) (read_u32 m (a + 4)) (read_u64 m (a + 8)) (read_u64 m (a + 16)) (read_u64 m (a + 32)) (read_u64 m (a + 40)) (read_u64 m (a + 48)).
Definition phs_at (m : memory) (a n : Z) : list ProgramHeader := (λ i, ph_at m (a + 56 * i)) <$> seqZ 0 n.

(** [DsoBase::new]. *)
Definition new_base (base ty : Z) : lr DsoBase :=
  if ty =? ET_DYN then Ok (DynBase base) else if ty =? ET_EXEC then Ok (ExecBase base) else Panic.

Fixpoint find_type (ty : Z) (hs : list ProgramHeader) : option ProgramHeader :=
  match hs with
  | [] => None
  | h :: hs => if p_type h =? ty then Some h else find_type ty hs
  end.

(** [Dso::new_static]: an object that is in memory already, from its header on. *)
Definition new_static (base : Z) (name : list Z) : lm Dso :=
  w ← get;
  let m := mem w in
  _ ← lift (if bool_decide (bytes m base 4 = [127; 69; 76; 70]) then Ok () else Panic);
  _ ← lift (if byte m (base + 5) =? ELFDATA2LSB then Ok () else Panic);
  b ← lift (new_base base (read_u16 m (base + 16)));
  _ ← lift (if read_u16 m (base + 54) =? 56 then Ok () else Panic);
  p ← lift (base_ptr b (read_u64 m (base + 32)));
  dynamic ← lift (dynamic_of m b (find_type PT_DYNAMIC (phs_at m p (read_u16 m (base + 56)))));
  s ← lift (from_dynamic chain m b dynamic None);
  syms ← lift (of_option SymbolLoad s);
  mret (MkDso None None None b name dynamic syms None false false false).

(** [DsoList::new]: the list of two objects, which are relocated. *)
Definition list_new (h t : Dso) : lm () :=
  w ← get;
  let i := next_node w in
  _ ← modify (add_node (with_next h (Some (S i))));
  _ ← modify (add_node (with_prev t (Some i)));
  _ ← modify (set_ends (Some i) (Some (S i)));
  _ ← relocate_dso i;
  relocate_dso (S i).

(** The names of the objects: ld-oceanic.so and VDSO in angle brackets, and those of the
    files they stand for, libldso.so and libh2o.so. *)
Definition LDSO_NAME : list Z := [108; 100; 45; 111; 99; 101; 97; 110; 105; 99; 46; 115; 111].
Definition VDSO_NAME : list Z := [60; 86; 68; 83; 79; 62].
Definition LIBLDSO : list Z := [108; 105; 98; 108; 100; 115; 111; 46; 115; 111].
Definition LIBH2O : list Z := [108; 105; 98; 104; 50; 111; 46; 115; 111].

(** [init]: the linker, at [load_address], and the object of the kernel. *)
Definition ld_init (vdso : Z) : lm () :=
  l ← new_static load_address LDSO_NAME;
  v ← new_static vdso VDSO_NAME;
  _ ← list_new l v;
  _ ← modify (λ w, set_names ({[LIBLDSO; LIBH2O]} ∪ names w) w);
  push_thread false.
End load.
End linker.
