(* ===== verification/DsoSpec.v ===== *)
(** * What the dynamic linker promises

    The links of the objects are a list, to which objects are added at the end and from which
    they are taken; a symbol is found by the rules of binding; functions are called in the order
    of the list and back; the blocks of thread-local variables do not overlap. *)

From S2P Require Import Base Bits Mem Slices SysCall Elf ElfSpec ElfLoad Dso.
Local Open Scope Z_scope.
Local Open Scope h2o_scope.

(** ** The list of objects *)

Fixpoint links (ns : gmap nat Dso) (prev cur : option nat) (ids : list nat) : Prop :=
  match ids with
  | [] => cur = None
  | id :: ids => cur = Some id ∧ ∃ d, ns !! id = Some d ∧ lprev d = prev ∧ links ns (Some id) (lnext d) ids
  end.

Record list_ok (w : ld) (ids : list nat) : Prop := {
  lo_links : links (nodes w) None (head w) ids;
  lo_tail : tail w = last ids;
  lo_nodup : NoDup ids;
  lo_new id : is_Some (nodes w !! id) → (id < next_node w)%nat;
}.

(** The links depend on the links of the nodes alone. *)
Lemma links_same ns ns' ids : ∀ prev cur, links ns prev cur ids →
  (∀ id d, id ∈ ids → ns !! id = Some d → ∃ d', ns' !! id = Some d' ∧ lnext d' = lnext d ∧ lprev d' = lprev d) → links ns' prev cur ids.
Proof.
  induction ids as [|id ids IH]; intros prev cur H Hs; [done|]. destruct H as (-> & d & Hd & Hp & Hl). split; [done|].
  destruct (Hs id d) as (d' & Hd' & Hn & Hp'); [set_solver|done|]. exists d'. split; [done|]. split; [congruence|]. rewrite Hn.
  apply IH; [done|]. intros i e Hi. apply Hs. set_solver.
Qed.
Lemma links_node ns ids : ∀ prev cur id, links ns prev cur ids → id ∈ ids → is_Some (ns !! id).
Proof.
  induction ids as [|i ids IH]; intros prev cur id H Hin; [by apply not_elem_of_nil in Hin|]. destruct H as (_ & d & Hd & _ & Hl).
  apply elem_of_cons in Hin as [->|Hin]; [by eexists|by eapply IH].
Qed.
Lemma links_length ns ids prev cur : links ns prev cur ids → NoDup ids → (length ids ≤ base.size ns)%nat.
Proof.
  intros H Hn. rewrite <- (size_dom ns), <- (size_list_to_set (C:=gset nat) ids) by done. apply subseteq_size.
  intros id Hid. apply elem_of_list_to_set in Hid. apply elem_of_dom. by eapply links_node.
Qed.
Lemma links_app ns ids1 : ∀ ids2 prev cur, links ns prev cur (ids1 ++ ids2) →
  ∃ cur', links ns (match last ids1 with Some x => Some x | None => prev end) cur' ids2 ∧ (ids1 = [] → cur' = cur).
Proof.
  induction ids1 as [|id ids1 IH]; intros ids2 prev cur H; [by exists cur|]. destruct H as (_ & d & _ & _ & Hl).
  apply IH in Hl as (cur' & Hl & _). exists cur'. split; [|done]. by rewrite last_cons; destruct (last ids1).
Qed.

(** ** Which definition a name is bound to *)

Section find.
Context `{P : Profile}.
Implicit Types (w : ld) (name : list Z) (ids : list nat).

(** The symbol of the name in an object, when it can be bound to. *)
Definition candidate w name (except : option nat) (needs_def : bool) (id : nat) : option (nat * Sym) :=
  if bool_decide (except = Some id) then None
  else
    d ← nodes w !! id;
    match get_by_name_hashed (E:=ld_error) (mem w) (dsyms d) name (gnu_hash name) with
    | Ok (Some s) => if check_sym s needs_def then Some (id, s) else None
    | _ => None
    end.

Definition bound (x : nat * Sym) : Z := sym_bind (st_info x.2).

(** The first global definition, or else the last unique one, or else what is known before, or
    else the first one, which is weak. *)
Definition pick (ret : option (nat * Sym)) (l : list (nat * Sym)) : option (nat * Sym) :=
  match list_find (λ x, bound x = STB_GLOBAL) l with
  | Some (_, x) => Some x
  | None =>
      match last (filter (λ x, bound x = STB_GNU_UNIQUE) l) with
      | Some x => Some x
      | None => match ret with Some r => Some r | None => hd_error l end
      end
  end.

Definition searchable w name ids : Prop := ∀ id d, id ∈ ids → nodes w !! id = Some d →
  ∃ o, get_by_name_hashed (E:=ld_error) (mem w) (dsyms d) name (gnu_hash name) = Ok o.

Lemma candidate_bound w name except nd id x : candidate w name except nd id = Some x →
  bound x = STB_GLOBAL ∨ bound x = STB_WEAK ∨ bound x = STB_GNU_UNIQUE.
Proof.
  unfold candidate. case_bool_decide; [done|]. destruct (nodes w !! id) as [d|]; [|done]. cbn. repeat case_match; try done.
  intros [= <-]. unfold bound. cbn [snd]. unfold check_sym, check_bind in *.
  repeat match goal with H : _ && _ = true |- _ => apply andb_true_iff in H as [? ?] end.
  repeat match goal with H : _ || _ = true |- _ => apply orb_true_iff in H as [?|?] end;
    repeat match goal with H : (_ =? _) = true |- _ => apply Z.eqb_eq in H end; auto.
Qed.

Lemma pick_global ret x l : bound x = STB_GLOBAL → pick ret (x :: l) = Some x.
Proof. intros H. unfold pick. cbn [list_find]. by rewrite decide_True. Qed.
Lemma pick_unique ret x l : bound x = STB_GNU_UNIQUE → pick ret (x :: l) = pick (Some x) l.
Proof.
  intros H. unfold pick. cbn [list_find]. rewrite decide_False by (rewrite H; done). destruct (list_find _ l) as [[i y]|]; [done|]. cbn [fmap option_fmap option_map].
  rewrite filter_cons, decide_True by done. rewrite last_cons. by destruct (last _).
Qed.
Lemma pick_weak ret x l : bound x = STB_WEAK → pick ret (x :: l) = pick (match ret with Some r => Some r | None => Some x end) l.
Proof.
  intros H. unfold pick. cbn [list_find]. rewrite decide_False by (rewrite H; done). destruct (list_find _ l) as [[i y]|]; [done|]. cbn [fmap option_fmap option_map].
  rewrite filter_cons, decide_False by (rewrite H; done). destruct (last _); [done|]. by destruct ret.
Qed.

Lemma find_loop_run ids : ∀ fuel w name except nd ret prev cur, links (nodes w) prev cur ids → searchable w name ids → (length ids < fuel)%nat →
  find_loop fuel w name (gnu_hash name) except nd ret cur = Ok (pick ret (omap (candidate w name except nd) ids)).
Proof.
  induction ids as [|id ids IH]; intros fuel w name except nd ret prev cur Hl Hs Hf; (destruct fuel as [|fuel]; [cbn in Hf; lia|]).
  { cbn in Hl. subst cur. cbn. by destruct ret. }
  destruct Hl as (-> & d & Hd & _ & Hl). cbn [find_loop length] in *. rewrite Hd. cbn [unwrap mbind res_bind].
  assert (Hs' : searchable w name ids) by (intros i e Hi; apply Hs; set_solver).
  assert (Hgo : ∀ ret, find_loop fuel w name (gnu_hash name) except nd ret (lnext d) = Ok (pick ret (omap (candidate w name except nd) ids))).
  { intros r. eapply IH; [exact Hl|done|lia]. }
  destruct (Hs id d) as [o Ho]; [set_solver|done|]. pose proof (candidate_bound w name except nd id) as Hcb.
  cbn [omap list_omap]. unfold candidate at 1. unfold candidate in Hcb at 1. rewrite Hd in *. cbn [mbind option_bind] in *.
  case_bool_decide; [apply Hgo|]. rewrite Ho in *. cbn [mbind res_bind]. destruct o as [s|]; [|apply Hgo].
  destruct (check_sym s nd); cbn [negb]; [|apply Hgo]. specialize (Hcb (id, s) eq_refl). unfold bound in Hcb. cbn [snd] in Hcb.
  destruct Hcb as [Hb|[Hb|Hb]]; rewrite Hb.
  - rewrite andb_false_r. by rewrite pick_global.
  - rewrite pick_weak by done. destruct ret as [r|]; cbn; apply Hgo.
  - rewrite andb_false_r. rewrite pick_unique by done. apply Hgo.
Qed.

Lemma find_symbol_run w name except needs_def ids : list_ok w ids → searchable w name ids →
  find_symbol w name except needs_def = Ok (pick None (omap (candidate w name except needs_def) ids)).
Proof.
  intros [Hl _ Hn _] Hs. unfold find_symbol, list_fuel. eapply find_loop_run; [exact Hl|done|].
  pose proof (links_length _ _ _ _ Hl Hn). lia.
Qed.

(** A name is bound to the first global definition of it in the order of the list of
    objects; when there is none, to the last unique one, or else to the first weak one. Objects
    without the name, the one that is excepted and definitions of other kinds are passed over. *)
Theorem find_symbol_spec w name except needs_def ids : list_ok w ids → searchable w name ids →
  find_symbol w name except needs_def = Ok (pick None (omap (candidate w name except needs_def) ids)).
Proof. apply find_symbol_run. Qed.
End find.

(** ** Adding and taking objects *)

Section changes.
Context `{P : Profile} (load_address : Z).
Implicit Types (w : ld) (ids : list nat).

Lemma node_inv id w d w' : node id w = (Ok d, w') → nodes w !! id = Some d ∧ w' = w.
Proof. unfold node. rewrite st_get_bind. destruct (nodes w !! id); cbn; intros [= <- <-]; by split. Qed.
Lemma node_run id w d : nodes w !! id = Some d → node id w = (Ok d, w).
Proof. intros H. unfold node. rewrite st_get_bind, H. done. Qed.

Definition only_mem w w' : Prop := ∃ m, w' = set_mem m w.

Lemma keeps_self {A} (c : st ld ld_error A) w : keeps (only_mem w) c → only_mem w (c w).2.
Proof. intros H. apply H. exists (mem w). by destruct w. Qed.
Lemma mem_keeps w f : keeps (E:=ld_error) (only_mem w) (modify (λ x, set_mem (f x) x)).
Proof. intros x [m ->]. by eexists. Qed.
Lemma write_keeps w a v : keeps (only_mem w) (write_word a v).
Proof. apply mem_keeps. Qed.
Lemma node_keeps w id : keeps (only_mem w) (node id).
Proof. apply keeps_bind; [apply keeps_get|intros; apply keeps_lift]. Qed.
Lemma on_memory_keeps w m : keeps (only_mem w) (on_memory m).
Proof. intros x [m0 ->]. unfold on_memory. destruct (m _) as [r y]. by eexists. Qed.
Hint Resolve mem_keeps write_keeps node_keeps on_memory_keeps : h2o_keeps.

Ltac keep := repeat first [apply keeps_ret | apply keeps_lift | apply keeps_get | apply mem_keeps | apply write_keeps | apply node_keeps | apply on_memory_keeps
  | apply keeps_bind; [|intros ?] | case_match].

Lemma relocate_one_keeps w id r : keeps (only_mem w) (relocate_one id r).
Proof. unfold relocate_one. keep. Qed.
Lemma reloc_loop_keeps w entry sz id n : ∀ a, keeps (only_mem w) (reloc_loop entry sz id n a).
Proof.
  induction n as [|n IH]; intros a; cbn [reloc_loop]; [apply keeps_ret|]. apply keeps_bind; [apply keeps_get|intros x].
  apply keeps_bind; [apply relocate_one_keeps|intros []]; [apply keeps_ret|apply IH].
Qed.
Lemma table_keeps w entry sz id a b : keeps (only_mem w) (relocate_table entry sz id a b).
Proof. unfold relocate_table. keep. apply reloc_loop_keeps. Qed.

(** Relocation writes to memory and marks the object. *)
Lemma relocate_dso_frame id w r w' : relocate_dso load_address id w = (Ok r, w') → ∃ d m, nodes w !! id = Some d ∧
  w' = set_nodes (<[id := with_relocated d]> (nodes w)) (set_mem m w).
Proof.
  unfold relocate_dso. intros H. apply st_ok_inv in H as (d & w0 & Hd & H). apply node_inv in Hd as [Hd ->]. exists d.
  destruct (relocated d) eqn:Hr.
  { injection H as _ <-. exists (mem w). split; [done|]. destruct w, d; cbn in *; subst. by rewrite insert_id. }
  apply st_ok_inv in H as ([] & w1 & H1 & H). apply st_ok_inv in H as ([] & w2 & H2 & H).
  apply st_ok_inv in H as ([] & w3 & H3 & H). apply st_ok_inv in H as ([] & w4 & H4 & H).
  assert (K1 : only_mem w w1) by (change w1 with (Ok (A:=()) (E:=ld_error) (), w1).2; rewrite <- H1; apply keeps_self; keep).
  assert (K2 : only_mem w w2) by (change w2 with (Ok (A:=()) (E:=ld_error) (), w2).2; rewrite <- H2; by apply table_keeps).
  assert (K3 : only_mem w w3) by (change w3 with (Ok (A:=()) (E:=ld_error) (), w3).2; rewrite <- H3; by apply table_keeps).
  assert (K4 : only_mem w w4).
  { change w4 with (Ok (A:=()) (E:=ld_error) (), w4).2. rewrite <- H4.
    destruct (_ =? DT_RELA); [by apply table_keeps|]. destruct (_ =? DT_REL); [by apply table_keeps|done]. }
  apply st_ok_inv in H as (d' & w5 & Hd' & H). apply node_inv in Hd' as [Hd' ->]. destruct K4 as [m ->]. cbn in Hd'. rewrite Hd in Hd'.
  injection Hd' as <-. injection H as _ <-. by exists m.
Qed.

Lemma links_snoc ns ns' id dn t ids : ∀ prev cur, links ns prev cur ids → NoDup ids → last ids = Some t →
  ns' !! id = Some dn → lprev dn = Some t → lnext dn = None →
  (∀ i d, i ∈ ids → ns !! i = Some d → ∃ d', ns' !! i = Some d' ∧ lprev d' = lprev d ∧ lnext d' = if bool_decide (i = t) then Some id else lnext d) →
  links ns' prev cur (ids ++ [id]).
Proof.
  induction ids as [|i ids IH]; intros prev cur H Hn Ht Hdn Hp Hx Hs; [done|]. destruct H as (-> & d & Hd & Hpd & Hl). apply NoDup_cons in Hn as [Hni Hn].
  destruct (Hs i d) as (d' & Hd' & Hp' & Hx'); [set_solver|done|]. split; [done|]. exists d'. split; [done|]. split; [congruence|].
  rewrite last_cons in Ht. destruct (last ids) as [t'|] eqn:Hlast.
  - injection Ht as ->. rewrite bool_decide_false in Hx' by (intros ->; apply Hni; by apply last_Some_elem_of). rewrite Hx'.
    apply IH; try done. intros j e Hj. apply Hs. set_solver.
  - injection Ht as ->. apply last_None in Hlast as ->. rewrite bool_decide_true in Hx' by done. rewrite Hx'. split; [done|]. by exists dn.
Qed.

Lemma push_links w d ids : list_ok w ids → let id := next_node w in
  ∃ w', (_ ← modify (add_node (with_prev (with_next d None) (tail w)));
         match tail w with
         | None => modify (set_ends (Some id) (Some id))
         | Some t => e ← node t; _ ← set_node t (with_next e (Some id)); modify (set_ends (head w) (Some id))
         end) w = (Ok () : res ld_error (), w') ∧ list_ok w' (ids ++ [id]) ∧ id ∉ ids.
Proof.
  intros [Hl Ht Hn Hnew] id. assert (Hid : id ∉ ids).
  { intros Hin. pose proof (Hnew id (links_node _ _ _ _ _ Hl Hin)). unfold id in *. lia. }
  assert (Hnd : NoDup (ids ++ [id])).
  { apply NoDup_app. split; [done|]. split; [|apply NoDup_singleton]. intros x Hx Hx'. apply list_elem_of_singleton in Hx' as ->. done. }
  rewrite st_modify_bind. rewrite Ht. destruct (last ids) as [t|] eqn:Hlast.
  - assert (Htin : t ∈ ids) by (by apply last_Some_elem_of). destruct (links_node _ _ _ _ _ Hl Htin) as [e He].
    assert (Hne : t ≠ id) by (intros ->; done).
    rewrite (st_bind_ok _ _ _ e (add_node (with_prev (with_next d None) (Some t)) w)) by (apply node_run; cbn; by rewrite lookup_insert_ne).
    eexists. split; [reflexivity|]. split; [|done]. split; cbn; [|by rewrite last_snoc|done|].
    + eapply (links_snoc (nodes w) _ id _ t); [exact Hl|done|done|rewrite lookup_insert_ne by done; apply lookup_insert_eq|done|done|].
      intros i x Hi Hx. destruct (decide (i = t)) as [->|Hit].
      * rewrite bool_decide_true by done. rewrite lookup_insert_eq. rewrite He in Hx. injection Hx as <-. by eexists.
      * rewrite bool_decide_false by done. rewrite !lookup_insert_ne by (done || (intros <-; done)). by exists x.
    + intros i [x Hx]. destruct (decide (i = t)) as [->|Hit]; [pose proof (Hnew t ltac:(by eexists)); lia|]. rewrite lookup_insert_ne in Hx by done.
      destruct (decide (i = id)) as [->|Hii]; [unfold id; lia|]. rewrite lookup_insert_ne in Hx by done. pose proof (Hnew i ltac:(by eexists)). lia.
  - apply last_None in Hlast as ->. eexists. split; [reflexivity|]. split; [|done]. split; cbn; [|done|done|].
    + split; [done|]. eexists. split; [apply lookup_insert_eq|done].
    + intros i [x Hx]. destruct (decide (i = id)) as [->|Hii]; [unfold id; lia|]. rewrite lookup_insert_ne in Hx by done. pose proof (Hnew i ltac:(by eexists)). lia.
Qed.

Lemma list_ok_relocated w ids id d m p : list_ok w ids → nodes w !! id = Some d →
  list_ok (set_prog p (set_nodes (<[id := with_relocated d]> (nodes w)) (set_mem m w))) ids.
Proof.
  intros [Hl Ht Hn Hnew] Hd. split; cbn; [|done|done|].
  - eapply links_same; [exact Hl|]. intros i x Hi Hx. destruct (decide (i = id)) as [->|Hne].
    + rewrite lookup_insert_eq. eexists. split; [done|]. rewrite Hd in Hx. by injection Hx as <-.
    + rewrite lookup_insert_ne by done. by exists x.
  - intros i Hi. apply Hnew. destruct (decide (i = id)) as [->|Hne]; [by eexists|]. by rewrite lookup_insert_ne in Hi.
Qed.

Lemma dso_push_ok w d is_prog ids id w' : list_ok w ids → push load_address d is_prog w = (Ok id, w') →
  id = next_node w ∧ id ∉ ids ∧ list_ok w' (ids ++ [id]).
Proof.
  intros Hok H. unfold push in H. rewrite st_get_bind in H. destruct (push_links w d ids Hok) as (w2 & H2 & Hok2 & Hid).
  rewrite st_modify_bind in H. apply st_ok_inv in H as ([] & w2' & H2' & H).
  assert (Heq : (Ok () : res ld_error (), w2') = (Ok (), w2)) by (rewrite <- H2'; exact H2). injection Heq as ->.
  apply st_ok_inv in H as ([] & w3 & H3 & H). apply relocate_dso_frame in H3 as (d3 & m & Hd3 & ->).
  apply st_ok_inv in H as ([] & w4 & H4 & H). injection H as <- <-. split; [done|]. split; [done|].
  destruct is_prog; injection H4 as <-.
  - by apply list_ok_relocated.
  - pose proof (list_ok_relocated w2 _ _ d3 m (prog w2) Hok2 Hd3) as Hx. by destruct w2.
Qed.

(** The list made at the start. *)
Lemma new_static_keeps (chain : nat) a name w d w' : new_static chain a name w = (Ok d, w') → w' = w ∧ lprev d = None ∧ lnext d = None.
Proof.
  unfold new_static. rewrite st_get_bind. cbv zeta. intros H. do 8 (apply st_lift_inv in H as (? & _ & H)). injection H as <- <-. done.
Qed.
Lemma list_new_ok h t w w' : nodes w = ∅ → lprev h = None → lnext t = None → list_new load_address h t w = (Ok (), w') → list_ok w' [next_node w; S (next_node w)].
Proof.
  intros Hn Hh Ht H. unfold list_new in H. rewrite st_get_bind, !st_modify_bind in H. set (w1 := set_ends _ _ _) in H. set (i := next_node w) in *.
  assert (Hok1 : list_ok w1 [i; S i]).
  { unfold w1, add_node. cbn [next_node mem nodes]. fold i. rewrite Hn. split; cbn -[lookup insert].
    - split; [done|]. eexists. rewrite lookup_insert_ne, lookup_insert_eq by lia. split; [done|]. cbn -[lookup insert].
      split; [done|]. split; [done|]. exists (with_prev t (Some i)). by rewrite lookup_insert_eq.
    - done.
    - apply NoDup_cons. split; [|apply NoDup_singleton]. rewrite list_elem_of_singleton. lia.
    - intros j [d Hd]. apply lookup_insert_Some in Hd as [[<- _]|[_ Hd]]; [lia|]. apply lookup_insert_Some in Hd as [[<- _]|[_ Hd]]; [lia|done]. }
  apply st_ok_inv in H as ([] & w2 & H2 & H). apply relocate_dso_frame in H2 as (d2 & m2 & Hd2 & ->).
  apply relocate_dso_frame in H as (d3 & m3 & Hd3 & ->).
  pose proof (list_ok_relocated w1 _ _ d2 m2 (prog w1) Hok1 Hd2) as Hx.
  pose proof (list_ok_relocated _ _ _ d3 m3 (prog w1) Hx Hd3) as Hy. by destruct w1.
Qed.
Lemma init_list_ok chain vdso w w' : nodes w = ∅ → ld_init load_address chain vdso w = (Ok (), w') → list_ok w' [next_node w; S (next_node w)].
Proof.
  intros Hn H. unfold ld_init in H. apply st_ok_inv in H as (l & w1 & H1 & H). apply new_static_keeps in H1 as (-> & Hl & _).
  apply st_ok_inv in H as (v & w1 & H1 & H). apply new_static_keeps in H1 as (-> & _ & Hv).
  apply st_ok_inv in H as ([] & w2 & H2 & H). apply list_new_ok in H2 as [H1 H2 H3 H4]; [|done..]. injection H as <-. by split.
Qed.

(** The links around an object that is taken out. *)
Lemma links_remove ns ns' id d l2 l1 : ∀ prev cur, links ns prev cur (l1 ++ id :: l2) → ns !! id = Some d → NoDup (l1 ++ id :: l2) →
  (∀ i x, i ∈ l1 → ns !! i = Some x → ∃ x', ns' !! i = Some x' ∧ lprev x' = lprev x ∧ lnext x' = if bool_decide (last l1 = Some i) then lnext d else lnext x) →
  (∀ i x, i ∈ l2 → ns !! i = Some x → ∃ x', ns' !! i = Some x' ∧ lnext x' = lnext x ∧ lprev x' = if bool_decide (hd_error l2 = Some i) then lprev d else lprev x) →
  links ns' prev (match l1 with [] => lnext d | _ => cur end) (l1 ++ l2).
Proof.
  induction l1 as [|i l1 IH]; intros prev cur H Hd Hn H1 H2; cbn [app] in *.
  - destruct H as (-> & d0 & Hd0 & Hp & Hl). rewrite Hd in Hd0. injection Hd0 as <-. destruct l2 as [|j l2]; [done|].
    destruct Hl as (-> & e & He & _ & Hl). split; [done|]. destruct (H2 j e) as (e' & He' & Hx & Hpe); [set_solver|done|].
    exists e'. split; [done|]. rewrite bool_decide_true in Hpe by done. split; [congruence|]. rewrite Hx. eapply links_same; [exact Hl|].
    intros k x Hk Hx0. destruct (H2 k x) as (x' & Hx' & Hxn & Hxp); [set_solver|done|]. exists x'. split; [done|]. split; [done|].
    rewrite bool_decide_false in Hxp; [done|]. cbn. intros [= ->]. apply NoDup_cons in Hn as [_ Hn]. by apply NoDup_cons in Hn as [? _].
  - destruct H as (-> & x & Hx & Hp & Hl). split; [done|]. destruct (H1 i x) as (x' & Hx' & Hpx & Hnx); [set_solver|done|].
    exists x'. split; [done|]. split; [congruence|]. apply NoDup_cons in Hn as [Hni Hn]. rewrite last_cons in Hnx.
    assert (IH' := IH (Some i) (lnext x) Hl Hd Hn). rewrite Hnx. destruct l1 as [|j l1].
    + cbn in Hnx |- *. rewrite bool_decide_true by done. apply IH'; [intros ? ? Hin; by apply not_elem_of_nil in Hin|done].
    + destruct (last (j :: l1)) as [t|] eqn:Hlast; [|by apply last_None in Hlast].
      rewrite bool_decide_false by (intros [= ->]; apply Hni, elem_of_app; left; by apply last_Some_elem_of).
      apply IH'; [|done]. intros k y Hk Hy. destruct (H1 k y) as (y' & Hy' & Hpy & Hny); [set_solver|done|]. exists y'. split; [done|]. split; [done|].
      by rewrite last_cons, Hlast in Hny.
Qed.

Lemma links_at ns id l2 l1 : ∀ prev cur, links ns prev cur (l1 ++ id :: l2) → ∃ d, ns !! id = Some d ∧
  lprev d = match last l1 with Some x => Some x | None => prev end ∧ lnext d = hd_error l2.
Proof.
  intros prev cur H. apply links_app in H as (cur' & (-> & d & Hd & Hp & Hl) & _). exists d. split; [done|]. split; [done|].
  destruct l2; [done|]. by destruct Hl as (-> & _).
Qed.

Lemma pop_walk w id ids : ∀ fuel prev cur, links (nodes w) prev cur ids → (length ids < fuel)%nat → id ∉ ids → pop_loop fuel id cur w = (Ok None, w).
Proof.
  induction ids as [|i ids IH]; intros fuel prev cur H Hf Hn; (destruct fuel as [|fuel]; [cbn in Hf; lia|]); cbn [pop_loop].
  { cbn in H. by subst. }
  destruct H as (-> & d & Hd & _ & Hl). rewrite (st_bind_ok _ _ _ d w) by (by apply node_run). rewrite bool_decide_false by set_solver.
  eapply IH; [exact Hl|cbn in Hf; lia|set_solver].
Qed.
Lemma pop_walk_to w id l2 l1 : ∀ fuel prev cur, links (nodes w) prev cur (l1 ++ id :: l2) → (length l1 < fuel)%nat → id ∉ l1 →
  ∃ fuel', pop_loop fuel id cur w = pop_loop (S fuel') id (Some id) w.
Proof.
  induction l1 as [|i l1 IH]; intros fuel prev cur H Hf Hn; (destruct fuel as [|fuel]; [cbn in Hf; lia|]).
  { cbn in H. destruct H as (-> & _). by exists fuel. }
  destruct H as (-> & d & Hd & _ & Hl). cbn [pop_loop]. rewrite (st_bind_ok _ _ _ d w) by (by apply node_run). rewrite bool_decide_false by set_solver.
  eapply IH; [exact Hl|cbn in Hf; lia|set_solver].
Qed.

(** The nodes after an object is taken out. *)
Definition upd (f : Dso → Dso) (o : option nat) (ns : gmap nat Dso) : gmap nat Dso :=
  match o with Some p => match ns !! p with Some e => <[p := f e]> ns | None => ns end | None => ns end.
Definition relink (ns : gmap nat Dso) (id : nat) (d : Dso) : gmap nat Dso :=
  delete id (upd (λ e, with_prev e (lprev d)) (lnext d) (upd (λ e, with_next e (lnext d)) (lprev d) ns)).

Lemma upd_lookup f o ns i : upd f o ns !! i = if bool_decide (o = Some i) then f <$> ns !! i else ns !! i.
Proof.
  unfold upd. destruct o as [p|]; [|by rewrite bool_decide_false]. destruct (decide (p = i)) as [->|Hne].
  - rewrite bool_decide_true by done. destruct (ns !! i) eqn:E; [apply lookup_insert_eq|]. by rewrite E.
  - rewrite bool_decide_false by congruence. destruct (ns !! p); [by rewrite lookup_insert_ne|done].
Qed.
Lemma upd_run f o w (g : option nat → ld → ld) : (∀ p, o = Some p → is_Some (nodes w !! p)) →
  (match o with Some p => e ← node p; set_node p (f e) | None => modify (g o) end) w =
  (Ok () : res ld_error (), match o with Some _ => set_nodes (upd f o (nodes w)) w | None => g o w end).
Proof.
  intros Ho. destruct o as [p|]; [|done]. destruct (Ho p eq_refl) as [e He]. rewrite (st_bind_ok _ _ _ e w) by (by apply node_run).
  unfold upd. by rewrite He.
Qed.

Lemma unlink_run fuel w id d : nodes w !! id = Some d →
  (∀ p, lprev d = Some p → is_Some (nodes w !! p)) → (∀ n, lnext d = Some n → is_Some (nodes w !! n)) →
  pop_loop (S fuel) id (Some id) w = (Ok (Some (with_prev (with_next d None) None)),
    set_ends (match lprev d with None => lnext d | _ => head w end) (match lnext d with None => lprev d | _ => tail w end)
      (set_nodes (relink (nodes w) id d) w)).
Proof.
  intros Hd Hp Hn. cbn [pop_loop]. rewrite (st_bind_ok _ _ _ d w) by (by apply node_run). rewrite bool_decide_true by done.
  erewrite st_bind_ok by (apply (upd_run (λ e, with_next e (lnext d)) (lprev d) w (λ _ w, set_ends (lnext d) (tail w) w)); exact Hp).
  erewrite st_bind_ok.
  2: { apply (upd_run (λ e, with_prev e (lprev d)) (lnext d) _ (λ _ w, set_ends (head w) (lprev d) w)). intros n Hx. destruct (Hn n Hx) as [x Hx'].
       assert (Hu : is_Some (upd (λ e, with_next e (lnext d)) (lprev d) (nodes w) !! n)).
       { rewrite upd_lookup, Hx'. case_bool_decide; by eexists. }
       by destruct (lprev d). }
  unfold relink. destruct (lprev d) as [p|], (lnext d) as [n|]; destruct w; done.
Qed.

Lemma pop_ok w id l1 l2 statics : list_ok w (l1 ++ id :: l2) → id ∉ statics →
  ∃ d w', nodes w !! id = Some d ∧ pop statics id w = (Ok (Some (with_prev (with_next d None) None)), w') ∧
    list_ok w' (l1 ++ l2) ∧ nodes w' !! id = None.
Proof.
  intros [Hl Ht Hn Hnew] Hst. destruct (links_at _ _ _ _ _ _ Hl) as (d & Hd & Hp & Hx). exists d.
  assert (Hn1 : id ∉ l1 ∧ id ∉ l2) by (apply NoDup_app in Hn as (_ & Hdis & Hn2); apply NoDup_cons in Hn2 as [? _]; split; [|done]; intros Hin; apply (Hdis id Hin); set_solver).
  assert (Hin : ∀ i, i ∈ l1 ++ id :: l2 → is_Some (nodes w !! i)) by (intros i Hi; by eapply links_node).
  assert (Hpl : lprev d = last l1) by (rewrite Hp; by destruct (last l1)).
  unfold pop. rewrite bool_decide_false by done. rewrite st_get_bind.
  destruct (pop_walk_to w id l2 l1 (list_fuel w) None (head w) Hl) as [fuel ->]; [|tauto|].
  { pose proof (links_length _ _ _ _ Hl Hn) as Hlen. rewrite length_app in Hlen. unfold list_fuel. lia. }
  rewrite (unlink_run fuel w id d Hd).
  2: { intros p Hpp. apply Hin. rewrite Hpl in Hpp. apply last_Some_elem_of in Hpp. set_solver. }
  2: { intros n Hnn. apply Hin. rewrite Hx in Hnn. destruct l2; [done|]. injection Hnn as ->. set_solver. }
  eexists. split; [done|]. split; [reflexivity|]. split; [|cbn; apply lookup_delete_eq].
  assert (Hdisj : ∀ i, i ∈ l1 → i ∈ l2 → False) by (intros i H1 H2; apply NoDup_app in Hn as (_ & Hdis & _); apply (Hdis i H1); set_solver).
  assert (Hlk : ∀ i x, i ≠ id → nodes w !! i = Some x → relink (nodes w) id d !! i =
    Some (if bool_decide (lnext d = Some i) then with_prev (if bool_decide (lprev d = Some i) then with_next x (lnext d) else x) (lprev d)
          else if bool_decide (lprev d = Some i) then with_next x (lnext d) else x)).
  { intros i x Hi Hix. unfold relink. rewrite lookup_delete_ne by done. rewrite !upd_lookup, Hix. by repeat case_bool_decide. }
  split; cbn.
  - rewrite Hpl. replace (match last l1 with Some _ => head w | None => lnext d end) with (match l1 with [] => lnext d | _ => head w end)
      by (destruct l1 as [|i l1']; [done|]; rewrite last_cons; by destruct (last l1')).
    eapply links_remove; [exact Hl|exact Hd|done| |].
    + intros i x Hi Hix. assert (i ≠ id) by (intros ->; tauto). rewrite (Hlk i x) by done. rewrite (bool_decide_false (lnext d = _)).
      * eexists. split; [done|]. rewrite Hpl. by case_bool_decide.
      * rewrite Hx. intros Hh. destruct l2; [done|]. injection Hh as ->. eapply Hdisj; [exact Hi|set_solver].
    + intros i x Hi Hix. assert (i ≠ id) by (intros ->; tauto). rewrite (Hlk i x) by done. rewrite (bool_decide_false (lprev d = _)).
      * eexists. split; [done|]. rewrite Hx. by case_bool_decide.
      * rewrite Hpl. intros Hh. apply last_Some_elem_of in Hh. by eapply Hdisj.
  - rewrite Hx, Hpl, Ht. destruct l2 as [|j l2]; cbn [hd_error]; [by rewrite app_nil_r|].
    rewrite !last_app, (last_cons id). destruct (last (j :: l2)) eqn:E; [done|]. by apply last_None in E.
  - apply NoDup_app in Hn as (? & Hdis & Hn2). apply NoDup_cons in Hn2 as [_ ?]. apply NoDup_app. split; [done|]. split; [|done]. intros i Hi Hi2. by eapply Hdisj.
  - intros i [x Hi]. apply Hnew. unfold relink in Hi. apply lookup_delete_Some in Hi as [Hne Hi]. rewrite !upd_lookup in Hi.
    destruct (nodes w !! i) eqn:E; [by eexists|]. by repeat case_bool_decide.
Qed.

(** The links of the objects are a list without repetitions that can be walked in both
    directions, and they remain one: an object that is added comes last, one that is taken out
    is missing and nothing else is, the linker and the object of the kernel are never taken out,
    and asking for one that is not there changes nothing. *)
Theorem dso_list_refines w ids : list_ok w ids →
  (∀ d is_prog id w', push load_address d is_prog w = (Ok id, w') → id ∉ ids ∧ list_ok w' (ids ++ [id])) ∧
  (∀ statics id, id ∉ statics → id ∈ ids → ∃ d w' l1 l2, ids = l1 ++ id :: l2 ∧ pop statics id w = (Ok (Some d), w') ∧ list_ok w' (l1 ++ l2)) ∧
  (∀ statics id, id ∈ statics ∨ id ∉ ids → pop statics id w = (Ok None, w)).
Proof.
  intros Hok. split; [|split].
  - intros d is_prog id w' H. by apply (dso_push_ok w d is_prog ids) in H as (_ & ? & ?).
  - intros statics id Hs Hin. apply list_elem_of_split in Hin as (l1 & l2 & ->). destruct (pop_ok w id l1 l2 statics Hok Hs) as (d & w' & _ & Hp & Hl & _).
    by exists (with_prev (with_next d None) None), w', l1, l2.
  - intros statics id Hid. unfold pop. case_bool_decide as Hb; [done|]. rewrite st_get_bind. destruct Hok as [Hl Ht Hn Hnew].
    eapply pop_walk; [exact Hl| |tauto]. pose proof (links_length _ _ _ _ Hl Hn). unfold list_fuel. lia.
Qed.
End changes.

(** ** The functions of the objects are called in order *)

Section order.
Context `{P : Profile}.
Implicit Types (w : ld) (d : Dso) (ids : list nat).

Definition at_base d (offset : Z) : Z := match dbase d with DynBase x => x + offset | ExecBase _ => offset end.

(** The words the dynamic section points to are in the address space. *)
Definition addressable d : Prop := ∀ tag v, dyn_val d tag = Some v → 0 ≤ at_base d v < 2 ^ 64.

Definition entry_fns (m : memory) d tag : list Z := match dyn_val d tag with Some o => [read_u64 m (at_base d o)] | None => [] end.
Definition array_fns (m : memory) d tag_offset tag_size : list Z :=
  match dyn_val d tag_offset, dyn_val d tag_size with Some o, Some n => u64s_at m (at_base d o) (n / 8) | _, _ => [] end.

Definition inits m d : list Z := entry_fns m d DT_INIT ++ array_fns m d DT_INIT_ARRAY DT_INIT_ARRAYSZ.
Definition finis m d : list Z := reverse (array_fns m d DT_FINI_ARRAY DT_FINI_ARRAYSZ) ++ entry_fns m d DT_FINI.

Lemma dyn_ptr_run d tag : addressable d → dyn_ptr d tag = Ok (at_base d <$> dyn_val d tag).
Proof.
  intros Ha. unfold dyn_ptr. destruct (dyn_val d tag) as [v|] eqn:Hv; [|done]. specialize (Ha tag v Hv). unfold base_ptr, at_base in *.
  destruct (dbase d); [|done]. by rewrite uadd_ok by lia.
Qed.
Lemma dyn_slice_run sz d t1 t2 : addressable d →
  dyn_slice sz d t1 t2 = Ok (match dyn_val d t1, dyn_val d t2 with Some o, Some n => Some (at_base d o, n / sz) | _, _ => None end).
Proof. intros Ha. unfold dyn_slice. rewrite dyn_ptr_run by done. by destruct (dyn_val d t1), (dyn_val d t2). Qed.
Lemma fn_array_run d t1 t2 w : addressable d → fn_array d t1 t2 w = (Ok (array_fns (mem w) d t1 t2), w).
Proof.
  intros Ha. unfold fn_array, array_fns. rewrite dyn_slice_run, (st_lift_ok _ _ _ _ eq_refl), st_get_bind by done.
  by destruct (dyn_val d t1), (dyn_val d t2).
Qed.
Lemma fn_entry_run d tag w : addressable d → fn_entry d tag w = (Ok (entry_fns (mem w) d tag), w).
Proof.
  intros Ha. unfold fn_entry, entry_fns. rewrite dyn_ptr_run, (st_lift_ok _ _ _ _ eq_refl), st_get_bind by done. by destruct (dyn_val d tag).
Qed.

(** The state after an object was started. *)
Definition started (id : nat) d w : ld :=
  set_fini (Some id) (set_nodes (<[id := with_inited (with_fnext d (fini w))]> (nodes w)) (add_calls (inits (mem w) d) w)).

Lemma init_one_run id d w : nodes w !! id = Some d → addressable d → inited d = false → init_one id w = (Ok (), started id d w).
Proof.
  intros Hd Ha Hi. unfold init_one. rewrite (st_bind_ok _ _ _ d w) by (by apply node_run). rewrite Hi.
  rewrite (st_bind_ok _ _ _ _ _ (fn_entry_run d DT_INIT w Ha)). unfold call. rewrite st_modify_bind.
  rewrite (st_bind_ok _ _ _ _ _ (fn_array_run d DT_INIT_ARRAY DT_INIT_ARRAYSZ _ Ha)), st_modify_bind.
  erewrite st_bind_ok.
  2: { unfold push_fini. rewrite st_get_bind. erewrite st_bind_ok by (apply node_run; exact Hd). reflexivity. }
  cbn. erewrite st_bind_ok by (apply node_run; cbn; apply lookup_insert_eq). unfold set_node, modify, started, set_nodes, set_fini, add_calls. cbn.
  rewrite insert_insert_eq. unfold inits. by rewrite app_assoc.
Qed.

Fixpoint fini_links (ns : gmap nat Dso) (cur : option nat) ids : Prop :=
  match ids with
  | [] => cur = None
  | id :: ids => cur = Some id ∧ ∃ d, ns !! id = Some d ∧ fini_links ns (fnext d) ids
  end.

(** What a node keeps when objects are started. *)
Record kept (d d' : Dso) : Prop := {
  k_base : dbase d' = dbase d;
  k_dyn : dynamic d' = dynamic d;
  k_next : lnext d' = lnext d;
  k_prev : lprev d' = lprev d;
  k_fini : finied d' = finied d;
}.

Definition fns_of (f : memory → Dso → list Z) w ids : list Z :=
  concat (map (λ id, match nodes w !! id with Some d => f (mem w) d | None => [] end) ids).

Lemma kept_fns d d' m : kept d d' → inits m d' = inits m d ∧ finis m d' = finis m d ∧ (addressable d → addressable d').
Proof.
  intros [Hb Hd _ _ _]. unfold inits, finis, entry_fns, array_fns, addressable, at_base, dyn_val. rewrite Hb, Hd. done.
Qed.
Lemma fns_of_same f w w' ids : mem w' = mem w → (∀ id d, id ∈ ids → nodes w !! id = Some d → ∃ d', nodes w' !! id = Some d' ∧ f (mem w) d' = f (mem w) d) →
  (∀ id, id ∈ ids → is_Some (nodes w !! id)) → fns_of f w' ids = fns_of f w ids.
Proof.
  intros Hm Hs Hin. unfold fns_of. f_equal. apply map_ext_in. intros id Hid. apply list_elem_of_In in Hid. destruct (Hin id Hid) as [d Hd].
  destruct (Hs id d Hid Hd) as (d' & -> & Hf). by rewrite Hd, Hm, Hf.
Qed.
Lemma fini_links_same ns ns' ids : ∀ cur, fini_links ns cur ids →
  (∀ id d, id ∈ ids → ns !! id = Some d → ∃ d', ns' !! id = Some d' ∧ fnext d' = fnext d) → fini_links ns' cur ids.
Proof.
  induction ids as [|id ids IH]; intros cur H Hs; [done|]. destruct H as (-> & d & Hd & Hl). split; [done|].
  destruct (Hs id d) as (d' & Hd' & Hf); [set_solver|done|]. exists d'. split; [done|]. rewrite Hf. apply IH; [done|]. intros i e Hi. apply Hs. set_solver.
Qed.

Lemma fini_links_node ns ids : ∀ cur id, fini_links ns cur ids → id ∈ ids → is_Some (ns !! id).
Proof.
  induction ids as [|i ids IH]; intros cur id Hl Hid; [by apply not_elem_of_nil in Hid|].
  destruct Hl as (_ & d & Hd & Hl). apply elem_of_cons in Hid as [->|Hid]; [by exists d|by eapply IH].
Qed.

Definition ready w ids : Prop := ∀ id d, id ∈ ids → nodes w !! id = Some d → addressable d ∧ inited d = false.

Record after_init w w' (rest done : list nat) : Prop := {
  ai_mem : mem w' = mem w;
  ai_calls : calls w' = calls w ++ fns_of inits w rest;
  ai_fini : fini_links (nodes w') (fini w') (reverse rest ++ done);
  ai_dom : dom (nodes w') = dom (nodes w);
  ai_nodes id d : nodes w !! id = Some d → ∃ d', nodes w' !! id = Some d' ∧ kept d d' ∧ inited d' = inited d || bool_decide (id ∈ rest);
  ai_head : head w' = head w ∧ prog w' = prog w ∧ preinit w' = preinit w;
}.

Lemma started_node id d w i e : nodes w !! id = Some d → nodes w !! i = Some e → ∃ e', nodes (started id d w) !! i = Some e' ∧ kept e e' ∧
  (i ≠ id → e' = e) ∧ (i = id → fnext e' = fini w ∧ inited e' = true).
Proof.
  intros Hd He. unfold started. cbn. destruct (decide (i = id)) as [->|Hne].
  - rewrite Hd in He. injection He as <-. rewrite lookup_insert_eq. eexists. split; [done|]. by repeat split.
  - rewrite lookup_insert_ne by done. exists e. split; [done|]. split; [by split|]. split; [done|]. by intros ->.
Qed.

Lemma init_loop_run rest : ∀ fuel w prev cur done, links (nodes w) prev cur rest → NoDup rest → ready w rest →
  fini_links (nodes w) (fini w) done → (∀ i, i ∈ done → i ∉ rest) → (length rest < fuel)%nat →
  ∃ w', init_loop fuel cur w = (Ok (), w') ∧ after_init w w' rest done.
Proof.
  induction rest as [|id rest IH]; intros fuel w prev cur done Hl Hn Hr Hf Hdis Hfu; (destruct fuel as [|fuel]; [cbn in Hfu; lia|]); cbn [init_loop].
  { cbn in Hl. subst cur. exists w. split; [done|]. split; [done|cbn; by rewrite app_nil_r|done|done| |done].
    intros i d Hd. exists d. split; [done|]. split; [done|]. rewrite bool_decide_false by set_solver. by rewrite orb_false_r. }
  destruct Hl as (-> & d & Hd & Hp & Hl). apply NoDup_cons in Hn as [Hni Hn]. destruct (Hr id d) as [Ha Hi]; [set_solver|done|].
  erewrite st_bind_ok by (by apply init_one_run). destruct (started_node id d w id d Hd Hd) as (d1 & Hd1 & Hk1 & _ & Hf1). destruct (Hf1 eq_refl) as [Hfn Hin].
  erewrite st_bind_ok by (apply node_run; exact Hd1). set (w1 := started id d w) in *.
  assert (Hoth : ∀ i e, i ≠ id → nodes w !! i = Some e → nodes w1 !! i = Some e).
  { intros i e Hne He. destruct (started_node id d w i e Hd He) as (e' & He' & _ & Heq & _). by rewrite (Heq Hne) in He'. }
  rewrite (k_next _ _ Hk1).
  assert (Hne : ∀ i, i ∈ rest → i ≠ id) by (intros i Hirest ->; done).
  assert (Hnode : ∀ i e, nodes w !! i = Some e → nodes w1 !! i = Some (if bool_decide (i = id) then d1 else e)).
  { intros i e He. case_bool_decide as Hb; [by subst|]. by apply Hoth. }
  destruct (IH fuel w1 (Some id) (lnext d) (id :: done)) as (w' & Hrun & [A1 A2 A3 A4 A5 A6]).
  - eapply links_same; [exact Hl|]. intros i e Hi' He. exists e. split; [by apply Hoth; [apply Hne|]|done].
  - done.
  - intros i e Hi' He. apply (Hr i e); [set_solver|]. destruct (links_node _ _ _ _ i Hl Hi') as [e0 He0].
    rewrite (Hoth i e0 (Hne i Hi') He0) in He. by injection He as <-.
  - split; [done|]. exists d1. split; [done|]. rewrite Hfn. eapply fini_links_same; [exact Hf|]. intros i e Hi' He. exists e. split; [|done].
    apply Hoth; [|done]. intros ->. apply (Hdis id Hi'). set_solver.
  - intros i Hi'. apply elem_of_cons in Hi' as [->|Hi']; [done|]. specialize (Hdis i Hi'). set_solver.
  - cbn in Hfu. lia.
  - exists w'. split; [done|]. split.
    + done.
    + rewrite A2. unfold fns_of. cbn [map concat]. rewrite Hd. change (calls w1) with (calls w ++ inits (mem w) d). rewrite <- app_assoc. do 2 f_equal.
      apply (fns_of_same inits w w1); [done| |intros i Hi'; by eapply links_node].
      intros i e Hi' He. exists e. split; [by apply Hoth; [apply Hne|]|done].
    + rewrite reverse_cons, <- app_assoc. exact A3.
    + rewrite A4. unfold w1, started. cbn. apply dom_insert_lookup_L. by eexists.
    + intros i e He. destruct (A5 i _ (Hnode i e He)) as (e' & He' & Hke & Hie). exists e'. split; [done|].
      case_bool_decide as Hb.
      * subst i. rewrite Hd in He. injection He as <-. split; [destruct Hk1, Hke; split; congruence|]. rewrite Hie, Hin. cbn.
        rewrite bool_decide_true by set_solver. by rewrite orb_true_r.
      * split; [done|]. rewrite Hie. f_equal. apply bool_decide_ext. set_solver.
    + done.
Qed.

Definition ended (id : nat) d w : ld := set_nodes (<[id := with_finied d]> (nodes w)) (add_calls (finis (mem w) d) w).

Lemma fini_one_run id d w : nodes w !! id = Some d → addressable d → inited d = true → finied d = false → fini_one id w = (Ok (), ended id d w).
Proof.
  intros Hd Ha Hi Hf. unfold fini_one. rewrite (st_bind_ok _ _ _ d w) by (by apply node_run). rewrite Hi, Hf. cbn [andb negb].
  rewrite (st_bind_ok _ _ _ _ _ (fn_array_run d DT_FINI_ARRAY DT_FINI_ARRAYSZ w Ha)). unfold call. rewrite st_modify_bind.
  rewrite (st_bind_ok _ _ _ _ _ (fn_entry_run d DT_FINI _ Ha)), st_modify_bind.
  unfold set_node, modify, ended, set_nodes, add_calls. cbn. unfold finis. by rewrite app_assoc.
Qed.

(** The chain of the objects to end, all of which have ended. *)
Fixpoint ended_links (ns : gmap nat Dso) (cur : option nat) ids : Prop :=
  match ids with
  | [] => cur = None
  | id :: ids => cur = Some id ∧ ∃ d, ns !! id = Some d ∧ finied d = true ∧ ended_links ns (fnext d) ids
  end.

Definition startable w ids : Prop := ∀ id d, id ∈ ids → nodes w !! id = Some d → addressable d ∧ inited d = true ∧ finied d = false.

Lemma fini_loop_run l : ∀ fuel w cur, fini_links (nodes w) cur l → NoDup l → startable w l → (length l < fuel)%nat →
  ∃ w', fini_loop fuel cur w = (Ok (), w') ∧ calls w' = calls w ++ fns_of finis w l ∧ fini w' = fini w ∧ dom (nodes w') = dom (nodes w) ∧
    (∀ i, i ∉ l → nodes w' !! i = nodes w !! i) ∧ ended_links (nodes w') cur l.
Proof.
  induction l as [|id l IH]; intros fuel w cur Hl Hn Hs Hf; (destruct fuel as [|fuel]; [cbn in Hf; lia|]); cbn [fini_loop].
  { cbn in Hl. subst cur. exists w. split; [done|]. cbn. by rewrite app_nil_r. }
  destruct Hl as (-> & d & Hd & Hl). apply NoDup_cons in Hn as [Hni Hn]. destruct (Hs id d) as (Ha & Hi & Hfi); [set_solver|done|].
  erewrite st_bind_ok by (by apply fini_one_run). set (w1 := ended id d w).
  assert (Hd1 : nodes w1 !! id = Some (with_finied d)) by (unfold w1; cbn; apply lookup_insert_eq).
  assert (Hoth : ∀ i, i ∈ l → nodes w1 !! i = nodes w !! i) by (intros i Hil; unfold w1; cbn; apply lookup_insert_ne; intros ->; done).
  erewrite st_bind_ok by (apply node_run; exact Hd1). cbn [fnext with_finied].
  destruct (IH fuel w1 (fnext d)) as (w' & Hrun & Hc & Hfi' & Hdom & Hsame & Hend).
  - eapply fini_links_same; [exact Hl|]. intros i e Hil He. exists e. by rewrite Hoth.
  - done.
  - intros i e Hil He. rewrite Hoth in He by done. apply (Hs i e); [set_solver|done].
  - cbn in Hf. lia.
  - exists w'. split; [done|]. split; [|split; [done|split; [|split]]].
    + rewrite Hc. unfold fns_of. cbn [map concat]. rewrite Hd. change (calls w1) with (calls w ++ finis (mem w) d).
      rewrite <- app_assoc. do 2 f_equal. f_equal. apply map_ext_in. intros i Hil. apply list_elem_of_In in Hil. by rewrite Hoth.
    + rewrite Hdom. unfold w1. cbn. apply dom_insert_lookup_L. by exists d.
    + intros i Hi'. rewrite Hsame by set_solver. unfold w1. cbn. apply lookup_insert_ne. set_solver.
    + split; [done|]. exists (with_finied d). split; [by rewrite Hsame|done].
Qed.

(** Objects that were started, or ended, are passed over. *)
Lemma init_loop_again ids : ∀ fuel w prev cur, links (nodes w) prev cur ids → (length ids < fuel)%nat →
  (∀ id d, id ∈ ids → nodes w !! id = Some d → inited d = true) → init_loop fuel cur w = (Ok (), w).
Proof.
  induction ids as [|id ids IH]; intros fuel w prev cur Hl Hf Hi; (destruct fuel as [|fuel]; [cbn in Hf; lia|]); cbn [init_loop].
  { cbn in Hl. by subst cur. }
  destruct Hl as (-> & d & Hd & _ & Hl). unfold init_one. rewrite (st_bind_ok _ _ _ () w).
  - rewrite (st_bind_ok _ _ _ d w) by by apply node_run. eapply IH; [exact Hl|cbn in Hf; lia|]. intros i e Hin. apply Hi. set_solver.
  - rewrite (st_bind_ok _ _ _ d w) by by apply node_run. by rewrite (Hi id d) by (done || set_solver).
Qed.
Lemma fini_loop_again l : ∀ fuel w cur, ended_links (nodes w) cur l → (length l < fuel)%nat → fini_loop fuel cur w = (Ok (), w).
Proof.
  induction l as [|id l IH]; intros fuel w cur Hl Hf; (destruct fuel as [|fuel]; [cbn in Hf; lia|]); cbn [fini_loop].
  { cbn in Hl. by subst cur. }
  destruct Hl as (-> & d & Hd & Hfi & Hl). unfold fini_one. rewrite (st_bind_ok _ _ _ () w).
  - rewrite (st_bind_ok _ _ _ d w) by by apply node_run. apply IH; [exact Hl|cbn in Hf; lia].
  - rewrite (st_bind_ok _ _ _ d w) by by apply node_run. by rewrite Hfi, andb_false_r.
Qed.

(** The functions of the program that come before all others, when they were not called. *)
Definition preinits w : list Z :=
  match prog w with
  | Some p => match nodes w !! p with Some d => if preinit w then [] else array_fns (mem w) d DT_PREINIT_ARRAY DT_PREINIT_ARRAYSZ | None => [] end
  | None => []
  end.

Lemma do_preinit_run w : (∀ p, prog w = Some p → ∃ d, nodes w !! p = Some d ∧ addressable d) →
  ∃ w1, do_preinit w = (Ok (), w1) ∧ calls w1 = calls w ++ preinits w ∧ nodes w1 = nodes w ∧ mem w1 = mem w ∧
    head w1 = head w ∧ fini w1 = fini w ∧ prog w1 = prog w ∧
    (∀ w2, prog w2 = prog w → preinit w2 = preinit w1 →
       (∀ id d, nodes w !! id = Some d → ∃ d', nodes w2 !! id = Some d' ∧ kept d d') → do_preinit w2 = (Ok (), w2)).
Proof.
  intros Hp. unfold do_preinit. rewrite st_get_bind. unfold preinits. destruct (prog w) as [p|] eqn:Hpr.
  2: { exists w. rewrite app_nil_r. split_and!; try done. intros w2 Hp2 _ _. by rewrite st_get_bind, Hp2. }
  destruct (Hp p eq_refl) as (d & Hd & Ha). rewrite Hd, (st_bind_ok _ _ _ d w) by (by apply node_run).
  rewrite dyn_slice_run, (st_lift_ok _ _ _ _ eq_refl) by done.
  assert (Hag : ∀ w2, prog w2 = Some p → (∀ id d, nodes w !! id = Some d → ∃ d', nodes w2 !! id = Some d' ∧ kept d d') →
    (dyn_val d DT_PREINIT_ARRAY = None ∨ dyn_val d DT_PREINIT_ARRAYSZ = None ∨ preinit w2 = true) →
    do_preinit w2 = (Ok (), w2)).
  { intros w2 Hp2 Hn Hdone. destruct (Hn p d Hd) as (d' & Hd' & Hk). unfold do_preinit. rewrite st_get_bind, Hp2.
    rewrite (st_bind_ok _ _ _ d' w2) by (by apply node_run). rewrite dyn_slice_run, (st_lift_ok _ _ _ _ eq_refl) by by apply (kept_fns d d' (mem w) Hk).
    assert (∀ tag, dyn_val d' tag = dyn_val d tag) as Heq by (intros tag; unfold dyn_val; by rewrite (k_dyn _ _ Hk)). rewrite !Heq.
    destruct (dyn_val d DT_PREINIT_ARRAY), (dyn_val d DT_PREINIT_ARRAYSZ); try done. by destruct Hdone as [?|[?| ->]]. }
  unfold array_fns. destruct (dyn_val d DT_PREINIT_ARRAY) eqn:H1, (dyn_val d DT_PREINIT_ARRAYSZ) eqn:H2; [destruct (preinit w) eqn:Hb| | |];
    [exists w|eexists|exists w|exists w|exists w]; rewrite ?app_nil_r; (split; [reflexivity|]); split_and!; try done;
    try exact Hpr; try (destruct (preinit w); by rewrite app_nil_r); intros w2 Hp2 Hb2 Hn; apply Hag; auto; right; right; congruence.
Qed.

Lemma do_init_run w ids : list_ok w ids → ready w ids → fini w = None →
  (∀ p, prog w = Some p → ∃ d, nodes w !! p = Some d ∧ addressable d) →
  ∃ w', do_init w = (Ok (), w') ∧ calls w' = calls w ++ preinits w ++ fns_of inits w ids ∧ mem w' = mem w ∧
    fini_links (nodes w') (fini w') (reverse ids) ∧ dom (nodes w') = dom (nodes w) ∧
    (∀ id d, nodes w !! id = Some d → ∃ d', nodes w' !! id = Some d' ∧ kept d d' ∧ inited d' = inited d || bool_decide (id ∈ ids)) ∧
    do_init w' = (Ok (), w').
Proof.
  intros [Hl _ Hn _] Hr Hf Hp. unfold do_init at 1. destruct (do_preinit_run w Hp) as (w1 & Hw1 & Hc1 & Hn1 & Hm1 & Hh1 & Hf1 & Hp1 & Hag).
  rewrite (st_bind_ok _ _ _ () w1) by exact Hw1. rewrite st_get_bind, Hh1.
  destruct (init_loop_run ids (list_fuel w1) w1 None (head w) []) as (w' & Hrun & [A1 A2 A3 A4 A5 A6]).
  - by rewrite Hn1.
  - done.
  - intros i e. rewrite Hn1. apply Hr.
  - by rewrite Hf1.
  - intros i Hi. by apply not_elem_of_nil in Hi.
  - unfold list_fuel. rewrite Hn1. pose proof (links_length _ _ _ _ Hl Hn). lia.
  - exists w'. split; [done|]. rewrite A2, Hc1, <- app_assoc. rewrite app_nil_r in A3. rewrite Hn1 in A4, A5.
    split; [unfold fns_of; by rewrite Hm1, Hn1|]. split; [congruence|]. split; [done|]. split; [congruence|]. split; [done|].
    destruct A6 as (A6 & A7 & A8). unfold do_init. rewrite (st_bind_ok _ _ _ () w').
    + rewrite st_get_bind. eapply (init_loop_again ids _ _ None).
      * rewrite A6, Hh1. eapply links_same; [exact Hl|]. intros i e _ He. destruct (A5 i e He) as (e' & He' & [] & _). by exists e'.
      * unfold list_fuel. pose proof (links_length _ _ _ _ Hl Hn). rewrite <- (size_dom (nodes w')), A4, size_dom. lia.
      * intros i e Hi He. destruct (links_node _ _ _ _ i Hl Hi) as [e0 He0]. destruct (A5 i e0 He0) as (e' & He' & _ & Hin).
        rewrite He in He'. injection He' as <-. rewrite Hin, bool_decide_true by done. apply orb_true_r.
    + apply Hag; [congruence|done|]. intros i e He. destruct (A5 i e He) as (e' & He' & Hk & _). by exists e'.
Qed.

Lemma do_fini_run w ids : fini_links (nodes w) (fini w) ids → NoDup ids → startable w ids →
  ∃ w', do_fini w = (Ok (), w') ∧ calls w' = calls w ++ fns_of finis w ids ∧ do_fini w' = (Ok (), w').
Proof.
  intros Hl Hn Hs. unfold do_fini at 1. rewrite st_get_bind.
  assert (Hlen : (length ids < list_fuel w)%nat).
  { unfold list_fuel. enough (length ids ≤ base.size (nodes w))%nat by lia. rewrite <- size_dom, <- (size_list_to_set (C:=gset nat)) by done.
    apply subseteq_size. intros i Hi%elem_of_list_to_set. apply elem_of_dom. by eapply fini_links_node. }
  destruct (fini_loop_run ids (list_fuel w) w (fini w)) as (w' & Hrun & Hc & Hf & Hd & _ & He); [done..|].
  exists w'. split; [done|]. split; [done|]. unfold do_fini. rewrite st_get_bind, Hf. eapply fini_loop_again; [exact He|].
  revert Hlen. unfold list_fuel. by rewrite <- !size_dom, Hd.
Qed.

(** [n] calls in a row. *)
Fixpoint times (n : nat) (m : st ld ld_error ()) : st ld ld_error () := match n with O => mret () | S n => _ ← m; times n m end.

Lemma times_again n m w w' : m w = (Ok (), w') → m w' = (Ok (), w') → times (S n) m w = (Ok (), w').
Proof.
  intros H1 H2. cbn [times]. rewrite (st_bind_ok _ _ _ _ _ H1). induction n as [|n IH]; [done|]. cbn [times]. by rewrite (st_bind_ok _ _ _ _ _ H2).
Qed.

(** C25: however often [do_init] is called at the start and [do_fini] at the end, the
    functions of the objects are called once each: at the start those of the program that
    come before all others, then of every object in the order of the list the function its
    DT_INIT entry leads to and its array; at the end, back from the last object to the first,
    its array backwards and then the function of DT_FINI. (The list is the same throughout; the code takes
    the word at the address of DT_INIT and DT_FINI for the function, and so does [entry_fns].) *)
Theorem init_fini_order w ids m n : list_ok w ids → ready w ids → fini w = None →
  (∀ id d, id ∈ ids → nodes w !! id = Some d → finied d = false) →
  (∀ p, prog w = Some p → ∃ d, nodes w !! p = Some d ∧ addressable d) →
  ∃ w', (_ ← times (S m) do_init; times (S n) do_fini) w = (Ok (), w') ∧
    calls w' = calls w ++ preinits w ++ fns_of inits w ids ++ fns_of finis w (reverse ids).
Proof.
  intros Hok Hr Hf Hnf Hp. destruct (do_init_run w ids Hok Hr Hf Hp) as (w1 & H1 & Hc & Hm & Hfl & Hdom & Hno & Hag).
  destruct Hok as [Hl _ Hn _]. rewrite (st_bind_ok _ _ _ () w1) by by apply times_again.
  assert (Hin : ∀ id, id ∈ reverse ids → is_Some (nodes w !! id)) by (intros id Hid; rewrite reverse_Permutation in Hid; exact (links_node _ _ _ _ _ Hl Hid)).
  destruct (do_fini_run w1 (reverse ids)) as (w' & Hrun & Hc' & Hag'); [done|by rewrite reverse_Permutation| |].
  - intros id d Hid Hd. destruct (Hin id Hid) as [d0 Hd0]. rewrite reverse_Permutation in Hid. destruct (Hno id d0 Hd0) as (d' & Hd' & Hk & Hi).
    rewrite Hd in Hd'. injection Hd' as <-. split; [|split].
    + apply (kept_fns d0 d (mem w) Hk). by apply (Hr id d0).
    + rewrite Hi, bool_decide_true by done. apply orb_true_r.
    + rewrite (k_fini _ _ Hk). by apply (Hnf id d0).
  - exists w'. split; [by apply times_again|]. rewrite Hc', Hc, <- !app_assoc. do 3 f_equal. apply fns_of_same; [done| |done].
    intros id d Hid Hd. destruct (Hno id d Hd) as (d' & Hd' & Hk & _). exists d'. split; [done|]. by apply (kept_fns d d' (mem w) Hk).
Qed.
End order.

(** ** Thread-local variables *)

Section tls.
Context `{P : Profile}.
Implicit Types (w : ld) (t : Tls) (ts : list Tls).

Definition span t : Z := pad_to_align (tlayout t).

(** The blocks follow each other from an offset on. *)
Fixpoint tls_ok (off : Z) ts : Prop :=
  match ts with
  | [] => True
  | t :: ts => toffset t = off ∧ 0 ≤ init_len t ≤ span t ∧ tls_ok (off + span t) ts
  end.

(** What a block holds at the start: the initial data and zeros. *)
Definition block (m : memory) t : list Z := bytes m (init_ptr t) (init_len t) ++ replicate (Z.to_nat (span t - init_len t)) 0.
Definition blocks (m : memory) ts : list Z := concat (map (block m) ts).

Lemma block_length m t : 0 ≤ init_len t ≤ span t → length (block m t) = Z.to_nat (span t).
Proof. intros H. unfold block. rewrite length_app, bytes_length, length_replicate. lia. Qed.
Lemma blocks_cons m t ts : blocks m (t :: ts) = block m t ++ blocks m ts.
Proof. done. Qed.

Lemma tls_push_run m t data : toffset t = Z.of_nat (length data) → 0 ≤ init_len t ≤ span t → toffset t + span t < 2 ^ 64 →
  tls_push (E:=ld_error) m t data = Ok (data ++ block m t).
Proof.
  intros Ho Hi Hb. unfold tls_push. fold (span t). rewrite uadd_ok by lia. cbn [mbind res_bind].
  set (data1 := if _ : bool then _ else _).
  assert (Hd : data1 = data ++ replicate (Z.to_nat (span t)) 0).
  { unfold data1. destruct (Z.gtb_spec (toffset t + span t) (Z.of_nat (length data))) as [H|H].
    - do 2 f_equal. lia.
    - assert (span t = 0) as -> by lia. by rewrite app_nil_r. }
  rewrite Hd. unfold copy_at. rewrite length_app, length_replicate, bytes_length.
  rewrite !(proj2 (Z.ltb_ge _ _)) by lia. rewrite Ho, Nat2Z.id. unfold block. f_equal. rewrite take_app_length. do 2 f_equal.
  rewrite drop_app_add, drop_replicate. f_equal. lia.
Qed.

Lemma push_blocks_run m ts : ∀ data, tls_ok (Z.of_nat (length data)) ts → Z.of_nat (length data) + Z.of_nat (length (blocks m ts)) < 2 ^ 64 →
  push_blocks m ts data = Ok (data ++ blocks m ts).
Proof.
  induction ts as [|t ts IH]; intros data Hok Hb; [by rewrite app_nil_r|]. destruct Hok as (Ho & Hi & Hok). cbn [push_blocks].
  rewrite blocks_cons, length_app, block_length in Hb by done. rewrite tls_push_run by (done || lia). cbn [mbind res_bind].
  rewrite IH; rewrite ?length_app, ?block_length by done.
  - by rewrite blocks_cons, app_assoc.
  - by rewrite Nat2Z.inj_add, Z2Nat.id by lia.
  - lia.
Qed.

Lemma block_at m ts t i : ∀ off, tls_ok off ts → ts !! i = Some t →
  off ≤ toffset t ∧ take (Z.to_nat (span t)) (drop (Z.to_nat (toffset t - off)) (blocks m ts)) = block m t.
Proof.
  revert i. induction ts as [|t0 ts IH]; intros i off Hok Hi; [done|]. destruct Hok as (Ho & Hl & Hok). rewrite blocks_cons. destruct i as [|i].
  - injection Hi as ->. split; [lia|]. rewrite Ho, Z.sub_diag. cbn [drop Z.to_nat]. rewrite <- (block_length m t Hl). apply take_app_length.
  - destruct (IH i (off + span t0) Hok Hi) as [Hle Heq]. split; [lia|]. rewrite <- Heq. f_equal.
    rewrite drop_app_ge by (rewrite block_length by done; lia). f_equal. rewrite block_length by done. lia.
Qed.

Lemma tls_ok_snoc ts t : ∀ off, tls_ok off ts → 0 ≤ init_len t ≤ span t →
  toffset t = (match last ts with Some l => toffset l + span l | None => off end) → tls_ok off (ts ++ [t]).
Proof.
  induction ts as [|t0 ts IH]; intros off Hok Hi Ht; [done|]. destruct Hok as (Ho & Hl & Hok). split; [done|]. split; [done|].
  apply IH; [done|done|]. rewrite Ht, last_cons. destruct (last ts); [done|]. lia.
Qed.

Lemma last_end m ts l : ∀ off, tls_ok off ts → last ts = Some l → toffset l + span l = off + Z.of_nat (length (blocks m ts)).
Proof.
  induction ts as [|t ts IH]; intros off Hok Hl; [done|]. destruct Hok as (Ho & Hi & Hok). rewrite blocks_cons, length_app, block_length by done.
  rewrite last_cons in Hl. destruct (last ts) as [l'|] eqn:E.
  - rewrite (IH _ Hok Hl). lia.
  - apply last_None in E as ->. injection Hl as ->. cbn. lia.
Qed.
Lemma span_ge t : 0 < align (tlayout t) → size (tlayout t) ≤ span t.
Proof.
  intros Ha. unfold span, pad_to_align. set (a := align (tlayout t)) in *. set (z := size (tlayout t)).
  pose proof (Z.div_mod (z + a - 1) a ltac:(lia)). pose proof (Z.mod_pos_bound (z + a - 1) a Ha). lia.
Qed.

(** The blocks of thread-local variables lie one behind the other, also after another
    object was loaded, which gets the number of its block; the data of a new thread are the
    blocks, each with the initial data of its object and zeros behind them. *)
Theorem tls_blocks w d h : tls_ok 0 (tls w) → 0 ≤ p_filesz h ≤ p_memsz h → 0 ≤ p_align h → Z.of_nat (length (blocks (mem w) (tls w))) < 2 ^ 64 →
  (∀ d' w', load_tls d h w = (Ok d', w') →
     ∃ t, tls w' = tls w ++ [t] ∧ tls_ok 0 (tls w') ∧ dtls d' = Some (Z.of_nat (length (tls w))) ∧ p_memsz h ≤ span t) ∧
  push_blocks (mem w) (tls w) [] = Ok (blocks (mem w) (tls w)) ∧
  ∀ i t, tls w !! i = Some t → take (Z.to_nat (span t)) (drop (Z.to_nat (toffset t)) (blocks (mem w) (tls w))) = block (mem w) t.
Proof.
  intros Hok Hh Ha Hb. split; [|split].
  - intros d' w' H. unfold load_tls in H. apply st_ok_inv in H as (l & w0 & Hl & H). destruct (from_size_align (p_memsz h) (p_align h)) as [l0|] eqn:Hfs; [|discriminate].
    injection Hl as <- <-. apply st_ok_inv in H as (p & w1 & Hp & H). unfold lift in Hp. injection Hp as Hp <-. rewrite st_get_bind in H.
    apply st_ok_inv in H as (o & w2 & Ho & H). unfold lift in Ho. injection Ho as Ho <-. rewrite st_modify_bind in H. injection H as <- <-.
    unfold from_size_align in Hfs. destruct (negb _ && _ && _) eqn:Hc in Hfs; [|done]. injection Hfs as <-. apply andb_true_iff in Hc as [Hc1 _]. apply andb_true_iff in Hc1 as [Hc1 _].
    apply negb_true_iff, Z.eqb_neq in Hc1. set (t := MkTls _ _ _ _). assert (Hsp : p_memsz h ≤ span t) by (apply (span_ge t); cbn; lia).
    exists t. cbn [tls set_tls dtls with_tls]. split; [done|]. split; [|done]. apply tls_ok_snoc; [done|change (init_len t) with (p_filesz h); lia|]. change (toffset t) with o.
    destruct (last (tls w)) as [x|] eqn:Hx; [|by injection Ho as <-]. pose proof (last_end (mem w) _ _ _ Hok Hx). fold (span x) in Ho.
    rewrite uadd_ok in Ho by lia. by injection Ho as <-.
  - rewrite push_blocks_run; [done|done|cbn; lia].
  - intros i t Ht. destruct (block_at (mem w) _ t i 0 Hok Ht) as [_ Heq]. by rewrite Z.sub_0_r in Heq.
Qed.
End tls.

(** ** Relocations get the addresses of definitions *)

Section relocate.
Context `{P : Profile}.
Implicit Types (w : ld) (d : Dso) (ids : list nat).

(** The word at [place] is [v] and nothing else changes. *)
Definition word_set w w' (place v : Z) : Prop :=
  read_u64 (mem w') place = v ∧ (∀ x, x < place ∨ place + 8 ≤ x → byte (mem w') x = byte (mem w) x) ∧ w' = set_mem (mem w') w.

Lemma write_word_set w place v : 0 ≤ v < 2 ^ 64 → word_set w (set_mem (write_u64 place v (mem w)) w) place v.
Proof.
  intros Hv. split; [by apply read_write_same|]. split; [|done]. intros x Hx. cbn [mem set_mem]. unfold write_u64. apply store_out. rewrite to_le_length. lia.
Qed.

Definition takes_address (ty : Z) : Prop := ty = R_64 ∨ ty = R_GLOB_DAT ∨ ty = R_JUMP_SLOT.

(** What the symbol of a relocation is bound to: nothing for the symbol of index 0,
    itself for a section, and otherwise the definition of its name in the list of the
    objects, or nothing when there is none and the symbol is weak and undefined. A
    strong symbol without a definition has no binding. *)
Definition binding w ids id d r sym : option (option (nat * Sym)) :=
  if sym_index r =? 0 then Some None
  else if sym_type (st_info sym) =? STT_SECTION then Some (Some (id, sym))
  else
    match pick None (omap (candidate w (get_str (mem w) (dsyms d) (st_name sym)) None (rty r =? R_JUMP_SLOT)) ids) with
    | Some x => Some (Some x)
    | None => if (st_shndx sym =? SHN_UNDEF) && (sym_bind (st_info sym) =? STB_WEAK) then Some None else None
    end.
Definition address w (x : option (nat * Sym)) : Z :=
  match x with
  | Some (i, s) => match nodes w !! i with Some e => at_base e (st_value s) | None => 0 end
  | None => 0
  end.

Lemma pick_in l x : pick None l = Some x → x ∈ l.
Proof.
  unfold pick. destruct (list_find _ l) as [[i y]|] eqn:Hf.
  - apply list_find_Some in Hf as (Hl & _). intros [= <-]. by eapply list_elem_of_lookup_2.
  - destruct (last _) as [y|] eqn:Hl.
    + intros [= <-]. apply last_Some_elem_of, list_elem_of_filter in Hl as [_ Hl]. done.
    + destruct l; [done|]. intros [= <-]. by apply elem_of_cons; left.
Qed.

Lemma binding_run w ids id d r sym : list_ok w ids → takes_address (rty r) →
  searchable w (get_str (mem w) (dsyms d) (st_name sym)) ids →
  reloc_def w id d r sym = match binding w ids id d r sym with Some x => Ok x | None => Panic end.
Proof.
  intros Hok Hty Hs. assert (Hcopy : (rty r =? R_COPY) = false) by (destruct Hty as [->|[->| ->]]; done).
  unfold reloc_def, binding. rewrite Hcopy. destruct (sym_index r =? 0); [done|]. destruct (_ =? STT_SECTION); [done|].
  rewrite (find_symbol_run w _ None _ ids Hok Hs). cbn [mbind res_bind]. destruct (pick _ _) as [x|]; [done|].
  rewrite bool_decide_true by done. cbn [andb]. by destruct (st_shndx sym =? _), (sym_bind (st_info sym) =? _).
Qed.

Lemma binding_node w ids id d r sym i s : nodes w !! id = Some d → binding w ids id d r sym = Some (Some (i, s)) → is_Some (nodes w !! i).
Proof.
  intros Hd. unfold binding. destruct (_ =? 0); [done|]. destruct (_ =? STT_SECTION); [intros [= <- <-]; by exists d|].
  destruct (pick _ _) as [x|] eqn:Hp; [|by destruct (_ && _)]. intros [= ->]. apply pick_in, list_elem_of_omap in Hp as (j & _ & Hc).
  unfold candidate in Hc. case_bool_decide; [done|]. destruct (nodes w !! j) as [e|] eqn:He; [|done]. cbn in Hc.
  repeat case_match; try done. injection Hc as <- _. by exists e.
Qed.

Lemma wrap_add_l a b : wrap W (wrap W a + b) = wrap W (a + b).
Proof. unfold wrap. apply Zplus_mod_idemp_l. Qed.

(** The two additions, of the base and of the addend: a carry stops the linker when
    overflow is checked, and is dropped otherwise. *)
Lemma address_sum w x a : (∀ i s, x = Some (i, s) → is_Some (nodes w !! i)) → 0 ≤ address w x → 0 ≤ a →
  (v ← (match x with Some (i, s) => e ← unwrap (nodes w !! i); base_ptr (E:=ld_error) (dbase e) (st_value s) | None => Ok 0 end); v +! a) =
  if overflow_checks && (2 ^ 64 <=? address w x + a) then Panic else Ok (wrap W (address w x + a)).
Proof.
  intros Hn. assert (Hadd : ∀ v, 0 ≤ v → 0 ≤ a → uadd (E:=ld_error) W v a = if overflow_checks && (2 ^ 64 <=? v + a) then Panic else Ok (wrap W (v + a))).
  { intros v Hv Ha. unfold uadd, checked, fits. destruct (Z.leb_spec 0 (v + a)), (Z.ltb_spec (v + a) (2 ^ 64)), (Z.leb_spec (2 ^ 64) (v + a)); try lia;
      cbn; destruct overflow_checks; cbn; rewrite ?wrap_small by lia; done. }
  destruct x as [[i s]|]; [|intros _ Ha; cbn [mbind res_bind address]; by apply Hadd]. destruct (Hn i s eq_refl) as [e He]. cbn [address]. rewrite He.
  cbn [unwrap mbind res_bind]. unfold at_base, base_ptr. destruct (dbase e) as [b|b]; intros Hv Ha; cbn [mbind res_bind]; [|by apply Hadd].
  change (uadd W b (st_value s)) with (checked (E:=ld_error) W (b + st_value s)). unfold checked at 1, fits at 1.
  destruct (Z.leb_spec 0 (b + st_value s)), (Z.ltb_spec (b + st_value s) (2 ^ 64)); try lia; cbn [andb mbind res_bind]; [by apply Hadd|].
  destruct overflow_checks eqn:Hc; cbn [mbind res_bind andb].
  - destruct (Z.leb_spec (2 ^ 64) (b + st_value s + a)); [done|lia].
  - rewrite Hadd by (done || apply wrap_bound; lia). by rewrite wrap_add_l.
Qed.

(** C18: a relocation that takes the address of a symbol (in the table of its object,
    with a name that can be looked up) writes, at its place and nowhere else, the address
    of the definition the symbol is bound to plus the addend, as machine words; the
    addend alone for the symbol of index 0 and for a weak undefined one without a
    definition. When overflow is checked and the sum does not fit, as with negative addends,
    and when any other symbol has no definition, the linker stops and nothing is written. *)
Theorem relocation_binds w ids id d r sym place : list_ok w ids → nodes w !! id = Some d → base_ptr (E:=ld_error) (dbase d) (roffset r) = Ok place →
  sym_get (dsyms d) (sym_index r) = Some sym → takes_address (rty r) → 0 ≤ addend r →
  searchable w (get_str (mem w) (dsyms d) (st_name sym)) ids →
  match binding w ids id d r sym with
  | None => relocate_one id r w = (Panic, w)
  | Some x =>
      let v := address w x in
      0 ≤ v →
      if overflow_checks && (2 ^ 64 <=? v + addend r) then relocate_one id r w = (Panic, w)
      else ∃ w', relocate_one id r w = (Ok false, w') ∧ word_set w w' place (wrap W (v + addend r))
  end.
Proof.
  intros Hok Hd Hpl Hsym Hty Ha Hs. pose proof (binding_run w ids id d r sym Hok Hty Hs) as Hdef.
  pose proof (binding_node w ids id d r sym) as Hnode. unfold relocate_one. rewrite st_get_bind. rewrite (st_bind_ok _ _ _ d w) by (by apply node_run).
  rewrite Hpl, (st_lift_ok _ _ _ _ eq_refl), Hsym, Hdef. destruct (binding w ids id d r sym) as [x|]; [|done].
  intros Hv. rewrite (st_lift_ok _ _ _ _ eq_refl). pose proof (address_sum w x (addend r) ltac:(intros i s ->; by eapply Hnode) Hv Ha) as Hsum.
  assert ((rty r =? R_NONE) = false ∧ ((rty r =? R_64) || (rty r =? R_GLOB_DAT) || (rty r =? R_JUMP_SLOT)) = true) as [-> ->]
    by (destruct Hty as [->|[->| ->]]; done).
  destruct (match x with Some _ => _ | None => _ end) as [y|e|] eqn:Hy; cbn [mbind res_bind] in Hsum.
  - rewrite (st_lift_ok (Ok y) _ _ _ eq_refl), Hsum. destruct (_ && _); [done|]. rewrite (st_lift_ok (Ok _) _ _ _ eq_refl).
    eexists. split; [reflexivity|]. apply write_word_set, (wrap_bound W). lia.
  - by destruct (_ && _).
  - by destruct (_ && _).
Qed.
End relocate.

(** ** Two objects *)

Module DsoWitness.
Import ElfWitness.

(** The names a and b, the functions of the first object, and words to relocate. *)
Definition two_mem : memory :=
  store 4608 (words_le 8 [11; 12]) (store 4640 (words_le 8 [13; 14]) (store 8704 (words_le 8 [21]) (store 8736 (words_le 8 [23]) (store 100 [0; 97; 0; 98; 0] ∅)))).
Definition weak_a : Sym := MkSym 1 33 0 1 16 8.
Definition global_a : Sym := MkSym 1 17 0 1 32 8.
Definition weak_b : Sym := MkSym 3 33 0 0 0 0.
Definition null_sym : Sym := MkSym 0 0 0 0 0 0.
Definition arrays (n : Z) : list Dyn :=
  [MkDyn DT_INIT_ARRAY 512; MkDyn DT_INIT_ARRAYSZ n; MkDyn DT_FINI_ARRAY 544; MkDyn DT_FINI_ARRAYSZ n].
Definition dso0 : Dso := MkDso (Some 1%nat) None None (DynBase 4096) [120] (arrays 16) (Raw [null_sym; weak_a; weak_b] 100) None false false false.
Definition dso1 : Dso := MkDso None (Some 0%nat) None (DynBase 8192) [121] (arrays 8) (Raw [null_sym; global_a] 100) None false false false.
Definition two : ld := MkLd two_mem {[0%nat := dso0; 1%nat := dso1]} 2 (Some 0%nat) (Some 1%nat) None None ∅ [MkTls (MkLayout 4 4) 101 2 0] [] false [].

Lemma two_ok : list_ok two [0%nat; 1%nat].
Proof.
  split; [|done|refine (bool_decide_unpack _ _); vm_compute; exact I|].
  - split; [done|]. exists dso0. split; [done|]. split; [done|]. split; [done|]. exists dso1. split; [done|]. split; done.
  - intros id [d Hd]. change (nodes two) with (<[0%nat := dso0]> ({[1%nat := dso1]} : gmap nat Dso)) in Hd. apply lookup_insert_Some in Hd as [[<- _]|[_ Hd]]; [cbn; lia|]. apply lookup_singleton_Some in Hd as [<- _]. cbn. lia.
Qed.
Lemma two_searchable name : searchable two name [0%nat; 1%nat].
Proof.
  intros id d Hid Hd. apply elem_of_cons in Hid as [->|Hid]; [injection Hd as <-; by eexists|]. apply list_elem_of_singleton in Hid as ->.
  injection Hd as <-. by eexists.
Qed.

Lemma find_symbol_spec_witness : find_symbol two [97] None false = Ok (Some (1%nat, global_a)).
Proof. rewrite (find_symbol_spec two [97] None false [0%nat; 1%nat] two_ok (two_searchable _)). vm_compute. reflexivity. Defined.

Lemma relocation_binds_witness : ∃ w, relocate_one 0 (MkReloc 256 8 R_64 1) two = (Ok false, w) ∧ read_u64 (mem w) 4352 = 8232.
Proof.
  pose proof (relocation_binds two [0%nat; 1%nat] 0 dso0 (MkReloc 256 8 R_64 1) weak_a 4352 two_ok eq_refl eq_refl eq_refl (or_introl eq_refl)
    ltac:(done) (two_searchable _)) as H.
  assert (binding two [0%nat; 1%nat] 0 dso0 (MkReloc 256 8 R_64 1) weak_a = Some (Some (1%nat, global_a))) as Hb by (vm_compute; reflexivity).
  rewrite Hb in H. cbv zeta in H. assert (address two (Some (1%nat, global_a)) = 8224) as Hv by (vm_compute; reflexivity). rewrite Hv in H.
  specialize (H ltac:(done)). change (2 ^ 64 <=? 8224 + _) with false in H. rewrite andb_false_r in H. destruct H as (w & Hw & Hr & _). exists w. split; [exact Hw|]. rewrite Hr. reflexivity.
Defined.

Lemma dso_list_refines_witness : ∃ d w, pop [0%nat] 1 two = (Ok (Some d), w) ∧ list_ok w [0%nat].
Proof.
  destruct (dso_list_refines 0 two [0%nat; 1%nat] two_ok) as (_ & H & _).
  destruct (H [0%nat] 1%nat) as (d & w & l1 & l2 & Hids & Hp & Hok); [set_solver|set_solver|]. exists d, w. split; [done|].
  destruct l1 as [|x [|y l1]]; [done| |by destruct l1]. by injection Hids as <- <-.
Defined.

Lemma addressable_of d : (∀ y, y ∈ dynamic d → 0 ≤ at_base d (d_val y) < 2 ^ 64) → addressable d.
Proof.
  intros H tag v. unfold dyn_val. induction (dynamic d) as [|y l IH]; [done|]. cbn [find_tag]. case_match.
  - intros [= <-]. apply H. set_solver.
  - apply IH. intros z Hz. apply H. set_solver.
Qed.

Lemma init_fini_order_witness : ∃ w, (_ ← times 2 do_init; times 2 do_fini) two = (Ok (), w) ∧ calls w = [11; 12; 21; 23; 14; 13].
Proof.
  assert (Hd : ∀ id d, id ∈ [0%nat; 1%nat] → nodes two !! id = Some d → d = dso0 ∨ d = dso1).
  { intros id d Hid Hd. apply elem_of_cons in Hid as [->|Hid]; [injection Hd; auto|]. apply list_elem_of_singleton in Hid as ->. injection Hd; auto. }
  assert (Ha : addressable dso0 ∧ addressable dso1).
  { split; apply addressable_of; apply Forall_forall; refine (bool_decide_unpack _ _); vm_compute; exact I. }
  destruct (init_fini_order two [0%nat; 1%nat] 1 1 two_ok) as (w & Hw & Hc); [|done| |done|].
  - intros id d Hid H. destruct (Hd id d Hid H) as [-> | ->]; tauto.
  - intros id d Hid H. by destruct (Hd id d Hid H) as [-> | ->].
  - exists w. split; [done|]. rewrite Hc. vm_compute. reflexivity.
Defined.

Lemma tls_blocks_witness : push_blocks two_mem (tls two) [] = Ok [97; 0; 0; 0].
Proof.
  destruct (tls_blocks two dso0 (MkPh 7 4 0 0 1 1 1)) as (_ & H & _); [by vm_compute|cbn; lia|cbn; lia|by vm_compute|].
  exact H.
Defined.
(** An empty relocation ends the table: the one that follows is not applied. *)
Definition rela_mem : memory := store 300 (words_le 8 [256; 0; 0; 264; 8; 5]) two_mem.
Definition with_mem (m : memory) : ld := set_mem m two.
Example none_ends_table :
  read_u64 (mem (reloc_loop rela_at 24 0 2 300 (with_mem rela_mem)).2) 4360 = 0 ∧
  read_u64 (mem (reloc_loop rela_at 24 0 1 324 (with_mem rela_mem)).2) 4360 = 4101.
Proof. split; vm_compute; reflexivity. Qed.

(** A relocation without addend loses the one in memory: 7 at the base is to become 4103. *)
Example rel_addend_lost :
  read_u64 (mem (reloc_loop rel_at 16 0 1 300 (with_mem (store 300 (words_le 8 [256; 8]) (store 4352 (words_le 8 [7]) two_mem)))).2) 4352 = 4096.
Proof. vm_compute. reflexivity. Qed.

(** A relocation of 32 bits overwrites the four bytes after it. *)
Example pc32_overwrites :
  (byte (mem (relocate_one 0 (MkReloc 256 8 R_PC32 1) (with_mem (store 4352 [1; 1; 1; 1; 9; 9; 9; 9] two_mem))).2)) <$> seqZ 4352 8
  = [40; 15; 0; 0; 0; 0; 0; 0].
Proof. vm_compute. reflexivity. Qed.

(** A negative addend panics with overflow checks, and is taken without. *)
Example negative_addend :
  (@relocate_one true 0 (MkReloc 256 (2 ^ 64 - 8) R_64 1) two).1 = Panic ∧
  read_u64 (mem (@relocate_one false 0 (MkReloc 256 (2 ^ 64 - 8) R_64 1) two).2) 4352 = 8216.
Proof. split; vm_compute; reflexivity. Qed.

(** An object taken out after its initialisation is still in the chain of those to finish. *)
Example pop_leaves_fini : ((_ ← do_init; _ ← pop [] 1; do_fini) two).1 = Panic.
Proof. vm_compute. reflexivity. Qed.

(** The entry DT_INIT points to code; what is called is its first eight bytes. *)
Example init_reads_code :
  calls (init_one 1 (set_nodes (<[1%nat := MkDso None (Some 0%nat) None (DynBase 8192) [121] [MkDyn DT_INIT 512] (dsyms dso1) None false false false]> (nodes two)) two)).2
  = [21].
Proof. vm_compute. reflexivity. Qed.

(** A block of alignment 16 is put at offset 4. *)
Example tls_unaligned : toffset <$> last (tls (load_tls dso1 (MkPh 7 4 0 0 1 16 16) two).2) = Some 4.
Proof. vm_compute. reflexivity. Qed.

(** A program that needs B and C, where B needs C: files 0, 1 and 2, loaded at 4096 times their number. *)
Definition dyn_words (needs : list Z) : list Z := [DT_SYMTAB; 512; DT_STRTAB; 768] ++ concat ((λ n, [DT_NEEDED; n]) <$> needs) ++ [0; 0].
Definition file_base (f : nat) : Z := 65536 + 4096 * Z.of_nat f.
Definition file_mem (f : nat) (needs : list Z) (m : memory) : memory :=
  store (file_base f) (words_le 8 (dyn_words needs)) (store (file_base f + 768) [0; 66; 0; 67; 0] m).
Definition three : memory := file_mem 0 [1; 3] (file_mem 1 [3] (file_mem 2 [] ∅)).
Definition load_file (f : nat) (m : memory) : res ld_error LoadedElf * memory :=
  (Ok (MkElf true f (file_base f) (file_base f + 4096) None 0 (Some (MkPh 2 4 0 0 128 128 8)) None 0), m).
Definition objects (l : list (list Z)) : res ld_error (list nat) := Ok ((λ n, if bool_decide (n = [66]) then 1%nat else 2%nat) <$> l).
Definition nothing (m : memory) : ld := MkLd m ∅ 0 None None None None ∅ [] [] false [].

(** C is loaded twice, by B and by the program. *)
Example diamond_twice :
  (λ d, (dname d.2)) <$> map_to_list (nodes (load 0 load_file objects 8 4 0%nat [65] true (nothing three)).2) ≡ₚ [[67]; [66]; [67]; [65]].
Proof. refine (bool_decide_unpack _ _). vm_compute. exact I. Qed.

(** When C cannot be loaded, B is not unloaded and its name is forgotten. *)
Example failed_load_stays :
  let r := load 0 (λ f m, if bool_decide (f = 2%nat) then (Err ElfLoad, m) else load_file f m) objects 8 4 0%nat [65] true
    (nothing (file_mem 0 [1; 3] (file_mem 1 [] ∅))) in
  r.1 = Err ElfLoad ∧ (λ d, dname d.2) <$> map_to_list (nodes r.2) = [[66]] ∧ names r.2 = ∅.
Proof. split; [vm_compute; reflexivity|]. split; vm_compute; reflexivity. Qed.
End DsoWitness.
